(* ===== verification/_CoqProject ===== *)
-Q . S2P
Prelude.v
RustStr.v
Json.v
Glob.v
PolicyTypes.v
Signing.v
Bundle.v
PolicyEngine.v
Canonical.v
Jql.v
Extractors.v
Config.v
NetAddr.v
F64.v
Scope.v
ResponseCache.v
RateLimit.v
DiskQuota.v
Egress.v
Transport.v
Multipart.v
Upload.v
Credentials.v
ToolCall.v
Revocation.v
Session.v
Inbound.v
Oidc.v
Chain.v
Journal.v
Verify.v
JournalExample.v
Forward.v
Receivers.v
Reports.v
Admin.v
SqlGuard.v
Writer.v
Ingestion.v
Merge.v
Artifacts.v
Downloads.v
UploadInput.v
BitbucketUpload.v
BTree.v
Timestamps.v
Rollups.v
Consumer.v
Secrets.v
Vault.v
Startup.v
Routes.v
Totp.v
Tokens.v
Databases.v
Ema.v
NinjaLogin.v
