(* ===== verification/Prelude.v ===== *)
(** * mcp-server-devtools: a verification of its enforcement core

    The program is an MCP server that lets a model call developer tools
    (Jira, Slack, Grafana, GitHub and others) with an enterprise's own
    credentials.  What has to be right is what stands between a caller and an
    upstream API: who is calling, what the policy says of the call and of each
    HTTP request it makes, that the evidence is durable before anything
    happens, and that shared resources (sessions, caches, rates, disk) stay
    partitioned and bounded.  This library models that core, file by file as
    the sources have it, and proves what makes it correct.

    ** Parts and how they interact

    The server starts from its configuration or refuses to ([NetAddr],
    [Startup]; src/src/server/http.rs, src/src/bootstrap/), and routes requests
    through the layers of its role ([Routes], src/src/server/http.rs).  A
    request passes the bearer middleware ([Inbound], src/src/server/auth.rs), which asks the token validator
    ([Oidc], src/src/auth/oidc.rs), the revocation list ([Revocation],
    src/src/auth/revocation.rs) and the rate limiter ([RateLimit],
    src/src/server/rate_limit.rs), then the session binding ([Session],
    src/src/server/session.rs).  A tool call ([ToolCall],
    src/src/tools/mod.rs) extracts what the call does ([Extractors] and
    [Jql], src/src/policy/extractors.rs and native.rs), asks the policy
    ([PolicyEngine], src/src/policy/engine.rs), appends an intent record to
    the journal and dispatches.  Every upstream request goes through
    [Transport] (src/src/transport/mod.rs, redirect.rs, retry.rs), which
    canonicalizes the target ([Canonical], src/src/policy/canonical.rs),
    authorizes it ([Egress], src/src/policy/egress.rs), notes it in the call's
    scope ([Scope], src/src/policy/scope.rs), may answer from the cache
    ([ResponseCache], src/src/transport/response_cache.rs) and takes disk from
    one shared budget ([DiskQuota], src/src/transport/mod.rs).  Uploads and
    images have transport calls of their own ([Multipart], [Upload];
    src/src/transport/multipart.rs, image.rs), behind the input checks and the
    Bitbucket controller ([UploadInput], [BitbucketUpload];
    src/src/controllers/upload.rs, bitbucket_downloads.rs).  Policies and
    revocation lists are signed bundles that are polled and swapped while the
    server runs ([Bundle], [Signing]; src/src/policy/bundle.rs, signing.rs).
    Evidence is an append-only hash-chained journal with signed checkpoints
    ([Chain], [Journal]; src/src/audit/checkpoint.rs, journal.rs), read back
    and verified offline ([Verify]; reader.rs, verify.rs), copied to a SIEM by
    a shipper with its own cursor ([Forward], [Receivers];
    src/src/audit/forward/) and summarized into access reviews and activity
    exports ([Reports], src/src/audit/export.rs).

    Which credential a call acts with is predicted before dispatch from the
    same cascade the clients resolve their secrets with ([Credentials];
    src/src/auth/mod.rs, secrets.rs, keychain.rs, credential_broker.rs).
    Policies, revocations and reports are administered over a separate
    boundary ([Admin]; src/src/server/admin.rs, src/src/policy/admin.rs).
    Vendors that exchange their credentials for tokens keep them in caches of
    their own ([Tokens]; src/src/vendor/mend/token.rs, zoom/token.rs), and one
    signs in to a console with one-time passwords and keeps its sessions
    ([Totp], [NinjaLogin]; src/src/vendor/ninjaone/).  Enterprise-managed
    clients obtain their own access tokens in two grants ([Ema];
    src/src/auth/ema.rs).  The database tools ([Databases];
    src/src/vendor/ninjaone_db/, postgres/, wrds/) reach PostgreSQL servers of
    an allow-list, behind the read-only check of SQL text ([SqlGuard];
    src/src/vendor/ninjaone_db/read_only_sql.rs).

    Large responses become files: a writer with a preview ([Writer]), a
    registry of them with read pins, retention and reclamation ([Artifacts])
    and the two ways to read one back ([Downloads]); all of
    src/src/transport/raw_response.rs, with the handlers of
    src/src/tools/artifact.rs and src/src/server/http.rs.  Logs are fetched as
    time partitions ([Ingestion]) and merged into one file ([Merge]; both of
    src/src/ingestion.rs).  Every call leaves a usage event, which a bounded
    channel and its consumer ([Consumer]; src/src/ports/usage_sink.rs,
    src/src/rollups/consumer.rs) put into one of two stores ([Rollups];
    src/src/ports/rollup_store.rs, src/src/rollups/sqlite.rs) under the
    timestamps of [Timestamps] (src/src/logger.rs).  Configuration values may
    name secrets, which are fetched at startup and refreshed while the
    configuration is watched and reloaded ([Secrets]; src/src/secrets/,
    src/src/bootstrap/secrets.rs, watcher.rs), from files or from a Vault
    ([Vault]; src/src/secrets/vault.rs).

    ** Files

    - [Prelude]: [result] and its [let?], generic lemmas, tactics and hint
      databases.  [RustStr]: the [str] and byte operations the sources use.
      [Json]: JSON values, machine integers with their checked arithmetic and
      decimal rendering.  [F64]: binary64 arithmetic and [Duration]s.
    - [Glob], [PolicyTypes], [PolicyEngine]: the wildcard matcher, the policy
      vocabulary (principals, scopes, action contexts), rules and decisions.
    - [Signing], [Bundle]: detached signatures under a document domain; load,
      stage, commit and journal of signed documents.
    - [Canonical], [Jql], [Extractors]: request targets, JQL project claims,
      and what a request or tool call is classified as.
    - [Config]: the configuration cascade and its typed settings.
    - [Scope], [Egress], [Transport], [ToolCall]: the effectful pipeline, as an
      explicit state-and-trace monad [EM] whose trace lists decisions, journal
      appends, requests sent, token exchanges, database statements and usage
      records in order, with a weakest precondition [wp] for the proofs.
    - [Multipart], [Upload], [UploadInput], [BitbucketUpload]: multipart bodies
      with a receiver to specify them, the upload and image calls in the same
      monad, the input of uploads, the controller.
    - [ResponseCache], [RateLimit], [DiskQuota]: shared state with bounds.
    - [Revocation], [Session], [Inbound], [Oidc]: authentication.
    - [Chain], [Journal], [Verify], [JournalExample]: evidence, with a concrete
      codec under which every hypothesis about the real one holds.
    - [Forward], [Receivers], [Reports]: the shipper composed with the
      journal's writer as one transition relation, the syslog and HTTP
      receivers it talks to, and the reports over the records.
    - [Credentials]: the secret registry, the resolution cascade, keychain
      backends and the brokers.  [Admin]: the administrative handlers and
      their mutation gate.  [SqlGuard]: the SQL tokenizer and its verdict.
      [Databases]: the environments document, connections and the statements
      sent on them, for both database vendors.
    - [Totp], [Tokens], [NinjaLogin], [Ema]: seeds, base32 and codes; the
      vendor token caches and console sessions as critical sections that
      interleave; the two grants as a log of requests.
    - [Writer], [Artifacts], [Downloads]: the artifact writer, the registry as
      critical sections that interleave, and range and chunk reads.
    - [Ingestion], [Merge]: interval partitions and time bounds; partition
      files, their validation and the heap merge.
    - [BTree], [Timestamps], [Rollups], [Consumer]: grouping by sorted key, the
      calendar, usage reports in memory and in SQL, the usage pipeline.
    - [Secrets], [Vault]: sources, the resolver, the snapshot in force; the
      token lifecycle and the reads of the Vault source.
    - [NetAddr], [Startup], [Routes]: socket addresses as [std::net] reads
      them and the loopback test of URL hosts that the token, Vault and grant
      clients share; roles and origins; the start as one function of the configuration
      and of what the host answers; the application as one function of a
      request.

    ** What the theorems show

    - Enforcement: no dispatch without an allowing decision and an
      acknowledged intent, whether the call leaves by the transport, a token
      exchange or a database statement; every request of the transport
      authorized and recorded first; failures close ([call_evidence_before_dispatch],
      [call_egress_accounted], [call_fails_closed], [redirect_chain_safe]).
    - Policy: evaluation is the documented contract, denies override, allows
      cover every id, compiled policies are well formed, the wildcard loop is
      the glob relation ([evaluate_refines_contract], [evaluate_deny_overrides],
      [allow_covers_every_id], [compiled_policy_well_formed],
      [glob_loop_is_glob]).
    - Targets: canonical targets satisfy the invariants the code asserts, are
      fixed points of parse and print, and the one-buffer loop is the segment
      stack ([canonical_target_invariants], [canonical_wire_roundtrip],
      [canonical_path_refines_stack]); scopes claimed by extraction are named
      by the request ([egress_scope_named_by_request]) and sound for JQL as a
      lexer and grammar of its own read it, when its conjunctions are written
      as words ([jql_claim_sound]; symbols are where the claim falls short,
      [jql_claim_admits_pipe_or], [jql_claim_swallows_symbol]).
    - Bundles: the document in force is authentic, changes are journaled
      before they take effect ([bundle_in_force_authentic],
      [bundle_changes_journaled_first]).
    - Evidence: acknowledged records survive crashes, recovery reproduces the
      writer's state, verification accepts what the writer wrote and a
      checkpoint pins its prefix ([journal_acknowledged_durable],
      [journal_recovers], [verify_accepts_writer],
      [verified_checkpoint_pins_prefix]).
    - Authentication: exactly the valid, unrevoked, in-scope, in-budget
      requests pass; accepted tokens were verified with a published key;
      sessions belong to their creator ([bearer_admits_exactly],
      [protected_route_guarded], [oidc_accepts_only_verified],
      [oidc_cache_follows_keys], [session_belongs_to_creator]).
    - Start and routing: a server that serves with authentication has a
      signed policy, a revocation list, a journal and a signing key in force,
      recorded before the port opens, and one without authentication listens
      on this machine only ([startup_fails_closed]); every request is answered
      by a layer or reaches its handler as the layers allow ([app_guarded]).
    - Uploads: the encoder's body is read back by a receiver
      ([multipart_roundtrip]); accepted files keep within the limits
      ([prepared_within_limits]); a call sends at most one upload, of exactly
      the files asked for ([bb_upload_sends_prepared]).
    - Forwarding: what a receiver holds is the journal's durable records in
      order and without gap across crashes of either side; a reachable
      receiver is caught up in a bounded number of turns; a syslog stream
      splits back into the frames sent ([forwarded_without_gap],
      [drain_catches_up], [syslog_stream_splits]).
    - Reports: the rule that decides a reviewed subject's call is a row of the
      review and every row is such a rule, the activity report is the records
      its filter keeps, the CSV form reads back as the rows it was written
      from ([access_review_complete],
      [export_csv_roundtrip], [activity_export_exact]).
    - Credentials: the broker names the slot the client acts with, a label
      carries no secret, resolution is the documented order, slots do not
      interfere ([broker_names_acting_slot], [broker_label_secret_free],
      [secret_resolution_exact], [keychain_slots_isolated]).
    - Administration: nothing changes without an admitted and journaled
      intent, and the documents in force stay authentic and on record through
      any mix of requests, polls and failures
      ([admin_mutation_guarded], [admin_documents_upheld]).
    - Databases: SQL is admitted exactly when it is one reading statement
      ([sql_guard_exact]); every connection goes to a listed target with its
      own credentials and carries a prefix of the read-only exchange
      ([ninja_db_confined], [wrds_confined]); the row limit, though, can be
      commented out ([row_limit_commented_out]).
    - Vendor secrets: codes are RFC 6238's and base32 reads back
      ([totp_code_exact], [base32_roundtrip]); user keys, refresh tokens and
      bearers stay with the identity they are for ([mend_tokens_confined]),
      console passwords and session keys with their account and server
      ([ninja_secrets_confined]), identity assertions with their issuers
      ([ema_assertions_confined]).
    - Shared state: a hit is the entry stored, as it reads back; caches, rates
      and disk stay within their limits and a passed check is paid for;
      waiters are served in order and none is forgotten
      ([cache_hit_is_stored], [cache_stays_bounded], [rate_limit_sound],
      [disk_quota_conserved], [disk_queue_fair]).
    - Artifacts: a pinned file stays on disk with its committed bytes through
      any interleaving in which no operation cleans up after itself (cleanup
      removes pinned files too), a download or a sequence of chunks is those
      bytes, and chunked reading ends ([artifact_pins_protect],
      [download_streams_committed], [chunked_read_reassembles]).
    - Ingestion: partitions tile their interval, the merge is sorting followed
      by one scan for boundary duplicates, and of validated partitions it
      loses nothing ([partitions_tile_interval], [merge_is_sort_then_scan],
      [validated_merge_loses_nothing]).
    - Usage: the day arithmetic is the calendar and timestamps sort as times
      ([days_to_ymd_is_calendar], [timestamps_order_time]); both stores answer
      every sequence of operations alike ([rollup_stores_conform]); every event
      is stored, pending, counted as dropped or given up at the stop of the
      consumer, each exactly once ([usage_pipeline_accounts]).
    - Secrets: the secrets in force are complete, whole and current
      ([secrets_in_force]); the Vault source makes only the requests
      its one configured method allows, to the configured address, with the
      credential last read; it uses tokens within their lease and ends every fetch ([vault_source_guarded],
      [vault_token_in_lease], [vault_fetches_end]).

    ** Interfaces

    Code that is not in the repository is a class or a section parameter:
    SHA-256 and Ed25519 ([Crypto], [SigningLib]), the journal's serde codec
    ([JournalCodec]), response bodies ([BodyCodec]), URLs ([UrlLib]), the HTTP
    client ([HttpLib]), JWTs ([JwtLib] with [JwtLaws]).  Between components,
    [TokenValidator] is what [Inbound] needs of a validator and [Oidc]
    implements; policy documents and revocation lists are the two instances of
    the bundle's document interface; [Keyring] with [KeyringLaws] is the
    operating system's key store and [KeychainBackend] what the repository
    wraps it in; [AuditForwarder] with [ForwarderLaws] is what the shipper
    needs of a receiver, and [CursorCodec] of its cursor file; [MutationGate]
    and [ArtifactStore] are what the administrative handlers act through, the
    registry of [Artifacts] being an instance of the latter; [RecordCodec] is
    the serde form of a log record; [RollupStore] with [RollupLaws] is what the
    usage consumer needs of a store, and both stores implement it; a
    [SecretSource] answers for the locators of one scheme, and may answer
    differently at each fetch.
    Clocks, random numbers and the answers of
    the network and the disk are inputs of each step, so a theorem over all
    inputs covers every behaviour of the environment.

    ** Fuel, bounds and concurrency

    Loops that are not structural run on fuel that is proved enough: the
    wildcard loop (a measure of pattern and text left), the JQL scanner (the
    length of its input; [jql_scanner_fuel]), eviction (the number of entries),
    redirects (the five hops the code allows), actor chains (the eight the code
    allows), merging and validation (one more than the bytes of the files).  Integers are [N] or [Z] kept at their width by the checked and
    saturating operations of the source; [u64] rendering uses twenty digits,
    enough for any [u64].  Shared state is changed only inside critical
    sections; each critical section is one definition, and the invariants are
    proved over every sequence of them, which is every interleaving.

    ** Not modelled

    Serde derivations and schema generation, command-line
    parsing, the stdio transport, operating-system services (process execution, file permissions,
    fsync beyond its success or failure; the key store is a parameter), log
    output, the per-vendor requests and the formatting of results, the
    PostgreSQL protocol, the URL and TLS set-up of the forwarders, the streaming JSON visitors of the log vendors, the activity index
    in SQLite, and the body copy loop of streamed downloads ([StreamingPolicy]
    therefore omits the fields only that loop reads: idle timeout,
    cancellation, aggregate, disk and operation). *)
From stdpp Require Export base list gmap strings sorting.
From Stdlib Require Export NArith ZArith Ascii Lia.

(** ** Results: Rust's [Result<T, E>] *)

Inductive result (A E : Type) : Type :=
| Ok (a : A)
| Err (e : E).
Arguments Ok {A E} a.
Arguments Err {A E} e.

Declare Scope rust_scope.
Delimit Scope rust_scope with rust.
Open Scope rust_scope.

(** The [?] operator: bind a result, returning early on [Err]. *)
Notation "'let?' x := e 'in' k" :=
  (match e with Ok x => k | Err err => Err err end)
  (at level 10, x name, e at level 100, k at level 200) : rust_scope.
Notation "'let?' ' p := e 'in' k" :=
  (match e with Ok p => k | Err err => Err err end)
  (at level 10, p strict pattern, e at level 100, k at level 200) : rust_scope.

Definition is_ok {A E} (r : result A E) : bool :=
  match r with Ok _ => true | Err _ => false end.

Definition ok {A E} (r : result A E) : option A :=
  match r with Ok a => Some a | Err _ => None end.

Definition map_err {A E F} (f : E -> F) (r : result A E) : result A F :=
  match r with Ok a => Ok a | Err e => Err (f e) end.

Definition result_map {A B E} (f : A -> B) (r : result A E) : result B E :=
  match r with Ok a => Ok (f a) | Err e => Err e end.

(** [iter().map(f).collect::<Result<Vec<_>, _>>()]: the first error wins. *)
Fixpoint collect_results {A B E} (f : A -> result B E) (l : list A) : result (list B) E :=
  match l with
  | [] => Ok []
  | a :: l' =>
      let? b := f a in
      let? bs := collect_results f l' in
      Ok (b :: bs)
  end.

(** [Option<Result<T, E>>::transpose]. *)
Definition transpose {A E} (o : option (result A E)) : result (option A) E :=
  match o with
  | None => Ok None
  | Some (Ok a) => Ok (Some a)
  | Some (Err e) => Err e
  end.

(** [Option::is_none_or] and [Option::is_some_and]. *)
Definition is_none_or {A} (o : option A) (f : A -> bool) : bool :=
  match o with None => true | Some a => f a end.

Definition is_some_and {A} (o : option A) (f : A -> bool) : bool :=
  match o with None => false | Some a => f a end.

(** ** Tactics *)

(** Split conjunctions and existentials in the context, naming nothing. *)
Ltac deex :=
  repeat match goal with
         | H : exists _, _ |- _ => destruct H
         | H : _ /\ _ |- _ => destruct H
         end.

(** Case analysis on the scrutinee of the first [match] or [if] found in
    hypothesis [H] or in the goal, keeping the equation. *)
Ltac case_in H :=
  match type of H with
  | context [match ?x with _ => _ end] => destruct x eqn:?
  end.

Ltac case_goal :=
  match goal with
  | |- context [match ?x with _ => _ end] => destruct x eqn:?
  end.

(** Turn the boolean tests of the code into propositions. *)
Ltac bool_to_prop :=
  repeat match goal with
         | H : _ && _ = true |- _ => apply andb_true_iff in H; destruct H
         | H : _ || _ = false |- _ => apply orb_false_iff in H; destruct H
         | H : negb _ = true |- _ => apply negb_true_iff in H
         | H : negb _ = false |- _ => apply negb_false_iff in H
         | H : bool_decide _ = true |- _ => apply bool_decide_eq_true in H
         | H : bool_decide _ = false |- _ => apply bool_decide_eq_false in H
         | H : (_ <? _)%nat = true |- _ => apply Nat.ltb_lt in H
         | H : (_ <? _)%nat = false |- _ => apply Nat.ltb_ge in H
         | H : (_ <=? _)%nat = true |- _ => apply Nat.leb_le in H
         | H : (_ <=? _)%nat = false |- _ => apply Nat.leb_gt in H
         | H : (_ =? _)%nat = true |- _ => apply Nat.eqb_eq in H
         | H : (_ =? _)%nat = false |- _ => apply Nat.eqb_neq in H
         | H : (_ <? _)%N = true |- _ => apply N.ltb_lt in H
         | H : (_ <? _)%N = false |- _ => apply N.ltb_ge in H
         | H : (_ <=? _)%N = true |- _ => apply N.leb_le in H
         | H : (_ <=? _)%N = false |- _ => apply N.leb_gt in H
         | H : (_ =? _)%N = true |- _ => apply N.eqb_eq in H
         | H : (_ =? _)%N = false |- _ => apply N.eqb_neq in H
         | H : (_ <? _)%Z = true |- _ => apply Z.ltb_lt in H
         | H : (_ <? _)%Z = false |- _ => apply Z.ltb_ge in H
         | H : (_ <=? _)%Z = true |- _ => apply Z.leb_le in H
         | H : (_ <=? _)%Z = false |- _ => apply Z.leb_gt in H
         | H : (_ =? _)%Z = true |- _ => apply Z.eqb_eq in H
         | H : (_ =? _)%Z = false |- _ => apply Z.eqb_neq in H
         end.

(** ** Shared lemmas *)

Section Results.
Context {A B E : Type}.

Lemma collect_results_Ok (f : A -> result B E) l bs :
  collect_results f l = Ok bs <-> Forall2 (fun a b => f a = Ok b) l bs.
Proof.
  revert bs; induction l as [|a l IH]; intros bs; simpl.
  - split; [intros [= <-]; constructor | inversion 1; reflexivity].
  - split.
    + intros H. case_in H; [|discriminate]. case_in H; [|discriminate].
      injection H as <-. constructor; [assumption|]. by apply IH.
    + inversion 1 as [|? b ? bs' Hf Hl]; subst. rewrite Hf.
      apply IH in Hl. rewrite Hl. reflexivity.
Qed.

Lemma collect_results_total (f : A -> result B E) l :
  (forall a, a ∈ l -> exists b, f a = Ok b) -> exists bs, collect_results f l = Ok bs.
Proof.
  induction l as [|a l IH]; simpl; intros H; [eauto|].
  destruct (H a) as [b ->]; [set_solver|].
  destruct IH as [bs ->]; [set_solver|]. eauto.
Qed.
End Results.

Lemma existsb_elem_of {A} (f : A -> bool) l :
  existsb f l = true <-> exists x, x ∈ l /\ f x = true.
Proof. rewrite existsb_exists. by setoid_rewrite list_elem_of_In. Qed.

Lemma existsb_false_elem_of {A} (f : A -> bool) l :
  existsb f l = false <-> forall x, x ∈ l -> f x = false.
Proof.
  rewrite <- not_true_iff_false, existsb_elem_of. split.
  - intros H x Hx. apply not_true_iff_false. intros Hf. eauto.
  - intros H (x & Hx & Hf). rewrite H in Hf; done.
Qed.

Lemma forallb_elem_of {A} (f : A -> bool) l :
  forallb f l = true <-> forall x, x ∈ l -> f x = true.
Proof. rewrite forallb_forall. by setoid_rewrite list_elem_of_In. Qed.

Create HintDb rust.
Create Rewrite HintDb rust.
#[export] Hint Resolve andb_true_intro : rust.
#[export] Hint Rewrite @length_app @length_take @length_drop : rust.
