(* ===== verification/RustStr.v ===== *)
(** * Rust strings as UTF-8 bytes

    Rust's [&str]/[String] is a sequence of UTF-8 bytes; here it is Stdlib's
    [string], whose characters are the bytes, and byte-level code works on
    [list ascii].  This file models the parts of Rust's standard library the
    program uses on strings: byte classes, ASCII case mapping, [trim] over the
    Unicode [White_Space] set, [split], [split_once], UTF-8 validation, and the
    byte order [Ord] puts on strings. *)
From S2P Require Import Prelude.

(** ** Bytes *)

Abbreviation byte := ascii.

Definition code (b : byte) : N := N_of_ascii b.
Definition byte_of (n : N) : byte := ascii_of_N n.

Definition as_bytes (s : string) : list byte := String.list_ascii_of_string s.
Definition of_bytes (l : list byte) : string := String.string_of_list_ascii l.

Definition beqb (a b : byte) : bool := Ascii.eqb a b.

Definition between (lo : N) (b : byte) (hi : N) : bool :=
  (lo <=? code b)%N && (code b <=? hi)%N.

Definition is_ascii_digit (b : byte) : bool := between 48 b 57.
Definition is_ascii_uppercase (b : byte) : bool := between 65 b 90.
Definition is_ascii_lowercase (b : byte) : bool := between 97 b 122.
Definition is_ascii_alphabetic (b : byte) : bool :=
  is_ascii_uppercase b || is_ascii_lowercase b.
Definition is_ascii_alphanumeric (b : byte) : bool :=
  is_ascii_alphabetic b || is_ascii_digit b.
Definition is_ascii_hexdigit (b : byte) : bool :=
  is_ascii_digit b || between 65 b 70 || between 97 b 102.

Definition ascii_lower (b : byte) : byte :=
  if is_ascii_uppercase b then byte_of (code b + 32) else b.
Definition ascii_upper (b : byte) : byte :=
  if is_ascii_lowercase b then byte_of (code b - 32) else b.

Definition to_ascii_lowercase (s : string) : string :=
  of_bytes (map ascii_lower (as_bytes s)).
Definition to_ascii_uppercase (s : string) : string :=
  of_bytes (map ascii_upper (as_bytes s)).
Definition eq_ignore_ascii_case (s t : string) : bool :=
  String.eqb (to_ascii_lowercase s) (to_ascii_lowercase t).

Definition str_len (s : string) : nat := String.length s.
Definition str_is_empty (s : string) : bool := String.eqb s "".

(** Every byte value once; a boolean property of bytes is checked by
    evaluating it on all 256. *)
Definition all_bytes : list byte := map ascii_of_nat (seq 0 256).

Lemma elem_of_all_bytes b : b ∈ all_bytes.
Proof.
  apply list_elem_of_In, in_map_iff. exists (nat_of_ascii b).
  rewrite ascii_nat_embedding. split; [done|]. apply in_seq.
  pose proof (nat_ascii_bounded b). lia.
Qed.

Lemma byte_forall (P : byte -> bool) :
  forallb P all_bytes = true -> forall b, P b = true.
Proof. rewrite forallb_elem_of. intros H b. apply H, elem_of_all_bytes. Qed.

Lemma code_bound b : (code b < 256)%N.
Proof. exact (N_ascii_bounded b). Qed.

Lemma beqb_eq a b : beqb a b = true <-> a = b.
Proof. apply Ascii.eqb_eq. Qed.

Lemma beqb_neq a b : beqb a b = false <-> a <> b.
Proof. apply Ascii.eqb_neq. Qed.

Lemma beqb_refl a : beqb a a = true.
Proof. apply Ascii.eqb_refl. Qed.

Lemma as_of_bytes l : as_bytes (of_bytes l) = l.
Proof. apply String.list_ascii_of_string_of_list_ascii. Qed.

Lemma of_as_bytes s : of_bytes (as_bytes s) = s.
Proof. apply String.string_of_list_ascii_of_string. Qed.

Lemma as_bytes_inj s t : as_bytes s = as_bytes t -> s = t.
Proof. intros H. by rewrite <- (of_as_bytes s), <- (of_as_bytes t), H. Qed.

Lemma as_bytes_app s t : as_bytes (s ++ t)%string = as_bytes s ++ as_bytes t.
Proof. induction s; [done|]. simpl. by rewrite IHs. Qed.

Lemma str_len_bytes s : str_len s = length (as_bytes s).
Proof. induction s; simpl; congruence. Qed.

(** ** Unicode whitespace and [str::trim]

    The [White_Space] code points, by their UTF-8 encodings: U+0009-000D,
    U+0020, U+0085, U+00A0, U+1680, U+2000-200A, U+2028, U+2029, U+202F,
    U+205F and U+3000. *)

Definition ws1 (a : byte) : bool := between 9 a 13 || (code a =? 32)%N.
Definition ws2 (a b : byte) : bool :=
  (code a =? 194)%N && ((code b =? 133)%N || (code b =? 160)%N).
Definition ws3 (a b c : byte) : bool :=
  ((code a =? 225)%N && (code b =? 154)%N && (code c =? 128)%N)
  || ((code a =? 226)%N && (code b =? 128)%N
      && (between 128 c 138 || (code c =? 168)%N || (code c =? 169)%N || (code c =? 175)%N))
  || ((code a =? 226)%N && (code b =? 129)%N && (code c =? 159)%N)
  || ((code a =? 227)%N && (code b =? 128)%N && (code c =? 128)%N).

Fixpoint trim_start_bytes (l : list byte) : list byte :=
  match l with
  | a :: l1 =>
      if ws1 a then trim_start_bytes l1
      else match l1 with
           | b :: l2 =>
               if ws2 a b then trim_start_bytes l2
               else match l2 with
                    | c :: l3 => if ws3 a b c then trim_start_bytes l3 else l
                    | [] => l
                    end
           | [] => l
           end
  | [] => []
  end.

(** The same scan on the reversed bytes. *)
Fixpoint trim_end_rev (l : list byte) : list byte :=
  match l with
  | a :: l1 =>
      if ws1 a then trim_end_rev l1
      else match l1 with
           | b :: l2 =>
               if ws2 b a then trim_end_rev l2
               else match l2 with
                    | c :: l3 => if ws3 c b a then trim_end_rev l3 else l
                    | [] => l
                    end
           | [] => l
           end
  | [] => []
  end.

Definition trim_end_bytes (l : list byte) : list byte := rev (trim_end_rev (rev l)).

Definition trim (s : string) : string :=
  of_bytes (trim_end_bytes (trim_start_bytes (as_bytes s))).

(** [s.trim().is_empty()]. *)
Definition is_blank (s : string) : bool := str_is_empty (trim s).

(** ** Splitting *)

(** [split_once(c)] for a one-byte separator. *)
Fixpoint split_once_bytes (sep : byte) (l : list byte) : option (list byte * list byte) :=
  match l with
  | [] => None
  | b :: l' =>
      if beqb b sep then Some ([], l')
      else match split_once_bytes sep l' with
           | Some (before, after) => Some (b :: before, after)
           | None => None
           end
  end.

(** [split(c)]: always at least one piece. *)
Fixpoint split_bytes (sep : byte) (l : list byte) : list (list byte) :=
  match l with
  | [] => [[]]
  | b :: l' =>
      if beqb b sep then [] :: split_bytes sep l'
      else match split_bytes sep l' with
           | piece :: rest => (b :: piece) :: rest
           | [] => [[b]]
           end
  end.

Definition split_once (sep : byte) (s : string) : option (string * string) :=
  match split_once_bytes sep (as_bytes s) with
  | Some (before, after) => Some (of_bytes before, of_bytes after)
  | None => None
  end.

Definition split (sep : byte) (s : string) : list string :=
  map of_bytes (split_bytes sep (as_bytes s)).

Fixpoint starts_with_bytes (l prefix : list byte) : bool :=
  match prefix, l with
  | [], _ => true
  | p :: prefix', b :: l' => beqb b p && starts_with_bytes l' prefix'
  | _ :: _, [] => false
  end.

Definition strip_prefix_bytes (prefix l : list byte) : option (list byte) :=
  if starts_with_bytes l prefix then Some (drop (length prefix) l) else None.

(** [split_once] for a separator of several bytes. *)
Fixpoint split_once_str (sep l : list byte) : option (list byte * list byte) :=
  if starts_with_bytes l sep then Some ([], drop (length sep) l)
  else match l with
       | [] => None
       | b :: rest => match split_once_str sep rest with Some (x, y) => Some (b :: x, y) | None => None end
       end.

Definition starts_with (s prefix : string) : bool :=
  starts_with_bytes (as_bytes s) (as_bytes prefix).

Definition strip_prefix (prefix s : string) : option string :=
  of_bytes <$> strip_prefix_bytes (as_bytes prefix) (as_bytes s).

Fixpoint drop_while (f : byte -> bool) (l : list byte) : list byte :=
  match l with
  | b :: l' => if f b then drop_while f l' else l
  | [] => []
  end.

(** [trim_end_matches(c)] and [trim_matches(c)] for one byte. *)
Definition trim_end_matches_bytes (c : byte) (l : list byte) : list byte :=
  rev (drop_while (fun b => beqb b c) (rev l)).
Definition trim_matches_bytes (c : byte) (l : list byte) : list byte :=
  trim_end_matches_bytes c (drop_while (fun b => beqb b c) l).
Definition trim_end_matches (c : byte) (s : string) : string :=
  of_bytes (trim_end_matches_bytes c (as_bytes s)).
Definition trim_matches (c : byte) (s : string) : string :=
  of_bytes (trim_matches_bytes c (as_bytes s)).

(** ** UTF-8 ([String::from_utf8]), Unicode table 3-7 *)

Definition is_cont (b : byte) : bool := between 128 b 191.

Fixpoint utf8_valid (l : list byte) : bool :=
  match l with
  | [] => true
  | a :: l1 =>
      if (code a <? 128)%N then utf8_valid l1
      else match l1 with
           | b :: l2 =>
               if between 194 a 223 && is_cont b then utf8_valid l2
               else match l2 with
                    | c :: l3 =>
                        if (((code a =? 224)%N && between 160 b 191)
                            || ((between 225 a 236 || between 238 a 239) && is_cont b)
                            || ((code a =? 237)%N && between 128 b 159))
                           && is_cont c
                        then utf8_valid l3
                        else match l3 with
                             | d :: l4 =>
                                 if (((code a =? 240)%N && between 144 b 191)
                                     || (between 241 a 243 && is_cont b)
                                     || ((code a =? 244)%N && between 128 b 143))
                                    && is_cont c && is_cont d
                                 then utf8_valid l4 else false
                             | [] => false
                             end
                    | [] => false
                    end
           | [] => false
           end
  end.

(** ** [String::from_utf8_lossy] *)

Definition replacement : list byte := [byte_of 239; byte_of 191; byte_of 189].

Definition second_ok (a b : byte) : bool :=
  if (code a =? 224)%N then between 160 b 191
  else if (code a =? 237)%N then between 128 b 159
  else if (code a =? 240)%N then between 144 b 191
  else if (code a =? 244)%N then between 128 b 143
  else is_cont b.

(** The width the first byte announces; [0] for none. *)
Definition lead_width (a : byte) : nat :=
  if (code a <? 128)%N then 1
  else if between 194 a 223 then 2
  else if between 224 a 239 then 3
  else if between 240 a 244 then 4 else 0.

(** The next character: how many bytes it takes, and whether they are valid. *)
Definition lossy_step (l : list byte) : nat * bool :=
  match l with
  | [] => (0, true)
  | a :: rest =>
      match lead_width a, rest with
      | 1, _ => (1, true)
      | 2, b :: _ => if is_cont b then (2, true) else (1, false)
      | 3, b :: c :: _ => if negb (second_ok a b) then (1, false) else if is_cont c then (3, true) else (2, false)
      | 3, [b] => if second_ok a b then (2, false) else (1, false)
      | 4, b :: c :: d :: _ =>
          if negb (second_ok a b) then (1, false)
          else if negb (is_cont c) then (2, false)
          else if is_cont d then (4, true) else (3, false)
      | 4, [b; c] => if negb (second_ok a b) then (1, false) else if is_cont c then (3, false) else (2, false)
      | 4, [b] => if second_ok a b then (2, false) else (1, false)
      | _, _ => (1, false)
      end
  end%nat.

(** Every step takes at least one byte: the length is fuel enough. *)
Fixpoint lossy_loop (fuel : nat) (l : list byte) : list byte :=
  match fuel, l with
  | O, _ | _, [] => []
  | S fuel', _ =>
      let '(n, valid) := lossy_step l in
      (if valid then take n l else replacement) ++ lossy_loop fuel' (drop n l)
  end.

Definition from_utf8_lossy (l : list byte) : string := of_bytes (lossy_loop (length l) l).

(** ** Characters: the UTF-8 sequences a valid string consists of *)

Definition char_width (a : byte) : nat :=
  if (code a <? 128)%N then 1
  else if (code a <? 224)%N then 2
  else if (code a <? 240)%N then 3 else 4.

Fixpoint chars_fuel (fuel : nat) (l : list byte) : list (list byte) :=
  match fuel, l with
  | O, _ | _, [] => []
  | S fuel', a :: _ => take (char_width a) l :: chars_fuel fuel' (drop (char_width a) l)
  end.

(** Each character takes at least one byte, so the byte length is fuel enough. *)
Definition chars (l : list byte) : list (list byte) := chars_fuel (length l) l.

(** [char::is_control]: U+0000-001F, U+007F-009F. *)
Definition is_control (c : list byte) : bool :=
  match c with
  | [a] => (code a <? 32)%N || (code a =? 127)%N
  | [a; b] => (code a =? 194)%N && between 128 b 159
  | _ => false
  end.

(** ** The byte order Rust's [Ord for str] uses *)

Fixpoint bytes_leb (l1 l2 : list byte) : bool :=
  match l1, l2 with
  | [], _ => true
  | _ :: _, [] => false
  | a :: l1', b :: l2' =>
      (code a <? code b)%N || ((code a =? code b)%N && bytes_leb l1' l2')
  end.

Definition str_leb (s t : string) : bool := bytes_leb (as_bytes s) (as_bytes t).
Definition str_le (s t : string) : Prop := str_leb s t = true.

#[export] Instance str_le_dec : RelDecision str_le.
Proof. intros s t. unfold str_le. apply _. Defined.

Lemma code_inj a b : code a = code b -> a = b.
Proof.
  intros H. rewrite <- (ascii_N_embedding a), <- (ascii_N_embedding b).
  unfold code in H. by rewrite H.
Qed.

Lemma bytes_leb_refl l : bytes_leb l l = true.
Proof.
  induction l as [|a l IH]; simpl; [done|].
  rewrite N.eqb_refl, IH. apply orb_true_r.
Qed.

Lemma bytes_leb_trans l1 l2 l3 :
  bytes_leb l1 l2 = true -> bytes_leb l2 l3 = true -> bytes_leb l1 l3 = true.
Proof.
  revert l2 l3; induction l1 as [|a l1 IH]; intros [|b l2] [|c l3]; simpl; try done.
  rewrite !orb_true_iff, !andb_true_iff, !N.ltb_lt, !N.eqb_eq.
  intros [?|[? H1]] [?|[? H2]]; try (left; lia).
  right. split; [lia | eauto].
Qed.

Lemma bytes_leb_total l1 l2 : bytes_leb l1 l2 = true \/ bytes_leb l2 l1 = true.
Proof.
  revert l2; induction l1 as [|a l1 IH]; intros [|b l2]; simpl; auto.
  rewrite !orb_true_iff, !andb_true_iff, !N.ltb_lt, !N.eqb_eq.
  destruct (N.lt_total (code a) (code b)) as [?|[?|?]]; auto.
  destruct (IH l2); auto.
Qed.

Lemma bytes_leb_antisymm l1 l2 :
  bytes_leb l1 l2 = true -> bytes_leb l2 l1 = true -> l1 = l2.
Proof.
  revert l2; induction l1 as [|a l1 IH]; intros [|b l2]; simpl; try done.
  rewrite !orb_true_iff, !andb_true_iff, !N.ltb_lt, !N.eqb_eq.
  intros [?|[Hab ?]] [?|[? ?]]; try lia.
  f_equal; [by apply code_inj | auto].
Qed.

#[export] Instance str_le_preorder : PreOrder str_le.
Proof.
  split.
  - intros s. apply bytes_leb_refl.
  - intros s t u. apply bytes_leb_trans.
Qed.

#[export] Instance str_le_total : Total str_le.
Proof. intros s t. apply bytes_leb_total. Qed.

#[export] Instance str_le_antisymm : AntiSymm (=) str_le.
Proof. intros s t H1 H2. apply as_bytes_inj, bytes_leb_antisymm; done. Qed.

(** ** Splitting and joining *)

Lemma split_once_bytes_Some sep l before after :
  split_once_bytes sep l = Some (before, after) ->
  l = before ++ sep :: after /\ sep ∉ before.
Proof.
  revert before; induction l as [|b l IH]; intros before H; simpl in H; [done|].
  destruct (beqb b sep) eqn:E.
  - apply beqb_eq in E. injection H as <- <-. subst. split; [done | set_solver].
  - apply beqb_neq in E. destruct (split_once_bytes sep l) as [[? ?]|]; [|done].
    injection H as <- <-. destruct (IH _ eq_refl) as [-> ?].
    split; [done | set_solver].
Qed.

Lemma split_once_bytes_first sep before after :
  sep ∉ before -> split_once_bytes sep (before ++ sep :: after) = Some (before, after).
Proof.
  induction before as [|b before IH]; simpl; intros H; [by rewrite beqb_refl|].
  apply not_elem_of_cons in H as [Hb Hl].
  assert (beqb b sep = false) as -> by (apply beqb_neq; congruence). by rewrite IH.
Qed.

Lemma split_once_bytes_None sep l : split_once_bytes sep l = None <-> sep ∉ l.
Proof.
  induction l as [|b l IH]; simpl; [set_solver|].
  destruct (beqb b sep) eqn:E.
  - apply beqb_eq in E. split; [done | set_solver].
  - apply beqb_neq in E.
    destruct (split_once_bytes sep l) as [[? ?]|]; set_solver.
Qed.

Lemma split_bytes_not_nil sep l : split_bytes sep l <> [].
Proof.
  destruct l as [|b l]; simpl; [done|].
  destruct (beqb b sep); [done|]. by destruct (split_bytes sep l).
Qed.

Lemma split_bytes_clean sep l piece : piece ∈ split_bytes sep l -> sep ∉ piece.
Proof.
  revert piece; induction l as [|b l IH]; intros piece; simpl.
  { rewrite list_elem_of_singleton. intros ->. apply not_elem_of_nil. }
  destruct (beqb b sep) eqn:E.
  { rewrite elem_of_cons. intros [->|Hp]; [apply not_elem_of_nil | by apply IH]. }
  apply beqb_neq in E. destruct (split_bytes sep l) as [|p ps].
  - rewrite list_elem_of_singleton. intros ->. set_solver.
  - rewrite elem_of_cons. intros [->|Hp].
    + rewrite not_elem_of_cons. split; [done|]. apply IH. set_solver.
    + apply IH. set_solver.
Qed.

Lemma split_bytes_no_sep sep l : sep ∉ l -> split_bytes sep l = [l].
Proof.
  induction l as [|b l IH]; simpl; [done|]. intros H.
  destruct (beqb b sep) eqn:E; [apply beqb_eq in E; set_solver|].
  by rewrite IH by set_solver.
Qed.

Lemma split_bytes_app sep l rest :
  sep ∉ l -> split_bytes sep (l ++ sep :: rest) = l :: split_bytes sep rest.
Proof.
  induction l as [|b l IH]; simpl; intros H.
  - by rewrite beqb_refl.
  - destruct (beqb b sep) eqn:E; [apply beqb_eq in E; set_solver|].
    by rewrite IH by set_solver.
Qed.

Lemma starts_with_bytes_spec l prefix :
  starts_with_bytes l prefix = true <-> exists rest, l = prefix ++ rest.
Proof.
  revert l; induction prefix as [|p prefix IH]; intros [|b l]; simpl.
  1, 2: split; eauto.
  - split; [done | intros [? ?]; done].
  - rewrite andb_true_iff, beqb_eq, IH. split.
    + intros [-> [rest ->]]. eauto.
    + intros [rest [= -> ->]]. eauto.
Qed.

(** Whether [pat] occurs in [l]. *)
Definition occurs (pat l : list byte) : bool := bool_decide (is_Some (split_once_str pat l)).

Lemma split_once_str_unfold sep l : split_once_str sep l =
  if starts_with_bytes l sep then Some ([], drop (length sep) l)
  else match l with
       | [] => None
       | b :: rest => match split_once_str sep rest with Some (x, y) => Some (b :: x, y) | None => None end
       end.
Proof. by destruct l. Qed.

(** A separator whose first byte does not come again in it cannot begin in
    what precedes it and end inside itself. *)
Lemma split_once_str_first c s a b : c ∉ s -> occurs (c :: s) a = false -> split_once_str (c :: s) (a ++ (c :: s) ++ b) = Some (a, b).
Proof.
  intros Hc. unfold occurs. rewrite bool_decide_eq_false. induction a as [|x a IH]; intros Ho.
  - rewrite split_once_str_unfold, (proj2 (starts_with_bytes_spec _ _)) by (by exists b).
    by rewrite app_nil_l, drop_app_length.
  - rewrite split_once_str_unfold. destruct (starts_with_bytes _ _) eqn:E.
    + exfalso. apply starts_with_bytes_spec in E as [rest E]. cbn [app] in E. injection E as -> E.
      destruct (decide (length s <= length a)%nat) as [Hl|Hl].
      * apply Ho. rewrite split_once_str_unfold, (proj2 (starts_with_bytes_spec _ _)); [eauto|].
        exists (drop (length s) a). cbn [app]. f_equal. rewrite <- (take_drop (length s) a) at 1. f_equal.
        apply (f_equal (take (length s))) in E. rewrite take_app_le, take_app_length in E by done. done.
      * apply Hc. apply list_elem_of_lookup. exists (length a).
        assert (E' : (s ++ rest) !! length a = Some c) by (rewrite <- E, lookup_app_r, Nat.sub_diag by lia; done).
        rewrite lookup_app_l in E' by lia. done.
    + cbn [app]. cbn [app] in IH. rewrite IH; [done|]. intros [p Hp]. apply Ho. rewrite split_once_str_unfold.
      destruct (starts_with_bytes (x :: a) _); [eauto|]. rewrite Hp. destruct p. eauto.
Qed.

(** *** [trim] twice is [trim] once *)

(** Whether the first character is white space. *)
Definition head_ws (l : list byte) : bool :=
  match l with
  | a :: l1 => ws1 a || match l1 with
                        | b :: l2 => ws2 a b || match l2 with c :: _ => ws3 a b c | [] => false end
                        | [] => false end
  | [] => false
  end.

Definition last_ws (l : list byte) : bool :=
  match l with
  | a :: l1 => ws1 a || match l1 with
                        | b :: l2 => ws2 b a || match l2 with c :: _ => ws3 c b a | [] => false end
                        | [] => false end
  | [] => false
  end.

Lemma trim_start_fixed l : head_ws l = false -> trim_start_bytes l = l.
Proof.
  destruct l as [|a [|b [|c l]]]; cbn [head_ws trim_start_bytes]; [done|..]; destruct (ws1 a); cbn [orb]; try done;
    destruct (ws2 a b); cbn [orb]; try done. by intros ->.
Qed.

Lemma trim_end_fixed l : last_ws l = false -> trim_end_rev l = l.
Proof.
  destruct l as [|a [|b [|c l]]]; cbn [last_ws trim_end_rev]; [done|..]; destruct (ws1 a); cbn [orb]; try done;
    destruct (ws2 b a); cbn [orb]; try done. by intros ->.
Qed.

Lemma trim_start_head n l : (length l <= n)%nat -> head_ws (trim_start_bytes l) = false.
Proof.
  revert l; induction n as [|n IH]; intros l Hn; [destruct l; [done|cbn in Hn; lia]|].
  destruct (head_ws l) eqn:E; [|by rewrite trim_start_fixed].
  assert (Hskip : forall m, (length m <= n)%nat -> trim_start_bytes l = trim_start_bytes m -> head_ws (trim_start_bytes l) = false)
    by (intros m Hm ->; by apply IH).
  destruct l as [|a [|b [|c l]]]; cbn [head_ws length] in *; [done|..];
    (destruct (ws1 a) eqn:Ea; [match goal with |- context [trim_start_bytes (_ :: ?m)] => apply (Hskip m) end; [cbn [length]; lia|cbn [trim_start_bytes]; by rewrite Ea]|]); cbn [orb] in E; try done;
    (destruct (ws2 a b) eqn:Eb; [match goal with |- context [trim_start_bytes (_ :: _ :: ?m)] => apply (Hskip m) end; [cbn [length]; lia|cbn [trim_start_bytes]; by rewrite Ea, Eb]|]); cbn [orb] in E; try done.
  apply (Hskip l); [lia|cbn [trim_start_bytes]; by rewrite Ea, Eb, E].
Qed.

Lemma trim_end_last n l : (length l <= n)%nat -> last_ws (trim_end_rev l) = false /\ exists k, trim_end_rev l = drop k l.
Proof.
  revert l; induction n as [|n IH]; intros l Hn; [destruct l; [split; [done|by exists 0%nat]|cbn in Hn; lia]|].
  assert (Hskip : forall m k, (length m <= n)%nat -> l = k ++ m -> trim_end_rev l = trim_end_rev m ->
            last_ws (trim_end_rev l) = false /\ exists k, trim_end_rev l = drop k l).
  { intros m k Hm Hl ->. destruct (IH m Hm) as [H1 [j H2]]. split; [done|]. exists (length k + j)%nat.
    rewrite H2, Hl, <- drop_drop, drop_app_length. done. }
  destruct (last_ws l) eqn:E; [|rewrite trim_end_fixed by done; split; [done|by exists 0%nat]].
  destruct l as [|a [|b [|c l]]]; cbn [last_ws length] in *; [done|..];
    (destruct (ws1 a) eqn:Ea; [match goal with |- context [trim_end_rev (_ :: ?m)] => apply (Hskip m [a]) end; [cbn [length]; lia|done|cbn [trim_end_rev]; by rewrite Ea]|]); cbn [orb] in E; try done;
    (destruct (ws2 b a) eqn:Eb; [match goal with |- context [trim_end_rev (_ :: _ :: ?m)] => apply (Hskip m [a; b]) end; [cbn [length]; lia|done|cbn [trim_end_rev]; by rewrite Ea, Eb]|]); cbn [orb] in E; try done.
  eapply (Hskip l [a; b; c]); [lia|reflexivity|cbn [trim_end_rev]; by rewrite Ea, Eb, E].
Qed.

Lemma head_ws_take n l : head_ws l = false -> head_ws (take n l) = false.
Proof.
  destruct l as [|a [|b [|c l]]], n as [|[|[|n]]]; cbn; try done; rewrite ?orb_false_r, ?orb_false_iff; intuition.
Qed.

Lemma trim_trim s : trim (trim s) = trim s.
Proof.
  unfold trim. rewrite as_of_bytes. f_equal. set (l := trim_start_bytes (as_bytes s)).
  destruct (trim_end_last _ (rev l) (Nat.le_refl _)) as [Hlast [k Hk]].
  assert (Hhead : head_ws (trim_end_bytes l) = false).
  { unfold trim_end_bytes. rewrite Hk, skipn_rev, rev_involutive. apply head_ws_take. by eapply trim_start_head. }
  rewrite (trim_start_fixed _ Hhead). unfold trim_end_bytes. rewrite rev_involutive. by rewrite (trim_end_fixed _ Hlast).
Qed.

#[export] Hint Rewrite as_of_bytes of_as_bytes : rust.
