(* ===== verification/Json.v ===== *)
(** * JSON values and machine-width decimals

    serde_json's [Value] as the code uses it, and the decimal rendering and
    parsing of [u64] the journal and the configuration rely on. *)
From S2P Require Import Prelude RustStr.

(** ** Values: [Map] in iteration order, a number as its literal *)

Inductive Value :=
| VNull
| VBool (b : bool)
| VNumber (digits : string)
| VString (s : string)
| VArray (items : list Value)
| VObject (fields : list (string * Value)).

Definition JsonMap : Type := list (string * Value).

Definition map_get (m : JsonMap) (key : string) : option Value :=
  snd <$> List.find (fun kv => String.eqb (fst kv) key) m.

Definition value_get (v : Value) (key : string) : option Value :=
  match v with VObject m => map_get m key | _ => None end.
Definition as_str (v : Value) : option string :=
  match v with VString s => Some s | _ => None end.
Definition as_bool (v : Value) : option bool :=
  match v with VBool b => Some b | _ => None end.
Definition as_object (v : Value) : option JsonMap :=
  match v with VObject m => Some m | _ => None end.

(** ** [u64] in decimal *)

Definition U64_MAX : N := 18446744073709551615.

Definition checked_add (a b : N) : option N :=
  if (U64_MAX <? a + b)%N then None else Some (a + b)%N.

Definition digit (n : N) : byte := byte_of (48 + n).

(** The loop of [render_u64], writing digits from the least significant one;
    twenty digits hold any [u64]. *)
Fixpoint render_loop (fuel : nat) (value : N) (out : list byte) : list byte :=
  match fuel with
  | O => out
  | S fuel' =>
      let out' := digit (value mod 10) :: out in
      if (value / 10 =? 0)%N then out' else render_loop fuel' (value / 10) out'
  end.

Definition MAX_U64_DIGITS : nat := 20.

Definition render_u64 (value : N) : list byte := render_loop MAX_U64_DIGITS value [].

(** Decimal digits, most significant first, at most [U64_MAX]. *)
Fixpoint parse_loop (digits : list byte) (acc : N) : option N :=
  match digits with
  | [] => Some acc
  | d :: rest =>
      if is_ascii_digit d then
        let acc' := (acc * 10 + (code d - 48))%N in
        if (U64_MAX <? acc')%N then None else parse_loop rest acc'
      else None
  end.

(** [str::parse::<u64>] on unsigned text. *)
Definition parse_u64 (s : string) : option N :=
  match as_bytes s with
  | [] => None
  | digits => parse_loop digits 0
  end.

Definition as_u64 (v : Value) : option N :=
  match v with VNumber digits => parse_u64 digits | _ => None end.

Lemma digit_facts n :
  (n < 10)%N -> is_ascii_digit (digit n) = true /\ code (digit n) = (48 + n)%N.
Proof.
  intros Hn. unfold digit.
  assert (Hc : code (byte_of (48 + n)) = (48 + n)%N).
  { unfold code, byte_of. rewrite N_ascii_embedding; [done|lia]. }
  split; [|done]. unfold is_ascii_digit, between. rewrite Hc.
  apply andb_true_iff. split; apply N.leb_le; lia.
Qed.

(** Parsing rendered digits and then [out] is parsing [out] after [value]. *)
Lemma parse_render_loop fuel value out :
  (value < 10 ^ N.of_nat fuel)%N -> (value <= U64_MAX)%N ->
  parse_loop (render_loop fuel value out) 0 = parse_loop out value \/ fuel = 0%nat.
Proof.
  revert value out; induction fuel as [|fuel IH]; intros value out Hv Hm; [by right|].
  left. cbn [render_loop].
  destruct (digit_facts (value mod 10)) as [Hd Hc]; [apply N.mod_lt; lia|].
  pose proof (N.div_mod' value 10) as Hdm.
  assert (Hstep : parse_loop (digit (value mod 10) :: out) (value / 10) = parse_loop out value).
  { cbn [parse_loop]. rewrite Hd, Hc.
    assert (Hb : (value / 10 * 10 + (48 + value mod 10 - 48) = value)%N).
    { set (q := (value / 10)%N) in *. set (r := (value mod 10)%N) in *. clearbody q r. lia. }
    rewrite Hb.
    rewrite (proj2 (N.ltb_ge U64_MAX value) Hm). done. }
  destruct (N.eqb_spec (value / 10) 0) as [E|E].
  - by rewrite <- Hstep, E.
  - destruct fuel as [|fuel].
    { exfalso. cbn in Hv. apply E. apply N.div_small. lia. }
    rewrite <- Hstep. rewrite Nat2N.inj_succ, N.pow_succ_r' in Hv.
    destruct (IH (value / 10)%N (digit (value mod 10) :: out)) as [->|]; [| |done|done].
    + by apply N.Div0.div_lt_upper_bound.
    + etrans; [|exact Hm]. apply N.Div0.div_le_upper_bound. lia.
Qed.

Lemma render_loop_not_nil fuel value out : fuel <> 0%nat \/ out <> [] -> render_loop fuel value out <> [].
Proof.
  revert value out; induction fuel as [|fuel IH]; intros value out H; cbn [render_loop].
  - by destruct H.
  - case_goal; [done|]. apply IH. by right.
Qed.

Lemma render_loop_digits fuel value out :
  Forall (fun b => is_ascii_digit b = true) out ->
  Forall (fun b => is_ascii_digit b = true) (render_loop fuel value out).
Proof.
  revert value out; induction fuel as [|fuel IH]; intros value out H; cbn [render_loop]; [done|].
  assert (Forall (fun b => is_ascii_digit b = true) (digit (value mod 10) :: out)).
  { constructor; [|done]. apply digit_facts, N.mod_lt. lia. }
  case_goal; [done|]. by apply IH.
Qed.

Lemma render_u64_digits value : Forall (fun b => is_ascii_digit b = true) (render_u64 value).
Proof. apply render_loop_digits. constructor. Qed.

Lemma parse_render_u64 value :
  (value <= U64_MAX)%N -> parse_u64 (of_bytes (render_u64 value)) = Some value.
Proof.
  intros Hv. unfold parse_u64, render_u64. rewrite as_of_bytes.
  destruct (parse_render_loop MAX_U64_DIGITS value []) as [E|E]; [|done| |done].
  - revert Hv. unfold U64_MAX, MAX_U64_DIGITS. change (10 ^ N.of_nat 20)%N with 100000000000000000000%N. lia.
  - destruct (render_loop MAX_U64_DIGITS value []) eqn:R; [|done].
    by destruct (render_loop_not_nil MAX_U64_DIGITS value []); [left|].
Qed.
