(* ===== verification/Glob.v ===== *)
(** * The `*`-only glob of the policy engine (src/src/policy/engine.rs, [Glob])

    [Glob.matches] is the engine's two-pointer wildcard match, with its indices
    and its one-deep backtracking register.  [gmatch] is what a `*`-only glob
    means; the loop always finishes and computes exactly it. *)
From S2P Require Import Prelude RustStr.

Definition star : byte := byte_of 42.

(** ** Reference meaning: `*` stands for any run of bytes, everything else for itself *)

Fixpoint gmatch (p : list byte) : list byte -> bool :=
  match p with
  | [] => fun t => match t with [] => true | _ => false end
  | c :: p' =>
      if beqb c star then
        fix go (t : list byte) : bool :=
          gmatch p' t || (match t with [] => false | _ :: t' => go t' end)
      else fun t => match t with [] => false | x :: t' => beqb c x && gmatch p' t' end
  end.

(** The same meaning as a relation. *)
Inductive Matches : list byte -> list byte -> Prop :=
| Matches_nil : Matches [] []
| Matches_lit c p t : c <> star -> Matches p t -> Matches (c :: p) (c :: t)
| Matches_star p pre t : Matches p t -> Matches (star :: p) (pre ++ t).

Module Glob.

Record t := new { pattern : string }.

(** One iteration's state: [p] and [t] index pattern and text; [star_at] is
    the last `*` seen with the text position it is currently assumed to reach. *)
Record cursor := { p_at : nat; t_at : nat; star_at : option (nat * nat) }.

(** The closing loop: `while p < pattern.len() && pattern[p] == b'*' { p += 1 }`. *)
Fixpoint skip_stars (fuel : nat) (pattern : list byte) (p : nat) : nat :=
  match fuel with
  | O => p
  | S fuel' =>
      match pattern !! p with
      | Some c => if beqb c star then skip_stars fuel' pattern (S p) else p
      | None => p
      end
  end.

(** `pattern[p] == b` guarded by `p < pattern.len()`. *)
Definition at_is (pattern : list byte) (p : nat) (b : byte) : bool :=
  match pattern !! p with Some c => beqb c b | None => false end.

(** The main loop; [None] only when the fuel runs out. *)
Fixpoint run (fuel : nat) (pattern text : list byte) (s : cursor) : option bool :=
  match text !! t_at s with
  | None =>
      Some (skip_stars (length pattern) pattern (p_at s) =? length pattern)%nat
  | Some x =>
      match fuel with
      | O => None
      | S fuel' =>
          if at_is pattern (p_at s) star then
            run fuel' pattern text
              {| p_at := S (p_at s); t_at := t_at s; star_at := Some (p_at s, t_at s) |}
          else if at_is pattern (p_at s) x then
            run fuel' pattern text
              {| p_at := S (p_at s); t_at := S (t_at s); star_at := star_at s |}
          else
            match star_at s with
            | Some (star_p, star_t) =>
                run fuel' pattern text
                  {| p_at := S star_p; t_at := S star_t; star_at := Some (star_p, S star_t) |}
            | None => Some false
            end
      end
  end.

(** Between two backtracks the text position is fixed by the pattern position,
    so at most [length pattern + 1] iterations pass; there are at most
    [length text + 1] backtracking positions. *)
Definition enough (pattern text : list byte) : nat :=
  (S (length text)) * (S (S (length pattern))).

Definition start : cursor := {| p_at := 0; t_at := 0; star_at := None |}.

Definition matches (g : t) (value : string) : bool :=
  let pattern := as_bytes (pattern g) in
  let text := as_bytes value in
  default false (run (enough pattern text) pattern text start).

End Glob.

#[export] Instance glob_eq_dec : EqDecision Glob.t.
Proof. solve_decision. Defined.

(** ** The reference meaning *)

Lemma gmatch_star p t :
  gmatch (star :: p) t = gmatch p t || (match t with [] => false | _ :: t' => gmatch (star :: p) t' end).
Proof. by destruct t. Qed.

Lemma gmatch_lit c p t :
  c <> star ->
  gmatch (c :: p) t = match t with [] => false | x :: t' => beqb c x && gmatch p t' end.
Proof. intros H. apply beqb_neq in H. simpl. by rewrite H. Qed.

Lemma gmatch_star_iff p t :
  gmatch (star :: p) t = true <-> exists pre u, t = pre ++ u /\ gmatch p u = true.
Proof.
  induction t as [|x t IH].
  - rewrite gmatch_star, orb_false_r. split.
    + intros H. exists [], []. done.
    + intros (pre & u & E & H). symmetry in E. apply app_eq_nil in E as [-> ->]. done.
  - rewrite gmatch_star, orb_true_iff, IH. split.
    + intros [H | (pre & u & -> & H)]; [by exists [], (x :: t) | by exists (x :: pre), u].
    + intros ([|y pre] & u & E & H); simpl in E; subst; [by left|].
      injection E as -> ->. right; eauto.
Qed.

Lemma gmatch_Matches p t : gmatch p t = true <-> Matches p t.
Proof.
  split.
  - revert t. induction p as [|c p IH]; intros t H.
    + destruct t; [constructor | done].
    + destruct (decide (c = star)) as [->|Hc].
      * apply gmatch_star_iff in H as (pre & u & -> & H). constructor. auto.
      * rewrite gmatch_lit in H by done. destruct t as [|x t]; [done|].
        apply andb_true_iff in H as [->%beqb_eq H]. constructor; auto.
  - induction 1.
    + done.
    + rewrite gmatch_lit by done. by rewrite beqb_refl, IHMatches.
    + apply gmatch_star_iff. eauto.
Qed.

(** A literal run (no `*`) must match byte for byte. *)
Lemma gmatch_lits_app lit p t :
  star ∉ lit -> gmatch (lit ++ p) (lit ++ t) = gmatch p t.
Proof.
  induction lit as [|c lit IH]; [done|]. rewrite not_elem_of_cons. intros [Hc Hl].
  cbn [app]. rewrite gmatch_lit by done. rewrite beqb_refl. apply IH, Hl.
Qed.

Lemma gmatch_lits_prefix lit p t :
  star ∉ lit -> gmatch (lit ++ p) t = true -> exists u, t = lit ++ u /\ gmatch p u = true.
Proof.
  revert t; induction lit as [|c lit IH]; intros t; [eauto|].
  rewrite not_elem_of_cons. intros [Hc Hl] H. cbn [app] in H.
  rewrite gmatch_lit in H by done. destruct t as [|x t]; [done|].
  apply andb_true_iff in H as [->%beqb_eq H].
  destruct (IH t Hl H) as (u & -> & Hu). exists u. done.
Qed.

(** A second `*` makes the first one's reach irrelevant: taking the leftmost
    occurrence of the literals between them loses nothing. *)
Lemma gmatch_leftmost lit p u :
  star ∉ lit ->
  gmatch (star :: lit ++ star :: p) (lit ++ u) = gmatch (star :: p) u.
Proof.
  intros Hl. apply eq_bool_prop_intro. rewrite !Is_true_true, !gmatch_star_iff. split.
  - intros (pre & v & E & H).
    destruct (gmatch_lits_prefix _ _ _ Hl H) as (w & -> & Hw).
    apply gmatch_star_iff in Hw as (pre' & w' & -> & Hw).
    assert (Hlen : length lit <= length (pre ++ lit ++ pre')) by (rewrite !length_app; lia).
    rewrite !app_assoc in E. rewrite <- app_assoc in E.
    assert (Hu : u = drop (length lit) (pre ++ lit ++ pre') ++ w').
    { apply (f_equal (drop (length lit))) in E. rewrite drop_app_length in E.
      rewrite E. rewrite <- drop_app_le by lia. f_equal. by rewrite !app_assoc. }
    eauto.
  - intros (pre & w & -> & Hw). exists [], (lit ++ pre ++ w). split; [done|].
    rewrite gmatch_lits_app by done. apply gmatch_star_iff. eauto.
Qed.

(** ** The loop *)

Lemma skip_stars_spec fuel P p :
  p <= length P -> length P <= p + fuel ->
  (Glob.skip_stars fuel P p =? length P) = gmatch (drop p P) [].
Proof.
  revert p; induction fuel as [|fuel IH]; intros p Hle Hf; simpl.
  - rewrite drop_ge by lia. simpl. apply Nat.eqb_eq. lia.
  - destruct (P !! p) as [c|] eqn:E.
    + rewrite (drop_S _ _ _ E). apply lookup_lt_Some in E.
      destruct (beqb c star) eqn:Ec.
      * apply beqb_eq in Ec as ->. rewrite IH by lia. by rewrite gmatch_star, orb_false_r.
      * apply beqb_neq in Ec. rewrite gmatch_lit by done. apply Nat.eqb_neq. lia.
    + apply lookup_ge_None in E. rewrite drop_ge by lia. apply Nat.eqb_eq. lia.
Qed.

Lemma at_is_true P p b : Glob.at_is P p b = true <-> P !! p = Some b.
Proof.
  unfold Glob.at_is. destruct (P !! p) as [c|]; [|done].
  rewrite beqb_eq. split; congruence.
Qed.

Lemma at_is_false P p b : Glob.at_is P p b = false <-> P !! p <> Some b.
Proof. rewrite <- at_is_true. destruct (Glob.at_is P p b); split; congruence. Qed.

(** Loop invariant: the literals between the remembered star and [p] are the
    text from the remembered position up to [t], and the answer is the
    reference answer from the remembered star on. *)
Definition cursor_ok (P T : list byte) (s : Glob.cursor) : Prop :=
  Glob.p_at s <= length P /\ Glob.t_at s <= length T /\
  match Glob.star_at s with
  | None => gmatch P T = gmatch (drop (Glob.p_at s) P) (drop (Glob.t_at s) T)
            /\ Glob.p_at s = Glob.t_at s
  | Some (sp, st) =>
      exists lit,
        star ∉ lit /\ drop sp P = star :: lit ++ drop (Glob.p_at s) P /\
        drop st T = lit ++ drop (Glob.t_at s) T /\
        Glob.p_at s = S sp + length lit /\ Glob.t_at s = st + length lit /\
        gmatch P T = gmatch (drop sp P) (drop st T)
  end.

(** What remains to be done: backtracking positions left, then pattern left. *)
Definition measure (P T : list byte) (s : Glob.cursor) : nat :=
  match Glob.star_at s with
  | None => S (length T) * S (S (length P)) - Glob.p_at s
  | Some (_, st) => (length T - st) * S (S (length P)) + (S (length P) - Glob.p_at s)
  end.

Section Loop.
Context (P T : list byte).

Lemma cursor_ok_end s :
  cursor_ok P T s -> T !! Glob.t_at s = None ->
  (Glob.skip_stars (length P) P (Glob.p_at s) =? length P) = gmatch P T.
Proof.
  destruct s as [p t sa]; unfold cursor_ok; simpl. intros (Hp & Ht & Hs) HT.
  apply lookup_ge_None in HT. rewrite skip_stars_spec by lia.
  rewrite (drop_ge T t) in Hs by lia.
  destruct sa as [[sp st]|]; [|by destruct Hs as [-> _]].
  destruct Hs as (lit & Hl & HP & HT' & _ & _ & ->). rewrite HP, HT', app_nil_r.
  apply eq_bool_prop_intro. rewrite !Is_true_true. split.
  - intros H. apply gmatch_star_iff. exists [], lit. split; [done|].
    rewrite <- (app_nil_r lit) at 2. by rewrite gmatch_lits_app.
  - intros (pre & u & E & H)%gmatch_star_iff.
    destruct (gmatch_lits_prefix _ _ _ Hl H) as (w & -> & Hw).
    apply (f_equal length) in E. rewrite !length_app in E.
    assert (w = []) as -> by (destruct w; simpl in E; [done | lia]). done.
Qed.

Lemma cursor_ok_star s x :
  cursor_ok P T s -> T !! Glob.t_at s = Some x -> P !! Glob.p_at s = Some star ->
  cursor_ok P T {| Glob.p_at := S (Glob.p_at s); Glob.t_at := Glob.t_at s;
                   Glob.star_at := Some (Glob.p_at s, Glob.t_at s) |}.
Proof.
  destruct s as [p t sa]; unfold cursor_ok; simpl. intros (Hp & Ht & Hs) HT HP.
  pose proof (lookup_lt_Some _ _ _ HP). split; [lia|]. split; [done|].
  exists []. pose proof (drop_S _ _ _ HP) as HdP.
  repeat split; try done; try (simpl; lia); [apply not_elem_of_nil|].
  destruct sa as [[sp st]|]; [|by destruct Hs].
  destruct Hs as (lit & Hl & HPs & HTs & _ & _ & ->).
  rewrite HPs, HTs, HdP. by apply gmatch_leftmost.
Qed.

Lemma cursor_ok_lit s x :
  cursor_ok P T s -> T !! Glob.t_at s = Some x -> P !! Glob.p_at s = Some x -> x <> star ->
  cursor_ok P T {| Glob.p_at := S (Glob.p_at s); Glob.t_at := S (Glob.t_at s);
                   Glob.star_at := Glob.star_at s |}.
Proof.
  destruct s as [p t sa]; unfold cursor_ok; simpl. intros (Hp & Ht & Hs) HT HP Hx.
  pose proof (lookup_lt_Some _ _ _ HP). pose proof (lookup_lt_Some _ _ _ HT).
  rewrite (drop_S _ _ _ HP), (drop_S _ _ _ HT) in Hs.
  split; [lia|]. split; [lia|]. destruct sa as [[sp st]|].
  - destruct Hs as (lit & Hl & HPs & HTs & ? & ? & HG). exists (lit ++ [x]).
    rewrite HPs, HTs, length_app in *. simpl.
    rewrite <- !app_assoc. simpl. repeat split; try done; try lia. set_solver.
  - destruct Hs as [-> ->]. rewrite gmatch_lit, beqb_refl by done. done.
Qed.

Lemma cursor_mismatch p t x :
  T !! t = Some x -> P !! p <> Some star -> P !! p <> Some x ->
  gmatch (drop p P) (drop t T) = false.
Proof.
  intros HT Hs Hx. rewrite (drop_S _ _ _ HT). destruct (P !! p) as [c|] eqn:E.
  - rewrite (drop_S _ _ _ E). rewrite gmatch_lit by congruence.
    assert (beqb c x = false) as -> by (apply beqb_neq; congruence). done.
  - apply lookup_ge_None in E. by rewrite drop_ge by lia.
Qed.

Lemma cursor_ok_back s x sp st :
  cursor_ok P T s -> T !! Glob.t_at s = Some x ->
  P !! Glob.p_at s <> Some star -> P !! Glob.p_at s <> Some x ->
  Glob.star_at s = Some (sp, st) ->
  cursor_ok P T {| Glob.p_at := S sp; Glob.t_at := S st; Glob.star_at := Some (sp, S st) |}.
Proof.
  destruct s as [p t sa]; unfold cursor_ok; simpl. intros (Hp & Ht & Hs) HT H1 H2 ->.
  destruct Hs as (lit & Hl & HPs & HTs & ? & ? & HG).
  pose proof (lookup_lt_Some _ _ _ HT). split; [lia|]. split; [lia|].
  assert (HPsp : P !! sp = Some star).
  { pose proof (lookup_drop P sp 0) as E. rewrite HPs, Nat.add_0_r in E. by simpl in E. }
  exists []. repeat split; try done; try (simpl; lia); [apply not_elem_of_nil| |].
  - by rewrite (drop_S _ _ _ HPsp).
  - rewrite HG, (drop_S _ _ _ HPsp) in *. injection HPs as HPs.
    destruct (lookup_lt_is_Some_2 T st) as [y HTst]; [lia|].
    rewrite gmatch_star at 1. rewrite HPs at 1. rewrite HTs at 1.
    rewrite gmatch_lits_app, (cursor_mismatch _ _ _ HT H1 H2) by done. simpl orb.
    by rewrite (drop_S _ _ _ HTst).
Qed.

Lemma run_correct fuel s :
  cursor_ok P T s -> measure P T s <= fuel -> Glob.run fuel P T s = Some (gmatch P T).
Proof.
  revert s; induction fuel as [|fuel IH]; intros s Hok Hm; simpl;
    (destruct (T !! Glob.t_at s) as [x|] eqn:HT; [|by rewrite (cursor_ok_end s)]);
    pose proof (lookup_lt_Some _ _ _ HT) as HTl;
    pose proof Hok as (Hp & Ht & Hinv).
  { exfalso. unfold measure in Hm. destruct (Glob.star_at s) as [[sp st]|]; [lia|].
    destruct Hinv as [_ Hpt]. nia. }
  destruct (Glob.at_is P (Glob.p_at s) star) eqn:E1.
  { apply at_is_true in E1. apply IH; [by eapply cursor_ok_star|].
    pose proof (lookup_lt_Some _ _ _ E1). unfold measure in *; simpl.
    destruct (Glob.star_at s) as [[sp st]|].
    - destruct Hinv as (lit & _ & _ & _ & ? & ? & _). nia.
    - destruct Hinv as [_ Hpt]. nia. }
  apply at_is_false in E1. destruct (Glob.at_is P (Glob.p_at s) x) eqn:E2.
  { apply at_is_true in E2. apply IH; [eapply cursor_ok_lit; eauto; congruence|].
    pose proof (lookup_lt_Some _ _ _ E2). unfold measure in *; simpl.
    destruct (Glob.star_at s) as [[sp st]|]; nia. }
  apply at_is_false in E2. destruct (Glob.star_at s) as [[sp st]|] eqn:Es.
  - apply IH; [by eapply cursor_ok_back|]. unfold measure in *; simpl. rewrite Es in Hm.
    destruct Hinv as (lit & _ & _ & _ & ? & ? & _).
    assert (length T - st = S (length T - S st)) by lia. nia.
  - destruct Hinv as [-> _]. by rewrite (cursor_mismatch _ _ _ HT E1 E2).
Qed.

End Loop.

Lemma start_ok P T : cursor_ok P T Glob.start.
Proof. unfold cursor_ok; simpl. repeat split; lia. Qed.

Lemma run_start P T :
  Glob.run (Glob.enough P T) P T Glob.start = Some (gmatch P T).
Proof. apply run_correct; [apply start_ok|]. unfold measure, Glob.enough; simpl. lia. Qed.

Lemma matches_gmatch g v :
  Glob.matches g v = gmatch (as_bytes (Glob.pattern g)) (as_bytes v).
Proof. unfold Glob.matches. by rewrite run_start. Qed.

Lemma matches_refl s : Glob.matches (Glob.new s) s = true.
Proof.
  rewrite matches_gmatch. simpl. induction (as_bytes s) as [|c l IH]; [done|].
  destruct (decide (c = star)) as [->|Hc].
  - apply gmatch_star_iff. exists [star], l. done.
  - by rewrite gmatch_lit, beqb_refl, IH.
Qed.

#[export] Hint Rewrite matches_gmatch : rust.

(** C16: The two-pointer match is the glob.  For every pattern and text the loop
    finishes within [enough] iterations, and its answer is `true` exactly when
    the text is the pattern with each `*` replaced by some run of bytes and
    every other byte standing for itself; there is no other wildcard, no
    escape, and `*` crosses `/`. *)
Theorem glob_loop_is_glob pattern text :
  exists answer,
    Glob.run (Glob.enough pattern text) pattern text Glob.start = Some answer /\
    (answer = true <-> Matches pattern text).
Proof. exists (gmatch pattern text). split; [apply run_start | apply gmatch_Matches]. Qed.
