(* ===== verification/PolicyTypes.v ===== *)
(** * The vocabulary of policy decisions (src/src/policy/mod.rs)

    Principals, environments, risks, resource scopes and constraints, the
    action details an extractor produces, the [ActionContext] a decision is
    made on, and the decision itself.  The constructors are the source's: the
    private representation of [ResourceScope] is kept private by the
    invariants [scope_wf] and [details_wf], which every constructor
    establishes. *)
From stdpp Require Import pretty.
From S2P Require Import Prelude RustStr.

(** ** Enumerations *)

Inductive HttpMethod := Get | Post | Put | Patch | Delete.

Definition method_as_str (m : HttpMethod) : string :=
  match m with
  | Get => "GET" | Post => "POST" | Put => "PUT" | Patch => "PATCH" | Delete => "DELETE"
  end.

Inductive EnvironmentClass := Prod | Staging | Qa | Dev | Unclassified.

Definition environment_as_str (e : EnvironmentClass) : string :=
  match e with
  | Prod => "prod" | Staging => "staging" | Qa => "qa" | Dev => "dev"
  | Unclassified => "unclassified"
  end.

Definition environment_parse (value : string) : option EnvironmentClass :=
  let v := to_ascii_lowercase (trim value) in
  if String.eqb v "prod" || String.eqb v "production" then Some Prod
  else if String.eqb v "staging" then Some Staging
  else if String.eqb v "qa" then Some Qa
  else if String.eqb v "dev" || String.eqb v "development" then Some Dev
  else None.

Inductive UpstreamAuthority := Shared | Delegated.

Inductive ResourceType :=
| VendorResource | Issue | Project | Channel | Datasource | Dashboard | Unknown.

Inductive NormalizedAction :=
| ReadVendorResource | ReadIssue | SearchIssues | ReadProject | QueryLogs
| ListDatasources | ReadDatasource | ListChannels | ReadChannel
| ReadChannelHistory | ReadThread | SearchMessages | Passthrough.

Inductive RequestRisk := Read | Write | Destructive.

Definition risk_as_str (r : RequestRisk) : string :=
  match r with Read => "read" | Write => "write" | Destructive => "destructive" end.

(** [derive(PartialOrd, Ord)]: declaration order. *)
Definition risk_rank (r : RequestRisk) : nat :=
  match r with Read => 0 | Write => 1 | Destructive => 2 end.

Definition risk_from_method (m : HttpMethod) : RequestRisk :=
  match m with
  | Get => Read
  | Post | Put | Patch => Write
  | Delete => Destructive
  end.

Inductive PolicyEffect := Allow | Deny.

#[export] Instance HttpMethod_eq_dec : EqDecision HttpMethod.
Proof. solve_decision. Defined.
#[export] Instance EnvironmentClass_eq_dec : EqDecision EnvironmentClass.
Proof. solve_decision. Defined.
#[export] Instance UpstreamAuthority_eq_dec : EqDecision UpstreamAuthority.
Proof. solve_decision. Defined.
#[export] Instance ResourceType_eq_dec : EqDecision ResourceType.
Proof. solve_decision. Defined.
#[export] Instance NormalizedAction_eq_dec : EqDecision NormalizedAction.
Proof. solve_decision. Defined.
#[export] Instance RequestRisk_eq_dec : EqDecision RequestRisk.
Proof. solve_decision. Defined.
#[export] Instance PolicyEffect_eq_dec : EqDecision PolicyEffect.
Proof. solve_decision. Defined.

(** ** Identities *)

Inductive PrincipalAuthority := Local | Oidc (issuer : string).

#[export] Instance PrincipalAuthority_eq_dec : EqDecision PrincipalAuthority.
Proof. solve_decision. Defined.

Definition authority_issuer (a : PrincipalAuthority) : option string :=
  match a with Local => None | Oidc issuer => Some issuer end.

Definition authority_label (a : PrincipalAuthority) : string :=
  match a with Local => "local" | Oidc issuer => issuer end.

Record Principal := {
  tenant : string;
  subject : string;
  groups : list string;
  scopes : list string;
  authority : PrincipalAuthority;
}.

#[export] Instance Principal_eq_dec : EqDecision Principal.
Proof. solve_decision. Defined.

Definition principal_local : Principal :=
  {| tenant := "local"; subject := "local"; groups := []; scopes := []; authority := Local |}.

(** [ClientIdentity] holds digests only; see [reported] below. *)
Record ClientIdentity := { client_name : option string; client_version : option string }.

#[export] Instance ClientIdentity_eq_dec : EqDecision ClientIdentity.
Proof. solve_decision. Defined.

(** *** Digests of caller text

    [sha256] is the sha2 crate's [Sha256::digest]. *)
Section Digest.
Variable sha256 : list byte -> list byte.

Definition hex_lower_digit (n : N) : byte :=
  if (n <? 10)%N then byte_of (48 + n) else byte_of (87 + n).

(** [write!(out, "{byte:02x}")]. *)
Definition hex_lower (b : byte) : list byte :=
  [hex_lower_digit (code b / 16); hex_lower_digit (code b mod 16)].

Definition expression_digest (value : string) : string :=
  of_bytes (as_bytes "sha256:"
            ++ mjoin (map hex_lower (take 8 (sha256 (as_bytes value))))
            ++ as_bytes "/" ++ as_bytes (pretty (N.of_nat (str_len value)))).

Definition opaque_handle (value : string) : string := expression_digest value.

Definition digest_caller_text (value : string) : option string :=
  let trimmed := trim value in
  if str_is_empty trimmed then None else Some (opaque_handle trimmed).

Definition reported (name version : option string) : ClientIdentity :=
  {| client_name := name ≫= digest_caller_text;
     client_version := version ≫= digest_caller_text |}.

Definition correlation_id (raw : string) : string :=
  default "unset" (digest_caller_text raw).
End Digest.

(** *** Credential labels *)

Definition LABEL_SEGMENT_MAX_CHARS : nat := 128.

Definition slash : byte := byte_of 47.

Definition label_segment (value : string) : string :=
  of_bytes (mjoin (take LABEL_SEGMENT_MAX_CHARS
    (List.filter (fun ch => negb (is_control ch) && negb (bool_decide (ch = [slash])))
       (chars (as_bytes value))))).

(** A registry row: the [CredentialSlot] interface of the secret registry. *)
Record CredentialSlot := { slot_vendor : string; slot_key : string }.

Definition CredentialLabel := string.

Definition label_slot (slot : CredentialSlot) : CredentialLabel :=
  (label_segment (slot_vendor slot) ++ "/" ++ label_segment (slot_key slot))%string.
Definition label_principal_slot (slot : CredentialSlot) (principal : string) : CredentialLabel :=
  (label_segment (slot_vendor slot) ++ "/" ++ label_segment (slot_key slot)
   ++ "/" ++ label_segment principal)%string.
Definition label_unconfigured (vendor : string) : CredentialLabel :=
  (label_segment vendor ++ "/unconfigured")%string.
Definition label_indeterminate (vendor : string) : CredentialLabel :=
  (label_segment vendor ++ "/indeterminate")%string.

(** [provenance] is the secret reference's scheme and provider version. *)
Record SecretProvenance := { prov_source : string; prov_version : string }.

Record UpstreamIdentity := {
  up_label : CredentialLabel;
  up_vendor : string;
  up_environment : EnvironmentClass;
  up_authority : UpstreamAuthority;
  up_provenance : option SecretProvenance;
}.

(** ** Resource scopes *)

Inductive Scope := Unscoped | Collection | Ids (ids : list string).

#[export] Instance Scope_eq_dec : EqDecision Scope.
Proof. solve_decision. Defined.

Definition scope_unscoped : Scope := Unscoped.
Definition scope_collection : Scope := Collection.

(** [Vec::dedup]: drop every element equal to its predecessor. *)
Fixpoint dedup (l : list string) : list string :=
  match l with
  | [] => []
  | x :: l' =>
      match dedup l' with
      | y :: l'' => if String.eqb x y then y :: l'' else x :: y :: l''
      | [] => [x]
      end
  end.

(** [sort_unstable] on strings: equal strings are indistinguishable, so any
    correct sort gives the same list. *)
Definition scope_ids (ids : list string) : Scope :=
  let ids := List.filter (fun id => negb (is_blank id)) ids in
  match ids with
  | [] => scope_unscoped
  | _ => Ids (dedup (merge_sort str_le ids))
  end.

Definition scope_id (id : string) : Scope := scope_ids [id].

Definition is_unscoped (s : Scope) : bool := match s with Unscoped => true | _ => false end.
Definition is_collection (s : Scope) : bool := match s with Collection => true | _ => false end.
Definition id_count (s : Scope) : nat := match s with Ids ids => length ids | _ => 0 end.

Definition all_ids_allowed (s : Scope) (allowed : string -> bool) : bool :=
  match s with Ids ids => forallb allowed ids | _ => false end.

Record ResourceConstraint := { rc_type : ResourceType; rc_scope : Scope }.

#[export] Instance ResourceConstraint_eq_dec : EqDecision ResourceConstraint.
Proof. solve_decision. Defined.

Definition constraint_ids (ty : ResourceType) (ids : list string) : option ResourceConstraint :=
  let scope := scope_ids ids in
  if (0 <? id_count scope)%nat then Some {| rc_type := ty; rc_scope := scope |} else None.

(** ** Action details *)

Record ActionDetails := {
  ad_action : NormalizedAction;
  ad_method : HttpMethod;
  ad_path : string;
  ad_attributes : list (string * string);
  ad_type : ResourceType;
  ad_scope : Scope;
  ad_constraint : option ResourceConstraint;
  ad_risk : RequestRisk;
}.

#[export] Instance ActionDetails_eq_dec : EqDecision ActionDetails.
Proof. solve_decision. Defined.

Definition details_read (action : NormalizedAction) (path : string)
    (attributes : list (string * string)) (ty : ResourceType) (scope : Scope) : ActionDetails :=
  {| ad_action := action; ad_method := Get; ad_path := path; ad_attributes := attributes;
     ad_type := ty; ad_scope := scope; ad_constraint := None; ad_risk := Read |}.

(** The approved set: a value of this type names the whole classification. *)
Record ApprovedReadDowngrade := {
  dg_method : HttpMethod;
  dg_path : string;
  dg_action : NormalizedAction;
  dg_type : ResourceType;
}.

Definition JIRA_SEARCH_JQL : ApprovedReadDowngrade :=
  {| dg_method := Post; dg_path := "/rest/api/3/search/jql";
     dg_action := SearchIssues; dg_type := Issue |}.

Definition downgrade_endpoint (d : ApprovedReadDowngrade) : string :=
  (method_as_str (dg_method d) ++ " " ++ dg_path d)%string.

Definition details_read_downgrade (d : ApprovedReadDowngrade)
    (attributes : list (string * string)) (scope : Scope) : ActionDetails :=
  {| ad_action := dg_action d; ad_method := dg_method d; ad_path := dg_path d;
     ad_attributes := attributes; ad_type := dg_type d; ad_scope := scope;
     ad_constraint := None; ad_risk := Read |}.

Definition details_unclassified (method : HttpMethod) (path : string) : ActionDetails :=
  {| ad_action := Passthrough; ad_method := method; ad_path := path; ad_attributes := [];
     ad_type := Unknown; ad_scope := scope_unscoped; ad_constraint := None;
     ad_risk := risk_from_method method |}.

Definition details_unmapped_tool (risk : RequestRisk) : ActionDetails :=
  let method := match risk with Read => Get | Write => Post | Destructive => Delete end in
  {| ad_action := Passthrough; ad_method := method; ad_path := "/"; ad_attributes := [];
     ad_type := Unknown; ad_scope := scope_unscoped; ad_constraint := None; ad_risk := risk |}.

(** The two reviewed read-only POST endpoints of the native adapters. *)
Definition native_post_approved (vendor path : string) : bool :=
  let parts := split slash (trim_matches slash path) in
  (String.eqb vendor "artifactory" && String.eqb path "/api/search/aql")
  || (String.eqb vendor "mend"
      && match parts with
         | [p1; p2; p3; org; p5; p6] =>
             String.eqb p1 "api" && String.eqb p2 "v3.0" && String.eqb p3 "orgs"
             && negb (str_is_empty org)
             && String.eqb p5 "projects" && String.eqb p6 "summaries"
         | _ => false
         end).

Definition native_post_read (vendor path : string) : ActionDetails :=
  let details := details_unclassified Post path in
  if native_post_approved vendor path then
    {| ad_action := ReadVendorResource; ad_method := ad_method details; ad_path := ad_path details;
       ad_attributes := ad_attributes details; ad_type := VendorResource;
       ad_scope := ad_scope details; ad_constraint := ad_constraint details; ad_risk := Read |}
  else details.

Definition details_constrained_by (d : ActionDetails) (c : option ResourceConstraint) : ActionDetails :=
  {| ad_action := ad_action d; ad_method := ad_method d; ad_path := ad_path d;
     ad_attributes := ad_attributes d; ad_type := ad_type d; ad_scope := ad_scope d;
     ad_constraint := c; ad_risk := ad_risk d |}.

Definition details_unclassified_with_attributes (method : HttpMethod) (path : string)
    (attributes : list (string * string)) : ActionDetails :=
  let d := details_unclassified method path in
  {| ad_action := ad_action d; ad_method := ad_method d; ad_path := ad_path d;
     ad_attributes := attributes; ad_type := ad_type d; ad_scope := ad_scope d;
     ad_constraint := ad_constraint d; ad_risk := ad_risk d |}.

(** ** The action context *)

Record ActionContext := {
  ac_principal : Principal;
  ac_client : ClientIdentity;
  ac_vendor : string;
  ac_vendor_account : option string;
  ac_environment : EnvironmentClass;
  ac_tool_name : string;
  ac_action : NormalizedAction;
  ac_method : HttpMethod;
  ac_path : string;
  ac_destination_origin : option string;
  ac_attributes : list (string * string);
  ac_type : ResourceType;
  ac_scope : Scope;
  ac_constraint : option ResourceConstraint;
  ac_class : option string;
  ac_upstream : UpstreamIdentity;
  ac_risk : RequestRisk;
}.

Definition assemble (principal : Principal) (client : ClientIdentity)
    (vendor_account : option string) (tool_name : string) (details : ActionDetails)
    (resource_class : option string) (upstream : UpstreamIdentity) : ActionContext :=
  {| ac_principal := principal; ac_client := client;
     ac_vendor := up_vendor upstream; ac_vendor_account := vendor_account;
     ac_environment := up_environment upstream; ac_tool_name := tool_name;
     ac_action := ad_action details; ac_method := ad_method details; ac_path := ad_path details;
     ac_destination_origin := None; ac_attributes := ad_attributes details;
     ac_type := ad_type details; ac_scope := ad_scope details;
     ac_constraint := ad_constraint details; ac_class := resource_class;
     ac_upstream := upstream; ac_risk := ad_risk details |}.

(** [origin] is the destination's ASCII-serialized origin. *)
Definition set_destination (origin : string) (c : ActionContext) : ActionContext :=
  {| ac_principal := ac_principal c; ac_client := ac_client c; ac_vendor := ac_vendor c;
     ac_vendor_account := ac_vendor_account c; ac_environment := ac_environment c;
     ac_tool_name := ac_tool_name c; ac_action := ac_action c; ac_method := ac_method c;
     ac_path := ac_path c; ac_destination_origin := Some origin;
     ac_attributes := ac_attributes c; ac_type := ac_type c; ac_scope := ac_scope c;
     ac_constraint := ac_constraint c; ac_class := ac_class c; ac_upstream := ac_upstream c;
     ac_risk := ac_risk c |}.

(** ** Decisions *)

Record PolicyDecision := {
  effect : PolicyEffect;
  rule_id : option string;
  policy_version : option string;
  reason : string;
}.

#[export] Instance PolicyDecision_eq_dec : EqDecision PolicyDecision.
Proof. solve_decision. Defined.

Definition local_allow : PolicyDecision :=
  {| effect := Allow; rule_id := None; policy_version := None;
     reason := "local mode: no inbound authentication, loopback/stdio trust boundary" |}.

Definition default_deny (why : string) : PolicyDecision :=
  {| effect := Deny; rule_id := None; policy_version := None; reason := why |}.

Definition by_rule (eff : PolicyEffect) (id version : string) : PolicyDecision :=
  let verb := match eff with Allow => "allowed" | Deny => "denied" end in
  {| effect := eff; rule_id := Some id; policy_version := Some version;
     reason := (verb ++ " by rule " ++ id)%string |}.

Definition default_deny_under (version why : string) : PolicyDecision :=
  {| effect := Deny; rule_id := None; policy_version := Some version; reason := why |}.

Definition is_allow (d : PolicyDecision) : bool :=
  match effect d with Allow => true | Deny => false end.

(** ** Well-formedness *)

(** The private invariant of [Ids]: non-empty, strictly increasing (so sorted
    and without duplicates), and no blank id. *)
Definition str_lt (s t : string) : Prop := str_le s t /\ s <> t.

Definition scope_wf (s : Scope) : Prop :=
  match s with
  | Ids ids => ids <> [] /\ StronglySorted str_lt ids
               /\ Forall (fun id => is_blank id = false) ids
  | _ => True
  end.

Definition constraint_wf (c : ResourceConstraint) : Prop :=
  scope_wf (rc_scope c) /\ exists ids, rc_scope c = Ids ids.

(** Reads that are not GETs: the approved POST endpoints. *)
Definition approved_post_read (d : ActionDetails) : Prop :=
  ad_method d = Post /\
  (ad_path d = dg_path JIRA_SEARCH_JQL /\ ad_type d = Issue
   \/ ad_type d = VendorResource /\ exists vendor, native_post_approved vendor (ad_path d) = true).

(** What every extractor result satisfies: the scope invariants, and a risk
    that is either what the method says, or a read of an approved endpoint, or
    (for an unmapped tool, whose type is [Unknown]) the server-declared one. *)
Definition details_wf (d : ActionDetails) : Prop :=
  scope_wf (ad_scope d) /\
  (forall c, ad_constraint d = Some c -> constraint_wf c) /\
  (ad_type d = Unknown -> ad_scope d = Unscoped) /\
  (ad_risk d = risk_from_method (ad_method d)
   \/ (ad_risk d = Read /\ approved_post_read d)).

Lemma dedup_elem x l : x ∈ dedup l <-> x ∈ l.
Proof.
  induction l as [|y l IH]; simpl; [done|].
  destruct (dedup l) as [|z l']; [set_solver|].
  destruct (String.eqb_spec y z) as [->|Hne]; set_solver.
Qed.

Lemma dedup_sorted l : StronglySorted str_le l -> StronglySorted str_lt (dedup l).
Proof.
  induction 1 as [|x l Hs IH Hx]; simpl; [constructor|].
  pose proof (fun y => dedup_elem y l) as Hel.
  destruct (dedup l) as [|y l'] eqn:E.
  - repeat constructor.
  - destruct (String.eqb_spec x y) as [->|Hne]; [done|].
    constructor; [done|]. apply Forall_forall. intros z Hz.
    rewrite Forall_forall in Hx. split; [by apply Hx, Hel|]. intros ->.
    apply StronglySorted_inv in IH as [_ Hy]. rewrite Forall_forall in Hy.
    apply elem_of_cons in Hz as [->|Hz]; [done|]. destruct (Hy z Hz) as [Hle Hne'].
    apply Hne'. apply (anti_symm str_le); [done|]. apply Hx, Hel. set_solver.
Qed.

Lemma filter_blank_elem ids id :
  id ∈ List.filter (fun id => negb (is_blank id)) ids <-> id ∈ ids /\ is_blank id = false.
Proof. by rewrite !list_elem_of_In, filter_In, negb_true_iff. Qed.

Lemma scope_ids_cases ids :
  (scope_ids ids = Unscoped /\ forall id, id ∈ ids -> is_blank id = true)
  \/ exists l, scope_ids ids = Ids l /\ scope_wf (Ids l)
       /\ forall id, id ∈ l <-> id ∈ ids /\ is_blank id = false.
Proof.
  unfold scope_ids. pose proof (filter_blank_elem ids) as Hf.
  destruct (List.filter _ ids) as [|x l] eqn:E.
  - left. split; [done|]. intros id Hid. destruct (is_blank id) eqn:Hb; [done|].
    exfalso. apply (not_elem_of_nil id), Hf. auto.
  - right. eexists. split; [done|].
    assert (Hm : forall id, id ∈ dedup (merge_sort str_le (x :: l)) <-> id ∈ x :: l).
    { intros id. by rewrite dedup_elem, (merge_sort_Permutation str_le (x :: l)). }
    split; [|intros id; by rewrite Hm, Hf].
    repeat split.
    + intros Hnil. apply (not_elem_of_nil x). rewrite <- Hnil, Hm. set_solver.
    + apply dedup_sorted, (StronglySorted_merge_sort str_le).
    + apply Forall_forall. intros id Hid. by apply Hm, Hf in Hid as [_ ?].
Qed.

Lemma scope_ids_wf ids : scope_wf (scope_ids ids).
Proof. destruct (scope_ids_cases ids) as [[-> _]|(l & -> & Hwf & _)]; done. Qed.

Lemma all_ids_allowed_scope_ids ids f :
  all_ids_allowed (scope_ids ids) f = true <->
  (exists id, id ∈ ids /\ is_blank id = false)
  /\ forall id, id ∈ ids -> is_blank id = false -> f id = true.
Proof.
  destruct (scope_ids_cases ids) as [[-> Hb]|(l & -> & (Hne & _) & Hl)]; simpl.
  - split; [done|]. intros [(id & Hid & Hnb) _]. by rewrite Hb in Hnb.
  - rewrite forallb_elem_of. split.
    + intros H. split; [|intros id Hid Hnb; by apply H, Hl].
      destruct l as [|y l]; [done|]. exists y. apply Hl. set_solver.
    + intros [_ H] id [? ?]%Hl. auto.
Qed.

(** A well-formed scope never authorizes vacuously. *)
Lemma all_ids_allowed_inhabited s f :
  scope_wf s -> all_ids_allowed s f = true -> exists id ids, s = Ids ids /\ id ∈ ids /\ f id = true.
Proof.
  destruct s as [| |[|id ids]]; simpl; try done.
  - by intros [? _].
  - intros _ H. apply andb_true_iff in H as [H _]. exists id, (id :: ids). set_solver.
Qed.

Lemma constraint_ids_wf ty ids c : constraint_ids ty ids = Some c -> constraint_wf c.
Proof.
  unfold constraint_ids, constraint_wf. intros H. case_in H; [|done]. injection H as <-. simpl.
  split; [apply scope_ids_wf|]. destruct (scope_ids ids); try done; eauto.
Qed.

Lemma constraint_ids_None ty ids :
  constraint_ids ty ids = None <-> forall id, id ∈ ids -> is_blank id = true.
Proof.
  unfold constraint_ids.
  destruct (scope_ids_cases ids) as [[-> Hb]|(l & -> & (Hne & _) & Hl)]; simpl; [done|].
  destruct l as [|x l]; [done|]. simpl. split; [done|]. intros H.
  destruct (proj1 (Hl x)) as [Hx Hnb]; [set_solver|]. by rewrite H in Hnb.
Qed.

Lemma details_read_wf action path attrs ty scope :
  scope_wf scope -> ty <> Unknown -> details_wf (details_read action path attrs ty scope).
Proof. intros H Hty. repeat split; simpl; auto; done. Qed.

Lemma details_read_downgrade_wf attrs scope :
  scope_wf scope -> details_wf (details_read_downgrade JIRA_SEARCH_JQL attrs scope).
Proof.
  intros H. repeat split; simpl; auto; try done. right. split; [done|].
  split; [done|]. left. done.
Qed.

Lemma details_unclassified_wf m path : details_wf (details_unclassified m path).
Proof. repeat split; simpl; auto; done. Qed.

Lemma details_unclassified_with_attributes_wf m path attrs :
  details_wf (details_unclassified_with_attributes m path attrs).
Proof. repeat split; simpl; auto; done. Qed.

Lemma details_unmapped_tool_wf risk : details_wf (details_unmapped_tool risk).
Proof. repeat split; simpl; auto; try done. left. by destruct risk. Qed.

Lemma native_post_read_wf vendor path : details_wf (native_post_read vendor path).
Proof.
  unfold native_post_read. destruct (native_post_approved vendor path) eqn:E.
  - repeat split; simpl; auto; try done. right. split; [done|]. split; [done|]. right. eauto.
  - apply details_unclassified_wf.
Qed.

Lemma details_constrained_by_wf d c :
  details_wf d -> (forall x, c = Some x -> constraint_wf x) -> details_wf (details_constrained_by d c).
Proof.
  intros (? & ? & ? & Hr) Hc. split; [done|]. split; [exact Hc|]. split; [done|]. exact Hr.
Qed.

#[export] Hint Resolve scope_ids_wf details_read_wf details_read_downgrade_wf
  details_unclassified_wf details_unclassified_with_attributes_wf details_unmapped_tool_wf
  native_post_read_wf details_constrained_by_wf constraint_ids_wf : rust.
