(* ===== verification/Signing.v ===== *)
(** * Ed25519 signatures with domain separation (src/src/policy/signing.rs)

    The signature primitive (aws-lc-rs), base64 and SHA-256 (sha2) are
    libraries and parameters here; what the source adds, and what is modelled,
    is the framing of the signed message by its domain, the parsing of keys and
    signatures, the sidecar file's rules and the key file's permission rule. *)
From S2P Require Import Prelude RustStr PolicyTypes.

Definition SIGNATURE_SUFFIX : string := ".sig".
Definition PUBLIC_KEY_LEN : nat := 32.
Definition SIGNATURE_LEN : nat := 64.
Definition MAX_SIGNATURE_FILE_BYTES : N := 256.

Inductive Domain := PolicyBundle | RevocationList | AuditCheckpoint.

Definition newline : byte := byte_of 10.

Definition domain_label (d : Domain) : list byte :=
  match d with
  | PolicyBundle => as_bytes "mcp-devtools/policy-bundle/v1" ++ [newline]
  | RevocationList => as_bytes "mcp-devtools/revocation-list/v1" ++ [newline]
  | AuditCheckpoint => as_bytes "mcp-devtools/audit-checkpoint/v1" ++ [newline]
  end.

Definition framed (d : Domain) (message : list byte) : list byte := domain_label d ++ message.

(** [[u8; 32]] and [[u8; 64]]: the length is checked where they are parsed. *)
Record VerifyingKey := { key_bytes : list byte }.
Record Signature := { signature_bytes : list byte }.

#[export] Instance VerifyingKey_eq_dec : EqDecision VerifyingKey.
Proof. solve_decision. Defined.
#[export] Instance Signature_eq_dec : EqDecision Signature.
Proof. solve_decision. Defined.

(** The third-party primitives, as one interface. *)
Class Crypto := {
  sha256 : list byte -> list byte;
  base64_decode : string -> option (list byte);
  ed25519_verify : list byte -> list byte -> list byte -> bool;
}.

Section Signing.
Context `{Crypto}.

Definition key_id (k : VerifyingKey) : string :=
  of_bytes (as_bytes "ed25519:" ++ mjoin (map hex_lower (take 8 (sha256 (key_bytes k))))).

Definition key_from_base64 (text : string) : result VerifyingKey string :=
  match base64_decode (trim text) with
  | None => Err "public key is not base64"
  | Some decoded =>
      if (length decoded =? PUBLIC_KEY_LEN)%nat then Ok {| key_bytes := decoded |}
      else Err "public key must be 32 bytes of raw Ed25519 key material"
  end.

Definition signature_from_base64 (text : string) : result Signature string :=
  match base64_decode (trim text) with
  | None => Err "signature is not base64"
  | Some decoded =>
      if (length decoded =? SIGNATURE_LEN)%nat then Ok {| signature_bytes := decoded |}
      else Err "signature must be 64 bytes"
  end.

Definition verify (k : VerifyingKey) (d : Domain) (message : list byte) (s : Signature)
    : result unit string :=
  if ed25519_verify (key_bytes k) (framed d message) (signature_bytes s) then Ok tt
  else Err "signature does not verify".

(** What the file system answers about `<file>.sig`: its length, then its
    text, each an I/O error instead when the call fails. *)
Record Sidecar := { sidecar_len : result N string; sidecar_text : result string string }.

Definition detached_signature_path (file : string) : string := (file ++ SIGNATURE_SUFFIX)%string.

Definition read_detached (file : string) (sc : Sidecar) : result Signature string :=
  let path := detached_signature_path file in
  match sidecar_len sc with
  | Err error => Err ("cannot read signature " ++ path ++ ": " ++ error)%string
  | Ok len =>
      if (MAX_SIGNATURE_FILE_BYTES <? len)%N then
        Err ("signature file " ++ path ++ " is too large to be a signature")%string
      else
        match sidecar_text sc with
        | Err error => Err ("cannot read signature " ++ path ++ ": " ++ error)%string
        | Ok text =>
            map_err (fun error => "signature file " ++ path ++ ": " ++ error)%string
              (signature_from_base64 text)
        end
  end.
End Signing.

(** [SigningKey::load]: `mode & 0o777 & !0o640 != 0` refuses the key file. *)
Definition KEY_FILE_ALLOWED_MODE : N := 416.
Definition key_file_mode_ok (mode : N) : bool :=
  (N.ldiff (N.land mode 511) KEY_FILE_ALLOWED_MODE =? 0)%N.

(** ** Domain separation *)

Lemma framed_length d m : length (framed d m) = length (domain_label d) + length m.
Proof. apply length_app. Qed.

(** No label is a prefix of a framed message of another domain. *)
Lemma framed_inj d1 d2 m1 m2 : framed d1 m1 = framed d2 m2 -> d1 = d2 /\ m1 = m2.
Proof.
  unfold framed. destruct d1, d2; intros E; try (split; [done | by apply app_inv_head in E]);
    exfalso; apply (f_equal (take 29)) in E;
    rewrite !take_app_le in E by (vm_compute; lia); vm_compute in E; discriminate.
Qed.

Lemma verify_Ok `{Crypto} k d m s :
  verify k d m s = Ok tt <-> ed25519_verify (key_bytes k) (framed d m) (signature_bytes s) = true.
Proof. unfold verify. destruct (ed25519_verify _ _ _); done. Qed.

Lemma signature_from_base64_len `{Crypto} text s :
  signature_from_base64 text = Ok s -> length (signature_bytes s) = SIGNATURE_LEN.
Proof.
  unfold signature_from_base64. intros E. case_in E; [|done]. case_in E; [|done].
  injection E as <-. by bool_to_prop.
Qed.

Lemma read_detached_len `{Crypto} file sc s :
  read_detached file sc = Ok s -> length (signature_bytes s) = SIGNATURE_LEN.
Proof.
  unfold read_detached. intros E. case_in E; [|done]. case_in E; [done|].
  destruct (sidecar_text sc) as [text|]; [|done].
  destruct (signature_from_base64 text) eqn:Es; [|done]. injection E as ->.
  by eapply signature_from_base64_len.
Qed.
