(* ===== verification/Bundle.v ===== *)
(** * Signed, hot-reloaded documents (src/src/policy/bundle.rs, src/src/ports/audit_sink.rs)

    [SignedBundle] keeps a verified, compiled document in force and replaces it
    only after the change record is durable.  What a document type supplies is
    the interface [BundleDocument]; the policy (PolicyEngine.v) and the
    revocation list (Revocation.v) are its instances.  One watcher poll is
    [tick], a function of what the disk, the journal and the clock answer. *)
From stdpp Require Import pretty.
From S2P Require Import Prelude RustStr PolicyTypes Signing.

(** ** Control records *)

Inductive ControlEventKind :=
| AdminMutation | AdminProposal | AdminApproval | AdminApplication | AdminRejection
| PolicyLoaded | PolicyChanged | PolicyRejected
| RevocationLoaded | RevocationChanged | RevocationRejected | RevokedTokenRejected.

#[export] Instance ControlEventKind_eq_dec : EqDecision ControlEventKind.
Proof. solve_decision. Defined.

Record SignatureStatus := { verified : bool; status_key_id : option string }.

Record ControlEvent := {
  ce_timestamp : string;
  ce_kind : ControlEventKind;
  ce_principal : option Principal;
  ce_source : option string;
  ce_previous_version : option string;
  ce_version : option string;
  ce_signature : option SignatureStatus;
  ce_reason : option string;
  ce_revoked_subjects : option nat;
  ce_revoked_tokens : option nat;
  ce_not_before : option string;
}.

(** [ControlEvent::now] at clock reading [at_]. *)
Definition event_now (at_ : string) (kind : ControlEventKind) : ControlEvent :=
  {| ce_timestamp := at_; ce_kind := kind; ce_principal := None; ce_source := None;
     ce_previous_version := None; ce_version := None; ce_signature := None; ce_reason := None;
     ce_revoked_subjects := None; ce_revoked_tokens := None; ce_not_before := None |}.

Definition MAX_REASON : nat := 512.

(** [is_char_boundary(cut)] for `0 < cut < len`: not a continuation byte. *)
Fixpoint char_boundary_below (l : list byte) (cut : nat) : nat :=
  match cut with
  | O => O
  | S cut' =>
      match l !! cut with
      | Some b => if is_cont b then char_boundary_below l cut' else cut
      | None => cut
      end
  end.

(** The three UTF-8 bytes of `…`. *)
Definition ellipsis : list byte := [byte_of 226; byte_of 128; byte_of 166].

Definition bounded_reason (reason : string) : string :=
  if (MAX_REASON <? str_len reason)%nat then
    let l := as_bytes reason in
    of_bytes (take (char_boundary_below l MAX_REASON) l ++ ellipsis)
  else reason.

Definition with_reason (e : ControlEvent) (reason : string) : ControlEvent :=
  {| ce_timestamp := ce_timestamp e; ce_kind := ce_kind e; ce_principal := ce_principal e;
     ce_source := ce_source e; ce_previous_version := ce_previous_version e;
     ce_version := ce_version e; ce_signature := ce_signature e;
     ce_reason := Some (bounded_reason reason);
     ce_revoked_subjects := ce_revoked_subjects e; ce_revoked_tokens := ce_revoked_tokens e;
     ce_not_before := ce_not_before e |}.

(** The four fields the watcher fills in. *)
Definition with_origin (e : ControlEvent) (source : string)
    (previous version : option string) (sig : option SignatureStatus) : ControlEvent :=
  {| ce_timestamp := ce_timestamp e; ce_kind := ce_kind e; ce_principal := ce_principal e;
     ce_source := Some source; ce_previous_version := previous; ce_version := version;
     ce_signature := sig; ce_reason := ce_reason e;
     ce_revoked_subjects := ce_revoked_subjects e; ce_revoked_tokens := ce_revoked_tokens e;
     ce_not_before := ce_not_before e |}.

(** ** The document interface *)

Definition MAX_DOCUMENT_BYTES : nat := 4 * 1024 * 1024.

(** [DOMAIN], [NOUN], [KINDS], [compile], [version] and [describe]. *)
Class BundleDocument (D : Type) := {
  DOMAIN : Domain;
  NOUN : string;
  KIND_loaded : ControlEventKind;
  KIND_changed : ControlEventKind;
  KIND_rejected : ControlEventKind;
  compile : list byte -> result D string;
  version : D -> string;
  describe : D -> ControlEvent -> ControlEvent;
  (** Describing a record adds fields; it does not change what it is about. *)
  describe_about : forall d e,
    ce_kind (describe d e) = ce_kind e /\ ce_version (describe d e) = ce_version e
    /\ ce_previous_version (describe d e) = ce_previous_version e;
  kinds_distinct : KIND_changed <> KIND_rejected /\ KIND_changed <> KIND_loaded
                   /\ KIND_rejected <> KIND_loaded;
}.

(** *** Version labels *)
Section Labels.
Context `{Crypto}.

Definition digest_label (bytes : list byte) : string :=
  of_bytes (as_bytes "sha256:" ++ mjoin (map hex_lower (take 8 (sha256 bytes)))).

Definition version_label (n : N) (bytes : list byte) : string :=
  ("v" ++ pretty n ++ "+" ++ digest_label bytes)%string.
End Labels.

(** ** The bundle *)

Record Loaded (D : Type) := { document : D; signature : option SignatureStatus }.
Arguments document {D} _.
Arguments signature {D} _.

Record Staged (D : Type) := { staged_loaded : Loaded D; staged_bytes : list byte }.
Arguments staged_loaded {D} _.
Arguments staged_bytes {D} _.

Record Rejection := { rej_digest : option string; rej_reason : string }.

#[export] Instance Rejection_eq_dec : EqDecision Rejection.
Proof. solve_decision. Defined.

Record SignedBundle (D : Type) := {
  path : string;
  verifier : option VerifyingKey;
  current : Loaded D;
  loaded_bytes : list byte;
  last_reload_error : option string;
  last_journaled_rejection : option Rejection;
}.
Arguments path {D} _.
Arguments verifier {D} _.
Arguments current {D} _.
Arguments loaded_bytes {D} _.
Arguments last_reload_error {D} _.
Arguments last_journaled_rejection {D} _.

Record BundleChange := {
  change_previous_version : string;
  change_version : string;
  change_signature : option SignatureStatus;
}.

(** What one read of the two files answers. *)
Record Disk := { doc_file : result (list byte) string; sidecar : Sidecar }.

Section Operations.
Context `{Crypto} {D : Type} `{BundleDocument D}.
Implicit Type b : SignedBundle D.

Definition read_bytes (p : string) (disk : Disk) : result (list byte) string :=
  match doc_file disk with
  | Err error => Err ("cannot read " ++ NOUN ++ " " ++ p ++ ": " ++ error)%string
  | Ok bytes =>
      if (MAX_DOCUMENT_BYTES <? length bytes)%nat
      then Err (NOUN ++ " " ++ p ++ " is too large")%string
      else Ok bytes
  end.

Definition verify_bytes (p : string) (bytes : list byte) (v : option VerifyingKey) (disk : Disk)
    : result (option SignatureStatus) string :=
  match v with
  | None => Ok None
  | Some k =>
      let? sig := map_err (fun error => NOUN ++ " " ++ p ++ ": " ++ error)%string
                    (read_detached p (sidecar disk)) in
      let? _ := map_err
                  (fun error => NOUN ++ " " ++ p ++ ": " ++ error ++ " (key " ++ key_id k ++ ")")%string
                  (verify k DOMAIN bytes sig) in
      Ok (Some {| verified := true; status_key_id := Some (key_id k) |})
  end.

Definition read_document (p : string) (v : option VerifyingKey) (disk : Disk)
    : result (list byte * option SignatureStatus) string :=
  let? bytes := read_bytes p disk in
  let? sig := verify_bytes p bytes v disk in
  Ok (bytes, sig).

Definition load_with (p : string) (v : option VerifyingKey) (disk : Disk)
    : result (SignedBundle D) string :=
  let? '(bytes, sig) := read_document p v disk in
  let? d := map_err (fun error => NOUN ++ " " ++ p ++ ": " ++ error)%string (compile bytes) in
  Ok {| path := p; verifier := v; current := {| document := d; signature := sig |};
        loaded_bytes := bytes; last_reload_error := None; last_journaled_rejection := None |}.

Definition from_bytes (bytes : list byte) : result (SignedBundle D) string :=
  if (MAX_DOCUMENT_BYTES <? length bytes)%nat
  then Err (NOUN ++ " document is too large")%string
  else
    let? d := compile bytes in
    Ok {| path := ""; verifier := None; current := {| document := d; signature := None |};
          loaded_bytes := bytes; last_reload_error := None; last_journaled_rejection := None |}.

Definition stage_candidate b (bytes : list byte) (sig_text : string) : result (Staged D) string :=
  if (MAX_DOCUMENT_BYTES <? length bytes)%nat then Err "document too large"
  else
    let? d := compile bytes in
    match verifier b with
    | None => Err "signed bundle required"
    | Some k =>
        let? sig := map_err (fun _ => "invalid signature") (signature_from_base64 sig_text) in
        let? _ := map_err (fun _ => "invalid signature") (verify k DOMAIN bytes sig) in
        Ok {| staged_loaded :=
                {| document := d;
                   signature := Some {| verified := true; status_key_id := Some (key_id k) |} |};
              staged_bytes := bytes |}
    end.

Definition bundle_version b : string := version (document (current b)).
Definition degraded b : option string := last_reload_error b.

Definition set_reload_error b (e : option string) : SignedBundle D :=
  {| path := path b; verifier := verifier b; current := current b;
     loaded_bytes := loaded_bytes b; last_reload_error := e;
     last_journaled_rejection := last_journaled_rejection b |}.

Definition note_reload {T} b (outcome : result T string) : SignedBundle D :=
  set_reload_error b (match outcome with Ok _ => None | Err e => Some e end).

Definition note_failure b (why : string) : SignedBundle D := set_reload_error b (Some why).

(** [stage_inner], with the digest it fills in as soon as the bytes are read. *)
Definition stage_inner b (disk : Disk) : result (option (Staged D)) string * option string :=
  match read_bytes (path b) disk with
  | Err e => (Err e, None)
  | Ok bytes =>
      (let? sig := verify_bytes (path b) bytes (verifier b) disk in
       if bool_decide (loaded_bytes b = bytes) then Ok None
       else
         let? d := map_err (fun error => NOUN ++ " " ++ path b ++ ": " ++ error)%string
                     (compile bytes) in
         Ok (Some {| staged_loaded := {| document := d; signature := sig |};
                     staged_bytes := bytes |}),
       Some (digest_label bytes))
  end.

Definition stage_with_digest b (disk : Disk)
    : SignedBundle D * (result (option (Staged D)) string * option string) :=
  let outcome := stage_inner b disk in
  (note_reload b outcome.1, outcome).

Definition commit b (s : Staged D) : SignedBundle D * (BundleChange * Loaded D) :=
  let b' := {| path := path b; verifier := verifier b; current := staged_loaded s;
               loaded_bytes := staged_bytes s; last_reload_error := last_reload_error b;
               last_journaled_rejection := None |} in
  (b', ({| change_previous_version := version (document (current b));
           change_version := version (document (staged_loaded s));
           change_signature := signature (staged_loaded s) |}, current b)).

(** [reload]: stage then commit, nothing journaled (unaudited dry runs). *)
Definition reload b (disk : Disk) : SignedBundle D * result bool string :=
  let '(b', (outcome, _)) := stage_with_digest b disk in
  match outcome with
  | Ok (Some s) => ((commit b' s).1, Ok true)
  | Ok None => (b', Ok false)
  | Err e => (b', Err e)
  end.

(** ** The watcher *)

(** A bounded append: acknowledged as durable, or not proven durable, in which
    case the record may still have been [written] late. *)
Inductive AppendOutcome := Acked | NotProven (written : bool).

(** A record in the journal, and whether the appender saw it acknowledged. *)
Record Entry := { entry_event : ControlEvent; entry_acked : bool }.

Definition append_control (J : list Entry) (e : ControlEvent) (o : AppendOutcome)
    : list Entry * bool :=
  match o with
  | Acked => (J ++ [{| entry_event := e; entry_acked := true |}], true)
  | NotProven true => (J ++ [{| entry_event := e; entry_acked := false |}], false)
  | NotProven false => (J, false)
  end.

Definition loaded_event b (at_ : string) : ControlEvent :=
  describe (document (current b))
    (with_origin (event_now at_ KIND_loaded) (path b) None (Some (bundle_version b))
       (signature (current b))).

Definition changed_event b (s : Staged D) (at_ : string) : ControlEvent :=
  describe (document (staged_loaded s))
    (with_origin (event_now at_ KIND_changed) (path b) (Some (bundle_version b))
       (Some (version (document (staged_loaded s)))) (signature (staged_loaded s))).

Definition rejected_event b (r : Rejection) (at_ : string) : ControlEvent :=
  with_origin (with_reason (event_now at_ KIND_rejected) (rej_reason r)) (path b)
    (Some (bundle_version b)) (rej_digest r) None.

Definition journal_in_force b (J : list Entry) (at_ : string) (o : AppendOutcome)
    : list Entry * bool :=
  append_control J (loaded_event b at_) o.

Definition set_journaled_rejection b (r : Rejection) : SignedBundle D :=
  {| path := path b; verifier := verifier b; current := current b;
     loaded_bytes := loaded_bytes b; last_reload_error := last_reload_error b;
     last_journaled_rejection := Some r |}.

(** What one poll meets: the disk, the clock, the journal's answer, and
    whether the blocking staging task returned at all. *)
Record TickInput := {
  ti_disk : Disk;
  ti_now : string;
  ti_append : AppendOutcome;
  ti_joined : bool;
}.

Definition change_unjournaled : string :=
  (NOUN ++ " change could not be journaled; last good " ++ NOUN ++ " in force")%string.

(** One poll, under the mutation lock: the new bundle and journal, and the
    change hook's arguments when a commit happened. *)
Definition tick (audited : bool) (i : TickInput) (b : SignedBundle D) (J : list Entry)
    : SignedBundle D * list Entry * option (Loaded D * Loaded D) :=
  if negb (ti_joined i) then (b, J, None)
  else
    let '(b1, (outcome, digest)) := stage_with_digest b (ti_disk i) in
    match outcome with
    | Ok None => (b1, J, None)
    | Ok (Some s) =>
        if audited then
          let '(J', acked) := append_control J (changed_event b1 s (ti_now i)) (ti_append i) in
          if acked then
            let '(b2, (_, previous)) := commit b1 s in
            (b2, J', Some (previous, current b2))
          else (note_failure b1 change_unjournaled, J', None)
        else
          let '(b2, (_, previous)) := commit b1 s in
          (b2, J, Some (previous, current b2))
    | Err error =>
        if negb audited then (b1, J, None)
        else
          let r := {| rej_digest := digest; rej_reason := error |} in
          if bool_decide (last_journaled_rejection b1 = Some r) then (b1, J, None)
          else
            let '(J', acked) := append_control J (rejected_event b1 r (ti_now i)) (ti_append i) in
            if acked then (set_journaled_rejection b1 r, J', None) else (b1, J', None)
    end.

(** ** Runs: load, journal the load, then poll *)

(** States an audited process passes through once it is reachable: the load
    record was acknowledged, and every later state is a poll away. *)
Inductive reachable (p : string) (v : option VerifyingKey) : SignedBundle D -> list Entry -> Prop :=
| reach_start disk b J at_ :
    load_with p v disk = Ok b ->
    journal_in_force b [] at_ Acked = (J, true) ->
    reachable p v b J
| reach_tick i b J b' J' hook :
    reachable p v b J ->
    tick true i b J = (b', J', hook) ->
    reachable p v b' J'.

(** The document in force is the compilation of the bytes in force, and, when
    a key is configured, some signature by that key over those bytes in this
    document's domain was verified. *)
Definition authentic (v : option VerifyingKey) b : Prop :=
  verifier b = v /\
  compile (loaded_bytes b) = Ok (document (current b)) /\
  length (loaded_bytes b) <= MAX_DOCUMENT_BYTES /\
  match v with
  | None => signature (current b) = None
  | Some k =>
      signature (current b) = Some {| verified := true; status_key_id := Some (key_id k) |} /\
      exists sig, ed25519_verify (key_bytes k) (framed DOMAIN (loaded_bytes b)) sig = true
                  /\ length sig = SIGNATURE_LEN
  end.

(** The acknowledged load and change records, as the version each one put in
    force together with the version it replaced. *)
Definition in_force_steps (J : list Entry) : list (option string * option string) :=
  omap (fun e =>
          if entry_acked e && (bool_decide (ce_kind (entry_event e) = KIND_loaded)
                               || bool_decide (ce_kind (entry_event e) = KIND_changed))
          then Some (ce_previous_version (entry_event e), ce_version (entry_event e))
          else None) J.

(** A chain of such steps that begins with a load (no previous version) and
    ends at version [v]: each change names exactly the version before it. *)
Inductive version_chain : list (option string * option string) -> string -> Prop :=
| chain_load v : version_chain [(None, Some v)] v
| chain_change l v v' : version_chain l v -> version_chain (l ++ [(Some v, Some v')]) v'.

(** *** Lemmas *)

Lemma read_bytes_Ok p disk bytes :
  read_bytes p disk = Ok bytes -> doc_file disk = Ok bytes /\ length bytes <= MAX_DOCUMENT_BYTES.
Proof.
  unfold read_bytes. destruct (doc_file disk) as [bs|]; [|done].
  destruct (MAX_DOCUMENT_BYTES <? length bs)%nat eqn:E; [done|].
  intros [= ->]. apply Nat.ltb_ge in E. done.
Qed.

Lemma verify_bytes_Ok p bytes v disk sig :
  verify_bytes p bytes v disk = Ok sig ->
  match v with
  | None => sig = None
  | Some k =>
      sig = Some {| verified := true; status_key_id := Some (key_id k) |} /\
      exists s, ed25519_verify (key_bytes k) (framed DOMAIN bytes) s = true /\ length s = SIGNATURE_LEN
  end.
Proof.
  unfold verify_bytes. destruct v as [k|]; [|by intros [= <-]].
  destruct (read_detached p (sidecar disk)) as [s|] eqn:Es; simpl; [|done].
  destruct (verify k DOMAIN bytes s) as [[]|] eqn:Ev; simpl; [|done].
  intros [= <-]. split; [done|]. exists (signature_bytes s).
  apply verify_Ok in Ev. split; [done|]. by eapply read_detached_len.
Qed.

Lemma load_with_authentic p v disk b : load_with p v disk = Ok b -> authentic v b.
Proof.
  unfold load_with, read_document. intros E.
  destruct (read_bytes p disk) as [bytes|] eqn:Er; [|done].
  destruct (verify_bytes p bytes v disk) as [sig|] eqn:Ev; [|done].
  destruct (compile bytes) as [d|] eqn:Ec; [|done]. simpl in E. injection E as <-.
  apply read_bytes_Ok in Er as [_ ?]. apply verify_bytes_Ok in Ev.
  unfold authentic; simpl. by destruct v.
Qed.

Lemma stage_inner_Some b disk s digest :
  stage_inner b disk = (Ok (Some s), digest) ->
  staged_bytes s <> loaded_bytes b /\ doc_file disk = Ok (staged_bytes s) /\
  authentic (verifier b) (commit b s).1.
Proof.
  unfold stage_inner. intros E.
  destruct (read_bytes (path b) disk) as [bytes|] eqn:Er; [|done].
  destruct (verify_bytes (path b) bytes (verifier b) disk) as [sig|] eqn:Ev; [|done].
  destruct (bool_decide (loaded_bytes b = bytes)) eqn:Eb; [done|].
  destruct (compile bytes) as [d|] eqn:Ec; [|done]. simpl in E. injection E as <- <-.
  apply read_bytes_Ok in Er as [? ?]. apply verify_bytes_Ok in Ev. bool_to_prop.
  split; [simpl; congruence|]. split; [done|].
  unfold authentic; simpl. by destruct (verifier b).
Qed.

Lemma stage_inner_None b disk digest :
  stage_inner b disk = (Ok None, digest) -> doc_file disk = Ok (loaded_bytes b).
Proof.
  unfold stage_inner. intros E.
  destruct (read_bytes (path b) disk) as [bytes|] eqn:Er; [|done].
  destruct (verify_bytes (path b) bytes (verifier b) disk) as [sig|] eqn:Ev; [|done].
  destruct (bool_decide (loaded_bytes b = bytes)) eqn:Eb.
  - bool_to_prop. apply read_bytes_Ok in Er as [? _]. congruence.
  - destruct (compile bytes); discriminate.
Qed.

(** Every poll either leaves the document in force untouched, or commits a
    staged document that differs from it. *)
Variant tick_case (audited : bool) (i : TickInput) b (J : list Entry)
    : SignedBundle D -> list Entry -> option (Loaded D * Loaded D) -> Prop :=
| tick_not_joined : ti_joined i = false -> tick_case audited i b J b J None
| tick_unchanged digest :
    stage_inner b (ti_disk i) = (Ok None, digest) ->
    tick_case audited i b J (set_reload_error b None) J None
| tick_committed s digest J' b1 :
    stage_inner b (ti_disk i) = (Ok (Some s), digest) ->
    b1 = set_reload_error b None ->
    (if audited then append_control J (changed_event b1 s (ti_now i)) (ti_append i) = (J', true)
     else J' = J) ->
    tick_case audited i b J (commit b1 s).1 J' (Some (current b, staged_loaded s))
| tick_unproven s digest J' b1 :
    stage_inner b (ti_disk i) = (Ok (Some s), digest) ->
    audited = true -> b1 = set_reload_error b None ->
    append_control J (changed_event b1 s (ti_now i)) (ti_append i) = (J', false) ->
    tick_case audited i b J (note_failure b1 change_unjournaled) J' None
| tick_rejected e digest b1 b' J' :
    stage_inner b (ti_disk i) = (Err e, digest) ->
    b1 = set_reload_error b (Some e) ->
    (b' = b1 /\ J' = J /\
       (audited = false \/
        last_journaled_rejection b = Some {| rej_digest := digest; rej_reason := e |})
     \/ b' = b1 /\ audited = true /\
        last_journaled_rejection b <> Some {| rej_digest := digest; rej_reason := e |} /\
        append_control J (rejected_event b1 {| rej_digest := digest; rej_reason := e |} (ti_now i))
          (ti_append i) = (J', false)
     \/ b' = set_journaled_rejection b1 {| rej_digest := digest; rej_reason := e |} /\
        audited = true /\
        last_journaled_rejection b <> Some {| rej_digest := digest; rej_reason := e |} /\
        append_control J (rejected_event b1 {| rej_digest := digest; rej_reason := e |} (ti_now i))
          (ti_append i) = (J', true)) ->
    tick_case audited i b J b' J' None.

Lemma tick_inv audited i b J b' J' hook :
  tick audited i b J = (b', J', hook) -> tick_case audited i b J b' J' hook.
Proof.
  unfold tick. destruct (ti_joined i) eqn:Ej; simpl; [|intros [= <- <- <-]; by constructor].
  destruct (stage_inner b (ti_disk i)) as [[[s|]|e] digest] eqn:Es; simpl.
  - destruct audited.
    + destruct (append_control _ _ _) as [J1 acked] eqn:Ea. destruct acked.
      * intros [= <- <- <-].
        by apply (tick_committed true i b J s digest _ (set_reload_error b None)).
      * intros [= <- <- <-].
        by apply (tick_unproven true i b J s digest _ (set_reload_error b None)).
    + intros [= <- <- <-].
      by apply (tick_committed false i b J s digest _ (set_reload_error b None)).
  - intros [= <- <- <-]. by apply (tick_unchanged audited i b J digest).
  - destruct audited; simpl.
    + case_bool_decide as Hr.
      * intros [= <- <- <-]. apply (tick_rejected true i b J e digest (set_reload_error b (Some e))); auto.
      * destruct (append_control _ _ _) as [J1 acked] eqn:Ea. destruct acked.
        -- intros [= <- <- <-].
           apply (tick_rejected true i b J e digest (set_reload_error b (Some e))); auto 6.
        -- intros [= <- <- <-].
           apply (tick_rejected true i b J e digest (set_reload_error b (Some e))); auto 6.
    + intros [= <- <- <-].
      apply (tick_rejected false i b J e digest (set_reload_error b (Some e))); auto.
Qed.

Lemma authentic_frame v b b' :
  verifier b' = verifier b -> current b' = current b -> loaded_bytes b' = loaded_bytes b ->
  authentic v b -> authentic v b'.
Proof. unfold authentic. intros -> -> ->. done. Qed.

Lemma tick_authentic audited i b J b' J' hook v :
  tick audited i b J = (b', J', hook) -> authentic v b -> authentic v b'.
Proof.
  intros Ht Ha. apply tick_inv in Ht. pose proof Ha as (Hv & _).
  destruct Ht as [| |s ? ? ? Hs ->| |? ? ? ? ? Hs -> [(-> & _)|[(-> & _)|(-> & _)]]]; subst; try done.
  - apply stage_inner_Some in Hs as (_ & _ & Hs). exact Hs.
Qed.

(** The record of a change, once acknowledged, extends the chain. *)
Lemma in_force_steps_app J1 J2 : in_force_steps (J1 ++ J2) = in_force_steps J1 ++ in_force_steps J2.
Proof. apply omap_app. Qed.

Lemma append_unacked_steps J e o J' :
  append_control J e o = (J', false) -> in_force_steps J' = in_force_steps J.
Proof.
  destruct o as [|[]]; simpl; [done| |]; intros [= <-]; [|done].
  by rewrite in_force_steps_app, app_nil_r.
Qed.

Lemma append_rejected_steps J b r at_ o J' acked :
  append_control J (rejected_event b r at_) o = (J', acked) ->
  in_force_steps J' = in_force_steps J.
Proof.
  destruct kinds_distinct as (H1 & _ & H3).
  destruct o as [|[]]; simpl; intros [= <- _]; try done;
    rewrite in_force_steps_app; simpl; [|by rewrite app_nil_r].
  rewrite bool_decide_eq_false_2, bool_decide_eq_false_2 by congruence. by rewrite app_nil_r.
Qed.

Lemma append_changed_steps J b s at_ o J' :
  append_control J (changed_event b s at_) o = (J', true) ->
  in_force_steps J' =
  in_force_steps J ++ [(Some (bundle_version b), Some (version (document (staged_loaded s))))].
Proof.
  destruct o as [|[]]; simpl; try done. intros [= <-]. rewrite in_force_steps_app.
  unfold in_force_steps at 2. simpl. unfold changed_event.
  destruct (describe_about (document (staged_loaded s))
    (with_origin (event_now at_ KIND_changed) (path b) (Some (bundle_version b))
       (Some (version (document (staged_loaded s)))) (signature (staged_loaded s)))) as (-> & -> & ->).
  simpl. rewrite (bool_decide_eq_true_2 (KIND_changed = KIND_changed)), orb_true_r by done. done.
Qed.

Lemma tick_chain i b J b' J' hook :
  tick true i b J = (b', J', hook) ->
  version_chain (in_force_steps J) (bundle_version b) ->
  version_chain (in_force_steps J') (bundle_version b').
Proof.
  intros Ht Hc. apply tick_inv in Ht.
  destruct Ht as [| |s ? J1 b1 Hs -> Ha|s ? J1 b1 Hs _ -> Ha
                 |? ? ? ? ? Hs -> [(-> & -> & _)|[(-> & _ & _ & Ha)|(-> & _ & _ & Ha)]]]; try done.
  - apply append_changed_steps in Ha. rewrite Ha. by constructor.
  - apply append_unacked_steps in Ha. by rewrite Ha.
  - apply append_rejected_steps in Ha. by rewrite Ha.
  - apply append_rejected_steps in Ha. by rewrite Ha.
Qed.

Lemma load_chain b at_ J :
  journal_in_force b [] at_ Acked = (J, true) ->
  version_chain (in_force_steps J) (bundle_version b).
Proof.
  unfold journal_in_force. simpl. intros [= <-]. unfold in_force_steps. simpl. unfold loaded_event.
  destruct (describe_about (document (current b))
    (with_origin (event_now at_ KIND_loaded) (path b) None (Some (bundle_version b))
       (signature (current b)))) as (-> & -> & ->). simpl.
  rewrite bool_decide_eq_true_2 by done. constructor.
Qed.

Lemma reachable_authentic p v b J : reachable p v b J -> authentic v b.
Proof.
  induction 1; [by eapply load_with_authentic | by eapply tick_authentic].
Qed.

Lemma reachable_chain p v b J :
  reachable p v b J -> version_chain (in_force_steps J) (bundle_version b).
Proof. induction 1; [by eapply load_chain | by eapply tick_chain]. Qed.

(** A poll that does not commit keeps the document, its bytes and the key. *)
Lemma tick_no_hook audited i b J b' J' :
  tick audited i b J = (b', J', None) ->
  current b' = current b /\ loaded_bytes b' = loaded_bytes b /\ verifier b' = verifier b.
Proof.
  intros Ht. apply tick_inv in Ht. inversion Ht; subst; try done.
  match goal with H : _ \/ _ |- _ => destruct H as [(-> & _)|[(-> & _)|(-> & _)]] end; done.
Qed.

(** A bundle for which polling this disk has nothing left to do: the bytes are
    in force, or their refusal is already in the journal. *)
Definition settled b (disk : Disk) : Prop :=
  match stage_inner b disk with
  | (Ok None, _) => True
  | (Ok (Some _), _) => False
  | (Err e, digest) =>
      last_journaled_rejection b = Some {| rej_digest := digest; rej_reason := e |}
  end.

Lemma stage_inner_frame b b' disk :
  path b' = path b -> verifier b' = verifier b -> loaded_bytes b' = loaded_bytes b ->
  stage_inner b' disk = stage_inner b disk.
Proof. unfold stage_inner. by intros -> -> ->. Qed.

Lemma settled_frame b b' disk :
  path b' = path b -> verifier b' = verifier b -> loaded_bytes b' = loaded_bytes b ->
  last_journaled_rejection b' = last_journaled_rejection b ->
  settled b disk -> settled b' disk.
Proof. unfold settled. intros ? ? ? ->. by rewrite (stage_inner_frame b b'). Qed.

Lemma stage_committed b disk s digest b1 :
  stage_inner b disk = (Ok (Some s), digest) -> path b1 = path b -> verifier b1 = verifier b ->
  loaded_bytes b1 = staged_bytes s -> stage_inner b1 disk = (Ok None, digest).
Proof.
  unfold stage_inner. intros E -> -> ->.
  destruct (read_bytes (path b) disk) as [bytes|] eqn:Er; [|done].
  destruct (verify_bytes (path b) bytes (verifier b) disk) as [sig|] eqn:Ev; [|done].
  destruct (bool_decide (loaded_bytes b = bytes)) eqn:Eb; [done|].
  destruct (compile bytes) as [d|] eqn:Ec; [|done]. simpl in E. injection E as <- <-.
  simpl. by rewrite bool_decide_eq_true_2.
Qed.

Lemma tick_settles i b J b' J' hook :
  tick true i b J = (b', J', hook) -> ti_joined i = true -> ti_append i = Acked ->
  settled b' (ti_disk i).
Proof.
  intros Ht Hj Hack. apply tick_inv in Ht. unfold settled.
  destruct Ht as [Hj'|digest Hs|s digest J1 b1 Hs -> Ha|s digest J1 b1 Hs _ -> Ha
                 |e digest b1 b2 J1 Hs -> Hc].
  - congruence.
  - by rewrite (stage_inner_frame b), Hs.
  - by erewrite stage_committed by done.
  - rewrite Hack in Ha. simpl in Ha. congruence.
  - destruct Hc as [(-> & _ & [|Hr])|[(-> & _ & _ & Ha)|(-> & _)]].
    + done.
    + by rewrite (stage_inner_frame b), Hs.
    + rewrite Hack in Ha. simpl in Ha. congruence.
    + by rewrite (stage_inner_frame b), Hs.
Qed.

Lemma tick_settled i b J b' J' hook :
  tick true i b J = (b', J', hook) -> settled b (ti_disk i) ->
  J' = J /\ hook = None /\ settled b' (ti_disk i).
Proof.
  intros Ht Hset. apply tick_inv in Ht. pose proof Hset as Hset0. unfold settled in Hset.
  destruct Ht as [Hj'|digest Hs|s digest J1 b1 Hs -> Ha|s digest J1 b1 Hs _ -> Ha
                 |e digest b1 b2 J1 Hs -> Hc]; rewrite ?Hs in Hset; simpl in Hset; try done.
  destruct Hc as [(-> & -> & _)|[(_ & _ & Hn & _)|(_ & _ & Hn & _)]]; [|done|done].
  split; [done|]. split; [done|]. by apply (settled_frame b).
Qed.

(** Polls in sequence. *)
Fixpoint ticks (ins : list TickInput) b (J : list Entry) : SignedBundle D * list Entry :=
  match ins with
  | [] => (b, J)
  | i :: ins' => let '(b', J', _) := tick true i b J in ticks ins' b' J'
  end.

Lemma ticks_settled ins b J disk :
  Forall (fun i => ti_disk i = disk) ins -> settled b disk ->
  (ticks ins b J).2 = J /\ current (ticks ins b J).1 = current b.
Proof.
  revert b J; induction ins as [|i ins IH]; intros b J Hall Hset; simpl; [done|].
  apply Forall_cons in Hall as [<- Hall].
  destruct (tick true i b J) as [[b' J'] hook] eqn:E.
  pose proof (tick_settled _ _ _ _ _ _ E Hset) as (-> & -> & Hset').
  destruct (IH b' J Hall Hset') as [? ->].
  destruct (tick_no_hook _ _ _ _ _ _ E) as (-> & _). done.
Qed.

(** C4: Authenticity of the document in force.  In every state the
    watcher takes an audited process through, the document in force is the compilation of the
    bytes in force, those bytes are within the size bound, and when a verifying
    key is configured they carried a 64-byte signature by exactly that key,
    framed by this document kind's own domain label.  No sequence of file
    contents, journal failures or polls puts an unverified document in force. *)
Theorem bundle_in_force_authentic p v b J : reachable p v b J -> authentic v b.
Proof. apply reachable_authentic. Qed.

(** C12: Write before act.  In every state the watcher takes an audited process through,
    the acknowledged load and change records form an unbroken chain that starts
    with a load and ends at the version in force: every version that was ever
    put in force was acknowledged as durable first, naming exactly the version
    it replaced, and no acknowledged change record is without effect. *)
Theorem bundle_changes_journaled_first p v b J :
  reachable p v b J -> version_chain (in_force_steps J) (bundle_version b).
Proof. apply reachable_chain. Qed.

(** The last good document stays in force.  A poll that commits nothing
    keeps the document, its bytes and the key; it reports a reason in
    [degraded] exactly when it ran and either refused the file or could not
    journal the change, and an empty [degraded] after a poll that ran means
    the bytes on disk are the bytes in force. *)
Theorem bundle_last_good_stays i b J b' J' hook :
  tick true i b J = (b', J', hook) -> ti_joined i = true ->
  (hook = None -> current b' = current b /\ loaded_bytes b' = loaded_bytes b) /\
  (degraded b' = None <-> doc_file (ti_disk i) = Ok (loaded_bytes b')
                          /\ exists digest, stage_inner b' (ti_disk i) = (Ok None, digest)).
Proof.
  intros Ht Hj. split.
  { intros ->. by apply tick_no_hook in Ht as (? & ? & _). }
  apply tick_inv in Ht.
  destruct Ht as [Hj'|digest Hs|s digest J1 b1 Hs -> Ha|s digest J1 b1 Hs _ -> Ha
                 |e digest b1 b2 J1 Hs -> Hc].
  - congruence.
  - split; [intros _ | done]. split; [by eapply stage_inner_None|].
    exists digest. by rewrite (stage_inner_frame b).
  - split; [intros _ | done]. pose proof (stage_inner_Some _ _ _ _ Hs) as (_ & ? & _).
    split; [done|]. exists digest. by eapply stage_committed.
  - split; [done|]. intros [_ [d Hd]]. by rewrite (stage_inner_frame b), Hs in Hd.
  - assert (Hb : degraded b2 = Some e /\ stage_inner b2 (ti_disk i) = stage_inner b (ti_disk i)).
    { destruct Hc as [(-> & _)|[(-> & _)|(-> & _)]]; split; try done; by apply stage_inner_frame. }
    destruct Hb as [Hb1 Hb2]. split; [by rewrite Hb1|]. intros [_ [d Hd]].
    by rewrite Hb2, Hs in Hd.
Qed.

(** A file is journaled once, not once per poll.  After one poll whose
    append was acknowledged, any number of further polls that find the same
    files append nothing and change nothing in force, whether the document was
    accepted or refused. *)
Theorem bundle_journaled_once i b J b' J' hook ins :
  tick true i b J = (b', J', hook) -> ti_joined i = true -> ti_append i = Acked ->
  Forall (fun i' => ti_disk i' = ti_disk i) ins ->
  (ticks ins b' J').2 = J' /\ current (ticks ins b' J').1 = current b'.
Proof. intros Ht Hj Ha Hall. by eapply ticks_settled; [|eapply tick_settles]. Qed.
End Operations.

(** ** Witnesses: a document kind of raw bytes and toy primitives *)

Module Witness.

Definition toy_crypto : Crypto :=
  {| sha256 := fun l => l;
     base64_decode := fun s => Some (as_bytes s);
     ed25519_verify := fun k m s => bool_decide (take 1 s = take 1 k) |}.

Definition toy_document : BundleDocument (list byte).
Proof.
  refine {| DOMAIN := PolicyBundle; NOUN := "policy"; KIND_loaded := PolicyLoaded;
            KIND_changed := PolicyChanged; KIND_rejected := PolicyRejected;
            compile := fun l => if (length l =? 0)%nat then Err "empty" else Ok l;
            version := of_bytes; describe := fun _ e => e |}; done.
Defined.

Definition key : VerifyingKey := {| key_bytes := as_bytes "k" |}.
Definition sig64 : string :=
  "kkkkkkkkkkkkkkkkkkkkkkkkkkkkkkkkkkkkkkkkkkkkkkkkkkkkkkkkkkkkkkkk".
Definition disk (doc : string) : Disk :=
  {| doc_file := Ok (as_bytes doc);
     sidecar := {| sidecar_len := Ok 64%N; sidecar_text := Ok sig64 |} |}.
Definition poll (doc : string) (o : AppendOutcome) : TickInput :=
  {| ti_disk := disk doc; ti_now := "t"; ti_append := o; ti_joined := true |}.

#[local] Existing Instance toy_crypto.
#[local] Existing Instance toy_document.

Definition state0 : SignedBundle (list byte) :=
  {| path := "p"; verifier := Some key;
     current := {| document := as_bytes "one";
                   signature := Some {| verified := true; status_key_id := Some (key_id key) |} |};
     loaded_bytes := as_bytes "one"; last_reload_error := None; last_journaled_rejection := None |}.

Definition journal0 : list Entry := (journal_in_force state0 [] "t" Acked).1.
Definition after (doc : string) (o : AppendOutcome) := tick true (poll doc o) state0 journal0.
End Witness.

Section Witnesses.
Import Witness.
#[local] Existing Instance toy_crypto.
#[local] Existing Instance toy_document.

Lemma reachable_state0 : reachable "p" (Some key) state0 journal0.
Proof. apply (reach_start "p" (Some key) (disk "one") state0 journal0 "t"); reflexivity. Defined.

Lemma reachable_after_two : reachable "p" (Some key) (after "two" Acked).1.1 (after "two" Acked).1.2.
Proof.
  apply (reach_tick "p" (Some key) (poll "two" Acked) state0 journal0 _ _ (after "two" Acked).2);
    [apply reachable_state0 | reflexivity].
Defined.

Lemma bundle_in_force_authentic_witness :
  loaded_bytes (after "two" Acked).1.1 = as_bytes "two" /\ authentic (Some key) (after "two" Acked).1.1.
Proof.
  split; [reflexivity|].
  apply (bundle_in_force_authentic "p" (Some key) _ (after "two" Acked).1.2), reachable_after_two.
Defined.

Lemma bundle_changes_journaled_first_witness :
  in_force_steps (after "two" Acked).1.2 = [(None, Some "one"); (Some "one", Some "two")]
  /\ version_chain (in_force_steps (after "two" Acked).1.2) "two".
Proof.
  split; [reflexivity|].
  exact (bundle_changes_journaled_first "p" (Some key) _ _ reachable_after_two).
Defined.

Lemma bundle_last_good_stays_witness :
  current (after "" Acked).1.1 = current state0 /\ degraded (after "" Acked).1.1 <> None.
Proof.
  split.
  - apply (bundle_last_good_stays (poll "" Acked) state0 journal0 _ (after "" Acked).1.2 None);
      reflexivity.
  - discriminate.
Defined.

Lemma bundle_journaled_once_witness :
  length (after "" Acked).1.2 = 2 /\
  (ticks [poll "" Acked; poll "" Acked] (after "" Acked).1.1 (after "" Acked).1.2).2
  = (after "" Acked).1.2.
Proof.
  split; [reflexivity|].
  apply (bundle_journaled_once (poll "" Acked) state0 journal0 _ _ (after "" Acked).2);
    try reflexivity. repeat constructor.
Defined.
End Witnesses.
