(* ===== verification/PolicyEngine.v ===== *)
(** * The file-backed policy (src/src/policy/engine.rs)

    The document schema an operator writes, its compilation to typed matchers,
    and the decision: default deny, unclassified is denied before any rule is
    consulted, a matching deny wins, the first matching allow is attributed.
    YAML decoding (serde_norway) is a parameter; error texts are values of
    [PolicyError] and the rendering of them is a parameter. *)
From S2P Require Import Prelude RustStr Glob PolicyTypes Signing Bundle.

(** ** The document *)

Inductive OneOrMany (A : Type) := One (a : A) | Many (l : list A).
Arguments One {A} a.
Arguments Many {A} l.

Definition into_vec {A} (v : OneOrMany A) : list A :=
  match v with One a => [a] | Many l => l end.

Record SubjectsDocument := {
  sd_everyone : option bool;
  sd_groups : option (OneOrMany string);
  sd_subjects : option (OneOrMany string);
  sd_scopes : option (OneOrMany string);
}.

Record ConstraintDocument := {
  cd_type : ResourceType;
  cd_ids : OneOrMany string;
}.

Record MatchDocument := {
  md_vendor : option (OneOrMany string);
  md_environment : option (OneOrMany string);
  md_tool_name : option (OneOrMany string);
  md_action : option (OneOrMany NormalizedAction);
  md_risk : option (OneOrMany RequestRisk);
  md_type : option (OneOrMany ResourceType);
  md_resource_id : option (OneOrMany string);
  md_resource_scope : option string;
  md_constrained_by : option ConstraintDocument;
  md_authority : option (OneOrMany UpstreamAuthority);
  md_method : option (OneOrMany string);
  md_path : option (OneOrMany string);
  md_origin : option (OneOrMany string);
}.

(** [MatchDocument::default()]: every key absent. *)
Definition match_default : MatchDocument :=
  {| md_vendor := None; md_environment := None; md_tool_name := None; md_action := None;
     md_risk := None; md_type := None; md_resource_id := None; md_resource_scope := None;
     md_constrained_by := None; md_authority := None; md_method := None; md_path := None;
     md_origin := None |}.

Record RuleDocument := {
  rd_id : string;
  rd_effect : PolicyEffect;
  rd_description : option string;
  rd_subjects : SubjectsDocument;
  rd_matcher : MatchDocument;
}.

Record PolicyDocument := {
  pd_version : N;
  pd_default : option string;
  pd_rules : list RuleDocument;
}.

Inductive PolicyError :=
| DocumentTooLarge
| DoesNotParse (why : string)
| PermissiveDefault (got : string)
| EmptyRuleId
| DuplicateRuleId (id : string)
| UnknownEnvironment (rule value : string)
| UnknownMethod (rule method : string)
| MatchesUnknownType (rule : string)
| BadResourceScope (rule got : string)
| ConstraintUnknownType (rule : string)
| ConstraintIdsEmpty (rule : string)
| ResourceIdsEmpty (rule : string)
| SubjectsUnnamed (rule : string)
| EveryoneAndNamed (rule : string)
| SubjectListEmpty (rule label : string).

(** ** The compiled form *)

Definition globs (values : option (OneOrMany string)) : option (list Glob.t) :=
  (fun v => map Glob.new (into_vec v)) <$> values.

Definition any_glob (gs : list Glob.t) (value : string) : bool :=
  existsb (fun g => Glob.matches g value) gs.

Record SubjectMatcher := {
  sm_everyone : bool;
  sm_groups : option (list Glob.t);
  sm_subjects : option (list Glob.t);
  sm_scopes : option (list Glob.t);
}.

Definition subject_matches (m : SubjectMatcher) (p : Principal) : bool :=
  if sm_everyone m then true
  else
    is_none_or (sm_groups m) (fun gs => existsb (any_glob gs) (groups p))
    && is_none_or (sm_subjects m) (fun gs => any_glob gs (subject p))
    && is_none_or (sm_scopes m) (fun gs => existsb (any_glob gs) (scopes p)).

Inductive ScopeKind := KindCollection | KindUnscoped.

Record CompiledRule := {
  cr_id : string;
  cr_effect : PolicyEffect;
  cr_subjects : SubjectMatcher;
  cr_vendor : option (list string);
  cr_environment : option (list EnvironmentClass);
  cr_tool_name : option (list Glob.t);
  cr_action : option (list NormalizedAction);
  cr_risk : option (list RequestRisk);
  cr_type : option (list ResourceType);
  cr_resource_id : option (list Glob.t);
  cr_resource_scope : option ScopeKind;
  cr_constrained_by : option (ResourceType * list Glob.t);
  cr_authority : option (list UpstreamAuthority);
  cr_method : option (list HttpMethod);
  cr_path : option (list Glob.t);
  cr_origin : option (list string);
}.

(** [contains]: [None] matches anything; a list matches its members. *)
Definition contains {A} `{EqDecision A} (l : option (list A)) (value : A) : bool :=
  is_none_or l (fun l => bool_decide (value ∈ l)).

(** The keys a rule can fail, in the order [mismatch] looks at them. *)
Definition checks (r : CompiledRule) (c : ActionContext) : list (string * bool) :=
  [("destination_origin",
      is_none_or (cr_origin r) (fun origins =>
        is_some_and (ac_destination_origin c) (fun origin => bool_decide (origin ∈ origins))));
   ("subjects", subject_matches (cr_subjects r) (ac_principal c));
   ("vendor", contains (cr_vendor r) (ac_vendor c));
   ("environment", contains (cr_environment r) (ac_environment c));
   ("tool_name", is_none_or (cr_tool_name r) (fun gs => any_glob gs (ac_tool_name c)));
   ("normalized_action", contains (cr_action r) (ac_action c));
   ("request_risk", contains (cr_risk r) (ac_risk c));
   ("resource_type", contains (cr_type r) (ac_type c));
   ("upstream_authority", contains (cr_authority r) (up_authority (ac_upstream c)));
   ("method", contains (cr_method r) (ac_method c));
   ("canonical_path", is_none_or (cr_path r) (fun gs => any_glob gs (ac_path c)));
   ("resource_id", is_none_or (cr_resource_id r) (fun gs => all_ids_allowed (ac_scope c) (any_glob gs)));
   ("resource_scope", is_none_or (cr_resource_scope r) (fun kind =>
      match kind with
      | KindCollection => is_collection (ac_scope c)
      | KindUnscoped => is_unscoped (ac_scope c)
      end));
   ("constrained_by", is_none_or (cr_constrained_by r) (fun '(ty, gs) =>
      is_some_and (ac_constraint c) (fun k =>
        bool_decide (rc_type k = ty) && all_ids_allowed (rc_scope k) (any_glob gs))))].

(** [CompiledRule::mismatch]: the first key the call fails. *)
Definition mismatch (r : CompiledRule) (c : ActionContext) : option string :=
  fst <$> List.find (fun '(_, holds) => negb holds) (checks r c).

Definition rule_matches (r : CompiledRule) (c : ActionContext) : bool :=
  match mismatch r c with None => true | Some _ => false end.

Record CompiledPolicy := { cp_version : string; cp_rules : list CompiledRule }.

(** ** Compilation *)

Definition parse_method (value : string) : result HttpMethod string :=
  let v := to_ascii_uppercase value in
  if String.eqb v "GET" then Ok Get
  else if String.eqb v "POST" then Ok Post
  else if String.eqb v "PUT" then Ok Put
  else if String.eqb v "PATCH" then Ok Patch
  else if String.eqb v "DELETE" then Ok Delete
  else Err v.

Definition parse_environments (rule : string) (values : option (OneOrMany string))
    : result (option (list EnvironmentClass)) PolicyError :=
  transpose ((fun v => collect_results (fun value =>
      match environment_parse value with
      | Some e => Ok e
      | None => Err (UnknownEnvironment rule value)
      end) (into_vec v)) <$> values).

Definition parse_methods (rule : string) (values : option (OneOrMany string))
    : result (option (list HttpMethod)) PolicyError :=
  transpose ((fun v => collect_results (fun value =>
      map_err (UnknownMethod rule) (parse_method value)) (into_vec v)) <$> values).

Definition is_empty_list {A} (l : list A) : bool := match l with [] => true | _ => false end.

(** The loop over `[("groups", …), ("subjects", …), ("scopes", …)]`. *)
Fixpoint first_empty (rule : string) (lists : list (string * option (list Glob.t)))
    : result unit PolicyError :=
  match lists with
  | [] => Ok tt
  | (label, l) :: rest =>
      if is_some_and l is_empty_list then Err (SubjectListEmpty rule label)
      else first_empty rule rest
  end.

Definition compile_subjects (rule : string) (s : SubjectsDocument)
    : result SubjectMatcher PolicyError :=
  let everyone := default false (sd_everyone s) in
  let compiled :=
    {| sm_everyone := everyone; sm_groups := globs (sd_groups s);
       sm_subjects := globs (sd_subjects s); sm_scopes := globs (sd_scopes s) |} in
  let named := bool_decide (is_Some (sm_groups compiled))
               || bool_decide (is_Some (sm_subjects compiled))
               || bool_decide (is_Some (sm_scopes compiled)) in
  if negb everyone && negb named then Err (SubjectsUnnamed rule)
  else if everyone && named then Err (EveryoneAndNamed rule)
  else
    let? _ := first_empty rule
      [("groups", sm_groups compiled); ("subjects", sm_subjects compiled);
       ("scopes", sm_scopes compiled)] in
    Ok compiled.

Definition compile_scope (rule : string) (v : option string)
    : result (option ScopeKind) PolicyError :=
  transpose ((fun value =>
    if String.eqb value "collection" then Ok KindCollection
    else if String.eqb value "unscoped" then Ok KindUnscoped
    else Err (BadResourceScope rule value)) <$> v).

Definition compile_constraint (rule : string) (v : option ConstraintDocument)
    : result (option (ResourceType * list Glob.t)) PolicyError :=
  match v with
  | None => Ok None
  | Some k =>
      if bool_decide (cd_type k = Unknown) then Err (ConstraintUnknownType rule)
      else
        let ids := map Glob.new (into_vec (cd_ids k)) in
        if is_empty_list ids then Err (ConstraintIdsEmpty rule)
        else Ok (Some (cd_type k, ids))
  end.

Definition compile_rule (r : RuleDocument) : result CompiledRule PolicyError :=
  let id := rd_id r in
  let? subjects := compile_subjects id (rd_subjects r) in
  let m := rd_matcher r in
  let? environment := parse_environments id (md_environment m) in
  let types := into_vec <$> md_type m in
  if is_some_and types (fun l => bool_decide (Unknown ∈ l)) then Err (MatchesUnknownType id)
  else
    let? scope := compile_scope id (md_resource_scope m) in
    let? constrained := compile_constraint id (md_constrained_by m) in
    let? method := parse_methods id (md_method m) in
    let ids := globs (md_resource_id m) in
    if is_some_and ids is_empty_list then Err (ResourceIdsEmpty id)
    else
      Ok {| cr_id := id; cr_effect := rd_effect r; cr_subjects := subjects;
            cr_vendor := (fun v => map to_ascii_lowercase (into_vec v)) <$> md_vendor m;
            cr_environment := environment;
            cr_tool_name := globs (md_tool_name m);
            cr_action := into_vec <$> md_action m;
            cr_risk := into_vec <$> md_risk m;
            cr_type := types;
            cr_resource_id := ids;
            cr_resource_scope := scope;
            cr_constrained_by := constrained;
            cr_authority := into_vec <$> md_authority m;
            cr_method := method;
            cr_path := globs (md_path m);
            cr_origin := into_vec <$> md_origin m |}.

(** The first loop over the rules: ids are non-blank and distinct. *)
Fixpoint check_ids (seen : list string) (rules : list RuleDocument) : result unit PolicyError :=
  match rules with
  | [] => Ok tt
  | r :: rest =>
      if is_blank (rd_id r) then Err EmptyRuleId
      else if bool_decide (rd_id r ∈ seen) then Err (DuplicateRuleId (rd_id r))
      else check_ids (seen ++ [rd_id r]) rest
  end.

Section Compile.
Context `{Crypto}.
(** serde_norway's decoding of the YAML bytes into the schema above. *)
Variable from_yaml : list byte -> result PolicyDocument string.

Definition compile_policy (bytes : list byte) : result CompiledPolicy PolicyError :=
  if (MAX_DOCUMENT_BYTES <? length bytes)%nat then Err DocumentTooLarge
  else
    let? doc := map_err DoesNotParse (from_yaml bytes) in
    match pd_default doc with
    | Some d =>
        if negb (eq_ignore_ascii_case d "deny") then Err (PermissiveDefault d)
        else
          let? _ := check_ids [] (pd_rules doc) in
          let? rules := collect_results compile_rule (pd_rules doc) in
          Ok {| cp_version := version_label (pd_version doc) bytes; cp_rules := rules |}
    | None =>
        let? _ := check_ids [] (pd_rules doc) in
        let? rules := collect_results compile_rule (pd_rules doc) in
        Ok {| cp_version := version_label (pd_version doc) bytes; cp_rules := rules |}
    end.

(** The policy as a bundle document; [render] is the error text. *)
Definition policy_bundle (render : PolicyError -> string) : BundleDocument CompiledPolicy.
Proof using from_yaml H.
  refine {| DOMAIN := PolicyBundle; NOUN := "policy";
            KIND_loaded := PolicyLoaded; KIND_changed := PolicyChanged;
            KIND_rejected := PolicyRejected;
            compile := fun bytes => map_err render (compile_policy bytes);
            version := cp_version;
            describe := fun _ e => e |}; done.
Defined.
End Compile.

(** ** The decision *)

Definition unclassified_reason : string :=
  "the call's resource could not be classified; unclassified calls are always denied".
Definition no_rule_reason : string := "no rule allows this call; default deny".

(** The loop of [evaluate]: [allowed_by] is the first matching allow so far. *)
Fixpoint evaluate_rules (v : string) (c : ActionContext) (rules : list CompiledRule)
    (allowed_by : option CompiledRule) : PolicyDecision :=
  match rules with
  | [] =>
      match allowed_by with
      | Some r => by_rule Allow (cr_id r) v
      | None => default_deny_under v no_rule_reason
      end
  | r :: rest =>
      if negb (rule_matches r c) then evaluate_rules v c rest allowed_by
      else
        match cr_effect r with
        | Deny => by_rule Deny (cr_id r) v
        | Allow =>
            evaluate_rules v c rest
              (match allowed_by with None => Some r | Some _ => allowed_by end)
        end
  end.

Definition evaluate (p : CompiledPolicy) (c : ActionContext) : PolicyDecision :=
  if bool_decide (ac_type c = Unknown)
  then default_deny_under (cp_version p) unclassified_reason
  else evaluate_rules (cp_version p) c (cp_rules p) None.

(** ** [policy explain] and the access review *)

Record RuleTrace := {
  rt_id : string;
  rt_effect : PolicyEffect;
  rt_mismatch : option string;
  rt_decisive : bool;
}.

Record Explanation := {
  ex_decision : PolicyDecision;
  ex_unclassified : bool;
  ex_rules : list RuleTrace;
}.

Definition trace_rule (c : ActionContext) (r : CompiledRule) : RuleTrace :=
  {| rt_id := cr_id r; rt_effect := cr_effect r; rt_mismatch := mismatch r c; rt_decisive := false |}.

(** [iter_mut().find(|t| t.id == id)] then [decisive = true]. *)
Fixpoint mark_decisive (id : string) (l : list RuleTrace) : list RuleTrace :=
  match l with
  | [] => []
  | t :: l' =>
      if String.eqb (rt_id t) id
      then {| rt_id := rt_id t; rt_effect := rt_effect t; rt_mismatch := rt_mismatch t;
              rt_decisive := true |} :: l'
      else t :: mark_decisive id l'
  end.

Definition explain (p : CompiledPolicy) (c : ActionContext) : Explanation :=
  let unclassified := bool_decide (ac_type c = Unknown) in
  let rules := map (trace_rule c) (cp_rules p) in
  let decision := evaluate p c in
  let rules :=
    if unclassified then rules
    else match rule_id decision with
         | Some id => mark_decisive id rules
         | None => rules
         end in
  {| ex_decision := decision; ex_unclassified := unclassified; ex_rules := rules |}.

(** [rules_for]: the rules whose subjects clause matches. *)
Definition rules_for (p : CompiledPolicy) (who : Principal) : list CompiledRule :=
  List.filter (fun r => subject_matches (cr_subjects r) who) (cp_rules p).

(** ** The contract, declaratively *)

(** A rule applies when every key it names holds of the call. *)
Definition applies (r : CompiledRule) (c : ActionContext) : Prop :=
  Forall (fun '(_, holds) => holds = true) (checks r c).

(** What a decision must be, by the documented semantics. *)
Inductive Decides (p : CompiledPolicy) (c : ActionContext) : PolicyDecision -> Prop :=
| D_unclassified :
    ac_type c = Unknown ->
    Decides p c (default_deny_under (cp_version p) unclassified_reason)
| D_denied before r after :
    ac_type c <> Unknown ->
    cp_rules p = before ++ r :: after ->
    cr_effect r = Deny -> applies r c ->
    Forall (fun r' => cr_effect r' = Deny -> ~ applies r' c) before ->
    Decides p c (by_rule Deny (cr_id r) (cp_version p))
| D_allowed before r after :
    ac_type c <> Unknown ->
    cp_rules p = before ++ r :: after ->
    cr_effect r = Allow -> applies r c ->
    Forall (fun r' => cr_effect r' = Allow -> ~ applies r' c) before ->
    Forall (fun r' => cr_effect r' = Deny -> ~ applies r' c) (cp_rules p) ->
    Decides p c (by_rule Allow (cr_id r) (cp_version p))
| D_default :
    ac_type c <> Unknown ->
    Forall (fun r => ~ applies r c) (cp_rules p) ->
    Decides p c (default_deny_under (cp_version p) no_rule_reason).

(** What compilation guarantees of a rule. *)
Definition subjects_wf (m : SubjectMatcher) : Prop :=
  (sm_everyone m = true <-> sm_groups m = None /\ sm_subjects m = None /\ sm_scopes m = None) /\
  sm_groups m <> Some [] /\ sm_subjects m <> Some [] /\ sm_scopes m <> Some [].

Definition rule_wf (r : CompiledRule) : Prop :=
  subjects_wf (cr_subjects r) /\
  (forall l, cr_type r = Some l -> Unknown ∉ l) /\
  cr_resource_id r <> Some [] /\
  (forall ty gs, cr_constrained_by r = Some (ty, gs) -> ty <> Unknown /\ gs <> []) /\
  (forall l, cr_environment r = Some l -> Unclassified ∉ l).

Definition policy_wf (p : CompiledPolicy) : Prop :=
  NoDup (map cr_id (cp_rules p)) /\
  Forall (fun r => is_blank (cr_id r) = false) (cp_rules p) /\
  Forall rule_wf (cp_rules p).

(** Contexts that differ only in telemetry: the client's self-report, the
    retained query attributes, the account label, the resource class and the
    tenant. *)
Definition same_authority (c1 c2 : ActionContext) : Prop :=
  groups (ac_principal c1) = groups (ac_principal c2) /\
  subject (ac_principal c1) = subject (ac_principal c2) /\
  scopes (ac_principal c1) = scopes (ac_principal c2) /\
  ac_vendor c1 = ac_vendor c2 /\ ac_environment c1 = ac_environment c2 /\
  ac_tool_name c1 = ac_tool_name c2 /\ ac_action c1 = ac_action c2 /\
  ac_method c1 = ac_method c2 /\ ac_path c1 = ac_path c2 /\
  ac_destination_origin c1 = ac_destination_origin c2 /\
  ac_type c1 = ac_type c2 /\ ac_scope c1 = ac_scope c2 /\
  ac_constraint c1 = ac_constraint c2 /\
  up_authority (ac_upstream c1) = up_authority (ac_upstream c2) /\
  ac_risk c1 = ac_risk c2.

(** ** Lemmas *)

Lemma find_none_forall {A} (f : A -> bool) l :
  List.find f l = None <-> Forall (fun x => f x = false) l.
Proof.
  induction l as [|x l IH]; simpl; [split; [constructor | done]|].
  destruct (f x) eqn:E.
  - split; [done|]. intros H. apply Forall_cons in H as [? _]. congruence.
  - rewrite IH, Forall_cons. tauto.
Qed.

Lemma rule_matches_applies r c : rule_matches r c = true <-> applies r c.
Proof.
  unfold rule_matches, mismatch, applies. split.
  - intros H. destruct (List.find _ _) eqn:E; [done|]. apply find_none_forall in E.
    eapply Forall_impl; [exact E|]. intros [k b]; simpl. by destruct b.
  - intros H. assert (List.find (fun '(_, holds) => negb holds) (checks r c) = None) as ->; [|done].
    apply find_none_forall. eapply Forall_impl; [exact H|]. intros [k b]; simpl. by intros ->.
Qed.

Lemma rule_matches_not r c : rule_matches r c = false <-> ~ applies r c.
Proof. rewrite <- rule_matches_applies. destruct (rule_matches r c); split; congruence. Qed.

(** [mismatch] names a key of the rule that really fails, and the keys before
    it in the walk hold. *)
Lemma mismatch_first r c k :
  mismatch r c = Some k ->
  exists before after, checks r c = before ++ (k, false) :: after
    /\ Forall (fun '(_, holds) => holds = true) before.
Proof.
  unfold mismatch. induction (checks r c) as [|[k' b] l IH]; simpl; [done|].
  destruct b; simpl.
  - intros H. destruct (IH H) as (bf & af & -> & Hbf). exists ((k', true) :: bf), af.
    split; [done|]. by constructor.
  - intros [= ->]. exists [], l. split; [done | constructor].
Qed.

(** The loop, as searches: the first matching deny, else the remembered or
    first matching allow. *)
Definition is_deny_for (c : ActionContext) (r : CompiledRule) : bool :=
  bool_decide (cr_effect r = Deny) && rule_matches r c.
Definition is_allow_for (c : ActionContext) (r : CompiledRule) : bool :=
  bool_decide (cr_effect r = Allow) && rule_matches r c.

Lemma evaluate_rules_find v c rules acc :
  evaluate_rules v c rules acc =
  match List.find (is_deny_for c) rules with
  | Some r => by_rule Deny (cr_id r) v
  | None =>
      match acc with
      | Some r => by_rule Allow (cr_id r) v
      | None =>
          match List.find (is_allow_for c) rules with
          | Some r => by_rule Allow (cr_id r) v
          | None => default_deny_under v no_rule_reason
          end
      end
  end.
Proof.
  revert acc; induction rules as [|r rules IH]; intros acc; simpl; [by destruct acc|].
  unfold is_deny_for at 1, is_allow_for at 1.
  destruct (rule_matches r c) eqn:Em; simpl; rewrite ?andb_false_r, ?andb_true_r; [|apply IH].
  destruct (cr_effect r) eqn:Ee; simpl; [|done].
  rewrite IH. destruct acc; done.
Qed.

Lemma find_split {A} (f : A -> bool) l x :
  List.find f l = Some x ->
  exists before after, l = before ++ x :: after /\ f x = true
    /\ Forall (fun y => f y = false) before.
Proof.
  induction l as [|y l IH]; simpl; [done|]. destruct (f y) eqn:E.
  - intros [= ->]. exists [], l. auto.
  - intros H. destruct (IH H) as (bf & af & -> & ? & ?). exists (y :: bf), af. auto.
Qed.

Lemma deny_for_false c r : is_deny_for c r = false <-> (cr_effect r = Deny -> ~ applies r c).
Proof.
  unfold is_deny_for. rewrite andb_false_iff, bool_decide_eq_false, rule_matches_not.
  destruct (cr_effect r); intuition congruence.
Qed.

Lemma allow_for_false c r : is_allow_for c r = false <-> (cr_effect r = Allow -> ~ applies r c).
Proof.
  unfold is_allow_for. rewrite andb_false_iff, bool_decide_eq_false, rule_matches_not.
  destruct (cr_effect r); intuition congruence.
Qed.

Lemma deny_for_true c r : is_deny_for c r = true <-> cr_effect r = Deny /\ applies r c.
Proof. unfold is_deny_for. by rewrite andb_true_iff, bool_decide_eq_true, rule_matches_applies. Qed.

Lemma allow_for_true c r : is_allow_for c r = true <-> cr_effect r = Allow /\ applies r c.
Proof. unfold is_allow_for. by rewrite andb_true_iff, bool_decide_eq_true, rule_matches_applies. Qed.

Lemma evaluate_decides p c : Decides p c (evaluate p c).
Proof.
  unfold evaluate. case_bool_decide as Hu; [by constructor|].
  rewrite evaluate_rules_find. destruct (List.find (is_deny_for c) _) as [r|] eqn:Ed.
  - apply find_split in Ed as (bf & af & Hp & Hr & Hbf). apply deny_for_true in Hr as [? ?].
    econstructor; eauto. eapply Forall_impl; [exact Hbf|]. intros ?. apply deny_for_false.
  - apply find_none_forall in Ed.
    assert (Hd : Forall (fun r => cr_effect r = Deny -> ~ applies r c) (cp_rules p)).
    { eapply Forall_impl; [exact Ed|]. intros ?. apply deny_for_false. }
    destruct (List.find (is_allow_for c) _) as [r|] eqn:Ea.
    + apply find_split in Ea as (bf & af & Hp & Hr & Hbf). apply allow_for_true in Hr as [? ?].
      eapply D_allowed; eauto. eapply Forall_impl; [exact Hbf|]. intros ?. apply allow_for_false.
    + apply find_none_forall in Ea. constructor; [done|].
      rewrite Forall_forall in *. intros r Hr Happ. destruct (cr_effect r) eqn:Ee.
      * by eapply (proj1 (allow_for_false c r)); [apply Ea|..].
      * by apply (Hd r).
Qed.

Lemma find_first {A} (f : A -> bool) before x after :
  f x = true -> Forall (fun y => f y = false) before ->
  List.find f (before ++ x :: after) = Some x.
Proof.
  intros Hx. induction 1 as [|y l Hy _ IH]; simpl; [by rewrite Hx|]. by rewrite Hy.
Qed.

(** The contract is single-valued: it determines the decision. *)
Lemma Decides_evaluate p c d : Decides p c d -> d = evaluate p c.
Proof.
  unfold evaluate.
  destruct 1 as [Hu|bf r af Hu Hp He Ha Hbf|bf r af Hu Hp He Ha Hbf Hd|Hu Hn].
  - by rewrite bool_decide_eq_true_2.
  - rewrite bool_decide_eq_false_2, evaluate_rules_find, Hp, find_first; [done| | |done].
    + by apply deny_for_true.
    + eapply Forall_impl; [exact Hbf|]. intros ?. apply deny_for_false.
  - rewrite bool_decide_eq_false_2, evaluate_rules_find by done.
    assert (List.find (is_deny_for c) (cp_rules p) = None) as ->.
    { apply find_none_forall. eapply Forall_impl; [exact Hd|]. intros ?. apply deny_for_false. }
    rewrite Hp, find_first; [done| |].
    + by apply allow_for_true.
    + eapply Forall_impl; [exact Hbf|]. intros ?. apply allow_for_false.
  - rewrite bool_decide_eq_false_2, evaluate_rules_find by done.
    assert (Hf : forall f, (forall r, f r = true -> applies r c) ->
      List.find f (cp_rules p) = None).
    { intros f Hf. apply find_none_forall. eapply Forall_impl; [exact Hn|]. intros r Hr.
      apply not_true_iff_false. eauto. }
    rewrite !Hf; [done | intros r; rewrite allow_for_true | intros r; rewrite deny_for_true]; tauto.
Qed.

(** *** Allowed calls *)

Lemma evaluate_allow_iff p c :
  is_allow (evaluate p c) = true <->
  ac_type c <> Unknown /\
  (exists r, r ∈ cp_rules p /\ cr_effect r = Allow /\ applies r c) /\
  (forall r, r ∈ cp_rules p -> cr_effect r = Deny -> ~ applies r c).
Proof.
  split.
  - intros Hall. pose proof (evaluate_decides p c) as Hd.
    remember (evaluate p c) as d eqn:Ed. destruct Hd as [| |bf r af Hu Hp He Ha Hbf Hd|]; try done.
    split; [done|]. split; [|by rewrite Forall_forall in Hd]. exists r. rewrite Hp. set_solver.
  - intros (Hu & (r & Hr & He & Ha) & Hd). unfold evaluate.
    rewrite bool_decide_eq_false_2, evaluate_rules_find by done.
    assert (List.find (is_deny_for c) (cp_rules p) = None) as ->.
    { apply find_none_forall, Forall_forall. intros r' Hr'. apply deny_for_false; auto. }
    destruct (List.find (is_allow_for c) (cp_rules p)) eqn:E; [done|].
    apply find_none_forall in E. rewrite Forall_forall in E.
    pose proof (proj2 (allow_for_true c r) (conj He Ha)). specialize (E r Hr). congruence.
Qed.

Lemma applies_check r c k holds : applies r c -> (k, holds) ∈ checks r c -> holds = true.
Proof. unfold applies. rewrite Forall_forall. intros H Hin. exact (H _ Hin). Qed.

(** *** Compilation *)

Lemma check_ids_Ok seen rules :
  check_ids seen rules = Ok tt -> NoDup seen ->
  NoDup (seen ++ map rd_id rules) /\ Forall (fun r => is_blank (rd_id r) = false) rules.
Proof.
  revert seen; induction rules as [|r rules IH]; intros seen; simpl.
  - rewrite app_nil_r. auto.
  - destruct (is_blank (rd_id r)) eqn:Eb; [done|]. case_bool_decide as Hs; [done|].
    intros Hc Hn. destruct (IH _ Hc) as [Hn' Hf].
    + apply NoDup_app. split; [done|]. split; [set_solver | apply NoDup_singleton].
    + rewrite <- app_assoc in Hn'. simpl in Hn'. auto.
Qed.

Lemma globs_nil v : is_some_and (globs v) is_empty_list = false -> globs v <> Some [].
Proof. intros H E. by rewrite E in H. Qed.

Lemma first_empty_Ok rule lists :
  first_empty rule lists = Ok tt -> Forall (fun '(_, l) => is_some_and l is_empty_list = false) lists.
Proof.
  induction lists as [|[label l] lists IH]; simpl; [constructor|].
  destruct (is_some_and l is_empty_list) eqn:E; [done|]. intros H. constructor; auto.
Qed.

Lemma compile_subjects_wf rule s m : compile_subjects rule s = Ok m -> subjects_wf m.
Proof.
  unfold compile_subjects. intros H. case_in H; [done|]. case_in H; [done|]. case_in H; [|done].
  injection H as <-. destruct a. apply first_empty_Ok in Heqr.
  rewrite !Forall_cons in Heqr. destruct Heqr as (H1 & H2 & H3 & _).
  split; [|repeat split; by apply globs_nil]. simpl in *.
  destruct (default false (sd_everyone s)), (globs (sd_groups s)), (globs (sd_subjects s)),
    (globs (sd_scopes s)); simpl in *; try done; repeat split; intuition congruence.
Qed.

Lemma transpose_Some_Ok {A E} (o : option (result A E)) l :
  transpose o = Ok (Some l) -> o = Some (Ok l).
Proof. destruct o as [[]|]; simpl; congruence. Qed.

Lemma environment_parse_classified value e : environment_parse value = Some e -> e <> Unclassified.
Proof. unfold environment_parse. repeat case_match; intros [= <-]; done. Qed.

Lemma parse_environments_classified rule v l :
  parse_environments rule v = Ok (Some l) -> Unclassified ∉ l.
Proof.
  unfold parse_environments. intros H%transpose_Some_Ok. destruct v as [v|]; [|done].
  simpl in H. injection H as H. apply collect_results_Ok in H.
  intros Hin. apply list_elem_of_lookup in Hin as [i Hi].
  destruct (Forall2_lookup_r _ _ _ _ _ H Hi) as (value & _ & Hv).
  destruct (environment_parse value) eqn:E; [|done]. injection Hv as ->.
  by apply environment_parse_classified in E.
Qed.

Lemma compile_constraint_wf rule v ty gs :
  compile_constraint rule v = Ok (Some (ty, gs)) -> ty <> Unknown /\ gs <> [].
Proof.
  unfold compile_constraint. destruct v as [k|]; [|done]. case_bool_decide as Hu; [done|].
  destruct (is_empty_list (map Glob.new (into_vec (cd_ids k)))) eqn:E; [done|].
  intros [= <- <-]. split; [done|]. intros E'. by rewrite E' in E.
Qed.

Lemma compile_rule_wf r c :
  compile_rule r = Ok c -> rule_wf c /\ cr_id c = rd_id r /\ cr_effect c = rd_effect r.
Proof.
  unfold compile_rule. intros H.
  destruct (compile_subjects (rd_id r) (rd_subjects r)) as [subj|] eqn:Es; [|done].
  destruct (parse_environments (rd_id r) _) as [env|] eqn:Ee; [|done].
  destruct (is_some_and (into_vec <$> md_type (rd_matcher r)) _) eqn:Et; [done|].
  destruct (compile_scope _ _) as [sc|]; [|done].
  destruct (compile_constraint _ _) as [k|] eqn:Ek; [|done].
  destruct (parse_methods _ _) as [ms|]; [|done].
  destruct (is_some_and (globs _) is_empty_list) eqn:Ei; [done|].
  injection H as <-. split; [|done]. split; [by eapply compile_subjects_wf|]. simpl.
  split; [|split; [by apply globs_nil | split]].
  - intros l Hl. rewrite Hl in Et. simpl in Et. by apply bool_decide_eq_false in Et.
  - intros ty gs ->. by eapply compile_constraint_wf.
  - intros l ->. by eapply parse_environments_classified.
Qed.

Lemma compile_policy_parts `{Crypto} from_yaml bytes p :
  compile_policy from_yaml bytes = Ok p ->
  exists doc, from_yaml bytes = Ok doc /\ length bytes <= MAX_DOCUMENT_BYTES /\
    (forall d, pd_default doc = Some d -> eq_ignore_ascii_case d "deny" = true) /\
    check_ids [] (pd_rules doc) = Ok tt /\
    Forall2 (fun r c => compile_rule r = Ok c) (pd_rules doc) (cp_rules p) /\
    cp_version p = version_label (pd_version doc) bytes.
Proof.
  unfold compile_policy. intros E.
  destruct (MAX_DOCUMENT_BYTES <? length bytes)%nat eqn:El; [done|]. apply Nat.ltb_ge in El.
  destruct (from_yaml bytes) as [doc|]; [|done]. simpl in E. exists doc.
  assert (Hrest : (let? _ := check_ids [] (pd_rules doc) in
          let? rules := collect_results compile_rule (pd_rules doc) in
          Ok {| cp_version := version_label (pd_version doc) bytes; cp_rules := rules |}) = Ok p ->
        check_ids [] (pd_rules doc) = Ok tt /\
        Forall2 (fun r c => compile_rule r = Ok c) (pd_rules doc) (cp_rules p) /\
        cp_version p = version_label (pd_version doc) bytes).
  { destruct (check_ids [] (pd_rules doc)) as [[]|]; [|done].
    destruct (collect_results _ _) as [rs|] eqn:Ec; [|done]. intros [= <-].
    apply collect_results_Ok in Ec. done. }
  destruct (pd_default doc) as [d|].
  - destruct (eq_ignore_ascii_case d "deny") eqn:Ed; [|done]. simpl in E.
    destruct (Hrest E) as (? & ? & ?). repeat split; try done. by intros ? [= <-].
  - destruct (Hrest E) as (? & ? & ?). repeat split; done.
Qed.

Lemma compile_policy_wf `{Crypto} from_yaml bytes p :
  compile_policy from_yaml bytes = Ok p -> policy_wf p.
Proof.
  intros (doc & _ & _ & _ & Hids & Hall & _)%compile_policy_parts.
  apply check_ids_Ok in Hids as [Hn Hb]; [|constructor]. simpl in Hn.
  assert (Hmap : map cr_id (cp_rules p) = map rd_id (pd_rules doc)).
  { clear Hn Hb. induction Hall as [|r c rs cs Hc _ IH]; simpl; [done|].
    apply compile_rule_wf in Hc as (_ & -> & _). by rewrite IH. }
  split; [by rewrite Hmap|]. split.
  - clear Hn Hmap. induction Hall as [|r c rs cs Hc _ IH]; [constructor|].
    apply Forall_cons in Hb as [? ?]. constructor; [|auto].
    apply compile_rule_wf in Hc as (_ & -> & _). done.
  - clear Hn Hb Hmap. induction Hall as [|r c rs cs Hc _ IH]; constructor; [|auto].
    by apply compile_rule_wf in Hc as (? & _).
Qed.

(** *** Explanations *)

Lemma mark_decisive_spec id l :
  map rt_id (mark_decisive id l) = map rt_id l /\
  map rt_mismatch (mark_decisive id l) = map rt_mismatch l /\
  map rt_effect (mark_decisive id l) = map rt_effect l.
Proof.
  induction l as [|t l (IH1 & IH2 & IH3)]; simpl; [done|].
  destruct (String.eqb (rt_id t) id); simpl; [done|]. by rewrite IH1, IH2, IH3.
Qed.

Lemma mark_decisive_elem id l t :
  NoDup (map rt_id l) -> Forall (fun t => rt_decisive t = false) l -> t ∈ mark_decisive id l ->
  rt_decisive t = bool_decide (rt_id t = id).
Proof.
  induction l as [|u l IH]; simpl; intros Hn Hf; [set_solver|].
  apply NoDup_cons in Hn as [Hni Hn]. apply Forall_cons in Hf as [Hu Hf].
  destruct (String.eqb_spec (rt_id u) id) as [<-|Hne]; rewrite elem_of_cons; intros [->|Ht]; simpl.
  - by rewrite bool_decide_eq_true_2.
  - rewrite Forall_forall in Hf. rewrite (Hf t Ht), bool_decide_eq_false_2; [done|].
    intros E. apply Hni. rewrite <- E. apply list_elem_of_In, in_map, list_elem_of_In, Ht.
  - by rewrite Hu, bool_decide_eq_false_2.
  - by apply IH.
Qed.

Lemma explain_traces p c : map rt_id (ex_rules (explain p c)) = map cr_id (cp_rules p)
  /\ map rt_mismatch (ex_rules (explain p c)) = map (fun r => mismatch r c) (cp_rules p).
Proof.
  assert (H1 : map rt_id (map (trace_rule c) (cp_rules p)) = map cr_id (cp_rules p)).
  { rewrite map_map. done. }
  assert (H2 : map rt_mismatch (map (trace_rule c) (cp_rules p))
               = map (fun r => mismatch r c) (cp_rules p)).
  { rewrite map_map. done. }
  unfold explain; simpl. case_bool_decide; [done|]. case_match; [|done].
  match goal with |- context [mark_decisive ?id ?l] => destruct (mark_decisive_spec id l) as (-> & -> & _) end.
  done.
Qed.

(** A decision names a rule only when that rule is in the document. *)
Lemma evaluate_rule_id p c id :
  rule_id (evaluate p c) = Some id ->
  ac_type c <> Unknown /\
  exists r, r ∈ cp_rules p /\ cr_id r = id /\ applies r c /\ cr_effect r = effect (evaluate p c).
Proof.
  pose proof (evaluate_decides p c) as Hd. remember (evaluate p c) as d eqn:Ed.
  destruct Hd as [|bf r af Hu Hp|bf r af Hu Hp|]; try done; simpl; intros [= <-];
    (split; [done|]); exists r; rewrite Hp; split; try done; set_solver.
Qed.

Lemma checks_same_authority r c1 c2 : same_authority c1 c2 -> checks r c1 = checks r c2.
Proof.
  unfold same_authority, checks, subject_matches.
  intros (H1 & H2 & H3 & H4 & H5 & H6 & H7 & H8 & H9 & H10 & H11 & H12 & H13 & H14 & H15).
  by rewrite H1, H2, H3, H4, H5, H6, H7, H8, H9, H10, H11, H12, H13, H14, H15.
Qed.

(** ** Properties *)

(** C3: The decision is the documented contract.  [evaluate] returns exactly
    the decision the declarative rules allow: an unclassified resource is
    denied before any rule; otherwise the first applicable deny in document
    order decides; failing that the first applicable allow; failing that the
    default deny.  The contract relates each policy and call to one decision
    and [evaluate] always produces it. *)
Theorem evaluate_refines_contract p c d : Decides p c d <-> evaluate p c = d.
Proof.
  split; [intros H; symmetry; by apply Decides_evaluate | intros <-; apply evaluate_decides].
Qed.

(** Deny overrides and default deny, independently of order.  A call is
    allowed iff its resource is classified, some allow rule applies and no deny
    rule applies; so reordering the document never changes the effect, and
    adding a deny rule anywhere never turns a denial into an allow. *)
Theorem evaluate_deny_overrides v c rules before r after :
  (is_allow (evaluate {| cp_version := v; cp_rules := rules |} c) = true <->
   ac_type c <> Unknown /\
   (exists r, r ∈ rules /\ cr_effect r = Allow /\ applies r c) /\
   (forall r, r ∈ rules -> cr_effect r = Deny -> ~ applies r c)) /\
  (forall rules', rules ≡ₚ rules' ->
     effect (evaluate {| cp_version := v; cp_rules := rules' |} c)
     = effect (evaluate {| cp_version := v; cp_rules := rules |} c)) /\
  (cr_effect r = Deny ->
   is_allow (evaluate {| cp_version := v; cp_rules := before ++ r :: after |} c) = true ->
   is_allow (evaluate {| cp_version := v; cp_rules := before ++ after |} c) = true).
Proof.
  split; [apply evaluate_allow_iff|]. split.
  - intros rules' Hp. pose proof (evaluate_allow_iff {| cp_version := v; cp_rules := rules |} c) as H1.
    pose proof (evaluate_allow_iff {| cp_version := v; cp_rules := rules' |} c) as H2.
    assert (Hel : forall r, r ∈ rules' <-> r ∈ rules) by (intros; by rewrite Hp).
    simpl in H1, H2. setoid_rewrite Hel in H2. rewrite <- H1 in H2. unfold is_allow in H2.
    destruct (effect (evaluate {| cp_version := v; cp_rules := rules' |} c)),
      (effect (evaluate {| cp_version := v; cp_rules := rules |} c)); intuition congruence.
  - intros He. rewrite !evaluate_allow_iff. simpl. intros (Hu & (r' & Hr' & He' & Ha') & Hd).
    split; [done|]. split.
    + exists r'. split; [|done]. rewrite elem_of_app, elem_of_cons in Hr'.
      rewrite elem_of_app. destruct Hr' as [?|[->|?]]; [by left | congruence | by right].
    + intros r'' Hr''. apply Hd. set_solver.
Qed.

(** An allow through an id-scoped rule covers every id.  If a call is
    allowed by a rule naming [resource_id] patterns, the call is scoped to a
    non-empty list of ids and each of them matches, in the glob's reference
    meaning, one of the patterns; likewise every constraining id for a rule
    naming [constrained_by].  Unscoped and collection calls are never allowed
    through an id-scoped rule, and nothing is allowed vacuously. *)
Theorem allow_covers_every_id r c gs :
  scope_wf (ac_scope c) -> (forall k, ac_constraint c = Some k -> constraint_wf k) ->
  applies r c ->
  (cr_resource_id r = Some gs ->
   exists ids, ac_scope c = Ids ids /\ ids <> [] /\
     forall id, id ∈ ids ->
       exists g, g ∈ gs /\ Matches (as_bytes (Glob.pattern g)) (as_bytes id)) /\
  (forall ty, cr_constrained_by r = Some (ty, gs) ->
   exists k ids, ac_constraint c = Some k /\ rc_type k = ty /\ rc_scope k = Ids ids /\ ids <> [] /\
     forall id, id ∈ ids ->
       exists g, g ∈ gs /\ Matches (as_bytes (Glob.pattern g)) (as_bytes id)).
Proof.
  intros Hwf Hk Happ.
  assert (Hall : forall s, scope_wf s -> all_ids_allowed s (any_glob gs) = true ->
    exists ids, s = Ids ids /\ ids <> [] /\ forall id, id ∈ ids ->
      exists g, g ∈ gs /\ Matches (as_bytes (Glob.pattern g)) (as_bytes id)).
  { intros [| |ids] Hs; simpl; try done. intros H. exists ids. destruct Hs as [? _].
    split; [done|]. split; [done|]. intros id Hid. rewrite forallb_elem_of in H.
    specialize (H id Hid). apply existsb_elem_of in H as (g & Hg & Hm).
    rewrite matches_gmatch, gmatch_Matches in Hm. eauto. }
  split.
  - intros Hgs. apply Hall; [done|].
    apply (applies_check r c "resource_id"); [done|]. unfold checks. rewrite Hgs. simpl. set_solver.
  - intros ty Hgs.
    assert (Hc : is_some_and (ac_constraint c) (fun k =>
        bool_decide (rc_type k = ty) && all_ids_allowed (rc_scope k) (any_glob gs)) = true).
    { apply (applies_check r c "constrained_by"); [done|]. unfold checks. rewrite Hgs. simpl. set_solver. }
    destruct (ac_constraint c) as [k|] eqn:Ek; [|done]. simpl in Hc. bool_to_prop.
    destruct (Hk k eq_refl) as [Hs _]. destruct (Hall _ Hs H0) as (ids & ? & ? & ?).
    exists k, ids. done.
Qed.

(** C17: A document that compiles is well formed.  Rule ids are distinct and
    non-blank, every rule names its subjects (exactly one of `everyone` or
    non-empty lists), no rule can name the unknown resource type or an
    unclassified environment, id and constraint lists are non-empty, the only
    accepted `default` is deny, and the version label is the document's number
    and the digest of exactly these bytes. *)
Theorem compiled_policy_well_formed `{Crypto} from_yaml bytes p :
  compile_policy from_yaml bytes = Ok p ->
  policy_wf p /\ length bytes <= MAX_DOCUMENT_BYTES /\
  exists doc, from_yaml bytes = Ok doc /\
    (forall d, pd_default doc = Some d -> eq_ignore_ascii_case d "deny" = true) /\
    length (cp_rules p) = length (pd_rules doc) /\
    cp_version p = version_label (pd_version doc) bytes.
Proof.
  intros H1. split; [by eapply compile_policy_wf|].
  apply compile_policy_parts in H1 as (doc & ? & ? & ? & _ & Hall & ?).
  split; [done|]. exists doc. repeat split; try done. symmetry. by eapply Forall2_length.
Qed.

(** `policy explain` tells the truth.  Its decision is the one [evaluate]
    makes, it lists every rule in document order with the first key that
    rule fails (none iff the rule applies), and for a well-formed policy a rule
    is marked decisive iff it is the rule the decision names, in which case it
    applies and has the decision's effect. *)
Theorem explain_agrees_with_evaluate p c :
  policy_wf p ->
  ex_decision (explain p c) = evaluate p c /\
  map rt_id (ex_rules (explain p c)) = map cr_id (cp_rules p) /\
  map rt_mismatch (ex_rules (explain p c)) = map (fun r => mismatch r c) (cp_rules p) /\
  (forall r, mismatch r c = None <-> applies r c) /\
  (forall t, t ∈ ex_rules (explain p c) ->
     rt_decisive t = true <-> rule_id (evaluate p c) = Some (rt_id t)) /\
  (forall id, rule_id (evaluate p c) = Some id ->
     exists r, r ∈ cp_rules p /\ cr_id r = id /\ applies r c
               /\ cr_effect r = effect (evaluate p c)).
Proof.
  intros (Hn & _ & _). split; [done|]. split; [apply explain_traces|]. split; [apply explain_traces|].
  split.
  { intros r. rewrite <- rule_matches_applies. unfold rule_matches. by destruct (mismatch r c). }
  split; [|intros id Hid; by apply evaluate_rule_id in Hid as [_ ?]].
  set (traces := map (trace_rule c) (cp_rules p)).
  assert (Hn' : NoDup (map rt_id traces)) by (unfold traces; rewrite map_map; done).
  assert (Hf : Forall (fun t => rt_decisive t = false) traces).
  { apply Forall_forall. intros t Ht. apply list_elem_of_In, in_map_iff in Ht as (? & <- & _). done. }
  intros t. unfold explain; simpl. fold traces. case_bool_decide as Hu.
  - rewrite Forall_forall in Hf. intros Ht. rewrite (Hf t Ht). unfold evaluate.
    rewrite bool_decide_eq_true_2 by done. done.
  - destruct (rule_id (evaluate p c)) as [id|] eqn:Eid; intros Ht.
    + rewrite (mark_decisive_elem id traces t) by done. rewrite bool_decide_eq_true.
      split; congruence.
    + rewrite Forall_forall in Hf. rewrite (Hf t Ht). done.
Qed.

(** Telemetry is never an authorization input.  Two calls that agree on
    the principal's subject, groups and scopes and on the classified action get
    the same decision from every policy, whatever their client identities,
    retained query attributes, account labels, resource classes, tenants or
    credential labels are. *)
Theorem telemetry_is_not_authorization p c1 c2 :
  same_authority c1 c2 -> evaluate p c1 = evaluate p c2.
Proof.
  intros Hs. assert (Hm : forall r, rule_matches r c1 = rule_matches r c2).
  { intros r. unfold rule_matches, mismatch. by rewrite (checks_same_authority r c1 c2). }
  unfold evaluate. pose proof Hs as (_ & _ & _ & _ & _ & _ & _ & _ & _ & _ & -> & _).
  case_bool_decide; [done|]. generalize (@None CompiledRule).
  induction (cp_rules p) as [|r rules IH]; intros acc; simpl; [done|].
  rewrite Hm. destruct (negb _); [apply IH|]. destruct (cr_effect r); [apply IH | done].
Qed.

(** ** Witnesses *)

Module Example.
Definition any_subject : SubjectsDocument :=
  {| sd_everyone := Some true; sd_groups := None; sd_subjects := None; sd_scopes := None |}.
Definition rule (id : string) (eff : PolicyEffect) (m : MatchDocument) : RuleDocument :=
  {| rd_id := id; rd_effect := eff; rd_description := None; rd_subjects := any_subject;
     rd_matcher := m |}.
Definition by_id (pattern : string) : MatchDocument :=
  {| md_vendor := Some (One "Grafana"); md_environment := Some (Many ["qa"; "dev"]);
     md_tool_name := None; md_action := None; md_risk := Some (One Read);
     md_type := Some (One Datasource); md_resource_id := Some (Many [pattern]);
     md_resource_scope := None; md_constrained_by := None; md_authority := None;
     md_method := Some (One "get"); md_path := None; md_origin := None |}.
Definition doc : PolicyDocument :=
  {| pd_version := 3; pd_default := Some "Deny";
     pd_rules := [rule "read-prom" Allow (by_id "prom-*"); rule "no-secret" Deny (by_id "*secret*")] |}.
Definition yaml (_ : list byte) : result PolicyDocument string := Ok doc.

Definition upstream : UpstreamIdentity :=
  {| up_label := "grafana/GRAFANA_TOKEN"; up_vendor := "grafana"; up_environment := Qa;
     up_authority := Shared; up_provenance := None |}.
Definition call (ids : list string) (client : option string) : ActionContext :=
  assemble principal_local {| client_name := client; client_version := None |} None
    "grafana_query_logs"
    (details_read QueryLogs "/api/x" [] Datasource (scope_ids ids)) None upstream.

Definition policy : CompiledPolicy :=
  match compile_policy (H := Bundle.Witness.toy_crypto) yaml (as_bytes "bytes") with
  | Ok p => p
  | Err _ => {| cp_version := ""; cp_rules := [] |}
  end.
Definition read_prom : CompiledRule :=
  match cp_rules policy with r :: _ => r | [] => {|
    cr_id := ""; cr_effect := Deny;
    cr_subjects := {| sm_everyone := false; sm_groups := None; sm_subjects := None; sm_scopes := None |};
    cr_vendor := None; cr_environment := None; cr_tool_name := None; cr_action := None;
    cr_risk := None; cr_type := None; cr_resource_id := None; cr_resource_scope := None;
    cr_constrained_by := None; cr_authority := None; cr_method := None; cr_path := None;
    cr_origin := None |} end.
End Example.

Lemma compiled_policy_well_formed_witness : policy_wf Example.policy.
Proof.
  refine (proj1 (compiled_policy_well_formed (H := Bundle.Witness.toy_crypto)
    Example.yaml (as_bytes "bytes") Example.policy _)).
  vm_compute. reflexivity.
Defined.

Lemma explain_agrees_with_evaluate_witness :
  rule_id (evaluate Example.policy (Example.call ["prom-a"] None)) = Some "read-prom" /\
  ex_decision (explain Example.policy (Example.call ["prom-secret"] None))
  = by_rule Deny "no-secret" (cp_version Example.policy).
Proof.
  split; [vm_compute; reflexivity|].
  rewrite (proj1 (explain_agrees_with_evaluate Example.policy (Example.call ["prom-secret"] None)
    compiled_policy_well_formed_witness)).
  vm_compute. reflexivity.
Defined.

Lemma telemetry_is_not_authorization_witness :
  evaluate Example.policy (Example.call ["prom-a"; "prom-b"] None)
  = evaluate Example.policy (Example.call ["prom-a"; "prom-b"] (Some "x")).
Proof. apply telemetry_is_not_authorization. repeat split. Defined.

Lemma allow_covers_every_id_witness :
  is_allow (evaluate Example.policy (Example.call ["prom-a"; "prom-b"] None)) = true /\
  exists ids, ac_scope (Example.call ["prom-a"; "prom-b"] None) = Ids ids /\ ids <> [] /\
    forall id, id ∈ ids ->
      exists g, g ∈ [Glob.new "prom-*"] /\ Matches (as_bytes (Glob.pattern g)) (as_bytes id).
Proof.
  split; [vm_compute; reflexivity|].
  refine (proj1 (allow_covers_every_id Example.read_prom
    (Example.call ["prom-a"; "prom-b"] None) [Glob.new "prom-*"] _ _ _) _).
  - apply scope_ids_wf.
  - discriminate.
  - apply rule_matches_applies. vm_compute. reflexivity.
  - vm_compute. reflexivity.
Defined.

Lemma evaluate_deny_overrides_witness :
  effect (evaluate {| cp_version := "v"; cp_rules := rev (cp_rules Example.policy) |}
            (Example.call ["prom-a"] None)) = Allow.
Proof.
  rewrite (proj1 (proj2 (evaluate_deny_overrides "v" (Example.call ["prom-a"] None)
    (cp_rules Example.policy) [] Example.read_prom []))).
  - vm_compute. reflexivity.
  - apply Permutation_rev.
Defined.
