(* ===== verification/Canonical.v ===== *)
(** * Outbound request canonicalization (src/src/policy/canonical.rs)

    [CanonicalTarget.parse] turns a caller's path-and-query into the one form
    policy evaluates and the transport sends.  The path loop works, as in the
    source, on one output buffer with the offset of the open segment; the
    abstract view of that buffer is a stack of finished segments. *)
From S2P Require Import Prelude RustStr PolicyTypes.

Definition MAX_TARGET_BYTES : nat := 16 * 1024.

Inductive CanonicalizeError :=
| AbsoluteUrl | InvalidPercentEncoding | ControlCharacter | InvalidUtf8 | TooLong.

#[export] Instance CanonicalizeError_eq_dec : EqDecision CanonicalizeError.
Proof. solve_decision. Defined.

(** ** Byte classes *)

Definition ch (s : string) : byte := match as_bytes s with b :: _ => b | [] => byte_of 0 end.

Definition is_unreserved (b : byte) : bool :=
  is_ascii_alphanumeric b || existsb (beqb b) (as_bytes "-._~").

Definition is_pchar (b : byte) : bool :=
  is_unreserved b || existsb (beqb b) (as_bytes "!$&'()*+,;=:@").

Definition percent : byte := byte_of 37.
Definition plus_sign : byte := byte_of 43.
Definition dot : byte := byte_of 46.
Definition question : byte := byte_of 63.
Definition hash : byte := byte_of 35.
Definition ampersand : byte := byte_of 38.
Definition equals : byte := byte_of 61.
Definition space : byte := byte_of 32.

Definition hex_value (b : byte) : option N :=
  if between 48 b 57 then Some (code b - 48)%N
  else if between 97 b 102 then Some (code b - 97 + 10)%N
  else if between 65 b 70 then Some (code b - 65 + 10)%N
  else None.

Definition HEX_UPPER : list byte := as_bytes "0123456789ABCDEF".

Definition hex_upper_digit (n : N) : byte := default (byte_of 0) (HEX_UPPER !! N.to_nat n).

(** [push_escaped]: the three bytes appended. *)
Definition escaped (b : byte) : list byte :=
  [percent; hex_upper_digit (N.shiftr (code b) 4); hex_upper_digit (N.land (code b) 15)].

(** [read_escape]: the two bytes after the `%`. *)
Definition read_escape (rest : list byte) : result byte CanonicalizeError :=
  match rest with
  | h :: l :: _ =>
      match hex_value h, hex_value l with
      | Some high, Some low => Ok (byte_of (N.lor (N.shiftl high 4) low))
      | _, _ => Err InvalidPercentEncoding
      end
  | _ => Err InvalidPercentEncoding
  end.

Definition is_control_byte (b : byte) : bool := (code b <? 32)%N || (code b =? 127)%N.

(** ** Paths *)

(** [rfind('/')] on the bytes. *)
Fixpoint rfind (c : byte) (l : list byte) : option nat :=
  match l with
  | [] => None
  | b :: l' =>
      match rfind c l' with
      | Some i => Some (S i)
      | None => if beqb b c then Some 0 else None
      end
  end.

(** [String::pop] on an ASCII buffer. *)
Definition pop (out : list byte) : list byte := take (length out - 1) out.

Definition dots1 : list byte := [dot].
Definition dots2 : list byte := [dot; dot].

(** [close_segment(&mut out, &mut segment_start)]. *)
Definition close_segment (out : list byte) (segment_start : nat) : list byte * nat :=
  let segment := drop segment_start out in
  let out :=
    if bool_decide (segment = []) then out
    else if bool_decide (segment = dots1) then take segment_start out
    else if bool_decide (segment = dots2) then
      let out := take segment_start out in
      if (1 <? length out)%nat then
        let out := pop out in
        let previous := match rfind slash out with Some at_ => S at_ | None => 0 end in
        take previous out
      else out
    else out ++ [slash] in
  (out, length out).

(** The `while index < bytes.len()` loop; the index is the remaining input. *)
Fixpoint path_loop (bytes : list byte) (out : list byte) (segment_start : nat)
    : result (list byte * nat) CanonicalizeError :=
  match bytes with
  | [] => Ok (out, segment_start)
  | b :: rest =>
      if beqb b slash then
        let '(out, segment_start) := close_segment out segment_start in
        path_loop rest out segment_start
      else if is_control_byte b then Err ControlCharacter
      else if beqb b percent then
        match rest with
        | h :: rest1 =>
            match rest1 with
            | l :: rest2 =>
                let? decoded := read_escape (h :: l :: []) in
                path_loop rest2
                  (out ++ (if is_unreserved decoded then [decoded] else escaped decoded))
                  segment_start
            | [] => Err InvalidPercentEncoding
            end
        | [] => Err InvalidPercentEncoding
        end
      else path_loop rest (out ++ (if is_pchar b then [b] else escaped b)) segment_start
  end.

Definition last_is_real (segment : list byte) : bool :=
  negb (bool_decide (segment = []) || bool_decide (segment = dots1)
        || bool_decide (segment = dots2)).

Definition canonical_path (raw : list byte) : result (list byte) CanonicalizeError :=
  let? '(out, segment_start) := path_loop raw [slash] 1 in
  let real := last_is_real (drop segment_start out) in
  let '(out, _) := close_segment out segment_start in
  Ok (if real then pop out else out).

(** ** Queries *)

Fixpoint decode_loop (bytes : list byte) : result (list byte) CanonicalizeError :=
  match bytes with
  | [] => Ok []
  | b :: rest =>
      if beqb b percent then
        match rest with
        | h :: rest1 =>
            match rest1 with
            | l :: rest2 =>
                let? decoded := read_escape (h :: l :: []) in
                let? tail := decode_loop rest2 in
                Ok (decoded :: tail)
            | [] => Err InvalidPercentEncoding
            end
        | [] => Err InvalidPercentEncoding
        end
      else if beqb b plus_sign then
        let? tail := decode_loop rest in Ok (space :: tail)
      else if is_control_byte b then Err ControlCharacter
      else let? tail := decode_loop rest in Ok (b :: tail)
  end.

Definition decode_component (raw : list byte) : result (list byte) CanonicalizeError :=
  let? decoded := decode_loop raw in
  if utf8_valid decoded then Ok decoded else Err InvalidUtf8.

Definition Pair : Type := list byte * list byte.

Definition key_le (p q : Pair) : Prop := bytes_leb p.1 q.1 = true.

#[export] Instance key_le_dec : RelDecision key_le.
Proof. intros p q. unfold key_le. apply _. Defined.

(** [sort_by] on the key is stable: insertion before the first strictly
    greater key, from the right. *)
Fixpoint insert_pair (p : Pair) (l : list Pair) : list Pair :=
  match l with
  | [] => [p]
  | q :: l' => if bytes_leb p.1 q.1 then p :: l else q :: insert_pair p l'
  end.

Definition sort_pairs (l : list Pair) : list Pair := foldr insert_pair [] l.

Definition parse_pair (pair : list byte) : result Pair CanonicalizeError :=
  let '(key, value) := default (pair, []) (split_once_bytes equals pair) in
  let? k := decode_component key in
  let? v := decode_component value in
  Ok (k, v).

Definition canonical_query (raw : list byte) : result (list Pair) CanonicalizeError :=
  let? pairs :=
    collect_results parse_pair
      (List.filter (fun p => negb (bool_decide (p = []))) (split_bytes ampersand raw)) in
  Ok (sort_pairs pairs).

(** ** Targets *)

Definition is_scheme_byte (b : byte) : bool :=
  is_ascii_alphanumeric b || existsb (beqb b) (as_bytes "+-.").

Definition looks_absolute (raw : list byte) : bool :=
  match raw with
  | [] => false
  | first :: _ =>
      if negb (is_ascii_alphabetic first) then false
      else starts_with_bytes (drop_while is_scheme_byte raw) (as_bytes "://")
  end.

Record CanonicalTarget := { target_path : list byte; target_query : list Pair }.

#[export] Instance CanonicalTarget_eq_dec : EqDecision CanonicalTarget.
Proof. solve_decision. Defined.

Definition parse (input : list byte) : result CanonicalTarget CanonicalizeError :=
  if (MAX_TARGET_BYTES <? length input)%nat then Err TooLong
  else
    let without_fragment :=
      match split_once_bytes hash input with Some (before, _) => before | None => input end in
    let '(raw_path, raw_query) :=
      match split_once_bytes question without_fragment with
      | Some (path, query) => (path, Some query)
      | None => (without_fragment, None)
      end in
    if looks_absolute raw_path then Err AbsoluteUrl
    else
      let? path := canonical_path raw_path in
      let? query := match raw_query with None => Ok [] | Some q => canonical_query q end in
      Ok {| target_path := path; target_query := query |}.

(** [CanonicalPath::from_plain_segments]. *)
Fixpoint plain_segments (out : list byte) (segments : list (list byte)) : option (list byte) :=
  match segments with
  | [] => Some out
  | segment :: rest =>
      if bool_decide (segment = []) || bool_decide (segment = dots1)
         || bool_decide (segment = dots2) || negb (forallb is_unreserved segment)
      then None
      else plain_segments (out ++ [slash] ++ segment) rest
  end.

Definition from_plain_segments (segments : list (list byte)) : option (list byte) :=
  match plain_segments [] segments with
  | None => None
  | Some [] => Some [slash]
  | Some out => Some out
  end.

(** [url_under(base)]; [form_urlencoded] is the url crate's pair serializer. *)
Section Wire.
Variable form_urlencoded : list Pair -> list byte.

Definition url_under (base : list byte) (t : CanonicalTarget) : list byte :=
  trim_end_matches_bytes slash base ++ target_path t
  ++ match target_query t with
     | [] => []
     | q => question :: form_urlencoded q
     end.
End Wire.

(** ** The repository's own checker (src/src/policy/canonical.rs, [invariants::check]) *)

Module invariants.

(** [path.contains("//")]. *)
Fixpoint has_double_slash (l : list byte) : bool :=
  match l with
  | a :: rest =>
      match rest with
      | b :: _ => (beqb a slash && beqb b slash) || has_double_slash rest
      | [] => false
      end
  | [] => false
  end.

(** The encoding walk: every escape well formed, upper case, and not of an
    unreserved byte; every other byte `/` or `pchar`. *)
Fixpoint encoding_ok (l : list byte) : bool :=
  match l with
  | [] => true
  | b :: rest =>
      if beqb b percent then
        match rest with
        | h :: rest1 =>
            match rest1 with
            | lo :: rest2 =>
                is_ascii_hexdigit h && is_ascii_hexdigit lo
                && negb (is_ascii_lowercase h) && negb (is_ascii_lowercase lo)
                && match read_escape [h; lo] with
                   | Ok decoded => negb (is_unreserved decoded)
                   | Err _ => false
                   end
                && encoding_ok rest2
            | [] => false
            end
        | [] => false
        end
      else if beqb b slash then encoding_ok rest
      else is_pchar b && encoding_ok rest
  end.

(** [query.windows(2).all(|pair| pair[0].0 <= pair[1].0)]. *)
Fixpoint keys_sorted (l : list Pair) : bool :=
  match l with
  | p :: rest =>
      match rest with
      | q :: _ => bytes_leb p.1 q.1 && keys_sorted rest
      | [] => true
      end
  | [] => true
  end.

Definition path_ok (path : list byte) : bool :=
  starts_with_bytes path [slash] && negb (has_double_slash path)
  && forallb (fun segment => negb (bool_decide (segment = dots1) || bool_decide (segment = dots2)))
       (List.filter (fun segment => negb (bool_decide (segment = []))) (split_bytes slash path))
  && negb (existsb (fun b => beqb b question || beqb b hash) path)
  && encoding_ok path.

(** [check]: [true] when no assertion panics. *)
Definition check (form_urlencoded : list Pair -> list byte) (input : list byte) : bool :=
  match parse input with
  | Err TooLong => (MAX_TARGET_BYTES <? length input)%nat
  | Err _ => true
  | Ok target =>
      path_ok (target_path target) && keys_sorted (target_query target)
      && match parse (url_under form_urlencoded [] target) with
         | Ok again => bool_decide (again = target)
         | Err _ => false
         end
  end.

End invariants.

(** ** The application/x-www-form-urlencoded serializer, by its standard *)

Definition form_literal (b : byte) : bool :=
  is_ascii_alphanumeric b || existsb (beqb b) (as_bytes "*-._").

Definition form_byte (b : byte) : list byte :=
  if form_literal b then [b] else if beqb b space then [plus_sign] else escaped b.

Definition form_component (l : list byte) : list byte := mjoin (map form_byte l).

Definition form_pair (p : Pair) : list byte :=
  form_component p.1 ++ [equals] ++ form_component p.2.

Fixpoint form_urlencoded_standard (l : list Pair) : list byte :=
  match l with
  | [] => []
  | p :: rest =>
      match rest with
      | [] => form_pair p
      | _ => form_pair p ++ [ampersand] ++ form_urlencoded_standard rest
      end
  end.

(** ** Normal text: what canonical segments are made of *)

Inductive Norm : list byte -> Prop :=
| Norm_nil : Norm []
| Norm_char b l : is_pchar b = true -> Norm l -> Norm (b :: l)
| Norm_esc d l : is_unreserved d = false -> Norm l -> Norm (escaped d ++ l).

Definition good_segment (s : list byte) : Prop :=
  Norm s /\ s <> [] /\ s <> dots1 /\ s <> dots2.

(** The buffer with these finished segments and nothing open. *)
Definition render (segs : list (list byte)) : list byte :=
  slash :: mjoin (map (fun s => s ++ [slash]) segs).

(** The canonical paths: `/`, `/a/b/` or `/a/b`. *)
Definition canonical_shape (path : list byte) : Prop :=
  exists segs, Forall good_segment segs /\
    (path = render segs \/ segs <> [] /\ path = pop (render segs)).

(** *** Facts about single bytes, by evaluation over all of them *)

Lemma pchar_facts b :
  is_pchar b = true ->
  b <> slash /\ b <> percent /\ b <> question /\ b <> hash /\ is_control_byte b = false.
Proof.
  assert (H : forall b, (if is_pchar b then
    negb (beqb b slash) && negb (beqb b percent) && negb (beqb b question) && negb (beqb b hash)
    && negb (is_control_byte b) else true) = true) by (apply byte_forall; vm_compute; reflexivity).
  intros Hp. specialize (H b). rewrite Hp in H. bool_to_prop.
  rewrite <- !beqb_neq. done.
Qed.

Lemma unreserved_pchar b : is_unreserved b = true -> is_pchar b = true.
Proof. unfold is_pchar. by intros ->. Qed.

Lemma escaped_facts b :
  exists h l, escaped b = [percent; h; l] /\ read_escape [h; l] = Ok b /\
    is_ascii_hexdigit h = true /\ is_ascii_hexdigit l = true /\
    is_ascii_lowercase h = false /\ is_ascii_lowercase l = false /\
    is_pchar h = true /\ is_pchar l = true.
Proof.
  exists (hex_upper_digit (N.shiftr (code b) 4)), (hex_upper_digit (N.land (code b) 15)).
  split; [done|].
  assert (H : forall b,
    let h := hex_upper_digit (N.shiftr (code b) 4) in
    let l := hex_upper_digit (N.land (code b) 15) in
    match read_escape [h; l] with Ok d => beqb d b | Err _ => false end
    && is_ascii_hexdigit h && is_ascii_hexdigit l
    && negb (is_ascii_lowercase h) && negb (is_ascii_lowercase l)
    && is_pchar h && is_pchar l = true) by (apply byte_forall; vm_compute; reflexivity).
  specialize (H b). cbv zeta in H.
  destruct (read_escape _) as [d|]; [|done]. bool_to_prop. apply beqb_eq in H. by subst.
Qed.

Lemma escaped_no b c : c <> percent -> is_pchar c = false -> c ∉ escaped b.
Proof.
  intros Hc Hp. destruct (escaped_facts b) as (h & l & -> & _ & _ & _ & _ & _ & Hh & Hl).
  rewrite !elem_of_cons, elem_of_nil. intros [->|[->|[->|[]]]]; congruence.
Qed.

Lemma form_byte_facts b :
  let e := form_byte b in
  ampersand ∉ e /\ equals ∉ e /\ hash ∉ e /\ decode_loop e = Ok [b].
Proof.
  assert (H : forall b,
    forallb (fun c => negb (beqb c ampersand) && negb (beqb c equals) && negb (beqb c hash)) (form_byte b)
    && match decode_loop (form_byte b) with
       | Ok [d] => beqb d b
       | _ => false
       end = true) by (apply byte_forall; vm_compute; reflexivity).
  specialize (H b). apply andb_true_iff in H as [H1 H2]. rewrite forallb_elem_of in H1.
  cbv zeta. repeat split.
  1-3: intros Hin; specialize (H1 _ Hin); by vm_compute in H1.
  destruct (decode_loop (form_byte b)) as [[|d [|]]|]; try done. apply beqb_eq in H2. by subst.
Qed.

(** ** Normal text *)

Lemma Norm_app l1 l2 : Norm l1 -> Norm l2 -> Norm (l1 ++ l2).
Proof.
  intros H1 H2. induction H1 as [|b l Hb _ IH|d l Hd _ IH]; [done| |].
  - simpl. by constructor.
  - rewrite <- app_assoc. by apply Norm_esc.
Qed.

Lemma Norm_token_unreserved d :
  Norm (if is_unreserved d then [d] else escaped d).
Proof.
  destruct (is_unreserved d) eqn:E.
  - repeat constructor. by apply unreserved_pchar.
  - rewrite <- (app_nil_r (escaped d)). by apply Norm_esc; [|constructor].
Qed.

Lemma Norm_token_pchar b : Norm (if is_pchar b then [b] else escaped b).
Proof.
  destruct (is_pchar b) eqn:E; [by repeat constructor|].
  rewrite <- (app_nil_r (escaped b)). apply Norm_esc; [|constructor].
  destruct (is_unreserved b) eqn:Eu; [|done]. apply unreserved_pchar in Eu. congruence.
Qed.

Lemma Norm_no l c : Norm l -> c <> percent -> is_pchar c = false -> c ∉ l.
Proof.
  intros HN Hc Hp. induction HN as [|b l Hb _ IH|d l _ _ IH].
  - apply not_elem_of_nil.
  - rewrite not_elem_of_cons. split; [intros ->; congruence | done].
  - rewrite not_elem_of_app. split; [by apply escaped_no | done].
Qed.

Lemma Norm_no_slash l : Norm l -> slash ∉ l.
Proof. intros H. apply Norm_no; [done | discriminate | reflexivity]. Qed.

Lemma Norm_encoding_ok l rest :
  Norm l -> invariants.encoding_ok (l ++ rest) = invariants.encoding_ok rest.
Proof.
  induction 1 as [|b l Hb _ IH|d l Hd _ IH]; [done| |].
  - destruct (pchar_facts b Hb) as (H1 & H2 & _). apply beqb_neq in H1, H2.
    simpl. by rewrite H2, H1, Hb.
  - destruct (escaped_facts d) as (h & lo & -> & Hr & Hh & Hl & Hh' & Hl' & _).
    change (invariants.encoding_ok (percent :: h :: lo :: (l ++ rest)) = invariants.encoding_ok rest).
    cbn [invariants.encoding_ok]. rewrite beqb_refl, Hr, Hh, Hl, Hh', Hl', Hd. simpl. apply IH.
Qed.

#[export] Hint Resolve Norm_app Norm_token_unreserved Norm_token_pchar Norm_no_slash : rust.
#[export] Hint Constructors Norm : rust.

(** ** The buffer as a stack of segments *)

Lemma render_snoc segs s : render (segs ++ [s]) = render segs ++ s ++ [slash].
Proof.
  unfold render. rewrite map_app. simpl. f_equal.
  rewrite join_app. simpl. by rewrite app_nil_r.
Qed.

Lemma render_cons_app segs : exists body, render segs = slash :: body.
Proof. unfold render. eauto. Qed.

Lemma pop_snoc l b : pop (l ++ [b]) = l.
Proof. unfold pop. rewrite length_app. simpl. by rewrite Nat.add_sub, take_app_length. Qed.

Lemma render_last segs : exists body, render segs = body ++ [slash].
Proof.
  destruct segs as [|s segs] using rev_ind; [by exists []|].
  rewrite render_snoc, app_assoc. eauto.
Qed.

Lemma rfind_none c l : c ∉ l -> rfind c l = None.
Proof.
  induction l as [|b l IH]; simpl; [done|]. rewrite not_elem_of_cons. intros [Hb Hl].
  rewrite IH by done. assert (beqb b c = false) as -> by (apply beqb_neq; congruence). done.
Qed.

Lemma rfind_last c l s : c ∉ s -> rfind c (l ++ c :: s) = Some (length l).
Proof.
  intros Hs. induction l as [|b l IH]; simpl; [by rewrite rfind_none, beqb_refl|].
  by rewrite IH.
Qed.

(** What closing the open segment does to the stack. *)
Definition close_abs (segs : list (list byte)) (cur : list byte) : list (list byte) :=
  if bool_decide (cur = []) then segs
  else if bool_decide (cur = dots1) then segs
  else if bool_decide (cur = dots2) then removelast segs
  else segs ++ [cur].

Lemma close_segment_abs segs cur :
  Forall (fun s => slash ∉ s) segs ->
  close_segment (render segs ++ cur) (length (render segs))
  = (render (close_abs segs cur), length (render (close_abs segs cur))).
Proof.
  intros Hclean. unfold close_segment, close_abs.
  rewrite drop_app_length, take_app_length.
  case_bool_decide as H0; [subst; by rewrite app_nil_r|].
  case_bool_decide as H1; [done|].
  case_bool_decide as H2; [|by rewrite render_snoc, app_assoc].
  destruct segs as [|s segs _] using rev_ind; [done|].
  rewrite removelast_last, render_snoc, app_assoc, pop_snoc.
  apply Forall_app in Hclean as [_ Hs]. apply Forall_cons in Hs as [Hs _].
  destruct (render_last segs) as [body Hb].
  replace (1 <? length ((render segs ++ s) ++ [slash]))%nat with true
    by (symmetry; apply Nat.ltb_lt; rewrite Hb, !length_app; simpl; lia).
  rewrite Hb. rewrite <- app_assoc. change ([slash] ++ s) with (slash :: s).
  rewrite rfind_last by done.
  replace (S (length body)) with (length (body ++ [slash])) by (rewrite length_app; simpl; lia).
  assert (Et : take (length (body ++ [slash])) (body ++ slash :: s) = body ++ [slash]).
  { change (slash :: s) with ([slash] ++ s). by rewrite app_assoc, take_app_length. }
  by rewrite Et.
Qed.

(** The loop on the abstract stack. *)
Fixpoint path_abs (bytes : list byte) (segs : list (list byte)) (cur : list byte)
    : result (list (list byte) * list byte) CanonicalizeError :=
  match bytes with
  | [] => Ok (segs, cur)
  | b :: rest =>
      if beqb b slash then path_abs rest (close_abs segs cur) []
      else if is_control_byte b then Err ControlCharacter
      else if beqb b percent then
        match rest with
        | h :: rest1 =>
            match rest1 with
            | l :: rest2 =>
                let? decoded := read_escape (h :: l :: []) in
                path_abs rest2 segs (cur ++ (if is_unreserved decoded then [decoded] else escaped decoded))
            | [] => Err InvalidPercentEncoding
            end
        | [] => Err InvalidPercentEncoding
        end
      else path_abs rest segs (cur ++ (if is_pchar b then [b] else escaped b))
  end.

(** Induction that also covers the tail after an escape. *)
Lemma bytes_ind (P : list byte -> Prop) :
  P [] -> (forall b rest, P rest -> (forall h l rest2, rest = h :: l :: rest2 -> P rest2) -> P (b :: rest)) ->
  forall l, P l.
Proof.
  intros H0 H1. enough (Hs : forall n l, length l <= n -> P l) by eauto.
  induction n as [|n IH]; intros [|b rest] Hl; simpl in Hl; try done; try lia.
  apply H1; [apply IH; lia|]. intros h l rest2 ->. apply IH. simpl in Hl. lia.
Qed.

Definition stack_ok (segs : list (list byte)) (cur : list byte) : Prop :=
  Forall good_segment segs /\ Norm cur.

Lemma good_no_slash segs : Forall good_segment segs -> Forall (fun s => slash ∉ s) segs.
Proof. intros H. eapply Forall_impl; [exact H|]. intros s (HN & _). auto with rust. Qed.

Lemma close_abs_good segs cur : stack_ok segs cur -> Forall good_segment (close_abs segs cur).
Proof.
  intros [Hs Hc]. unfold close_abs. repeat case_bool_decide; try done.
  - destruct segs as [|s segs _] using rev_ind; [done|]. rewrite removelast_last.
    by apply Forall_app in Hs as [? _].
  - apply Forall_app. split; [done|]. by repeat constructor.
Qed.

Lemma path_loop_abs bytes segs cur :
  stack_ok segs cur ->
  path_loop bytes (render segs ++ cur) (length (render segs))
  = result_map (fun '(segs, cur) => (render segs ++ cur, length (render segs)))
      (path_abs bytes segs cur).
Proof.
  revert segs cur. induction bytes as [|b rest IH IH2] using bytes_ind; intros segs cur Hok; [done|].
  pose proof Hok as [Hs Hc]. cbn [path_loop path_abs].
  destruct (beqb b slash).
  { rewrite close_segment_abs by (by apply good_no_slash).
    rewrite <- (app_nil_r (render (close_abs segs cur))) at 1. apply IH.
    split; [by apply close_abs_good | constructor]. }
  destruct (is_control_byte b); [done|]. destruct (beqb b percent).
  { destruct rest as [|h [|l rest2]]; [done | done|].
    destruct (read_escape [h; l]) as [d|]; [|done].
    rewrite <- app_assoc. eapply IH2; [done|]. split; [done | auto with rust]. }
  rewrite <- app_assoc. apply IH. split; [done | auto with rust].
Qed.

Lemma path_abs_ok bytes segs cur segs' cur' :
  stack_ok segs cur -> path_abs bytes segs cur = Ok (segs', cur') -> stack_ok segs' cur'.
Proof.
  revert segs cur. induction bytes as [|b rest IH IH2] using bytes_ind; intros segs cur Hok.
  { by intros [= <- <-]. }
  pose proof Hok as [Hs Hc]. cbn [path_abs].
  destruct (beqb b slash).
  { apply IH. split; [by apply close_abs_good | constructor]. }
  destruct (is_control_byte b); [done|]. destruct (beqb b percent).
  { destruct rest as [|h [|l rest2]]; [done | done|].
    destruct (read_escape [h; l]) as [d|]; [|done].
    eapply IH2; [done|]. split; [done | auto with rust]. }
  apply IH. split; [done | auto with rust].
Qed.

(** The whole path function on the stack. *)
Definition finish (segs : list (list byte)) (cur : list byte) : list byte :=
  if last_is_real cur then pop (render (segs ++ [cur])) else render (close_abs segs cur).

Lemma canonical_path_abs raw :
  canonical_path raw = result_map (fun '(segs, cur) => finish segs cur) (path_abs raw [] []).
Proof.
  unfold canonical_path.
  assert (Hok : stack_ok [] []) by (split; constructor).
  pose proof (path_loop_abs raw [] [] Hok) as H.
  change (length (render [])) with 1 in H. change (render [] ++ []) with [slash] in H.
  rewrite H. clear H.
  destruct (path_abs raw [] []) as [[segs cur]|] eqn:E; [|done]. cbn [result_map].
  destruct (path_abs_ok _ _ _ _ _ Hok E) as [Hs Hc].
  rewrite close_segment_abs by (by apply good_no_slash).
  rewrite drop_app_length. unfold finish, last_is_real, close_abs.
  repeat case_bool_decide; done.
Qed.

Lemma canonical_path_shape raw path : canonical_path raw = Ok path -> canonical_shape path.
Proof.
  rewrite canonical_path_abs. destruct (path_abs raw [] []) as [[segs cur]|] eqn:E; [|done].
  intros [= <-]. assert (Hok : stack_ok [] []) by (split; constructor).
  pose proof (path_abs_ok _ _ _ _ _ Hok E) as Hok'. pose proof Hok' as [Hs Hc].
  unfold finish. destruct (last_is_real cur) eqn:Er.
  - exists (segs ++ [cur]). split.
    + apply Forall_app. split; [done|]. unfold last_is_real in Er. bool_to_prop.
      by repeat constructor.
    + right. split; [by destruct segs | done].
  - exists (close_abs segs cur). split; [by apply close_abs_good | by left].
Qed.

(** ** Idempotence *)

Lemma path_abs_norm s rest segs cur :
  Norm s -> path_abs (s ++ rest) segs cur = path_abs rest segs (cur ++ s).
Proof.
  intros HN. revert cur. induction HN as [|b l Hb _ IH|d l Hd _ IH]; intros cur.
  - by rewrite app_nil_r.
  - destruct (pchar_facts b Hb) as (H1 & H2 & _ & _ & H3). apply beqb_neq in H1, H2.
    simpl. rewrite H1, H3, H2, Hb, IH. by rewrite <- app_assoc.
  - destruct (escaped_facts d) as (h & lo & E & Hr & _). rewrite E.
    change (path_abs (percent :: h :: lo :: (l ++ rest)) segs cur
            = path_abs rest segs (cur ++ [percent; h; lo] ++ l)).
    cbn [path_abs]. rewrite Hr, Hd, beqb_refl.
    change (beqb percent slash) with false. change (is_control_byte percent) with false.
    cbv iota. rewrite IH, E. by rewrite <- app_assoc.
Qed.

Lemma path_abs_slash rest segs cur :
  path_abs (slash :: rest) segs cur = path_abs rest (close_abs segs cur) [].
Proof. done. Qed.

Lemma close_abs_good_segment segs s : good_segment s -> close_abs segs s = segs ++ [s].
Proof. intros (_ & ? & ? & ?). unfold close_abs. by rewrite !bool_decide_eq_false_2. Qed.

Lemma path_abs_segments segs done_ rest :
  Forall good_segment segs ->
  path_abs (mjoin (map (fun s => s ++ [slash]) segs) ++ rest) done_ []
  = path_abs rest (done_ ++ segs) [].
Proof.
  intros Hs. revert done_. induction Hs as [|s segs Hg _ IH]; intros done_; simpl.
  - by rewrite app_nil_r.
  - rewrite <- !app_assoc. rewrite path_abs_norm by apply Hg. simpl app at 1.
    change ([] ++ s) with s. rewrite path_abs_slash, close_abs_good_segment, IH by done.
    by rewrite <- app_assoc.
Qed.

Lemma path_abs_render segs rest :
  Forall good_segment segs -> path_abs (render segs ++ rest) [] [] = path_abs rest segs [].
Proof. intros Hs. unfold render. simpl app. rewrite path_abs_slash. by apply path_abs_segments. Qed.

Lemma pop_render_snoc segs s : pop (render (segs ++ [s])) = render segs ++ s.
Proof. by rewrite render_snoc, app_assoc, pop_snoc. Qed.

Lemma last_is_real_good s : good_segment s -> last_is_real s = true.
Proof. intros (_ & ? & ? & ?). unfold last_is_real. by rewrite !bool_decide_eq_false_2. Qed.

Lemma canonical_path_idempotent path : canonical_shape path -> canonical_path path = Ok path.
Proof.
  intros (segs & Hs & [->|[Hne ->]]); rewrite canonical_path_abs.
  - rewrite <- (app_nil_r (render segs)) at 1. rewrite path_abs_render by done. simpl.
    unfold finish. done.
  - destruct segs as [|s segs _] using rev_ind; [done|].
    apply Forall_app in Hs as [Hs Hg]. apply Forall_cons in Hg as [Hg _].
    rewrite pop_render_snoc. rewrite path_abs_render by done.
    rewrite <- (app_nil_r s) at 1. rewrite path_abs_norm by apply Hg. simpl.
    unfold finish. rewrite last_is_real_good by done. by rewrite pop_render_snoc.
Qed.

(** ** Queries *)

Lemma insert_pair_perm p l : insert_pair p l ≡ₚ p :: l.
Proof.
  induction l as [|q l IH]; simpl; [done|]. destruct (bytes_leb p.1 q.1); [done|].
  rewrite IH. apply Permutation_swap.
Qed.

Lemma sort_pairs_perm l : sort_pairs l ≡ₚ l.
Proof. induction l as [|p l IH]; simpl; [done|]. by rewrite insert_pair_perm, IH. Qed.

Lemma insert_pair_sorted p l : Sorted key_le l -> Sorted key_le (insert_pair p l).
Proof.
  induction 1 as [|q l Hs IH Hq]; simpl; [by repeat constructor|].
  destruct (bytes_leb p.1 q.1) eqn:E; [by repeat constructor|].
  constructor; [done|]. destruct l as [|r l]; simpl in *.
  - constructor. destruct (bytes_leb_total p.1 q.1); congruence.
  - destruct (bytes_leb p.1 r.1); constructor.
    + destruct (bytes_leb_total p.1 q.1); congruence.
    + by inversion Hq.
Qed.

Lemma sort_pairs_sorted l : Sorted key_le (sort_pairs l).
Proof. induction l; simpl; [constructor | by apply insert_pair_sorted]. Qed.

Lemma sort_pairs_id l : Sorted key_le l -> sort_pairs l = l.
Proof.
  induction 1 as [|p l Hs IH Hp]; simpl; [done|]. rewrite IH.
  destruct l as [|q l]; simpl; [done|]. inversion Hp as [|? ? Hle]. unfold key_le in Hle.
  by rewrite Hle.
Qed.

(** Stability: the pairs under one key keep their order. *)
Lemma insert_pair_stable (k : list byte) p l :
  List.filter (fun q => bool_decide (q.1 = k)) (insert_pair p l)
  = List.filter (fun q => bool_decide (q.1 = k)) (p :: l).
Proof.
  induction l as [|q l IH]; [done|]. simpl.
  destruct (bytes_leb p.1 q.1) eqn:E; [done|]. simpl. rewrite IH. simpl.
  repeat case_bool_decide; try done. subst. rewrite H0, bytes_leb_refl in E. done.
Qed.

Lemma sort_pairs_stable k l :
  List.filter (fun q => bool_decide (q.1 = k)) (sort_pairs l)
  = List.filter (fun q => bool_decide (q.1 = k)) l.
Proof.
  induction l as [|p l IH]; [done|]. simpl sort_pairs. rewrite insert_pair_stable.
  simpl. by rewrite IH.
Qed.

Lemma keys_sorted_Sorted l : invariants.keys_sorted l = true <-> Sorted key_le l.
Proof.
  induction l as [|p l IH]; [split; [constructor | done]|]. simpl.
  destruct l as [|q l]; [split; [by repeat constructor | done]|].
  rewrite andb_true_iff, IH. split.
  - intros [Hle Hs]. constructor; [done|]. by constructor.
  - inversion 1 as [|? ? Hs Hh]. inversion Hh. done.
Qed.

Lemma form_byte_decode b rest :
  decode_loop (form_byte b ++ rest) = (let? tail := decode_loop rest in Ok (b :: tail)).
Proof.
  unfold form_byte. destruct (form_literal b) eqn:El.
  - assert (H : forall b, (if form_literal b then negb (beqb b percent) && negb (beqb b plus_sign)
      && negb (is_control_byte b) else true) = true) by (apply byte_forall; vm_compute; reflexivity).
    specialize (H b). rewrite El in H. bool_to_prop. simpl. by rewrite H, H1, H0.
  - destruct (beqb b space) eqn:Es.
    + apply beqb_eq in Es as ->. done.
    + destruct (escaped_facts b) as (h & l & -> & Hr & _).
      change ([percent; h; l] ++ rest) with (percent :: h :: l :: rest).
      cbn [decode_loop]. by rewrite beqb_refl, Hr.
Qed.

Lemma form_component_decode l : decode_loop (form_component l) = Ok l.
Proof.
  induction l as [|b l IH]; [done|]. unfold form_component in *. simpl.
  by rewrite form_byte_decode, IH.
Qed.

Lemma form_component_no l :
  ampersand ∉ form_component l /\ equals ∉ form_component l /\ hash ∉ form_component l.
Proof.
  unfold form_component. induction l as [|b l (IH1 & IH2 & IH3)]; simpl.
  - split; [|split]; apply not_elem_of_nil.
  - destruct (form_byte_facts b) as (H1 & H2 & H3 & _). rewrite !not_elem_of_app. done.
Qed.

Definition pair_utf8 (p : Pair) : Prop := utf8_valid p.1 = true /\ utf8_valid p.2 = true.

Lemma decode_component_form l : utf8_valid l = true -> decode_component (form_component l) = Ok l.
Proof. intros H. unfold decode_component. by rewrite form_component_decode, H. Qed.

Lemma decode_component_utf8 raw l : decode_component raw = Ok l -> utf8_valid l = true.
Proof.
  unfold decode_component. destruct (decode_loop raw) as [d|]; [|done].
  destruct (utf8_valid d) eqn:E; [|done]. by intros [= <-].
Qed.

Lemma split_once_form p :
  split_once_bytes equals (form_pair p) = Some (form_component p.1, form_component p.2).
Proof.
  apply split_once_bytes_first, form_component_no.
Qed.

Lemma parse_pair_form p : pair_utf8 p -> parse_pair (form_pair p) = Ok p.
Proof.
  destruct p as [k v]. intros [Hk Hv]. unfold parse_pair. rewrite split_once_form. simpl in *.
  by rewrite !decode_component_form.
Qed.

Lemma parse_pair_utf8 raw p : parse_pair raw = Ok p -> pair_utf8 p.
Proof.
  unfold parse_pair. destruct (default _ _) as [k v].
  destruct (decode_component k) as [k'|] eqn:Ek; [|done].
  destruct (decode_component v) as [v'|] eqn:Ev; [|done]. intros [= <-].
  split; by eapply decode_component_utf8.
Qed.

Lemma form_pair_no p : ampersand ∉ form_pair p /\ hash ∉ form_pair p /\ form_pair p <> [].
Proof.
  unfold form_pair. destruct (form_component_no p.1) as (H1 & _ & H2).
  destruct (form_component_no p.2) as (H3 & _ & H4).
  rewrite !not_elem_of_app, !not_elem_of_cons.
  assert (ampersand <> equals /\ hash <> equals) as [? ?] by (split; discriminate).
  pose proof (not_elem_of_nil ampersand). pose proof (not_elem_of_nil hash).
  repeat split; try done. by destruct (form_component p.1).
Qed.

Lemma form_standard_split l :
  l <> [] -> split_bytes ampersand (form_urlencoded_standard l) = map form_pair l.
Proof.
  induction l as [|p l IH]; [done|]. intros _. destruct (form_pair_no p) as (H & _ & _).
  destruct l as [|q l]; simpl form_urlencoded_standard.
  - by rewrite split_bytes_no_sep.
  - change ([ampersand] ++ ?x) with (ampersand :: x). rewrite split_bytes_app by done.
    simpl map. f_equal. by apply IH.
Qed.

Lemma form_standard_no_hash l : hash ∉ form_urlencoded_standard l.
Proof.
  induction l as [|p l IH]; [apply not_elem_of_nil|].
  destruct (form_pair_no p) as (_ & H & _). destruct l as [|q l]; [done|].
  cbn [form_urlencoded_standard]. rewrite !not_elem_of_app, not_elem_of_cons.
  split; [done|]. split; [split; [discriminate | apply not_elem_of_nil] | done].
Qed.

Lemma canonical_query_form l :
  l <> [] -> Forall pair_utf8 l -> Sorted key_le l ->
  canonical_query (form_urlencoded_standard l) = Ok l.
Proof.
  intros Hne Hu Hs. unfold canonical_query. rewrite form_standard_split by done.
  assert (List.filter (fun p => negb (bool_decide (p = []))) (map form_pair l) = map form_pair l) as ->.
  { clear Hne Hu Hs. induction l as [|p l IH]; simpl; [done|].
    rewrite bool_decide_eq_false_2 by apply form_pair_no. simpl. by rewrite IH. }
  assert (collect_results parse_pair (map form_pair l) = Ok l) as ->.
  { apply collect_results_Ok. clear Hne Hs. induction Hu; simpl; constructor; [|done].
    by apply parse_pair_form. }
  by rewrite sort_pairs_id.
Qed.

Lemma canonical_query_Ok raw l :
  canonical_query raw = Ok l -> Sorted key_le l /\ Forall pair_utf8 l.
Proof.
  unfold canonical_query. destruct (collect_results _ _) as [ps|] eqn:E; [|done].
  intros [= <-]. split; [apply sort_pairs_sorted|]. rewrite sort_pairs_perm.
  apply collect_results_Ok in E. induction E; constructor; [|done]. by eapply parse_pair_utf8.
Qed.

(** ** Targets *)

Definition target_ok (t : CanonicalTarget) : Prop :=
  canonical_shape (target_path t) /\ Sorted key_le (target_query t)
  /\ Forall pair_utf8 (target_query t).

Lemma parse_ok input t : parse input = Ok t -> target_ok t.
Proof.
  unfold parse. destruct (MAX_TARGET_BYTES <? length input)%nat; [done|].
  set (wf := match split_once_bytes hash input with Some (before, _) => before | None => input end).
  destruct (match split_once_bytes question wf with
            | Some (path, query) => (path, Some query)
            | None => (wf, None) end) as [raw_path raw_query].
  destruct (looks_absolute raw_path); [done|].
  destruct (canonical_path raw_path) as [path|] eqn:Ep; [|done].
  apply canonical_path_shape in Ep. destruct raw_query as [q|].
  - destruct (canonical_query q) as [ps|] eqn:Eq; [|done]. intros [= <-].
    apply canonical_query_Ok in Eq. done.
  - intros [= <-]. split; [done|]. split; constructor.
Qed.

Lemma shape_slash path : canonical_shape path -> exists body, path = slash :: body.
Proof.
  intros (segs & _ & [->|[Hne ->]]); [apply render_cons_app|].
  destruct segs as [|s segs _] using rev_ind; [done|]. rewrite pop_render_snoc.
  destruct (render_cons_app segs) as [body ->]. by exists (body ++ s).
Qed.

Lemma render_no c segs :
  c <> slash -> c <> percent -> is_pchar c = false -> Forall good_segment segs -> c ∉ render segs.
Proof.
  intros H1 H2 H3 Hs. unfold render. rewrite not_elem_of_cons. split; [done|].
  induction Hs as [|s segs Hg _ IH]; simpl; [apply not_elem_of_nil|].
  rewrite !not_elem_of_app, not_elem_of_cons. split; [|done].
  split; [by apply Norm_no; [apply Hg|..] | split; [done | apply not_elem_of_nil]].
Qed.

Lemma shape_no c path :
  c <> slash -> c <> percent -> is_pchar c = false -> canonical_shape path -> c ∉ path.
Proof.
  intros H1 H2 H3 (segs & Hs & [->|[_ ->]]); [by apply render_no|].
  unfold pop. intros Hin. apply (render_no c segs H1 H2 H3 Hs).
  by eapply elem_of_take in Hin as (i & ? & _); eapply list_elem_of_lookup_2.
Qed.

Lemma shape_not_absolute path : canonical_shape path -> looks_absolute path = false.
Proof. intros H. apply shape_slash in H as [body ->]. done. Qed.

(** The wire form of a well-formed target parses back to it, when it fits. *)
Lemma parse_wire t :
  target_ok t -> length (url_under form_urlencoded_standard [] t) <= MAX_TARGET_BYTES ->
  parse (url_under form_urlencoded_standard [] t) = Ok t.
Proof.
  destruct t as [path query]. intros (Hp & Hs & Hu) Hlen. cbn [target_path target_query] in *. unfold parse.
  replace (MAX_TARGET_BYTES <? length (url_under form_urlencoded_standard [] _))%nat with false
    by (symmetry; by apply Nat.ltb_ge).
  assert (Hhash : hash ∉ path) by (by apply shape_no).
  assert (Hq : question ∉ path) by (by apply shape_no).
  unfold url_under in *. change (trim_end_matches_bytes slash []) with (@nil byte) in *.
  cbn [target_path target_query app] in *. destruct query as [|p query].
  - rewrite app_nil_r. rewrite (proj2 (split_once_bytes_None hash path) Hhash).
    rewrite (proj2 (split_once_bytes_None question path) Hq).
    rewrite shape_not_absolute by done. by rewrite canonical_path_idempotent.
  - set (q := form_urlencoded_standard (p :: query)) in *.
    assert (Hh : hash ∉ path ++ question :: q).
    { rewrite not_elem_of_app, not_elem_of_cons. split; [done|]. split; [discriminate|].
      apply form_standard_no_hash. }
    rewrite (proj2 (split_once_bytes_None hash _) Hh).
    rewrite split_once_bytes_first by done.
    rewrite shape_not_absolute, canonical_path_idempotent by done. unfold q.
    by rewrite canonical_query_form.
Qed.

(** ** The checker's shape assertions *)

Lemma hds_seg s rest :
  slash ∉ s -> s <> [] ->
  invariants.has_double_slash (slash :: s ++ rest) = invariants.has_double_slash (s ++ rest).
Proof.
  destruct s as [|b s]; [done|]. intros H _. apply not_elem_of_cons in H as [Hb _].
  assert (E : beqb b slash = false) by (apply beqb_neq; congruence). simpl. by rewrite E.
Qed.

Lemma hds_skip s rest :
  slash ∉ s -> invariants.has_double_slash (s ++ slash :: rest)
               = invariants.has_double_slash (slash :: rest).
Proof.
  induction s as [|b s IH]; [done|]. intros H. apply not_elem_of_cons in H as [Hb Hs].
  assert (E : beqb b slash = false) by (apply beqb_neq; congruence).
  rewrite <- IH by done. simpl. destruct s; simpl; by rewrite E.
Qed.

Lemma hds_clean s : slash ∉ s -> invariants.has_double_slash s = false.
Proof.
  induction s as [|b s IH]; [done|]. intros H. apply not_elem_of_cons in H as [Hb Hs].
  assert (E : beqb b slash = false) by (apply beqb_neq; congruence). simpl.
  rewrite E, IH by done. by destruct s.
Qed.

Lemma hds_render segs rest :
  Forall good_segment segs ->
  invariants.has_double_slash (render segs ++ rest) = invariants.has_double_slash (slash :: rest).
Proof.
  revert rest; induction segs as [|s segs IH] using rev_ind; intros rest Hs; [done|].
  apply Forall_app in Hs as [Hs Hg]. apply Forall_cons in Hg as [Hg _].
  rewrite render_snoc, <- !app_assoc, IH by done. pose proof Hg as (HN & Hne & _).
  rewrite hds_seg by auto with rust. simpl app at 1. apply hds_skip. auto with rust.
Qed.

Lemma split_render segs rest :
  Forall good_segment segs ->
  split_bytes slash (render segs ++ rest) = [] :: segs ++ split_bytes slash rest.
Proof.
  intros Hs. unfold render. simpl. f_equal.
  induction Hs as [|s segs (HN & _) _ IH]; simpl; [done|].
  rewrite <- !app_assoc. change ([slash] ++ ?x) with (slash :: x).
  rewrite split_bytes_app by auto with rust. by rewrite IH.
Qed.

Definition not_dots (segment : list byte) : bool :=
  negb (bool_decide (segment = dots1) || bool_decide (segment = dots2)).

Lemma dots_filter pieces :
  Forall (fun s => s = [] \/ good_segment s) pieces ->
  forallb not_dots (List.filter (fun s => negb (bool_decide (s = []))) pieces) = true.
Proof.
  induction 1 as [|s pieces Hs _ IH]; simpl; [done|].
  case_bool_decide as He; simpl; [done|].
  destruct Hs as [->|(_ & _ & H1 & H2)]; [done|].
  unfold not_dots at 1. rewrite !bool_decide_eq_false_2 by done. done.
Qed.

Lemma good_pieces segs :
  Forall good_segment segs -> Forall (fun s => s = [] \/ good_segment s) ([] :: segs).
Proof. intros H. constructor; [by left|]. eapply Forall_impl; [exact H|]. auto. Qed.

Lemma encoding_ok_render segs rest :
  Forall good_segment segs -> invariants.encoding_ok (render segs ++ rest) = invariants.encoding_ok rest.
Proof.
  intros Hs. unfold render. simpl.
  induction Hs as [|s segs (HN & _) _ IH]; simpl; [done|].
  rewrite <- !app_assoc, Norm_encoding_ok by done. simpl. exact IH.
Qed.

Lemma shape_path_ok path : canonical_shape path -> invariants.path_ok path = true.
Proof.
  intros Hsh. unfold invariants.path_ok.
  assert (existsb (fun b => beqb b question || beqb b hash) path = false) as ->.
  { apply existsb_false_elem_of. intros b Hb. apply orb_false_iff. rewrite !beqb_neq.
    split; intros ->; revert Hb; by apply shape_no. }
  assert (starts_with_bytes path [slash] = true) as ->.
  { apply shape_slash in Hsh as [body ->]. apply starts_with_bytes_spec. by exists body. }
  fold not_dots. destruct Hsh as (segs & Hs & [->|[Hne ->]]).
  - rewrite <- (app_nil_r (render segs)).
    rewrite hds_render, encoding_ok_render, split_render by done. simpl negb.
    change (split_bytes slash []) with ([[]] : list (list byte)).
    assert (Hd : Forall (fun s => s = [] \/ good_segment s) ([] :: segs ++ [[]])).
    { apply (Forall_app_2 _ ([] :: segs) [[]]); [by apply good_pieces|].
      apply Forall_singleton. by left. }
    by rewrite (dots_filter _ Hd).
  - destruct segs as [|s segs _] using rev_ind; [done|]. rewrite pop_render_snoc.
    apply Forall_app in Hs as [Hs Hg]. apply Forall_cons in Hg as [Hg _].
    pose proof Hg as (HN & Hn & _).
    rewrite hds_render, split_render, encoding_ok_render by done.
    assert (invariants.has_double_slash (slash :: s) = false) as ->.
    { rewrite <- (app_nil_r s), hds_seg, app_nil_r by auto with rust. apply hds_clean. auto with rust. }
    assert (invariants.encoding_ok s = true) as ->.
    { rewrite <- (app_nil_r s). by rewrite Norm_encoding_ok. }
    rewrite split_bytes_no_sep by auto with rust.
    assert (Hd : Forall (fun s => s = [] \/ good_segment s) ([] :: segs ++ [s])).
    { apply good_pieces, Forall_app. split; [done|]. by apply Forall_singleton. }
    by rewrite (dots_filter _ Hd).
Qed.

(** ** Plain segments *)

Lemma forallb_Norm s : forallb is_unreserved s = true -> Norm s.
Proof.
  induction s as [|b s IH]; simpl; [constructor|]. intros H. bool_to_prop.
  apply Norm_char; [by apply unreserved_pchar | auto].
Qed.

Lemma plain_segments_render segments segs out :
  Forall good_segment segs -> plain_segments (pop (render segs)) segments = Some out ->
  exists segs', Forall good_segment segs' /\ out = pop (render segs')
    /\ segs' = segs ++ segments.
Proof.
  revert segs out; induction segments as [|s rest IH]; intros segs out Hs; simpl.
  - intros [= <-]. exists segs. by rewrite app_nil_r.
  - destruct (bool_decide (s = []) || _ || _ || _) eqn:E; [done|]. bool_to_prop.
    assert (Hg : good_segment s) by (split; [by apply forallb_Norm | done]).
    assert (Epop : pop (render segs) ++ slash :: s = pop (render (segs ++ [s]))).
    { rewrite pop_render_snoc. destruct (render_last segs) as [body Hb].
      rewrite Hb, pop_snoc, <- app_assoc. done. }
    rewrite Epop. intros H'.
    assert (Hs' : Forall good_segment (segs ++ [s])).
    { apply Forall_app. split; [done|]. by apply Forall_singleton. }
    destruct (IH _ _ Hs' H') as (segs' & ? & ? & ->). exists ((segs ++ [s]) ++ rest).
    split; [done|]. split; [done|]. by rewrite <- app_assoc.
Qed.

Lemma from_plain_segments_shape segments out :
  from_plain_segments segments = Some out ->
  canonical_shape out /\ (segments = [] -> out = [slash]) /\
  (segments <> [] -> out = pop (render segments)).
Proof.
  unfold from_plain_segments. destruct (plain_segments [] segments) as [o|] eqn:E; [|done].
  change [] with (pop (render [])) in E at 1.
  destruct (plain_segments_render segments [] o) as (segs' & Hs & Ho & Heq); [constructor|done|].
  simpl in Heq. subst segs'. destruct segments as [|s segments _] using rev_ind.
  - subst o. simpl. intros [= <-]. split; [|done]. exists []. split; [constructor | by left].
  - rewrite pop_render_snoc in Ho. destruct (render_cons_app segments) as [body Hb].
    destruct o as [|b o]; [by rewrite Hb in Ho|]. intros [= <-]. rewrite Ho.
    assert (segments ++ [s] <> []) by (by destruct segments).
    split; [|split; [done | by rewrite pop_render_snoc]].
    exists (segments ++ [s]). split; [done|]. right. split; [done|]. by rewrite pop_render_snoc.
Qed.

(** ** Properties *)

(** The buffer implements the segment stack.  The one-pass loop with its
    output buffer, segment offset, truncations and backward search for `/`
    computes exactly what a stack of segments does: `` and `.` are dropped,
    `..` pops, anything else is pushed, and the last segment decides the
    trailing slash.  It fails exactly when the stack walk fails, with the same
    error. *)
Theorem canonical_path_refines_stack raw :
  canonical_path raw = result_map (fun '(segs, cur) => finish segs cur) (path_abs raw [] []).
Proof. apply canonical_path_abs. Qed.

(** Every accepted target is canonical.  Whatever the input, an accepted
    path is absolute, has no empty inner segment and no dot segment, contains
    no `?` or `#`, is `pchar` text whose escapes are upper case and never of an
    unreserved byte, and the query is sorted by key with both halves valid
    UTF-8: the assertions of the repository's own [invariants::check]. *)
Theorem canonical_target_invariants input t :
  parse input = Ok t ->
  invariants.path_ok (target_path t) = true /\ canonical_shape (target_path t) /\
  invariants.keys_sorted (target_query t) = true /\ Forall pair_utf8 (target_query t).
Proof.
  intros H. apply parse_ok in H as (Hp & Hs & Hu). split; [by apply shape_path_ok|].
  split; [done|]. split; [by apply keys_sorted_Sorted | done].
Qed.

(** C10: Canonicalization is idempotent on the wire.  For the standard form
    serializer, the URL the transport builds from an accepted target parses
    back to exactly that target, provided it fits the input bound; in
    particular every accepted path is a fixed point of [canonical_path]. *)
Theorem canonical_wire_roundtrip form_urlencoded input t :
  (forall l, form_urlencoded l = form_urlencoded_standard l) ->
  parse input = Ok t ->
  canonical_path (target_path t) = Ok (target_path t) /\
  (length (url_under form_urlencoded [] t) <= MAX_TARGET_BYTES ->
   parse (url_under form_urlencoded [] t) = Ok t /\ invariants.check form_urlencoded input = true).
Proof.
  intros Hf Hp. pose proof (parse_ok _ _ Hp) as Hok.
  split; [apply canonical_path_idempotent, Hok|].
  assert (E : url_under form_urlencoded [] t = url_under form_urlencoded_standard [] t).
  { unfold url_under. destruct (target_query t); [done|]. by rewrite Hf. }
  intros Hlen. assert (Hw : parse (url_under form_urlencoded [] t) = Ok t).
  { rewrite E in *. by apply parse_wire. }
  split; [done|]. unfold invariants.check. rewrite Hp, Hw.
  destruct Hok as (Hsh & Hs & _). apply keys_sorted_Sorted in Hs.
  rewrite shape_path_ok, Hs, bool_decide_eq_true_2 by done. done.
Qed.

(** The query keeps every pair.  The canonical query is a permutation of
    the decoded pairs, sorted by key, in which the pairs under each key keep
    the order the caller wrote them in. *)
Theorem canonical_query_stable raw l :
  canonical_query raw = Ok l ->
  exists pairs,
    collect_results parse_pair
      (List.filter (fun p => negb (bool_decide (p = []))) (split_bytes ampersand raw)) = Ok pairs /\
    l ≡ₚ pairs /\ Sorted key_le l /\
    forall k, List.filter (fun q => bool_decide (q.1 = k)) l
              = List.filter (fun q => bool_decide (q.1 = k)) pairs.
Proof.
  unfold canonical_query. destruct (collect_results _ _) as [pairs|]; [|done]. intros [= <-].
  exists pairs. split; [done|]. split; [apply sort_pairs_perm|].
  split; [apply sort_pairs_sorted | intros k; apply sort_pairs_stable].
Qed.

(** The plain-segment constructor makes canonical paths.  A path built from
    validated segments is exactly `/a/b/c` for those segments (`/` for none)
    and is a fixed point of the canonicalizer, so it is something [parse]
    could have produced. *)
Theorem from_plain_segments_canonical segments out :
  from_plain_segments segments = Some out ->
  canonical_path out = Ok out /\
  (segments <> [] -> out = mjoin (map (fun s => slash :: s) segments)).
Proof.
  intros H. apply from_plain_segments_shape in H as (Hsh & _ & Hr).
  split; [by apply canonical_path_idempotent|]. intros Hne. rewrite Hr by done. clear Hr Hsh.
  assert (Hj : forall l, render l = mjoin (map (fun s => slash :: s) l) ++ [slash]).
  { unfold render. induction l as [|s l IH]; simpl; [done|].
    simpl in IH. rewrite <- !app_assoc. by rewrite <- IH. }
  by rewrite Hj, pop_snoc.
Qed.

(** The input bound is not closed under canonicalization.  There is an
    accepted input whose own wire form is refused as too long, because escaping
    makes it grow past the bound; on such an input the repository's
    [invariants::check] panics. *)
Theorem canonical_form_may_exceed_bound :
  exists input t, parse input = Ok t /\
    parse (url_under form_urlencoded_standard [] t) = Err TooLong /\
    invariants.check form_urlencoded_standard input = false.
Proof.
  set (value := replicate 5500 (byte_of 34)).
  exists (as_bytes "/?a=" ++ value), {| target_path := [slash]; target_query := [([ch "a"], value)] |}.
  split; [vm_compute; reflexivity|]. split; vm_compute; reflexivity.
Qed.

(** ** Witnesses *)

Definition sample : list byte := as_bytes "//a/./b%2e%2E/../%41%2f x//?b=2&a=%20&b=1#frag".
Definition sample_target : CanonicalTarget :=
  {| target_path := as_bytes "/a/A%2F%20x/";
     target_query := [(as_bytes "a", as_bytes " "); (as_bytes "b", as_bytes "2"); (as_bytes "b", as_bytes "1")] |}.

Lemma canonical_target_invariants_witness : invariants.path_ok (target_path sample_target) = true.
Proof. apply (canonical_target_invariants sample). vm_compute. reflexivity. Defined.

Lemma canonical_wire_roundtrip_witness :
  parse (as_bytes "/a/A%2F%20x/?a=+&b=2&b=1") = Ok sample_target.
Proof.
  refine (proj1 (proj2 (canonical_wire_roundtrip form_urlencoded_standard sample sample_target
    (fun l => eq_refl) _) _)); [vm_compute; reflexivity|]. vm_compute. lia.
Defined.

Lemma canonical_query_stable_witness :
  List.filter (fun q => bool_decide (q.1 = as_bytes "b")) (target_query sample_target)
  = [(as_bytes "b", as_bytes "2"); (as_bytes "b", as_bytes "1")].
Proof.
  destruct (canonical_query_stable (as_bytes "b=2&a=%20&b=1") (target_query sample_target))
    as (pairs & Hp & _ & _ & H); [vm_compute; reflexivity|].
  rewrite H. vm_compute in Hp. injection Hp as <-. vm_compute. reflexivity.
Defined.

Lemma from_plain_segments_canonical_witness :
  canonical_path (as_bytes "/api/datasources") = Ok (as_bytes "/api/datasources").
Proof.
  apply (from_plain_segments_canonical [as_bytes "api"; as_bytes "datasources"]).
  vm_compute. reflexivity.
Defined.
