(* ===== verification/Jql.v ===== *)
(** * The JQL project-scope scanner (src/src/policy/extractors.rs, [jira])

    The scanner that decides which projects a JQL query is provably restricted
    to.  Tokens and scanning are the source's; an index into the token vector
    is the suffix of tokens from that index on, and an index into the text is
    the suffix of bytes.  The second half states what the scanner promises,
    against JQL's own lexical rules and a grammar of its expressions with
    their denotation; the scanner's tokens are the reader's, glued together
    where a symbol has no space around it. *)
From S2P Require Import Prelude RustStr.

(** ** Tokens and the lexer *)

Record Token := { text : string; quoted : bool }.

#[export] Instance Token_eq_dec : EqDecision Token.
Proof. solve_decision. Defined.

Definition MAX_JQL_BYTES : nat := 8 * 1024.
Definition MAX_JQL_TOKENS : nat := 512.

Definition push (tokens : list Token) (txt : list byte) (q : bool) : option (list Token) :=
  if (length tokens =? MAX_JQL_TOKENS)%nat then None
  else Some (tokens ++ [{| text := of_bytes txt; quoted := q |}]).

Definition is_quote (b : byte) : bool := (code b =? 34)%N || (code b =? 39)%N.

(** [=], [(], [)], [,] and [!]. *)
Definition is_structural (b : byte) : bool :=
  (code b =? 61)%N || (code b =? 40)%N || (code b =? 41)%N || (code b =? 44)%N || (code b =? 33)%N.

(** [u8::is_ascii_whitespace]: space, tab, LF, FF and CR. *)
Definition is_ascii_whitespace (b : byte) : bool :=
  (code b =? 32)%N || (code b =? 9)%N || (code b =? 10)%N || (code b =? 12)%N || (code b =? 13)%N.

(** [word_start] is the open word: the bytes from its start to the cursor. *)
Definition flush (tokens : list Token) (word : option (list byte)) : option (list Token) :=
  match word with
  | Some w => push tokens w false
  | None => Some tokens
  end.

Fixpoint lex_loop (fuel : nat) (bytes : list byte) (word : option (list byte))
    (tokens : list Token) : option (list Token) :=
  match fuel with
  | O => None
  | S fuel' =>
      match bytes with
      | [] => flush tokens word
      | byte :: rest =>
          if is_quote byte then
            tokens1 ← flush tokens word;
            match split_once_bytes byte rest with
            | None => None
            | Some (inside, after) =>
                tokens2 ← push tokens1 inside true;
                lex_loop fuel' after None tokens2
            end
          else if is_structural byte then
            tokens1 ← flush tokens word;
            tokens2 ← push tokens1 [byte] false;
            lex_loop fuel' rest None tokens2
          else if is_ascii_whitespace byte then
            tokens1 ← flush tokens word;
            lex_loop fuel' rest None tokens1
          else lex_loop fuel' rest (Some (default [] word ++ [byte])) tokens
      end
  end.

(** Every step consumes a byte, so one more unit of fuel than bytes is enough. *)
Definition lex_jql (jql : string) : option (list Token) :=
  let bytes := as_bytes jql in lex_loop (S (length bytes)) bytes None [].

(** ** Scanning *)

(** [!token.quoted && token.text == s]. *)
Definition bare (t : Token) (s : string) : bool := negb (quoted t) && String.eqb (text t) s.

(** [!token.quoted && token.text.eq_ignore_ascii_case(s)]. *)
Definition keyword (t : Token) (s : string) : bool :=
  negb (quoted t) && eq_ignore_ascii_case (text t) s.

Definition is_value (t : Token) : bool :=
  if quoted t then negb (str_is_empty (text t))
  else negb (str_is_empty (text t))
       && negb (String.eqb (text t) "(" || String.eqb (text t) ")" || String.eqb (text t) ","
                || String.eqb (text t) "=" || String.eqb (text t) "!").

(** The loop over [tokens.iter().enumerate()]; [previous] is
    [tokens.get(index - 1)]. *)
Fixpoint flat_from (previous : option Token) (tokens : list Token) : bool :=
  match tokens with
  | [] => true
  | token :: rest =>
      (if quoted token then true
       else if String.eqb (text token) "!" || eq_ignore_ascii_case (text token) "or"
               || eq_ignore_ascii_case (text token) "not" then false
       else if String.eqb (text token) "(" then is_some_and previous (fun p => keyword p "in")
       else true)
      && flat_from (Some token) rest
  end.

Definition is_flat_conjunction (tokens : list Token) : bool := flat_from None tokens.

(** The loop of [read_in_list] from just after the opening parenthesis: the
    tokens after the closing one, and the keys. *)
Fixpoint in_list_loop (tokens : list Token) (expecting_value : bool) (keys : list string)
    : option (list Token * list string) :=
  match tokens with
  | [] => None
  | token :: rest =>
      if bare token ")" then
        if expecting_value then None else Some (rest, keys)
      else if bare token "," then
        if expecting_value then None else in_list_loop rest true keys
      else if negb expecting_value then None
      else if negb (is_value token) then None
      else in_list_loop rest false (keys ++ [text token])
  end.

(** [tokens] starts at the token after [in]. *)
Definition read_in_list (tokens : list Token) (keys : list string)
    : option (list Token * list string) :=
  match tokens with
  | [] => None
  | open :: rest =>
      if quoted open || negb (String.eqb (text open) "(") then None
      else in_list_loop rest true keys
  end.

(** The [while index < tokens.len()] loop. *)
Fixpoint scan (fuel : nat) (tokens : list Token) (keys : list string) : option (list string) :=
  match fuel with
  | O => None
  | S fuel' =>
      match tokens with
      | [] => Some keys
      | token :: rest =>
          if negb (keyword token "project") then scan fuel' rest keys
          else
            match rest with
            | [] => None
            | operator :: rest2 =>
                if quoted operator then scan fuel' rest keys
                else if String.eqb (text operator) "=" then
                  match rest2 with
                  | [] => None
                  | value :: rest3 =>
                      if negb (is_value value) then None
                      else scan fuel' rest3 (keys ++ [text value])
                  end
                else if eq_ignore_ascii_case (text operator) "in" then
                  match read_in_list rest2 keys with
                  | None => None
                  | Some (after, keys') => scan fuel' after keys'
                  end
                else scan fuel' rest keys
            end
      end
  end.

Definition backslash : byte := byte_of 92.

Definition project_keys_from_jql (jql : string) : option (list string) :=
  if (MAX_JQL_BYTES <? str_len jql)%nat || existsb (beqb backslash) (as_bytes jql) then None
  else
    tokens ← lex_jql jql;
    if negb (is_flat_conjunction tokens) then None
    else
      keys ← scan (S (length tokens)) tokens [];
      match keys with [] => None | _ => Some keys end.

(** ** JQL as its reader lexes it

    The lexical grammar of the query language, independent of the scanner's:
    symbols end a word and need no space around them, and a backslash escapes
    the next character, in a quoted text and in a word.  What an escape stands
    for is left open, and so is whether two symbols side by side are one. *)

Definition word (s : string) : Token := {| text := s; quoted := false |}.
Definition quote (s : string) : Token := {| text := s; quoted := true |}.

Definition SYMBOLS : list string :=
  ["="; "!="; "!"; "~"; "!~"; "<"; "<="; ">"; ">="; "&"; "&&"; "|"; "||"; "("; ")"; ","].

(** A byte the scanner keeps in a word. *)
Definition plain (b : byte) : bool :=
  negb (is_quote b) && negb (is_structural b) && negb (is_ascii_whitespace b).

(** [~], [<], [>], [&] and [|]: in a word for the scanner, symbols to Jira. *)
Definition soft (b : byte) : bool :=
  (code b =? 126)%N || (code b =? 60)%N || (code b =? 62)%N || (code b =? 38)%N || (code b =? 124)%N.

Definition word_byte (b : byte) : bool := plain b && negb (soft b) && negb (beqb backslash b).

Definition inside (q b : byte) : bool := negb (beqb q b) && negb (beqb backslash b).

Inductive spells (ok : byte -> bool) : list byte -> list byte -> Prop :=
| spells_nil : spells ok [] []
| spells_byte b w t : ok b = true -> spells ok w t -> spells ok (b :: w) (b :: t)
| spells_escape b w meant t : spells ok w t -> spells ok (backslash :: b :: w) (meant ++ t).

(** A word ends where no byte of a word and no escape follows. *)
Definition stops (rest : list byte) : Prop :=
  match rest with [] => True | b :: _ => word_byte b = false /\ b <> backslash end.

Inductive jira_tokens : list byte -> list Token -> Prop :=
| jira_end : jira_tokens [] []
| jira_space b rest ts :
    is_ascii_whitespace b = true -> jira_tokens rest ts -> jira_tokens (b :: rest) ts
| jira_quoted q body t rest ts :
    is_quote q = true -> spells (inside q) body t -> jira_tokens rest ts ->
    jira_tokens (q :: body ++ q :: rest) (quote (of_bytes t) :: ts)
| jira_symbol s rest ts :
    s ∈ SYMBOLS -> jira_tokens rest ts -> jira_tokens (as_bytes s ++ rest) (word s :: ts)
| jira_word w t rest ts :
    w <> [] -> spells word_byte w t -> stops rest -> jira_tokens rest ts ->
    jira_tokens (w ++ rest) (word (of_bytes t) :: ts).

(** ** Words of the scanner as pieces of the reader's tokens *)

Definition word_token (t : Token) : Prop :=
  quoted t = false /\ as_bytes (text t) <> [] /\ forallb word_byte (as_bytes (text t)) = true.

Definition soft_token (t : Token) : Prop :=
  (quoted t = false /\ text t ∈ SYMBOLS) /\ as_bytes (text t) <> [] /\ forallb soft (as_bytes (text t)) = true.

Definition spelling (ps : list Token) : list byte := mjoin (map (fun t => as_bytes (text t)) ps).

(** Between two words there is a symbol. *)
Fixpoint pieces (ps : list Token) : Prop :=
  match ps with
  | [] => True
  | p :: rest =>
      (soft_token p \/ word_token p /\ match rest with q :: _ => soft_token q | [] => True end) /\ pieces rest
  end.

Definition hard (s : string) : bool :=
  String.eqb s "=" || String.eqb s "(" || String.eqb s ")" || String.eqb s ",".

(** [<=] and [>=] start in a word of the scanner and end in its [=]. *)
Definition comparison (b : byte) : bool := (code b =? 60)%N || (code b =? 62)%N.
Definition or_equal (b : byte) : Token := word (of_bytes [b; byte_of 61]).

(** The scanner's tokens, and the reader's. *)
Inductive glued : list Token -> list Token -> Prop :=
| glued_nil : glued [] []
| glued_quoted s C R : glued C R -> glued (quote s :: C) (quote s :: R)
| glued_hard s C R : hard s = true -> glued C R -> glued (word s :: C) (word s :: R)
| glued_word ps C R : ps <> [] -> pieces ps -> glued C R -> glued (word (of_bytes (spelling ps)) :: C) (ps ++ R)
| glued_or_equal ps b C R :
    pieces ps -> comparison b = true -> glued C R ->
    glued (word (of_bytes (spelling ps ++ [b])) :: word "=" :: C) (ps ++ or_equal b :: R).

(** The tokens from within an open word [w] on. *)
Definition opened (w bytes : list byte) (C R : list Token) : Prop :=
  exists ps bytes' C' R', bytes = spelling ps ++ bytes' /\ pieces ps /\ glued C' R' /\
    ((C = word (of_bytes (w ++ spelling ps)) :: C' /\ R = ps ++ R')
     \/ exists b, comparison b = true /\ C = word (of_bytes (w ++ spelling ps ++ [b])) :: word "=" :: C' /\ R = ps ++ or_equal b :: R').

Definition from_word (o : option (list byte)) (bytes : list byte) (C R : list Token) : Prop :=
  match o with None => glued C R | Some w => opened w bytes C R end.

Lemma lex_extends n bytes o acc C : lex_loop n bytes o acc = Some C -> acc `prefix_of` C.
Proof.
  assert (Hflush : forall o acc C, flush acc o = Some C -> acc `prefix_of` C).
  { intros [w|] a c; cbn; [|by intros [= ->]]. unfold push. destruct (_ =? _)%nat; [done|]. intros [= <-]. by apply prefix_app_r. }
  assert (Hpush : forall a t q c, push a t q = Some c -> a `prefix_of` c).
  { intros a t q c. unfold push. destruct (_ =? _)%nat; [done|]. intros [= <-]. by apply prefix_app_r. }
  revert bytes o acc; induction n as [|n IH]; intros bytes o acc; [done|]. cbn [lex_loop]. destruct bytes as [|b rest]; [apply Hflush|].
  destruct (is_quote b).
  { destruct (flush acc o) as [t1|] eqn:E1; [|done]. cbn. destruct (split_once_bytes b rest) as [[i after]|]; [|done].
    destruct (push t1 i true) as [t2|] eqn:E2; [|done]. cbn. intros H%IH. etrans; [by eapply Hflush|]. etrans; [by eapply Hpush|done]. }
  destruct (is_structural b).
  { destruct (flush acc o) as [t1|] eqn:E1; [|done]. cbn. destruct (push t1 [b] false) as [t2|] eqn:E2; [|done].
    cbn. intros H%IH. etrans; [by eapply Hflush|]. etrans; [by eapply Hpush|done]. }
  destruct (is_ascii_whitespace b); [|apply IH].
  destruct (flush acc o) as [t1|] eqn:E1; [|done]. cbn. intros H%IH. etrans; [by eapply Hflush|done].
Qed.

(** Plain bytes go into the open word. *)
Lemma lex_plain w n rest o acc C :
  forallb plain w = true -> w <> [] -> lex_loop n (w ++ rest) o acc = Some C ->
  exists m, lex_loop m rest (Some (default [] o ++ w)) acc = Some C.
Proof.
  revert n o; induction w as [|b w IH]; intros n o Hw Hne; [done|]. cbn in Hw. apply andb_true_iff in Hw as [Hb Hw].
  destruct n as [|n]; [done|]. cbn [app lex_loop]. unfold plain in Hb. bool_to_prop.
  repeat match goal with H : _ b = false |- _ => rewrite H; clear H end. intros H. destruct w as [|b' w].
  - exists n. done.
  - apply IH in H as [m Hm]; [|done|done]. exists m. etrans; [|exact Hm]. do 2 f_equal. cbn. by rewrite <- app_assoc.
Qed.

Lemma spells_plain ok w t : spells ok w t -> backslash ∉ w -> t = w /\ forallb ok w = true.
Proof.
  induction 1 as [|b w t Hb Hs IH|b w meant t Hs IH]; intros Hn; [done| |].
  - destruct IH as [-> Hw]; [set_solver|]. cbn. by rewrite Hb, Hw.
  - set_solver.
Qed.

(** One more piece in front. *)
Lemma piece_opened o p bytes C R :
  pieces [p] -> (word_token p -> stops bytes) ->
  opened (default [] o ++ as_bytes (text p)) bytes C R -> from_word o (as_bytes (text p) ++ bytes) C (p :: R).
Proof.
  intros [Hp _] Hstop (ps & bytes' & C' & R' & -> & Hps & HG & Hcase).
  assert (Hpp : pieces (p :: ps)).
  { split; [|done]. destruct Hp as [Hp|[Hp _]]; [by left|right; split; [done|]]. destruct ps as [|q ps]; [done|].
    destruct Hps as [[Hq|[(Hq & Hne & Hw) _]] _]; [done|]. specialize (Hstop Hp). cbn in Hstop.
    destruct (as_bytes (text q)) as [|b l]; [done|]. cbn in Hw, Hstop. apply andb_true_iff in Hw as [Hw _]. destruct Hstop. congruence. }
  destruct o as [w|]; cbn [from_word default] in *.
  - exists (p :: ps), bytes', C', R'. split; [by cbn; rewrite app_assoc|]. split; [done|]. split; [done|].
    destruct Hcase as [[-> ->]|(b & Hb & -> & ->)]; [left|right; exists b]; cbn; by rewrite <- !app_assoc.
  - destruct Hcase as [[-> ->]|(b & Hb & -> & ->)]; rewrite app_nil_l.
    + by apply (glued_word (p :: ps)).
    + change (as_bytes (text p) ++ spelling ps ++ [b]) with (as_bytes (text p) ++ (spelling ps ++ [b])).
      rewrite app_assoc. by apply (glued_or_equal (p :: ps)).
Qed.

Lemma symbol_cases s : s ∈ SYMBOLS ->
  (hard s = true /\ exists b, as_bytes s = [b] /\ is_structural b = true)
  \/ (exists l, as_bytes s = byte_of 33 :: l)
  \/ soft_token (word s)
  \/ exists b, comparison b = true /\ word s = or_equal b.
Proof.
  intros Hs. pose proof Hs as Hin. unfold SYMBOLS in Hs. repeat (apply elem_of_cons in Hs as [->|Hs]); [..|by apply elem_of_nil in Hs].
  all: try (left; split; [reflexivity|eexists; split; reflexivity]).
  all: try (right; left; eexists; reflexivity).
  all: try (right; right; left; split_and!; [reflexivity|exact Hin|discriminate|reflexivity]).
  - right; right; right. exists (byte_of 60). split; reflexivity.
  - right; right; right. exists (byte_of 62). split; reflexivity.
Qed.

Lemma structural_not_quote b : is_structural b = true -> is_quote b = false.
Proof.
  intros H. pose proof (byte_forall (fun b => negb (is_structural b) || negb (is_quote b))
    ltac:(vm_compute; reflexivity) b) as Hb. cbn in Hb. rewrite H in Hb. by apply negb_true_iff in Hb.
Qed.

Lemma space_not_special b : is_ascii_whitespace b = true -> is_quote b = false /\ is_structural b = false.
Proof.
  intros H. pose proof (byte_forall (fun b => negb (is_ascii_whitespace b) || negb (is_quote b) && negb (is_structural b))
    ltac:(vm_compute; reflexivity) b) as Hb. cbn in Hb. rewrite H in Hb. by apply andb_true_iff in Hb as [?%negb_true_iff ?%negb_true_iff].
Qed.

Lemma soft_plain b : soft b = true -> plain b = true /\ b <> backslash.
Proof.
  intros H. pose proof (byte_forall (fun b => negb (soft b) || plain b && negb (beqb b backslash))
    ltac:(vm_compute; reflexivity) b) as Hb. cbn in Hb. rewrite H in Hb. by apply andb_true_iff in Hb as [? ?%negb_true_iff%beqb_neq].
Qed.

Lemma word_plain b : word_byte b = true -> plain b = true /\ soft b = false.
Proof. unfold word_byte. intros H. by bool_to_prop. Qed.

Lemma comparison_soft b : comparison b = true -> soft b = true.
Proof. unfold comparison, soft. intros [->| ->]%orb_true_iff; [by rewrite orb_true_r|by rewrite !orb_true_r]. Qed.

Lemma piece_plain p : pieces [p] -> forallb plain (as_bytes (text p)) = true /\ as_bytes (text p) <> [].
Proof.
  intros [[(_ & Hne & Hp)|[(_ & Hne & Hp) _]] _]; (split; [|done]); rewrite forallb_forall in *; intros b Hb.
  - by apply soft_plain, Hp.
  - by apply word_plain, Hp.
Qed.

(** Closing the open word. *)
Lemma flush_reads acc o acc1 : flush acc o = Some acc1 -> exists F, acc1 = acc ++ F /\ forall bytes C R, glued C R -> from_word o bytes (F ++ C) R.
Proof.
  destruct o as [w|]; cbn.
  - unfold push. destruct (_ =? _)%nat; [done|]. intros [= <-]. eexists. split; [reflexivity|]. intros bytes C R HG.
    exists [], bytes, C, R. split; [done|]. split; [done|]. split; [done|]. left. cbn. by rewrite app_nil_r.
  - intros [= ->]. exists []. split; [by rewrite app_nil_r|]. done.
Qed.

Definition bang : Token := word "!".

(** The scanner's tokens of a text without a backslash are the reader's, glued
    where no space is, unless there is a [!]. *)
Lemma lex_reads bytes R : jira_tokens bytes R -> backslash ∉ bytes -> forall n o acc C,
  lex_loop n bytes o acc = Some C -> exists C', C = acc ++ C' /\ (bang ∈ C' \/ from_word o bytes C' R).
Proof.
  induction 1 as [|b rest R Hb HR IH|q body t rest R Hq Ht HR IH|s rest R Hs HR IH|w t rest R Hne Hw Hstop HR IH];
    intros Hback n o acc C Hlex.
  - destruct n as [|n]; [done|]. cbn in Hlex. apply flush_reads in Hlex as (F & -> & HF). exists F. split; [done|]. right.
    specialize (HF [] [] [] glued_nil). by rewrite app_nil_r in HF.
  - destruct n as [|n]; [done|]. cbn [lex_loop] in Hlex. destruct (space_not_special b Hb) as [H1 H2]. rewrite H1, H2, Hb in Hlex.
    destruct (flush acc o) as [acc1|] eqn:Ef; [|done]. cbn in Hlex. apply flush_reads in Ef as (F & -> & HF).
    apply IH in Hlex as (C' & -> & HC); [|set_solver]. exists (F ++ C'). rewrite app_assoc. split; [done|].
    destruct HC as [HC|HC]; [left; set_solver|right; by apply HF].
  - apply spells_plain in Ht as [-> Hin]; [|set_solver]. assert (Hqb : q ∉ body).
    { intros Hx%list_elem_of_In. rewrite forallb_forall in Hin. apply Hin in Hx. unfold inside in Hx. by rewrite beqb_refl in Hx. }
    destruct n as [|n]; [done|]. cbn [lex_loop] in Hlex. rewrite Hq in Hlex.
    destruct (flush acc o) as [acc1|] eqn:Ef; [|done]. apply flush_reads in Ef as (F & -> & HF).
    rewrite split_once_bytes_first in Hlex by done. cbn in Hlex. unfold push in Hlex. destruct (_ =? _)%nat; [done|]. cbn in Hlex.
    apply IH in Hlex as (C' & -> & HC); [|set_solver]. exists (F ++ quote (of_bytes body) :: C'). rewrite <- !app_assoc. split; [done|].
    destruct HC as [HC|HC]; [left; set_solver|right; apply HF; by constructor].
  - destruct (symbol_cases s Hs) as [(Hhard & b & Hsb & Hstr)|[(l & Hsb)|[Hsoft|(b & Hb & Heq)]]].
    + rewrite Hsb in *. destruct n as [|n]; [done|]. cbn [app lex_loop] in Hlex. rewrite (structural_not_quote b Hstr), Hstr in Hlex.
      destruct (flush acc o) as [acc1|] eqn:Ef; [|done]. apply flush_reads in Ef as (F & -> & HF).
      cbn in Hlex. unfold push in Hlex. destruct (_ =? _)%nat; [done|]. cbn in Hlex.
      apply IH in Hlex as (C' & -> & HC); [|set_solver]. exists (F ++ word s :: C'). rewrite <- !app_assoc. cbn [app].
      rewrite <- (of_as_bytes s) at 1. rewrite Hsb. split; [done|].
      destruct HC as [HC|HC]; [left; set_solver|right; apply HF; by constructor].
    + rewrite Hsb in Hlex. destruct n as [|n]; [done|]. cbn [app lex_loop] in Hlex.
      change (is_quote (byte_of 33)) with false in Hlex. change (is_structural (byte_of 33)) with true in Hlex. cbn iota in Hlex.
      destruct (flush acc o) as [acc1|] eqn:Ef; [|done]. apply flush_reads in Ef as (F & -> & HF).
      cbn in Hlex. unfold push in Hlex. destruct (_ =? _)%nat; [done|]. cbn in Hlex.
      apply lex_extends in Hlex as [k ->]. exists (F ++ bang :: k). rewrite <- !app_assoc. split; [done|]. left. set_solver.
    + assert (Hp : pieces [word s]) by (split; [by left|done]). destruct (piece_plain _ Hp) as [Hpl Hsne].
      apply lex_plain in Hlex as [m Hm]; [|done|done]. apply IH in Hm as (C' & -> & HC); [|set_solver].
      exists C'. split; [done|]. destruct HC as [HC|HC]; [by left|right].
      apply (piece_opened o (word s)); [done| |done]. intros (_ & _ & Hw). exfalso.
      destruct Hsoft as (_ & _ & Hsoft). change (text (word s)) with s in *. destruct (as_bytes s) as [|b l]; [done|]. cbn in Hw, Hsoft.
      apply andb_true_iff in Hw as [[_ Hw]%word_plain _], Hsoft as [Hsoft _]. congruence.
    + assert (Hsb : as_bytes s = [b; byte_of 61]).
      { change s with (text (word s)). rewrite Heq. apply as_of_bytes. }
      rewrite Hsb in *. cbn [app] in Hlex. change (b :: byte_of 61 :: rest) with ([b] ++ byte_of 61 :: rest) in Hlex.
      pose proof (comparison_soft b Hb) as Hso. destruct (soft_plain b Hso) as [Hpl _].
      apply lex_plain in Hlex as [m Hm]; [|cbn; by rewrite Hpl|done]. destruct m as [|m]; [done|].
      cbn [lex_loop] in Hm. change (is_quote (byte_of 61)) with false in Hm. change (is_structural (byte_of 61)) with true in Hm. cbn iota in Hm.
      destruct (flush acc _) as [acc1|] eqn:Ef; [|done]. cbn in Ef. unfold push in Ef. destruct (_ =? _)%nat; [done|]. injection Ef as <-.
      cbn in Hm. unfold push in Hm. destruct (_ =? _)%nat; [done|]. cbn in Hm. apply IH in Hm as (C' & -> & HC); [|set_solver].
      exists (word (of_bytes (default [] o ++ [b])) :: word "=" :: C'). rewrite <- !app_assoc. split; [done|].
      destruct HC as [HC|HC]; [left; set_solver|right]. rewrite Heq. destruct o as [w|]; cbn [from_word default].
      * exists [], ([b; byte_of 61] ++ rest), C', R. split; [done|]. split; [done|]. split; [done|]. right. by exists b.
      * by apply (glued_or_equal []).
  - apply spells_plain in Hw as [-> Hw]; [|set_solver]. set (p := word (of_bytes w)).
    assert (Htxt : as_bytes (text p) = w) by apply as_of_bytes.
    assert (Hp : word_token p) by (split_and!; [done|by rewrite Htxt|by rewrite Htxt]).
    assert (Hpp : pieces [p]) by (split; [right; split; done|done]). destruct (piece_plain _ Hpp) as [Hpl _].
    rewrite Htxt in Hpl. apply lex_plain in Hlex as [m Hm]; [|done|done]. apply IH in Hm as (C' & -> & HC); [|set_solver].
    exists C'. split; [done|]. destruct HC as [HC|HC]; [by left|right]. rewrite <- Htxt. apply piece_opened; [done|done|]. by rewrite Htxt.
Qed.

(** ** A grammar of JQL expressions

    Clauses over a field, combined with [AND], [OR], [NOT], their symbolic
    spellings and parentheses, with an optional [ORDER BY].  The grammar is
    ambiguous on purpose: the soundness theorem holds for every reading. *)

Definition and_word (t : Token) : bool := keyword t "and" || bare t "&&" || bare t "&".
Definition or_word (t : Token) : bool := keyword t "or" || bare t "||" || bare t "|".
Definition not_word (t : Token) : bool := keyword t "not" || bare t "!".

(** [&], [&&], [|] and [||]. *)
Definition junction_symbol (t : Token) : bool := bare t "&" || bare t "&&" || bare t "|" || bare t "||".

(** A field, a value, an operator that is a word. *)
Definition operand (t : Token) : bool :=
  negb (str_is_empty (text t)) && (quoted t || negb (bool_decide (text t ∈ SYMBOLS))).

(** What a query means: [Restrict] is a positive project clause, [Other] any
    clause about something else. *)
Inductive expr :=
| Restrict (keys : list string)
| Other (tokens : list Token)
| ENot (e : expr)
| EAnd (e1 e2 : expr)
| EOr (e1 e2 : expr).

Inductive value_list : list Token -> list string -> Prop :=
| values_one v : operand v = true -> value_list [v] [text v]
| values_more v comma rest keys :
    operand v = true -> bare comma "," = true -> value_list rest keys ->
    value_list (v :: comma :: rest) (text v :: keys).

Definition about_project (field : Token) (tokens : list Token) (keys : list string) : expr :=
  if keyword field "project" then Restrict keys else Other tokens.

(** An operator other than [=] and [in] ([~], [>], [is], [was in], ...). *)
Definition other_operator (op : list Token) : Prop :=
  Forall (fun t => keyword t "project" = false) op
  /\ exists o op', op = o :: op' /\ bare o "=" = false /\ keyword o "in" = false.

Inductive clause : list Token -> expr -> Prop :=
| clause_eq field o v :
    operand field = true -> bare o "=" = true -> operand v = true ->
    clause [field; o; v] (about_project field [field; o; v] [text v])
| clause_in field o lp vs rp keys :
    operand field = true -> keyword o "in" = true -> bare lp "(" = true -> value_list vs keys -> bare rp ")" = true ->
    clause (field :: o :: lp :: vs ++ [rp])
      (about_project field (field :: o :: lp :: vs ++ [rp]) keys)
| clause_op_value field op v :
    operand field = true -> other_operator op -> operand v = true ->
    clause (field :: op ++ [v]) (Other (field :: op ++ [v]))
| clause_op_word field op :
    operand field = true -> other_operator op -> (exists op' o, op = op' ++ [o] /\ operand o = true) ->
    clause (field :: op) (Other (field :: op))
| clause_op_list field op lp vs rp keys :
    operand field = true -> other_operator op -> bare lp "(" = true -> value_list vs keys -> bare rp ")" = true ->
    clause (field :: op ++ lp :: vs ++ [rp]) (Other (field :: op ++ lp :: vs ++ [rp]))
| clause_call field op f lp args rp :
    operand field = true -> operand f = true -> keyword f "in" = false -> bare lp "(" = true -> bare rp ")" = true ->
    clause (field :: op ++ f :: lp :: args ++ [rp]) (Other (field :: op ++ f :: lp :: args ++ [rp])).

Inductive parses : list Token -> expr -> Prop :=
| parses_clause ts e : clause ts e -> parses ts e
| parses_group lp ts rp e :
    bare lp "(" = true -> bare rp ")" = true -> parses ts e -> parses (lp :: ts ++ [rp]) e
| parses_not n ts e : not_word n = true -> parses ts e -> parses (n :: ts) (ENot e)
| parses_and t1 a t2 e1 e2 :
    and_word a = true -> parses t1 e1 -> parses t2 e2 -> parses (t1 ++ a :: t2) (EAnd e1 e2)
| parses_or t1 o t2 e1 e2 :
    or_word o = true -> parses t1 e1 -> parses t2 e2 -> parses (t1 ++ o :: t2) (EOr e1 e2).

Definition sort_key_token (t : Token) : Prop :=
  (operand t = true \/ bare t "," = true) /\ keyword t "in" = false.

Inductive query : list Token -> expr -> Prop :=
| query_plain ts e : parses ts e -> query ts e
| query_ordered ts e order by_ sorts :
    parses ts e -> keyword order "order" = true -> keyword by_ "by" = true ->
    Forall sort_key_token sorts -> query (ts ++ order :: by_ :: sorts) e.

Section Denotation.
Context {issue : Type} (in_project : issue -> string -> Prop) (other : list Token -> issue -> Prop).

Fixpoint sat (e : expr) (i : issue) : Prop :=
  match e with
  | Restrict keys => exists k, k ∈ keys /\ in_project i k
  | Other tokens => other tokens i
  | ENot e' => ~ sat e' i
  | EAnd e1 e2 => sat e1 i /\ sat e2 i
  | EOr e1 e2 => sat e1 i \/ sat e2 i
  end.
End Denotation.
(** ** Token facts *)

Lemma bare_iff t s : bare t s = true <-> quoted t = false /\ text t = s.
Proof. unfold bare. by rewrite andb_true_iff, negb_true_iff, String.eqb_eq. Qed.

(** A bare token is a keyword exactly when its text is. *)
Lemma bare_keyword t s k : bare t s = true -> keyword t k = eq_ignore_ascii_case s k.
Proof. rewrite bare_iff. unfold keyword. by intros [-> ->]. Qed.

Lemma bare_other t s s' : bare t s = true -> bare t s' = String.eqb s s'.
Proof. rewrite bare_iff. unfold bare. by intros [-> ->]. Qed.

Lemma keyword_lower t s k :
  keyword t s = true ->
  keyword t k = String.eqb (to_ascii_lowercase s) (to_ascii_lowercase k).
Proof.
  unfold keyword, eq_ignore_ascii_case. rewrite andb_true_iff, String.eqb_eq.
  by intros [-> ->].
Qed.

Lemma keyword_bare t s k : keyword t s = true -> bare t k = true -> eq_ignore_ascii_case k s = true.
Proof.
  rewrite bare_iff. unfold keyword. rewrite andb_true_iff. by intros [_ ?] [_ <-].
Qed.

Lemma keyword_not_bare t s k :
  eq_ignore_ascii_case k s = false -> keyword t s = true -> bare t k = false.
Proof. intros Hk Ht. destruct (bare t k) eqn:E; [|done]. by rewrite (keyword_bare t s k) in Hk. Qed.

Lemma and_facts a :
  keyword a "and" = true ->
  keyword a "project" = false /\ keyword a "in" = false /\ bare a "=" = false /\ bare a "(" = false.
Proof.
  intros H. rewrite !(keyword_lower _ _ _ H).
  by rewrite (keyword_not_bare a "and" "=" eq_refl H), (keyword_not_bare a "and" "(" eq_refl H).
Qed.

Lemma operand_value t : operand t = true -> is_value t = true.
Proof.
  unfold operand, is_value. intros [He Hs]%andb_true_iff. destruct (quoted t); [done|]. cbn in Hs.
  apply negb_true_iff, bool_decide_eq_false in Hs. rewrite He. cbn. apply negb_true_iff.
  repeat (apply orb_false_iff; split); apply String.eqb_neq; intros E; apply Hs; rewrite E; unfold SYMBOLS; set_solver.
Qed.

Lemma value_not_closing v : is_value v = true -> bare v ")" = false /\ bare v "," = false.
Proof.
  unfold is_value, bare. destruct (quoted v); [done|].
  intros H. bool_to_prop. cbn [negb andb]. done.
Qed.

(** ** The structural check *)

Lemma flat_from_app prev l1 a l2 :
  flat_from prev (l1 ++ a :: l2) = true ->
  flat_from prev l1 = true /\ flat_from (Some a) l2 = true
  /\ exists p, flat_from p [a] = true.
Proof.
  revert prev; induction l1 as [|t l1 IH]; intros prev; cbn [app flat_from].
  - rewrite andb_true_iff. intros [H ->]. split; [done|]. split; [done|].
    exists prev. by rewrite H.
  - rewrite !andb_true_iff. intros [-> (? & ? & ?)%IH]. eauto.
Qed.

Lemma flat_from_open prev lp l :
  flat_from prev (lp :: l) = true -> bare lp "(" = true ->
  exists p, prev = Some p /\ keyword p "in" = true.
Proof.
  rewrite bare_iff. intros H [Hq Ht]. cbn [flat_from] in H. rewrite Hq, Ht in H.
  apply andb_true_iff in H as [H _]. cbn in H. destruct prev as [p|]; [eauto|done].
Qed.

Lemma flat_from_word prev t :
  flat_from prev [t] = true ->
  keyword t "or" = false /\ keyword t "not" = false /\ bare t "!" = false.
Proof.
  unfold keyword, bare. cbn [flat_from]. rewrite andb_true_r. destruct (quoted t); [done|].
  intros H. case_in H; [done|]. by bool_to_prop.
Qed.

(** ** The scan over a parsed query *)

(** A token after which a bare [project] claims nothing. *)
Definition harmless (rest : list Token) : Prop :=
  match rest with [] => True | o :: _ => bare o "=" = false /\ keyword o "in" = false end.

(** [l] contributes no key when [rest] follows. *)
Fixpoint inert (l rest : list Token) : Prop :=
  match l with
  | [] => True
  | t :: l' => (keyword t "project" = true -> harmless (l' ++ rest)) /\ inert l' rest
  end.

Lemma scan_inert l rest n keys res :
  inert l rest -> scan n (l ++ rest) keys = Some res -> exists n', scan n' rest keys = Some res.
Proof.
  revert n; induction l as [|t l IH]; intros n; cbn [inert app]; [by eauto|].
  intros [Hh Hl]. destruct n as [|n]; [done|]. cbn [scan].
  destruct (keyword t "project") eqn:Et; cbn [negb]; [|by apply IH].
  specialize (Hh eq_refl). destruct (l ++ rest) as [|o l2] eqn:E; [done|].
  cbn [harmless] in Hh. unfold bare, keyword in Hh. destruct Hh as [H1 H2].
  destruct (quoted o); [by apply IH|].
  cbn [negb andb] in H1, H2. rewrite H1, H2. by apply IH.
Qed.

Lemma in_list_loop_values vs ks rp rest keys :
  value_list vs ks -> bare rp ")" = true ->
  in_list_loop (vs ++ rp :: rest) true keys = Some (rest, keys ++ ks).
Proof.
  intros Hvs Hrp. revert keys; induction Hvs as [v Hv|v c vs ks Hv Hc _ IH]; intros keys;
    cbn [app in_list_loop]; destruct (value_not_closing v (operand_value v Hv)) as [-> ->]; rewrite (operand_value v Hv); cbn [negb].
  - by rewrite Hrp.
  - rewrite (bare_other _ _ ")" Hc), Hc. cbn. rewrite IH, <- app_assoc. done.
Qed.

Lemma value_list_inert vs ks rp rest :
  value_list vs ks -> bare rp ")" = true -> inert (vs ++ [rp]) rest.
Proof.
  intros Hvs Hrp.
  induction Hvs as [v Hv|v c vs ks Hv Hc Hvs IH]; cbn [app inert harmless].
  - by rewrite (bare_other _ _ _ Hrp), !(bare_keyword _ _ _ Hrp).
  - rewrite (bare_other _ _ _ Hc), !(bare_keyword _ _ _ Hc). cbn. done.
Qed.

Lemma inert_app l1 l2 rest : inert l1 (l2 ++ rest) -> inert l2 rest -> inert (l1 ++ l2) rest.
Proof.
  induction l1 as [|t l1 IH]; cbn [inert app]; [done|].
  rewrite app_assoc. intros [? ?] ?. auto.
Qed.

Lemma inert_no_project l rest :
  Forall (fun t => keyword t "project" = false) l -> inert l rest.
Proof. induction 1 as [|t l Ht _ IH]; cbn [inert]; [done|]. rewrite Ht. done. Qed.

Lemma other_operator_inert field op l rest :
  other_operator op -> inert l rest -> inert (field :: op ++ l) rest.
Proof.
  intros [Hp (o & op' & -> & ? & ?)] Hl. split; [done|].
  apply inert_app; [by apply inert_no_project|done].
Qed.

(** ** The scan over glued tokens *)

Lemma inert_suffix l1 l2 rest : inert (l1 ++ l2) rest -> inert l2 rest.
Proof. induction l1 as [|t l1 IH]; cbn [app inert]; [done|]. intros [_ ?]. auto. Qed.

Lemma token_eta t q : quoted t = q -> {| text := of_bytes (as_bytes (text t)); quoted := q |} = t.
Proof. intros <-. rewrite of_as_bytes. by destruct t. Qed.

(** A case-blind class of bytes sees no difference between a keyword and its
    spelling. *)
Lemma keyword_bytes (f : byte -> bool) t k :
  (forall b, f (ascii_lower b) = f b) -> keyword t k = true -> forallb f (as_bytes (text t)) = forallb f (as_bytes k).
Proof.
  intros Hf. unfold keyword, eq_ignore_ascii_case, to_ascii_lowercase. intros [_ E%String.eqb_eq]%andb_true_iff.
  apply (f_equal as_bytes) in E. rewrite !as_of_bytes in E. revert E. generalize (as_bytes (text t)), (as_bytes k).
  induction l as [|b l IH]; intros [|c m]; try done. cbn [map forallb]. intros [= E1 E2]. rewrite (IH m E2). f_equal.
  by rewrite <- (Hf b), E1, Hf.
Qed.

Lemma word_byte_lower b : word_byte (ascii_lower b) = word_byte b.
Proof. apply Bool.eqb_prop. revert b. apply byte_forall. vm_compute. reflexivity. Qed.

Lemma keyword_word t k : keyword t k = true -> as_bytes k <> [] -> forallb word_byte (as_bytes k) = true -> word_token t.
Proof.
  intros Hk Hne Hw. pose proof (keyword_bytes word_byte t k word_byte_lower Hk) as E. rewrite Hw in E. split_and!; [|intros H0|done].
  - unfold keyword in Hk. by apply andb_true_iff in Hk as [?%negb_true_iff _].
  - unfold keyword, eq_ignore_ascii_case, to_ascii_lowercase in Hk. apply andb_true_iff in Hk as [_ Hk%String.eqb_eq].
    apply (f_equal as_bytes) in Hk. rewrite !as_of_bytes, H0 in Hk. by destruct (as_bytes k).
Qed.

Lemma soft_not_word t : soft_token t -> word_token t -> False.
Proof.
  intros (_ & Hne & Hs) (_ & _ & Hw). destruct (as_bytes (text t)) as [|b l]; [done|]. cbn in Hs, Hw.
  apply andb_true_iff in Hs as [Hs _], Hw as [[_ Hw]%word_plain _]. congruence.
Qed.

(** A spelling with word bytes only is one piece. *)
Lemma pieces_word ps : pieces ps -> ps <> [] -> forallb word_byte (spelling ps) = true -> exists p, ps = [p] /\ word_token p.
Proof.
  intros Hps Hne Hw. destruct ps as [|p ps]; [done|]. cbn in Hw. rewrite forallb_app in Hw. apply andb_true_iff in Hw as [Hp Hw].
  destruct Hps as [[(Hq & Hn & Hs)|[Hword Hnext]] Hps].
  - exfalso. apply (soft_not_word p); split_and!; naive_solver.
  - destruct ps as [|q ps]; [by exists p|]. exfalso. cbn in Hw. rewrite forallb_app in Hw. apply andb_true_iff in Hw as [Hw _].
    destruct Hnext as (? & ? & ?). apply (soft_not_word q); split_and!; naive_solver.
Qed.

Lemma word_spelling ps k : pieces ps -> ps <> [] -> keyword (word (of_bytes (spelling ps))) k = true -> forallb word_byte (as_bytes k) = true ->
  exists p, ps = [p] /\ word (of_bytes (spelling ps)) = p.
Proof.
  intros Hps Hne Hk Hw. pose proof (keyword_bytes word_byte _ k word_byte_lower Hk) as E. cbn [word text] in E.
  rewrite as_of_bytes, Hw in E. destruct (pieces_word ps Hps Hne E) as (p & -> & Hp). exists p. split; [done|]. cbn [spelling map mjoin].
  unfold mjoin. cbn. rewrite app_nil_r. apply token_eta. apply Hp.
Qed.

(** The word in front of [<=] is no keyword. *)
Lemma or_equal_word ps b k : comparison b = true -> forallb word_byte (as_bytes k) = true -> keyword (word (of_bytes (spelling ps ++ [b]))) k = false.
Proof.
  intros Hb Hw. destruct (keyword _ k) eqn:Hk; [|done]. pose proof (keyword_bytes word_byte _ k word_byte_lower Hk) as E. cbn [word text] in E.
  rewrite as_of_bytes, Hw, forallb_app in E. apply andb_true_iff in E as [_ E]. cbn in E. apply andb_true_iff in E as [[_ E]%word_plain _].
  apply comparison_soft in Hb. congruence.
Qed.

(** A word of the scanner is no symbol of its. *)
Lemma plain_not_structural b w s : plain b = true -> b ∈ w -> (forall c, c ∈ as_bytes s -> plain c = false) -> bare (word (of_bytes w)) s = false.
Proof.
  intros Hb Hw Hs. destruct (bare _ s) eqn:E; [|done]. apply bare_iff in E as [_ E]. cbn in E. subst s. rewrite as_of_bytes in Hs.
  specialize (Hs b Hw). congruence.
Qed.

Lemma piece_first ps : pieces ps -> ps <> [] -> exists b, plain b = true /\ b ∈ spelling ps.
Proof.
  intros Hps Hne. destruct ps as [|p ps]; [done|]. destruct (piece_plain p) as [Hp Hn].
  { split; [|done]. destruct Hps as [[?|[? _]] _]; [by left|by right]. }
  cbn. destruct (as_bytes (text p)) as [|b l]; [done|]. cbn in Hp. apply andb_true_iff in Hp as [Hp _]. exists b. split; [done|].
  apply elem_of_app. left. apply list_elem_of_here.
Qed.

Lemma equals_not_plain c : c ∈ as_bytes "=" -> plain c = false.
Proof. intros ->%list_elem_of_singleton. reflexivity. Qed.

Lemma glued_harmless C R rest : glued C R -> harmless (R ++ rest) -> harmless (C ++ rest).
Proof.
  destruct 1 as [|s C R HG|s C R Hs HG|ps C R Hne Hps HG|ps b C R Hps Hb HG]; [done..| |]; intros Hh; cbn [app harmless].
  - destruct (piece_first ps Hps Hne) as (b & Hb & Hin). split; [eapply plain_not_structural; eauto using equals_not_plain|].
    destruct (keyword _ "in") eqn:Hk; [|done]. destruct (word_spelling ps "in" Hps Hne Hk eq_refl) as (p & -> & Hp).
    cbn in Hh. rewrite Hp in Hk. destruct Hh. congruence.
  - split; [|by apply or_equal_word]. eapply (plain_not_structural b); [by apply soft_plain, comparison_soft| |apply equals_not_plain].
    apply elem_of_app. right. apply list_elem_of_here.
Qed.

Lemma glued_inert C R rest : glued C R -> inert R rest -> inert C rest.
Proof.
  induction 1 as [|s C R HG IH|s C R Hs HG IH|ps C R Hne Hps HG IH|ps b C R Hps Hb HG IH]; intros Hi; [done|..].
  - destruct Hi as [_ Hi]. split; [done|auto].
  - destruct Hi as [_ Hi]. split; [|auto]. unfold hard in Hs. intros Hk.
    repeat (apply orb_true_iff in Hs as [Hs|Hs]); apply String.eqb_eq in Hs; subst s; done.
  - split; [|apply IH; by eapply inert_suffix]. intros Hk.
    destruct (word_spelling ps "project" Hps Hne Hk eq_refl) as (p & -> & Hp). rewrite Hp in Hk.
    destruct Hi as [Hi _]. by apply (glued_harmless C R rest HG), Hi.
  - split; [by rewrite or_equal_word|]. split; [done|]. apply IH. apply (inert_suffix [or_equal b]). by apply (inert_suffix ps).
Qed.

(** A token that may be glued to its neighbours. *)
Definition sticky (t : Token) : Prop := soft_token t \/ exists b, comparison b = true /\ t = or_equal b.

Definition loose_head (ts : list Token) : Prop := forall t, head ts = Some t -> ~ sticky t.
Definition loose_last (ts : list Token) : Prop := forall t, last ts = Some t -> ~ sticky t.

Lemma sticky_symbol t : sticky t -> quoted t = false /\ text t ∈ SYMBOLS.
Proof.
  intros [[Ht _]|(b & Hb & ->)]; [done|]. split; [done|]. unfold comparison in Hb.
  pose proof (byte_forall (fun b => negb ((code b =? 60)%N || (code b =? 62)%N) || existsb (String.eqb (of_bytes [b; byte_of 61])) SYMBOLS)
    ltac:(vm_compute; reflexivity) b) as H. cbn beta in H. rewrite Hb in H. cbn [negb orb] in H.
  apply existsb_exists in H as (s & Hs & Heq%String.eqb_eq). cbn [or_equal text word]. rewrite Heq. by apply list_elem_of_In.
Qed.

Lemma operand_loose t : operand t = true -> ~ sticky t.
Proof.
  intros Ho [Hq Hs]%sticky_symbol. unfold operand in Ho. apply andb_true_iff in Ho as [_ Ho]. rewrite Hq in Ho. cbn in Ho.
  by apply negb_true_iff, bool_decide_eq_false in Ho.
Qed.

Lemma hard_loose s : hard s = true -> ~ sticky (word s) /\ ~ word_token (word s).
Proof.
  unfold hard. intros Hs. repeat (apply orb_true_iff in Hs as [Hs|Hs]); apply String.eqb_eq in Hs; subst s.
  all: split; [intros [(_ & _ & H)|(b & Hb & H)]; [done|by apply (f_equal (fun t => length (as_bytes (text t)))) in H]|by intros (_ & _ & H)].
Qed.

Lemma word_loose t : word_token t -> ~ sticky t.
Proof.
  intros Hw [Hs|(b & Hb & ->)]; [by eapply soft_not_word|]. destruct Hw as (_ & _ & Hw). cbn in Hw.
  apply andb_true_iff in Hw as [[_ Hw]%word_plain _]. apply comparison_soft in Hb. congruence.
Qed.

(** A word between loose neighbours is a token of the scanner. *)
Lemma pieces_alone l1 a l2 : pieces (l1 ++ a :: l2) -> word_token a -> loose_last l1 -> loose_head l2 -> l1 = [] /\ l2 = [].
Proof.
  intros Hp Ha H1 H2. split.
  - destruct l1 as [|x l1 _] using rev_ind; [done|]. exfalso. apply (H1 x); [by rewrite last_snoc|]. left. clear H1 H2.
    induction l1 as [|y l1 IH]; [|by apply IH; destruct Hp].
    destruct Hp as [[Hx|[_ Hx]] _]; [done|]. by destruct (soft_not_word a).
  - destruct l2 as [|x l2]; [done|]. exfalso. apply (H2 x); [done|]. left. clear H1 H2.
    induction l1 as [|y l1 IH]; [|by apply IH; destruct Hp].
    destruct Hp as [[Hx|[_ Hx]] _]; [by destruct (soft_not_word a)|done].
Qed.

Lemma single_spelling p : quoted p = false -> word (of_bytes (spelling [p])) = p.
Proof. intros Hq. unfold spelling, mjoin. cbn. rewrite app_nil_r. by apply token_eta. Qed.

Lemma loose_last_suffix l1 l2 : loose_last (l1 ++ l2) -> l2 <> [] -> loose_last l2.
Proof. intros H Hne t Ht. apply H. rewrite last_app. by rewrite Ht. Qed.

Lemma loose_last_tail l1 l2 : loose_last (l1 ++ l2) -> loose_last l2.
Proof. destruct l2; [by intros _ t|]. intros H. by apply (loose_last_suffix l1). Qed.

Lemma glued_split C R1 a R2 :
  glued C (R1 ++ a :: R2) -> word_token a -> loose_last R1 -> loose_head R2 ->
  exists C1 C2, C = C1 ++ a :: C2 /\ glued C1 R1 /\ glued C2 R2.
Proof.
  intros HG Ha H1 H2. remember (R1 ++ a :: R2) as R eqn:ER. revert R1 ER H1.
  induction HG as [|s C R HG IH|s C R Hs HG IH|ps C R Hne Hps HG IH|ps b C R Hps Hb HG IH]; intros R1 ER H1.
  - by destruct R1.
  - destruct R1 as [|x R1]; [injection ER as <- _; by destruct Ha as [[=] _]|]. injection ER as <- ER.
    destruct (IH R1 ER) as (C1 & C2 & -> & G1 & G2); [by apply (loose_last_tail [quote s])|].
    exists (quote s :: C1), C2. split_and!; [done|by constructor|done].
  - destruct R1 as [|x R1]; [injection ER as <- _; by destruct (hard_loose s Hs)|]. injection ER as <- ER.
    destruct (IH R1 ER) as (C1 & C2 & -> & G1 & G2); [by apply (loose_last_tail [word s])|].
    exists (word s :: C1), C2. split_and!; [done|by constructor|done].
  - apply app_eq_app in ER as (l & [[-> ER]|[-> ER]]).
    + destruct l as [|x l]; cbn in ER.
      * rewrite app_nil_r in Hne, Hps |- *. subst R. destruct (IH [] eq_refl) as (C1 & C2 & -> & G1 & G2); [by intros t|].
        exists (word (of_bytes (spelling R1)) :: C1), C2. split_and!; [done| |done]. inversion G1; subst.
        -- rewrite <- (app_nil_r R1) at 2. by constructor.
        -- by destruct ps.
        -- by destruct ps.
      * injection ER as <- ->. destruct (pieces_alone R1 a l Hps Ha H1) as [-> ->].
        { intros t Ht. apply H2. destruct l; [done|]. by cbn in Ht |- *. }
        cbn [app] in *. exists [], C. rewrite single_spelling by apply Ha. split_and!; [done|constructor|done].
    + destruct (IH l ER) as (C1 & C2 & -> & G1 & G2); [by apply (loose_last_tail ps)|].
      exists (word (of_bytes (spelling ps)) :: C1), C2. split_and!; [done|by constructor|done].
  - apply app_eq_app in ER as (l & [[-> ER]|[-> ER]]).
    + destruct l as [|x l]; cbn in ER.
      * injection ER as -> _. exfalso. apply (word_loose _ Ha). right. by exists b.
      * injection ER as <- ->. exfalso. destruct (pieces_alone R1 a l Hps Ha H1) as [-> ->].
        { intros t Ht. apply H2. destruct l; [done|]. by cbn in Ht |- *. }
        apply (H2 (or_equal b)); [done|]. right. by exists b.
    + destruct l as [|x l]; injection ER as <- ER; [exfalso; apply (word_loose _ Ha); right; by exists b|].
      destruct (IH l ER) as (C1 & C2 & -> & G1 & G2); [by apply (loose_last_tail [or_equal b]), (loose_last_tail ps)|].
      exists (word (of_bytes (spelling ps ++ [b])) :: word "=" :: C1), C2. split_and!; [done|by constructor|done].
Qed.

Lemma pieces_no_hard ps s : pieces ps -> hard s = true -> word s ∉ ps.
Proof.
  intros Hps Hs. destruct (hard_loose s Hs) as [H1 H2]. induction ps as [|p ps IH]; [set_solver|]. destruct Hps as [Hp Hps].
  intros [<-|Hin]%elem_of_cons; [|by apply IH]. destruct Hp as [Hp|[Hp _]]; [|done]. apply H1. by left.
Qed.

Lemma glued_split_hard C R1 s R2 :
  hard s = true -> glued C (R1 ++ word s :: R2) -> exists C1 C2, C = C1 ++ word s :: C2 /\ glued C1 R1 /\ glued C2 R2.
Proof.
  intros Hh HG. remember (R1 ++ word s :: R2) as R eqn:ER. revert R1 ER.
  induction HG as [|t C R HG IH|t C R Ht HG IH|ps C R Hne Hps HG IH|ps b C R Hps Hb HG IH]; intros R1 ER.
  - by destruct R1.
  - destruct R1 as [|x R1]; [done|]. injection ER as <- ER. destruct (IH R1 ER) as (C1 & C2 & -> & G1 & G2).
    exists (quote t :: C1), C2. split_and!; [done|by constructor|done].
  - destruct R1 as [|x R1]; [injection ER as -> ->; exists [], C; split_and!; [done|constructor|done]|].
    injection ER as <- ER. destruct (IH R1 ER) as (C1 & C2 & -> & G1 & G2).
    exists (word t :: C1), C2. split_and!; [done|by constructor|done].
  - apply app_eq_app in ER as (l & [[-> ER]|[-> ER]]).
    + destruct l as [|x l]; cbn in ER.
      * rewrite app_nil_r in Hne, Hps |- *. subst R. destruct (IH [] eq_refl) as (C1 & C2 & -> & G1 & G2).
        exists (word (of_bytes (spelling R1)) :: C1), C2. split_and!; [done| |done]. rewrite <- (app_nil_r R1) at 2.
        constructor; [done|done|]. done.
      * injection ER as <- ->. exfalso. apply (pieces_no_hard _ s Hps Hh). set_solver.
    + destruct (IH l ER) as (C1 & C2 & -> & G1 & G2).
      exists (word (of_bytes (spelling ps)) :: C1), C2. split_and!; [done|by constructor|done].
  - assert (Hno : or_equal b <> word s). { intros E. destruct (hard_loose s Hh) as [Hl _]. apply Hl. rewrite <- E. right. by exists b. }
    apply app_eq_app in ER as (l & [[-> ER]|[-> ER]]).
    + destruct l as [|x l]; cbn in ER; [exfalso; apply Hno; congruence|].
      injection ER as <- ->. exfalso. apply (pieces_no_hard _ s Hps Hh). set_solver.
    + destruct l as [|x l]; [exfalso; apply Hno; cbn in ER; congruence|].
      assert (x = or_equal b) as -> by (cbn in ER; congruence). assert (R = l ++ word s :: R2) as -> by (cbn in ER; congruence). destruct (IH l eq_refl) as (C1 & C2 & -> & G1 & G2).
      exists (word (of_bytes (spelling ps ++ [b])) :: word "=" :: C1), C2. split_and!; [done|by constructor|done].
Qed.

(** Without sticky tokens the scanner's tokens are the reader's. *)
Lemma glued_same C R : glued C R -> Forall (fun t => ~ sticky t) R -> C = R.
Proof.
  induction 1 as [|s C R HG IH|s C R Hs HG IH|ps C R Hne Hps HG IH|ps b C R Hps Hb HG IH]; intros HF; [done|..].
  - apply Forall_cons in HF as [_ HF]. by rewrite IH.
  - apply Forall_cons in HF as [_ HF]. by rewrite IH.
  - apply Forall_app in HF as [HF1 HF]. rewrite (IH HF). destruct ps as [|p ps]; [done|]. apply Forall_cons in HF1 as [Hp HF1].
    destruct Hps as [[Hp'|[Hw Hn]] _]; [destruct Hp; by left|]. destruct ps as [|q ps].
    + rewrite single_spelling by apply Hw. done.
    + apply Forall_cons in HF1 as [Hq _]. destruct Hq. by left.
  - apply Forall_app in HF as [_ [Hx _]%Forall_cons]. destruct Hx. right. by exists b.
Qed.

Lemma glued_nil_inv C : glued C [] -> C = [].
Proof. inversion 1 as [| | |ps ? ? ? ? ? E1 E2|ps ? ? ? ? ? ? E1 E2]; [done|by destruct ps..]. Qed.

(** Where the scanner's last token is [in], so is the reader's. *)
Lemma glued_last_in C R c : glued C R -> last C = Some c -> keyword c "in" = true -> exists r, last R = Some r /\ keyword r "in" = true.
Proof.
  intros HG. revert c. assert (Hnil : forall C R, glued C R -> R = [] -> C = []) by (intros ? ? ? ->; by apply glued_nil_inv).
  induction HG as [|s C R HG IH|s C R Hs HG IH|ps C R Hne Hps HG IH|ps b C R Hps Hb HG IH]; intros c Hc Hk; [done|..].
  - destruct C as [|x C]; [injection Hc as <-; done|]. destruct (IH c Hc Hk) as (r & Hr & ?). exists r. split; [|done].
    by destruct R.
  - destruct C as [|x C].
    + injection Hc as <-. unfold hard in Hs. repeat (apply orb_true_iff in Hs as [Hs|Hs]); apply String.eqb_eq in Hs; subst s; done.
    + destruct (IH c Hc Hk) as (r & Hr & ?). exists r. split; [|done]. by destruct R.
  - destruct C as [|x C].
    + injection Hc as <-. destruct (word_spelling ps "in" Hps Hne Hk eq_refl) as (p & -> & Hp). rewrite Hp in Hk.
      destruct R as [|y R]; [by exists p|]. inversion HG as [| | |qs ? ? ? ? ? E1 E2|qs ? ? ? ? ? ? E1 E2].
    + destruct (IH c Hc Hk) as (r & Hr & ?). exists r. split; [|done]. rewrite last_app. by rewrite Hr.
  - destruct C as [|x C]; [by injection Hc as <-|]. destruct (IH c Hc Hk) as (r & Hr & ?). exists r. split; [|done].
    rewrite last_app, last_cons. by rewrite Hr.
Qed.

Lemma glued_no_bang C R t : glued C R -> t ∈ R -> bare t "!" = false.
Proof.
  intros HG Ht. destruct (bare t "!") eqn:E; [|done]. exfalso. apply bare_iff in E as [Hq E].
  assert (Hp : forall p, soft_token p \/ word_token p -> p <> t).
  { intros p Hp ->. destruct Hp as [(_ & _ & Hp)|(_ & _ & Hp)]; by rewrite E in Hp. }
  induction HG as [|s C R HG IH|s C R Hs HG IH|ps C R Hne Hps HG IH|ps b C R Hps Hb HG IH].
  - by apply elem_of_nil in Ht.
  - apply elem_of_cons in Ht as [->|Ht]; [done|auto].
  - apply elem_of_cons in Ht as [->|Ht]; [|auto]. cbn in E. subst s. done.
  - apply elem_of_app in Ht as [Ht|Ht]; [|auto]. clear IH Hne. induction ps as [|p ps IHp]; [by apply elem_of_nil in Ht|].
    destruct Hps as [Hpp Hps]. apply elem_of_cons in Ht as [->|Ht]; [|auto]. apply (Hp p); [|done]. by destruct Hpp as [?|[? _]]; auto.
  - apply elem_of_app in Ht as [Ht|[->|Ht]%elem_of_cons]; [|by apply (f_equal (fun s => length (as_bytes s))) in E|auto].
    clear IH. induction ps as [|p ps IHp]; [by apply elem_of_nil in Ht|].
    destruct Hps as [Hpp Hps]. apply elem_of_cons in Ht as [->|Ht]; [|auto]. apply (Hp p); [|done]. by destruct Hpp as [?|[? _]]; auto.
Qed.
Section Sound.
Context {issue : Type} (in_project : issue -> string -> Prop) (other : list Token -> issue -> Prop).

(** [ks] bounds [e]: nothing is claimed, or every satisfying issue is in one
    of the projects. *)
Definition bounds (e : expr) (ks : list string) : Prop :=
  ks = [] \/ forall i, sat in_project other e i -> exists k, k ∈ ks /\ in_project i k.

(** Scanning [ts] claims a bound of [e] and goes on after it. *)
Definition scans (ts : list Token) (e : expr) : Prop :=
  forall rest n keys res, harmless rest -> scan n (ts ++ rest) keys = Some res ->
  exists n' ks, scan n' rest (keys ++ ks) = Some res /\ bounds e ks.

Lemma inert_scans ts e : (forall rest, harmless rest -> inert ts rest) -> scans ts e.
Proof.
  intros Hi rest n keys res Hr Hs. destruct (scan_inert ts rest n keys res) as [n' Hn]; auto.
  exists n', []. rewrite app_nil_r. split; [done|]. by left.
Qed.

Lemma clause_eq_scans field o v :
  bare o "=" = true -> is_value v = true ->
  scans [field; o; v] (about_project field [field; o; v] [text v]).
Proof.
  intros Ho Hv. unfold about_project. destruct (keyword field "project") eqn:Ef.
  - intros rest n keys res _ Hs. destruct n as [|n]; [done|]. apply bare_iff in Ho as [Hq Ht].
    cbn [app scan] in Hs. rewrite Ef, Hq, Ht, Hv in Hs. cbn in Hs.
    exists n, [text v]. split; [done|]. right. by intros i.
  - apply inert_scans. intros rest Hr. cbn [inert app]. rewrite Ef.
    rewrite (bare_keyword _ _ _ Ho). done.
Qed.

Lemma clause_in_scans field o lp vs rp ks :
  keyword o "in" = true -> bare lp "(" = true -> value_list vs ks -> bare rp ")" = true ->
  scans (field :: o :: lp :: vs ++ [rp]) (about_project field (field :: o :: lp :: vs ++ [rp]) ks).
Proof.
  intros Ho Hlp Hvs Hrp. unfold about_project. destruct (keyword field "project") eqn:Ef.
  - intros rest n keys res _ Hs. destruct n as [|n]; [done|].
    pose proof (keyword_not_bare o "in" "=" eq_refl Ho) as Heq.
    apply bare_iff in Hlp as [Hlq Hlt]. unfold keyword in Ho. unfold bare in Heq.
    apply andb_true_iff in Ho as [Hoq Hot]. rewrite Hoq in Heq. apply negb_true_iff in Hoq.
    cbn [app scan] in Hs. rewrite Ef, Hoq, Hot in Hs. cbn [negb andb] in Hs, Heq.
    rewrite Heq in Hs. unfold read_in_list in Hs. rewrite Hlq, Hlt in Hs. cbn [orb] in Hs.
    change (String.eqb "(" "(") with true in Hs. cbn [negb] in Hs.
    rewrite <- app_assoc in Hs. cbn [app] in Hs. rewrite (in_list_loop_values vs ks) in Hs by done.
    exists n, ks. split; [done|]. right. by intros i.
  - apply inert_scans. intros rest Hr. cbn [inert]. rewrite Ef.
    rewrite (keyword_lower _ _ _ Ho), (bare_keyword _ _ _ Hlp). cbn.
    split; [done|]. split; [done|]. split; [done|]. eapply value_list_inert; eauto.
Qed.

Lemma bare_word t s : bare t s = true -> t = word s.
Proof. intros [Hq Ht]%bare_iff. destruct t as [tt q]. cbn in *. by subst. Qed.

Lemma bare_loose t s : bare t s = true -> hard s = true -> ~ sticky t.
Proof. intros ->%bare_word Hs. by apply hard_loose. Qed.

Lemma values_loose vs ks : value_list vs ks -> Forall (fun t => ~ sticky t) vs.
Proof.
  induction 1 as [v Hv|v c vs ks Hv Hc _ IH]; repeat (apply Forall_cons; split); eauto using operand_loose, bare_loose.
Qed.

Lemma clause_scans prev C R e : clause R e -> glued C R -> flat_from prev C = true -> scans C e.
Proof.
  intros Hc HG Hf. destruct Hc as [field o v Hfi Ho Hv|field o lp vs rp ks Hfi Ho Hlp Hvs Hrp|field op v Hfi Hop Hv|field op Hfi Hop _
    |field op lp vs rp ks Hfi Hop Hlp Hvs Hrp|field op f lp args rp Hfi Hfu Hin Hlp Hrp].
  - rewrite (glued_same _ _ HG); [by apply clause_eq_scans, operand_value|].
    repeat (apply Forall_cons; split); eauto using operand_loose, bare_loose.
  - rewrite (glued_same _ _ HG); [by apply clause_in_scans|]. apply Forall_cons; split; [by apply operand_loose|].
    apply Forall_cons; split; [by eapply word_loose, keyword_word|]. apply Forall_cons; split; [by eapply bare_loose|].
    apply Forall_app. split; [by eapply values_loose|]. apply Forall_cons; split; [eauto using bare_loose|done].
  - apply inert_scans. intros rest Hr. apply (glued_inert _ _ _ HG). apply other_operator_inert; [done|]. cbn. done.
  - apply inert_scans. intros rest Hr. apply (glued_inert _ _ _ HG). rewrite <- (app_nil_r op). by apply other_operator_inert.
  - apply inert_scans. intros rest Hr. apply (glued_inert _ _ _ HG). apply other_operator_inert; [done|].
    split; [by rewrite (bare_keyword _ _ _ Hlp)|]. eapply value_list_inert; eauto.
  - exfalso. rewrite (bare_word _ _ Hlp) in HG. 
    replace (field :: op ++ f :: word "(" :: args ++ [rp]) with ((field :: op ++ [f]) ++ word "(" :: args ++ [rp]) in HG
      by (cbn; by rewrite <- app_assoc).
    apply glued_split_hard in HG as (C1 & C2 & -> & G1 & _); [|done]. destruct C1 as [|c C1 _] using rev_ind.
    { inversion G1 as [| | |ps ? ? ? ? ? E1 E2|ps ? ? ? ? ? ? E1 E2]. }
    rewrite <- app_assoc in Hf. apply flat_from_app in Hf as (_ & Hf & _).
    apply flat_from_open in Hf as (p & [= <-] & Hp); [|done].
    destruct (glued_last_in _ _ c G1) as (r & Hr & Hk); [by rewrite last_snoc|done|].
    rewrite app_comm_cons, last_snoc in Hr. injection Hr as <-. congruence.
Qed.

Lemma parses_ends R e : parses R e -> R <> [] /\ loose_head R /\ loose_last R.
Proof.
  induction 1 as [ts e Hc|lp ts rp e Hlp Hrp Hp IH|n ts e Hn Hp (Hne & _ & Hl)|t1 a t2 e1 e2 Ha Hp1 (Hn1 & Hh1 & _) Hp2 (Hn2 & _ & Hl2)
    |t1 o t2 e1 e2 Ho Hp1 (Hn1 & Hh1 & _) Hp2 (Hn2 & _ & Hl2)].
  - destruct Hc as [field o v Hfi Ho Hv|field o lp vs rp ks Hfi Ho Hlp Hvs Hrp|field op v Hfi Hop Hv|field op Hfi Hop (op' & w & -> & Hw)
    |field op lp vs rp ks Hfi Hop Hlp Hvs Hrp|field op f lp args rp Hfi Hfu Hin Hlp Hrp]; (split; [done|]);
      (split; [intros t [= <-]; by apply operand_loose|]); intros t Ht.
    + injection Ht as <-. by apply operand_loose.
    + rewrite !app_comm_cons, last_snoc in Ht. injection Ht as <-. by eapply bare_loose.
    + rewrite app_comm_cons, last_snoc in Ht. injection Ht as <-. by apply operand_loose.
    + rewrite app_comm_cons, last_snoc in Ht. injection Ht as <-. by apply operand_loose.
    + rewrite !app_comm_cons, app_assoc, last_snoc in Ht. injection Ht as <-. by eapply bare_loose.
    + rewrite (app_comm_cons args [rp] lp), (app_comm_cons (lp :: args) [rp] f), app_comm_cons, app_assoc, last_snoc in Ht.
      injection Ht as <-. by eapply bare_loose.
  - split; [done|]. split; [intros t [= <-]; by eapply bare_loose|]. intros t. rewrite app_comm_cons, last_snoc. intros [= <-].
    by eapply bare_loose.
  - split; [done|]. split.
    + intros t [= <-]. unfold not_word in Hn. apply orb_true_iff in Hn as [Hn|Hn]; [by eapply word_loose, keyword_word|].
      rewrite (bare_word _ _ Hn). intros [(_ & _ & H)|(b & Hb & H)]; [done|]. by apply (f_equal (fun t => length (as_bytes (text t)))) in H.
    + intros t. rewrite last_cons. destruct (last ts) as [x|] eqn:E; [|by apply last_None in E]. intros [= <-]. by apply Hl.
  - split; [by destruct t1|]. split; [intros t Ht; apply Hh1; by destruct t1|]. intros t. rewrite last_app, last_cons.
    destruct (last t2) as [x|] eqn:E; [|by apply last_None in E]. intros [= <-]. by apply Hl2.
  - split; [by destruct t1|]. split; [intros t Ht; apply Hh1; by destruct t1|]. intros t. rewrite last_app, last_cons.
    destruct (last t2) as [x|] eqn:E; [|by apply last_None in E]. intros [= <-]. by apply Hl2.
Qed.

Lemma parses_scans prev R e :
  parses R e -> forall C, glued C R -> flat_from prev C = true -> is_some_and prev (fun p => keyword p "in") = false ->
  Forall (fun t => junction_symbol t = false) R -> scans C e.
Proof.
  intros Hp. revert prev. induction Hp as
    [ts e Hc|lp ts rp e Hlp Hrp Hp IH|n ts e Hn Hp IH|t1 a t2 e1 e2 Ha Hp1 IH1 Hp2 IH2
    |t1 o t2 e1 e2 Ho Hp1 IH1 Hp2 IH2]; intros prev C HG Hf Hprev Hsym.
  - by eapply clause_scans.
  - exfalso. rewrite (bare_word _ _ Hlp) in HG. apply (glued_split_hard C [] "(") in HG as (C1 & C2 & -> & G1%glued_nil_inv & _); [|done].
    subst C1. cbn [app] in Hf. apply flat_from_open in Hf as (p & -> & Hin); [|done]. cbn in Hprev. congruence.
  - exfalso. unfold not_word in Hn. rewrite (glued_no_bang _ _ n HG), orb_false_r in Hn by apply list_elem_of_here.
    apply (glued_split C []) in HG as (C1 & C2 & -> & _ & _); [|by eapply keyword_word|by intros t|by eapply parses_ends].
    apply flat_from_app in Hf as (_ & _ & p & Hf). apply flat_from_word in Hf as (_ & Hnot & _). congruence.
  - apply Forall_app in Hsym as [Hsym1 [Hsa Hsym2]%Forall_cons]. unfold junction_symbol in Hsa.
    assert (Hand : keyword a "and" = true).
    { unfold and_word in Ha. rewrite !orb_false_iff in Hsa. rewrite !orb_true_iff in Ha. destruct Ha as [[Ha|Ha]|Ha]; [done|..]; exfalso; naive_solver congruence. }
    apply glued_split in HG as (C1 & C2 & -> & G1 & G2);
      [|by eapply keyword_word|by eapply parses_ends|by eapply parses_ends].
    apply flat_from_app in Hf as (Hf1 & Hf2 & _).
    destruct (and_facts a Hand) as (Hproj & Hin & Heq & Hopen).
    specialize (IH1 _ _ G1 Hf1 Hprev Hsym1). specialize (IH2 _ _ G2 Hf2 Hin Hsym2).
    intros rest m keys res Hr Hs. rewrite <- app_assoc in Hs.
    destruct (IH1 ((a :: C2) ++ rest) m keys res) as (m1 & ks1 & Hs1 & Hb1); [done|done|].
    destruct m1 as [|m1]; [done|]. cbn [app scan] in Hs1. rewrite Hproj in Hs1.
    destruct (IH2 rest m1 _ _ Hr Hs1) as (m2 & ks2 & Hs2 & Hb2).
    exists m2, (ks1 ++ ks2). rewrite app_assoc. split; [done|].
    destruct Hb1 as [->|Hb1]; [destruct Hb2 as [->|Hb2]; [by left|]|]; right; intros i [? ?].
    + by apply Hb2.
    + destruct (Hb1 i) as (k & ? & ?); [done|]. exists k. set_solver.
  - exfalso. apply Forall_app in Hsym as [_ [Hso _]%Forall_cons]. unfold junction_symbol in Hso.
    assert (Hor : keyword o "or" = true).
    { unfold or_word in Ho. rewrite !orb_false_iff in Hso. rewrite !orb_true_iff in Ho. destruct Ho as [[Ho|Ho]|Ho]; [done|..]; exfalso; naive_solver congruence. }
    apply glued_split in HG as (C1 & C2 & -> & G1 & G2);
      [|by eapply keyword_word|by eapply parses_ends|by eapply parses_ends].
    apply flat_from_app in Hf as (_ & _ & p & Hf). apply flat_from_word in Hf as (Hno & _ & _). congruence.
Qed.

Lemma sorts_inert sorts : Forall sort_key_token sorts -> inert sorts [].
Proof.
  induction 1 as [|t l Ht Hl IH]; cbn [inert]; [done|]. rewrite app_nil_r. split; [|done].
  intros _. destruct Hl as [|t' l [Ho Hi] _]; [done|]. cbn. split; [|done]. destruct Ho as [Ho|Ho].
  - apply operand_value in Ho. unfold is_value in Ho. unfold bare. destruct (quoted t'); [done|]. by bool_to_prop.
  - by rewrite (bare_other _ _ _ Ho).
Qed.

Lemma query_scans C R e n keys :
  query R e -> glued C R -> is_flat_conjunction C = true -> Forall (fun t => junction_symbol t = false) R ->
  scan n C [] = Some keys -> bounds e keys.
Proof.
  intros Hq HG Hf Hsym Hs. destruct Hq as [R e Hp|R e order by_ sorts Hp Ho Hby Hsorts].
  - destruct (parses_scans None R e Hp C HG Hf eq_refl Hsym [] n [] keys) as (n' & ks & Hn & Hb);
      [done|by rewrite app_nil_r|]. destruct n'; [done|]. injection Hn as <-. done.
  - apply glued_split in HG as (C1 & C2 & -> & G1 & G2);
      [|by eapply keyword_word|by eapply parses_ends|intros t [= <-]; by eapply word_loose, keyword_word].
    apply glued_same in G2 as ->.
    2:{ apply Forall_cons; split; [by eapply word_loose, keyword_word|]. eapply Forall_impl; [exact Hsorts|].
        intros t [[Ht|Ht] _]; [by apply operand_loose|by eapply bare_loose]. }
    apply flat_from_app in Hf as (Hf & _). apply Forall_app in Hsym as [Hsym _].
    destruct (parses_scans None R e Hp C1 G1 Hf eq_refl Hsym (order :: by_ :: sorts) n [] keys)
      as (n' & ks & Hn & Hb).
    + cbn. by rewrite (keyword_not_bare order "order" "=" eq_refl Ho), (keyword_lower _ _ _ Ho).
    + done.
    + destruct (scan_inert (order :: by_ :: sorts) [] n' ks keys) as [n2 Hn2].
      * cbn [inert]. rewrite (keyword_lower _ _ _ Ho), (keyword_lower _ _ _ Hby). cbn.
        split; [done|]. split; [done|]. by apply sorts_inert.
      * by rewrite app_nil_r.
      * destruct n2; [done|]. injection Hn2 as <-. done.
Qed.
End Sound.

Lemma no_backslash jql : existsb (beqb backslash) (as_bytes jql) = false -> backslash ∉ as_bytes jql.
Proof.
  intros Hb Hin. enough (existsb (beqb backslash) (as_bytes jql) = true) by congruence.
  apply existsb_exists. exists backslash. split; [by apply list_elem_of_In|apply beqb_refl].
Qed.

(** A text whose tokens pass the structural check is lexed as it is read, up
    to glue. *)
Lemma lexed_glued jql C R :
  jira_tokens (as_bytes jql) R -> backslash ∉ as_bytes jql -> lex_jql jql = Some C -> is_flat_conjunction C = true -> glued C R.
Proof.
  intros HR Hb Hl Hf. unfold lex_jql in Hl. destruct (lex_reads _ _ HR Hb _ _ _ _ Hl) as (C' & -> & [Hbang|HG]); [|done].
  exfalso. cbn [app] in Hf. apply list_elem_of_split in Hbang as (l1 & l2 & ->). apply flat_from_app in Hf as (_ & _ & p & Hf).
  apply flat_from_word in Hf as (_ & _ & Hf). by vm_compute in Hf.
Qed.

(** ** Fuel *)

Lemma split_once_bytes_length sep l before after :
  split_once_bytes sep l = Some (before, after) -> length after < length l.
Proof.
  revert before; induction l as [|b l IH]; intros before H; cbn in H; [done|].
  case_in H; [injection H as <- <-; cbn; lia|].
  destruct (split_once_bytes sep l) as [[x y]|]; [|done]. injection H as <- <-.
  specialize (IH _ eq_refl). cbn. lia.
Qed.

Lemma lex_loop_fuel n m bytes word tokens :
  length bytes < n -> length bytes < m -> lex_loop n bytes word tokens = lex_loop m bytes word tokens.
Proof.
  revert m bytes word tokens; induction n as [|n IH]; intros [|m] [|b bytes] word tokens Hn Hm;
    cbn [length] in *; try lia; [done|]. cbn [lex_loop].
  destruct (is_quote b).
  { destruct (flush tokens word) as [t1|]; [|done]. cbn.
    destruct (split_once_bytes b bytes) as [[inside after]|] eqn:E; [|done].
    apply split_once_bytes_length in E. destruct (push t1 inside true); [|done]. cbn. apply IH; lia. }
  destruct (is_structural b).
  { destruct (flush tokens word) as [t1|]; [|done]. cbn. destruct (push t1 [b] false); [|done].
    cbn. apply IH; lia. }
  destruct (is_ascii_whitespace b); [destruct (flush tokens word); [|done]; cbn|]; apply IH; lia.
Qed.

Lemma in_list_loop_length tokens expecting keys rest keys' :
  in_list_loop tokens expecting keys = Some (rest, keys') -> length rest < length tokens.
Proof.
  revert expecting keys; induction tokens as [|t tokens IH]; intros expecting keys; cbn; [done|].
  repeat case_goal; try done; intros H; try (apply IH in H; lia). injection H as -> ->. lia.
Qed.

Lemma scan_fuel n m tokens keys :
  length tokens < n -> length tokens < m -> scan n tokens keys = scan m tokens keys.
Proof.
  revert m tokens keys; induction n as [|n IH]; intros [|m] [|t tokens] keys Hn Hm;
    cbn [length] in *; try lia; [done|]. cbn [scan].
  destruct (keyword t "project"); cbn [negb]; [|apply IH; lia].
  destruct tokens as [|o rest]; [done|]. cbn [length] in *.
  destruct (quoted o); [apply IH; cbn; lia|].
  destruct (String.eqb (text o) "=").
  { destruct rest as [|v rest]; [done|]. cbn [length] in *.
    destruct (is_value v); [|done]. apply IH; lia. }
  destruct (eq_ignore_ascii_case (text o) "in"); [|apply IH; cbn; lia].
  destruct (read_in_list rest keys) as [[after keys']|] eqn:E; [|done].
  destruct rest as [|lp rest]; [done|]. cbn [read_in_list] in E. case_in E; [done|].
  apply in_list_loop_length in E. cbn [length] in *. apply IH; lia.
Qed.

(** ** Printing tokens *)

Definition dquote : byte := byte_of 34.

Definition print_token (t : Token) : list byte :=
  (if quoted t then dquote :: as_bytes (text t) ++ [dquote] else as_bytes (text t)) ++ [byte_of 32].

Definition print_tokens (ts : list Token) : string := of_bytes (mjoin (map print_token ts)).

(** A token as the lexer produces it: a quoted text without a double quote, a
    structural character, or a non-empty word. *)
Definition lexeme (t : Token) : Prop :=
  if quoted t then dquote ∉ as_bytes (text t)
  else (exists b, as_bytes (text t) = [b] /\ is_structural b = true)
       \/ (as_bytes (text t) <> [] /\ Forall (fun b => plain b = true) (as_bytes (text t))).

Lemma lex_word w n rest acc tokens :
  Forall (fun b => plain b = true) w ->
  lex_loop (length w + n) (w ++ rest) (Some acc) tokens = lex_loop n rest (Some (acc ++ w)) tokens.
Proof.
  intros Hw; revert acc; induction Hw as [|b w Hb _ IH]; intros acc; cbn; [by rewrite app_nil_r|].
  unfold plain in Hb. bool_to_prop.
  repeat match goal with H : _ b = false |- _ => rewrite H; clear H end.
  rewrite IH, <- app_assoc. done.
Qed.

Lemma push_room tokens txt q :
  length tokens < MAX_JQL_TOKENS -> push tokens txt q = Some (tokens ++ [{| text := of_bytes txt; quoted := q |}]).
Proof. intros H. unfold push. destruct (Nat.eqb_spec (length tokens) MAX_JQL_TOKENS); [lia|done]. Qed.

Lemma lex_space n rest tokens :
  lex_loop (S n) (byte_of 32 :: rest) None tokens = lex_loop n rest None tokens.
Proof. reflexivity. Qed.

Lemma lex_quoted n w rest tokens :
  dquote ∉ w -> length tokens < MAX_JQL_TOKENS ->
  lex_loop (S n) (dquote :: w ++ dquote :: rest) None tokens
  = lex_loop n rest None (tokens ++ [{| text := of_bytes w; quoted := true |}]).
Proof.
  intros Hw Hroom. change (lex_loop (S n) (dquote :: w ++ dquote :: rest) None tokens) with
    (match split_once_bytes dquote (w ++ dquote :: rest) with
     | None => None
     | Some (inside, after) =>
         tokens2 ← push tokens inside true; lex_loop n after None tokens2
     end).
  rewrite split_once_bytes_first, push_room by done. reflexivity.
Qed.

Lemma lex_structural n b rest tokens :
  is_structural b = true -> length tokens < MAX_JQL_TOKENS ->
  lex_loop (S n) (b :: rest) None tokens
  = lex_loop n rest None (tokens ++ [{| text := of_bytes [b]; quoted := false |}]).
Proof.
  intros Hb Hroom. cbn [lex_loop]. rewrite (structural_not_quote b Hb), Hb.
  cbn [flush mbind option_bind]. rewrite push_room by done. reflexivity.
Qed.

Lemma lex_whole_word n b w rest tokens :
  Forall (fun b => plain b = true) (b :: w) -> length tokens < MAX_JQL_TOKENS ->
  lex_loop (S (length w + S n)) (b :: w ++ byte_of 32 :: rest) None tokens
  = lex_loop n rest None (tokens ++ [{| text := of_bytes (b :: w); quoted := false |}]).
Proof.
  intros [Hb Hw]%Forall_cons Hroom.
  transitivity (lex_loop (length w + S n) (w ++ byte_of 32 :: rest) (Some [b]) tokens).
  - unfold plain in Hb. bool_to_prop. cbn [lex_loop].
    repeat match goal with H : _ b = false |- _ => rewrite H; clear H end. reflexivity.
  - rewrite lex_word by done.
    change ((tokens1 ← push tokens (b :: w) false; lex_loop n rest None tokens1)
            = lex_loop n rest None (tokens ++ [{| text := of_bytes (b :: w); quoted := false |}])).
    rewrite push_room by done. reflexivity.
Qed.

(** One printed token, with room for it, is lexed as that token. *)
Lemma lex_print_token t rest n tokens :
  lexeme t -> length tokens < MAX_JQL_TOKENS -> length (print_token t ++ rest) < n ->
  lex_loop n (print_token t ++ rest) None tokens
  = lex_loop (S (length rest)) rest None (tokens ++ [t]).
Proof.
  intros Ht Hroom Hn. unfold lexeme, print_token in *. destruct (quoted t) eqn:Eq.
  - rewrite <- (token_eta t true Eq) at 2.
    rewrite (lex_loop_fuel n (S (S (S (S (length rest + length (as_bytes (text t)))))))) by
      (revert Hn; rewrite ?length_app; cbn [length]; rewrite ?length_app; cbn [length]; lia).
    rewrite <- app_assoc. cbn [app]. rewrite <- app_assoc. cbn [app].
    rewrite lex_quoted, lex_space by done. apply lex_loop_fuel; lia.
  - rewrite <- (token_eta t false Eq) at 2. destruct Ht as [(b & Hb & Hs)|[Hne Hp]].
    + rewrite Hb in *. rewrite (lex_loop_fuel n (S (S (S (length rest))))) by
        (revert Hn; cbn [app length]; lia).
      cbn [app]. by rewrite lex_structural, lex_space.
    + destruct (as_bytes (text t)) as [|b w]; [done|].
      rewrite (lex_loop_fuel n (S (length w + S (S (length rest))))) by
        (revert Hn; rewrite ?length_app; cbn [length]; lia).
      rewrite <- app_assoc. cbn [app]. by rewrite lex_whole_word.
Qed.

Lemma lex_print_tokens ts n tokens :
  Forall lexeme ts -> length tokens + length ts <= MAX_JQL_TOKENS ->
  length (mjoin (map print_token ts)) < n ->
  lex_loop n (mjoin (map print_token ts)) None tokens = Some (tokens ++ ts).
Proof.
  intros Hts; revert n tokens; induction Hts as [|t ts Ht _ IH]; intros n tokens Hlen Hn; cbn in *.
  - destruct n; [lia|]. cbn. by rewrite app_nil_r.
  - rewrite lex_print_token by (done || lia).
    rewrite IH; [by rewrite <- app_assoc|rewrite length_app; cbn; lia|apply Nat.lt_succ_diag_r].
Qed.

(** ** Claims *)

(** C32: The project claim of a JQL query is sound.  When the scanner claims
    [keys] of a text, then for every way to lex the text by JQL's own rules
    (symbols with or without spaces around them, escapes in quoted texts and
    words), and every reading of those tokens in the JQL grammar - any nesting
    of AND, OR, NOT and parentheses, any meaning of the clauses that are not
    project clauses - an issue that satisfies the query is in one of the
    claimed projects.  The one hypothesis on the text is that it spells its
    conjunctions and disjunctions as words: none of the symbols [&], [&&], [|]
    and [||] outside quotes. *)
Theorem jql_claim_sound {issue : Type} (in_project : issue -> string -> Prop)
    (other : list Token -> issue -> Prop) jql tokens keys e i :
  project_keys_from_jql jql = Some keys -> jira_tokens (as_bytes jql) tokens ->
  Forall (fun t => junction_symbol t = false) tokens -> query tokens e ->
  sat in_project other e i -> exists k, k ∈ keys /\ in_project i k.
Proof.
  unfold project_keys_from_jql. intros Hk Hread Hsym Hq Hs. case_in Hk; [done|]. apply orb_false_iff in Heqb as [_ Hback].
  destruct (lex_jql jql) as [C|] eqn:Hl; [|done]. cbn [mbind option_bind] in Hk. case_in Hk; [done|]. apply negb_false_iff in Heqb.
  destruct (scan _ C []) as [ks|] eqn:Es; [|done].
  assert (HG : glued C tokens) by (eapply lexed_glued; eauto using no_backslash).
  destruct (query_scans in_project other C tokens e _ ks Hq HG Heqb Hsym Es) as [->|Hb]; [done|].
  destruct ks as [|k ks]; [done|]. injection Hk as <-. by apply Hb.
Qed.

(** A query and a reading of it, for the examples. *)
Ltac reads_as ts :=
  lazymatch ts with
  | [] => apply jira_end
  | _ => first
      [ apply jira_space; [reflexivity|reads_as ts]
      | lazymatch ts with
        | ?t :: ?rest =>
            lazymatch eval cbv in (quoted t) with
            | true => lazymatch goal with |- jira_tokens (?q :: _) _ =>
                let body := eval cbv in (as_bytes (text t)) in
                apply (jira_quoted q body body); [reflexivity|repeat (constructor; [reflexivity|]); constructor|reads_as rest] end
            | false => first
                [ apply (jira_symbol (text t)); [apply (bool_decide_unpack _); vm_compute; exact I|reads_as rest]
                | let w := eval cbv in (as_bytes (text t)) in
                  apply (jira_word w w); [discriminate|repeat (constructor; [reflexivity|]); constructor|vm_compute; done|reads_as rest] ]
            end
        end ]
  end.

(** Without that hypothesis the claim is not sound: JQL also spells OR as
    [||], which the structural check does not refuse.  The query
    [project = PUBLIC || status = Open] is claimed as restricted to PUBLIC,
    and an open issue of project SECRET satisfies it. *)
Theorem jql_claim_admits_pipe_or :
  let jql := "project = PUBLIC || status = Open" in
  project_keys_from_jql jql = Some ["PUBLIC"] /\
  exists tokens e, jira_tokens (as_bytes jql) tokens /\ query tokens e /\
    sat (fun (i k : string) => i = k) (fun _ _ => True) e "SECRET".
Proof.
  split; [vm_compute; reflexivity|].
  exists [word "project"; word "="; word "PUBLIC"; word "||"; word "status"; word "="; word "Open"]. eexists. split; [|split].
  - vm_compute as_bytes. reads_as [word "project"; word "="; word "PUBLIC"; word "||"; word "status"; word "="; word "Open"].
  - apply query_plain.
    apply (parses_or [word "project"; word "="; word "PUBLIC"]
             (word "||")
             [word "status"; word "="; word "Open"]);
      [done|apply parses_clause, clause_eq; done..].
  - right. cbn. exact I.
Qed.

(** Nor is it with [&&] and no space: the claimed key takes the symbol and the
    next field with it, and names no project the query is restricted to. *)
Theorem jql_claim_swallows_symbol :
  let jql := "project = SECRET&&status = Open" in
  project_keys_from_jql jql = Some ["SECRET&&status"] /\
  exists tokens e, jira_tokens (as_bytes jql) tokens /\ query tokens e /\
    sat (fun (i k : string) => i = k) (fun _ _ => True) e "SECRET".
Proof.
  split; [vm_compute; reflexivity|].
  exists [word "project"; word "="; word "SECRET"; word "&&"; word "status"; word "="; word "Open"]. eexists. split; [|split].
  - vm_compute as_bytes. reads_as [word "project"; word "="; word "SECRET"; word "&&"; word "status"; word "="; word "Open"].
  - apply query_plain.
    apply (parses_and [word "project"; word "="; word "SECRET"]
             (word "&&")
             [word "status"; word "="; word "Open"]);
      [done|apply parses_clause, clause_eq; done..].
  - split; [|exact I]. exists "SECRET". split; [set_solver|done].
Qed.

(** Printing a token sequence and lexing the text gives the tokens back,
    for every sequence of up to [MAX_JQL_TOKENS] tokens the lexer can produce:
    quoted text keeps its spaces, operators and keywords to itself, so it can
    smuggle no clause. *)
Theorem jql_lex_roundtrip ts :
  Forall lexeme ts -> length ts <= MAX_JQL_TOKENS -> lex_jql (print_tokens ts) = Some ts.
Proof.
  intros Hts Hlen. unfold lex_jql, print_tokens. rewrite as_of_bytes.
  by rewrite lex_print_tokens by (done || cbn; lia).
Qed.

(** The scanner's loops terminate within the fuel the model gives them:
    more fuel changes neither the tokens of a text nor the keys of a token
    sequence, so a missing claim is always a decision of the code. *)
Theorem jql_scanner_fuel jql tokens more :
  lex_loop (S (length (as_bytes jql)) + more) (as_bytes jql) None [] = lex_jql jql
  /\ scan (S (length tokens) + more) tokens [] = scan (S (length tokens)) tokens [].
Proof. split; [apply lex_loop_fuel|apply scan_fuel]; lia. Qed.

Definition example_tokens : list Token :=
  [word "project"; word "in"; word "("; word "A"; word ","; quote "B c"; word ")"; word "AND";
   word "text"; word "~"; quote "a || b"; word "and"; word "due"; word "<="; word "now"].

Definition example_meaning : expr :=
  EAnd (Restrict ["A"; "B c"])
    (EAnd (Other [word "text"; word "~"; quote "a || b"]) (Other [word "due"; word "<="; word "now"])).

Lemma jql_claim_sound_witness :
  project_keys_from_jql "project in (A,'B c')AND text~'a || b'and due<=now" = Some ["A"; "B c"]
  /\ exists k, k ∈ ["A"; "B c"] /\ "B c" = k.
Proof.
  split; [vm_compute; reflexivity|].
  apply (jql_claim_sound (fun (i k : string) => i = k) (fun _ _ => True)
    "project in (A,'B c')AND text~'a || b'and due<=now" example_tokens ["A"; "B c"] example_meaning "B c").
  - vm_compute; reflexivity.
  - vm_compute as_bytes. let ts := eval unfold example_tokens in example_tokens in reads_as ts.
  - unfold example_tokens. repeat constructor.
  - apply query_plain.
    apply (parses_and [word "project"; word "in"; word "("; word "A"; word ","; quote "B c"; word ")"]).
    + reflexivity.
    + apply parses_clause.
      apply (clause_in (word "project") (word "in") (word "(") [word "A"; word ","; quote "B c"]
               (word ")") ["A"; "B c"]); try reflexivity.
      apply (values_more (word "A")), (values_one (quote "B c")); reflexivity.
    + apply (parses_and [word "text"; word "~"; quote "a || b"]); [reflexivity|..]; apply parses_clause.
      * apply (clause_op_value (word "text") [word "~"]); [reflexivity| |reflexivity]. split; [repeat constructor|]. by exists (word "~"), [].
      * apply (clause_op_value (word "due") [word "<="]); [reflexivity| |reflexivity]. split; [repeat constructor|]. by exists (word "<="), [].
  - split; [|split; exact I]. exists "B c". split; [set_solver|done].
Defined.

Lemma jql_lex_roundtrip_witness :
  lex_jql (print_tokens [word "project"; word "="; quote "a OR b"])
  = Some [word "project"; word "="; quote "a OR b"].
Proof.
  apply jql_lex_roundtrip; [|vm_compute; lia].
  apply Forall_cons; split; [right; split; [done|repeat constructor]|].
  apply Forall_cons; split; [left; by exists (byte_of 61)|].
  apply Forall_cons; split; [|constructor]. change (dquote ∉ as_bytes "a OR b").
  apply (bool_decide_unpack _). vm_compute. exact I.
Defined.
