(* ===== verification/Extractors.v ===== *)
(** * Resource extractors (src/src/policy/extractors.rs, src/src/policy/native.rs)

    The functions that turn a request - the wire request of a vendor client or
    the JSON arguments of a tool call - into the action-shaped half of an
    [ActionContext].  A [CanonicalPath] is its string. *)
From S2P Require Import Prelude RustStr Json PolicyTypes Canonical Jql.

(** ** Retained query attributes *)

Inductive Retention := Enumerated (allowed : list string) | Digest.

Definition MAX_ATTRIBUTE_VALUE : nat := 256.

Definition parse_enumerated (value : string) (allowed : list string) : option string :=
  let trimmed := trim value in
  List.find (fun candidate => eq_ignore_ascii_case candidate trimmed) allowed.

(** The order [sort] uses on [(String, String)]. *)
Definition attr_leb (p q : string * string) : bool :=
  if String.eqb p.1 q.1 then str_leb p.2 q.2 else str_leb p.1 q.1.
Definition attr_le (p q : string * string) : Prop := attr_leb p q = true.

#[export] Instance attr_le_dec : RelDecision attr_le.
Proof. intros p q. unfold attr_le. apply _. Defined.

Section Retain.
Variable sha256 : list byte -> list byte.

Definition retain (value : string) (retention : Retention) : string :=
  if (MAX_ATTRIBUTE_VALUE <? str_len value)%nat then expression_digest sha256 value
  else
    let parsed := match retention with
                  | Enumerated allowed => parse_enumerated value allowed
                  | Digest => None
                  end in
    default (expression_digest sha256 value) parsed.

Definition allowlisted_attributes (params : list (string * string))
    (allowlist : list (string * Retention)) : list (string * string) :=
  let kept := omap (fun '(key, value) =>
    match List.find (fun entry => String.eqb (fst entry) key) allowlist with
    | Some (_, retention) => Some (key, retain value retention)
    | None => None
    end) params in
  merge_sort attr_le kept.
End Retain.

(** ** Paths *)

Definition root_path : string := "/".

(** [CanonicalPath::from_plain_segments]. *)
Definition from_plain (segments : list string) : option string :=
  of_bytes <$> from_plain_segments (map as_bytes segments).

(** The segment buffer both route matchers fill: [None] when a segment would
    not fit. *)
Fixpoint fill_buffer (max : nat) (segments buffer : list string) : option (list string) :=
  match segments with
  | [] => Some buffer
  | segment :: rest =>
      if (length buffer =? max)%nat then None else fill_buffer max rest (buffer ++ [segment])
  end.

Definition nonempty_segments (path : string) : list string :=
  List.filter (fun part => negb (str_is_empty part)) (split slash path).

(** ** Grafana *)
Module grafana.

Definition QUERY_LOGS_ALLOWLIST : list (string * Retention) :=
  [("direction", Enumerated ["backward"; "forward"]); ("end", Digest); ("limit", Digest);
   ("query", Digest); ("start", Digest); ("step", Digest)].

Definition PROXY_PREFIX : list string := ["api"; "datasources"; "proxy"; "uid"].
Definition LOKI_QUERY_RANGE : list string := ["loki"; "api"; "v1"; "query_range"].
Definition MAX_UID_LEN : nat := 64.

Definition is_valid_datasource_uid (uid : string) : bool :=
  negb (str_is_empty uid) && (str_len uid <=? MAX_UID_LEN)%nat
  && forallb (fun b => is_ascii_alphanumeric b || (code b =? 45)%N || (code b =? 95)%N) (as_bytes uid).

Definition proxy_prefix_path : string := default root_path (from_plain PROXY_PREFIX).

Section Extract.
Variable sha256 : list byte -> list byte.

Definition query_logs (datasource_uid : string) (params : list (string * string)) : ActionDetails :=
  let proxy_path :=
    if is_valid_datasource_uid datasource_uid
    then from_plain (PROXY_PREFIX ++ [datasource_uid] ++ LOKI_QUERY_RANGE)
    else None in
  match proxy_path with
  | Some path =>
      details_read QueryLogs path (allowlisted_attributes sha256 params QUERY_LOGS_ALLOWLIST)
        Datasource (scope_id datasource_uid)
  | None =>
      details_unclassified_with_attributes Get proxy_prefix_path
        (allowlisted_attributes sha256 params QUERY_LOGS_ALLOWLIST)
  end.

Definition list_datasources : ActionDetails :=
  details_read ListDatasources (default root_path (from_plain ["api"; "datasources"])) []
    Datasource scope_collection.

Definition MAX_SEGMENTS : nat := 10.

Definition extract (method : HttpMethod) (path : string) (query : list (string * string))
    : ActionDetails :=
  if bool_decide (method <> Get) then details_unclassified method path
  else
    match fill_buffer MAX_SEGMENTS (nonempty_segments path) [] with
    | None => details_unclassified method path
    | Some buffer =>
        if bool_decide (buffer = ["api"; "datasources"]) then list_datasources
        else
          match buffer with
          | [s1; s2; s3; s4; uid; s6; s7; s8; s9] =>
              if bool_decide ([s1; s2; s3; s4] = ["api"; "datasources"; "proxy"; "uid"])
                 && bool_decide ([s6; s7; s8; s9] = ["loki"; "api"; "v1"; "query_range"])
                 && is_valid_datasource_uid uid
              then query_logs uid query
              else details_unclassified method path
          | _ => details_unclassified method path
          end
    end.
End Extract.
End grafana.

(** ** Slack *)
Module slack.

Definition FLAG : Retention := Enumerated ["true"; "false"].

Definition LIST_ALLOWLIST : list (string * Retention) :=
  [("cursor", Digest); ("exclude_archived", FLAG); ("limit", Digest); ("types", Digest)].
Definition HISTORY_ALLOWLIST : list (string * Retention) :=
  [("cursor", Digest); ("inclusive", FLAG); ("latest", Digest); ("limit", Digest);
   ("oldest", Digest); ("ts", Digest)].
Definition SEARCH_ALLOWLIST : list (string * Retention) :=
  [("count", Digest); ("page", Digest); ("query", Digest);
   ("sort", Enumerated ["score"; "timestamp"]); ("sort_dir", Enumerated ["asc"; "desc"])].

Definition MAX_ID_LEN : nat := 64.

Definition is_valid_channel_id (id : string) : bool :=
  negb (str_is_empty id) && (str_len id <=? MAX_ID_LEN)%nat
  && forallb (fun b => is_ascii_uppercase b || is_ascii_digit b) (as_bytes id).

Definition is_valid_message_ts (ts : string) : bool :=
  match split_once dot ts with
  | None => false
  | Some (seconds, fraction) =>
      negb (str_is_empty seconds) && negb (str_is_empty fraction)
      && (str_len ts <=? 32)%nat
      && forallb is_ascii_digit (as_bytes seconds) && forallb is_ascii_digit (as_bytes fraction)
  end.

Definition method_path (method : string) : string := default root_path (from_plain [method]).

Section Extract.
Variable sha256 : list byte -> list byte.

Definition list_channels (params : list (string * string)) : ActionDetails :=
  details_read ListChannels (method_path "conversations.list")
    (allowlisted_attributes sha256 params LIST_ALLOWLIST) Channel scope_collection.

Definition channel_read (action : NormalizedAction) (method channel : string)
    (params : list (string * string)) : ActionDetails :=
  if is_valid_channel_id channel then
    details_read action (method_path method)
      (allowlisted_attributes sha256 params HISTORY_ALLOWLIST) Channel (scope_id channel)
  else
    details_unclassified_with_attributes Get (method_path method)
      (allowlisted_attributes sha256 params HISTORY_ALLOWLIST).

Definition channel_info (channel : string) : ActionDetails :=
  channel_read ReadChannel "conversations.info" channel [].
Definition channel_history (channel : string) (params : list (string * string)) : ActionDetails :=
  channel_read ReadChannelHistory "conversations.history" channel params.
Definition thread_replies (channel : string) (params : list (string * string)) : ActionDetails :=
  channel_read ReadThread "conversations.replies" channel params.

Definition search_messages (params : list (string * string)) : ActionDetails :=
  details_read SearchMessages (method_path "search.messages")
    (allowlisted_attributes sha256 params SEARCH_ALLOWLIST) Channel scope_unscoped.

Definition extract (method : HttpMethod) (path : string) (query : list (string * string))
    : ActionDetails :=
  if bool_decide (method <> Get) then details_unclassified method path
  else
    let channels := omap (fun '(key, value) => if String.eqb key "channel" then Some value else None) query in
    match channels with
    | _ :: _ :: _ => details_unclassified method path
    | _ =>
        let channel := default "" (head channels) in
        if String.eqb path "/conversations.list" then list_channels query
        else if String.eqb path "/conversations.info" then channel_info channel
        else if String.eqb path "/conversations.history" then channel_history channel query
        else if String.eqb path "/conversations.replies" then thread_replies channel query
        else if String.eqb path "/search.messages" then search_messages query
        else details_unclassified method path
    end.
End Extract.
End slack.

(** ** Jira *)
Module jira.

Definition SEARCH_QUERY_ALLOWLIST : list (string * Retention) :=
  [("fields", Digest); ("jql", Digest); ("maxResults", Digest)].
Definition SEARCH_BODY_JQL_FIELD : string := "jql".
Definition MAX_PATH_SEGMENTS : nat := 8.

Inductive Route :=
| RReadIssue (key : string)
| RListProjects
| RReadProject (key : string)
| RSearch
| RUnmapped.

Definition is_plain_id (segment : string) : bool :=
  negb (str_is_empty segment) && negb (existsb (beqb percent) (as_bytes segment)).

Definition classify (method : HttpMethod) (canonical_path : string) : Route :=
  match fill_buffer MAX_PATH_SEGMENTS (nonempty_segments canonical_path) [] with
  | None => RUnmapped
  | Some buffer =>
      match method, buffer with
      | Get, [s1; s2; s3; s4; s5] =>
          if bool_decide ([s1; s2; s3; s4] = ["rest"; "api"; "3"; "issue"]) && is_plain_id s5
          then RReadIssue s5
          else if bool_decide ([s1; s2; s3; s4] = ["rest"; "api"; "3"; "project"]) && is_plain_id s5
          then RReadProject s5
          else if bool_decide ([s1; s2; s3; s4; s5] = ["rest"; "api"; "3"; "search"; "jql"])
          then RSearch else RUnmapped
      | Get, [s1; s2; s3; s4] =>
          if bool_decide ([s1; s2; s3; s4] = ["rest"; "api"; "3"; "project"])
          then RListProjects else RUnmapped
      | Post, _ =>
          if bool_decide (buffer = ["rest"; "api"; "3"; "search"; "jql"]) then RSearch else RUnmapped
      | _, _ => RUnmapped
      end
  end.

Definition search_details (method : HttpMethod) (path : string)
    (query_attributes : list (string * string)) (jql : option string) : ActionDetails :=
  let constraint := (jql ≫= project_keys_from_jql) ≫= constraint_ids Project in
  if bool_decide (method = Get) then
    details_constrained_by
      (details_read SearchIssues path query_attributes Issue scope_unscoped) constraint
  else
    details_constrained_by
      (details_read_downgrade JIRA_SEARCH_JQL query_attributes scope_unscoped) constraint.

Section Extract.
Variable sha256 : list byte -> list byte.

Definition extract (method : HttpMethod) (canonical_path : string)
    (query : list (string * string)) (body : option Value) : ActionDetails :=
  match classify method canonical_path with
  | RReadIssue key =>
      details_read ReadIssue canonical_path
        (allowlisted_attributes sha256 query [("fields", Digest)]) Issue (scope_id key)
  | RListProjects => details_read ReadProject canonical_path [] Project scope_collection
  | RReadProject key => details_read ReadProject canonical_path [] Project (scope_id key)
  | RSearch =>
      let '(jql, attributes) :=
        match method with
        | Post => ((body ≫= (fun v => value_get v SEARCH_BODY_JQL_FIELD)) ≫= as_str, [])
        | _ => (snd <$> List.find (fun kv => String.eqb (fst kv) "jql") query,
                allowlisted_attributes sha256 query SEARCH_QUERY_ALLOWLIST)
        end in
      search_details method canonical_path attributes jql
  | RUnmapped => details_unclassified method canonical_path
  end.
End Extract.
End jira.

(** ** Native vendor reads (native.rs) *)
Module native.

Definition read (path : string) : ActionDetails :=
  details_read ReadVendorResource path [] VendorResource scope_unscoped.

Definition patterns (vendor : string) : list string :=
  if String.eqb vendor "github" then
    ["/user/repos"; "/orgs/*/repos"; "/users/*/repos"; "/repos/*/*/contents/**";
     "/repos/*/*/pulls"; "/repos/*/*/pulls/*"; "/repos/*/*/pulls/*/files";
     "/repos/*/*/issues"; "/repos/*/*/issues/*"; "/repos/*/*/actions/runs";
     "/repos/*/*/actions/workflows/*/runs"; "/repos/*/*/actions/runs/*/jobs";
     "/repos/*/*/actions/jobs/*/logs"]
  else if String.eqb vendor "gitlab" then
    ["/projects"; "/groups/*/projects"; "/projects/*/repository/files/*";
     "/projects/*/merge_requests"; "/projects/*/merge_requests/*";
     "/projects/*/merge_requests/*/diffs"; "/projects/*/issues"; "/projects/*/issues/*";
     "/projects/*/pipelines"; "/projects/*/pipelines/*/jobs"; "/projects/*/jobs/*/trace"]
  else if String.eqb vendor "figma" then
    ["/v1/files/*"; "/v1/files/*/nodes"; "/v1/files/*/components"; "/v1/files/*/comments";
     "/v1/images/*"]
  else if String.eqb vendor "vercel" then
    ["/v9/projects"; "/v6/deployments"; "/v13/deployments/*"; "/v3/deployments/*/events"]
  else if String.eqb vendor "sentry" then
    ["/api/0/organizations/*/projects"; "/api/0/organizations/*/issues";
     "/api/0/organizations/*/issues/*"; "/api/0/organizations/*/issues/*/events/*";
     "/api/0/organizations/*/releases"]
  else if String.eqb vendor "snyk" then
    ["/rest/orgs"; "/rest/orgs/*/projects"; "/rest/orgs/*/projects/*"; "/rest/orgs/*/issues"]
  else if String.eqb vendor "mend" then
    ["/api/v3.0/orgs/*/applications"; "/api/v3.0/orgs/*/projects";
     "/api/v3.0/projects/*/dependencies/findings/security"]
  else if String.eqb vendor "artifactory" then
    ["/api/repositories"; "/api/storage/*/**"; "/api/build/*/*"]
  else [].

(** The loop over the pattern's segments; [parts] is the path iterator. *)
Fixpoint match_parts (pattern parts : list string) : bool :=
  match pattern with
  | [] => match parts with [] => true | _ => false end
  | expected :: pattern' =>
      if String.eqb expected "**" then match parts with [] => false | _ => true end
      else match parts with
           | [] => false
           | part :: parts' =>
               if str_is_empty part || (negb (String.eqb expected "*") && negb (String.eqb expected part))
               then false else match_parts pattern' parts'
           end
  end.

Definition matches_path (pattern path : string) : bool :=
  match_parts (split slash (trim_matches slash pattern)) (split slash (trim_matches slash path)).

Definition endpoint (vendor path : string) : bool :=
  existsb (fun pattern => matches_path pattern path) (patterns vendor).

Definition TOOLS : list string :=
  ["github_get_job_logs"; "github_list_repositories"; "github_get_file";
   "github_list_pull_requests"; "github_get_pull_request"; "github_get_pull_request_diff";
   "github_list_issues"; "github_get_issue"; "github_list_workflow_runs";
   "github_list_workflow_jobs"; "gitlab_list_projects"; "gitlab_get_file";
   "gitlab_list_merge_requests"; "gitlab_get_merge_request"; "gitlab_get_merge_request_diff";
   "gitlab_list_issues"; "gitlab_get_issue"; "gitlab_list_pipelines";
   "gitlab_list_pipeline_jobs"; "gitlab_get_job_trace"; "figma_export_images";
   "figma_get_file"; "figma_get_nodes"; "figma_list_components"; "figma_list_comments";
   "vercel_list_projects"; "vercel_list_deployments"; "vercel_get_deployment";
   "vercel_get_deployment_logs"; "sentry_list_projects"; "sentry_search_issues";
   "sentry_get_issue"; "sentry_get_event"; "sentry_list_releases"; "artifactory_download";
   "artifactory_list_repositories"; "artifactory_search"; "artifactory_get_file_info";
   "artifactory_get_build_info"; "snyk_list_orgs"; "snyk_list_projects"; "snyk_list_issues";
   "snyk_get_project"; "mend_list_applications"; "mend_list_projects"; "mend_get_project";
   "mend_list_findings"].

Definition tool (name : string) : bool := existsb (String.eqb name) TOOLS.
End native.

(** ** The wire request of a vendor client *)

Definition VENDOR_JIRA : string := "jira".
Definition VENDOR_SLACK : string := "slack".
Definition VENDOR_GRAFANA : string := "grafana".

Definition path_str (t : CanonicalTarget) : string := of_bytes (target_path t).

Definition query_pairs (t : CanonicalTarget) : list (string * string) :=
  map (fun '(key, value) => (of_bytes key, of_bytes value)) (target_query t).

Section Requests.
Variable sha256 : list byte -> list byte.
(** serde_json's [Value::to_string] and the url crate's pair serializer. *)
Variable json_to_string : Value -> string.
Variable form_urlencoded : list Pair -> list byte.

Definition for_vendor (vendor : string) (method : HttpMethod) (target : CanonicalTarget)
    (body : option Value) : ActionDetails :=
  if bool_decide (method = Get) && native.endpoint vendor (path_str target)
  then native.read (path_str target)
  else
    let query := query_pairs target in
    if (String.eqb vendor "mend" || String.eqb vendor "artifactory") && bool_decide (method = Post)
    then native_post_read vendor (path_str target)
    else if String.eqb vendor VENDOR_GRAFANA then grafana.extract sha256 method (path_str target) query
    else if String.eqb vendor VENDOR_JIRA then jira.extract sha256 method (path_str target) query body
    else if String.eqb vendor VENDOR_SLACK then slack.extract sha256 method (path_str target) query
    else details_unclassified method (path_str target).

(** ** Tool arguments *)

Definition arg (arguments : option JsonMap) (key : string) : option Value :=
  arguments ≫= (fun args => map_get args key).

(** The closure [text]. *)
Definition arg_text (arguments : option JsonMap) (key : string) : option string :=
  arg arguments key ≫= as_str.

Definition arg_flag (arguments : option JsonMap) (key : string) : option string :=
  (fun b : bool => if b then "true" else "false") <$> (arg arguments key ≫= as_bool).

(** [for key in keys { if let Some(value) = text(key) { params.push(..) } }]. *)
Definition push_texts (arguments : option JsonMap) (keys : list (string * string))
    : list (string * string) :=
  omap (fun '(key, argument) => (fun v => (key, v)) <$> arg_text arguments argument) keys.

Definition push_opt (key : string) (value : option string) : list (string * string) :=
  match value with Some v => [(key, v)] | None => [] end.

(** The first half of [passthrough_details]: [path] with [queryParams]. *)
Definition path_and_query (arguments : option JsonMap) : list byte :=
  let path := as_bytes (default "" (arg_text arguments "path")) in
  match arg arguments "queryParams" ≫= as_object with
  | None => path
  | Some query =>
      let encoded := form_urlencoded
        (omap (fun '(key, value) => (fun v => (as_bytes key, as_bytes v)) <$> as_str value) query) in
      if bool_decide (encoded = []) then path
      else path ++ [if existsb (beqb question) path then ampersand else question] ++ encoded
  end.

Definition passthrough_details (method : HttpMethod) (arguments : option JsonMap)
    (extract : CanonicalTarget -> list (string * string) -> option Value -> ActionDetails)
    : ActionDetails :=
  match parse (path_and_query arguments) with
  | Err _ => details_unclassified method root_path
  | Ok target => extract target (query_pairs target) (arg arguments "body")
  end.

Definition slack_tool (tool : string) (arguments : option JsonMap) : ActionDetails :=
  if String.eqb tool "slack_list_channels" then
    slack.list_channels sha256
      (push_texts arguments [("types", "types"); ("cursor", "cursor")]
       ++ push_opt "limit" (json_to_string <$> arg arguments "limit")
       ++ push_opt "exclude_archived" (arg_flag arguments "excludeArchived"))
  else if String.eqb tool "slack_channel_info" then
    slack.channel_info sha256 (default "" (arg_text arguments "channelId"))
  else if String.eqb tool "slack_channel_history" || String.eqb tool "slack_thread_replies" then
    let channel := default "" (arg_text arguments "channelId") in
    let params :=
      push_texts arguments [("oldest", "oldest"); ("latest", "latest"); ("cursor", "cursor")]
      ++ push_opt "limit" (json_to_string <$> arg arguments "limit")
      ++ push_opt "inclusive" (arg_flag arguments "inclusive") in
    if String.eqb tool "slack_thread_replies" then
      slack.thread_replies sha256 channel (params ++ push_opt "ts" (arg_text arguments "threadTs"))
    else slack.channel_history sha256 channel params
  else if String.eqb tool "slack_search_messages" then
    slack.search_messages sha256
      (push_texts arguments [("query", "query"); ("sort", "sort"); ("sort_dir", "sortDir")]
       ++ push_opt "count" (json_to_string <$> arg arguments "count")
       ++ push_opt "page" (json_to_string <$> arg arguments "page"))
  else details_unmapped_tool Read.

(** [slack_get], [slack_post], ... and [jira_get], ...: the verb of the name. *)
Definition verb_of (prefix tool : string) : option HttpMethod :=
  if String.eqb tool (prefix ++ "_get") then Some Get
  else if String.eqb tool (prefix ++ "_post") then Some Post
  else if String.eqb tool (prefix ++ "_put") then Some Put
  else if String.eqb tool (prefix ++ "_patch") then Some Patch
  else if String.eqb tool (prefix ++ "_delete") then Some Delete
  else None.

Definition SLACK_TOOLS : list string :=
  ["slack_list_channels"; "slack_channel_info"; "slack_channel_history"; "slack_thread_replies";
   "slack_search_messages"].

Definition for_tool (tool : string) (arguments : option JsonMap) (declared_risk : RequestRisk)
    : ActionDetails :=
  if native.tool tool then native.read root_path
  else if String.eqb tool "grafana_list_datasources" then grafana.list_datasources
  else if String.eqb tool "grafana_query_logs" then
    let uid := default "" (arg_text arguments "datasourceUid") in
    grafana.query_logs sha256 uid
      (push_texts arguments [("query", "query"); ("start", "start"); ("end", "end");
                             ("direction", "direction"); ("step", "step")]
       ++ push_opt "limit" (json_to_string <$> arg arguments "limit"))
  else if existsb (String.eqb tool) SLACK_TOOLS then slack_tool tool arguments
  else
    match verb_of "slack" tool with
    | Some method =>
        passthrough_details method arguments (fun target query _ =>
          slack.extract sha256 method (path_str target) query)
    | None =>
        match verb_of "jira" tool with
        | Some method =>
            passthrough_details method arguments (fun target query body =>
              jira.extract sha256 method (path_str target) query body)
        | None => details_unmapped_tool declared_risk
        end
    end.
End Requests.

(** ** Segments of canonical paths *)

Lemma fill_buffer_Some max segments buffer b :
  fill_buffer max segments buffer = Some b -> b = buffer ++ segments.
Proof.
  revert buffer; induction segments as [|s segments IH]; intros buffer; cbn.
  - intros [= <-]. by rewrite app_nil_r.
  - case_goal; [done|]. intros ->%IH. by rewrite <- app_assoc.
Qed.

(** [/a/b/c]. *)
Definition joined (segs : list (list byte)) : list byte := mjoin (map (cons slash) segs).

Lemma render_joined segs : render segs = joined segs ++ [slash].
Proof.
  unfold render, joined. induction segs as [|s segs IH]; simpl; [done|].
  simpl in IH. rewrite <- !app_assoc. by rewrite <- IH.
Qed.

Lemma joined_snoc segs s : joined (segs ++ [s]) = joined segs ++ slash :: s.
Proof. unfold joined. rewrite map_app, join_app. cbn. by rewrite app_nil_r. Qed.

Lemma trim_end_snoc c l : trim_end_matches_bytes c (l ++ [c]) = trim_end_matches_bytes c l.
Proof. unfold trim_end_matches_bytes. rewrite rev_app_distr. cbn. by rewrite beqb_refl. Qed.

Lemma trim_end_other c l b : b <> c -> trim_end_matches_bytes c (l ++ [b]) = l ++ [b].
Proof.
  intros Hb. unfold trim_end_matches_bytes. rewrite rev_app_distr. cbn.
  rewrite (proj2 (beqb_neq b c) Hb). cbn. by rewrite rev_involutive.
Qed.

Lemma joined_trim segs : Forall good_segment segs -> trim_end_matches_bytes slash (joined segs) = joined segs.
Proof.
  intros Hs. destruct segs as [|s segs _] using rev_ind; [done|].
  apply Forall_app in Hs as [_ Hs]. apply Forall_cons in Hs as [(HN & Hne & _) _].
  rewrite joined_snoc. destruct s as [|b s _] using rev_ind; [done|].
  change (slash :: s ++ [b]) with ((slash :: s) ++ [b]). rewrite app_assoc. apply trim_end_other.
  intros ->. apply (Norm_no_slash _ HN). set_solver.
Qed.

Lemma filter_good segs :
  Forall good_segment segs ->
  List.filter (fun part => negb (str_is_empty part)) (map of_bytes segs) = map of_bytes segs.
Proof.
  induction 1 as [|s segs (_ & Hne & _) _ IH]; cbn; [done|].
  destruct s as [|b s]; [done|]. cbn. by rewrite IH.
Qed.

Lemma shape_segments segs path :
  Forall good_segment segs -> path = render segs \/ segs <> [] /\ path = pop (render segs) ->
  nonempty_segments (of_bytes path) = map of_bytes segs
  /\ trim_end_matches_bytes slash path = joined segs.
Proof.
  intros Hs Hp. unfold nonempty_segments, split.
  rewrite as_of_bytes. destruct Hp as [->|[Hne ->]].
  - rewrite <- (app_nil_r (render segs)) at 1. rewrite split_render by done.
    cbn [split_bytes map List.filter str_is_empty negb of_bytes String.string_of_list_ascii String.eqb].
    rewrite map_app, List.filter_app, (filter_good segs) by done. cbn [map List.filter]. rewrite app_nil_r.
    split; [done|]. by rewrite render_joined, trim_end_snoc, joined_trim.
  - rewrite render_joined, pop_snoc, joined_trim by done. split; [|done].
    destruct segs as [|s segs _] using rev_ind; [done|].
    apply Forall_app in Hs as [Hs Hg]. pose proof Hg as Hg'. apply Forall_cons in Hg' as [(HN & _) _].
    rewrite joined_snoc. change (slash :: s) with ([slash] ++ s). rewrite app_assoc, <- render_joined.
    rewrite split_render, split_bytes_no_sep by auto with rust.
    cbn [map List.filter str_is_empty negb of_bytes String.string_of_list_ascii String.eqb].
    by rewrite map_app, List.filter_app, (filter_good segs), (filter_good [s]).
Qed.

Lemma map_as_of l : map as_bytes (map of_bytes l) = l.
Proof. rewrite map_map, (map_ext _ id) by apply as_of_bytes. apply map_id. Qed.

Lemma map_of_as l : map of_bytes (map as_bytes l) = l.
Proof. rewrite map_map, (map_ext _ id) by apply of_as_bytes. apply map_id. Qed.

(** Canonical paths with the same segments differ by a trailing slash at most. *)
Lemma same_segments path1 path2 :
  canonical_shape (as_bytes path1) -> canonical_shape (as_bytes path2) ->
  nonempty_segments path1 = nonempty_segments path2 ->
  trim_end_matches slash path1 = trim_end_matches slash path2.
Proof.
  intros (segs1 & Hs1 & H1) (segs2 & Hs2 & H2) Heq. unfold trim_end_matches.
  destruct (shape_segments _ _ Hs1 H1) as [Hn1 ->], (shape_segments _ _ Hs2 H2) as [Hn2 ->].
  rewrite of_as_bytes in Hn1, Hn2. rewrite Hn1, Hn2 in Heq.
  by rewrite <- (map_as_of segs1), <- (map_as_of segs2), Heq.
Qed.

Lemma from_plain_shape segments path :
  from_plain segments = Some path ->
  canonical_shape (as_bytes path) /\ nonempty_segments path = segments.
Proof.
  unfold from_plain. destruct (from_plain_segments _) as [out|] eqn:E; [|done].
  intros [= <-]. rewrite as_of_bytes. pose proof E as E'.
  apply from_plain_segments_shape in E as (Hsh & Hnil & Hcons). split; [done|].
  unfold from_plain_segments in E'. destruct (plain_segments [] _) as [o|] eqn:Eo; [|done].
  change [] with (pop (render [])) in Eo at 1.
  destruct (plain_segments_render _ [] o (Forall_nil_2 _) Eo) as (segs' & Hg & _ & ->).
  cbn [app] in Hg.
  destruct segments as [|s segments]; [by rewrite Hnil|].
  destruct (shape_segments (map as_bytes (s :: segments)) out Hg) as [-> _].
  - right. split; [done|]. by apply Hcons.
  - apply map_of_as.
Qed.

(** ** Retained attributes *)

#[export] Instance attr_le_total : Total attr_le.
Proof.
  intros [k1 v1] [k2 v2]. unfold attr_le, attr_leb. cbn.
  rewrite (String.eqb_sym k2 k1). destruct (String.eqb k1 k2).
  - apply (total str_le).
  - apply (total str_le).
Qed.

#[export] Instance attr_le_trans : Transitive attr_le.
Proof.
  intros [k1 v1] [k2 v2] [k3 v3]. unfold attr_le, attr_leb. cbn.
  destruct (String.eqb_spec k1 k2) as [->|H12], (String.eqb_spec k2 k3) as [->|H23]; intros A B.
  - by apply (transitivity (R := str_le) (y := v2)).
  - done.
  - by rewrite (proj2 (String.eqb_neq k1 k3) H12).
  - destruct (String.eqb_spec k1 k3) as [->|_];
      [|by apply (transitivity (R := str_le) (y := k2))].
    destruct H12. apply (anti_symm str_le); done.
Qed.

Section Attributes.
Context (sha256 : list byte -> list byte).

(** What may stand in for a caller's value: its digest, or a word of the
    endpoint's own vocabulary. *)
Definition retained_value (raw value : string) (retention : Retention) : Prop :=
  value = expression_digest sha256 raw
  \/ exists allowed, retention = Enumerated allowed /\ value ∈ allowed
       /\ eq_ignore_ascii_case value (trim raw) = true.

Lemma retain_spec raw retention : retained_value raw (retain sha256 raw retention) retention.
Proof.
  unfold retain, retained_value. case_goal; [by left|].
  destruct retention as [allowed|]; [|by left]. unfold parse_enumerated.
  destruct (List.find _ allowed) as [c|] eqn:E; [|by left].
  apply List.find_some in E as [Hin Heq]. right. exists allowed. cbn.
  rewrite list_elem_of_In. done.
Qed.

Lemma allowlisted_attributes_elem params allowlist k v :
  (k, v) ∈ allowlisted_attributes sha256 params allowlist ->
  exists raw retention, (k, raw) ∈ params /\ (k, retention) ∈ allowlist
    /\ retained_value raw v retention.
Proof.
  unfold allowlisted_attributes. rewrite merge_sort_Permutation.
  rewrite list_elem_of_omap. intros ([k' raw] & Hin & H).
  destruct (List.find _ allowlist) as [[a retention]|] eqn:E; [|done].
  injection H as -> <-. apply List.find_some in E as [Ha Heq%String.eqb_eq]. cbn in Heq. subst a.
  exists raw, retention. rewrite <- list_elem_of_In in Ha. split; [done|]. split; [done|].
  apply retain_spec.
Qed.

Lemma allowlisted_attributes_sorted params allowlist :
  StronglySorted attr_le (allowlisted_attributes sha256 params allowlist).
Proof. apply (StronglySorted_merge_sort attr_le). Qed.

(** Every vocabulary of every allowlist. *)
Definition VOCABULARY : list string :=
  ["backward"; "forward"; "true"; "false"; "score"; "timestamp"; "asc"; "desc"].

Definition closed_allowlist (allowlist : list (string * Retention)) : bool :=
  forallb (fun entry => match snd entry with
                        | Enumerated allowed => forallb (fun w => existsb (String.eqb w) VOCABULARY) allowed
                        | Digest => true
                        end) allowlist.

(** Sorted, and no caller text: each value is a digest of a parameter or a
    word of [VOCABULARY]. *)
Definition attributes_ok (attrs : list (string * string)) : Prop :=
  StronglySorted attr_le attrs
  /\ forall k v, (k, v) ∈ attrs -> v ∈ VOCABULARY \/ exists raw, v = expression_digest sha256 raw.

Lemma allowlisted_attributes_ok params allowlist :
  closed_allowlist allowlist = true -> attributes_ok (allowlisted_attributes sha256 params allowlist).
Proof.
  intros Hc. split; [apply allowlisted_attributes_sorted|]. intros k v Hin.
  apply allowlisted_attributes_elem in Hin as (raw & retention & _ & Ha & [->|(allowed & -> & Hv & _)]);
    [by eauto|]. left. unfold closed_allowlist in Hc. rewrite forallb_elem_of in Hc.
  apply Hc in Ha. cbn [snd] in Ha. rewrite forallb_elem_of in Ha. apply Ha in Hv.
  apply existsb_elem_of in Hv as (w & Hw & ->%String.eqb_eq). done.
Qed.

Lemma no_attributes_ok : attributes_ok [].
Proof. split; [constructor|]. intros k v H. by apply not_elem_of_nil in H. Qed.
End Attributes.

#[export] Hint Resolve allowlisted_attributes_ok no_attributes_ok : rust.

(** ** The extractors, branch by branch

    [sound d] collects what is true of every result: it is well formed and
    retains no caller text. *)

Section Branches.
Context (sha256 : list byte -> list byte).

Definition sound (d : ActionDetails) : Prop := details_wf d /\ attributes_ok sha256 (ad_attributes d).

Lemma read_sound action path attrs ty scope :
  scope_wf scope -> ty <> Unknown -> attributes_ok sha256 attrs ->
  sound (details_read action path attrs ty scope).
Proof. intros. split; [by apply details_read_wf|done]. Qed.

Lemma unclassified_sound m path : sound (details_unclassified m path).
Proof. split; auto with rust. Qed.

Lemma unclassified_with_attributes_sound m path attrs :
  attributes_ok sha256 attrs -> sound (details_unclassified_with_attributes m path attrs).
Proof. split; auto with rust. Qed.

Lemma scope_id_wf id : scope_wf (scope_id id).
Proof. apply scope_ids_wf. Qed.

Lemma constrained_sound d (keys : option (list string)) :
  sound d -> sound (details_constrained_by d (keys ≫= constraint_ids Project)).
Proof.
  intros [Hwf Ha]. split; [|done]. apply details_constrained_by_wf; [done|].
  intros c Hc. destruct keys; [|done]. by eapply constraint_ids_wf.
Qed.

Hint Resolve read_sound unclassified_sound unclassified_with_attributes_sound scope_id_wf
  constrained_sound : rust.
Hint Extern 1 (_ <> _) => discriminate : rust.
Hint Extern 1 (scope_wf _) => exact I : rust.
Hint Extern 1 (closed_allowlist _ = true) => reflexivity : rust.

Lemma grafana_query_logs_sound uid params : sound (grafana.query_logs sha256 uid params).
Proof. unfold grafana.query_logs. case_goal; auto 6 with rust. Qed.

Lemma grafana_list_sound : sound grafana.list_datasources.
Proof. unfold grafana.list_datasources. auto with rust. Qed.

Lemma grafana_extract_sound m path query : sound (grafana.extract sha256 m path query).
Proof.
  unfold grafana.extract. repeat case_goal; auto using grafana_query_logs_sound, grafana_list_sound with rust.
Qed.

Lemma slack_channel_read_sound action method channel params :
  sound (slack.channel_read sha256 action method channel params).
Proof. unfold slack.channel_read. case_goal; auto 6 with rust. Qed.

Lemma slack_list_sound params : sound (slack.list_channels sha256 params).
Proof. unfold slack.list_channels. auto 6 with rust. Qed.

Lemma slack_search_sound params : sound (slack.search_messages sha256 params).
Proof. unfold slack.search_messages. auto 6 with rust. Qed.

Lemma slack_extract_sound m path query : sound (slack.extract sha256 m path query).
Proof.
  unfold slack.extract, slack.channel_info, slack.channel_history, slack.thread_replies.
  repeat case_goal; auto using slack_channel_read_sound, slack_list_sound, slack_search_sound with rust.
Qed.

Lemma jira_search_sound m path attrs jql :
  attributes_ok sha256 attrs -> sound (jira.search_details m path attrs jql).
Proof.
  intros Ha. unfold jira.search_details. case_goal; apply constrained_sound; [by auto with rust|].
  split; [|done]. by apply details_read_downgrade_wf.
Qed.

Lemma jira_extract_sound m path query body : sound (jira.extract sha256 m path query body).
Proof.
  unfold jira.extract. destruct (jira.classify m path); auto 6 with rust.
  destruct m; apply jira_search_sound; auto 6 with rust.
Qed.

Lemma native_read_sound path : sound (native.read path).
Proof. unfold native.read. auto with rust. Qed.

Lemma native_post_sound vendor path : sound (native_post_read vendor path).
Proof.
  split; [apply native_post_read_wf|]. unfold native_post_read. case_goal; apply no_attributes_ok.
Qed.

Lemma passthrough_sound form m arguments f :
  (forall t q b, sound (f t q b)) -> sound (passthrough_details form m arguments f).
Proof. intros Hf. unfold passthrough_details. case_goal; auto with rust. Qed.

Lemma slack_tool_sound js tool arguments : sound (slack_tool sha256 js tool arguments).
Proof.
  unfold slack_tool, slack.channel_info, slack.channel_history, slack.thread_replies.
  repeat case_goal; auto using slack_channel_read_sound, slack_list_sound, slack_search_sound.
  split; [apply details_unmapped_tool_wf|apply no_attributes_ok].
Qed.
End Branches.

(** ** The details describe the request *)

Lemma plain_segments_total segments out :
  Forall (fun s => s <> [] /\ s <> dots1 /\ s <> dots2 /\ forallb is_unreserved s = true) segments ->
  exists out', plain_segments out segments = Some out'.
Proof.
  intros H; revert out; induction H as [|s segments (H1 & H2 & H3 & H4) _ IH]; intros out; cbn; [eauto|].
  rewrite !bool_decide_eq_false_2, H4 by done. apply IH.
Qed.

Lemma uid_plain uid :
  grafana.is_valid_datasource_uid uid = true ->
  as_bytes uid <> [] /\ as_bytes uid <> dots1 /\ as_bytes uid <> dots2
  /\ forallb is_unreserved (as_bytes uid) = true.
Proof.
  unfold grafana.is_valid_datasource_uid. intros H. bool_to_prop.
  rename H0 into Hall. rewrite forallb_elem_of in Hall.
  assert (Hdot : dot ∉ as_bytes uid).
  { intros Hd. apply Hall in Hd. vm_compute in Hd. done. }
  split; [intros E; by rewrite <- (of_as_bytes uid), E in H|].
  split; [intros E; rewrite E in Hdot; set_solver|].
  split; [intros E; rewrite E in Hdot; set_solver|].
  apply forallb_elem_of. intros b Hb. apply Hall in Hb. revert Hb.
  pose proof (byte_forall (fun b => negb (is_ascii_alphanumeric b || (code b =? 45)%N || (code b =? 95)%N)
    || is_unreserved b) ltac:(vm_compute; reflexivity) b) as Hb. cbn in Hb.
  intros Hb'. rewrite Hb' in Hb. done.
Qed.

(** A valid UID always has a proxy path, with the UID as its fifth segment. *)
Lemma uid_path uid :
  grafana.is_valid_datasource_uid uid = true ->
  exists path, from_plain (grafana.PROXY_PREFIX ++ [uid] ++ grafana.LOKI_QUERY_RANGE) = Some path.
Proof.
  intros Huid%uid_plain. unfold from_plain, from_plain_segments.
  destruct (plain_segments_total
    (map as_bytes (grafana.PROXY_PREFIX ++ [uid] ++ grafana.LOKI_QUERY_RANGE)) []) as [out ->].
  - cbn [map app grafana.PROXY_PREFIX grafana.LOKI_QUERY_RANGE].
    repeat (apply Forall_cons; split; [first [exact Huid | by repeat split]|]). constructor.
  - destruct out; eexists; reflexivity.
Qed.

(** Requests other than GETs that are reads: the reviewed POST endpoints. *)
Definition reviewed_post (vendor : string) (method : HttpMethod) (path : string) : Prop :=
  method = Post /\
  ((vendor = VENDOR_JIRA /\ nonempty_segments path = ["rest"; "api"; "3"; "search"; "jql"])
   \/ native_post_approved vendor path = true).

Definition describes (vendor : string) (method : HttpMethod) (path : string) (d : ActionDetails) : Prop :=
  ad_method d = method
  /\ trim_end_matches slash (ad_path d) = trim_end_matches slash path
  /\ (ad_risk d = Read -> method = Get \/ reviewed_post vendor method path).

Lemma unclassified_describes vendor m path : describes vendor m path (details_unclassified m path).
Proof. repeat split. cbn. destruct m; try done. by left. Qed.

Lemma read_describes vendor action path path' attrs ty scope :
  trim_end_matches slash path' = trim_end_matches slash path ->
  describes vendor Get path (details_read action path' attrs ty scope).
Proof. repeat split; [done|]. intros _. by left. Qed.

Lemma plain_same segments path path' :
  canonical_shape (as_bytes path) -> nonempty_segments path = segments ->
  from_plain segments = Some path' -> trim_end_matches slash path' = trim_end_matches slash path.
Proof.
  intros Hsh Hseg Hp. apply from_plain_shape in Hp as [Hsh' Hseg'].
  apply same_segments; congruence.
Qed.

Lemma grafana_describes sha256 vendor m path query :
  canonical_shape (as_bytes path) -> describes vendor m path (grafana.extract sha256 m path query).
Proof.
  intros Hsh. unfold grafana.extract. case_bool_decide as Hm; [apply unclassified_describes|].
  subst m.
  destruct (fill_buffer _ _ []) as [b|] eqn:Eb; [|apply unclassified_describes].
  apply fill_buffer_Some in Eb. cbn [app] in Eb. case_bool_decide as Hl.
  - apply read_describes. subst b. apply (plain_same ["api"; "datasources"]); [done|done|].
    vm_compute. reflexivity.
  - repeat (case_goal; try apply unclassified_describes). clear Hl. bool_to_prop.
    unfold grafana.query_logs. destruct (uid_path _ H0) as [path' Hp]. rewrite H0, Hp.
    apply read_describes. eapply plain_same; [done| |exact Hp]. simplify_eq. by rewrite <- Eb.
Qed.

Lemma slack_describes sha256 vendor m path query :
  describes vendor m path (slack.extract sha256 m path query).
Proof.
  unfold slack.extract. case_bool_decide as Hm; [apply unclassified_describes|].
  subst m.
  assert (Hch : forall action method channel params,
    path = slack.method_path method ->
    describes vendor Get path (slack.channel_read sha256 action method channel params)).
  { intros action method channel params ->. unfold slack.channel_read.
    case_goal; [by apply read_describes|]. repeat split. intros _. by left. }
  assert (Hrest : forall channel, describes vendor Get path
    (if String.eqb path "/conversations.list" then slack.list_channels sha256 query
     else if String.eqb path "/conversations.info" then slack.channel_info sha256 channel
     else if String.eqb path "/conversations.history" then slack.channel_history sha256 channel query
     else if String.eqb path "/conversations.replies" then slack.thread_replies sha256 channel query
     else if String.eqb path "/search.messages" then slack.search_messages sha256 query
     else details_unclassified Get path)).
  { intros channel.
    destruct (String.eqb_spec path "/conversations.list") as [->|_]; [by apply read_describes|].
    destruct (String.eqb_spec path "/conversations.info") as [E|_]; [by apply Hch|].
    destruct (String.eqb_spec path "/conversations.history") as [E|_]; [by apply Hch|].
    destruct (String.eqb_spec path "/conversations.replies") as [E|_]; [by apply Hch|].
    destruct (String.eqb_spec path "/search.messages") as [->|_]; [by apply read_describes|].
    apply unclassified_describes. }
  destruct (omap _ query) as [|c1 [|c2 cs]]; [apply Hrest|apply Hrest|apply unclassified_describes].
Qed.

Lemma jira_classify_search m path :
  jira.classify m path = jira.RSearch ->
  (m = Get \/ m = Post) /\ nonempty_segments path = ["rest"; "api"; "3"; "search"; "jql"].
Proof.
  unfold jira.classify. destruct (fill_buffer _ _ []) as [b|] eqn:Eb; [|done].
  apply fill_buffer_Some in Eb. cbn [app] in Eb. subst b. intros H.
  repeat case_in H; try done; bool_to_prop; auto.
Qed.

Lemma jira_classify_read m path :
  jira.classify m path <> jira.RUnmapped -> jira.classify m path <> jira.RSearch -> m = Get.
Proof.
  unfold jira.classify. destruct (fill_buffer _ _ []) as [b|]; [|done].
  destruct m; try done. case_goal; done.
Qed.

Lemma jira_describes sha256 m path query body :
  canonical_shape (as_bytes path) ->
  describes VENDOR_JIRA m path (jira.extract sha256 m path query body).
Proof.
  intros Hsh. unfold jira.extract.
  pose proof (jira_classify_read m path) as Hr. pose proof (jira_classify_search m path) as Hs.
  destruct (jira.classify m path) eqn:E; try (rewrite (Hr ltac:(done) ltac:(done)); by apply read_describes).
  - destruct (Hs eq_refl) as [[->| ->] Hseg]; unfold jira.search_details.
    + rewrite bool_decide_eq_true_2 by done. repeat split. intros _. by left.
    + rewrite bool_decide_eq_false_2 by done. split; [done|]. split.
      * apply (plain_same ["rest"; "api"; "3"; "search"; "jql"]); [done|done|]. vm_compute. reflexivity.
      * intros _. right. split; [done|]. by left.
  - apply unclassified_describes.
Qed.

(** ** The scope is named by the request *)

(** Where a claimed resource id comes from. *)
Definition scope_named (path : string) (query : list (string * string)) (ty : ResourceType)
    (id : string) : Prop :=
  match ty with
  | Datasource =>
      grafana.is_valid_datasource_uid id = true
      /\ nonempty_segments path = grafana.PROXY_PREFIX ++ [id] ++ grafana.LOKI_QUERY_RANGE
  | Channel =>
      slack.is_valid_channel_id id = true
      /\ omap (fun '(key, value) => if String.eqb key "channel" then Some value else None) query = [id]
  | Issue => nonempty_segments path = ["rest"; "api"; "3"; "issue"; id]
  | Project => nonempty_segments path = ["rest"; "api"; "3"; "project"; id]
  | _ => False
  end.

Definition scope_from (path : string) (query : list (string * string)) (d : ActionDetails) : Prop :=
  forall ids, ad_scope d = Ids ids -> exists id, ids = [id] /\ scope_named path query (ad_type d) id.

Lemma scope_id_Ids id ids : scope_id id = Ids ids -> ids = [id].
Proof. unfold scope_id, scope_ids. cbn. destruct (negb (is_blank id)); cbn; [by intros [= <-]|done]. Qed.

Lemma no_ids_from path query d : (forall ids, ad_scope d <> Ids ids) -> scope_from path query d.
Proof. intros H ids Hids. by destruct (H ids). Qed.

Lemma grafana_scope_from sha256 m path query : scope_from path query (grafana.extract sha256 m path query).
Proof.
  unfold grafana.extract. case_bool_decide; [by apply no_ids_from|].
  destruct (fill_buffer _ _ []) as [b|] eqn:Eb; [|by apply no_ids_from].
  apply fill_buffer_Some in Eb. cbn [app] in Eb. case_bool_decide as Hl; [by apply no_ids_from|].
  repeat (case_goal; try (by apply no_ids_from)). clear Hl. bool_to_prop. unfold grafana.query_logs.
  destruct (uid_path _ H1) as [path' Hp]. rewrite H1, Hp. intros ids ->%scope_id_Ids.
  eexists. split; [done|]. split; [done|]. simplify_eq. by rewrite <- Eb.
Qed.

Lemma slack_scope_from sha256 m path query : scope_from path query (slack.extract sha256 m path query).
Proof.
  unfold slack.extract. case_bool_decide; [by apply no_ids_from|]. cbn zeta.
  assert (Hch : forall channel action method params,
    (omap (fun '(key, value) => if String.eqb key "channel" then Some value else None) query = [channel]
     \/ channel = "") ->
    scope_from path query (slack.channel_read sha256 action method channel params)).
  { intros channel action method params Hc. unfold slack.channel_read.
    destruct (slack.is_valid_channel_id channel) eqn:Ev; [|by apply no_ids_from].
    destruct Hc as [Hc| ->]; [|done]. intros ids ->%scope_id_Ids. by exists channel. }
  destruct (omap _ query) as [|c1 [|c2 cs]] eqn:Ec; [| |by apply no_ids_from]; cbn [head default];
    unfold slack.channel_info, slack.channel_history, slack.thread_replies;
    repeat (case_goal; [first [by apply no_ids_from | by apply Hch; auto]|]); by apply no_ids_from.
Qed.

Lemma search_unscoped m path attrs jql : ad_scope (jira.search_details m path attrs jql) = Unscoped.
Proof. unfold jira.search_details. by case_bool_decide. Qed.

Lemma search_scope_from path query m attrs jql :
  scope_from path query (jira.search_details m path attrs jql).
Proof. apply no_ids_from. intros ids. by rewrite search_unscoped. Qed.

Lemma jira_scope_from sha256 m path query body :
  scope_from path query (jira.extract sha256 m path query body).
Proof.
  unfold jira.extract, jira.classify.
  destruct (fill_buffer _ _ []) as [b|] eqn:Eb; [|by apply no_ids_from].
  apply fill_buffer_Some in Eb. cbn [app] in Eb.
  destruct m; try (by apply no_ids_from).
  - destruct b as [|s1 [|s2 [|s3 [|s4 [|s5 [|s6 b]]]]]]; try (by apply no_ids_from).
    + case_bool_decide; by apply no_ids_from.
    + do 2 (match goal with |- context [if ?c then _ else _] => destruct c eqn:? end;
        [bool_to_prop; intros ids ->%scope_id_Ids; exists s5; by simplify_eq|]).
      destruct (bool_decide ([s1; s2; s3; s4; s5] = _)); [apply search_scope_from|by apply no_ids_from].
  - case_bool_decide; [apply search_scope_from|by apply no_ids_from].
Qed.

(** ** Claims *)

Section Claims.
Context (sha256 : list byte -> list byte) (json_to_string : Value -> string)
  (form_urlencoded : list Pair -> list byte).

Lemma for_vendor_sound vendor m t body : sound sha256 (for_vendor sha256 vendor m t body).
Proof.
  unfold for_vendor. repeat case_goal;
    auto using native_read_sound, native_post_sound, grafana_extract_sound, jira_extract_sound,
      slack_extract_sound, unclassified_sound.
Qed.

Lemma for_tool_sound tool arguments risk :
  sound sha256 (for_tool sha256 json_to_string form_urlencoded tool arguments risk).
Proof.
  unfold for_tool. repeat case_goal;
    auto using native_read_sound, grafana_list_sound, grafana_query_logs_sound, slack_tool_sound,
      passthrough_sound, slack_extract_sound, jira_extract_sound.
  split; [apply details_unmapped_tool_wf|apply no_attributes_ok].
Qed.
End Claims.

(** Every classification is well formed.  Whatever the vendor, request,
    tool and arguments, the extracted details satisfy the scope invariants
    (ids sorted, distinct, none blank, never empty; a constraint always names
    ids), an unclassified call is unscoped, and the risk is the method's own
    unless the call is one of the approved read-only POSTs: no write, known or
    unknown, is ever classified as a read. *)
Theorem extraction_well_formed sha256 js form vendor m t body tool arguments risk :
  details_wf (for_vendor sha256 vendor m t body)
  /\ details_wf (for_tool sha256 js form tool arguments risk).
Proof. split; [apply (for_vendor_sound sha256)|apply (for_tool_sound sha256)]. Qed.

(** No caller text reaches the query attributes.  In every extraction the
    attributes are sorted, and each value is the digest of a parameter or a
    word of the server's own closed vocabulary; a retained word is one the
    caller's trimmed value equals up to ASCII case. *)
Theorem attributes_carry_no_caller_text sha256 js form vendor m t body tool arguments risk :
  attributes_ok sha256 (ad_attributes (for_vendor sha256 vendor m t body))
  /\ attributes_ok sha256 (ad_attributes (for_tool sha256 js form tool arguments risk))
  /\ forall params allowlist k v, (k, v) ∈ allowlisted_attributes sha256 params allowlist ->
       exists raw retention, (k, raw) ∈ params /\ (k, retention) ∈ allowlist
         /\ retained_value sha256 raw v retention.
Proof.
  split; [apply for_vendor_sound|]. split; [apply for_tool_sound|].
  apply allowlisted_attributes_elem.
Qed.

Lemma for_vendor_describes sha256 vendor m input t body :
  parse input = Ok t -> describes vendor m (path_str t) (for_vendor sha256 vendor m t body).
Proof.
  intros (Hsh & _)%parse_ok. rewrite <- (as_of_bytes (target_path t)) in Hsh.
  fold (path_str t) in Hsh. unfold for_vendor.
  destruct (bool_decide (m = Get) && _) eqn:E1; [bool_to_prop; subst m; by apply read_describes|].
  destruct (_ && bool_decide (m = Post)) eqn:E2.
  - bool_to_prop. subst m. unfold native_post_read.
    destruct (native_post_approved vendor (path_str t)) eqn:Ea; [|apply unclassified_describes].
    repeat split. intros _. right. split; [done|]. by right.
  - case_goal; [by apply grafana_describes|].
    destruct (String.eqb_spec vendor VENDOR_JIRA) as [->|_]; [by apply jira_describes|].
    case_goal; [apply slack_describes|apply unclassified_describes].
Qed.

(** What is decided is what is sent.  The details extracted from an
    outbound request carry its method and its canonical path (up to a trailing
    slash, which the fixed-path endpoints drop), and a request classified as a
    read is a GET or one of the reviewed POST endpoints of that very vendor. *)
Theorem egress_details_describe_request sha256 vendor m input t body :
  parse input = Ok t ->
  let d := for_vendor sha256 vendor m t body in
  ad_method d = m
  /\ trim_end_matches slash (ad_path d) = trim_end_matches slash (path_str t)
  /\ (ad_risk d = Read -> m = Get \/ reviewed_post vendor m (path_str t)).
Proof.
  apply for_vendor_describes.
Qed.

(** A claimed resource id is named by the request.  When an outbound
    request is classified with resource ids there is exactly one, and it is
    the UID segment of the Loki proxy path (a valid UID), the only [channel]
    parameter (a valid channel id), or the key segment of the Jira issue or
    project path. *)
Theorem egress_scope_named_by_request sha256 vendor m t body ids :
  ad_scope (for_vendor sha256 vendor m t body) = Ids ids ->
  exists id, ids = [id]
    /\ scope_named (path_str t) (query_pairs t) (ad_type (for_vendor sha256 vendor m t body)) id.
Proof.
  revert ids. change (scope_from (path_str t) (query_pairs t) (for_vendor sha256 vendor m t body)).
  unfold for_vendor. destruct (bool_decide (m = Get) && _); [by apply no_ids_from|].
  destruct (_ && bool_decide (m = Post)).
  - apply no_ids_from. intros ids. unfold native_post_read. by case_goal.
  - repeat (case_goal; [auto using grafana_scope_from, jira_scope_from, slack_scope_from|]).
    by apply no_ids_from.
Qed.

(** The tool-level decision and the egress decision see the same action.
    For the Slack and Jira passthrough tools, the details derived from the
    tool arguments are those [for_vendor] derives from the canonical target of
    the same path and parameters; when the arguments have no canonical form
    the call is unclassified. *)
Theorem passthrough_tool_agrees_with_egress sha256 js form vendor m tool arguments risk :
  vendor = VENDOR_SLACK \/ vendor = VENDOR_JIRA -> verb_of vendor tool = Some m ->
  for_tool sha256 js form tool arguments risk =
    match parse (path_and_query form arguments) with
    | Ok t => for_vendor sha256 vendor m t (arg arguments "body")
    | Err _ => details_unclassified m root_path
    end.
Proof.
  intros Hv Hverb. unfold verb_of in Hverb.
  assert (Hn : native.endpoint vendor = fun _ => false) by (destruct Hv as [->| ->]; reflexivity).
  destruct Hv as [->| ->]; repeat case_in Hverb; try done; injection Hverb as <-;
    match goal with H : String.eqb tool _ = true |- _ => apply String.eqb_eq in H; subst tool end;
    unfold for_tool, passthrough_details; cbn -[parse path_and_query for_vendor slack.extract jira.extract];
    destruct (parse _); try done; unfold for_vendor; by rewrite Hn, ?andb_false_r.
Qed.

(** The GET search endpoint classifies the first of repeated [jql]
    parameters only.  A request with two [jql] values is claimed as restricted
    to the projects of the first, although both are sent; the Slack extractor
    refuses the same situation for its [channel] parameter. *)
Theorem jira_get_claims_first_jql sha256 :
  let t := {| target_path := as_bytes "/rest/api/3/search/jql";
              target_query := [(as_bytes "jql", as_bytes "project = PUBLIC");
                               (as_bytes "jql", as_bytes "project = SECRET")] |} in
  ad_constraint (for_vendor sha256 VENDOR_JIRA Get t None)
  = Some {| rc_type := Project; rc_scope := Ids ["PUBLIC"] |}
  /\ parse (as_bytes "/rest/api/3/search/jql?jql=project%20%3D%20PUBLIC&jql=project%20%3D%20SECRET") = Ok t
  /\ ad_type (for_vendor sha256 VENDOR_SLACK Get
       {| target_path := as_bytes "/conversations.history";
          target_query := [(as_bytes "channel", as_bytes "C1"); (as_bytes "channel", as_bytes "C2")] |} None)
     = Unknown.
Proof. split; [vm_compute; reflexivity|]. split; vm_compute; reflexivity. Qed.

Module Witness.

Definition sha (_ : list byte) : list byte := [].
Definition loki : list byte := as_bytes "/api/datasources/proxy/uid/abc-1/loki/api/v1/query_range?query=up".
Definition loki_target : CanonicalTarget :=
  {| target_path := as_bytes "/api/datasources/proxy/uid/abc-1/loki/api/v1/query_range";
     target_query := [(as_bytes "query", as_bytes "up")] |}.

Lemma egress_details_describe_request_witness :
  ad_method (for_vendor sha VENDOR_GRAFANA Get loki_target None) = Get.
Proof.
  apply (egress_details_describe_request sha VENDOR_GRAFANA Get loki loki_target None).
  vm_compute. reflexivity.
Defined.

Lemma egress_scope_named_by_request_witness :
  exists id, ["abc-1"] = [id] /\ scope_named (path_str loki_target) (query_pairs loki_target) Datasource id.
Proof.
  apply (egress_scope_named_by_request sha VENDOR_GRAFANA Get loki_target None ["abc-1"]).
  vm_compute. reflexivity.
Defined.

Lemma passthrough_tool_agrees_with_egress_witness :
  let arguments := Some [("path", VString "/rest/api/3/issue/ABC-1")] in
  for_tool sha (fun _ => "") form_urlencoded_standard "jira_get" arguments Write
  = for_vendor sha VENDOR_JIRA Get
      {| target_path := as_bytes "/rest/api/3/issue/ABC-1"; target_query := [] |} None.
Proof.
  intros arguments.
  rewrite (passthrough_tool_agrees_with_egress sha (fun _ => "") form_urlencoded_standard VENDOR_JIRA Get
    "jira_get" arguments Write (or_intror eq_refl) eq_refl).
  vm_compute. reflexivity.
Defined.
End Witness.
