(* ===== verification/Config.v ===== *)
(** * Configuration lookup and secret references
      (src/src/config/mod.rs, src/src/secrets/reference.rs, src/src/secrets/snapshot.rs)

    A configuration is a vendor-neutral overlay (process environment over
    `.env`), one section per vendor from the global file, and the resolved
    secret references.  What the file system and the dotenv parser deliver is
    an argument of the loader. *)
From S2P Require Import Prelude RustStr Json PolicyTypes.

(** ** Secret references *)

Inductive Scheme := SFile | SVault | SAwsSecretsManager | SAzureKeyVault.

#[export] Instance Scheme_eq_dec : EqDecision Scheme.
Proof. solve_decision. Defined.

Definition scheme_as_str (s : Scheme) : string :=
  match s with
  | SFile => "file" | SVault => "vault" | SAwsSecretsManager => "awssm" | SAzureKeyVault => "azkv"
  end.

Definition is_keychain_sentinel (value : string) : bool :=
  String.eqb value "keychain" || String.eqb value "keychain://".

(** The byte dispatch of [scheme_of]. *)
Definition scheme_candidate (bytes : list byte) : option Scheme :=
  match bytes with
  | [] => None
  | b :: rest =>
      if beqb b (byte_of 102) then Some SFile
      else if beqb b (byte_of 118) then Some SVault
      else if beqb b (byte_of 97) then
        match rest with
        | [] => None
        | c :: _ =>
            if beqb c (byte_of 119) then Some SAwsSecretsManager
            else if beqb c (byte_of 122) then Some SAzureKeyVault
            else None
        end
      else None
  end.

Definition scheme_separator : list byte := as_bytes "://".

Definition scheme_of (value : string) : option Scheme :=
  let bytes := as_bytes value in
  match scheme_candidate bytes with
  | None => None
  | Some candidate =>
      let name := as_bytes (scheme_as_str candidate) in
      if (length name + 2 <? length bytes)%nat && starts_with_bytes bytes name
         && bool_decide (take 3 (drop (length name) bytes) = scheme_separator)
      then Some candidate else None
  end.

Definition is_reference (value : string) : bool :=
  match scheme_of value with Some _ => true | None => false end.

Record SecretReference := {
  locator_scheme : Scheme;
  locator_target : string;
  fragment : option string;
}.

Inductive ReferenceError :=
| EmptyTarget (s : Scheme) | EmptyFragment (s : Scheme) | FragmentRequired (s : Scheme).

Definition hash_byte : byte := byte_of 35.

Definition reference_parse (raw : string) : result (option SecretReference) ReferenceError :=
  let value := trim raw in
  match scheme_of value with
  | None => Ok None
  | Some scheme =>
      let rest := of_bytes (drop (str_len (scheme_as_str scheme) + 3) (as_bytes value)) in
      let '(target, fragment) :=
        match split_once hash_byte rest with
        | Some (target, fragment) => (target, Some fragment)
        | None => (rest, None)
        end in
      if str_is_empty target then Err (EmptyTarget scheme)
      else if bool_decide (fragment = Some "") then Err (EmptyFragment scheme)
      else if bool_decide (scheme = SVault) && bool_decide (fragment = None)
      then Err (FragmentRequired scheme)
      else Ok (Some {| locator_scheme := scheme; locator_target := target; fragment := fragment |})
  end.

(** [Display] of a reference. *)
Definition reference_display (r : SecretReference) : string :=
  (scheme_as_str (locator_scheme r) ++ "://" ++ locator_target r
   ++ match fragment r with Some f => "#" ++ f | None => "" end)%string.

Record ResolvedSecret := { secret_value : string; secret_provenance_of : SecretProvenance }.

Abbreviation SecretSnapshot := (gmap string ResolvedSecret).

(** ** The configuration *)

Abbreviation EnvMap := (gmap string string).

Record Config := {
  shared : EnvMap;
  by_vendor : gmap string EnvMap;
  secrets : SecretSnapshot;
}.

Inductive Resolved :=
| Missing
| ResolvedTo (v : string)
| Ambiguous (values : list (string * string)).

(** [BTreeMap] iteration: ascending keys. *)
Definition vendor_le (p q : string * EnvMap) : Prop := str_le p.1 q.1.
#[export] Instance vendor_le_dec : RelDecision vendor_le.
Proof. intros p q. unfold vendor_le, str_le. apply _. Defined.
Definition sections (c : Config) : list (string * EnvMap) :=
  merge_sort vendor_le (map_to_list (by_vendor c)).

Definition raw_for (c : Config) (vendor key : string) : option string :=
  match shared c !! key with
  | Some v => Some v
  | None => by_vendor c !! vendor ≫= (fun m => m !! key)
  end.

Definition expand (c : Config) (raw : string) : string :=
  let trimmed := trim raw in
  if negb (is_reference trimmed) then raw
  else match secrets c !! trimmed with Some s => secret_value s | None => raw end.

Definition secret_provenance (c : Config) (vendor key : string) : option SecretProvenance :=
  raw_for c vendor key ≫= (fun raw =>
    let raw := trim raw in
    if negb (is_reference raw) then None
    else secret_provenance_of <$> secrets c !! raw).

Definition hits (c : Config) (key : string) : list (string * string) :=
  omap (fun '(vendor, m) => (fun v => (vendor, expand c v)) <$> (m : EnvMap) !! key) (sections c).

Definition resolve (c : Config) (key : string) : Resolved :=
  match shared c !! key with
  | Some v => ResolvedTo (expand c v)
  | None =>
      match hits c key with
      | [] => Missing
      | [(_, single)] => ResolvedTo single
      | (n, first) :: rest =>
          if forallb (fun '(_, v) => String.eqb v first) ((n, first) :: rest)
          then ResolvedTo first
          else Ambiguous ((n, first) :: rest)
      end
  end.

Definition get (c : Config) (key : string) : option string :=
  match resolve c key with ResolvedTo v => Some v | Missing | Ambiguous _ => None end.

Definition get_for (c : Config) (vendor key : string) : option string :=
  expand c <$> raw_for c vendor key.

Fixpoint first_fallback (c : Config) (vendors : list string) (key : string) : option string :=
  match vendors with
  | [] => None
  | vendor :: rest =>
      match by_vendor c !! vendor ≫= (fun m => m !! key) with
      | Some v => Some (expand c v)
      | None => first_fallback c rest key
      end
  end.

Definition get_for_with_fallback (c : Config) (primary : string) (fallbacks : list string)
    (key : string) : option string :=
  match shared c !! key with
  | Some v => Some (expand c v)
  | None =>
      match by_vendor c !! primary ≫= (fun m => m !! key) with
      | Some v => Some (expand c v)
      | None => first_fallback c fallbacks key
      end
  end.

Definition get_or (c : Config) (key default_ : string) : string := default default_ (get c key).

Definition get_bool (c : Config) (key : string) (default_ : bool) : bool :=
  match get c key with None => default_ | Some v => eq_ignore_ascii_case v "true" end.

(** [str::parse] to an unsigned integer of at most [max]: an optional plus
    sign, then digits. *)
Definition plus : byte := byte_of 43.
Definition minus : byte := byte_of 45.

Definition parse_unsigned (max : N) (s : string) : option N :=
  match as_bytes s with
  | [] => None
  | b :: rest =>
      let digits := if beqb b plus then rest else b :: rest in
      if bool_decide (digits = []) then None
      else parse_loop digits 0 ≫= (fun n => if (n <=? max)%N then Some n else None)
  end.

Definition I64_MAX : N := 9223372036854775807.

Definition parse_i64 (s : string) : option Z :=
  match as_bytes s with
  | b :: rest =>
      if beqb b minus then
        match rest with
        | [] => None
        | _ => parse_loop rest 0 ≫= (fun n =>
                 if (n <=? I64_MAX + 1)%N then Some (- Z.of_N n)%Z else None)
        end
      else Z.of_N <$> parse_unsigned I64_MAX s
  | [] => None
  end.

Definition get_int (c : Config) (key : string) (default_ : Z) : Z :=
  default default_ (get c key ≫= parse_i64).

(** The trimmed references among all values; the order of a [HashMap]'s
    values is not specified. *)
Definition secret_references (c : Config) : list string :=
  List.filter is_reference
    (map (fun '(_, v) => trim v)
       (map_to_list (shared c) ++ mjoin (map (fun '(_, m) => map_to_list (m : EnvMap)) (sections c)))).

Definition from_map (values : EnvMap) : Config :=
  {| shared := values; by_vendor := ∅; secrets := ∅ |}.

Definition with_secrets (c : Config) (s : SecretSnapshot) : Config :=
  {| shared := shared c; by_vendor := by_vendor c; secrets := s |}.

(** ** Bounded settings *)

Definition DEFAULT_UPLOAD_MAX_FILE_BYTES : N := 10 * 1024 * 1024.
Definition DEFAULT_UPLOAD_MAX_TOTAL_BYTES : N := 25 * 1024 * 1024.
Definition MAX_UPLOAD_BYTES_CEILING : N := 256 * 1024 * 1024.
Definition DEFAULT_HTTP_REQUEST_BODY_LIMIT_BYTES : N := 1000000.
Definition MAX_HTTP_REQUEST_BODY_LIMIT_BYTES : N := 512 * 1024 * 1024.
Definition MAX_TIME_PARTITIONS : N := 16.
Definition DEFAULT_PARALLEL_TIME_PARTITIONS : N := 4.

Definition keep (f : N -> bool) (o : option N) : option N :=
  o ≫= (fun n => if f n then Some n else None).

Definition clamp (n lo hi : N) : N := N.min (N.max n lo) hi.

Definition bounded_upload_bytes (raw : option string) (default_ : N) : N :=
  N.min (default default_ (keep (fun v => 0 <? v)%N (raw ≫= (fun v => parse_unsigned U64_MAX (trim v)))))
        MAX_UPLOAD_BYTES_CEILING.

Definition upload_max_file_bytes (c : Config) (vendor : string) : N :=
  bounded_upload_bytes (get_for c vendor "UPLOAD_MAX_FILE_BYTES") DEFAULT_UPLOAD_MAX_FILE_BYTES.

Definition upload_max_total_bytes (c : Config) (vendor : string) : N :=
  bounded_upload_bytes (get_for c vendor "UPLOAD_MAX_TOTAL_BYTES") DEFAULT_UPLOAD_MAX_TOTAL_BYTES.

Definition http_request_body_limit_bytes (c : Config) : N :=
  clamp (default DEFAULT_HTTP_REQUEST_BODY_LIMIT_BYTES
           (get c "HTTP_REQUEST_BODY_LIMIT_BYTES" ≫= (fun v => parse_unsigned U64_MAX (trim v))))
        DEFAULT_HTTP_REQUEST_BODY_LIMIT_BYTES MAX_HTTP_REQUEST_BODY_LIMIT_BYTES.

Definition streaming_partition_concurrency (c : Config) : N :=
  default DEFAULT_PARALLEL_TIME_PARTITIONS
    (keep (fun v => (1 <=? v) && (v <=? MAX_TIME_PARTITIONS))%N
       (get c "STREAMING_PARTITION_CONCURRENCY" ≫= parse_unsigned U64_MAX)).

(** Durations in seconds. *)
Definition bounded_duration_seconds (configured : option string) (default_ minimum maximum : N) : N :=
  default default_
    (keep (fun v => (minimum <=? v) && (v <=? maximum))%N (configured ≫= parse_unsigned U64_MAX)).

Definition streaming_artifact_retention (c : Config) : N :=
  bounded_duration_seconds (get c "STREAMING_ARTIFACT_RETENTION_SECONDS") 3600 300 604800.

Definition streaming_artifact_sweep_interval (c : Config) : N :=
  bounded_duration_seconds (get c "STREAMING_ARTIFACT_SWEEP_INTERVAL_SECONDS") 60 5 3600.

(** ** The authentication mode *)

Inductive OidcKeys := KOidc | KOkta.
Inductive AuthMode := AuthOff | AuthOidc (keys : OidcKeys).

(** The error message quotes the value with [Debug]; it is kept as the value. *)
Definition auth_mode_parse (raw : option string) : result AuthMode string :=
  match trim <$> raw with
  | None => Ok AuthOff
  | Some value =>
      if String.eqb value "" then Ok AuthOff
      else if eq_ignore_ascii_case value "off" then Ok AuthOff
      else if eq_ignore_ascii_case value "oidc" then Ok (AuthOidc KOidc)
      else if eq_ignore_ascii_case value "okta" then Ok (AuthOidc KOkta)
      else Err value
  end.

Definition requires_inbound_auth (m : AuthMode) : bool :=
  match m with AuthOidc _ => true | AuthOff => false end.

(** ** Loading *)

Definition PACKAGE_NAME : string := "@huskercane/mcp-server-devtools".
Definition LEGACY_PACKAGE_NAME : string := "@huskercane/mcp-server-atlassian".
Definition LEGACY_UNSCOPED_PACKAGE_NAME : string := "mcp-server-atlassian".

Definition unscoped_name (package_name : string) : string :=
  match split_once slash package_name with Some (_, rest) => rest | None => package_name end.

Definition native_vendor_aliases : list (string * list string) :=
  [("github", ["github"; "mcp-server-github"]);
   ("gitlab", ["gitlab"; "mcp-server-gitlab"]);
   ("figma", ["figma"; "mcp-server-figma"]);
   ("vercel", ["vercel"; "mcp-server-vercel"]);
   ("sentry", ["sentry"; "mcp-server-sentry"]);
   ("artifactory", ["artifactory"; "jfrog"; "mcp-server-artifactory"]);
   ("snyk", ["snyk"; "mcp-server-snyk"]);
   ("mend", ["mend"; "whitesource"; "mcp-server-mend"])].

Definition vendor_aliases (package_name : string) : list (string * list string) :=
  let base := ["bitbucket"; "atlassian-bitbucket"; package_name] in
  let unscoped := unscoped_name package_name in
  let bitbucket_aliases :=
    (if existsb (String.eqb unscoped) base then base else base ++ [unscoped])
    ++ [LEGACY_PACKAGE_NAME; LEGACY_UNSCOPED_PACKAGE_NAME;
        "@aashari/mcp-server-atlassian-bitbucket"; "mcp-server-atlassian-bitbucket"] in
  [("bitbucket", bitbucket_aliases);
   ("jira", ["jira"; "atlassian-jira"; "@aashari/mcp-server-atlassian-jira";
             "mcp-server-atlassian-jira"]);
   ("confluence", ["confluence"; "atlassian-confluence";
                   "@aashari/mcp-server-atlassian-confluence"; "mcp-server-atlassian-confluence"]);
   ("zoom", ["zoom"; "mcp-server-zoom"]);
   ("circleci", ["circleci"; "circle-ci"; "mcp-server-circleci"]);
   ("slack", ["slack"; "mcp-server-slack"]);
   ("postman", ["postman"; "mcp-server-postman"]);
   ("edx", ["edx"; "openedx"; "open-edx"; "mcp-server-edx"]);
   ("newrelic", ["newrelic"; "new-relic"; "mcp-server-newrelic"]);
   ("grafana", ["grafana"; "mcp-server-grafana"]);
   ("sonarqube", ["sonarqube"; "sonar"; "sonarcloud"; "mcp-server-sonarqube"]);
   ("teamcity", ["teamcity"; "team-city"; "mcp-server-teamcity"]);
   ("splunk", ["splunk"; "mcp-server-splunk"]);
   ("ninjaone", ["ninjaone"; "ninja-one"; "ninjarmm"; "mcp-server-ninjaone"]);
   ("wrds", ["wrds"; "mcp-server-wrds"])]
  ++ native_vendor_aliases.

Definition candidate_keys (package_name : string) : list string :=
  foldl (fun keys legacy => if existsb (String.eqb legacy) keys then keys else keys ++ [legacy])
    ["bitbucket"; "atlassian-bitbucket"; package_name; unscoped_name package_name]
    [LEGACY_PACKAGE_NAME; LEGACY_UNSCOPED_PACKAGE_NAME].

Section Load.
(** [serde_json::to_string] of the one object-valued setting. *)
Variable json_to_string : Value -> option string.

Definition setting_text (k : string) (v : Value) : option string :=
  match v with
  | VString s => Some s
  | VBool b => Some (if b then "true" else "false")%string
  | VNumber n => Some n
  | VObject _ => if String.eqb k "NINJAONE_DB_ENVIRONMENTS" then json_to_string v else None
  | _ => None
  end.

Definition collect_map (l : list (string * string)) : EnvMap :=
  foldl (fun m '(k, v) => <[k := v]> m) ∅ l.

Definition read_environments_at (root : Value) (key : string) : option EnvMap :=
  section ← (value_get root key ≫= as_object);
  env ← (map_get section "environments" ≫= as_object);
  Some (collect_map (omap (fun '(k, v) => (fun t => (k, t)) <$> setting_text k v) (env : list _))).

Fixpoint environments_for (root : Value) (keys : list string) : EnvMap :=
  match keys with
  | [] => ∅
  | key :: rest =>
      match read_environments_at root key with Some env => env | None => environments_for root rest end
  end.

Definition extract_environments_for (root : Value) (package_name : string) : EnvMap :=
  environments_for root (candidate_keys package_name).

(** [merged.extend(env)] for the aliases in reverse priority. *)
Definition merge_aliases (root : Value) (aliases : list string) : EnvMap :=
  foldl (fun merged alias =>
           match read_environments_at root alias with
           | Some env => env ∪ merged
           | None => merged
           end) ∅ (rev aliases).

Definition extract_all_vendor_sections (root : Value) (package_name : string) : gmap string EnvMap :=
  foldl (fun (out : gmap string EnvMap) '(canonical, aliases) =>
           let merged := merge_aliases root aliases in
           if bool_decide (merged = ∅) then out else <[canonical := merged]> out)
        ∅ (vendor_aliases package_name).

(** [load_dotenv]: the first malformed entry fails the file. *)
Fixpoint load_dotenv (entries : list (result (string * string) string)) (acc : EnvMap)
    : result EnvMap string :=
  match entries with
  | [] => Ok acc
  | Ok (k, v) :: rest => load_dotenv rest (<[k := v]> acc)
  | Err e :: _ => Err e
  end.

(** What the file system delivered: [None] when no path was given or the file
    does not exist. *)
Definition load_from_sources (global : option (result Value string))
    (dotenv : option (result (list (result (string * string) string)) string))
    (process_env : EnvMap) : Config :=
  let by_vendor :=
    match global with
    | Some (Ok root) => extract_all_vendor_sections root PACKAGE_NAME
    | Some (Err _) | None => ∅
    end in
  let file_env :=
    match dotenv with
    | Some (Ok entries) => match load_dotenv entries ∅ with Ok m => m | Err _ => ∅ end
    | Some (Err _) | None => ∅
    end in
  {| shared := process_env ∪ file_env; by_vendor := by_vendor; secrets := ∅ |}.

End Load.

(** ** Facts *)

Section LoadFacts.
Variable json_to_string : Value -> option string.
Implicit Types (root : Value) (aliases : list string) (key vendor : string).

(** The value the highest-priority alias gives a key. *)
Fixpoint alias_value root aliases key : option string :=
  match aliases with
  | [] => None
  | alias :: rest =>
      match read_environments_at json_to_string root alias ≫= (fun env => env !! key) with
      | Some v => Some v
      | None => alias_value root rest key
      end
  end.

Lemma merge_aliases_lookup root aliases key :
  merge_aliases json_to_string root aliases !! key = alias_value root aliases key.
Proof.
  unfold merge_aliases. induction aliases as [|a l IH]; [apply lookup_empty|].
  cbn [rev alias_value]. rewrite foldl_app. cbn [foldl].
  destruct (read_environments_at _ root a) as [env|]; [|exact IH]. cbn [mbind option_bind].
  destruct (env !! key) as [v|] eqn:E.
  - by apply lookup_union_Some_l.
  - rewrite lookup_union_r by done. exact IH.
Qed.

(** Inserting non-empty sections under distinct names. *)
Lemma sections_fold_lookup root l (out : gmap string EnvMap) vendor key :
  NoDup l.*1 ->
  (vendor ∈ l.*1 -> out !! vendor = None) ->
  foldl (fun (out : gmap string EnvMap) '(canonical, aliases) =>
           let merged := merge_aliases json_to_string root aliases in
           if bool_decide (merged = ∅) then out else <[canonical := merged]> out)
        out l !! vendor ≫= (fun m : EnvMap => m !! key)
  = match list_find (fun p => p.1 = vendor) l with
    | Some (_, (_, aliases)) => alias_value root aliases key
    | None => out !! vendor ≫= (fun m : EnvMap => m !! key)
    end.
Proof.
  revert out. induction l as [|[canonical aliases] l IH]; intros out Hnd Hout; [done|].
  cbn [foldl list_find fst]. apply NoDup_cons in Hnd as [Hni Hnd].
  rewrite IH; [|done|].
  - destruct (decide (canonical = vendor)) as [->|Hne]; cbn.
    + destruct (list_find _ l) as [[i [n al]]|] eqn:Ef; cbn.
      { apply list_find_Some in Ef as (Hi & Hn & _). cbn in Hn. subst n. destruct Hni.
        apply list_elem_of_fmap. exists (vendor, al). split; [done|]. by eapply list_elem_of_lookup_2. }
      rewrite <- merge_aliases_lookup. case_bool_decide as Hm.
      * rewrite Hm, lookup_empty, Hout by set_solver. done.
      * by rewrite lookup_insert_eq.
    + destruct (list_find _ l) as [[i [n al]]|]; cbn; [done|].
      case_bool_decide; [done|]. by rewrite lookup_insert_ne.
  - intros Hin. case_bool_decide; [apply Hout; set_solver|].
    rewrite lookup_insert_ne by (intros ->; done). apply Hout. set_solver.
Qed.

Definition aliases_of vendor : list string :=
  match list_find (fun p => p.1 = vendor) (vendor_aliases PACKAGE_NAME) with
  | Some (_, (_, aliases)) => aliases
  | None => []
  end.

Lemma vendor_names_distinct : NoDup (vendor_aliases PACKAGE_NAME).*1.
Proof. apply (bool_decide_unpack _). vm_compute. exact I. Qed.

Lemma extract_lookup root vendor key :
  extract_all_vendor_sections json_to_string root PACKAGE_NAME !! vendor
    ≫= (fun m : EnvMap => m !! key)
  = alias_value root (aliases_of vendor) key.
Proof.
  unfold extract_all_vendor_sections, aliases_of.
  rewrite sections_fold_lookup; [|apply vendor_names_distinct|intros; apply lookup_empty].
  destruct (list_find _ _) as [[i [n al]]|]; [done|]. by rewrite lookup_empty.
Qed.

End LoadFacts.

(** The last assignment of a key in a well-formed `.env` file; a malformed
    entry loses the whole file. *)
Definition dotenv_value (entries : list (result (string * string) string)) (key : string)
    : option string :=
  if forallb is_ok entries
  then last (omap (fun e => match e with
                            | Ok (k, v) => if String.eqb k key then Some v else None
                            | Err _ => None
                            end) entries)
  else None.

Lemma load_dotenv_fails entries acc :
  forallb is_ok entries = false -> exists e, load_dotenv entries acc = Err e.
Proof.
  revert acc. induction entries as [|[[k v]|e] rest IH]; intros acc; cbn; [done| |by eauto].
  apply IH.
Qed.

Lemma load_dotenv_lookup entries acc key :
  forallb is_ok entries = true ->
  exists m, load_dotenv entries acc = Ok m
    /\ m !! key = match dotenv_value entries key with Some v => Some v | None => acc !! key end.
Proof.
  unfold dotenv_value. revert acc. induction entries as [|[[k v]|e] rest IH]; intros acc; [by eauto| |done].
  cbn [forallb is_ok andb load_dotenv]. intros Hok. destruct (IH (<[k:=v]> acc) Hok) as (m & Hm & Hl).
  exists m. split; [done|]. rewrite Hl, Hok. cbn [omap list_omap].
  destruct (String.eqb_spec k key) as [->|Hne].
  - rewrite last_cons. rewrite lookup_insert_eq. by destruct (last _).
  - by rewrite lookup_insert_ne.
Qed.

Lemma elem_of_sections c vendor m : (vendor, m) ∈ sections c <-> by_vendor c !! vendor = Some m.
Proof. unfold sections. by rewrite (merge_sort_Permutation vendor_le), elem_of_map_to_list. Qed.

Lemma elem_of_hits c key vendor v :
  (vendor, v) ∈ hits c key <->
  exists m raw, by_vendor c !! vendor = Some m /\ m !! key = Some raw /\ v = expand c raw.
Proof.
  unfold hits. rewrite list_elem_of_omap. split.
  - intros ([n m] & Hin & Hf). apply elem_of_sections in Hin.
    destruct (m !! key) as [raw|] eqn:E; [|done]. cbn in Hf. injection Hf as -> <-. eauto.
  - intros (m & raw & Hm & Hraw & ->). exists (vendor, m). split; [by apply elem_of_sections|].
    by rewrite Hraw.
Qed.

Lemma resolve_hits c key :
  shared c !! key = None ->
  match resolve c key with
  | Missing => hits c key = []
  | ResolvedTo v => hits c key <> [] /\ forall p, p ∈ hits c key -> p.2 = v
  | Ambiguous l => l = hits c key /\ exists p q, p ∈ l /\ q ∈ l /\ p.2 <> q.2
  end.
Proof.
  unfold resolve. intros ->. destruct (hits c key) as [|[n first] rest]; [done|].
  assert (Hall : forallb (fun '(_, v) => String.eqb v first) ((n, first) :: rest) = true <->
                 forall p, p ∈ (n, first) :: rest -> p.2 = first).
  { rewrite forallb_elem_of. split; intros H [a b] Hp; [by apply String.eqb_eq, (H (a, b))|].
    apply String.eqb_eq, (H (a, b) Hp). }
  destruct rest as [|p rest]; [split; [done|]; intros q ->%list_elem_of_singleton; done|].
  destruct (forallb _ _) eqn:E; [split; [done|]; by apply Hall|]. split; [done|].
  assert (Hex : Exists (fun q => q.2 <> first) ((n, first) :: p :: rest)).
  { apply not_Forall_Exists; [apply _|]. intros HF. rewrite Forall_forall in HF.
    by apply Hall in HF. }
  apply Exists_exists in Hex as (q & Hq & Hne). exists q, (n, first). set_solver.
Qed.

(** The configuration cascade.  After loading, the text a vendor sees for
    a key is the process environment's value if it has one, else the last
    assignment in a well-formed `.env` file, else the value under the
    highest-priority alias of that vendor's own section of the global file
    that defines the key, else nothing; a malformed `.env` or global file
    contributes nothing, and no other vendor's section is ever read. *)
Theorem config_cascade json_to_string global dotenv process_env vendor key :
  raw_for (load_from_sources json_to_string global dotenv process_env) vendor key =
  match process_env !! key with
  | Some v => Some v
  | None =>
      match (dotenv ≫= ok) ≫= (fun entries => dotenv_value entries key) with
      | Some v => Some v
      | None => (global ≫= ok) ≫= (fun root =>
                  alias_value json_to_string root (aliases_of vendor) key)
      end
  end.
Proof.
  unfold raw_for, load_from_sources. cbn [shared by_vendor].
  destruct (process_env !! key) as [v|] eqn:Ep; [by erewrite lookup_union_Some_l|].
  rewrite lookup_union_r by done.
  assert (Hg : (match global with
                | Some (Ok root) => extract_all_vendor_sections json_to_string root PACKAGE_NAME
                | Some (Err _) | None => ∅
                end !! vendor ≫= (fun m : EnvMap => m !! key))
               = (global ≫= ok) ≫= (fun root => alias_value json_to_string root (aliases_of vendor) key)).
  { destruct global as [[root|]|]; cbn [mbind option_bind ok]; [apply extract_lookup| |];
      by rewrite lookup_empty. }
  rewrite Hg. clear Hg.
  destruct dotenv as [[entries|]|]; cbn [mbind option_bind ok]; try by rewrite lookup_empty.
  destruct (forallb is_ok entries) eqn:Eok.
  - destruct (load_dotenv_lookup entries ∅ key Eok) as (m & -> & ->).
    by destruct (dotenv_value entries key).
  - destruct (load_dotenv_fails entries ∅ Eok) as [e ->]. rewrite lookup_empty.
    unfold dotenv_value. by rewrite Eok.
Qed.

(** Some vendor section defines the key as text that expands to [v]. *)
Definition defines (c : Config) (key v : string) : Prop :=
  exists vendor m raw, by_vendor c !! vendor = Some m /\ m !! key = Some raw /\ v = expand c raw.

Lemma defines_hits c key v : defines c key v <-> exists p, p ∈ hits c key /\ p.2 = v.
Proof.
  split.
  - intros (vendor & m & raw & H). exists (vendor, v). split; [|done]. apply elem_of_hits. eauto.
  - intros ([vendor v'] & Hin & <-). apply elem_of_hits in Hin as (m & raw & ?). by exists vendor, m, raw.
Qed.

Lemma resolve_agrees c key v :
  shared c !! key = None ->
  resolve c key = ResolvedTo v <-> defines c key v /\ forall v', defines c key v' -> v' = v.
Proof.
  intros Hs. pose proof (resolve_hits c key Hs) as H. split.
  - intros E. rewrite E in H. destruct H as [Hne Hall].
    destruct (hits c key) as [|p l] eqn:Eh; [done|]. rewrite <- Eh in Hall. split.
    + apply defines_hits. exists p. rewrite Eh. split; [set_solver|]. apply Hall. rewrite Eh. set_solver.
    + intros v' (q & Hq & <-)%defines_hits. by apply Hall.
  - intros [(p & Hp & <-)%defines_hits Hu]. destruct (resolve c key) as [|w|l].
    + rewrite H in Hp. by apply not_elem_of_nil in Hp.
    + destruct H as [_ Hall]. f_equal. symmetry. by apply Hall.
    + destruct H as (-> & q & q' & Hq & Hq' & Hne). destruct Hne.
      rewrite (Hu q.2), (Hu q'.2); [done| |]; apply defines_hits; eauto.
Qed.

(** The vendor-neutral lookup answers only when there is one answer.  With
    no overlay value, [resolve] gives [v] exactly when some section defines
    the key and every section that does agrees on [v]; it is [Missing] exactly
    when none defines it; and it is [Ambiguous] exactly when two disagree,
    listing precisely the defining sections in vendor order. *)
Theorem config_resolve_unambiguous c key :
  shared c !! key = None ->
  (forall v, get c key = Some v <-> defines c key v /\ forall v', defines c key v' -> v' = v)
  /\ (resolve c key = Missing <-> forall v, ~ defines c key v)
  /\ (forall l, resolve c key = Ambiguous l ->
        l = hits c key /\ exists v v', defines c key v /\ defines c key v' /\ v <> v')
  /\ ((exists v v', defines c key v /\ defines c key v' /\ v <> v') ->
        resolve c key = Ambiguous (hits c key)).
Proof.
  intros Hs. pose proof (resolve_hits c key Hs) as H. split_and!.
  - intros v. rewrite <- resolve_agrees by done. unfold get. destruct (resolve c key); naive_solver.
  - split.
    + intros E v (p & Hp & _)%defines_hits. rewrite E in H. rewrite H in Hp. set_solver.
    + intros Hno. destruct (resolve c key) as [|w|l] eqn:E; [done| |]; exfalso.
      * apply (Hno w). by apply resolve_agrees.
      * destruct H as (-> & p & _ & Hp & _). apply (Hno p.2), defines_hits. eauto.
  - intros l E. rewrite E in H. destruct H as (-> & p & q & Hp & Hq & Hne). split; [done|].
    exists p.2, q.2. rewrite !defines_hits. split_and!; eauto.
  - intros (v & v' & (p & Hp & <-)%defines_hits & (q & Hq & <-)%defines_hits & Hne).
    destruct (resolve c key) as [|w|l].
    + rewrite H in Hp. set_solver.
    + destruct H as [_ Hall]. destruct Hne. by rewrite (Hall p), (Hall q).
    + by destruct H as [-> _].
Qed.

Module ConfigWitness.

Definition two_sites : Config :=
  {| shared := ∅;
     by_vendor := <["jira" := {["SITE" := "a"]}]> {["confluence" := {["SITE" := "b"]}]};
     secrets := ∅ |}.

Lemma config_resolve_unambiguous_witness :
  shared two_sites !! "SITE" = None
  /\ resolve two_sites "SITE" = Ambiguous [("confluence", "b"); ("jira", "a")]
  /\ get two_sites "SITE" = None
  /\ (exists v v', defines two_sites "SITE" v /\ defines two_sites "SITE" v' /\ v <> v').
Proof.
  assert (Hs : shared two_sites !! "SITE" = None) by (vm_compute; reflexivity).
  pose proof (config_resolve_unambiguous two_sites "SITE" Hs) as (_ & _ & Hamb & _).
  assert (E : resolve two_sites "SITE" = Ambiguous [("confluence", "b"); ("jira", "a")])
    by (vm_compute; reflexivity).
  split_and!; [done|done|vm_compute; reflexivity|]. exact (proj2 (Hamb _ E)).
Defined.

End ConfigWitness.

(** ** Settings stay within their bounds *)

Lemma keep_default_bound f o d lo hi :
  (forall n, f n = true -> (lo <= n <= hi)%N) -> (lo <= d <= hi)%N -> (lo <= default d (keep f o) <= hi)%N.
Proof.
  intros Hf Hd. unfold keep. destruct o as [n|]; [|done]. cbn. destruct (f n) eqn:E; [by apply Hf|done].
Qed.

(** Whatever the configuration says, the request-body limit stays between
    its default and the hard ceiling, an upload limit is positive and at most
    the in-memory ceiling, and the partition concurrency, retention and sweep
    interval stay within their documented ranges; authentication is off only
    when the mode is absent, blank or says off, and an unrecognised mode is an
    error. *)
Theorem config_settings_bounded c vendor :
  (DEFAULT_HTTP_REQUEST_BODY_LIMIT_BYTES <= http_request_body_limit_bytes c
     <= MAX_HTTP_REQUEST_BODY_LIMIT_BYTES)%N
  /\ (0 < upload_max_file_bytes c vendor <= MAX_UPLOAD_BYTES_CEILING)%N
  /\ (0 < upload_max_total_bytes c vendor <= MAX_UPLOAD_BYTES_CEILING)%N
  /\ (1 <= streaming_partition_concurrency c <= MAX_TIME_PARTITIONS)%N
  /\ (300 <= streaming_artifact_retention c <= 604800)%N
  /\ (5 <= streaming_artifact_sweep_interval c <= 3600)%N
  /\ (forall raw, match auth_mode_parse raw with
        | Ok AuthOff => raw = None \/ exists v, raw = Some v
                          /\ (is_blank v = true \/ to_ascii_lowercase (trim v) = "off")
        | Ok (AuthOidc _) => exists v, raw = Some v
                          /\ (to_ascii_lowercase (trim v) = "oidc" \/ to_ascii_lowercase (trim v) = "okta")
        | Err v => exists w, raw = Some w /\ v = trim w
        end).
Proof.
  assert (Hup : forall raw d, (1 <= d <= MAX_UPLOAD_BYTES_CEILING)%N ->
                (0 < bounded_upload_bytes raw d <= MAX_UPLOAD_BYTES_CEILING)%N).
  { intros raw d Hd. unfold bounded_upload_bytes, keep.
    destruct (raw ≫= _) as [n|]; cbn; [destruct (N.ltb_spec 0 n); cbn|];
      unfold MAX_UPLOAD_BYTES_CEILING in *; lia. }
  split; [unfold http_request_body_limit_bytes, clamp, DEFAULT_HTTP_REQUEST_BODY_LIMIT_BYTES,
            MAX_HTTP_REQUEST_BODY_LIMIT_BYTES; lia|].
  split; [by apply Hup|]. split; [by apply Hup|].
  do 3 (split; [apply keep_default_bound; [intros n; rewrite andb_true_iff, !N.leb_le; tauto|done]|]).
  intros [v|]; unfold auth_mode_parse; cbn [fmap option_fmap option_map]; [|by left].
  unfold eq_ignore_ascii_case, is_blank, str_is_empty.
  repeat (match goal with |- context [if String.eqb ?a ?b then _ else _] =>
            destruct (String.eqb_spec a b) as [?E|?] end; [eauto 6|]); eauto 6.
  right. exists v. split; [done|]. left. by apply String.eqb_eq.
Qed.
