(* ===== verification/NetAddr.v ===== *)
(** * Bind addresses, origins and roles (src/src/server/http.rs)

    The parsers of [std::net] as far as [resolve_bind_addr] uses them: IPv4
    and IPv6 literals and socket addresses, each consuming its whole input.
    Then the startup gate on the bind address, the roles and the origin
    allow-list. *)
From S2P Require Import Prelude RustStr Json Config.

(** ** [std::net::parser] *)

Inductive IpAddr := V4 (octets : list N) | V6 (segments : list N).
Record SocketAddr := { sa_ip : IpAddr; sa_port : N }.

#[export] Instance IpAddr_eq_dec : EqDecision IpAddr.
Proof. solve_decision. Defined.
#[export] Instance SocketAddr_eq_dec : EqDecision SocketAddr.
Proof. solve_decision. Defined.

(** A parser takes a prefix of its input, or fails and takes nothing. *)
Definition Parser (A : Type) : Type := list byte -> option (A * list byte).

Definition read_given (c : N) : Parser unit :=
  fun l => match l with b :: rest => if (code b =? c)%N then Some (tt, rest) else None | [] => None end.

(** [char::to_digit]. *)
Definition to_digit (radix : N) (b : byte) : option N :=
  let d := if is_ascii_digit b then Some (code b - 48)%N
           else if between 97 b 122 then Some (code b - 87)%N
           else if between 65 b 90 then Some (code b - 55)%N else None in
  match d with Some v => if (v <? radix)%N then Some v else None | None => None end.

(** The digits of [read_number]: their value while it stays within [max],
    their count, what follows. *)
Fixpoint take_digits (radix max : N) (max_digits : option nat) (count : nat) (acc : N) (l : list byte) : option (N * nat * list byte) :=
  match l with
  | [] => Some (acc, count, [])
  | b :: rest =>
      match to_digit radix b with
      | None => Some (acc, count, l)
      | Some d =>
          let acc' := (acc * radix + d)%N in
          if (max <? acc')%N then None
          else if match max_digits with Some m => (m <? S count)%nat | None => false end then None
          else take_digits radix max max_digits (S count) acc' rest
      end
  end.

Definition read_number (radix max : N) (max_digits : option nat) (allow_zero_prefix : bool) : Parser N :=
  fun l =>
    let has_leading_zero := match l with b :: _ => (code b =? 48)%N | [] => false end in
    match take_digits radix max max_digits 0 0 l with
    | Some (v, count, rest) =>
        if (count =? 0)%nat then None
        else if negb allow_zero_prefix && has_leading_zero && (1 <? count)%nat then None
        else Some (v, rest)
    | None => None
    end.

(** [read_separator]: the separator stands before every element but the first. *)
Definition read_separator {A} (sep : N) (index : nat) (p : Parser A) : Parser A :=
  fun l => match index with
           | O => p l
           | S _ => match read_given sep l with Some (_, rest) => p rest | None => None end
           end.

Fixpoint read_octets (n index : nat) (l : list byte) : option (list N * list byte) :=
  match n with
  | O => Some ([], l)
  | S n' =>
      match read_separator 46 index (read_number 10 255 (Some 3) false) l with
      | Some (o, rest) => match read_octets n' (S index) rest with Some (os, rest') => Some (o :: os, rest') | None => None end
      | None => None
      end
  end.

Definition read_ipv4 : Parser (list N) := read_octets 4 0.

(** [read_groups] from the slot [index] on, [left] slots to go: the groups, and
    whether they end in an embedded IPv4 address. *)
Fixpoint read_groups (left index : nat) (l : list byte) : list N * bool * list byte :=
  match left with
  | O => ([], false, l)
  | S left' =>
      match match left' with O => None | S _ => read_separator 58 index read_ipv4 l end with
      | Some ([a; b; c; d], rest) => ([a * 256 + b; c * 256 + d]%N, true, rest)
      | _ =>
          match read_separator 58 index (read_number 16 65535 (Some 4) true) l with
          | Some (g, rest) => let '(gs, v4, rest') := read_groups left' (S index) rest in (g :: gs, v4, rest')
          | None => ([], false, l)
          end
      end
  end.

Definition read_ipv6 : Parser (list N) :=
  fun l =>
    let '(head, head_ipv4, rest) := read_groups 8 0 l in
    if (length head =? 8)%nat then Some (head, rest)
    else if head_ipv4 then None
    else
      match read_given 58 rest with
      | Some (_, rest) =>
          match read_given 58 rest with
          | Some (_, rest) =>
              let '(tail, _, rest) := read_groups (8 - (length head + 1)) 0 rest in
              Some (head ++ replicate (8 - length head - length tail) 0%N ++ tail, rest)
          | None => None
          end
      | None => None
      end.

Definition read_port : Parser N := read_number 10 65535 None true.

Definition read_socket_v4 : Parser SocketAddr :=
  fun l =>
    match read_ipv4 l with
    | Some (ip, rest) =>
        match read_given 58 rest with
        | Some (_, rest) => match read_port rest with Some (port, rest) => Some ({| sa_ip := V4 ip; sa_port := port |}, rest) | None => None end
        | None => None
        end
    | None => None
    end.

(** The scope id is read and dropped: nothing here depends on it. *)
Definition read_scope (l : list byte) : list byte :=
  match read_given 37 l with
  | Some (_, rest) => match read_number 10 4294967295 None true rest with Some (_, rest') => rest' | None => l end
  | None => l
  end.

Definition read_socket_v6 : Parser SocketAddr :=
  fun l =>
    match read_given 91 l with
    | Some (_, rest) =>
        match read_ipv6 rest with
        | Some (ip, rest) =>
            match read_given 93 (read_scope rest) with
            | Some (_, rest) =>
                match read_given 58 rest with
                | Some (_, rest) => match read_port rest with Some (port, rest) => Some ({| sa_ip := V6 ip; sa_port := port |}, rest) | None => None end
                | None => None
                end
            | None => None
            end
        | None => None
        end
    | None => None
    end.

(** [parse_with]: the whole input. *)
Definition whole {A} (p : Parser A) (s : string) : option A :=
  match p (as_bytes s) with Some (a, []) => Some a | _ => None end.

Definition or_else {A} (p q : Parser A) : Parser A := fun l => match p l with Some r => Some r | None => q l end.

Definition parse_socket_addr (s : string) : option SocketAddr := whole (or_else read_socket_v4 read_socket_v6) s.
Definition parse_ip_addr (s : string) : option IpAddr :=
  whole (or_else (fun l => match read_ipv4 l with Some (o, rest) => Some (V4 o, rest) | None => None end)
                 (fun l => match read_ipv6 l with Some (g, rest) => Some (V6 g, rest) | None => None end)) s.

(** [IpAddr::is_loopback]: 127.0.0.0/8, or [::1] alone. *)
Definition is_loopback (ip : IpAddr) : bool :=
  match ip with
  | V4 (a :: _) => (a =? 127)%N
  | V4 [] => false
  | V6 g => bool_decide (g = [0; 0; 0; 0; 0; 0; 0; 1]%N)
  end.

(** [url::Host], and the test four parsers of settings make of it before they
    take an http URL: a loopback address, or [localhost]. *)
Inductive UrlHost := HostIp (ip : IpAddr) | HostDomain (name : string).

Definition host_is_loopback (host : option UrlHost) : bool :=
  match host with
  | Some (HostIp ip) => is_loopback ip
  | Some (HostDomain name) => eq_ignore_ascii_case name "localhost"
  | None => false
  end.

(** ** The bind address *)

Definition DEFAULT_PORT : N := 3000.

Definition resolve_bind_addr (raw : option string) (default_port : N) : result SocketAddr string :=
  match raw with
  | None => Ok {| sa_ip := V4 [127; 0; 0; 1]%N; sa_port := default_port |}
  | Some raw =>
      let raw := trim raw in
      if str_is_empty raw then Ok {| sa_ip := V4 [127; 0; 0; 1]%N; sa_port := default_port |}
      else
        match parse_socket_addr raw with
        | Some addr => Ok addr
        | None =>
            match parse_ip_addr raw with
            | Some ip => Ok {| sa_ip := ip; sa_port := default_port |}
            | None => Err ("unrecognised MCP_BIND_ADDR " ++ raw)%string
            end
        end
  end.

Definition validate_startup_security (auth_mode : AuthMode) (addr : SocketAddr) : result unit string :=
  match auth_mode with
  | AuthOff => if is_loopback (sa_ip addr) then Ok tt
               else Err "refusing to start: the bind address is not a loopback address and MCP_AUTH_MODE=off"
  | AuthOidc _ => Ok tt
  end.

(** [PORT]; a value that is not a port is the default. *)
Definition port_from_env (raw : option string) : N :=
  default DEFAULT_PORT (raw ≫= parse_unsigned 65535).

(** ** Roles *)

Definition ROLE_KEY : string := "MCP_ROLE".

Inductive Role := RoleAll | RoleGateway | RoleControl.
#[export] Instance Role_eq_dec : EqDecision Role.
Proof. solve_decision. Defined.

Definition role_parse (raw : option string) : result Role string :=
  match trim <$> raw with
  | None => Ok RoleAll
  | Some value =>
      if str_is_empty value then Ok RoleAll
      else if eq_ignore_ascii_case value "all" then Ok RoleAll
      else if eq_ignore_ascii_case value "gateway" then Ok RoleGateway
      else if eq_ignore_ascii_case value "control" then Ok RoleControl
      else Err ("unrecognised " ++ ROLE_KEY ++ " " ++ value)%string
  end.

Definition serves_gateway (r : Role) : bool := match r with RoleAll | RoleGateway => true | RoleControl => false end.
Definition serves_control (r : Role) : bool := match r with RoleAll | RoleControl => true | RoleGateway => false end.

(** ** Origins *)

Definition ALLOWED : list string :=
  ["http://localhost"; "http://127.0.0.1"; "http://[::1]"; "https://localhost"; "https://127.0.0.1"; "https://[::1]"].

Definition is_allowed_origin (origin : string) : bool :=
  existsb (fun allowed => String.eqb origin allowed || starts_with origin (allowed ++ ":")%string) ALLOWED.

(** ** What is parsed is an address *)

Definition ip_ok (ip : IpAddr) : Prop :=
  match ip with
  | V4 o => length o = 4 /\ Forall (fun n => (n <= 255)%N) o
  | V6 g => length g = 8 /\ Forall (fun n => (n <= 65535)%N) g
  end.

Definition addr_ok (a : SocketAddr) : Prop := ip_ok (sa_ip a) /\ (sa_port a <= 65535)%N.

Lemma take_digits_max radix max md count acc l v n rest :
  take_digits radix max md count acc l = Some (v, n, rest) -> (acc <= max)%N -> (v <= max)%N.
Proof.
  revert count acc; induction l as [|b l IH]; intros count acc; cbn; [by intros [= <- _ _]|].
  destruct (to_digit radix b) as [d|]; [|by intros [= <- _ _]]. destruct (N.ltb_spec max (acc * radix + d)); [done|].
  case_match; [done|]. intros Hv _. by eapply IH.
Qed.

Lemma read_number_max radix max md z l v rest : read_number radix max md z l = Some (v, rest) -> (v <= max)%N.
Proof.
  unfold read_number. destruct (take_digits _ _ _ _ _ _) as [[[v' n] r]|] eqn:Ht; [|done].
  apply take_digits_max in Ht; [|lia]. repeat case_match; intros [= <- _]; done.
Qed.

Lemma read_separator_inv {A} sep i (p : Parser A) l x : read_separator sep i p l = Some x -> exists l', p l' = Some x.
Proof. unfold read_separator. destruct i; [eauto|]. destruct (read_given sep l) as [[_ rest]|]; [eauto|done]. Qed.

Lemma read_octets_ok n i l o rest : read_octets n i l = Some (o, rest) -> length o = n /\ Forall (fun v => (v <= 255)%N) o.
Proof.
  revert i l o rest; induction n as [|n IH]; intros i l o rest; cbn; [by intros [= <- _]|].
  destruct (read_separator _ _ _ _) as [[v r]|] eqn:Hv; [|done]. apply read_separator_inv in Hv as [l' Hv]. apply read_number_max in Hv.
  destruct (read_octets n (S i) r) as [[vs r']|] eqn:Hr; [|done]. apply IH in Hr as [Hl HF]. intros [= <- _]. cbn. auto.
Qed.

Lemma read_groups_ok left i l g v4 rest : read_groups left i l = (g, v4, rest) -> length g <= left /\ Forall (fun v => (v <= 65535)%N) g.
Proof.
  revert i l g v4 rest; induction left as [|left IH]; intros i l g v4 rest; cbn [read_groups]; [by intros [= <- _ _]|].
  assert (Hplain : match read_separator 58 i (read_number 16 65535 (Some 4) true) l with
          | Some (v, r) => let '(gs, v4', r') := read_groups left (S i) r in (v :: gs, v4', r')
          | None => ([], false, l)
          end = (g, v4, rest) -> length g <= S left /\ Forall (fun v => (v <= 65535)%N) g).
  { destruct (read_separator _ _ _ _) as [[v r]|] eqn:Hv; [|by intros [= <- _ _]; split; [cbn; lia|constructor]].
    apply read_separator_inv in Hv as [l' Hv]. apply read_number_max in Hv.
    destruct (read_groups left (S i) r) as [[gs v4'] r'] eqn:Hr. apply IH in Hr as [Hl HF]. intros [= <- _ _]. cbn. split; [lia|auto]. }
  destruct left as [|left']; [exact Hplain|]. destruct (read_separator 58 i read_ipv4 l) as [[o r]|] eqn:Hv; [|exact Hplain].
  apply read_separator_inv in Hv as [l' Hv]. apply read_octets_ok in Hv as [Hl HF].
  destruct o as [|a [|b [|c [|d [|]]]]]; try done. intros [= <- _ _]. inv HF. decompose_Forall. split; [cbn; lia|].
  repeat constructor; lia.
Qed.

Lemma read_ipv6_ok l g rest : read_ipv6 l = Some (g, rest) -> length g = 8 /\ Forall (fun v => (v <= 65535)%N) g.
Proof.
  unfold read_ipv6. destruct (read_groups 8 0 l) as [[head v4] r] eqn:Hh. apply read_groups_ok in Hh as [Hl HF].
  destruct (Nat.eqb_spec (length head) 8); [by intros [= <- _]|]. destruct v4; [done|].
  destruct (read_given 58 r) as [[_ r1]|]; [|done]. destruct (read_given 58 r1) as [[_ r2]|]; [|done].
  destruct (read_groups _ 0 r2) as [[tail v4'] r3] eqn:Ht. apply read_groups_ok in Ht as [Hl' HF']. intros [= <- _].
  split; [rewrite !length_app, length_replicate; lia|]. apply Forall_app. split; [done|]. apply Forall_app. split; [|done].
  apply Forall_replicate. lia.
Qed.

(** Whatever the operator writes, a bind address is an address and a port in
    range, and the fallback is loopback. *)
Lemma resolve_bind_addr_ok raw port a : resolve_bind_addr raw port = Ok a -> (port <= 65535)%N -> addr_ok a.
Proof.
  intros Hr Hp. assert (Hdefault : addr_ok {| sa_ip := V4 [127; 0; 0; 1]%N; sa_port := port |}).
  { split; cbn; [|done]. split; [done|]. repeat constructor; lia. }
  destruct raw as [raw|]; cbn in Hr; [|by injection Hr as <-]. destruct (str_is_empty _); [by injection Hr as <-|].
  destruct (parse_socket_addr (trim raw)) as [x|] eqn:Hs.
  - injection Hr as <-. unfold parse_socket_addr, whole, or_else, read_socket_v4, read_socket_v6 in Hs.
    repeat case_match; simplify_eq; (split; cbn; [|by eapply read_number_max]); by first [eapply read_octets_ok | eapply read_ipv6_ok].
  - destruct (parse_ip_addr (trim raw)) as [ip|] eqn:Hi; [|done]. injection Hr as <-. split; cbn; [|done].
    unfold parse_ip_addr, whole, or_else in Hi. repeat case_match; simplify_eq; by first [eapply read_octets_ok | eapply read_ipv6_ok].
Qed.

Lemma parse_unsigned_max max s n : parse_unsigned max s = Some n -> (n <= max)%N.
Proof.
  unfold parse_unsigned. destruct (as_bytes s) as [|b l]; [done|]. destruct (bool_decide _); [done|].
  destruct (parse_loop _ _) as [m|]; cbn; [|done]. destruct (N.leb_spec m max); [|done]. by intros [= <-].
Qed.
