(* ===== verification/F64.v ===== *)
(** * Rust's [f64] and [Duration]

    IEEE 754 binary64 is [spec_float] at precision 53 and exponent bound
    1024, with the Standard Library's reference operations; a [Duration] or an
    [Instant] is a number of nanoseconds.  [parse_f64] is [str::parse::<f64>]:
    the decimal is rounded once, to nearest even. *)
From Stdlib Require Import SpecFloat.
From S2P Require Import Prelude RustStr Signing Config.

Abbreviation f64 := spec_float.

Definition fadd : f64 -> f64 -> f64 := SFadd 53 1024.
Definition fsub : f64 -> f64 -> f64 := SFsub 53 1024.
Definition fmul : f64 -> f64 -> f64 := SFmul 53 1024.
Definition fdiv : f64 -> f64 -> f64 := SFdiv 53 1024.
(** [n as f64]. *)
Definition f64_of (n : N) : f64 := binary_normalize 53 1024 (Z.of_N n) 0 false.

Definition is_nan (x : f64) : bool := match x with S754_nan => true | _ => false end.
Definition is_finite (x : f64) : bool :=
  match x with S754_zero _ | S754_finite _ _ _ => true | _ => false end.

(** [f64::min] and [f64::max]: a NaN loses to the other operand. *)
Definition fmin (x y : f64) : f64 :=
  if is_nan x then y else if is_nan y then x else if SFltb x y then x else y.
Definition fmax (x y : f64) : f64 :=
  if is_nan x then y else if is_nan y then x else if SFltb y x then x else y.

Lemma fmin_le_r x y : is_nan y = false -> SFleb (fmin x y) y = true.
Proof.
  intros Hy. unfold fmin. rewrite Hy.
  assert (Hyy : SFleb y y = true).
  { unfold SFleb. destruct y as [s|s| |s mant e]; [done|by destruct s|done|].
    cbn. rewrite Z.compare_refl. change (Pos.compare_cont Eq mant mant) with (mant ?= mant)%positive.
    rewrite Pos.compare_refl. by destruct s. }
  destruct (is_nan x); [done|]. destruct (SFltb x y) eqn:E; [|done].
  unfold SFltb in E. unfold SFleb. by destruct (SFcompare x y) as [[]|].
Qed.

(** *** Durations *)
Definition NANOS_PER_SEC : N := 1000000000.

Definition as_secs_f64 (nanos : N) : f64 :=
  fadd (f64_of (nanos / NANOS_PER_SEC)) (fdiv (f64_of (nanos mod NANOS_PER_SEC)) (f64_of NANOS_PER_SEC)).

(** [a / b] rounded to the nearest, ties to even. *)
Definition div_half_even (a b : N) : N :=
  let q := (a / b)%N in
  let r := (a mod b)%N in
  match (2 * r ?= b)%N with Lt => q | Gt => q + 1 | Eq => if N.even q then q else q + 1 end%N.

(** [Duration::try_from_secs_f64]: nanoseconds; [None] when negative, not a
    number, or 2^64 seconds and more. *)
Definition try_from_secs_f64 (x : f64) : option N :=
  match x with
  | S754_zero _ => Some 0%N
  | S754_finite false mant e =>
      let '(num, den) :=
        if (0 <=? e)%Z then (N.shiftl (Npos mant) (Z.to_N e), 1%N)
        else (Npos mant, N.shiftl 1 (Z.to_N (- e))) in
      if (18446744073709551616 * den <=? num)%N then None
      else Some (div_half_even (num * NANOS_PER_SEC) den)
  | _ => None
  end.

(** *** Parsing *)
Definition point : byte := byte_of 46.

Fixpoint span_digits (l : list byte) : list byte * list byte :=
  match l with
  | b :: rest => if is_ascii_digit b then let '(d, r) := span_digits rest in (b :: d, r) else ([], l)
  | [] => ([], [])
  end.

Definition digits_value (l : list byte) : N := foldl (fun n b => 10 * n + (code b - 48))%N 0%N l.

(** [m * 10^k] rounded once.  Beyond the clamps the value is out of range on
    either side whatever [m] is (it has at most [digits] digits). *)
Definition decimal_f64 (neg : bool) (m : N) (k : Z) (digits : nat) : f64 :=
  let signed n := if neg then Z.opp (Z.of_N n) else Z.of_N n in
  if (m =? 0)%N then S754_zero neg
  else if (400 <? k)%Z then S754_infinity neg
  else if (k <? - (400 + Z.of_nat digits))%Z then S754_zero neg
  else if (0 <=? k)%Z then binary_normalize 53 1024 (signed (m * 10 ^ Z.to_N k)%N) 0 neg
  else
    (* enough quotient bits that the last one, kept sticky, decides no tie *)
    let den := (10 ^ Z.to_N (- k))%N in
    let shift := (N.size den + 1100)%N in
    let num := N.shiftl m shift in
    let sticky := if (num mod den =? 0)%N then 0%N else 1%N in
    binary_normalize 53 1024 (signed (2 * (num / den) + sticky)%N) (- (Z.of_N shift + 1)) neg.

Definition split_sign (l : list byte) : bool * list byte :=
  match l with
  | b :: rest => if beqb b minus then (true, rest) else if beqb b plus then (false, rest) else (false, l)
  | [] => (false, [])
  end.

Definition parse_exponent (l : list byte) : option Z :=
  match l with
  | [] => Some 0%Z
  | b :: rest =>
      if beqb (ascii_lower b) (byte_of 101) then
        let '(neg, rest) := split_sign rest in
        let '(digits, tail) := span_digits rest in
        if bool_decide (digits = []) || negb (bool_decide (tail = [])) then None
        else Some (if neg then - Z.of_N (digits_value digits) else Z.of_N (digits_value digits))%Z
      else None
  end.

Definition parse_f64 (s : string) : option f64 :=
  let '(neg, l) := split_sign (as_bytes s) in
  let word := to_ascii_lowercase (of_bytes l) in
  if String.eqb word "inf" || String.eqb word "infinity" then Some (S754_infinity neg)
  else if String.eqb word "nan" then Some S754_nan
  else
    let '(int, rest) := span_digits l in
    let '(frac, rest) :=
      match rest with
      | b :: rest' => if beqb b point then span_digits rest' else ([], rest)
      | [] => ([], [])
      end in
    if bool_decide (int ++ frac = []) then None
    else (fun e => decimal_f64 neg (digits_value (int ++ frac)) (e - Z.of_nat (length frac))
                     (length (int ++ frac))) <$> parse_exponent rest.

Example parse_half : parse_f64 "0.5" = Some (fdiv (f64_of 1) (f64_of 2)).
Proof. vm_compute. reflexivity. Qed.
Example parse_tenth : parse_f64 "1e-1" = Some (fdiv (f64_of 1) (f64_of 10)).
Proof. vm_compute. reflexivity. Qed.
Example parse_huge : parse_f64 "+2.5E400" = Some (S754_infinity false).
Proof. vm_compute. reflexivity. Qed.
Example parse_bad : parse_f64 "." = None /\ parse_f64 "1e" = None /\ parse_f64 "1x" = None.
Proof. vm_compute. done. Qed.
Example wait_rounds : try_from_secs_f64 (fdiv (f64_of 3) (f64_of 2)) = Some 1500000000%N.
Proof. vm_compute. reflexivity. Qed.
