(* ===== verification/Scope.v ===== *)
(** * Call scopes, egress logs and audit events
      (src/src/policy/scope.rs, src/src/ports/audit_sink.rs,
       src/src/ports/policy_decision_point.rs, src/src/error.rs)

    The vocabulary of one tool call: who it runs as, the log of egress
    decisions its outcome record carries, the owner its artifacts and cache
    entries belong to, the decision point it consults, and the events it
    writes. *)
From S2P Require Import Prelude RustStr Json PolicyTypes Signing PolicyEngine.

(** ** Errors *)

Inductive ErrorKind := AuthMissing | AuthInvalid | ApiError | UnexpectedError.

Inductive OriginalError := OJson (v : Value) | OString (s : string).

Record McpError := {
  err_message : string;
  err_kind : ErrorKind;
  err_status : option N;
  err_original : option OriginalError;
}.

Definition api_error (message : string) (status : option N) (original : option OriginalError) : McpError :=
  {| err_message := message; err_kind := ApiError; err_status := status; err_original := original |}.

Definition auth_invalid (message : string) : McpError :=
  {| err_message := message; err_kind := AuthInvalid; err_status := Some 401%N; err_original := None |}.

(** ** The egress log of a call *)

Definition MAX_EGRESS_RECORDS : nat := 64.

Inductive EgressDispatch :=
| Denied
| NotAttempted
| CacheHit
| Attempted (attempts : N) (last_status : option N) (failure : option string).

Record EgressRecord := {
  er_vendor : string;
  er_method : HttpMethod;
  canonical_target : string;
  destination_origin : option string;
  er_effect : PolicyEffect;
  er_rule_id : option string;
  dispatch : EgressDispatch;
}.

Record EgressLog := { records : list EgressRecord; omitted : nat }.

Definition empty_log : EgressLog := {| records := []; omitted := 0 |}.

Record EgressSummary := { requests : list EgressRecord; summary_omitted : nat }.

(** The ticket's scope is the call's own. *)
Record EgressTicket := { index : option nat }.

Definition set_dispatch (d : EgressDispatch) (r : EgressRecord) : EgressRecord :=
  {| er_vendor := er_vendor r; er_method := er_method r; canonical_target := canonical_target r;
     destination_origin := destination_origin r; er_effect := er_effect r;
     er_rule_id := er_rule_id r; dispatch := d |}.

(** [EgressTicket::update]: out of range or beyond the bound is a no-op. *)
Definition update (t : EgressTicket) (apply : EgressRecord -> EgressRecord) (log : EgressLog) : EgressLog :=
  match index t with
  | None => log
  | Some i => {| records := alter apply i (records log); omitted := omitted log |}
  end.

Definition cache_hit (t : EgressTicket) (log : EgressLog) : EgressLog :=
  update t (set_dispatch CacheHit) log.

(** [*attempts += 1] on a [u32], which wraps in a release build. *)
Definition U32 : N := 4294967296.

Definition attempted (t : EgressTicket) (status : option N) (failure : option string) (log : EgressLog)
    : EgressLog :=
  update t (fun r => set_dispatch
    (match dispatch r with
     | Attempted attempts _ _ => Attempted ((attempts + 1) mod U32)%N status failure
     | _ => Attempted 1 status failure
     end) r) log.

Definition note_egress (r : EgressRecord) (log : EgressLog) : EgressLog * EgressTicket :=
  if (length (records log) <? MAX_EGRESS_RECORDS)%nat then
    ({| records := records log ++ [r]; omitted := omitted log |},
     {| index := Some (length (records log)) |})
  else
    ({| records := records log; omitted := S (omitted log) |}, {| index := None |}).

Definition take_egress (log : EgressLog) : EgressLog * option EgressSummary :=
  (empty_log,
   if negb (bool_decide (records log = [])) || (0 <? omitted log)%nat
   then Some {| requests := records log; summary_omitted := omitted log |}
   else None).

(** ** Owners of artifacts and cache partitions *)

Inductive OwnerKey := OwnerLocal | OwnerPrincipal (tenant subject : string).

#[export] Instance OwnerKey_eq_dec : EqDecision OwnerKey.
Proof. solve_decision. Defined.

Definition owner_of (p : Principal) : OwnerKey :=
  if bool_decide (authority p = Local) then OwnerLocal
  else OwnerPrincipal (tenant p) (subject p).

Definition nul : byte := byte_of 0.

(** The bytes [OwnerKey::hash_into] feeds the hasher, in order. *)
Definition owner_bytes (o : OwnerKey) : list byte :=
  match o with
  | OwnerLocal => as_bytes "owner:local" ++ [nul]
  | OwnerPrincipal tenant subject =>
      as_bytes "owner:principal" ++ [nul] ++ as_bytes tenant ++ [nul] ++ as_bytes subject ++ [nul]
  end.

(** ** Decision points *)

Record PolicyDecisionPoint := {
  pdp_evaluate : ActionContext -> PolicyDecision;
  pdp_version : option string;
  pdp_enforces : bool;
  pdp_degraded : option string;
}.

Definition AllowAll : PolicyDecisionPoint :=
  {| pdp_evaluate := fun _ => local_allow; pdp_version := None; pdp_enforces := false;
     pdp_degraded := None |}.

(** The snapshot of a [FilePolicy] a call is decided under. *)
Definition file_policy (p : CompiledPolicy) (degraded : option string) : PolicyDecisionPoint :=
  {| pdp_evaluate := evaluate p; pdp_version := Some (cp_version p); pdp_enforces := true;
     pdp_degraded := degraded |}.

(** ** Call scopes *)

(** The audit sink of an enforcement is the call's own journal. *)
Record Enforcement := {
  en_policy : PolicyDecisionPoint;
  en_upstream : UpstreamIdentity;
  en_append_timeout : N;
}.

Record CallScope := {
  cs_principal : Principal;
  cs_client : ClientIdentity;
  cs_tool_name : string;
  cs_request_id : string;
  cs_enforcement : option Enforcement;
}.

(** [OwnerKey::current]. *)
Definition owner_current (scope : option CallScope) : OwnerKey :=
  match scope with None => OwnerLocal | Some s => owner_of (cs_principal s) end.

(** ** Audit events *)

Inductive AuditEventKind := ToolCallIntent | ToolCallOutcome | EgressDecision.

Record AuditEvent := {
  ev_timestamp : string;
  ev_kind : AuditEventKind;
  ev_request_id : string;
  ev_tool_name : string;
  ev_vendor : string;
  ev_principal : Principal;
  ev_client : ClientIdentity;
  ev_decision : PolicyDecision;
  ev_upstream : UpstreamIdentity;
  ev_action : option ActionContext;
  ev_outcome : option string;
  ev_duration_ms : option N;
  ev_egress : option EgressSummary;
}.

Record UsageEvent := {
  us_timestamp : string;
  us_tenant : string;
  us_subject : string;
  us_tool_name : string;
  us_vendor : string;
  us_environment : string;
  us_decision : string;
  us_risk : string;
  us_outcome : string;
  us_duration_ms : N;
}.

(** ** Validated tokens (src/src/ports/token_validator.rs) *)

Inductive SubjectKind := Human | Machine | UnknownKind.

#[export] Instance SubjectKind_eq_dec : EqDecision SubjectKind.
Proof. solve_decision. Defined.

Record Actor := { actor_subject : string; actor_issuer : option string }.

Record TokenFacts := {
  issued_at : option N;
  token_id : option string;
  actors : option (list Actor);
  subject_kind : SubjectKind;
}.

(** [TokenFacts::default()]. *)
Definition no_facts : TokenFacts :=
  {| issued_at := None; token_id := None; actors := None; subject_kind := UnknownKind |}.

Record Authenticated := { auth_principal : Principal; auth_token : TokenFacts }.
