(* ===== verification/ResponseCache.v ===== *)
(** * The response cache (src/src/transport/response_cache.rs and observation.rs)

    A bounded, process-local cache of successful reads, partitioned by the
    acting principal and the upstream credential.  Serialization (serde_json)
    and compression (zstd) are the interface [BodyCodec]; HTTP dates are a
    parameter; a moment is a number of milliseconds.  The metadata-only
    observations written after the lock is released are not part of the
    cache's state and are left out. *)
From stdpp Require Import countable fin_maps.
From S2P Require Import Prelude RustStr Json PolicyTypes Signing Config Scope.

(** ** Requests and responses *)

Record RequestOptions := {
  fresh : bool;
  sensitive_response : bool;
  opt_method : option HttpMethod;
  opt_headers : list (string * string);
  opt_body : option Value;
  opt_form : option (list (string * string));
  opt_text_body : option string;
  opt_timeout : option N;
}.

Inductive ResponseBody := Json (v : Value) | Text (s : string) | Empty.

Record CacheMetadata := { hit : bool; age_ms : N; fetched_at : string }.

(** A header map: lower-case names and raw values, in order. *)
Abbreviation HeaderMap := (list (string * string)).

(** [HeaderValue::to_str]: visible ASCII and tabs only. *)
Definition header_to_str (v : string) : option string :=
  if forallb (fun b => between 32 b 126 || (code b =? 9)%N) (as_bytes v) then Some v else None.

(** [headers.get(name)]: the first value. *)
Definition header_get (headers : HeaderMap) (name : string) : option string :=
  snd <$> List.find (fun '(n, _) => String.eqb n name) headers.

Definition header_contains (headers : HeaderMap) (name : string) : bool :=
  existsb (fun '(n, _) => String.eqb n name) headers.

(** [str::contains]. *)
Fixpoint contains_bytes (l needle : list byte) : bool :=
  starts_with_bytes l needle ||
  match l with [] => false | _ :: rest => contains_bytes rest needle end.
Definition str_contains (s needle : string) : bool := contains_bytes (as_bytes s) (as_bytes needle).

(** ** Configuration *)

Record CacheConfig := {
  enabled : bool;
  default_ttl : N;
  max_ttl : N;
  max_entries : nat;
  max_bytes : N;
  compression_threshold : N;
  exploration : bool;
}.

(** Durations in milliseconds; [u64::try_from] of a negative setting fails. *)
Definition positive_setting (c : Config) (key : string) (default_ : N) : N :=
  default default_ (keep (fun v => 0 <? v)%N
    (let v := get_int c key (Z.of_N default_) in
     if (v <? 0)%Z then None else Some (Z.to_N v))).

Definition seconds (c : Config) (key : string) (default_ : N) : N :=
  (1000 * positive_setting c key default_)%N.

Definition cache_config_from (c : Config) : CacheConfig :=
  {| enabled := get_bool c "HTTP_CACHE_ENABLED" false;
     exploration := get_bool c "HTTP_CACHE_EXPLORATION_ENABLED" false;
     default_ttl := seconds c "HTTP_CACHE_DEFAULT_TTL_SECONDS" 60;
     max_ttl := seconds c "HTTP_CACHE_MAX_TTL_SECONDS" 3600;
     max_entries := N.to_nat (positive_setting c "HTTP_CACHE_MAX_ENTRIES" 512);
     max_bytes := positive_setting c "HTTP_CACHE_MAX_BYTES" (64 * 1024 * 1024);
     compression_threshold := positive_setting c "HTTP_CACHE_COMPRESSION_THRESHOLD_BYTES" (16 * 1024) |}.

(** ** Keys *)

Record CacheKey := {
  key_vendor : string;
  key_url : string;
  identity : list byte;
  representation : list byte;
}.

#[export] Instance CacheKey_eq_dec : EqDecision CacheKey.
Proof. solve_decision. Defined.

#[export] Instance CacheKey_countable : Countable CacheKey.
Proof.
  refine (inj_countable'
    (fun k => (key_vendor k, key_url k, identity k, representation k))
    (fun '(v, u, i, r) => {| key_vendor := v; key_url := u; identity := i; representation := r |}) _).
  by intros [].
Defined.

(** [sort_by(name.cmp.then(value.cmp))]. *)
Definition header_le (p q : string * string) : Prop :=
  str_le p.1 q.1 /\ (p.1 = q.1 -> str_le p.2 q.2).
#[export] Instance header_le_dec : RelDecision header_le.
Proof. intros p q. unfold header_le, str_le. apply _. Defined.

Definition identity_message (auth_name auth_value : string) (owner : OwnerKey) : list byte :=
  owner_bytes owner ++ as_bytes auth_name ++ [nul] ++ as_bytes auth_value.

Definition representation_message (headers : list (string * string)) : list byte :=
  mjoin (map (fun '(name, value) =>
                as_bytes (to_ascii_lowercase name) ++ [nul] ++ as_bytes value ++ [byte_of 255])
             (merge_sort header_le headers)).

Section Key.
Variable sha256 : list byte -> list byte.

Definition cache_key_new (vendor url auth_name auth_value : string)
    (headers : list (string * string)) (owner : OwnerKey) : CacheKey :=
  {| key_vendor := vendor; key_url := url;
     identity := sha256 (identity_message auth_name auth_value owner);
     representation := sha256 (representation_message headers) |}.
End Key.

Definition request_is_cacheable (url auth_name : string) (o : RequestOptions) : bool :=
  if bool_decide (is_Some (opt_body o)) || bool_decide (is_Some (opt_form o))
     || bool_decide (is_Some (opt_text_body o)) then false
  else
    let path := to_ascii_lowercase url in
    let session_properties := str_contains path "/webapp/sessionproperties" in
    if existsb (str_contains path) ["/login"; "/authentication-state"; "/oauth"; "/token"] then false
    else session_properties
         || negb (existsb (String.eqb (to_ascii_lowercase auth_name)) ["cookie"; "sessionkey"]).

(** ** Entries *)

Inductive BodyKind := KJson | KText | KEmpty.

#[export] Instance BodyKind_eq_dec : EqDecision BodyKind.
Proof. solve_decision. Defined.

Inductive StoredBytes := Plain (l : list byte) | Zstd (l : list byte).

Definition stored_len (b : StoredBytes) : N :=
  match b with Plain l | Zstd l => N.of_nat (length l) end.

(** The observation-only fields (the decision and decode timings) are left out. *)
Record Entry := {
  e_kind : BodyKind;
  e_bytes : StoredBytes;
  stored_bytes : N;
  expires_at : N;
  stored_at : N;
  e_fetched_at : string;
  e_ttl : N;
  response_bytes : N;
  last_used : N;
  hit_count : N;
}.

Record Cache := {
  entries : gmap CacheKey Entry;
  total_bytes : N;
  clock : N;
  hits_total : N;
  misses : N;
}.

Definition empty_cache : Cache :=
  {| entries := ∅; total_bytes := 0; clock := 0; hits_total := 0; misses := 0 |}.

(** serde_json on values, zstd on bytes. *)
Class BodyCodec := {
  json_encode : Value -> option (list byte);
  json_decode : list byte -> option Value;
  zstd_encode : list byte -> option (list byte);
  zstd_decode : list byte -> option (list byte);
}.

(** What the cache relies on: decompression undoes compression.  Nothing is
    said of serde_json, which need not read back the value it wrote: a float
    may come back another, and nesting is bounded when reading. *)
Class CodecLaws (C : BodyCodec) : Prop := {
  zstd_roundtrip : forall l z, zstd_encode l = Some z -> zstd_decode z = Some l;
}.

Definition sat_incr (n : N) : N := N.min (n + 1) U64_MAX.
Definition wrapping_incr (n : N) : N := ((n + 1) mod 18446744073709551616)%N.

Section Ops.
Context `{C : BodyCodec}.
(** httpdate's parser, in milliseconds since the epoch. *)
Variable http_date : string -> option N.
Implicit Types (c : Cache) (key : CacheKey) (now : N).

Definition read_body (kind : BodyKind) (l : list byte) : option ResponseBody :=
  match kind with
  | KJson => Json <$> json_decode l
  | KText => if utf8_valid l then Some (Text (of_bytes l)) else None
  | KEmpty => Some Empty
  end.

Definition decode (e : Entry) : option ResponseBody :=
  let bytes := match e_bytes e with Plain l => Some l | Zstd z => zstd_decode z end in
  bytes ≫= read_body (e_kind e).

Definition encode_body (b : ResponseBody) : option (BodyKind * list byte) :=
  match b with
  | Json v => (fun l => (KJson, l)) <$> json_encode v
  | Text s => Some (KText, as_bytes s)
  | Empty => Some (KEmpty, [])
  end.

Definition remove c key : Cache * option Entry :=
  match entries c !! key with
  | None => (c, None)
  | Some e =>
      ({| entries := delete key (entries c); total_bytes := (total_bytes c - stored_bytes e)%N;
          clock := clock c; hits_total := hits_total c; misses := misses c |}, Some e)
  end.

Definition with_clock c (n : N) : Cache :=
  {| entries := entries c; total_bytes := total_bytes c; clock := n; hits_total := hits_total c;
     misses := misses c |}.

Definition with_entry c key (e : Entry) : Cache :=
  {| entries := <[key := e]> (entries c); total_bytes := total_bytes c; clock := clock c;
     hits_total := hits_total c; misses := misses c |}.

Definition touch (e : Entry) (tick : N) (decoded : bool) : Entry :=
  {| e_kind := e_kind e; e_bytes := e_bytes e; stored_bytes := stored_bytes e;
     expires_at := expires_at e; stored_at := stored_at e; e_fetched_at := e_fetched_at e;
     e_ttl := e_ttl e; response_bytes := response_bytes e; last_used := tick;
     hit_count := if decoded then sat_incr (hit_count e) else hit_count e |}.

Definition count_lookup c (found : bool) : Cache :=
  {| entries := entries c; total_bytes := total_bytes c; clock := clock c;
     hits_total := if found then sat_incr (hits_total c) else hits_total c;
     misses := if found then misses c else sat_incr (misses c) |}.

Definition cache_get key now c : Cache * option (ResponseBody * CacheMetadata) :=
  let expired := match entries c !! key with Some e => (expires_at e <=? now)%N | None => false end in
  let c := if expired then (remove c key).1 else c in
  let c := with_clock c (wrapping_incr (clock c)) in
  let tick := clock c in
  match entries c !! key with
  | None => (count_lookup c false, None)
  | Some e =>
      match decode e with
      | Some body =>
          let e' := touch e tick true in
          (count_lookup (with_entry c key e') true,
           Some (body, {| hit := true; age_ms := (now - stored_at e')%N; fetched_at := e_fetched_at e' |}))
      | None =>
          ((remove (count_lookup (with_entry c key (touch e tick false)) false) key).1, None)
      end
  end.

(** ** Lifetimes *)

Definition star_part (part : string) : bool := String.eqb (trim part) "*".

Definition comma : byte := byte_of 44.
Definition quote : byte := byte_of 34.

Definition no_store (directive : string) : bool :=
  eq_ignore_ascii_case directive "no-store" || eq_ignore_ascii_case directive "no-cache".

Definition max_age (directive : string) : option N :=
  strip_prefix "max-age=" directive ≫= (fun v => parse_unsigned U64_MAX (trim_matches quote v)).

Fixpoint first_max_age (directives : list string) : option N :=
  match directives with
  | [] => None
  | d :: rest => match max_age d with Some s => Some s | None => first_max_age rest end
  end.

(** The lifetime and its source; [now] is the wall clock. *)
Definition response_ttl (headers : HeaderMap) (config : CacheConfig) (wall : N) : option (N * string) :=
  let vary_star :=
    match header_get headers "vary" ≫= header_to_str with
    | Some v => existsb star_part (split comma v) | None => false end in
  if vary_star then None
  else
    let directives :=
      match header_get headers "cache-control" ≫= header_to_str with
      | Some v => map trim (split comma v) | None => [] end in
    if existsb no_store directives then None
    else
      match first_max_age directives with
      | Some s => if (0 <? s)%N then Some (N.min (s * 1000) (max_ttl config), "cache_control") else None
      | None =>
          match (header_get headers "expires" ≫= header_to_str) ≫= http_date with
          | Some at_ =>
              if (wall <=? at_)%N then
                if (0 <? at_ - wall)%N then Some (N.min (at_ - wall) (max_ttl config), "expires") else None
              else Some (N.min (default_ttl config) (max_ttl config), "default")
          | None => Some (N.min (default_ttl config) (max_ttl config), "default")
          end
      end.

(** ** Admission and eviction *)

Inductive Action := Admit | Reject.

(** [observation::choose]: the action and the lifetime it gives. *)
Definition choose (exploration : bool) (ttl : N) (random : N) : Action * N :=
  if negb exploration then (Admit, ttl)
  else if (random <? 32)%N then (Reject, 0%N)
  else if (random <? 64)%N then (Admit, (ttl / 2)%N)
  else (Admit, ttl).

(** The least recently used of some entries; [HashMap] iteration order only
    decides ties. *)
Fixpoint min_used (l : list (CacheKey * Entry)) : option (CacheKey * Entry) :=
  match l with
  | [] => None
  | p :: rest =>
      match min_used rest with
      | None => Some p
      | Some q => if (last_used p.2 <=? last_used q.2)%N then Some p else Some q
      end
  end.

Definition over (c : Cache) (config : CacheConfig) : bool :=
  (max_entries config <? size (entries c))%nat || (max_bytes config <? total_bytes c)%N.

(** The `while` loop: every iteration removes an entry, so the number of
    entries bounds it. *)
Fixpoint evict_loop (fuel : nat) c (config : CacheConfig) : Cache :=
  if negb (over c config) then c
  else
    match fuel with
    | O => c
    | S fuel' =>
        match min_used (map_to_list (entries c)) with
        | None => c
        | Some (key, _) => evict_loop fuel' (remove c key).1 config
        end
    end.

Definition evict c (config : CacheConfig) : Cache := evict_loop (size (entries c)) c config.

(** [now] and [wall] are the two clocks; [random] the first byte of the UUID. *)
Definition cache_store key (body : ResponseBody) (headers : HeaderMap) (config : CacheConfig)
    (metadata : CacheMetadata) (now wall random : N) c : Cache :=
  let blocked := header_contains headers "set-cookie"
                 && negb (str_contains (to_ascii_lowercase (key_url key)) "/webapp/sessionproperties") in
  if blocked then c
  else
    match response_ttl headers config wall with
    | None => c
    | Some (base_ttl, _) =>
        match encode_body body with
        | None => c
        | Some (kind, plain) =>
            let response_bytes := N.of_nat (length plain) in
            if (max_bytes config / 2 <? response_bytes)%N then c
            else
              let bytes :=
                if (compression_threshold config <=? response_bytes)%N then
                  match zstd_encode plain with
                  | Some z => if (length z <? length plain)%nat then Zstd z else Plain plain
                  | None => Plain plain
                  end
                else Plain plain in
              let '(action, ttl) := choose (exploration config) base_ttl random in
              match action with
              | Reject => c
              | Admit =>
                  let c := (remove c key).1 in
                  let c := with_clock c (wrapping_incr (clock c)) in
                  let e := {| e_kind := kind; e_bytes := bytes; stored_bytes := stored_len bytes;
                              expires_at := (now + ttl)%N; stored_at := now;
                              e_fetched_at := fetched_at metadata; e_ttl := ttl;
                              response_bytes := response_bytes; last_used := clock c;
                              hit_count := 0 |} in
                  let c := {| entries := <[key := e]> (entries c);
                              total_bytes := (total_bytes c + stored_bytes e)%N;
                              clock := clock c; hits_total := hits_total c; misses := misses c |} in
                  evict c config
              end
        end
    end.

(** ** Invalidation *)

Definition sum_bytes (m : gmap CacheKey Entry) : N :=
  map_fold (fun _ e acc => (stored_bytes e + acc)%N) 0%N m.

Definition drain_matching (predicate : CacheKey -> Entry -> bool) c : Cache :=
  let kept := filter (fun p => predicate p.1 p.2 = false) (entries c) in
  {| entries := kept; total_bytes := sum_bytes kept; clock := clock c; hits_total := hits_total c;
     misses := misses c |}.

Definition invalidate key c : Cache := (remove c key).1.

Definition invalidate_namespace (vendor base_url : string) c : Cache :=
  drain_matching (fun key _ => String.eqb (key_vendor key) vendor && starts_with (key_url key) base_url) c.

Definition maintain (shutdown : bool) now c : Cache :=
  let c := drain_matching (fun _ e => (expires_at e <=? now)%N) c in
  if shutdown then drain_matching (fun _ _ => true) c else c.

End Ops.

(** ** Accounting *)

Lemma sum_bytes_insert (m : gmap CacheKey Entry) k e :
  m !! k = None -> sum_bytes (<[k := e]> m) = (stored_bytes e + sum_bytes m)%N.
Proof. intros Hk. unfold sum_bytes. rewrite map_fold_insert_L; [done| |done]. intros; lia. Qed.

Lemma sum_bytes_delete (m : gmap CacheKey Entry) k e :
  m !! k = Some e -> sum_bytes m = (stored_bytes e + sum_bytes (delete k m))%N.
Proof.
  intros Hk. rewrite <- (insert_delete_id m k e Hk) at 1. apply sum_bytes_insert, lookup_delete_eq.
Qed.

Lemma sum_bytes_empty : sum_bytes ∅ = 0%N.
Proof. apply map_fold_empty. Qed.

Lemma sum_bytes_same (m : gmap CacheKey Entry) k e e' :
  m !! k = Some e -> stored_bytes e' = stored_bytes e -> sum_bytes (<[k := e']> m) = sum_bytes m.
Proof.
  intros Hk He. rewrite <- insert_delete_eq, sum_bytes_insert by apply lookup_delete_eq.
  rewrite (sum_bytes_delete m k e Hk). lia.
Qed.

(** The byte total is the sum over the entries. *)
Definition accounted (c : Cache) : Prop := total_bytes c = sum_bytes (entries c).

(** No entry was used after the present tick. *)
Definition ticked (c : Cache) : Prop :=
  forall k e, entries c !! k = Some e -> (last_used e <= clock c)%N.

Record within (config : CacheConfig) (c : Cache) : Prop := {
  within_entries : (size (entries c) <= max_entries config)%nat;
  within_bytes : (total_bytes c <= max_bytes config)%N;
}.

Lemma over_within c config : over c config = false <-> within config c.
Proof.
  unfold over. rewrite orb_false_iff, Nat.ltb_ge, N.ltb_ge. split; [intros []|intros []]; by constructor.
Qed.

Lemma remove_entries c key : entries (remove c key).1 = delete key (entries c).
Proof.
  unfold remove. destruct (entries c !! key) eqn:E; [done|]. cbn. by rewrite delete_id.
Qed.

Lemma remove_clock c key : clock (remove c key).1 = clock c.
Proof. unfold remove. by destruct (entries c !! key). Qed.

Lemma remove_total c key : (total_bytes (remove c key).1 <= total_bytes c)%N.
Proof. unfold remove. destruct (entries c !! key); cbn; lia. Qed.

Lemma remove_accounted c key : accounted c -> accounted (remove c key).1.
Proof.
  unfold accounted. rewrite remove_entries. unfold remove. intros Ht.
  destruct (entries c !! key) as [e|] eqn:E; cbn.
  - rewrite Ht, (sum_bytes_delete _ _ _ E). lia.
  - by rewrite delete_id.
Qed.

Lemma remove_within config c key : within config c -> within config (remove c key).1.
Proof.
  intros [Hs Hb]. constructor.
  - rewrite remove_entries, map_size_delete. unfold id. destruct (entries c !! key); lia.
  - pose proof (remove_total c key). lia.
Qed.

Lemma min_used_None l : min_used l = None -> l = [].
Proof. destruct l as [|p l]; [done|]. cbn. destruct (min_used l); [by case_match|done]. Qed.

Lemma min_used_Some l p :
  min_used l = Some p -> p ∈ l /\ forall q, q ∈ l -> (last_used p.2 <= last_used q.2)%N.
Proof.
  revert p. induction l as [|x l IH]; intros p; [done|]. cbn.
  destruct (min_used l) as [q|] eqn:E.
  - destruct (IH q eq_refl) as [Hq Hmin]. destruct (N.leb_spec (last_used x.2) (last_used q.2)); intros [= <-].
    + split; [set_solver|]. intros r [->|Hr]%elem_of_cons; [lia|]. specialize (Hmin r Hr). lia.
    + split; [set_solver|]. intros r [->|Hr]%elem_of_cons; [lia|]. auto.
  - apply min_used_None in E as ->. intros [= <-]. split; [set_solver|]. intros r Hr. set_solver.
Qed.

(** While the cache is over its limits there is an entry to evict. *)
Lemma over_inhabited c config :
  accounted c -> over c config = true -> min_used (map_to_list (entries c)) <> None.
Proof.
  intros Ht Ho E%min_used_None. red in Ht. apply map_to_list_empty_iff in E.
  unfold over in Ho. rewrite Ht, E, sum_bytes_empty, map_size_empty in Ho.
  apply orb_true_iff in Ho as [Ho%Nat.ltb_lt|Ho%N.ltb_lt]; lia.
Qed.

Lemma size_remove_min c k e fuel :
  entries c !! k = Some e -> (size (entries c) <= S fuel)%nat ->
  (size (entries (remove c k).1) <= fuel)%nat.
Proof. intros Hk Hs. rewrite remove_entries, map_size_delete_Some by (by eexists). lia. Qed.

Lemma evict_loop_spec fuel c config :
  accounted c -> (size (entries c) <= fuel)%nat ->
  within config (evict_loop fuel c config) /\ accounted (evict_loop fuel c config)
  /\ clock (evict_loop fuel c config) = clock c
  /\ entries (evict_loop fuel c config) ⊆ entries c.
Proof.
  revert c. induction fuel as [|fuel IH]; intros c Ha Hs; cbn [evict_loop].
  - destruct (over c config) eqn:Ho; cbn [negb].
    + exfalso. apply (over_inhabited _ _ Ha Ho). apply Nat.le_0_r, map_size_empty_iff in Hs.
      by rewrite Hs, map_to_list_empty.
    + apply over_within in Ho. done.
  - destruct (over c config) eqn:Ho; cbn [negb]; [|by apply over_within in Ho].
    destruct (min_used _) as [[k e]|] eqn:E; [|by destruct (over_inhabited _ _ Ha Ho)].
    apply min_used_Some in E as [Hk%elem_of_map_to_list _].
    destruct (IH (remove c k).1) as (? & ? & Hc & Hsub);
      [by apply remove_accounted|by eapply size_remove_min|].
    split_and!; [done|done|by rewrite Hc, remove_clock|].
    etrans; [exact Hsub|]. rewrite remove_entries. apply delete_subseteq.
Qed.

(** ** Runs *)

Inductive CacheOp :=
| OGet (key : CacheKey) (now : N)
| OStore (key : CacheKey) (body : ResponseBody) (headers : HeaderMap) (metadata : CacheMetadata)
         (now wall random : N)
| OInvalidate (key : CacheKey)
| OInvalidateNamespace (vendor base_url : string)
| OMaintain (shutdown : bool) (now : N).

Section Runs.
Context `{C : BodyCodec}.
Variable http_date : string -> option N.
Variable config : CacheConfig.
Implicit Types (c : Cache) (op : CacheOp).

Definition apply_op op c : Cache :=
  match op with
  | OGet key now => (cache_get key now c).1
  | OStore key body headers metadata now wall random =>
      cache_store http_date key body headers config metadata now wall random c
  | OInvalidate key => invalidate key c
  | OInvalidateNamespace vendor base_url => invalidate_namespace vendor base_url c
  | OMaintain shutdown now => maintain shutdown now c
  end.

Definition run_ops (ops : list CacheOp) c : Cache := foldl (fun c op => apply_op op c) c ops.

(** The entry [cache_store] admits. *)
Definition admitted key body headers metadata now wall random (e : Entry) : Prop :=
  exists base_ttl source kind plain ttl,
    (header_contains headers "set-cookie"
       && negb (str_contains (to_ascii_lowercase (key_url key)) "/webapp/sessionproperties")) = false
    /\ response_ttl http_date headers config wall = Some (base_ttl, source)
    /\ encode_body body = Some (kind, plain)
    /\ (N.of_nat (length plain) <= max_bytes config / 2)%N
    /\ choose (exploration config) base_ttl random = (Admit, ttl)
    /\ e_kind e = kind /\ (e_bytes e = Plain plain \/ exists z, zstd_encode plain = Some z
                             /\ e_bytes e = Zstd z /\ (length z < length plain)%nat)
    /\ stored_bytes e = stored_len (e_bytes e)
    /\ expires_at e = (now + ttl)%N /\ stored_at e = now /\ e_fetched_at e = fetched_at metadata.

(** The cache before eviction. *)
Definition with_new c key e : Cache :=
  {| entries := <[key := e]> (entries (remove c key).1);
     total_bytes := (total_bytes (remove c key).1 + stored_bytes e)%N;
     clock := wrapping_incr (clock c); hits_total := hits_total (remove c key).1;
     misses := misses (remove c key).1 |}.

Lemma cache_store_cases key body headers metadata now wall random c :
  (cache_store http_date key body headers config metadata now wall random c = c
   /\ forall e, ~ admitted key body headers metadata now wall random e)
  \/ exists e, admitted key body headers metadata now wall random e
       /\ last_used e = wrapping_incr (clock c)
       /\ cache_store http_date key body headers config metadata now wall random c
          = evict (with_new c key e) config.
Proof.
  unfold cache_store. destruct (_ && negb _) eqn:Eb;
    [left; split; [done|]; intros e (? & ? & ? & ? & ? & ? & _); congruence|].
  destruct (response_ttl _ _ _ _) as [[ttl source]|] eqn:Et;
    [|left; split; [done|]; intros e (? & ? & ? & ? & ? & _ & ? & _); congruence].
  destruct (encode_body body) as [[kind plain]|] eqn:Ee;
    [|left; split; [done|]; intros e (? & ? & ? & ? & ? & _ & _ & ? & _); congruence].
  destruct (N.ltb_spec (max_bytes config / 2) (N.of_nat (length plain)));
    [left; split; [done|]; intros e (? & ? & ? & ? & ? & _ & _ & ? & Hle & _); simplify_eq; lia|].
  destruct (choose _ _ _) as [[] ttl'] eqn:Ec;
    [|left; split; [done|]; intros e (? & ? & ? & ? & ? & _ & ? & _ & _ & ? & _); congruence]. right.
  eexists {| e_kind := kind; stored_bytes := stored_len _; e_bytes := _; expires_at := now + ttl';
             stored_at := now; e_fetched_at := fetched_at metadata; e_ttl := ttl';
             response_bytes := N.of_nat (length plain); last_used := wrapping_incr (clock c);
             hit_count := 0 |}.
  split; [|split; [done|]]; [|unfold with_new; cbn [with_clock clock entries total_bytes hits_total misses]; by rewrite ?remove_clock].
  exists ttl, source, kind, plain, ttl'. split_and!; try done. cbn [e_bytes].
  destruct (_ <=? _)%N; [|by left]. destruct (zstd_encode plain) as [z|] eqn:Ez; [|by left].
  destruct (Nat.ltb_spec (length z) (length plain)); [right; by exists z|by left].
Qed.

Lemma with_new_accounted c key e : accounted c -> accounted (with_new c key e).
Proof.
  intros Ha%(remove_accounted _ key). unfold accounted in *. cbn [with_new entries total_bytes].
  rewrite sum_bytes_insert; [lia|]. rewrite remove_entries. apply lookup_delete_eq.
Qed.

Lemma cache_get_cases key now c :
  clock (cache_get key now c).1 = wrapping_incr (clock c)
  /\ ((cache_get key now c).2 = None
        /\ entries (cache_get key now c).1 = delete key (entries c)
        /\ total_bytes (cache_get key now c).1 = total_bytes (remove c key).1
      \/ exists e body, entries c !! key = Some e /\ (now < expires_at e)%N /\ decode e = Some body
        /\ (cache_get key now c).2
           = Some (body, {| hit := true; age_ms := (now - stored_at e)%N; fetched_at := e_fetched_at e |})
        /\ entries (cache_get key now c).1
           = <[key := touch e (wrapping_incr (clock c)) true]> (entries c)
        /\ total_bytes (cache_get key now c).1 = total_bytes c).
Proof.
  unfold cache_get. destruct (entries c !! key) as [e|] eqn:E.
  - destruct (N.leb_spec (expires_at e) now); cbn [entries with_clock clock].
    + rewrite remove_entries, lookup_delete_eq. cbn. rewrite remove_entries, remove_clock. auto.
    + rewrite E. destruct (decode e) as [body|] eqn:Ed.
      * cbn. split; [done|]. right. exists e, body. split_and!; auto.
      * cbn [fst snd]. rewrite remove_entries, remove_clock. cbn [count_lookup with_entry entries clock with_clock].
        rewrite delete_insert_eq. split; [done|]. left. split_and!; [done|done|].
        unfold remove. cbn. rewrite lookup_insert_eq, E. done.
  - cbn. rewrite E. cbn. rewrite delete_id by done. unfold remove. rewrite E. auto.
Qed.

Lemma drain_accounted f c : accounted (drain_matching f c).
Proof. done. Qed.

Lemma drain_entries f c : entries (drain_matching f c) ⊆ entries c.
Proof. apply map_filter_subseteq. Qed.

Lemma sum_bytes_subseteq (m1 m2 : gmap CacheKey Entry) : m1 ⊆ m2 -> (sum_bytes m1 <= sum_bytes m2)%N.
Proof.
  revert m2. induction m1 as [|k e m Hk IH] using map_ind; intros m2 Hsub.
  { rewrite sum_bytes_empty. lia. }
  assert (H2 : m2 !! k = Some e) by (apply (lookup_weaken (<[k:=e]> m)); [apply lookup_insert_eq|done]).
  rewrite sum_bytes_insert by done. rewrite (sum_bytes_delete m2 k e H2).
  assert (sum_bytes m <= sum_bytes (delete k m2))%N; [|lia]. apply IH.
  rewrite <- (delete_insert_id m k e) by done. by apply delete_mono.
Qed.

Lemma drain_within f c : accounted c -> within config c -> within config (drain_matching f c).
Proof.
  intros Ha [Hs Hb]. pose proof (drain_entries f c) as Hsub. constructor.
  - etrans; [by apply map_subseteq_size|done].
  - etrans; [|exact Hb]. rewrite Ha. by apply sum_bytes_subseteq.
Qed.

Lemma apply_op_bounded op c :
  accounted c -> within config c -> accounted (apply_op op c) /\ within config (apply_op op c).
Proof.
  intros Ha Hw. destruct op as [key now|key body headers metadata now wall random|key|vendor base|sd now]; cbn.
  - destruct (cache_get_cases key now c) as [_ [(_ & He & Ht)|(e & body & Hk & _ & _ & _ & He & Ht)]].
    + destruct (remove_within config c key Hw) as [Hs Hb]. pose proof (remove_accounted c key Ha) as Hr.
      rewrite remove_entries in Hs. split; [|constructor; [by rewrite He|by rewrite Ht]].
      unfold accounted in *. by rewrite He, Ht, <- remove_entries.
    + destruct Hw as [Hs Hb]. split; [|constructor].
      * unfold accounted in *. rewrite He, Ht, Ha. symmetry. by eapply sum_bytes_same.
      * rewrite He, map_size_insert_Some; [done|by eexists].
      * by rewrite Ht.
  - destruct (cache_store_cases key body headers metadata now wall random c) as [[-> _]|(e & _ & _ & ->)]; [done|].
    destruct (evict_loop_spec (size (entries (with_new c key e))) (with_new c key e) config) as (? & ? & _);
      [by apply with_new_accounted|done|done].
  - split; [by apply remove_accounted|by apply remove_within].
  - split; [done|by apply drain_within].
  - unfold maintain. destruct sd; (split; [done|]); repeat apply drain_within; done.
Qed.

(** ** Where an entry comes from *)

Definition same_content (e e' : Entry) : Prop :=
  e_kind e = e_kind e' /\ e_bytes e = e_bytes e' /\ expires_at e = expires_at e'
  /\ stored_at e = stored_at e' /\ e_fetched_at e = e_fetched_at e'.

(** The operation neither discards nor replaces the entry. *)
Definition spares (k : CacheKey) (e : Entry) op : Prop :=
  match op with
  | OGet k' now => k' = k -> (now < expires_at e)%N
  | OStore k' body headers metadata now wall random =>
      k' = k -> forall e', ~ admitted k body headers metadata now wall random e'
  | OInvalidate k' => k' <> k
  | OInvalidateNamespace vendor base => ~ (key_vendor k = vendor /\ starts_with (key_url k) base = true)
  | OMaintain shutdown now => shutdown = false /\ (now < expires_at e)%N
  end.

Definition stored_by (k : CacheKey) (e : Entry) op : Prop :=
  exists body headers metadata now wall random,
    op = OStore k body headers metadata now wall random
    /\ admitted k body headers metadata now wall random e.

Lemma drain_lookup f c k e :
  entries (drain_matching f c) !! k = Some e <-> entries c !! k = Some e /\ f k e = false.
Proof. apply map_lookup_filter_Some. Qed.

Lemma apply_op_origin op c k e :
  accounted c -> entries (apply_op op c) !! k = Some e ->
  stored_by k e op \/ exists e0, entries c !! k = Some e0 /\ same_content e e0 /\ spares k e0 op.
Proof.
  intros Ha. destruct op as [key now|key body headers metadata now wall random|key|vendor base|sd now]; cbn [apply_op].
  - intros Hk. right. destruct (cache_get_cases key now c) as [_ [(_ & He & _)|(e1 & b & Hk1 & Hlt & _ & _ & He & _)]];
      rewrite He in Hk.
    + apply lookup_delete_Some in Hk as [Hne Hk]. exists e. by split_and!; [..|cbn].
    + apply lookup_insert_Some in Hk as [[-> <-]|[Hne Hk]]; [exists e1|exists e]; by split_and!; [..|cbn].
  - destruct (cache_store_cases key body headers metadata now wall random c) as [[-> Hno]|(e1 & Had & _ & ->)].
    + intros Hk. right. exists e. split_and!; [done|done|]. intros -> e'. apply Hno.
    + destruct (evict_loop_spec (size (entries (with_new c key e1))) (with_new c key e1) config)
        as (_ & _ & _ & Hsub); [by apply with_new_accounted|done|].
      intros Hk. eapply lookup_weaken in Hk; [|exact Hsub]. cbn in Hk.
      apply lookup_insert_Some in Hk as [[-> <-]|[Hne Hk]].
      * left. by exists body, headers, metadata, now, wall, random.
      * right. rewrite remove_entries, lookup_delete_Some in Hk. destruct Hk as [_ Hk].
        exists e. split_and!; [done|done|]. by intros ->.
  - unfold invalidate. rewrite remove_entries, lookup_delete_Some. intros [Hne Hk]. right. exists e. by split_and!; [..|cbn].
  - unfold invalidate_namespace. intros [Hk Hf]%drain_lookup. right. exists e. split_and!; [done|done|].
    intros [<- Hs]. by rewrite String.eqb_refl, Hs in Hf.
  - unfold maintain. intros Hk. right. cbv zeta in Hk. exists e.
    destruct sd; apply drain_lookup in Hk as [Hk Hf]; [done|].
    apply N.leb_gt in Hf. by split_and!; [..|cbn].
Qed.

Lemma run_ops_bounded ops c :
  accounted c -> within config c -> accounted (run_ops ops c) /\ within config (run_ops ops c).
Proof.
  revert c. induction ops as [|op ops IH]; intros c Ha Hw; [done|]. cbn.
  destruct (apply_op_bounded op c Ha Hw). by apply IH.
Qed.

Lemma empty_bounded : accounted empty_cache /\ within config empty_cache.
Proof.
  split; [symmetry; apply sum_bytes_empty|].
  constructor; cbn [entries total_bytes empty_cache]; [rewrite map_size_empty|]; lia.
Qed.

Lemma same_content_sym e e' : same_content e e' -> same_content e' e.
Proof. intros (? & ? & ? & ? & ?). by repeat split. Qed.

Lemma same_content_trans e1 e2 e3 : same_content e1 e2 -> same_content e2 e3 -> same_content e1 e3.
Proof. intros (? & ? & ? & ? & ?) (? & ? & ? & ? & ?). repeat split; congruence. Qed.

Lemma spares_same k e e' op : same_content e e' -> spares k e' op -> spares k e op.
Proof. intros (_ & _ & Hx & _). destruct op; cbn; by rewrite ?Hx. Qed.

Lemma run_ops_origin ops k e :
  entries (run_ops ops empty_cache) !! k = Some e ->
  exists ops1 op ops2 e0, ops = ops1 ++ op :: ops2 /\ stored_by k e0 op
    /\ same_content e e0 /\ Forall (spares k e0) ops2.
Proof.
  revert e. induction ops as [|op ops IH] using rev_ind; intros e.
  { cbn [run_ops foldl entries empty_cache]. by rewrite lookup_empty. }
  unfold run_ops. rewrite foldl_app. cbn [foldl]. fold (run_ops ops empty_cache). intros Hk.
  apply apply_op_origin in Hk as [Hst|(e1 & Hk & Hsame & Hsp)].
  - exists ops, op, [], e. by split_and!.
  - destruct (IH e1 Hk) as (ops1 & op0 & ops2 & e0 & -> & Hst & Hs0 & Hf).
    exists ops1, op0, (ops2 ++ [op]), e0. split; [by rewrite <- app_assoc|]. split; [done|]. split.
    + by eapply same_content_trans.
    + apply Forall_app. split; [done|]. apply Forall_singleton. eapply spares_same; [|exact Hsp].
      by apply same_content_sym.
  - apply run_ops_bounded; apply empty_bounded.
Qed.

Lemma ttl_le_max headers wall ttl source :
  response_ttl http_date headers config wall = Some (ttl, source) -> (ttl <= max_ttl config)%N.
Proof.
  unfold response_ttl. cbv zeta.
  repeat (match goal with |- context [if ?b then _ else _] => destruct b
          | |- context [match ?o with Some _ => _ | None => _ end] => destruct o end);
    intros H; try discriminate H; injection H as <- _; lia.
Qed.

Lemma choose_le b ttl random ttl' a : choose b ttl random = (a, ttl') -> (ttl' <= ttl)%N.
Proof.
  unfold choose. intros H. repeat case_in H; injection H as <- <-; try lia.
  apply N.Div0.div_le_upper_bound; lia.
Qed.

Lemma stored_plain `{!CodecLaws C} (b : StoredBytes) (plain : list byte) :
  b = Plain plain \/ (exists z, zstd_encode plain = Some z /\ b = Zstd z /\ (length z < length plain)%nat) ->
  match b with Plain l => Some l | Zstd z => zstd_decode z end = Some plain.
Proof. intros [->|(z & Hz & -> & _)]; [done|by apply zstd_roundtrip]. Qed.

(** A body as it is read back from its own serialization. *)
Definition read_back (body : ResponseBody) : option ResponseBody :=
  encode_body body ≫= fun '(kind, l) => read_body kind l.

Lemma decode_encoded `{!CodecLaws C} key body headers metadata now wall random e :
  admitted key body headers metadata now wall random e -> decode e = read_back body.
Proof.
  intros (ttl & src & kind & plain & ttl' & _ & _ & Henc & _ & _ & Hk & Hb & _). unfold decode, read_back.
  by rewrite Hk, (stored_plain _ _ Hb), Henc.
Qed.

(** What comes back of a text or an empty body is the body itself. *)
Lemma read_back_spec body body' : read_back body = Some body' ->
  match body with
  | Json v => exists l v', json_encode v = Some l /\ json_decode l = Some v' /\ body' = Json v'
  | Text _ | Empty => body' = body
  end.
Proof.
  unfold read_back. destruct body as [v|s|]; cbn.
  - destruct (json_encode v) as [l|]; [|done]. cbn. destruct (json_decode l) as [v'|] eqn:El; [|done]. intros [= <-]. by exists l, v'.
  - destruct (utf8_valid _); [|done]. intros [= <-]. by rewrite of_as_bytes.
  - by intros [= <-].
Qed.

Lemma evict_keeps fuel c k e :
  accounted c -> entries c !! k = Some e ->
  (forall k' e', k' <> k -> entries c !! k' = Some e' -> (last_used e' < last_used e)%N) ->
  (0 < max_entries config)%nat -> (stored_bytes e <= max_bytes config)%N ->
  entries (evict_loop fuel c config) !! k = Some e.
Proof.
  intros Ha Hk Hlast Hm Hb. revert c Ha Hk Hlast. induction fuel as [|fuel IH]; intros c Ha Hk Hlast; cbn [evict_loop].
  { by destruct (negb _). }
  destruct (over c config) eqn:Ho; cbn [negb]; [|done].
  destruct (min_used _) as [[k1 e1]|] eqn:E; [|done].
  apply min_used_Some in E as [Hk1%elem_of_map_to_list Hmin].
  assert (Hne : k1 <> k).
  { intros ->. rewrite Hk in Hk1. injection Hk1 as <-.
    assert (Hs : entries c = {[k := e]}).
    { apply map_eq. intros k'. destruct (decide (k' = k)) as [->|Hne]; [by rewrite lookup_singleton_eq|].
      rewrite lookup_singleton_ne by done. destruct (entries c !! k') as [e'|] eqn:E'; [|done]. exfalso.
      pose proof (Hmin (k', e') ltac:(by apply elem_of_map_to_list)). specialize (Hlast k' e' Hne E').
      cbn in *. lia. }
    unfold over in Ho. rewrite Ha, Hs, map_size_singleton in Ho.
    rewrite <- insert_empty, sum_bytes_insert, sum_bytes_empty in Ho by apply lookup_empty.
    apply orb_true_iff in Ho as [Ho%Nat.ltb_lt|Ho%N.ltb_lt]; lia. }
  apply IH; [by apply remove_accounted| |].
  - rewrite remove_entries. by rewrite lookup_delete_ne.
  - intros k' e' Hne'. rewrite remove_entries, lookup_delete_Some. intros [_ ?]. eauto.
Qed.

Lemma wrapping_incr_small n : (n + 1 < 18446744073709551616)%N -> wrapping_incr n = (n + 1)%N.
Proof. apply N.mod_small. Qed.

Lemma subseteq_ticked c c' :
  ticked c -> entries c' ⊆ entries c -> (clock c <= clock c')%N -> ticked c'.
Proof. intros Ht Hs Hc k e Hk. eapply lookup_weaken in Hk; [|done]. specialize (Ht k e Hk). lia. Qed.

Lemma apply_op_ticked op c :
  accounted c -> ticked c -> (clock c + 1 < 18446744073709551616)%N ->
  ticked (apply_op op c) /\ (clock c <= clock (apply_op op c) <= clock c + 1)%N.
Proof.
  intros Ha Ht Hc. pose proof (wrapping_incr_small _ Hc) as Hw.
  destruct op as [key now|key body headers metadata now wall random|key|vendor base|sd now]; cbn [apply_op].
  - destruct (cache_get_cases key now c) as [Hcl [(_ & He & _)|(e & b & Hk & _ & _ & _ & He & _)]];
      rewrite Hcl, Hw; (split; [|lia]); intros k e'; rewrite He, Hcl, Hw.
    + intros [_ H]%lookup_delete_Some. specialize (Ht k e' H). lia.
    + intros [[-> <-]|[_ H]]%lookup_insert_Some; [cbn; lia|]. specialize (Ht k e' H). lia.
  - destruct (cache_store_cases key body headers metadata now wall random c) as [[-> _]|(e & _ & Hl & ->)];
      [split; [done|lia]|].
    destruct (evict_loop_spec (size (entries (with_new c key e))) (with_new c key e) config)
      as (_ & _ & Hcl & Hsub); [by apply with_new_accounted|done|].
    unfold evict. rewrite Hcl. cbn [clock with_new]. rewrite Hw. split; [|lia].
    intros k e' Hk. eapply lookup_weaken in Hk; [|exact Hsub]. rewrite Hcl. cbn [clock with_new entries] in *.
    rewrite Hw. apply lookup_insert_Some in Hk as [[_ <-]|[_ Hk]]; [lia|].
    rewrite remove_entries, lookup_delete_Some in Hk. specialize (Ht k e' (proj2 Hk)). lia.
  - unfold invalidate. rewrite remove_clock. split; [|lia].
    apply (subseteq_ticked c); [done| |by rewrite remove_clock]. rewrite remove_entries. apply delete_subseteq.
  - split; [|cbn; lia]. apply (subseteq_ticked c); [done|apply drain_entries|done].
  - unfold maintain. destruct sd; (split; [|cbn; lia]); (apply (subseteq_ticked c); [done| |done]);
      [etrans|]; apply drain_entries.
Qed.

Lemma run_ops_ticked ops :
  (N.of_nat (length ops) + 1 < 18446744073709551616)%N ->
  ticked (run_ops ops empty_cache) /\ (clock (run_ops ops empty_cache) <= N.of_nat (length ops))%N.
Proof.
  induction ops as [|op ops IH] using rev_ind; intros Hl.
  { split; [|cbn; lia]. intros k e. cbn [run_ops foldl entries empty_cache]. by rewrite lookup_empty. }
  rewrite length_app in Hl. cbn in Hl. destruct IH as [Ht Hc]; [lia|].
  unfold run_ops. rewrite foldl_app. cbn [foldl]. fold (run_ops ops empty_cache).
  destruct (apply_op_ticked op (run_ops ops empty_cache)) as [? ?];
    [apply run_ops_bounded; apply empty_bounded|done|lia|].
  split; [done|]. rewrite length_app. cbn. lia.
Qed.

(** C36: A cache hit is what was stored.  Whatever sequence of lookups, stores,
    invalidations and maintenance a process performed under one cache
    configuration, a hit answers from an earlier store under exactly the same
    key: with the very text or empty body that was stored, and for JSON with
    what serde_json reads back from what it wrote of the stored value (the
    value itself wherever that is what it reads); with that store's timestamp
    and its age.  The store was admissible, at most the maximum lifetime has
    passed since, and no operation in between expired, invalidated or replaced
    the entry. *)
Theorem cache_hit_is_stored `{!CodecLaws C} ops key now body md :
  (cache_get key now (run_ops ops empty_cache)).2 = Some (body, md) ->
  exists ops1 stored headers metadata at_ wall random ops2 e,
    ops = ops1 ++ OStore key stored headers metadata at_ wall random :: ops2
    /\ match stored with
       | Json v => exists l v', json_encode v = Some l /\ json_decode l = Some v' /\ body = Json v'
       | Text _ | Empty => body = stored
       end
    /\ admitted key stored headers metadata at_ wall random e /\ Forall (spares key e) ops2
    /\ (now < at_ + max_ttl config)%N
    /\ md = {| hit := true; age_ms := (now - at_)%N; fetched_at := fetched_at metadata |}.
Proof.
  intros Hget. destruct (cache_get_cases key now (run_ops ops empty_cache))
    as [_ [(Hn & _)|(e & b & Hk & Hlt & Hd & Hr & _)]]; [congruence|].
  rewrite Hget in Hr. injection Hr as <- ->.
  apply run_ops_origin in Hk as (ops1 & op & ops2 & e0 & -> & Hst & Hsame & Hf).
  destruct Hst as (b0 & headers & metadata & at_ & wall & random & -> & Had).
  assert (Hd0 : decode e0 = Some body).
  { destruct Hsame as (Hk & Hb & _). unfold decode in *. by rewrite <- Hk, <- Hb. }
  rewrite (decode_encoded _ _ _ _ _ _ _ _ Had) in Hd0.
  exists ops1, b0, headers, metadata, at_, wall, random, ops2, e0.
  destruct Hsame as (_ & _ & Hx & Hs & Hft). split; [done|]. split; [by apply read_back_spec|]. split; [done|]. split; [done|].
  destruct Had as (ttl & src & kind & plain & ttl' & _ & Htt & _ & _ & Hc & _ & _ & _ & Hex & Hsa & Hfa).
  split; [|by rewrite Hs, Hsa, Hft, Hfa].
  pose proof (ttl_le_max _ _ _ _ Htt). pose proof (choose_le _ _ _ _ _ Hc). lia.
Qed.

(** The cache stays within its configured limits.  After any sequence of
    operations it holds at most the configured number of entries and bytes,
    its byte counter is exactly the sum over its entries, and the eviction
    loop has always terminated. *)
Theorem cache_stays_bounded ops :
  (size (entries (run_ops ops empty_cache)) <= max_entries config)%nat
  /\ (total_bytes (run_ops ops empty_cache) <= max_bytes config)%N
  /\ total_bytes (run_ops ops empty_cache) = sum_bytes (entries (run_ops ops empty_cache)).
Proof.
  destruct (run_ops_bounded ops empty_cache) as [? [? ?]]; try apply empty_bounded. done.
Qed.

(** A stored response is found.  When a response is admissible - no
    blocking cookie, a lifetime, a body that encodes within half the byte
    budget and is read back, not rejected by exploration - a lookup under the same key before
    its expiry returns it, whatever the cache held before: eviction removes
    least recently used entries and never the one just stored. *)
Theorem cache_store_then_get `{!CodecLaws C} ops key body body' headers metadata at_ wall random e now :
  (N.of_nat (length ops) + 1 < 18446744073709551616)%N ->
  (0 < max_entries config)%nat -> read_back body = Some body' ->
  admitted key body headers metadata at_ wall random e -> (now < expires_at e)%N ->
  (cache_get key now (cache_store http_date key body headers config metadata at_ wall random
                        (run_ops ops empty_cache))).2
  = Some (body', {| hit := true; age_ms := (now - at_)%N; fetched_at := fetched_at metadata |}).
Proof.
  intros Hlen Hm Hu Had Hnow. set (c := run_ops ops empty_cache).
  destruct (run_ops_bounded ops empty_cache) as [Ha _]; [apply empty_bounded..|]. fold c in Ha.
  destruct (run_ops_ticked ops Hlen) as [Ht Hc]. fold c in Ht, Hc.
  destruct (cache_store_cases key body headers metadata at_ wall random c) as [[_ Hno]|(e1 & Had1 & Hl & ->)];
    [by destruct (Hno e)|].
  assert (Hex : expires_at e1 = expires_at e /\ stored_at e1 = at_ /\ e_fetched_at e1 = fetched_at metadata
                /\ (stored_bytes e1 <= max_bytes config)%N).
  { destruct Had as (t & ? & ? & ? & t' & _ & Et & _ & _ & Ec & _ & _ & _ & -> & _).
    destruct Had1 as (? & ? & ? & plain & ? & _ & Et1 & _ & Hle & Ec1 & _ & Hb & -> & -> & -> & ->).
    simplify_eq. rewrite Ec in Ec1. injection Ec1 as <-. split_and!; try done.
    assert (max_bytes config / 2 <= max_bytes config)%N by (apply N.Div0.div_le_upper_bound; lia).
    destruct Hb as [->|(z & _ & -> & Hz)]; cbn [stored_len]; lia. }
  destruct Hex as (Hx & Hs & Hf & Hb).
  assert (Hin : entries (evict (with_new c key e1) config) !! key = Some e1).
  { apply evict_keeps; [by apply with_new_accounted|apply lookup_insert_eq| |done|done].
    intros k' e' Hne. cbn [with_new entries]. rewrite lookup_insert_ne by done.
    rewrite remove_entries, lookup_delete_Some. intros [_ Hk]. specialize (Ht k' e' Hk).
    rewrite Hl, wrapping_incr_small by lia. lia. }
  destruct (cache_get_cases key now (evict (with_new c key e1) config))
    as [_ [(Hn & He & _)|(e2 & b & Hk & _ & Hd & Hr & _)]].
  - exfalso. revert Hn. unfold cache_get. rewrite Hin.
    destruct (N.leb_spec (expires_at e1) now); [lia|]. cbn [with_clock entries]. rewrite Hin.
    by rewrite (decode_encoded _ _ _ _ _ _ _ _ Had1), Hu.
  - rewrite Hin in Hk. injection Hk as <-. rewrite Hr.
    rewrite (decode_encoded _ _ _ _ _ _ _ _ Had1), Hu in Hd. injection Hd as <-. by rewrite Hs, Hf.
Qed.

End Runs.

(** ** Partitions *)

Lemma split_nul (l1 l2 r1 r2 : list byte) :
  nul ∉ l1 -> nul ∉ l2 -> l1 ++ nul :: r1 = l2 ++ nul :: r2 -> l1 = l2 /\ r1 = r2.
Proof.
  revert l2. induction l1 as [|a l1 IH]; intros [|b l2] H1 H2 E; cbn in E; try (injection E as ? E; subst; set_solver).
  - by injection E.
  - injection E as -> E. destruct (IH l2) as [-> ->]; [set_solver..|done|done].
Qed.

(** No NUL byte, as header names and the claims of a validated token have. *)
Definition nul_free (s : string) : Prop := nul ∉ as_bytes s.
Definition owner_nul_free (o : OwnerKey) : Prop :=
  match o with OwnerLocal => True | OwnerPrincipal tenant subject => nul_free tenant /\ nul_free subject end.

Lemma identity_message_inj n1 v1 o1 n2 v2 o2 :
  owner_nul_free o1 -> owner_nul_free o2 -> nul_free n1 -> nul_free n2 ->
  identity_message n1 v1 o1 = identity_message n2 v2 o2 -> n1 = n2 /\ v1 = v2 /\ o1 = o2.
Proof.
  intros H1 H2 Hn1 Hn2. unfold identity_message, owner_bytes.
  assert (Hfin : forall m1 m2, as_bytes n1 ++ [nul] ++ m1 = as_bytes n2 ++ [nul] ++ m2 -> n1 = n2 /\ m1 = m2).
  { intros m1 m2 E. apply split_nul in E as [E ->]; [|done|done]. split; [by apply as_bytes_inj|done]. }
  destruct o1 as [|t1 s1], o2 as [|t2 s2]; try (intros E; discriminate E).
  - intros E%app_inv_head. apply Hfin in E as [-> E%as_bytes_inj]. done.
  - destruct H1 as [Ht1 Hs1], H2 as [Ht2 Hs2]. rewrite <- !app_assoc. intros E%app_inv_head.
    apply app_inv_head in E. apply split_nul in E as [Et E]; [|done|done]. cbn [app] in E.
    apply split_nul in E as [Es E]; [|done|done].
    apply Hfin in E as [-> E%as_bytes_inj]. apply as_bytes_inj in Et, Es. by subst.
Qed.

(** The cache is partitioned by principal and credential.  Two requests
    share a cache key only if they were made for the same owner, with the same
    authentication header and value, to the same vendor and URL - or two
    different messages with the same SHA-256 are in hand. *)
Theorem cache_key_partitions sha256 vendor1 url1 n1 v1 h1 o1 vendor2 url2 n2 v2 h2 o2 :
  owner_nul_free o1 -> owner_nul_free o2 -> nul_free n1 -> nul_free n2 ->
  cache_key_new sha256 vendor1 url1 n1 v1 h1 o1 = cache_key_new sha256 vendor2 url2 n2 v2 h2 o2 ->
  (vendor1 = vendor2 /\ url1 = url2 /\ n1 = n2 /\ v1 = v2 /\ o1 = o2)
  \/ exists m1 m2, m1 <> m2 /\ sha256 m1 = sha256 m2.
Proof.
  intros H1 H2 Hn1 Hn2 E. injection E as -> -> Hi _.
  destruct (decide (identity_message n1 v1 o1 = identity_message n2 v2 o2)) as [E|Hne]; [left|right; eauto].
  apply identity_message_inj in E as (-> & -> & ->); done.
Qed.

(** An expiry date in the past does not expire the response: with no other
    caching header, [response_ttl] falls back to the default lifetime, so a
    response its origin declared stale is cached and served. *)
Theorem cache_ignores_past_expiry http_date headers config wall value at_ :
  header_get headers "vary" = None -> header_get headers "cache-control" = None ->
  header_get headers "expires" = Some value -> header_to_str value = Some value ->
  http_date value = Some at_ -> (at_ < wall)%N ->
  response_ttl http_date headers config wall
  = Some (N.min (default_ttl config) (max_ttl config), "default").
Proof.
  intros Hv Hc He Hs Hd Hlt. unfold response_ttl. rewrite Hv, Hc, He. cbn [mbind option_bind].
  rewrite Hs. cbn [mbind option_bind]. rewrite Hd. cbn.
  by rewrite (proj2 (N.leb_gt wall at_)).
Qed.

(** ** A concrete cache *)

Module CacheWitness.

#[export] Instance toy_codec : BodyCodec := {|
  json_encode := fun v => match v with VNull => Some (as_bytes "null") | _ => None end;
  json_decode := fun l => if bool_decide (l = as_bytes "null") then Some VNull else None;
  zstd_encode := fun l => Some l;
  zstd_decode := fun l => Some l |}.

#[export] Instance toy_laws : CodecLaws toy_codec.
Proof. constructor. by intros l z [= <-]. Qed.

Definition small : CacheConfig :=
  {| enabled := true; default_ttl := 60; max_ttl := 3600; max_entries := 1; max_bytes := 100;
     compression_threshold := 50; exploration := false |}.

Definition no_date (_ : string) : option N := None.
Definition key_of (owner : OwnerKey) : CacheKey :=
  cache_key_new (fun l => l) "jira" "https://x/rest" "authorization" "Basic a" [] owner.
Definition alice : CacheKey := key_of (OwnerPrincipal "t" "alice").
Definition bob : CacheKey := key_of (OwnerPrincipal "t" "bob").
Definition md (at_ : string) : CacheMetadata := {| hit := false; age_ms := 0; fetched_at := at_ |}.
Definition ops : list CacheOp :=
  [OStore bob (Text "old") [] (md "t0") 0 0 0; OStore alice (Text "hi") [] (md "t1") 10 0 0; OGet bob 11].

Lemma cache_hit_is_stored_witness :
  (cache_get alice 15 (run_ops no_date small ops empty_cache)).2
    = Some (Text "hi", {| hit := true; age_ms := 5; fetched_at := "t1" |})
  /\ exists ops1 stored headers metadata at_ wall random ops2 e,
    ops = ops1 ++ OStore alice stored headers metadata at_ wall random :: ops2
    /\ match stored with
       | Json v => exists l v', json_encode v = Some l /\ json_decode l = Some v' /\ Text "hi" = Json v'
       | Text _ | Empty => Text "hi" = stored
       end
    /\ admitted no_date small alice stored headers metadata at_ wall random e
    /\ Forall (spares no_date small alice e) ops2
    /\ (15 < at_ + max_ttl small)%N
    /\ {| hit := true; age_ms := 5; fetched_at := "t1" |}
       = {| hit := true; age_ms := (15 - at_)%N; fetched_at := fetched_at metadata |}.
Proof.
  assert (E : (cache_get alice 15 (run_ops no_date small ops empty_cache)).2
    = Some (Text "hi", {| hit := true; age_ms := 5; fetched_at := "t1" |})) by (vm_compute; reflexivity).
  split; [exact E|]. exact (cache_hit_is_stored no_date small ops alice 15 _ _ E).
Defined.

Definition alice_entry : Entry :=
  {| e_kind := KText; e_bytes := Plain (as_bytes "hi"); stored_bytes := 2; expires_at := 70;
     stored_at := 10; e_fetched_at := "t1"; e_ttl := 60; response_bytes := 2; last_used := 0; hit_count := 0 |}.

Lemma cache_store_then_get_witness :
  (cache_get alice 20 (cache_store no_date alice (Text "hi") [] small (md "t1") 10 0 0
                         (run_ops no_date small ops empty_cache))).2
  = Some (Text "hi", {| hit := true; age_ms := 10; fetched_at := "t1" |}).
Proof.
  apply (cache_store_then_get no_date small ops alice (Text "hi") (Text "hi") [] (md "t1") 10 0 0 alice_entry 20).
  - vm_compute. reflexivity.
  - vm_compute. lia.
  - vm_compute. reflexivity.
  - exists 60%N, "default", KText, (as_bytes "hi"), 60%N. split_and!; try (vm_compute; reflexivity);
      [vm_compute; discriminate|]. left. reflexivity.
  - vm_compute. reflexivity.
Defined.

Lemma cache_key_partitions_witness :
  alice <> bob
  /\ (("jira" = "jira" /\ "u" = "u" /\ "a" = "a" /\ "v" = "v" /\ OwnerLocal = OwnerLocal)
      \/ exists m1 m2 : list byte, m1 <> m2 /\ (fun l : list byte => l) m1 = (fun l => l) m2).
Proof.
  split; [vm_compute; discriminate|].
  apply (cache_key_partitions (fun l => l) "jira" "u" "a" "v" [] OwnerLocal "jira" "u" "a" "v" [] OwnerLocal);
    try done; unfold nul_free; apply (bool_decide_unpack _); vm_compute; exact I.
Defined.

Lemma cache_ignores_past_expiry_witness :
  response_ttl (fun _ => Some 5%N) [("expires", "Thu, 01 Jan 1970 00:00:00 GMT")] small 1000
  = Some (60%N, "default").
Proof.
  apply (cache_ignores_past_expiry (fun _ => Some 5%N) [("expires", "Thu, 01 Jan 1970 00:00:00 GMT")] small 1000
           "Thu, 01 Jan 1970 00:00:00 GMT" 5); vm_compute; reflexivity.
Defined.

End CacheWitness.
