(* ===== verification/RateLimit.v ===== *)
(** * The per-principal rate limit (src/src/server/rate_limit.rs)

    A token bucket per validated subject, in exact binary64 arithmetic, in a
    map with a hard bound.  Instants are nanoseconds of the monotonic clock;
    one [check_at] is one critical section of the limiter's mutex. *)
From Stdlib Require Import SpecFloat.
From S2P Require Import Prelude RustStr Json Config F64 ResponseCache.

Definition MAX_TRACKED : nat := 10000.
Definition IDLE_EVICTION : N := 60 * NANOS_PER_SEC.
Definition SWEEP_MIN_GAP : N := NANOS_PER_SEC.

Definition one : f64 := f64_of 1.

Record RateLimitSettings := { per_second : f64; burst : f64 }.

Definition RATE_KEY : string := "MCP_RATE_LIMIT_PER_PRINCIPAL".
Definition BURST_KEY : string := "MCP_RATE_LIMIT_BURST".

(** [config.get(key).map(str::trim).filter(non-empty)]. *)
Definition setting (c : Config) (key : string) : option string :=
  get c key ≫= (fun v => if is_blank v then None else Some (trim v)).

Definition rate_settings_from_config (c : Config) : result (option RateLimitSettings) string :=
  match setting c RATE_KEY with
  | None => Ok None
  | Some rate =>
      match parse_f64 rate with
      | Some r =>
          if is_finite r && SFleb (S754_zero false) r then
            if SFeqb r (S754_zero false) then Ok None
            else
              match setting c BURST_KEY with
              | Some v =>
                  match parse_f64 v with
                  | Some b =>
                      if is_finite b && SFleb one b then Ok (Some {| per_second := r; burst := b |})
                      else Err (BURST_KEY ++ " must be a number of at least 1, got " ++ v)%string
                  | None => Err (BURST_KEY ++ " must be a number of at least 1, got " ++ v)%string
                  end
              | None => Ok (Some {| per_second := r; burst := fmax (fmul r (f64_of 2)) one |})
              end
          else Err (RATE_KEY ++ " must be a non-negative number, got " ++ rate)%string
      | None => Err (RATE_KEY ++ " must be a non-negative number, got " ++ rate)%string
      end
  end.

Record Bucket := { tokens : f64; refilled : N }.

Record Buckets := { bmap : gmap string Bucket; last_sweep : option N }.

Definition idle (now : N) (b : Bucket) : bool := (IDLE_EVICTION <=? now - refilled b)%N.

(** [retain] keeps what is not idle. *)
Definition sweep (now : N) (m : gmap string Bucket) : gmap string Bucket :=
  filter (fun p => idle now p.2 = false) m.

Definition make_room (now : N) (b : Buckets) : Buckets * bool :=
  if is_some_and (last_sweep b) (fun at_ => (now - at_ <? SWEEP_MIN_GAP)%N) then (b, false)
  else
    let m := sweep now (bmap b) in
    ({| bmap := m; last_sweep := Some now |}, (size m <? MAX_TRACKED)%nat).

Record RateLimiter := {
  rl_settings : RateLimitSettings;
  buckets : Buckets;
  refused : N;
  saturated : N;
}.

Inductive Verdict := VAllow | VRefuse (retry_after_secs : N).

Definition limiter_new (s : RateLimitSettings) : RateLimiter :=
  {| rl_settings := s; buckets := {| bmap := ∅; last_sweep := None |}; refused := 0; saturated := 0 |}.

Definition retry_after (wait_seconds : f64) : N :=
  match try_from_secs_f64 wait_seconds with
  | None => U64_MAX
  | Some nanos =>
      N.max (N.min (nanos / NANOS_PER_SEC + (if (0 <? nanos mod NANOS_PER_SEC)%N then 1 else 0)) U64_MAX) 1
  end.

Definition take_token (b : Bucket) (rate : f64) : Bucket * Verdict :=
  if SFleb one (tokens b) then ({| tokens := fsub (tokens b) one; refilled := refilled b |}, VAllow)
  else (b, VRefuse (retry_after (fdiv (fsub one (tokens b)) rate))).

(** A tracked bucket brought up to [now]. *)
Definition refill (s : RateLimitSettings) (now : N) (b : Bucket) : Bucket :=
  {| tokens := fmin (fadd (tokens b) (fmul (as_secs_f64 (now - refilled b)) (per_second s))) (burst s);
     refilled := now |}.

Definition check_buckets (s : RateLimitSettings) (subject : string) (now : N) (b : Buckets)
    : Buckets * Verdict * bool :=
  match bmap b !! subject with
  | Some bucket =>
      let '(bucket, verdict) := take_token (refill s now bucket) (per_second s) in
      ({| bmap := <[subject := bucket]> (bmap b); last_sweep := last_sweep b |}, verdict, false)
  | None =>
      let '(b, room) := if (MAX_TRACKED <=? size (bmap b))%nat then make_room now b else (b, true) in
      if room then
        let '(bucket, verdict) := take_token {| tokens := burst s; refilled := now |} (per_second s) in
        ({| bmap := <[subject := bucket]> (bmap b); last_sweep := last_sweep b |}, verdict, false)
      else (b, VRefuse (N.max (SWEEP_MIN_GAP / NANOS_PER_SEC) 1), true)
  end.

Definition check_at (subject : string) (now : N) (l : RateLimiter) : RateLimiter * Verdict :=
  let '(b, verdict, full) := check_buckets (rl_settings l) subject now (buckets l) in
  ({| rl_settings := rl_settings l; buckets := b;
      refused := match verdict with VRefuse _ => wrapping_incr (refused l) | VAllow => refused l end;
      saturated := if full then wrapping_incr (saturated l) else saturated l |}, verdict).

Definition checks_at (calls : list (string * N)) (l : RateLimiter) : RateLimiter :=
  foldl (fun l '(subject, now) => (check_at subject now l).1) l calls.

(** ** What a check may spend *)

(** The tokens a subject has at [now]: its own bucket refilled, or a full one
    if it is new and there is room for it. *)
Definition available (s : RateLimitSettings) (subject : string) (now : N) (b : Buckets) : option f64 :=
  match bmap b !! subject with
  | Some bucket => Some (tokens (refill s now bucket))
  | None =>
      if (size (bmap b) <? MAX_TRACKED)%nat || (make_room now b).2 then Some (burst s) else None
  end.

(** The bucket after a check: one token less if it passed. *)
Definition spent (verdict : Verdict) (t : f64) (now : N) : Bucket :=
  {| tokens := match verdict with VAllow => fsub t one | VRefuse _ => t end; refilled := now |}.

Lemma take_token_spec b rate :
  (snd (take_token b rate) = VAllow <-> SFleb one (tokens b) = true)
  /\ (forall n, snd (take_token b rate) = VRefuse n -> (1 <= n)%N)
  /\ (take_token b rate).1 = spent (take_token b rate).2 (tokens b) (refilled b).
Proof.
  unfold take_token. destruct b as [t at_]. cbn [tokens refilled]. destruct (SFleb one t); cbn; [naive_solver|].
  split; [done|]. split; [|done]. intros n [= <-]. unfold retry_after, U64_MAX.
  destruct (try_from_secs_f64 _); lia.
Qed.

Lemma sweep_lookup now m k b : sweep now m !! k = Some b <-> m !! k = Some b /\ idle now b = false.
Proof. unfold sweep. by rewrite map_lookup_filter_Some. Qed.

Lemma make_room_spec now b b' room :
  make_room now b = (b', room) ->
  (forall k x, bmap b' !! k = Some x -> bmap b !! k = Some x)
  /\ (forall k x, bmap b !! k = Some x -> bmap b' !! k = None -> idle now x = true)
  /\ (room = true -> (size (bmap b') < MAX_TRACKED)%nat)
  /\ (size (bmap b') <= size (bmap b))%nat.
Proof.
  unfold make_room. destruct (is_some_and _ _).
  { intros [= <- <-]. split_and!; [done| |done|done]. intros k x -> ?. done. }
  intros [= <- <-]. cbn [bmap]. split_and!.
  - intros k x [??]%sweep_lookup. done.
  - intros k x Hx Hn. destruct (idle now x) eqn:E; [done|].
    assert (sweep now (bmap b) !! k = Some x) by by apply sweep_lookup. congruence.
  - intros H%Nat.ltb_lt. done.
  - apply map_size_filter.
Qed.

Lemma insert_size_lt (m : gmap string Bucket) k b : (size m < MAX_TRACKED)%nat -> (size (<[k := b]> m) <= MAX_TRACKED)%nat.
Proof. intros Hm. rewrite map_size_insert. destruct (m !! k); unfold id; lia. Qed.

Lemma check_buckets_spec s subject now b :
  let '(b', verdict, full) := check_buckets s subject now b in
  (verdict = VAllow <-> exists t, available s subject now b = Some t /\ SFleb one t = true)
  /\ (forall n, verdict = VRefuse n -> (1 <= n)%N)
  /\ (forall k x, k <> subject -> bmap b' !! k = Some x -> bmap b !! k = Some x)
  /\ (forall k x, k <> subject -> bmap b !! k = Some x -> bmap b' !! k = None ->
        idle now x = true /\ bmap b !! subject = None /\ (MAX_TRACKED <= size (bmap b))%nat)
  /\ (full = true <-> available s subject now b = None)
  /\ (full = true -> bmap b' !! subject = None)
  /\ ((size (bmap b) <= MAX_TRACKED)%nat -> (size (bmap b') <= MAX_TRACKED)%nat)
  /\ (forall t, available s subject now b = Some t -> bmap b' !! subject = Some (spent verdict t now)).
Proof.
  unfold check_buckets, available. destruct (bmap b !! subject) as [bucket|] eqn:Es.
  - destruct (take_token_spec (refill s now bucket) (per_second s)) as (Ha & Hr & Hsp).
    destruct (take_token _ _) as [bucket' verdict]. cbn [fst snd bmap] in *. subst bucket'. split.
    { rewrite Ha. naive_solver. }
    split_and!; [done| | |done|done| |].
    + intros k x Hk. by rewrite lookup_insert_ne.
    + intros k x Hk Hx. rewrite lookup_insert_ne by done. congruence.
    + rewrite map_size_insert, Es. done.
    + intros t [= <-]. by rewrite lookup_insert_eq.
  - destruct (take_token_spec {| tokens := burst s; refilled := now |} (per_second s)) as (Ha & Hr & Hsp).
    assert (Hins : forall b1 : Buckets, (size (bmap b1) < MAX_TRACKED)%nat ->
      (forall k x, bmap b1 !! k = Some x -> bmap b !! k = Some x) ->
      (forall k x, bmap b !! k = Some x -> bmap b1 !! k = None ->
         idle now x = true /\ (MAX_TRACKED <= size (bmap b))%nat) ->
      (forall k x, k <> subject -> <[subject := (take_token {| tokens := burst s; refilled := now |} (per_second s)).1]>
                                     (bmap b1) !! k = Some x -> bmap b !! k = Some x)
      /\ (forall k x, k <> subject -> bmap b !! k = Some x ->
            <[subject := (take_token {| tokens := burst s; refilled := now |} (per_second s)).1]> (bmap b1) !! k = None ->
            idle now x = true /\ bmap b !! subject = None /\ (MAX_TRACKED <= size (bmap b))%nat)
      /\ (size (<[subject := (take_token {| tokens := burst s; refilled := now |} (per_second s)).1]> (bmap b1))
          <= MAX_TRACKED)%nat).
    { intros b1 Hsz H1 H2. split_and!.
      - intros k x Hk. rewrite lookup_insert_ne by done. apply H1.
      - intros k x Hk Hx. rewrite lookup_insert_ne by done. intros Hn. destruct (H2 k x Hx Hn). done.
      - by apply insert_size_lt. }
    destruct (take_token _ _) as [bucket' verdict]. cbn [fst snd tokens refilled] in *. subst bucket'.
    destruct (Nat.leb_spec MAX_TRACKED (size (bmap b))) as [Hfull|Hroom].
    + rewrite (proj2 (Nat.ltb_ge (size (bmap b)) MAX_TRACKED) Hfull). cbn [orb].
      destruct (make_room now b) as [b1 room] eqn:Em. cbn [snd].
      apply make_room_spec in Em as (H1 & H2 & H3 & H4). destruct room.
      * destruct (Hins b1 (H3 eq_refl) H1) as (G1 & G2 & G3).
        { intros k x Hx Hn. split; [by apply (H2 k)|done]. }
        cbn [bmap]. split; [rewrite Ha; naive_solver|]. split_and!; try done; [naive_solver..|].
        intros t [= <-]. by rewrite lookup_insert_eq.
      * split; [naive_solver|]. split; [intros n [= <-]; vm_compute; done|]. split_and!.
        -- intros k x _. apply H1.
        -- intros k x _ Hx Hn. split; [by apply (H2 k)|done].
        -- done.
        -- intros _. destruct (bmap b1 !! subject) as [x|] eqn:Ex; [|done]. apply H1 in Ex. congruence.
        -- lia.
        -- done.
    + rewrite (proj2 (Nat.ltb_lt (size (bmap b)) MAX_TRACKED) Hroom). cbn [orb].
      destruct (Hins b Hroom) as (G1 & G2 & G3); [done| |].
      { intros k x -> [=]. }
      cbn [bmap]. split; [rewrite Ha; naive_solver|]. split_and!; try done; [naive_solver..|].
      intros t [= <-]. by rewrite lookup_insert_eq.
Qed.

Lemma check_at_bounded subject now l :
  (size (bmap (buckets l)) <= MAX_TRACKED)%nat -> (size (bmap (buckets (check_at subject now l).1)) <= MAX_TRACKED)%nat.
Proof.
  intros Hl. unfold check_at. assert (Hs := check_buckets_spec (rl_settings l) subject now (buckets l)).
  destruct (check_buckets _ _ _ _) as [[b v] full]. cbn. destruct Hs as (_ & _ & _ & _ & _ & _ & Hs & _). auto.
Qed.

Lemma checks_at_bounded calls l :
  (size (bmap (buckets l)) <= MAX_TRACKED)%nat -> (size (bmap (buckets (checks_at calls l))) <= MAX_TRACKED)%nat.
Proof.
  revert l. induction calls as [|[subject now] calls IH]; intros l Hl; [done|]. cbn. apply IH, check_at_bounded, Hl.
Qed.

Lemma check_at_settings subject now l : rl_settings (check_at subject now l).1 = rl_settings l.
Proof. unfold check_at. by destruct (check_buckets _ _ _ _) as [[b v] full]. Qed.

Lemma checks_at_settings calls l : rl_settings (checks_at calls l) = rl_settings l.
Proof.
  revert l. induction calls as [|[subject now] calls IH]; intros l; [done|]. cbn. etransitivity; [apply IH|].
  apply check_at_settings.
Qed.

Lemma available_le_burst s subject now b t :
  is_nan (burst s) = false -> available s subject now b = Some t -> SFleb t (burst s) = true.
Proof.
  intros Hn. unfold available. destruct (bmap b !! subject) as [bucket|]; [|destruct (_ || _); [|done]];
    intros [= <-]; [by apply fmin_le_r|]. rewrite <-(fmin_le_r S754_nan (burst s) Hn). done.
Qed.

(** C38: The limiter after any sequence of checks.  Its map never holds more
    than [MAX_TRACKED] subjects.  A check passes exactly when the subject's own
    bucket, refilled for the time elapsed and never above the burst, or a full
    bucket for a new subject there is room for, holds a whole token; the
    bucket it leaves is that one, marked with the time of the check, less a
    token exactly when the check passed; a refusal asks for at least one
    second.  A check never changes another subject's
    bucket, and drops one only to make room for a new subject in a full map
    and only if it has been idle for [IDLE_EVICTION].  A new subject there is
    no room for is refused and not tracked. *)
Theorem rate_limit_sound settings calls subject now :
  is_nan (burst settings) = false ->
  let l := checks_at calls (limiter_new settings) in
  let '(l', verdict) := check_at subject now l in
  let m := bmap (buckets l) in
  let m' := bmap (buckets l') in
  (size m' <= MAX_TRACKED)%nat
  /\ (verdict = VAllow <-> exists t, available settings subject now (buckets l) = Some t /\ SFleb one t = true)
  /\ (forall t, available settings subject now (buckets l) = Some t -> m' !! subject = Some (spent verdict t now))
  /\ (forall t, available settings subject now (buckets l) = Some t -> SFleb t (burst settings) = true)
  /\ (forall n, verdict = VRefuse n -> (1 <= n)%N)
  /\ (forall k b, k <> subject -> m' !! k = Some b -> m !! k = Some b)
  /\ (forall k b, k <> subject -> m !! k = Some b -> m' !! k = None ->
        (IDLE_EVICTION <= now - refilled b)%N /\ m !! subject = None /\ size m = MAX_TRACKED)
  /\ (available settings subject now (buckets l) = None -> m' !! subject = None).
Proof.
  intros Hnan l. assert (Hset : rl_settings l = settings) by apply checks_at_settings.
  assert (Hsz : (size (bmap (buckets l)) <= MAX_TRACKED)%nat).
  { apply checks_at_bounded. cbn. rewrite map_size_empty. lia. }
  assert (Hs := check_buckets_spec settings subject now (buckets l)). unfold check_at. rewrite Hset.
  destruct (check_buckets settings subject now (buckets l)) as [[b v] full]. cbn [buckets].
  destruct Hs as (Ha & Hr & Hk & Hd & Hf & Hf' & Hb & Hsp).
  split; [auto|]. split; [done|]. split; [done|]. split; [intros t; by apply available_le_burst|]. split; [done|]. split; [done|]. split.
  - intros k x Hne Hx Hn. destruct (Hd k x Hne Hx Hn) as (Hi & Hsub & Hge). apply N.leb_le in Hi.
    split; [done|]. split; [done|]. lia.
  - intros Hav. apply Hf', Hf, Hav.
Qed.

Module RateWitness.
Definition two : RateLimitSettings := {| per_second := f64_of 1; burst := f64_of 2 |}.

(** Two requests at one instant pass, the third is told to wait a second. *)
Example burst_then_refuse :
  (check_at "alice" 0 (checks_at [("alice", 0%N); ("alice", 0%N)] (limiter_new two))).2 = VRefuse 1.
Proof. vm_compute. reflexivity. Qed.

Lemma rate_limit_sound_witness :
  exists t, available two "alice" 500000000 (buckets (checks_at [("alice", 0%N)] (limiter_new two))) = Some t
    /\ SFleb one t = true /\ SFleb t (burst two) = true
    /\ bmap (buckets (check_at "alice" 500000000 (checks_at [("alice", 0%N)] (limiter_new two))).1) !! "alice"
       = Some (spent VAllow t 500000000).
Proof.
  assert (Hs := rate_limit_sound two [("alice", 0%N)] "alice" 500000000 eq_refl). cbv zeta in Hs.
  destruct (check_at _ _ _) as [l' verdict] eqn:E in Hs. destruct Hs as (_ & Ha & Hsp & Hle & _).
  assert (Hv : verdict = VAllow) by (apply (f_equal snd) in E; vm_compute in E; by rewrite <-E).
  destruct (proj1 Ha Hv) as (t & Ht & H1). exists t. split; [exact Ht|]. split; [exact H1|].
  split; [exact (Hle t Ht)|]. rewrite E. cbn [fst]. rewrite (Hsp t Ht), Hv. reflexivity.
Defined.

(** "0.5" requests a second with the default burst. *)
Example settings_parse :
  rate_settings_from_config (from_map {[RATE_KEY := " 0.5 "]})
  = Ok (Some {| per_second := fdiv (f64_of 1) (f64_of 2); burst := one |}).
Proof. vm_compute. reflexivity. Qed.
End RateWitness.
