(* ===== verification/DiskQuota.v ===== *)
(** * The streaming disk quota (src/src/transport/mod.rs, [StreamingDiskCoordinator])

    One server-wide budget of bytes, shared by the transactions of concurrent
    downloads: leases grow and shrink, and a growth that does not fit waits in
    strict FIFO order.  Each definition below is one critical section of the
    coordinator's mutex; [acquire] is two, the request and what its task does
    when its wait ends.  A waiter's status word is kept in the state, keyed by
    the waiter's id.  Byte counts are [u64] with their checked arithmetic. *)
From S2P Require Import Prelude Json.

Definition checked_sub (a b : N) : option N := if (b <=? a)%N then Some (a - b)%N else None.

Record Transaction := { tx_reserved : N; tx_limit : N }.
Record Owned := { ow_owner : N; ow_amount : N }.
Record Waiter := { w_id : N; w_reservation : N; w_owner : N; w_amount : N }.

Inductive Status := Waiting | Granted | Failed.

#[export] Instance Status_eq_dec : EqDecision Status.
Proof. solve_decision. Defined.

Record DiskState := {
  reserved : N;
  peak : N;
  next_reservation : N;
  next_waiter : N;
  transactions : gmap N Transaction;
  reservations : gmap N Owned;
  waiters : list Waiter;
  status : gmap N Status;
  (** [NEXT_STREAMING_TRANSACTION]. *)
  next_owner : N;
}.

Definition disk_new : DiskState :=
  {| reserved := 0; peak := 0; next_reservation := 0; next_waiter := 0; transactions := ∅;
     reservations := ∅; waiters := []; status := ∅; next_owner := 1 |}.

Inductive DiskError :=
| TransactionClosed | IdOverflow | TransactionQuota | ServerQuota | LeaseGone | OwnerMismatch
| CounterOverflow | ReleaseUnderflow | LiveLease | WaitCancelled | WaitDeadline | NotGranted.

(** How the wait of a queued request ends. *)
Inductive WaitOutcome := Notified | Cancelled | DeadlinePassed.

#[export] Instance WaitOutcome_eq_dec : EqDecision WaitOutcome.
Proof. solve_decision. Defined.

Section Coordinator.
Variable limit : N.
Implicit Type d : DiskState.

Definition with_waiters (ws : list Waiter) d : DiskState :=
  {| reserved := reserved d; peak := peak d; next_reservation := next_reservation d;
     next_waiter := next_waiter d; transactions := transactions d; reservations := reservations d;
     waiters := ws; status := status d; next_owner := next_owner d |}.

Definition set_status (id : N) (x : Status) d : DiskState :=
  {| reserved := reserved d; peak := peak d; next_reservation := next_reservation d;
     next_waiter := next_waiter d; transactions := transactions d; reservations := reservations d;
     waiters := waiters d; status := <[id := x]> (status d); next_owner := next_owner d |}.

(** [with_coordinator]: a fresh owner, registered with its own limit; [None]
    is the panic when the identifiers are exhausted. *)
Definition new_transaction (tx_limit : N) d : option (DiskState * N) :=
  (fun next =>
     ({| reserved := reserved d; peak := peak d; next_reservation := next_reservation d;
         next_waiter := next_waiter d;
         transactions := <[next_owner d := {| tx_reserved := 0; tx_limit := tx_limit |}]> (transactions d);
         reservations := reservations d; waiters := waiters d; status := status d; next_owner := next |},
      next_owner d)) <$> checked_add (next_owner d) 1.

(** [server_transaction]: every transaction may fill the whole budget. *)
Definition server_transaction d : option (DiskState * N) := new_transaction limit d.

Definition register_reservation (owner : N) d : DiskState * result N DiskError :=
  match transactions d !! owner with
  | None => (d, Err TransactionClosed)
  | Some _ =>
      match checked_add (next_reservation d) 1 with
      | None => (d, Err IdOverflow)
      | Some r =>
          ({| reserved := reserved d; peak := peak d; next_reservation := r; next_waiter := next_waiter d;
              transactions := transactions d;
              reservations := <[r := {| ow_owner := owner; ow_amount := 0 |}]> (reservations d);
              waiters := waiters d; status := status d; next_owner := next_owner d |}, Ok r)
      end
  end.

Definition can_grant (amount : N) d : bool :=
  is_some_and (checked_add (reserved d) amount) (fun next => (next <=? limit)%N).

(** [checked_add] with the bound. *)
Definition add_within (a amount bound : N) : option N :=
  checked_add a amount ≫= fun next => if (next <=? bound)%N then Some next else None.

Definition set_amounts (global : N) (owner : N) (tx : Transaction) (reservation : N) (o : Owned) d : DiskState :=
  {| reserved := global; peak := N.max (peak d) global; next_reservation := next_reservation d;
     next_waiter := next_waiter d; transactions := <[owner := tx]> (transactions d);
     reservations := <[reservation := o]> (reservations d); waiters := waiters d; status := status d;
     next_owner := next_owner d |}.

Definition grant_locked (reservation owner amount : N) d : DiskState * result N DiskError :=
  match transactions d !! owner with
  | None => (d, Err TransactionClosed)
  | Some tx =>
      match add_within (tx_reserved tx) amount (tx_limit tx) with
      | None => (d, Err TransactionQuota)
      | Some tx_next =>
          match add_within (reserved d) amount limit with
          | None => (d, Err ServerQuota)
          | Some global_next =>
              match reservations d !! reservation with
              | None => (d, Err LeaseGone)
              | Some entry =>
                  if negb (ow_owner entry =? owner)%N then (d, Err OwnerMismatch)
                  else
                    match checked_add (ow_amount entry) amount with
                    | None => (d, Err CounterOverflow)
                    | Some next =>
                        (set_amounts global_next owner {| tx_reserved := tx_next; tx_limit := tx_limit tx |}
                           reservation {| ow_owner := ow_owner entry; ow_amount := next |} d, Ok next)
                    end
              end
          end
      end
  end.

(** The wake loop over the queue from its front. *)
Fixpoint wake_loop (ws : list Waiter) d : DiskState :=
  match ws with
  | [] => with_waiters [] d
  | w :: rest =>
      if negb (can_grant (w_amount w) d) then with_waiters ws d
      else
        let '(d, granted) := grant_locked (w_reservation w) (w_owner w) (w_amount w) d in
        wake_loop rest (set_status (w_id w) (if is_ok granted then Granted else Failed) d)
  end.

Definition wake_waiters_locked d : DiskState := wake_loop (waiters d) d.

(** The first half of [acquire]: an answer at once, or a place in the queue. *)
Inductive Acquire := AReady (r : result N DiskError) | AQueued (id : N).

Definition acquire_begin (reservation owner amount : N) d : DiskState * Acquire :=
  if (amount =? 0)%N then
    (d, AReady (match reservations d !! reservation with
                | Some entry => if (ow_owner entry =? owner)%N then Ok (ow_amount entry) else Err OwnerMismatch
                | None => Err OwnerMismatch
                end))
  else
    match transactions d !! owner with
    | None => (d, AReady (Err TransactionClosed))
    | Some tx =>
        match add_within (tx_reserved tx) amount (tx_limit tx) with
        | None => (d, AReady (Err TransactionQuota))
        | Some _ =>
            if bool_decide (waiters d = []) && can_grant amount d then
              let '(d, r) := grant_locked reservation owner amount d in (d, AReady r)
            else
              match checked_add (next_waiter d) 1 with
              | None => (d, AReady (Err IdOverflow))
              | Some id =>
                  ({| reserved := reserved d; peak := peak d; next_reservation := next_reservation d;
                      next_waiter := id; transactions := transactions d; reservations := reservations d;
                      waiters := waiters d ++ [{| w_id := id; w_reservation := reservation; w_owner := owner;
                                                  w_amount := amount |}];
                      status := <[id := Waiting]> (status d); next_owner := next_owner d |}, AQueued id)
              end
        end
    end.

Definition release_locked (reservation owner amount : N) d : DiskState * result N DiskError :=
  match reservations d !! reservation with
  | None => (d, Err LeaseGone)
  | Some entry =>
      if negb (ow_owner entry =? owner)%N then (d, Err OwnerMismatch)
      else
        match checked_sub (ow_amount entry) amount with
        | None => (d, Err ReleaseUnderflow)
        | Some next =>
            match transactions d !! owner with
            | None => (d, Err TransactionClosed)
            | Some tx =>
                match checked_sub (tx_reserved tx) amount, checked_sub (reserved d) amount with
                | Some tx_next, Some global_next =>
                    ({| reserved := global_next; peak := peak d; next_reservation := next_reservation d;
                        next_waiter := next_waiter d;
                        transactions := <[owner := {| tx_reserved := tx_next; tx_limit := tx_limit tx |}]>
                                          (transactions d);
                        reservations := <[reservation := {| ow_owner := ow_owner entry; ow_amount := next |}]>
                                          (reservations d);
                        waiters := waiters d; status := status d; next_owner := next_owner d |}, Ok next)
                | _, _ => (d, Err ReleaseUnderflow)
                end
            end
        end
  end.

(** What a wait that did not end in a grant reports. *)
Definition wait_error (o : WaitOutcome) : DiskError :=
  match o with Cancelled => WaitCancelled | DeadlinePassed => WaitDeadline | Notified => NotGranted end.

(** The second half: give up the place, or what was granted meanwhile. *)
Definition acquire_end (id reservation owner amount : N) (o : WaitOutcome) d : DiskState * result N DiskError :=
  let granted := bool_decide (status d !! id = Some Granted) in
  if negb (bool_decide (o = Notified) && granted) then
    if existsb (fun w => (w_id w =? id)%N) (waiters d) then
      let d := with_waiters (List.filter (fun w => negb (w_id w =? id)%N) (waiters d)) d in
      (wake_waiters_locked (set_status id Failed d), Err (wait_error o))
    else if granted then
      match release_locked reservation owner amount (set_status id Failed d) with
      | (d, Ok _) => (wake_waiters_locked d, Err (wait_error o))
      | (d, Err e) => (d, Err e)
      end
    else (set_status id Failed d, Err (wait_error o))
  else
    (d, match reservations d !! reservation with Some entry => Ok (ow_amount entry) | None => Err LeaseGone end).

Definition release (reservation owner amount : N) d : DiskState * result N DiskError :=
  match release_locked reservation owner amount d with
  | (d, Ok remaining) => (wake_waiters_locked d, Ok remaining)
  | (d, Err e) => (d, Err e)
  end.

Definition unregister_reservation (reservation owner : N) d : DiskState * result unit DiskError :=
  match reservations d !! reservation with
  | None => (d, Err LeaseGone)
  | Some entry =>
      if negb (ow_owner entry =? owner)%N then (d, Err OwnerMismatch)
      else if negb (ow_amount entry =? 0)%N then (d, Err LiveLease)
      else ({| reserved := reserved d; peak := peak d; next_reservation := next_reservation d;
               next_waiter := next_waiter d; transactions := transactions d;
               reservations := delete reservation (reservations d); waiters := waiters d;
               status := status d; next_owner := next_owner d |}, Ok tt)
  end.

(** [StreamingDiskLease::amount] and its [Drop]. *)
Definition lease_amount (reservation owner : N) d : N :=
  match reservations d !! reservation with
  | Some entry => if (ow_owner entry =? owner)%N then ow_amount entry else 0
  | None => 0
  end.

Definition drop_lease (reservation owner : N) d : DiskState :=
  let amount := lease_amount reservation owner d in
  let d := if (amount =? 0)%N then d else (release reservation owner amount d).1 in
  (unregister_reservation reservation owner d).1.

Definition drop_transaction (owner : N) d : DiskState :=
  let removable :=
    is_some_and (transactions d !! owner) (fun tx => (tx_reserved tx =? 0)%N)
    && forallb (fun p => negb (ow_owner p.2 =? owner)%N) (map_to_list (reservations d))
    && negb (existsb (fun w => (w_owner w =? owner)%N) (waiters d)) in
  if removable then
    {| reserved := reserved d; peak := peak d; next_reservation := next_reservation d;
       next_waiter := next_waiter d; transactions := delete owner (transactions d);
       reservations := reservations d; waiters := waiters d; status := status d; next_owner := next_owner d |}
  else d.
End Coordinator.

(** ** [StreamingAggregateQuota] *)
Record AggregateQuota := { encoded : N; decoded : N; max_encoded : N; max_decoded : N }.

Definition add_encoded (amount : N) (q : AggregateQuota) : AggregateQuota * result unit string :=
  match add_within (encoded q) amount (max_encoded q) with
  | Some next => ({| encoded := next; decoded := decoded q; max_encoded := max_encoded q;
                     max_decoded := max_decoded q |}, Ok tt)
  | None => (q, Err "aggregate encoded-byte quota exceeded or counter overflow"%string)
  end.

Definition add_decoded (amount : N) (q : AggregateQuota) : AggregateQuota * result unit string :=
  match add_within (decoded q) amount (max_decoded q) with
  | Some next => ({| encoded := encoded q; decoded := next; max_encoded := max_encoded q;
                     max_decoded := max_decoded q |}, Ok tt)
  | None => (q, Err "aggregate decoded-byte quota exceeded or counter overflow"%string)
  end.

(** ** Accounting *)

Section Invariant.
Variable limit : N.
Implicit Types (d : DiskState) (m : gmap N Owned).

Definition sum_of (f : Owned -> N) m : N := map_fold (fun _ o n => (f o + n)%N) 0%N m.

(** What all leases hold, and what those of one transaction hold. *)
Definition total m : N := sum_of ow_amount m.
Definition of_owner (owner : N) (o : Owned) : N := if (ow_owner o =? owner)%N then ow_amount o else 0%N.
Definition held (owner : N) m : N := sum_of (of_owner owner) m.

Lemma sum_of_delete f m k o : m !! k = Some o -> sum_of f m = (f o + sum_of f (delete k m))%N.
Proof.
  intros Hk. unfold sum_of. rewrite (map_fold_delete_L _ _ k o m); [done| |done]. intros. lia.
Qed.

Lemma sum_of_insert f m k o o' :
  m !! k = Some o -> (sum_of f (<[k := o']> m) + f o = sum_of f m + f o')%N.
Proof.
  intros Hk. rewrite (sum_of_delete f m k o Hk).
  rewrite (sum_of_delete f (<[k := o']> m) k o') by apply lookup_insert_eq.
  rewrite delete_insert_eq. lia.
Qed.

Lemma sum_of_new f m k o : m !! k = None -> sum_of f (<[k := o]> m) = (f o + sum_of f m)%N.
Proof.
  intros Hk. rewrite (sum_of_delete f (<[k := o]> m) k o) by apply lookup_insert_eq.
  by rewrite delete_insert_id.
Qed.

Lemma checked_add_spec a b n : checked_add a b = Some n -> n = (a + b)%N /\ (n <= U64_MAX)%N.
Proof. unfold checked_add. destruct (N.ltb_spec U64_MAX (a + b)); [done|]. intros [= <-]. done. Qed.

Lemma add_within_spec a b bound n : add_within a b bound = Some n -> n = (a + b)%N /\ (n <= bound)%N.
Proof.
  unfold add_within. destruct (checked_add a b) as [x|] eqn:E; [|done]. cbn. apply checked_add_spec in E as [-> _].
  destruct (N.leb_spec (a + b) bound); [|done]. by intros [= <-].
Qed.

Lemma checked_sub_spec a b n : checked_sub a b = Some n -> (n + b = a)%N.
Proof. unfold checked_sub. destruct (N.leb_spec b a); [|done]. intros [= <-]. lia. Qed.

(** What the leases hold is what the transactions and the server count, and
    no count exceeds its limit. *)
Record accounted (d : DiskState) : Prop := {
  ac_total : reserved d = total (reservations d);
  ac_limit : (reserved d <= limit)%N;
  ac_peak : (reserved d <= peak d <= limit)%N;
  ac_tx : forall owner tx, transactions d !! owner = Some tx ->
    tx_reserved tx = held owner (reservations d) /\ (tx_reserved tx <= tx_limit tx)%N
    /\ tx_limit tx = limit /\ (owner < next_owner d)%N;
  ac_lease : forall r o, reservations d !! r = Some o ->
    is_Some (transactions d !! ow_owner o) /\ (r <= next_reservation d)%N;
}.

(** Waiters in the order they came, none asking for nothing or for more than
    the server has. *)
Record queued (d : DiskState) : Prop := {
  qu_order : StronglySorted N.lt (map w_id (waiters d));
  qu_each : forall w, w ∈ waiters d ->
    (w_id w <= next_waiter d)%N /\ (0 < w_amount w <= limit)%N /\ status d !! w_id w = Some Waiting;
  qu_all : forall id, status d !! id = Some Waiting -> id ∈ map w_id (waiters d);
}.

(** The front waiter does not fit: nobody was forgotten. *)
Definition stuck (d : DiskState) : Prop :=
  forall w rest, waiters d = w :: rest -> can_grant limit (w_amount w) d = false.

Lemma queued_nodup d : queued d -> NoDup (map w_id (waiters d)).
Proof.
  intros [Ho _ _]. induction Ho as [|x l Ho IH Hf]; constructor; [|done]. intros Hin. rewrite Forall_forall in Hf. specialize (Hf x Hin). lia.
Qed.

Lemma can_grant_spec amount d :
  (limit <= U64_MAX)%N -> can_grant limit amount d = false <-> (limit < reserved d + amount)%N.
Proof.
  intros Hl. unfold can_grant, checked_add. destruct (N.ltb_spec U64_MAX (reserved d + amount)); cbn.
  - split; [lia|done].
  - rewrite N.leb_gt. done.
Qed.

Lemma held_other owner m k o o' :
  m !! k = Some o -> ow_owner o = ow_owner o' -> owner <> ow_owner o -> held owner (<[k := o']> m) = held owner m.
Proof.
  intros Hk Ho Hne. unfold held. assert (Hs := sum_of_insert (of_owner owner) m k o o' Hk).
  unfold of_owner in Hs at 2 4. rewrite <-Ho in Hs. rewrite (proj2 (N.eqb_neq (ow_owner o) owner)) in Hs by done. lia.
Qed.

Lemma held_own m k o o' :
  m !! k = Some o -> ow_owner o = ow_owner o' ->
  (held (ow_owner o) (<[k := o']> m) + ow_amount o = held (ow_owner o) m + ow_amount o')%N.
Proof.
  intros Hk Ho. unfold held. assert (Hs := sum_of_insert (of_owner (ow_owner o)) m k o o' Hk).
  unfold of_owner in Hs at 2 4. rewrite <-Ho, N.eqb_refl in Hs. done.
Qed.

(** Moving one lease's amount, its transaction's and the server's together. *)
Lemma accounted_move d d' r o o' owner tx tx' :
  accounted d -> reservations d !! r = Some o -> ow_owner o = owner -> ow_owner o' = owner ->
  transactions d !! owner = Some tx ->
  (tx_reserved tx' + ow_amount o = tx_reserved tx + ow_amount o')%N ->
  (reserved d' + ow_amount o = reserved d + ow_amount o')%N ->
  (tx_reserved tx' <= tx_limit tx')%N -> tx_limit tx' = tx_limit tx ->
  (reserved d' <= limit)%N -> peak d' = N.max (peak d) (reserved d') ->
  reservations d' = <[r := o']> (reservations d) -> transactions d' = <[owner := tx']> (transactions d) ->
  next_owner d' = next_owner d -> next_reservation d' = next_reservation d -> accounted d'.
Proof.
  intros [Ht Hl [Hp1 Hp2] Htx Hle] Hr Ho Ho' Hown Heq Hg Hb Hlim Hglim Hpk Hres Htr Hno Hnr.
  destruct (Htx owner tx Hown) as (Hheld & Hbd & Htl & Hlt). split.
  - rewrite Hres. assert (Hs := sum_of_insert ow_amount (reservations d) r o o' Hr). unfold total in *. lia.
  - done.
  - rewrite Hpk. lia.
  - intros w t. rewrite Htr, Hres, Hno. destruct (decide (w = owner)) as [->|Hne].
    + rewrite lookup_insert_eq. intros [= <-]. assert (Hh := held_own (reservations d) r o o' Hr).
      rewrite Ho in Hh. specialize (Hh (eq_sym Ho')). split_and!; [lia|done|lia|done].
    + rewrite lookup_insert_ne by done. intros Hw. destruct (Htx w t Hw) as (-> & ? & ? & ?).
      rewrite (held_other w _ r o o') by congruence. done.
  - intros k x. rewrite Hres, Htr, Hnr. destruct (decide (k = r)) as [->|Hne].
    + rewrite lookup_insert_eq. intros [= <-]. rewrite Ho', lookup_insert_eq. split; [done|]. by apply (Hle r o).
    + rewrite lookup_insert_ne by done. intros Hk. destruct (Hle k x Hk) as [? ?]. split; [|done].
      destruct (decide (ow_owner x = owner)) as [->|]; [by rewrite lookup_insert_eq|by rewrite lookup_insert_ne].
Qed.

Lemma grant_accounted r owner amount d :
  accounted d -> accounted (grant_locked limit r owner amount d).1.
Proof.
  intros Ha. unfold grant_locked. destruct (transactions d !! owner) as [tx|] eqn:Et; [|done].
  destruct (add_within (tx_reserved tx) amount (tx_limit tx)) as [tn|] eqn:E1; [|done].
  destruct (add_within (reserved d) amount limit) as [gn|] eqn:E2; [|done].
  destruct (reservations d !! r) as [o|] eqn:Er; [|done].
  destruct (N.eqb_spec (ow_owner o) owner) as [Ho|]; cbn [negb]; [|done].
  destruct (checked_add (ow_amount o) amount) as [n|] eqn:E3; [|done].
  apply add_within_spec in E1 as [-> ?], E2 as [-> ?]. apply checked_add_spec in E3 as [-> _].
  eapply (accounted_move d _ r o {| ow_owner := ow_owner o; ow_amount := ow_amount o + amount |} owner tx
            {| tx_reserved := tx_reserved tx + amount; tx_limit := tx_limit tx |}); cbn; try done; lia.
Qed.

Lemma release_locked_accounted r owner amount d :
  accounted d -> accounted (release_locked r owner amount d).1.
Proof.
  intros Ha. unfold release_locked. destruct (reservations d !! r) as [o|] eqn:Er; [|done].
  destruct (N.eqb_spec (ow_owner o) owner) as [Ho|]; cbn [negb]; [|done].
  destruct (checked_sub (ow_amount o) amount) as [n|] eqn:E1; [|done].
  destruct (transactions d !! owner) as [tx|] eqn:Et; [|done].
  destruct (checked_sub (tx_reserved tx) amount) as [tn|] eqn:E2; [|done].
  destruct (checked_sub (reserved d) amount) as [gn|] eqn:E3; [|done].
  apply checked_sub_spec in E1, E2, E3. destruct (ac_tx d Ha owner tx Et) as (_ & ? & _).
  destruct (ac_peak d Ha). assert (Hl := ac_limit d Ha).
  eapply (accounted_move d _ r o {| ow_owner := ow_owner o; ow_amount := n |} owner tx
            {| tx_reserved := tn; tx_limit := tx_limit tx |}); cbn; try done; lia.
Qed.

(** *** Waking *)
Lemma grant_keeps r owner amount d :
  let d' := (grant_locked limit r owner amount d).1 in
  waiters d' = waiters d /\ status d' = status d /\ next_waiter d' = next_waiter d /\ next_owner d' = next_owner d
  /\ next_reservation d' = next_reservation d.
Proof. unfold grant_locked. repeat case_match; done. Qed.

Lemma accounted_waiters ws d : accounted d -> accounted (with_waiters ws d).
Proof. intros [? ? ? ? ?]. by split. Qed.

Lemma accounted_status id x d : accounted d -> accounted (set_status id x d).
Proof. intros [? ? ? ? ?]. by split. Qed.

(** The loop leaves a suffix of the queue whose front does not fit; whoever it
    took off was granted or told so. *)
Lemma wake_loop_spec ws d :
  accounted d ->
  let d' := wake_loop limit ws d in
  accounted d' /\ stuck d'
  /\ next_waiter d' = next_waiter d /\ next_owner d' = next_owner d /\ next_reservation d' = next_reservation d
  /\ exists served, ws = served ++ waiters d'
       /\ (forall w, w ∈ served -> status d' !! w_id w = Some Granted \/ status d' !! w_id w = Some Failed)
       /\ (forall id, id ∉ map w_id served -> status d' !! id = status d !! id).
Proof.
  revert d. induction ws as [|w ws IH]; intros d Ha; cbn [wake_loop].
  { split; [by apply accounted_waiters|]. split; [intros w rest; discriminate|]. split; [done|]. split; [done|].
    split; [done|]. exists []. split; [done|]. split; [|done]. intros w Hw. by apply not_elem_of_nil in Hw. }
  destruct (can_grant limit (w_amount w) d) eqn:Ec; cbn [negb].
  2: { split; [by apply accounted_waiters|]. split; [intros w' rest [= <- <-]; done|]. split; [done|].
       split; [done|]. split; [done|]. exists []. split; [done|]. split; [|done].
       intros w' Hw. by apply not_elem_of_nil in Hw. }
  assert (Hg := grant_accounted (w_reservation w) (w_owner w) (w_amount w) d Ha).
  assert (Hk := grant_keeps (w_reservation w) (w_owner w) (w_amount w) d).
  destruct (grant_locked limit (w_reservation w) (w_owner w) (w_amount w) d) as [d1 r]. cbn [fst] in *.
  destruct Hk as (Hw & Hst & Hnw & Hno & Hnr).
  set (x := if is_ok r then Granted else Failed).
  destruct (IH (set_status (w_id w) x d1)) as (A & S & N1 & N2 & N3 & served & Hws & Hs1 & Hs2).
  { by apply accounted_status. }
  cbn in N1, N2, N3. split; [done|]. split; [done|]. split; [congruence|]. split; [congruence|].
  split; [congruence|]. exists (w :: served).
  split; [by rewrite Hws at 1|]. split.
  - intros w' [->|Hin]%elem_of_cons; [|by apply Hs1].
    destruct (decide (w_id w ∈ map w_id served)) as [Hin|Hnin].
    + apply list_elem_of_fmap in Hin as (w' & Heq & Hin). assert (H1 := Hs1 w' Hin). by rewrite <-Heq in H1.
    + rewrite (Hs2 _ Hnin). cbn. rewrite lookup_insert_eq. unfold x. destruct (is_ok r); auto.
  - intros id Hid. cbn in Hid. rewrite (Hs2 id) by set_solver. cbn. rewrite lookup_insert_ne by set_solver.
    by rewrite Hst.
Qed.

(** The waiter's lease is registered for its owner. *)
Definition leased (w : Waiter) d : bool :=
  is_some_and (reservations d !! w_reservation w) (fun o => (ow_owner o =? w_owner w)%N).

Definition verdict (w : Waiter) d : Status := if leased w d then Granted else Failed.

(** What is handed to those of [ws] that have a lease. *)
Definition granted_bytes (ws : list Waiter) d : N :=
  foldr (fun w n => ((if leased w d then w_amount w else 0) + n)%N) 0%N ws.

Lemma sum_of_le f g m : (forall o, (f o <= g o)%N) -> (sum_of f m <= sum_of g m)%N.
Proof.
  intros Hfg. unfold sum_of. induction m as [|k o m Hk IH] using map_ind; [rewrite !map_fold_empty; lia|].
  rewrite !map_fold_insert_L by (done || (intros; lia)). specialize (Hfg o). lia.
Qed.

(** What fits the server is granted to whoever has a lease for it. *)
Lemma grant_exact w d :
  accounted d -> can_grant limit (w_amount w) d = true ->
  let '(d', r) := grant_locked limit (w_reservation w) (w_owner w) (w_amount w) d in
  is_ok r = leased w d
  /\ reserved d' = (reserved d + if leased w d then w_amount w else 0)%N
  /\ forall w', leased w' d' = leased w' d.
Proof.
  intros Ha Hc. unfold can_grant in Hc. destruct (checked_add (reserved d) (w_amount w)) as [next|] eqn:Ec; [|done].
  cbn in Hc. apply N.leb_le in Hc. pose proof Ec as Ec'. apply checked_add_spec in Ec' as [-> Hmax].
  assert (Hfail : forall e : DiskError, leased w d = false ->
    is_ok (Err (A := N) e) = leased w d /\ reserved d = (reserved d + if leased w d then w_amount w else 0)%N
    /\ forall w', leased w' d = leased w' d) by (intros e ->; split_and!; [done|lia|done]).
  unfold grant_locked. destruct (reservations d !! w_reservation w) as [o|] eqn:Er.
  - destruct (N.eqb_spec (ow_owner o) (w_owner w)) as [Ho|Hne].
    + destruct (ac_lease d Ha _ o Er) as [[tx Ht] _]. rewrite Ho in Ht. destruct (ac_tx d Ha _ tx Ht) as (Hheld & _ & Hlim & _).
      assert (Hle : (tx_reserved tx <= reserved d)%N).
      { rewrite Hheld, (ac_total d Ha). apply sum_of_le. intros x. unfold of_owner. destruct (_ =? _)%N; lia. }
      assert (Hamt : (ow_amount o <= reserved d)%N).
      { rewrite (ac_total d Ha). unfold total. rewrite (sum_of_delete _ _ _ o Er). lia. }
      assert (Hl : leased w d = true) by (unfold leased; rewrite Er; by apply N.eqb_eq).
      rewrite Ht. unfold add_within. rewrite Ec. cbn [mbind option_bind]. rewrite (proj2 (N.leb_le _ _) Hc).
      unfold checked_add at 1. rewrite (proj2 (N.ltb_ge _ _)) by lia. cbn [mbind option_bind].
      rewrite (proj2 (N.leb_le _ _)) by lia. cbn [negb].
      unfold checked_add. rewrite (proj2 (N.ltb_ge _ _)) by lia. rewrite Hl. split_and!; [done|done|].
      intros w'. unfold leased. cbn. destruct (decide (w_reservation w = w_reservation w')) as [<-|Hn].
      * rewrite lookup_insert_eq, Er. reflexivity.
      * by rewrite lookup_insert_ne.
    + assert (Hl : leased w d = false) by (unfold leased; rewrite Er; by apply N.eqb_neq).
      cbn [negb]. destruct (transactions d !! w_owner w) as [tx|]; [|by apply Hfail].
      destruct (add_within (tx_reserved tx) _ _); [|by apply Hfail]. destruct (add_within (reserved d) _ _); by apply Hfail.
  - assert (Hl : leased w d = false) by (unfold leased; by rewrite Er).
    destruct (transactions d !! w_owner w) as [tx|]; [|by apply Hfail].
    destruct (add_within (tx_reserved tx) _ _); [|by apply Hfail]. destruct (add_within (reserved d) _ _); by apply Hfail.
Qed.

(** The loop serves a prefix of the queue, each as its lease decides. *)
Lemma wake_loop_exact ws d :
  accounted d -> NoDup (map w_id ws) ->
  let d' := wake_loop limit ws d in
  exists served, ws = served ++ waiters d'
    /\ (forall w, w ∈ served -> status d' !! w_id w = Some (verdict w d))
    /\ (forall id, id ∉ map w_id served -> status d' !! id = status d !! id)
    /\ reserved d' = (reserved d + granted_bytes served d)%N
    /\ forall w, leased w d' = leased w d.
Proof.
  revert d. induction ws as [|w ws IH]; intros d Ha Hnd; cbn [wake_loop].
  { exists []. split_and!; [done|intros w Hw; by apply not_elem_of_nil in Hw|done|cbn; lia|done]. }
  destruct (can_grant limit (w_amount w) d) eqn:Ec; cbn [negb].
  2: { exists []. split_and!; [done|intros w' Hw; by apply not_elem_of_nil in Hw|done|cbn; lia|done]. }
  cbn in Hnd. apply NoDup_cons in Hnd as [Hw Hnd].
  assert (Hg := grant_accounted (w_reservation w) (w_owner w) (w_amount w) d Ha).
  assert (Hk := grant_keeps (w_reservation w) (w_owner w) (w_amount w) d). assert (Hx := grant_exact w d Ha Ec).
  destruct (grant_locked limit (w_reservation w) (w_owner w) (w_amount w) d) as [d1 r]. cbn [fst] in *.
  destruct Hk as (_ & Hst & _), Hx as (Hok & Hres & Hle).
  set (d2 := set_status (w_id w) (if is_ok r then Granted else Failed) d1).
  assert (Hle2 : forall w', leased w' d2 = leased w' d) by (intros w'; unfold leased, d2; cbn; apply Hle).
  destruct (IH d2) as (served & Hws & Hs1 & Hs2 & Hr2 & Hl2); [by apply accounted_status|done|].
  assert (Hnin : w_id w ∉ map w_id served) by (rewrite Hws, map_app in Hw; set_solver).
  exists (w :: served). split_and!; [by rewrite Hws at 1| | | |].
  - intros w' [->|Hin]%elem_of_cons.
    + rewrite (Hs2 _ Hnin). cbn. rewrite lookup_insert_eq. unfold verdict. by rewrite Hok.
    + rewrite (Hs1 w' Hin). unfold verdict. by rewrite Hle2.
  - intros id Hid. cbn in Hid. rewrite (Hs2 id) by set_solver. cbn. rewrite lookup_insert_ne by set_solver. by rewrite Hst.
  - rewrite Hr2. cbn [granted_bytes foldr d2 set_status reserved].
    assert (Hb : granted_bytes served d2 = granted_bytes served d).
    { unfold granted_bytes. clear -Hle2. induction served as [|x l IHl]; [done|]. cbn. by rewrite Hle2, IHl. }
    rewrite Hb, Hres. unfold granted_bytes. lia.
  - intros w'. by rewrite Hl2, Hle2.
Qed.

(** A queue from which a prefix is served stays in order. *)
Lemma wake_queued d : accounted d -> queued d ->
  let d' := wake_waiters_locked limit d in accounted d' /\ queued d' /\ stuck d'.
Proof.
  intros Ha Hq. unfold wake_waiters_locked. destruct (wake_loop_spec (waiters d) d Ha) as
    (A & S & N1 & _ & _ & served & Hw & Hd & Hs). split; [done|]. split; [|done].
  destruct Hq as [Ho He Hall]. rewrite Hw, map_app in Ho.
  assert (Hst : forall w, w ∈ waiters (wake_loop limit (waiters d) d) -> w_id w ∉ map w_id served).
  { intros w Hin Hin'. apply list_elem_of_fmap in Hin' as (w' & Heq & Hin').
    assert (Hlt : (w_id w' < w_id w)%N); [|lia].
    apply StronglySorted_app in Ho as (Hlt & _). apply Hlt; apply list_elem_of_fmap; eauto. }
  apply StronglySorted_app in Ho as (_ & _ & Ho). split; [done|..].
  - intros w Hin. rewrite (Hs _ (Hst w Hin)), N1. apply He. rewrite Hw. set_solver.
  - intros id Hid. destruct (decide (id ∈ map w_id served)) as [Hin|Hnin].
    + apply list_elem_of_fmap in Hin as (w & -> & Hin). destruct (Hd w Hin); congruence.
    + rewrite (Hs id Hnin) in Hid. apply Hall in Hid. rewrite Hw, map_app in Hid. set_solver.
Qed.

(** ** Every interleaving of the critical sections *)
Inductive DiskStep :=
| DServerTransaction
| DLease (owner : N)
| DAcquire (reservation owner amount : N)
| DEndWait (id reservation owner amount : N) (o : WaitOutcome)
| DRelease (reservation owner amount : N)
| DUnregister (reservation owner : N)
| DDropTransaction (owner : N).

Definition disk_step (e : DiskStep) d : DiskState :=
  match e with
  | DServerTransaction => match server_transaction limit d with Some (d', _) => d' | None => d end
  | DLease owner => (register_reservation owner d).1
  | DAcquire r o a => (acquire_begin limit r o a d).1
  | DEndWait id r o a w => (acquire_end limit id r o a w d).1
  | DRelease r o a => (release limit r o a d).1
  | DUnregister r o => (unregister_reservation r o d).1
  | DDropTransaction o => drop_transaction o d
  end.

Definition disk_run (es : list DiskStep) d : DiskState := fold_left (fun d e => disk_step e d) es d.

Definition healthy d : Prop := accounted d /\ queued d /\ stuck d.

Lemma sum_of_zero f m : (forall r o, m !! r = Some o -> f o = 0%N) -> sum_of f m = 0%N.
Proof.
  intros H. unfold sum_of. revert H. apply (map_fold_weak_ind (fun n m => (forall r o, m !! r = Some o -> f o = 0%N) -> n = 0%N)).
  - done.
  - intros i x m' n Hi IH H. rewrite (H i x) by apply lookup_insert_eq. rewrite IH; [done|].
    intros r o Hr. apply (H r). rewrite lookup_insert_ne; [done|]. congruence.
Qed.

(** A step that leaves the queue and the server's count alone. *)
Lemma healthy_same d d' :
  healthy d -> accounted d' -> reserved d' = reserved d -> waiters d' = waiters d ->
  status d' = status d -> next_waiter d' = next_waiter d -> healthy d'.
Proof.
  intros (_ & [Ho He Hall] & Hk) Ha Hr Hw Hst Hn. split; [done|]. split.
  - split; rewrite ?Hw, ?Hst, ?Hn; done.
  - intros w rest. rewrite Hw. unfold can_grant. rewrite Hr. apply Hk.
Qed.

Lemma server_transaction_healthy d : healthy d -> healthy (disk_step DServerTransaction d).
Proof.
  intros Hh. cbn. unfold server_transaction, new_transaction.
  destruct (checked_add (next_owner d) 1) as [n|] eqn:En; cbn; [|done].
  apply checked_add_spec in En as [-> _]. apply (healthy_same d); [done| |done..].
  destruct Hh as ([Ht Hl Hp Htx Hle] & _). split; cbn; [done..| |].
  - intros owner tx. destruct (decide (owner = next_owner d)) as [->|Hne].
    + rewrite lookup_insert_eq. intros [= <-]. cbn. unfold held. rewrite sum_of_zero; [lia|].
      intros r o Hr. destruct (Hle r o Hr) as [[tx Ho] _]. destruct (Htx _ _ Ho) as (_ & _ & _ & Hlt).
      unfold of_owner. rewrite (proj2 (N.eqb_neq (ow_owner o) (next_owner d))); [done|lia].
    + rewrite lookup_insert_ne by done. intros Ho. destruct (Htx _ _ Ho) as (? & ? & ? & ?).
      split; [done|]. split; [done|]. split; [done|lia].
  - intros r o Hr. destruct (Hle r o Hr) as [Ho ?]. split; [|done].
    destruct (decide (next_owner d = ow_owner o)) as [<-|]; [by rewrite lookup_insert_eq|by rewrite lookup_insert_ne].
Qed.

Lemma lease_healthy owner d : healthy d -> healthy (disk_step (DLease owner) d).
Proof.
  intros Hh. cbn. unfold register_reservation. destruct (transactions d !! owner) as [tx|] eqn:Et; [|done].
  destruct (checked_add (next_reservation d) 1) as [n|] eqn:En; [|done]. apply checked_add_spec in En as [-> _].
  apply (healthy_same d); [done| |done..]. destruct Hh as ([Ht Hl Hp Htx Hle] & _).
  assert (Hnone : reservations d !! (next_reservation d + 1)%N = None).
  { destruct (reservations d !! (next_reservation d + 1)%N) eqn:E; [|done]. destruct (Hle _ _ E). lia. }
  split; cbn; [|done|done| |].
  - unfold total in *. rewrite sum_of_new by done. done.
  - intros w t Hw. unfold held. rewrite sum_of_new by done. unfold of_owner at 1. cbn.
    destruct (Htx w t Hw) as (-> & ?). destruct (owner =? w)%N; done.
  - intros r o. destruct (decide (r = next_reservation d + 1)%N) as [->|].
    + rewrite lookup_insert_eq. intros [= <-]. cbn. rewrite Et. split; [done|lia].
    + rewrite lookup_insert_ne by done. intros Hr. destruct (Hle r o Hr). split; [done|lia].
Qed.

Lemma unregister_healthy r owner d : healthy d -> healthy (disk_step (DUnregister r owner) d).
Proof.
  intros Hh. cbn. unfold unregister_reservation. destruct (reservations d !! r) as [o|] eqn:Er; [|done].
  destruct (ow_owner o =? owner)%N; cbn [negb]; [|done].
  destruct (N.eqb_spec (ow_amount o) 0) as [Hz|]; cbn [negb]; [|done].
  apply (healthy_same d); [done| |done..]. destruct Hh as ([Ht Hl Hp Htx Hle] & _). split; cbn; [|done|done| |].
  - unfold total in *. rewrite (sum_of_delete _ _ r o Er) in Ht. lia.
  - intros w t Hw. destruct (Htx w t Hw) as (Heq & ?). split; [|done]. rewrite Heq. unfold held.
    rewrite (sum_of_delete _ _ r o Er). unfold of_owner at 1. destruct (_ =? _)%N; lia.
  - intros k x [_ Hk]%lookup_delete_Some. by apply Hle.
Qed.

Lemma drop_transaction_healthy owner d : healthy d -> healthy (disk_step (DDropTransaction owner) d).
Proof.
  intros Hh. cbn. unfold drop_transaction.
  destruct (is_some_and _ _ && _ && _) eqn:E; [|done]. apply andb_prop in E as [[_ E]%andb_prop _].
  apply (healthy_same d); [done| |done..]. destruct Hh as ([Ht Hl Hp Htx Hle] & _). split; cbn; [done..| |].
  - intros w t [_ Hw]%lookup_delete_Some. by apply Htx.
  - intros r o Hr. destruct (Hle r o Hr) as [Ho ?]. split; [|done]. rewrite lookup_delete_ne; [done|].
    intros ->. rewrite forallb_forall in E. specialize (E (r, o)). rewrite N.eqb_refl in E. cbn in E.
    discriminate E. apply list_elem_of_In, elem_of_map_to_list. done.
Qed.

Lemma release_locked_keeps r owner amount d :
  let d' := (release_locked r owner amount d).1 in
  waiters d' = waiters d /\ status d' = status d /\ next_waiter d' = next_waiter d.
Proof. unfold release_locked. repeat case_match; done. Qed.

Lemma release_locked_err r owner amount d d' e : release_locked r owner amount d = (d', Err e) -> d' = d.
Proof. unfold release_locked. repeat case_match; congruence. Qed.

Lemma release_locked_leased r owner amount d w : leased w (release_locked r owner amount d).1 = leased w d.
Proof.
  unfold release_locked. destruct (reservations d !! r) as [o|] eqn:Er; [|done]. repeat case_match; try done. unfold leased. cbn.
  destruct (decide (r = w_reservation w)) as [->|Hne]; [by rewrite lookup_insert_eq, Er|by rewrite lookup_insert_ne].
Qed.

Lemma queued_same d d' :
  queued d -> waiters d' = waiters d -> status d' = status d -> next_waiter d' = next_waiter d -> queued d'.
Proof. intros [Ho He Hall] Hw Hst Hn. split; rewrite ?Hw, ?Hst, ?Hn; done. Qed.

Lemma release_healthy r owner amount d : healthy d -> healthy (release limit r owner amount d).1.
Proof.
  intros Hh. unfold release. assert (Ha := release_locked_accounted r owner amount d (proj1 Hh)).
  assert (Hk := release_locked_keeps r owner amount d).
  destruct (release_locked r owner amount d) as [d' [n|e]] eqn:E; cbn [fst] in *.
  - destruct Hk as (Hw & Hst & Hn). apply wake_queued; [done|]. apply (queued_same d); [apply Hh|done..].
  - by apply release_locked_err in E as ->.
Qed.

(** A request takes the place behind everyone else. *)
Lemma enqueue_queued r owner amount d tx n :
  accounted d -> queued d -> transactions d !! owner = Some tx ->
  add_within (tx_reserved tx) amount (tx_limit tx) = Some n -> amount <> 0%N ->
  queued {| reserved := reserved d; peak := peak d; next_reservation := next_reservation d;
            next_waiter := next_waiter d + 1; transactions := transactions d; reservations := reservations d;
            waiters := waiters d ++ [{| w_id := next_waiter d + 1; w_reservation := r; w_owner := owner;
                                        w_amount := amount |}];
            status := <[(next_waiter d + 1)%N := Waiting]> (status d); next_owner := next_owner d |}.
Proof.
  intros Ha [Ho He Hall] Ht Hn Hnz. apply add_within_spec in Hn as [-> Hle].
  destruct (ac_tx d Ha owner tx Ht) as (_ & _ & Hlim & _).
  assert (Hlt : forall w, w ∈ waiters d -> (w_id w < next_waiter d + 1)%N).
  { intros w Hw. destruct (He w Hw). lia. }
  split; cbn.
  - rewrite map_app. apply StronglySorted_app. split; [|split; [done|repeat constructor]].
    intros x y (w & -> & Hw)%list_elem_of_fmap ->%list_elem_of_singleton. by apply Hlt.
  - intros w [Hw| ->%list_elem_of_singleton]%elem_of_app; cbn.
    + destruct (He w Hw) as (? & ? & Hs). split; [lia|]. split; [done|].
      rewrite lookup_insert_ne; [done|]. specialize (Hlt w Hw). lia.
    + rewrite lookup_insert_eq. split; [lia|]. split; [lia|done].
  - intros id. rewrite map_app, elem_of_app. destruct (decide (id = next_waiter d + 1)%N) as [->|].
    + intros _. right. apply list_elem_of_singleton. done.
    + rewrite lookup_insert_ne by done. auto.
Qed.

(** A waiter that gives up leaves the others in their order. *)
Lemma cancel_queued id d :
  queued d ->
  queued (set_status id Failed (with_waiters (List.filter (fun w => negb (w_id w =? id)%N) (waiters d)) d)).
Proof.
  intros [Ho He Hall].
  assert (Hin : forall w, w ∈ List.filter (fun w => negb (w_id w =? id)%N) (waiters d) <-> w ∈ waiters d /\ w_id w <> id).
  { intros w. rewrite !list_elem_of_In, filter_In, negb_true_iff, N.eqb_neq. done. }
  split; cbn.
  - clear -Ho. induction (waiters d) as [|w ws IH]; [constructor|]. cbn in *. apply StronglySorted_inv in Ho as [Ho Hf].
    destruct (negb _); [|by apply IH]. cbn. constructor; [by apply IH|]. apply Forall_forall. intros x (w' & -> & Hw')%list_elem_of_fmap.
    rewrite Forall_forall in Hf. apply Hf, list_elem_of_fmap. exists w'. split; [done|].
    apply list_elem_of_In in Hw'. apply filter_In in Hw' as [Hw' _]. by apply list_elem_of_In.
  - intros w [Hw Hne]%Hin. rewrite lookup_insert_ne by done. by apply He.
  - intros id' Hid'. destruct (decide (id = id')) as [<-|Hne]; [by rewrite lookup_insert_eq in Hid'|].
    rewrite lookup_insert_ne in Hid' by done. apply Hall, list_elem_of_fmap in Hid' as (w & -> & Hw).
    apply list_elem_of_fmap. exists w. split; [done|]. apply Hin. done.
Qed.

Lemma decided_queued id d :
  queued d -> existsb (fun w => (w_id w =? id)%N) (waiters d) = false -> queued (set_status id Failed d).
Proof.
  intros [Ho He Hall] Hex.
  assert (Hne : forall w, w ∈ waiters d -> id <> w_id w).
  { intros w Hw ->. apply not_true_iff_false in Hex. apply Hex, existsb_exists. exists w.
    rewrite N.eqb_refl. by rewrite <-list_elem_of_In. }
  split; cbn; [done|..].
  - intros w Hw. rewrite lookup_insert_ne by auto. by apply He.
  - intros id' Hid'. destruct (decide (id = id')) as [<-|Hn]; [by rewrite lookup_insert_eq in Hid'|].
    rewrite lookup_insert_ne in Hid' by done. auto.
Qed.

Lemma acquire_healthy r owner amount d : healthy d -> healthy (acquire_begin limit r owner amount d).1.
Proof.
  intros Hh. unfold acquire_begin. destruct (N.eqb_spec amount 0) as [|Hnz]; [done|].
  destruct (transactions d !! owner) as [tx|] eqn:Et; [|done].
  destruct (add_within (tx_reserved tx) amount (tx_limit tx)) as [n|] eqn:En; [|done].
  destruct Hh as (Ha & Hq & Hk). case_bool_decide as Hw; cbn [andb].
  - destruct (can_grant limit amount d) eqn:Ec.
    + assert (Hg := grant_accounted r owner amount d Ha). assert (Hs := grant_keeps r owner amount d).
      destruct (grant_locked limit r owner amount d) as [d' x]. cbn [fst] in *.
      destruct Hs as (Hw' & Hst & Hn & _). split; [done|]. split; [by apply (queued_same d)|].
      intros w rest. rewrite Hw', Hw. discriminate.
    + destruct (checked_add (next_waiter d) 1) as [id|] eqn:Ei; [|done]. apply checked_add_spec in Ei as [-> _].
      assert (Hq' := enqueue_queued r owner amount d tx n Ha Hq Et En Hnz).
      split; [destruct Ha; by split|]. split; [done|]. cbn. rewrite Hw. intros w rest [= <- <-]. done.
  - destruct (checked_add (next_waiter d) 1) as [id|] eqn:Ei; [|done]. apply checked_add_spec in Ei as [-> _].
    assert (Hq' := enqueue_queued r owner amount d tx n Ha Hq Et En Hnz).
    split; [destruct Ha; by split|]. split; [done|]. cbn. intros w rest. cbn.
    destruct (waiters d) as [|w0 ws] eqn:E; [done|]. intros [= <- _]. by apply (Hk w0 ws).
Qed.

Lemma end_wait_healthy id r owner amount o d : healthy d -> healthy (acquire_end limit id r owner amount o d).1.
Proof.
  intros Hh. unfold acquire_end. destruct (negb _); [|done]. destruct Hh as (Ha & Hq & Hk).
  destruct (existsb _ (waiters d)) eqn:Ex.
  { apply wake_queued; [by apply accounted_status, accounted_waiters|by apply cancel_queued]. }
  assert (Hh : healthy (set_status id Failed d)).
  { split; [by apply accounted_status|]. split; [by apply decided_queued|done]. }
  case_bool_decide; [|done]. assert (Hr := release_healthy r owner amount _ Hh). unfold release in Hr.
  destruct (release_locked r owner amount (set_status id Failed d)) as [d' [n|e]]; done.
Qed.

Lemma disk_step_healthy e d : healthy d -> healthy (disk_step e d).
Proof.
  intros Hh. destruct e.
  - by apply server_transaction_healthy.
  - by apply lease_healthy.
  - by apply acquire_healthy.
  - by apply end_wait_healthy.
  - by apply release_healthy.
  - by apply unregister_healthy.
  - by apply drop_transaction_healthy.
Qed.

Lemma disk_run_healthy es d : healthy d -> healthy (disk_run es d).
Proof. revert d. induction es as [|e es IH]; [done|]. intros d Hh. cbn. by apply IH, disk_step_healthy. Qed.

Lemma disk_new_healthy : healthy disk_new.
Proof.
  split; [|split; [|intros w rest; discriminate]].
  - split; cbn; [done|lia|lia|intros k x; by rewrite lookup_empty..].
  - split; cbn; [constructor|intros w Hw; by apply not_elem_of_nil in Hw|]. intros id. by rewrite lookup_empty.
Qed.

(** ** Draining the queue *)

Definition releases (rs : list (N * N * N)) d : DiskState :=
  fold_left (fun d '(r, owner, amount) => (release limit r owner amount d).1) rs d.

Lemma total_positive m : (0 < total m)%N -> exists r o, m !! r = Some o /\ (0 < ow_amount o)%N.
Proof.
  intros Hp. destruct (decide (map_Forall (fun _ o => ow_amount o = 0%N) m)) as [Hz|Hn].
  - unfold total in Hp. rewrite sum_of_zero in Hp; [lia|]. intros r o Hr. by apply (Hz r o).
  - apply map_not_Forall in Hn as (r & o & Hr & Hne); [|solve_decision]. exists r, o. split; [done|lia].
Qed.

Lemma held_le owner m r o : m !! r = Some o -> ow_owner o = owner -> (ow_amount o <= held owner m)%N.
Proof.
  intros Hr <-. unfold held. rewrite (sum_of_delete _ _ r o Hr). unfold of_owner at 1. rewrite N.eqb_refl. lia.
Qed.

(** A holder can always give back all it has. *)
Lemma release_locked_all r o d :
  accounted d -> reservations d !! r = Some o ->
  exists d', release_locked r (ow_owner o) (ow_amount o) d = (d', Ok 0%N)
    /\ (reserved d' + ow_amount o = reserved d)%N.
Proof.
  intros Ha Hr. unfold release_locked. rewrite Hr, N.eqb_refl. cbn [negb].
  destruct (ac_lease d Ha r o Hr) as [[tx Ht] _]. destruct (ac_tx d Ha _ tx Ht) as (Hh & _).
  assert (Hle := held_le (ow_owner o) (reservations d) r o Hr eq_refl).
  assert (Htot : (ow_amount o <= reserved d)%N).
  { rewrite (ac_total d Ha). unfold total. rewrite (sum_of_delete _ _ r o Hr). lia. }
  unfold checked_sub. rewrite N.leb_refl, Ht, (proj2 (N.leb_le _ _)), (proj2 (N.leb_le _ _)) by lia.
  eexists. split; [by rewrite N.sub_diag|]. cbn. lia.
Qed.

(** Waking either serves the front waiter or changes nothing. *)
Lemma wake_progress d :
  accounted d ->
  let d' := wake_waiters_locked limit d in
  (length (waiters d') < length (waiters d)) \/ (reserved d' = reserved d /\ length (waiters d') = length (waiters d)).
Proof.
  intros Ha. unfold wake_waiters_locked. destruct (waiters d) as [|w ws] eqn:Ew; [by right|]. cbn [wake_loop].
  destruct (can_grant limit (w_amount w) d) eqn:Ec; cbn [negb]; [|by right]. left.
  assert (Hg := grant_accounted (w_reservation w) (w_owner w) (w_amount w) d Ha).
  destruct (grant_locked limit (w_reservation w) (w_owner w) (w_amount w) d) as [d1 x]. cbn [fst] in Hg.
  set (st := if is_ok x then Granted else Failed).
  destruct (wake_loop_spec ws (set_status (w_id w) st d1)) as (_ & _ & _ & _ & _ & served & Hw & _);
    [by apply accounted_status|].
  assert (Hl := f_equal length Hw). rewrite length_app in Hl. cbn. lia.
Qed.

(** Giving back everything serves every waiter, whoever is waiting. *)
Lemma drain d : (limit <= U64_MAX)%N -> healthy d -> exists rs, waiters (releases rs d) = [].
Proof.
  intros Hmax. remember (length (waiters d)) as n eqn:En. revert d En.
  induction (lt_wf n) as [n _ IHn]. intros d. remember (reserved d) as k eqn:Ek. revert d Ek.
  induction (N.lt_wf_0 k) as [k _ IHk]. intros d -> -> Hh.
  destruct (waiters d) as [|w ws] eqn:Ew; [by exists []|]. destruct Hh as (Ha & Hq & Hk).
  assert (Hs := Hk w ws Ew). rewrite can_grant_spec in Hs by done.
  destruct (qu_each d Hq w) as (_ & Hamt & _); [rewrite Ew; set_solver|].
  destruct (total_positive (reservations d)) as (r & o & Hr & Hp); [rewrite <-(ac_total d Ha); lia|].
  destruct (release_locked_all r o d Ha Hr) as (d1 & Hrel & Hres).
  assert (Hstep : (release limit r (ow_owner o) (ow_amount o) d).1 = wake_waiters_locked limit d1).
  { unfold release. by rewrite Hrel. }
  assert (Hh' := release_healthy r (ow_owner o) (ow_amount o) d (conj Ha (conj Hq Hk))). rewrite Hstep in Hh'.
  assert (Hkeep := release_locked_keeps r (ow_owner o) (ow_amount o) d). rewrite Hrel in Hkeep. cbn in Hkeep.
  destruct Hkeep as (Hw1 & _). assert (Ha1 := release_locked_accounted r (ow_owner o) (ow_amount o) d Ha).
  rewrite Hrel in Ha1. cbn [fst] in Ha1.
  assert (Hrec : exists rs, waiters (releases rs (wake_waiters_locked limit d1)) = []).
  { destruct (wake_progress d1 Ha1) as [Hlt|[Heq Hlen]]; rewrite Hw1, Ew in *.
    - by apply (IHn (length (waiters (wake_waiters_locked limit d1)))).
    - apply (IHk (reserved (wake_waiters_locked limit d1))); [lia|done|by rewrite Hlen|done]. }
  destruct Hrec as [rs Hrs]. exists ((r, ow_owner o, ow_amount o) :: rs). cbn. by rewrite Hstep.
Qed.

(** A release serves a prefix of the queue. *)
Lemma release_exact r owner amount d d' n :
  healthy d -> release limit r owner amount d = (d', Ok n) ->
  exists served, waiters d = served ++ waiters d'
    /\ (forall w, w ∈ served -> status d' !! w_id w = Some (verdict w d))
    /\ (reserved d' + amount = reserved d + granted_bytes served d)%N.
Proof.
  intros (Ha & Hq & _). unfold release. assert (Ha1 := release_locked_accounted r owner amount d Ha).
  assert (Hk := release_locked_keeps r owner amount d). assert (Hl := release_locked_leased r owner amount d).
  destruct (release_locked r owner amount d) as [d1 [m|e]] eqn:Er; [|done]. cbn [fst] in *. destruct Hk as (Hw & _ & _).
  intros [= <- <-]. unfold wake_waiters_locked. destruct (wake_loop_exact (waiters d1) d1 Ha1) as (served & Hs & H1 & _ & H3 & _).
  { rewrite Hw. by apply queued_nodup. }
  exists served. rewrite <- Hw. split_and!; [done| |].
  - intros w Hin. rewrite (H1 w Hin). unfold verdict. by rewrite Hl.
  - assert (Hb : granted_bytes served d1 = granted_bytes served d).
    { unfold granted_bytes. clear -Hl. induction served as [|x l IHl]; [done|]. cbn. by rewrite Hl, IHl. }
    rewrite H3, Hb. enough (reserved d1 + amount = reserved d)%N by lia. clear -Er.
    unfold release_locked in Er. repeat case_match; try done. injection Er as <- _. cbn. by apply checked_sub_spec.
Qed.

(** *** A waiter that stays *)

(** Not the end of the wait of [w], nor of its lease. *)
Definition undisturbed (w : Waiter) (e : DiskStep) : bool :=
  match e with
  | DEndWait id _ _ _ _ => negb (id =? w_id w)%N
  | DUnregister r _ => negb (r =? w_reservation w)%N
  | _ => true
  end.

(** [w] is in the queue with its lease, or granted. *)
Definition serviced (w : Waiter) d : Prop :=
  (w_id w <= next_waiter d)%N /\ (w ∈ waiters d /\ leased w d = true \/ status d !! w_id w = Some Granted).

Lemma serviced_same w d d' :
  serviced w d -> waiters d' = waiters d -> status d' = status d -> next_waiter d' = next_waiter d ->
  (leased w d = true -> leased w d' = true) -> serviced w d'.
Proof. intros [Hn Hs] Hw Hst Hnw Hl. unfold serviced. rewrite Hw, Hst, Hnw. split; [done|]. naive_solver. Qed.

Lemma wake_serviced w d : accounted d -> queued d -> serviced w d -> serviced w (wake_waiters_locked limit d).
Proof.
  intros Ha Hq [Hn Hs]. unfold wake_waiters_locked. destruct (wake_loop_spec (waiters d) d Ha) as (_ & _ & Hnw & _).
  destruct (wake_loop_exact (waiters d) d Ha (queued_nodup d Hq)) as (served & Hw & H1 & H2 & _ & Hl).
  split; [by rewrite Hnw|]. destruct Hs as [[Hin Hle]|Hg].
  - rewrite Hw in Hin. apply elem_of_app in Hin as [Hin|Hin]; [right|left; by rewrite Hl].
    rewrite (H1 w Hin). unfold verdict. by rewrite Hle.
  - right. rewrite H2; [done|]. intros (w' & Heq & Hin)%list_elem_of_fmap.
    destruct (qu_each d Hq w') as (_ & _ & Hst); [rewrite Hw; set_solver|]. congruence.
Qed.

Lemma release_serviced w r owner amount d : healthy d -> serviced w d -> serviced w (release limit r owner amount d).1.
Proof.
  intros (Ha & Hq & _) Hs. unfold release. assert (Ha1 := release_locked_accounted r owner amount d Ha).
  assert (Hk := release_locked_keeps r owner amount d). assert (Hl := release_locked_leased r owner amount d).
  destruct (release_locked r owner amount d) as [d1 [m|e]] eqn:Er; cbn [fst] in *; [|by apply release_locked_err in Er as ->].
  destruct Hk as (Hw & Hst & Hn). apply wake_serviced; [done|by apply (queued_same d)|].
  apply (serviced_same w d); [done..|]. by rewrite Hl.
Qed.

Lemma end_wait_serviced w id r owner amount o d :
  id <> w_id w -> healthy d -> serviced w d -> serviced w (acquire_end limit id r owner amount o d).1.
Proof.
  intros Hid Hh [Hn Hs]. assert (Hset : serviced w (set_status id Failed d)).
  { split; [done|]. cbn. rewrite lookup_insert_ne by done. exact Hs. }
  unfold acquire_end. destruct (negb _); [|done]. pose proof Hh as (Ha & Hq & Hk). destruct (existsb _ (waiters d)) eqn:Ex.
  - apply wake_serviced; [by apply accounted_status, accounted_waiters|by apply cancel_queued|].
    split; [done|]. cbn. rewrite lookup_insert_ne by done. destruct Hs as [[Hin Hl]|Hg]; [left|by right]. split; [|done].
    rewrite list_elem_of_In, filter_In, <- list_elem_of_In. split; [done|]. apply negb_true_iff, N.eqb_neq. congruence.
  - assert (Hh' : healthy (set_status id Failed d)).
    { split; [by apply accounted_status|]. split; [by apply decided_queued|done]. }
    case_bool_decide; [|done]. assert (Hr := release_serviced w r owner amount _ Hh' Hset). unfold release in Hr.
    destruct (release_locked r owner amount (set_status id Failed d)) as [d' [n|e]]; done.
Qed.

Lemma acquire_serviced w r owner amount d : serviced w d -> serviced w (acquire_begin limit r owner amount d).1.
Proof.
  intros [Hn Hs]. unfold acquire_begin. destruct (amount =? 0)%N; [done|]. destruct (transactions d !! owner) as [tx|]; [|done].
  destruct (add_within _ _ _); [|done]. case_bool_decide as Hw; cbn [andb].
  - destruct Hs as [[Hin _]|Hg]; [rewrite Hw in Hin; by apply not_elem_of_nil in Hin|]. destruct (can_grant limit amount d).
    + assert (Hk := grant_keeps r owner amount d). destruct (grant_locked limit r owner amount d) as [d' x]. cbn [fst] in *.
      destruct Hk as (_ & Hst & Hnw & _). split; [by rewrite Hnw|]. right. by rewrite Hst.
    + destruct (checked_add (next_waiter d) 1) as [id|] eqn:Ei; [|by split; [|right]]. apply checked_add_spec in Ei as [-> _].
      split; cbn; [lia|]. right. rewrite lookup_insert_ne; [done|lia].
  - destruct (checked_add (next_waiter d) 1) as [id|] eqn:Ei; [|by split]. apply checked_add_spec in Ei as [-> _].
    split; cbn; [lia|]. rewrite lookup_insert_ne by lia. destruct Hs as [[Hin Hl]|Hg]; [left; split; [set_solver|done]|by right].
Qed.

Lemma step_serviced w e d : healthy d -> undisturbed w e = true -> serviced w d -> serviced w (disk_step e d).
Proof.
  intros Hh Hu Hs. destruct e as [|owner|r owner amount|id r owner amount o|r owner amount|r owner|owner]; cbn [disk_step undisturbed] in *.
  - unfold server_transaction, new_transaction. destruct (checked_add (next_owner d) 1); [|done]. by apply (serviced_same w d).
  - unfold register_reservation. destruct (transactions d !! owner); [|done].
    destruct (checked_add (next_reservation d) 1) as [n|] eqn:En; [|done]. apply checked_add_spec in En as [-> _].
    apply (serviced_same w d); [done..|]. unfold leased. cbn. destruct (reservations d !! w_reservation w) as [o|] eqn:Er; [|done].
    destruct Hh as (Ha & _). destruct (ac_lease d Ha _ o Er) as [_ Hle]. rewrite lookup_insert_ne by lia. by rewrite Er.
  - by apply acquire_serviced.
  - apply end_wait_serviced; [by apply negb_true_iff, N.eqb_neq in Hu|done..].
  - by apply release_serviced.
  - unfold unregister_reservation. repeat case_match; try done. apply (serviced_same w d); [done..|]. unfold leased. cbn.
    by rewrite lookup_delete_ne by (by apply negb_true_iff, N.eqb_neq in Hu).
  - unfold drop_transaction. destruct (_ && _ && _); [|done]. by apply (serviced_same w d).
Qed.

Lemma run_serviced w es d :
  healthy d -> serviced w d -> Forall (fun e => undisturbed w e = true) es -> serviced w (disk_run es d).
Proof.
  intros Hh Hs Hes. revert d Hh Hs. induction Hes as [|e es He _ IH]; intros d Hh Hs; [done|]. cbn.
  apply IH; [by apply disk_step_healthy|by apply step_serviced].
Qed.

Lemma releases_run rs d : releases rs d = disk_run (map (fun '(r, owner, amount) => DRelease r owner amount) rs) d.
Proof. revert d. induction rs as [|[[r owner] amount] rs IH]; intros d; [done|]. apply IH. Qed.

(** Waking touches only the leases that wait. *)
Lemma wake_loop_lease ws d r :
  (forall w, w ∈ ws -> w_reservation w <> r) -> reservations (wake_loop limit ws d) !! r = reservations d !! r.
Proof.
  revert d. induction ws as [|w ws IH]; intros d Hne; cbn [wake_loop]; [done|].
  destruct (negb _); [done|].
  assert (Hk : reservations (grant_locked limit (w_reservation w) (w_owner w) (w_amount w) d).1 !! r
               = reservations d !! r).
  { unfold grant_locked. repeat case_match; cbn; try done.
    apply lookup_insert_ne. apply Hne, list_elem_of_here. }
  destruct (grant_locked limit (w_reservation w) (w_owner w) (w_amount w) d) as [d1 x]. cbn in Hk.
  rewrite IH; [done|]. intros w' Hw'. apply Hne. by apply list_elem_of_further.
Qed.

(** A dropped lease is gone with its bytes, unless something still waits on it. *)
Lemma drop_lease_gone r o d :
  accounted d -> reservations d !! r = Some o -> (forall w, w ∈ waiters d -> w_reservation w <> r) ->
  reservations (drop_lease limit r (ow_owner o) d) !! r = None.
Proof.
  intros Ha Hr Hw. unfold drop_lease, lease_amount. rewrite Hr, N.eqb_refl.
  set (d' := if (ow_amount o =? 0)%N then d else _).
  assert (Hd' : reservations d' !! r = Some {| ow_owner := ow_owner o; ow_amount := 0 |}).
  { unfold d'. destruct (N.eqb_spec (ow_amount o) 0) as [Hz|_]; [by rewrite Hr; destruct o; cbn in *; subst|].
    unfold release. destruct (release_locked_all r o d Ha Hr) as (d1 & Hrel & _).
    assert (Hk := release_locked_keeps r (ow_owner o) (ow_amount o) d). rewrite Hrel in *. cbn in *.
    unfold wake_waiters_locked. rewrite (wake_loop_lease (waiters d1) d1 r); [|by destruct Hk as (-> & _)].
    unfold release_locked in Hrel. rewrite Hr, N.eqb_refl in Hrel. cbn in Hrel.
    repeat case_match; try discriminate. injection Hrel as <- Hz. cbn. rewrite lookup_insert_eq. by subst. }
  unfold unregister_reservation. rewrite Hd'. cbn. rewrite N.eqb_refl. cbn. apply lookup_delete_eq.
Qed.

(** A grant given at once is given only when nobody waits. *)
Lemma acquire_at_once r owner amount d d' n :
  amount <> 0%N -> acquire_begin limit r owner amount d = (d', AReady (Ok n)) -> waiters d = [].
Proof.
  intros Hnz. unfold acquire_begin. rewrite (proj2 (N.eqb_neq amount 0) Hnz).
  destruct (transactions d !! owner); [|done]. destruct (add_within _ _ _); [|done].
  case_bool_decide; [done|]. cbn. by destruct (checked_add _ _).
Qed.
End Invariant.

Lemma releases_undisturbed w rs :
  Forall (fun e => undisturbed w e = true) (map (fun '(r, owner, amount) => DRelease r owner amount) rs).
Proof. induction rs as [|[[r owner] amount] rs IH]; [constructor|]. by constructor. Qed.

(** C39: The budget is conserved: after any interleaving of the coordinator's
    operations, including waits that are cancelled, time out or end after
    their grant, the server's count is exactly what the live leases hold, each
    transaction's count is what its own leases hold, and no count, nor the
    recorded peak, exceeds its limit; and dropping a lease on which nothing
    waits removes it with all its bytes. *)
Theorem disk_quota_conserved limit es :
  let d := disk_run limit es disk_new in
  reserved d = total (reservations d)
  /\ (reserved d <= peak d <= limit)%N
  /\ (forall owner tx, transactions d !! owner = Some tx ->
        tx_reserved tx = held owner (reservations d) /\ (tx_reserved tx <= tx_limit tx <= limit)%N)
  /\ (forall r o, reservations d !! r = Some o ->
        is_Some (transactions d !! ow_owner o)
        /\ ((forall w, w ∈ waiters d -> w_reservation w <> r) ->
            reservations (drop_lease limit r (ow_owner o) d) !! r = None)).
Proof.
  intros d. destruct (disk_run_healthy limit es disk_new (disk_new_healthy limit)) as (Ha & _).
  split; [apply Ha|]. split; [apply Ha|]. split.
  - intros owner tx Ht. destruct (ac_tx _ _ Ha owner tx Ht) as (? & ? & Hlim & _). split; [done|lia].
  - intros r o Hr. split; [apply (ac_lease _ _ Ha r o Hr)|]. by apply drop_lease_gone.
Qed.

(** C40: No waiter is forgotten, overtaken or turned away: after any interleaving,
    the queue is in the order the requests came, exactly the waiters whose
    wait is open are in it, its front does not fit the budget, and nothing is
    granted at once while someone waits.  A release serves a prefix of the
    queue: each of them is granted its bytes if its lease is still registered
    for its owner and told that it failed if not, and the server counts
    exactly what was granted.  Whatever happens next, a waiter whose lease
    stays registered and whose task does not end its wait is in the queue or
    granted; and there always are releases that grant every waiter that has
    its lease: nobody waits for ever on a budget that is returned. *)
Theorem disk_queue_fair limit es (Hmax : (limit <= U64_MAX)%N) :
  let d := disk_run limit es disk_new in
  StronglySorted N.lt (map w_id (waiters d))
  /\ (forall id, status d !! id = Some Waiting <-> id ∈ map w_id (waiters d))
  /\ (forall w rest, waiters d = w :: rest -> (limit < reserved d + w_amount w)%N)
  /\ (forall r owner amount d' n, amount <> 0%N ->
        acquire_begin limit r owner amount d = (d', AReady (Ok n)) -> waiters d = [])
  /\ (forall r owner amount d' n, release limit r owner amount d = (d', Ok n) ->
        exists served, waiters d = served ++ waiters d'
          /\ (forall w, w ∈ served -> status d' !! w_id w = Some (if leased w d then Granted else Failed))
          /\ (reserved d' + amount = reserved d + granted_bytes served d)%N)
  /\ (forall w es', w ∈ waiters d -> leased w d = true -> Forall (fun e => undisturbed w e = true) es' ->
        let d' := disk_run limit es' d in w ∈ waiters d' \/ status d' !! w_id w = Some Granted)
  /\ exists rs, let d' := releases limit rs d in
       waiters d' = []
       /\ forall w, w ∈ waiters d -> leased w d = true -> status d' !! w_id w = Some Granted.
Proof.
  intros d. assert (Hh := disk_run_healthy limit es disk_new (disk_new_healthy limit)). fold d in Hh.
  assert (Hd := Hh). destruct Hd as (Ha & [Ho He Hall] & Hk). split; [done|]. split.
  { intros id. split; [apply Hall|]. intros (w & -> & Hw)%list_elem_of_fmap. by apply He. }
  split; [intros w rest Hw; by apply can_grant_spec, (Hk w rest)|].
  split; [intros r owner amount d' n Hnz; by apply acquire_at_once|].
  split; [intros r owner amount d' n; by apply release_exact|].
  assert (Hstay : forall w es', w ∈ waiters d -> leased w d = true -> Forall (fun e => undisturbed w e = true) es' ->
    w ∈ waiters (disk_run limit es' d) \/ status (disk_run limit es' d) !! w_id w = Some Granted).
  { intros w es' Hw Hl Hes. destruct (run_serviced limit w es' d Hh) as [_ [[? _]|?]]; [|done|by left|by right].
    split; [by apply He|by left]. }
  split; [exact Hstay|]. destruct (drain limit d Hmax Hh) as [rs Hrs]. exists rs. split; [done|]. intros w Hw Hl.
  rewrite releases_run in *. destruct (Hstay w _ Hw Hl (releases_undisturbed w rs)) as [Hin|Hg]; [|done].
  rewrite Hrs in Hin. by apply not_elem_of_nil in Hin.
Qed.

Module DiskWitness.
(** Two downloads share ten bytes: the second's seven wait until the first,
    which holds six, gives them back. *)
Definition shared : list DiskStep :=
  [DServerTransaction; DServerTransaction; DLease 1; DLease 2; DAcquire 1 1 6; DAcquire 2 2 7; DAcquire 2 2 1].

Lemma shared_waits : map w_amount (waiters (disk_run 10 shared disk_new)) = [7; 1]%N.
Proof. reflexivity. Qed.

Lemma shared_served :
  let d := disk_run 10 (shared ++ [DRelease 1 1 6]) disk_new in waiters d = [] /\ reserved d = 8%N.
Proof. split; reflexivity. Qed.

Definition second : Waiter := {| w_id := 1; w_reservation := 2; w_owner := 2; w_amount := 7 |}.

Lemma disk_queue_fair_witness :
  let d := disk_run 10 shared disk_new in
  (10 < 6 + 7)%N
  /\ (second ∈ waiters d /\ leased second d = true)
  /\ (exists d', release 10 1 1 6 d = (d', Ok 0%N) /\ status d' !! 1%N = Some Granted)
  /\ exists rs, status (releases 10 rs d) !! 1%N = Some Granted.
Proof.
  destruct (disk_queue_fair 10 shared) as (_ & _ & Hf & _ & Hrel & _ & rs & _ & Hrs); [vm_compute; done|].
  cbv zeta in *. split; [exact (Hf second [{| w_id := 2; w_reservation := 2; w_owner := 2; w_amount := 1 |}] eq_refl)|].
  assert (Hin : second ∈ waiters (disk_run 10 shared disk_new)) by (vm_compute; apply list_elem_of_here).
  split; [split; [exact Hin|reflexivity]|]. split; [|exists rs; apply (Hrs second Hin); reflexivity].
  destruct (Hrel 1%N 1%N 6%N _ 0%N eq_refl) as (served & Hw & Hs & _). eexists. split; [reflexivity|].
  apply (Hs second). vm_compute in Hw. destruct served as [|w served]; [discriminate Hw|]. injection Hw as <- _. apply list_elem_of_here.
Defined.
End DiskWitness.
