(* ===== verification/Egress.v ===== *)
(** * The egress chokepoint (src/src/policy/egress.rs)

    What one tool call does to the world is a state-passing program over a
    [World]: the call's egress log, the response cache, and the trace of what
    the call decided, appended, sent and reported.  The [Env] answers every
    question put to the outside - a durable append, a send, a clock, a
    cancellation - numbered by how many were asked before it, so a property of
    all environments is a property of every schedule of answers. *)
From S2P Require Import Prelude RustStr Json PolicyTypes Signing Bundle PolicyEngine Canonical Extractors Config Scope ResponseCache.

(** ** URLs, as the url crate reads them *)

Class UrlLib := {
  Url : Type;
  Origin : Type;
  Url_eq_dec :: EqDecision Url;
  Origin_eq_dec :: EqDecision Origin;
  url_parse : string -> option Url;
  url_scheme : Url -> string;
  url_has_host : Url -> bool;
  url_username : Url -> string;
  url_has_password : Url -> bool;
  url_has_fragment : Url -> bool;
  url_path : Url -> string;
  url_query : Url -> option string;
  (** [BeforePath..AfterQuery]. *)
  url_path_and_query : Url -> string;
  url_join : Url -> string -> option Url;
  url_as_str : Url -> string;
  url_origin : Url -> Origin;
  ascii_serialization : Origin -> string;
}.

(** ** The world *)

Inductive WireBody :=
| BForm (form : list (string * string)) | BJson (v : Value) | BText (s : string) | BMultipart (body : list byte) | BNone.

Record WireRequest := {
  wr_method : HttpMethod;
  wr_url : string;
  wr_headers : list (string * string);
  wr_body : WireBody;
}.

Record Response := {
  r_status : N;
  r_headers : HeaderMap;
  r_url : string;
  r_content_length : option N;
}.

Record HttpError := { is_connect : bool; is_timeout : bool; is_request : bool; error_text : string }.

(** How a send ends: with a response, with the client's error, by the
    caller's own timeout, or by cancellation while it was in flight. *)
Inductive SendAnswer :=
| SResponse (r : Response)
| SError (e : HttpError)
| STimeout
| SCancelled.

Inductive SleepAnswer := Slept | SleepCancelled | SleepDeadline.

(** What leaves the call: a decision at the egress chokepoint (with the
    canonical target asked about, as it goes on the wire), an append to
    the durable journal with its answer, a request the transport hands to the
    network, a credential exchange a vendor client sends past the transport, a
    statement sent to a database session, a usage event, a line of the local activity log. *)
Inductive Effect :=
| EDecide (vendor wire : string) (c : ActionContext) (d : PolicyDecision)
| EAppend (e : AuditEvent) (o : AppendOutcome)
| ESend (r : WireRequest)
| EExchange (r : WireRequest)
| EDatabase (database sql : string)
| EUsage (u : UsageEvent)
| EActivity (tool event : string).

Record World := {
  step : nat;
  trace : list Effect;
  elog : EgressLog;
  cache : Cache;
}.

Record Env := {
  env_append : nat -> AppendOutcome;
  env_send : nat -> SendAnswer;
  env_now : nat -> N;
  env_wall : nat -> N;
  env_stamp : nat -> string;
  env_cancelled : nat -> bool;
  (** Random samples. *)
  env_random : nat -> N;
  env_sleep : nat -> SleepAnswer;
  (** A response body read under the byte, idle and total bounds. *)
  env_body : nat -> result string McpError;
  (** The chunks of a body read without decoding, and the error that ends it. *)
  env_chunks : nat -> list (list byte) * option HttpError;
  (** A body decoded and persisted as an artifact. *)
  env_artifact : nat -> result string McpError;
  (** The file a raw response was saved to, if one was. *)
  env_raw_path : nat -> option string;
}.

(** ** The state monad *)

Definition EM (A : Type) : Type := World -> World * A.

Definition ret {A} (a : A) : EM A := fun w => (w, a).
Definition bind {A B} (m : EM A) (k : A -> EM B) : EM B := fun w => let '(w', a) := m w in k a w'.
Definition try_bind {A B E} (m : EM (result A E)) (k : A -> EM (result B E)) : EM (result B E) :=
  bind m (fun r => match r with Ok a => k a | Err e => ret (Err e) end).

(** [let! x := m in k] awaits; [try! x := m in k] awaits with [?]. *)
Notation "'let!' x := m 'in' k" := (bind m (fun x => k))
  (at level 10, x name, m at level 100, k at level 200) : rust_scope.
Notation "'try!' x := m 'in' k" := (try_bind m (fun x => k))
  (at level 10, x name, m at level 100, k at level 200) : rust_scope.

Definition lift {A E} (r : result A E) : EM (result A E) := ret r.

Definition emit (e : Effect) : EM unit := fun w =>
  ({| step := step w; trace := trace w ++ [e]; elog := elog w; cache := cache w |}, tt).

Definition ask {A} (answer : nat -> A) : EM A := fun w =>
  ({| step := S (step w); trace := trace w; elog := elog w; cache := cache w |}, answer (step w)).

Definition on_log {A} (f : EgressLog -> EgressLog * A) : EM A := fun w =>
  let '(l, a) := f (elog w) in
  ({| step := step w; trace := trace w; elog := l; cache := cache w |}, a).

Definition on_cache {A} (f : Cache -> Cache * A) : EM A := fun w =>
  let '(c, a) := f (cache w) in
  ({| step := step w; trace := trace w; elog := elog w; cache := c |}, a).

(** ** Bounded appends *)

Definition AUDIT_APPEND_TIMEOUT_KEY : string := "MCP_AUDIT_APPEND_TIMEOUT_MS".
Definition DEFAULT_AUDIT_APPEND_TIMEOUT : N := 5000.
Definition MIN_AUDIT_APPEND_TIMEOUT : N := 100.
Definition MAX_AUDIT_APPEND_TIMEOUT : N := 60000.

(** Milliseconds. *)
Definition audit_append_timeout (c : Config) : N :=
  match get c AUDIT_APPEND_TIMEOUT_KEY ≫= (fun v => parse_unsigned U64_MAX (trim v)) with
  | None => DEFAULT_AUDIT_APPEND_TIMEOUT
  | Some t => clamp t MIN_AUDIT_APPEND_TIMEOUT MAX_AUDIT_APPEND_TIMEOUT
  end.

(** The sink's error and the elapsed bound are one failure: the append was not
    proven durable within the bound. *)
Definition append_bounded (env : Env) (e : AuditEvent) : EM (result unit unit) :=
  let! o := ask (env_append env) in
  let! _ := emit (EAppend e o) in
  ret (match o with Acked => Ok tt | NotProven _ => Err tt end).

Definition policy_denied (d : PolicyDecision) : McpError :=
  let version := default "unversioned" (policy_version d) in
  api_error ("Policy denied: " ++ reason d ++ " (policy " ++ version ++ ")")%string (Some 403%N) None.

(** ** The chokepoint *)

Section Egress.
Context `{UrlLib}.
Variable sha256 : list byte -> list byte.
Variable form_urlencoded : list Pair -> list byte.
Variable env : Env.

Definition egress_context (scope : CallScope) (enforcement : Enforcement) (vendor : string)
    (method : HttpMethod) (target : CanonicalTarget) (body : option Value)
    (destination : option Url) (redact_query : bool) : ActionContext :=
  let details :=
    if redact_query then native.read (path_str target)
    else for_vendor sha256 vendor method target body in
  let context := assemble (cs_principal scope) (cs_client scope) None (cs_tool_name scope) details None
                   (en_upstream enforcement) in
  match destination with
  | Some url => set_destination (ascii_serialization (url_origin url)) context
  | None => context
  end.

Definition egress_record (vendor : string) (method : HttpMethod) (target : CanonicalTarget)
    (destination : option Url) (redact_query : bool) (decision : PolicyDecision) : EgressRecord :=
  {| er_vendor := vendor; er_method := method;
     canonical_target := if redact_query then path_str target
                         else of_bytes (url_under form_urlencoded [] target);
     destination_origin := (fun url => ascii_serialization (url_origin url)) <$> destination;
     er_effect := effect decision; er_rule_id := rule_id decision;
     dispatch := if is_allow decision then NotAttempted else Denied |}.

Definition denial_event (scope : CallScope) (enforcement : Enforcement) (vendor stamp : string)
    (decision : PolicyDecision) (context : ActionContext) : AuditEvent :=
  {| ev_timestamp := stamp; ev_kind := EgressDecision; ev_request_id := cs_request_id scope;
     ev_tool_name := cs_tool_name scope; ev_vendor := vendor; ev_principal := cs_principal scope;
     ev_client := cs_client scope; ev_decision := decision; ev_upstream := en_upstream enforcement;
     ev_action := Some context; ev_outcome := Some "egress_denied"; ev_duration_ms := None;
     ev_egress := None |}.

Definition authorize_at (scope : option CallScope) (vendor : string) (method : HttpMethod)
    (target : CanonicalTarget) (body : option Value) (destination : option Url) (redact_query : bool)
    : EM (result (option EgressTicket) McpError) :=
  match scope with
  | None => ret (Ok None)
  | Some s =>
      match cs_enforcement s with
      | None => ret (Ok None)
      | Some enforcement =>
          let context := egress_context s enforcement vendor method target body destination redact_query in
          let decision := pdp_evaluate (en_policy enforcement) context in
          let! _ := emit (EDecide vendor (of_bytes (url_under form_urlencoded [] target)) context decision) in
          let! ticket := on_log (note_egress
            (egress_record vendor method target destination redact_query decision)) in
          if is_allow decision then ret (Ok (Some ticket))
          else
            let! stamp := ask (env_stamp env) in
            let! _ := append_bounded env (denial_event s enforcement vendor stamp decision context) in
            ret (Err (policy_denied decision))
      end
  end.

Definition authorize_egress_at (scope : option CallScope) (vendor : string) (method : HttpMethod)
    (target : CanonicalTarget) (body : option Value) (destination : option Url) :=
  authorize_at scope vendor method target body destination false.

Definition authorize_egress (scope : option CallScope) (vendor : string) (method : HttpMethod)
    (target : CanonicalTarget) (body : option Value) :=
  authorize_egress_at scope vendor method target body None.

Definition authorize_download_egress (scope : option CallScope) (vendor : string)
    (target : CanonicalTarget) (destination : Url) :=
  authorize_at scope vendor Get target None (Some destination) true.

(** ** Reports of the transport (transport/mod.rs) *)

Definition report_attempt (ticket : option EgressTicket) (status : option N) (failure : option string)
    : EM unit :=
  match ticket with
  | Some t => on_log (fun l => (attempted t status failure l, tt))
  | None => ret tt
  end.

Definition report_cache_hit (ticket : option EgressTicket) : EM unit :=
  match ticket with
  | Some t => on_log (fun l => (cache_hit t l, tt))
  | None => ret tt
  end.

End Egress.

(** ** Weakest preconditions *)

Definition wp {A} (m : EM A) (Φ : A -> World -> Prop) (w : World) : Prop := Φ (m w).2 (m w).1.

Lemma wp_ret {A} (a : A) Φ w : Φ a w -> wp (ret a) Φ w.
Proof. done. Qed.

Lemma wp_bind {A B} (m : EM A) (k : A -> EM B) Φ w :
  wp m (fun a w' => wp (k a) Φ w') w -> wp (bind m k) Φ w.
Proof. unfold wp, bind. by destruct (m w). Qed.

Lemma wp_try {A B E} (m : EM (result A E)) (k : A -> EM (result B E)) Φ w :
  wp m (fun r w' => match r with Ok a => wp (k a) Φ w' | Err e => Φ (Err e) w' end) w ->
  wp (try_bind m k) Φ w.
Proof.
  intros Hm. apply wp_bind. revert Hm. unfold wp. by destruct (m w) as [w' [a|e]].
Qed.

Lemma wp_mono {A} (m : EM A) (Φ Ψ : A -> World -> Prop) w :
  wp m Φ w -> (forall a w', Φ a w' -> Ψ a w') -> wp m Ψ w.
Proof. unfold wp. auto. Qed.

(** ** What the trace says *)

Definition decisions (tr : list Effect) : list (string * string * ActionContext * PolicyDecision) :=
  omap (fun e => match e with EDecide v t c d => Some (v, t, c, d) | _ => None end) tr.

Definition sends (tr : list Effect) : list WireRequest :=
  omap (fun e => match e with ESend r => Some r | _ => None end) tr.

(** Traffic of any kind that leaves the process for an upstream. *)
Definition departs (e : Effect) : bool :=
  match e with ESend _ | EExchange _ | EDatabase _ _ => true | _ => false end.

Definition departures (tr : list Effect) : list Effect := List.filter departs tr.

Lemma departures_app t1 t2 : departures (t1 ++ t2) = departures t1 ++ departures t2.
Proof. apply List.filter_app. Qed.

Lemma decisions_app t1 t2 : decisions (t1 ++ t2) = decisions t1 ++ decisions t2.
Proof. apply omap_app. Qed.
Lemma sends_app t1 t2 : sends (t1 ++ t2) = sends t1 ++ sends t2.
Proof. apply omap_app. Qed.

(** A log entry is about a decision: its vendor, method, destination, effect
    and rule, and the target asked about - the whole of it, or its path alone
    where the query is redacted. *)
Definition agrees (p : string * string * ActionContext * PolicyDecision) (r : EgressRecord) : Prop :=
  let '(v, t, c, d) := p in
  er_vendor r = v /\ er_effect r = effect d /\ er_rule_id r = rule_id d
  /\ er_method r = ac_method c
  /\ (canonical_target r = t \/ canonical_target r = ac_path c /\ ac_attributes c = [])
  /\ destination_origin r = ac_destination_origin c
  /\ (dispatch r = Denied <-> effect d = Deny).

Definition attempts_of (r : EgressRecord) : N :=
  match dispatch r with Attempted n _ _ => n | _ => 0%N end.

Definition sum_attempts (l : list EgressRecord) : N := foldr (fun r acc => (attempts_of r + acc)%N) 0%N l.

(** The log lists the first decisions in order and counts the rest. *)
Definition logged (w : World) : Prop :=
  Forall2 agrees (take MAX_EGRESS_RECORDS (decisions (trace w))) (records (elog w))
  /\ omitted (elog w) = (length (decisions (trace w)) - MAX_EGRESS_RECORDS)%nat.

(** As long as nothing was omitted, the attempts on the log are the sends,
    but for [pending] sends not reported yet. *)
Definition counted (pending : N) (w : World) : Prop :=
  (N.of_nat (length (sends (trace w))) < U32)%N -> omitted (elog w) = 0%nat ->
  (sum_attempts (records (elog w)) + pending = N.of_nat (length (sends (trace w))))%N.

(** A live ticket points at an allowed record or beyond the bound. *)
Definition live (t : EgressTicket) (w : World) : Prop :=
  match index t with
  | Some i => exists r, records (elog w) !! i = Some r /\ er_effect r = Allow
  | None => (0 < omitted (elog w))%nat
  end.

Lemma sum_attempts_cons r l : sum_attempts (r :: l) = (attempts_of r + sum_attempts l)%N.
Proof. done. Qed.

Lemma sum_attempts_app l1 l2 : sum_attempts (l1 ++ l2) = (sum_attempts l1 + sum_attempts l2)%N.
Proof. induction l1 as [|r l1 IH]; [done|]. cbn [app]. rewrite !sum_attempts_cons, IH. lia. Qed.

Lemma sum_attempts_alter f l i r :
  l !! i = Some r ->
  (sum_attempts (alter f i l) + attempts_of r = sum_attempts l + attempts_of (f r))%N.
Proof.
  revert i. induction l as [|x l IH]; intros [|i]; try done.
  - intros [= ->]. change (alter f 0 (r :: l)) with (f r :: l). rewrite !sum_attempts_cons. lia.
  - intros Hi%IH. change (alter f (S i) (x :: l)) with (x :: alter f i l). rewrite !sum_attempts_cons. lia.
Qed.

Lemma sum_attempts_ge l i r : l !! i = Some r -> (attempts_of r <= sum_attempts l)%N.
Proof.
  revert i. induction l as [|x l IH]; intros [|i]; try done; rewrite sum_attempts_cons.
  - intros [= ->]. lia.
  - intros Hi%IH. lia.
Qed.

Lemma agrees_alter f ds l i :
  (forall r p, agrees p r -> l !! i = Some r -> agrees p (f r)) ->
  Forall2 agrees ds l -> Forall2 agrees ds (alter f i l).
Proof.
  revert ds i. induction l as [|x l IH]; intros ds i Hf Hds; [done|].
  destruct ds as [|d ds]; [by inversion Hds|]. apply Forall2_cons in Hds as [Hd Hds].
  destruct i as [|i]; cbn; apply Forall2_cons; split; try done.
  - by apply Hf.
  - apply (IH ds i); [|done]. intros r p Hp Hr. by apply (Hf r p).
Qed.

(** ** Preservation by the primitive steps *)

(** Later worlds keep live tickets live. *)
Definition later (w w' : World) : Prop :=
  trace w `prefix_of` trace w'
  /\ (omitted (elog w) <= omitted (elog w'))%nat
  /\ forall i r, records (elog w) !! i = Some r ->
       exists r', records (elog w') !! i = Some r' /\ er_effect r' = er_effect r.

#[export] Instance later_preorder : PreOrder later.
Proof.
  split.
  - intros w. split; [done|]. split; [done|]. eauto.
  - intros w1 w2 w3 (P1 & O1 & R1) (P2 & O2 & R2). split; [by etrans|]. split; [lia|].
    intros i r Hr. destruct (R1 i r Hr) as (r' & Hr' & <-). apply R2 in Hr' as (r'' & ? & <-). eauto.
Qed.

Lemma live_later t w w' : later w w' -> live t w -> live t w'.
Proof.
  intros (_ & Ho & Hr). unfold live. destruct (index t) as [i|]; [|lia].
  intros (r & H & Ha). destruct (Hr i r H) as (r' & H' & E). exists r'. by rewrite E.
Qed.

(** Steps that touch neither the trace nor the log. *)
Definition quiet (w w' : World) : Prop := trace w' = trace w /\ elog w' = elog w.

Lemma quiet_later w w' : quiet w w' -> later w w'.
Proof. intros [Ht He]. unfold later. rewrite Ht, He. split; [done|]. split; [done|]. eauto. Qed.

Lemma quiet_logged w w' : quiet w w' -> logged w -> logged w'.
Proof. intros [Ht He]. unfold logged. by rewrite Ht, He. Qed.

Lemma quiet_counted n w w' : quiet w w' -> counted n w -> counted n w'.
Proof. intros [Ht He]. unfold counted. by rewrite Ht, He. Qed.

Lemma quiet_live t w w' : quiet w w' -> live t w -> live t w'.
Proof. intros Hq. by apply live_later, quiet_later. Qed.

#[export] Instance quiet_preorder : PreOrder quiet.
Proof. split; [by intros w|]. intros w1 w2 w3 [T1 E1] [T2 E2]. split; congruence. Qed.

Lemma wp_ask {A} (answer : nat -> A) Φ w :
  (forall a w', quiet w w' -> Φ a w') -> wp (ask answer) Φ w.
Proof. intros HΦ. apply HΦ. done. Qed.

Lemma wp_ask_at {A} (answer : nat -> A) Φ w :
  (forall w', quiet w w' -> step w' = S (step w) -> Φ (answer (step w)) w') -> wp (ask answer) Φ w.
Proof. intros HΦ. by apply HΦ. Qed.

Lemma wp_on_cache {A} (f : Cache -> Cache * A) Φ w :
  (forall a w', quiet w w' -> Φ a w') -> wp (on_cache f) Φ w.
Proof. intros HΦ. unfold wp, on_cache. destruct (f (cache w)). by apply HΦ. Qed.

Lemma wp_emit e Φ w :
  (forall w', trace w' = trace w ++ [e] -> elog w' = elog w -> Φ tt w') -> wp (emit e) Φ w.
Proof. intros HΦ. by apply HΦ. Qed.

Lemma wp_emit_at e Φ w :
  (forall w', trace w' = trace w ++ [e] -> step w' = step w -> Φ tt w') -> wp (emit e) Φ w.
Proof. intros HΦ. by apply HΦ. Qed.

(** Effects that are neither decisions nor sends. *)
Definition silent (e : Effect) : bool :=
  match e with EDecide _ _ _ _ | ESend _ => false | _ => true end.

Lemma silent_logged w w' e :
  silent e = true -> trace w' = trace w ++ [e] -> elog w' = elog w ->
  later w w' /\ (logged w -> logged w') /\ (forall n, counted n w -> counted n w').
Proof.
  intros He Ht Hl. unfold later, logged, counted. rewrite Ht, Hl, decisions_app, sends_app.
  assert (decisions [e] = [] /\ sends [e] = []) as [-> ->] by (by destruct e).
  rewrite !app_nil_r. split; [|by split]. split; [by apply prefix_app_r|]. split; [done|]. eauto.
Qed.

(** A ticket whose record has seen no attempt. *)
Definition unattempted (t : EgressTicket) (w : World) : Prop :=
  match index t with
  | Some i => exists r, records (elog w) !! i = Some r /\ er_effect r = Allow /\ attempts_of r = 0%N
  | None => (0 < omitted (elog w))%nat
  end.

Lemma unattempted_live t w : unattempted t w -> live t w.
Proof. unfold unattempted, live. destruct (index t); naive_solver. Qed.

Lemma quiet_unattempted t w w' : quiet w w' -> unattempted t w -> unattempted t w'.
Proof. intros [_ He]. unfold unattempted. by rewrite He. Qed.

Lemma logged_length w :
  logged w -> length (records (elog w)) = Nat.min MAX_EGRESS_RECORDS (length (decisions (trace w))).
Proof. intros [Hf _]. apply Forall2_length in Hf. by rewrite <- Hf, length_take. Qed.

(** Noting a decision right after it was made. *)
Lemma note_logged w w' w'' n v wire c d r t :
  logged w -> counted n w ->
  trace w' = trace w ++ [EDecide v wire c d] -> elog w' = elog w ->
  trace w'' = trace w' -> note_egress r (elog w') = (elog w'', t) ->
  agrees (v, wire, c, d) r -> attempts_of r = 0%N ->
  logged w'' /\ counted n w'' /\ later w w'' /\ (effect d = Allow -> unattempted t w'').
Proof.
  intros Hl Hc Ht He Ht' Hn Hag Hat. pose proof (logged_length w Hl) as Hlen. destruct Hl as [Hf Ho].
  unfold note_egress in Hn. rewrite He in Hn.
  assert (Hd : decisions (trace w'') = decisions (trace w) ++ [(v, wire, c, d)])
    by (by rewrite Ht', Ht, decisions_app).
  assert (Hs : sends (trace w'') = sends (trace w)) by (by rewrite Ht', Ht, sends_app, app_nil_r).
  assert (Hp : trace w `prefix_of` trace w'') by (rewrite Ht', Ht; by apply prefix_app_r).
  destruct (Nat.ltb_spec (length (records (elog w))) MAX_EGRESS_RECORDS) as [Hlt|Hge];
    injection Hn as Hlog <-; unfold logged, counted, later, unattempted; rewrite <- Hlog, Hd, ?Hs;
    cbn [records omitted index]; rewrite length_app; cbn [length].
  - split; [split|].
    + rewrite take_ge in Hf by lia. rewrite take_ge by (rewrite length_app; cbn; lia).
      apply Forall2_app; [done|]. by constructor.
    + lia.
    + split; [|split; [split; [done|]; split; [done|]|]].
      * intros H1 H2. rewrite sum_attempts_app, sum_attempts_cons, Hat. cbn -[N.add]. specialize (Hc H1 H2). lia.
      * intros i x Hx. exists x. split; [|done]. by apply lookup_app_l_Some.
      * intros Ha. exists r. split; [by rewrite lookup_app_r, Nat.sub_diag|]. split; [|done].
        destruct Hag as (_ & -> & _). done.
  - split; [split|].
    + rewrite take_app_le by lia. done.
    + lia.
    + split; [|split; [split; [done|]; split; [lia|]; eauto|intros _; lia]]. intros _ Hz. lia.
Qed.

Section Authorize.
Context `{UrlLib}.
Variable sha256 : list byte -> list byte.
Variable form_urlencoded : list Pair -> list byte.
Variable env : Env.
Context (s : CallScope) (enf : Enforcement) (Hs : cs_enforcement s = Some enf).

Lemma egress_record_agrees vendor m input target body dest redact :
  parse input = Ok target -> (redact = true -> m = Get) ->
  let c := egress_context sha256 s enf vendor m target body dest redact in
  let d := pdp_evaluate (en_policy enf) c in
  agrees (vendor, of_bytes (url_under form_urlencoded [] target), c, d)
    (egress_record form_urlencoded vendor m target dest redact d)
  /\ attempts_of (egress_record form_urlencoded vendor m target dest redact d) = 0%N.
Proof.
  intros Hp Hm. cbv zeta. destruct (for_vendor_describes sha256 vendor m _ _ body Hp) as (Hmeth & _).
  set (d := pdp_evaluate _ _). unfold egress_record, agrees, attempts_of, is_allow.
  cbn [er_vendor er_method canonical_target destination_origin er_effect er_rule_id dispatch].
  split; [|by destruct (effect d)]. do 3 (split; [done|]). unfold egress_context.
  split; [destruct redact, dest; cbn; try done; by rewrite Hm|].
  split; [destruct redact; [right; by destruct dest|by left]|].
  split; [by destruct dest|]. by destruct (effect d).
Qed.

(** The chokepoint in an enforcing scope: one decision, noted; an allow hands
    out a fresh ticket, a denial is appended to the journal and refused. *)
Lemma wp_authorize_at vendor m input target body dest redact n Φ w :
  parse input = Ok target -> (redact = true -> m = Get) -> logged w -> counted n w ->
  (forall r w',
     let c := egress_context sha256 s enf vendor m target body dest redact in
     let d := pdp_evaluate (en_policy enf) c in
     let wire := of_bytes (url_under form_urlencoded [] target) in
     logged w' -> counted n w' -> later w w' -> EDecide vendor wire c d ∈ trace w' ->
     sends (trace w') = sends (trace w) ->
     match r with
     | Ok (Some t) => is_allow d = true /\ unattempted t w'
                      /\ trace w' = trace w ++ [EDecide vendor wire c d]
     | Ok None => False
     | Err e => is_allow d = false /\ e = policy_denied d
                /\ exists stamp o, trace w' = trace w ++ [EDecide vendor wire c d;
                     EAppend (denial_event s enf vendor stamp d c) o]
     end -> Φ r w') ->
  wp (authorize_at sha256 form_urlencoded env (Some s) vendor m target body dest redact) Φ w.
Proof.
  intros Hp Hm Hl Hc HΦ. unfold authorize_at. rewrite Hs. cbv zeta in *.
  destruct (egress_record_agrees vendor m input target body dest redact Hp Hm) as [Hag Hat]. cbv zeta in Hag, Hat.
  set (c := egress_context sha256 s enf vendor m target body dest redact) in *.
  set (d := pdp_evaluate (en_policy enf) c) in *.
  set (wire := of_bytes (url_under form_urlencoded [] target)) in *.
  apply wp_bind, wp_emit. intros w1 Ht1 He1. apply wp_bind.
  destruct (note_egress (egress_record form_urlencoded vendor m target dest redact d) (elog w1)) as [l t] eqn:En.
  unfold wp at 1, on_log. rewrite En. cbn [fst snd].
  set (w2 := {| step := _; trace := _; elog := l; cache := _ |}).
  destruct (note_logged w w1 w2 n vendor wire c d _ t Hl Hc Ht1 He1 eq_refl En Hag Hat) as (Hl2 & Hc2 & Hw2 & Hu).
  assert (Ht2 : trace w2 = trace w ++ [EDecide vendor wire c d]) by exact Ht1.
  unfold is_allow in *. destruct (effect d) eqn:Ed.
  - apply wp_ret, HΦ; try done; [rewrite Ht2; set_solver|by rewrite Ht2, sends_app, app_nil_r|].
    split; [done|]. split; [by apply Hu|done].
  - apply wp_bind, wp_ask. intros stamp w3 Hq. unfold append_bounded.
    apply wp_bind, wp_bind, wp_ask. intros o w4 Hq'. apply wp_bind, wp_emit. intros w5 Ht5 He5.
    assert (Hq4 : quiet w2 w4) by (by etrans).
    destruct (silent_logged w4 w5 (EAppend (denial_event s enf vendor stamp d c) o) eq_refl Ht5 He5) as (Hw5 & Hl5 & Hc5).
    assert (Ht : trace w5 = trace w ++ [EDecide vendor wire c d; EAppend (denial_event s enf vendor stamp d c) o]).
    { destruct Hq4 as [Ht4 _]. rewrite Ht5, Ht4, Ht2. by rewrite <- app_assoc. }
    do 2 apply wp_ret. apply HΦ.
    + by eapply Hl5, quiet_logged.
    + by eapply Hc5, quiet_counted.
    + etrans; [exact Hw2|]. etrans; [by apply quiet_later|done].
    + rewrite Ht. set_solver.
    + by rewrite Ht, sends_app, app_nil_r.
    + split; [done|]. split; [done|]. eauto.
Qed.
End Authorize.

(** Changing the dispatch of an allowed record to anything but [Denied]. *)
Lemma update_allowed t f w w' :
  (forall r, exists d, f r = set_dispatch d r /\ d <> Denied) ->
  live t w -> logged w -> trace w' = trace w -> elog w' = update t f (elog w) ->
  later w w' /\ logged w'.
Proof.
  intros Hf Hl [Hds Ho] Ht He. unfold later, logged. rewrite Ht, He. unfold update, live in *.
  destruct (index t) as [i|]; cbn [records omitted];
    [|split; [split; [done|]; split; [done|]; eauto|done]].
  destruct Hl as (r & Hr & Ha). split.
  - split; [done|]. split; [done|]. intros j x Hx. destruct (decide (j = i)) as [->|Hne].
    + rewrite list_lookup_alter_eq, Hx. destruct (Hf x) as (d & E & _). exists (f x). split; [done|by rewrite E].
    + rewrite list_lookup_alter_ne by done. eauto.
  - split; [|done]. apply agrees_alter; [|done]. intros x [[[v t'] c] d] (E1 & E2 & E3 & E4 & E5 & E6 & _) Hx.
    rewrite Hr in Hx. injection Hx as <-. destruct (Hf r) as (dd & -> & Hdd).
    unfold agrees. cbn. rewrite <- E2, Ha. by split_and!.
Qed.

Lemma wp_report_attempt t status failure w Φ :
  live t w -> logged w -> counted 1 w ->
  (forall w', trace w' = trace w -> later w w' -> logged w' -> counted 0 w' -> Φ tt w') ->
  wp (report_attempt (Some t) status failure) Φ w.
Proof.
  intros Hl Hg Hc HΦ. unfold wp, report_attempt, on_log. cbn [fst snd].
  set (w' := {| step := _; trace := _; elog := _; cache := _ |}).
  set (f := fun r => set_dispatch
    (match dispatch r with Attempted a _ _ => Attempted ((a + 1) mod U32) status failure
     | _ => Attempted 1 status failure end) r).
  destruct (update_allowed t f w w') as [Hw' Hg']; try done.
  { intros r. eexists. split; [done|]. by destruct (dispatch r). }
  apply HΦ; try done. unfold counted in *. subst w'. cbn [trace elog].
  unfold attempted, update. unfold live in Hl.
  destruct (index t) as [i|]; cbn [records omitted]; intros H1 H2; [|lia].
  specialize (Hc H1 H2). destruct Hl as (r & Hr & _).
  pose proof (sum_attempts_alter f _ _ _ Hr) as Hs. pose proof (sum_attempts_ge _ _ _ Hr) as Hge.
  assert (Hf : attempts_of (f r) = (attempts_of r + 1)%N).
  { unfold f, attempts_of, set_dispatch in *. cbn [dispatch]. destruct (dispatch r); cbn [dispatch]; try done.
    apply N.mod_small. lia. }
  fold f. lia.
Qed.

Lemma wp_report_cache_hit t w Φ :
  unattempted t w -> logged w -> counted 0 w ->
  (forall w', trace w' = trace w -> later w w' -> logged w' -> counted 0 w' -> Φ tt w') ->
  wp (report_cache_hit (Some t)) Φ w.
Proof.
  intros Hu Hg Hc HΦ. unfold wp, report_cache_hit, on_log. cbn [fst snd].
  set (w' := {| step := _; trace := _; elog := _; cache := _ |}).
  destruct (update_allowed t (set_dispatch CacheHit) w w') as [Hw' Hg']; try done.
  { intros r. by exists CacheHit. }
  { by apply unattempted_live. }
  apply HΦ; try done. unfold counted in *. subst w'. cbn [trace elog]. unfold cache_hit, update.
  unfold unattempted in Hu. destruct (index t) as [i|]; cbn [records omitted]; intros H1 H2; [|lia].
  specialize (Hc H1 H2). destruct Hu as (r & Hr & _ & Ha).
  pose proof (sum_attempts_alter (set_dispatch CacheHit) _ _ _ Hr) as Hs.
  change (attempts_of (set_dispatch CacheHit r)) with 0%N in Hs. lia.
Qed.

(** ** Every send follows an allow *)

Section Covered.
(** When a target, its context and its decision are about a request. *)
Variable covers : string -> ActionContext -> PolicyDecision -> WireRequest -> Prop.

(** The trace holds an allow that covers the request. *)
Definition authorizes (tr : list Effect) (r : WireRequest) : Prop :=
  exists v t c d, EDecide v t c d ∈ tr /\ is_allow d = true /\ covers t c d r.

(** Every send comes after an allow that covers it. *)
Definition sends_covered (tr : list Effect) : Prop :=
  forall pre r post, tr = pre ++ ESend r :: post -> authorizes pre r.

Lemma sends_covered_snoc tr e :
  sends_covered tr -> (forall r, e = ESend r -> authorizes tr r) -> sends_covered (tr ++ [e]).
Proof.
  intros Hc He pre r post E. induction post as [|x post _] using rev_ind.
  - apply app_inj_tail in E as [-> ->]. by apply He.
  - rewrite app_comm_cons, app_assoc in E. apply app_inj_tail in E as [-> _]. eapply Hc. done.
Qed.

(** The invariant of an enforcing call, with [n] sends not yet reported. *)
Record good (n : N) (w : World) : Prop := {
  good_logged : logged w;
  good_counted : counted n w;
  good_covered : sends_covered (trace w);
}.

Lemma quiet_good n w w' : quiet w w' -> good n w -> good n w'.
Proof.
  intros Hq [H1 H2 H3]. constructor; [by eapply quiet_logged|by eapply quiet_counted|].
  destruct Hq as [-> _]. done.
Qed.

Lemma authorizes_later r w w' : later w w' -> authorizes (trace w) r -> authorizes (trace w') r.
Proof.
  intros ([l ->] & _) (v & t & c & d & Hin & Hd). exists v, t, c, d. split; [set_solver|done].
Qed.

Lemma wp_send env r w Φ :
  good 0 w -> authorizes (trace w) r ->
  (forall a w', good 1 w' -> later w w' -> Φ a w') -> wp (let! _ := emit (ESend r) in ask (env_send env)) Φ w.
Proof.
  intros [H1 H2 H3] Ha HΦ. apply wp_bind, wp_emit. intros w1 Ht He. apply wp_ask. intros a w2 Hq.
  assert (Hw1 : later w w1).
  { unfold later. rewrite Ht, He. split; [by apply prefix_app_r|]. split; [done|]. eauto. }
  apply HΦ; [|etrans; [exact Hw1|by apply quiet_later]]. apply (quiet_good _ w1 w2 Hq). constructor.
  - unfold logged in *. by rewrite Ht, He, decisions_app, app_nil_r.
  - unfold counted in *. rewrite Ht, He, sends_app, length_app. cbn [sends omap list_omap length].
    intros Hlt Ho. specialize (H2 ltac:(lia) Ho). lia.
  - rewrite Ht. apply sends_covered_snoc; [done|]. by intros r' [= ->].
Qed.

Lemma good_report t status failure w Φ :
  live t w -> good 1 w ->
  (forall w', good 0 w' -> later w w' -> Φ tt w') -> wp (report_attempt (Some t) status failure) Φ w.
Proof.
  intros Hl [H1 H2 H3] HΦ. apply wp_report_attempt; [done..|]. intros w' Ht Hw Hg Hc.
  apply HΦ; [|done]. constructor; [done|done|by rewrite Ht].
Qed.

Lemma good_cache_hit t w Φ :
  unattempted t w -> good 0 w ->
  (forall w', good 0 w' -> later w w' -> Φ tt w') -> wp (report_cache_hit (Some t)) Φ w.
Proof.
  intros Hl [H1 H2 H3] HΦ. apply wp_report_cache_hit; [done..|]. intros w' Ht Hw Hg Hc.
  apply HΦ; [|done]. constructor; [done|done|by rewrite Ht].
Qed.

Lemma good_silent n w w' e :
  silent e = true -> trace w' = trace w ++ [e] -> elog w' = elog w -> good n w -> good n w' /\ later w w'.
Proof.
  intros He Ht Hl [H1 H2 H3]. destruct (silent_logged w w' e He Ht Hl) as (Hw & Hg & Hc).
  split; [|done]. constructor; [by apply Hg|by apply Hc|].
  rewrite Ht. apply sends_covered_snoc; [done|]. by intros r ->.
Qed.

(** Decisions and appends keep every send covered. *)
Lemma no_send_covered tr l : sends l = [] -> sends_covered tr -> sends_covered (tr ++ l).
Proof.
  revert tr. induction l as [|e l IH]; intros tr Hs Hc; [by rewrite app_nil_r|].
  replace (tr ++ e :: l) with ((tr ++ [e]) ++ l) by (by rewrite <- app_assoc).
  apply IH; [by destruct e|]. apply sends_covered_snoc; [done|]. by intros r ->.
Qed.

End Covered.

(** Carry what is known of a world over a quiet step, or over a step to a
    later world that establishes the invariant itself. *)
Ltac over_quiet :=
  repeat match goal with
  | Hq : quiet ?w ?w' |- _ =>
      repeat match goal with
      | Hx : Egress.good _ _ w |- _ => apply (quiet_good _ _ _ _ Hq) in Hx
      | Hx : unattempted _ w |- _ => apply (quiet_unattempted _ _ _ Hq) in Hx
      | Hx : live _ w |- _ => apply (quiet_live _ _ _ Hq) in Hx
      | Hx : Egress.authorizes _ (trace w) _ |- _ =>
          apply (authorizes_later _ _ _ _ (quiet_later _ _ Hq)) in Hx
      | Hx : later ?w0 w |- _ => apply (fun y => transitivity (R := later) y (quiet_later _ _ Hq)) in Hx
      end;
      lazymatch goal with
      | _ : later _ w' |- _ => clear Hq
      | _ => apply quiet_later in Hq
      end
  end.

Ltac over_later :=
  repeat match goal with
  | Hw : later ?w ?w', Hw' : later ?w' ?w'' |- _ =>
      repeat match goal with
      | Hx : live _ w' |- _ => apply (live_later _ _ _ Hw') in Hx
      | Hx : Egress.authorizes _ (trace w') _ |- _ => apply (authorizes_later _ _ _ _ Hw') in Hx
      end;
      apply (fun y => transitivity (R := later) y Hw') in Hw; clear Hw'
  end.

(** ** Programs only add to the trace *)

Definition grows {A} (m : EM A) : Prop := forall w, trace w `prefix_of` trace (m w).1.

Lemma grows_ret {A} (a : A) : grows (ret a).
Proof. by intros w. Qed.

Lemma grows_bind {A B} (m : EM A) (k : A -> EM B) : grows m -> (forall a, grows (k a)) -> grows (bind m k).
Proof.
  intros Hm Hk w. specialize (Hm w). unfold bind. destruct (m w) as [w' a]. etrans; [exact Hm|apply Hk].
Qed.

Lemma grows_try {A B E} (m : EM (result A E)) (k : A -> EM (result B E)) :
  grows m -> (forall a, grows (k a)) -> grows (try_bind m k).
Proof. intros Hm Hk. apply grows_bind; [done|]. intros [a|e]; [apply Hk|apply grows_ret]. Qed.

Lemma grows_ask {A} (answer : nat -> A) : grows (ask answer).
Proof. by intros w. Qed.

Lemma grows_emit e : grows (emit e).
Proof. intros w. by apply prefix_app_r. Qed.

Lemma grows_on_log {A} (f : EgressLog -> EgressLog * A) : grows (on_log f).
Proof. intros w. unfold on_log. by destruct (f (elog w)). Qed.

Lemma grows_on_cache {A} (f : Cache -> Cache * A) : grows (on_cache f).
Proof. intros w. unfold on_cache. by destruct (f (cache w)). Qed.

Create HintDb grows.
#[export] Hint Resolve grows_ret grows_ask grows_emit grows_on_log grows_on_cache : grows.

Ltac solve_grows :=
  repeat first
    [ progress cbv zeta
    | solve [auto with grows]
    | apply grows_bind; [|intros ?]
    | apply grows_try; [|intros ?]
    | match goal with
      | |- grows (match ?x with _ => _ end) => destruct x
      | |- grows (lift _) => apply grows_ret
      end ].

Lemma grows_append_bounded env e : grows (append_bounded env e).
Proof. unfold append_bounded. solve_grows. Qed.

Lemma grows_report_attempt t status failure : grows (report_attempt t status failure).
Proof. unfold report_attempt. solve_grows. Qed.

Lemma grows_report_cache_hit t : grows (report_cache_hit t).
Proof. unfold report_cache_hit. solve_grows. Qed.

#[export] Hint Resolve grows_append_bounded grows_report_attempt grows_report_cache_hit : grows.

Lemma grows_authorize_at `{UrlLib} sha256 form env scope vendor m target body dest redact :
  grows (authorize_at sha256 form env scope vendor m target body dest redact).
Proof. unfold authorize_at. solve_grows. Qed.

#[export] Hint Resolve grows_authorize_at : grows.
