(* ===== verification/Transport.v ===== *)
(** * The transport's request lifecycle
      (src/src/transport/mod.rs, src/src/transport/redirect.rs, src/src/transport/retry.rs)

    The three ways a vendor client reaches the network: [fetch], the streamed
    artifact download and the signed-URL download, with the retry loop and the
    bounded redirect chain they share.  Reading a body and writing an artifact
    are answers of the environment; everything that decides whether, where and
    with which headers a request is sent is here. *)
From S2P Require Import Prelude RustStr Json PolicyTypes Signing Bundle PolicyEngine Canonical Extractors Config Scope ResponseCache Egress.

(** ** Vendors and credentials *)

(** [dyn Vendor]. *)
Record Vendor := {
  v_name : string;
  base_url : Config -> result string McpError;
  cache_reads : string -> bool;
  classify_error : N -> string -> McpError;
  classify_success_json : Value -> option McpError;
}.

Inductive Credentials :=
| Bearer (token : string)
| ApiKeyHeader (header_name key : string)
| AtlassianApiToken (email token : string)
| BitbucketAppPassword (username password : string).

(** What the http and base64 crates and the JSON parser contribute. *)
Class HttpLib := {
  header_name_from : string -> option string;
  base64 : list byte -> string;
  json_from_str : string -> option Value;
  http_date : string -> option N;
  json_pretty : Value -> option string;
}.

(** [HeaderValue::from_str]: no control bytes but the tab. *)
Definition header_value_ok (v : string) : bool :=
  forallb (fun b => ((32 <=? code b) && negb (code b =? 127) || (code b =? 9))%N) (as_bytes v).

Section Credentials.
Context `{HttpLib}.

Definition basic_auth_payload (c : Credentials) : string :=
  match c with
  | AtlassianApiToken email token => base64 (as_bytes (email ++ ":" ++ token)%string)
  | BitbucketAppPassword username password => base64 (as_bytes (username ++ ":" ++ password)%string)
  | _ => ""
  end.

Definition auth_header (c : Credentials) : string :=
  match c with
  | Bearer token => ("Bearer " ++ token)%string
  | ApiKeyHeader _ key => key
  | _ => ("Basic " ++ basic_auth_payload c)%string
  end.

Definition auth_header_name (c : Credentials) : result string McpError :=
  match c with
  | ApiKeyHeader header_name _ =>
      match header_name_from header_name with
      | Some n => Ok n
      | None => Err (auth_invalid ("Invalid auth header name: " ++ header_name)%string)
      end
  | _ => Ok "authorization"
  end.

Definition validate_auth (c : Credentials) : result (string * string) McpError :=
  let? name := auth_header_name c in
  let raw := auth_header c in
  if header_value_ok raw then Ok (name, raw) else Err (auth_invalid "Invalid authentication header").

End Credentials.

(** ** Requests *)

Definition DEFAULT_REQUEST_MS : N := 30000.
Definition MAX_RESPONSE_SIZE : N := 10 * 1024 * 1024.

Definition resolve_timeout (c : Config) (override : option N) : N :=
  match override with
  | Some t => t
  | None =>
      let env_ms := get_int c "ATLASSIAN_REQUEST_TIMEOUT" (Z.of_N DEFAULT_REQUEST_MS) in
      if (env_ms <=? 0)%Z then DEFAULT_REQUEST_MS else Z.to_N env_ms
  end.

Definition build_request (method : HttpMethod) (url auth_name auth : string) (o : RequestOptions)
    : WireRequest :=
  let base := [(auth_name, auth); ("accept", "application/json")] ++ opt_headers o in
  match opt_form o, opt_body o, opt_text_body o with
  | Some form, _, _ => {| wr_method := method; wr_url := url; wr_headers := base; wr_body := BForm form |}
  | None, Some body, _ => {| wr_method := method; wr_url := url; wr_headers := base; wr_body := BJson body |}
  | None, None, Some text =>
      {| wr_method := method; wr_url := url; wr_headers := base ++ [("content-type", "text/plain")];
         wr_body := BText text |}
  | None, None, None =>
      {| wr_method := method; wr_url := url; wr_headers := base ++ [("content-type", "application/json")];
         wr_body := BNone |}
  end.

(** [client.get(url)]: nothing of the caller's on it. *)
Definition plain_get (url : string) : WireRequest :=
  {| wr_method := Get; wr_url := url; wr_headers := []; wr_body := BNone |}.

Definition is_redirection (status : N) : bool := (300 <=? status)%N && (status <? 400)%N.
Definition is_success (status : N) : bool := (200 <=? status)%N && (status <? 300)%N.
Definition is_retryable_stream_request_error (e : HttpError) : bool :=
  is_connect e || is_timeout e || is_request e.

Definition unexpected (message : string) (original : option OriginalError) : McpError :=
  {| err_message := message; err_kind := UnexpectedError; err_status := None; err_original := original |}.

Definition map_transport_error (e : HttpError) (url : string) : McpError :=
  if is_timeout e then
    api_error ("Request timeout: API did not respond in time at " ++ url)%string (Some 408%N)
      (Some (OString (error_text e)))
  else if is_connect e then
    api_error ("Network error connecting to API: " ++ error_text e)%string (Some 503%N)
      (Some (OString (error_text e)))
  else unexpected (error_text e) (Some (OString (error_text e))).

Definition canonicalize_error_text (e : CanonicalizeError) : string :=
  match e with
  | AbsoluteUrl => "request path must be relative to the configured vendor base URL"
  | InvalidPercentEncoding => "request path contains an invalid percent-escape"
  | ControlCharacter => "request path contains a control character"
  | InvalidUtf8 => "request query does not decode to UTF-8"
  | TooLong => "request path is too long"
  end.

Definition canonical_target_of (path : string) : result CanonicalTarget McpError :=
  match parse (as_bytes path) with
  | Ok t => Ok t
  | Err e => Err (api_error ("Invalid request path: " ++ canonicalize_error_text e)%string (Some 400%N) None)
  end.

(** ** Retry timing (milliseconds) *)

Section Retry.
Context `{HttpLib}.

Definition retry_parse (headers : HeaderMap) (wall : N) : option N :=
  (header_get headers "retry-after" ≫= header_to_str) ≫= (fun raw =>
    let value := trim raw in
    if negb (str_is_empty value) && forallb is_ascii_digit (as_bytes value)
    then (fun s => (s * 1000)%N) <$> parse_unsigned U64_MAX value
    else (fun date => (date - wall)%N) <$> http_date value).

(** [jitter_with]: the sample is taken from the inclusive range. *)
Definition jitter_envelope (attempt : nat) : N := (100 * N.shiftl 1 (N.of_nat (Nat.min attempt 5)))%N.
Definition jitter (attempt : nat) (random : N) : N :=
  let envelope := jitter_envelope attempt in
  (envelope / 2 + random mod (envelope - envelope / 2 + 1))%N.

Definition original_render (o : OriginalError) : option string :=
  match o with OJson v => json_pretty v | OString s => Some s end.

Definition retry_metadata (error : McpError) (delay : option N) : McpError :=
  match delay with
  | None => error
  | Some d =>
      let original := err_original error ≫= original_render in
      {| err_message := err_message error; err_kind := err_kind error; err_status := err_status error;
         err_original := Some (OJson (VObject
           [("retryAfterMs", VNumber (of_bytes (render_u64 (N.min d U64_MAX))));
            ("vendorError", match original with Some s => VString s | None => VNull end)])) |}
  end.

End Retry.

Section Steps.
Variable env : Env.

Definition send (r : WireRequest) : EM SendAnswer :=
  let! _ := emit (ESend r) in ask (env_send env).

Definition deadline_exceeded : McpError :=
  api_error "streaming request exceeded total deadline" (Some 408%N) None.

Definition remaining_until (deadline : N) : EM (result N McpError) :=
  let! now := ask (env_now env) in
  ret (if (now <? deadline)%N then Ok (deadline - now)%N else Err deadline_exceeded).

Definition retry_stream_attempt (attempt : nat) (deadline : N) (requested : option N)
    : EM (result unit McpError) :=
  let! random := ask (env_random env) in
  let delay := default (jitter attempt random) requested in
  try! remaining := remaining_until deadline in
  if (remaining <=? delay)%N then
    ret (Err (api_error "retry delay exceeds remaining request deadline" (Some 408%N)
      (Some (OJson (VObject [("retryAfterMs", VNumber (of_bytes (render_u64 (N.min delay U64_MAX))))])))))
  else
    let! answer := ask (env_sleep env) in
    ret (match answer with
         | Slept => Ok tt
         | SleepCancelled => Err (api_error "streaming request cancelled" (Some 499%N) None)
         | SleepDeadline => Err deadline_exceeded
         end).

End Steps.

(** ** Redirects *)

Section Requests.
Context `{UrlLib} `{HttpLib} `{BodyCodec}.
Variable sha256 : list byte -> list byte.
Variable form_urlencoded : list Pair -> list byte.
Variable env : Env.
(** The call scope the request runs in, if any. *)
Variable scope : option CallScope.

Definition destination (value : string) : result Url McpError :=
  match url_parse value with
  | None => Err (api_error "Invalid destination URL" (Some 400%N) None)
  | Some url =>
      if negb (String.eqb (url_scheme url) "http" || String.eqb (url_scheme url) "https")
         || negb (url_has_host url) || negb (str_is_empty (url_username url))
         || url_has_password url || url_has_fragment url
      then Err (api_error "Unsupported destination URL" (Some 400%N) None)
      else Ok url
  end.

Definition allowed (config : Config) (vendor : string) (url : Url) : bool :=
  match get_for config vendor "MCP_DOWNLOAD_ALLOWED_ORIGINS" with
  | None => false
  | Some origins =>
      existsb (fun origin =>
        match destination (trim origin) with
        | Ok a => String.eqb (url_path a) "/" && bool_decide (url_query a = None)
                  && bool_decide (url_origin a = url_origin url)
        | Err _ => false
        end) (split comma origins)
  end.

Definition redirect_authorize (vendor : string) (url : Url) : EM (result (option EgressTicket) McpError) :=
  try! target := lift (canonical_target_of (url_path_and_query url)) in
  if negb (String.eqb (path_str target) (url_path url))
  then ret (Err (api_error "Download path is not canonical" (Some 400%N) None))
  else authorize_download_egress sha256 form_urlencoded env scope vendor target url.

(** The statuses a GET follows. *)
Definition followed (status : N) : bool := existsb (N.eqb status) [301; 302; 303; 307; 308]%N.

(** The `for _ in 0..5` loop with its state: the hops left, the current URL,
    the URLs seen, and whether credentials may still be sent. *)
Fixpoint follow_loop (hops : nat) (vendor : string) (config : Config) (original current : Url)
    (seen : list Url) (credential_allowed : bool) (response : Response) (method : HttpMethod)
    (options : RequestOptions) (auth : option (string * string)) (deadline : N)
    : EM (result Response McpError) :=
  match hops with
  | O =>
      ret (if is_redirection (r_status response)
           then Err (api_error "Redirect hop limit exceeded" (Some 502%N) None) else Ok response)
  | S hops' =>
      if negb (is_redirection (r_status response)) then ret (Ok response)
      else if negb (bool_decide (method = Get)) || negb (followed (r_status response))
      then ret (Err (api_error "Unsupported redirect for this request" (Some 502%N) None))
      else
        try! location := lift (match header_get (r_headers response) "location" ≫= header_to_str with
                               | Some l => Ok l
                               | None => Err (api_error "Redirect has no valid Location" (Some 502%N) None)
                               end) in
        try! joined := lift (match url_join current location with
                             | Some u => Ok u
                             | None => Err (api_error "Invalid redirect Location" (Some 502%N) None)
                             end) in
        try! next := lift (destination (url_as_str joined)) in
        if String.eqb (url_scheme current) "https" && negb (String.eqb (url_scheme next) "https")
        then ret (Err (api_error "Redirect downgrade denied" (Some 403%N) None))
        else
          try! ticket := redirect_authorize vendor next in
          if negb (bool_decide (url_origin next = url_origin original)) && negb (allowed config vendor next)
          then ret (Err (api_error "Redirect origin is not in MCP_DOWNLOAD_ALLOWED_ORIGINS" (Some 403%N) None))
          else if bool_decide (next ∈ seen)
          then ret (Err (api_error "Redirect loop" (Some 502%N) None))
          else
            let! wall := ask (env_wall env) in
            try! _ := match retry_parse (r_headers response) wall with
                      | Some delay => retry_stream_attempt env 0 deadline (Some delay)
                      | None => ret (Ok tt)
                      end in
            let credential_allowed :=
              credential_allowed && bool_decide (url_origin next = url_origin current) in
            try! remaining := remaining_until env deadline in
            let request :=
              match auth with
              | Some (name, value) =>
                  if credential_allowed then build_request method (url_as_str next) name value options
                  else plain_get (url_as_str next)
              | None => plain_get (url_as_str next)
              end in
            let! answer := send env request in
            match answer with
            | SResponse r =>
                let! _ := report_attempt ticket (Some (r_status r)) None in
                follow_loop hops' vendor config original next (next :: seen) credential_allowed r method
                  options auth deadline
            | SCancelled =>
                let! _ := report_attempt ticket None (Some "cancelled") in
                ret (Err (api_error "redirect cancelled" (Some 499%N) None))
            | SError _ | STimeout =>
                let! _ := report_attempt ticket None (Some "transport_error") in
                ret (Err (api_error "Redirect request failed" (Some 502%N) None))
            end
  end.

Definition MAX_HOPS : nat := 5.

Definition follow (vendor : string) (config : Config) (initial : string) (response : Response)
    (method : HttpMethod) (options : RequestOptions) (auth : option (string * string)) (deadline : N)
    : EM (result Response McpError) :=
  try! original := lift (destination initial) in
  follow_loop MAX_HOPS vendor config original original [original]
    (bool_decide (is_Some auth)) response method options auth deadline.

(** ** One request through the cache *)

Record TransportResponse := {
  data : ResponseBody;
  tr_cache : CacheMetadata;
  raw_response_path : option string;
  tr_headers : HeaderMap;
}.

Definition enforce_content_length_cap (r : Response) : result unit McpError :=
  match (header_get (r_headers r) "content-length" ≫= header_to_str) ≫= parse_unsigned U64_MAX with
  | Some size =>
      if (MAX_RESPONSE_SIZE <? size)%N
      then Err (api_error ("Response size (" ++ of_bytes (render_u64 (size / 1048576)%N)
                    ++ "MB) exceeds maximum limit of "
                    ++ of_bytes (render_u64 (MAX_RESPONSE_SIZE / 1048576)%N) ++ "MB")%string (Some 413%N)
                  (Some (OJson (VObject [("responseSize", VNumber (of_bytes (render_u64 size)));
                                         ("limit", VNumber (of_bytes (render_u64 MAX_RESPONSE_SIZE)))]))))
      else Ok tt
  | None => Ok tt
  end.

Definition classify_body (r : Response) : EM (result ResponseBody McpError) :=
  if (r_status r =? 204)%N then ret (Ok Empty)
  else
    let content_type := default "" (header_get (r_headers r) "content-type" ≫= header_to_str) in
    try! text := ask (env_body env) in
    ret (Ok (if str_contains content_type "text/plain" then Text text
             else if is_blank text then Empty
             else match json_from_str text with Some v => Json v | None => Text text end)).

Definition fetch (vendor : Vendor) (credentials : Credentials) (config : Config) (path : string)
    (options : RequestOptions) : EM (result TransportResponse McpError) :=
  try! base := lift (base_url vendor config) in
  try! target := lift (canonical_target_of path) in
  let method := default Get (opt_method options) in
  let url := of_bytes (url_under form_urlencoded (as_bytes base) target) in
  try! dest := lift (destination url) in
  try! ticket := authorize_egress_at sha256 form_urlencoded env scope (v_name vendor) method target
                   (opt_body options) (Some dest) in
  try! auth := lift (validate_auth credentials) in
  let timeout := resolve_timeout config (opt_timeout options) in
  let! started := ask (env_now env) in
  let deadline := (started + timeout)%N in
  let cache_config := cache_config_from config in
  let key := cache_key_new sha256 (v_name vendor) url auth.1 auth.2 (opt_headers options)
               (owner_current scope) in
  let! _ := if fresh options then on_cache (fun c => (invalidate key c, tt)) else ret tt in
  let cacheable := enabled cache_config && negb (fresh options) && negb (sensitive_response options)
                   && cache_reads vendor path && request_is_cacheable url auth.1 options in
  let! now := ask (env_now env) in
  let! cached :=
    if negb (bool_decide (method = Get)) then
      on_cache (fun c => (invalidate_namespace (v_name vendor) base c, None))
    else if cacheable then on_cache (cache_get key now)
    else ret None in
  match cached with
  | Some (body, metadata) =>
      let! _ := report_cache_hit ticket in
      ret (Ok {| data := body; tr_cache := metadata; raw_response_path := None; tr_headers := [] |})
  | None =>
      let! answer := send env (build_request method url auth.1 auth.2 options) in
      match answer with
      | SError e =>
          let! _ := report_attempt ticket None (Some "transport_error") in
          ret (Err (map_transport_error e url))
      (* neither a caller-side timeout nor a cancellation is raced here *)
      | STimeout | SCancelled =>
          let! _ := report_attempt ticket None (Some "transport_error") in
          ret (Err (map_transport_error
                 {| is_connect := false; is_timeout := true; is_request := false; error_text := "" |} url))
      | SResponse response =>
          let! _ := report_attempt ticket (Some (r_status response)) None in
          try! response := follow (v_name vendor) config url response method options (Some auth) deadline in
          try! _ := lift (enforce_content_length_cap response) in
          if negb (is_success (r_status response)) then
            try! body_text := ask (env_body env) in
            let! wall := ask (env_wall env) in
            ret (Err (retry_metadata
                   (if negb (String.eqb (r_url response) url)
                    then api_error "Redirected request failed" (Some (r_status response)) None
                    else classify_error vendor (r_status response) body_text)
                   (retry_parse (r_headers response) wall)))
          else
            try! body := classify_body response in
            match (match body with Json v => classify_success_json vendor v | _ => None end) with
            | Some e => ret (Err e)
            | None =>
                let! stamp := ask (env_stamp env) in
                let metadata := {| hit := false; age_ms := 0; fetched_at := stamp |} in
                let! stored_at := ask (env_now env) in
                let! wall := ask (env_wall env) in
                let! random := ask (env_random env) in
                let! _ :=
                  if bool_decide (method = Get) && cacheable then
                    on_cache (fun c =>
                      (cache_store http_date key body (r_headers response) cache_config metadata
                         stored_at wall random c, tt))
                  else ret tt in
                let! raw_path :=
                  match body with
                  | Json _ => if sensitive_response options then ret None else ask (env_raw_path env)
                  | _ => ret None
                  end in
                ret (Ok {| data := body; tr_cache := metadata; raw_response_path := raw_path;
                           tr_headers := r_headers response |})
            end
      end
  end.

(** ** Streamed downloads *)

Record StreamingPolicy := {
  max_encoded_bytes : N;
  max_decoded_bytes : N;
  total_deadline : N;
  max_attempts : nat;
}.

Definition STREAM_TOTAL_REQUEST_TIMEOUT : N := 120000.
Definition STREAM_MAX_ATTEMPTS : nat := 3.

Definition streaming_policy_new (max_encoded max_decoded : N) : StreamingPolicy :=
  {| max_encoded_bytes := max_encoded; max_decoded_bytes := max_decoded;
     total_deadline := STREAM_TOTAL_REQUEST_TIMEOUT; max_attempts := STREAM_MAX_ATTEMPTS |}.

Definition retryable_status (status : N) : bool := existsb (N.eqb status) [429; 502; 503; 504]%N.

Definition enforce_streamed_length_cap (r : Response) (p : StreamingPolicy) : result unit McpError :=
  match r_content_length r with
  | Some length =>
      if (max_encoded_bytes p <? length)%N
      then Err (api_error "encoded response exceeds streamed artifact limit" (Some 413%N) None)
      else Ok tt
  | None => Ok tt
  end.

Definition stream_cancelled : McpError := api_error "streaming request cancelled" (Some 499%N) None.

(** What both loops do with the final response: retry, fail with the body read
    under the same bounds, or persist. *)
Definition finish_stream (again : option (option N -> EM (result string McpError)))
    (policy : StreamingPolicy) (deadline : N) (response : Response)
    (fail : string -> option N -> McpError) : EM (result string McpError) :=
  if negb (is_success (r_status response)) then
    let! wall := ask (env_wall env) in
    let delay := retry_parse (r_headers response) wall in
    let fail_now :=
      try! body := ask (env_body env) in
      ret (Err (fail body delay)) in
    match again with
    | Some retry => if retryable_status (r_status response) then retry delay else fail_now
    | None => fail_now
    end
  else
    try! _ := lift (enforce_streamed_length_cap response policy) in
    try! _ := remaining_until env deadline in
    ask (env_artifact env).

(** One iteration of `for attempt in 1..=attempts`.  [again] is the wait and
    the next iteration, absent on the last attempt. *)
Definition artifact_attempt (again : option (option N -> EM (result string McpError))) (vendor : Vendor)
    (config : Config) (url : string) (method : HttpMethod) (options : RequestOptions)
    (auth : string * string) (policy : StreamingPolicy) (ticket : option EgressTicket) (deadline : N)
    : EM (result string McpError) :=
  let! cancelled := ask (env_cancelled env) in
  if cancelled then ret (Err stream_cancelled)
  else
    try! remaining := remaining_until env deadline in
    let! answer := send env (build_request method url auth.1 auth.2 options) in
    match answer with
    | SCancelled =>
        let! _ := report_attempt ticket None (Some "cancelled") in
        ret (Err stream_cancelled)
    | SError e =>
        let! _ := report_attempt ticket None (Some "transport_error") in
        match again with
        | Some retry => if is_retryable_stream_request_error e then retry None
                        else ret (Err (map_transport_error e url))
        | None => ret (Err (map_transport_error e url))
        end
    | STimeout =>
        let! _ := report_attempt ticket None (Some "timeout") in
        match again with Some retry => retry None | None => ret (Err deadline_exceeded) end
    | SResponse response =>
        let! _ := report_attempt ticket (Some (r_status response)) None in
        try! response := follow (v_name vendor) config url response method options (Some auth) deadline in
        finish_stream again policy deadline response (fun body delay =>
          retry_metadata
            (if negb (String.eqb (r_url response) url)
             then api_error "Redirected download failed" (Some (r_status response)) None
             else classify_error vendor (r_status response) body) delay)
    end.

Fixpoint artifact_attempts (left_ attempt : nat) (vendor : Vendor) (config : Config) (url : string)
    (method : HttpMethod) (options : RequestOptions) (auth : string * string)
    (policy : StreamingPolicy) (ticket : option EgressTicket) (deadline : N)
    : EM (result string McpError) :=
  artifact_attempt
    (match left_ with
     | O => None
     | S left' => Some (fun delay =>
         try! _ := retry_stream_attempt env attempt deadline delay in
         artifact_attempts left' (S attempt) vendor config url method options auth policy ticket deadline)
     end) vendor config url method options auth policy ticket deadline.

(** `max_attempts.max(1)` attempts: one, and the rest retries. *)
Definition retries (p : StreamingPolicy) : nat := Nat.max (max_attempts p) 1 - 1.

Definition fetch_streamed_artifact_with_policy (vendor : Vendor) (credentials : Credentials)
    (config : Config) (path : string) (options : RequestOptions) (policy : StreamingPolicy)
    : EM (result string McpError) :=
  try! base := lift (base_url vendor config) in
  try! target := lift (canonical_target_of path) in
  let method := default Get (opt_method options) in
  let url := of_bytes (url_under form_urlencoded (as_bytes base) target) in
  try! dest := lift (destination url) in
  try! ticket :=
    if String.eqb (v_name vendor) "artifactory" && bool_decide (method = Get)
    then authorize_download_egress sha256 form_urlencoded env scope (v_name vendor) target dest
    else authorize_egress_at sha256 form_urlencoded env scope (v_name vendor) method target
           (opt_body options) (Some dest) in
  try! auth := lift (validate_auth credentials) in
  let! now := ask (env_now env) in
  artifact_attempts (retries policy) 1 vendor config url method options auth policy ticket
    (now + total_deadline policy)%N.

Definition no_options : RequestOptions :=
  {| fresh := false; sensitive_response := false; opt_method := None; opt_headers := [];
     opt_body := None; opt_form := None; opt_text_body := None; opt_timeout := None |}.

(** One iteration of the loop of [fetch_streamed_url], and the loop. *)
Definition url_attempt (again : option (option N -> EM (result string McpError))) (vendor : string)
    (config : Config) (url : string) (policy : StreamingPolicy) (ticket : option EgressTicket)
    (deadline : N) : EM (result string McpError) :=
  try! remaining := remaining_until env deadline in
  let! answer := send env (plain_get url) in
  match answer with
  | SCancelled =>
      let! _ := report_attempt ticket None (Some "cancelled") in
      ret (Err stream_cancelled)
  | SError e =>
      let! _ := report_attempt ticket None (Some "transport_error") in
      let failed := api_error "Download request failed" (Some (if is_timeout e then 408 else 502)%N) None in
      match again with
      | Some retry => if is_retryable_stream_request_error e then retry None else ret (Err failed)
      | None => ret (Err failed)
      end
  | STimeout =>
      let! _ := report_attempt ticket None (Some "timeout") in
      match again with Some retry => retry None | None => ret (Err deadline_exceeded) end
  | SResponse response =>
      let! _ := report_attempt ticket (Some (r_status response)) None in
      try! response := follow vendor config url response Get no_options None deadline in
      finish_stream again policy deadline response (fun _ delay =>
        retry_metadata
          (api_error ("streaming request failed with status "
                        ++ of_bytes (render_u64 (r_status response)))%string
             (Some (r_status response)) None) delay)
  end.

Fixpoint url_attempts (left_ attempt : nat) (vendor : string) (config : Config) (url : string)
    (policy : StreamingPolicy) (ticket : option EgressTicket) (deadline : N) : EM (result string McpError) :=
  url_attempt
    (match left_ with
     | O => None
     | S left' => Some (fun delay =>
         try! _ := retry_stream_attempt env attempt deadline delay in
         url_attempts left' (S attempt) vendor config url policy ticket deadline)
     end) vendor config url policy ticket deadline.

Definition fetch_streamed_url (vendor : string) (config : Config) (url : string)
    (policy : StreamingPolicy) : EM (result string McpError) :=
  try! dest := lift (destination url) in
  try! ticket := redirect_authorize vendor dest in
  if negb (allowed config vendor dest)
  then ret (Err (api_error "Download origin is not in MCP_DOWNLOAD_ALLOWED_ORIGINS" (Some 403%N) None))
  else
    let! now := ask (env_now env) in
    url_attempts (retries policy) 1 vendor config url policy ticket (now + total_deadline policy)%N.

End Requests.

(** ** Every request on the wire was allowed *)

Section Covered.
Context `{U : UrlLib} `{HL : HttpLib} `{BC : BodyCodec}.
Variable sha256 : list byte -> list byte.
Variable form_urlencoded : list Pair -> list byte.
Variable env : Env.
Context (s : CallScope) (enf : Enforcement) (Hs : cs_enforcement s = Some enf).

(** The two requests that are authorized by method and path alone: uploads,
    and image downloads, which accept any type. *)
Definition unlocated (r : WireRequest) : bool :=
  match wr_body r with BMultipart _ => true | _ => bool_decide (("accept", "*/*") ∈ wr_headers r) end.

(** The decision is the policy's on a context of this very call, and the
    context names the request's method, its destination's origin and its
    canonical path, up to a trailing slash; [wire] is the canonical target
    sent, below the base it is sent under. *)
Definition covers (wire : string) (c : ActionContext) (d : PolicyDecision) (r : WireRequest) : Prop :=
  d = pdp_evaluate (en_policy enf) c
  /\ ac_principal c = cs_principal s /\ ac_tool_name c = cs_tool_name s /\ ac_upstream c = en_upstream enf
  /\ ac_method c = wr_method r
  /\ exists target, wire = of_bytes (url_under form_urlencoded [] target)
       /\ trim_end_matches slash (ac_path c) = trim_end_matches slash (path_str target)
       /\ ((exists u, ac_destination_origin c = Some (ascii_serialization (url_origin u))
              /\ (destination (wr_url r) = Ok u \/ wr_url r = url_as_str u)
              /\ ((exists base, wr_url r = of_bytes (url_under form_urlencoded (as_bytes base) target))
                  \/ path_str target = url_path u))
           \/ (unlocated r = true /\ ac_destination_origin c = None
               /\ exists base, wr_url r = of_bytes (url_under form_urlencoded (as_bytes base) target))).


Abbreviation good := (Egress.good covers).
Abbreviation authorizes := (Egress.authorizes covers).

Lemma wp_send_good r w Φ :
  good 0 w -> authorizes (trace w) r ->
  (forall a w', good 1 w' -> later w w' -> Φ a w') -> wp (send env r) Φ w.
Proof. apply wp_send. Qed.

Lemma wp_authorize_good vendor m input target body dest redact n Φ w :
  parse input = Ok target -> (redact = true -> m = Get) -> good n w ->
  (forall r w', good n w' -> later w w' ->
     match r with
     | Ok (Some t) => unattempted t w'
         /\ forall req, covers (of_bytes (url_under form_urlencoded [] target))
                          (egress_context sha256 s enf vendor m target body dest redact)
                          (pdp_evaluate (en_policy enf)
                             (egress_context sha256 s enf vendor m target body dest redact)) req ->
              authorizes (trace w') req
     | Ok None => False
     | Err _ => True
     end -> Φ r w') ->
  wp (authorize_at sha256 form_urlencoded env (Some s) vendor m target body dest redact) Φ w.
Proof.
  intros Hp Hm [H1 H2 H3] HΦ. apply (wp_authorize_at _ _ _ s enf Hs _ _ input _ _ _ _ n); [done..|].
  intros r w' c d wire Hl Hc Hw Hin Hsend Hr. apply HΦ; [|done|].
  - constructor; [done|done|]. destruct Hw as ([l Hl'] & _). rewrite Hl' in *.
    apply no_send_covered; [|done]. rewrite sends_app in Hsend.
    rewrite <- (app_nil_r (sends (trace w))) in Hsend at 2. by apply app_inv_head in Hsend.
  - destruct r as [[t|]|e]; [|done|done]. destruct Hr as (Ha & Hu & _). split; [done|].
    intros req Hcov. by exists vendor, wire, c, d.
Qed.

Lemma canonical_target_parsed path target :
  canonical_target_of path = Ok target -> exists input, parse input = Ok target.
Proof. unfold canonical_target_of. destruct (parse (as_bytes path)) eqn:E; [|done]. intros [= <-]. eauto. Qed.

Lemma redirect_covers vendor target u req :
  parse (as_bytes (url_path_and_query u)) = Ok target -> path_str target = url_path u ->
  wr_method req = Get -> (destination (wr_url req) = Ok u \/ wr_url req = url_as_str u) ->
  let c := egress_context sha256 s enf vendor Get target None (Some u) true in
  covers (of_bytes (url_under form_urlencoded [] target)) c (pdp_evaluate (en_policy enf) c) req.
Proof.
  intros Hp Hpath Hm Hu c. split_and!; try done. exists target. split; [done|]. split; [done|]. left. exists u. split_and!; try done. by right.
Qed.

Lemma wp_redirect_authorize vendor u n Φ w :
  good n w ->
  (forall r w', good n w' -> later w w' ->
     match r with
     | Ok (Some t) => unattempted t w'
         /\ forall req, wr_method req = Get -> (destination (wr_url req) = Ok u \/ wr_url req = url_as_str u) ->
              authorizes (trace w') req
     | Ok None => False
     | Err _ => True
     end -> Φ r w') ->
  wp (redirect_authorize sha256 form_urlencoded env (Some s) vendor u) Φ w.
Proof.
  intros Hg HΦ. unfold redirect_authorize. apply wp_try, wp_ret. unfold canonical_target_of.
  destruct (parse (as_bytes (url_path_and_query u))) as [target|e] eqn:Ep; [|by apply HΦ].
  destruct (String.eqb_spec (path_str target) (url_path u)) as [Hpath|Hne]; cbn [negb];
    [|by apply wp_ret, HΦ].
  apply (wp_authorize_good vendor Get _ target None (Some u) true n Φ w Ep); [done|done|].
  intros r w' Hg' Hw Hr. apply HΦ; [done|done|]. destruct r as [[t|]|e]; [|done|done].
  destruct Hr as [Hu Hcov]. split; [done|]. intros req Hm Hurl. apply Hcov. by apply redirect_covers.
Qed.

(** ** Steps that only read clocks *)

Lemma wp_remaining deadline Φ w :
  (forall r w', quiet w w' -> Φ r w') -> wp (remaining_until env deadline) Φ w.
Proof. intros HΦ. apply wp_bind, wp_ask. intros now w' Hq. by apply wp_ret, HΦ. Qed.

Lemma wp_retry attempt deadline requested Φ w :
  (forall r w', quiet w w' -> Φ r w') -> wp (retry_stream_attempt env attempt deadline requested) Φ w.
Proof.
  intros HΦ. unfold retry_stream_attempt. apply wp_bind, wp_ask. intros random w1 Hq1.
  apply wp_try, wp_remaining. intros [remaining|e] w2 Hq2; [|apply HΦ; by etrans].
  destruct (remaining <=? _)%N; [apply wp_ret, HΦ; by etrans|].
  apply wp_bind, wp_ask. intros a w3 Hq3. apply wp_ret, HΦ. etrans; [|exact Hq3]. by etrans.
Qed.

Lemma wp_follow_loop hops : forall vendor config original current seen cred response method options auth
    deadline Φ w,
  good 0 w -> (forall r w', good 0 w' -> later w w' -> Φ r w') ->
  wp (follow_loop sha256 form_urlencoded env (Some s) hops vendor config original current seen cred response
        method options auth deadline) Φ w.
Proof.
  induction hops as [|hops IH]; intros vendor config original current seen cred response method options auth
    deadline Φ w Hg HΦ; cbn [follow_loop]; [by apply wp_ret, HΦ|].
  destruct (negb _); [by apply wp_ret, HΦ|].
  destruct (negb (bool_decide (method = Get)) || _) eqn:Em; [by apply wp_ret, HΦ|].
  apply orb_false_iff in Em as [Em%negb_false_iff%bool_decide_eq_true_1 _]. subst method.
  apply wp_try, wp_ret. destruct (_ ≫= header_to_str) as [location|]; [|by apply HΦ].
  apply wp_try, wp_ret. destruct (url_join current location) as [joined|]; [|by apply HΦ].
  apply wp_try, wp_ret. destruct (destination (url_as_str joined)) as [next|e]; [|by apply HΦ].
  destruct (_ && negb _); [by apply wp_ret, HΦ|].
  apply wp_try, (wp_redirect_authorize vendor next 0); [done|]. intros r w1 Hg1 Hw1 Hr.
  destruct r as [[t|]|e]; [|done|by apply HΦ]. destruct Hr as [Hu Hauth].
  destruct (_ && negb (allowed _ _ _)); [by apply wp_ret, HΦ|].
  destruct (bool_decide (next ∈ seen)); [by apply wp_ret, HΦ|].
  set (request := match auth with Some _ => _ | None => _ end).
  assert (Hreq : authorizes (trace w1) request).
  { apply Hauth; [|right]; subst request; destruct auth as [[n v]|]; try done; destruct (cred && _); try done;
      unfold build_request; by destruct (opt_form options), (opt_body options), (opt_text_body options). }
  clearbody request. clear Hauth. apply unattempted_live in Hu. clear Hg.
  apply wp_bind, wp_ask. intros wall w2 Hq2. over_quiet. apply wp_try.
  assert (Hwait : forall Ψ : result unit McpError -> World -> Prop,
    (forall r w', quiet w2 w' -> Ψ r w') ->
    wp (match retry_parse (r_headers response) wall with
        | Some delay => retry_stream_attempt env 0 deadline (Some delay)
        | None => ret (Ok tt) end) Ψ w2).
  { intros Ψ HΨ. destruct (retry_parse _ _); [by apply wp_retry|by apply wp_ret, HΨ]. }
  apply Hwait. clear Hwait. intros [[]|e] w3 Hq3; over_quiet; [|by apply HΦ].
  apply wp_try, wp_remaining. intros [rem|e] w4 Hq4; over_quiet; [|by apply HΦ].
  apply wp_bind, wp_send_good; [done|done|]. intros answer w5 Hg5 Hw5. over_later. clear Hg1.
  destruct answer as [r|e| |]; apply wp_bind, (good_report covers); try done; intros w6 Hg6 Hw6; over_later;
    [|by apply wp_ret, HΦ..].
  apply IH; [done|]. intros r' w7 Hg7 Hw7. apply HΦ; [done|by etrans].
Qed.

Lemma wp_follow vendor config initial response method options auth deadline Φ w :
  good 0 w -> (forall r w', good 0 w' -> later w w' -> Φ r w') ->
  wp (follow sha256 form_urlencoded env (Some s) vendor config initial response method options auth deadline) Φ w.
Proof.
  intros Hg HΦ. apply wp_try, wp_ret. destruct (destination initial); [by apply wp_follow_loop|by apply HΦ].
Qed.

Lemma build_request_target m url name value options :
  wr_method (build_request m url name value options) = m
  /\ wr_url (build_request m url name value options) = url.
Proof. unfold build_request. by destruct (opt_form options), (opt_body options), (opt_text_body options). Qed.

Lemma initial_covers vendor m path target base body dest redact req :
  canonical_target_of path = Ok target -> (redact = true -> m = Get) ->
  destination (of_bytes (url_under form_urlencoded (as_bytes base) target)) = Ok dest ->
  wr_method req = m -> wr_url req = of_bytes (url_under form_urlencoded (as_bytes base) target) ->
  let c := egress_context sha256 s enf vendor m target body (Some dest) redact in
  covers (of_bytes (url_under form_urlencoded [] target)) c (pdp_evaluate (en_policy enf) c) req.
Proof.
  unfold canonical_target_of. intros Hp Hm Hd Hmr Hur.
  destruct (parse (as_bytes path)) as [t|] eqn:Ep; [|done]. injection Hp as ->.
  destruct (for_vendor_describes sha256 vendor m _ _ body Ep) as (Hmeth & Hpath & _).
  rewrite <- Hur in Hd. split; [done|]. split; [done|]. split; [done|]. split; [done|].
  unfold egress_context. destruct redact; cbn.
  - split; [by rewrite Hmr, (Hm eq_refl)|]. exists target. split; [done|]. split; [done|]. left. exists dest. split_and!; eauto.
  - split; [by rewrite Hmr|]. exists target. split; [done|]. split; [done|]. left. exists dest. split_and!; eauto.
Qed.

Lemma wp_classify_body r Φ w :
  (forall b w', quiet w w' -> Φ b w') -> wp (classify_body env r) Φ w.
Proof.
  intros HΦ. unfold classify_body. destruct (_ =? _)%N; [by apply wp_ret, HΦ|].
  apply wp_try, wp_ask. intros [text|e] w' Hq; [|by apply HΦ]. by apply wp_ret, HΦ.
Qed.

Lemma wp_fetch vendor credentials config path options Φ w :
  good 0 w -> (forall r w', good 0 w' -> later w w' -> Φ r w') ->
  wp (fetch sha256 form_urlencoded env (Some s) vendor credentials config path options) Φ w.
Proof.
  intros Hg HΦ. unfold fetch.
  apply wp_try, wp_ret. destruct (base_url vendor config) as [base|e]; [|by apply HΦ].
  apply wp_try, wp_ret. destruct (canonical_target_of path) as [target|e] eqn:Et; [|by apply HΦ].
  cbv zeta. set (m := default Get (opt_method options)).
  set (url := of_bytes (url_under form_urlencoded (as_bytes base) target)).
  apply wp_try, wp_ret. destruct (destination url) as [dest|e] eqn:Ed; [|by apply HΦ].
  destruct (canonical_target_parsed _ _ Et) as [input Hin].
  apply wp_try, (wp_authorize_good _ _ input _ _ _ _ 0); [done|done|done|]. intros r w1 Hg1 Hw1 Hr.
  destruct r as [[t|]|e]; [|done|by apply HΦ]. destruct Hr as [Hu Hcov]. clear Hg.
  apply wp_try, wp_ret. destruct (validate_auth credentials) as [[name value]|e]; [|by apply HΦ].
  assert (Hauth : authorizes (trace w1) (build_request m url name value options)).
  { destruct (build_request_target m url name value options). by eapply Hcov, initial_covers. }
  clear Hcov.
  apply wp_bind, wp_ask. intros started w2 Hq. over_quiet. cbv zeta.
  assert (Hstep : forall A (x : EM A) (Ψ : A -> World -> Prop) w0,
    (exists f, x = on_cache f) \/ (exists a, x = ret a) ->
    (forall a w', quiet w0 w' -> Ψ a w') -> wp x Ψ w0).
  { intros A x Ψ w0 [[f ->]|[a ->]] HΨ; [by apply wp_on_cache|by apply wp_ret, HΨ]. }
  apply wp_bind, Hstep; [destruct (fresh options); eauto|]. intros [] w3 Hq. over_quiet.
  apply wp_bind, wp_ask. intros now w4 Hq. over_quiet.
  apply wp_bind, Hstep; [destruct (negb _); [|destruct (_ && _)]; eauto|]. intros cached w5 Hq. over_quiet.
  destruct cached as [[body metadata]|].
  - apply wp_bind, (good_cache_hit covers); [done|done|]. intros w6 Hg6 Hw6. over_later. by apply wp_ret, HΦ.
  - apply unattempted_live in Hu. apply wp_bind, wp_send_good; [done|done|]. intros answer w6 Hg6 Hw6. over_later.
    clear Hg1. destruct answer as [response|e| |]; apply wp_bind, (good_report covers); try done;
      intros w7 Hg7 Hw7; over_later; [|by apply wp_ret, HΦ..]. clear Hg6.
    apply wp_try, wp_follow; [done|]. intros [response'|e] w8 Hg8 Hw8; over_later; [|by apply HΦ]. clear Hg7.
    apply wp_try, wp_ret. destruct (enforce_content_length_cap response') as [[]|e]; [|by apply HΦ].
    destruct (negb (is_success _)).
    + apply wp_try, wp_ask. intros [text|e] w9 Hq; over_quiet; [|by apply HΦ].
      apply wp_bind, wp_ask. intros wall w10 Hq. over_quiet. by apply wp_ret, HΦ.
    + apply wp_try, wp_classify_body. intros [body|e] w9 Hq; over_quiet; [|by apply HΦ].
      destruct (match body with Json v => _ | _ => _ end); [by apply wp_ret, HΦ|].
      do 4 (apply wp_bind, wp_ask; intros ? ? Hq; over_quiet).
      apply wp_bind, Hstep; [destruct (_ && _); eauto|]. intros [] w14 Hq. over_quiet.
      apply wp_bind.
      destruct body as [v|text|]; [destruct (sensitive_response options)|..];
        [apply wp_ret|apply wp_ask; intros ? ? Hq; over_quiet|apply wp_ret..]; by apply wp_ret, HΦ.
Qed.

Lemma wp_finish_stream again policy deadline response fail Φ w :
  good 0 w -> (forall r w', good 0 w' -> later w w' -> Φ r w') ->
  (forall retry delay w', again = Some retry -> good 0 w' -> later w w' -> wp (retry delay) Φ w') ->
  wp (finish_stream env again policy deadline response fail) Φ w.
Proof.
  intros Hg HΦ Hagain. unfold finish_stream. destruct (negb (is_success _)).
  - apply wp_bind, wp_ask. intros wall w2 Hq. over_quiet. cbv zeta.
    assert (Hgive : wp (try! body := ask (env_body env) in
              ret (Err (fail body (retry_parse (r_headers response) wall)))) Φ w2).
    { apply wp_try, wp_ask. intros [text|e] w3 Hq3; over_quiet; over_later; [by apply wp_ret, HΦ|by apply HΦ]. }
    destruct again as [retry|]; [destruct (retryable_status _)|]; try done. by apply Hagain.
  - apply wp_try, wp_ret. destruct (enforce_streamed_length_cap response policy); [|by apply HΦ].
    apply wp_try, wp_remaining. intros [rem|e] w2 Hq; over_quiet; [|by apply HΦ].
    apply wp_ask. intros art w3 Hq3. over_quiet. by apply HΦ.
Qed.

(** After a send: the report, then what the loops do in each case. *)
Lemma wp_artifact_attempt again vendor config url m options auth policy t deadline Φ w :
  good 0 w -> live t w -> authorizes (trace w) (build_request m url auth.1 auth.2 options) ->
  (forall r w', good 0 w' -> later w w' -> Φ r w') ->
  (forall retry delay w', again = Some retry -> good 0 w' -> later w w' -> wp (retry delay) Φ w') ->
  wp (artifact_attempt sha256 form_urlencoded env (Some s) again vendor config url m options auth policy
        (Some t) deadline) Φ w.
Proof.
  intros Hg Hl Ha HΦ Hagain. unfold artifact_attempt.
  apply wp_bind, wp_ask. intros [|] w1 Hq; over_quiet; [by apply wp_ret, HΦ|].
  apply wp_try, wp_remaining. intros [rem|e] w2 Hq2; over_quiet; [|by apply HΦ].
  apply wp_bind, wp_send_good; [done|done|]. intros answer w3 Hg3 Hw3. over_later. clear Hg.
  destruct answer as [response|e| |]; apply wp_bind, (good_report covers); try done;
    intros w4 Hg4 Hw4; over_later; clear Hg3.
  - apply wp_try, wp_follow; [done|]. intros [r|e] w5 Hg5 Hw5; over_later; [|by apply HΦ].
    apply wp_finish_stream; [done| |].
    + intros r' w6 Hg6 Hw6. apply HΦ; [done|by etrans].
    + intros retry delay w6 Er Hg6 Hw6. by apply (Hagain retry); [..|etrans].
  - destruct again as [retry|]; [destruct (is_retryable_stream_request_error e)|];
      [by apply Hagain|by apply wp_ret, HΦ..].
  - destruct again as [retry|]; [by apply Hagain|by apply wp_ret, HΦ].
  - by apply wp_ret, HΦ.
Qed.

Lemma wp_artifact_attempts left_ : forall attempt vendor config url m options auth policy t deadline Φ w,
  good 0 w -> live t w -> authorizes (trace w) (build_request m url auth.1 auth.2 options) ->
  (forall r w', good 0 w' -> later w w' -> Φ r w') ->
  wp (artifact_attempts sha256 form_urlencoded env (Some s) left_ attempt vendor config url m options auth policy
        (Some t) deadline) Φ w.
Proof.
  induction left_ as [|left_ IH]; intros attempt vendor config url m options auth policy t deadline Φ w
    Hg Hl Ha HΦ; cbn [artifact_attempts]; apply wp_artifact_attempt; try done.
  intros retry delay w1 [= <-] Hg1 Hw1. apply wp_try, wp_retry. intros [[]|e] w2 Hq.
  - over_quiet. apply (live_later _ _ _ Hw1) in Hl. apply (authorizes_later _ _ _ _ Hw1) in Ha.
    apply IH; try done. intros r w3 Hg3 Hw3. by apply HΦ; [|etrans].
  - over_quiet. by apply HΦ.
Qed.

Lemma wp_url_attempt again vendor config url policy t deadline Φ w :
  good 0 w -> live t w -> authorizes (trace w) (plain_get url) ->
  (forall r w', good 0 w' -> later w w' -> Φ r w') ->
  (forall retry delay w', again = Some retry -> good 0 w' -> later w w' -> wp (retry delay) Φ w') ->
  wp (url_attempt sha256 form_urlencoded env (Some s) again vendor config url policy (Some t) deadline) Φ w.
Proof.
  intros Hg Hl Ha HΦ Hagain. unfold url_attempt.
  apply wp_try, wp_remaining. intros [rem|e] w2 Hq2; over_quiet; [|by apply HΦ].
  apply wp_bind, wp_send_good; [done|done|]. intros answer w3 Hg3 Hw3. over_later. clear Hg.
  destruct answer as [response|e| |]; apply wp_bind, (good_report covers); try done;
    intros w4 Hg4 Hw4; over_later; clear Hg3.
  - apply wp_try, wp_follow; [done|]. intros [r|e] w5 Hg5 Hw5; over_later; [|by apply HΦ].
    apply wp_finish_stream; [done| |].
    + intros r' w6 Hg6 Hw6. apply HΦ; [done|by etrans].
    + intros retry delay w6 Er Hg6 Hw6. by apply (Hagain retry); [..|etrans].
  - destruct again as [retry|]; [destruct (is_retryable_stream_request_error e)|];
      [by apply Hagain|by apply wp_ret, HΦ..].
  - destruct again as [retry|]; [by apply Hagain|by apply wp_ret, HΦ].
  - by apply wp_ret, HΦ.
Qed.

Lemma wp_url_attempts left_ : forall attempt vendor config url policy t deadline Φ w,
  good 0 w -> live t w -> authorizes (trace w) (plain_get url) ->
  (forall r w', good 0 w' -> later w w' -> Φ r w') ->
  wp (url_attempts sha256 form_urlencoded env (Some s) left_ attempt vendor config url policy (Some t) deadline) Φ w.
Proof.
  induction left_ as [|left_ IH]; intros attempt vendor config url policy t deadline Φ w
    Hg Hl Ha HΦ; cbn [url_attempts]; apply wp_url_attempt; try done.
  intros retry delay w1 [= <-] Hg1 Hw1. apply wp_try, wp_retry. intros [[]|e] w2 Hq.
  - over_quiet. apply (live_later _ _ _ Hw1) in Hl. apply (authorizes_later _ _ _ _ Hw1) in Ha.
    apply IH; try done. intros r w3 Hg3 Hw3. by apply HΦ; [|etrans].
  - over_quiet. by apply HΦ.
Qed.

Lemma wp_fetch_streamed_artifact vendor credentials config path options policy Φ w :
  good 0 w -> (forall r w', good 0 w' -> later w w' -> Φ r w') ->
  wp (fetch_streamed_artifact_with_policy sha256 form_urlencoded env (Some s) vendor credentials config path
        options policy) Φ w.
Proof.
  intros Hg HΦ. unfold fetch_streamed_artifact_with_policy.
  apply wp_try, wp_ret. destruct (base_url vendor config) as [base|e]; [|by apply HΦ].
  apply wp_try, wp_ret. destruct (canonical_target_of path) as [target|e] eqn:Et; [|by apply HΦ].
  cbv zeta. set (m := default Get (opt_method options)).
  set (url := of_bytes (url_under form_urlencoded (as_bytes base) target)).
  apply wp_try, wp_ret. destruct (destination url) as [dest|e] eqn:Ed; [|by apply HΦ].
  apply wp_try.
  assert (Hauthz : forall Ψ : result (option EgressTicket) McpError -> World -> Prop,
    (forall r w1, good 0 w1 -> later w w1 ->
       match r with
       | Ok (Some t) => unattempted t w1
           /\ forall name value, authorizes (trace w1) (build_request m url name value options)
       | Ok None => False | Err _ => True end -> Ψ r w1) ->
    wp (if String.eqb (v_name vendor) "artifactory" && bool_decide (m = Get)
        then authorize_download_egress sha256 form_urlencoded env (Some s) (v_name vendor) target dest
        else authorize_egress_at sha256 form_urlencoded env (Some s) (v_name vendor) m target
               (opt_body options) (Some dest)) Ψ w).
  { destruct (canonical_target_parsed _ _ Et) as [input Hin].
    intros Ψ HΨ. destruct (_ && bool_decide _) eqn:Ea.
    - apply andb_true_iff in Ea as [_ Em%bool_decide_eq_true_1].
      apply (wp_authorize_good _ _ input _ _ _ _ 0); [done|done|done|]. intros r w1 Hg1 Hw1 Hr. apply HΨ; [done|done|].
      destruct r as [[t|]|e]; [|done|done]. destruct Hr as [Hu Hcov]. split; [done|]. intros name value.
      destruct (build_request_target m url name value options) as [Hm Hu'].
      apply Hcov. by eapply initial_covers; [|done| |rewrite Hm|].
    - apply (wp_authorize_good _ _ input _ _ _ _ 0); [done|done|done|]. intros r w1 Hg1 Hw1 Hr. apply HΨ; [done|done|].
      destruct r as [[t|]|e]; [|done|done]. destruct Hr as [Hu Hcov]. split; [done|]. intros name value.
      destruct (build_request_target m url name value options). by eapply Hcov, initial_covers. }
  apply Hauthz. clear Hauthz. intros r w1 Hg1 Hw1 Hr. destruct r as [[t|]|e]; [|done|by apply HΦ].
  destruct Hr as [Hu%unattempted_live Ha].
  apply wp_try, wp_ret. destruct (validate_auth credentials) as [[name value]|e]; [|by apply HΦ].
  specialize (Ha name value). apply wp_bind, wp_ask. intros now w2 Hq. over_quiet. clear Hg.
  apply wp_artifact_attempts; try done. intros r w3 Hg3 Hw3. apply HΦ; [done|by etrans].
Qed.

Lemma wp_fetch_streamed_url vendor config url policy Φ w :
  good 0 w -> (forall r w', good 0 w' -> later w w' -> Φ r w') ->
  wp (fetch_streamed_url sha256 form_urlencoded env (Some s) vendor config url policy) Φ w.
Proof.
  intros Hg HΦ. unfold fetch_streamed_url.
  apply wp_try, wp_ret. destruct (destination url) as [dest|e] eqn:Ed; [|by apply HΦ].
  apply wp_try, (wp_redirect_authorize vendor dest 0); [done|]. intros r w1 Hg1 Hw1 Hr.
  destruct r as [[t|]|e]; [|done|by apply HΦ]. destruct Hr as [Hu%unattempted_live Ha].
  destruct (negb _); [by apply wp_ret, HΦ|]. apply wp_bind, wp_ask. intros now w2 Hq.
  assert (Ha1 : authorizes (trace w1) (plain_get url)) by (apply Ha; [done|by left]). clear Ha Hg. over_quiet.
  apply wp_url_attempts; try done. intros r w3 Hg3 Hw3. apply HΦ; [done|by etrans].
Qed.

End Covered.

(** ** The redirect chain *)

Section Chain.
Context `{U : UrlLib} `{HL : HttpLib} `{BC : BodyCodec}.
Variable sha256 : list byte -> list byte.
Variable form_urlencoded : list Pair -> list byte.
Variable env : Env.
Variable scope : option CallScope.
Context (vendor : string) (config : Config) (options : RequestOptions) (auth : option (string * string)).

(** The hops a chain may take from [current], with the requests sent. *)
Fixpoint hops_ok (original current : Url) (seen : list Url) (cred : bool)
    (l : list (Url * WireRequest)) : Prop :=
  match l with
  | [] => True
  | (u, r) :: l' =>
      let cred' := cred && bool_decide (url_origin u = url_origin current) in
      (url_scheme current = "https" -> url_scheme u = "https")
      /\ (url_origin u = url_origin original \/ allowed config vendor u = true)
      /\ u ∉ seen
      /\ (r = plain_get (url_as_str u)
          \/ cred' = true /\ exists name value, auth = Some (name, value)
                             /\ r = build_request Get (url_as_str u) name value options)
      /\ hops_ok original u (u :: seen) cred' l'
  end.

Lemma wp_authorize_sends vendor' m target body dest redact Φ w :
  (forall r w', sends (trace w') = sends (trace w) -> Φ r w') ->
  wp (authorize_at sha256 form_urlencoded env scope vendor' m target body dest redact) Φ w.
Proof.
  intros HΦ. unfold authorize_at. destruct scope as [s|]; [|by apply wp_ret, HΦ].
  destruct (cs_enforcement s) as [enf|]; [|by apply wp_ret, HΦ]. cbv zeta.
  apply wp_bind, wp_emit. intros w1 Ht1 _. apply wp_bind. unfold wp at 1, on_log.
  destruct (note_egress _ _) as [l t]. cbn [fst snd].
  set (w2 := {| step := _; trace := _; elog := l; cache := _ |}).
  assert (H2 : sends (trace w2) = sends (trace w)) by (cbn; by rewrite Ht1, sends_app, app_nil_r).
  destruct (is_allow _); [by apply wp_ret, HΦ|].
  apply wp_bind, wp_ask. intros stamp w3 [Ht3 _]. apply wp_bind, wp_bind, wp_ask. intros o w4 [Ht4 _].
  apply wp_bind, wp_emit. intros w5 Ht5 _. do 2 apply wp_ret. apply HΦ.
  by rewrite Ht5, sends_app, app_nil_r, Ht4, Ht3.
Qed.

Lemma wp_redirect_sends u Φ w :
  (forall r w', sends (trace w') = sends (trace w) -> Φ r w') ->
  wp (redirect_authorize sha256 form_urlencoded env scope vendor u) Φ w.
Proof.
  intros HΦ. unfold redirect_authorize. apply wp_try, wp_ret.
  destruct (canonical_target_of _) as [target|e]; [|by apply HΦ].
  destruct (negb _); [by apply wp_ret, HΦ|]. by apply wp_authorize_sends.
Qed.

Lemma wp_report_trace t status failure Φ w :
  (forall w', trace w' = trace w -> Φ tt w') -> wp (report_attempt t status failure) Φ w.
Proof. intros HΦ. destruct t; by apply HΦ. Qed.

Lemma wp_follow_chain hops : forall original current seen cred response method deadline w,
  wp (follow_loop sha256 form_urlencoded env scope hops vendor config original current seen cred response method
        options auth deadline)
     (fun _ w' => exists l, sends (trace w') = sends (trace w) ++ l.*2 /\ (length l <= hops)%nat
        /\ hops_ok original current seen cred l /\ (l <> [] -> method = Get)) w.
Proof.
  induction hops as [|hops IH]; intros original current seen cred response method deadline w; cbn [follow_loop].
  { apply wp_ret. exists []. rewrite app_nil_r. by split_and!. }
  assert (Hstop : forall w', sends (trace w') = sends (trace w) -> exists l : list (Url * WireRequest),
    sends (trace w') = sends (trace w) ++ l.*2 /\ (length l <= S hops)%nat
        /\ hops_ok original current seen cred l /\ (l <> [] -> method = Get)).
  { intros w' E. exists []. rewrite app_nil_r. cbn. split_and!; [done|lia|done|done]. }
  destruct (negb _); [by apply wp_ret, Hstop|].
  destruct (negb (bool_decide (method = Get)) || _) eqn:Em; [by apply wp_ret, Hstop|].
  apply orb_false_iff in Em as [Em%negb_false_iff%bool_decide_eq_true_1 _]. subst method.
  apply wp_try, wp_ret. destruct (_ ≫= header_to_str) as [location|]; [|by apply Hstop].
  apply wp_try, wp_ret. destruct (url_join current location) as [joined|]; [|by apply Hstop].
  apply wp_try, wp_ret. destruct (destination (url_as_str joined)) as [next|e]; [|by apply Hstop].
  destruct (String.eqb (url_scheme current) "https" && _) eqn:Edown; [by apply wp_ret, Hstop|].
  apply wp_try, wp_redirect_sends. intros [t|e] w1 Hw1; [|by apply Hstop].
  destruct (_ && negb (allowed _ _ _)) eqn:Eor; [by apply wp_ret, Hstop|].
  destruct (bool_decide (next ∈ seen)) eqn:Eseen; [by apply wp_ret, Hstop|].
  apply wp_bind, wp_ask. intros wall w2 [Ht2 _]. apply wp_try.
  assert (Hwait : forall Ψ : result unit McpError -> World -> Prop,
    (forall r w', quiet w2 w' -> Ψ r w') ->
    wp (match retry_parse (r_headers response) wall with
        | Some delay => retry_stream_attempt env 0 deadline (Some delay)
        | None => ret (Ok tt) end) Ψ w2).
  { intros Ψ HΨ. destruct (retry_parse _ _); [by apply wp_retry|by apply wp_ret, HΨ]. }
  apply Hwait. clear Hwait. intros [[]|e] w3 [Ht3 _]; [|apply Hstop; by rewrite Ht3, Ht2].
  apply wp_try, wp_remaining. intros [rem|e] w4 [Ht4 _]; [|apply Hstop; by rewrite Ht4, Ht3, Ht2].
  set (cred' := cred && _). set (request := match auth with Some _ => _ | None => _ end).
  apply wp_bind, wp_bind, wp_emit. intros w5 Ht5 _. apply wp_ask. intros answer w6 [Ht6 _].
  assert (Hs6 : sends (trace w6) = sends (trace w) ++ [request]).
  { by rewrite Ht6, Ht5, sends_app, Ht4, Ht3, Ht2, Hw1. }
  assert (Hreq : hops_ok original current seen cred [(next, request)]).
  { cbn. split_and!; try done.
    - intros Hc. rewrite Hc in Edown. cbn in Edown. by apply negb_false_iff, String.eqb_eq in Edown.
    - apply andb_false_iff in Eor as [E%negb_false_iff%bool_decide_eq_true_1|E%negb_false_iff]; auto.
    - by apply bool_decide_eq_false_1 in Eseen.
    - fold cred'. subst request. destruct auth as [[name value]|]; [|by left].
      destruct cred' eqn:Ec; [right; eauto|by left]. }
  assert (Hone : forall w', trace w' = trace w6 -> exists l : list (Url * WireRequest),
    sends (trace w') = sends (trace w) ++ l.*2 /\ (length l <= S hops)%nat
        /\ hops_ok original current seen cred l /\ (l <> [] -> Get = Get)).
  { intros w' E. exists [(next, request)]. rewrite E, Hs6. cbn [length]. split_and!; [done|lia|done|done]. }
  destruct answer as [r|e| |]; apply wp_bind, wp_report_trace; intros w7 Ht7; [|by apply wp_ret, Hone..].
  eapply wp_mono; [apply IH|]. intros res w8 (l & Hl & Hlen & Hok & _).
  exists ((next, request) :: l). rewrite Hl, Ht7, Hs6, <- app_assoc. cbn [fmap list_fmap length].
  split_and!; [done|lia| |done]. destruct Hreq as (H1 & H2 & H3 & H4 & _). by split_and!.
Qed.

Lemma hops_fresh original current seen cred l :
  hops_ok original current seen cred l -> NoDup l.*1 /\ forall u, u ∈ l.*1 -> u ∉ seen.
Proof.
  revert current seen cred. induction l as [|[u r] l IH]; intros current seen cred; cbn [hops_ok].
  { intros _. split; [constructor|]. intros u Hu. by apply not_elem_of_nil in Hu. }
  intros (_ & _ & Hu & _ & Hok). destruct (IH _ _ _ Hok) as [Hnd Hout]. cbn [fmap list_fmap].
  split.
  - constructor; [|done]. intros Hin. apply (Hout u Hin). set_solver.
  - intros v [->|Hv]%elem_of_cons; [done|]. specialize (Hout v Hv). set_solver.
Qed.

Lemma hops_https original current seen cred l :
  url_scheme current = "https" -> hops_ok original current seen cred l ->
  Forall (fun u => url_scheme u = "https") l.*1.
Proof.
  revert current seen cred. induction l as [|[u r] l IH]; intros current seen cred Hc; cbn [hops_ok]; [done|].
  intros (Hs & _ & _ & _ & Hok). constructor; [by apply Hs|]. eapply IH; [|done]. by apply Hs.
Qed.

Lemma hops_origin original current seen cred l :
  hops_ok original current seen cred l ->
  Forall (fun u => url_origin u = url_origin original \/ allowed config vendor u = true) l.*1.
Proof.
  revert current seen cred. induction l as [|[u r] l IH]; intros current seen cred; cbn [hops_ok]; [done|].
  intros (_ & Ho & _ & _ & Hok). constructor; [done|]. by eapply IH.
Qed.

Lemma hops_bare original l : forall current seen,
  hops_ok original current seen false l -> forall u r, (u, r) ∈ l -> r = plain_get (url_as_str u).
Proof.
  induction l as [|[v q] l IH]; intros current seen; cbn [hops_ok]; [set_solver|].
  intros (_ & _ & _ & Hq & Hok) u r [[= -> ->]|Hin]%elem_of_cons.
  - by destruct Hq as [|[? _]].
  - by eapply IH.
Qed.

(** A request is a bare GET, or it went out while every hop so far, its own
    included, stayed on the origin of the first request. *)
Lemma hops_credentials original current seen cred l pre u r post :
  (cred = true -> url_origin current = url_origin original) ->
  hops_ok original current seen cred l -> l = pre ++ (u, r) :: post ->
  r = plain_get (url_as_str u)
  \/ Forall (fun v => url_origin v = url_origin original) (pre.*1 ++ [u])
     /\ exists name value, auth = Some (name, value)
          /\ r = build_request Get (url_as_str u) name value options.
Proof.
  revert current seen cred pre. induction l as [|[v q] l IH]; intros current seen cred pre Hc; cbn [hops_ok].
  { by destruct pre. }
  intros (_ & _ & _ & Hr & Hok) E. set (cred' := cred && _) in *.
  assert (Hc' : cred' = true -> url_origin v = url_origin original).
  { intros [Ecr Ev%bool_decide_eq_true_1]%andb_true_iff. by rewrite Ev, Hc. }
  destruct pre as [|[v' q'] pre]; cbn in E; injection E as -> -> ->.
  - destruct Hr as [Hr|[Hcr Hr]]; [by left|right]. split; [|done]. constructor; [by apply Hc'|done].
  - destruct cred' eqn:Ec; [|left; eapply hops_bare; [exact Hok|set_solver]].
    destruct (IH v' _ true pre Hc' Hok eq_refl) as [Hb|[Hf Hb]]; [by left|right]. split; [|done].
    cbn. constructor; [by apply Hc'|done].
Qed.

End Chain.

(** C11: Redirects stay on the leash.  Whatever the servers answer, following
    redirects sends at most five further requests; all are GETs to pairwise
    different URLs, none the original; each goes to the original origin or one
    the operator listed; from an https start no hop leaves https; and a hop
    carries anything beyond a bare GET - the credential and the caller's
    headers - only while every hop up to it stayed on the original origin. *)
Theorem redirect_chain_safe `{UrlLib} `{HttpLib} `{BodyCodec} sha256 form env scope vendor config initial
    original response method options auth deadline w :
  destination initial = Ok original ->
  exists hops : list (Url * WireRequest),
    sends (trace (follow sha256 form env scope vendor config initial response method options auth deadline w).1)
      = sends (trace w) ++ hops.*2
    /\ (length hops <= 5)%nat
    /\ (hops <> [] -> method = Get)
    /\ NoDup (original :: hops.*1)
    /\ Forall (fun u => url_origin u = url_origin original \/ allowed config vendor u = true) hops.*1
    /\ (url_scheme original = "https" -> Forall (fun u => url_scheme u = "https") hops.*1)
    /\ forall pre u r post, hops = pre ++ (u, r) :: post ->
         r = plain_get (url_as_str u)
         \/ Forall (fun v => url_origin v = url_origin original) (pre.*1 ++ [u])
            /\ exists name value, auth = Some (name, value)
                 /\ r = build_request Get (url_as_str u) name value options.
Proof.
  intros Hd.
  pose proof (wp_follow_chain sha256 form env scope vendor config options auth MAX_HOPS original original
                [original] (bool_decide (is_Some auth)) response method deadline w)
    as (l & Hs & Hl & Hok & Hm).
  exists l. split; [unfold follow, try_bind, bind, lift, ret; by rewrite Hd|]. split; [done|]. split; [done|].
  destruct (hops_fresh _ _ _ _ _ _ _ _ _ Hok) as [Hnd Hout].
  split; [constructor; [|done]; intros Hin; specialize (Hout _ Hin); set_solver|].
  split; [by eapply hops_origin|]. split; [intros Hh; by eapply hops_https|].
  intros pre u r post E. by eapply hops_credentials.
Qed.

(** ** The transport only adds to the trace *)

Section Grows.
Context `{U : UrlLib} `{HL : HttpLib} `{BC : BodyCodec}.
Variable sha256 : list byte -> list byte.
Variable form_urlencoded : list Pair -> list byte.
Variable env : Env.
Variable scope : option CallScope.

Lemma grows_send r : grows (send env r).
Proof. unfold send. solve_grows. Qed.

Lemma grows_remaining deadline : grows (remaining_until env deadline).
Proof. unfold remaining_until. solve_grows. Qed.

#[local] Hint Resolve grows_send grows_remaining : grows.

Lemma grows_retry attempt deadline requested : grows (retry_stream_attempt env attempt deadline requested).
Proof. unfold retry_stream_attempt. solve_grows. Qed.

Lemma grows_redirect_authorize vendor u :
  grows (redirect_authorize sha256 form_urlencoded env scope vendor u).
Proof. unfold redirect_authorize, authorize_download_egress. solve_grows. Qed.

#[local] Hint Resolve grows_retry grows_redirect_authorize : grows.

Lemma grows_follow vendor config initial response method options auth deadline :
  grows (follow sha256 form_urlencoded env scope vendor config initial response method options auth deadline).
Proof.
  unfold follow. apply grows_try; [apply grows_ret|]. intros original. generalize [original] at 1 as seen.
  generalize (bool_decide (is_Some auth)). generalize original at 2 as current. revert response.
  induction MAX_HOPS as [|hops IH]; intros response current cred seen; cbn [follow_loop]; solve_grows.
Qed.

#[local] Hint Resolve grows_follow : grows.

Lemma grows_fetch vendor credentials config path options :
  grows (fetch sha256 form_urlencoded env scope vendor credentials config path options).
Proof. unfold fetch, authorize_egress_at, classify_body. solve_grows. Qed.

Lemma grows_finish_stream again policy deadline response fail :
  (forall retry delay, again = Some retry -> grows (retry delay)) ->
  grows (finish_stream env again policy deadline response fail).
Proof. intros Ha. unfold finish_stream. solve_grows. Qed.

#[local] Hint Resolve grows_finish_stream : grows.

Lemma grows_artifact_attempts left_ : forall attempt vendor config url m options auth policy t deadline,
  grows (artifact_attempts sha256 form_urlencoded env scope left_ attempt vendor config url m options auth policy
           t deadline).
Proof.
  induction left_ as [|left_ IH]; intros; cbn [artifact_attempts]; unfold artifact_attempt; solve_grows;
    apply grows_finish_stream; intros retry delay [= <-]; solve_grows.
Qed.

Lemma grows_url_attempts left_ : forall attempt vendor config url policy t deadline,
  grows (url_attempts sha256 form_urlencoded env scope left_ attempt vendor config url policy t deadline).
Proof.
  induction left_ as [|left_ IH]; intros; cbn [url_attempts]; unfold url_attempt; solve_grows;
    apply grows_finish_stream; intros retry delay [= <-]; solve_grows.
Qed.

#[local] Hint Resolve grows_artifact_attempts grows_url_attempts : grows.

Lemma grows_streamed_artifact vendor credentials config path options policy :
  grows (fetch_streamed_artifact_with_policy sha256 form_urlencoded env scope vendor credentials config path
           options policy).
Proof.
  unfold fetch_streamed_artifact_with_policy, authorize_egress_at, authorize_download_egress. solve_grows.
Qed.

Lemma grows_streamed_url vendor config url policy :
  grows (fetch_streamed_url sha256 form_urlencoded env scope vendor config url policy).
Proof. unfold fetch_streamed_url. solve_grows. Qed.

End Grows.

#[export] Hint Resolve grows_fetch grows_streamed_artifact grows_streamed_url : grows.
