(* ===== verification/Multipart.v ===== *)
(** * Multipart bodies (src/src/transport/multipart.rs)

    The encoder of [multipart/form-data] uploads, and a receiver as RFC 2046
    and RFC 7578 describe one, against which it is specified.  Sending a body
    is in [Upload]. *)
From S2P Require Import Prelude RustStr PolicyTypes Signing.

(** ** The encoder *)

Record FilePart := {
  fp_field : string;
  fp_filename : string;
  fp_content_type : string;
  fp_bytes : list byte;
}.

Record MultipartBody := { mb_boundary : string; mb_bytes : list byte }.

Definition BOUNDARY_PREFIX : string := "----mcp-devtools-".
Definition CR : byte := byte_of 13.
Definition LF : byte := byte_of 10.
Definition QUOTE : byte := byte_of 34.
Definition CRLF : list byte := [CR; LF].

Definition is_boundary_byte (b : byte) : bool :=
  is_ascii_alphanumeric b || existsb (beqb b) (as_bytes "'()+_,-./:=? ").

Definition valid_boundary (boundary : string) : bool :=
  let l := as_bytes boundary in
  negb (str_is_empty boundary) && (length l <=? 70)%nat && forallb is_boundary_byte l
  && negb (match last l with Some b => beqb b (byte_of 32) | None => false end).

(** The quote and the line breaks are escaped, every other byte (a part of a
    longer character too) stands for itself. *)
Definition escape_byte (b : byte) : list byte :=
  if beqb b QUOTE then as_bytes "%22" else if beqb b CR then as_bytes "%0D" else if beqb b LF then as_bytes "%0A" else [b].

Definition escape_quoted (value : string) : string := of_bytes (flat_map escape_byte (as_bytes value)).

Definition disposition_name : list byte := as_bytes "Content-Disposition: form-data; name=" ++ [QUOTE].
Definition disposition_filename : list byte := [QUOTE] ++ as_bytes "; filename=" ++ [QUOTE].
Definition content_type_name : list byte := as_bytes "Content-Type: ".
Definition dashes : list byte := as_bytes "--".

Definition encode_part (boundary : string) (p : FilePart) : list byte :=
  dashes ++ as_bytes boundary ++ CRLF
  ++ disposition_name ++ as_bytes (escape_quoted (fp_field p))
  ++ disposition_filename ++ as_bytes (escape_quoted (fp_filename p)) ++ [QUOTE] ++ CRLF
  ++ content_type_name ++ as_bytes (fp_content_type p) ++ CRLF ++ CRLF
  ++ fp_bytes p ++ CRLF.

(** The size the buffer is allocated with. *)
Definition capacity (boundary : string) (parts : list FilePart) : nat :=
  (list_sum (map (fun p =>
     2 + str_len boundary + 2 + 54 + str_len (escape_quoted (fp_field p)) + str_len (escape_quoted (fp_filename p))
     + 18 + str_len (fp_content_type p) + length (fp_bytes p) + 2) parts)
   + 2 + str_len boundary + 4)%nat.

(** [None]: the assertion on the boundary fails and the encoder panics. *)
Definition encode_with_boundary (boundary : string) (parts : list FilePart) : option MultipartBody :=
  if valid_boundary boundary
  then Some {| mb_boundary := boundary;
               mb_bytes := flat_map (encode_part boundary) parts ++ dashes ++ as_bytes boundary ++ dashes ++ CRLF |}
  else None.

(** [random_boundary] on the sixteen bytes drawn, and [encode]. *)
Definition random_boundary (random : list byte) : string := of_bytes (as_bytes BOUNDARY_PREFIX ++ mjoin (map hex_lower random)).
Definition encode (random : list byte) (parts : list FilePart) : option MultipartBody :=
  encode_with_boundary (random_boundary random) parts.

Definition body_content_type (b : MultipartBody) : string := ("multipart/form-data; boundary=" ++ mb_boundary b)%string.

(** ** A receiver *)

(** What ends a part: a line break, then the boundary behind two dashes. *)
Definition delimiter (boundary : string) : list byte := CRLF ++ dashes ++ as_bytes boundary.

(** The header lines up to the first empty one. *)
Fixpoint read_headers (fuel : nat) (l : list byte) : option (list (list byte) * list byte) :=
  match fuel with
  | O => None
  | S fuel' =>
      match split_once_str CRLF l with
      | None => None
      | Some ([], rest) => Some ([], rest)
      | Some (line, rest) => '(lines, rest) ← read_headers fuel' rest; Some (line :: lines, rest)
      end
  end.

(** The parts after a delimiter, up to the closing one. *)
Fixpoint read_parts (fuel : nat) (boundary : string) (l : list byte) : option (list (list (list byte) * list byte)) :=
  match fuel with
  | O => None
  | S fuel' =>
      if starts_with_bytes l dashes then Some []
      else
        l ← strip_prefix_bytes CRLF l;
        '(lines, rest) ← read_headers (length l) l;
        '(content, rest) ← split_once_str (delimiter boundary) rest;
        parts ← read_parts fuel' boundary rest;
        Some ((lines, content) :: parts)
  end.

(** A file part from its headers: the quoted parameters end at the first quote. *)
Definition read_part (part : list (list byte) * list byte) : option FilePart :=
  match part.1 with
  | [disposition; kind] =>
      l ← strip_prefix_bytes disposition_name disposition;
      '(field, l) ← split_once_bytes QUOTE l;
      l ← strip_prefix_bytes (drop 1 disposition_filename) l;
      '(filename, l) ← split_once_bytes QUOTE l;
      kind ← strip_prefix_bytes content_type_name kind;
      if bool_decide (l = []) then
        Some {| fp_field := of_bytes field; fp_filename := of_bytes filename; fp_content_type := of_bytes kind; fp_bytes := part.2 |}
      else None
  | _ => None
  end.

Definition decode (boundary : string) (body : list byte) : option (list FilePart) :=
  l ← strip_prefix_bytes (dashes ++ as_bytes boundary) body;
  parts ← read_parts (length body) boundary l;
  mapM read_part parts.

(** What arrives of a part: the names as they were escaped. *)
Definition received (p : FilePart) : FilePart :=
  {| fp_field := escape_quoted (fp_field p); fp_filename := escape_quoted (fp_filename p);
     fp_content_type := fp_content_type p; fp_bytes := fp_bytes p |}.

(** ** The round trip *)

(** A byte that is not in a constant text. *)
Ltac absent H := exfalso; revert H; refine (bool_decide_unpack (_ ∉ _) _); vm_compute; exact I.

Lemma escaped_clean s b : b ∈ as_bytes (escape_quoted s) -> b <> QUOTE /\ b <> CR /\ b <> LF.
Proof.
  unfold escape_quoted. rewrite as_of_bytes. intros Hb. apply list_elem_of_In, in_flat_map in Hb as (x & _ & Hx).
  unfold escape_byte in Hx. destruct (beqb x QUOTE) eqn:E1; [|destruct (beqb x CR) eqn:E2; [|destruct (beqb x LF) eqn:E3]];
    cbn in Hx.
  1-3: destruct Hx as [<-|[<-|[<-|[]]]]; done.
  destruct Hx as [<-|[]]. rewrite !beqb_neq in *. done.
Qed.

(** Names with none of the three are sent as they are. *)
Lemma escape_quoted_plain s : (forall b, b ∈ as_bytes s -> b <> QUOTE /\ b <> CR /\ b <> LF) -> escape_quoted s = s.
Proof.
  intros Hs. unfold escape_quoted. rewrite <- (of_as_bytes s) at 2. f_equal. induction (as_bytes s) as [|b l IH]; [done|].
  cbn [flat_map]. rewrite IH by set_solver. destruct (Hs b) as (H1 & H2 & H3); [set_solver|]. unfold escape_byte.
  by rewrite !(proj2 (beqb_neq _ _)) by done.
Qed.

Lemma no_cr_occurs l : CR ∉ l -> occurs CRLF l = false.
Proof.
  intros Hl. apply bool_decide_eq_false. induction l as [|b l IH]; [by intros [? [=]]|]. rewrite split_once_str_unfold.
  destruct (starts_with_bytes (b :: l) CRLF) eqn:E; [apply starts_with_bytes_spec in E as [? [= -> _]]; set_solver|].
  destruct (split_once_str CRLF l) as [[]|]; [|by intros [? [=]]]. exfalso. apply IH; [set_solver|eauto].
Qed.

Lemma strip_prefix_app prefix l : strip_prefix_bytes prefix (prefix ++ l) = Some l.
Proof. unfold strip_prefix_bytes. rewrite (proj2 (starts_with_bytes_spec _ _)) by eauto. by rewrite drop_app_length. Qed.

Lemma read_header_line fuel line l : line <> [] -> occurs CRLF line = false ->
  read_headers (S fuel) (line ++ CRLF ++ l) = ('(lines, rest) ← read_headers fuel l; Some (line :: lines, rest)).
Proof.
  intros Hn Ho. cbn [read_headers]. unfold CRLF in *. rewrite split_once_str_first; [by destruct line|set_solver|done].
Qed.

(** A boundary's bytes are neither line breaks nor quotes. *)
Lemma boundary_no_cr boundary : valid_boundary boundary = true -> CR ∉ dashes ++ as_bytes boundary.
Proof.
  unfold valid_boundary. intros [[[_ _]%andb_true_iff Hall]%andb_true_iff _]%andb_true_iff.
  rewrite elem_of_app. intros [H|H]; [absent H|].
  rewrite forallb_elem_of in Hall. by apply Hall in H.
Qed.

Definition disposition_line (p : FilePart) : list byte :=
  disposition_name ++ as_bytes (escape_quoted (fp_field p)) ++ disposition_filename ++ as_bytes (escape_quoted (fp_filename p)) ++ [QUOTE].
Definition type_line (p : FilePart) : list byte := content_type_name ++ as_bytes (fp_content_type p).

Lemma disposition_no_cr p : CR ∉ disposition_line p.
Proof.
  unfold disposition_line. rewrite !elem_of_app. intros [H|[H|[H|[H|H]]]].
  1, 3, 5: absent H.
  all: apply escaped_clean in H; naive_solver.
Qed.

Lemma encode_part_shape boundary p : encode_part boundary p =
  (dashes ++ as_bytes boundary) ++ CRLF ++ disposition_line p ++ CRLF ++ type_line p ++ CRLF ++ CRLF ++ fp_bytes p ++ CRLF.
Proof. unfold encode_part, disposition_line, type_line. by rewrite <- !app_assoc. Qed.

(** The headers and the content of one part, read back. *)
Lemma read_part_bytes boundary p fuel rest :
  valid_boundary boundary = true -> occurs CRLF (type_line p) = false -> occurs (delimiter boundary) (fp_bytes p) = false ->
  read_parts (S fuel) boundary (CRLF ++ disposition_line p ++ CRLF ++ type_line p ++ CRLF ++ CRLF ++ fp_bytes p ++ delimiter boundary ++ rest)
  = (parts ← read_parts fuel boundary rest; Some (([disposition_line p; type_line p], fp_bytes p) :: parts)).
Proof.
  intros Hb Ht Ho. cbn [read_parts]. set (tail := disposition_line p ++ _).
  replace (starts_with_bytes (CRLF ++ tail) dashes) with false by done. rewrite strip_prefix_app. cbn [mbind option_bind].
  assert (Hh : read_headers (length tail) tail = Some ([disposition_line p; type_line p], fp_bytes p ++ delimiter boundary ++ rest)).
  { subst tail. replace (length _) with (S (S (S (length (disposition_line p ++ type_line p ++ CRLF ++ fp_bytes p ++ delimiter boundary ++ rest) + 1))))
      by (rewrite !length_app; cbn; lia).
    rewrite read_header_line by (done || apply no_cr_occurs, disposition_no_cr).
    rewrite read_header_line by done. cbn [read_headers]. replace (split_once_str CRLF (CRLF ++ _)) with (Some ([] : list byte, fp_bytes p ++ delimiter boundary ++ rest)); [done|].
    symmetry. apply (split_once_str_first CR [LF] []); [set_solver|done]. }
  rewrite Hh. cbn [mbind option_bind]. change (delimiter boundary) with (CR :: LF :: dashes ++ as_bytes boundary) in *.
  rewrite split_once_str_first; [done| |done]. apply boundary_no_cr in Hb. set_solver.
Qed.

Lemma read_part_back p : read_part ([disposition_line p; type_line p], fp_bytes p) = Some (received p).
Proof.
  unfold read_part, disposition_line. cbn [fst snd]. rewrite strip_prefix_app. cbn [mbind option_bind].
  assert (Hq : forall s, QUOTE ∉ as_bytes (escape_quoted s)) by (intros s H; apply escaped_clean in H; naive_solver).
  assert (E : forall l, disposition_filename ++ l = QUOTE :: drop 1 disposition_filename ++ l) by done. rewrite E.
  rewrite split_once_bytes_first by done. cbn [mbind option_bind]. rewrite strip_prefix_app. cbn [mbind option_bind].
  rewrite split_once_bytes_first by done. cbn [mbind option_bind]. unfold type_line. rewrite strip_prefix_app. cbn [mbind option_bind].
  rewrite bool_decide_eq_true_2 by done. unfold received. by rewrite !of_as_bytes.
Qed.

(** The parts from the first delimiter on. *)
Lemma read_parts_back boundary parts : forall fuel,
  valid_boundary boundary = true -> (length parts < fuel)%nat ->
  Forall (fun p => occurs CRLF (type_line p) = false /\ occurs (delimiter boundary) (fp_bytes p) = false) parts ->
  exists raw, (l ← strip_prefix_bytes (dashes ++ as_bytes boundary)
                   (flat_map (encode_part boundary) parts ++ dashes ++ as_bytes boundary ++ dashes ++ CRLF);
               read_parts fuel boundary l) = Some raw /\ mapM read_part raw = Some (map received parts).
Proof.
  induction parts as [|p parts IH]; intros [|fuel] Hb Hf Hall; try (cbn in Hf; lia).
  - exists []. cbn [flat_map app]. rewrite app_assoc, strip_prefix_app. done.
  - apply Forall_cons in Hall as [[Ht Ho] Hall]. destruct (IH fuel Hb) as (raw & Hr & Hm); [cbn in Hf; lia|done|].
    exists (([disposition_line p; type_line p], fp_bytes p) :: raw). split; [|cbn [mapM]; by rewrite read_part_back; cbn; rewrite Hm].
    cbn [flat_map]. rewrite encode_part_shape, <- !app_assoc. rewrite (app_assoc dashes), strip_prefix_app. cbn [mbind option_bind].
    set (next := flat_map (encode_part boundary) parts ++ _) in *.
    assert (Hnext : exists l, next = (dashes ++ as_bytes boundary) ++ l).
    { subst next. destruct parts as [|q parts]; cbn [flat_map app]; [eexists; by rewrite <- app_assoc|].
      rewrite encode_part_shape, <- !app_assoc. eexists. by rewrite <- app_assoc. }
    destruct Hnext as [l Hl]. rewrite Hl in *. rewrite strip_prefix_app in Hr. cbn [mbind option_bind] in Hr.
    pose proof (read_part_bytes boundary p fuel l Hb Ht Ho) as Hp. unfold delimiter in Hp. rewrite <- !app_assoc in Hp.
    rewrite <- !app_assoc. rewrite Hp, Hr. done.
Qed.

Lemma encode_part_length boundary p : length (encode_part boundary p) =
  (2 + str_len boundary + 2 + 54 + str_len (escape_quoted (fp_field p)) + str_len (escape_quoted (fp_filename p))
   + 18 + str_len (fp_content_type p) + length (fp_bytes p) + 2)%nat.
Proof. unfold encode_part. rewrite !length_app, !str_len_bytes. cbn -[escape_quoted]. lia. Qed.

Lemma encode_length boundary parts :
  length (flat_map (encode_part boundary) parts ++ dashes ++ as_bytes boundary ++ dashes ++ CRLF) = capacity boundary parts.
Proof.
  unfold capacity. rewrite !length_app, str_len_bytes. cbn [length dashes as_bytes CRLF String.list_ascii_of_string].
  enough (length (flat_map (encode_part boundary) parts) = list_sum (map (fun p => length (encode_part boundary p)) parts)) as ->.
  { rewrite (map_ext _ _ (encode_part_length boundary)), str_len_bytes. lia. }
  induction parts as [|p parts IH]; [done|]. cbn [flat_map map list_sum foldr]. rewrite length_app, IH. done.
Qed.

Lemma random_boundary_valid random : length random = 16%nat -> valid_boundary (random_boundary random) = true.
Proof.
  intros Hr. unfold valid_boundary, random_boundary. rewrite as_of_bytes.
  assert (Hlen : length (mjoin (map hex_lower random)) = 32%nat) by (rewrite length_join; do 16 (destruct random as [|? random]; [done|]); by destruct random).
  assert (Hhex : forallb is_boundary_byte (mjoin (map hex_lower random)) = true).
  { apply forallb_elem_of. intros b Hb. apply list_elem_of_join in Hb as (h & Hb & Hh). apply list_elem_of_fmap in Hh as (x & -> & _).
    revert b Hb. pose proof (byte_forall (fun x => forallb is_boundary_byte (hex_lower x)) eq_refl x) as Hx. cbv beta in Hx. by rewrite forallb_elem_of in Hx. }
  rewrite !andb_true_iff. split; [split; [split|]|].
  - unfold str_is_empty. by destruct (String.eqb_spec (of_bytes (as_bytes BOUNDARY_PREFIX ++ mjoin (map hex_lower random))) "").
  - rewrite length_app, Hlen. done.
  - rewrite forallb_app, Hhex. done.
  - rewrite last_app. destruct (last (mjoin (map hex_lower random))) as [b|] eqn:El; [|by apply last_None in El; rewrite El in Hlen].
    apply last_Some_elem_of in El. apply list_elem_of_join in El as (h & Hb & Hh). apply list_elem_of_fmap in Hh as (x & -> & _).
    revert b Hb. pose proof (byte_forall (fun x => forallb (fun b => negb (beqb b (byte_of 32))) (hex_lower x)) eq_refl x) as Hx. cbv beta in Hx.
    by rewrite forallb_elem_of in Hx.
Qed.

(** The body read back: the escaped parts, which are the parts where the names
    have nothing to escape. *)
Lemma multipart_decodes boundary parts :
  valid_boundary boundary = true ->
  Forall (fun p => CR ∉ as_bytes (fp_content_type p) /\ occurs (delimiter boundary) (fp_bytes p) = false) parts ->
  decode boundary (flat_map (encode_part boundary) parts ++ dashes ++ as_bytes boundary ++ dashes ++ CRLF) = Some (map received parts)
  /\ (Forall (fun p => forall b, b ∈ as_bytes (fp_field p) ++ as_bytes (fp_filename p) -> b <> QUOTE /\ b <> CR /\ b <> LF) parts ->
      map received parts = parts).
Proof.
  intros Hb Hall. split.
  - unfold decode. destruct (read_parts_back boundary parts (length (flat_map (encode_part boundary) parts ++ dashes ++ as_bytes boundary ++ dashes ++ CRLF)) Hb)
      as (raw & Hr & Hm).
    + rewrite encode_length. unfold capacity. clear. induction parts as [|p parts IH]; [cbn; lia|]. cbn [map list_sum foldr length] in *. unfold list_sum in *. lia.
    + eapply Forall_impl; [exact Hall|]. intros p [Ht Ho]. split; [|done]. apply no_cr_occurs. unfold type_line. rewrite elem_of_app.
      intros [H|H]; [absent H|done].
    + destruct (strip_prefix_bytes _ _) as [l|]; [|done]. cbn [mbind option_bind] in *. rewrite Hr. done.
  - intros Hp. rewrite <- (map_id parts) at 2. apply map_ext_Forall. eapply Forall_impl; [exact Hp|]. intros p Hc.
    destruct p as [f n t c]. unfold received. cbn [fp_field fp_filename fp_content_type fp_bytes] in *. rewrite !escape_quoted_plain; [done|..]; intros b Hin; apply Hc; set_solver.
Qed.

(** C25: What the encoder writes is what a receiver reads: behind a boundary it
    accepts, the body fills the buffer allocated for it exactly, and as long
    as no content holds the delimiter and no content type a line break, it
    splits into the same parts in the same order, with their content types
    and every byte of their contents, and with their names in the escaped
    form, which is the name itself where it has no quote and no line break. *)
Theorem multipart_roundtrip boundary parts :
  valid_boundary boundary = true ->
  Forall (fun p => CR ∉ as_bytes (fp_content_type p) /\ occurs (delimiter boundary) (fp_bytes p) = false) parts ->
  exists body, encode_with_boundary boundary parts = Some body
    /\ body_content_type body = ("multipart/form-data; boundary=" ++ boundary)%string
    /\ length (mb_bytes body) = capacity boundary parts
    /\ decode boundary (mb_bytes body) = Some (map received parts)
    /\ (Forall (fun p => forall b, b ∈ as_bytes (fp_field p) ++ as_bytes (fp_filename p) -> b <> QUOTE /\ b <> CR /\ b <> LF) parts ->
        map received parts = parts).
Proof.
  intros Hb Hall. unfold encode_with_boundary. rewrite Hb. eexists. split; [done|]. split; [done|].
  split; [apply encode_length|]. by apply multipart_decodes.
Qed.

Module MultipartWitness.
Definition parts : list FilePart :=
  [{| fp_field := "files"; fp_filename := "a.txt"; fp_content_type := "text/plain"; fp_bytes := as_bytes "--b" ++ CRLF |};
   {| fp_field := "files"; fp_filename := "b"; fp_content_type := "text/plain"; fp_bytes := [] |}].

Lemma multipart_roundtrip_witness : exists body, encode_with_boundary "b" parts = Some body /\ decode "b" (mb_bytes body) = Some parts.
Proof.
  assert (Hb : valid_boundary "b" = true) by (vm_compute; reflexivity).
  assert (Hall : Forall (fun p => CR ∉ as_bytes (fp_content_type p) /\ occurs (delimiter "b") (fp_bytes p) = false) parts).
  { repeat (apply Forall_cons; split; [split; [refine (bool_decide_unpack (_ ∉ _) _); vm_compute; exact I|vm_compute; reflexivity]|]). apply Forall_nil. exact I. }
  destruct (multipart_roundtrip "b" parts Hb Hall) as (body & He & _ & _ & Hd & Hsame).
  exists body. split; [exact He|]. rewrite Hsame in Hd; [exact Hd|].
  repeat (apply Forall_cons; split; [intros b Hin; apply list_elem_of_In in Hin; cbn in Hin;
    repeat (destruct Hin as [<-|Hin]; [repeat split; discriminate|]); destruct Hin|]). apply Forall_nil. exact I.
Defined.

(** An escaped name arrives escaped. *)
Example escaped_name :
  decode "b" (default [] (mb_bytes <$> encode_with_boundary "b"
    [{| fp_field := "f"; fp_filename := of_bytes (as_bytes "a" ++ [QUOTE]); fp_content_type := "t/t"; fp_bytes := as_bytes "x" |}]))
  = Some [{| fp_field := "f"; fp_filename := "a%22"; fp_content_type := "t/t"; fp_bytes := as_bytes "x" |}].
Proof. vm_compute. reflexivity. Qed.
End MultipartWitness.
