(* ===== verification/Upload.v ===== *)
(** * Uploads and image downloads
      (src/src/transport/multipart.rs, src/src/transport/image.rs)

    The two transport calls beside those of [Transport]: a multipart POST and
    a bounded image GET.  Both make one attempt, follow no redirect and are
    authorized by method and path alone. *)
From S2P Require Import Prelude RustStr Json PolicyTypes Signing Bundle PolicyEngine Canonical Extractors Config Scope ResponseCache Egress Transport Multipart.

Record MultipartRequest := {
  mr_path : string;
  mr_body : MultipartBody;
  mr_headers : list (string * string);
  mr_manifest : option Value;
}.

Definition UPLOAD_GRACE_BYTES_PER_SECOND : N := 100 * 1024.

(** [Duration::MAX], in milliseconds. *)
Definition DURATION_MAX_MS : N := (2 ^ 64 - 1) * 1000 + 999.

Definition upload_timeout (base : N) (body_len : nat) : N :=
  N.min DURATION_MAX_MS (base + 1000 * (N.of_nat body_len / UPLOAD_GRACE_BYTES_PER_SECOND)).

Definition MAX_IMAGE_BYTES : N := 5 * 1024 * 1024.
Definition image_too_large : McpError := api_error "Attachment exceeds the 5 MiB image limit" (Some 413%N) None.

(** The read loop: each chunk has to fit in what is left. *)
Fixpoint collect_chunks (bytes : list byte) (chunks : list (list byte)) : result (list byte) McpError :=
  match chunks with
  | [] => Ok bytes
  | chunk :: rest =>
      if (MAX_IMAGE_BYTES - N.of_nat (length bytes) <? N.of_nat (length chunk))%N then Err image_too_large
      else collect_chunks (bytes ++ chunk) rest
  end.

Definition image_types : list string := ["image/png"; "image/jpeg"; "image/gif"; "image/webp"].

(** The media type of a response, without its parameters. *)
Definition media_type (headers : HeaderMap) : string :=
  to_ascii_lowercase (trim (hd "" (split (byte_of 59) (default "" (header_get headers "content-type" ≫= header_to_str))))).

Definition upload_request (url : string) (auth : string * string) (content_type : string) (r : MultipartRequest) : WireRequest :=
  {| wr_method := Post; wr_url := url;
     wr_headers := [auth; ("accept", "application/json"); ("content-type", content_type)] ++ mr_headers r;
     wr_body := BMultipart (mb_bytes (mr_body r)) |}.

Definition image_request (url : string) (auth : string * string) : WireRequest :=
  {| wr_method := Get; wr_url := url; wr_headers := [auth; ("accept", "*/*")]; wr_body := BNone |}.

Section Calls.
Context `{UrlLib} `{HttpLib} `{BodyCodec}.
Variable sha256 : list byte -> list byte.
Variable form_urlencoded : list Pair -> list byte.
Variable env : Env.
Variable scope : option CallScope.

Definition post_multipart (vendor : Vendor) (credentials : Credentials) (config : Config) (request : MultipartRequest)
    : EM (result TransportResponse McpError) :=
  try! base := lift (base_url vendor config) in
  try! target := lift (canonical_target_of (mr_path request)) in
  try! ticket := authorize_egress sha256 form_urlencoded env scope (v_name vendor) Post target (mr_manifest request) in
  let url := of_bytes (url_under form_urlencoded (as_bytes base) target) in
  try! auth := lift (validate_auth credentials) in
  let timeout := upload_timeout (resolve_timeout config None) (length (mb_bytes (mr_body request))) in
  let! started := ask (env_now env) in
  let content_type := body_content_type (mr_body request) in
  if negb (header_value_ok content_type) then ret (Err (unexpected "multipart boundary produced an invalid header" None))
  else
    let! _ := on_cache (fun c => (invalidate_namespace (v_name vendor) base c, tt)) in
    let! answer := send env (upload_request url auth content_type request) in
    match answer with
    | SError e =>
        let! _ := report_attempt ticket None (Some "transport_error") in
        ret (Err (map_transport_error e url))
    | STimeout | SCancelled =>
        let! _ := report_attempt ticket None (Some "transport_error") in
        ret (Err (map_transport_error {| is_connect := false; is_timeout := true; is_request := false; error_text := "" |} url))
    | SResponse response =>
        let! _ := report_attempt ticket (Some (r_status response)) None in
        try! _ := lift (enforce_content_length_cap response) in
        if negb (is_success (r_status response)) then
          let! wall := ask (env_wall env) in
          (* read within the deadline [started + timeout] *)
          try! body_text := ask (env_body env) in
          ret (Err (retry_metadata (classify_error vendor (r_status response) body_text) (retry_parse (r_headers response) wall)))
        else
          try! body := classify_body env response in
          match (match body with Json v => classify_success_json vendor v | _ => None end) with
          | Some e => ret (Err e)
          | None =>
              let! raw_path := match body with Json _ => ask (env_raw_path env) | _ => ret None end in
              let! stamp := ask (env_stamp env) in
              ret (Ok {| data := body; tr_cache := {| hit := false; age_ms := 0; fetched_at := stamp |};
                         raw_response_path := raw_path; tr_headers := r_headers response |})
          end
    end.

(** The text of the error quotes the type with [Debug]; it is kept as the type. *)
Definition fetch_image (vendor : Vendor) (credentials : Credentials) (config : Config) (path : string)
    : EM (result (list byte * string) McpError) :=
  try! base := lift (base_url vendor config) in
  try! target := lift (canonical_target_of path) in
  try! ticket := authorize_egress sha256 form_urlencoded env scope (v_name vendor) Get target None in
  let url := of_bytes (url_under form_urlencoded (as_bytes base) target) in
  try! auth := lift (validate_auth credentials) in
  let! answer := send env (image_request url auth) in
  match answer with
  | SError e =>
      let! _ := report_attempt ticket None (Some "transport_error") in
      ret (Err (map_transport_error e url))
  | STimeout | SCancelled =>
      let! _ := report_attempt ticket None (Some "transport_error") in
      ret (Err (map_transport_error {| is_connect := false; is_timeout := true; is_request := false; error_text := "" |} url))
  | SResponse response =>
      let! _ := report_attempt ticket (Some (r_status response)) None in
      let mime := media_type (r_headers response) in
      if is_success (r_status response) && negb (bool_decide (mime ∈ image_types)) then
        ret (Err (api_error ("Attachment is not a supported image (Content-Type: " ++ mime
                             ++ "). Supported: PNG, JPEG, GIF, WebP.")%string (Some 415%N) None))
      else if match r_content_length response with Some size => (MAX_IMAGE_BYTES <? size)%N | None => false end
      then ret (Err image_too_large)
      else
        let! stream := ask (env_chunks env) in
        match collect_chunks [] stream.1, stream.2 with
        | Err e, _ => ret (Err e)
        | Ok _, Some e => ret (Err (map_transport_error e url))
        | Ok bytes, None =>
            if negb (is_success (r_status response)) then ret (Err (classify_error vendor (r_status response) (from_utf8_lossy bytes)))
            else if bool_decide (bytes = []) then ret (Err (api_error "Attachment image is empty" (Some 502%N) None))
            else ret (Ok (bytes, mime))
        end
  end.

End Calls.

(** ** Enforcement *)

Section Covered.
Context `{U : UrlLib} `{HL : HttpLib} `{BC : BodyCodec}.
Variable sha256 : list byte -> list byte.
Variable form_urlencoded : list Pair -> list byte.
Variable env : Env.
Context (s : CallScope) (enf : Enforcement) (Hs : cs_enforcement s = Some enf).

Abbreviation covers := (Transport.covers form_urlencoded s enf).
Abbreviation good := (Egress.good covers).

(** A request authorized by its path alone. *)
Lemma path_covers vendor m path target base body req :
  canonical_target_of path = Ok target -> unlocated req = true ->
  wr_method req = m -> wr_url req = of_bytes (url_under form_urlencoded (as_bytes base) target) ->
  let c := egress_context sha256 s enf vendor m target body None false in
  covers (of_bytes (url_under form_urlencoded [] target)) c (pdp_evaluate (en_policy enf) c) req.
Proof.
  unfold canonical_target_of. intros Hp Hun Hmr Hur. destruct (parse (as_bytes path)) as [t|] eqn:Ep; [|done]. injection Hp as ->.
  destruct (for_vendor_describes sha256 vendor m _ _ body Ep) as (Hmeth & Hpath & _).
  split; [done|]. split; [done|]. split; [done|]. split; [done|]. unfold egress_context. cbn.
  split; [by rewrite Hmr|]. exists target. split; [done|]. split; [done|]. right. split_and!; eauto.
Qed.

Lemma wp_post_multipart vendor credentials config request Φ w :
  good 0 w -> (forall r w', good 0 w' -> later w w' -> Φ r w') ->
  wp (post_multipart sha256 form_urlencoded env (Some s) vendor credentials config request) Φ w.
Proof.
  intros Hg HΦ. unfold post_multipart.
  apply wp_try, wp_ret. destruct (base_url vendor config) as [base|e]; [|by apply HΦ].
  apply wp_try, wp_ret. destruct (canonical_target_of (mr_path request)) as [target|e] eqn:Et; [|by apply HΦ].
  destruct (canonical_target_parsed _ _ Et) as [input Hin].
  apply wp_try, (wp_authorize_good _ _ _ s enf Hs _ _ input _ _ _ _ 0); [done|done|done|]. intros r w1 Hg1 Hw1 Hr.
  destruct r as [[t|]|e]; [|done|by apply HΦ]. destruct Hr as [Hu Hcov]. clear Hg. cbv zeta.
  set (url := of_bytes (url_under form_urlencoded (as_bytes base) target)).
  apply wp_try, wp_ret. destruct (validate_auth credentials) as [auth|e]; [|by apply HΦ].
  assert (Hauth : authorizes covers (trace w1) (upload_request url auth (body_content_type (mr_body request)) request))
    by (by eapply Hcov, path_covers). clear Hcov.
  apply wp_bind, wp_ask. intros started w2 Hq. over_quiet.
  destruct (negb (header_value_ok _)); [by apply wp_ret, HΦ|].
  apply wp_bind, wp_on_cache. intros ? w3 Hq. over_quiet. apply unattempted_live in Hu.
  apply wp_bind, (wp_send_good form_urlencoded _ s enf); [done|done|]. intros answer w4 Hg4 Hw4. over_later. clear Hg1.
  destruct answer as [response|e| |]; apply wp_bind, (good_report covers); try done;
    intros w5 Hg5 Hw5; over_later; [|by apply wp_ret, HΦ..]. clear Hg4.
  apply wp_try, wp_ret. destruct (enforce_content_length_cap response) as [[]|e]; [|by apply HΦ].
  destruct (negb (is_success _)).
  - apply wp_bind, wp_ask. intros wall w6 Hq. over_quiet. apply wp_try, wp_ask. intros [text|e] w7 Hq; over_quiet; [|by apply HΦ].
    by apply wp_ret, HΦ.
  - apply wp_try, wp_classify_body. intros [body|e] w6 Hq; over_quiet; [|by apply HΦ].
    destruct (match body with Json v => _ | _ => _ end); [by apply wp_ret, HΦ|].
    apply wp_bind. destruct body as [v|text|]; [apply wp_ask; intros ? ? Hq; over_quiet|apply wp_ret..];
      (apply wp_bind, wp_ask; intros ? ? Hq; over_quiet; by apply wp_ret, HΦ).
Qed.

Lemma wp_fetch_image vendor credentials config path Φ w :
  good 0 w -> (forall r w', good 0 w' -> later w w' -> Φ r w') ->
  wp (fetch_image sha256 form_urlencoded env (Some s) vendor credentials config path) Φ w.
Proof.
  intros Hg HΦ. unfold fetch_image.
  apply wp_try, wp_ret. destruct (base_url vendor config) as [base|e]; [|by apply HΦ].
  apply wp_try, wp_ret. destruct (canonical_target_of path) as [target|e] eqn:Et; [|by apply HΦ].
  destruct (canonical_target_parsed _ _ Et) as [input Hin].
  apply wp_try, (wp_authorize_good _ _ _ s enf Hs _ _ input _ _ _ _ 0); [done|done|done|]. intros r w1 Hg1 Hw1 Hr.
  destruct r as [[t|]|e]; [|done|by apply HΦ]. destruct Hr as [Hu Hcov]. clear Hg. cbv zeta.
  apply wp_try, wp_ret. destruct (validate_auth credentials) as [auth|e]; [|by apply HΦ].
  apply unattempted_live in Hu. apply wp_bind, (wp_send_good form_urlencoded _ s enf); [done| |].
  { eapply Hcov, path_covers; [done| |done|done]. unfold unlocated. cbn. apply bool_decide_eq_true_2. set_solver. }
  clear Hcov. intros answer w4 Hg4 Hw4. over_later. clear Hg1.
  destruct answer as [response|e| |]; apply wp_bind, (good_report covers); try done;
    intros w5 Hg5 Hw5; over_later; [|by apply wp_ret, HΦ..]. clear Hg4.
  destruct (is_success _ && _); [by apply wp_ret, HΦ|].
  destruct (match r_content_length response with Some size => _ | None => _ end); [by apply wp_ret, HΦ|].
  apply wp_bind, wp_ask. intros stream w6 Hq. over_quiet.
  destruct (collect_chunks [] stream.1) as [bytes|e]; [|by apply wp_ret, HΦ]. destruct (stream.2); [by apply wp_ret, HΦ|].
  destruct (negb _); [by apply wp_ret, HΦ|]. destruct (bool_decide _); by apply wp_ret, HΦ.
Qed.
End Covered.

(** A rule that names destination origins never applies to an upload or an
    image, whatever their destination: a denial of an origin does not hold for
    them. *)
Lemma origin_rule_misses_uploads `{UrlLib} sha256 s enf vendor m target body rule origins :
  cr_origin rule = Some origins ->
  mismatch rule (egress_context sha256 s enf vendor m target body None false) = Some "destination_origin".
Proof. intros Hr. unfold mismatch, checks. rewrite Hr. done. Qed.

(** ** Growth and bounds *)

Section Grows.
Context `{U : UrlLib} `{HL : HttpLib} `{BC : BodyCodec}.
Variable sha256 : list byte -> list byte.
Variable form_urlencoded : list Pair -> list byte.
Variable env : Env.
Variable scope : option CallScope.

#[local] Hint Resolve grows_send : grows.

Lemma grows_post_multipart vendor credentials config request :
  grows (post_multipart sha256 form_urlencoded env scope vendor credentials config request).
Proof. unfold post_multipart, authorize_egress, authorize_egress_at, classify_body. solve_grows. Qed.

Lemma grows_fetch_image vendor credentials config path :
  grows (fetch_image sha256 form_urlencoded env scope vendor credentials config path).
Proof. unfold fetch_image, authorize_egress, authorize_egress_at. solve_grows. Qed.
End Grows.

#[export] Hint Resolve grows_post_multipart grows_fetch_image : grows.

(** An accepted image is the concatenation of its chunks, within the limit. *)
Lemma collect_chunks_ok chunks : forall bytes all,
  (N.of_nat (length bytes) <= MAX_IMAGE_BYTES)%N -> collect_chunks bytes chunks = Ok all ->
  all = bytes ++ mjoin chunks /\ (N.of_nat (length all) <= MAX_IMAGE_BYTES)%N.
Proof.
  induction chunks as [|chunk chunks IH]; cbn [collect_chunks]; intros bytes all Hb.
  - intros [= <-]. by rewrite app_nil_r.
  - destruct (N.ltb_spec (MAX_IMAGE_BYTES - N.of_nat (length bytes)) (N.of_nat (length chunk))) as [|Hle]; [done|]. intros Hc.
    apply IH in Hc as [-> Hlen]; [split; [by rewrite <- app_assoc|done]|]. rewrite length_app. lia.
Qed.
