(* ===== verification/Credentials.v ===== *)
(** * Credentials: the secret registry, the keychain, resolution and the broker
      (src/src/auth/mod.rs, src/src/auth/secrets.rs, src/src/auth/keychain.rs,
      src/src/auth/credential_broker.rs, src/src/ports/credential_broker.rs)

    A secret is addressed by (kind, vendor, principal).  Resolution reads the
    configuration and, for the literal [keychain] or an absent value, the
    keychain; the broker predicts, without reading a secret, which slot will
    act.  The keychain is a type class with the operating-system backend (over
    the [keyring] crate, itself a class with its laws) and the in-memory one as
    instances.  Log lines and their deduplication sets are left out. *)
From stdpp Require Import countable.
From S2P Require Import Prelude RustStr Json PolicyTypes Config Scope Transport.

(** ** Kinds and keychain slots *)
Inductive SecretKind := ApiToken | AppPassword | Password | TotpSecret | Token.

#[export] Instance SecretKind_eq_dec : EqDecision SecretKind.
Proof. solve_decision. Defined.
#[export] Instance SecretKind_countable : Countable SecretKind.
Proof.
  refine (inj_countable' (fun k => match k with ApiToken => 0 | AppPassword => 1 | Password => 2
                                   | TotpSecret => 3 | Token => 4 end)%nat
            (fun n => match n with 0 => ApiToken | 1 => AppPassword | 2 => Password
                      | 3 => TotpSecret | _ => Token end)%nat _).
  by intros [].
Defined.

Definition kind_label (k : SecretKind) : string :=
  match k with
  | ApiToken => "api-token" | AppPassword => "app-password" | Password => "password"
  | TotpSecret => "totp-secret" | Token => "token"
  end.

Definition service_for (k : SecretKind) (vendor : string) : string :=
  let prefix := match k with
    | ApiToken => "mcp-server-devtools.api-token"
    | AppPassword => "mcp-server-devtools.app-password"
    | Password => "mcp-server-devtools.password"
    | TotpSecret => "mcp-server-devtools.totp-secret"
    | Token => "mcp-server-devtools.token"
    end%string in
  (prefix ++ "." ++ vendor)%string.

(** [replacen(from, to, 1)]: the first occurrence. *)
Fixpoint replace_first (from to l : list byte) : list byte :=
  if starts_with_bytes l from then to ++ drop (length from) l
  else match l with [] => [] | b :: rest => b :: replace_first from to rest end.

Definition legacy_service_for (k : SecretKind) (vendor : string) : string :=
  of_bytes (replace_first (as_bytes "mcp-server-devtools") (as_bytes "mcp-server-atlassian")
              (as_bytes (service_for k vendor))).

(** ** The keychain interface *)
Inductive KeychainError := KcNotFound | KcUnavailable (m : string) | KcBackend (m : string).

Definition keychain_error_text (e : KeychainError) : string :=
  match e with
  | KcNotFound => "keychain entry not found"
  | KcUnavailable m => "keychain unavailable: " ++ m
  | KcBackend m => "keychain backend error: " ++ m
  end%string.

Class KeychainBackend (B : Type) := {
  kc_get : SecretKind -> string -> string -> B -> result (option string) KeychainError;
  kc_set : SecretKind -> string -> string -> string -> B -> B * result unit KeychainError;
  kc_delete : SecretKind -> string -> string -> B -> B * result unit KeychainError;
}.

(** The default [contains]: presence only, and an error is absence. *)
Definition kc_contains `{KeychainBackend B} (k : SecretKind) (vendor principal : string) (b : B) : bool :=
  match kc_get k vendor principal b with
  | Ok (Some value) => negb (str_is_empty value)
  | _ => false
  end.

(** [InMemoryKeychain] and [FailingKeychain]. *)
Abbreviation InMemory := (gmap (SecretKind * string * string) string).

#[export] Instance InMemoryKeychain : KeychainBackend InMemory := {|
  kc_get := fun k v p b => Ok (b !! (k, v, p));
  kc_set := fun k v p s b => (<[(k, v, p) := s]> b, Ok tt);
  kc_delete := fun k v p b =>
    match b !! (k, v, p) with Some _ => (delete (k, v, p) b, Ok tt) | None => (b, Err KcNotFound) end;
|}.

Record Failing := { failing_reason : string }.
#[export] Instance FailingKeychain : KeychainBackend Failing := {|
  kc_get := fun _ _ _ b => Err (KcBackend (failing_reason b));
  kc_set := fun _ _ _ _ b => (b, Err (KcBackend (failing_reason b)));
  kc_delete := fun _ _ _ b => (b, Err (KcBackend (failing_reason b)));
|}.

(** The broker's [NoKeychain]. *)
Inductive NoKeychain := TheNoKeychain.
#[export] Instance NoKeychain_backend : KeychainBackend NoKeychain := {|
  kc_get := fun _ _ _ _ => Ok None;
  kc_set := fun _ _ _ _ b => (b, Ok tt);
  kc_delete := fun _ _ _ b => (b, Ok tt);
|}.

(** *** The operating system's keychain, over the [keyring] crate *)
Inductive KeyringError := NoEntry | OtherError (m : string).

Class Keyring (R : Type) := {
  entry_new : string -> string -> result unit string;
  get_password : string -> string -> R -> result string KeyringError;
  set_password : string -> string -> string -> R -> R * result unit KeyringError;
  delete_credential : string -> string -> R -> R * result unit KeyringError;
  keyring_text : KeyringError -> string;
}.

Section OsKeychain.
Context `{Keyring R}.

Definition os_entry (k : SecretKind) (vendor principal : string) : result string KeychainError :=
  let s := service_for k vendor in
  match entry_new s principal with Ok _ => Ok s | Err e => Err (KcBackend e) end.
Definition os_legacy_entry (k : SecretKind) (vendor principal : string) : result string KeychainError :=
  let s := legacy_service_for k vendor in
  match entry_new s principal with Ok _ => Ok s | Err e => Err (KcBackend e) end.

Definition os_get (k : SecretKind) (vendor principal : string) (r : R) : result (option string) KeychainError :=
  let? s := os_entry k vendor principal in
  match get_password s principal r with
  | Ok v => Ok (Some v)
  | Err NoEntry =>
      let? l := os_legacy_entry k vendor principal in
      match get_password l principal r with
      | Ok v => Ok (Some v)
      | Err NoEntry => Ok None
      | Err e => Err (KcBackend (keyring_text e))
      end
  | Err e => Err (KcBackend (keyring_text e))
  end.

Definition os_set (k : SecretKind) (vendor principal secret : string) (r : R) : R * result unit KeychainError :=
  match os_entry k vendor principal with
  | Err e => (r, Err e)
  | Ok s =>
      let '(r', outcome) := set_password s principal secret r in
      (r', match outcome with Ok _ => Ok tt | Err e => Err (KcBackend (keyring_text e)) end)
  end.

Definition os_delete (k : SecretKind) (vendor principal : string) (r : R) : R * result unit KeychainError :=
  match os_entry k vendor principal with
  | Err e => (r, Err e)
  | Ok s =>
      let '(r1, current) := delete_credential s principal r in
      match os_legacy_entry k vendor principal with
      | Err e => (r1, Err e)
      | Ok l =>
          let '(r2, legacy) := delete_credential l principal r1 in
          (r2, match current, legacy with
               | Err NoEntry, Err NoEntry => Err KcNotFound
               | Err (OtherError m), _ => Err (KcBackend (keyring_text (OtherError m)))
               | _, Err (OtherError m) => Err (KcBackend (keyring_text (OtherError m)))
               | _, _ => Ok tt
               end)
      end
  end.

#[export] Instance OsKeychain_backend : KeychainBackend R := {|
  kc_get := os_get; kc_set := os_set; kc_delete := os_delete |}.
End OsKeychain.

(** ** The registry *)
Inductive SlotRole := RequestCredential | LoginInput.

#[export] Instance SlotRole_eq_dec : EqDecision SlotRole.
Proof. solve_decision. Defined.

Record VendorSecret := {
  vs_vendor : string;
  vs_secret_key : string;
  vs_principal_key : option string;
  vs_kind : SecretKind;
  vs_role : SlotRole;
}.

#[export] Instance VendorSecret_eq_dec : EqDecision VendorSecret.
Proof. solve_decision. Defined.

(** [VendorSecret::principal]. *)
Definition slot_principal (row : VendorSecret) (configured : option string) : string :=
  match vs_principal_key row, configured with
  | Some _, Some p => if str_is_empty p then vs_secret_key row else p
  | _, _ => vs_secret_key row
  end.

Definition token_row (vendor secret_key : string) : VendorSecret :=
  {| vs_vendor := vendor; vs_secret_key := secret_key; vs_principal_key := None; vs_kind := Token;
     vs_role := RequestCredential |}.
Definition owned_row (vendor secret_key principal_key : string) (k : SecretKind) : VendorSecret :=
  {| vs_vendor := vendor; vs_secret_key := secret_key; vs_principal_key := Some principal_key; vs_kind := k;
     vs_role := RequestCredential |}.
Definition login_input (vendor secret_key principal_key : string) (k : SecretKind) : VendorSecret :=
  {| vs_vendor := vendor; vs_secret_key := secret_key; vs_principal_key := Some principal_key; vs_kind := k;
     vs_role := LoginInput |}.

Definition VENDOR_SECRETS : list VendorSecret :=
  [ owned_row "bitbucket" "ATLASSIAN_API_TOKEN" "ATLASSIAN_USER_EMAIL" ApiToken;
    owned_row "jira" "ATLASSIAN_API_TOKEN" "ATLASSIAN_USER_EMAIL" ApiToken;
    owned_row "confluence" "ATLASSIAN_API_TOKEN" "ATLASSIAN_USER_EMAIL" ApiToken;
    owned_row "bitbucket" "ATLASSIAN_BITBUCKET_APP_PASSWORD" "ATLASSIAN_BITBUCKET_USERNAME" AppPassword;
    owned_row "zoom" "ZOOM_CLIENT_SECRET" "ZOOM_CLIENT_ID" Token;
    token_row "slack" "SLACK_TOKEN";
    token_row "circleci" "CIRCLECI_TOKEN";
    token_row "postman" "POSTMAN_API_KEY";
    token_row "newrelic" "NEW_RELIC_API_KEY";
    token_row "grafana" "GRAFANA_TOKEN";
    token_row "sonarqube" "SONARQUBE_TOKEN";
    token_row "teamcity" "TEAMCITY_TOKEN";
    token_row "github" "GITHUB_TOKEN";
    token_row "gitlab" "GITLAB_TOKEN";
    token_row "figma" "FIGMA_TOKEN";
    token_row "vercel" "VERCEL_TOKEN";
    token_row "sentry" "SENTRY_TOKEN";
    token_row "artifactory" "ARTIFACTORY_TOKEN";
    token_row "snyk" "SNYK_TOKEN";
    login_input "mend" "MEND_USER_KEY" "MEND_EMAIL" Password;
    token_row "splunk" "SPLUNK_TOKEN";
    token_row "edx" "EDX_ACCESS_TOKEN";
    owned_row "wrds" "WRDS_PASSWORD" "WRDS_USERNAME" Password;
    login_input "ninjaone" "NINJAONE_PASSWORD" "NINJAONE_EMAIL" Password;
    login_input "ninjaone" "NINJAONE_TOTP_SECRET" "NINJAONE_EMAIL" TotpSecret;
    token_row "ninjaone" "NINJAONE_ACCESS_TOKEN";
    token_row "ninjaone" "NINJAONE_SESSION_KEY";
    token_row "ninjaone" "NINJAONE_SESSION_COOKIE" ]%string.

(** [secrets::lookup], [lookup_by_key], [for_vendor], [kind_supported_by] and
    [vendors_with_secrets]. *)
Definition secret_lookup (vendor secret_key : string) : option VendorSecret :=
  List.find (fun row => String.eqb (vs_vendor row) vendor && String.eqb (vs_secret_key row) secret_key) VENDOR_SECRETS.
Definition lookup_by_key (secret_key : string) : option VendorSecret :=
  List.find (fun row => String.eqb (vs_secret_key row) secret_key) VENDOR_SECRETS.
Definition rows_for_vendor (vendor : string) : list VendorSecret :=
  List.filter (fun row => String.eqb (vs_vendor row) vendor) VENDOR_SECRETS.
Definition resolution_is_observable (vendor : string) : bool := negb (String.eqb vendor "ninjaone").
Definition kind_supported_by (k : SecretKind) (vendor : string) : bool :=
  existsb (fun row => bool_decide (vs_kind row = k) && String.eqb (vs_vendor row) vendor) VENDOR_SECRETS.
Definition vendors_with_secrets : list string :=
  foldl (fun vendors row =>
           if existsb (String.eqb (vs_vendor row)) vendors then vendors else vendors ++ [vs_vendor row])
    [] VENDOR_SECRETS.

(** [SecretKind::parse]. *)
Definition kind_parse (s : string) : option SecretKind :=
  let named := existsb (String.eqb s) in
  if named ["api-token"; "ATLASSIAN_API_TOKEN"]%string then Some ApiToken
  else if named ["app-password"; "ATLASSIAN_BITBUCKET_APP_PASSWORD"]%string then Some AppPassword
  else if named ["password"; "NINJAONE_PASSWORD"]%string then Some Password
  else if named ["totp-secret"; "NINJAONE_TOTP_SECRET"]%string then Some TotpSecret
  else if String.eqb s "token" then Some Token
  else vs_kind <$> lookup_by_key s.

(** ** Resolution *)
Definition auth_missing (message : string) : McpError :=
  {| err_message := message; err_kind := AuthMissing; err_status := None; err_original := None |}.

Definition double_quote : string := of_bytes [byte_of 34].

(** The key set to the keychain literal, as messages print it. *)
Definition sets_keychain (label : string) : string :=
  (label ++ "=" ++ double_quote ++ "keychain" ++ double_quote)%string.

Definition unresolved_reference (vendor label reference : string) : McpError :=
  auth_missing ("vendor `" ++ vendor ++ "`: " ++ label ++ " references " ++ reference
    ++ ", but the reference is not resolved in this process. The MCP server resolves secret references before it starts (docs/configuration.md, "
    ++ double_quote ++ "Secret references" ++ double_quote ++ "); this path did not.")%string.

Definition slot_text (k : SecretKind) (vendor principal : string) : string :=
  ("kind=" ++ kind_label k ++ ", vendor=" ++ vendor ++ ", principal=" ++ principal)%string.

Definition no_keychain_entry (k : SecretKind) (vendor principal secret_label : string) : McpError :=
  auth_missing ("vendor `" ++ vendor ++ "` sets " ++ sets_keychain secret_label
    ++ " but no keychain entry exists for " ++ slot_text k vendor principal
    ++ ". Run `mcp-devtools creds set --kind " ++ kind_label k ++ " --vendor " ++ vendor
    ++ " --principal " ++ principal ++ "` or remove the sentinel.")%string.

Definition task_panicked (e : string) : McpError :=
  unexpected ("credential resolution task panicked: " ++ e)%string None.

Definition config_non_blank (c : Config) (vendor key : string) : option string :=
  match trim <$> get_for c vendor key with
  | Some value => if str_is_empty value then None else Some value
  | None => None
  end.

Section Resolution.
Context `{KeychainBackend B}.
Implicit Types (c : Config) (b : B).

(** [resolve_configured_secret]. *)
Definition resolve_configured_secret b (k : SecretKind) (vendor principal : string) (raw : option string)
    (secret_label : string) : result (option string) McpError :=
  match trim <$> raw with
  | Some value =>
      if is_keychain_sentinel value then
        match kc_get k vendor principal b with
        | Ok (Some s) =>
            if str_is_empty s then Err (no_keychain_entry k vendor principal secret_label) else Ok (Some s)
        | Ok None => Err (no_keychain_entry k vendor principal secret_label)
        | Err e => Err (auth_missing ("keychain lookup failed for " ++ slot_text k vendor principal ++ ": "
                                        ++ keychain_error_text e)%string)
        end
      else if is_reference value then Err (unresolved_reference vendor secret_label value)
      else if str_is_empty value then Ok None
      else Ok (Some value)
  | None =>
      match kc_get k vendor principal b with
      | Ok (Some s) => if str_is_empty s then Ok None else Ok (Some s)
      | Ok None => Ok None
      | Err _ => Ok None
      end
  end.

Definition resolve_kind_with_principal c b (vendor : string) (k : SecretKind) (principal secret_key : string)
    : result (option (string * string)) McpError :=
  let? secret := resolve_configured_secret b k vendor principal (get_for c vendor secret_key) secret_key in
  Ok ((fun s => (principal, s)) <$> secret).

Definition try_resolve_kind c b (vendor : string) (k : SecretKind) (principal_key secret_key : string)
    : result (option (string * string)) McpError :=
  let absent :=
    match trim <$> get_for c vendor secret_key with
    | Some value =>
        if is_keychain_sentinel value
        then Err (auth_missing ("vendor `" ++ vendor ++ "` sets " ++ sets_keychain secret_key ++ " but "
                    ++ principal_key ++ " is missing")%string)
        else Ok None
    | None => Ok None
    end in
  match get_for c vendor principal_key with
  | Some p =>
      if is_reference (trim p) then Err (unresolved_reference vendor principal_key (trim p))
      else if str_is_empty p then absent
      else resolve_kind_with_principal c b vendor k p secret_key
  | None => absent
  end.

(** [Credentials::resolve_with_for]. *)
Definition resolve_with_for c b (vendor : string) : result (option Credentials) McpError :=
  let? api := try_resolve_kind c b vendor ApiToken "ATLASSIAN_USER_EMAIL" "ATLASSIAN_API_TOKEN" in
  match api with
  | Some (email, token) => Ok (Some (AtlassianApiToken email token))
  | None =>
      if String.eqb vendor "bitbucket" then
        let? app := try_resolve_kind c b vendor AppPassword "ATLASSIAN_BITBUCKET_USERNAME"
                      "ATLASSIAN_BITBUCKET_APP_PASSWORD" in
        Ok ((fun '(username, password) => BitbucketAppPassword username password) <$> app)
      else Ok None
  end.

Definition require_for c b (vendor : string) : result Credentials McpError :=
  let? found := resolve_with_for c b vendor in
  match found with
  | Some creds => Ok creds
  | None =>
      Err (auth_missing ("Authentication credentials are missing for vendor `" ++ vendor
             ++ "`. Set ATLASSIAN_USER_EMAIL + ATLASSIAN_API_TOKEN in the `" ++ vendor
             ++ "` section, or (Bitbucket only) ATLASSIAN_BITBUCKET_USERNAME + ATLASSIAN_BITBUCKET_APP_PASSWORD.")%string)
  end.

(** The blocking task either returns or panics, with the panic's text. *)
Definition require_for_async (joined : result unit string) c b (vendor : string) : result Credentials McpError :=
  match joined with Ok _ => require_for c b vendor | Err e => Err (task_panicked e) end.

Definition vendor_secret_with c b (vendor secret_key : string) : result (option string) McpError :=
  match secret_lookup vendor secret_key with
  | None => Ok (config_non_blank c vendor secret_key)
  | Some registered =>
      let configured := vs_principal_key registered ≫= config_non_blank c vendor in
      let principal := slot_principal registered configured in
      let? resolved := resolve_kind_with_principal c b vendor (vs_kind registered) principal secret_key in
      Ok (snd <$> resolved)
  end.

(** [vendor_secret]: plaintext is decided before any task is started. *)
Definition vendor_secret (joined : result unit string) c b (vendor secret_key : string)
    : result (option string) McpError :=
  let blocking := match joined with
                  | Ok _ => vendor_secret_with c b vendor secret_key
                  | Err e => Err (task_panicked e)
                  end in
  match config_non_blank c vendor secret_key with
  | Some value =>
      if is_keychain_sentinel value then blocking
      else if is_reference value then Err (unresolved_reference vendor secret_key value)
      else Ok (Some value)
  | None => blocking
  end.

Definition resolve_configured_secret_async (joined : result unit string) b (k : SecretKind)
    (vendor principal : string) (raw : option string) (secret_label : string) : result (option string) McpError :=
  let blocking := match joined with
                  | Ok _ => resolve_configured_secret b k vendor principal raw secret_label
                  | Err e => Err (task_panicked e)
                  end in
  match trim <$> raw with
  | None => blocking
  | Some value =>
      if is_keychain_sentinel value then blocking
      else if str_is_empty value then Ok None
      else if is_reference value then Err (unresolved_reference vendor secret_label value)
      else Ok (Some value)
  end.

(** *** The vendors' own entry points *)

(** [require_cred]: a plain, required setting. *)
Definition require_cred (missing : string -> McpError) c (vendor key : string) : result string McpError :=
  match config_non_blank c vendor key with Some v => Ok v | None => Err (missing key) end.

(** [token] of a single-token vendor. *)
Definition vendor_token (missing : McpError) (joined : result unit string) c b (vendor key : string)
    : result string McpError :=
  let? secret := vendor_secret joined c b vendor key in
  match secret with Some s => Ok s | None => Err missing end.

(** The credential half of Zoom's [bearer]: account, client, then the secret. *)
Definition zoom_inputs (missing : string -> McpError) (joined : result unit string) c b
    : result (string * string * string) McpError :=
  let? account_id := require_cred missing c "zoom" "ZOOM_ACCOUNT_ID" in
  let? client_id := require_cred missing c "zoom" "ZOOM_CLIENT_ID" in
  let? client_secret := vendor_token (missing "ZOOM_CLIENT_SECRET"%string) joined c b "zoom" "ZOOM_CLIENT_SECRET" in
  Ok (account_id, client_id, client_secret).

(** The credential half of WRDS's [conn_params]. *)
Definition wrds_login (missing : string -> McpError) (joined : result unit string) c b
    : result (string * string) McpError :=
  let? user := require_cred missing c "wrds" "WRDS_USERNAME" in
  let? password := vendor_token (missing "WRDS_PASSWORD"%string) joined c b "wrds" "WRDS_PASSWORD" in
  Ok (user, password).
End Resolution.

(** ** The broker *)
Definition ENVIRONMENT_KEY : string := "MCP_VENDOR_ENVIRONMENT".

Inductive Attribution :=
| Slot (label : CredentialLabel) (provenance : option SecretProvenance)
| Indeterminate
| Nothing.

Definition slot_of (row : VendorSecret) : CredentialSlot :=
  {| slot_vendor := vs_vendor row; slot_key := vs_secret_key row |}.

Section Broker.
Context `{KeychainBackend B}.
Implicit Types (c : Config) (b : B).

(** The account a row needs, when it is set and not blank. *)
Definition configured_principal c (vendor : string) (row : VendorSecret) : option string :=
  match vs_principal_key row ≫= get_for c vendor with
  | Some value => if is_blank value then None else Some value
  | None => None
  end.

Definition row_resolves c b (vendor : string) (row : VendorSecret) (principal : option string) : bool :=
  match trim <$> get_for c vendor (vs_secret_key row) with
  | Some value => negb (str_is_empty value)
  | None => kc_contains (vs_kind row) vendor (slot_principal row principal) b
  end.

(** The loop of [slot_label]. *)
Fixpoint slot_scan c b (vendor : string) (observable : bool) (rows : list VendorSecret) : Attribution :=
  match rows with
  | [] => if observable then Nothing else Indeterminate
  | row :: rest =>
      if bool_decide (vs_role row = LoginInput) then slot_scan c b vendor observable rest
      else
        let principal := configured_principal c vendor row in
        if bool_decide (is_Some (vs_principal_key row)) && negb (bool_decide (is_Some principal))
        then slot_scan c b vendor observable rest
        else if row_resolves c b vendor row principal
        then Slot (match principal with
                   | Some p => label_principal_slot (slot_of row) p
                   | None => label_slot (slot_of row)
                   end)
                  (secret_provenance c vendor (vs_secret_key row))
        else if negb observable then Indeterminate
        else slot_scan c b vendor observable rest
  end.

Definition slot_label_of c b (vendor : string) : Attribution :=
  slot_scan c b vendor (resolution_is_observable vendor) (rows_for_vendor vendor).
End Broker.

Definition broker_identity (label : CredentialLabel) (vendor : string) (environment : EnvironmentClass)
    (provenance : option SecretProvenance) : UpstreamIdentity :=
  {| up_label := label; up_vendor := vendor; up_environment := environment; up_authority := Shared;
     up_provenance := provenance |}.

Definition environment_of (c : Config) (vendor : string) : EnvironmentClass :=
  default Unclassified (get_for c vendor ENVIRONMENT_KEY ≫= environment_parse).

(** [ConfigCredentialBroker::upstream_identity]; [joined] says whether the
    keychain probe's task returned. *)
Definition config_upstream_identity `{KeychainBackend B} (joined : bool) (b : B) (c : Config) (vendor : string)
    : UpstreamIdentity :=
  let environment := environment_of c vendor in
  match slot_label_of c TheNoKeychain vendor with
  | Slot label provenance => broker_identity label vendor environment provenance
  | Indeterminate => broker_identity (label_indeterminate vendor) vendor environment None
  | Nothing =>
      let '(label, provenance) :=
        match (if joined then slot_label_of c b vendor else Nothing) with
        | Slot label provenance => (label, provenance)
        | Indeterminate => (label_indeterminate vendor, None)
        | Nothing => (label_unconfigured vendor, None)
        end in
      broker_identity label vendor environment provenance
  end.

(** [StaticCredentialBroker]. *)
Definition static_with (vendor : string) (i : UpstreamIdentity) (identities : gmap string UpstreamIdentity)
    : gmap string UpstreamIdentity := <[vendor := i]> identities.
Definition static_upstream_identity (identities : gmap string UpstreamIdentity) (_ : Config) (vendor : string)
    : UpstreamIdentity :=
  default (broker_identity (label_unconfigured vendor) vendor Unclassified None) (identities !! vendor).

(** ** Slots of the operating system's keychain *)

Lemma service_text k vendor :
  service_for k vendor = ("mcp-server-devtools." ++ kind_label k ++ "." ++ vendor)%string.
Proof. by destruct k. Qed.

Lemma legacy_service_text k vendor :
  legacy_service_for k vendor = ("mcp-server-atlassian." ++ kind_label k ++ "." ++ vendor)%string.
Proof.
  apply as_bytes_inj. unfold legacy_service_for. rewrite as_of_bytes, service_text, !as_bytes_app. reflexivity.
Qed.

Lemma kind_label_inj k k' v v' :
  (kind_label k ++ "." ++ v)%string = (kind_label k' ++ "." ++ v')%string -> k = k' /\ v = v'.
Proof.
  intros E%(f_equal as_bytes). rewrite !as_bytes_app in E.
  destruct k, k'; cbn in E; simplify_eq; (split; [done|by apply as_bytes_inj]).
Qed.

Lemma service_for_inj k k' v v' : service_for k v = service_for k' v' -> k = k' /\ v = v'.
Proof. rewrite !service_text. intros E%(inj (String.append _)). by apply kind_label_inj. Qed.

Lemma legacy_service_inj k k' v v' : legacy_service_for k v = legacy_service_for k' v' -> k = k' /\ v = v'.
Proof. rewrite !legacy_service_text. intros E%(inj (String.append _)). by apply kind_label_inj. Qed.

Lemma service_not_legacy k k' v v' : service_for k v <> legacy_service_for k' v'.
Proof. rewrite service_text, legacy_service_text. intros E%(f_equal as_bytes). rewrite !as_bytes_app in E. done. Qed.

(** What the [keyring] crate documents of its entries. *)
Class KeyringLaws (R : Type) `{Keyring R} := {
  set_stores : forall s a v r r', set_password s a v r = (r', Ok tt) -> get_password s a r' = Ok v;
  set_elsewhere : forall s a v r s' a', (s', a') <> (s, a) ->
    get_password s' a' (set_password s a v r).1 = get_password s' a' r;
  delete_removes : forall s a r r' o, delete_credential s a r = (r', o) ->
    o = Ok tt \/ o = Err NoEntry -> get_password s a r' = Err NoEntry;
  delete_elsewhere : forall s a r s' a', (s', a') <> (s, a) ->
    get_password s' a' (delete_credential s a r).1 = get_password s' a' r;
}.

Section Slots.
Context `{KeyringLaws R}.

(** Reading a slot depends on the two entries behind it. *)
Lemma os_get_frame k v p (r r' : R) :
  get_password (service_for k v) p r' = get_password (service_for k v) p r ->
  get_password (legacy_service_for k v) p r' = get_password (legacy_service_for k v) p r ->
  os_get k v p r' = os_get k v p r.
Proof. unfold os_get, os_entry, os_legacy_entry. intros E1 E2. repeat case_match; simplify_eq/=; congruence. Qed.

Lemma other_slot k k' v v' (p p' : string) :
  (k', v', p') <> (k, v, p) ->
  (service_for k' v', p') <> (service_for k v, p) /\ (legacy_service_for k' v', p') <> (service_for k v, p)
  /\ (service_for k' v', p') <> (legacy_service_for k v, p)
  /\ (legacy_service_for k' v', p') <> (legacy_service_for k v, p).
Proof.
  intros N. repeat split; intros [= E <-]; try (by eapply service_not_legacy; eauto).
  - apply service_for_inj in E as [-> ->]. done.
  - apply legacy_service_inj in E as [-> ->]. done.
Qed.

Lemma os_set_slots k v p s (r r' : R) o :
  os_set k v p s r = (r', o) ->
  (o = Ok tt -> os_get k v p r' = Ok (Some s))
  /\ forall k' v' p', (k', v', p') <> (k, v, p) -> os_get k' v' p' r' = os_get k' v' p' r.
Proof.
  unfold os_set. destruct (os_entry k v p) as [svc|e] eqn:Ee; [|by intros [= <- <-]].
  destruct (set_password svc p s r) as [r1 o1] eqn:Es. intros [= <- <-].
  assert (svc = service_for k v) as -> by (unfold os_entry in Ee; by case_match; simplify_eq).
  split.
  - intros E. unfold os_get. rewrite Ee. cbn. rewrite (set_stores _ _ s r); [done|].
    rewrite Es. by destruct o1 as [[]|].
  - intros k' v' p' N. destruct (other_slot _ _ _ _ _ _ N) as (N1 & N2 & _).
    replace r1 with (set_password (service_for k v) p s r).1 by (by rewrite Es).
    by apply os_get_frame; apply set_elsewhere.
Qed.

Lemma os_delete_slots k v p (r r' : R) o :
  os_delete k v p r = (r', o) ->
  (o = Ok tt \/ o = Err KcNotFound -> os_get k v p r' = Ok None)
  /\ forall k' v' p', (k', v', p') <> (k, v, p) -> os_get k' v' p' r' = os_get k' v' p' r.
Proof.
  unfold os_delete. destruct (os_entry k v p) as [svc|e] eqn:Ee;
    [|intros [= <- <-]; split; [|done]; intros [?|?]; simplify_eq; unfold os_entry in Ee; by case_match; simplify_eq].
  assert (svc = service_for k v) as -> by (unfold os_entry in Ee; by case_match; simplify_eq).
  destruct (delete_credential (service_for k v) p r) as [r1 o1] eqn:E1.
  assert (r1 = (delete_credential (service_for k v) p r).1) as H1 by (by rewrite E1).
  destruct (os_legacy_entry k v p) as [l|e] eqn:El; [|intros [= <- <-]; split].
  - assert (l = legacy_service_for k v) as -> by (unfold os_legacy_entry in El; by case_match; simplify_eq).
    destruct (delete_credential (legacy_service_for k v) p r1) as [r2 o2] eqn:E2.
    assert (r2 = (delete_credential (legacy_service_for k v) p r1).1) as H2 by (by rewrite E2).
    intros [= <- Eo]. split.
    + intros Ho.
      assert ((o1 = Ok tt \/ o1 = Err NoEntry) /\ (o2 = Ok tt \/ o2 = Err NoEntry)) as [Ho1 Ho2].
      { destruct o1 as [[]|[]], o2 as [[]|[]], Ho; simplify_eq; auto. }
      unfold os_get. rewrite Ee. cbn. rewrite El. cbn.
      rewrite H2 at 1. rewrite delete_elsewhere by (intros [= E]; by eapply service_not_legacy).
      rewrite (delete_removes _ _ _ _ _ E1 Ho1). by rewrite (delete_removes _ _ _ _ _ E2 Ho2).
    + intros k' v' p' N. destruct (other_slot _ _ _ _ _ _ N) as (N1 & N2 & N3 & N4).
      rewrite H2, H1. by apply os_get_frame; rewrite !delete_elsewhere.
  - intros [?|?]; simplify_eq; unfold os_legacy_entry in El; by case_match; simplify_eq.
  - intros k' v' p' N. destruct (other_slot _ _ _ _ _ _ N) as (N1 & N2 & _).
    rewrite H1. by apply os_get_frame; apply delete_elsewhere.
Qed.
End Slots.

(** ** What resolution returns *)

(** Whether the keychain decides: the literal, or no value at all. *)
Definition keychain_decides (raw : option string) : Prop :=
  match trim <$> raw with Some value => is_keychain_sentinel value = true | None => True end.

Lemma empty_spec s : reflect (s = ""%string) (str_is_empty s).
Proof. apply String.eqb_spec. Qed.

Section Resolved.
Context `{KeychainBackend B}.
Implicit Types (c : Config) (b : B).

Lemma resolve_exact b k vendor principal raw label s :
  resolve_configured_secret b k vendor principal raw label = Ok (Some s) <->
  s <> ""%string
  /\ ((keychain_decides raw /\ kc_get k vendor principal b = Ok (Some s))
      \/ (trim <$> raw = Some s /\ is_keychain_sentinel s = false /\ is_reference s = false)).
Proof.
  unfold resolve_configured_secret, keychain_decides.
  destruct (trim <$> raw) as [value|]; cbn; [destruct (is_keychain_sentinel value) eqn:Es;
    [|destruct (is_reference value) eqn:Er; [|destruct (empty_spec value)]]|];
    try (destruct (kc_get k vendor principal b) as [[t|]|e]; [destruct (empty_spec t)|..]);
    (split; [intros E; simplify_eq; (split; [done|by auto])
            |intros (Hs & [[Hk Hg]|(Hv & Hn & Hr)]); simplify_eq; congruence]).
Qed.

Lemma resolve_error b k vendor principal raw label e :
  resolve_configured_secret b k vendor principal raw label = Err e -> err_kind e = AuthMissing.
Proof. unfold resolve_configured_secret. intros E. by repeat case_match; simplify_eq. Qed.

(** A secret that resolves is one whose row the broker sees as resolving. *)
Lemma resolved_row c b row principal s label :
  resolve_configured_secret b (vs_kind row) (vs_vendor row) (slot_principal row principal)
    (get_for c (vs_vendor row) (vs_secret_key row)) label = Ok (Some s) ->
  row_resolves c b (vs_vendor row) row principal = true.
Proof.
  rewrite resolve_exact. unfold row_resolves, keychain_decides, kc_contains.
  destruct (trim <$> get_for c (vs_vendor row) (vs_secret_key row)) as [value|]; cbn.
  - destruct (empty_spec value) as [->|]; [|done]. intros (Hs & [[Hd _]|([= <-] & _)]); done.
  - intros (Hs & [[_ Hg]|?]); [|naive_solver]. rewrite Hg. by destruct (empty_spec s).
Qed.

Lemma kind_resolved c b vendor k principal_key secret_key p s :
  try_resolve_kind c b vendor k principal_key secret_key = Ok (Some (p, s)) ->
  get_for c vendor principal_key = Some p /\ p <> ""%string
  /\ resolve_configured_secret b k vendor p (get_for c vendor secret_key) secret_key = Ok (Some s).
Proof.
  unfold try_resolve_kind, resolve_kind_with_principal.
  destruct (get_for c vendor principal_key) as [q|]; [|intros; by repeat case_match].
  destruct (is_reference (trim q)); [done|].
  destruct (empty_spec q); [intros; by repeat case_match|].
  destruct (resolve_configured_secret _ _ _ _ _ _) as [[t|]|] eqn:E; cbn; naive_solver.
Qed.
End Resolved.

(** ** The broker's scan *)

Definition label_of (row : VendorSecret) (principal : option string) : CredentialLabel :=
  match principal with
  | Some p => label_principal_slot (slot_of row) p
  | None => label_slot (slot_of row)
  end.

(** A row that can act and has the account it needs. *)
Definition eligible (c : Config) (vendor : string) (row : VendorSecret) : bool :=
  bool_decide (vs_role row = RequestCredential)
  && (bool_decide (vs_principal_key row = None) || bool_decide (is_Some (configured_principal c vendor row))).

Definition acts `{KeychainBackend B} (c : Config) (b : B) (vendor : string) (row : VendorSecret) : bool :=
  eligible c vendor row && row_resolves c b vendor row (configured_principal c vendor row).

Section Scan.
Context `{KeychainBackend B}.
Implicit Types (c : Config) (b : B).

Lemma scan_step c b vendor row rest :
  slot_scan c b vendor true (row :: rest) =
  if acts c b vendor row
  then Slot (label_of row (configured_principal c vendor row)) (secret_provenance c vendor (vs_secret_key row))
  else slot_scan c b vendor true rest.
Proof.
  cbn. unfold acts, eligible. destruct (vs_role row); cbn; [|done].
  destruct (vs_principal_key row) eqn:Ek; cbn.
  - destruct (configured_principal c vendor row); cbn; [|done]. by destruct (row_resolves _ _ _ _ _).
  - destruct (row_resolves _ _ _ _ _); [|done]. by destruct (configured_principal c vendor row).
Qed.

End Scan.

Section Predicted.
Context `{KeychainBackend B}.
Implicit Types (c : Config) (b : B).

Lemma acts_without_keychain c b vendor row : acts c TheNoKeychain vendor row = true -> acts c b vendor row = true.
Proof.
  unfold acts, row_resolves. destruct (eligible c vendor row); [|done].
  by destruct (trim <$> get_for c vendor (vs_secret_key row)).
Qed.

(** A vendor with one row: the two passes agree. *)
Lemma single_row_label c b vendor row :
  rows_for_vendor vendor = [row] -> resolution_is_observable vendor = true ->
  up_label (config_upstream_identity true b c vendor) =
  if acts c b vendor row then label_of row (configured_principal c vendor row) else label_unconfigured vendor.
Proof.
  intros Hr Ho. unfold config_upstream_identity, slot_label_of.
  rewrite Hr, Ho, (scan_step c TheNoKeychain), (scan_step c b).
  destruct (acts c TheNoKeychain vendor row) eqn:E1.
  - by rewrite (acts_without_keychain _ _ _ _ E1).
  - cbn [slot_scan]. by destruct (acts c b vendor row).
Qed.

(** Bitbucket's two rows: the configuration alone is asked first. *)
Lemma two_row_label c b vendor r1 r2 :
  rows_for_vendor vendor = [r1; r2] -> resolution_is_observable vendor = true ->
  up_label (config_upstream_identity true b c vendor) =
  if acts c TheNoKeychain vendor r1 then label_of r1 (configured_principal c vendor r1)
  else if acts c TheNoKeychain vendor r2 then label_of r2 (configured_principal c vendor r2)
  else if acts c b vendor r1 then label_of r1 (configured_principal c vendor r1)
  else if acts c b vendor r2 then label_of r2 (configured_principal c vendor r2)
  else label_unconfigured vendor.
Proof.
  intros Hr Ho. unfold config_upstream_identity, slot_label_of.
  rewrite Hr, Ho, !(scan_step c TheNoKeychain), !(scan_step c b). cbn [slot_scan].
  by repeat case_match; simplify_eq.
Qed.

(** A configured account that resolves acts under exactly that account. *)
Lemma owned_acts c b row pk p s label :
  vs_role row = RequestCredential -> vs_principal_key row = Some pk ->
  get_for c (vs_vendor row) pk = Some p -> is_blank p = false ->
  resolve_configured_secret b (vs_kind row) (vs_vendor row) p
    (get_for c (vs_vendor row) (vs_secret_key row)) label = Ok (Some s) ->
  acts c b (vs_vendor row) row = true /\ configured_principal c (vs_vendor row) row = Some p.
Proof.
  intros Hrole Hpk Hp Hb Hs.
  assert (configured_principal c (vs_vendor row) row = Some p) as Hc
    by (unfold configured_principal; rewrite Hpk; cbn; by rewrite Hp, Hb).
  split; [|done]. unfold acts, eligible. rewrite Hc, Hrole, Hpk. cbn.
  apply (resolved_row c b row (Some p) s label). unfold slot_principal. rewrite Hpk.
  destruct (empty_spec p) as [->|]; [done|]. exact Hs.
Qed.

Lemma token_acts c b row s label :
  vs_role row = RequestCredential -> vs_principal_key row = None ->
  resolve_configured_secret b (vs_kind row) (vs_vendor row) (vs_secret_key row)
    (get_for c (vs_vendor row) (vs_secret_key row)) label = Ok (Some s) ->
  acts c b (vs_vendor row) row = true /\ configured_principal c (vs_vendor row) row = None.
Proof.
  intros Hrole Hpk Hs.
  assert (configured_principal c (vs_vendor row) row = None) as Hc by (unfold configured_principal; by rewrite Hpk).
  split; [|done]. unfold acts, eligible. rewrite Hc, Hrole, Hpk. cbn.
  apply (resolved_row c b row None s label). unfold slot_principal. by rewrite Hpk.
Qed.

(** The plaintext short cut of [vendor_secret] changes nothing. *)
Lemma vendor_secret_shortcut c b vendor key row :
  secret_lookup vendor key = Some row ->
  vendor_secret (Ok tt) c b vendor key = vendor_secret_with c b vendor key.
Proof.
  intros Hl. unfold vendor_secret. destruct (config_non_blank c vendor key) as [value|] eqn:Ev; [|done].
  destruct (is_keychain_sentinel value) eqn:Es; [done|]. unfold vendor_secret_with. rewrite Hl.
  unfold resolve_kind_with_principal, resolve_configured_secret, config_non_blank in *.
  destruct (trim <$> get_for c vendor key) as [t|]; [|done].
  destruct (empty_spec t); simplify_eq. rewrite Es. destruct (is_reference value); [done|].
  destruct (empty_spec value); [done|]. reflexivity.
Qed.

Lemma vendor_secret_resolved c b vendor key row s :
  secret_lookup vendor key = Some row -> vendor_secret (Ok tt) c b vendor key = Ok (Some s) ->
  resolve_configured_secret b (vs_kind row) vendor
    (slot_principal row (vs_principal_key row ≫= config_non_blank c vendor)) (get_for c vendor key) key = Ok (Some s).
Proof.
  intros Hl. rewrite (vendor_secret_shortcut _ _ _ _ _ Hl). unfold vendor_secret_with, resolve_kind_with_principal.
  rewrite Hl. destruct (resolve_configured_secret _ _ _ _ _ _) as [[t|]|]; cbn; congruence.
Qed.
End Predicted.

(** ** The registry's shape, by evaluation *)
Lemma registry_keys row :
  row ∈ VENDOR_SECRETS -> secret_lookup (vs_vendor row) (vs_secret_key row) = Some row.
Proof.
  revert row. apply Forall_forall. apply (bool_decide_unpack _). vm_compute. done.
Qed.

Lemma registry_single row :
  row ∈ VENDOR_SECRETS -> vs_vendor row <> "bitbucket"%string -> vs_vendor row <> "ninjaone"%string ->
  rows_for_vendor (vs_vendor row) = [row].
Proof.
  intros Hrow N1 N2. revert row Hrow N1 N2.
  assert (Forall (fun row => vs_vendor row = "bitbucket"%string \/ vs_vendor row = "ninjaone"%string
                             \/ rows_for_vendor (vs_vendor row) = [row]) VENDOR_SECRETS) as HF
    by (apply (bool_decide_unpack _); vm_compute; done).
  rewrite Forall_forall in HF. intros row Hrow N1 N2. by destruct (HF _ Hrow) as [?|[?|?]].
Qed.

(** No account setting and no environment class is itself a secret. *)
Lemma registry_public row pk :
  row ∈ VENDOR_SECRETS -> vs_principal_key row = Some pk -> lookup_by_key pk = None.
Proof.
  intros Hrow Hpk.
  assert (Forall (fun row => Forall (fun other => Some (vs_secret_key other) <> vs_principal_key row) VENDOR_SECRETS)
            VENDOR_SECRETS) as HF by (apply (bool_decide_unpack _); vm_compute; done).
  rewrite Forall_forall in HF. specialize (HF _ Hrow). rewrite Forall_forall in HF.
  destruct (lookup_by_key pk) as [other|] eqn:E; [|done].
  apply List.find_some in E as [Hin Hb]. apply list_elem_of_In in Hin.
  destruct (HF _ Hin). rewrite Hpk. f_equal. by apply String.eqb_eq.
Qed.

Lemma environment_public : lookup_by_key ENVIRONMENT_KEY = None.
Proof. reflexivity. Qed.

(** ** The broker against the resolver *)

(** [Credentials::principal]. *)
Definition credential_principal (creds : Credentials) : string :=
  match creds with
  | AtlassianApiToken email _ => email
  | BitbucketAppPassword username _ => username
  | Bearer _ => "bearer"
  | ApiKeyHeader _ _ => "api-key"
  end.

(** The label of the slot a resolved credential came from. *)
Definition credential_label (vendor : string) (creds : Credentials) : CredentialLabel :=
  match creds with
  | AtlassianApiToken email _ =>
      label_principal_slot {| slot_vendor := vendor; slot_key := "ATLASSIAN_API_TOKEN" |} email
  | BitbucketAppPassword username _ =>
      label_principal_slot {| slot_vendor := vendor; slot_key := "ATLASSIAN_BITBUCKET_APP_PASSWORD" |} username
  | Bearer _ | ApiKeyHeader _ _ => label_unconfigured vendor
  end.

Definition bitbucket_app : VendorSecret :=
  owned_row "bitbucket" "ATLASSIAN_BITBUCKET_APP_PASSWORD" "ATLASSIAN_BITBUCKET_USERNAME" AppPassword.

(** The one case in which the configuration alone is not enough: Bitbucket's
    API token is only in the keychain and an app password is configured. *)
Definition pre_empted `{KeychainBackend B} (b : B) (c : Config) (vendor : string) (creds : Credentials) : Prop :=
  vendor = "bitbucket"%string
  /\ (exists email token, creds = AtlassianApiToken email token)
  /\ get_for c vendor "ATLASSIAN_API_TOKEN" = None
  /\ acts c TheNoKeychain vendor bitbucket_app = true.

Definition predicted `{KeychainBackend B} (b : B) (c : Config) (vendor : string) : CredentialLabel :=
  up_label (config_upstream_identity true b c vendor).

Section Agreement.
Context `{KeychainBackend B}.
Implicit Types (c : Config) (b : B).

Definition atlassian_row (vendor : string) : VendorSecret :=
  owned_row vendor "ATLASSIAN_API_TOKEN" "ATLASSIAN_USER_EMAIL" ApiToken.

Lemma resolve_with_for_cases c b vendor creds :
  resolve_with_for c b vendor = Ok (Some creds) ->
  (exists email token, creds = AtlassianApiToken email token
     /\ try_resolve_kind c b vendor ApiToken "ATLASSIAN_USER_EMAIL" "ATLASSIAN_API_TOKEN" = Ok (Some (email, token)))
  \/ (exists username password, creds = BitbucketAppPassword username password /\ vendor = "bitbucket"%string
     /\ try_resolve_kind c b vendor ApiToken "ATLASSIAN_USER_EMAIL" "ATLASSIAN_API_TOKEN" = Ok None
     /\ try_resolve_kind c b vendor AppPassword "ATLASSIAN_BITBUCKET_USERNAME" "ATLASSIAN_BITBUCKET_APP_PASSWORD"
        = Ok (Some (username, password))).
Proof.
  unfold resolve_with_for.
  destruct (try_resolve_kind c b vendor ApiToken _ _) as [[[email token]|]|e]; cbn; [|destruct (String.eqb_spec vendor "bitbucket") as [->|]|done].
  - intros [= <-]. left. eauto.
  - destruct (try_resolve_kind c b _ AppPassword _ _) as [[[u p]|]|e] eqn:E; cbn; intros; simplify_eq. right. eauto 10.
  - done.
Qed.

(** When the API token does not resolve, its row does not act either. *)
Lemma unresolved_row_idle c b vendor :
  try_resolve_kind c b vendor ApiToken "ATLASSIAN_USER_EMAIL" "ATLASSIAN_API_TOKEN" = Ok None ->
  acts c b vendor (atlassian_row vendor) = false.
Proof.
  unfold try_resolve_kind, acts, eligible, configured_principal, row_resolves, slot_principal, atlassian_row, owned_row.
  cbn [vs_role vs_principal_key vs_secret_key vs_kind].
  change (Some "ATLASSIAN_USER_EMAIL"%string ≫= get_for c vendor) with (get_for c vendor "ATLASSIAN_USER_EMAIL").
  destruct (get_for c vendor "ATLASSIAN_USER_EMAIL") as [p|] eqn:Ep; [|done].
  destruct (is_blank p) eqn:Eb; [done|]. destruct (is_reference (trim p)); [done|].
  destruct (empty_spec p) as [->|Np]; [done|]. cbn.
  destruct (empty_spec p) as [->|_]; [done|].
  unfold resolve_kind_with_principal, resolve_configured_secret, kc_contains.
  destruct (trim <$> get_for c vendor "ATLASSIAN_API_TOKEN") as [v|]; cbn.
  - intros E. destruct (empty_spec v); [done|].
    destruct (is_keychain_sentinel v); [|by destruct (is_reference v)].
    destruct (kc_get _ _ _ _) as [[t|]|]; cbn in E; try done. by destruct (empty_spec t).
  - destruct (kc_get _ _ _ _) as [[t|]|]; cbn; try done. by destruct (empty_spec t).
Qed.

Lemma atlassian_prediction c b vendor creds :
  vendor ∈ ["jira"; "confluence"; "bitbucket"]%string ->
  resolve_with_for c b vendor = Ok (Some creds) -> is_blank (credential_principal creds) = false ->
  predicted b c vendor = credential_label vendor creds \/ pre_empted b c vendor creds.
Proof.
  intros Hv [(email & token & -> & Ht)|(u & p & -> & -> & Hn & Ht)]%resolve_with_for_cases Hb; cbn in Hb;
    apply kind_resolved in Ht as (Hp & _ & Hs).
  - destruct (owned_acts c b (atlassian_row vendor) "ATLASSIAN_USER_EMAIL" email token
      "ATLASSIAN_API_TOKEN" eq_refl eq_refl Hp Hb Hs) as [Ha Hc]. cbn [vs_vendor atlassian_row owned_row] in *.
    assert (rows_for_vendor vendor = [atlassian_row vendor] \/ vendor = "bitbucket"%string) as [Hr| ->]
      by (repeat (apply elem_of_cons in Hv as [->|Hv]; [by auto|]); by apply elem_of_nil in Hv).
    + left. unfold predicted. rewrite (single_row_label c b _ _ Hr), Ha, Hc; [done|].
      repeat (apply elem_of_cons in Hv as [->|Hv]; [done|]). by apply elem_of_nil in Hv.
    + unfold predicted. rewrite (two_row_label c b "bitbucket" (atlassian_row "bitbucket") bitbucket_app eq_refl eq_refl).
      rewrite Hc, Ha. destruct (acts c TheNoKeychain "bitbucket" (atlassian_row "bitbucket")) eqn:E1; [by left|].
      destruct (acts c TheNoKeychain "bitbucket" bitbucket_app) eqn:E2; [|by left]. right.
      split_and!; [done|by eauto| |done].
      destruct (get_for c "bitbucket" "ATLASSIAN_API_TOKEN") as [t|] eqn:Et; [|done]. exfalso.
      apply not_true_iff_false in E1. apply E1. unfold acts in *.
      apply andb_true_iff in Ha as [He Hr]. rewrite He. unfold row_resolves in *.
      change (vs_secret_key (atlassian_row "bitbucket")) with "ATLASSIAN_API_TOKEN"%string in *.
      by rewrite Et in *.
  - left. destruct (owned_acts c b bitbucket_app "ATLASSIAN_BITBUCKET_USERNAME" u p
      "ATLASSIAN_BITBUCKET_APP_PASSWORD" eq_refl eq_refl Hp Hb Hs) as [Ha Hc].
    apply unresolved_row_idle in Hn. unfold predicted.
    rewrite (two_row_label c b "bitbucket" (atlassian_row "bitbucket") bitbucket_app eq_refl eq_refl).
    cbn [vs_vendor bitbucket_app owned_row] in *. rewrite Hn, Ha, Hc.
    destruct (acts c TheNoKeychain "bitbucket" (atlassian_row "bitbucket")) eqn:E1;
      [|by destruct (acts c TheNoKeychain "bitbucket" bitbucket_app)].
    by rewrite (acts_without_keychain c b _ _ E1) in Hn.
Qed.
End Agreement.

Section OtherVendors.
Context `{KeychainBackend B}.
Implicit Types (c : Config) (b : B).

Lemma vendor_token_ok c b missing vendor key s :
  vendor_token missing (Ok tt) c b vendor key = Ok s -> vendor_secret (Ok tt) c b vendor key = Ok (Some s).
Proof. unfold vendor_token. destruct (vendor_secret _ _ _ _ _) as [[t|]|]; cbn; congruence. Qed.

Lemma token_prediction c b missing row s :
  row ∈ VENDOR_SECRETS -> vs_role row = RequestCredential -> vs_vendor row <> "ninjaone"%string ->
  vs_principal_key row = None ->
  vendor_token missing (Ok tt) c b (vs_vendor row) (vs_secret_key row) = Ok s ->
  predicted b c (vs_vendor row) = label_slot (slot_of row).
Proof.
  intros Hrow Hrole Hn Hpk Hs%vendor_token_ok.
  apply (vendor_secret_resolved _ _ _ _ _ _ (registry_keys row Hrow)) in Hs.
  unfold slot_principal in Hs. rewrite Hpk in Hs.
  destruct (token_acts c b row s _ Hrole Hpk Hs) as [Ha Hc].
  assert (vs_vendor row <> "bitbucket"%string) as Hb.
  { clear -Hrow Hpk. revert row Hrow Hpk.
    assert (Forall (fun row => vs_principal_key row = None -> vs_vendor row <> "bitbucket"%string) VENDOR_SECRETS) as HF
      by (apply (bool_decide_unpack _); vm_compute; done).
    by rewrite Forall_forall in HF. }
  unfold predicted. rewrite (single_row_label c b _ _ (registry_single row Hrow Hb Hn)), Ha, Hc; [done|].
  unfold resolution_is_observable. destruct (String.eqb_spec (vs_vendor row) "ninjaone"); done.
Qed.

(** Zoom and WRDS: an account that carries no surrounding whitespace. *)
Lemma owned_prediction c b missing row pk account s :
  row ∈ VENDOR_SECRETS -> vs_role row = RequestCredential -> vs_vendor row <> "bitbucket"%string ->
  vs_vendor row <> "ninjaone"%string ->
  vs_principal_key row = Some pk -> require_cred missing c (vs_vendor row) pk = Ok account ->
  get_for c (vs_vendor row) pk = Some account ->
  vendor_token (missing (vs_secret_key row)) (Ok tt) c b (vs_vendor row) (vs_secret_key row) = Ok s ->
  predicted b c (vs_vendor row) = label_principal_slot (slot_of row) account.
Proof.
  intros Hrow Hrole Hb Hn Hpk Hr Hp Hs%vendor_token_ok.
  apply (vendor_secret_resolved _ _ _ _ _ _ (registry_keys row Hrow)) in Hs.
  unfold require_cred in Hr. unfold slot_principal in Hs. rewrite Hpk in Hs. cbn in Hs.
  destruct (config_non_blank c (vs_vendor row) pk) as [v|] eqn:Ev; simplify_eq.
  unfold config_non_blank in Ev. rewrite Hp in Ev. cbn in Ev.
  destruct (str_is_empty (trim account)) eqn:Et; [done|]. injection Ev as Ev. rewrite Ev in Et. rewrite Et in Hs.
  destruct (owned_acts c b row pk account s (vs_secret_key row) Hrole Hpk Hp) as [Ha Hc];
    [unfold is_blank; by rewrite Ev|exact Hs|].
  unfold predicted. rewrite (single_row_label c b _ _ (registry_single row Hrow Hb Hn)), Ha, Hc; [done|].
  unfold resolution_is_observable. destruct (String.eqb_spec (vs_vendor row) "ninjaone"); done.
Qed.

(** NinjaOne: the access token when its setting is not blank, or no claim. *)
Lemma ninjaone_prediction c b :
  match get_for c "ninjaone" "NINJAONE_ACCESS_TOKEN" with
  | Some v =>
      if is_blank v then predicted b c "ninjaone" = label_indeterminate "ninjaone"
      else predicted b c "ninjaone" = label_slot {| slot_vendor := "ninjaone"; slot_key := "NINJAONE_ACCESS_TOKEN" |}
           /\ vendor_secret (Ok tt) c b "ninjaone" "NINJAONE_ACCESS_TOKEN" <> Ok None
  | None => predicted b c "ninjaone" = label_indeterminate "ninjaone"
  end.
Proof.
  unfold predicted, config_upstream_identity, slot_label_of.
  change (resolution_is_observable "ninjaone") with false.
  change (rows_for_vendor "ninjaone") with
    [login_input "ninjaone" "NINJAONE_PASSWORD" "NINJAONE_EMAIL" Password;
     login_input "ninjaone" "NINJAONE_TOTP_SECRET" "NINJAONE_EMAIL" TotpSecret;
     token_row "ninjaone" "NINJAONE_ACCESS_TOKEN"; token_row "ninjaone" "NINJAONE_SESSION_KEY";
     token_row "ninjaone" "NINJAONE_SESSION_COOKIE"]%string.
  cbn -[row_resolves get_for]. unfold row_resolves, configured_principal. cbn -[get_for].
  destruct (get_for c "ninjaone" "NINJAONE_ACCESS_TOKEN") as [raw|] eqn:Eg; [|done].
  unfold is_blank. cbn. set (v := trim raw). destruct (empty_spec v) as [->|Nv]; [done|]. split; [done|].
  rewrite (vendor_secret_shortcut c b "ninjaone" "NINJAONE_ACCESS_TOKEN" (token_row "ninjaone" "NINJAONE_ACCESS_TOKEN") eq_refl).
  unfold vendor_secret_with, resolve_kind_with_principal, resolve_configured_secret.
  change (secret_lookup "ninjaone" "NINJAONE_ACCESS_TOKEN") with (Some (token_row "ninjaone" "NINJAONE_ACCESS_TOKEN")).
  rewrite Eg. cbn. fold v. destruct (is_keychain_sentinel v).
  - destruct (kc_get _ _ _ _) as [[t|]|]; try done. by destruct (empty_spec t).
  - destruct (is_reference v); [done|]. by destruct (empty_spec v).
Qed.
End OtherVendors.

(** ** Indistinguishable worlds *)

(** What of a setting may decide a label: whether it is there, and blank. *)
Definition presence (setting : option string) : option bool := (fun v => is_blank v) <$> setting.

(** Two worlds, a configuration and a keychain each, that differ in secret
    values only. *)
Record same_but_secrets `{KeychainBackend B} (w1 w2 : Config * B) : Prop := {
  sbs_settings : forall vendor key, lookup_by_key key = None -> get_for w1.1 vendor key = get_for w2.1 vendor key;
  sbs_presence : forall vendor key, presence (get_for w1.1 vendor key) = presence (get_for w2.1 vendor key);
  sbs_keychain : forall k v p, kc_contains k v p w1.2 = kc_contains k v p w2.2;
}.

#[export] Instance same_but_secrets_equivalence `{KeychainBackend B} : Equivalence (@same_but_secrets B _).
Proof.
  split.
  - by intros w.
  - intros w1 w2 [S P K]. split; intros; symmetry; auto.
  - intros w1 w2 w3 [S1 P1 K1] [S2 P2 K2]. split; intros.
    + rewrite S1 by done. by apply S2.
    + by rewrite P1.
    + by rewrite K1.
Qed.

(** An identity without the provenance of the secret's value. *)
Definition public_identity (i : UpstreamIdentity) : CredentialLabel * string * EnvironmentClass * UpstreamAuthority :=
  (up_label i, up_vendor i, up_environment i, up_authority i).

Definition attribution_label (a : Attribution) : option (option CredentialLabel) :=
  match a with Slot label _ => Some (Some label) | Indeterminate => Some None | Nothing => None end.

Section Noninterference.
Context `{KeychainBackend B}.
Implicit Types w : Config * B.

Lemma principal_same w1 w2 vendor row :
  same_but_secrets w1 w2 -> row ∈ VENDOR_SECRETS ->
  configured_principal w1.1 vendor row = configured_principal w2.1 vendor row.
Proof.
  intros Hw Hrow. unfold configured_principal. destruct (vs_principal_key row) as [pk|] eqn:E; [|done].
  cbn. by rewrite (sbs_settings _ _ Hw vendor pk (registry_public row pk Hrow E)).
Qed.

Lemma resolves_same {B1 B2} `{KeychainBackend B1, KeychainBackend B2} (c1 c2 : Config) (b1 : B1) (b2 : B2) vendor row p :
  presence (get_for c1 vendor (vs_secret_key row)) = presence (get_for c2 vendor (vs_secret_key row)) ->
  kc_contains (vs_kind row) vendor (slot_principal row p) b1 = kc_contains (vs_kind row) vendor (slot_principal row p) b2 ->
  row_resolves c1 b1 vendor row p = row_resolves c2 b2 vendor row p.
Proof.
  unfold row_resolves, presence, is_blank.
  destruct (get_for c1 _ _), (get_for c2 _ _); cbn; try done. by intros [= ->].
Qed.

Lemma scan_same {B'} `{KeychainBackend B'} w1 w2 (b1 b2 : B') vendor observable rows :
  same_but_secrets w1 w2 -> (forall k v p, kc_contains k v p b1 = kc_contains k v p b2) ->
  rows ⊆ VENDOR_SECRETS ->
  attribution_label (slot_scan w1.1 b1 vendor observable rows)
  = attribution_label (slot_scan w2.1 b2 vendor observable rows).
Proof.
  intros Hw Hb. induction rows as [|row rows IH]; intros Hsub; [done|].
  assert (row ∈ VENDOR_SECRETS) as Hrow by (apply Hsub; left).
  assert (rows ⊆ VENDOR_SECRETS) as Hrows by (intros x Hx; apply Hsub; by right).
  cbn [slot_scan]. rewrite (principal_same w1 w2 vendor row Hw Hrow).
  rewrite (resolves_same w1.1 w2.1 b1 b2 vendor row _ (sbs_presence _ _ Hw _ _) (Hb _ _ _)).
  specialize (IH Hrows). by repeat case_match.
Qed.

Lemma rows_registered vendor : rows_for_vendor vendor ⊆ VENDOR_SECRETS.
Proof. intros row. unfold rows_for_vendor. rewrite !list_elem_of_In. intros [? _]%List.filter_In. done. Qed.

Lemma public_identity_same joined w1 w2 vendor :
  same_but_secrets w1 w2 ->
  public_identity (config_upstream_identity joined w1.2 w1.1 vendor)
  = public_identity (config_upstream_identity joined w2.2 w2.1 vendor).
Proof.
  intros Hw. unfold config_upstream_identity, environment_of.
  rewrite (sbs_settings _ _ Hw vendor _ environment_public).
  pose proof (scan_same w1 w2 TheNoKeychain TheNoKeychain vendor (resolution_is_observable vendor) _ Hw
    (fun _ _ _ => eq_refl) (rows_registered vendor)) as H1.
  pose proof (scan_same w1 w2 w1.2 w2.2 vendor (resolution_is_observable vendor) _ Hw
    (sbs_keychain _ _ Hw) (rows_registered vendor)) as H2.
  unfold slot_label_of.
  destruct (slot_scan w1.1 TheNoKeychain _ _ _), (slot_scan w2.1 TheNoKeychain _ _ _); simplify_eq/=; try done.
  destruct joined; [|done].
  by destruct (slot_scan w1.1 w1.2 _ _ _), (slot_scan w2.1 w2.2 _ _ _); simplify_eq/=.
Qed.

#[export] Instance public_identity_proper joined :
  Proper (same_but_secrets ==> eq ==> eq)
    (fun w vendor => public_identity (config_upstream_identity joined w.2 w.1 vendor)).
Proof. intros w1 w2 Hw vendor ? <-. by apply public_identity_same. Qed.
End Noninterference.

(** ** The theorems *)

(** C9: The broker names the slot that acts.  Whenever Jira, Confluence or
    Bitbucket credentials resolve under an account that is not blank, the
    identity recorded before dispatch names that slot and that account, except
    in one case, stated exactly: Bitbucket with an API token that is only in the
    keychain and an app password in the configuration.  Every single-token
    vendor's token that resolves is named by its own slot; Zoom's client secret
    and WRDS's password are named by their slot and account when the configured
    account carries no surrounding white space.  For NinjaOne, whose live
    sessions the broker cannot see, it names the access token exactly when the
    configuration holds a value for it that is not blank, in which case the
    request path does not find that slot empty, and otherwise makes no claim. *)
Theorem broker_names_acting_slot `{KeychainBackend B} (b : B) (c : Config) missing :
  (forall vendor creds, vendor ∈ ["jira"; "confluence"; "bitbucket"]%string ->
     resolve_with_for c b vendor = Ok (Some creds) -> is_blank (credential_principal creds) = false ->
     predicted b c vendor = credential_label vendor creds \/ pre_empted b c vendor creds)
  /\ (forall row s, row ∈ VENDOR_SECRETS -> vs_role row = RequestCredential ->
       vs_vendor row <> "ninjaone"%string -> vs_principal_key row = None ->
       vendor_token (missing (vs_secret_key row)) (Ok tt) c b (vs_vendor row) (vs_secret_key row) = Ok s ->
       predicted b c (vs_vendor row) = label_slot (slot_of row))
  /\ (forall account client secret, zoom_inputs missing (Ok tt) c b = Ok (account, client, secret) ->
       get_for c "zoom" "ZOOM_CLIENT_ID" = Some client ->
       predicted b c "zoom" = label_principal_slot {| slot_vendor := "zoom"; slot_key := "ZOOM_CLIENT_SECRET" |} client)
  /\ (forall user password, wrds_login missing (Ok tt) c b = Ok (user, password) ->
       get_for c "wrds" "WRDS_USERNAME" = Some user ->
       predicted b c "wrds" = label_principal_slot {| slot_vendor := "wrds"; slot_key := "WRDS_PASSWORD" |} user)
  /\ match get_for c "ninjaone" "NINJAONE_ACCESS_TOKEN" with
     | Some v =>
         if is_blank v then predicted b c "ninjaone" = label_indeterminate "ninjaone"
         else predicted b c "ninjaone" = label_slot {| slot_vendor := "ninjaone"; slot_key := "NINJAONE_ACCESS_TOKEN" |}
              /\ vendor_secret (Ok tt) c b "ninjaone" "NINJAONE_ACCESS_TOKEN" <> Ok None
     | None => predicted b c "ninjaone" = label_indeterminate "ninjaone"
     end.
Proof.
  split_and!.
  - intros; by apply atlassian_prediction.
  - intros row s Hrow Hrole Hn Hpk Hs. by apply (token_prediction c b _ row s Hrow Hrole Hn Hpk Hs).
  - intros account client secret Hz Hg. unfold zoom_inputs in Hz.
    destruct (require_cred missing c "zoom" "ZOOM_ACCOUNT_ID"); [|done]. cbn in Hz.
    destruct (require_cred missing c "zoom" "ZOOM_CLIENT_ID") as [i|] eqn:Ei; [|done]. cbn in Hz.
    destruct (vendor_token _ _ _ _ _ _) as [t|] eqn:Et; [|done]. cbn in Hz. simplify_eq.
    apply (owned_prediction c b missing (owned_row "zoom" "ZOOM_CLIENT_SECRET" "ZOOM_CLIENT_ID" Token)
      "ZOOM_CLIENT_ID" client secret); try done. by apply (bool_decide_unpack _).
  - intros user password Hw Hg. unfold wrds_login in Hw.
    destruct (require_cred missing c "wrds" "WRDS_USERNAME") as [i|] eqn:Ei; [|done]. cbn in Hw.
    destruct (vendor_token _ _ _ _ _ _) as [t|] eqn:Et; [|done]. cbn in Hw. simplify_eq.
    apply (owned_prediction c b missing (owned_row "wrds" "WRDS_PASSWORD" "WRDS_USERNAME" Password)
      "WRDS_USERNAME" user password); try done. by apply (bool_decide_unpack _).
  - apply ninjaone_prediction.
Qed.

(** The recorded identity depends on no secret.  Two deployments whose
    settings agree except in the values of registered secrets, and whose
    keychains hold entries under the same slots, get the same label, vendor,
    environment class and authority for every vendor, whether or not the
    keychain probe returned: rotating a secret never moves the identity and no
    part of a secret can reach an audit record through it. *)
Theorem broker_label_secret_free `{KeychainBackend B} joined (w1 w2 : Config * B) vendor :
  same_but_secrets w1 w2 ->
  public_identity (config_upstream_identity joined w1.2 w1.1 vendor)
  = public_identity (config_upstream_identity joined w2.2 w2.1 vendor).
Proof. apply public_identity_same. Qed.

(** Resolution, exactly.  A configured secret resolves to [s] precisely when
    [s] is not empty and is either the keychain's entry for exactly this kind,
    vendor and principal, asked because the value is the keychain literal or
    absent, or the trimmed configured value, which is then neither that literal
    nor an unresolved reference; every failure is a missing-authentication
    error; and the request path's short cuts (plaintext decided before a
    blocking task is started) give the same result as the full cascade. *)
Theorem secret_resolution_exact `{KeychainBackend B} (b : B) (c : Config) k vendor principal raw label :
  (forall s, resolve_configured_secret b k vendor principal raw label = Ok (Some s) <->
     s <> ""%string
     /\ ((keychain_decides raw /\ kc_get k vendor principal b = Ok (Some s))
         \/ (trim <$> raw = Some s /\ is_keychain_sentinel s = false /\ is_reference s = false)))
  /\ (forall e, resolve_configured_secret b k vendor principal raw label = Err e -> err_kind e = AuthMissing)
  /\ resolve_configured_secret_async (Ok tt) b k vendor principal raw label
      = resolve_configured_secret b k vendor principal raw label
  /\ (forall row, row ∈ VENDOR_SECRETS ->
       vendor_secret (Ok tt) c b (vs_vendor row) (vs_secret_key row)
       = vendor_secret_with c b (vs_vendor row) (vs_secret_key row)).
Proof.
  split_and!.
  - intros s. apply resolve_exact.
  - apply resolve_error.
  - unfold resolve_configured_secret_async, resolve_configured_secret. destruct (trim <$> raw) as [v|]; [|done].
    destruct (is_keychain_sentinel v); [done|]. destruct (empty_spec v) as [->|]; [done|].
    by destruct (is_reference v).
  - intros row Hrow. apply (vendor_secret_shortcut c b _ _ row), registry_keys, Hrow.
Qed.

(** Keychain slots.  Through the operating system's keychain a stored secret
    reads back, a deleted one is gone, also where an entry of the former
    service name was left behind it, and neither operation touches any other
    (kind, vendor, principal). *)
Theorem keychain_slots_isolated `{KeyringLaws R} k vendor principal secret (r r' : R) o :
  (os_set k vendor principal secret r = (r', o) ->
   (o = Ok tt -> os_get k vendor principal r' = Ok (Some secret))
   /\ forall k' v' p', (k', v', p') <> (k, vendor, principal) -> os_get k' v' p' r' = os_get k' v' p' r)
  /\ (os_delete k vendor principal r = (r', o) ->
      (o = Ok tt \/ o = Err KcNotFound -> os_get k vendor principal r' = Ok None)
      /\ forall k' v' p', (k', v', p') <> (k, vendor, principal) -> os_get k' v' p' r' = os_get k' v' p' r).
Proof. split; [apply os_set_slots|apply os_delete_slots]. Qed.

(** A Bitbucket call served by the API token in the keychain is recorded under
    the configured app password's account. *)
Theorem broker_misattributes_keychain_token :
  let c := from_map (<["ATLASSIAN_USER_EMAIL" := "alice@example.com"]>
             (<["ATLASSIAN_BITBUCKET_USERNAME" := "bob"]>
             (<["ATLASSIAN_BITBUCKET_APP_PASSWORD" := "pw"]> ∅)))%string in
  let b : InMemory := {[ (ApiToken, "bitbucket", "alice@example.com") := "tok" ]}%string in
  resolve_with_for c b "bitbucket" = Ok (Some (AtlassianApiToken "alice@example.com" "tok"))
  /\ predicted b c "bitbucket" = "bitbucket/ATLASSIAN_BITBUCKET_APP_PASSWORD/bob"%string.
Proof. vm_compute. by split. Qed.

(** A Zoom account configured with surrounding white space, its secret in the
    keychain under the account itself: the request path trims the account and
    finds the secret, the broker does not and records the vendor as
    unconfigured. *)
Theorem broker_misses_padded_account :
  let c := from_map (<["ZOOM_ACCOUNT_ID" := "a"]> (<["ZOOM_CLIENT_ID" := " id "]> ∅))%string in
  let b : InMemory := {[ (Token, "zoom", "id") := "tok" ]}%string in
  zoom_inputs auth_missing (Ok tt) c b = Ok ("a", "id", "tok")%string
  /\ predicted b c "zoom" = "zoom/unconfigured"%string.
Proof. vm_compute. by split. Qed.

(** Mend is always recorded as unconfigured, also when its calls succeed. *)
Theorem broker_calls_mend_unconfigured `{KeychainBackend B} joined (b : B) c :
  up_label (config_upstream_identity joined b c "mend") = "mend/unconfigured"%string.
Proof. by destruct joined. Qed.

(** ** Concrete instances *)
Module CredentialWitness.

Abbreviation Entries := (gmap (string * string) string).

#[local] Instance toy_keyring : Keyring Entries := {|
  entry_new := fun _ _ => Ok tt;
  get_password := fun s a r => match r !! (s, a) with Some v => Ok v | None => Err NoEntry end;
  set_password := fun s a v r => (<[(s, a) := v]> r, Ok tt);
  delete_credential := fun s a r => match r !! (s, a) with Some _ => (delete (s, a) r, Ok tt) | None => (r, Err NoEntry) end;
  keyring_text := fun e => match e with NoEntry => "no entry" | OtherError m => m end%string |}.

#[local] Instance toy_keyring_laws : KeyringLaws Entries.
Proof.
  split; cbn.
  - intros s a v r r' [= <-]. by rewrite lookup_insert_eq.
  - intros s a v r s' a' N. by rewrite lookup_insert_ne by congruence.
  - intros s a r r' o E _. destruct (r !! (s, a)) eqn:Er; simplify_eq; [by rewrite lookup_delete_eq|by rewrite Er].
  - intros s a r s' a' N. destruct (r !! (s, a)) eqn:Er; cbn; [|done]. by rewrite lookup_delete_ne by congruence.
Defined.

Definition old_entry : Entries := {[ ("mcp-server-atlassian.api-token.jira", "alice") := "legacy" ]}%string.

Lemma keychain_slots_isolated_witness :
  os_get ApiToken "jira" "alice" (os_delete ApiToken "jira" "alice" old_entry).1 = Ok None.
Proof.
  assert (os_delete ApiToken "jira" "alice" old_entry
          = ((os_delete ApiToken "jira" "alice" old_entry).1, Ok tt)) as E by (vm_compute; reflexivity).
  apply (proj1 (proj2 (keychain_slots_isolated ApiToken "jira" "alice" "new" old_entry
    (os_delete ApiToken "jira" "alice" old_entry).1 (Ok tt)) E)). by left.
Defined.

(** A deployment with all five kinds of credential, two of them in the keychain. *)
Definition deployed : Config :=
  from_map (<["ATLASSIAN_USER_EMAIL" := "alice@example.com"]>
           (<["ZOOM_ACCOUNT_ID" := "a"]> (<["ZOOM_CLIENT_ID" := "id"]> (<["ZOOM_CLIENT_SECRET" := "s"]>
           (<["WRDS_USERNAME" := "u"]> (<["SLACK_TOKEN" := "xoxb"]> (<["NINJAONE_ACCESS_TOKEN" := "n"]> ∅)))))))%string.
Definition deployed_keychain : InMemory :=
  {[ (ApiToken, "jira", "alice@example.com") := "tok"; (Password, "wrds", "u") := "pw" ]}%string.

Lemma broker_names_acting_slot_witness :
  predicted deployed_keychain deployed "jira" = "jira/ATLASSIAN_API_TOKEN/alice@example.com"%string
  /\ predicted deployed_keychain deployed "slack" = "slack/SLACK_TOKEN"%string
  /\ predicted deployed_keychain deployed "zoom" = "zoom/ZOOM_CLIENT_SECRET/id"%string
  /\ predicted deployed_keychain deployed "wrds" = "wrds/WRDS_PASSWORD/u"%string
  /\ predicted deployed_keychain deployed "ninjaone" = "ninjaone/NINJAONE_ACCESS_TOKEN"%string.
Proof.
  destruct (broker_names_acting_slot deployed_keychain deployed auth_missing) as (Hj & Ht & Hz & Hw & Hn).
  split; [|split; [|split; [|split]]].
  - destruct (Hj "jira"%string (AtlassianApiToken "alice@example.com" "tok")) as [E|(E & _)].
    + apply list_elem_of_In. left. reflexivity.
    + vm_compute. reflexivity.
    + vm_compute. reflexivity.
    + exact E.
    + discriminate E.
  - apply (Ht (token_row "slack" "SLACK_TOKEN") "xoxb"%string);
      [by apply (bool_decide_unpack _)|reflexivity|discriminate|reflexivity|vm_compute; reflexivity].
  - apply (Hz "a" "id" "s")%string; vm_compute; reflexivity.
  - apply (Hw "u" "pw")%string; vm_compute; reflexivity.
  - exact (proj1 Hn).
Defined.

Definition slack_token (value : string) : Config * InMemory := (from_map {["SLACK_TOKEN"%string := value]}, ∅).

Lemma slack_settings v1 v2 vendor key :
  key <> "SLACK_TOKEN"%string ->
  get_for (slack_token v1).1 vendor key = get_for (slack_token v2).1 vendor key.
Proof.
  intros N. unfold get_for, raw_for, slack_token, from_map. cbn.
  rewrite !lookup_singleton_ne by done. reflexivity.
Defined.

Lemma broker_label_secret_free_witness :
  public_identity (config_upstream_identity true (slack_token "xoxb-old").2 (slack_token "xoxb-old").1 "slack")
  = public_identity (config_upstream_identity true (slack_token "xoxb-new").2 (slack_token "xoxb-new").1 "slack").
Proof.
  apply (broker_label_secret_free true (slack_token "xoxb-old") (slack_token "xoxb-new") "slack"). split.
  - intros vendor key Hkey. apply slack_settings. intros ->. discriminate.
  - intros vendor key. destruct (decide (key = "SLACK_TOKEN"%string)) as [->|N]; [reflexivity|].
    by rewrite (slack_settings "xoxb-old" "xoxb-new" vendor key N).
  - reflexivity.
Defined.
End CredentialWitness.
