(* ===== verification/ToolCall.v ===== *)
(** * The tool-call handler (src/src/tools/mod.rs, src/src/tools/enablement.rs)

    [call_tool]: who is calling, the tool-level decision, the intent record,
    the dispatch inside the call scope, the outcome record.  The tool router's
    body of a tool is any program ([Tool]) of the transport's operations, the
    credential exchanges vendor clients send past the transport and statements
    to database sessions; what a tool does concurrently is modelled in some
    sequential order. *)
From S2P Require Import Prelude RustStr Json PolicyTypes Signing Bundle PolicyEngine Canonical Extractors Config Scope ResponseCache Egress Transport Multipart Upload.

(** ** Tool programs *)

Inductive TransportCall :=
| CFetch (vendor : Vendor) (credentials : Credentials) (config : Config) (path : string)
         (options : RequestOptions)
| CArtifact (vendor : Vendor) (credentials : Credentials) (config : Config) (path : string)
            (options : RequestOptions) (policy : StreamingPolicy)
| CUrl (vendor : string) (config : Config) (url : string) (policy : StreamingPolicy)
| CUpload (vendor : Vendor) (credentials : Credentials) (config : Config) (request : MultipartRequest)
| CImage (vendor : Vendor) (credentials : Credentials) (config : Config) (path : string).

Inductive TransportResult :=
| RFetch (r : result TransportResponse McpError)
| RArtifact (r : result string McpError)
| RImage (r : result (list byte * string) McpError).

Inductive CallToolResponse :=
| Complete (content : list string) (is_error : option bool) (meta : option UpstreamIdentity)
| InputRequired
| TaskCreated
| OtherResponse.

Inductive RmcpError := InvalidParams (message : string) | Protocol (message : string).

Inductive Tool :=
| Done (r : result CallToolResponse RmcpError)
| Request (c : TransportCall) (k : TransportResult -> Tool)
| Exchange (r : WireRequest) (k : SendAnswer -> Tool)
| Statement (database sql : string) (k : result string McpError -> Tool).

(** ** The server *)

Record ToolAnnotations := { read_only_hint : option bool; destructive_hint : option bool }.

Record Route := { annotations : option ToolAnnotations; body : option JsonMap -> Tool }.

Record DevtoolsServer := {
  sv_config : Config;
  enabled_vendors : list string;
  router : string -> option Route;
  (** Whether an audit sink is configured. *)
  audit_sink : bool;
  policy : PolicyDecisionPoint;
  auth_required : bool;
  sv_append_timeout : N;
  (** The credential broker's prediction for a vendor under a configuration. *)
  upstream_identity : Config -> string -> UpstreamIdentity;
}.

(** The HTTP [Parts] rmcp carries, when the transport is HTTP: the principal
    and facts the bearer middleware inserted. *)
Record RequestContext := {
  parts : option (option Principal * option TokenFacts);
  client_info : option (string * string);
  context_id : string;
}.

(** ** Names and classes of tools *)

Definition underscore : byte := byte_of 95.

Definition vendor_of_prefix (prefix : string) : option string :=
  if String.eqb prefix "bb" then Some "bitbucket"
  else if String.eqb prefix "conf" then Some "confluence"
  else if existsb (String.eqb prefix)
    ["jira"; "zoom"; "circleci"; "slack"; "postman"; "edx"; "newrelic"; "grafana"; "sonarqube"; "teamcity";
     "github"; "gitlab"; "figma"; "vercel"; "sentry"; "artifactory"; "snyk"; "mend"; "splunk"; "ninjaone";
     "wrds"]
  then Some prefix else None.

Definition vendor_for_tool (tool : string) : option string :=
  split_once underscore tool ≫= (fun '(prefix, _) => vendor_of_prefix prefix).

Definition permits (enabled : list string) (tool : string) : bool :=
  String.eqb tool "artifact_read"
  || match vendor_for_tool tool with Some v => existsb (String.eqb v) enabled | None => false end.

Definition risk_from_annotations (a : option ToolAnnotations) : RequestRisk :=
  match a with
  | Some a =>
      if bool_decide (read_only_hint a = Some true) then Read
      else if bool_decide (destructive_hint a = Some true) then Destructive
      else Write
  | None => Write
  end.

Definition declared_risk (s : DevtoolsServer) (tool : string) : RequestRisk :=
  risk_from_annotations (router s tool ≫= annotations).

(** ** Fresh tokens for writes *)

Definition WRITE_MAX_TOKEN_AGE_KEY : string := "MCP_WRITE_MAX_TOKEN_AGE_SECONDS".
Definition DEFAULT_WRITE_MAX_TOKEN_AGE : N := 300.

Definition decimal (n : N) : string := of_bytes (render_u64 n).

(** [now] in seconds; subtraction saturates at zero. *)
Definition stale_for_write (facts : TokenFacts) (max_age now : N) : option string :=
  if (max_age =? 0)%N then None
  else
    match issued_at facts with
    | None =>
        Some ("non-read calls need a token no older than " ++ decimal max_age
              ++ "s, and this token carries no issue time; obtain a fresh token")%string
    | Some at_ =>
        if (max_age <? now - at_)%N then
          Some ("non-read calls need a token no older than " ++ decimal max_age
                ++ "s (this one was issued " ++ decimal (now - at_)
                ++ "s ago); obtain a fresh token")%string
        else None
    end.

Definition write_max_token_age (c : Config) : N :=
  default DEFAULT_WRITE_MAX_TOKEN_AGE
    (get c WRITE_MAX_TOKEN_AGE_KEY ≫= (fun v => parse_unsigned U64_MAX (trim v))).

(** ** Refusals *)

Definition AUDIT_UNAVAILABLE_MESSAGE : string :=
  "Audit journal unavailable; call refused (fail closed). See the server log for the cause.".
Definition UNAUTHENTICATED_MESSAGE : string :=
  "Unauthenticated; call refused (fail closed). This server requires a validated bearer token.".

Inductive Refusal := Unauthenticated | AuditUnavailable | PolicyDenied (d : PolicyDecision).

Definition refusal_outcome (r : Refusal) : string :=
  match r with
  | Unauthenticated => "unauthenticated"
  | AuditUnavailable => "audit_unavailable"
  | PolicyDenied _ => "policy_denied"
  end.

Definition into_response (r : Refusal) : CallToolResponse :=
  Complete [match r with
            | Unauthenticated => UNAUTHENTICATED_MESSAGE
            | AuditUnavailable => AUDIT_UNAVAILABLE_MESSAGE
            | PolicyDenied d => err_message (policy_denied d)
            end] (Some true) None.

Definition principal_for (s : DevtoolsServer) (c : RequestContext) : option (Principal * TokenFacts) :=
  match parts c ≫= fst with
  | Some principal => Some (principal, default no_facts (parts c ≫= snd))
  | None => if auth_required s then None else Some (principal_local, no_facts)
  end.

(** ** The handler *)

Record EnterpriseCall := {
  ec_vendor : string;
  ec_upstream : UpstreamIdentity;
  ec_decision : PolicyDecision;
  ec_risk : RequestRisk;
  ec_scope : CallScope;
}.

Section Handler.
Context `{UrlLib} `{HttpLib} `{BodyCodec}.
Variable sha256 : list byte -> list byte.
Variable json_to_string : Value -> string.
Variable form_urlencoded : list Pair -> list byte.
Variable env : Env.

(** [ActionContext::for_tool_call]. *)
Definition for_tool_call (principal : Principal) (client : ClientIdentity) (tool : string)
    (arguments : option JsonMap) (declared : RequestRisk) (upstream : UpstreamIdentity) : ActionContext :=
  assemble principal client None tool
    (for_tool sha256 json_to_string form_urlencoded tool arguments declared) None upstream.

Definition run_call (scope : option CallScope) (c : TransportCall) : EM TransportResult :=
  match c with
  | CFetch vendor credentials config path options =>
      let! r := fetch sha256 form_urlencoded env scope vendor credentials config path options in ret (RFetch r)
  | CArtifact vendor credentials config path options policy =>
      let! r := fetch_streamed_artifact_with_policy sha256 form_urlencoded env scope vendor credentials
                  config path options policy in ret (RArtifact r)
  | CUrl vendor config url policy =>
      let! r := fetch_streamed_url sha256 form_urlencoded env scope vendor config url policy in ret (RArtifact r)
  | CUpload vendor credentials config request =>
      let! r := post_multipart sha256 form_urlencoded env scope vendor credentials config request in ret (RFetch r)
  | CImage vendor credentials config path =>
      let! r := fetch_image sha256 form_urlencoded env scope vendor credentials config path in ret (RImage r)
  end.

Fixpoint run_tool (scope : option CallScope) (t : Tool) : EM (result CallToolResponse RmcpError) :=
  match t with
  | Done r => ret r
  | Request c k => let! r := run_call scope c in run_tool scope (k r)
  | Exchange r k =>
      let! _ := emit (EExchange r) in
      let! answer := ask (env_send env) in run_tool scope (k answer)
  | Statement database sql k =>
      let! _ := emit (EDatabase database sql) in
      let! rows := ask (env_body env) in run_tool scope (k rows)
  end.

Definition usage (stamp : string) (principal : Principal) (tool vendor : string)
    (upstream : UpstreamIdentity) (decision : string) (risk : RequestRisk) (outcome : string)
    (duration : N) : UsageEvent :=
  {| us_timestamp := stamp; us_tenant := tenant principal; us_subject := subject principal;
     us_tool_name := tool; us_vendor := vendor; us_environment := environment_as_str (up_environment upstream);
     us_decision := decision; us_risk := risk_as_str risk; us_outcome := outcome; us_duration_ms := duration |}.

(** The tool-level decision: the policy's, or a denial when the call is not a
    read and the token is not fresh. *)
Definition tool_decision (s : DevtoolsServer) (action : ActionContext) (facts : TokenFacts) (now : N)
    : PolicyDecision :=
  let decision := pdp_evaluate (policy s) action in
  if is_allow decision && auth_required s && negb (bool_decide (ac_risk action = Read)) then
    match stale_for_write facts (write_max_token_age (sv_config s)) now with
    | Some reason => {| effect := Deny; rule_id := None; policy_version := policy_version decision;
                        reason := reason |}
    | None => decision
    end
  else decision.

(** What the call asks for, as policy sees it. *)
Definition tool_action (s : DevtoolsServer) (tool : string) (arguments : option JsonMap)
    (principal : Principal) (client_info : option (string * string)) : ActionContext :=
  for_tool_call principal (reported sha256 (fst <$> client_info) (snd <$> client_info)) tool arguments
    (declared_risk s tool)
    (upstream_identity s (sv_config s) (default "unknown" (vendor_for_tool tool))).

Definition begin_enterprise_call (s : DevtoolsServer) (tool : string) (arguments : option JsonMap)
    (raw_request_id : string) (principal : Principal) (facts : TokenFacts)
    (client_info : option (string * string)) : EM (result (option EnterpriseCall) Refusal) :=
  if negb (audit_sink s) then ret (Ok None)
  else
    let vendor := default "unknown" (vendor_for_tool tool) in
    let upstream := upstream_identity s (sv_config s) vendor in
    let client := reported sha256 (fst <$> client_info) (snd <$> client_info) in
    let request_id := correlation_id sha256 raw_request_id in
    let action := tool_action s tool arguments principal client_info in
    let! now := ask (env_wall env) in
    let decision := tool_decision s action facts (now / 1000)%N in
    let! stamp := ask (env_stamp env) in
    let! appended := append_bounded env
      {| ev_timestamp := stamp; ev_kind := ToolCallIntent; ev_request_id := request_id;
         ev_tool_name := tool; ev_vendor := vendor; ev_principal := principal; ev_client := client;
         ev_decision := decision; ev_upstream := upstream; ev_action := Some action;
         ev_outcome := None; ev_duration_ms := None; ev_egress := None |} in
    match appended with
    | Err _ => ret (Err AuditUnavailable)
    | Ok _ =>
        if negb (is_allow decision) then
          let! _ := emit (EUsage (usage stamp principal tool vendor upstream "deny" (ac_risk action)
                                    "policy_denied" 0)) in
          ret (Err (PolicyDenied decision))
        else
          let scope :=
            {| cs_principal := principal; cs_client := client; cs_tool_name := tool;
               cs_request_id := request_id;
               cs_enforcement :=
                 if pdp_enforces (policy s)
                 then Some {| en_policy := policy s; en_upstream := upstream;
                              en_append_timeout := sv_append_timeout s |}
                 else None |} in
          ret (Ok (Some {| ec_vendor := vendor; ec_upstream := upstream; ec_decision := decision;
                           ec_risk := ac_risk action; ec_scope := scope |}))
    end.

Definition outcome_event (call : EnterpriseCall) (stamp outcome : string) (duration_ms : N)
    (egress : option EgressSummary) : AuditEvent :=
  {| ev_timestamp := stamp; ev_kind := ToolCallOutcome; ev_request_id := cs_request_id (ec_scope call);
     ev_tool_name := cs_tool_name (ec_scope call); ev_vendor := ec_vendor call;
     ev_principal := cs_principal (ec_scope call); ev_client := cs_client (ec_scope call);
     ev_decision := ec_decision call; ev_upstream := ec_upstream call; ev_action := None;
     ev_outcome := Some outcome; ev_duration_ms := Some duration_ms; ev_egress := egress |}.

(** The append runs on its own task and is not cancelled by the bound on the
    wait; its answer is whatever it ends with. *)
Definition record_outcome (call : EnterpriseCall) (outcome : string) (duration_ms : N) : EM unit :=
  let! stamp := ask (env_stamp env) in
  let! egress := on_log take_egress in
  let! _ := append_bounded env (outcome_event call stamp outcome duration_ms egress) in
  emit (EUsage (usage stamp (cs_principal (ec_scope call)) (cs_tool_name (ec_scope call)) (ec_vendor call)
                  (ec_upstream call) "allow" (ec_risk call) outcome duration_ms)).

Definition with_meta (call : option EnterpriseCall) (r : result CallToolResponse RmcpError)
    : result CallToolResponse RmcpError :=
  match call, r with
  | Some c, Ok (Complete content e _) => Ok (Complete content e (Some (ec_upstream c)))
  | _, _ => r
  end.

Definition outcome_label (r : result CallToolResponse RmcpError) : string :=
  match r with
  | Ok (Complete _ e _) => if bool_decide (e = Some true) then "error" else "success"
  | Ok InputRequired => "input_required"
  | Ok TaskCreated => "task_created"
  | Ok OtherResponse => "other"
  | Err _ => "protocol_error"
  end.

(** A name the router does not know is a protocol error. *)
Definition dispatch_tool (s : DevtoolsServer) (scope : option CallScope) (tool : string)
    (arguments : option JsonMap) : EM (result CallToolResponse RmcpError) :=
  match router s tool with
  | Some route => run_tool scope (body route arguments)
  | None => ret (Err (Protocol "tool not found"))
  end.

Definition call_tool (s : DevtoolsServer) (tool : string) (arguments : option JsonMap)
    (context : RequestContext) : EM (result CallToolResponse RmcpError) :=
  if negb (permits (enabled_vendors s) tool)
  then ret (Err (InvalidParams "Tool is unknown or disabled for this session"))
  else
    let! started := ask (env_now env) in
    let! _ := emit (EActivity tool "tool_call_started") in
    match principal_for s context with
    | None =>
        let! _ := emit (EActivity tool (refusal_outcome Unauthenticated)) in
        ret (Ok (into_response Unauthenticated))
    | Some (principal, facts) =>
        let! enterprise := begin_enterprise_call s tool arguments (context_id context) principal facts
                             (client_info context) in
        match enterprise with
        | Err refusal =>
            let! _ := emit (EActivity tool (refusal_outcome refusal)) in
            ret (Ok (into_response refusal))
        | Ok call =>
            let! answer := dispatch_tool s (ec_scope <$> call) tool arguments in
            let result := with_meta call answer in
            let outcome := outcome_label result in
            let! finished := ask (env_now env) in
            let! _ := match call with
                      | Some c => record_outcome c outcome (finished - started)%N
                      | None => ret tt
                      end in
            let! _ := emit (EActivity tool outcome) in
            ret result
        end
    end.

(** ** Facts *)

Section Call.
Context (s : DevtoolsServer) (tool : string) (arguments : option JsonMap) (context : RequestContext).
Implicit Types (w : World) (principal : Principal) (facts : TokenFacts).

(** An intent record of this call for a principal, decided at [now] seconds. *)
Definition intent_for principal facts (now : N) (e : AuditEvent) : Prop :=
  ev_kind e = ToolCallIntent /\ ev_tool_name e = tool /\ ev_principal e = principal
    /\ ev_action e = Some (tool_action s tool arguments principal (client_info context))
    /\ ev_decision e
       = tool_decision s (tool_action s tool arguments principal (client_info context)) facts now.

(** The enforcement of a call under an enforcing policy. *)
Definition enforcement_in_force : Enforcement :=
  {| en_policy := policy s;
     en_upstream := upstream_identity s (sv_config s) (default "unknown" (vendor_for_tool tool));
     en_append_timeout := sv_append_timeout s |}.

(** The scope a dispatched call runs in. *)
Definition scope_for principal (c : CallScope) : Prop :=
  cs_principal c = principal /\ cs_tool_name c = tool
  /\ cs_enforcement c = if pdp_enforces (policy s) then Some enforcement_in_force else None.

Lemma wp_begin principal facts Φ w :
  audit_sink s = true ->
  (forall r w' e o, intent_for principal facts (env_wall env (step w) / 1000)%N e -> elog w' = elog w ->
     match r with
     | Ok (Some call) => o = Acked /\ is_allow (ev_decision e) = true /\ scope_for principal (ec_scope call)
                         /\ trace w' = trace w ++ [EAppend e o]
     | Ok None | Err Unauthenticated => False
     | Err AuditUnavailable => o <> Acked /\ trace w' = trace w ++ [EAppend e o]
     | Err (PolicyDenied d) => o = Acked /\ d = ev_decision e /\ is_allow d = false
                         /\ exists u, us_decision u = "deny" /\ trace w' = trace w ++ [EAppend e o; EUsage u]
     end -> Φ r w') ->
  wp (begin_enterprise_call s tool arguments (context_id context) principal facts (client_info context)) Φ w.
Proof.
  intros Ha HΦ. unfold begin_enterprise_call. rewrite Ha. cbn [negb]. cbv zeta.
  apply wp_bind, wp_ask_at. intros w1 [Ht1 He1] _. set (now := env_wall env (step w)) in *.
  apply wp_bind, wp_ask. intros stamp w2 [Ht2 He2].
  set (action := tool_action _ _ _ _ _). set (d := tool_decision _ _ _ _).
  match goal with |- wp (bind (append_bounded _ ?e) _) _ _ => set (intent := e) end.
  assert (Hi : intent_for principal facts (now / 1000)%N intent) by done.
  apply wp_bind. unfold append_bounded. apply wp_bind, wp_ask. intros o w3 [Ht3 He3].
  apply wp_bind, wp_emit. intros w4 Ht4 He4. apply wp_ret.
  assert (Ht : trace w4 = trace w ++ [EAppend intent o]) by (by rewrite Ht4, Ht3, Ht2, Ht1).
  assert (He : elog w4 = elog w) by congruence.
  destruct o as [|b]; [|by apply wp_ret; eapply (HΦ _ _ intent (NotProven b))].
  destruct (is_allow d) eqn:Ed; cbn [negb].
  - apply wp_ret. eapply (HΦ _ _ intent Acked); [done|done|]. split_and!; done.
  - apply wp_bind, wp_emit. intros w5 Ht5 He5. apply wp_ret. eapply (HΦ _ _ intent Acked); [done|congruence|].
    split_and!; [done..|]. eexists. split; [|by rewrite Ht5, Ht, <- app_assoc]. done.
Qed.

Lemma grows_run_tool scope t : grows (run_tool scope t).
Proof. induction t as [r|c k IH|r k IH|d q k IH]; cbn [run_tool]; [apply grows_ret|unfold run_call|..]; solve_grows. Qed.

Lemma grows_dispatch scope : grows (dispatch_tool s scope tool arguments).
Proof. unfold dispatch_tool. destruct (router s tool); [apply grows_run_tool|apply grows_ret]. Qed.

Lemma grows_record_outcome call outcome duration : grows (record_outcome call outcome duration).
Proof. unfold record_outcome. solve_grows. Qed.

(** A departure lies beyond any beginning of the trace that has none. *)
Lemma departure_after_prefix tr0 l pre e post :
  tr0 ++ l = pre ++ e :: post -> departs e = true -> departures tr0 = [] -> tr0 `prefix_of` pre.
Proof.
  intros E He. revert pre E. induction tr0 as [|a tr0 IH]; intros pre E Hs; [apply prefix_nil|].
  unfold departures in Hs. cbn in Hs. destruct (departs a) eqn:Ea; [done|].
  destruct pre as [|b pre]; cbn in E; injection E as -> E; [congruence|].
  by apply prefix_cons, (IH pre E).
Qed.

Lemma no_departure tr pre e post : tr = pre ++ e :: post -> departs e = true -> departures tr <> [].
Proof.
  intros -> He. rewrite departures_app. unfold departures at 2. cbn. rewrite He. by destruct (departures pre).
Qed.

Lemma no_send tr pre r post : tr = pre ++ ESend r :: post -> sends tr <> [].
Proof. intros ->. rewrite sends_app. cbn. by destruct (sends pre). Qed.

(** What a trace must hold before its first departure. *)
Definition evidence (now : N) (pre : list Effect) : Prop :=
  exists principal facts e, principal_for s context = Some (principal, facts)
    /\ EAppend e Acked ∈ pre /\ intent_for principal facts now e /\ is_allow (ev_decision e) = true.

Lemma wp_call_evidence w :
  audit_sink s = true -> trace w = [] ->
  wp (call_tool s tool arguments context)
     (fun _ w' => forall pre e post, trace w' = pre ++ e :: post -> departs e = true ->
        evidence (env_wall env (S (step w)) / 1000)%N pre) w.
Proof.
  intros Ha Hw. unfold call_tool.
  assert (Hnone : forall w', departures (trace w') = [] ->
            forall pre e post, trace w' = pre ++ e :: post -> departs e = true ->
            evidence (env_wall env (S (step w)) / 1000)%N pre).
  { intros w' Hn pre e post E He. by apply (no_departure _ _ _ _ E) in He. }
  destruct (negb _); [apply wp_ret, Hnone; by rewrite Hw|].
  apply wp_bind, wp_ask_at. intros w1 [Ht1 _] Hs1. apply wp_bind, wp_emit_at. intros w2 Ht2 Hs2.
  rewrite Ht1, Hw in Ht2. cbn [app] in Ht2. rewrite <- Hs1, <- Hs2 in *.
  destruct (principal_for s context) as [[principal facts]|] eqn:Ep.
  2: { apply wp_bind, wp_emit. intros w3 Ht3 _. apply wp_ret, Hnone. by rewrite Ht3, Ht2. }
  apply wp_bind, wp_begin; [done|]. intros r w3 e o Hi _ Hr.
  destruct r as [[call|]|refusal]; [|done|].
  - destruct Hr as (-> & Hallow & _ & Ht3). rewrite Ht2 in Ht3. cbn [app] in Ht3.
    match goal with |- wp ?m _ _ => assert (Hg : grows m) end.
    { apply grows_bind; [apply grows_dispatch|]. intros answer. cbv zeta. apply grows_bind; [apply grows_ask|].
      intros finished. apply grows_bind; [apply grows_record_outcome|]. intros []. solve_grows. }
    unfold wp. intros pre e' post E He'. destruct (Hg w3) as [l Hl]. rewrite Hl, Ht3 in E.
    apply departure_after_prefix in E as [pre' ->]; [|done|done].
    exists principal, facts, e. split_and!; [done| |done|done]. set_solver.
  - apply wp_bind, wp_emit. intros w4 Ht4 _. apply wp_ret, Hnone. rewrite Ht4.
    destruct refusal as [| |d]; [done|destruct Hr as (_ & ->)|destruct Hr as (_ & _ & _ & u & _ & ->)];
      by rewrite Ht2.
Qed.

(** The refusals of [begin_enterprise_call], answer by answer. *)
Lemma begin_refused principal facts w :
  audit_sink s = true ->
  let d := tool_decision s (tool_action s tool arguments principal (client_info context)) facts
             (env_wall env (step w) / 1000)%N in
  match env_append env (step w + 2) with
  | NotProven b => exists e w',
      begin_enterprise_call s tool arguments (context_id context) principal facts (client_info context) w
        = (w', Err AuditUnavailable)
      /\ trace w' = trace w ++ [EAppend e (NotProven b)]
  | Acked => is_allow d = false -> exists e u w',
      begin_enterprise_call s tool arguments (context_id context) principal facts (client_info context) w
        = (w', Err (PolicyDenied d))
      /\ trace w' = trace w ++ [EAppend e Acked; EUsage u] /\ ev_kind e = ToolCallIntent /\ ev_decision e = d
  end.
Proof.
  intros Ha. cbv zeta. unfold begin_enterprise_call, append_bounded, bind, ask, emit, ret. rewrite Ha.
  cbn [negb step trace elog cache]. replace (S (S (step w))) with (step w + 2) by lia.
  destruct (env_append env (step w + 2)) as [|b].
  - intros ->. cbn [negb]. do 3 eexists. split; [done|]. cbn [trace]. by rewrite <- app_assoc.
  - by do 2 eexists.
Qed.

(** ** Enforcing calls *)

Section Enforced.
Context (sc : CallScope) (enf : Enforcement) (Hsc : cs_enforcement sc = Some enf).

Lemma wp_run_tool t Φ w :
  Egress.good (covers form_urlencoded sc enf) 0 w ->
  (forall r w', Egress.good (covers form_urlencoded sc enf) 0 w' -> later w w' -> Φ r w') ->
  wp (run_tool (Some sc) t) Φ w.
Proof.
  revert Φ w. induction t as [r|c k IH|r k IH|d q k IH]; intros Φ w Hg HΦ; cbn [run_tool]; [by apply wp_ret, HΦ| |..].
  2,3: apply wp_bind, wp_emit; intros w1 Ht1 He1;
    match type of Ht1 with _ = _ ++ [?e] => destruct (good_silent _ 0 w w1 e eq_refl Ht1 He1 Hg) as [Hg1 Hw1] end;
    apply wp_bind, wp_ask; intros a w2 Hq; apply (quiet_good _ _ _ _ Hq) in Hg1; apply quiet_later in Hq;
    apply IH; [done|]; intros r' w3 Hg3 Hw3; apply HΦ; [done|]; by repeat (etrans; [eassumption|]).
  apply wp_bind.
  assert (Hcall : forall Ψ : TransportResult -> World -> Prop,
    (forall r w', Egress.good (covers form_urlencoded sc enf) 0 w' -> later w w' -> Ψ r w') ->
    wp (run_call (Some sc) c) Ψ w).
  { intros Ψ HΨ. destruct c; unfold run_call; apply wp_bind;
      [apply (wp_fetch _ _ _ sc enf Hsc)|apply (wp_fetch_streamed_artifact _ _ _ sc enf Hsc)
      |apply (wp_fetch_streamed_url _ _ _ sc enf Hsc)|apply (wp_post_multipart _ _ _ sc enf Hsc)
      |apply (wp_fetch_image _ _ _ sc enf Hsc)]; try done; intros r w' Hg' Hw'; by apply wp_ret, HΨ. }
  apply Hcall. intros r w1 Hg1 Hw1. apply IH; [done|]. intros r' w2 Hg2 Hw2. apply HΦ; [done|by etrans].
Qed.
End Enforced.

(** The summary tells what the trace holds: the first decisions in order with
    what became of each, a count of the rest, and - when nothing was left out -
    as many attempts as requests went on the wire. *)
Definition summarizes (sm : EgressSummary) (tr : list Effect) : Prop :=
  Forall2 agrees (take MAX_EGRESS_RECORDS (decisions tr)) (requests sm)
  /\ summary_omitted sm = (length (decisions tr) - MAX_EGRESS_RECORDS)%nat
  /\ ((N.of_nat (length (sends tr)) < U32)%N -> summary_omitted sm = 0%nat ->
      sum_attempts (requests sm) = N.of_nat (length (sends tr))).

(** The call made no egress decision and sent nothing, or its last append is
    an outcome record that summarizes everything it decided and sent. *)
Definition accounted_for (tr : list Effect) : Prop :=
  decisions tr = [] /\ sends tr = []
  \/ exists e o sm, EAppend e o ∈ tr /\ ev_kind e = ToolCallOutcome /\ ev_tool_name e = tool
       /\ ev_egress e = Some sm /\ summarizes sm tr.

Lemma take_egress_summary cov w :
  Egress.good cov 0 w ->
  match (take_egress (elog w)).2 with
  | Some sm => summarizes sm (trace w)
  | None => decisions (trace w) = [] /\ sends (trace w) = []
  end.
Proof.
  intros [[Hf Ho] Hc Hcov]. unfold take_egress. cbn [snd].
  destruct (negb _ || _) eqn:E.
  - split; [done|]. split; [done|]. intros Hlt Hz. specialize (Hc Hlt Hz). cbn [requests]. lia.
  - apply orb_false_iff in E as [E1%negb_false_iff%bool_decide_eq_true_1 E2%Nat.ltb_ge].
    assert (Hd : decisions (trace w) = []).
    { rewrite E1 in Hf. apply Forall2_nil_inv_r in Hf. unfold MAX_EGRESS_RECORDS in *.
      destruct (decisions (trace w)); [done|discriminate Hf]. }
    split; [done|]. destruct (sends (trace w)) as [|r l] eqn:Es; [done|]. exfalso.
    assert (Hin : ESend r ∈ trace w).
    { assert (Hr : r ∈ sends (trace w)) by (rewrite Es; set_solver).
      apply list_elem_of_omap in Hr as (x & Hx & Hr). destruct x; try done. by injection Hr as ->. }
    apply list_elem_of_split in Hin as (pre & post & Et).
    destruct (Hcov _ _ _ Et) as (v & wire & c & d & Hv & _).
    assert (Hin : (v, wire, c, d) ∈ decisions (trace w)).
    { rewrite Et, decisions_app. apply elem_of_app. left. apply list_elem_of_omap. eauto. }
    rewrite Hd in Hin. by apply not_elem_of_nil in Hin.
Qed.

Lemma wp_call_outcome w :
  audit_sink s = true -> pdp_enforces (policy s) = true -> trace w = [] -> elog w = empty_log ->
  wp (call_tool s tool arguments context)
     (fun _ w' => accounted_for (trace w')
        /\ (sends (trace w') <> [] -> exists principal facts sc,
              principal_for s context = Some (principal, facts) /\ scope_for principal sc
              /\ sends_covered (covers form_urlencoded sc enforcement_in_force) (trace w'))) w.
Proof.
  intros Ha Hen Hw Hlog. unfold call_tool.
  assert (Hnone : forall w', decisions (trace w') = [] -> sends (trace w') = [] ->
    accounted_for (trace w') /\ (sends (trace w') <> [] -> exists principal facts sc,
      principal_for s context = Some (principal, facts) /\ scope_for principal sc
      /\ sends_covered (covers form_urlencoded sc enforcement_in_force) (trace w'))).
  { intros w' Hd Hs. split; [by left|by rewrite Hs]. }
  destruct (negb _); [apply wp_ret, Hnone; by rewrite Hw|].
  apply wp_bind, wp_ask. intros started w1 [Ht1 He1]. apply wp_bind, wp_emit. intros w2 Ht2 He2.
  rewrite Ht1, Hw in Ht2. cbn [app] in Ht2. rewrite He1, Hlog in He2.
  destruct (principal_for s context) as [[principal facts]|] eqn:Ep.
  2: { apply wp_bind, wp_emit. intros w3 Ht3 _. apply wp_ret, Hnone; by rewrite Ht3, Ht2. }
  apply wp_bind, wp_begin; [done|]. intros r w3 e o Hi He3 Hr.
  destruct r as [[call|]|refusal]; [|done|].
  2: { apply wp_bind, wp_emit. intros w4 Ht4 _. apply wp_ret.
       destruct refusal as [| |d]; [done|destruct Hr as (_ & Ht3)|destruct Hr as (_ & _ & _ & u & _ & Ht3)];
         apply Hnone; by rewrite Ht4, Ht3, Ht2. }
  destruct Hr as (-> & Hallow & Hsc & Ht3). rewrite Ht2 in Ht3. cbn [app] in Ht3.
  pose proof (proj2 (proj2 Hsc)) as Henf. rewrite Hen in Henf.
  set (cov := covers form_urlencoded (ec_scope call) enforcement_in_force).
  assert (Hg3 : Egress.good cov 0 w3).
  { constructor; [unfold logged|unfold counted|]; rewrite Ht3, ?He3, ?He2; [split; [constructor|done]|done|].
    intros pre r post E. by apply no_send in E. }
  apply wp_bind. cbn [fmap option_fmap option_map].
  assert (Hdisp : forall Ψ : result CallToolResponse RmcpError -> World -> Prop,
    (forall r w', Egress.good cov 0 w' -> Ψ r w') ->
    wp (dispatch_tool s (Some (ec_scope call)) tool arguments) Ψ w3).
  { intros Ψ HΨ. unfold dispatch_tool. destruct (router s tool); [|by apply wp_ret, HΨ].
    apply (wp_run_tool _ _ Henf); [done|]. intros a w' Hg _. by apply HΨ. }
  apply Hdisp. intros answer w4 Hg4. cbv zeta.
  apply wp_bind, wp_ask. intros finished w5 Hq. apply (quiet_good _ _ _ _ Hq) in Hg4. clear Hq.
  apply wp_bind. unfold record_outcome. apply wp_bind, wp_ask. intros stamp w6 Hq.
  apply (quiet_good _ _ _ _ Hq) in Hg4. clear Hq.
  pose proof (take_egress_summary _ _ Hg4) as Hsum. apply wp_bind. unfold wp at 1, on_log.
  destruct (take_egress (elog w6)) as [l egress]. cbn [fst snd] in *.
  set (w7 := {| step := _; trace := trace w6; elog := l; cache := _ |}).
  apply wp_bind. unfold append_bounded. apply wp_bind, wp_ask. intros o w8 [Ht8 _].
  apply wp_bind, wp_emit. intros w9 Ht9 _. apply wp_ret, wp_emit. intros w10 Ht10 _.
  apply wp_bind, wp_emit. intros w11 Ht11 _. apply wp_ret.
  set (oe := outcome_event _ _ _ _ _) in *. set (u := EUsage _) in *. set (ac := EActivity tool (outcome_label _)) in *.
  assert (Ht : trace w11 = trace w6 ++ [EAppend oe o; u; ac]).
  { rewrite Ht11, Ht10, Ht9, Ht8. change (trace w7) with (trace w6). by rewrite <- !app_assoc. }
  assert (Hd : decisions (trace w11) = decisions (trace w6)) by (by rewrite Ht, decisions_app, app_nil_r).
  assert (Hs : sends (trace w11) = sends (trace w6)) by (by rewrite Ht, sends_app, app_nil_r).
  split.
  - destruct egress as [sm|]; [right|left; by rewrite Hd, Hs].
    exists oe, o, sm. split; [rewrite Ht; set_solver|]. split; [done|].
    split; [exact (proj1 (proj2 Hsc))|]. split; [done|]. unfold summarizes. by rewrite Hd, Hs.
  - intros _. exists principal, facts, (ec_scope call). split_and!; [done|done|].
    rewrite Ht. apply no_send_covered; [done|]. apply Hg4.
Qed.

End Call.
End Handler.

(** ** The properties of a call *)

(** A call starts with nothing in its trace and its log. *)
Definition fresh_world (c : Cache) (n : nat) : World :=
  {| step := n; trace := []; elog := empty_log; cache := c |}.

Section Claims.
Context `{U : UrlLib} `{HL : HttpLib} `{BC : BodyCodec}.
Variable sha256 : list byte -> list byte.
Variable json_to_string : Value -> string.
Variable form_urlencoded : list Pair -> list byte.

(** C1: Evidence first, dispatch second.  With a journal configured, nothing
    leaves for an upstream - no request of the transport, no credential
    exchange past it, no database statement, whatever the tool does and whether
    or not the policy enforces at egress - before an intent record of this
    call, naming the validated principal, the tool and the action, has been
    acknowledged durable with an allow decision; that decision is the policy's
    on the call's own action, and for a call that is not a read under inbound
    authentication, unless the age limit is switched off, the token carries an
    issue time no further back than the limit from the wall clock as the call
    read it. *)
Theorem call_evidence_before_dispatch env s tool arguments context c n pre departure post :
  audit_sink s = true -> departs departure = true ->
  trace (call_tool sha256 json_to_string form_urlencoded env s tool arguments context (fresh_world c n)).1
    = pre ++ departure :: post ->
  exists principal facts e action,
    principal_for s context = Some (principal, facts)
    /\ EAppend e Acked ∈ pre /\ ev_kind e = ToolCallIntent /\ ev_tool_name e = tool
    /\ ev_principal e = principal /\ ev_action e = Some action
    /\ action = tool_action sha256 json_to_string form_urlencoded s tool arguments principal (client_info context)
    /\ pdp_evaluate (policy s) action = ev_decision e /\ is_allow (ev_decision e) = true
    /\ (auth_required s = true -> ac_risk action <> Read -> write_max_token_age (sv_config s) <> 0%N ->
        exists at_, issued_at facts = Some at_
          /\ (env_wall env (S n) / 1000 <= at_ + write_max_token_age (sv_config s))%N).
Proof.
  intros Ha Hdep E.
  destruct (wp_call_evidence sha256 json_to_string form_urlencoded env s tool arguments context
              (fresh_world c n) Ha eq_refl pre departure post E Hdep)
    as (principal & facts & e & Hp & Hin & (Hk & Ht & Hpr & Hac & Hd) & Hallow).
  exists principal, facts, e. eexists. split_and!; try done.
  - unfold tool_decision in Hd. destruct (_ && negb _); [|done].
    destruct (stale_for_write _ _ _); [|done]. by rewrite Hd in Hallow.
  - intros Hauth Hrisk Hage. rewrite Hd in Hallow. unfold tool_decision in Hallow.
    rewrite Hauth, (bool_decide_eq_false_2 _ Hrisk) in Hallow. cbn [negb] in Hallow. rewrite !andb_true_r in Hallow.
    destruct (is_allow (pdp_evaluate _ _)) eqn:Ea; [|by rewrite Ea in Hallow].
    unfold stale_for_write in Hallow. apply N.eqb_neq in Hage. rewrite Hage in Hallow. cbn [step fresh_world] in Hallow.
    destruct (issued_at facts) as [at_|]; [|done]. exists at_. split; [done|].
    destruct (N.ltb_spec (write_max_token_age (sv_config s)) (env_wall env (S n) / 1000 - at_)); [done|lia].
Qed.

(** C2: Every request of a call that passes the egress chokepoint was allowed
    and is accounted for.  Credential exchanges and database sessions do not
    pass it and are outside this claim.  Under an enforcing policy every
    request the transport sends - first attempts, retries and redirect hops
    alike - comes after an egress decision of that policy, made for this
    principal, tool and upstream identity, that allows a context with the
    request's method, canonical path and destination origin (uploads and image
    downloads are authorized without an origin); and the call's outcome record
    lists its first 64 egress decisions in order and counts the others: each
    entry has the decision's vendor, method, destination, effect and rule and
    the canonical target it was about (for a redacted download its path alone),
    it shows as denied exactly when it was, and when none was omitted the
    attempts listed add up to the number of requests sent. *)
Theorem call_egress_accounted env s tool arguments context c n :
  audit_sink s = true -> pdp_enforces (policy s) = true ->
  let tr := trace (call_tool sha256 json_to_string form_urlencoded env s tool arguments context
                     (fresh_world c n)).1 in
  (forall pre r post, tr = pre ++ ESend r :: post ->
     exists principal facts sc v wire ctx d, principal_for s context = Some (principal, facts)
       /\ scope_for s tool principal sc
       /\ EDecide v wire ctx d ∈ pre /\ is_allow d = true
       /\ covers form_urlencoded sc (enforcement_in_force s tool) wire ctx d r)
  /\ (decisions tr <> [] -> exists e o sm, EAppend e o ∈ tr /\ ev_kind e = ToolCallOutcome
        /\ ev_tool_name e = tool /\ ev_egress e = Some sm
        /\ Forall2 agrees (take MAX_EGRESS_RECORDS (decisions tr)) (requests sm)
        /\ summary_omitted sm = (length (decisions tr) - MAX_EGRESS_RECORDS)%nat
        /\ ((N.of_nat (length (sends tr)) < U32)%N -> summary_omitted sm = 0%nat ->
            sum_attempts (requests sm) = N.of_nat (length (sends tr)))).
Proof.
  intros Ha Hen. cbv zeta.
  destruct (wp_call_outcome sha256 json_to_string form_urlencoded env s tool arguments context
              (fresh_world c n) Ha Hen eq_refl eq_refl) as [Hacc Hcov].
  split.
  - intros pre r post E. destruct Hcov as (principal & facts & sc & Hp & Hsc & Hc); [by eapply no_send|].
    destruct (Hc _ _ _ E) as (v & wire & ctx & d & ? & ? & ?). by exists principal, facts, sc, v, wire, ctx, d.
  - intros Hd. destruct Hacc as [[Hz _]|(e & o & sm & ? & ? & ? & ? & ? & ? & ?)]; [done|].
    by exists e, o, sm.
Qed.

(** C15: A call fails closed.  Without the principal authentication requires,
    without a durable intent, or under a denial, the caller gets the fixed
    refusal and nothing leaves for an upstream: an unauthenticated call leaves no journal
    record at all, and a denied one is journaled with its decision before the
    caller hears of it. *)
Theorem call_fails_closed env s tool arguments context w :
  permits (enabled_vendors s) tool = true ->
  let '(w', r) := call_tool sha256 json_to_string form_urlencoded env s tool arguments context w in
  match principal_for s context with
  | None => r = Ok (into_response Unauthenticated)
            /\ trace w' = trace w ++ [EActivity tool "tool_call_started"; EActivity tool "unauthenticated"]
  | Some (principal, facts) =>
      audit_sink s = true ->
      let d := tool_decision s
                 (tool_action sha256 json_to_string form_urlencoded s tool arguments principal
                    (client_info context)) facts (env_wall env (step w + 1) / 1000)%N in
      match env_append env (step w + 3) with
      | NotProven _ => r = Ok (into_response AuditUnavailable) /\ departures (trace w') = departures (trace w)
      | Acked => is_allow d = false ->
          r = Ok (into_response (PolicyDenied d)) /\ departures (trace w') = departures (trace w)
          /\ exists e, EAppend e Acked ∈ trace w' /\ ev_kind e = ToolCallIntent /\ ev_decision e = d
      end
  end.
Proof.
  intros Hp. unfold call_tool. rewrite Hp. cbn [negb]. unfold bind at 1, ask at 1. cbn [step].
  unfold bind at 1, emit at 1. cbn [step trace elog cache].
  destruct (principal_for s context) as [[principal facts]|].
  2: { unfold bind, emit, ret. cbn. by rewrite <- app_assoc. }
  unfold bind at 1. set (w1 := {| step := _; trace := _ ++ _; elog := _; cache := _ |}).
  destruct (audit_sink s) eqn:Ha; [|by destruct (begin_enterprise_call _ _ _ _ _ _ _ _ _ _ _ _) as [w2 [call|rf]];
    match goal with |- context [let '(_, _) := ?x in _] => destruct x end].
  pose proof (begin_refused sha256 json_to_string form_urlencoded env s tool arguments context principal facts w1 Ha)
    as Hb.
  replace (step w + 3) with (step w1 + 2) by (cbn; lia). replace (step w + 1) with (step w1) by (cbn; lia).
  destruct (env_append env (step w1 + 2)) as [|b].
  - destruct (is_allow _) eqn:Ed in Hb |- *.
    + match goal with |- context [let '(_, _) := ?x in _] => destruct x end. done.
    + destruct (Hb Ed) as (e & u & w2 & -> & Ht & Hk & He). unfold bind, emit, ret. cbn. intros _ _.
      split; [done|]. rewrite Ht.
      split; [subst w1; cbn [trace]; rewrite !departures_app; cbn; by rewrite !app_nil_r|].
      exists e. split_and!; [set_solver|done|done].
  - destruct Hb as (e & w2 & -> & Ht). unfold bind, emit, ret. cbn. intros _. split; [done|].
    rewrite Ht. subst w1. cbn [trace]. rewrite !departures_app. cbn. by rewrite !app_nil_r.
Qed.
End Claims.

(** ** A concrete call *)

Module CallWitness.
Import CacheWitness.

(** URLs whose first twelve bytes are the origin. *)
#[export] Instance toy_url : UrlLib := {|
  Url := string; Origin := string;
  url_parse := fun s => Some s;
  url_scheme := fun u => if starts_with u "https://" then "https" else "http";
  url_has_host := fun _ => true;
  url_username := fun _ => "";
  url_has_password := fun _ => false;
  url_has_fragment := fun _ => false;
  url_path := fun u => of_bytes (drop 12 (as_bytes u));
  url_query := fun _ => None;
  url_path_and_query := fun u => of_bytes (drop 12 (as_bytes u));
  url_join := fun _ l => Some l;
  url_as_str := fun u => u;
  url_origin := fun u => of_bytes (take 12 (as_bytes u));
  ascii_serialization := fun o => o |}.

#[export] Instance toy_http : HttpLib := {|
  header_name_from := fun n => Some n;
  base64 := fun l => of_bytes l;
  json_from_str := fun _ => None;
  http_date := fun _ => None;
  json_pretty := fun _ => None |}.

Definition ok_response (status : N) (headers : HeaderMap) : Response :=
  {| r_status := status; r_headers := headers; r_url := "https://a.io/api/datasources";
     r_content_length := None |}.

(** The first send is redirected, the second answered. *)
Definition toy_env : Env := {|
  env_append := fun _ => Acked;
  env_send := fun n =>
    if (n <? 7)%nat then SResponse (ok_response 302 [("location", "https://a.io/next")])
    else SResponse (ok_response 200 []);
  env_now := fun n => N.of_nat n; env_wall := fun n => N.of_nat n;
  env_stamp := fun _ => "now"; env_cancelled := fun _ => false; env_random := fun _ => 0%N;
  env_sleep := fun _ => Slept; env_body := fun _ => Ok "text"; env_chunks := fun _ => ([], None); env_artifact := fun _ => Ok "file";
  env_raw_path := fun _ => None |}.

Definition toy_vendor : Vendor :=
  {| v_name := "grafana"; base_url := fun _ => Ok "https://a.io"; cache_reads := fun _ => true;
     classify_error := fun _ m => api_error m None None; classify_success_json := fun _ => None |}.

Definition empty_config : Config := from_map ∅.

Definition toy_tool : Tool :=
  Request (CFetch toy_vendor (Bearer "t") empty_config "/api/datasources" no_options)
    (fun _ => Done (Ok (Complete ["done"] None None))).

Definition enforcing : PolicyDecisionPoint :=
  {| pdp_evaluate := fun _ => local_allow; pdp_version := Some "1"; pdp_enforces := true; pdp_degraded := None |}.

Definition toy_upstream (vendor : string) : UpstreamIdentity :=
  {| up_label := "slot"; up_vendor := vendor; up_environment := Dev; up_authority := Shared;
     up_provenance := None |}.

Definition server (p : PolicyDecisionPoint) : DevtoolsServer :=
  {| sv_config := empty_config; enabled_vendors := ["grafana"];
     router := fun _ => Some {| annotations := None; body := fun _ => toy_tool |};
     audit_sink := true; policy := p; auth_required := false; sv_append_timeout := 5000;
     upstream_identity := fun _ v => toy_upstream v |}.

Definition toy_context : RequestContext := {| parts := None; client_info := None; context_id := "1" |}.

Definition form (_ : list Pair) : list byte := [].
Definition hash_id (l : list byte) : list byte := l.
Definition show (_ : Value) : string := "".

Definition run : World * result CallToolResponse RmcpError :=
  call_tool hash_id show form toy_env (server enforcing) "grafana_list_datasources" None toy_context
    (fresh_world empty_cache 0).

(** A write under inbound authentication: the vendor client first exchanges
    its credential past the transport, then sends the request. *)
Definition exchange_request : WireRequest :=
  {| wr_method := Post; wr_url := "https://a.io/oauth/token"; wr_headers := []; wr_body := BNone |}.

Definition write_server : DevtoolsServer :=
  {| sv_config := empty_config; enabled_vendors := ["zoom"];
     router := fun _ => Some {| annotations := None; body := fun _ => Exchange exchange_request (fun _ => toy_tool) |};
     audit_sink := true; policy := enforcing; auth_required := true; sv_append_timeout := 5000;
     upstream_identity := fun _ v => toy_upstream v |}.

(** The wall clock reads 1000 s; the token was issued 200 s before. *)
Definition write_env : Env := {|
  env_append := env_append toy_env; env_send := env_send toy_env;
  env_now := env_now toy_env; env_wall := fun _ => 1000000%N;
  env_stamp := env_stamp toy_env; env_cancelled := env_cancelled toy_env; env_random := env_random toy_env;
  env_sleep := env_sleep toy_env; env_body := env_body toy_env; env_chunks := env_chunks toy_env;
  env_artifact := env_artifact toy_env; env_raw_path := env_raw_path toy_env |}.

Definition write_facts : TokenFacts :=
  {| issued_at := Some 800%N; token_id := None; actors := None; subject_kind := subject_kind no_facts |}.

Definition write_context : RequestContext :=
  {| parts := Some (Some principal_local, Some write_facts); client_info := None; context_id := "1" |}.

Definition write_run : World * result CallToolResponse RmcpError :=
  call_tool hash_id show form write_env write_server "zoom_create_meeting" None write_context
    (fresh_world empty_cache 0).

Lemma write_run_first : trace write_run.1 !! 2 = Some (EExchange exchange_request).
Proof. vm_compute. reflexivity. Qed.

Lemma call_evidence_before_dispatch_witness :
  exists principal facts e action,
    principal_for write_server write_context = Some (principal, facts)
    /\ EAppend e Acked ∈ take 2 (trace write_run.1) /\ ev_kind e = ToolCallIntent
    /\ ev_tool_name e = "zoom_create_meeting"
    /\ ev_principal e = principal /\ ev_action e = Some action
    /\ action = tool_action hash_id show form write_server "zoom_create_meeting" None principal None
    /\ pdp_evaluate (policy write_server) action = ev_decision e /\ is_allow (ev_decision e) = true
    /\ (exists at_, issued_at facts = Some at_ /\ (1000 <= at_ + 300)%N).
Proof.
  destruct (call_evidence_before_dispatch hash_id show form write_env write_server "zoom_create_meeting"
           None write_context empty_cache 0 (take 2 (trace write_run.1)) (EExchange exchange_request)
           (drop 3 (trace write_run.1)) eq_refl eq_refl)
    as (principal & facts & e & action & Hp & H1 & H2 & H3 & H4 & H5 & H6 & H7 & H8 & Hfresh).
  { symmetry. apply take_drop_middle. apply write_run_first. }
  exists principal, facts, e, action. do 9 (split; [assumption|]). apply Hfresh; [reflexivity|..].
  - rewrite H6. injection Hp as <- <-. vm_compute. discriminate.
  - vm_compute. discriminate.
Defined.

Lemma call_egress_accounted_witness :
  length (sends (trace run.1)) = 2%nat /\ length (decisions (trace run.1)) = 2%nat
  /\ exists e o sm, EAppend e o ∈ trace run.1 /\ ev_kind e = ToolCallOutcome
       /\ ev_tool_name e = "grafana_list_datasources" /\ ev_egress e = Some sm
       /\ Forall2 agrees (take MAX_EGRESS_RECORDS (decisions (trace run.1))) (requests sm)
       /\ summary_omitted sm = (length (decisions (trace run.1)) - MAX_EGRESS_RECORDS)%nat
       /\ ((N.of_nat (length (sends (trace run.1))) < U32)%N -> summary_omitted sm = 0%nat ->
           sum_attempts (requests sm) = N.of_nat (length (sends (trace run.1)))).
Proof.
  split; [vm_compute; reflexivity|]. split; [vm_compute; reflexivity|].
  apply (call_egress_accounted hash_id show form toy_env (server enforcing) "grafana_list_datasources" None
           toy_context empty_cache 0 eq_refl eq_refl).
  intros E. assert (length (decisions (trace run.1)) = 2%nat) as El by (vm_compute; reflexivity).
  unfold run in El. rewrite E in El. discriminate El.
Defined.

Definition denying : PolicyDecisionPoint :=
  {| pdp_evaluate := fun _ => default_deny "no"; pdp_version := None; pdp_enforces := true; pdp_degraded := None |}.

Lemma call_fails_closed_witness :
  let '(w', r) := call_tool hash_id show form toy_env (server denying) "grafana_list_datasources" None toy_context
                    (fresh_world empty_cache 0) in
  r = Ok (into_response (PolicyDenied (default_deny "no"))) /\ departures (trace w') = []
  /\ exists e, EAppend e Acked ∈ trace w' /\ ev_kind e = ToolCallIntent /\ ev_decision e = default_deny "no".
Proof.
  pose proof (call_fails_closed hash_id show form toy_env (server denying) "grafana_list_datasources" None
                toy_context (fresh_world empty_cache 0) eq_refl) as Hc.
  destruct (call_tool _ _ _ _ _ _ _ _ _) as [w' r].
  exact (Hc eq_refl eq_refl).
Defined.

Definition start : Url (UrlLib := toy_url) := "https://a.io/api"%string.

Lemma redirect_chain_safe_witness :
  exists hops : list (Url * WireRequest),
    sends (trace (follow hash_id form toy_env None "grafana" empty_config "https://a.io/api"
                    (ok_response 302 [("location", "https://a.io/next")]) Get no_options
                    (Some ("authorization", "t")) 1000 (fresh_world empty_cache 0)).1)
      = sends [] ++ hops.*2
    /\ (length hops <= 5)%nat
    /\ (hops <> [] -> Get = Get)
    /\ NoDup (start :: hops.*1)
    /\ Forall (fun u => url_origin u = url_origin start
                        \/ allowed empty_config "grafana" u = true) hops.*1
    /\ (url_scheme start = "https" -> Forall (fun u => url_scheme u = "https") hops.*1)
    /\ forall pre u r post, hops = pre ++ (u, r) :: post ->
         r = plain_get (url_as_str u)
         \/ Forall (fun v => url_origin v = url_origin start) (pre.*1 ++ [u])
            /\ exists name value, Some ("authorization", "t") = Some (name, value)
                 /\ r = build_request Get (url_as_str u) name value no_options.
Proof.
  apply (redirect_chain_safe hash_id form toy_env None "grafana" empty_config "https://a.io/api"
           start (ok_response 302 [("location", "https://a.io/next")]) Get no_options
           (Some ("authorization", "t")) 1000 (fresh_world empty_cache 0)).
  vm_compute. reflexivity.
Defined.

End CallWitness.
