(* ===== verification/Revocation.v ===== *)
(** * The revocation list (src/src/auth/revocation.rs)

    A signed, hot-reloaded document like the policy, the second instance of
    [BundleDocument]: emergency denial by subject, by token id, or by issue
    time.  YAML (serde_norway) and RFC 3339 (chrono) are parameters. *)
From stdpp Require Import pretty.
From S2P Require Import Prelude RustStr PolicyTypes Signing Bundle PolicyEngine Scope.

Definition MAX_ENTRIES : N := 100000.

Record RevokedSubject := { rs_subject : string; rs_revoked_at : string; rs_reason : option string }.
Record RevokedToken := { rt_token_id : string; rt_revoked_at : string; rt_reason : option string }.
Record NotBefore := { nb_at : string; nb_reason : option string }.

Record RevocationFile := {
  rf_version : N;
  rf_subjects : list RevokedSubject;
  rf_token_ids : list RevokedToken;
  rf_not_before : option NotBefore;
}.

Definition revocation_empty : RevocationFile :=
  {| rf_version := 1; rf_subjects := []; rf_token_ids := []; rf_not_before := None |}.

Inductive RevocationReason := RSubject | RTokenId | RNotBefore.

Definition revocation_reason_as_str (r : RevocationReason) : string :=
  match r with RSubject => "subject" | RTokenId => "token_id" | RNotBefore => "not_before" end.

(** The compiled list. *)
Record RevocationDocument := {
  rd_version : string;
  rd_subjects : gset string;
  rd_token_ids : gset string;
  rd_not_before : option N;
  rd_not_before_label : option string;
}.

Definition issued_before (t : TokenFacts) (cutoff : N) : bool :=
  is_none_or (issued_at t) (fun at_ => (at_ <? cutoff)%N).

Definition revocation_check (d : RevocationDocument) (a : Authenticated) : option RevocationReason :=
  if bool_decide (subject (auth_principal a) ∈ rd_subjects d) then Some RSubject
  else if is_some_and (token_id (auth_token a)) (fun id => bool_decide (id ∈ rd_token_ids d))
  then Some RTokenId
  else
    match rd_not_before d with
    | Some cutoff => if issued_before (auth_token a) cutoff then Some RNotBefore else None
    | None => None
    end.

Definition revokes_subject (d : RevocationDocument) (subject : string) : bool :=
  bool_decide (subject ∈ rd_subjects d).

Section Compile.
Context `{Crypto}.
Variable from_yaml : list byte -> result RevocationFile string.
(** chrono's parser: seconds since the epoch, possibly negative. *)
Variable rfc3339_timestamp : string -> option Z.

Definition parse_rfc3339 (value : string) : option N :=
  rfc3339_timestamp (trim value) ≫= (fun t => if (t <? 0)%Z then None else Some (Z.to_N t)).

Definition revocation_parse (bytes : list byte) : result RevocationFile string :=
  let? file := map_err (fun e => "does not parse: " ++ e)%string (from_yaml bytes) in
  if (MAX_ENTRIES <? N.of_nat (length (rf_subjects file)))%N
     || (MAX_ENTRIES <? N.of_nat (length (rf_token_ids file)))%N
  then Err ("more than " ++ pretty MAX_ENTRIES ++ " entries; this is not a revocation list")%string
  else if existsb (fun e => is_blank (rs_subject e)) (rf_subjects file)
  then Err "a subject entry is empty"
  else if existsb (fun e => is_blank (rt_token_id e)) (rf_token_ids file)
  then Err "a token_id entry is empty"
  else
    match rf_not_before file with
    | Some nb =>
        match parse_rfc3339 (nb_at nb) with
        | Some _ => Ok file
        | None => Err ("not_before.at " ++ nb_at nb ++ " is not an RFC 3339 timestamp")%string
        end
    | None => Ok file
    end.

(** [sort_by] on the key alone: stable. *)
Definition subject_le (a b : RevokedSubject) : Prop := str_le (rs_subject a) (rs_subject b).
Definition token_le (a b : RevokedToken) : Prop := str_le (rt_token_id a) (rt_token_id b).
#[local] Instance subject_le_dec : RelDecision subject_le.
Proof. intros a b. unfold subject_le, str_le. apply _. Defined.
#[local] Instance token_le_dec : RelDecision token_le.
Proof. intros a b. unfold token_le, str_le. apply _. Defined.

Definition revocation_to_yaml (to_yaml : RevocationFile -> result string string) (f : RevocationFile) : result string string :=
  map_err (fun e => "cannot serialize: " ++ e)%string
    (to_yaml {| rf_version := rf_version f; rf_subjects := merge_sort subject_le (rf_subjects f);
                rf_token_ids := merge_sort token_le (rf_token_ids f);
                rf_not_before := rf_not_before f |}).

Definition revocation_compile (bytes : list byte) : result RevocationDocument string :=
  let? file := revocation_parse bytes in
  Ok {| rd_version := version_label (rf_version file) bytes;
        rd_subjects := list_to_set (map rs_subject (rf_subjects file));
        rd_token_ids := list_to_set (map rt_token_id (rf_token_ids file));
        rd_not_before := rf_not_before file ≫= (fun nb => parse_rfc3339 (nb_at nb));
        rd_not_before_label := nb_at <$> rf_not_before file |}.

Definition revocation_describe (d : RevocationDocument) (e : ControlEvent) : ControlEvent :=
  {| ce_timestamp := ce_timestamp e; ce_kind := ce_kind e; ce_principal := ce_principal e;
     ce_source := ce_source e; ce_previous_version := ce_previous_version e; ce_version := ce_version e;
     ce_signature := ce_signature e; ce_reason := ce_reason e;
     ce_revoked_subjects := Some (size (rd_subjects d)); ce_revoked_tokens := Some (size (rd_token_ids d));
     ce_not_before := rd_not_before_label d |}.

Definition revocation_bundle : BundleDocument RevocationDocument.
Proof using from_yaml rfc3339_timestamp H.
  refine {| DOMAIN := RevocationList; NOUN := "revocation list";
            KIND_loaded := RevocationLoaded; KIND_changed := RevocationChanged;
            KIND_rejected := RevocationRejected;
            compile := revocation_compile; version := rd_version;
            describe := revocation_describe |}; done.
Defined.

(** ** What a list revokes *)

(** The meaning of a written list: it names the subject, or the token's id,
    or sets a cut-off the token cannot be shown to postdate. *)
Definition file_revokes (f : RevocationFile) (a : Authenticated) : Prop :=
  (exists e, e ∈ rf_subjects f /\ rs_subject e = subject (auth_principal a))
  \/ (exists e id, e ∈ rf_token_ids f /\ token_id (auth_token a) = Some id /\ rt_token_id e = id)
  \/ (exists nb cutoff, rf_not_before f = Some nb /\ parse_rfc3339 (nb_at nb) = Some cutoff
        /\ forall at_, issued_at (auth_token a) = Some at_ -> (at_ < cutoff)%N).

Lemma revocation_parse_file bytes file :
  revocation_parse bytes = Ok file ->
  from_yaml bytes = Ok file
  /\ (forall e, e ∈ rf_subjects file -> is_blank (rs_subject e) = false)
  /\ (forall e, e ∈ rf_token_ids file -> is_blank (rt_token_id e) = false)
  /\ (forall nb, rf_not_before file = Some nb -> exists t, parse_rfc3339 (nb_at nb) = Some t).
Proof.
  unfold revocation_parse. destruct (from_yaml bytes) as [f|e]; [|done]. cbn [map_err].
  destruct (_ || _); [done|]. destruct (existsb _ (rf_subjects f)) eqn:Es; [done|].
  destruct (existsb _ (rf_token_ids f)) eqn:Et; [done|]. intros Hf.
  assert (f = file) as ->.
  { destruct (rf_not_before f) as [nb|]; [destruct (parse_rfc3339 _)|]; congruence. }
  assert (Hex : forall A (g : A -> bool) (l : list A), existsb g l = false -> forall x, x ∈ l -> g x = false).
  { intros A g l Hl x Hx. destruct (g x) eqn:E; [|done].
    assert (existsb g l = true) by (apply existsb_elem_of; eauto). congruence. }
  split; [done|]. split; [by apply Hex|]. split; [by apply Hex|].
  intros nb Hnb. rewrite Hnb in Hf. destruct (parse_rfc3339 (nb_at nb)) as [t|]; [eauto|done].
Qed.

(** The compiled list refuses exactly what the written list revokes.  A
    list that compiles has no blank entry and a readable cut-off; a validated
    token is refused if and only if the list names its subject or its token
    id, or sets a cut-off and the token was issued before it or carries no
    issue time; and a subject's revocation holds for every token of that
    subject, whatever the token says. *)
Theorem revocation_check_exact bytes doc :
  revocation_compile bytes = Ok doc ->
  exists file, from_yaml bytes = Ok file
    /\ rd_version doc = version_label (rf_version file) bytes
    /\ (forall a, revocation_check doc a <> None <-> file_revokes file a)
    /\ (forall e token, e ∈ rf_subjects file ->
          forall p, subject p = rs_subject e ->
            revocation_check doc {| auth_principal := p; auth_token := token |} = Some RSubject)
    /\ (forall e, e ∈ rf_subjects file -> is_blank (rs_subject e) = false).
Proof.
  unfold revocation_compile. destruct (revocation_parse bytes) as [file|e] eqn:Ep; [|done]. intros [= <-].
  apply revocation_parse_file in Ep as (Hy & Hs & Ht & Hn). exists file. split; [done|]. split; [done|].
  assert (Hsub : forall x, x ∈ (list_to_set (map rs_subject (rf_subjects file)) : gset string)
                 <-> exists e, e ∈ rf_subjects file /\ rs_subject e = x).
  { intros x. rewrite elem_of_list_to_set, list_elem_of_fmap. naive_solver. }
  assert (Htok : forall x, x ∈ (list_to_set (map rt_token_id (rf_token_ids file)) : gset string)
                 <-> exists e, e ∈ rf_token_ids file /\ rt_token_id e = x).
  { intros x. rewrite elem_of_list_to_set, list_elem_of_fmap. naive_solver. }
  split; [|split; [|done]].
  - intros [p [iat jti acts kind]]. unfold revocation_check, file_revokes, issued_before.
    cbn [rd_subjects rd_token_ids rd_not_before auth_principal auth_token issued_at token_id].
    destruct (bool_decide_reflect (subject p ∈ (list_to_set (map rs_subject (rf_subjects file)) : gset string)))
      as [Hin|Hnin].
    { apply Hsub in Hin. split; [by left|done]. }
    rewrite Hsub in Hnin. split.
    + intros Hr. right. destruct jti as [id|]; cbn [is_some_and] in Hr.
      * destruct (bool_decide_reflect (id ∈ (list_to_set (map rt_token_id (rf_token_ids file)) : gset string)))
          as [Hid|_]; [apply Htok in Hid as (e & ? & ?); left; eauto|right].
        destruct (rf_not_before file) as [nb|]; [|done]. cbn [mbind option_bind] in Hr.
        destruct (parse_rfc3339 (nb_at nb)) as [cutoff|] eqn:Ec; [|done]. exists nb, cutoff.
        split; [done|]. split; [done|]. intros at_ ->. cbn in Hr. destruct (N.ltb_spec at_ cutoff); done.
      * right. destruct (rf_not_before file) as [nb|]; [|done]. cbn [mbind option_bind] in Hr.
        destruct (parse_rfc3339 (nb_at nb)) as [cutoff|] eqn:Ec; [|done]. exists nb, cutoff.
        split; [done|]. split; [done|]. intros at_ ->. cbn in Hr. destruct (N.ltb_spec at_ cutoff); done.
    + intros [Hx|[(e & id & He & -> & Hid)|(nb & cutoff & -> & Hc & Hat)]]; [done| |].
      * cbn [is_some_and]. rewrite bool_decide_eq_true_2; [done|]. apply Htok. eauto.
      * destruct (is_some_and jti _); [done|]. cbn [mbind option_bind]. rewrite Hc.
        destruct iat as [at_|]; cbn [is_none_or]; [|done]. by rewrite (proj2 (N.ltb_lt _ _) (Hat at_ eq_refl)).
  - intros e token He p Hp. unfold revocation_check. cbn [rd_subjects auth_principal].
    rewrite bool_decide_eq_true_2; [done|]. apply Hsub. eauto.
Qed.
End Compile.

Module RevocationWitness.
Import Bundle.Witness.

Definition sample : RevocationFile :=
  {| rf_version := 2;
     rf_subjects := [{| rs_subject := "alice"; rs_revoked_at := "t"; rs_reason := None |}];
     rf_token_ids := []; rf_not_before := Some {| nb_at := "cut"; nb_reason := None |} |}.

Lemma revocation_check_exact_witness :
  exists doc, revocation_compile (H := toy_crypto) (fun _ => Ok sample) (fun _ => Some 100%Z) [] = Ok doc
  /\ exists file, Ok sample = Ok (E := string) file
    /\ rd_version doc = version_label (H := toy_crypto) (rf_version file) []
    /\ (forall a, revocation_check doc a <> None <-> file_revokes (fun _ => Some 100%Z) file a)
    /\ (forall e token, e ∈ rf_subjects file ->
          forall p, subject p = rs_subject e ->
            revocation_check doc {| auth_principal := p; auth_token := token |} = Some RSubject)
    /\ (forall e, e ∈ rf_subjects file -> is_blank (rs_subject e) = false).
Proof.
  eexists. split; [reflexivity|].
  apply (revocation_check_exact (H := toy_crypto) (fun _ => Ok sample) (fun _ => Some 100%Z) []). reflexivity.
Defined.

End RevocationWitness.
