(* ===== verification/Session.v ===== *)
(** * HTTP sessions (src/src/server/session.rs, the watcher hook of src/src/server/http.rs)

    The manager's own table: when each session was last seen and which
    principal it is bound to.  rmcp's [LocalSessionManager] is a parameter: its
    answers are arguments of the operations, and the router behind the
    middleware ([next]) is an arbitrary handler. *)
From S2P Require Import Prelude RustStr PolicyTypes Scope ResponseCache Revocation.

Definition SESSION_ID_HEADER : string := "mcp-session-id".

Record SessionState := { last_seen : N; owner : option OwnerKey }.

Abbreviation Sessions := (gmap string SessionState).

Section Manager.
Implicit Types (m : Sessions) (id : string) (now : N).

Definition bump now id m : Sessions :=
  match m !! id with
  | Some state => <[id := {| last_seen := now; owner := owner state |}]> m
  | None => <[id := {| last_seen := now; owner := None |}]> m
  end.

Definition forget id m : Sessions := delete id m.

(** The session's state, inserted if it is not there; only the first binding
    sticks. *)
Definition bind_owner now id (o : OwnerKey) m : Sessions :=
  let state := default {| last_seen := now; owner := None |} (m !! id) in
  <[id := match owner state with
          | None => {| last_seen := last_seen state; owner := Some o |}
          | Some _ => state
          end]> m.

Definition session_owner id m : option OwnerKey := m !! id ≫= owner.

Definition owner_matches id (requester : OwnerKey) m : bool :=
  is_some_and (session_owner id m) (fun o => bool_decide (o = requester)).

(** The sessions a sweep collected are closed one by one; a failed close of
    the inner session is only logged. *)
Definition remove_all (ids : list string) m : Sessions := foldl (fun m id => forget id m) m ids.

Definition ids_where (f : SessionState -> bool) m : list string :=
  map fst (List.filter (fun p => f p.2) (map_to_list m)).

Definition close_where (revoked : OwnerKey -> bool) m : Sessions * nat :=
  let doomed := ids_where (fun state => is_some_and (owner state) revoked) m in
  (remove_all doomed m, length doomed).

(** [Instant::duration_since] saturates at zero, as [N]'s subtraction does. *)
Definition reap_once (idle_ttl : N) now m : Sessions :=
  remove_all (ids_where (fun state => (idle_ttl <? now - last_seen state)%N) m) m.

(** *** [impl SessionManager]: each call with the inner manager's answer *)
Definition create_session {T E} (answer : result (string * T) E) now m
    : Sessions * result (string * T) E :=
  match answer with Ok (id, t) => (bump now id m, Ok (id, t)) | Err e => (m, Err e) end.

(** [initialize_session], [create_stream], [accept_message],
    [create_standalone_stream] and [resume] have this one body. *)
Definition delegate {T E} (answer : result T E) now id m : Sessions * result T E :=
  match answer with Ok t => (bump now id m, Ok t) | Err e => (m, Err e) end.

Definition has_session {E} (answer : result bool E) now id m : Sessions * result bool E :=
  match answer with
  | Ok exists_ => (if exists_ then bump now id m else m, Ok exists_)
  | Err e => (m, Err e)
  end.

Definition close_session {E} (answer : result unit E) id m : Sessions * result unit E :=
  (forget id m, answer).

(** *** [impl SessionStore]: the admin inventory *)
Definition entry_le (p q : string * option OwnerKey) : Prop := str_le p.1 q.1.
#[local] Instance entry_le_dec : RelDecision entry_le.
Proof. intros p q. unfold entry_le, str_le. apply _. Defined.

Definition session_list m : list (string * option OwnerKey) :=
  merge_sort entry_le (prod_map id owner <$> map_to_list m).

Inductive InventoryError := NotFound | Unavailable.

Definition session_revoke {E} (answer : result unit E) id m : Sessions * result unit InventoryError :=
  match m !! id with
  | None => (m, Err NotFound)
  | Some _ => let '(m', r) := close_session answer id m in (m', map_err (fun _ => Unavailable) r)
  end.

(** *** The middleware *)
Record HttpRequest := {
  rq_headers : HeaderMap;
  rq_principal : option Principal;
  rq_facts : option TokenFacts;
}.

Record HttpResponse := { rp_status : N; rp_headers : HeaderMap; rp_body : string }.

Definition session_not_found : HttpResponse :=
  {| rp_status := 404; rp_headers := [("content-type", "text/plain; charset=utf-8")];
     rp_body := "Session not found" |}.

Definition requester_of (r : HttpRequest) : OwnerKey :=
  match rq_principal r with Some p => owner_of p | None => OwnerLocal end.

Definition session_named (headers : HeaderMap) : option string :=
  header_get headers SESSION_ID_HEADER ≫= header_to_str.

Definition enforce_session_owner (next : HttpRequest -> Sessions -> Sessions * HttpResponse) now
    (request : HttpRequest) m : Sessions * HttpResponse :=
  let requester := requester_of request in
  match session_named (rq_headers request) with
  | Some id => if owner_matches id requester m then next request m else (m, session_not_found)
  | None =>
      let '(m', response) := next request m in
      (match session_named (rp_headers response) with
       | Some created => bind_owner now created requester m'
       | None => m'
       end, response)
  end.

(** The hook [watch_revocations] runs when the list in force changes. *)
Definition revocation_hook (previous current : RevocationDocument) m : Sessions * nat :=
  let cutoff_moved := negb (bool_decide (rd_not_before previous = rd_not_before current)) in
  close_where (fun o =>
    match o with
    | OwnerPrincipal _ subject => cutoff_moved || revokes_subject current subject
    | OwnerLocal => false
    end) m.
End Manager.

(** ** Histories

    Every change of the table is one of three steps under the write lock, so
    concurrent requests, sweeps and revocations are sequences of them. *)
Inductive SessionStep :=
| SBump (now : N) (id : string)
| SForget (id : string)
| SBind (now : N) (id : string) (o : OwnerKey).

Definition session_step (s : SessionStep) (m : Sessions) : Sessions :=
  match s with
  | SBump now id => bump now id m
  | SForget id => forget id m
  | SBind now id o => bind_owner now id o m
  end.

Definition session_run (steps : list SessionStep) (m : Sessions) : Sessions :=
  foldl (fun m s => session_step s m) m steps.

(** A handler that changes the table by a sequence of steps. *)
Definition steps_to (m m' : Sessions) : Prop := exists steps, m' = session_run steps m.

Lemma session_run_app l1 l2 m : session_run (l1 ++ l2) m = session_run l2 (session_run l1 m).
Proof. unfold session_run. by rewrite foldl_app. Qed.

#[export] Instance steps_to_preorder : PreOrder steps_to.
Proof.
  split; [intros m; by exists []|]. intros m1 m2 m3 [l1 ->] [l2 ->]. exists (l1 ++ l2).
  by rewrite session_run_app.
Qed.

Lemma steps_to_step s m : steps_to m (session_step s m).
Proof. by exists [s]. Qed.

Lemma steps_to_remove_all ids m : steps_to m (remove_all ids m).
Proof.
  revert m. induction ids as [|id ids IH]; intros m; [reflexivity|].
  etransitivity; [apply (steps_to_step (SForget id))|apply IH].
Qed.

Create HintDb session.
#[export] Hint Resolve steps_to_remove_all : session.
#[export] Hint Extern 0 (steps_to ?m ?m) => reflexivity : session.
#[export] Hint Extern 1 (steps_to _ (bump ?n ?i _)) => apply (steps_to_step (SBump n i)) : session.
#[export] Hint Extern 1 (steps_to _ (forget ?i _)) => apply (steps_to_step (SForget i)) : session.
#[export] Hint Extern 1 (steps_to _ (bind_owner ?n ?i ?o _)) => apply (steps_to_step (SBind n i o)) : session.

(** Every operation of the manager is a sequence of steps. *)
Lemma manager_steps {T E} (created : result (string * T) E) (done_ : result T E) (found : result bool E)
    (closed : result unit E) now ttl id revoked previous current m :
  steps_to m (create_session created now m).1
  /\ steps_to m (delegate done_ now id m).1
  /\ steps_to m (has_session found now id m).1
  /\ steps_to m (close_session closed id m).1
  /\ steps_to m (session_revoke closed id m).1
  /\ steps_to m (close_where revoked m).1
  /\ steps_to m (reap_once ttl now m)
  /\ steps_to m (revocation_hook previous current m).1.
Proof.
  unfold create_session, delegate, has_session, session_revoke, close_session, revocation_hook, close_where,
    reap_once.
  split_and!; repeat case_match; simplify_eq/=; auto with session.
Qed.

Lemma middleware_steps next now request m :
  (forall r m, steps_to m (next r m).1) -> steps_to m (enforce_session_owner next now request m).1.
Proof.
  intros Hnext. unfold enforce_session_owner. destruct (session_named (rq_headers request)).
  - destruct (owner_matches _ _ _); [apply Hnext|reflexivity].
  - specialize (Hnext request m). destruct (next request m) as [m' response]. cbn [fst] in *.
    destruct (session_named _); [|done]. etransitivity; [done|]. auto with session.
Qed.

(** *** Owners *)
Lemma session_owner_step s id m :
  session_owner id (session_step s m) =
    match s with
    | SBump _ _ => session_owner id m
    | SForget i => if bool_decide (i = id) then None else session_owner id m
    | SBind _ i o => match session_owner id m with
                     | None => if bool_decide (i = id) then Some o else None
                     | Some o' => Some o'
                     end
    end.
Proof.
  unfold session_owner, session_step, bump, forget, bind_owner.
  destruct s as [now i|i|now i o].
  - destruct (m !! i) as [st|] eqn:E; destruct (decide (i = id)) as [->|];
      rewrite ?lookup_insert_eq, ?lookup_insert_ne, ?E; done.
  - case_bool_decide; subst; by rewrite ?lookup_delete_eq, ?lookup_delete_ne.
  - case_bool_decide as Hi; subst.
    + rewrite lookup_insert_eq. destruct (m !! id) as [[ls [o'|]]|]; done.
    + rewrite lookup_insert_ne by done. destruct (m !! id) as [[ls [o'|]]|]; done.
Qed.

Lemma owner_matches_spec id r m : owner_matches id r m = true <-> session_owner id m = Some r.
Proof.
  unfold owner_matches. destruct (session_owner id m) as [o|]; cbn; [|done].
  rewrite bool_decide_eq_true. split; congruence.
Qed.

(** The step that bound a session, and that it stayed bound since. *)
Definition bound_by (steps : list SessionStep) (id : string) (r : OwnerKey) : Prop :=
  exists pre now post, steps = pre ++ SBind now id r :: post
    /\ session_owner id (session_run pre ∅) = None
    /\ forall a b, post = a ++ b -> session_owner id (session_run (pre ++ SBind now id r :: a) ∅) = Some r.

Lemma bound_by_snoc steps s id r :
  session_owner id (session_run (steps ++ [s]) ∅) = Some r -> bound_by steps id r ->
  bound_by (steps ++ [s]) id r.
Proof.
  intros Hs (pre & now & post & -> & Hpre & Hpost). exists pre, now, (post ++ [s]).
  split; [by rewrite <-(assoc_L (++))|]. split; [done|]. intros a b Hab.
  destruct (decide (b = [])) as [->|Hb].
  - rewrite (right_id_L [] (++)) in Hab. subst a. by rewrite <-(assoc_L (++)) in Hs.
  - destruct (exists_last Hb) as (b' & x & ->). rewrite (assoc_L (++)) in Hab.
    apply app_inj_tail in Hab as [-> _]. by apply (Hpost a b').
Qed.

Lemma bound_by_history steps id r :
  session_owner id (session_run steps ∅) = Some r -> bound_by steps id r.
Proof.
  induction steps as [|s steps IH] using rev_ind; intros Ho.
  { cbn in Ho. unfold session_owner in Ho. by rewrite lookup_empty in Ho. }
  assert (Ho' := Ho). rewrite session_run_app in Ho'. cbn [session_run foldl] in Ho'.
  change (foldl _ ∅ steps) with (session_run steps ∅) in Ho'. rewrite session_owner_step in Ho'.
  destruct s as [now i|i|now i o].
  - apply bound_by_snoc; auto.
  - case_bool_decide; [done|]. apply bound_by_snoc; auto.
  - destruct (session_owner id (session_run steps ∅)) as [o'|] eqn:E.
    + apply bound_by_snoc; [done|]. apply IH. congruence.
    + case_bool_decide; [|done]. simplify_eq. exists steps, now, []. split; [done|]. split; [done|].
      intros a b Hab. symmetry in Hab. apply app_nil in Hab as [-> ->]. done.
Qed.

(** *** Sweeps *)
Lemma remove_all_lookup ids m id :
  remove_all ids m !! id = if bool_decide (id ∈ ids) then None else m !! id.
Proof.
  revert m. induction ids as [|i ids IH]; intros m; [done|]. cbn [remove_all foldl].
  change (foldl _ (forget i m) ids) with (remove_all ids (forget i m)). rewrite IH. unfold forget.
  destruct (decide (id ∈ ids)).
  - rewrite !bool_decide_eq_true_2; [done|set_solver|done].
  - rewrite (bool_decide_eq_false_2 (id ∈ ids)) by done. destruct (decide (i = id)) as [->|].
    + rewrite lookup_delete_eq, bool_decide_eq_true_2; [done|set_solver].
    + rewrite lookup_delete_ne, bool_decide_eq_false_2; [done|set_solver|done].
Qed.

Lemma ids_where_elem f m id :
  id ∈ ids_where f m <-> exists st, m !! id = Some st /\ f st = true.
Proof.
  unfold ids_where. rewrite list_elem_of_fmap. split.
  - intros ([i st] & -> & Hin). apply list_elem_of_In, filter_In in Hin as [Hin Hf].
    apply list_elem_of_In, elem_of_map_to_list in Hin. eauto.
  - intros (st & Hm & Hf). exists (id, st). split; [done|].
    apply list_elem_of_In, filter_In. split; [|done]. by apply list_elem_of_In, elem_of_map_to_list.
Qed.

Lemma remove_where_lookup f m id :
  remove_all (ids_where f m) m !! id
  = m !! id ≫= (fun st => if f st then None else Some st).
Proof.
  rewrite remove_all_lookup. destruct (m !! id) as [st|] eqn:E; cbn.
  - destruct (f st) eqn:Ef.
    + rewrite bool_decide_eq_true_2; [done|]. apply ids_where_elem. eauto.
    + rewrite bool_decide_eq_false_2; [done|]. rewrite ids_where_elem. naive_solver congruence.
  - by destruct (bool_decide _).
Qed.

Lemma remove_all_size ids m :
  NoDup ids -> (forall id, id ∈ ids -> is_Some (m !! id)) -> (length ids + size (remove_all ids m))%nat = size m.
Proof.
  revert m. induction ids as [|i ids IH]; intros m; [done|]. intros [Hi Hnd]%NoDup_cons Hin.
  cbn [remove_all foldl length]. change (foldl _ (forget i m) ids) with (remove_all ids (forget i m)).
  assert (Hsz : S (size (forget i m)) = size m).
  { destruct (Hin i) as [st Hst]; [set_solver|]. unfold forget. rewrite map_size_delete_Some by eauto.
    assert (size m <> 0)%nat; [|lia]. intros Hz. apply map_size_empty_inv in Hz. subst.
    by rewrite lookup_empty in Hst. }
  rewrite <-Hsz. cbn. f_equal. apply IH; [done|]. intros id Hid. unfold forget.
  rewrite lookup_delete_ne by (intros ->; done). apply Hin. set_solver.
Qed.

Lemma ids_where_NoDup f m : NoDup (ids_where f m).
Proof.
  unfold ids_where. assert (Hnd := NoDup_fst_map_to_list m). revert Hnd.
  induction (map_to_list m) as [|[i st] l IH]; [done|]. cbn. intros [Hi Hnd]%NoDup_cons.
  destruct (f st); [|auto]. cbn. apply NoDup_cons. split; [|auto]. intros Hin. apply Hi.
  apply list_elem_of_fmap in Hin as ([j st'] & ? & Hin). apply list_elem_of_In, filter_In in Hin as [Hin _].
  apply list_elem_of_fmap. exists (j, st'). split; [done|]. by apply list_elem_of_In.
Qed.

Lemma bound_by_owner steps id r : bound_by steps id r -> session_owner id (session_run steps ∅) = Some r.
Proof.
  intros (pre & now & post & -> & _ & Hpost). apply (Hpost post []). by rewrite (right_id_L [] (++)).
Qed.

(** C37: A session id is not a capability.  After any history of table steps, a
    request that names a session reaches the handler only if the session was
    bound, while it had no owner, to this same requester and has stayed bound
    ever since; every other request naming it, an unbound session included, is
    answered 404 with the table untouched.  And a session first announced by
    the response to a request that named none is bound to that requester
    before the response leaves. *)
Theorem session_belongs_to_creator next now request steps :
  (forall r m, steps_to m (next r m).1) ->
  let m := session_run steps ∅ in
  match session_named (rq_headers request) with
  | Some id =>
      (bound_by steps id (requester_of request) /\ enforce_session_owner next now request m = next request m)
      \/ (~ bound_by steps id (requester_of request)
          /\ enforce_session_owner next now request m = (m, session_not_found))
  | None =>
      (enforce_session_owner next now request m).2 = (next request m).2
      /\ forall id, session_named (rp_headers (next request m).2) = Some id ->
           session_owner id (next request m).1 = None ->
           exists more, (enforce_session_owner next now request m).1 = session_run (steps ++ more) ∅
             /\ bound_by (steps ++ more) id (requester_of request)
  end.
Proof.
  intros Hnext m. unfold enforce_session_owner. destruct (session_named (rq_headers request)) as [id|].
  - destruct (owner_matches id (requester_of request) m) eqn:E; [left|right]; (split; [|done]).
    + by apply bound_by_history, owner_matches_spec.
    + intros Hb%bound_by_owner. apply owner_matches_spec in Hb. unfold m in E. congruence.
  - destruct (Hnext request m) as [more Hmore]. destruct (next request m) as [m' response].
    cbn [fst snd] in *. split; [done|]. intros id -> Hnone.
    assert (Hrun : bind_owner now id (requester_of request) m'
                   = session_run (steps ++ more ++ [SBind now id (requester_of request)]) ∅).
    { rewrite !session_run_app. subst m'. done. }
    exists (more ++ [SBind now id (requester_of request)]). split; [done|]. apply bound_by_history.
    rewrite <-Hrun. change (bind_owner now id (requester_of request) m')
      with (session_step (SBind now id (requester_of request)) m').
    rewrite session_owner_step, Hnone. by rewrite bool_decide_eq_true_2.
Qed.

(** A change of the revocation list closes exactly the sessions it must:
    none bound to a revoked subject remains, none bound to any principal
    remains when the cut-off moved, every other session (unbound, local, or of
    a principal the list does not touch) is as it was, and the number reported
    is the number closed. *)
Theorem revoked_sessions_closed previous current m :
  let '(m', closed) := revocation_hook previous current m in
  (forall id tenant subject, session_owner id m' = Some (OwnerPrincipal tenant subject) ->
     revokes_subject current subject = false /\ rd_not_before previous = rd_not_before current)
  /\ (forall id st, m !! id = Some st ->
        (forall tenant subject, owner st = Some (OwnerPrincipal tenant subject) ->
           revokes_subject current subject = false /\ rd_not_before previous = rd_not_before current) ->
        m' !! id = Some st)
  /\ m' ⊆ m
  /\ (closed + size m')%nat = size m.
Proof.
  unfold revocation_hook, close_where. set (f := fun st : SessionState => is_some_and (owner st) _).
  assert (Hf : forall st, f st = false <->
    forall tenant subject, owner st = Some (OwnerPrincipal tenant subject) ->
      revokes_subject current subject = false /\ rd_not_before previous = rd_not_before current).
  { intros [ls [[|t s]|]]; unfold f; cbn; [naive_solver| |naive_solver].
    rewrite orb_false_iff, negb_false_iff, bool_decide_eq_true. split; [naive_solver|]. intros Hts.
    destruct (Hts t s eq_refl). done. }
  assert (Hkept : forall id st, remove_all (ids_where f m) m !! id = Some st -> m !! id = Some st /\ f st = false).
  { intros id st. rewrite remove_where_lookup. destruct (m !! id) as [st'|]; cbn; [|done].
    destruct (f st') eqn:E; [done|]. intros [= ->]. done. }
  split; [|split; [|split]].
  - intros id tenant subject Ho. unfold session_owner in Ho.
    destruct (remove_all _ _ !! id) as [st|] eqn:E; [|done]. apply Hkept in E as [_ E].
    by apply (proj1 (Hf st) E tenant subject).
  - intros id st Hm Hst. rewrite remove_where_lookup, Hm. cbn. by rewrite (proj2 (Hf st) Hst).
  - apply map_subseteq_spec. intros id st E. by apply Hkept in E as [? _].
  - apply remove_all_size; [apply ids_where_NoDup|]. intros id Hid.
    apply ids_where_elem in Hid as (st & -> & _). eauto.
Qed.

Module SessionWitness.

Definition alice : Principal :=
  {| authority := Oidc "https://idp"; tenant := "t"; subject := "alice"; groups := []; scopes := [] |}.

Definition initialize (r : HttpRequest) (m : Sessions) : Sessions * HttpResponse :=
  (bump 5 "s1" m, {| rp_status := 200; rp_headers := [(SESSION_ID_HEADER, "s1")]; rp_body := "" |}).

Lemma session_belongs_to_creator_witness :
  let request := {| rq_headers := []; rq_principal := Some alice; rq_facts := None |} in
  exists more, (enforce_session_owner initialize 6 request ∅).1 = session_run more ∅
    /\ bound_by more "s1" (OwnerPrincipal "t" "alice").
Proof.
  intros request.
  assert (Hnext : forall r m, steps_to m (initialize r m).1) by (intros r m; apply (steps_to_step (SBump 5 "s1"))).
  destruct (session_belongs_to_creator initialize 6 request [] Hnext) as [_ Hbind].
  apply (Hbind "s1"); reflexivity.
Defined.

End SessionWitness.
