(* ===== verification/Inbound.v ===== *)
(** * Inbound bearer authentication (src/src/server/auth.rs, src/src/ports/token_validator.rs)

    The middleware that turns a bearer token into a principal or a refusal,
    and its composition with the session binding on the protected routes
    (src/src/server/http.rs).  The validator is an interface: a state and one
    operation; [Oidc.v] implements it.  The URL parser is the transport's
    parameter. *)
From S2P Require Import Prelude RustStr Json PolicyTypes Signing Bundle Config NetAddr F64 Scope ResponseCache RateLimit Egress Transport ToolCall Revocation Session.

(** ** Rejections *)

Inductive TokenRejection :=
| Malformed | InvalidSignature | Expired | NotYetValid | WrongIssuer | WrongAudience
| UnknownKey | UnsupportedAlgorithm | MissingClaim (claim : string) | KeysUnavailable
| UnknownToken | Revoked | GroupsOverage.

Definition rejection_category (r : TokenRejection) : string :=
  match r with
  | Malformed => "malformed" | InvalidSignature => "invalid_signature" | Expired => "expired"
  | NotYetValid => "not_yet_valid" | WrongIssuer => "wrong_issuer" | WrongAudience => "wrong_audience"
  | UnknownKey => "unknown_key" | UnsupportedAlgorithm => "unsupported_algorithm"
  | MissingClaim _ => "missing_claim" | KeysUnavailable => "keys_unavailable"
  | UnknownToken => "unknown_token" | Revoked => "revoked" | GroupsOverage => "groups_overage"
  end.

Definition is_server_side (r : TokenRejection) : bool :=
  match r with KeysUnavailable => true | _ => false end.

Definition rejection_description (r : TokenRejection) : string :=
  match r with
  | Expired => "the token has expired"
  | NotYetValid => "the token is not yet valid"
  | WrongIssuer => "the token was not issued by the configured issuer"
  | WrongAudience => "the token is not intended for this resource"
  | UnknownKey => "the token is signed with a key this server does not know"
  | UnsupportedAlgorithm => "the token uses an unsupported algorithm"
  | InvalidSignature => "the token signature did not verify"
  | MissingClaim _ => "the token is missing a required claim"
  | Revoked => "the token has been revoked"
  | _ => "the token was not accepted"
  end.

(** [TokenValidator]: what [authenticate] answers, in a state of its own. *)
Class TokenValidator (V : Type) := {
  authenticate : string -> V -> V * result Authenticated TokenRejection;
  forget_validated : V -> V;
}.

(** [StaticValidator]: a table keyed by the token's digest. *)
Definition static_lookup (digest : string -> list byte) (table : gmap string Authenticated) (token : string)
    : result Authenticated TokenRejection :=
  match table !! of_bytes (digest token) with Some a => Ok a | None => Err UnknownToken end.

Definition static_with_facts (digest : string -> list byte) (table : gmap string Authenticated)
    (token : string) (principal : Principal) (facts : TokenFacts) : gmap string Authenticated :=
  <[of_bytes (digest token) := {| auth_principal := principal; auth_token := facts |}]> table.

(** ** Settings *)

Inductive AdminPrincipals := AdminHuman | AdminHumanOrUnknown | AdminAny.

#[export] Instance AdminPrincipals_eq_dec : EqDecision AdminPrincipals.
Proof. solve_decision. Defined.

Definition ADMIN_PRINCIPALS_KEY : string := "MCP_ADMIN_PRINCIPALS".
Definition APPROVALS_KEY : string := "MCP_ADMIN_APPROVALS".

(** [bootstrap::approvals::required]. *)
Definition approvals_required (c : Config) : bool :=
  is_some_and (get c APPROVALS_KEY) (fun v => eq_ignore_ascii_case (trim v) "required").

Definition admin_principals_from_config (c : Config) : result AdminPrincipals string :=
  let value := to_ascii_lowercase <$> setting c ADMIN_PRINCIPALS_KEY in
  let? policy :=
    match value with
    | None => Ok AdminHumanOrUnknown
    | Some v =>
        if String.eqb v "human-or-unknown" then Ok AdminHumanOrUnknown
        else if String.eqb v "human" then Ok AdminHuman
        else if String.eqb v "any" then Ok AdminAny
        else Err (ADMIN_PRINCIPALS_KEY ++ " is " ++ v ++ "; expected human, human-or-unknown, or any")%string
    end in
  if bool_decide (policy = AdminAny) && approvals_required c
  then Err (ADMIN_PRINCIPALS_KEY ++ "=any with " ++ APPROVALS_KEY ++ "=required")%string
  else Ok policy.

Definition admits (p : AdminPrincipals) (kind : SubjectKind) : bool :=
  match p with
  | AdminAny => true
  | AdminHumanOrUnknown => negb (bool_decide (kind = Machine))
  | AdminHuman => bool_decide (kind = Human)
  end.

Record InboundAuthSettings := {
  public_url : string;
  authorization_servers : list string;
  required_scope : string;
}.

Definition PUBLIC_URL_KEY : string := "MCP_PUBLIC_URL".
Definition REQUIRED_SCOPE_KEY : string := "MCP_REQUIRED_SCOPE".
Definition DEFAULT_REQUIRED_SCOPE : string := "mcp:tools".
Definition slash : byte := byte_of 47.

(** [url_host] is [Url::host]. *)
Definition inbound_settings_from_config `{UrlLib} (url_host : Url -> option UrlHost) (c : Config) (auth_mode : string)
    (servers : list string) : result InboundAuthSettings string :=
  match setting c PUBLIC_URL_KEY with
  | None => Err (PUBLIC_URL_KEY ++ " is required when MCP_AUTH_MODE=" ++ auth_mode)%string
  | Some v =>
      let public_url := trim_end_matches slash v in
      match url_parse public_url with
      | None => Err (PUBLIC_URL_KEY ++ " is not a URL")%string
      | Some parsed =>
          if String.eqb (url_scheme parsed) "https"
             || String.eqb (url_scheme parsed) "http" && host_is_loopback (url_host parsed)
          then Ok {| public_url := public_url; authorization_servers := servers;
                     required_scope := default DEFAULT_REQUIRED_SCOPE (setting c REQUIRED_SCOPE_KEY) |}
          else Err (PUBLIC_URL_KEY ++ " must be an https URL (or http on loopback)")%string
      end
  end.

(** ** The middleware *)

(** [Bearer <token>]; the value holds no whitespace but spaces and tabs. *)
Fixpoint split_at_ws (l : list byte) : option (list byte * list byte) :=
  match l with
  | [] => None
  | b :: rest =>
      if ws1 b then Some ([], rest)
      else match split_at_ws rest with Some (x, y) => Some (b :: x, y) | None => None end
  end.

Definition bearer_token (value : string) : option string :=
  match split_at_ws (as_bytes (trim value)) with
  | None => None
  | Some (scheme, rest) =>
      if negb (eq_ignore_ascii_case (of_bytes scheme) "bearer") then None
      else if is_blank (of_bytes rest) then None else Some (trim (of_bytes rest))
  end.

Definition quoted_text (s : string) : string := of_bytes (byte_of 34 :: as_bytes s ++ [byte_of 34]).

(** The error envelope; error codes and descriptions hold nothing to escape. *)
Definition error_body (error description : string) : string :=
  ("{" ++ quoted_text "error" ++ ":" ++ quoted_text error ++ "," ++ quoted_text "error_description" ++ ":"
     ++ quoted_text description ++ "}")%string.

Definition REALM : string := "mcp-devtools".
Definition PROTECTED_RESOURCE_METADATA_PATH : string := "/.well-known/oauth-protected-resource".

Definition error_response (status : N) (challenge error description : string) : HttpResponse :=
  {| rp_status := status;
     rp_headers :=
       [("www-authenticate", if header_value_ok challenge then challenge
                             else ("Bearer realm=" ++ quoted_text REALM)%string);
        ("content-type", "application/json")];
     rp_body := error_body error description |}.

Definition base_challenge (s : InboundAuthSettings) : string :=
  ("Bearer realm=" ++ quoted_text REALM ++ ", resource_metadata="
     ++ quoted_text (public_url s ++ PROTECTED_RESOURCE_METADATA_PATH))%string.

Definition challenge (s : InboundAuthSettings) (status : N) (error : option (string * TokenRejection))
    (body_error body_description : string) : HttpResponse :=
  error_response status
    (match error with
     | None => base_challenge s
     | Some (code, rejection) =>
         (base_challenge s ++ ", error=" ++ quoted_text code ++ ", error_description="
            ++ quoted_text (rejection_category rejection))%string
     end) body_error body_description.

Definition principal_kind_refused (s : InboundAuthSettings) (kind : SubjectKind) : HttpResponse :=
  match kind with
  | Machine => error_response 403 (base_challenge s) "machine_principal"
      "service-account and other non-human principals are not admitted to the administrative API (MCP_ADMIN_PRINCIPALS)"
  | Human | UnknownKind => error_response 403 (base_challenge s) "unverified_principal_kind"
      "the token does not positively identify a person, and MCP_ADMIN_PRINCIPALS=human admits only those"
  end.

Definition insufficient_scope (s : InboundAuthSettings) : HttpResponse :=
  error_response 403
    (base_challenge s ++ ", error=" ++ quoted_text "insufficient_scope" ++ ", scope="
       ++ quoted_text (required_scope s))%string
    "insufficient_scope" "the token does not carry the scope required for this resource".

Definition rate_limited (retry_after_secs : N) : HttpResponse :=
  {| rp_status := 429;
     rp_headers := [("content-type", "application/json");
                    ("retry-after", of_bytes (render_u64 retry_after_secs))];
     rp_body := error_body "rate_limited"
       "the principal has exceeded its request rate; retry after the indicated delay" |}.

Definition keys_unavailable : HttpResponse :=
  {| rp_status := 503; rp_headers := [("content-type", "application/json")];
     rp_body := error_body "authentication_unavailable" "signing keys unavailable" |}.

(** *** Observed principals: a map of maps in key order *)
Definition OBSERVED_MAX : nat := 10000.

Abbreviation Observed := (gmap string (gmap string Principal)).

Definition observed_count (o : Observed) : nat := map_fold (fun _ m n => (size m + n)%nat) 0%nat o.

Definition observed_principal (tenant subject : string) (o : Observed) : option Principal :=
  (o !! tenant) ≫= (.!! subject).

Fixpoint least (keys : list string) : option string :=
  match keys with
  | [] => None
  | k :: rest => Some (match least rest with Some k' => if str_leb k k' then k else k' | None => k end)
  end.

(** [BTreeMap::pop_first]: the first tenant with all its subjects. *)
Definition pop_first (o : Observed) : Observed :=
  match least (map fst (map_to_list o)) with Some k => delete k o | None => o end.

Definition observe (p : Principal) (o : Observed) : Observed :=
  if bool_decide (observed_principal (tenant p) (subject p) o = Some p) then o
  else
    let o := if (OBSERVED_MAX <=? observed_count o)%nat then pop_first o else o in
    <[tenant p := <[subject p := p]> (default ∅ (o !! tenant p))]> o.

(** *** The boundary *)
Record InboundAuth (V : Type) := {
  ia_validator : V;
  ia_settings : InboundAuthSettings;
  (** The revocation list in force, if one is enforced. *)
  ia_revocations : option RevocationDocument;
  (** Whether refusals of revoked tokens are journaled, and the journal. *)
  ia_audit : bool;
  ia_journal : list Bundle.Entry;
  ia_rate_limit : option RateLimiter;
  ia_observed : Observed;
  ia_admin_principals : AdminPrincipals;
  ia_admin_boundary : bool;
}.
Arguments ia_validator {V} _. Arguments ia_settings {V} _. Arguments ia_revocations {V} _.
Arguments ia_audit {V} _. Arguments ia_journal {V} _. Arguments ia_rate_limit {V} _.
Arguments ia_observed {V} _. Arguments ia_admin_principals {V} _. Arguments ia_admin_boundary {V} _.

Section Bearer.
Context {V : Type} `{TokenValidator V}.
Implicit Type auth : InboundAuth V.

Definition inbound_new (v : V) (s : InboundAuthSettings) : InboundAuth V :=
  {| ia_validator := v; ia_settings := s; ia_revocations := None; ia_audit := false; ia_journal := [];
     ia_rate_limit := None; ia_observed := ∅; ia_admin_principals := AdminHumanOrUnknown;
     ia_admin_boundary := false |}.

Definition for_admin auth : InboundAuth V :=
  {| ia_validator := ia_validator auth;
     ia_settings := {| public_url := public_url (ia_settings auth);
                       authorization_servers := authorization_servers (ia_settings auth);
                       required_scope := "mcp:admin" |};
     ia_revocations := ia_revocations auth; ia_audit := ia_audit auth; ia_journal := ia_journal auth;
     ia_rate_limit := Some (limiter_new {| per_second := f64_of 5; burst := f64_of 10 |});
     ia_observed := ia_observed auth; ia_admin_principals := ia_admin_principals auth;
     ia_admin_boundary := true |}.

Definition with_state auth (v : V) (journal : list Bundle.Entry) (limiter : option RateLimiter)
    (observed : Observed) : InboundAuth V :=
  {| ia_validator := v; ia_settings := ia_settings auth; ia_revocations := ia_revocations auth;
     ia_audit := ia_audit auth; ia_journal := journal; ia_rate_limit := limiter; ia_observed := observed;
     ia_admin_principals := ia_admin_principals auth; ia_admin_boundary := ia_admin_boundary auth |}.

(** [journal_revoked]: the record, whose durability changes nothing. *)
Definition revoked_event (stamp : string) (a : Authenticated) (r : RevocationReason) (list_version : string)
    : ControlEvent :=
  let e := with_reason (event_now stamp RevokedTokenRejected) (revocation_reason_as_str r) in
  {| ce_timestamp := ce_timestamp e; ce_kind := ce_kind e; ce_principal := Some (auth_principal a);
     ce_source := ce_source e; ce_previous_version := ce_previous_version e; ce_version := Some list_version;
     ce_signature := ce_signature e; ce_reason := ce_reason e;
     ce_revoked_subjects := ce_revoked_subjects e; ce_revoked_tokens := ce_revoked_tokens e;
     ce_not_before := ce_not_before e |}.

Definition journal_revoked auth (stamp : string) (o : AppendOutcome) (a : Authenticated)
    (r : RevocationReason) (list_version : string) : list Bundle.Entry :=
  if ia_audit auth then (append_control (ia_journal auth) (revoked_event stamp a r list_version) o).1
  else ia_journal auth.

Definition presented (request : HttpRequest) : option string :=
  (header_get (rq_headers request) "authorization" ≫= header_to_str) ≫= bearer_token.

(** One request up to [next]: either it goes on, with the principal and the
    token's facts in its extensions, or it is answered here.  [now] and
    [stamp] are the clocks, [o] the journal's answer should it be asked. *)
Definition require_bearer (now : N) (stamp : string) (o : AppendOutcome) (request : HttpRequest) auth
    : InboundAuth V * (HttpRequest + HttpResponse) :=
  let s := ia_settings auth in
  match presented request with
  | None => (auth, inr (challenge s 401 None "unauthorized" "a bearer token is required"))
  | Some token =>
      let '(v, answer) := authenticate token (ia_validator auth) in
      let auth := with_state auth v (ia_journal auth) (ia_rate_limit auth) (ia_observed auth) in
      match answer with
      | Err rejection =>
          (auth, inr (if is_server_side rejection then keys_unavailable
                      else challenge s 401 (Some ("invalid_token", rejection)) "invalid_token"
                             (rejection_description rejection)))
      | Ok a =>
          match ia_revocations auth ≫= (fun d => (fun r => (r, rd_version d)) <$> revocation_check d a) with
          | Some (reason, list_version) =>
              (with_state auth (ia_validator auth) (journal_revoked auth stamp o a reason list_version)
                 (ia_rate_limit auth) (ia_observed auth),
               inr (challenge s 401 (Some ("invalid_token", Revoked)) "invalid_token"
                      "the token has been revoked"))
          | None =>
              let principal := auth_principal a in
              let facts := auth_token a in
              if negb (existsb (String.eqb (required_scope s)) (scopes principal))
              then (auth, inr (insufficient_scope s))
              else if ia_admin_boundary auth && negb (admits (ia_admin_principals auth) (subject_kind facts))
              then (auth, inr (principal_kind_refused s (subject_kind facts)))
              else
                let observed := observe principal (ia_observed auth) in
                let go := inl {| rq_headers := rq_headers request; rq_principal := Some principal;
                                 rq_facts := Some facts |} in
                match ia_rate_limit auth with
                | None => (with_state auth (ia_validator auth) (ia_journal auth) None observed, go)
                | Some limiter =>
                    let '(limiter, verdict) := check_at (subject principal) now limiter in
                    (with_state auth (ia_validator auth) (ia_journal auth) (Some limiter) observed,
                     match verdict with VAllow => go | VRefuse n => inr (rate_limited n) end)
                end
          end
      end
  end.

(** The protected routes in enterprise mode: the bearer check outside, the
    session binding inside, the service innermost. *)
Definition protected_route (service : HttpRequest -> Sessions -> Sessions * HttpResponse) (now : N)
    (stamp : string) (o : AppendOutcome) (request : HttpRequest) (st : InboundAuth V * Sessions)
    : InboundAuth V * Sessions * HttpResponse :=
  let '(auth, m) := st in
  match require_bearer now stamp o request auth with
  | (auth', inl request') =>
      let '(m', response) := enforce_session_owner service now request' m in (auth', m', response)
  | (auth', inr response) => (auth', m, response)
  end.
End Bearer.

(** ** The observed principals stay bounded *)

Lemma observed_count_delete (o : Observed) k m :
  o !! k = Some m -> observed_count o = (size m + observed_count (delete k o))%nat.
Proof.
  intros Hk. unfold observed_count. rewrite (map_fold_delete_L _ _ k m o); [done| |done].
  intros. lia.
Qed.

Lemma observed_count_insert (o : Observed) k m :
  observed_count (<[k := m]> o) = (size m + observed_count (delete k o))%nat.
Proof. rewrite (observed_count_delete _ k m) by apply lookup_insert_eq. by rewrite delete_insert_eq. Qed.

Lemma least_elem keys k : least keys = Some k -> k ∈ keys.
Proof.
  revert k; induction keys as [|k0 keys IH]; intros k; [done|]. cbn. intros [= <-].
  destruct (least keys) as [k'|]; [|set_solver]. destruct (str_leb k0 k'); [set_solver|].
  apply list_elem_of_further, IH. done.
Qed.

(** Every tenant in the inventory has a subject. *)
Definition observed_ok (o : Observed) : Prop :=
  (observed_count o <= OBSERVED_MAX)%nat /\ forall k m, o !! k = Some m -> m <> ∅.

Lemma pop_first_smaller (o : Observed) :
  observed_ok o -> o <> ∅ -> (S (observed_count (pop_first o)) <= observed_count o)%nat /\ observed_ok (pop_first o).
Proof.
  intros [Hc Hne] Ho. unfold pop_first. destruct (least _) as [k|] eqn:E.
  - apply least_elem, list_elem_of_fmap in E as ([k' m] & -> & Hm). apply elem_of_map_to_list in Hm.
    cbn [fst]. assert (Hs := observed_count_delete o k' m Hm).
    assert (size m <> 0)%nat. { rewrite map_size_non_empty_iff. by apply (Hne k'). }
    split; [lia|]. split; [lia|]. intros k m' [_ ?]%lookup_delete_Some. by apply (Hne k).
  - destruct (map_to_list o) as [|[k m] l] eqn:El; [|by cbn in E; destruct (least _)].
    by apply map_to_list_empty_iff in El.
Qed.

Lemma observe_ok p o : observed_ok o -> observed_ok (observe p o).
Proof.
  intros Ho. unfold observe. destruct (bool_decide _) eqn:Eb; [done|].
  assert (Hroom : exists o', (if (OBSERVED_MAX <=? observed_count o)%nat then pop_first o else o) = o'
            /\ (observed_count o' < OBSERVED_MAX)%nat /\ forall k m, o' !! k = Some m -> m <> ∅).
  { destruct (Nat.leb_spec OBSERVED_MAX (observed_count o)) as [Hf|Hf].
    - assert (o <> ∅). { intros ->. unfold observed_count in Hf. rewrite map_fold_empty in Hf.
        apply Nat.leb_le in Hf. by vm_compute in Hf. }
      destruct (pop_first_smaller o Ho) as [Hs [_ Hne]]; [done|]. destruct Ho as [Hc _].
      eexists. split; [done|]. split; [lia|done].
    - exists o. split; [done|]. split; [done|apply Ho]. }
  destruct Hroom as (o' & -> & Hlt & Hne). split.
  - rewrite observed_count_insert.
    assert (Hins : (size (<[subject p := p]> (default ∅ (o' !! tenant p)) : gmap string Principal)
                    <= S (size (default ∅ (o' !! tenant p) : gmap string Principal)))%nat).
    { rewrite map_size_insert. destruct (_ !! subject p); cbn; lia. }
    destruct (o' !! tenant p) as [m|] eqn:E; cbn [default] in *.
    + assert (Hd := observed_count_delete o' _ _ E). cbn in *. lia.
    + rewrite delete_id by done. cbn in Hins. rewrite map_size_empty in Hins. cbn in *. lia.
  - intros k m. rewrite lookup_insert_Some. intros [[_ <-]|[_ Hm]]; [apply insert_non_empty|by apply (Hne k)].
Qed.

(** ** What passes *)
Section Admission.
Context {V : Type} `{TokenValidator V}.
Implicit Type auth : InboundAuth V.

(** The token the request presents was accepted as [a], is not revoked,
    carries the scope, and is of a kind this boundary admits. *)
Definition cleared auth (request : HttpRequest) (a : Authenticated) : Prop :=
  exists token, presented request = Some token
    /\ (authenticate token (ia_validator auth)).2 = Ok a
    /\ (forall d, ia_revocations auth = Some d -> revocation_check d a = None)
    /\ required_scope (ia_settings auth) ∈ scopes (auth_principal a)
    /\ (ia_admin_boundary auth = true -> admits (ia_admin_principals auth) (subject_kind (auth_token a)) = true).

Definition within_budget auth (now : N) (a : Authenticated) : Prop :=
  forall l, ia_rate_limit auth = Some l -> (check_at (subject (auth_principal a)) now l).2 = VAllow.

Definition carrying (request : HttpRequest) (a : Authenticated) : HttpRequest :=
  {| rq_headers := rq_headers request; rq_principal := Some (auth_principal a);
     rq_facts := Some (auth_token a) |}.

Definition refusal_statuses : list N := [401; 403; 404; 429; 503]%N.

(** What the middleware does with a request it does not clear. *)
Definition untouched auth auth' : Prop :=
  ia_rate_limit auth' = ia_rate_limit auth /\ ia_observed auth' = ia_observed auth.

Lemma scope_held (s : string) (l : list string) : existsb (String.eqb s) l = true <-> s ∈ l.
Proof. rewrite existsb_elem_of. setoid_rewrite String.eqb_eq. naive_solver. Qed.

Lemma require_bearer_spec now stamp o request auth :
  let '(auth', r) := require_bearer now stamp o request auth in
  (exists a, cleared auth request a /\ within_budget auth now a /\ r = inl (carrying request a)
     /\ ia_rate_limit auth' = fst <$> (check_at (subject (auth_principal a)) now <$> ia_rate_limit auth)
     /\ ia_observed auth' = observe (auth_principal a) (ia_observed auth)
     /\ ia_journal auth' = ia_journal auth)
  \/ (exists a n, cleared auth request a /\ ~ within_budget auth now a /\ r = inr (rate_limited n)
     /\ ia_rate_limit auth' = fst <$> (check_at (subject (auth_principal a)) now <$> ia_rate_limit auth)
     /\ ia_observed auth' = observe (auth_principal a) (ia_observed auth)
     /\ ia_journal auth' = ia_journal auth)
  \/ ((forall a, ~ cleared auth request a) /\ untouched auth auth'
      /\ (exists response, r = inr response /\ rp_status response ∈ [401; 403; 503]%N)
      /\ (ia_journal auth' = ia_journal auth
          \/ exists token a d reason, presented request = Some token
               /\ (authenticate token (ia_validator auth)).2 = Ok a
               /\ ia_revocations auth = Some d /\ revocation_check d a = Some reason /\ ia_audit auth = true
               /\ ia_journal auth' = (append_control (ia_journal auth)
                                        (revoked_event stamp a reason (rd_version d)) o).1)).
Proof.
  unfold require_bearer. destruct (presented request) as [token|] eqn:Ep.
  2: { right; right. split; [intros a (t & Ht & _); congruence|]. split; [done|].
       split; [eexists; split; [done|]; set_solver|by left]. }
  destruct (authenticate token (ia_validator auth)) as [v [a|rejection]] eqn:Ea.
  2: { right; right. split.
       { intros a (t & Ht & Ha & _). rewrite Ep in Ht. injection Ht as <-. by rewrite Ea in Ha. }
       split; [done|]. split; [|by left]. eexists; split; [done|]. destruct (is_server_side rejection); set_solver. }
  cbn [with_state ia_revocations ia_settings ia_journal ia_rate_limit ia_observed ia_validator
       ia_admin_boundary ia_admin_principals].
  assert (Huniq : forall b, cleared auth request b -> b = a).
  { intros b (t & Ht & Hb & _). rewrite Ep in Ht. injection Ht as <-. rewrite Ea in Hb. by injection Hb. }
  destruct (ia_revocations auth ≫= _) as [[reason lv]|] eqn:Er.
  { right; right. destruct (ia_revocations auth) as [d|] eqn:Ed; [|done]. cbn in Er.
    destruct (revocation_check d a) as [reason'|] eqn:Ec; [|done]. cbn in Er. injection Er as <- <-.
    split; [intros b Hb; assert (b = a) as -> by auto; destruct Hb as (t & _ & _ & Hb & _);
            rewrite (Hb d Ed) in Ec; done|].
    split; [done|]. split; [eexists; split; [done|]; set_solver|]. cbn [ia_journal]. unfold journal_revoked.
    cbn [with_state ia_audit ia_journal]. destruct (ia_audit auth) eqn:Eau; [right|by left].
    exists token, a, d, reason'. rewrite Ea. done. }
  assert (Hrev : forall d, ia_revocations auth = Some d -> revocation_check d a = None).
  { intros d Hd. rewrite Hd in Er. cbn in Er. by destruct (revocation_check d a). }
  destruct (existsb _ (scopes (auth_principal a))) eqn:Es; cbn [negb].
  2: { right; right. split.
       { intros b Hb. assert (b = a) as -> by auto. destruct Hb as (t & _ & _ & _ & Hs & _).
         apply scope_held in Hs. congruence. }
       split; [done|]. split; [eexists; split; [done|]; set_solver|by left]. }
  apply scope_held in Es.
  destruct (ia_admin_boundary auth && _) eqn:Ek.
  { right; right. apply andb_true_iff in Ek as [Hb Hk]. apply negb_true_iff in Hk. split.
    { intros b Hcl. assert (b = a) as -> by auto. destruct Hcl as (t & _ & _ & _ & _ & Had).
      rewrite (Had Hb) in Hk. done. }
    split; [done|]. split; [eexists; split; [done|]; destruct (subject_kind _); set_solver|by left]. }
  assert (Hcl : cleared auth request a).
  { exists token. rewrite Ea. split_and!; try done. intros Hb. rewrite Hb in Ek. cbn in Ek.
    by apply negb_false_iff in Ek. }
  destruct (ia_rate_limit auth) as [l|] eqn:El.
  - destruct (check_at (subject (auth_principal a)) now l) as [l' [|n]] eqn:Ech; cbn [fst].
    + left. exists a. split; [done|]. unfold within_budget. rewrite El. cbn. rewrite Ech. split_and!; try done.
      intros l0 [= <-]. by rewrite Ech.
    + right; left. exists a, n. split; [done|]. unfold within_budget. rewrite El. cbn. rewrite Ech.
      split_and!; try done. intros Hw. specialize (Hw l eq_refl). by rewrite Ech in Hw.
  - left. exists a. unfold within_budget. rewrite El. split_and!; done.
Qed.

(** The revocation a request runs into: the token it presents is accepted by
    the validator and refused by the list in force. *)
Definition runs_into auth request : option (Authenticated * RevocationReason * string) :=
  match presented request with
  | None => None
  | Some token =>
      match (authenticate token (ia_validator auth)).2, ia_revocations auth with
      | Ok a, Some d => (fun reason => (a, reason, rd_version d)) <$> revocation_check d a
      | _, _ => None
      end
  end.

(** The journal after a request: one record for a revoked token where a sink
    is configured, and as it was otherwise. *)
Lemma require_bearer_journal now stamp o request auth :
  ia_journal (require_bearer now stamp o request auth).1
  = match runs_into auth request with
    | Some (a, reason, version) =>
        if ia_audit auth then (append_control (ia_journal auth) (revoked_event stamp a reason version) o).1
        else ia_journal auth
    | None => ia_journal auth
    end.
Proof.
  unfold require_bearer, runs_into. destruct (presented request) as [token|]; [|done].
  destruct (authenticate token (ia_validator auth)) as [v [a|rejection]]; [|done].
  cbn [snd with_state ia_revocations]. destruct (ia_revocations auth) as [d|]; cbn [mbind option_bind].
  - destruct (revocation_check d a) as [reason|]; [done|]. cbn [fmap option_fmap option_map]. by repeat case_match.
  - by repeat case_match.
Qed.

(** C14: The bearer boundary.  A request goes on exactly when it presents a
    token the validator accepts, the revocation list in force does not refuse,
    that carries the required scope and, at the administrative boundary, is of
    an admitted kind, and whose subject is within its budget; it then carries
    exactly that token's principal and facts, replacing whatever the request
    came with.  Everything else is refused with 401, 403, 429 or 503.  Only a
    request cleared by all checks but the budget touches the limiter, at its
    own validated subject, and the inventory, which stays bounded; and the
    journal gains a record exactly when the token is one the validator accepts
    and the revocation list refuses and a sink is configured: the record of
    that revocation. *)
Theorem bearer_admits_exactly now stamp o request auth :
  observed_ok (ia_observed auth) ->
  let '(auth', r) := require_bearer now stamp o request auth in
  (forall request', r = inl request' <->
     exists a, cleared auth request a /\ within_budget auth now a /\ request' = carrying request a)
  /\ (forall response, r = inr response -> rp_status response ∈ [401; 403; 429; 503]%N)
  /\ ((forall a, ~ cleared auth request a) -> untouched auth auth')
  /\ (forall a, cleared auth request a ->
        ia_rate_limit auth' = fst <$> (check_at (subject (auth_principal a)) now <$> ia_rate_limit auth)
        /\ ia_observed auth' = observe (auth_principal a) (ia_observed auth))
  /\ observed_ok (ia_observed auth')
  /\ ia_journal auth'
     = match runs_into auth request with
       | Some (a, reason, version) =>
           if ia_audit auth then (append_control (ia_journal auth) (revoked_event stamp a reason version) o).1
           else ia_journal auth
       | None => ia_journal auth
       end.
Proof.
  intros Hok. assert (Hspec := require_bearer_spec now stamp o request auth).
  assert (Hjournal := require_bearer_journal now stamp o request auth).
  destruct (require_bearer now stamp o request auth) as [auth' r]. cbn [fst] in Hjournal.
  assert (Huniq : forall a b, cleared auth request a -> cleared auth request b -> a = b).
  { intros a b (t & Ht & Ha & _) (t' & Ht' & Hb & _). rewrite Ht in Ht'. injection Ht' as <-.
    rewrite Ha in Hb. by injection Hb. }
  destruct Hspec as [(a & Hc & Hw & -> & Hl & Hob & Hj)|[(a & n & Hc & Hw & -> & Hl & Hob & Hj)|
                     (Hno & Hun & (response & -> & Hst) & _)]].
  - split; [intros r'; split; [intros [= <-]; eauto|]|].
    { intros (b & Hb & _ & ->). by rewrite (Huniq b a). }
    split; [done|]. split; [intros Hn; by destruct (Hn a)|]. split.
    { intros b Hb. rewrite (Huniq b a) by done. done. }
    split; [|done]. rewrite Hob. by apply observe_ok.
  - split; [intros r'; split; [done|]; intros (b & Hb & Hwb & _); rewrite (Huniq b a) in Hwb by done; done|].
    split; [intros ? [= <-]; set_solver|]. split; [intros Hn; by destruct (Hn a)|]. split.
    { intros b Hb. rewrite (Huniq b a) by done. done. }
    split; [|done]. rewrite Hob. by apply observe_ok.
  - split; [intros r'; split; [done|]; intros (b & Hb & _); by destruct (Hno b)|].
    split; [intros ? [= <-]; set_solver|]. split; [done|]. split; [intros a Ha; by destruct (Hno a)|].
    split; [|done]. by destruct Hun as [_ ->].
Qed.

(** The protected routes.  Whatever the service does, a request either is
    refused before it, with the session table as it was, or was cleared by the
    bearer boundary; then the service sees it with exactly the validated
    principal and facts, the tool handler behind it reads them back as the
    caller's identity, and if the request names a session, that session was
    bound to this same principal while it had no owner and has been ever
    since. *)
Theorem protected_route_guarded service now stamp o request auth steps :
  (forall r m, steps_to m (service r m).1) ->
  let m := session_run steps ∅ in
  let '(auth', m', response) := protected_route service now stamp o request (auth, m) in
  (m' = m /\ rp_status response ∈ refusal_statuses)
  \/ exists a, cleared auth request a /\ within_budget auth now a
       /\ response = (service (carrying request a) m).2
       /\ steps_to m m'
       /\ (forall id, session_named (rq_headers request) = Some id ->
             bound_by steps id (owner_of (auth_principal a)) /\ m' = (service (carrying request a) m).1)
       /\ (forall s client id, principal_for s
             {| parts := Some (rq_principal (carrying request a), rq_facts (carrying request a));
                client_info := client; context_id := id |} = Some (auth_principal a, auth_token a)).
Proof.
  intros Hserv m. unfold protected_route.
  assert (Hspec := require_bearer_spec now stamp o request auth).
  destruct (require_bearer now stamp o request auth) as [auth' r].
  destruct Hspec as [(a & Hc & Hw & -> & _)|[(a & n & _ & _ & -> & _)|(_ & _ & (response & -> & Hst) & _)]].
  - assert (Hst := middleware_steps service now (carrying request a) m Hserv).
    revert Hst. unfold enforce_session_owner. cbn [rq_headers carrying requester_of rq_principal].
    destruct (session_named (rq_headers request)) as [id|].
    + destruct (owner_matches id _ m) eqn:Eo.
      * destruct (service (carrying request a) m) as [m' response] eqn:Es.
        intros Hst. right. exists a. rewrite Es. cbn [fst snd] in *. split_and!; try done.
        intros id' [= <-]. split; [by apply bound_by_history, owner_matches_spec|done].
      * intros _. left. split; [done|]. set_solver.
    + destruct (service (carrying request a) m) as [m' response] eqn:Es. intros Hst. right. exists a. rewrite Es. cbn [fst snd] in *.
      split_and!; done.
  - left. split; [done|]. set_solver.
  - left. split; [done|]. set_solver.
Qed.
End Admission.

Module InboundWitness.
Import SessionWitness.

Definition facts : TokenFacts :=
  {| issued_at := Some 100%N; token_id := None; actors := None; subject_kind := Human |}.
Definition scoped_alice : Principal :=
  {| tenant := "t"; subject := "alice"; groups := []; scopes := ["mcp:tools"]; authority := Oidc "https://idp" |}.
Definition digest (t : string) : list byte := as_bytes t.
Definition table : gmap string Authenticated := static_with_facts digest ∅ "tok" scoped_alice facts.

#[export] Instance static_validator : TokenValidator (gmap string Authenticated) :=
  {| authenticate := fun token t => (t, static_lookup digest t token); forget_validated := fun t => t |}.

Definition settings : InboundAuthSettings :=
  {| public_url := "https://gw"; authorization_servers := []; required_scope := "mcp:tools" |}.
Definition gate : InboundAuth (gmap string Authenticated) := inbound_new table settings.
Definition request : HttpRequest :=
  {| rq_headers := [("authorization", "bearer  tok ")]; rq_principal := None; rq_facts := None |}.

Lemma bearer_admits_exactly_witness :
  exists a, cleared gate request a /\ within_budget gate 0 a
    /\ (require_bearer 0 "t" Acked request gate).2 = inl (carrying request a).
Proof.
  assert (Hok : observed_ok (ia_observed gate)).
  { split; [apply Nat.leb_le; vm_compute; reflexivity|]. intros k m Hk. discriminate Hk. }
  assert (Hb := bearer_admits_exactly 0 "t" Acked request gate Hok).
  destruct (require_bearer 0 "t" Acked request gate) as [auth' r] eqn:E.
  assert (Hr : r = inl (carrying request {| auth_principal := scoped_alice; auth_token := facts |})).
  { apply (f_equal snd) in E. vm_compute in E. by rewrite <- E. }
  destruct Hb as [Hb _]. destruct (proj1 (Hb _) Hr) as (a & Ha & Hw & Heq). exists a.
  split; [exact Ha|]. split; [exact Hw|]. cbn [snd]. rewrite Hr. by rewrite Heq.
Defined.

Lemma protected_route_guarded_witness :
  exists a, cleared gate request a
    /\ (protected_route initialize 6 "t" Acked request (gate, ∅)).2 = (initialize (carrying request a) ∅).2.
Proof.
  assert (Hnext : forall r m, steps_to m (initialize r m).1) by (intros r m; apply (steps_to_step (SBump 5 "s1"))).
  assert (Hp := protected_route_guarded initialize 6 "t" Acked request gate [] Hnext). cbv zeta in Hp.
  change (session_run [] ∅) with (∅ : Sessions) in Hp.
  assert (Hst : rp_status (protected_route initialize 6 "t" Acked request (gate, ∅)).2 = 200%N)
    by (vm_compute; reflexivity).
  destruct (protected_route initialize 6 "t" Acked request (gate, ∅)) as [[auth' m'] response].
  cbn [snd] in Hst.
  destruct Hp as [[_ Hbad]|(a & Ha & _ & Hr & _)].
  - exfalso. rewrite Hst in Hbad. unfold refusal_statuses in Hbad. set_solver.
  - exists a. split; [exact Ha|exact Hr].
Defined.

(** Without a token, with a token of another table, and without the scope. *)
Example no_token :
  match (require_bearer 0 "t" Acked {| rq_headers := []; rq_principal := None; rq_facts := None |} gate).2 with
  | inr r => rp_status r = 401%N | inl _ => False end.
Proof. vm_compute. reflexivity. Qed.
Example admin_scope :
  match (require_bearer 0 "t" Acked request (for_admin gate)).2 with
  | inr r => rp_status r = 403%N | inl _ => False end.
Proof. vm_compute. reflexivity. Qed.
End InboundWitness.
