(* ===== verification/Oidc.v ===== *)
(** * OIDC bearer validation (src/src/auth/oidc.rs, [actors] of src/src/auth/ema.rs)

    Profiles, settings, the admission of signing keys, the claims a principal
    is made of, and the validator with its key cache and its cache of
    validated tokens.  The jsonwebtoken crate, the JSON of a JWKS or discovery
    document, SHA-256 and the URL parser are parameters.  Durations and
    instants are nanoseconds, Unix times seconds. *)
From S2P Require Import Prelude RustStr Json PolicyTypes Config NetAddr F64 Scope RateLimit Egress Transport ToolCall Revocation Session Inbound.

(** ** Profiles *)

Inductive Profile := POkta | PEntra | PKeycloak | PAuth0 | PGeneric.

#[export] Instance Profile_eq_dec : EqDecision Profile.
Proof. solve_decision. Defined.

Inductive JwksLocation := JDirect (url : string) | JFile (path : string) | JDiscovery (url : string).

Definition jwks_url_of (l : JwksLocation) : string :=
  match l with JDirect u | JFile u | JDiscovery u => u end.

Definition PROFILE_KEY : string := "MCP_OIDC_PROFILE".

Definition profile_parse (raw : string) : result Profile string :=
  let raw := trim raw in
  if eq_ignore_ascii_case raw "okta" then Ok POkta
  else if eq_ignore_ascii_case raw "entra" then Ok PEntra
  else if eq_ignore_ascii_case raw "keycloak" then Ok PKeycloak
  else if eq_ignore_ascii_case raw "auth0" then Ok PAuth0
  else if eq_ignore_ascii_case raw "generic" then Ok PGeneric
  else Err (PROFILE_KEY ++ " is " ++ raw ++ "; expected one of okta, entra, keycloak, auth0, generic")%string.

Definition profile_name (p : Profile) : string :=
  match p with
  | POkta => "okta" | PEntra => "entra" | PKeycloak => "keycloak" | PAuth0 => "auth0" | PGeneric => "generic"
  end.

Definition default_jwks (p : Profile) (issuer : string) : JwksLocation :=
  match p with
  | POkta => JDirect (issuer ++ "/v1/keys")
  | PKeycloak => JDirect (issuer ++ "/protocol/openid-connect/certs")
  | PAuth0 => JDirect (issuer ++ "/.well-known/jwks.json")
  | PEntra | PGeneric => JDiscovery (issuer ++ "/.well-known/openid-configuration")
  end.

Definition default_subject_claim (p : Profile) : string :=
  match p with PEntra => "oid" | _ => "sub" end.

Definition default_groups_claim (p : Profile) : option string :=
  match p with PAuth0 => None | _ => Some "groups" end.

Definition normalise_group (p : Profile) (value : string) : string :=
  match p with PKeycloak => default value (strip_prefix "/" value) | _ => value end.

Definition profile_distinguishes_machines (p : Profile) : bool := negb (bool_decide (p = PGeneric)).

Definition is_null (v : Value) : bool := match v with VNull => true | _ => false end.

Definition claim_present (rest : JsonMap) (name : string) : bool :=
  is_some_and (map_get rest name) (fun v => negb (is_null v)).

Definition claim_equals (rest : JsonMap) (name expected : string) : bool :=
  is_some_and (map_get rest name ≫= as_str) (String.eqb expected).

Definition profile_subject_kind (p : Profile) (rest : JsonMap) : SubjectKind :=
  match p with
  | POkta => if claim_present rest "uid" then Human
             else if claim_present rest "cid" then Machine else UnknownKind
  | PEntra => if claim_equals rest "idtyp" "app" then Machine
              else if claim_equals rest "idtyp" "user" then Human else UnknownKind
  | PAuth0 => if claim_equals rest "gty" "client-credentials" then Machine else UnknownKind
  | PKeycloak => if existsb (claim_present rest) ["clientId"; "client_id"; "clientHost"; "clientAddress"]
                 then Machine else UnknownKind
  | PGeneric => UnknownKind
  end.

(** ** Claims *)

Definition dot : byte := byte_of 46.

Fixpoint walk_claim (current : Value) (segments : list string) : option Value :=
  match segments with
  | [] => Some current
  | s :: rest => (as_object current ≫= fun m => map_get m s) ≫= fun v => walk_claim v rest
  end.

(** By the literal name first, then as a dotted path. *)
Definition lookup_claim (rest : JsonMap) (name : string) : option Value :=
  match map_get rest name with
  | Some v => Some v
  | None =>
      match split dot name with
      | [] => None
      | s :: segments => map_get rest s ≫= fun v => walk_claim v segments
      end
  end.

Record ClaimMatch := { cm_name : string; cm_value : option string }.

Definition equals_sign : byte := byte_of 61.

Definition claim_match_parse (key raw : string) : result ClaimMatch string :=
  let raw := trim raw in
  let '(name, value) :=
    match split_once equals_sign raw with
    | Some (name, value) => (trim name, Some (trim value))
    | None => (raw, None)
    end in
  if str_is_empty name then Err (key ++ " must name a claim (`name`, or `name=value`), got " ++ raw)%string
  else if is_some_and value str_is_empty
  then Err (key ++ " is " ++ raw ++ ": a value after `=` must not be empty")%string
  else Ok {| cm_name := name; cm_value := value |}.

Definition claim_matches (m : ClaimMatch) (rest : JsonMap) : bool :=
  match lookup_claim rest (cm_name m) with
  | None => false
  | Some found =>
      match cm_value m, found with
      | _, VNull => false
      | None, _ => true
      | Some expected, VString actual => String.eqb actual expected
      | Some expected, VBool actual => String.eqb expected (if actual then "true" else "false")
      | Some _, _ => false
      end
  end.

(** [str::split_whitespace]: the non-empty pieces between whitespace. *)
Definition flush (piece : list byte) : list (list byte) := if bool_decide (piece = []) then [] else [piece].

Fixpoint split_ws_bytes (l piece : list byte) : list (list byte) :=
  match l with
  | [] => flush piece
  | a :: l1 =>
      if ws1 a then flush piece ++ split_ws_bytes l1 []
      else match l1 with
           | b :: l2 =>
               if ws2 a b then flush piece ++ split_ws_bytes l2 []
               else match l2 with
                    | c :: l3 => if ws3 a b c then flush piece ++ split_ws_bytes l3 []
                                 else split_ws_bytes l1 (piece ++ [a])
                    | [] => split_ws_bytes l1 (piece ++ [a])
                    end
           | [] => split_ws_bytes l1 (piece ++ [a])
           end
  end.

Definition split_whitespace (s : string) : list string := map of_bytes (split_ws_bytes (as_bytes s) []).

(** A scope claim in either shape; anything else grants nothing. *)
Definition string_or_array (v : Value) : list string :=
  match v with
  | VString joined => split_whitespace joined
  | VArray items => omap as_str items
  | _ => []
  end.

Record Claims := {
  c_exp : option N;
  c_iat : option N;
  c_jti : option string;
  c_scp : list string;
  c_scope : list string;
  c_rest : JsonMap;
}.

Definition named_claims : list string := ["exp"; "iat"; "jti"; "scp"; "scope"].

(** An optional field: absent or null is none; a value of another type fails
    the whole document. *)
Definition optional_claim {A} (read : Value -> option A) (m : JsonMap) (name : string) : option (option A) :=
  match map_get m name with
  | None | Some VNull => Some None
  | Some v => Some <$> read v
  end.

Definition claims_of (m : JsonMap) : option Claims :=
  exp ← optional_claim as_u64 m "exp";
  iat ← optional_claim as_u64 m "iat";
  jti ← optional_claim as_str m "jti";
  Some {| c_exp := exp; c_iat := iat; c_jti := jti;
          c_scp := default [] (string_or_array <$> map_get m "scp");
          c_scope := default [] (string_or_array <$> map_get m "scope");
          c_rest := List.filter (fun kv => negb (existsb (String.eqb kv.1) named_claims)) m |}.

Definition as_array (v : Value) : option (list Value) :=
  match v with VArray l => Some l | _ => None end.

Definition groups_are_overaged (rest : JsonMap) (claim : string) : bool :=
  let named_elsewhere :=
    is_some_and (map_get rest "_claim_names" ≫= as_object) (fun names => bool_decide (is_Some (map_get names claim))) in
  named_elsewhere || bool_decide (is_Some (map_get rest "_claim_sources"))
  || default false (map_get rest "hasgroups" ≫= as_bool).

Definition static_claim_name (name : string) : string :=
  if existsb (String.eqb name) ["sub"; "oid"; "email"; "upn"; "preferred_username"] then name else "subject".

(** [ema::actors]: at most eight nested actors, each with a subject. *)
Definition MAX_ACTORS : nat := 8.

Definition actor_of (current : Value) : result (Actor * option Value) TokenRejection :=
  match as_object current with
  | None => Err Malformed
  | Some object =>
      match map_get object "sub" ≫= as_str with
      | None => Err Malformed
      | Some subject =>
          if is_blank subject then Err Malformed
          else
            match map_get object "iss" with
            | None => Ok ({| actor_subject := subject; actor_issuer := None |}, map_get object "act")
            | Some v =>
                match as_str v with
                | Some issuer =>
                    if str_is_empty issuer then Err Malformed
                    else Ok ({| actor_subject := subject; actor_issuer := Some issuer |}, map_get object "act")
                | None => Err Malformed
                end
            end
      end
  end.

Fixpoint actors_loop (left_ : nat) (value : option Value) : result (list Actor) TokenRejection :=
  match value with
  | None => Ok []
  | Some current =>
      match left_ with
      | O => Err Malformed
      | S left' =>
          let? '(actor, next) := actor_of current in
          let? rest := actors_loop left' next in
          Ok (actor :: rest)
      end
  end.

Definition actors_from (value : option Value) : result (option (list Actor)) TokenRejection :=
  match value with
  | None => Ok None
  | Some _ => result_map Some (actors_loop MAX_ACTORS value)
  end.

(** ** Settings *)

Record OidcSettings := {
  o_profile : Profile;
  o_issuer : string;
  o_audience : string;
  o_jwks : JwksLocation;
  o_subject_claim : string;
  o_groups_claim : option string;
  o_clock_skew : N;
  o_tenant : string;
  o_jwks_refresh : N;
  o_jwks_min_refetch_interval : N;
  o_machine_claim : option ClaimMatch;
  o_human_claim : option ClaimMatch;
}.

Definition settings_subject_kind (s : OidcSettings) (rest : JsonMap) : SubjectKind :=
  let profile := profile_subject_kind (o_profile s) rest in
  if bool_decide (profile = Machine) || is_some_and (o_machine_claim s) (fun m => claim_matches m rest) then Machine
  else if is_some_and (o_human_claim s) (fun m => claim_matches m rest) then Human
  else profile.

Definition distinguishes_machines (s : OidcSettings) : bool :=
  profile_distinguishes_machines (o_profile s) || bool_decide (is_Some (o_machine_claim s)).

(** *** The key families ([OidcKeys] of src/src/config/mod.rs) *)
Definition keys_mode (k : OidcKeys) : string := match k with KOidc => "oidc" | KOkta => "okta" end.
Definition keys_issuer (k : OidcKeys) : string :=
  match k with KOidc => "MCP_OIDC_ISSUER" | KOkta => "MCP_OKTA_ISSUER" end.
Definition keys_audience (k : OidcKeys) : string :=
  match k with KOidc => "MCP_OIDC_AUDIENCE" | KOkta => "MCP_OKTA_AUDIENCE" end.
Definition keys_jwks_url (k : OidcKeys) : string :=
  match k with KOidc => "MCP_OIDC_JWKS_URL" | KOkta => "MCP_OKTA_JWKS_URL" end.
Definition keys_groups_claim (k : OidcKeys) : string :=
  match k with KOidc => "MCP_OIDC_GROUPS_CLAIM" | KOkta => "MCP_OKTA_GROUPS_CLAIM" end.
Definition keys_clock_skew (k : OidcKeys) : string :=
  match k with KOidc => "MCP_OIDC_CLOCK_SKEW_SECONDS" | KOkta => "MCP_OKTA_CLOCK_SKEW_SECONDS" end.
Definition keys_all (k : OidcKeys) : list string :=
  match k with
  | KOidc => ["MCP_OIDC_ISSUER"; "MCP_OIDC_AUDIENCE"; "MCP_OIDC_JWKS_URL"; "MCP_OIDC_JWKS_FILE";
              "MCP_OIDC_GROUPS_CLAIM"; "MCP_OIDC_CLOCK_SKEW_SECONDS"; "MCP_OIDC_PROFILE";
              "MCP_OIDC_SUBJECT_CLAIM"; "MCP_OIDC_MACHINE_CLAIM"; "MCP_OIDC_HUMAN_CLAIM"]
  | KOkta => ["MCP_OKTA_ISSUER"; "MCP_OKTA_AUDIENCE"; "MCP_OKTA_JWKS_URL"; "MCP_OKTA_GROUPS_CLAIM";
              "MCP_OKTA_CLOCK_SKEW_SECONDS"]
  end.
Definition keys_other (k : OidcKeys) : OidcKeys := match k with KOidc => KOkta | KOkta => KOidc end.

Definition MAX_CLOCK_SKEW : N := 300.
Definition DEFAULT_CLOCK_SKEW : N := 60.

(** A setting of this family, or the error that it is missing. *)
Definition required_setting (c : Config) (k : OidcKeys) (key : string) : result string string :=
  match setting c key with
  | Some v => Ok v
  | None => Err (key ++ " is required when MCP_AUTH_MODE=" ++ keys_mode k)%string
  end.

Section Settings.
Context `{UrlLib}.
(** [Url::host_str] and [Url::host]. *)
Variable url_host_str : Url -> option string.
Variable url_host : Url -> option UrlHost.

Definition require_https_unless_loopback (u : Url) (key : string) : result unit string :=
  if String.eqb (url_scheme u) "https" || String.eqb (url_scheme u) "http" && host_is_loopback (url_host u) then Ok tt
  else Err (key ++ " must be an https URL (or http on loopback)")%string.

Definition checked_url (text key : string) : result Url string :=
  match url_parse text with
  | None => Err (key ++ " is not a URL")%string
  | Some u => let? _ := require_https_unless_loopback u key in Ok u
  end.

Definition jwks_from_config (c : Config) (k : OidcKeys) (profile : Profile) (issuer : string)
    : result JwksLocation string :=
  match setting c "MCP_OIDC_JWKS_FILE" with
  | Some path =>
      if match k with KOidc => bool_decide (is_Some (setting c (keys_jwks_url k))) | KOkta => true end
      then Err "MCP_OIDC_JWKS_FILE requires oidc mode and excludes MCP_OIDC_JWKS_URL"
      else Ok (JFile path)
  | None =>
      let location := match setting c (keys_jwks_url k) with
                      | Some url => JDirect url | None => default_jwks profile issuer end in
      let? _ := checked_url (jwks_url_of location) (keys_jwks_url k) in
      Ok location
  end.

Definition clock_skew_from_config (c : Config) (k : OidcKeys) : result N string :=
  match setting c (keys_clock_skew k) with
  | None => Ok DEFAULT_CLOCK_SKEW
  | Some raw =>
      match parse_unsigned U64_MAX raw with
      | None => Err (keys_clock_skew k ++ " must be a whole number of seconds, got " ++ raw)%string
      | Some seconds =>
          if (MAX_CLOCK_SKEW <? seconds)%N
          then Err (keys_clock_skew k ++ " is too large; a clock problem to fix")%string
          else Ok seconds
      end
  end.

Definition marker_from_config (c : Config) (k : OidcKeys) (key : string) : result (option ClaimMatch) string :=
  match k with
  | KOkta => Ok None
  | KOidc => transpose (claim_match_parse key <$> setting c key)
  end.

Definition oidc_settings_from_config (c : Config) (k : OidcKeys) : result OidcSettings string :=
  match List.find (fun key => bool_decide (is_Some (setting c key))) (keys_all (keys_other k)) with
  | Some stray => Err (stray ++ " is set but MCP_AUTH_MODE=" ++ keys_mode k ++ " reads its own keys only")%string
  | None =>
      let? profile := match k with
                      | KOkta => Ok POkta
                      | KOidc => let? raw := required_setting c k PROFILE_KEY in profile_parse raw
                      end in
      let? issuer := required_setting c k (keys_issuer k) in
      let issuer := trim_end_matches slash issuer in
      let? parsed := checked_url issuer (keys_issuer k) in
      let? host := match url_host_str parsed with
                   | Some h => Ok h | None => Err (keys_issuer k ++ " has no host")%string end in
      let? audience := required_setting c k (keys_audience k) in
      let? jwks := jwks_from_config c k profile issuer in
      let subject_claim :=
        default (default_subject_claim profile)
          (match k with KOkta => None | KOidc => setting c "MCP_OIDC_SUBJECT_CLAIM" end) in
      let groups_claim := match setting c (keys_groups_claim k) with
                          | Some claim => Some claim | None => default_groups_claim profile end in
      let? clock_skew := clock_skew_from_config c k in
      let? machine_claim := marker_from_config c k "MCP_OIDC_MACHINE_CLAIM" in
      let? human_claim := marker_from_config c k "MCP_OIDC_HUMAN_CLAIM" in
      Ok {| o_profile := profile; o_issuer := issuer; o_audience := audience; o_jwks := jwks;
            o_subject_claim := subject_claim; o_groups_claim := groups_claim; o_clock_skew := clock_skew;
            o_tenant := default host (setting c "MCP_TENANT");
            o_jwks_refresh := 600 * NANOS_PER_SEC; o_jwks_min_refetch_interval := 30 * NANOS_PER_SEC;
            o_machine_claim := machine_claim; o_human_claim := human_claim |}
  end.
End Settings.

(** ** Signing keys *)

Inductive PublicKeyUse := UseSignature | UseEncryption | UseOther (name : string).
#[export] Instance PublicKeyUse_eq_dec : EqDecision PublicKeyUse.
Proof. solve_decision. Defined.

Inductive JwkParams := RSA (n e : string) | OtherFamily.

(** [jsonwebtoken::jwk::Jwk], as the code reads it. *)
Record Jwk := {
  jwk_kid : option string;
  jwk_use : option PublicKeyUse;
  jwk_alg : option string;
  jwk_params : JwkParams;
}.

Inductive JwtErrorKind :=
| ExpiredSignature | ImmatureSignature | InvalidIssuer | InvalidAudience | BadSignature
| InvalidAlgorithm | MissingRequiredClaim (claim : string) | OtherJwtError.

Record JwtHeader := { h_alg : string; h_typ : option string; h_kid : option string }.

(** [Validation]: what [decode] checks after the signature. *)
Record Validation := { val_issuers : list string; val_audience : string; val_leeway : N }.

Definition is_rs256_signing_key (k : Jwk) : bool :=
  match jwk_params k with RSA _ _ => true | OtherFamily => false end
  && is_none_or (jwk_use k) (fun u => bool_decide (u = UseSignature))
  && is_none_or (jwk_alg k) (String.eqb "RS256").

(** The jsonwebtoken crate. *)
Class JwtLib := {
  DecodingKey : Type;
  decode_header : string -> option JwtHeader;
  decoding_key_from_jwk : Jwk -> option DecodingKey;
  (** The payload, once the signature has been verified by the key. *)
  jwt_payload : string -> DecodingKey -> result JsonMap JwtErrorKind;
  (** The registered claims against the validation, at a Unix time. *)
  jwt_validate : JsonMap -> Validation -> N -> result unit JwtErrorKind;
}.

(** A registered claim that is one string or a list of strings. *)
Definition claim_names (v : Value) (allowed : list string) : Prop :=
  match v with
  | VString s => s ∈ allowed
  | VArray items => exists s, VString s ∈ items /\ s ∈ allowed
  | _ => False
  end.

(** Its documented behaviour: with [exp], [iss] and [aud] required and [nbf]
    checked, a payload that validates has not expired beyond the leeway and
    names a configured issuer and the audience. *)
Class JwtLaws (J : JwtLib) : Prop := {
  validate_exp : forall payload v unix exp, jwt_validate payload v unix = Ok tt ->
    (map_get payload "exp" ≫= as_u64) = Some exp -> (unix <= exp + val_leeway v)%N;
  validate_iss : forall payload v unix, jwt_validate payload v unix = Ok tt ->
    exists iss, map_get payload "iss" = Some iss /\ claim_names iss (val_issuers v);
  validate_aud : forall payload v unix, jwt_validate payload v unix = Ok tt ->
    exists aud, map_get payload "aud" = Some aud /\ claim_names aud [val_audience v];
}.

Section Validator.
Context `{UrlLib} {J : JwtLib}.
Variable sha256 : list byte -> list byte.
Variable parse_jwks : list byte -> option (list Jwk).
(** The two fields read of a discovery document. *)
Variable parse_discovery : list byte -> option (option string * option string).
Variable url_host : Url -> option UrlHost.
Variable s : OidcSettings.

Record AdmittedKey := { ak_key : DecodingKey; ak_fingerprint : list byte }.

Definition fingerprint_of (k : Jwk) : option (list byte) :=
  match jwk_params k with
  | RSA n e => Some (sha256 (as_bytes n ++ [byte_of 0] ++ as_bytes e))
  | OtherFamily => None
  end.

Definition admit_one (k : Jwk) : option (string * AdmittedKey) :=
  kid ← jwk_kid k;
  if is_rs256_signing_key k then
    key ← decoding_key_from_jwk k;
    fp ← fingerprint_of k;
    Some (kid, {| ak_key := key; ak_fingerprint := fp |})
  else None.

(** The loop: the keys so far and the kids seen more than once. *)
Fixpoint admit_loop (jwks : list Jwk) (keys : gmap string AdmittedKey) (ambiguous : list string)
    : gmap string AdmittedKey * list string :=
  match jwks with
  | [] => (keys, ambiguous)
  | k :: rest =>
      match admit_one k with
      | None => admit_loop rest keys ambiguous
      | Some (kid, a) =>
          admit_loop rest (<[kid := a]> keys)
            (match keys !! kid with Some _ => ambiguous ++ [kid] | None => ambiguous end)
      end
  end.

Definition admit_keys (jwks : list Jwk) : gmap string AdmittedKey :=
  let '(keys, ambiguous) := admit_loop jwks ∅ [] in
  foldl (fun m kid => delete kid m) keys ambiguous.

(** ** Fetching *)

Record FetchResponse := { f_status : N; f_content_length : option N; f_chunks : list (option (list byte)) }.

Definition JWKS_MAX_BYTES : N := 256 * 1024.
Definition DISCOVERY_MAX_BYTES : N := 64 * 1024.

Fixpoint read_chunks (max_bytes : N) (what : string) (chunks : list (option (list byte))) (body : list byte)
    : result (list byte) string :=
  match chunks with
  | [] => Ok body
  | None :: _ => Err (what ++ " body could not be read")%string
  | Some chunk :: rest =>
      if (max_bytes <? N.of_nat (length body + length chunk))%N then Err (what ++ " document too large")%string
      else read_chunks max_bytes what rest (body ++ chunk)
  end.

(** [answer]: the response, or the category of the transport error. *)
Definition fetch_bounded (answer : result FetchResponse string) (max_bytes : N) (what : string)
    : result (list byte) string :=
  let? response := map_err (fun e => what ++ " fetch failed: " ++ e)%string answer in
  if negb (is_success (f_status response))
  then Err (what ++ " fetch returned HTTP " ++ of_bytes (render_u64 (f_status response)))%string
  else if is_some_and (f_content_length response) (fun n => (max_bytes <? n)%N)
  then Err (what ++ " document too large")%string
  else read_chunks max_bytes what (f_chunks response) [].

Definition discover (answer : result FetchResponse string) : result string string :=
  let? body := fetch_bounded answer DISCOVERY_MAX_BYTES "discovery" in
  match parse_discovery body with
  | None => Err "discovery document is not valid"
  | Some (issuer, jwks_uri) =>
      match issuer with
      | None => Err "discovery document names no issuer"
      | Some issuer =>
          if negb (String.eqb (trim_end_matches slash issuer) (o_issuer s))
          then Err "discovery document names a different issuer than the one configured"
          else
            match jwks_uri with
            | None => Err "discovery document names no jwks_uri"
            | Some uri =>
                match url_parse uri with
                | None => Err "discovery document's jwks_uri is not a URL"
                | Some u =>
                    let? _ := require_https_unless_loopback url_host u "the discovery document's jwks_uri" in
                    Ok uri
                end
            end
      end
  end.

(** ** The caches *)

Record KeyCache := { kc_keys : gmap string AdmittedKey; kc_fetched_at : option N; kc_generation : N }.

Record Validated := {
  v_authenticated : Authenticated;
  v_expires_at : N;
  v_kid : string;
  v_fingerprint : list byte;
}.

Record Verified := {
  ve_authenticated : Authenticated;
  ve_exp : N;
  ve_kid : string;
  ve_fingerprint : list byte;
  ve_generation : N;
}.

(** The validator's mutable state; tokens are keyed by their digest. *)
Record OidcState := {
  os_keys : KeyCache;
  os_last_refetch : option N;
  os_file_digest : option (list byte);
  os_refreshing : bool;
  os_validated : gmap string Validated;
}.

Definition oidc_new : OidcState :=
  {| os_keys := {| kc_keys := ∅; kc_fetched_at := None; kc_generation := 0 |}; os_last_refetch := None;
     os_file_digest := None; os_refreshing := false; os_validated := ∅ |}.

Definition validation_for : Validation :=
  {| val_issuers := [o_issuer s; (o_issuer s ++ "/")%string]; val_audience := o_audience s;
     val_leeway := o_clock_skew s |}.

Definition token_digest (token : string) : string := of_bytes (sha256 (as_bytes token)).

Definition vouched (keys : gmap string AdmittedKey) (e : Validated) : bool :=
  is_some_and (keys !! v_kid e) (fun a => bool_decide (ak_fingerprint a = v_fingerprint e)).

(** One critical section on the validated cache: install and prune. *)
Definition install_keys (keys : gmap string AdmittedKey) (now : N) (st : OidcState) : OidcState :=
  {| os_keys := {| kc_keys := keys; kc_fetched_at := Some now; kc_generation := kc_generation (os_keys st) + 1 |};
     os_last_refetch := os_last_refetch st; os_file_digest := os_file_digest st;
     os_refreshing := os_refreshing st;
     os_validated := filter (fun p => vouched keys p.2 = true) (os_validated st) |}.

Definition cached (key : string) (now : N) (st : OidcState) : option Authenticated :=
  match os_validated st !! key with
  | Some e => if (now <? v_expires_at e)%N then Some (v_authenticated e) else None
  | None => None
  end.

Definition VALIDATED_TTL : N := 300.
Definition VALIDATED_CAPACITY : nat := 4096.

Definition with_validated (m : gmap string Validated) (st : OidcState) : OidcState :=
  {| os_keys := os_keys st; os_last_refetch := os_last_refetch st; os_file_digest := os_file_digest st;
     os_refreshing := os_refreshing st; os_validated := m |}.

Definition remember (key : string) (v : Verified) (unix now : N) (st : OidcState) : OidcState :=
  let ttl := N.min (ve_exp v - unix) VALIDATED_TTL in
  if (ttl =? 0)%N then st
  else if negb (ve_generation v =? kc_generation (os_keys st))%N then st
  else
    let cache := os_validated st in
    let cache :=
      if (VALIDATED_CAPACITY <=? size cache)%nat then
        let live := filter (fun p => (now <? v_expires_at p.2)%N = true) cache in
        if (VALIDATED_CAPACITY <=? size live)%nat then ∅ else live
      else cache in
    with_validated
      (<[key := {| v_authenticated := ve_authenticated v; v_expires_at := now + ttl * NANOS_PER_SEC;
                   v_kid := ve_kid v; v_fingerprint := ve_fingerprint v |}]> cache) st.

Definition clear_validated (st : OidcState) : OidcState := with_validated ∅ st.

Definition with_digest (d : option (list byte)) (st : OidcState) : OidcState :=
  {| os_keys := os_keys st; os_last_refetch := os_last_refetch st; os_file_digest := d;
     os_refreshing := os_refreshing st; os_validated := os_validated st |}.

Definition with_refetch (t : option N) (st : OidcState) : OidcState :=
  {| os_keys := os_keys st; os_last_refetch := t; os_file_digest := os_file_digest st;
     os_refreshing := os_refreshing st; os_validated := os_validated st |}.

(** [load_file]: [file] is what reading the regular file under the timeout
    answered.  Any failure clears the keys. *)
Definition load_file (file : result (list byte) string) (now : N) (st : OidcState)
    : OidcState * result nat string :=
  let fail e := (with_digest None (install_keys ∅ now st), Err e) in
  match file with
  | Err e => fail e
  | Ok body =>
      if (JWKS_MAX_BYTES <? N.of_nat (length body))%N then fail "JWKS file too large"
      else
        let hash := sha256 body in
        if bool_decide (os_file_digest st = Some hash) then (st, Ok (size (kc_keys (os_keys st))))
        else
          match parse_jwks body with
          | None => fail "JWKS document is not valid"
          | Some set =>
              (with_digest (Some hash) (install_keys (admit_keys set) now st), Ok (size (admit_keys set)))
          end
  end.

(** What one fetch meets: the discovery and JWKS responses, the file, the
    clock when the keys are installed. *)
Record FetchEnv := {
  fe_discovery : result FetchResponse string;
  fe_jwks : result FetchResponse string;
  fe_file : result (list byte) string;
  fe_now : N;
}.

Definition fetch_and_store (f : FetchEnv) (st : OidcState) : OidcState * result nat string :=
  let remote (url : result string string) :=
    match (let? _ := url in
           let? body := fetch_bounded (fe_jwks f) JWKS_MAX_BYTES "JWKS" in
           match parse_jwks body with None => Err "JWKS document is not valid" | Some set => Ok set end) with
    | Ok set => (install_keys (admit_keys set) (fe_now f) st, Ok (size (admit_keys set)))
    | Err e => (st, Err e)
    end in
  match o_jwks s with
  | JFile _ => load_file (fe_file f) (fe_now f) st
  | JDirect url => remote (Ok url)
  | JDiscovery _ => remote (discover (fe_discovery f))
  end.

Definition refresh_keys (f : FetchEnv) (st : OidcState) : OidcState * result nat string := fetch_and_store f st.

Definition refetch_for_unknown_kid (f : FetchEnv) (now : N) (st : OidcState) : OidcState :=
  let recently := is_some_and (os_last_refetch st) (fun at_ => (now - at_ <? o_jwks_min_refetch_interval s)%N) in
  if recently then st else (fetch_and_store f (with_refetch (Some now) st)).1.

Definition with_refreshing (b : bool) (st : OidcState) : OidcState :=
  {| os_keys := os_keys st; os_last_refetch := os_last_refetch st; os_file_digest := os_file_digest st;
     os_refreshing := b; os_validated := os_validated st |}.

(** The request only claims the refresh; the task it spawns runs later. *)
Definition maybe_refresh_in_background (fetched_at now : N) (st : OidcState) : OidcState :=
  match o_jwks s with
  | JFile _ => st
  | _ => if (now - fetched_at <? o_jwks_refresh s)%N || os_refreshing st then st else with_refreshing true st
  end.

Definition background_refresh (f : FetchEnv) (st : OidcState) : OidcState :=
  with_refreshing false (refresh_keys f st).1.

(** ** Full validation *)

Definition groups_from (rest : JsonMap) : result (list string) TokenRejection :=
  match o_groups_claim s with
  | None => Ok []
  | Some claim =>
      match lookup_claim rest claim with
      | Some values =>
          Ok (default [] ((fun l => map (normalise_group (o_profile s)) (omap as_str l)) <$> as_array values))
      | None => if groups_are_overaged rest claim then Err GroupsOverage else Ok []
      end
  end.

Definition sorted_set (l : list string) : list string := dedup (merge_sort str_le l).

Definition principal_from (unix : N) (claims : Claims) : result (Authenticated * N) TokenRejection :=
  match map_get (c_rest claims) (o_subject_claim s) ≫= as_str with
  | None => Err (MissingClaim (static_claim_name (o_subject_claim s)))
  | Some subject =>
      if is_blank subject then Err (MissingClaim (static_claim_name (o_subject_claim s)))
      else
        match c_exp claims with
        | None => Err (MissingClaim "exp")
        | Some exp =>
            if is_some_and (c_iat claims) (fun iat => (N.min (unix + o_clock_skew s) U64_MAX <? iat)%N)
            then Err NotYetValid
            else
              let? actors := actors_from (map_get (c_rest claims) "act") in
              let? groups := groups_from (c_rest claims) in
              Ok ({| auth_principal :=
                       {| tenant := o_tenant s; subject := trim subject; groups := sorted_set groups;
                          scopes := sorted_set (c_scp claims ++ c_scope claims);
                          authority := Oidc (o_issuer s) |};
                     auth_token :=
                       {| issued_at := c_iat claims;
                          token_id := c_jti claims ≫= (fun j => if is_blank j then None else Some j);
                          actors := actors; subject_kind := settings_subject_kind s (c_rest claims) |} |}, exp)
        end
  end.

Definition missing_claim_name (claim : string) : string :=
  if existsb (String.eqb claim) ["iss"; "aud"; "sub"; "exp"] then claim else "claim".

Definition rejection_of (e : JwtErrorKind) : TokenRejection :=
  match e with
  | ExpiredSignature => Expired
  | ImmatureSignature => NotYetValid
  | InvalidIssuer => WrongIssuer
  | InvalidAudience => WrongAudience
  | BadSignature => InvalidSignature
  | InvalidAlgorithm => UnsupportedAlgorithm
  | MissingRequiredClaim claim => MissingClaim (missing_claim_name claim)
  | OtherJwtError => Malformed
  end.

(** The header's own checks, giving the key id. *)
Definition header_kid (token : string) : result string TokenRejection :=
  match decode_header token with
  | None => Err Malformed
  | Some h =>
      if negb (String.eqb (h_alg h) "RS256") then Err UnsupportedAlgorithm
      else if bool_decide (h_typ h = Some "oauth-id-jag+jwt"%string) then Err Malformed
      else match h_kid h with None => Err UnknownKey | Some kid => Ok kid end
  end.

(** The token against the keys of a snapshot: [decode] (signature, the
    claims' types, the registered claims) and the principal.  [unix] and
    [unix'] are the two readings of the wall clock. *)
Definition verify_against (token kid : string) (snapshot : KeyCache) (unix unix' : N)
    : result Verified TokenRejection :=
  match kc_keys snapshot !! kid with
  | None => Err UnknownKey
  | Some admitted =>
      match jwt_payload token (ak_key admitted) with
      | Err e => Err (rejection_of e)
      | Ok payload =>
          match claims_of payload with
          | None => Err Malformed
          | Some claims =>
              match jwt_validate payload validation_for unix with
              | Err e => Err (rejection_of e)
              | Ok _ =>
                  let? '(a, exp) := principal_from unix' claims in
                  Ok {| ve_authenticated := a; ve_exp := exp; ve_kid := kid;
                        ve_fingerprint := ak_fingerprint admitted; ve_generation := kc_generation snapshot |}
              end
          end
      end
  end.

(** What one request meets: the clocks at each reading and what each fetch
    it may make answers. *)
Record AuthEnv := {
  ae_file : FetchEnv;
  ae_first : FetchEnv;
  ae_refetch : FetchEnv;
  ae_now_cached : N;
  ae_now_snapshot : N;
  ae_now_refetch : N;
  ae_unix_validate : N;
  ae_unix_claims : N;
  ae_unix_remember : N;
  ae_now_remember : N;
}.

(** The keys to verify with: fetched now if they never were, refetched when
    the kid is not among them. *)
Definition keys_for (env : AuthEnv) (kid : string) (st : OidcState) : OidcState * option KeyCache :=
  let '(st, ready) :=
    match kc_fetched_at (os_keys st) with
    | Some at_ => (maybe_refresh_in_background at_ (ae_now_snapshot env) st, true)
    | None => let '(st, r) := fetch_and_store (ae_first env) st in (st, is_ok r)
    end in
  if negb ready then (st, None)
  else
    let st := match kc_keys (os_keys st) !! kid with
              | Some _ => st
              | None => refetch_for_unknown_kid (ae_refetch env) (ae_now_refetch env) st
              end in
    (st, Some (os_keys st)).

Definition validate_uncached (env : AuthEnv) (token : string) (st : OidcState)
    : OidcState * result Verified TokenRejection :=
  match header_kid token with
  | Err e => (st, Err e)
  | Ok kid =>
      let '(st, snapshot) := keys_for env kid st in
      match snapshot with
      | None => (st, Err KeysUnavailable)
      | Some snapshot => (st, verify_against token kid snapshot (ae_unix_validate env) (ae_unix_claims env))
      end
  end.

Definition oidc_authenticate (env : AuthEnv) (token : string) (st : OidcState)
    : OidcState * result Authenticated TokenRejection :=
  let '(st, ready) :=
    match o_jwks s with
    | JFile _ => let '(st, r) := refresh_keys (ae_file env) st in (st, is_ok r)
    | _ => (st, true)
    end in
  if negb ready then (st, Err KeysUnavailable)
  else
    match cached (token_digest token) (ae_now_cached env) st with
    | Some a => (st, Ok a)
    | None =>
        let '(st, r) := validate_uncached env token st in
        match r with
        | Err e => (st, Err e)
        | Ok v => (remember (token_digest token) v (ae_unix_remember env) (ae_now_remember env) st,
                   Ok (ve_authenticated v))
        end
    end.

(** ** Which keys are admitted *)

(** The admissible entries of a document, in order. *)
Definition admissible (jwks : list Jwk) : list (string * AdmittedKey) := omap admit_one jwks.

Definition entries_for (kid : string) (l : list (string * AdmittedKey)) : list AdmittedKey :=
  omap (fun p => if String.eqb p.1 kid then Some p.2 else None) l.

(** What the loop has when the entries [l] are behind it. *)
Record admitting (l : list (string * AdmittedKey)) (keys : gmap string AdmittedKey) (ambiguous : list string)
    : Prop := {
  ad_last : forall kid, keys !! kid = last (entries_for kid l);
  ad_twice : forall kid, kid ∈ ambiguous <-> (1 < length (entries_for kid l))%nat;
}.

Lemma entries_for_app kid l1 l2 : entries_for kid (l1 ++ l2) = entries_for kid l1 ++ entries_for kid l2.
Proof. apply omap_app. Qed.

Lemma admit_loop_admitting jwks l keys ambiguous :
  admitting l keys ambiguous ->
  let '(keys', ambiguous') := admit_loop jwks keys ambiguous in
  admitting (l ++ admissible jwks) keys' ambiguous'.
Proof.
  revert l keys ambiguous. induction jwks as [|k jwks IH]; intros l keys ambiguous [Hl Ht].
  { cbn. rewrite (right_id_L [] (++)). by split. }
  unfold admissible. cbn [admit_loop omap list_omap].
  destruct (admit_one k) as [[kid a]|]; [|by apply IH].
  change (list_omap _ _ admit_one jwks) with (admissible jwks).
  rewrite (cons_middle (kid, a)), (assoc_L (++)). apply IH. split.
  - intros kid'. rewrite entries_for_app. cbn. destruct (String.eqb_spec kid kid') as [->|Hne].
    + by rewrite lookup_insert_eq, last_snoc.
    + rewrite lookup_insert_ne, (right_id_L [] (++)) by done. apply Hl.
  - intros kid'. rewrite entries_for_app, length_app.
    assert (Hk := Hl kid). cbn. destruct (String.eqb_spec kid kid') as [<-|Hne]; cbn [length].
    + destruct (entries_for kid l) as [|x xs] eqn:E.
      { rewrite Hk. cbn. specialize (Ht kid). rewrite E in Ht. cbn in Ht. rewrite Ht. lia. }
      destruct (keys !! kid) as [y|]; [|symmetry in Hk; by apply last_None in Hk].
      split; [intros _; cbn; lia|set_solver].
    + rewrite Nat.add_0_r, <-Ht. destruct (keys !! kid); set_solver.
Qed.

Lemma delete_all_lookup (ids : list string) (m : gmap string AdmittedKey) k :
  foldl (fun m kid => delete kid m) m ids !! k = if bool_decide (k ∈ ids) then None else m !! k.
Proof.
  revert m. induction ids as [|i ids IH]; intros m; [done|]. cbn [foldl]. rewrite IH.
  destruct (decide (k ∈ ids)).
  - rewrite !bool_decide_eq_true_2; [done|set_solver|done].
  - rewrite (bool_decide_eq_false_2 (k ∈ ids)) by done. destruct (decide (i = k)) as [->|].
    + rewrite lookup_delete_eq, bool_decide_eq_true_2; [done|set_solver].
    + rewrite lookup_delete_ne, bool_decide_eq_false_2; [done|set_solver|done].
Qed.

Lemma admit_keys_spec jwks kid a :
  admit_keys jwks !! kid = Some a <-> entries_for kid (admissible jwks) = [a].
Proof.
  unfold admit_keys. assert (Ha := admit_loop_admitting jwks [] ∅ []).
  destruct (admit_loop jwks ∅ []) as [keys ambiguous]. destruct Ha as [Hl Ht].
  { split; [intros; by rewrite lookup_empty|]. intros kid'. cbn. split; [set_solver|lia]. }
  cbn [app] in *. rewrite delete_all_lookup. specialize (Hl kid). specialize (Ht kid). case_bool_decide as Hin.
  - apply Ht in Hin. split; [done|]. intros E. rewrite E in Hin. cbn in Hin. lia.
  - rewrite Hl. destruct (entries_for kid (admissible jwks)) as [|x [|y l]]; [done|cbn; naive_solver|].
    exfalso. apply Hin, Ht. cbn. lia.
Qed.

(** ** From claims to a principal *)


Lemma principal_from_ok unix claims a exp :
  principal_from unix claims = Ok (a, exp) ->
  exists raw groups_ actors_,
    map_get (c_rest claims) (o_subject_claim s) = Some (VString raw) /\ is_blank raw = false
    /\ c_exp claims = Some exp
    /\ (forall iat, c_iat claims = Some iat -> (iat <= N.min (unix + o_clock_skew s) U64_MAX)%N)
    /\ groups_from (c_rest claims) = Ok groups_
    /\ auth_principal a = {| tenant := o_tenant s; subject := trim raw; groups := sorted_set groups_;
                             scopes := sorted_set (c_scp claims ++ c_scope claims); authority := Oidc (o_issuer s) |}
    /\ auth_token a = {| issued_at := c_iat claims;
                         token_id := c_jti claims ≫= (fun j => if is_blank j then None else Some j);
                         actors := actors_; subject_kind := settings_subject_kind s (c_rest claims) |}
    /\ actors_from (map_get (c_rest claims) "act") = Ok actors_.
Proof.
  unfold principal_from. destruct (map_get (c_rest claims) (o_subject_claim s)) as [[| | |raw| |]|]; try done.
  cbn [mbind option_bind as_str]. destruct (is_blank raw) eqn:Eb; [done|].
  destruct (c_exp claims) as [e|]; [|done].
  destruct (is_some_and (c_iat claims) _) eqn:Ei; [done|].
  destruct (actors_from _) as [acts|]; [|done]. destruct (groups_from _) as [gs|]; [|done].
  intros [= <- <-]. exists raw, gs, acts. split_and!; try done.
  intros iat Hi. rewrite Hi in Ei. cbn in Ei. by apply N.ltb_ge in Ei.
Qed.

(** ** Interleavings

    Requests, fetches and the revocation watcher interleave at the critical
    sections of the two caches.  A validation reads a snapshot of the keys,
    verifies against it at the wall clock's reading, and is remembered later,
    if at all: the snapshots taken are part of the state, and the history
    holds the key documents fetched, the validations finished and the ones
    remembered, each with the clock readings of that step. *)
Inductive OidcEvent :=
| EvDocument (body : list byte)
| EvVerified (token : string) (snapshot : KeyCache) (unix unix' : N) (v : Verified)
| EvRemembered (key : string) (v : Verified) (unix now : N).

Inductive reaches : OidcState -> list KeyCache -> list OidcEvent -> Prop :=
| R_new : reaches oidc_new [] []
| R_install st sn h body set now :
    reaches st sn h -> parse_jwks body = Some set ->
    reaches (install_keys (admit_keys set) now st) sn (EvDocument body :: h)
| R_drop st sn h now : reaches st sn h -> reaches (install_keys ∅ now st) sn h
| R_snapshot st sn h : reaches st sn h -> reaches st (os_keys st :: sn) h
| R_verify st sn h token kid snapshot unix unix' v :
    reaches st sn h -> snapshot ∈ sn -> header_kid token = Ok kid ->
    verify_against token kid snapshot unix unix' = Ok v ->
    reaches st sn (EvVerified token snapshot unix unix' v :: h)
| R_remember st sn h token snapshot unix unix' v unix'' now :
    reaches st sn h -> EvVerified token snapshot unix unix' v ∈ h ->
    reaches (remember (token_digest token) v unix'' now st) sn (EvRemembered (token_digest token) v unix'' now :: h)
| R_clear st sn h : reaches st sn h -> reaches (clear_validated st) sn h
| R_flags st st' sn h :
    reaches st sn h -> os_keys st' = os_keys st -> os_validated st' = os_validated st -> reaches st' sn h.

Definition published (keys : gmap string AdmittedKey) (kid : string) (fp : list byte) : Prop :=
  exists a, keys !! kid = Some a /\ ak_fingerprint a = fp.

(** A JWKS document offers a key for RS256 signatures under a kid. *)
Definition offers (body : list byte) (kid : string) (key : DecodingKey) (fp : list byte) : Prop :=
  exists set k, parse_jwks body = Some set /\ k ∈ set /\ jwk_kid k = Some kid
    /\ is_rs256_signing_key k = true /\ decoding_key_from_jwk k = Some key /\ fingerprint_of k = Some fp.

(** Every key of a key cache is one a fetched document offers. *)
Definition from_documents (h : list OidcEvent) (keys : gmap string AdmittedKey) : Prop :=
  forall kid a, keys !! kid = Some a ->
    exists body, EvDocument body ∈ h /\ offers body kid (ak_key a) (ak_fingerprint a).

Lemma admit_keys_offered body set kid a :
  parse_jwks body = Some set -> admit_keys set !! kid = Some a -> offers body kid (ak_key a) (ak_fingerprint a).
Proof.
  intros Hp Ha%admit_keys_spec. assert (Hin : a ∈ entries_for kid (admissible set)) by (by rewrite Ha, list_elem_of_singleton).
  apply list_elem_of_omap in Hin as ([kid' a'] & Hin & Hk). cbn in Hk.
  destruct (String.eqb_spec kid' kid) as [->|]; [|done]. injection Hk as ->.
  apply list_elem_of_omap in Hin as (k & Hin & Hk). exists set, k.
  unfold admit_one in Hk. destruct (jwk_kid k) as [kid''|] eqn:Ek; [|done]. cbn [mbind option_bind] in Hk.
  destruct (is_rs256_signing_key k) eqn:Er; [|done].
  destruct (decoding_key_from_jwk k) as [key|] eqn:Ed; [|done]. cbn [mbind option_bind] in Hk.
  destruct (fingerprint_of k) as [fp|] eqn:Ef; [|done]. injection Hk as -> <-. done.
Qed.

Lemma from_documents_mono h h' keys : (forall e, e ∈ h -> e ∈ h') -> from_documents h keys -> from_documents h' keys.
Proof. intros Hi Hf kid a Ha. destruct (Hf kid a Ha) as (body & ? & ?). eauto. Qed.

Lemma verify_against_ok token kid snapshot unix unix' v :
  verify_against token kid snapshot unix unix' = Ok v ->
  exists admitted payload claims,
    kc_keys snapshot !! kid = Some admitted /\ jwt_payload token (ak_key admitted) = Ok payload
    /\ claims_of payload = Some claims /\ jwt_validate payload validation_for unix = Ok tt
    /\ principal_from unix' claims = Ok (ve_authenticated v, ve_exp v)
    /\ ve_kid v = kid /\ ve_fingerprint v = ak_fingerprint admitted /\ ve_generation v = kc_generation snapshot.
Proof.
  unfold verify_against. destruct (kc_keys snapshot !! kid) as [admitted|]; [|done].
  destruct (jwt_payload token (ak_key admitted)) as [payload|] eqn:Ep; [|done].
  destruct (claims_of payload) as [claims|] eqn:Ec; [|done].
  destruct (jwt_validate payload validation_for unix) as [[]|] eqn:Ev; [|done].
  destruct (principal_from unix' claims) as [[a exp]|] eqn:Epr; [|done]. intros [= <-].
  exists admitted, payload, claims. done.
Qed.

Lemma vouched_published keys e : vouched keys e = true <-> published keys (v_kid e) (v_fingerprint e).
Proof.
  unfold vouched, published. destruct (keys !! v_kid e) as [a|]; cbn; [|naive_solver].
  rewrite bool_decide_eq_true. naive_solver.
Qed.

(** The entry a validation leaves when it is remembered at the wall clock's
    [unix] and the monotonic clock's [now]. *)
Definition entry_of (v : Verified) (unix now : N) (e : Validated) : Prop :=
  v_authenticated e = ve_authenticated v /\ v_kid e = ve_kid v /\ v_fingerprint e = ve_fingerprint v
  /\ (unix < ve_exp v)%N
  /\ v_expires_at e = (now + N.min (ve_exp v - unix) VALIDATED_TTL * NANOS_PER_SEC)%N.

(** A validation of the history is one its clock readings and snapshot give. *)
Definition verified_at (sn : list KeyCache) (token : string) (snapshot : KeyCache) (unix unix' : N) (v : Verified)
    : Prop :=
  snapshot ∈ sn /\ exists kid, header_kid token = Ok kid /\ verify_against token kid snapshot unix unix' = Ok v.

Record oidc_inv (st : OidcState) (sn : list KeyCache) (h : list OidcEvent) : Prop := {
  oi_snap : forall k, k ∈ sn -> (kc_generation k <= kc_generation (os_keys st))%N
              /\ (kc_generation k = kc_generation (os_keys st) -> kc_keys k = kc_keys (os_keys st));
  oi_docs : from_documents h (kc_keys (os_keys st)) /\ forall k, k ∈ sn -> from_documents h (kc_keys k);
  oi_done : forall token snapshot unix unix' v, EvVerified token snapshot unix unix' v ∈ h ->
              verified_at sn token snapshot unix unix' v;
  oi_cache : forall key e, os_validated st !! key = Some e ->
               published (kc_keys (os_keys st)) (v_kid e) (v_fingerprint e)
               /\ exists token snapshot u u' v unix now, EvVerified token snapshot u u' v ∈ h
                    /\ token_digest token = key /\ EvRemembered key v unix now ∈ h /\ entry_of v unix now e;
  oi_size : (size (os_validated st) <= VALIDATED_CAPACITY)%nat;
}.

(** What [remember] leaves in the cache: the new entry, or entries it had. *)
Lemma remember_lookup key v unix now st k e :
  os_validated (remember key v unix now st) !! k = Some e ->
  os_validated st !! k = Some e
  \/ (k = key /\ ve_generation v = kc_generation (os_keys st) /\ entry_of v unix now e).
Proof.
  unfold remember. destruct (N.eqb_spec (N.min (ve_exp v - unix) VALIDATED_TTL) 0) as [|Httl]; [by left|].
  destruct (N.eqb_spec (ve_generation v) (kc_generation (os_keys st))) as [Hg|]; cbn [negb]; [|by left].
  cbn [with_validated os_validated]. destruct (decide (k = key)) as [->|Hne].
  - rewrite lookup_insert_eq. intros [= <-]. right. split; [done|]. split; [done|].
    split_and!; [done..| |done]. unfold VALIDATED_TTL in Httl. lia.
  - rewrite lookup_insert_ne by done. intros He. left. repeat case_match; [done| |done].
    by apply map_lookup_filter_Some in He as [? _].
Qed.

Lemma remember_size key v unix now st :
  (size (os_validated st) <= VALIDATED_CAPACITY)%nat ->
  (size (os_validated (remember key v unix now st)) <= VALIDATED_CAPACITY)%nat.
Proof.
  intros Hs. unfold remember. destruct (_ =? 0)%N; [done|]. destruct (negb _); [done|]. cbn [os_validated with_validated].
  assert (Hins : forall (m : gmap string Validated) e, (size m < VALIDATED_CAPACITY)%nat ->
            (size (<[key := e]> m) <= VALIDATED_CAPACITY)%nat).
  { intros m e Hm. rewrite map_size_insert. destruct (m !! key); unfold id; lia. }
  apply Hins. destruct (Nat.leb_spec VALIDATED_CAPACITY (size (os_validated st))); [|done].
  match goal with |- context [Nat.leb _ (size ?live)] => destruct (Nat.leb_spec VALIDATED_CAPACITY (size live)) end;
    [|done]. rewrite map_size_empty. apply Nat.ltb_lt. vm_compute. done.
Qed.

Lemma remember_keys key v unix now st : os_keys (remember key v unix now st) = os_keys st.
Proof. unfold remember. by repeat case_match. Qed.

(** An event of another kind changes nothing the history says of the rest. *)
Ltac oidc_history IH :=
  let Hs := fresh "Hs" in let Hf := fresh "Hf" in let Hfs := fresh "Hfs" in
  let Hd := fresh "Hd" in let Hc := fresh "Hc" in let Hz := fresh "Hz" in
  destruct IH as [Hs [Hf Hfs] Hd Hc Hz].

Lemma inv_install st sn h h' keys now :
  oidc_inv st sn h -> (forall e, e ∈ h -> e ∈ h') -> from_documents h' keys ->
  (forall token snapshot unix unix' v, EvVerified token snapshot unix unix' v ∈ h' ->
     EvVerified token snapshot unix unix' v ∈ h) ->
  oidc_inv (install_keys keys now st) sn h'.
Proof.
  intros IH Hi Hk Hv. oidc_history IH. split; cbn.
  - intros k Hin. destruct (Hs k Hin) as [? _]. split; lia.
  - split; [done|]. intros k Hin. by eapply from_documents_mono, Hfs.
  - intros token snapshot unix unix' v Hin%Hv. by apply Hd.
  - intros key e [He Hvo]%map_lookup_filter_Some. apply vouched_published in Hvo. split; [done|].
    destruct (Hc key e He) as [_ (token & snapshot & u & u' & v & unix & now' & ? & ? & ? & ?)].
    exists token, snapshot, u, u', v, unix, now'. split_and!; auto.
  - etransitivity; [apply map_size_filter|done].
Qed.

Lemma inv_remember st sn h token snapshot u u' v unix now :
  oidc_inv st sn h -> EvVerified token snapshot u u' v ∈ h ->
  oidc_inv (remember (token_digest token) v unix now st) sn (EvRemembered (token_digest token) v unix now :: h).
Proof.
  intros IH Hin. oidc_history IH. split; rewrite ?remember_keys; [done| | | |by apply remember_size].
  - split; [|intros k Hk; specialize (Hfs k Hk)]; eapply from_documents_mono; [|done| |done]; set_solver.
  - intros tk sk a a' w [|Hw]%elem_of_cons; [done|by apply Hd].
  - intros k e [He|(-> & Hg & He)]%remember_lookup.
    + destruct (Hc k e He) as [? (tk & sk & a & a' & w & b & b' & ? & ? & ? & ?)]. split; [done|].
      exists tk, sk, a, a', w, b, b'. split_and!; [set_solver|done|set_solver|done].
    + destruct (Hd _ _ _ _ _ Hin) as [Hsk (kid & _ & Hv)].
      apply verify_against_ok in Hv as (ad & _ & _ & Had & _ & _ & _ & _ & Ek & Ef & Eg).
      destruct (Hs snapshot Hsk) as [_ Heq]. split.
      * destruct He as (_ & -> & -> & _). rewrite <- Heq by congruence. exists ad. by rewrite Ek.
      * exists token, snapshot, u, u', v, unix, now. split_and!; [set_solver|done|set_solver|done].
Qed.

Lemma reaches_inv st sn h : reaches st sn h -> oidc_inv st sn h.
Proof.
  clear parse_discovery.
  induction 1 as [|st sn h body set now _ IH Hp|st sn h now _ IH|st sn h _ IH
                  |st sn h token kid snapshot unix unix' v _ IH Hin Hh Hv
                  |st sn h token snapshot unix unix' v unix'' now _ IH Hin|st sn h _ IH|st st' sn h _ IH Hk Hval].
  - split; [set_solver|split; [intros kid a Ha; discriminate Ha|set_solver]|set_solver
           |intros key e He; discriminate He|]. cbn. rewrite map_size_empty. lia.
  - apply (inv_install st sn h); [done|set_solver| |set_solver].
    intros kid a Ha. exists body. split; [set_solver|]. by eapply admit_keys_offered.
  - apply (inv_install st sn h); [done|done| |done]. intros kid a Ha. discriminate Ha.
  - oidc_history IH. split; [|split; [done|]|..|done].
    + intros k [->|Hk]%elem_of_cons; [split; [lia|done]|by apply Hs].
    + intros k [->|Hk]%elem_of_cons; [done|by apply Hfs].
    + intros token snapshot unix unix' v Hv. destruct (Hd _ _ _ _ _ Hv) as [? ?]. split; [set_solver|done].
    + done.
  - oidc_history IH. split; [done| | | |done].
    + split; [|intros k Hk; specialize (Hfs k Hk)]; eapply from_documents_mono; [|done| |done]; set_solver.
    + intros tk sk a a' w [[= -> -> -> -> ->]|Hw]%elem_of_cons; [|by apply Hd]. split; [done|]. by exists kid.
    + intros key e He. destruct (Hc key e He) as [? (tk & sk & a & a' & w & b & b' & ? & ? & ? & ?)]. split; [done|].
      exists tk, sk, a, a', w, b, b'. split_and!; [set_solver|done|set_solver|done].
  - by eapply inv_remember.
  - oidc_history IH. split; [done|done|done|intros key e He; discriminate He|].
    cbn. rewrite map_size_empty. lia.
  - oidc_history IH. split; rewrite ?Hk, ?Hval; done.
Qed.

(** *** A request is a sequence of these steps *)

(** A history continued by fetched documents alone. *)
Definition fetched_more (h h' : list OidcEvent) : Prop :=
  (forall e, e ∈ h -> e ∈ h') /\ forall e, e ∈ h' -> e ∈ h \/ exists body, e = EvDocument body.

#[local] Instance fetched_more_preorder : PreOrder fetched_more.
Proof.
  split; [by split; auto|]. intros h1 h2 h3 [A1 B1] [A2 B2]. split; [auto|].
  intros e [He|He]%B2; [by apply B1|by right].
Qed.

Lemma fetch_reaches f st sn h :
  reaches st sn h -> exists h', reaches (fetch_and_store f st).1 sn h' /\ fetched_more h h'.
Proof.
  intros Hr.
  assert (Hdrop : exists h', reaches (with_digest None (install_keys ∅ (fe_now f) st)) sn h' /\ fetched_more h h')
    by (exists h; split; [by eapply R_flags; [apply R_drop|..]|done]).
  assert (Hsame : exists h', reaches st sn h' /\ fetched_more h h') by (by exists h).
  assert (Hdoc : forall body set d, parse_jwks body = Some set ->
            exists h', reaches (with_digest d (install_keys (admit_keys set) (fe_now f) st)) sn h' /\ fetched_more h h').
  { intros body set d Hp. exists (EvDocument body :: h).
    split; [by eapply R_flags; [apply (R_install _ _ _ _ _ (fe_now f) Hr Hp)|..]|]. split; [set_solver|].
    intros e [->|]%elem_of_cons; eauto. }
  unfold fetch_and_store, load_file. repeat case_match; simplify_eq; cbn [fst]; eauto;
    repeat match goal with
    | E : (match ?x with _ => _ end) = Ok _ |- _ => destruct x eqn:?; [|done]
    | E : parse_jwks ?b = Some ?set |- _ =>
        destruct (Hdoc b set (os_file_digest st) E) as (h' & Hh & ?); exists h'; split; [exact Hh|done]
    end.
Qed.

Lemma refetch_reaches f now st sn h :
  reaches st sn h -> exists h', reaches (refetch_for_unknown_kid f now st) sn h' /\ fetched_more h h'.
Proof.
  intros Hr. unfold refetch_for_unknown_kid. destruct (is_some_and _ _); [by exists h|].
  apply fetch_reaches. by apply (R_flags st).
Qed.

Lemma background_reaches f st sn h :
  reaches st sn h -> exists h', reaches (background_refresh f st) sn h' /\ fetched_more h h'.
Proof.
  intros Hr. unfold background_refresh. destruct (fetch_reaches f st sn h Hr) as (h' & Hh & ?). exists h'.
  split; [by eapply R_flags; [exact Hh|..]|done].
Qed.

Lemma keys_for_reaches env kid st sn h :
  reaches st sn h ->
  exists sn' h', reaches (keys_for env kid st).1 sn' h' /\ fetched_more h h'
    /\ forall k, (keys_for env kid st).2 = Some k -> k ∈ sn' /\ k = os_keys (keys_for env kid st).1.
Proof.
  intros Hr. unfold keys_for.
  assert (Hfirst : forall st0 ready,
    match kc_fetched_at (os_keys st) with
    | Some at_ => (maybe_refresh_in_background at_ (ae_now_snapshot env) st, true)
    | None => let '(st, r) := fetch_and_store (ae_first env) st in (st, is_ok r)
    end = (st0, ready) -> exists h', reaches st0 sn h' /\ fetched_more h h').
  { intros st0 ready. destruct (kc_fetched_at (os_keys st)).
    - intros [= <- <-]. exists h. split; [|done].
      unfold maybe_refresh_in_background. repeat case_match; try done; by apply (R_flags st).
    - destruct (fetch_and_store (ae_first env) st) as [st1 r] eqn:E. intros [= <- <-].
      change st1 with (st1, r).1. rewrite <-E. by apply fetch_reaches. }
  destruct (match kc_fetched_at (os_keys st) with Some _ => _ | None => _ end) as [st0 ready].
  destruct (Hfirst st0 ready eq_refl) as (h0 & Hr0 & Hm0). destruct ready; cbn [negb]; [|by exists sn, h0].
  set (st1 := match kc_keys (os_keys st0) !! kid with Some _ => st0 | None => _ end).
  assert (Hr1 : exists h1, reaches st1 sn h1 /\ fetched_more h0 h1).
  { unfold st1. destruct (kc_keys (os_keys st0) !! kid); [by exists h0|by apply refetch_reaches]. }
  destruct Hr1 as (h1 & Hr1 & Hm1). exists (os_keys st1 :: sn), h1. cbn [fst snd].
  split; [by apply R_snapshot|]. split; [by etrans|]. intros k [= <-]. split; [set_solver|done].
Qed.

(** The validator as the bearer middleware sees it. *)
Definition oidc_validator (env : AuthEnv) : TokenValidator OidcState :=
  {| authenticate := oidc_authenticate env; forget_validated := clear_validated |}.

(** ** Claims *)

(** However requests, key fetches and cache clears interleave, the cache
    of validated tokens holds at most [VALIDATED_CAPACITY] entries, and each
    is a full validation of a token of that digest: the entry's key is
    published now, under the same kid with the same material, so a withdrawn
    or replaced key vouches for nothing from the moment the fetch installs its
    successor; and the entry expires with the token and no later than
    [VALIDATED_TTL] after it was made. *)
Theorem oidc_cache_follows_keys st sn h :
  reaches st sn h ->
  (size (os_validated st) <= VALIDATED_CAPACITY)%nat
  /\ forall key e, os_validated st !! key = Some e ->
       published (kc_keys (os_keys st)) (v_kid e) (v_fingerprint e)
       /\ exists token snapshot u u' v unix now, verified_at sn token snapshot u u' v /\ token_digest token = key
            /\ EvRemembered key v unix now ∈ h /\ entry_of v unix now e.
Proof.
  intros Hr. destruct (reaches_inv _ _ _ Hr) as [_ _ Hd Hc Hz]. split; [done|]. intros key e He.
  destruct (Hc key e He) as [Hp (token & snapshot & u & u' & v & unix & now & Hv & Ht & Hm & He')]. split; [done|].
  exists token, snapshot, u, u', v, unix, now. split_and!; [by apply Hd|done|done|done].
Qed.

(** What an accepted request did: it was served from the cache, or it took a
    snapshot of the keys in force and validated the token against it. *)
Lemma authenticate_cases env token st sn h st' a :
  reaches st sn h -> oidc_authenticate env token st = (st', Ok a) ->
  exists st0 sn0 h0, reaches st0 sn0 h0 /\ fetched_more h h0
    /\ ((exists e, st' = st0 /\ os_validated st0 !! token_digest token = Some e
            /\ (ae_now_cached env < v_expires_at e)%N /\ a = v_authenticated e)
        \/ exists kid v, header_kid token = Ok kid /\ a = ve_authenticated v /\ os_keys st0 ∈ sn0
             /\ verify_against token kid (os_keys st0) (ae_unix_validate env) (ae_unix_claims env) = Ok v
             /\ st' = remember (token_digest token) v (ae_unix_remember env) (ae_now_remember env) st0).
Proof.
  intros Hr Ha. unfold oidc_authenticate in Ha.
  assert (Hst : forall st0 ready,
    match o_jwks s with
    | JFile _ => let '(st, r) := refresh_keys (ae_file env) st in (st, is_ok r)
    | _ => (st, true)
    end = (st0, ready) -> exists h0, reaches st0 sn h0 /\ fetched_more h h0).
  { intros st0 ready. unfold refresh_keys. destruct (o_jwks s) eqn:Ej; try (intros [= <- <-]; by exists h).
    destruct (fetch_and_store (ae_file env) st) as [st1 r] eqn:E. intros [= <- <-].
    change st1 with (st1, r).1. rewrite <-E. by apply fetch_reaches. }
  destruct (match o_jwks s with JDirect _ => _ | JFile _ => _ | JDiscovery _ => _ end) as [st0 ready].
  destruct (Hst st0 ready eq_refl) as (h0 & Hr0 & Hm0). clear Hst. destruct ready; cbn [negb] in Ha; [|done].
  destruct (cached _ _ st0) as [b|] eqn:Ec.
  - injection Ha as <- <-. exists st0, sn, h0. split; [done|]. split; [done|]. left. unfold cached in Ec.
    destruct (os_validated st0 !! token_digest token) as [e|]; [|done]. exists e.
    destruct (N.ltb_spec (ae_now_cached env) (v_expires_at e)); [|done]. by injection Ec as <-.
  - unfold validate_uncached in Ha. destruct (header_kid token) as [kid|] eqn:Eh; [|done].
    destruct (keys_for_reaches env kid st0 sn h0 Hr0) as (sn1 & h1 & Hr1 & Hm1 & Hsnap).
    destruct (keys_for env kid st0) as [st1 [snapshot|]]; [|done]. cbn [fst snd] in *.
    destruct (Hsnap snapshot eq_refl) as [Hin ->].
    destruct (verify_against _ _ _ _ _) as [v|] eqn:Ev; [|done]. injection Ha as <- <-.
    exists st1, sn1, h1. split; [done|]. split; [by etrans|]. right. by exists kid, v.
Qed.


Lemma published_offered st sn h kid fp :
  oidc_inv st sn h -> published (kc_keys (os_keys st)) kid fp ->
  exists body key, EvDocument body ∈ h /\ offers body kid key fp /\ exists ad, kc_keys (os_keys st) !! kid = Some ad
    /\ ak_key ad = key /\ ak_fingerprint ad = fp.
Proof.
  intros Hinv (ad & Had & <-). oidc_history Hinv. destruct (Hf kid ad Had) as (body & ? & ?).
  exists body, (ak_key ad). split_and!; [done|done|]. by exists ad.
Qed.



(** Every request leaves a state of the same kind behind. *)
Lemma authenticate_reaches env token st sn h st' a :
  reaches st sn h -> oidc_authenticate env token st = (st', Ok a) -> exists sn' h', reaches st' sn' h'.
Proof.
  intros Hr Ha. destruct (authenticate_cases _ _ _ _ _ _ _ Hr Ha) as (st0 & sn0 & h0 & Hr0 & _ & Hcase).
  destruct Hcase as [(e & -> & _)|(kid & v & Hh & _ & Hin & Hv & ->)]; [by exists sn0, h0|].
  eexists sn0, _. eapply R_remember; [by eapply R_verify|]. apply elem_of_cons. by left.
Qed.

Lemma sorted_set_spec l :
  StronglySorted str_lt (sorted_set l) /\ forall x, x ∈ sorted_set l <-> x ∈ l.
Proof.
  unfold sorted_set. split; [apply dedup_sorted, (StronglySorted_merge_sort str_le)|].
  intros x. by rewrite dedup_elem, (merge_sort_Permutation str_le l).
Qed.

(** The principal says what the signed claims say.  The subject is the
    trimmed, non-blank text of the configured claim; the scopes and groups are
    duplicate-free and in order, the scopes exactly those of the two scope
    claims, the groups exactly the normalised strings of the groups claim,
    never an empty list standing for groups the provider left out; an issue
    time is not ahead of the clock by more than the skew; and a token that the
    profile or the operator's marker identifies as a machine's is a machine's
    whatever else it claims, so only an explicit opt-in admits it to the
    administrative API. *)
Theorem oidc_principal_faithful unix claims a exp :
  principal_from unix claims = Ok (a, exp) ->
  let p := auth_principal a in
  (exists raw, map_get (c_rest claims) (o_subject_claim s) = Some (VString raw)
     /\ subject p = trim raw /\ is_blank raw = false)
  /\ tenant p = o_tenant s /\ authority p = Oidc (o_issuer s)
  /\ StronglySorted str_lt (scopes p)
  /\ (forall x, x ∈ scopes p <-> x ∈ c_scp claims \/ x ∈ c_scope claims)
  /\ StronglySorted str_lt (groups p)
  /\ (forall g, g ∈ groups p <-> exists claim values v, o_groups_claim s = Some claim
        /\ lookup_claim (c_rest claims) claim = Some (VArray values)
        /\ VString v ∈ values /\ g = normalise_group (o_profile s) v)
  /\ (forall claim, o_groups_claim s = Some claim -> lookup_claim (c_rest claims) claim = None ->
        groups_are_overaged (c_rest claims) claim = false)
  /\ (forall iat, issued_at (auth_token a) = Some iat -> (iat <= unix + o_clock_skew s)%N)
  /\ (profile_subject_kind (o_profile s) (c_rest claims) = Machine
       \/ (exists m, o_machine_claim s = Some m /\ claim_matches m (c_rest claims) = true) ->
        subject_kind (auth_token a) = Machine
        /\ forall policy, admits policy (subject_kind (auth_token a)) = true -> policy = AdminAny).
Proof.
  intros (raw & gs & acts & Hsub & Hb & He & Hiat & Hg & Hp & Ht & Hact)%principal_from_ok p.
  subst p. rewrite Hp, Ht. cbn [subject tenant authority scopes groups issued_at subject_kind].
  destruct (sorted_set_spec (c_scp claims ++ c_scope claims)) as [Hs1 Hs2].
  destruct (sorted_set_spec gs) as [Hg1 Hg2].
  split; [by exists raw|]. split; [done|]. split; [done|]. split; [done|].
  split; [intros x; rewrite Hs2; set_solver|]. split; [done|].
  assert (Hgs : (forall claim, o_groups_claim s = Some claim -> lookup_claim (c_rest claims) claim = None ->
                   groups_are_overaged (c_rest claims) claim = false)
    /\ forall g, g ∈ gs <-> exists claim values v, o_groups_claim s = Some claim
         /\ lookup_claim (c_rest claims) claim = Some (VArray values)
         /\ VString v ∈ values /\ g = normalise_group (o_profile s) v).
  { unfold groups_from in Hg. destruct (o_groups_claim s) as [claim|]; [|injection Hg as <-; split; [done|intros g; split; [by intros ?%not_elem_of_nil|naive_solver]]].
    destruct (lookup_claim (c_rest claims) claim) as [v|] eqn:El.
    - split; [intros ? [= <-] ?; congruence|]. intros g. injection Hg as <-.
      destruct (as_array v) as [values|] eqn:Ev; cbn [fmap option_fmap option_map from_option id].
      2: { split; [by intros ?%not_elem_of_nil|]. intros (c & vals & w & [= <-] & Hv & _).
           rewrite El in Hv. injection Hv as ->. done. }
      assert (v = VArray values) as -> by (destruct v; by simplify_eq/=).
      rewrite list_elem_of_fmap. setoid_rewrite list_elem_of_omap. split.
      + intros (x & -> & (w & Hw & Hx)). destruct w; try done. injection Hx as ->. eexists _, _, _. done.
      + intros (? & ? & w & [= <-] & Hv & Hin & ->). rewrite El in Hv. injection Hv as <-. exists w. split; [done|].
        by exists (VString w).
    - destruct (groups_are_overaged (c_rest claims) claim) eqn:Eo; [done|]. injection Hg as <-. split.
      + by intros ? [= <-] _.
      + intros g. split; [by intros ?%not_elem_of_nil|]. intros (? & ? & ? & [= <-] & ? & ?). congruence. }
  destruct Hgs as [Hover Hgs]. split; [intros g; by rewrite Hg2, Hgs|]. split; [done|]. split.
  { intros iat Hi. specialize (Hiat iat Hi). lia. }
  intros Hm. assert (Hk : settings_subject_kind s (c_rest claims) = Machine).
  { unfold settings_subject_kind. destruct Hm as [->|(m & -> & Hm)]; [done|]. cbn. by rewrite Hm, orb_true_r. }
  rewrite Hk. split; [done|]. by intros [].
Qed.

(** Which signing keys a JWKS document offers does not depend on the order
    of its entries: a kid is admitted exactly when one and only one entry
    carrying it is an admissible RS256 signing key, and it is that entry's
    key; a kid two entries claim is admitted for neither. *)
Theorem oidc_keys_unambiguous jwks :
  (forall kid a, admit_keys jwks !! kid = Some a <-> entries_for kid (admissible jwks) = [a])
  /\ (forall jwks', jwks ≡ₚ jwks' -> admit_keys jwks' = admit_keys jwks).
Proof.
  split; [intros; apply admit_keys_spec|]. intros jwks' Hp. apply map_eq. intros kid.
  apply option_eq. intros a. rewrite !admit_keys_spec.
  assert (Hl : entries_for kid (admissible jwks) ≡ₚ entries_for kid (admissible jwks')).
  { unfold entries_for, admissible. by rewrite Hp. }
  split; intros E; rewrite E in Hl; [|symmetry in Hl]; by apply Permutation_singleton_r in Hl.
Qed.
End Validator.

Module OidcWitness.

#[export] Instance toy_jwt : JwtLib := {|
  DecodingKey := string;
  decode_header := fun _ => Some {| h_alg := "RS256"; h_typ := None; h_kid := Some "k1"%string |};
  decoding_key_from_jwk := fun k => jwk_kid k;
  jwt_payload := fun token _ =>
    Ok [("sub", VString token); ("iss", VString "https://idp"); ("aud", VString "gw"); ("exp", VNumber "1000");
        ("iat", VNumber "900"); ("scope", VString "mcp:tools openid")];
  jwt_validate := fun payload v unix =>
    match map_get payload "iss", map_get payload "aud", map_get payload "exp" ≫= as_u64 with
    | Some (VString iss), Some (VString aud), Some e =>
        if existsb (String.eqb iss) (val_issuers v) && String.eqb aud (val_audience v)
           && (unix <=? e + val_leeway v)%N
        then Ok tt else Err ExpiredSignature
    | _, _, _ => Err (MissingRequiredClaim "exp")
    end |}.

#[export] Instance toy_jwt_laws : JwtLaws toy_jwt.
Proof.
  split; unfold jwt_validate, toy_jwt; intros payload v unix.
  all: destruct (map_get payload "iss") as [[| | |iss| |]|]; try done.
  all: destruct (map_get payload "aud") as [[| | |aud| |]|]; try done.
  all: destruct (map_get payload "exp" ≫= as_u64) as [e|]; try done.
  all: destruct (existsb (String.eqb iss) (val_issuers v)) eqn:Ei; try done.
  all: destruct (String.eqb_spec aud (val_audience v)) as [Ea|]; try done.
  all: destruct (N.leb_spec unix (e + val_leeway v)); try done.
  - intros exp _ [= <-]. done.
  - intros _. exists (VString iss). split; [done|]. by apply scope_held.
  - intros _. exists (VString aud). split; [done|]. cbn. rewrite Ea. set_solver.
Qed.

Definition settings : OidcSettings :=
  {| o_profile := PGeneric; o_issuer := "https://idp"; o_audience := "gw"; o_jwks := JDirect "https://idp/keys";
     o_subject_claim := "sub"; o_groups_claim := Some "groups"%string; o_clock_skew := 60; o_tenant := "t";
     o_jwks_refresh := 600 * NANOS_PER_SEC; o_jwks_min_refetch_interval := 30 * NANOS_PER_SEC;
     o_machine_claim := None; o_human_claim := None |}.

Definition hash (l : list byte) : list byte := l.
Definition jwk : Jwk := {| jwk_kid := Some "k1"%string; jwk_use := Some UseSignature; jwk_alg := None;
                           jwk_params := RSA "n" "e" |}.
Definition parse (_ : list byte) : option (list Jwk) := Some [jwk].
Definition no_discovery (_ : list byte) : option (option string * option string) := None.
Definition reply : FetchEnv :=
  {| fe_discovery := Err "x"%string; fe_jwks := Ok {| f_status := 200; f_content_length := None; f_chunks := [] |};
     fe_file := Err "x"%string; fe_now := 5 |}.
Definition env : AuthEnv :=
  {| ae_file := reply; ae_first := reply; ae_refetch := reply; ae_now_cached := 5; ae_now_snapshot := 5;
     ae_now_refetch := 5; ae_unix_validate := 950; ae_unix_claims := 950; ae_unix_remember := 950;
     ae_now_remember := 6 |}.
Definition no_host `{UrlLib} (_ : Url) : option UrlHost := None.

Definition first_request : OidcState * result Authenticated TokenRejection :=
  oidc_authenticate (H := CallWitness.toy_url) hash parse no_discovery no_host settings env "alice" oidc_new.

(** The first request fetches the keys, verifies and is remembered. *)
Example first_remembered :
  cached (token_digest hash "alice") 7 first_request.1 = ok first_request.2 /\ is_ok first_request.2 = true.
Proof. vm_compute. done. Qed.

Lemma first_ok : exists a, first_request.2 = Ok a.
Proof. vm_compute. by eexists. Qed.

Lemma first_reaches : exists sn h, reaches hash parse settings first_request.1 sn h.
Proof.
  destruct first_ok as [a Ha]. destruct first_request as [st r] eqn:E. cbn [fst snd] in *. subst r.
  exact (authenticate_reaches _ _ _ _ _ _ _ _ _ _ _ _ (R_new hash parse settings) E).
Qed.

Lemma oidc_cache_follows_keys_witness :
  exists e, os_validated first_request.1 !! token_digest hash "alice" = Some e
    /\ published (kc_keys (os_keys first_request.1)) (v_kid e) (v_fingerprint e).
Proof.
  destruct first_reaches as (sn & h & Hr).
  destruct (oidc_cache_follows_keys hash parse settings _ sn h Hr) as [_ Hc].
  destruct (os_validated first_request.1 !! token_digest hash "alice") as [e|] eqn:Ee.
  - exists e. split; [reflexivity|]. exact (proj1 (Hc _ e Ee)).
  - exfalso. vm_compute in Ee. discriminate Ee.
Defined.



Definition some_claims : Claims :=
  {| c_exp := Some 1000%N; c_iat := Some 900%N; c_jti := None; c_scp := ["b"; "a"]; c_scope := ["a"];
     c_rest := [("sub", VString " alice ")] |}.

Lemma oidc_principal_faithful_witness :
  exists a, principal_from settings 950 some_claims = Ok (a, 1000%N)
    /\ StronglySorted str_lt (scopes (auth_principal a)).
Proof.
  eexists. split; [vm_compute; reflexivity|].
  match goal with |- StronglySorted _ (scopes (auth_principal ?a)) =>
    refine (proj1 (proj2 (proj2 (proj2 (oidc_principal_faithful settings 950 some_claims a 1000 _)))))
  end. vm_compute. reflexivity.
Defined.

End OidcWitness.
