(* ===== verification/Chain.v ===== *)
(** * The journal's hash chain and signed checkpoints (src/src/audit/checkpoint.rs)

    Every journal line extends a running SHA-256; a checkpoint record carries
    the value over everything before it and a signature over a fixed rendering
    of its fields.  SHA-256, base64 and Ed25519 are the interface [Crypto] and,
    for the signing half, [SigningLib]. *)
From stdpp Require Import pretty.
From S2P Require Import Prelude RustStr Json PolicyTypes Signing.

Definition CHECKPOINT_KIND : string := "checkpoint".
Definition CHAIN_SEED : list byte := as_bytes "mcp-devtools/audit-journal/chain/v1".
Definition CHAIN_LEN : nat := 32.

(** The 32 bytes of [Chain]. *)
Definition Chain : Type := list byte.

(** [n.to_string()]. *)
Definition to_string (n : N) : string := of_bytes (render_u64 n).

Section Chain.
Context `{Crypto}.

Definition genesis : Chain := sha256 CHAIN_SEED.
Definition extend (c : Chain) (line : list byte) : Chain := sha256 (c ++ line).

Definition label (c : Chain) : string :=
  of_bytes (as_bytes "sha256:" ++ mjoin (map hex_lower c)).

(** [u8::from_str_radix(text, 16)] on a two-byte chunk: two hex digits, or a
    plus sign and one. *)
Definition radix16 (b : byte) : option N :=
  if between 48 b 57 then Some (code b - 48)%N
  else if between 97 b 102 then Some (code b - 87)%N
  else if between 65 b 70 then Some (code b - 55)%N
  else None.

Definition from_str_radix16 (a b : byte) : option byte :=
  if (code a =? 43)%N then byte_of <$> radix16 b
  else match radix16 a, radix16 b with
       | Some high, Some low => Some (byte_of (high * 16 + low))
       | _, _ => None
       end.

Fixpoint parse_chunks (l : list byte) : option (list byte) :=
  match l with
  | [] => Some []
  | a :: b :: rest =>
      byte ← from_str_radix16 a b; bytes ← parse_chunks rest; Some (byte :: bytes)
  | [_] => None
  end.

Definition chain_parse (text : string) : option Chain :=
  hex ← strip_prefix_bytes (as_bytes "sha256:") (as_bytes text);
  if negb (length hex =? 64)%nat then None else parse_chunks hex.
End Chain.

(** ** Checkpoint records *)

Record Checkpoint := {
  cp_timestamp : string;
  covers_from : N;
  covers_to : N;
  cp_chain : string;
  previous_checkpoint : option N;
  cp_key_id : option string;
  cp_signature : option string;
}.

#[export] Instance Checkpoint_eq_dec : EqDecision Checkpoint.
Proof. solve_decision. Defined.

(** A private key and its public half. *)
Record SigningKey := { secret : list byte; verifying_key : VerifyingKey }.

(** The signing half of the libraries. *)
Class SigningLib := {
  base64_encode : list byte -> string;
  ed25519_sign : list byte -> list byte -> list byte;
}.

Definition push_line (value : string) : list byte := as_bytes value ++ [newline].

Definition signing_payload (c : Checkpoint) (seq : N) : list byte :=
  as_bytes "checkpoint" ++ [newline]
  ++ push_line (to_string seq)
  ++ push_line (to_string (covers_from c))
  ++ push_line (to_string (covers_to c))
  ++ push_line (cp_chain c)
  ++ push_line (match previous_checkpoint c with Some s => to_string s | None => "" end)
  ++ push_line (cp_timestamp c).

Section Checkpoints.
Context `{Crypto} `{SigningLib}.

(** [Checkpoint::new]; [seq.saturating_sub(1)] is [N]'s subtraction. *)
Definition checkpoint_new (seq from : N) (chain : Chain) (previous : option N) (timestamp : string)
    : Checkpoint :=
  {| cp_timestamp := timestamp; covers_from := from; covers_to := (seq - 1)%N;
     cp_chain := label chain; previous_checkpoint := previous;
     cp_key_id := None; cp_signature := None |}.

Definition sign_message (k : SigningKey) (d : Domain) (message : list byte) : Signature :=
  {| signature_bytes := ed25519_sign (secret k) (framed d message) |}.

Definition to_base64 (s : Signature) : string := base64_encode (signature_bytes s).

Definition checkpoint_sign (c : Checkpoint) (seq : N) (key : SigningKey) : Checkpoint :=
  {| cp_timestamp := cp_timestamp c; covers_from := covers_from c; covers_to := covers_to c;
     cp_chain := cp_chain c; previous_checkpoint := previous_checkpoint c;
     cp_key_id := Some (key_id (verifying_key key));
     cp_signature := Some (to_base64 (sign_message key AuditCheckpoint (signing_payload c seq))) |}.

Definition checkpoint_verify (c : Checkpoint) (seq : N) (keys : list VerifyingKey)
    : result (option string) string :=
  match cp_key_id c, cp_signature c with
  | Some id, Some sig =>
      match List.find (fun k => String.eqb (key_id k) id) keys with
      | None => Err ("signed with unknown key " ++ id)%string
      | Some key =>
          let? signature := map_err (fun e => "signature: " ++ e)%string (signature_from_base64 sig) in
          let? _ := verify key AuditCheckpoint (signing_payload c seq) signature in
          Ok (Some id)
      end
  | None, None => Ok None
  | _, _ => Err "checkpoint carries a key id or a signature, not both"
  end.
End Checkpoints.

(** ** What the libraries promise *)

(** SHA-256 digests have 32 bytes. *)
Definition sha256_width `{Crypto} : Prop := forall l, length (sha256 l) = CHAIN_LEN.

(** base64 decodes what it encoded (standard alphabet, so nothing to trim),
    Ed25519 signatures have 64 bytes and verify under their own key. *)
Definition signing_laws `{Crypto} `{SigningLib} : Prop :=
  (forall l, base64_decode (trim (base64_encode l)) = Some l)
  /\ (forall k m, length (ed25519_sign k m) = SIGNATURE_LEN).

(** [key]'s halves belong together. *)
Definition key_pair `{Crypto} `{SigningLib} (key : SigningKey) : Prop :=
  forall m, ed25519_verify (key_bytes (verifying_key key)) m (ed25519_sign (secret key) m) = true.

Section Facts.
Context `{Crypto} `{SigningLib}.

Lemma extend_width c line : sha256_width -> length (extend c line) = CHAIN_LEN.
Proof. intros Hw. apply Hw. Qed.

(** *** Labels *)

Lemma hex_lower_parse b :
  from_str_radix16 (hex_lower_digit (code b / 16)) (hex_lower_digit (code b mod 16)) = Some b.
Proof.
  pose proof (byte_forall (fun b => is_some_and
    (from_str_radix16 (hex_lower_digit (code b / 16)) (hex_lower_digit (code b mod 16))) (beqb b))
    ltac:(vm_compute; reflexivity) b) as Hb. cbn beta in Hb.
  destruct (from_str_radix16 _ _) as [x|]; [|done]. by apply beqb_eq in Hb as ->.
Qed.

Lemma mjoin_hex_cons b c :
  mjoin (map hex_lower (b :: c))
  = hex_lower_digit (code b / 16) :: hex_lower_digit (code b mod 16) :: mjoin (map hex_lower c).
Proof. reflexivity. Qed.

Lemma parse_chunks_hex c : parse_chunks (mjoin (map hex_lower c)) = Some c.
Proof.
  induction c as [|b c IH]; [done|]. rewrite mjoin_hex_cons. cbn [parse_chunks].
  by rewrite hex_lower_parse, IH.
Qed.

Lemma hex_length c : length (mjoin (map hex_lower c)) = 2 * length c.
Proof. induction c as [|b c IH]; [done|]. rewrite mjoin_hex_cons. cbn [length]. rewrite IH. lia. Qed.

Lemma chain_parse_label c : length c = CHAIN_LEN -> chain_parse (label c) = Some c.
Proof.
  intros Hc. unfold chain_parse, label. rewrite as_of_bytes.
  assert (strip_prefix_bytes (as_bytes "sha256:") (as_bytes "sha256:" ++ mjoin (map hex_lower c))
    = Some (mjoin (map hex_lower c))) as ->.
  { unfold strip_prefix_bytes.
    rewrite (proj2 (starts_with_bytes_spec _ _)) by (by eexists).
    by rewrite drop_app_length. }
  cbn [mbind option_bind]. rewrite hex_length, Hc. cbn [negb]. apply parse_chunks_hex.
Qed.

Lemma label_inj c1 c2 : label c1 = label c2 -> c1 = c2.
Proof.
  unfold label. intros E. apply (f_equal as_bytes) in E. rewrite !as_of_bytes in E.
  apply app_inv_head in E. apply (f_equal parse_chunks) in E. rewrite !parse_chunks_hex in E. by injection E.
Qed.

Lemma hex_no_newline b : newline ∉ hex_lower b.
Proof.
  pose proof (byte_forall (fun b => forallb (fun x => negb (beqb x newline)) (hex_lower b))
    ltac:(vm_compute; reflexivity) b) as Hb. cbn -[hex_lower] in Hb.
  intros Hin. rewrite forallb_elem_of in Hb. apply Hb in Hin. by vm_compute in Hin.
Qed.

Lemma label_no_newline c : newline ∉ as_bytes (label c).
Proof.
  unfold label. rewrite as_of_bytes, not_elem_of_app. split.
  - apply (bool_decide_unpack _). vm_compute. exact I.
  - induction c as [|b c IH]; [apply not_elem_of_nil|].
    change (mjoin (map hex_lower (b :: c))) with (hex_lower b ++ mjoin (map hex_lower c)).
    rewrite not_elem_of_app. split; [apply hex_no_newline|done].
Qed.

(** *** Signatures *)

Lemma sign_verify key seq c keys :
  signing_laws -> key_pair key -> verifying_key key ∈ keys ->
  (forall k, k ∈ keys -> key_id k = key_id (verifying_key key) -> k = verifying_key key) ->
  checkpoint_verify (checkpoint_sign c seq key) seq keys = Ok (Some (key_id (verifying_key key))).
Proof.
  intros [Hb Hl] Hk Hin Huniq. unfold checkpoint_verify, checkpoint_sign. cbn [cp_key_id cp_signature].
  destruct (List.find _ keys) as [k|] eqn:E.
  - apply List.find_some in E as [Hin' Heq%String.eqb_eq]. rewrite <- list_elem_of_In in Hin'.
    apply Huniq in Hin' as ->; [|done].
    unfold signature_from_base64, to_base64. cbn [signature_bytes sign_message].
    rewrite Hb, Hl, Nat.eqb_refl. cbn [map_err]. unfold verify. cbn [signature_bytes].
    by rewrite Hk.
  - exfalso. rewrite list_elem_of_In in Hin. apply (List.find_none _ _ E) in Hin.
    by rewrite String.eqb_refl in Hin.
Qed.
End Facts.

(** ** The chain over a sequence of lines *)

Section Lines.
Context `{Crypto}.

Definition chain_from (c : Chain) (lines : list (list byte)) : Chain := fold_left extend lines c.
Definition chain_of (lines : list (list byte)) : Chain := chain_from genesis lines.

Lemma chain_from_app c l1 l2 : chain_from c (l1 ++ l2) = chain_from (chain_from c l1) l2.
Proof. apply fold_left_app. Qed.

Lemma chain_of_snoc ls l : chain_of (ls ++ [l]) = sha256 (chain_of ls ++ l).
Proof. unfold chain_of. by rewrite chain_from_app. Qed.

Lemma chain_of_width ls : sha256_width -> length (chain_of ls) = CHAIN_LEN.
Proof.
  intros Hw. destruct ls as [|l ls _] using rev_ind; [apply Hw|]. rewrite chain_of_snoc. apply Hw.
Qed.

(** Two different inputs with one digest. *)
Definition collision : Prop := exists x y, x <> y /\ sha256 x = sha256 y.

Lemma sha256_or_collision x y : sha256 x = sha256 y -> x = y \/ collision.
Proof. intros E. destruct (decide (x = y)); [by left|]. right. by exists x, y. Qed.

Definition ends_line (l : list byte) : Prop := exists body, l = body ++ [newline].

(** The seed is not a chain value followed by a line: it has no newline. *)
Lemma genesis_not_extended c l : ends_line l -> CHAIN_SEED <> c ++ l.
Proof.
  intros [body ->] E. assert (Hn : newline ∉ CHAIN_SEED).
  { apply (bool_decide_unpack _). vm_compute. exact I. }
  apply Hn. rewrite E. set_solver.
Qed.

Lemma chain_inj ls1 ls2 :
  sha256_width -> Forall ends_line ls1 -> Forall ends_line ls2 ->
  chain_of ls1 = chain_of ls2 -> ls1 = ls2 \/ collision.
Proof.
  intros Hw. revert ls2; induction ls1 as [|a ls1 IH] using rev_ind; intros ls2 H1 H2 E;
    destruct ls2 as [|b ls2 _] using rev_ind; [by left|..];
    rewrite ?chain_of_snoc in E; apply sha256_or_collision in E as [E|?]; auto.
  - apply Forall_app in H2 as [_ H2]. apply Forall_cons in H2 as [H2 _].
    by apply genesis_not_extended in E.
  - apply Forall_app in H1 as [_ H1]. apply Forall_cons in H1 as [H1 _]. symmetry in E.
    by apply genesis_not_extended in E.
  - apply app_inj_1 in E as [E ->]; [|by rewrite !chain_of_width].
    apply Forall_app in H1 as [H1 _], H2 as [H2 _].
    destruct (IH ls2 H1 H2 E) as [->|?]; auto.
Qed.
End Lines.

(** ** Reading fields back out of a payload *)

Lemma line_inj x y r1 r2 :
  newline ∉ x -> newline ∉ y -> x ++ newline :: r1 = y ++ newline :: r2 -> x = y /\ r1 = r2.
Proof.
  intros Hx Hy E. apply (f_equal (split_once_bytes newline)) in E.
  rewrite !split_once_bytes_first in E by done. by injection E.
Qed.

Lemma to_string_no_newline n : newline ∉ as_bytes (to_string n).
Proof.
  unfold to_string. rewrite as_of_bytes. intros Hin.
  pose proof (render_u64_digits n) as Hd. rewrite Forall_forall in Hd. apply Hd in Hin. by vm_compute in Hin.
Qed.

Lemma to_string_inj n m :
  (n <= U64_MAX)%N -> (m <= U64_MAX)%N -> to_string n = to_string m -> n = m.
Proof.
  intros Hn Hm E. apply (f_equal parse_u64) in E. unfold to_string in E.
  rewrite !parse_render_u64 in E by done. by injection E.
Qed.

Lemma to_string_not_empty n : to_string n <> "".
Proof.
  unfold to_string, render_u64. intros E. apply (f_equal as_bytes) in E. rewrite as_of_bytes in E.
  by destruct (render_loop_not_nil MAX_U64_DIGITS n []); [left|].
Qed.

(** The fields a signature covers. *)
Definition signed_fields (c : Checkpoint) (seq : N) : N * N * N * string * option N * string :=
  (seq, covers_from c, covers_to c, cp_chain c, previous_checkpoint c, cp_timestamp c).

Definition checkpoint_u64 (c : Checkpoint) (seq : N) : Prop :=
  (seq <= U64_MAX)%N /\ (covers_from c <= U64_MAX)%N /\ (covers_to c <= U64_MAX)%N
  /\ (forall p, previous_checkpoint c = Some p -> (p <= U64_MAX)%N)
  /\ newline ∉ as_bytes (cp_chain c).

Lemma push_line_inj x y r1 r2 :
  newline ∉ as_bytes x -> newline ∉ as_bytes y -> push_line x ++ r1 = push_line y ++ r2 -> x = y /\ r1 = r2.
Proof.
  unfold push_line. rewrite <- !app_assoc. cbn [app]. intros Hx Hy E.
  apply line_inj in E as [E ->]; [|done..]. by apply as_bytes_inj in E.
Qed.

Lemma previous_text_inj p q :
  (forall x, p = Some x -> (x <= U64_MAX)%N) -> (forall x, q = Some x -> (x <= U64_MAX)%N) ->
  match p with Some s => to_string s | None => "" end
  = match q with Some s => to_string s | None => "" end -> p = q.
Proof.
  destruct p as [p|], q as [q|]; intros Hp Hq E; [|by apply to_string_not_empty in E|
    by symmetry in E; apply to_string_not_empty in E|done].
  f_equal. apply to_string_inj; auto.
Qed.

Lemma previous_no_newline (p : option N) :
  newline ∉ as_bytes (match p with Some s => to_string s | None => "" end).
Proof. destruct p; [apply to_string_no_newline|apply not_elem_of_nil]. Qed.

Lemma payload_inj c1 s1 c2 s2 :
  checkpoint_u64 c1 s1 -> checkpoint_u64 c2 s2 -> signing_payload c1 s1 = signing_payload c2 s2 ->
  signed_fields c1 s1 = signed_fields c2 s2.
Proof.
  intros (A1 & A2 & A3 & A4 & A5) (B1 & B2 & B3 & B4 & B5) E. unfold signing_payload in E.
  do 2 apply app_inv_head in E.
  apply push_line_inj in E as [E1 E]; [|apply to_string_no_newline..].
  apply push_line_inj in E as [E2 E]; [|apply to_string_no_newline..].
  apply push_line_inj in E as [E3 E]; [|apply to_string_no_newline..].
  apply push_line_inj in E as [E4 E]; [|done..].
  apply push_line_inj in E as [E5 E]; [|apply previous_no_newline..].
  unfold push_line in E. apply app_inv_tail, as_bytes_inj in E.
  apply to_string_inj in E1, E2, E3; [|done..]. apply previous_text_inj in E5; [|done..].
  unfold signed_fields. congruence.
Qed.

(** ** Claims *)

(** The chain value binds every line before it.  Two journals of complete
    lines with the same chain value are the same, line for line and in number
    - an edited, inserted, removed or reordered line changes the value every
    later checkpoint carries - or they exhibit a SHA-256 collision. *)
Theorem chain_binds_lines `{Crypto} ls1 ls2 :
  sha256_width -> Forall ends_line ls1 -> Forall ends_line ls2 ->
  label (chain_of ls1) = label (chain_of ls2) -> ls1 = ls2 \/ collision.
Proof. intros Hw H1 H2 E. apply chain_inj; [done..|]. by apply label_inj. Qed.

(** A checkpoint signature covers exactly one statement.  Equal signed
    messages mean the same domain, so a checkpoint signature is never a policy
    or revocation signature, and the same sequence, range, chain value,
    predecessor and timestamp: a signature cannot be moved to another
    checkpoint. *)
Theorem checkpoint_signature_binds d1 d2 c1 s1 c2 s2 :
  checkpoint_u64 c1 s1 -> checkpoint_u64 c2 s2 ->
  framed d1 (signing_payload c1 s1) = framed d2 (signing_payload c2 s2) ->
  d1 = d2 /\ signed_fields c1 s1 = signed_fields c2 s2.
Proof. intros H1 H2 [-> E]%framed_inj. split; [done|]. by apply payload_inj. Qed.

(** Chain labels round-trip: the printed label of a chain value parses
    back to it, and distinct values have distinct labels. *)
Theorem chain_label_roundtrip c1 c2 :
  length c1 = CHAIN_LEN -> chain_parse (label c1) = Some c1 /\ (label c1 = label c2 -> c1 = c2).
Proof. intros Hc. split; [by apply chain_parse_label|apply label_inj]. Qed.

(** ** Witnesses *)
Module ChainWitness.

(** A stand-in digest of the right width: the last 32 bytes, padded. *)
Definition toy_sha (l : list byte) : list byte :=
  take 32 (rev l ++ replicate 32 (byte_of 0)).

Definition toy_crypto : Crypto :=
  {| sha256 := toy_sha; base64_decode := fun s => Some (as_bytes s);
     ed25519_verify := fun _ _ _ => true |}.

Lemma toy_width : @sha256_width toy_crypto.
Proof.
  intros l. unfold sha256, toy_crypto, toy_sha, CHAIN_LEN. rewrite length_take, length_app, length_replicate. lia.
Qed.

Definition line (s : string) : list byte := as_bytes s ++ [newline].

Lemma chain_binds_lines_witness :
  [line "a"; line "b"] = [line "a"; line "b"] \/ @collision toy_crypto.
Proof.
  apply (@chain_binds_lines toy_crypto [line "a"; line "b"] [line "a"; line "b"]); [apply toy_width|..|done];
    repeat (apply Forall_cons; split; [eexists; reflexivity|]); constructor.
Defined.

Definition cp : Checkpoint :=
  {| cp_timestamp := "t"; covers_from := 1; covers_to := 2; cp_chain := "c";
     previous_checkpoint := None; cp_key_id := None; cp_signature := None |}.

Lemma cp_u64 : checkpoint_u64 cp 3.
Proof.
  unfold checkpoint_u64, U64_MAX. cbn [covers_from covers_to previous_checkpoint cp_chain cp].
  split; [lia|]. split; [lia|]. split; [lia|]. split; [done|].
  apply (bool_decide_unpack _). vm_compute. exact I.
Defined.

Lemma checkpoint_signature_binds_witness : AuditCheckpoint = AuditCheckpoint /\ signed_fields cp 3 = signed_fields cp 3.
Proof.
  apply (checkpoint_signature_binds AuditCheckpoint AuditCheckpoint cp 3 cp 3); [apply cp_u64..|reflexivity].
Defined.

Lemma chain_label_roundtrip_witness :
  chain_parse (label (replicate 32 (byte_of 7))) = Some (replicate 32 (byte_of 7)).
Proof. apply (chain_label_roundtrip (replicate 32 (byte_of 7)) []). reflexivity. Defined.
End ChainWitness.
