(* ===== verification/Journal.v ===== *)
(** * The durable audit journal (src/src/audit/journal.rs)

    The writer thread, its group commit and checkpoints, and the recovery that
    validates an existing file.  The file is its bytes; a write is answered by
    the operating system with [IoResult], and a failed one may have put any
    prefix of its buffer on disk.  What serde_json does is the interface
    [JournalCodec]. *)
From S2P Require Import Prelude RustStr Json PolicyTypes Signing Chain.

(** ** Requests *)

Definition WRITE_QUEUE_DEPTH : nat := 1024.
Definition MAX_BATCH : nat := 256.

(** [ack] names the oneshot channel the acknowledgement goes to. *)
Record WriteRequest := { body : list byte; ack : nat }.

Inductive Message := MRecord (r : WriteRequest) | MTick.

(** [export] is whether an export sink is configured. *)
Record CheckpointPolicy := {
  every_records : N;
  every_seconds : N;
  signing_key : option SigningKey;
  export : bool;
}.

Definition DEFAULT_EVERY_RECORDS : N := 256.
Definition DEFAULT_EVERY_SECONDS : N := 60.

Definition policy_unsigned : CheckpointPolicy :=
  {| every_records := DEFAULT_EVERY_RECORDS; every_seconds := DEFAULT_EVERY_SECONDS;
     signing_key := None; export := false |}.

(** serde_json on journal lines and checkpoint records. *)
Class JournalCodec := {
  from_slice : list byte -> option Value;
  checkpoint_to_vec : Checkpoint -> list byte;
  checkpoint_from_value : Value -> result Checkpoint string;
}.

(** ** Lines *)

Definition dquote : byte := byte_of 34.
Definition comma : byte := byte_of 44.

(** [{"seq":N,] and the body without its opening brace. *)
Definition stamp (seq : N) (b : list byte) : list byte :=
  as_bytes "{" ++ [dquote] ++ as_bytes "seq" ++ [dquote] ++ as_bytes ":"
  ++ render_u64 seq ++ [comma] ++ drop 1 b.

Definition line_of (seq : N) (b : list byte) : list byte := stamp seq b ++ [newline].

(** [enqueue]'s check on a serialized event. *)
Definition body_shape (b : list byte) : bool :=
  negb ((length b <? 3)%nat || negb (bool_decide (head b = Some (byte_of 123)))).

(** Successive [read_until(b'\n')]: the complete lines, without their newline,
    and the partial one at the end. *)
Fixpoint lines_of (l : list byte) : list (list byte) * list byte :=
  match l with
  | [] => ([], [])
  | b :: l' =>
      let '(lines, tail) := lines_of l' in
      if beqb b newline then ([] :: lines, tail)
      else match lines with
           | [] => ([], b :: tail)
           | line :: lines' => ((b :: line) :: lines', tail)
           end
  end.

(** ** The writer *)

Record WriterState := {
  last_seq : N;
  chain : Chain;
  last_checkpoint : option N;
  since_checkpoint : N;
  last_checkpoint_at : N;
}.

(** What the operating system answers to [write_all] and [sync_data]: done, or
    an error after [reached] bytes. *)
Inductive IoResult := IoOk | IoFailed (reached : nat) (error : string).

Definition write_batch (file buffer : list byte) (io : IoResult) : list byte * result unit string :=
  match io with
  | IoOk => (file ++ buffer, Ok tt)
  | IoFailed reached error => (file ++ take reached buffer, Err error)
  end.

Definition sequence_exhausted : string :=
  "audit journal sequence space exhausted; refusing to reuse sequence numbers".

(** The sink: the file, the writer's state, whether it is poisoned (and with
    what), the queue, and the history of acknowledgements and exports. *)
Record Journal := {
  file : list byte;
  state : WriterState;
  poison : option string;
  queue : list Message;
  acks : list (WriteRequest * result N string);
  exports : list (N * list byte);
}.

(** What one turn of the loop meets: the clock, the timestamp of a checkpoint,
    the answers to the batch's and the checkpoint's writes, and whether the
    export succeeds. *)
Record Turn := {
  now : N;
  timestamp : string;
  io_batch : IoResult;
  io_checkpoint : IoResult;
  export_ok : bool;
}.

Section Writer.
Context `{Crypto} `{SigningLib} `{JournalCodec}.
Variable policy : CheckpointPolicy.

(** The record [WriterState::checkpoint] appends as [seq]. *)
Definition make_checkpoint (s : WriterState) (seq : N) (ts : string) : Checkpoint :=
  let from := match last_checkpoint s with Some previous => (previous + 1)%N | None => 1%N end in
  let c := checkpoint_new seq from (chain s) (last_checkpoint s) ts in
  match signing_key policy with
  | Some key => checkpoint_sign c seq key
  | None => c
  end.

Definition checkpoint (s : WriterState) (f : list byte) (t : Turn)
    : list byte * WriterState * result (option (N * list byte)) string :=
  match checked_add (last_seq s) 1 with
  | None => (f, s, Err sequence_exhausted)
  | Some seq =>
      let line := line_of seq (checkpoint_to_vec (make_checkpoint s seq (timestamp t))) in
      match write_batch f line (io_checkpoint t) with
      | (f', Err error) => (f', s, Err error)
      | (f', Ok _) =>
          (f', {| last_seq := seq; chain := extend (chain s) line; last_checkpoint := Some seq;
                  since_checkpoint := 0; last_checkpoint_at := now t |},
           Ok (if export policy && export_ok t then Some (seq, line) else None))
      end
  end.

(** [while batch.len() < MAX_BATCH { try_recv }]: the batch, and what stays
    queued. *)
Fixpoint drain (batch : list WriteRequest) (q : list Message) : list WriteRequest * list Message :=
  if (length batch <? MAX_BATCH)%nat then
    match q with
    | MRecord r :: q' => drain (batch ++ [r]) q'
    | MTick :: q' => drain batch q'
    | [] => (batch, [])
    end
  else (batch, q).

(** The lines of a batch from sequence [seq], and whether the sequence space
    ran out. *)
Fixpoint build (seq : N) (batch : list WriteRequest) : list (list byte) * bool :=
  match batch with
  | [] => ([], false)
  | r :: rest =>
      let line := line_of seq (body r) in
      match checked_add seq 1 with
      | None => ([line], true)
      | Some next => let '(lines, exhausted) := build next rest in (line :: lines, exhausted)
      end
  end.

Fixpoint ack_all (seq : N) (batch : list WriteRequest) : list (WriteRequest * result N string) :=
  match batch with
  | [] => []
  | r :: rest => (r, Ok seq) :: ack_all (seq + 1) rest
  end.

Definition refuse (error : string) (batch : list WriteRequest) : list (WriteRequest * result N string) :=
  map (fun r => (r, Err error)) batch.

(** [fail_batch]. *)
Definition fail_batch (j : Journal) (f : list byte) (batch : list WriteRequest) (error : string) : Journal :=
  {| file := f; state := state j; poison := Some error; queue := queue j;
     acks := acks j ++ refuse error batch; exports := exports j |}.

Definition with_queue (j : Journal) (q : list Message) : Journal :=
  {| file := file j; state := state j; poison := poison j; queue := q;
     acks := acks j; exports := exports j |}.

(** Take a checkpoint; a failure poisons the journal with [batch] empty. *)
Definition run_checkpoint (j : Journal) (t : Turn) : Journal :=
  match checkpoint (state j) (file j) t with
  | (f, s, Ok exported) =>
      {| file := f; state := s; poison := poison j; queue := queue j; acks := acks j;
         exports := exports j ++ option_list exported |}
  | (f, _, Err error) => fail_batch j f [] error
  end.

(** A batch, from the poison check to the checkpoint after it. *)
Definition run_batch (j : Journal) (batch : list WriteRequest) (t : Turn) : Journal :=
  match poison j with
  | Some error =>
      {| file := file j; state := state j; poison := poison j; queue := queue j;
         acks := acks j ++ refuse error batch; exports := exports j |}
  | None =>
      match checked_add (last_seq (state j)) 1 with
      | None => fail_batch j (file j) batch sequence_exhausted
      | Some first_seq =>
          let '(lines, exhausted) := build first_seq batch in
          if exhausted then fail_batch j (file j) batch sequence_exhausted
          else
            match write_batch (file j) (mjoin lines) (io_batch t) with
            | (f, Err error) => fail_batch j f batch error
            | (f, Ok _) =>
                let s := {| last_seq := (first_seq + N.of_nat (length batch) - 1)%N;
                            chain := chain_from (chain (state j)) lines;
                            last_checkpoint := last_checkpoint (state j);
                            since_checkpoint := (since_checkpoint (state j) + N.of_nat (length lines))%N;
                            last_checkpoint_at := last_checkpoint_at (state j) |} in
                let j' := {| file := f; state := s; poison := None; queue := queue j;
                             acks := acks j ++ ack_all first_seq batch; exports := exports j |} in
                if (every_records policy <=? since_checkpoint s)%N then run_checkpoint j' t else j'
            end
      end
  end.

(** One turn of [while let Some(message) = receiver.blocking_recv()]. *)
Definition turn (j : Journal) (t : Turn) : Journal :=
  match queue j with
  | [] => j
  | MTick :: q =>
      let j := with_queue j q in
      if bool_decide (poison j = None) && (0 <? since_checkpoint (state j))%N
         && (every_seconds policy <=? now t - last_checkpoint_at (state j))%N
      then run_checkpoint j t else j
  | MRecord first :: q =>
      let '(batch, q') := drain [first] q in
      run_batch (with_queue j q') batch t
  end.

(** The end of the stream: seal the tail; a failure is only logged. *)
Definition close (j : Journal) (t : Turn) : Journal :=
  if bool_decide (poison j = None) && (0 <? since_checkpoint (state j))%N then
    match checkpoint (state j) (file j) t with
    | (f, s, Ok exported) =>
        {| file := f; state := s; poison := None; queue := queue j; acks := acks j;
           exports := exports j ++ option_list exported |}
    | (f, s, Err _) =>
        {| file := f; state := s; poison := None; queue := queue j; acks := acks j; exports := exports j |}
    end
  else j.
End Writer.

(** ** Recovery *)

Record Recovered := {
  rec_last_seq : N;
  rec_chain : Chain;
  rec_last_checkpoint : option N;
  rec_since_checkpoint : N;
}.

Section Recovery.
Context `{Crypto} `{JournalCodec}.

Definition parse_seq (line : list byte) : option (N * bool) :=
  value ← from_slice line;
  seq ← value_get value "seq" ≫= as_u64;
  Some (seq, bool_decide (value_get value "kind" ≫= as_str = Some CHECKPOINT_KIND)).

(** The loop of [recover] over the complete lines; [complete_len] is the bytes
    accounted for. *)
Fixpoint recover_loop (lines : list (list byte)) (expected : N) (r : Recovered) (complete_len : nat)
    : result (Recovered * N * nat) string :=
  match lines with
  | [] => Ok (r, expected, complete_len)
  | line :: rest =>
      match parse_seq line with
      | None => Err "record is not a JSON object with a numeric `seq`"
      | Some (seq, is_checkpoint) =>
          if negb (seq =? expected)%N then Err "out-of-order or duplicated sequence"
          else
            let r' := {| rec_last_seq := rec_last_seq r;
                         rec_chain := extend (rec_chain r) (line ++ [newline]);
                         rec_last_checkpoint :=
                           if is_checkpoint then Some seq else rec_last_checkpoint r;
                         rec_since_checkpoint :=
                           if is_checkpoint then 0%N else (rec_since_checkpoint r + 1)%N |} in
            match checked_add expected 1 with
            | None => Err "sequence space exhausted"
            | Some next => recover_loop rest next r' (complete_len + length line + 1)
            end
      end
  end.

Definition recovered_start : Recovered :=
  {| rec_last_seq := 0; rec_chain := genesis; rec_last_checkpoint := None; rec_since_checkpoint := 0 |}.

(** [recover]: what the file holds, and the file after a torn trailing line is
    truncated away. *)
Definition recover (f : list byte) : result (Recovered * list byte) string :=
  let '(lines, tail) := lines_of f in
  let? '(r, expected, complete_len) := recover_loop lines 1 recovered_start 0 in
  Ok ({| rec_last_seq := (expected - 1)%N; rec_chain := rec_chain r;
         rec_last_checkpoint := rec_last_checkpoint r;
         rec_since_checkpoint := rec_since_checkpoint r |},
      match tail with [] => f | _ => take complete_len f end).

(** [open_with] up to the writer thread: [at_] is [Instant::now()]. *)
Definition open_journal (f : list byte) (at_ : N) (past : list (WriteRequest * result N string))
    (exported : list (N * list byte)) : result Journal string :=
  let? '(r, f') := recover f in
  Ok {| file := f';
        state := {| last_seq := rec_last_seq r; chain := rec_chain r;
                    last_checkpoint := rec_last_checkpoint r;
                    since_checkpoint := rec_since_checkpoint r; last_checkpoint_at := at_ |};
        poison := None; queue := []; acks := past; exports := exported |}.
End Recovery.

(** ** What the journal should hold

    The specification is a log: the bodies appended so far, in order, with the
    state they determine. *)

Section Log.
Context `{Crypto} `{SigningLib} `{JournalCodec}.
Context (policy : CheckpointPolicy).

(** A serialized audit event: an object with a [kind] of its own and no [seq],
    printed without a raw newline. *)
Definition event_body (b : list byte) : Prop :=
  body_shape b = true /\ newline ∉ b /\
  exists v k, from_slice b = Some v /\ value_get v "seq" = None
    /\ value_get v "kind" = Some (VString k) /\ k <> CHECKPOINT_KIND.

(** The sequence numbers of a checkpoint, each in 64 bits. *)
Definition checkpoint_fits (c : Checkpoint) : Prop :=
  (covers_from c <= U64_MAX)%N /\ (covers_to c <= U64_MAX)%N
  /\ forall q, previous_checkpoint c = Some q -> (q <= U64_MAX)%N.

(** serde_json's part: splicing a 64-bit [seq] into an object that has a kind
    adds that field and changes no other, and checkpoint records read back
    from their fields. *)
Definition codec_laws : Prop :=
  (forall n b v k, (n <= U64_MAX)%N -> body_shape b = true -> from_slice b = Some v ->
     value_get v "seq" = None -> value_get v "kind" = Some (VString k) ->
     exists v', from_slice (stamp n b) = Some v'
       /\ value_get v' "seq" = Some (VNumber (to_string n))
       /\ forall k, k <> "seq" -> value_get v' k = value_get v k)
  /\ (forall c, checkpoint_fits c -> body_shape (checkpoint_to_vec c) = true /\ newline ∉ checkpoint_to_vec c
     /\ exists v, from_slice (checkpoint_to_vec c) = Some v /\ value_get v "seq" = None
        /\ value_get v "kind" = Some (VString CHECKPOINT_KIND)
        /\ forall v', (forall k, k <> "seq" -> value_get v' k = value_get v k) ->
             checkpoint_from_value v' = Ok c).

Definition abs (s : WriterState) : Recovered :=
  {| rec_last_seq := last_seq s; rec_chain := chain s; rec_last_checkpoint := last_checkpoint s;
     rec_since_checkpoint := since_checkpoint s |}.

Definition concrete (r : Recovered) : WriterState :=
  {| last_seq := rec_last_seq r; chain := rec_chain r; last_checkpoint := rec_last_checkpoint r;
     since_checkpoint := rec_since_checkpoint r; last_checkpoint_at := 0 |}.

Definition after_event (r : Recovered) (b : list byte) : Recovered :=
  let seq := (rec_last_seq r + 1)%N in
  {| rec_last_seq := seq; rec_chain := extend (rec_chain r) (line_of seq b);
     rec_last_checkpoint := rec_last_checkpoint r;
     rec_since_checkpoint := (rec_since_checkpoint r + 1)%N |}.

Definition checkpoint_body (r : Recovered) (ts : string) : list byte :=
  checkpoint_to_vec (make_checkpoint policy (concrete r) (rec_last_seq r + 1) ts).

Definition after_checkpoint (r : Recovered) (ts : string) : Recovered :=
  let seq := (rec_last_seq r + 1)%N in
  {| rec_last_seq := seq; rec_chain := extend (rec_chain r) (line_of seq (checkpoint_body r ts));
     rec_last_checkpoint := Some seq; rec_since_checkpoint := 0 |}.

Inductive log : list (list byte) -> Recovered -> Prop :=
| log_nil : log [] recovered_start
| log_event bs r b :
    log bs r -> (rec_last_seq r + 1 <= U64_MAX)%N -> event_body b -> log (bs ++ [b]) (after_event r b)
| log_checkpoint bs r ts :
    log bs r -> (rec_last_seq r + 1 <= U64_MAX)%N ->
    log (bs ++ [checkpoint_body r ts]) (after_checkpoint r ts).

(** The stamped bodies from sequence [n] on, and the file they make. *)
Fixpoint stamps (n : N) (bs : list (list byte)) : list (list byte) :=
  match bs with
  | [] => []
  | b :: rest => stamp n b :: stamps (n + 1) rest
  end.

Definition unlines (ls : list (list byte)) : list byte := mjoin (map (fun l => l ++ [newline]) ls).

Definition content (bs : list (list byte)) : list byte := unlines (stamps 1 bs).

(** *** Lines *)

Lemma unlines_app l1 l2 : unlines (l1 ++ l2) = unlines l1 ++ unlines l2.
Proof. unfold unlines. by rewrite map_app, join_app. Qed.

Lemma unlines_cons l ls : unlines (l :: ls) = (l ++ [newline]) ++ unlines ls.
Proof. reflexivity. Qed.

Lemma lines_of_line l rest :
  newline ∉ l -> lines_of (l ++ newline :: rest) = (l :: (lines_of rest).1, (lines_of rest).2).
Proof.
  induction l as [|b l IH]; intros Hl; cbn [app lines_of].
  - rewrite beqb_refl. by destruct (lines_of rest).
  - rewrite IH by set_solver. rewrite (proj2 (beqb_neq b newline)) by set_solver. done.
Qed.

Lemma lines_of_tail l : newline ∉ l -> lines_of l = ([], l).
Proof.
  induction l as [|b l IH]; intros Hl; cbn [lines_of]; [done|].
  rewrite IH by set_solver. rewrite (proj2 (beqb_neq b newline)) by set_solver. done.
Qed.

Lemma lines_of_unlines ls rest :
  Forall (fun l => newline ∉ l) ls ->
  lines_of (unlines ls ++ rest) = (ls ++ (lines_of rest).1, (lines_of rest).2).
Proof.
  induction 1 as [|l ls Hl _ IH]; [cbn; by destruct (lines_of rest)|].
  rewrite unlines_cons, <- !app_assoc. cbn [app]. rewrite lines_of_line by done. by rewrite IH.
Qed.

Lemma stamps_app n l1 l2 : stamps n (l1 ++ l2) = stamps n l1 ++ stamps (n + N.of_nat (length l1)) l2.
Proof.
  revert n; induction l1 as [|b l1 IH]; intros n; cbn [app stamps length].
  - by rewrite N.add_0_r.
  - rewrite IH. do 3 f_equal. lia.
Qed.

Lemma stamps_length n bs : length (stamps n bs) = length bs.
Proof. revert n; induction bs as [|b bs IH]; intros n; cbn; [done|]. by rewrite IH. Qed.

Lemma stamps_lookup n bs i b :
  bs !! i = Some b -> stamps n bs !! i = Some (stamp (n + N.of_nat i) b).
Proof.
  revert n i; induction bs as [|b' bs IH]; intros n [|i]; cbn [stamps lookup list_lookup]; try done.
  - intros [= <-]. by rewrite N.add_0_r.
  - intros Hi. replace (n + N.of_nat (S i))%N with (n + 1 + N.of_nat i)%N by lia. by apply IH.
Qed.

Lemma stamps_take n bs m : take m (stamps n bs) = stamps n (take m bs).
Proof. revert n bs; induction m as [|m IH]; intros n [|b bs]; cbn; try done. by rewrite IH. Qed.

Lemma content_length bs : length bs <= length (content bs).
Proof.
  unfold content. generalize 1%N. induction bs as [|b bs IH]; intros n; [done|].
  cbn [stamps]. rewrite unlines_cons, !length_app. cbn [length]. specialize (IH (n + 1)%N). lia.
Qed.

Lemma content_snoc bs b :
  content (bs ++ [b]) = content bs ++ line_of (N.of_nat (length bs) + 1) b.
Proof.
  unfold content. rewrite stamps_app, unlines_app. f_equal. cbn [stamps]. unfold unlines. cbn.
  rewrite app_nil_r. unfold line_of. by rewrite N.add_comm.
Qed.

(** *** The shape of a log *)

Lemma log_last bs r : log bs r -> rec_last_seq r = N.of_nat (length bs).
Proof.
  induction 1 as [|bs r b _ IH _ _|bs r ts _ IH _]; cbn; [done|..]; rewrite IH, length_app; cbn; lia.
Qed.

Lemma log_bound bs r : log bs r -> (N.of_nat (length bs) <= U64_MAX)%N.
Proof.
  intros Hl. destruct Hl as [|bs r b Hl Hb _|bs r ts Hl Hb]; [unfold U64_MAX; cbn; lia|..];
    rewrite (log_last _ _ Hl) in Hb; rewrite length_app; cbn; lia.
Qed.

Lemma chain_of_content_snoc bs b :
  chain_of (map (fun l => l ++ [newline]) (stamps 1 (bs ++ [b])))
  = extend (chain_of (map (fun l => l ++ [newline]) (stamps 1 bs)))
      (line_of (N.of_nat (length bs) + 1) b).
Proof.
  rewrite stamps_app, map_app, N.add_comm.
  change (stamps (N.of_nat (length bs) + 1) [b]) with [stamp (N.of_nat (length bs) + 1) b].
  apply chain_of_snoc.
Qed.

Lemma log_chain bs r : log bs r -> rec_chain r = chain_of (map (fun l => l ++ [newline]) (stamps 1 bs)).
Proof.
  induction 1 as [|bs r b Hl IH _ _|bs r ts Hl IH _]; [done|..];
    rewrite chain_of_content_snoc, <- IH, <- (log_last _ _ Hl); reflexivity.
Qed.

Lemma log_last_checkpoint bs r q : log bs r -> rec_last_checkpoint r = Some q -> (q <= rec_last_seq r)%N.
Proof.
  induction 1 as [|bs r b _ IH _ _|bs r ts _ IH _]; cbn; [done|..].
  - intros Hq%IH. lia.
  - intros [= <-]. lia.
Qed.

Lemma log_checkpoint_fits bs r ts :
  log bs r -> (rec_last_seq r + 1 <= U64_MAX)%N ->
  checkpoint_fits (make_checkpoint policy (concrete r) (rec_last_seq r + 1) ts).
Proof.
  intros Hl Hb. pose proof (log_last_checkpoint bs r) as Hq. unfold checkpoint_fits, make_checkpoint.
  assert (Hfrom : (match last_checkpoint (concrete r) with Some p => p + 1 | None => 1 end <= U64_MAX)%N).
  { cbn [concrete last_checkpoint]. destruct (rec_last_checkpoint r) as [q|]; [specialize (Hq q Hl eq_refl); lia|].
    unfold U64_MAX. lia. }
  destruct (signing_key policy); cbn [checkpoint_sign checkpoint_new covers_from covers_to previous_checkpoint];
    (split; [exact Hfrom|]; split; [lia|]; intros q E; specialize (Hq q Hl E); lia).
Qed.

Lemma checkpoint_body_laws bs r ts :
  codec_laws -> log bs r -> (rec_last_seq r + 1 <= U64_MAX)%N ->
  body_shape (checkpoint_body r ts) = true /\ newline ∉ checkpoint_body r ts.
Proof. intros [_ Hc] Hl Hb. destruct (Hc _ (log_checkpoint_fits bs r ts Hl Hb)) as (? & ? & _). done. Qed.

Lemma log_bodies bs r :
  codec_laws -> log bs r -> Forall (fun b => body_shape b = true /\ newline ∉ b) bs.
Proof.
  intros Hlaws. induction 1 as [|bs r b _ IH _ (? & ? & _)|bs r ts Hl IH Hb]; [constructor|..];
    apply Forall_app; split; try done; apply Forall_cons; split; try constructor; try done;
    by eapply checkpoint_body_laws.
Qed.

Lemma log_prefix bs r m : log bs r -> exists r', log (take m bs) r'.
Proof.
  intros Hl. revert m; induction Hl as [|bs r b Hl IH Hb He|bs r ts Hl IH Hb]; intros m.
  - rewrite take_nil. exists recovered_start. constructor.
  - destruct (decide (m <= length bs)) as [Hm|Hm].
    + rewrite take_app_le by done. apply IH.
    + rewrite take_ge by (rewrite length_app; cbn; lia). eexists. by constructor.
  - destruct (decide (m <= length bs)) as [Hm|Hm].
    + rewrite take_app_le by done. apply IH.
    + rewrite take_ge by (rewrite length_app; cbn; lia). eexists. by constructor.
Qed.

Lemma stamp_no_newline n b : newline ∉ b -> newline ∉ stamp n b.
Proof.
  intros Hb. unfold stamp. rewrite !not_elem_of_app.
  assert (Hd : newline ∉ render_u64 n).
  { pose proof (to_string_no_newline n) as Hn. unfold to_string in Hn. by rewrite as_of_bytes in Hn. }
  repeat split; try done; try (apply (bool_decide_unpack _); vm_compute; exact I).
  intros Hin. apply Hb. destruct b as [|x b]; [done|]. cbn in Hin. set_solver.
Qed.

Lemma stamps_no_newline n bs :
  Forall (fun b => newline ∉ b) bs -> Forall (fun l => newline ∉ l) (stamps n bs).
Proof.
  intros Hb; revert n; induction Hb as [|b bs Hb _ IH]; intros n; cbn [stamps]; [constructor|].
  apply Forall_cons. split; [by apply stamp_no_newline|apply IH].
Qed.

Lemma log_stamps_clean bs r :
  codec_laws -> log bs r -> Forall (fun l => newline ∉ l) (stamps 1 bs).
Proof.
  intros Hlaws Hl. apply stamps_no_newline. eapply Forall_impl; [by eapply log_bodies|]. by intros b [_ ?].
Qed.

(** *** A file cut short *)

Lemma prefix_lines ls f :
  Forall (fun l => newline ∉ l) ls -> f `prefix_of` unlines ls ->
  exists m tail, m <= length ls /\ f = unlines (take m ls) ++ tail /\ newline ∉ tail.
Proof.
  intros Hls; revert f; induction Hls as [|l ls Hl _ IH]; intros f Hf.
  - apply prefix_nil_inv in Hf as ->. exists 0, []. split; [done|]. split; [done|]. apply not_elem_of_nil.
  - rewrite unlines_cons in Hf. destruct Hf as [g Hg].
    apply app_eq_inv in Hg as [(k & Hf & _)|(k & -> & Hk)].
    + destruct k as [|x k _] using rev_ind.
      * rewrite app_nil_r in Hf. subst f. exists 1, []. rewrite app_nil_r. cbn [take length].
        split; [lia|]. split; [by rewrite unlines_cons, app_nil_r|apply not_elem_of_nil].
      * rewrite app_assoc in Hf. apply app_inj_tail in Hf as [-> _]. exists 0, f.
        split; [lia|]. split; [done|]. set_solver.
    + destruct (IH k) as (m & tail & Hm & -> & Ht); [by exists g|].
      exists (S m), tail. cbn [length take]. split; [lia|]. by rewrite unlines_cons, <- !app_assoc.
Qed.

Lemma prefix_content full r bs f :
  codec_laws -> log full r -> bs `prefix_of` full -> content bs `prefix_of` f -> f `prefix_of` content full ->
  exists m tail, length bs <= m /\ m <= length full /\ f = content (take m full) ++ tail /\ newline ∉ tail.
Proof.
  intros Hlaws Hl Hbs [g Hg] Hf. pose proof (log_stamps_clean _ _ Hlaws Hl) as Hclean.
  destruct (prefix_lines _ f Hclean Hf) as (m & tail & Hm & Hcut & Ht).
  rewrite stamps_length in Hm. exists m, tail. rewrite stamps_take in Hcut.
  split; [|done].
  assert (Hc : forall k, Forall (fun l => newline ∉ l) (stamps 1 (take k full))).
  { intros k. rewrite <- stamps_take. by apply Forall_take. }
  destruct Hbs as [rest ->]. pose proof (Hc (length bs)) as Hcb. rewrite take_app_length in Hcb.
  assert (El : lines_of (content bs ++ g) = lines_of (content (take m (bs ++ rest)) ++ tail)).
  { f_equal. by rewrite <- Hg. }
  unfold content in El. rewrite !lines_of_unlines in El by done.
  rewrite (lines_of_tail tail Ht), app_nil_r in El. apply (f_equal (length ∘ fst)) in El. cbn in El.
  rewrite length_app, !stamps_length, length_take in El. lia.
Qed.
End Log.

(** ** Recovery accepts every log *)

(** Recovery only ever shortens the file. *)
Lemma recover_prefix `{Crypto} `{JournalCodec} f r f' : recover f = Ok (r, f') -> f' `prefix_of` f.
Proof.
  unfold recover. destruct (lines_of f) as [lines tail].
  destruct (recover_loop lines 1 recovered_start 0) as [[[r0 e] n]|]; [|done].
  intros [= _ <-]. destruct tail; [done|]. apply prefix_take.
Qed.

Section RecoveryFacts.
Context `{Crypto} `{SigningLib} `{JournalCodec}.
Context (policy : CheckpointPolicy) (Hlaws : codec_laws).

Lemma parse_seq_stamp n b v kind :
  body_shape b = true -> from_slice b = Some v -> value_get v "seq" = None ->
  value_get v "kind" = Some (VString kind) -> (n <= U64_MAX)%N ->
  parse_seq (stamp n b) = Some (n, bool_decide (kind = CHECKPOINT_KIND)).
Proof.
  intros Hs Hv Hseq Hk Hn. destruct (proj1 Hlaws n b v kind Hn Hs Hv Hseq Hk) as (v' & Ev & Eseq & Ek).
  unfold parse_seq. rewrite Ev. cbn [mbind option_bind]. rewrite Eseq. cbn [mbind option_bind as_u64].
  unfold to_string. rewrite parse_render_u64 by done. rewrite Ek, Hk by done.
  cbn [mbind option_bind as_str]. do 2 f_equal. apply bool_decide_ext. split; congruence.
Qed.

Lemma parse_event n b : event_body b -> (n <= U64_MAX)%N -> parse_seq (stamp n b) = Some (n, false).
Proof.
  intros (Hs & _ & v & k & Hv & Hseq & Hk & Hne) Hn.
  rewrite (parse_seq_stamp n b v k) by done. by rewrite bool_decide_eq_false_2.
Qed.

Lemma parse_checkpoint n c : checkpoint_fits c -> (n <= U64_MAX)%N -> parse_seq (stamp n (checkpoint_to_vec c)) = Some (n, true).
Proof.
  intros Hc Hn. destruct (proj2 Hlaws c Hc) as (Hs & _ & v & Hv & Hseq & Hk & _).
  rewrite (parse_seq_stamp n _ v CHECKPOINT_KIND) by done. by rewrite bool_decide_eq_true_2.
Qed.

Lemma recover_loop_app l1 l2 e r n :
  recover_loop (l1 ++ l2) e r n =
  match recover_loop l1 e r n with
  | Ok (r', e', n') => recover_loop l2 e' r' n'
  | Err err => Err err
  end.
Proof.
  revert e r n; induction l1 as [|l l1 IH]; intros e r n; cbn [app recover_loop]; [done|].
  destruct (parse_seq l) as [[seq is_cp]|]; [|done].
  destruct (negb (seq =? e)%N); [done|]. destruct (checked_add e 1); [apply IH|done].
Qed.

(** The loop's running state: its [rec_last_seq] is filled in at the end. *)
Definition running (r : Recovered) : Recovered :=
  {| rec_last_seq := 0; rec_chain := rec_chain r; rec_last_checkpoint := rec_last_checkpoint r;
     rec_since_checkpoint := rec_since_checkpoint r |}.

Lemma recover_loop_log bs r :
  log policy bs r -> (N.of_nat (length bs) < U64_MAX)%N ->
  recover_loop (stamps 1 bs) 1 recovered_start 0
  = Ok (running r, (N.of_nat (length bs) + 1)%N, length (content bs)).
Proof.
  induction 1 as [|bs r b Hl IH Hb He|bs r ts Hl IH Hb]; intros Hlen; [done|..];
    rewrite length_app in Hlen; cbn [length] in Hlen;
    rewrite stamps_app, recover_loop_app, IH by lia; rewrite (N.add_comm 1);
    pose proof (log_last _ _ _ Hl) as Hlast; rewrite content_snoc, !length_app; cbn [length];
    unfold line_of; rewrite length_app; cbn [stamps recover_loop length].
  - rewrite parse_event by (done || lia). rewrite N.eqb_refl. cbn [negb].
    unfold checked_add. rewrite (proj2 (N.ltb_ge U64_MAX _)) by lia.
    cbn [recover_loop]. unfold running, after_event, line_of. cbn.
    rewrite Hlast. f_equal. f_equal; [f_equal; lia|lia].
  - unfold checkpoint_body. rewrite parse_checkpoint by (lia || by eapply log_checkpoint_fits). rewrite N.eqb_refl. cbn [negb].
    unfold checked_add. rewrite (proj2 (N.ltb_ge U64_MAX _)) by lia.
    cbn [recover_loop]. unfold running, after_checkpoint, checkpoint_body, line_of. cbn.
    rewrite Hlast. f_equal. f_equal; [f_equal; lia|lia].
Qed.

Lemma recover_log bs r tail :
  log policy bs r -> (N.of_nat (length bs) < U64_MAX)%N -> newline ∉ tail ->
  recover (content bs ++ tail) = Ok (r, content bs).
Proof.
  intros Hl Hlen Ht. unfold recover.
  unfold content at 1. rewrite lines_of_unlines by (by eapply log_stamps_clean).
  rewrite (lines_of_tail tail Ht). cbn [fst snd]. rewrite app_nil_r, (recover_loop_log bs r) by done.
  pose proof (log_last _ _ _ Hl) as Hlast. f_equal. f_equal.
  - destruct r. cbn in *. f_equal. lia.
  - destruct tail; [by rewrite app_nil_r|]. by rewrite take_app_length.
Qed.
End RecoveryFacts.

(** ** The writer keeps the log *)

Section WriterFacts.
Context `{Crypto} `{SigningLib} `{JournalCodec}.
Context (policy : CheckpointPolicy) (Hlaws : codec_laws).

Definition acked (l : list (WriteRequest * result N string)) : list (WriteRequest * N) :=
  omap (fun '(w, res) => match res with Ok n => Some (w, n) | Err _ => None end) l.

(** What the outside world was told, against the log [bs]: every acknowledged
    record is there under its sequence, sequences were handed out in strictly
    increasing order, and every export is the line of its sequence. *)
Definition evidence (bs : list (list byte)) (a : list (WriteRequest * result N string))
    (e : list (N * list byte)) : Prop :=
  (forall w n, (w, n) ∈ acked a -> exists i, n = N.of_nat (S i) /\ bs !! i = Some (body w))
  /\ StronglySorted N.lt (map snd (acked a))
  /\ (forall n line, (n, line) ∈ e ->
        exists i b, n = N.of_nat (S i) /\ bs !! i = Some b /\ line = line_of n b).

Definition inv (j : Journal) : Prop :=
  exists bs extra r rf,
    log policy bs r /\ log policy (bs ++ extra) rf
    /\ content bs `prefix_of` file j /\ file j `prefix_of` content (bs ++ extra)
    /\ (poison j = None -> extra = [] /\ abs (state j) = r)
    /\ evidence bs (acks j) (exports j)
    /\ (forall w, MRecord w ∈ queue j -> event_body (body w)).

Lemma acked_app a1 a2 : acked (a1 ++ a2) = acked a1 ++ acked a2.
Proof. unfold acked. apply omap_app. Qed.

Lemma acked_refuse e batch : acked (refuse e batch) = [].
Proof. induction batch as [|w batch IH]; [done|]. cbn. apply IH. Qed.

Lemma acked_ack_all seq batch w n :
  (w, n) ∈ acked (ack_all seq batch) ->
  exists i, n = (seq + N.of_nat i)%N /\ map body batch !! i = Some (body w).
Proof.
  revert seq; induction batch as [|w' batch IH]; intros seq; cbn; [by intros ?%not_elem_of_nil|].
  rewrite elem_of_cons. intros [[= -> ->]|Hin].
  - exists 0. split; [lia|done].
  - apply IH in Hin as (i & -> & Hi). exists (S i). split; [lia|done].
Qed.

Lemma acked_ack_all_sorted seq batch : StronglySorted N.lt (map snd (acked (ack_all seq batch))).
Proof.
  revert seq; induction batch as [|w batch IH]; intros seq; cbn; [constructor|].
  constructor; [apply IH|]. apply Forall_forall. intros n Hn.
  apply list_elem_of_In, in_map_iff in Hn as ([w' n'] & <- & Hin). rewrite <- list_elem_of_In in Hin.
  apply acked_ack_all in Hin as (i & -> & _). cbn. lia.
Qed.

Lemma evidence_mono bs bs' a e : bs `prefix_of` bs' -> evidence bs a e -> evidence bs' a e.
Proof.
  intros [x ->] (Ha & Hs & He). split; [|split; [done|]].
  - intros w n (i & -> & Hi)%Ha. exists i. split; [done|]. by apply lookup_app_l_Some.
  - intros n line (i & b & -> & Hi & ->)%He. exists i, b. split; [done|]. split; [|done].
    by apply lookup_app_l_Some.
Qed.

Lemma evidence_refuse bs a e err batch : evidence bs a e -> evidence bs (a ++ refuse err batch) e.
Proof. unfold evidence. by rewrite acked_app, acked_refuse, app_nil_r. Qed.

Lemma sorted_app (l1 l2 : list N) :
  StronglySorted N.lt l1 -> StronglySorted N.lt l2 ->
  (forall x y, x ∈ l1 -> y ∈ l2 -> (x < y)%N) -> StronglySorted N.lt (l1 ++ l2).
Proof.
  induction 1 as [|x l1 _ IH Hx]; intros Hs2 Hxy; cbn; [done|]. constructor.
  - apply IH; [done|]. intros; apply Hxy; [by right|done].
  - apply Forall_app. split; [done|]. apply Forall_forall. intros y Hy. apply Hxy; [by left|done].
Qed.

Lemma evidence_ack bs a e batch :
  evidence bs a e ->
  evidence (bs ++ map body batch) (a ++ ack_all (N.of_nat (length bs) + 1) batch) e.
Proof.
  intros Hev. pose proof Hev as (Ha & Hs & He).
  assert (Hpre : bs `prefix_of` bs ++ map body batch) by by eexists.
  destruct (evidence_mono _ _ _ _ Hpre Hev) as (Ha' & _ & He'). split; [|split; [|done]].
  - intros w n. rewrite acked_app, elem_of_app. intros [Hin|Hin]; [by apply Ha'|].
    apply acked_ack_all in Hin as (i & -> & Hi). exists (length bs + i). split; [lia|].
    by rewrite lookup_app_r, Nat.add_sub' by lia.
  - rewrite acked_app, map_app. apply sorted_app; [done|apply acked_ack_all_sorted|].
    intros x y Hx Hy. apply list_elem_of_In, in_map_iff in Hx as ([w1 n1] & <- & Hw1), Hy as ([w2 n2] & <- & Hw2).
    rewrite <- list_elem_of_In in Hw1, Hw2. apply Ha in Hw1 as (i & -> & Hi%lookup_lt_Some).
    apply acked_ack_all in Hw2 as (k & -> & _). cbn. lia.
Qed.

Lemma evidence_export bs a e b exported :
  evidence bs a e ->
  (forall n line, exported = Some (n, line) ->
     n = (N.of_nat (length bs) + 1)%N /\ line = line_of n b) ->
  evidence (bs ++ [b]) a (e ++ option_list exported).
Proof.
  intros Hev Hx. assert (Hpre : bs `prefix_of` bs ++ [b]) by by eexists.
  destruct (evidence_mono _ _ _ _ Hpre Hev) as (Ha & Hs & He). split; [done|]. split; [done|].
  intros n line. rewrite elem_of_app. intros [Hin|Hin]; [by apply He|].
  destruct exported as [[n' line']|]; cbn in Hin; [|by apply not_elem_of_nil in Hin].
  apply list_elem_of_singleton in Hin as [= <- <-]. destruct (Hx n line eq_refl) as [-> ->].
  exists (length bs), b. split; [lia|]. split; [|done]. by rewrite list_lookup_middle.
Qed.

(** A log extended by events. *)
Definition after_events (r : Recovered) (bs : list (list byte)) : Recovered := fold_left after_event bs r.

Lemma after_events_state r bs :
  after_events r bs =
  {| rec_last_seq := (rec_last_seq r + N.of_nat (length bs))%N;
     rec_chain := chain_from (rec_chain r)
       (map (fun l => l ++ [newline]) (stamps (rec_last_seq r + 1) bs));
     rec_last_checkpoint := rec_last_checkpoint r;
     rec_since_checkpoint := (rec_since_checkpoint r + N.of_nat (length bs))%N |}.
Proof.
  revert r; induction bs as [|b bs IH]; intros r.
  - destruct r. cbn. by rewrite !N.add_0_r.
  - unfold after_events in *. cbn [fold_left]. rewrite IH. cbn -[N.of_nat]. f_equal; lia.
Qed.

Lemma log_events bs r xs :
  log policy bs r -> (rec_last_seq r + N.of_nat (length xs) <= U64_MAX)%N ->
  Forall event_body xs -> log policy (bs ++ xs) (after_events r xs).
Proof.
  intros Hl Hb Hx. revert bs r Hl Hb; induction Hx as [|x xs Hx Hxs IH]; intros bs r Hl Hb; cbn.
  - by rewrite app_nil_r.
  - cbn [length] in Hb. replace (bs ++ x :: xs) with ((bs ++ [x]) ++ xs) by by rewrite <- app_assoc.
    apply IH; [constructor; [done|lia|done]|]. cbn [after_event rec_last_seq]. lia.
Qed.

Lemma build_stamps seq batch lines :
  (seq <= U64_MAX)%N -> build seq batch = (lines, false) ->
  lines = map (fun l => l ++ [newline]) (stamps seq (map body batch))
  /\ (seq + N.of_nat (length batch) <= U64_MAX)%N.
Proof.
  revert seq lines; induction batch as [|w batch IH]; intros seq lines Hs; cbn [build].
  - intros [= <-]. cbn. split; [done|lia].
  - unfold checked_add. destruct (N.ltb_spec U64_MAX (seq + 1)); [done|].
    destruct (build (seq + 1) batch) as [ls ex] eqn:E. intros [= <- ->].
    apply IH in E as [-> Hb]; [|done]. cbn [length map stamps]. split; [done|lia].
Qed.

Lemma drain_records batch q batch' q' :
  drain batch q = (batch', q') ->
  (forall w, w ∈ batch' -> w ∈ batch \/ MRecord w ∈ q) /\ (forall m, m ∈ q' -> m ∈ q).
Proof.
  revert batch; induction q as [|[w|] q IH]; intros batch; cbn [drain];
    (destruct (length batch <? MAX_BATCH)%nat; [|intros [= <- <-]; split; [by left|done]]).
  - intros [= <- <-]. split; [by left|done].
  - intros [Hb Hq]%IH. split; [|set_solver]. intros v Hv. apply Hb in Hv. set_solver.
  - intros [Hb Hq]%IH. split; [|set_solver]. intros v Hv. apply Hb in Hv. set_solver.
Qed.

(** *** Every step preserves the invariant *)

Lemma inv_file j bs r :
  content bs `prefix_of` file j -> file j `prefix_of` content (bs ++ []) -> log policy bs r -> file j = content bs.
Proof. rewrite app_nil_r. intros [x Hx] [y Hy] _. rewrite Hy in Hx.
  destruct x, y; rewrite ?app_nil_r in *; try done; apply (f_equal length) in Hx;
    rewrite !length_app in Hx; cbn in Hx; lia.
Qed.

(** A healthy journal: the file is the log. *)
Definition healthy (j : Journal) (bs : list (list byte)) : Prop :=
  log policy bs (abs (state j)) /\ file j = content bs /\ poison j = None
  /\ evidence bs (acks j) (exports j) /\ (forall w, MRecord w ∈ queue j -> event_body (body w)).

Lemma inv_healthy j : inv j -> poison j = None -> exists bs, healthy j bs.
Proof.
  intros (bs & extra & r & rf & Hl & _ & Hp1 & Hp2 & Hst & Hev & Hq) Hp. destruct (Hst Hp) as [-> <-].
  exists bs. split; [done|]. split; [by eapply inv_file|]. done.
Qed.

Lemma healthy_inv j bs : healthy j bs -> inv j.
Proof.
  intros (Hl & Hf & Hp & Hev & Hq). exists bs, [], (abs (state j)), (abs (state j)).
  rewrite app_nil_r, Hf. done.
Qed.

Lemma fail_batch_inv j bs f extra batch err rf :
  healthy j bs -> log policy (bs ++ extra) rf ->
  content bs `prefix_of` f -> f `prefix_of` content (bs ++ extra) -> inv (fail_batch j f batch err).
Proof.
  intros (Hl & _ & _ & Hev & Hq) Hx Hp1 Hp2. exists bs, extra, (abs (state j)), rf.
  split_and!; try done; by apply evidence_refuse.
Qed.

Lemma write_prefix (f buffer : list byte) io f' err :
  write_batch f buffer io = (f', Err err) -> f `prefix_of` f' /\ f' `prefix_of` f ++ buffer.
Proof.
  destruct io as [|k e]; [done|]. intros [= <- <-]. split; [by eexists|].
  apply prefix_app. apply prefix_take.
Qed.

Lemma checkpoint_step j bs t :
  healthy j bs -> inv (run_checkpoint policy j t)
  /\ forall f s x, checkpoint policy (state j) (file j) t = (f, s, Ok x) ->
       exists bs', healthy {| file := f; state := s; poison := None; queue := queue j; acks := acks j;
                              exports := exports j ++ option_list x |} bs'.
Proof.
  intros Hh. pose proof Hh as (Hl & Hf & Hp & Hev & Hq).
  pose proof (log_last _ _ _ Hl) as Hlast. cbn [abs rec_last_seq] in Hlast.
  unfold run_checkpoint, checkpoint, checked_add.
  destruct (N.ltb_spec U64_MAX (last_seq (state j) + 1)) as [Hover|Hfits].
  { split; [|done]. apply (fail_batch_inv j bs (file j) [] [] _ (abs (state j))); rewrite ?app_nil_r, ?Hf; done. }
  set (seq := (last_seq (state j) + 1)%N) in *.
  set (line := line_of seq (checkpoint_to_vec (make_checkpoint policy (state j) seq (timestamp t)))).
  assert (Hlog : log policy (bs ++ [checkpoint_body policy (abs (state j)) (timestamp t)])
                   (after_checkpoint policy (abs (state j)) (timestamp t))) by by constructor.
  assert (Hcont : content (bs ++ [checkpoint_body policy (abs (state j)) (timestamp t)]) = file j ++ line).
  { rewrite content_snoc, <- Hlast, Hf. done. }
  destruct (write_batch (file j) line (io_checkpoint t)) as [f' [[]|err]] eqn:Ew.
  - assert (Hok : f' = file j ++ line) by (destruct (io_checkpoint t); [by injection Ew|done]).
    assert (Hgood : healthy {| file := f';
      state := {| last_seq := seq; chain := extend (chain (state j)) line; last_checkpoint := Some seq;
                  since_checkpoint := 0; last_checkpoint_at := now t |};
      poison := None; queue := queue j; acks := acks j;
      exports := exports j ++ option_list (if export policy && export_ok t then Some (seq, line) else None) |}
      (bs ++ [checkpoint_body policy (abs (state j)) (timestamp t)])).
    { split; [exact Hlog|]. split; [by rewrite Hok, Hcont|]. split; [done|]. split; [|done].
      apply evidence_export; [done|]. intros n l Hx. destruct (_ && _); [|done]. injection Hx as <- <-.
      split; [by rewrite <- Hlast|done]. }
    split; [rewrite Hp; by eapply healthy_inv|]. intros f s x [= <- <- <-]. by eexists.
  - split; [|done]. apply write_prefix in Ew as [Hw1 Hw2]. eapply fail_batch_inv; [done|exact Hlog|..].
    + by rewrite <- Hf.
    + by rewrite Hcont.
Qed.

Lemma run_checkpoint_inv j bs t : healthy j bs -> inv (run_checkpoint policy j t).
Proof. intros Hh. by apply (checkpoint_step j bs t). Qed.

(** [file ++ mjoin lines] is the log with the batch's bodies. *)
Lemma batch_content bs batch :
  content bs ++ mjoin (map (fun l => l ++ [newline]) (stamps (N.of_nat (length bs) + 1) (map body batch)))
  = content (bs ++ map body batch).
Proof. unfold content. rewrite stamps_app, unlines_app, N.add_comm. done. Qed.

Lemma run_batch_inv j batch t :
  inv j -> (forall w, w ∈ batch -> event_body (body w)) -> inv (run_batch policy j batch t).
Proof.
  intros Hinv Hbatch. unfold run_batch. destruct (poison j) as [err|] eqn:Hp.
  { destruct Hinv as (bs & extra & r & rf & ? & ? & ? & ? & Hst & ? & ?). exists bs, extra, r, rf.
    split_and!; try done; try (by apply evidence_refuse); by rewrite Hp in Hst. }
  destruct (inv_healthy j Hinv Hp) as [bs Hh]. pose proof Hh as (Hl & Hf & _ & Hev & Hq).
  pose proof (log_last _ _ _ Hl) as Hlast. cbn [abs rec_last_seq] in Hlast.
  assert (Hfail : inv (fail_batch j (file j) batch sequence_exhausted)).
  { apply (fail_batch_inv j bs (file j) [] batch _ (abs (state j))); rewrite ?app_nil_r, ?Hf; done. }
  unfold checked_add. destruct (N.ltb_spec U64_MAX (last_seq (state j) + 1)) as [Hover|Hfits]; [done|].
  destruct (build (last_seq (state j) + 1) batch) as [lines exhausted] eqn:Eb.
  destruct exhausted; [done|]. apply build_stamps in Eb as [-> Hbound]; [|done].
  assert (Hlog : log policy (bs ++ map body batch) (after_events (abs (state j)) (map body batch))).
  { apply log_events; [done|rewrite length_map; cbn; lia|]. apply Forall_forall.
    intros b Hb. apply list_elem_of_In, in_map_iff in Hb as (w & <- & Hw). rewrite <- list_elem_of_In in Hw.
    by apply Hbatch. }
  set (lines := map (fun l => l ++ [newline]) (stamps (last_seq (state j) + 1) (map body batch))).
  assert (Hcont : file j ++ mjoin lines = content (bs ++ map body batch)).
  { rewrite Hf, <- batch_content. unfold lines. by rewrite Hlast. }
  destruct (write_batch (file j) (mjoin lines) (io_batch t)) as [f' [[]|err]] eqn:Ew.
  - assert (Hok : f' = file j ++ mjoin lines) by (destruct (io_batch t); [by injection Ew|done]).
    match goal with |- inv (if _ then run_checkpoint _ ?j' _ else _) =>
      assert (Hgood : healthy j' (bs ++ map body batch)) end.
    { split; [|split; [by rewrite <- Hcont|split; [done|split; [|done]]]].
      - rewrite after_events_state in Hlog. rewrite length_map in Hlog. unfold abs at 1. cbn.
        unfold lines. rewrite length_map, stamps_length, length_map.
        replace (last_seq (state j) + 1 + N.of_nat (length batch) - 1)%N
          with (last_seq (state j) + N.of_nat (length batch))%N by lia. exact Hlog.
      - cbn [acks exports]. rewrite Hlast. by apply evidence_ack. }
    case_goal; [by eapply run_checkpoint_inv|by eapply healthy_inv].
  - apply write_prefix in Ew as [Hw1 Hw2]. eapply fail_batch_inv; [done|exact Hlog|by rewrite <- Hf|].
    by rewrite <- Hcont.
Qed.

Lemma with_queue_inv j q : inv j -> (forall m, m ∈ q -> m ∈ queue j) -> inv (with_queue j q).
Proof.
  intros (bs & extra & r & rf & ? & ? & ? & ? & ? & ? & Hq) Hsub. exists bs, extra, r, rf.
  split_and!; try done; try tauto. intros w Hw. by apply Hq, Hsub.
Qed.

Lemma turn_inv j t : inv j -> inv (turn policy j t).
Proof.
  intros Hinv. unfold turn. destruct (queue j) as [|[first|] q] eqn:Eq; [done|..].
  - destruct (drain [first] q) as [batch q'] eqn:Ed. apply drain_records in Ed as [Hb Hq'].
    apply run_batch_inv.
    + apply with_queue_inv; [done|]. intros m Hm. rewrite Eq. right. by apply Hq'.
    + destruct Hinv as (_ & _ & _ & _ & _ & _ & _ & _ & _ & _ & Hq). intros w Hw. apply Hq. rewrite Eq.
      apply Hb in Hw. set_solver.
  - assert (Hinv' : inv (with_queue j q)).
    { apply with_queue_inv; [done|]. intros m Hm. rewrite Eq. by right. }
    destruct (bool_decide (poison (with_queue j q) = None)) eqn:Ep; [|done]. bool_to_prop.
    destruct (inv_healthy _ Hinv' Ep) as [bs Hh]. case_goal; [by eapply run_checkpoint_inv|done].
Qed.

Lemma arrive_inv j w :
  inv j -> event_body (body w) -> inv (with_queue j (queue j ++ [MRecord w])).
Proof.
  intros (bs & extra & r & rf & ? & ? & ? & ? & ? & ? & Hq) Hw. exists bs, extra, r, rf.
  split_and!; try done; try tauto. intros v. cbn. rewrite elem_of_app, list_elem_of_singleton.
  intros [Hv|[= ->]]; [by apply Hq|done].
Qed.

Lemma arrive_tick_inv j : inv j -> inv (with_queue j (queue j ++ [MTick])).
Proof.
  intros (bs & extra & r & rf & ? & ? & ? & ? & ? & ? & Hq). exists bs, extra, r, rf.
  split_and!; try done; try tauto. intros v. cbn. rewrite elem_of_app, list_elem_of_singleton.
  intros [Hv|?]; [by apply Hq|done].
Qed.

Lemma close_inv j t : inv j -> exists j', inv j' /\ file j' = file (close policy j t)
  /\ acks j' = acks (close policy j t) /\ exports j' = exports (close policy j t).
Proof.
  intros Hinv. unfold close. destruct (bool_decide (poison j = None) && _) eqn:E; [|by exists j].
  bool_to_prop. destruct (inv_healthy _ Hinv H2) as [bs Hh].
  destruct (checkpoint_step j bs t Hh) as [Hrun Hok].
  destruct (checkpoint policy (state j) (file j) t) as [[f s] [x|err]] eqn:Ec.
  - destruct (Hok f s x eq_refl) as [bs' Hh']. eexists. split; [by eapply healthy_inv|]. done.
  - unfold run_checkpoint in Hrun. rewrite Ec in Hrun. eexists. split; [exact Hrun|]. cbn.
    by rewrite app_nil_r.
Qed.

(** Whatever happened - a crash mid-write, a poisoned writer, a clean close -
    the file recovers to a log that holds all the evidence. *)
Lemma inv_recovers j :
  inv j -> (N.of_nat (length (file j)) < U64_MAX)%N ->
  exists bs r, log policy bs r /\ recover (file j) = Ok (r, content bs)
    /\ evidence bs (acks j) (exports j).
Proof.
  intros (bs & extra & r & rf & Hl & Hlx & Hp1 & Hp2 & _ & Hev & _) Hb.
  destruct (prefix_content policy (bs ++ extra) rf bs (file j)) as (m & tail & Hm & _ & Hf & Ht);
    [done|done|by eexists|done|done|].
  destruct (log_prefix policy (bs ++ extra) rf m Hlx) as [rm Hlm].
  exists (take m (bs ++ extra)), rm. split; [done|]. split.
  - rewrite Hf. apply (recover_log policy); [done|done| |done].
    rewrite Hf, length_app in Hb. pose proof (content_length (take m (bs ++ extra))). lia.
  - eapply evidence_mono; [|done]. rewrite take_app_ge by done. by eexists.
Qed.

(** ** Reachable journals *)

Inductive reachable : Journal -> Prop :=
| reach_new at_ j : open_journal [] at_ [] [] = Ok j -> reachable j
| reach_record j w :
    reachable j -> length (queue j) < WRITE_QUEUE_DEPTH -> event_body (body w) ->
    reachable (with_queue j (queue j ++ [MRecord w]))
| reach_tick j :
    reachable j -> length (queue j) < WRITE_QUEUE_DEPTH -> reachable (with_queue j (queue j ++ [MTick]))
| reach_turn j t : reachable j -> reachable (turn policy j t)
| reach_crash j at_ j' :
    reachable j -> (N.of_nat (length (file j)) < U64_MAX)%N ->
    open_journal (file j) at_ (acks j) (exports j) = Ok j' -> reachable j'
| reach_close j t at_ j' :
    let c := close policy j t in
    reachable j -> (N.of_nat (length (file c)) < U64_MAX)%N ->
    open_journal (file c) at_ (acks c) (exports c) = Ok j' -> reachable j'.

Lemma reopen_inv j at_ j' :
  inv j -> (N.of_nat (length (file j)) < U64_MAX)%N ->
  open_journal (file j) at_ (acks j) (exports j) = Ok j' -> inv j'.
Proof.
  intros Hinv Hb Ho. destruct (inv_recovers j Hinv Hb) as (bs & r & Hl & Hr & Hev).
  unfold open_journal in Ho. rewrite Hr in Ho. injection Ho as <-. apply (healthy_inv _ bs).
  split; [by destruct r|]. split; [done|]. split; [done|]. split; [done|].
  intros w Hw. by apply not_elem_of_nil in Hw.
Qed.

Lemma reachable_inv j : reachable j -> inv j.
Proof.
  induction 1 as [at_ j Ho|j w _ IH _ Hw|j _ IH _|j t _ IH|j at_ j' _ IH Hb Ho|j t at_ j' c _ IH Hb Ho].
  - injection Ho as <-. apply (healthy_inv _ []). split; [exact (log_nil policy)|]. split; [done|].
    split; [done|]. split; [split; [|split; [constructor|]]|].
    + intros w n Hin. by apply not_elem_of_nil in Hin.
    + intros n l Hin. by apply not_elem_of_nil in Hin.
    + intros w Hin. by apply not_elem_of_nil in Hin.
  - by apply arrive_inv.
  - by apply arrive_tick_inv.
  - by apply turn_inv.
  - by eapply reopen_inv.
  - destruct (close_inv j t IH) as (j2 & Hj2 & Ef & Ea & Ee). subst c.
    rewrite <- Ef, <- Ea, <- Ee in Ho. rewrite <- Ef in Hb. by eapply reopen_inv.
Qed.

Lemma inv_lines j bs :
  codec_laws -> (exists r, log policy bs r) -> content bs `prefix_of` file j ->
  stamps 1 bs `prefix_of` (lines_of (file j)).1.
Proof.
  intros _ [r Hl] [g Hg]. rewrite Hg. unfold content.
  rewrite lines_of_unlines by (by eapply log_stamps_clean). by eexists.
Qed.
End WriterFacts.

(** ** Claims *)

(** C5: An acknowledged record is never lost (RPO = 0).  In every reachable
    journal - across batches, failed or partial writes, poisoning, crashes,
    clean closes and restarts - each record acknowledged with sequence [n] is
    the [n]-th complete line of the file, stamped with [n], and sequences were
    handed out in strictly increasing order: none is ever issued twice. *)
Theorem journal_acknowledged_durable `{Crypto} `{SigningLib} `{JournalCodec} policy j :
  codec_laws -> reachable policy j ->
  (forall w n, (w, n) ∈ acked (acks j) ->
     exists i, n = N.of_nat (S i) /\ (lines_of (file j)).1 !! i = Some (stamp n (body w)))
  /\ StronglySorted N.lt (map snd (acked (acks j))).
Proof.
  intros Hlaws Hr. apply (reachable_inv policy Hlaws) in Hr.
  destruct Hr as (bs & extra & r & rf & Hl & _ & Hp & _ & _ & (Ha & Hs & _) & _). split; [|done].
  intros w n (i & -> & Hi)%Ha. exists i. split; [done|].
  destruct (inv_lines policy Hlaws j bs Hlaws (ex_intro _ r Hl) Hp) as [x ->].
  rewrite lookup_app_l by (rewrite stamps_length; by eapply lookup_lt_Some).
  rewrite (stamps_lookup 1 bs i (body w) Hi). do 2 f_equal. lia.
Qed.

(** C18: Recovery never refuses what the writer produced and never changes what
    it vouched for.  From any reachable journal shorter than 2^64 bytes the
    file recovers: a torn trailing line is cut off, nothing else; every
    acknowledged sequence survives; and from a healthy journal the recovered
    sequence, chain and checkpoint counters are exactly the writer's own, so a
    restart is invisible in the evidence. *)
Theorem journal_recovers `{Crypto} `{SigningLib} `{JournalCodec} policy j :
  codec_laws -> reachable policy j -> (N.of_nat (length (file j)) < U64_MAX)%N ->
  exists r f', recover (file j) = Ok (r, f') /\ f' `prefix_of` file j
    /\ length (lines_of f').1 = N.to_nat (rec_last_seq r)
    /\ (forall w n, (w, n) ∈ acked (acks j) -> (1 <= n <= rec_last_seq r)%N)
    /\ (poison j = None -> f' = file j /\ r = abs (state j)).
Proof.
  intros Hlaws Hr Hb. pose proof (reachable_inv policy Hlaws j Hr) as Hinv.
  destruct (inv_recovers policy Hlaws j Hinv Hb) as (bs & r & Hl & Hrec & Ha & _ & _).
  exists r, (content bs). split; [done|]. split; [by eapply recover_prefix|].
  rewrite (log_last _ _ _ Hl). split; [|split].
  - unfold content. rewrite <- (app_nil_r (unlines _)), lines_of_unlines by (by eapply log_stamps_clean).
    cbn [lines_of fst]. rewrite app_nil_r, stamps_length. lia.
  - intros w n (i & -> & Hi%lookup_lt_Some)%Ha. lia.
  - intros Hp. destruct (inv_healthy policy j Hinv Hp) as (bs' & Hl' & Hf & _).
    assert (Hlen : (N.of_nat (length bs') < U64_MAX)%N).
    { pose proof (content_length bs'). rewrite <- Hf in *. lia. }
    rewrite Hf in Hrec. rewrite <- (app_nil_r (content bs')) in Hrec.
    rewrite (recover_log policy Hlaws bs' (abs (state j)) []) in Hrec by (done || apply not_elem_of_nil).
    by injection Hrec as <- <-.
Qed.

(** A poisoned journal refuses for good.  Once a write or sync failed, a
    turn of the writer - batch, tick or checkpoint - leaves the file as it is
    and acknowledges nothing: every record is answered with the error. *)
Theorem journal_poison_is_final `{Crypto} `{SigningLib} `{JournalCodec} policy j t err :
  poison j = Some err ->
  let j' := turn policy j t in
  file j' = file j /\ poison j' = Some err /\ exports j' = exports j
  /\ exists batch, acks j' = acks j ++ refuse err batch.
Proof.
  intros Hp. unfold turn. destruct (queue j) as [|[first|] q].
  - split; [done|]. split; [done|]. split; [done|]. exists []. by rewrite app_nil_r.
  - destruct (drain [first] q) as [batch q']. unfold run_batch. cbn [poison with_queue]. rewrite Hp.
    split; [done|]. split; [done|]. split; [done|]. by exists batch.
  - cbn [poison with_queue]. rewrite bool_decide_eq_false_2 by (by rewrite Hp). cbn [andb].
    split; [done|]. split; [done|]. split; [done|]. exists []. by rewrite app_nil_r.
Qed.
