(* ===== verification/Verify.v ===== *)
(** * Reading and verifying a journal offline (src/src/audit/reader.rs, src/src/audit/verify.rs)

    The strict reader, with its sequence check and running chain, and the
    verifier's report on chain, coverage, signatures and exports. *)
From S2P Require Import Prelude RustStr Json PolicyTypes Signing Chain Journal.

(** ** The reader *)

Record Record_ := {
  seq : N;
  kind : string;
  value : Value;
  line : list byte;
  chain_before : Chain;
}.

Definition is_checkpoint (r : Record_) : bool := String.eqb (kind r) CHECKPOINT_KIND.

Definition record_timestamp (r : Record_) : option string := value_get (value r) "timestamp" ≫= as_str.

Inductive ReadError :=
| Unparseable (at_seq : N) (detail : string)
| Gap (expected found : N)
| TornTail (after_seq : N) (bytes : nat).

Definition read_error_display (e : ReadError) : string :=
  match e with
  | Unparseable at_seq detail => "record " ++ to_string at_seq ++ " is unparseable: " ++ detail
  | Gap expected found =>
      "expected sequence " ++ to_string expected ++ ", found " ++ to_string found
      ++ " (gap, duplicate, or reordering)"
  | TornTail after_seq bytes =>
      "torn trailing record after sequence " ++ to_string after_seq ++ " ("
      ++ to_string (N.of_nat bytes) ++ " bytes without a newline)"
  end%string.

(** Where a reader stands between two records. *)
Record Position := { next_seq : N; offset : N; pos_chain : Chain }.

Section Reader.
Context `{Crypto} `{JournalCodec}.

Definition position_start : Position := {| next_seq := 1; offset := 0; pos_chain := genesis |}.

(** [read_one] on a complete line (given without its newline). *)
Definition read_line (p : Position) (l : list byte) : result (Record_ * Position) ReadError :=
  match from_slice l with
  | None => Err (Unparseable (next_seq p) "not JSON")
  | Some v =>
      match value_get v "seq" ≫= as_u64 with
      | None => Err (Unparseable (next_seq p) "no numeric `seq`")
      | Some n =>
          match value_get v "kind" ≫= as_str with
          | None => Err (Unparseable (next_seq p) "no string `kind`")
          | Some k =>
              if negb (n =? next_seq p)%N then Err (Gap (next_seq p) n)
              else
                let full := l ++ [newline] in
                Ok ({| seq := n; kind := k; value := v; line := full; chain_before := pos_chain p |},
                    {| next_seq := (next_seq p + 1)%N; offset := (offset p + N.of_nat (length full))%N;
                       pos_chain := extend (pos_chain p) full |})
          end
      end
  end.

(** The iterator: the records up to the first error, and the error. *)
Fixpoint read_lines (p : Position) (lines : list (list byte)) (tail : list byte)
    : list Record_ * Position * option ReadError :=
  match lines with
  | [] => ([], p, match tail with [] => None | _ => Some (TornTail (next_seq p - 1) (length tail)) end)
  | l :: rest =>
      match read_line p l with
      | Err e => ([], p, Some e)
      | Ok (r, p') =>
          let '(records, last, err) := read_lines p' rest tail in (r :: records, last, err)
      end
  end.

Definition read_journal (f : list byte) : list Record_ * Position * option ReadError :=
  let '(lines, tail) := lines_of f in read_lines position_start lines tail.

(** [JournalReader::resume]: only a file shorter than the offset is refused. *)
Definition resume (f : list byte) (p : Position)
    : result (list Record_ * Position * option ReadError) string :=
  if (N.of_nat (length f) <? offset p)%N then Err "journal is shorter than the resume offset"
  else
    let '(lines, tail) := lines_of (drop (N.to_nat (offset p)) f) in Ok (read_lines p lines tail).
End Reader.

(** ** The verifier *)

Inductive Problem :=
| PUnreadable (detail : string)
| PChainMismatch (seq : N) (expected found : string)
| PCoverageMismatch (seq : N)
| PBadSignature (seq : N) (detail : string)
| PUnsigned (seq : N)
| PExportMissingFromJournal (seq : N)
| PExportDiffers (seq : N)
| PExportBeyondJournal (seq journal_last_seq : N)
| PExportMissing (seq : N)
| PExportDuplicate (seq : N).

#[export] Instance Problem_eq_dec : EqDecision Problem.
Proof. solve_decision. Defined.

Record Verification := {
  v_records : N;
  v_checkpoints : N;
  v_signed_checkpoints : N;
  v_last_seq : N;
  v_sealed_through : option N;
  v_unsealed_records : N;
  v_exports_checked : N;
  v_chain : string;
  v_problems : list Problem;
}.

Definition verification_default : Verification :=
  {| v_records := 0; v_checkpoints := 0; v_signed_checkpoints := 0; v_last_seq := 0;
     v_sealed_through := None; v_unsealed_records := 0; v_exports_checked := 0; v_chain := "";
     v_problems := [] |}.

Definition verification_ok (v : Verification) : bool := bool_decide (v_problems v = []).

(** Field updates. *)
Definition add_problems (ps : list Problem) (v : Verification) : Verification :=
  {| v_records := v_records v; v_checkpoints := v_checkpoints v;
     v_signed_checkpoints := v_signed_checkpoints v; v_last_seq := v_last_seq v;
     v_sealed_through := v_sealed_through v; v_unsealed_records := v_unsealed_records v;
     v_exports_checked := v_exports_checked v; v_chain := v_chain v;
     v_problems := v_problems v ++ ps |}.

Section Verify.
Context `{Crypto} `{JournalCodec}.
Variable keys : list VerifyingKey.

(** [check_checkpoint]: the problems found, whether a signature verified, and
    the parsed checkpoint. *)
Definition check_checkpoint (r : Record_) (previous : option N)
    : list Problem * bool * option Checkpoint :=
  match checkpoint_from_value (value r) with
  | Err error =>
      ([PUnreadable ("checkpoint " ++ to_string (seq r) ++ " does not parse: " ++ error)%string], false, None)
  | Ok c =>
      let expected_chain := label (chain_before r) in
      let chain_problems :=
        if String.eqb (cp_chain c) expected_chain then []
        else [PChainMismatch (seq r) expected_chain (cp_chain c)] in
      let expected_from := match previous with Some s => (s + 1)%N | None => 1%N end in
      let coverage_problems :=
        if negb (covers_from c =? expected_from)%N || negb (covers_to c =? seq r - 1)%N
           || negb (bool_decide (previous_checkpoint c = previous))
        then [PCoverageMismatch (seq r)] else [] in
      let '(signature_problems, signed) :=
        match keys with
        | [] => ([], false)
        | _ =>
            match checkpoint_verify c (seq r) keys with
            | Ok (Some _) => ([], true)
            | Ok None => ([PUnsigned (seq r)], false)
            | Err detail => ([PBadSignature (seq r) detail], false)
            end
        end in
      (chain_problems ++ coverage_problems ++ signature_problems, signed, Some c)
  end.

(** The loop over records; [checkpoint_lines] and [previous_checkpoint] are its
    local variables. *)
Record Scan := {
  report : Verification;
  previous : option N;
  checkpoint_lines : list (N * list byte);
}.

Definition scan_start : Scan := {| report := verification_default; previous := None; checkpoint_lines := [] |}.

Definition scan_record (s : Scan) (r : Record_) : Scan :=
  let v := report s in
  if negb (is_checkpoint r) then
    {| report := {| v_records := (v_records v + 1)%N; v_checkpoints := v_checkpoints v;
                    v_signed_checkpoints := v_signed_checkpoints v; v_last_seq := seq r;
                    v_sealed_through := v_sealed_through v;
                    v_unsealed_records := (v_unsealed_records v + 1)%N;
                    v_exports_checked := v_exports_checked v; v_chain := v_chain v;
                    v_problems := v_problems v |};
       previous := previous s; checkpoint_lines := checkpoint_lines s |}
  else
    match check_checkpoint r (previous s) with
    | (ps, _, None) =>
        {| report := {| v_records := (v_records v + 1)%N; v_checkpoints := (v_checkpoints v + 1)%N;
                        v_signed_checkpoints := v_signed_checkpoints v; v_last_seq := seq r;
                        v_sealed_through := v_sealed_through v;
                        v_unsealed_records := v_unsealed_records v;
                        v_exports_checked := v_exports_checked v; v_chain := v_chain v;
                        v_problems := v_problems v ++ ps |};
           previous := previous s; checkpoint_lines := checkpoint_lines s |}
    | (ps, signed, Some c) =>
        {| report := {| v_records := (v_records v + 1)%N; v_checkpoints := (v_checkpoints v + 1)%N;
                        v_signed_checkpoints :=
                          if signed then (v_signed_checkpoints v + 1)%N else v_signed_checkpoints v;
                        v_last_seq := seq r; v_sealed_through := Some (covers_to c);
                        v_unsealed_records := 0;
                        v_exports_checked := v_exports_checked v; v_chain := v_chain v;
                        v_problems := v_problems v ++ ps |};
           previous := Some (seq r);
           checkpoint_lines := checkpoint_lines s ++ [(seq r, line r)] |}
    end.

(** [binary_search_by_key] on the ascending, duplicate-free checkpoint list. *)
Definition find_checkpoint (cls : list (N * list byte)) (n : N) : option (list byte) :=
  snd <$> List.find (fun e => (fst e =? n)%N) cls.

(** The loop over the exported checkpoints: the problems, and the sequences
    vouched for. *)
Fixpoint check_exports (last_seq : N) (cls : list (N * list byte)) (exported : list (N * list byte))
    (previous_seq : option N) : list Problem * list N :=
  match exported with
  | [] => ([], [])
  | (n, l) :: rest =>
      if bool_decide (previous_seq = Some n) then
        let '(ps, cov) := check_exports last_seq cls rest previous_seq in (PExportDuplicate n :: ps, cov)
      else
        let '(ps, cov) := check_exports last_seq cls rest (Some n) in
        if (last_seq <? n)%N then (PExportBeyondJournal n last_seq :: ps, cov)
        else
          match find_checkpoint cls n with
          | None => (PExportMissingFromJournal n :: ps, cov)
          | Some l' => if bool_decide (l' <> l) then (PExportDiffers n :: ps, cov) else (ps, n :: cov)
          end
  end.

Definition export_problems (last_seq : N) (cls exported : list (N * list byte)) : list Problem :=
  let '(ps, covered) := check_exports last_seq cls exported None in
  ps ++ map (fun e => PExportMissing (fst e))
          (List.filter (fun e => negb (bool_decide (fst e ∈ covered))) cls).

(** [verify(journal, keys, exports)]; [exported] is [read_all] of the export
    directory, ascending by sequence. *)
Definition verify_journal (f : list byte) (exported : option (list (N * list byte))) : Verification :=
  let '(records, final, err) := read_journal f in
  let s := fold_left scan_record records scan_start in
  let v := add_problems (match err with Some e => [PUnreadable (read_error_display e)] | None => [] end)
             (report s) in
  let v := {| v_records := v_records v; v_checkpoints := v_checkpoints v;
              v_signed_checkpoints := v_signed_checkpoints v; v_last_seq := v_last_seq v;
              v_sealed_through := v_sealed_through v; v_unsealed_records := v_unsealed_records v;
              v_exports_checked :=
                match exported with Some l => N.of_nat (length l) | None => v_exports_checked v end;
              v_chain := label (pos_chain final); v_problems := v_problems v |} in
  match exported with
  | None => v
  | Some l => add_problems (export_problems (v_last_seq v) (checkpoint_lines s) l) v
  end.
End Verify.

(** ** Reading *)

Section ReadFacts.
Context `{Crypto} `{JournalCodec}.

Lemma read_lines_app p l1 l2 tail rs p1 :
  read_lines p l1 [] = (rs, p1, None) ->
  read_lines p (l1 ++ l2) tail =
    let '(rs2, last, err) := read_lines p1 l2 tail in (rs ++ rs2, last, err).
Proof.
  revert p rs; induction l1 as [|l l1 IH]; intros p rs; cbn [app read_lines].
  - intros [= <- <-]. by destruct (read_lines p l2 tail) as [[? ?] ?].
  - destruct (read_line p l) as [[r p']|]; [|done].
    destruct (read_lines p' l1 []) as [[rs1 last1] err1] eqn:E. intros [= <- -> ->].
    rewrite (IH p' rs1 E). by destruct (read_lines p1 l2 tail) as [[? ?] ?].
Qed.

(** What the records read from [p] on say about the lines they came from. *)
Lemma read_line_facts p l r p' :
  read_line p l = Ok (r, p') ->
  line r = l ++ [newline] /\ chain_before r = pos_chain p /\ seq r = next_seq p
  /\ next_seq p' = (next_seq p + 1)%N /\ pos_chain p' = extend (pos_chain p) (l ++ [newline])
  /\ offset p' = (offset p + N.of_nat (length (l ++ [newline])))%N.
Proof.
  unfold read_line. destruct (from_slice l) as [v|]; [|done].
  destruct (value_get v "seq" ≫= as_u64) as [n|]; [|done].
  destruct (value_get v "kind" ≫= as_str) as [k|]; [|done].
  destruct (N.eqb_spec n (next_seq p)) as [->|]; [|done]. cbn [negb]. by intros [= <- <-].
Qed.

(** Record [i] is the line after [i] others, with the chain over them. *)
Lemma read_lines_lookup p lines tail rs last err i r :
  read_lines p lines tail = (rs, last, err) -> rs !! i = Some r ->
  seq r = (next_seq p + N.of_nat i)%N
  /\ (exists l, lines !! i = Some l /\ line r = l ++ [newline])
  /\ chain_before r = chain_from (pos_chain p) (map (fun l => l ++ [newline]) (take i lines)).
Proof.
  revert p rs i; induction lines as [|l lines IH]; intros p rs i; cbn [read_lines]; [by intros [= <-]|].
  destruct (read_line p l) as [[r0 p']|e] eqn:E; [|by intros [= <-]].
  destruct (read_lines p' lines tail) as [[rs' last'] err'] eqn:E'. intros [= <- <- <-].
  apply read_line_facts in E as (El & Ec & Es & En & Ep & _).
  destruct i as [|i]; cbn [lookup list_lookup take map].
  - intros [= <-]. rewrite N.add_0_r. eauto 10.
  - intros Hi. destruct (IH p' rs' i E' Hi) as (Hs & Hl & Hc). rewrite Hs, Hc, En, Ep.
    split; [lia|]. done.
Qed.

Lemma read_lines_length p lines tail rs last :
  read_lines p lines tail = (rs, last, None) -> length rs = length lines.
Proof.
  revert p rs; induction lines as [|l lines IH]; intros p rs; cbn [read_lines]; [by intros [= <-]|].
  destruct (read_line p l) as [[r0 p']|]; [|done].
  destruct (read_lines p' lines tail) as [[rs' last'] err'] eqn:E'. intros [= <- -> ->].
  cbn. f_equal. by eapply IH.
Qed.

Lemma read_lines_position p lines rs last :
  read_lines p lines [] = (rs, last, None) ->
  last = {| next_seq := (next_seq p + N.of_nat (length lines))%N;
            offset := (offset p + N.of_nat (length (unlines lines)))%N;
            pos_chain := chain_from (pos_chain p) (map (fun l => l ++ [newline]) lines) |}.
Proof.
  revert p rs; induction lines as [|l lines IH]; intros p rs; cbn [read_lines].
  - intros [= _ <-]. destruct p. cbn. by rewrite !N.add_0_r.
  - destruct (read_line p l) as [[r0 p']|] eqn:E; [|done].
    destruct (read_lines p' lines []) as [[rs' last'] err'] eqn:E'. intros [= <- -> ->].
    apply read_line_facts in E as (_ & _ & _ & En & Ep & Eo). rewrite (IH _ _ E'), En, Ep, Eo.
    rewrite unlines_cons, !length_app. cbn [length map]. unfold chain_from. cbn [fold_left]. f_equal; lia.
Qed.
End ReadFacts.

(** ** The verifier on a log *)

Section LogFacts.
Context `{Crypto} `{SigningLib} `{JournalCodec}.
Context (policy : CheckpointPolicy) (Hlaws : codec_laws) (keys : list VerifyingKey).

(** The keys the verifier is given know the signing key, if any are given. *)
Definition keys_match : Prop :=
  keys = [] \/ exists key, signing_key policy = Some key /\ signing_laws /\ key_pair key
    /\ verifying_key key ∈ keys
    /\ forall k, k ∈ keys -> key_id k = key_id (verifying_key key) -> k = verifying_key key.

Lemma read_stamped p b v k :
  body_shape b = true -> from_slice b = Some v -> value_get v "seq" = None ->
  value_get v "kind" = Some (VString k) -> (next_seq p <= U64_MAX)%N ->
  exists v', read_line p (stamp (next_seq p) b)
    = Ok ({| seq := next_seq p; kind := k; value := v'; line := line_of (next_seq p) b;
             chain_before := pos_chain p |},
          {| next_seq := (next_seq p + 1)%N;
             offset := (offset p + N.of_nat (length (line_of (next_seq p) b)))%N;
             pos_chain := extend (pos_chain p) (line_of (next_seq p) b) |})
    /\ forall f, f <> "seq" -> value_get v' f = value_get v f.
Proof.
  intros Hs Hv Hseq Hk Hn. destruct (proj1 Hlaws (next_seq p) b v k Hn Hs Hv Hseq Hk) as (v' & Ev & Eseq & Ef).
  exists v'. split; [|done]. unfold read_line. rewrite Ev, Eseq. cbn [mbind option_bind as_u64].
  unfold to_string. rewrite parse_render_u64 by done. rewrite Ef, Hk by done. cbn [mbind option_bind as_str].
  by rewrite N.eqb_refl.
Qed.

Lemma make_checkpoint_fields s n ts :
  let c := make_checkpoint policy s n ts in
  cp_chain c = label (chain s) /\ covers_to c = (n - 1)%N /\ previous_checkpoint c = last_checkpoint s
  /\ covers_from c = match last_checkpoint s with Some q => (q + 1)%N | None => 1%N end.
Proof. unfold make_checkpoint. destruct (signing_key policy); done. Qed.

Lemma check_own_checkpoint r v' ts n :
  keys_match -> checkpoint_from_value v' = Ok (make_checkpoint policy (concrete r) n ts) ->
  exists signed, (keys <> [] -> signed = true) /\ check_checkpoint keys
    {| seq := n; kind := CHECKPOINT_KIND; value := v';
       line := line_of n (checkpoint_to_vec (make_checkpoint policy (concrete r) n ts));
       chain_before := rec_chain r |} (rec_last_checkpoint r)
    = ([], signed, Some (make_checkpoint policy (concrete r) n ts)).
Proof.
  intros Hk Hv. unfold check_checkpoint. cbn [value seq chain_before]. rewrite Hv.
  destruct (make_checkpoint_fields (concrete r) n ts) as (-> & -> & -> & ->).
  cbn [concrete chain last_checkpoint]. rewrite String.eqb_refl, !N.eqb_refl, bool_decide_eq_true_2 by done.
  cbn [negb orb]. destruct Hk as [->|(key & Ekey & Hsl & Hkp & Hin & Huniq)]; [by exists false|].
  unfold make_checkpoint. rewrite Ekey, sign_verify by done. destruct keys as [|k0 ks]; [|by exists true].
  by apply not_elem_of_nil in Hin.
Qed.

(** Reading a log gives one record per body and no error, and scanning them
    finds nothing wrong and counts what the writer counted. *)
Definition clean_scan (s : Scan) (r : Recovered) : Prop :=
  v_problems (report s) = [] /\ v_records (report s) = rec_last_seq r
  /\ v_last_seq (report s) = rec_last_seq r /\ v_unsealed_records (report s) = rec_since_checkpoint r
  /\ previous s = rec_last_checkpoint r
  /\ v_sealed_through (report s) = (fun n => (n - 1)%N) <$> rec_last_checkpoint r
  /\ (keys <> [] -> v_signed_checkpoints (report s) = v_checkpoints (report s)).

Lemma log_verifies bs r :
  keys_match -> log policy bs r ->
  exists rs, read_lines position_start (stamps 1 bs) []
    = (rs, {| next_seq := (rec_last_seq r + 1)%N; offset := N.of_nat (length (content bs));
              pos_chain := rec_chain r |}, None)
    /\ clean_scan (fold_left (scan_record keys) rs scan_start) r.
Proof.
  intros Hk. induction 1 as [|bs r b Hl IH Hb He|bs r ts Hl IH Hb].
  - exists []. done.
  - destruct IH as (rs & Hread & Hclean). pose proof He as (Hs & _ & v & k & Hv & Hseq & Hkind & Hne).
    destruct (read_stamped {| next_seq := (rec_last_seq r + 1)%N;
      offset := N.of_nat (length (content bs)); pos_chain := rec_chain r |} b v k) as (v' & Hline & _);
      [done..|]. cbn [next_seq offset pos_chain] in Hline.
    eexists. rewrite stamps_app, (read_lines_app _ _ _ _ _ _ Hread), (N.add_comm 1), <- (log_last _ _ _ Hl).
    cbn [stamps read_lines]. rewrite Hline. split.
    + f_equal. f_equal. unfold after_event. cbn [rec_last_seq rec_chain]. f_equal.
      rewrite content_snoc, <- (log_last _ _ _ Hl), length_app. lia.
    + rewrite fold_left_app. cbn [fold_left].
      generalize dependent (fold_left (scan_record keys) rs scan_start). intros s0 Hclean.
      unfold scan_record, is_checkpoint. cbn [kind].
      rewrite (proj2 (String.eqb_neq k CHECKPOINT_KIND) Hne). cbn [negb].
      destruct Hclean as (? & ? & ? & ? & ? & ? & ?). unfold clean_scan. cbn -[N.add]. split_and!; [congruence..|done].
  - destruct IH as (rs & Hread & Hclean). unfold checkpoint_body.
    set (c := make_checkpoint policy (concrete r) (rec_last_seq r + 1) ts).
    destruct (proj2 Hlaws c (log_checkpoint_fits policy bs r ts Hl Hb)) as (Hs & _ & v & Hv & Hseq & Hkind & Hback).
    destruct (read_stamped {| next_seq := (rec_last_seq r + 1)%N;
      offset := N.of_nat (length (content bs)); pos_chain := rec_chain r |} (checkpoint_to_vec c) v CHECKPOINT_KIND)
      as (v' & Hline & Hget); [done..|]. cbn [next_seq offset pos_chain] in Hline.
    eexists. rewrite stamps_app, (read_lines_app _ _ _ _ _ _ Hread), (N.add_comm 1), <- (log_last _ _ _ Hl).
    cbn [stamps read_lines]. rewrite Hline. split.
    + f_equal. f_equal. unfold after_checkpoint. cbn [rec_last_seq rec_chain]. f_equal.
      rewrite content_snoc, <- (log_last _ _ _ Hl), length_app. lia.
    + rewrite fold_left_app. cbn [fold_left].
      generalize dependent (fold_left (scan_record keys) rs scan_start). intros s0 Hclean.
      destruct Hclean as (Hpr & Hrec & Hlast & Hun & Hprev & _ & Hsig).
      destruct (check_own_checkpoint r v' ts (rec_last_seq r + 1) Hk (Hback v' Hget)) as (signed & Hsigned & Hcheck).
      unfold scan_record, is_checkpoint. cbn [kind]. rewrite String.eqb_refl. cbn [negb].
      rewrite Hprev. fold c in Hcheck. rewrite Hcheck. unfold clean_scan. cbn -[N.add N.sub].
      destruct (make_checkpoint_fields (concrete r) (rec_last_seq r + 1) ts) as (_ & Hto & _ & _).
      fold c in Hto. rewrite Hto, Hpr, Hrec. split_and!; try done. intros Hne. rewrite (Hsigned Hne), (Hsig Hne). done.
Qed.

Lemma lines_of_content bs r : log policy bs r -> lines_of (content bs) = (stamps 1 bs, []).
Proof.
  intros Hl. unfold content. rewrite <- (app_nil_r (unlines _)), lines_of_unlines by (by eapply log_stamps_clean).
  cbn. by rewrite app_nil_r.
Qed.
End LogFacts.

(** ** What a clean report means *)

Section ReportFacts.
Context `{Crypto} `{JournalCodec} (keys : list VerifyingKey).

Lemma verify_problems f exported rs last err :
  read_journal f = (rs, last, err) ->
  let s := fold_left (scan_record keys) rs scan_start in
  v_problems (verify_journal keys f exported) =
    (v_problems (report s)
     ++ match err with Some e => [PUnreadable (read_error_display e)] | None => [] end)
    ++ match exported with
       | Some l => export_problems (v_last_seq (report s)) (checkpoint_lines s) l
       | None => []
       end.
Proof.
  intros Hr s. unfold verify_journal. rewrite Hr. fold s.
  destruct exported; cbn [add_problems v_problems v_last_seq]; [done|]. by rewrite app_nil_r.
Qed.

Lemma scan_record_problems s r :
  v_problems (report (scan_record keys s r)) =
  v_problems (report s) ++ (if is_checkpoint r then (check_checkpoint keys r (previous s)).1.1 else []).
Proof.
  unfold scan_record. destruct (is_checkpoint r); cbn [negb]; [|by rewrite app_nil_r].
  by destruct (check_checkpoint keys r (previous s)) as [[ps signed] [c|]].
Qed.

Lemma scan_problems_nil rs s :
  v_problems (report (fold_left (scan_record keys) rs s)) = [] ->
  v_problems (report s) = []
  /\ forall r, r ∈ rs -> is_checkpoint r = true -> exists prev, (check_checkpoint keys r prev).1.1 = [].
Proof.
  revert s; induction rs as [|r rs IH]; intros s Hs; cbn [fold_left] in Hs.
  - split; [done|]. intros r Hr. by apply not_elem_of_nil in Hr.
  - apply IH in Hs as [Hs Hrs]. rewrite scan_record_problems in Hs. apply app_nil in Hs as [Hs Hr].
    split; [done|]. intros r'. rewrite elem_of_cons. intros [->|Hin]; [|by apply Hrs].
    intros Hcp. rewrite Hcp in Hr. by eexists.
Qed.

(** A checkpoint nothing is wrong with asserts the recomputed chain. *)
Lemma check_clean r prev :
  (check_checkpoint keys r prev).1.1 = [] ->
  exists c, checkpoint_from_value (value r) = Ok c /\ cp_chain c = label (chain_before r).
Proof.
  unfold check_checkpoint. destruct (checkpoint_from_value (value r)) as [c|]; [|done].
  destruct (match keys with [] => _ | _ => _ end) as [sp signed]. cbn [fst].
  intros Hnil. apply app_nil in Hnil as [Hc _]. exists c. split; [done|].
  destruct (String.eqb_spec (cp_chain c) (label (chain_before r))); done.
Qed.

Lemma scan_record_lines s r :
  checkpoint_lines (scan_record keys s r) =
  checkpoint_lines s ++
    (if is_checkpoint r then
       match checkpoint_from_value (value r) with Ok _ => [(seq r, line r)] | Err _ => [] end
     else []).
Proof.
  unfold scan_record. destruct (is_checkpoint r); cbn [negb]; [|by rewrite app_nil_r].
  unfold check_checkpoint. destruct (checkpoint_from_value (value r)) as [c|]; [|by rewrite app_nil_r].
  destruct (match keys with [] => _ | _ => _ end) as [sp signed]. done.
Qed.

Lemma scan_lines rs s n l :
  (n, l) ∈ checkpoint_lines (fold_left (scan_record keys) rs s) <->
  (n, l) ∈ checkpoint_lines s
  \/ exists r, r ∈ rs /\ is_checkpoint r = true /\ (exists c, checkpoint_from_value (value r) = Ok c)
       /\ seq r = n /\ line r = l.
Proof.
  revert s; induction rs as [|r rs IH]; intros s; cbn [fold_left].
  - split; [by left|]. intros [Hin|(r & Hr & _)]; [done|]. by apply not_elem_of_nil in Hr.
  - rewrite IH, scan_record_lines, elem_of_app. split.
    + intros [[Hin|Hin]|(r' & Hr & Hrest)]; [by left| |right; exists r'; set_solver].
      destruct (is_checkpoint r) eqn:Ecp; [|by apply not_elem_of_nil in Hin].
      destruct (checkpoint_from_value (value r)) as [c|] eqn:Ev; [|by apply not_elem_of_nil in Hin].
      apply list_elem_of_singleton in Hin as [= -> ->]. right. exists r. split; [set_solver|].
      split; [done|]. eauto.
    + intros [Hin|(r' & Hr & Hcp & (c & Hc) & Hs & Hl)]; [by left; left|].
      apply elem_of_cons in Hr as [->|Hr]; [|right; exists r'; eauto 10].
      left. right. rewrite Hcp, Hc, Hs, Hl. set_solver.
Qed.

Lemma find_checkpoint_elem cls n l : find_checkpoint cls n = Some l -> (n, l) ∈ cls.
Proof.
  unfold find_checkpoint. destruct (List.find _ cls) as [[n' l']|] eqn:E; [|done]. intros [= <-].
  apply List.find_some in E as [Hin Hn]. apply N.eqb_eq in Hn. cbn in Hn. subst n'.
  by apply list_elem_of_In.
Qed.

Lemma check_exports_clean last cls e prev covered :
  check_exports last cls e prev = ([], covered) ->
  (forall n l, (n, l) ∈ e -> (n <= last)%N /\ find_checkpoint cls n = Some l)
  /\ (forall n, n ∈ covered -> exists l, (n, l) ∈ e /\ find_checkpoint cls n = Some l).
Proof.
  revert prev covered; induction e as [|[n l] e IH]; intros prev covered; cbn [check_exports].
  - intros [= <-]. split; [intros n l Hin|intros n Hin]; by apply not_elem_of_nil in Hin.
  - destruct (bool_decide (prev = Some n)).
    { by destruct (check_exports last cls e prev). }
    destruct (check_exports last cls e (Some n)) as [ps cov] eqn:E.
    destruct (N.ltb_spec last n) as [Hlt|Hle]; [done|].
    destruct (find_checkpoint cls n) as [l'|] eqn:Ef; [|done].
    case_bool_decide as Hl; [done|]. intros [= -> <-].
    destruct (IH _ _ E) as [He Hcov]. split.
    + intros n0 l0. rewrite elem_of_cons. intros [[= -> ->]|Hin]; [|by apply He].
      split; [done|]. rewrite Ef. f_equal. destruct (decide (l' = l)); done.
    + intros n0. rewrite elem_of_cons. intros [->|Hin].
      * exists l. split; [by left|]. rewrite Ef. f_equal. destruct (decide (l' = l)); done.
      * apply Hcov in Hin as (l0 & Hin & Hf). exists l0. split; [by right|done].
Qed.

Lemma export_problems_clean last cls e :
  export_problems last cls e = [] ->
  (forall n l, (n, l) ∈ e -> (n <= last)%N /\ (n, l) ∈ cls)
  /\ (forall n l, (n, l) ∈ cls -> exists l', (n, l') ∈ e /\ (n, l') ∈ cls).
Proof.
  unfold export_problems. destruct (check_exports last cls e None) as [ps cov] eqn:E.
  intros Hnil. apply app_nil in Hnil as [-> Hmiss]. apply check_exports_clean in E as [He Hcov]. split.
  - intros n l Hin. destruct (He n l Hin) as [Hle Hf]. split; [done|]. by apply find_checkpoint_elem.
  - intros n l Hin. assert (Hc : n ∈ cov).
    { destruct (decide (n ∈ cov)) as [|Hno]; [done|]. exfalso.
      assert (Hf : (n, l) ∈ List.filter (fun e => negb (bool_decide (fst e ∈ cov))) cls).
      { apply list_elem_of_In, filter_In. rewrite <- list_elem_of_In. split; [done|].
        cbn. by rewrite bool_decide_eq_false_2. }
      destruct (List.filter _ cls); [by apply not_elem_of_nil in Hf|done]. }
    destruct (Hcov n Hc) as (l' & Hin' & Hf). exists l'. split; [done|]. by apply find_checkpoint_elem.
Qed.
End ReportFacts.

(** ** Claims *)

(** C19: The verifier accepts what the writer wrote.  For every reachable,
    healthy journal, offline verification with the public key of the signing
    key (or without keys) reports no problem, counts one record per sequence,
    and finds exactly the writer's chain value and number of unsealed records;
    with the key, every checkpoint it counts is one whose signature it
    verified. *)
Theorem verify_accepts_writer `{Crypto} `{SigningLib} `{JournalCodec} policy keys j :
  codec_laws -> keys_match policy keys -> reachable policy j -> poison j = None ->
  let v := verify_journal keys (file j) None in
  v_problems v = [] /\ v_records v = last_seq (state j) /\ v_last_seq v = last_seq (state j)
  /\ v_unsealed_records v = since_checkpoint (state j) /\ v_chain v = label (chain (state j))
  /\ v_sealed_through v = (fun n => (n - 1)%N) <$> last_checkpoint (state j)
  /\ (keys <> [] -> v_signed_checkpoints v = v_checkpoints v).
Proof.
  intros Hlaws Hk Hr Hp. apply (reachable_inv policy Hlaws) in Hr.
  destruct (inv_healthy policy j Hr Hp) as (bs & Hl & Hf & _).
  destruct (log_verifies policy Hlaws keys bs (abs (state j)) Hk Hl) as (rs & Hread & Hc1 & Hc2 & Hc3 & Hc4 & _ & Hc6 & Hc7).
  unfold verify_journal, read_journal. rewrite Hf, (lines_of_content policy Hlaws bs _ Hl), Hread.
  cbn [add_problems v_problems v_records v_last_seq v_unsealed_records v_chain v_sealed_through v_signed_checkpoints v_checkpoints pos_chain].
  rewrite Hc1. done.
Qed.

(** A checkpoint pins the whole journal before it.  If two files verify
    without problems and each holds a checkpoint carrying the same chain
    label, all lines before those checkpoints are equal, byte for byte - or
    SHA-256 has a collision.  A record edited, dropped, inserted or reordered
    before a checkpoint is therefore reported. *)
Theorem verified_checkpoint_pins_prefix `{Crypto} `{JournalCodec} keys f1 f2 e1 e2 rs1 rs2 p1 p2 i1 i2 r1 r2 c1 c2 :
  sha256_width ->
  v_problems (verify_journal keys f1 e1) = [] -> v_problems (verify_journal keys f2 e2) = [] ->
  read_journal f1 = (rs1, p1, None) -> read_journal f2 = (rs2, p2, None) ->
  rs1 !! i1 = Some r1 -> rs2 !! i2 = Some r2 -> is_checkpoint r1 = true -> is_checkpoint r2 = true ->
  checkpoint_from_value (value r1) = Ok c1 -> checkpoint_from_value (value r2) = Ok c2 ->
  cp_chain c1 = cp_chain c2 ->
  take i1 (lines_of f1).1 = take i2 (lines_of f2).1 \/ collision.
Proof.
  intros Hw Hv1 Hv2 Hr1 Hr2 Hi1 Hi2 Hk1 Hk2 Hc1 Hc2 Heq.
  assert (Hchain : forall f e rs p i r c, v_problems (verify_journal keys f e) = [] ->
    read_journal f = (rs, p, None) -> rs !! i = Some r -> is_checkpoint r = true ->
    checkpoint_from_value (value r) = Ok c ->
    cp_chain c = label (chain_of (map (fun l => l ++ [newline]) (take i (lines_of f).1)))).
  { intros f e rs p i r c Hv Hr Hi Hk Hc. rewrite (verify_problems keys f e rs p None Hr) in Hv.
    apply app_nil in Hv as [Hv _]. apply app_nil in Hv as [Hv _]. apply scan_problems_nil in Hv as [_ Hv].
    destruct (Hv r) as [prev Hclean]; [by eapply list_elem_of_lookup_2|done|].
    apply check_clean in Hclean as (c' & Hc' & Hch). rewrite Hc in Hc'. injection Hc' as <-. rewrite Hch.
    unfold read_journal in Hr. destruct (lines_of f) as [lines tail]. cbn [fst].
    apply (read_lines_lookup position_start lines tail rs p None i r) in Hr as (_ & _ & ->); [|done]. done. }
  rewrite (Hchain f1 e1 rs1 p1 i1 r1 c1), (Hchain f2 e2 rs2 p2 i2 r2 c2) in Heq by done.
  apply label_inj, chain_inj in Heq as [Heq|?]; [left|by right|done|..].
  - apply (f_equal (map (fun l => take (length l - 1) l))) in Heq. rewrite !map_map in Heq.
    assert (Hid : forall ls : list (list byte),
      map (fun l => take (length (l ++ [newline]) - 1) (l ++ [newline])) ls = ls).
    { intros ls. rewrite <- (map_id ls) at 2. apply map_ext. intros l. rewrite length_app. cbn [length].
      by rewrite Nat.add_sub, take_app_length. }
    by rewrite !Hid in Heq.
  - apply Forall_forall. intros l Hl. apply list_elem_of_In, in_map_iff in Hl as (x & <- & _). by exists x.
  - apply Forall_forall. intros l Hl. apply list_elem_of_In, in_map_iff in Hl as (x & <- & _). by exists x.
Qed.

(** A clean report with exports means journal and export hold the same
    checkpoints.  Verification against an export directory reports nothing
    only when the exported checkpoints are exactly the journal's, byte for
    byte: a journal truncated behind an exported checkpoint, an altered one,
    and a checkpoint whose copy is missing are all reported. *)
Theorem verify_exports_match `{Crypto} `{JournalCodec} keys f e :
  v_problems (verify_journal keys f (Some e)) = [] ->
  exists rs p, read_journal f = (rs, p, None)
    /\ forall n l, (n, l) ∈ e <-> exists r, r ∈ rs /\ is_checkpoint r = true /\ seq r = n /\ line r = l.
Proof.
  intros Hv. destruct (read_journal f) as [[rs p] err] eqn:Hr.
  rewrite (verify_problems keys f (Some e) rs p err Hr) in Hv.
  apply app_nil in Hv as [Hv Hex]. apply app_nil in Hv as [Hv Herr]. destruct err; [done|].
  apply export_problems_clean in Hex as [He Hcov]. apply scan_problems_nil in Hv as [_ Hv].
  exists rs, p. split; [done|]. intros n l. split.
  - intros Hin. apply He in Hin as [_ Hin]. apply scan_lines in Hin as [Hin|(r & ? & ? & _ & ? & ?)].
    + by apply not_elem_of_nil in Hin.
    + by exists r.
  - intros (r & Hin & Hcp & <- & <-). destruct (Hv r Hin Hcp) as [prev Hclean].
    apply check_clean in Hclean as (c & Hc & _).
    destruct (Hcov (seq r) (line r)) as (l' & Hl' & Hin').
    { apply scan_lines. right. exists r. eauto 10. }
    apply scan_lines in Hin' as [Hin'|(r' & Hin' & _ & _ & Hs & <-)]; [by apply not_elem_of_nil in Hin'|].
    assert (r' = r) as ->; [|done].
    apply list_elem_of_lookup in Hin as [i Hi], Hin' as [i' Hi']. unfold read_journal in Hr.
    destruct (lines_of f) as [lines tail].
    destruct (read_lines_lookup _ _ _ _ _ _ i r Hr Hi) as (Hsi & _).
    destruct (read_lines_lookup _ _ _ _ _ _ i' r' Hr Hi') as (Hsi' & _).
    assert (i = i') as <- by lia. congruence.
Qed.

(** Resuming is reading on.  A reader resumed at the position after a
    prefix of the records, as a forwarder does after a restart, yields exactly
    the remaining records, the same final position and the same error. *)
Theorem reader_resume_continues `{Crypto} `{JournalCodec} lines1 lines2 tail rs1 p :
  Forall (fun l => newline ∉ l) lines1 -> Forall (fun l => newline ∉ l) lines2 -> newline ∉ tail ->
  read_lines position_start lines1 [] = (rs1, p, None) ->
  let f := unlines (lines1 ++ lines2) ++ tail in
  exists rs2 last err, resume f p = Ok (rs2, last, err) /\ read_journal f = (rs1 ++ rs2, last, err).
Proof.
  intros H1 H2 Ht Hread f. pose proof (read_lines_position _ _ _ _ Hread) as Hp.
  assert (Hoff : N.to_nat (offset p) = length (unlines lines1)) by (rewrite Hp; cbn [offset position_start]; lia).
  unfold resume, read_journal, f. rewrite unlines_app, <- app_assoc.
  rewrite (proj2 (N.ltb_ge _ _)) by (rewrite length_app; lia).
  rewrite Hoff, drop_app_length. rewrite !lines_of_unlines by done.
  rewrite (lines_of_tail tail Ht). cbn [fst snd]. rewrite !app_nil_r.
  rewrite (read_lines_app _ _ _ _ _ _ Hread). destruct (read_lines p lines2 tail) as [[rs2 last] err]. eauto 10.
Qed.
