(* ===== verification/JournalExample.v ===== *)
(** * A concrete codec and a concrete journal

    The interface [JournalCodec] instantiated by a small executable format in
    which its laws hold, and runs of the journal on it: the evidence that the
    journal's theorems are about something. *)
From stdpp Require Import countable.
From S2P Require Import Prelude RustStr Json PolicyTypes Signing Chain Journal Verify.

(** ** Checkpoints as bit strings *)

#[global] Instance Checkpoint_countable : Countable Checkpoint.
Proof.
  refine (inj_countable'
    (fun c => (cp_timestamp c, covers_from c, covers_to c, cp_chain c, previous_checkpoint c,
               cp_key_id c, cp_signature c))
    (fun '(a, b, c, d, e, f, g) => Build_Checkpoint a b c d e f g) _).
  by intros [].
Defined.

Definition zero : byte := byte_of 48.
Definition one : byte := byte_of 49.

Fixpoint bits (p : positive) : list byte :=
  match p with
  | xH => []
  | xO p' => zero :: bits p'
  | xI p' => one :: bits p'
  end.

Fixpoint unbits (l : list byte) : positive :=
  match l with
  | [] => xH
  | b :: l' => if beqb b one then xI (unbits l') else xO (unbits l')
  end.

Lemma unbits_bits p : unbits (bits p) = p.
Proof. induction p; cbn; try (by rewrite IHp); done. Qed.

Lemma bits_no_newline p : newline ∉ bits p.
Proof.
  induction p; cbn; rewrite ?not_elem_of_cons; [split; [done|done]..|]. apply not_elem_of_nil.
Qed.

(** ** The format: [{E}] is an event, [{C<bits>] a checkpoint, with or without
    a spliced [seq]. *)

Definition brace : byte := byte_of 123.
Definition event_text : list byte := as_bytes "{E}".
Definition seq_prefix : list byte :=
  as_bytes "{" ++ [dquote] ++ as_bytes "seq" ++ [dquote] ++ as_bytes ":".

Definition fields (l : list byte) : option JsonMap :=
  if bool_decide (l = event_text) then Some [("kind", VString "event")]
  else match l with
       | a :: c :: rest =>
           if beqb a brace && beqb c (byte_of 67)
           then Some [("kind", VString CHECKPOINT_KIND); ("bits", VString (of_bytes rest))]
           else None
       | _ => None
       end.

Definition toy_from_slice (l : list byte) : option Value :=
  match strip_prefix_bytes seq_prefix l with
  | Some rest =>
      match split_once_bytes comma rest with
      | Some (digits, tail) =>
          (fun fs => VObject (("seq", VNumber (of_bytes digits)) :: fs)) <$> fields (brace :: tail)
      | None => None
      end
  | None => VObject <$> fields l
  end.

Definition toy_to_vec (c : Checkpoint) : list byte := brace :: byte_of 67 :: bits (encode c) ++ [zero].

Definition toy_from_value (v : Value) : result Checkpoint string :=
  match value_get v "bits" with
  | Some (VString s) =>
      match decode (unbits (removelast (as_bytes s))) with Some c => Ok c | None => Err "no checkpoint" end
  | _ => Err "no checkpoint"
  end.

#[global] Instance toy_codec : JournalCodec :=
  {| from_slice := toy_from_slice; checkpoint_to_vec := toy_to_vec; checkpoint_from_value := toy_from_value |}.

Lemma strip_seq_prefix rest : strip_prefix_bytes seq_prefix (seq_prefix ++ rest) = Some rest.
Proof.
  unfold strip_prefix_bytes. rewrite (proj2 (starts_with_bytes_spec _ _)) by (by eexists).
  by rewrite drop_app_length.
Qed.

Lemma toy_fields_get fs k :
  k <> "seq" -> forall n, value_get (VObject (("seq", n) :: fs)) k = value_get (VObject fs) k.
Proof.
  intros Hk n. cbn [value_get]. unfold map_get. cbn [List.find fst].
  by rewrite (proj2 (String.eqb_neq "seq" k)).
Qed.

Lemma toy_stamped n b v :
  body_shape b = true -> from_slice b = Some v -> value_get v "seq" = None ->
  exists v', from_slice (stamp n b) = Some v'
    /\ value_get v' "seq" = Some (VNumber (to_string n))
    /\ forall k, k <> "seq" -> value_get v' k = value_get v k.
Proof.
  intros Hs Hv Hn. cbn [from_slice toy_codec] in *.
  assert (Hf : exists fs, fields b = Some fs /\ v = VObject fs).
  { unfold toy_from_slice in Hv. destruct (strip_prefix_bytes seq_prefix b) as [rest|].
    - destruct (split_once_bytes comma rest) as [[digits tail]|]; [|done].
      destruct (fields (brace :: tail)); [|done]. injection Hv as <-. done.
    - destruct (fields b) as [fs|]; [|done]. injection Hv as <-. by exists fs. }
  destruct Hf as (fs & Hf & ->). unfold body_shape in Hs. apply negb_true_iff, orb_false_iff in Hs as [_ Hs].
  apply negb_false_iff, bool_decide_eq_true in Hs. destruct b as [|x b]; [done|].
  assert (x = brace) as -> by (injection Hs; done).
  assert (Hst : stamp n (brace :: b) = seq_prefix ++ render_u64 n ++ comma :: b).
  { unfold stamp, seq_prefix. by rewrite <- !app_assoc. }
  rewrite Hst. unfold toy_from_slice. rewrite strip_seq_prefix, split_once_bytes_first.
  - rewrite Hf. eexists. split; [reflexivity|]. split; [done|].
    intros k Hk. by apply toy_fields_get.
  - intros Hin. pose proof (render_u64_digits n) as Hd. rewrite Forall_forall in Hd.
    apply Hd in Hin. by vm_compute in Hin.
Qed.

Lemma toy_checkpoint c :
  body_shape (checkpoint_to_vec c) = true /\ newline ∉ checkpoint_to_vec c
  /\ exists v, from_slice (checkpoint_to_vec c) = Some v /\ value_get v "seq" = None
     /\ value_get v "kind" = Some (VString CHECKPOINT_KIND)
     /\ forall v', (forall k, k <> "seq" -> value_get v' k = value_get v k) ->
          checkpoint_from_value v' = Ok c.
Proof.
  cbn [checkpoint_to_vec from_slice checkpoint_from_value toy_codec].
  split; [|split].
  - unfold body_shape, toy_to_vec. cbn [length head]. rewrite length_app. cbn [length].
    rewrite bool_decide_eq_true_2 by done. cbn [negb orb]. rewrite orb_false_r.
    apply negb_true_iff, Nat.ltb_ge. lia.
  - unfold toy_to_vec. rewrite !not_elem_of_cons, not_elem_of_app, not_elem_of_cons.
    split; [done|]. split; [done|]. split; [apply bits_no_newline|]. split; [done|apply not_elem_of_nil].
  - exists (VObject [("kind", VString CHECKPOINT_KIND); ("bits", VString (of_bytes (bits (encode c) ++ [zero])))]).
    split; [reflexivity|]. split; [reflexivity|]. split; [reflexivity|]. intros v' Hv'.
    unfold toy_from_value. rewrite Hv' by done. cbn [value_get map_get].
    change (map_get _ "bits") with (Some (VString (of_bytes (bits (encode c) ++ [zero])))). cbn iota.
    rewrite as_of_bytes, removelast_last, unbits_bits, decode_encode. done.
Qed.

Lemma toy_codec_laws : codec_laws.
Proof. split; [intros n b v k _ Hs Hv Hn _; by apply toy_stamped|intros c _; apply toy_checkpoint]. Qed.

(** ** A run *)

Section Run.
#[local] Existing Instance ChainWitness.toy_crypto.
#[local] Instance toy_signing : SigningLib :=
  {| base64_encode := of_bytes; ed25519_sign := fun _ _ => replicate 64 zero |}.

Definition request (n : nat) : WriteRequest := {| body := event_text; ack := n |}.
Definition good_turn : Turn :=
  {| now := 0; timestamp := "t"; io_batch := IoOk; io_checkpoint := IoOk; export_ok := true |}.
Definition torn_turn : Turn :=
  {| now := 0; timestamp := "t"; io_batch := IoFailed 5 "disk full"; io_checkpoint := IoOk; export_ok := true |}.

Definition fresh : Journal :=
  match open_journal [] 0 [] [] with Ok j => j | Err _ => {| file := []; state := concrete recovered_start;
    poison := None; queue := []; acks := []; exports := [] |} end.

Definition enqueue (j : Journal) (n : nat) : Journal := with_queue j (queue j ++ [MRecord (request n)]).

(** Two records acknowledged, then a write torn after five bytes. *)
Definition two : Journal := turn policy_unsigned (enqueue (enqueue fresh 1) 2) good_turn.
Definition torn : Journal := turn policy_unsigned (enqueue two 3) torn_turn.

Lemma event_text_body : event_body event_text.
Proof.
  split; [reflexivity|]. split; [apply (bool_decide_unpack _); vm_compute; exact I|].
  exists (VObject [("kind", VString "event")]), "event". done.
Qed.

Lemma reachable_fresh : reachable policy_unsigned fresh.
Proof. apply (reach_new policy_unsigned 0). reflexivity. Qed.

Lemma reachable_enqueue j n :
  reachable policy_unsigned j -> length (queue j) < WRITE_QUEUE_DEPTH -> reachable policy_unsigned (enqueue j n).
Proof. intros Hj Hq. apply reach_record; [done|done|apply event_text_body]. Qed.

Lemma room (n : nat) : n < 8 -> n < WRITE_QUEUE_DEPTH.
Proof. unfold WRITE_QUEUE_DEPTH. lia. Qed.

Lemma reachable_two : reachable policy_unsigned two.
Proof.
  apply reach_turn, reachable_enqueue; [apply reachable_enqueue; [apply reachable_fresh|]|];
    apply room; cbn; lia.
Qed.

Lemma reachable_torn : reachable policy_unsigned torn.
Proof.
  apply reach_turn, reachable_enqueue; [apply reachable_two|]. apply room.
  assert (queue two = []) as -> by (vm_compute; reflexivity). cbn. lia.
Qed.

Lemma journal_acknowledged_durable_witness :
  acked (acks torn) = [(request 1, 1%N); (request 2, 2%N)]
  /\ exists i, 2%N = N.of_nat (S i) /\ (lines_of (file torn)).1 !! i = Some (stamp 2 (body (request 2))).
Proof.
  split; [vm_compute; reflexivity|].
  apply (journal_acknowledged_durable policy_unsigned torn toy_codec_laws reachable_torn).
  vm_compute. right. left.
Defined.

Lemma journal_recovers_witness :
  exists r f', recover (file torn) = Ok (r, f') /\ f' `prefix_of` file torn
    /\ length (lines_of f').1 = N.to_nat (rec_last_seq r)
    /\ (forall w n, (w, n) ∈ acked (acks torn) -> (1 <= n <= rec_last_seq r)%N)
    /\ (poison torn = None -> f' = file torn /\ r = abs (state torn)).
Proof.
  apply (journal_recovers policy_unsigned torn toy_codec_laws reachable_torn).
  vm_compute. reflexivity.
Defined.

Lemma journal_poison_is_final_witness :
  file (turn policy_unsigned (enqueue torn 4) good_turn) = file (enqueue torn 4).
Proof.
  apply (journal_poison_is_final policy_unsigned (enqueue torn 4) good_turn "disk full").
  vm_compute. reflexivity.
Defined.

(** A clean close seals the two records with a checkpoint. *)
Definition sealed : Journal := close policy_unsigned two good_turn.
Definition sealed_read := read_journal (file sealed).
Definition sealed_record : Record_ :=
  default {| seq := 0; kind := ""; value := VNull; line := []; chain_before := [] |} (sealed_read.1.1 !! 2).
Definition sealed_checkpoint : Checkpoint :=
  match checkpoint_from_value (value sealed_record) with
  | Ok c => c
  | Err _ => checkpoint_new 0 0 [] None ""
  end.

Lemma verified_checkpoint_pins_prefix_witness :
  take 2 (lines_of (file sealed)).1 = take 2 (lines_of (file sealed)).1 \/ collision.
Proof.
  apply (verified_checkpoint_pins_prefix [] (file sealed) (file sealed) None None
    sealed_read.1.1 sealed_read.1.1 sealed_read.1.2 sealed_read.1.2 2 2 sealed_record sealed_record
    sealed_checkpoint sealed_checkpoint ChainWitness.toy_width); vm_compute; reflexivity.
Defined.

Lemma verify_exports_match_witness :
  exists rs p, read_journal (file sealed) = (rs, p, None)
    /\ forall n l, (n, l) ∈ [(3%N, line sealed_record)]
       <-> exists r, r ∈ rs /\ is_checkpoint r = true /\ seq r = n /\ line r = l.
Proof.
  apply (verify_exports_match [] (file sealed) [(3%N, line sealed_record)]). vm_compute. reflexivity.
Defined.

Lemma reader_resume_continues_witness :
  let f := unlines ([stamp 1 event_text] ++ [stamp 2 event_text]) ++ as_bytes "torn" in
  exists rs2 last err,
    resume f (read_lines position_start [stamp 1 event_text] []).1.2 = Ok (rs2, last, err)
    /\ read_journal f = ((read_lines position_start [stamp 1 event_text] []).1.1 ++ rs2, last, err).
Proof.
  apply (reader_resume_continues [stamp 1 event_text] [stamp 2 event_text] (as_bytes "torn")
    (read_lines position_start [stamp 1 event_text] []).1.1
    (read_lines position_start [stamp 1 event_text] []).1.2).
  - apply Forall_cons. split; [|constructor]. apply (bool_decide_unpack _). vm_compute. exact I.
  - apply Forall_cons. split; [|constructor]. apply (bool_decide_unpack _). vm_compute. exact I.
  - apply (bool_decide_unpack _). vm_compute. exact I.
  - vm_compute. reflexivity.
Defined.
End Run.

(** ** A signed run

    A signer whose signatures depend on the key and on every byte of the
    message, and an encoding that survives trimming. *)
Module Signed.

Definition mark : byte := byte_of 120.

(** A running checksum of a message. *)
Definition checksum (l : list byte) : byte :=
  fold_left (fun acc b => byte_of ((3 * code acc + code b) mod 256)%N) l (byte_of 7).

Definition toy_sign (k m : list byte) : list byte := replicate 64 (checksum (k ++ m)).

Definition frame_encode (l : list byte) : string := of_bytes (mark :: l ++ [mark]).
Definition frame_decode (s : string) : option (list byte) :=
  match as_bytes s with
  | a :: rest => if beqb a mark then Some (removelast rest) else None
  | [] => None
  end.

#[local] Instance checked_crypto : Crypto :=
  {| sha256 := @sha256 ChainWitness.toy_crypto; base64_decode := frame_decode;
     ed25519_verify := fun key m sig => bool_decide (sig = toy_sign key m) |}.
#[local] Instance checked_signing : SigningLib :=
  {| base64_encode := frame_encode; ed25519_sign := toy_sign |}.

Lemma frame_not_ws2 b : ws2 mark b = false /\ ws2 b mark = false.
Proof.
  pose proof (byte_forall (fun b => negb (ws2 mark b) && negb (ws2 b mark)) ltac:(vm_compute; reflexivity) b) as Hb.
  cbn beta in Hb. apply andb_true_iff in Hb as [?%negb_true_iff ?%negb_true_iff]. done.
Qed.

Lemma frame_trimmed l : trim (frame_encode l) = frame_encode l.
Proof.
  unfold trim, frame_encode, trim_end_bytes. rewrite as_of_bytes, trim_start_fixed.
  - rewrite trim_end_fixed; [by rewrite rev_involutive|].
    rewrite app_comm_cons, rev_app_distr. generalize (rev (mark :: l)). intros rest. cbn [rev app last_ws].
    destruct rest as [|x [|y r]]; [done|..]; rewrite (proj2 (frame_not_ws2 x)); [done|].
    unfold ws3. cbn [code]. by rewrite ?andb_false_r.
  - cbn [app head_ws]. destruct (l ++ [mark]) as [|x [|y r]]; [done|..]; by rewrite (proj1 (frame_not_ws2 x)).
Qed.

Lemma checked_signing_laws : signing_laws.
Proof.
  split.
  - intros l. cbn [base64_decode base64_encode checked_crypto checked_signing]. rewrite frame_trimmed.
    unfold frame_decode, frame_encode. rewrite as_of_bytes. cbn [app]. rewrite beqb_refl. by rewrite removelast_last.
  - intros k m. apply length_replicate.
Qed.

Definition signer : SigningKey := {| secret := as_bytes "k"; verifying_key := {| key_bytes := as_bytes "k" |} |}.
Definition stranger : VerifyingKey := {| key_bytes := as_bytes "j" |}.

Lemma signer_pair : key_pair signer.
Proof. intros m. by apply bool_decide_eq_true_2. Qed.

(** A checkpoint after every second record. *)
Definition policy_signed : CheckpointPolicy :=
  {| every_records := 2; every_seconds := 60; signing_key := Some signer; export := false |}.

Definition start : Journal :=
  match open_journal [] 0 [] [] with Ok j => j | Err _ => {| file := []; state := concrete recovered_start;
    poison := None; queue := []; acks := []; exports := [] |} end.
Definition signed_two : Journal := turn policy_signed (enqueue (enqueue start 1) 2) good_turn.
Definition signed_three : Journal := turn policy_signed (enqueue signed_two 3) good_turn.

Lemma reachable_signed : reachable policy_signed signed_three.
Proof.
  assert (Hq : forall j n, reachable policy_signed j -> length (queue j) < WRITE_QUEUE_DEPTH ->
             reachable policy_signed (enqueue j n)).
  { intros j n Hj Hl. apply reach_record; [done|done|apply event_text_body]. }
  apply reach_turn, Hq; [apply reach_turn, Hq; [apply Hq; [by apply (reach_new policy_signed 0)|]|]|];
    apply room; [cbn; lia|cbn; lia|].
  assert (queue signed_two = []) as -> by (vm_compute; reflexivity). cbn. lia.
Qed.

(** The signature of the one checkpoint is verified; another key's owner is
    told that the signer is unknown. *)
Lemma verify_accepts_writer_witness :
  let v := verify_journal [verifying_key signer] (file signed_three) None in
  v_problems v = [] /\ v_records v = 4%N /\ v_sealed_through v = Some 2%N /\ v_unsealed_records v = 1%N
  /\ v_signed_checkpoints v = v_checkpoints v.
Proof.
  assert (Hp : poison signed_three = None) by (vm_compute; reflexivity).
  destruct (verify_accepts_writer policy_signed [verifying_key signer] signed_three toy_codec_laws) as
    (Hv & Hr & _ & Hu & _ & Hs & Hsig); [right|exact reachable_signed|exact Hp|].
  { exists signer. split; [reflexivity|]. split; [exact checked_signing_laws|]. split; [exact signer_pair|].
    split; [by apply list_elem_of_singleton|]. intros k Hk _. by apply list_elem_of_singleton in Hk. }
  cbv zeta. split; [exact Hv|]. rewrite Hr, Hs, Hu. split; [vm_compute; reflexivity|].
  split; [vm_compute; reflexivity|]. split; [vm_compute; reflexivity|]. by apply Hsig.
Defined.

Example stranger_refused : length (v_problems (verify_journal [stranger] (file signed_three) None)) = 1.
Proof. vm_compute. reflexivity. Qed.

Example one_checkpoint :
  v_checkpoints (verify_journal [verifying_key signer] (file signed_three) None) = 1%N.
Proof. vm_compute. reflexivity. Qed.
End Signed.
