(* ===== verification/Forward.v ===== *)
(** * Forwarding the journal (src/src/audit/forward/mod.rs, src/src/ports/audit_forwarder.rs)

    The shipper reads complete records past its cursor, hands them to a
    forwarder and, only once they are acknowledged, persists the cursor and
    moves it.  The forwarder is an interface with its promise as laws; the
    in-memory one of the port is an instance.  The theorems are about the whole
    system: the journal's writer with its crashes, and the shipper with its
    failures and restarts, in any interleaving. *)
From stdpp Require Import countable.
From S2P Require Import Prelude RustStr Json PolicyTypes Signing Bundle Config Chain Journal Verify JournalExample.

(** ** The port *)
Record ForwardRecord := {
  fr_seq : N;
  fr_kind : string;
  fr_timestamp : option string;
  fr_adverse : bool;
  fr_json : list byte;
}.

Record ForwardError := { fe_category : string; fe_detail : string }.

Definition UNREACHABLE : string := "receiver_unreachable".
Definition REJECTED : string := "receiver_rejected".
Definition TIMEOUT : string := "receiver_timeout".
Definition INTERRUPTED : string := "delivery_interrupted".

Definition MAX_DETAIL : nat := 256.

Definition forward_error (category detail : string) : ForwardError :=
  {| fe_category := category;
     fe_detail := if (MAX_DETAIL <? str_len detail)%nat
                  then let l := as_bytes detail in of_bytes (take (char_boundary_below l MAX_DETAIL) l ++ ellipsis)
                  else detail |}.

Definition forward_error_text (e : ForwardError) : string :=
  if str_is_empty (fe_detail e) then fe_category e else (fe_category e ++ ": " ++ fe_detail e)%string.

Class AuditForwarder (F : Type) := {
  deliver : list ForwardRecord -> F -> F * result unit ForwardError;
}.

(** What acknowledgement means: every record of the batch reached the
    receiver, which forgets nothing. *)
Class ForwarderLaws (F : Type) `{AuditForwarder F} := {
  received : F -> list ForwardRecord;
  received_grows : forall batch f r, r ∈ received f -> r ∈ received (deliver batch f).1;
  received_acked : forall batch f, (deliver batch f).2 = Ok tt -> forall r, r ∈ batch -> r ∈ received (deliver batch f).1;
}.

(** [InMemoryAuditForwarder]. *)
Record InMemoryForwarder := {
  mem_received : list ForwardRecord;
  mem_refuse : N;
  mem_down : bool;
  mem_deliveries : N;
}.

Definition mem_deliver (batch : list ForwardRecord) (f : InMemoryForwarder)
    : InMemoryForwarder * result unit ForwardError :=
  let counted refuse got :=
    {| mem_received := got; mem_refuse := refuse; mem_down := mem_down f; mem_deliveries := (mem_deliveries f + 1)%N |} in
  if mem_down f then (counted (mem_refuse f) (mem_received f), Err (forward_error UNREACHABLE "receiver is down"))
  else if (0 <? mem_refuse f)%N
  then (counted (mem_refuse f - 1)%N (mem_received f), Err (forward_error UNREACHABLE "receiver refused the batch"))
  else (counted (mem_refuse f) (mem_received f ++ batch), Ok tt).

#[export] Instance mem_forwarder : AuditForwarder InMemoryForwarder := {| deliver := mem_deliver |}.

#[export] Instance mem_forwarder_laws : ForwarderLaws InMemoryForwarder.
Proof.
  refine {| received := mem_received |}; cbn; unfold mem_deliver; intros batch f.
  - intros r Hr. destruct (mem_down f); [done|]. destruct (_ <? _)%N; [done|]. cbn. apply elem_of_app. by left.
  - destruct (mem_down f); [done|]. destruct (_ <? _)%N; [done|]. cbn. intros _ r Hr. apply elem_of_app. by right.
Defined.

(** ** Cursors *)
Record Cursor := {
  acknowledged : N;
  cur_offset : N;
  cur_chain : string;
  cur_journal : string;
}.

(** serde_json on the cursor file. *)
Class CursorCodec := {
  cursor_to_vec : Cursor -> list byte;
  cursor_from_slice : list byte -> option Cursor;
}.

(** A journal that cannot be read. *)
Inductive JournalError := JRead (e : ReadError) | JIo (e : string).

Inductive ShipError :=
| ShipJournal (e : JournalError)
| ShipDeliver (e : ForwardError)
| ShipCursor (e : string).

Definition ship_category (e : ShipError) : string :=
  match e with
  | ShipJournal _ => "journal_unreadable"
  | ShipDeliver e => fe_category e
  | ShipCursor _ => "cursor_unwritable"
  end.

Record Round := { forwarded : N; caught_up : bool }.

Section Cursors.
Context `{Crypto}.

Definition cursor_fresh (journal : string) : Cursor :=
  {| acknowledged := 0; cur_offset := 0; cur_chain := label genesis; cur_journal := journal |}.

Definition cursor_position (c : Cursor) : option Position :=
  next ← checked_add (acknowledged c) 1;
  ch ← chain_parse (cur_chain c);
  Some {| next_seq := next; offset := cur_offset c; pos_chain := ch |}.

Definition cursor_from_position (p : Position) (journal : string) : Cursor :=
  {| acknowledged := (next_seq p - 1)%N; cur_offset := offset p; cur_chain := label (pos_chain p);
     cur_journal := journal |}.
End Cursors.

(** ** Reading a batch *)

(** What the journal file looks like to one round: missing, not readable, its
    bytes, or bytes that break off with an error. *)
Inductive JournalFile :=
| FMissing
| FUnreadable (e : string)
| FBytes (f : list byte)
| FBreaks (f : list byte) (e : string).

Section Batch.
Context `{Crypto} `{JournalCodec}.

(** The loop of [read_batch] over the complete lines; [broken] is the error
    after them, if any.  A torn tail ends it like the end of the file. *)
Fixpoint batch_loop (room : nat) (p : Position) (lines : list (list byte)) (broken : option string)
    : result (list Record_ * Position * bool) JournalError :=
  match lines with
  | [] => match broken with Some e => Err (JIo e) | None => Ok ([], p, true) end
  | l :: rest =>
      match read_line p l with
      | Err e => Err (JRead e)
      | Ok (r, p') =>
          if (room =? 1)%nat then Ok ([r], p', false)
          else let? '(rs, q, up) := batch_loop (pred room) p' rest broken in Ok (r :: rs, q, up)
      end
  end.

Definition read_from (f : list byte) (broken : option string) (p : Position) (batch : nat)
    : result (option (list Record_ * Position * bool)) JournalError :=
  if (N.of_nat (length f) <? offset p)%N then Err (JIo "journal is shorter than the resume offset")
  else
    let lines := (lines_of (drop (N.to_nat (offset p)) f)).1 in
    let? '(rs, q, up) := batch_loop batch p lines broken in
    Ok (match rs with [] => None | _ => Some (rs, q, up) end).

Definition read_batch (v : JournalFile) (p : Position) (batch : nat)
    : result (option (list Record_ * Position * bool)) JournalError :=
  match v with
  | FMissing => Ok None
  | FUnreadable e => Err (JIo e)
  | FBytes f => read_from f None p batch
  | FBreaks f e => read_from f (Some e) p batch
  end.

Definition ends_with (s suffix : string) : bool :=
  let l := as_bytes s in let x := as_bytes suffix in
  (length x <=? length l)%nat && bool_decide (drop (length l - length x) l = x).

Definition is_adverse (r : Record_) : bool :=
  ends_with (kind r) "_rejected" || String.eqb (kind r) "egress_decision"
  || bool_decide ((value_get (value r) "decision" ≫= (fun d => value_get d "effect")) ≫= as_str = Some "deny"%string).

(** [line.strip_suffix(b"\n").unwrap_or(line)]. *)
Definition strip_newline (l : list byte) : list byte :=
  match last l with
  | Some b => if beqb b newline then removelast l else l
  | None => l
  end.

Definition view (r : Record_) : ForwardRecord :=
  {| fr_seq := seq r; fr_kind := kind r; fr_timestamp := record_timestamp r; fr_adverse := is_adverse r;
     fr_json := strip_newline (line r) |}.
End Batch.

(** ** The shipper *)
Record Shipper := { sh_journal : string; sh_cursor : Cursor; sh_batch : nat }.

Definition SHIP_MAX_BATCH : nat := 4096.

(** How the cursor write ends: done; failed before the rename; or its task was
    lost after the rename, so that the file is there and the caller gets an
    error. *)
Inductive CursorWrite := CwDone | CwFailed (e : string) | CwLost (e : string).

(** What one call of [forward_batch] meets. *)
Record RoundEnv := {
  re_file : JournalFile;
  re_read : result unit string;
  re_write : CursorWrite;
}.

(** The shipper, the cursor file and the receiver. *)
Record World (F : Type) := { w_shipper : Shipper; w_cursor_file : option (list byte); w_receiver : F }.
Arguments w_shipper {F} _. Arguments w_cursor_file {F} _. Arguments w_receiver {F} _.
Arguments Build_World {F} _ _ _.

Section Shipping.
Context `{Crypto} `{JournalCodec} `{CursorCodec} `{AuditForwarder F}.
Implicit Type w : World F.

(** [load_cursor]: [readable] says whether an existing file can be read. *)
Definition load_cursor (cursor_file : option (list byte)) (readable : bool) (journal : string) : Cursor :=
  match cursor_file with
  | Some bytes =>
      if negb readable then cursor_fresh journal
      else
        match cursor_from_slice bytes with
        | Some c =>
            if String.eqb (cur_journal c) journal && bool_decide (is_Some (cursor_position c)) then c
            else cursor_fresh journal
        | None => cursor_fresh journal
        end
  | None => cursor_fresh journal
  end.

(** [Shipper::open]: [probe] is whether the state directory is writable. *)
Definition shipper_open (probe : result unit string) (readable : bool) (journal : string) (batch : nat)
    (cursor_file : option (list byte)) : result Shipper string :=
  let? _ := probe in
  Ok {| sh_journal := journal; sh_cursor := load_cursor cursor_file readable journal;
        sh_batch := Nat.min (Nat.max batch 1) SHIP_MAX_BATCH |}.

Definition with_cursor (s : Shipper) (c : Cursor) : Shipper :=
  {| sh_journal := sh_journal s; sh_cursor := c; sh_batch := sh_batch s |}.

Definition forward_batch (env : RoundEnv) w : World F * result (option Round) ShipError :=
  let s := w_shipper w in
  let p := default position_start (cursor_position (sh_cursor s)) in
  match re_read env with
  | Err e => (w, Err (ShipJournal (JIo e)))
  | Ok _ =>
      match read_batch (re_file env) p (sh_batch s) with
      | Err e => (w, Err (ShipJournal e))
      | Ok None => (w, Ok None)
      | Ok (Some (records, after, up)) =>
          match deliver (map view records) (w_receiver w) with
          | (f, Err e) => (Build_World s (w_cursor_file w) f, Err (ShipDeliver e))
          | (f, Ok _) =>
              let c := cursor_from_position after (sh_journal s) in
              match re_write env with
              | CwFailed e => (Build_World s (w_cursor_file w) f, Err (ShipCursor e))
              | CwLost e => (Build_World s (Some (cursor_to_vec c)) f, Err (ShipCursor e))
              | CwDone =>
                  (Build_World (with_cursor s c) (Some (cursor_to_vec c)) f,
                   Ok (Some {| forwarded := N.of_nat (length records); caught_up := up |}))
              end
          end
      end
  end.

(** [drain], one environment per iteration; [None] when they run out first. *)
Fixpoint ship_drain (envs : list RoundEnv) (sent : N) w : World F * option (result N ShipError) :=
  match envs with
  | [] => (w, None)
  | env :: rest =>
      match forward_batch env w with
      | (w', Err e) => (w', Some (Err e))
      | (w', Ok None) => (w', Some (Ok sent))
      | (w', Ok (Some round)) =>
          let sent' := (sent + forwarded round)%N in
          if caught_up round then (w', Some (Ok sent')) else ship_drain rest sent' w'
      end
  end.
End Shipping.

(** ** The loop of [run] *)
Definition MIN_INTERVAL_MS : N := 1000.
Definition MAX_INTERVAL_MS : N := 3600000.
Definition MAX_BACKOFF_MS : N := 60000.
Definition U32_MAX : N := 4294967295.

Definition saturating_add_u32 (a b : N) : N := N.min (a + b) U32_MAX.

Record ForwardHealth := { h_degraded : option string; h_acknowledged : N; h_rounds : N }.

(** The wait after a round, in milliseconds.  The product stays far below
    what a [Duration] holds. *)
Definition ship_wait (interval failures : N) : N :=
  if (failures =? 0)%N then interval
  else N.max (N.min (interval * N.shiftl 1 (N.min failures 10)) MAX_BACKOFF_MS) interval.

(** One round of the loop: the drain's outcome becomes health, the failure
    count and the wait. *)
Definition run_round (outcome : result N ShipError) (acked : N) (h : ForwardHealth) (failures : N)
    : ForwardHealth * N :=
  let '(degraded, failures') := match outcome with
    | Ok _ => (None, 0%N)
    | Err e => (Some (ship_category e), saturating_add_u32 failures 1)
    end in
  ({| h_degraded := degraded; h_acknowledged := acked; h_rounds := (h_rounds h + 1)%N |}, failures').

(** ** Settings *)
Definition BATCH_KEY : string := "MCP_AUDIT_FORWARD_BATCH".
Definition INTERVAL_KEY : string := "MCP_AUDIT_FORWARD_INTERVAL_SECONDS".
Definition TIMEOUT_KEY : string := "MCP_AUDIT_FORWARD_TIMEOUT_SECONDS".
Definition ORIGIN_KEY : string := "MCP_AUDIT_FORWARD_ORIGIN".
Definition URL_KEY : string := "MCP_AUDIT_FORWARD_URL".
Definition JOURNAL_DIR_KEY : string := "MCP_AUDIT_FORWARD_JOURNAL_DIR".
Definition STATE_DIR_KEY : string := "MCP_AUDIT_FORWARD_STATE_DIR".
Definition AUDIT_JOURNAL_DIR_KEY : string := "MCP_AUDIT_JOURNAL_DIR".

Definition parse_setting (c : Config) (key : string) : option N :=
  get c key ≫= (fun v => parse_unsigned U64_MAX (trim v)).

(** On a 64-bit target [usize] is [u64]. *)
Definition batch_size (c : Config) : N := clamp (default 256%N (parse_setting c BATCH_KEY)) 1 (N.of_nat SHIP_MAX_BATCH).
Definition ship_interval (c : Config) : N := clamp (default 5%N (parse_setting c INTERVAL_KEY)) 1 3600.
Definition ship_timeout (c : Config) : N := clamp (default 10%N (parse_setting c TIMEOUT_KEY)) 1 300.

(** [configured]: a value that is not blank, trimmed. *)
Definition configured_value (c : Config) (key : string) : option string :=
  match trim <$> get c key with
  | Some v => if str_is_empty v then None else Some v
  | None => None
  end.

(** [hostname] is the environment's HOSTNAME. *)
Definition ship_origin (c : Config) (hostname : option string) : string :=
  match configured_value c ORIGIN_KEY with
  | Some v => v
  | None =>
      match trim <$> hostname with
      | Some v => if str_is_empty v then PACKAGE_NAME else v
      | None => PACKAGE_NAME
      end
  end.

Record ForwardingSettings := {
  fs_url : string; fs_journal_dir : string; fs_state_dir : string; fs_batch : N; fs_interval : N;
}.

Definition settings_from_config (c : Config) : result (option ForwardingSettings) string :=
  match configured_value c URL_KEY with
  | None => Ok None
  | Some url =>
      match match configured_value c JOURNAL_DIR_KEY with
            | Some d => Some d | None => configured_value c AUDIT_JOURNAL_DIR_KEY end with
      | None => Err (URL_KEY ++ " is set but neither " ++ JOURNAL_DIR_KEY ++ " nor " ++ AUDIT_JOURNAL_DIR_KEY
                       ++ " names a journal to forward")%string
      | Some journal_dir =>
          Ok (Some {| fs_url := url; fs_journal_dir := journal_dir;
                      fs_state_dir := default journal_dir (configured_value c STATE_DIR_KEY);
                      fs_batch := batch_size c; fs_interval := ship_interval c |})
      end
  end.

(** ** Files and their complete lines *)

Definition complete (f : list byte) : list (list byte) := (lines_of f).1.

Lemma lines_of_spec f :
  f = unlines (complete f) ++ (lines_of f).2 /\ Forall (fun l => newline ∉ l) (complete f) /\ newline ∉ (lines_of f).2.
Proof.
  unfold complete. induction f as [|b f IH]; [cbn; split_and!; try done; apply not_elem_of_nil|].
  cbn [lines_of]. destruct (lines_of f) as [lines tail]; cbn [fst snd] in *. destruct IH as (-> & HF & Ht).
  destruct (beqb b newline) eqn:Eb; cbn [fst snd].
  - apply beqb_eq in Eb as ->. split_and!; [done| |done]. constructor; [apply not_elem_of_nil|done].
  - apply beqb_neq in Eb. destruct lines as [|l lines]; cbn [fst snd].
    + split_and!; [done|done|]. apply not_elem_of_cons. auto.
    + inversion HF as [|? ? Hl HF']; subst. split_and!; [done| |done].
      constructor; [|done]. apply not_elem_of_cons. auto.
Qed.

Lemma complete_unlines ls rest :
  Forall (fun l => newline ∉ l) ls -> complete (unlines ls ++ rest) = ls ++ complete rest.
Proof. intros Hls. unfold complete. by rewrite lines_of_unlines. Qed.

Lemma complete_tail t : newline ∉ t -> complete t = [].
Proof. intros Ht. unfold complete. by rewrite lines_of_tail. Qed.

Lemma complete_prefix f g : f `prefix_of` g -> complete f `prefix_of` complete g.
Proof.
  intros [x ->]. destruct (lines_of_spec f) as (Ef & HF & _). rewrite Ef at 2.
  rewrite <- app_assoc, complete_unlines by done. by eexists.
Qed.

(** Past the bytes of the first [n] lines, a prefix of the file holds a prefix
    of the remaining lines. *)
Lemma complete_drop f g n :
  g `prefix_of` f -> n <= length (complete f) -> length (unlines (take n (complete f))) <= length g ->
  complete (drop (length (unlines (take n (complete f)))) g) `prefix_of` drop n (complete f).
Proof.
  intros Hg Hn Hlen. destruct (lines_of_spec f) as (Ef & HF & Ht).
  set (ls := complete f) in *. rewrite <- (take_drop n ls) in Ef at 1. rewrite unlines_app, <- app_assoc in Ef.
  destruct Hg as [x Hx]. rewrite Hx in Ef.
  assert (drop (length (unlines (take n ls))) g ++ x = unlines (drop n ls) ++ (lines_of f).2) as E.
  { apply (f_equal (drop (length (unlines (take n ls))))) in Ef.
    rewrite drop_app_length, drop_app_le in Ef by done. rewrite <- Hx in Ef. done. }
  assert (complete (drop (length (unlines (take n ls))) g ++ x) = drop n ls) as Ec.
  { rewrite E, complete_unlines by (by apply Forall_drop). by rewrite complete_tail, app_nil_r. }
  rewrite <- Ec. apply complete_prefix. by eexists.
Qed.

(** ** The journal's lines only grow *)

Section Growth.
Context `{Crypto} `{SigningLib} `{JournalCodec}.
Context (policy : CheckpointPolicy).

(** A step of the journal's process: a record or a tick arrives, the writer
    takes a turn, or the process stops, cleanly or not, and reopens. *)
Inductive journal_step : Journal -> Journal -> Prop :=
| js_record j wr :
    length (queue j) < WRITE_QUEUE_DEPTH -> event_body (body wr) ->
    journal_step j (with_queue j (queue j ++ [MRecord wr]))
| js_tick j : length (queue j) < WRITE_QUEUE_DEPTH -> journal_step j (with_queue j (queue j ++ [MTick]))
| js_turn j t : journal_step j (turn policy j t)
| js_crash j at_ j' :
    (N.of_nat (length (file j)) < U64_MAX)%N -> open_journal (file j) at_ (acks j) (exports j) = Ok j' ->
    journal_step j j'
| js_close j t at_ j' :
    let c := close policy j t in
    (N.of_nat (length (file c)) < U64_MAX)%N -> open_journal (file c) at_ (acks c) (exports c) = Ok j' ->
    journal_step j j'.

Lemma reachable_step j j' : reachable policy j -> journal_step j j' -> reachable policy j'.
Proof.
  intros Hr Hs. destruct Hs as [j wr Hq Hb|j Hq|j t|j at_ j' Hl Ho|j t at_ j' c Hl Ho].
  - by apply reach_record.
  - by apply reach_tick.
  - by apply reach_turn.
  - by eapply reach_crash.
  - by eapply reach_close.
Qed.

Lemma write_extends f buffer io : f `prefix_of` (write_batch f buffer io).1.
Proof. destruct io; by eexists. Qed.

Lemma checkpoint_extends s f t : f `prefix_of` (checkpoint policy s f t).1.1.
Proof.
  unfold checkpoint. destruct (checked_add _ _) as [n|]; [|done].
  set (line := line_of n _). pose proof (write_extends f line (io_checkpoint t)) as Hw.
  destruct (write_batch f line (io_checkpoint t)) as [f' [[]|]]; exact Hw.
Qed.

Lemma run_checkpoint_extends j t : file j `prefix_of` file (run_checkpoint policy j t).
Proof.
  unfold run_checkpoint. pose proof (checkpoint_extends (state j) (file j) t) as Hc.
  destruct (checkpoint policy (state j) (file j) t) as [[f s] [x|]]; exact Hc.
Qed.

Lemma turn_extends j t : file j `prefix_of` file (turn policy j t).
Proof.
  unfold turn. destruct (queue j) as [|[first|] q]; [done| |].
  - destruct (drain [first] q) as [batch q']. unfold run_batch. cbn [with_queue poison state file queue].
    destruct (poison j); [done|]. destruct (checked_add _ _); [|done].
    destruct (build _ _) as [lines []]; [done|].
    pose proof (write_extends (file j) (mjoin lines) (io_batch t)) as Hw.
    destruct (write_batch (file j) (mjoin lines) (io_batch t)) as [f [[]|]]; [|exact Hw].
    case_match; [|exact Hw]. etrans; [exact Hw|].
    match goal with |- _ `prefix_of` file (run_checkpoint _ ?x _) => apply (run_checkpoint_extends x) end.
  - case_match; [|done]. apply (run_checkpoint_extends (with_queue j q)).
Qed.

Lemma close_extends j t : file j `prefix_of` file (close policy j t).
Proof.
  unfold close. case_match; [|done]. pose proof (checkpoint_extends (state j) (file j) t) as Hc.
  destruct (checkpoint policy (state j) (file j) t) as [[f s] [x|]]; exact Hc.
Qed.

Lemma recover_loop_len lines e r n r' e' n' :
  recover_loop lines e r n = Ok (r', e', n') -> n' = n + length (unlines lines).
Proof.
  revert e r n; induction lines as [|l lines IH]; intros e r n; cbn [recover_loop]; [intros [= _ _ <-]; cbn; lia|].
  destruct (parse_seq l) as [[sq cp]|]; [|done]. destruct (negb _); [done|].
  destruct (checked_add e 1); [|done]. intros ->%IH. rewrite unlines_cons, !length_app. cbn. lia.
Qed.

Lemma recover_complete f r f' : recover f = Ok (r, f') -> complete f' = complete f.
Proof.
  unfold recover. destruct (lines_of_spec f) as (Ef & HF & Ht). unfold complete in *.
  destruct (lines_of f) as [lines tail] eqn:El; cbn [fst snd] in *.
  destruct (recover_loop lines 1 recovered_start 0) as [[[r0 e] n]|] eqn:Er; [|done]. cbn. intros [= _ <-].
  destruct tail as [|b tail]; [by rewrite El|]. apply recover_loop_len in Er as ->. cbn [Nat.add].
  rewrite Ef, take_app_length, <- (app_nil_r (unlines lines)), lines_of_unlines by done. cbn. apply app_nil_r.
Qed.

Lemma step_grows j j' : journal_step j j' -> complete (file j) `prefix_of` complete (file j').
Proof.
  destruct 1 as [j wr|j|j t|j at_ j' _ Ho|j t at_ j' c _ Ho]; try done.
  - apply complete_prefix, turn_extends.
  - unfold open_journal in Ho. destruct (recover (file j)) as [[r f']|] eqn:E; [|done]. cbn in Ho. simplify_eq. cbn.
    by rewrite (recover_complete _ _ _ E).
  - unfold open_journal in Ho. destruct (recover (file c)) as [[r f']|] eqn:E; [|done]. cbn in Ho. simplify_eq. cbn.
    rewrite (recover_complete _ _ _ E). apply complete_prefix, close_extends.
Qed.
End Growth.

(** ** Positions and batches *)

Definition with_newline (l : list byte) : list byte := l ++ [newline].

Lemma strip_with_newline l : strip_newline (with_newline l) = l.
Proof. unfold strip_newline, with_newline. by rewrite last_snoc, beqb_refl, removelast_last. Qed.

Section Positions.
Context `{Crypto} `{JournalCodec}.

(** Where a reader stands after the first [n] lines. *)
Definition pos_at (ls : list (list byte)) (n : nat) : Position :=
  {| next_seq := (N.of_nat n + 1)%N; offset := N.of_nat (length (unlines (take n ls)));
     pos_chain := chain_of (map with_newline (take n ls)) |}.

Definition cursor_at (ls : list (list byte)) (journal : string) (n : nat) : Cursor :=
  cursor_from_position (pos_at ls n) journal.

Lemma cursor_fresh_at ls journal : cursor_fresh journal = cursor_at ls journal 0.
Proof. reflexivity. Qed.

Lemma take_prefix_le {A} (l l' : list A) n : l `prefix_of` l' -> n <= length l -> take n l' = take n l.
Proof. intros [x ->] Hn. by rewrite take_app_le. Qed.

Lemma cursor_at_grows ls ls' journal n :
  ls `prefix_of` ls' -> n <= length ls -> cursor_at ls' journal n = cursor_at ls journal n.
Proof. intros Hp Hn. unfold cursor_at, pos_at. by rewrite (take_prefix_le ls ls' n). Qed.

(** The position a good cursor resumes at: its own, or, when the sequence
    space is exhausted, the start. *)
Lemma cursor_at_position ls journal n :
  sha256_width -> cursor_position (cursor_at ls journal n)
    = if (N.of_nat n + 1 <=? U64_MAX)%N then Some (pos_at ls n) else None.
Proof.
  intros Hw. unfold cursor_position, cursor_at, cursor_from_position, checked_add. cbn [acknowledged cur_chain cur_offset pos_at next_seq offset pos_chain].
  rewrite N.add_sub, N.leb_antisym. destruct (U64_MAX <? N.of_nat n + 1)%N; [done|].
  change (Some ?x ≫= ?f) with (f x). cbv beta. rewrite chain_parse_label by (by apply chain_of_width). done.
Qed.

(** A batch is a reading of the first lines: all of them when it caught up,
    as many as there is room for when it did not. *)
Lemma batch_loop_facts room p lines broken rs q up :
  batch_loop room p lines broken = Ok (rs, q, up) ->
  length rs <= length lines /\ read_lines p (take (length rs) lines) [] = (rs, q, None)
  /\ (rs = [] -> lines = []) /\ (up = true -> length rs = length lines)
  /\ (up = false -> 1 <= room -> length rs = room).
Proof.
  revert room p rs; induction lines as [|l lines IH]; intros room p rs; cbn [batch_loop].
  - destruct broken; [done|]. intros [= <- <- <-]. done.
  - destruct (read_line p l) as [[r p']|e] eqn:El; [|done].
    destruct (Nat.eqb_spec room 1) as [->|Hroom].
    + intros [= <- <- <-]. cbn [length take read_lines]. rewrite El. split_and!; try done; cbn; lia.
    + destruct (batch_loop (pred room) p' lines broken) as [[[rs' q'] up']|] eqn:Eb; [|done].
      cbn. intros [= <- <- <-]. destruct (IH _ _ _ Eb) as (Hl & Hr & Hn & Hu & Hf).
      cbn [length take read_lines]. rewrite El, Hr.
      split_and!; [lia|done|done|intros E; specialize (Hu E); lia|intros E Hr1; specialize (Hf E); lia].
Qed.

Lemma batch_loop_reads room p lines rs q :
  1 <= room -> read_lines p lines [] = (rs, q, None) ->
  exists q' up, batch_loop room p lines None = Ok (take room rs, q', up).
Proof.
  revert room p rs; induction lines as [|l lines IH]; intros room p rs Hroom; cbn [batch_loop read_lines].
  - intros [= <- <-]. destruct room; by eauto.
  - destruct (read_line p l) as [[r p']|e] eqn:El; [|done].
    destruct (read_lines p' lines []) as [[rs' q'] err'] eqn:Er. intros [= <- -> ->].
    destruct (Nat.eqb_spec room 1) as [->|Hr1]; [by eauto|].
    destruct (IH (pred room) p' rs') as (q2 & up & Eb); [lia|done|]. rewrite Eb. cbn.
    destruct room as [|room]; [lia|]. cbn. eauto.
Qed.

(** Records read from position [n] are the journal's lines from [n] on. *)
Lemma batch_records ls n lines rs q :
  n <= length ls -> lines `prefix_of` drop n ls -> length rs <= length lines ->
  read_lines (pos_at ls n) (take (length rs) lines) [] = (rs, q, None) ->
  n + length rs <= length ls /\ q = pos_at ls (n + length rs)
  /\ forall i l, n <= i < n + length rs -> ls !! i = Some l ->
       exists r, r ∈ rs /\ seq r = N.of_nat (S i) /\ line r = with_newline l.
Proof.
  intros Hn [x Hx] Hlen Hr.
  assert (n + length rs <= length ls) as Hle.
  { apply (f_equal length) in Hx. rewrite length_drop, length_app in Hx. lia. }
  assert (take (length rs) lines = take (length rs) (drop n ls)) as Et by (rewrite Hx; by rewrite take_app_le).
  split; [done|]. split.
  - rewrite (read_lines_position _ _ _ _ Hr), Et. unfold pos_at. cbn [next_seq offset pos_chain].
    rewrite <- take_take_drop, unlines_app, map_app. unfold chain_of. rewrite chain_from_app.
    rewrite length_take, length_drop, length_app, Nat.min_l by lia. unfold with_newline. f_equal; lia.
  - intros i l Hi Hl. destruct (lookup_lt_is_Some_2 rs (i - n)) as [r Hri]; [lia|].
    destruct (read_lines_lookup _ _ _ _ _ _ _ _ Hr Hri) as (Hs & (l' & Hl' & Hline) & _).
    exists r. split; [by eapply list_elem_of_lookup_2|]. split.
    + rewrite Hs. cbn [pos_at next_seq]. lia.
    + rewrite Et, lookup_take_lt, lookup_drop in Hl' by lia. replace (n + (i - n)) with i in Hl' by lia.
      unfold with_newline. congruence.
Qed.
End Positions.

(** ** The journal and its shipper together *)

Definition cursor_codec_law `{CursorCodec} : Prop := forall c, cursor_from_slice (cursor_to_vec c) = Some c.

(** What a round may see of a file: any prefix of it (the writer appends while
    the reader reads), or nothing. *)
Definition sees (f : list byte) (v : JournalFile) : Prop :=
  match v with
  | FBytes g | FBreaks g _ => g `prefix_of` f
  | FMissing | FUnreadable _ => True
  end.

Section System.
Context `{Crypto} `{SigningLib} `{JournalCodec} `{CursorCodec} `{ForwarderLaws F}.
Context (policy : CheckpointPolicy) (path : string).
Implicit Types (j : Journal) (w : World F).

(** The shipper is first started without a cursor file, or with one that is
    not for this journal. *)
Inductive system : Journal -> World F -> Prop :=
| sys_start at_ j cursor_file f probe readable batch s :
    open_journal [] at_ [] [] = Ok j ->
    (forall bytes c, cursor_file = Some bytes -> cursor_from_slice bytes = Some c -> cur_journal c <> path) ->
    shipper_open probe readable path batch cursor_file = Ok s ->
    system j (Build_World s cursor_file f)
| sys_journal j j' w : system j w -> journal_step policy j j' -> system j' w
| sys_round j w env : system j w -> sees (file j) (re_file env) -> system j (forward_batch env w).1
| sys_restart j w probe readable batch s :
    system j w -> shipper_open probe readable path batch (w_cursor_file w) = Ok s ->
    system j (Build_World s (w_cursor_file w) (w_receiver w)).

(** The first [n] lines have reached the receiver, byte for byte, each under
    its sequence. *)
Definition delivered (ls : list (list byte)) (n : nat) (f : F) : Prop :=
  forall i l, i < n -> ls !! i = Some l ->
    exists r, r ∈ received f /\ fr_seq r = N.of_nat (S i) /\ fr_json r = l.

Definition vouched (ls : list (list byte)) (f : F) (c : Cursor) : Prop :=
  exists n, n <= length ls /\ c = cursor_at ls path n /\ delivered ls n f.

Record good (ls : list (list byte)) w : Prop := {
  good_journal : sh_journal (w_shipper w) = path;
  good_batch : 1 <= sh_batch (w_shipper w);
  good_cursor : vouched ls (w_receiver w) (sh_cursor (w_shipper w));
  good_file : forall bytes c, w_cursor_file w = Some bytes -> cursor_from_slice bytes = Some c ->
    cur_journal c = path -> vouched ls (w_receiver w) c;
}.

Lemma delivered_grows ls n f batch : delivered ls n f -> delivered ls n (deliver batch f).1.
Proof.
  intros Hd i l Hi Hl. destruct (Hd i l Hi Hl) as (r & Hr & Hs & Hj). exists r.
  split; [by apply received_grows|done].
Qed.

Lemma vouched_deliver ls f batch c : vouched ls f c -> vouched ls (deliver batch f).1 c.
Proof. intros (n & Hn & -> & Hd). exists n. split_and!; [done|done|by apply delivered_grows]. Qed.

Lemma vouched_lines ls ls' f c : ls `prefix_of` ls' -> vouched ls f c -> vouched ls' f c.
Proof.
  intros Hp (n & Hn & -> & Hd). exists n. destruct Hp as [x ->]. rewrite length_app.
  split; [lia|]. split; [symmetry; apply cursor_at_grows; [by eexists|done]|].
  intros i l Hi Hl. rewrite lookup_app_l in Hl by lia. by apply Hd.
Qed.

Lemma fresh_vouched ls f : vouched ls f (cursor_fresh path).
Proof. exists 0. split_and!; [lia|done|]. intros i l Hi. lia. Qed.

Lemma load_vouched ls f cursor_file readable :
  (forall bytes c, cursor_file = Some bytes -> cursor_from_slice bytes = Some c -> cur_journal c = path -> vouched ls f c) ->
  vouched ls f (load_cursor cursor_file readable path).
Proof.
  intros Hc. unfold load_cursor. destruct cursor_file as [bytes|]; [|apply fresh_vouched].
  destruct readable; [|apply fresh_vouched]. cbn [negb].
  destruct (cursor_from_slice bytes) as [c|] eqn:E; [|apply fresh_vouched].
  destruct (String.eqb_spec (cur_journal c) path) as [Ep|]; [|apply fresh_vouched].
  cbn [andb]. case_bool_decide; [by eapply Hc|apply fresh_vouched].
Qed.

Lemma open_good ls w probe readable batch s :
  good ls w -> shipper_open probe readable path batch (w_cursor_file w) = Ok s ->
  good ls (Build_World s (w_cursor_file w) (w_receiver w)).
Proof.
  intros Hg Ho. unfold shipper_open in Ho. destruct probe; [|done]. cbn in Ho. injection Ho as <-. split; cbn.
  - done.
  - unfold SHIP_MAX_BATCH. lia.
  - apply load_vouched, Hg.
  - apply Hg.
Qed.

(** What one round read, in a good state, is the lines after the cursor. *)
Lemma round_reads f w v n rs q up :
  sees f v -> n <= length (complete f) ->
  read_batch v (pos_at (complete f) n) (sh_batch (w_shipper w)) = Ok (Some (rs, q, up)) ->
  n + length rs <= length (complete f) /\ q = pos_at (complete f) (n + length rs)
  /\ forall i l, n <= i < n + length rs -> complete f !! i = Some l ->
       exists r, r ∈ map view rs /\ fr_seq r = N.of_nat (S i) /\ fr_json r = l.
Proof.
  intros Hsees Hn Hread.
  assert (exists g broken, g `prefix_of` f
    /\ read_from g broken (pos_at (complete f) n) (sh_batch (w_shipper w)) = Ok (Some (rs, q, up))) as (g & broken & Hg & Hr).
  { destruct v; cbn in Hread; try done; by eauto. }
  unfold read_from in Hr. destruct (N.ltb_spec (N.of_nat (length g)) (offset (pos_at (complete f) n))) as [|Hlen]; [done|].
  cbn [pos_at offset] in Hlen, Hr. rewrite Nat2N.id in Hr.
  fold (complete (drop (length (unlines (take n (complete f)))) g)) in Hr.
  pose proof (complete_drop f g n Hg Hn ltac:(lia)) as Hpre.
  set (lines := complete (drop _ g)) in *.
  destruct (batch_loop _ _ lines broken) as [[[rs' q'] up']|] eqn:Eb; [|done]. cbn in Hr.
  assert (rs' = rs /\ q' = q) as [-> ->] by (destruct rs'; by simplify_eq).
  destruct (batch_loop_facts _ _ _ _ _ _ _ Eb) as (Hl & Hrl & _).
  destruct (batch_records (complete f) n lines rs q Hn Hpre Hl Hrl) as (Hle & Hq & Hrec).
  split_and!; [done|done|]. intros i l Hi Hli. destruct (Hrec i l Hi Hli) as (r & Hin & Hs & Hline).
  exists (view r). split; [by apply list_elem_of_fmap_2|]. split; [done|].
  cbn. by rewrite Hline, strip_with_newline.
Qed.

Lemma round_position f n :
  sha256_width -> exists m, m <= n
    /\ default position_start (cursor_position (cursor_at (complete f) path n)) = pos_at (complete f) m.
Proof.
  intros Hw. rewrite cursor_at_position by done. destruct (_ <=? _)%N; [by exists n|]. exists 0. split; [lia|done].
Qed.

(** The cursor a round writes vouches for what it vouched for before and for
    the batch. *)
Lemma round_good f w env :
  sha256_width -> cursor_codec_law -> good (complete f) w -> sees f (re_file env) ->
  good (complete f) (forward_batch env w).1.
Proof.
  intros Hw Hcodec Hg Hsees. destruct (good_cursor _ _ Hg) as (n & Hn & Ec & Hd).
  unfold forward_batch. destruct (re_read env); [|done].
  destruct (round_position f n Hw) as (m & Hm & Ep). rewrite Ec, Ep.
  destruct (read_batch (re_file env) (pos_at (complete f) m) _) as [[[[rs q] up]|]|] eqn:Er; [|done|done].
  destruct (round_reads f w (re_file env) m rs q up Hsees) as (Hle & -> & Hrec); [lia|done|].
  pose proof (received_acked (map view rs) (w_receiver w)) as Hack.
  pose proof (fun c => vouched_deliver (complete f) (w_receiver w) (map view rs) c) as Hv.
  destruct (deliver (map view rs) (w_receiver w)) as [f' [[]|e]]; cbn [fst snd] in *; cycle 1.
  { split; cbn; [apply Hg|apply Hg|apply Hv, Hg|]. intros; by eapply Hv, (good_file _ _ Hg). }
  assert (vouched (complete f) f' (cursor_from_position (pos_at (complete f) (m + length rs)) (sh_journal (w_shipper w)))) as Hnew.
  { rewrite (good_journal _ _ Hg). exists (m + length rs). split_and!; [done|done|]. intros i l Hi Hl.
    destruct (decide (i < m)) as [Him|Him].
    - destruct (Hv (cursor_at (complete f) path n)) as (n' & _ & En & Hd'); [by exists n|].
      assert (n' = n) as ->.
      { apply (f_equal acknowledged) in En. cbn in En. lia. }
      apply Hd'; [lia|done].
    - destruct (Hrec i l) as (r & Hin & Hs & Hj); [lia|done|]. exists r. split; [by apply Hack|done]. }
  assert (forall bytes c, Some (cursor_to_vec (cursor_from_position (pos_at (complete f) (m + length rs))
            (sh_journal (w_shipper w)))) = Some bytes -> cursor_from_slice bytes = Some c -> cur_journal c = path ->
          vouched (complete f) f' c) as Hfile.
  { intros bytes c [= <-]. rewrite Hcodec. by intros [= <-]. }
  destruct (re_write env); split; cbn; try apply Hg; try done; try (by apply Hv, Hg).
  intros; by eapply Hv, (good_file _ _ Hg).
Qed.

Lemma system_good j w :
  sha256_width -> cursor_codec_law -> codec_laws -> system j w -> reachable policy j /\ good (complete (file j)) w.
Proof.
  intros Hw Hc Hlaws. induction 1 as [at_ j cf f probe readable batch s Hj Hcf Ho|j j' w _ [Hr Hg] Hs|j w env _ [Hr Hg] Hs|j w probe readable batch s _ [Hr Hg] Ho].
  - split; [by eapply reach_new|].
    assert (good (complete (file j)) (Build_World {| sh_journal := path; sh_cursor := cursor_fresh path; sh_batch := 1 |} cf f)) as Hg.
    { split; cbn; [done|lia|apply fresh_vouched|]. intros bytes c E1 E2 E3. by destruct (Hcf _ _ E1 E2). }
    by apply (open_good _ _ _ _ _ _ Hg Ho).
  - split; [by eapply reachable_step|]. pose proof (step_grows _ _ _ Hs) as Hgrow. split.
    + apply Hg.
    + apply Hg.
    + by eapply vouched_lines, Hg.
    + intros bytes c E1 E2 E3. by eapply vouched_lines, (good_file _ _ Hg).
  - split; [done|]. by apply round_good.
  - split; [done|]. by eapply open_good.
Qed.
End System.

(** ** Catching up *)

Lemma complete_drop_all f n :
  complete (drop (length (unlines (take n (complete f)))) f) = drop n (complete f).
Proof.
  destruct (lines_of_spec f) as (Ef & HF & Ht). set (ls := complete f) in *.
  rewrite <- (take_drop n ls) in Ef at 1. rewrite unlines_app, <- app_assoc in Ef.
  rewrite Ef at 1. rewrite drop_app_length, complete_unlines by (by apply Forall_drop).
  by rewrite complete_tail, app_nil_r.
Qed.

Section Liveness.
Context `{Crypto} `{SigningLib} `{JournalCodec} `{CursorCodec} `{ForwarderLaws F}.
Context (policy : CheckpointPolicy) (path : string).

(** Every complete line of a reachable journal reads. *)
Lemma reachable_reads j :
  codec_laws -> reachable policy j ->
  exists rs q, read_lines position_start (complete (file j)) [] = (rs, q, None).
Proof.
  intros Hlaws Hr. apply (reachable_inv policy Hlaws) in Hr.
  destruct Hr as (bs & extra & r & rf & Hl & Hlf & Hp1 & Hp2 & _).
  destruct (prefix_content policy (bs ++ extra) rf bs (file j) Hlaws Hlf) as (m & tail & _ & _ & -> & Ht);
    [by eexists|done|done|].
  destruct (log_prefix policy _ _ m Hlf) as [r' Hm].
  destruct (log_verifies policy Hlaws [] _ _ (or_introl eq_refl) Hm) as (rs & Hread & _).
  unfold content. rewrite complete_unlines by (by eapply log_stamps_clean).
  rewrite complete_tail, app_nil_r by done. eauto.
Qed.

Lemma read_lines_split p l1 l2 rs q :
  read_lines p (l1 ++ l2) [] = (rs, q, None) ->
  exists rs1 p1 rs2, read_lines p l1 [] = (rs1, p1, None) /\ read_lines p1 l2 [] = (rs2, q, None) /\ rs = rs1 ++ rs2.
Proof.
  revert p rs; induction l1 as [|l l1 IH]; intros p rs; cbn [app read_lines]; [by eauto 10|].
  destruct (read_line p l) as [[r p']|]; [|done].
  destruct (read_lines p' (l1 ++ l2) []) as [[rs' q'] e'] eqn:E. intros [= <- -> ->].
  destruct (IH _ _ E) as (rs1 & p1 & rs2 & E1 & E2 & ->). rewrite E1. eauto 10.
Qed.

Lemma reads_from ls n rs q :
  n <= length ls -> read_lines position_start ls [] = (rs, q, None) ->
  exists rs', read_lines (pos_at ls n) (drop n ls) [] = (rs', q, None).
Proof.
  intros Hn Hr. rewrite <- (take_drop n ls) in Hr.
  destruct (read_lines_split _ _ _ _ _ Hr) as (rs1 & p1 & rs2 & E1 & E2 & _). exists rs2.
  rewrite (read_lines_position _ _ _ _ E1) in E2. rewrite length_take, Nat.min_l in E2 by done.
  unfold position_start in E2. cbn [next_seq offset pos_chain] in E2. rewrite N.add_comm in E2. exact E2.
Qed.

(** A receiver that acknowledges every batch, now and later. *)
Definition accepting (ok : F -> Prop) : Prop :=
  forall f batch, ok f -> (deliver batch f).2 = Ok tt /\ ok (deliver batch f).1.

Definition quiet (f : list byte) : RoundEnv := {| re_file := FBytes f; re_read := Ok tt; re_write := CwDone |}.

(** One quiet round, from the [n]-th line. *)
Lemma quiet_round f (w : World F) ok n rs q :
  sha256_width -> accepting ok -> ok (w_receiver w) ->
  good path (complete f) w -> n <= length (complete f) -> (N.of_nat (length (complete f)) < U64_MAX)%N ->
  sh_cursor (w_shipper w) = cursor_at (complete f) path n ->
  read_lines position_start (complete f) [] = (rs, q, None) ->
  (n = length (complete f) /\ forward_batch (quiet f) w = (w, Ok None))
  \/ exists w' k up, 0 < k /\ n + k <= length (complete f) /\ ok (w_receiver w')
       /\ forward_batch (quiet f) w = (w', Ok (Some {| forwarded := N.of_nat k; caught_up := up |}))
       /\ sh_cursor (w_shipper w') = cursor_at (complete f) path (n + k)
       /\ (up = true -> n + k = length (complete f)).
Proof.
  intros Hw Hacc Hok Hg Hn Hmax Ec Hread. destruct (reads_from _ n _ _ Hn Hread) as [rs' Hr'].
  destruct (batch_loop_reads (sh_batch (w_shipper w)) _ _ _ _ (good_batch _ _ _ Hg) Hr') as (q' & up & Eb).
  unfold forward_batch, quiet. cbn [re_read re_file re_write read_batch].
  rewrite Ec, cursor_at_position by done. rewrite (proj2 (N.leb_le _ _)) by lia.
  change (default position_start (Some ?x)) with x.
  unfold read_from. cbn [pos_at offset]. rewrite Nat2N.id.
  rewrite (proj2 (N.ltb_ge _ _)).
  2:{ destruct (lines_of_spec f) as (Ef & _). fold (complete f) in Ef.
      apply (f_equal length) in Ef. rewrite <- (take_drop n (complete f)), unlines_app, !length_app in Ef. lia. }
  fold (complete (drop (length (unlines (take n (complete f)))) f)). rewrite complete_drop_all, Eb. cbn.
  destruct (batch_loop_facts _ _ _ _ _ _ _ Eb) as (Hl & Hrl & Hnil & Hup & _).
  destruct (batch_records (complete f) n (drop n (complete f)) _ q' Hn (reflexivity _) Hl Hrl) as (Hle & Hq & _).
  rewrite length_drop in Hup. set (batch := take _ rs') in *.
  destruct batch as [|r0 batch0] eqn:Ebatch.
  - left. split; [|done]. specialize (Hnil eq_refl). apply (f_equal length) in Hnil. rewrite length_drop in Hnil.
    cbn in Hnil. lia.
  - right. rewrite <- Ebatch in *. destruct (Hacc (w_receiver w) (map view batch) Hok) as [Hd Hok'].
    destruct (deliver (map view batch) (w_receiver w)) as [f' o]. cbn [fst snd] in *. subst o.
    exists (Build_World (with_cursor (w_shipper w) (cursor_from_position q' (sh_journal (w_shipper w))))
              (Some (cursor_to_vec (cursor_from_position q' (sh_journal (w_shipper w))))) f'), (length batch), up.
    split_and!; [rewrite Ebatch; cbn; lia|done|exact Hok'|reflexivity| |].
    + cbn. by rewrite (good_journal _ _ _ Hg), Hq.
    + intros E. specialize (Hup E). lia.
Qed.

Lemma quiet_drain f ok rs q envs (w : World F) n sent :
  sha256_width -> cursor_codec_law -> accepting ok ->
  (N.of_nat (length (complete f)) < U64_MAX)%N -> read_lines position_start (complete f) [] = (rs, q, None) ->
  ok (w_receiver w) -> good path (complete f) w -> n <= length (complete f) ->
  sh_cursor (w_shipper w) = cursor_at (complete f) path n ->
  Forall (eq (quiet f)) envs -> length (complete f) - n < length envs ->
  exists w', ship_drain envs sent w = (w', Some (Ok (sent + N.of_nat (length (complete f) - n))%N))
    /\ sh_cursor (w_shipper w') = cursor_at (complete f) path (length (complete f)).
Proof.
  intros Hw Hc Hacc Hmax Hread. revert w n sent. induction envs as [|env envs IH]; intros w n sent Hok Hg Hn Ec Hq Hlen;
    [cbn in Hlen; lia|]. apply Forall_cons in Hq as [<- Hq]. cbn [ship_drain].
  destruct (quiet_round f w ok n rs q Hw Hacc Hok Hg Hn Hmax Ec Hread) as [[-> E]|(w' & k & up & Hk & Hle & Hok' & E & Ec' & Hup)];
    rewrite E; cbn [forwarded caught_up].
  - exists w. split; [|done]. do 3 f_equal. lia.
  - assert (good path (complete f) w') as Hg'.
    { replace w' with (forward_batch (quiet f) w).1 by (by rewrite E). apply round_good; try done. by cbn. }
    destruct up.
    + specialize (Hup eq_refl). exists w'. split; [do 3 f_equal; lia|]. by rewrite Ec', Hup.
    + destruct (IH w' (n + k) (sent + N.of_nat k)%N Hok' Hg' Hle Ec' Hq) as (w2 & Ed & Ec2); [cbn in Hlen; lia|].
      exists w2. split; [rewrite Ed; do 3 f_equal; lia|done].
Qed.
End Liveness.

(** ** Theorems *)

(** C20: Forwarding never skips a record.  In every state the journal's process and
    the shipper pass through together - appends, partial and failed writes,
    crashes and recoveries of the writer; refused deliveries, lost
    acknowledgements, cursor writes that fail or are lost, restarts and
    unreadable files of the shipper, in any order - every record up to the
    cursor has reached the receiver under its sequence, with exactly the bytes
    of its journal line; and so has every record up to the cursor that a
    restart would load. *)
Theorem forwarded_without_gap `{Crypto} `{SigningLib} `{JournalCodec} `{CursorCodec} `{ForwarderLaws F}
    policy path j (w : World F) :
  sha256_width -> cursor_codec_law -> codec_laws -> system policy path j w ->
  let ls := (lines_of (file j)).1 in
  let n := N.to_nat (acknowledged (sh_cursor (w_shipper w))) in
  (n <= length ls /\ delivered ls n (w_receiver w))
  /\ forall readable, let m := N.to_nat (acknowledged (load_cursor (w_cursor_file w) readable path)) in
       m <= length ls /\ delivered ls m (w_receiver w).
Proof.
  intros Hw Hc Hlaws Hs ls n. destruct (system_good policy path j w Hw Hc Hlaws Hs) as [_ Hg].
  assert (forall c, vouched path ls (w_receiver w) c ->
            N.to_nat (acknowledged c) <= length ls /\ delivered ls (N.to_nat (acknowledged c)) (w_receiver w)) as Hv.
  { intros c (k & Hk & -> & Hd). cbn [acknowledged cursor_at cursor_from_position pos_at next_seq].
    rewrite N.add_sub, Nat2N.id. done. }
  split; [apply Hv, Hg|]. intros readable m. apply Hv, load_vouched. exact (good_file _ _ _ Hg).
Qed.

(** C21: Forwarding catches up.  From any state of the combined system, once the
    journal is still, the receiver acknowledges and cursor writes succeed, one
    drain of finitely many batches forwards every complete record that was not
    acknowledged yet and returns exactly their number. *)
Theorem drain_catches_up `{Crypto} `{SigningLib} `{JournalCodec} `{CursorCodec} `{ForwarderLaws F}
    policy path j (w : World F) ok envs :
  sha256_width -> cursor_codec_law -> codec_laws -> system policy path j w ->
  accepting ok -> ok (w_receiver w) -> (N.of_nat (length (lines_of (file j)).1) < U64_MAX)%N ->
  Forall (eq (quiet (file j))) envs -> length (lines_of (file j)).1 < length envs ->
  let total := N.of_nat (length (lines_of (file j)).1) in
  exists w', ship_drain envs 0 w
      = (w', Some (Ok (total - acknowledged (sh_cursor (w_shipper w)))%N))
    /\ acknowledged (sh_cursor (w_shipper w')) = total.
Proof.
  intros Hw Hc Hlaws Hs Hacc Hok Hmax Hq Hlen total.
  destruct (system_good policy path j w Hw Hc Hlaws Hs) as [Hr Hg].
  destruct (reachable_reads policy j Hlaws Hr) as (rs & q & Hread).
  destruct (good_cursor _ _ _ Hg) as (n & Hn & Ec & _). fold (complete (file j)) in *.
  destruct (quiet_drain path (file j) ok rs q envs w n 0 Hw Hc Hacc Hmax Hread Hok Hg Hn Ec Hq) as (w' & Ed & Ec'); [lia|].
  exists w'. rewrite Ed, Ec, Ec'. cbn [acknowledged cursor_at cursor_from_position pos_at next_seq].
  rewrite !N.add_sub. split; [|done]. do 3 f_equal. unfold total. lia.
Qed.

(** The wait between rounds: never shorter than the interval, never longer than
    a minute (or the interval, if that is longer), and growing with each
    failure. *)
Theorem ship_wait_bounded interval failures failures' :
  (interval <= ship_wait interval failures <= N.max interval MAX_BACKOFF_MS)%N
  /\ ((failures <= failures')%N -> (ship_wait interval failures <= ship_wait interval failures')%N).
Proof.
  unfold ship_wait. split; [destruct (failures =? 0)%N; lia|]. intros Hle.
  destruct (N.eqb_spec failures 0) as [->|]; [destruct (failures' =? 0)%N; lia|].
  destruct (N.eqb_spec failures' 0) as [->|]; [lia|]. rewrite !N.shiftl_1_l.
  assert (2 ^ N.min failures 10 <= 2 ^ N.min failures' 10)%N by (apply N.pow_le_mono_r; lia). nia.
Qed.

(** ** A concrete run *)
Module ForwardWitness.
#[local] Existing Instance ChainWitness.toy_crypto.
#[local] Existing Instance toy_signing.

#[local] Instance Cursor_eq_dec : EqDecision Cursor.
Proof. solve_decision. Defined.
#[local] Instance Cursor_countable : Countable Cursor.
Proof.
  refine (inj_countable' (fun c => (acknowledged c, cur_offset c, cur_chain c, cur_journal c))
    (fun '(a, b, c, d) => Build_Cursor a b c d) _). by intros [].
Defined.

#[local] Instance toy_cursor_codec : CursorCodec :=
  {| cursor_to_vec := fun c => bits (encode c); cursor_from_slice := fun l => decode (unbits l) |}.

Lemma toy_cursor_law : cursor_codec_law.
Proof. intros c. cbn. by rewrite unbits_bits, decode_encode. Defined.

Definition quiet_receiver : InMemoryForwarder :=
  {| mem_received := []; mem_refuse := 0; mem_down := false; mem_deliveries := 0 |}.

Definition started : Shipper := {| sh_journal := "journal"; sh_cursor := cursor_fresh "journal"; sh_batch := 1 |}.
Definition w0 : World InMemoryForwarder := Build_World started None quiet_receiver.

(** One batch of one record is forwarded, then the cursor write of the second
    is lost: the receiver has both, the shipper vouches for the first. *)
Definition w2 : World InMemoryForwarder :=
  (forward_batch {| re_file := FBytes (file two); re_read := Ok tt; re_write := CwLost "join" |}
     (forward_batch (quiet (file two)) w0).1).1.

Lemma running : system policy_unsigned "journal" two w2.
Proof.
  apply sys_round; [apply sys_round|]; [|by cbn..].
  apply (sys_journal policy_unsigned "journal" (enqueue (enqueue fresh 1) 2));
    [|apply (js_turn policy_unsigned)].
  apply (sys_journal policy_unsigned "journal" (enqueue fresh 1));
    [apply (sys_journal policy_unsigned "journal" fresh)|].
  - apply (sys_start policy_unsigned "journal" 0 fresh None quiet_receiver (Ok tt) true 1 started); try done.
  - apply js_record; [apply room; cbn; lia|apply event_text_body].
  - apply js_record; [apply room; cbn; lia|apply event_text_body].
Defined.

Lemma forwarded_without_gap_witness :
  acknowledged (sh_cursor (w_shipper w2)) = 1%N
  /\ acknowledged (load_cursor (w_cursor_file w2) true "journal") = 2%N
  /\ delivered (lines_of (file two)).1 2 (w_receiver w2).
Proof.
  split; [vm_compute; reflexivity|]. split; [vm_compute; reflexivity|].
  pose proof (proj2 (forwarded_without_gap policy_unsigned "journal" two w2 ChainWitness.toy_width toy_cursor_law
    toy_codec_laws running) true) as [_ Hd]. cbv zeta in Hd.
  replace (N.to_nat (acknowledged (load_cursor (w_cursor_file w2) true "journal"))) with 2 in Hd
    by (vm_compute; reflexivity).
  exact Hd.
Defined.

Lemma drain_catches_up_witness :
  exists w', ship_drain (repeat (quiet (file two)) 3) 0 w2 = (w', Some (Ok 1%N))
    /\ acknowledged (sh_cursor (w_shipper w')) = 2%N.
Proof.
  assert (length (lines_of (file two)).1 = 2) as Hlen by (vm_compute; reflexivity).
  destruct (drain_catches_up policy_unsigned "journal" two w2
    (fun f => mem_down f = false /\ mem_refuse f = 0%N) (repeat (quiet (file two)) 3)
    ChainWitness.toy_width toy_cursor_law toy_codec_laws running) as (w' & Hd & Ha).
  - intros f batch [Hf Hr]. cbn. unfold mem_deliver. rewrite Hf, Hr. done.
  - vm_compute. done.
  - rewrite Hlen. done.
  - repeat constructor.
  - rewrite Hlen. cbn. lia.
  - exists w'. rewrite Hlen in Hd, Ha. split; [|exact Ha]. rewrite Hd.
    replace (acknowledged (sh_cursor (w_shipper w2))) with 1%N by (vm_compute; reflexivity). reflexivity.
Defined.
End ForwardWitness.
