(* ===== verification/Receivers.v ===== *)
(** * The network forwarders (src/src/audit/forward/syslog.rs, src/src/audit/forward/http.rs,
      src/src/bootstrap/forwarding.rs)

    What the two adapters put on the wire and when they call a batch
    delivered: RFC 5424 messages with RFC 5425 octet counting over a reused TLS
    stream, and Splunk HEC or JSON bodies over HTTP.  TLS, sockets and the HTTP
    client are the answers a delivery meets; the receiver's side of the framing
    is a reference reader. *)
From S2P Require Import Prelude RustStr Json PolicyTypes Signing Config Egress Journal Forward.

(** ** Syslog messages *)
Definition FACILITY_LOG_AUDIT : N := 13.
Definition SEVERITY_WARNING : N := 4.
Definition SEVERITY_INFORMATIONAL : N := 6.
Definition APP_NAME : list byte := as_bytes "mcp-devtools".
Definition space : byte := byte_of 32.
Definition hyphen : byte := byte_of 45.
Definition underscore : byte := byte_of 95.
Definition BOM : list byte := [byte_of 239; byte_of 187; byte_of 191].

Definition is_ascii_graphic (b : byte) : bool := between 33 b 126.

Definition sanitised (value : string) (max : nat) : list byte :=
  let out := map (fun ch => match ch with [b] => if is_ascii_graphic b then b else underscore | _ => underscore end)
               (take max (chars (as_bytes value))) in
  match out with [] => [hyphen] | _ => out end.

Definition frame_timestamp (t : option string) : list byte :=
  match t with
  | Some v => if (str_len v <=? 48)%nat && forallb is_ascii_graphic (as_bytes v) then as_bytes v else [hyphen]
  | None => [hyphen]
  end.

Definition frame_pri (r : ForwardRecord) : N :=
  (FACILITY_LOG_AUDIT * 8 + if fr_adverse r then SEVERITY_WARNING else SEVERITY_INFORMATIONAL)%N.

(** The [write!] of the header, then the mark and the journal line. *)
Definition frame_message (r : ForwardRecord) (origin : string) : list byte :=
  as_bytes "<" ++ render_u64 (frame_pri r) ++ as_bytes ">1 " ++ frame_timestamp (fr_timestamp r)
  ++ [space] ++ sanitised origin 255 ++ [space] ++ APP_NAME ++ as_bytes " - " ++ sanitised (fr_kind r) 32
  ++ as_bytes " - " ++ BOM ++ fr_json r.

(** [SyslogForwarder::frame]: the length is estimated, written, and replaced
    when it differs from the message's. *)
Definition frame (r : ForwardRecord) (origin : string) (out : list byte) : list byte :=
  let header_len := 3 + 2 + 2 + length (frame_timestamp (fr_timestamp r)) + 1 + length (sanitised origin 255) + 1
                    + length APP_NAME + 3 + length (sanitised (fr_kind r) 32) + 3 + 1 + 3 + length (fr_json r) in
  let prefix := render_u64 (N.of_nat (header_len + 3)) in
  let message := frame_message r origin in
  let actual := N.of_nat (length message) in
  let written := default 0%N (parse_u64 (of_bytes prefix)) in
  if negb (written =? actual)%N then out ++ render_u64 actual ++ [space] ++ message
  else out ++ prefix ++ [space] ++ message.

Definition frames (batch : list ForwardRecord) (origin : string) : list byte :=
  foldl (fun out r => frame r origin out) [] batch.

(** *** Delivery over the stream *)

(** What one delivery meets: whether the peer closed a kept stream, the
    connection attempt, the write, and the peer during the grace. *)
Record SyslogEnv := {
  sy_closed_before : bool;
  sy_connect : result unit ForwardError;
  sy_write : result (result unit string) unit;
  sy_closed_after : bool;
}.

(** The stream kept by the adapter, and the bytes written to live streams. *)
Record SyslogState := { sy_connected : bool; sy_wire : list (list byte) }.

Definition syslog_deliver (env : SyslogEnv) (origin : string) (batch : list ForwardRecord) (st : SyslogState)
    : SyslogState * result unit ForwardError :=
  let bytes := frames batch origin in
  let kept := sy_connected st && negb (sy_closed_before env) in
  match (if kept then Ok tt else sy_connect env) with
  | Err e => ({| sy_connected := false; sy_wire := sy_wire st |}, Err e)
  | Ok _ =>
      match sy_write env with
      | Err _ => ({| sy_connected := false; sy_wire := sy_wire st |}, Err (forward_error TIMEOUT "write timed out"))
      | Ok (Err kind) =>
          ({| sy_connected := false; sy_wire := sy_wire st |}, Err (forward_error INTERRUPTED ("write: " ++ kind)%string))
      | Ok (Ok _) =>
          let wire := sy_wire st ++ [bytes] in
          if sy_closed_after env
          then ({| sy_connected := false; sy_wire := wire |},
                Err (forward_error INTERRUPTED "receiver closed the connection while the batch was in flight"))
          else ({| sy_connected := true; sy_wire := wire |}, Ok tt)
      end
  end.

(** ** HTTP bodies *)
Inductive HttpFormat := SplunkHec | HttpJson.

#[export] Instance HttpFormat_eq_dec : EqDecision HttpFormat.
Proof. solve_decision. Defined.

Definition http_format_parse (value : string) : result HttpFormat string :=
  let v := to_ascii_lowercase (trim value) in
  if existsb (String.eqb v) ["hec"; "splunk"; "splunk-hec"]%string then Ok SplunkHec
  else if String.eqb v "json" then Ok HttpJson
  else Err "MCP_AUDIT_FORWARD_FORMAT: not a format (expected `hec` or `json`)".

Fixpoint contains_bytes (needle l : list byte) : bool :=
  starts_with_bytes l needle || match l with [] => false | _ :: rest => contains_bytes needle rest end.

Definition http_format_infer (url_path : string) : HttpFormat :=
  if contains_bytes (as_bytes "/services/collector") (as_bytes url_path) then SplunkHec else HttpJson.

Definition normalize_token (token : option string) : option string :=
  match trim <$> token with
  | Some t => if str_is_empty t then None else Some t
  | None => None
  end.

Definition quoted_key (k : string) : list byte := [dquote] ++ as_bytes k ++ [dquote].

Section Http.
(** serde_json on a string, and chrono's reading of a stamp as HEC's time. *)
Context (json_string : string -> list byte) (hec_time : string -> option string).

Definition hec_event (origin : string) (r : ForwardRecord) : list byte :=
  as_bytes "{"
  ++ match fr_timestamp r ≫= hec_time with
     | Some time => quoted_key "time" ++ as_bytes ":" ++ as_bytes time ++ [comma]
     | None => []
     end
  ++ quoted_key "host" ++ as_bytes ":" ++ json_string origin
  ++ [comma] ++ quoted_key "source" ++ as_bytes ":" ++ quoted_key "mcp-devtools"
  ++ [comma] ++ quoted_key "sourcetype" ++ as_bytes ":" ++ quoted_key "mcp-devtools:audit"
  ++ [comma] ++ quoted_key "event" ++ as_bytes ":" ++ fr_json r ++ as_bytes "}".

(** Items with a separator between them, as the two loops push them. *)
Fixpoint separated (sep : byte) (items : list (list byte)) : list byte :=
  match items with
  | [] => []
  | [i] => i
  | i :: rest => i ++ [sep] ++ separated sep rest
  end.

Definition http_body (format : HttpFormat) (origin : string) (batch : list ForwardRecord) : list byte :=
  match format with
  | SplunkHec => separated newline (map (hec_event origin) batch)
  | HttpJson => as_bytes "[" ++ separated comma (map fr_json batch) ++ as_bytes "]"
  end.

Record HttpPost := { hp_authorization : option string; hp_body : list byte }.

(** How a post ends: a transport error, or a status and the [text] of the
    answer's body, if it has one. *)
Inductive PostAnswer := PostFailed (e : HttpError) | PostAnswered (status : N) (text : option string).

Definition post_error (e : HttpError) : ForwardError :=
  let category := if is_timeout e then TIMEOUT else if is_connect e then UNREACHABLE else INTERRUPTED in
  forward_error category
    (if is_timeout e then "request timed out" else if is_connect e then "connection failed"
     else if is_request e then "request failed" else "response failed").

Definition http_request (format : HttpFormat) (origin : string) (token : option string)
    (batch : list ForwardRecord) : result HttpPost ForwardError :=
  let token := normalize_token token in
  if bool_decide (format = SplunkHec) && bool_decide (token = None)
  then Err (forward_error REJECTED "collector token is no longer configured")
  else Ok {| hp_authorization :=
               (fun t => match format with SplunkHec => "Splunk " ++ t | HttpJson => "Bearer " ++ t end%string) <$> token;
             hp_body := http_body format origin batch |}.

Definition http_deliver (format : HttpFormat) (origin : string) (token : option string) (answer : PostAnswer)
    (batch : list ForwardRecord) : option HttpPost * result unit ForwardError :=
  match http_request format origin token batch with
  | Err e => (None, Err e)
  | Ok post =>
      (Some post,
       match answer with
       | PostFailed e => Err (post_error e)
       | PostAnswered status text =>
           if (200 <=? status)%N && (status <? 300)%N then Ok tt
           else Err (forward_error REJECTED
                  (match text with
                   | Some t => "http " ++ of_bytes (render_u64 status) ++ ": " ++ t
                   | None => "http " ++ of_bytes (render_u64 status)
                   end)%string)
       end)
  end.
End Http.

(** ** The receiver's side of the framing *)

(** One octet-counted frame: decimal digits, a space, that many bytes. *)
Definition read_frame (l : list byte) : option (list byte * list byte) :=
  match split_once_bytes space l with
  | Some (digits, rest) =>
      match parse_u64 (of_bytes digits) with
      | Some n => if (N.to_nat n <=? length rest)%nat then Some (take (N.to_nat n) rest, drop (N.to_nat n) rest) else None
      | None => None
      end
  | None => None
  end.

Fixpoint read_frames (fuel : nat) (l : list byte) : option (list (list byte)) :=
  match l with
  | [] => Some []
  | _ =>
      match fuel with
      | 0 => None
      | S fuel' =>
          match read_frame l with
          | Some (m, rest) => cons m <$> read_frames fuel' rest
          | None => None
          end
      end
  end.

(** The first [n] space-separated fields and what follows them. *)
Fixpoint fields (n : nat) (l : list byte) : option (list (list byte) * list byte) :=
  match n with
  | 0 => Some ([], l)
  | S n' =>
      match split_once_bytes space l with
      | Some (f, rest) => (fun '(fs, tail) => (f :: fs, tail)) <$> fields n' rest
      | None => None
      end
  end.

(** ** Frames *)

Definition json_bounded (r : ForwardRecord) : Prop := (N.of_nat (length (fr_json r)) < 2 ^ 63)%N.

Lemma not_graphic_free b l : is_ascii_graphic b = false -> Forall (fun x => is_ascii_graphic x = true) l -> b ∉ l.
Proof. intros Hb Hl Hin. rewrite Forall_forall in Hl. apply Hl in Hin. congruence. Qed.

Lemma sanitised_graphic value max : Forall (fun x => is_ascii_graphic x = true) (sanitised value max).
Proof.
  unfold sanitised. set (out := map _ _).
  assert (Forall (fun x => is_ascii_graphic x = true) out) as Hout.
  { apply Forall_forall. intros b Hb. apply list_elem_of_fmap_1 in Hb as (ch & -> & _).
    destruct ch as [|c [|]]; try reflexivity. by destruct (is_ascii_graphic c) eqn:E. }
  destruct out; [|done]. by repeat constructor.
Qed.

Lemma sanitised_length value max : max <> 0 -> length (sanitised value max) <= max.
Proof.
  intros Hm. unfold sanitised. set (out := map _ _).
  assert (length out <= max) by (unfold out; rewrite length_map, length_take; lia).
  destruct out; cbn in *; lia.
Qed.

Lemma timestamp_graphic t : Forall (fun x => is_ascii_graphic x = true) (frame_timestamp t).
Proof.
  unfold frame_timestamp. destruct t as [v|]; [|by repeat constructor].
  destruct (_ && _) eqn:E; [|by repeat constructor]. apply andb_true_iff in E as [_ E].
  rewrite forallb_forall in E. apply Forall_forall. intros x Hx. apply E. by apply list_elem_of_In.
Qed.

Lemma timestamp_length t : length (frame_timestamp t) <= 48.
Proof.
  unfold frame_timestamp. destruct t as [v|]; [|cbn; lia]. destruct (_ && _) eqn:E; [|cbn; lia].
  apply andb_true_iff in E as [E _]. apply Nat.leb_le in E. by rewrite <- str_len_bytes.
Qed.

Lemma pri_digits r : length (render_u64 (frame_pri r)) = 3.
Proof. unfold frame_pri. by destruct (fr_adverse r). Qed.

Lemma message_length r origin :
  length (frame_message r origin)
  = 30 + length (frame_timestamp (fr_timestamp r)) + length (sanitised origin 255)
    + length (sanitised (fr_kind r) 32) + length (fr_json r).
Proof. unfold frame_message. rewrite !length_app, pri_digits. cbn [length as_bytes String.list_ascii_of_string APP_NAME BOM]. lia. Qed.

Lemma message_bounded r origin : json_bounded r -> (N.of_nat (length (frame_message r origin)) + 4 <= U64_MAX)%N.
Proof.
  unfold json_bounded, U64_MAX. intros Hj. rewrite message_length.
  pose proof (timestamp_length (fr_timestamp r)). pose proof (sanitised_length origin 255).
  pose proof (sanitised_length (fr_kind r) 32). change (2 ^ 63)%N with 9223372036854775808%N in Hj. lia.
Qed.

(** The estimate is four more than the length, always. *)
Lemma frame_text r origin out :
  json_bounded r ->
  frame r origin out = out ++ render_u64 (N.of_nat (length (frame_message r origin))) ++ [space] ++ frame_message r origin.
Proof.
  intros Hj. pose proof (message_bounded r origin Hj) as Hb. unfold frame.
  match goal with |- context [N.of_nat (?h + 3)] => set (est := h) end.
  assert (N.of_nat (est + 3) = N.of_nat (length (frame_message r origin)) + 4)%N as ->.
  { rewrite message_length. unfold est. change (length APP_NAME) with 12. lia. }
  rewrite parse_render_u64 by done. change (default 0%N (Some ?x)) with x.
  rewrite (proj2 (N.eqb_neq _ _)) by lia. done.
Qed.

Lemma digits_no_space n : space ∉ render_u64 n.
Proof.
  intros Hin. pose proof (render_u64_digits n) as Hd. rewrite Forall_forall in Hd. apply Hd in Hin. by vm_compute in Hin.
Qed.

Lemma read_frame_frame r origin rest :
  json_bounded r -> read_frame (frame r origin [] ++ rest) = Some (frame_message r origin, rest).
Proof.
  intros Hj. rewrite frame_text by done. unfold read_frame. rewrite app_nil_l, <- !app_assoc. cbn [app].
  rewrite split_once_bytes_first by apply digits_no_space.
  rewrite parse_render_u64 by (pose proof (message_bounded r origin Hj); lia).
  rewrite Nat2N.id, length_app, (proj2 (Nat.leb_le _ _)) by lia. by rewrite take_app_length, drop_app_length.
Qed.

Lemma frame_out r origin out : json_bounded r -> frame r origin out = out ++ frame r origin [].
Proof. intros Hj. by rewrite !frame_text. Qed.

Lemma frames_from batch origin out :
  Forall json_bounded batch ->
  foldl (fun out r => frame r origin out) out batch = out ++ mjoin (map (fun r => frame r origin []) batch).
Proof.
  revert out; induction batch as [|r batch IH]; intros out Hb; cbn; [by rewrite app_nil_r|].
  apply Forall_cons in Hb as [Hr Hb]. rewrite IH, (frame_out r origin out) by done. by rewrite <- app_assoc.
Qed.

Lemma read_frames_step fuel l m rest :
  read_frame l = Some (m, rest) -> read_frames (S fuel) l = cons m <$> read_frames fuel rest.
Proof. intros E. destruct l; [done|]. cbn [read_frames]. by rewrite E. Qed.

Lemma read_frames_mjoin batch origin :
  Forall json_bounded batch ->
  read_frames (length batch) (mjoin (map (fun r => frame r origin []) batch)) = Some (map (fun r => frame_message r origin) batch).
Proof.
  induction batch as [|r batch IH]; intros Hb; [done|]. apply Forall_cons in Hb as [Hr Hb].
  change (mjoin (map (fun r => frame r origin []) (r :: batch)))
    with (frame r origin [] ++ mjoin (map (fun r => frame r origin []) batch)).
  cbn [length]. rewrite (read_frames_step _ _ _ _ (read_frame_frame r origin _ Hr)), IH by done. done.
Qed.

Lemma field_step f rest n : space ∉ f ->
  fields (S n) (f ++ space :: rest) = (fun '(fs, tail) => (f :: fs, tail)) <$> fields n rest.
Proof. intros Hf. cbn [fields]. by rewrite split_once_bytes_first. Qed.

Lemma separated_lines items :
  Forall (fun i => newline ∉ i) items -> items <> [] ->
  lines_of (separated newline items ++ [newline]) = (items, []).
Proof.
  intros Hi. induction Hi as [|i items Hn Hi IH]; [done|]. intros _.
  assert (separated newline (i :: items) ++ [newline]
          = i ++ newline :: match items with [] => [] | _ => separated newline items ++ [newline] end) as ->.
  { destruct items; cbn; [done|]. by rewrite <- !app_assoc. }
  rewrite lines_of_line by done. destruct items as [|i2 items]; [done|]. by rewrite IH.
Qed.

(** ** Theorems *)

(** The stream of a batch splits back into its records.  Reading the bytes of
    a batch as RFC 5425 octet-counted frames gives exactly one message per
    record, in order, whatever the records contain; and the first seven
    space-separated fields of each message are its priority (a warning exactly
    for a denial or refusal), stamp, host, application, no process, the kind
    and no structured data, followed by the mark and the exact bytes of the
    journal line: no origin, kind or stamp can shift a field. *)
Theorem syslog_stream_splits batch origin :
  Forall json_bounded batch ->
  read_frames (length batch) (frames batch origin) = Some (map (fun r => frame_message r origin) batch)
  /\ forall r, r ∈ batch ->
       fields 7 (frame_message r origin)
       = Some ([as_bytes (if fr_adverse r then "<108>1" else "<110>1"); frame_timestamp (fr_timestamp r);
                sanitised origin 255; APP_NAME; [hyphen]; sanitised (fr_kind r) 32; [hyphen]], BOM ++ fr_json r).
Proof.
  intros Hb. split.
  - unfold frames. rewrite frames_from by done. rewrite app_nil_l. by apply read_frames_mjoin.
  - intros r _. unfold frame_message.
    assert (as_bytes "<" ++ render_u64 (frame_pri r) ++ as_bytes ">1 " = as_bytes (if fr_adverse r then "<108>1" else "<110>1") ++ [space]) as E
      by (unfold frame_pri; by destruct (fr_adverse r)).
    assert (space ∉ as_bytes (if fr_adverse r then "<108>1" else "<110>1")) as N1
      by (apply (not_graphic_free space); [done|]; destruct (fr_adverse r); by repeat constructor).
    assert (forall v m, space ∉ sanitised v m) as N2 by (intros; apply not_graphic_free; [done|apply sanitised_graphic]).
    assert (space ∉ frame_timestamp (fr_timestamp r)) as N3 by (apply not_graphic_free; [done|apply timestamp_graphic]).
    assert (space ∉ [hyphen] /\ space ∉ APP_NAME) as [N4 N5]
      by (split; apply (bool_decide_unpack _); vm_compute; exact I).
    rewrite (app_assoc (render_u64 _)), (app_assoc (as_bytes "<")), E, <- app_assoc. cbn [app].
    change (as_bytes " - ") with (space :: [hyphen] ++ [space]).
    rewrite field_step by done. rewrite field_step by done. rewrite field_step by apply N2. cbn [app].
    rewrite field_step by done. change (hyphen :: space :: ?x) with ([hyphen] ++ space :: x).
    rewrite field_step by done. rewrite field_step by apply N2.
    change (hyphen :: space :: ?x) with ([hyphen] ++ space :: x). by rewrite field_step by done.
Qed.

(** Acknowledgement over the stream: a batch is called delivered only after its
    exact frames were written and flushed on a stream the peer kept open
    through the grace, and a stream on which anything went wrong is never used
    again. *)
Theorem syslog_ack_means_written env origin batch st :
  let r := syslog_deliver env origin batch st in
  (r.2 = Ok tt -> sy_wire r.1 = sy_wire st ++ [frames batch origin] /\ sy_connected r.1 = true
     /\ sy_closed_after env = false)
  /\ (forall e, r.2 = Err e -> sy_connected r.1 = false)
  /\ (sy_connected st = true -> sy_closed_before env = true -> forall e, sy_connect env = Err e -> r.2 = Err e).
Proof.
  unfold syslog_deliver. cbv zeta. split_and!.
  - repeat case_match; cbn; naive_solver.
  - repeat case_match; cbn; naive_solver.
  - intros -> -> e ->. done.
Qed.

(** Acknowledgement over HTTP: the batch was posted, with the token of the
    moment in the header and the body made of the records' bytes, and the
    answer was a 2xx; a collector without a token is never called.  A HEC body
    splits at newlines into exactly one event per record. *)
Theorem http_ack_means_posted json_string hec_time format origin token answer batch :
  (forall s, newline ∉ json_string s) -> (forall s t, hec_time s = Some t -> newline ∉ as_bytes t) ->
  Forall (fun r => newline ∉ fr_json r) batch -> batch <> [] ->
  let r := http_deliver json_string hec_time format origin token answer batch in
  (r.2 = Ok tt -> exists post status text, r.1 = Some post /\ answer = PostAnswered status text
     /\ (200 <= status < 300)%N /\ hp_body post = http_body json_string hec_time format origin batch
     /\ (format = SplunkHec -> exists t, normalize_token token = Some t /\ hp_authorization post = Some ("Splunk " ++ t)%string))
  /\ (format = SplunkHec -> normalize_token token = None -> r.1 = None)
  /\ lines_of (http_body json_string hec_time SplunkHec origin batch ++ [newline])
      = (map (hec_event json_string hec_time origin) batch, []).
Proof.
  intros Hs Ht Hj Hne r. split_and!.
  - unfold r, http_deliver. destruct (http_request json_string hec_time format origin token batch) as [post|e] eqn:Er; [|done].
    destruct answer as [e|status text]; [done|]. cbn. destruct (200 <=? status)%N eqn:E1; [|done].
    destruct (status <? 300)%N eqn:E2; [|done]. intros _. exists post, status, text.
    apply N.leb_le in E1. apply N.ltb_lt in E2. unfold http_request in Er.
    split_and!; try done.
    + destruct (_ && _); by simplify_eq.
    + intros ->. destruct (normalize_token token) as [t|]; [|done]. exists t. by simplify_eq/=.
  - intros -> Hn. unfold r, http_deliver, http_request. by rewrite Hn.
  - cbn [http_body]. apply separated_lines; [|by destruct batch]. apply Forall_forall. intros x Hx.
    apply list_elem_of_fmap_1 in Hx as (rec & -> & Hrec). rewrite Forall_forall in Hj. apply Hj in Hrec.
    unfold hec_event, quoted_key. rewrite !not_elem_of_app. specialize (Hs origin).
    split_and!; try exact Hs; try exact Hrec; try (apply (bool_decide_unpack _); vm_compute; exact I).
    destruct (fr_timestamp rec ≫= hec_time) as [t|] eqn:E; [|apply not_elem_of_nil].
    destruct (fr_timestamp rec) as [ts|]; [|done]. cbn in E. apply Ht in E. rewrite !not_elem_of_app.
    split_and!; try exact E; apply (bool_decide_unpack _); vm_compute; exact I.
Qed.

(** The comment on the estimate says it never differs; it always does. *)
Theorem frame_estimate_never_exact r origin :
  length (frame_message r origin) + 4
  = 3 + 2 + 2 + length (frame_timestamp (fr_timestamp r)) + 1 + length (sanitised origin 255) + 1
    + length APP_NAME + 3 + length (sanitised (fr_kind r) 32) + 3 + 1 + 3 + length (fr_json r) + 3.
Proof. rewrite message_length. change (length APP_NAME) with 12. lia. Qed.

(** ** Concrete instances *)
Module ReceiverWitness.
Definition denial : ForwardRecord :=
  {| fr_seq := 7; fr_kind := "egress decision"; fr_timestamp := Some "2026-09-04T12:00:00.123Z"%string;
     fr_adverse := true; fr_json := as_bytes "{ 1 }" |}.

Lemma syslog_stream_splits_witness :
  read_frames 2 (frames [denial; denial] "gateway 0")
  = Some [frame_message denial "gateway 0"; frame_message denial "gateway 0"].
Proof.
  apply (proj1 (syslog_stream_splits [denial; denial] "gateway 0" ltac:(repeat constructor))).
Defined.

Lemma http_ack_means_posted_witness :
  lines_of (http_body (fun _ => as_bytes "host") (fun _ => None) SplunkHec "gateway" [denial; denial] ++ [newline])
  = (map (hec_event (fun _ => as_bytes "host") (fun _ => None) "gateway") [denial; denial], []).
Proof.
  assert (newline ∉ fr_json denial) as Hj by (apply (bool_decide_unpack _); vm_compute; exact I).
  refine (proj2 (proj2 (http_ack_means_posted (fun _ => as_bytes "host") (fun _ => None) SplunkHec "gateway"
    (Some "t"%string) (PostAnswered 200 None) [denial; denial] _ _ _ _))).
  - intros _. apply (bool_decide_unpack _). vm_compute. exact I.
  - done.
  - by repeat constructor.
  - done.
Defined.
End ReceiverWitness.
