(* ===== verification/Reports.v ===== *)
(** * Reports (src/src/audit/export.rs, the rule descriptions of src/src/policy/engine.rs)

    The activity export (one row per journal record the filter keeps), the
    access review (who the policy's rules apply to) and their CSV form.  chrono
    and serde_json's writer are parameters. *)
From S2P Require Import Prelude RustStr Json Glob PolicyTypes Signing PolicyEngine Inbound Chain Journal Verify.

(** ** Activity rows *)
Record ActivityRow := {
  ar_seq : N; ar_timestamp : string; ar_kind : string; ar_request_id : option string;
  ar_subject : option string; ar_tenant : option string; ar_groups : option string;
  ar_tool : option string; ar_vendor : option string; ar_environment : option string;
  ar_normalized_action : option string; ar_resource_type : option string;
  ar_resource_scope : option string; ar_request_risk : option string; ar_effect : option string;
  ar_rule_id : option string; ar_policy_version : option string; ar_reason : option string;
  ar_upstream_label : option string; ar_upstream_authority : option string; ar_outcome : option string;
  ar_duration_ms : option N; ar_egress_allowed : option N; ar_egress_denied : option N;
  ar_egress_attempted : option N; ar_version : option string;
}.

Definition walk (v : Value) (path : list string) : option Value :=
  foldl (fun cursor key => cursor ≫= fun v => value_get v key) (Some v) path.

Definition text (v : Value) (path : list string) : option string :=
  match walk v path with
  | Some (VString s) => Some s
  | Some (VNumber n) => Some n
  | Some (VBool b) => Some (if b then "true" else "false")%string
  | _ => None
  end.

Definition strings_of (items : list Value) : list string := omap as_str items.

Definition joined (v : Value) (path : list string) : option string :=
  match walk v path with
  | Some (VArray items) => Some (String.concat ";" (strings_of items))
  | _ => None
  end.

Definition as_items (v : Value) : option (list Value) := match v with VArray l => Some l | _ => None end.

Definition scope_label (v : Value) : option string :=
  scope ← walk v ["action"; "resource_scope"];
  kind ← value_get scope "kind" ≫= as_str;
  if String.eqb kind "ids" then
    Some ("ids:" ++ default "" (String.concat ";" ∘ strings_of <$> (value_get scope "ids" ≫= as_items)))%string
  else Some kind.

Definition or_else {A} (o : option A) (alternative : option A) : option A :=
  match o with Some a => Some a | None => alternative end.

Definition count_where (f : Value -> bool) (l : list Value) : N := N.of_nat (length (List.filter f l)).

Definition flatten (seq : N) (kind : string) (v : Value) : ActivityRow :=
  let requests := walk v ["egress"; "requests"] ≫= as_items in
  let allowed := count_where (fun r => bool_decide (value_get r "effect" ≫= as_str = Some "allow"%string)) in
  {| ar_seq := seq;
     ar_timestamp := default ""%string (text v ["timestamp"]);
     ar_kind := kind;
     ar_request_id := text v ["request_id"];
     ar_subject := text v ["principal"; "subject"];
     ar_tenant := text v ["principal"; "tenant"];
     ar_groups := joined v ["principal"; "groups"];
     ar_tool := text v ["tool_name"];
     ar_vendor := text v ["vendor"];
     ar_environment := or_else (text v ["action"; "environment"]) (text v ["upstream_identity"; "environment"]);
     ar_normalized_action := text v ["action"; "normalized_action"];
     ar_resource_type := text v ["action"; "resource_type"];
     ar_resource_scope := scope_label v;
     ar_request_risk := text v ["action"; "request_risk"];
     ar_effect := text v ["decision"; "effect"];
     ar_rule_id := text v ["decision"; "rule_id"];
     ar_policy_version := text v ["decision"; "policy_version"];
     ar_reason := or_else (text v ["decision"; "reason"]) (text v ["reason"]);
     ar_upstream_label := text v ["upstream_identity"; "label"];
     ar_upstream_authority := text v ["upstream_identity"; "authority"];
     ar_outcome := text v ["outcome"];
     ar_duration_ms := value_get v "duration_ms" ≫= as_u64;
     ar_egress_allowed := allowed <$> requests;
     ar_egress_denied := (fun l => N.of_nat (length l) - allowed l)%N <$> requests;
     ar_egress_attempted :=
       count_where (fun r => bool_decide (walk r ["dispatch"; "state"] ≫= as_str = Some "attempted"%string)) <$> requests;
     ar_version := text v ["version"] |}.

(** ** The filter *)
Record ActivityFilter := {
  af_since : option string; af_until : option string; af_subject : option string;
  af_vendor : option string; af_kinds : list string;
}.

Section Filter.
(** chrono's RFC 3339 parser: an instant in nanoseconds. *)
Variable rfc3339 : string -> option Z.

(** [timestamp_millis], rounding down. *)
Definition instant (timestamp : string) : option Z := (fun ns => ns / 1000000)%Z <$> rfc3339 (trim timestamp).

Definition before (timestamp bound : string) : bool :=
  match rfc3339 (trim timestamp), rfc3339 (trim bound) with
  | Some l, Some r => (l <? r)%Z
  | _, _ => negb (str_leb bound timestamp)
  end.

Definition keeps (f : ActivityFilter) (row : ActivityRow) : bool :=
  if String.eqb (ar_kind row) CHECKPOINT_KIND then false
  else if negb (bool_decide (af_kinds f = [])) && negb (bool_decide (ar_kind row ∈ af_kinds f)) then false
  else if is_some_and (af_since f) (before (ar_timestamp row)) then false
  else if is_some_and (af_until f) (fun until => negb (before (ar_timestamp row) until)) then false
  else if is_some_and (af_subject f) (fun s => negb (bool_decide (ar_subject row = Some s))) then false
  else if is_some_and (af_vendor f) (fun v => negb (bool_decide (ar_vendor row = Some v))) then false
  else true.

Record ActivityExport := { ae_rows : list ActivityRow; ae_records_read : N; ae_stopped : option string }.

Definition ROW_LIMIT_MESSAGE : string := "row_limit: narrow the time window".

(** The loop over the reader's items: its records, then its error if any. *)
Fixpoint activity_loop (f : ActivityFilter) (limit : nat) (records : list Record_) (err : option ReadError)
    (export : ActivityExport) : ActivityExport :=
  match records with
  | [] =>
      {| ae_rows := ae_rows export; ae_records_read := ae_records_read export;
         ae_stopped := or_else (read_error_display <$> err) (ae_stopped export) |}
  | r :: rest =>
      let read := (ae_records_read export + 1)%N in
      let row := flatten (seq r) (kind r) (value r) in
      if keeps f row then
        if (length (ae_rows export) =? limit)%nat then
          {| ae_rows := ae_rows export; ae_records_read := read; ae_stopped := Some ROW_LIMIT_MESSAGE |}
        else
          activity_loop f limit rest err
            {| ae_rows := ae_rows export ++ [row]; ae_records_read := read; ae_stopped := ae_stopped export |}
      else
        activity_loop f limit rest err
          {| ae_rows := ae_rows export; ae_records_read := read; ae_stopped := ae_stopped export |}
  end.

Definition activity_bounded `{Crypto} `{JournalCodec} (file : list byte) (f : ActivityFilter) (limit : nat)
    : ActivityExport :=
  let '(records, _, err) := read_journal file in
  activity_loop f limit records err {| ae_rows := []; ae_records_read := 0; ae_stopped := None |}.
End Filter.

(** ** CSV *)
Inductive Format := Jsonl | Csv.

Definition quote : byte := byte_of 34.
Definition comma : byte := byte_of 44.
Definition apostrophe : byte := byte_of 39.
Definition formula_starts : list byte := [byte_of 61; byte_of 43; byte_of 45; byte_of 64; byte_of 9; byte_of 13].
Definition special : list byte := [comma; quote; newline; byte_of 13].

Definition formula_like (field : list byte) : bool :=
  match field with c :: _ => bool_decide (c ∈ formula_starts) | [] => false end.

(** [field.replace]: every quote is doubled. *)
Definition double_quotes (field : list byte) : list byte :=
  mjoin (map (fun b => if beqb b quote then [quote; quote] else [b]) field).

Definition csv_field (field : option string) : list byte :=
  match field with
  | None => []
  | Some f =>
      let b := as_bytes f in
      if formula_like b || existsb (fun c => bool_decide (c ∈ special)) b
      then [quote] ++ (if formula_like b then [apostrophe] else []) ++ double_quotes b ++ [quote]
      else b
  end.

Fixpoint csv_fields (fields : list (option string)) : list byte :=
  match fields with
  | [] => []
  | [f] => csv_field f
  | f :: rest => csv_field f ++ [comma] ++ csv_fields rest
  end.

(** [write_csv_line]. *)
Definition csv_line (fields : list (option string)) : list byte := csv_fields fields ++ [newline].

Definition ACTIVITY_COLUMNS : list string :=
  ["seq"; "timestamp"; "kind"; "request_id"; "subject"; "tenant"; "groups"; "tool"; "vendor";
   "environment"; "normalized_action"; "resource_type"; "resource_scope"; "request_risk"; "effect";
   "rule_id"; "policy_version"; "reason"; "upstream_label"; "upstream_authority"; "outcome";
   "duration_ms"; "egress_allowed"; "egress_denied"; "egress_attempted"; "version"].

(** A row as its JSON object: every column, absent values as null. *)
Definition opt_text (o : option string) : Value := match o with Some s => VString s | None => VNull end.
Definition opt_number (o : option N) : Value :=
  match o with Some n => VNumber (of_bytes (render_u64 n)) | None => VNull end.

Definition row_value (r : ActivityRow) : Value :=
  VObject (zip ACTIVITY_COLUMNS
    [VNumber (of_bytes (render_u64 (ar_seq r))); VString (ar_timestamp r); VString (ar_kind r);
     opt_text (ar_request_id r); opt_text (ar_subject r); opt_text (ar_tenant r); opt_text (ar_groups r);
     opt_text (ar_tool r); opt_text (ar_vendor r); opt_text (ar_environment r);
     opt_text (ar_normalized_action r); opt_text (ar_resource_type r); opt_text (ar_resource_scope r);
     opt_text (ar_request_risk r); opt_text (ar_effect r); opt_text (ar_rule_id r);
     opt_text (ar_policy_version r); opt_text (ar_reason r); opt_text (ar_upstream_label r);
     opt_text (ar_upstream_authority r); opt_text (ar_outcome r); opt_number (ar_duration_ms r);
     opt_number (ar_egress_allowed r); opt_number (ar_egress_denied r); opt_number (ar_egress_attempted r);
     opt_text (ar_version r)]).

Definition activity_fields (r : ActivityRow) : list (option string) :=
  map (fun column => text (row_value r) [column]) ACTIVITY_COLUMNS.

(** [to_json] is serde_json's writer. *)
Definition write_activity (to_json : ActivityRow -> list byte) (rows : list ActivityRow) (format : Format)
    : list byte :=
  match format with
  | Jsonl => mjoin (map (fun r => to_json r ++ [newline]) rows)
  | Csv => mjoin (map csv_line (map Some ACTIVITY_COLUMNS :: map activity_fields rows))
  end.

(** ** The access review *)

(** The serialised names of the enumerations. *)
Definition resource_type_label (t : ResourceType) : string :=
  match t with
  | VendorResource => "vendor_resource" | Issue => "issue" | Project => "project" | Channel => "channel"
  | Datasource => "datasource" | Dashboard => "dashboard" | Unknown => "unknown"
  end.

Definition action_label (a : NormalizedAction) : string :=
  match a with
  | ReadVendorResource => "read_vendor_resource" | ReadIssue => "read_issue" | SearchIssues => "search_issues"
  | ReadProject => "read_project" | QueryLogs => "query_logs" | ListDatasources => "list_datasources"
  | ReadDatasource => "read_datasource" | ListChannels => "list_channels" | ReadChannel => "read_channel"
  | ReadChannelHistory => "read_channel_history" | ReadThread => "read_thread"
  | SearchMessages => "search_messages" | Passthrough => "passthrough"
  end.

Definition upstream_authority_label (a : UpstreamAuthority) : string :=
  match a with Shared => "shared" | Delegated => "delegated" end.

Definition effect_label (e : PolicyEffect) : string := match e with Allow => "allow" | Deny => "deny" end.

Record SubjectsDescription := {
  sdn_everyone : bool; sdn_groups : list string; sdn_subjects : list string; sdn_scopes : list string;
}.

Record RuleDescription := {
  rdn_id : string; rdn_effect : PolicyEffect; rdn_subjects : SubjectsDescription;
  rdn_matches : gmap string (list string);
}.

Definition glob_patterns (gs : option (list Glob.t)) : list string :=
  match gs with Some l => map Glob.pattern l | None => [] end.

Definition enum_labels {A} (label : A -> string) (values : option (list A)) : list string :=
  match values with Some l => map label l | None => [] end.

(** [put]: an empty list is not recorded. *)
Definition put (key : string) (values : list string) (m : gmap string (list string)) : gmap string (list string) :=
  match values with [] => m | _ => <[key := values]> m end.

Definition scope_kind_label (k : ScopeKind) : string :=
  match k with KindCollection => "collection" | KindUnscoped => "unscoped" end.

Definition rule_keys (r : CompiledRule) : list (string * list string) :=
  [("vendor", default [] (cr_vendor r));
   ("environment", enum_labels environment_as_str (cr_environment r));
   ("tool_name", glob_patterns (cr_tool_name r));
   ("normalized_action", enum_labels action_label (cr_action r));
   ("request_risk", enum_labels risk_as_str (cr_risk r));
   ("resource_type", enum_labels resource_type_label (cr_type r));
   ("resource_id", glob_patterns (cr_resource_id r));
   ("resource_scope", match cr_resource_scope r with Some k => [scope_kind_label k] | None => [] end);
   ("constrained_by", match cr_constrained_by r with
                      | Some (ty, gs) => map (fun g => resource_type_label ty ++ ":" ++ Glob.pattern g)%string gs
                      | None => []
                      end);
   ("upstream_authority", enum_labels upstream_authority_label (cr_authority r));
   ("method", enum_labels method_as_str (cr_method r));
   ("canonical_path", glob_patterns (cr_path r));
   ("destination_origin", default [] (cr_origin r))].

Definition describe_rule (r : CompiledRule) : RuleDescription :=
  {| rdn_id := cr_id r; rdn_effect := cr_effect r;
     rdn_subjects := {| sdn_everyone := sm_everyone (cr_subjects r);
                        sdn_groups := glob_patterns (sm_groups (cr_subjects r));
                        sdn_subjects := glob_patterns (sm_subjects (cr_subjects r));
                        sdn_scopes := glob_patterns (sm_scopes (cr_subjects r)) |};
     rdn_matches := foldl (fun m '(key, values) => put key values m) ∅ (rule_keys r) |}.

Definition describe_rules (p : CompiledPolicy) : list RuleDescription := map describe_rule (cp_rules p).

Definition described_rules_for (p : CompiledPolicy) (who : Principal) : list RuleDescription :=
  map describe_rule (rules_for p who).

(** [GroupsFile]: group to members. *)
Abbreviation GroupsFile := (gmap string (list string)).

(** [GroupsFile::subjects]: the groups of each member, in order. *)
Definition member_groups (groups : GroupsFile) (member : string) : list string :=
  merge_sort str_le (map fst (List.filter (fun p : string * list string => bool_decide (member ∈ p.2)) (map_to_list groups))).

Definition group_members (groups : GroupsFile) : list string := mjoin (map snd (map_to_list groups)).

Definition star : byte := byte_of 42.

(** Subjects a rule names without a wildcard. *)
Definition named_subjects (p : CompiledPolicy) : list string :=
  List.filter (fun s => negb (existsb (beqb star) (as_bytes s)))
    (mjoin (map (fun d => sdn_subjects (rdn_subjects d)) (describe_rules p))).

(** The keys of the map, in order. *)
Definition reviewed (p : CompiledPolicy) (groups : GroupsFile) : list string :=
  merge_sort str_le (remove_dups (group_members groups ++ named_subjects p)).

Record AccessRow := {
  acr_subject : string; acr_groups : list string; acr_rule_id : string; acr_effect : string;
  acr_matches : gmap string (list string);
}.

Definition row_for (subject : string) (groups : list string) (rule : RuleDescription) : AccessRow :=
  {| acr_subject := subject; acr_groups := groups; acr_rule_id := rdn_id rule;
     acr_effect := effect_label (rdn_effect rule); acr_matches := rdn_matches rule |}.

Definition review_principal (groups : GroupsFile) (tenant_ subject_ : string) : Principal :=
  {| tenant := tenant_; subject := subject_; groups := member_groups groups subject_;
     scopes := [DEFAULT_REQUIRED_SCOPE]; authority := Oidc "https://acme.okta.com/oauth2/default" |}.

Definition access_review (p : CompiledPolicy) (groups : GroupsFile) (tenant_ : string) : list AccessRow :=
  mjoin (map (fun s => map (row_for s (member_groups groups s))
                         (described_rules_for p (review_principal groups tenant_ s)))
           (reviewed p groups)).

Definition ACCESS_COLUMNS : list string := ["subject"; "groups"; "rule_id"; "effect"].
Definition MATCH_COLUMNS : list string :=
  ["vendor"; "environment"; "normalized_action"; "request_risk"; "resource_type"; "resource_id";
   "resource_scope"; "constrained_by"; "tool_name"; "canonical_path"; "method"; "upstream_authority"].

Definition access_fields (r : AccessRow) : list (option string) :=
  [Some (acr_subject r); Some (String.concat ";" (acr_groups r)); Some (acr_rule_id r); Some (acr_effect r)]
  ++ map (fun column => String.concat ";" <$> (acr_matches r !! column)) MATCH_COLUMNS.

Definition write_access_review (to_json : AccessRow -> list byte) (rows : list AccessRow) (format : Format)
    : list byte :=
  match format with
  | Jsonl => mjoin (map (fun r => to_json r ++ [newline]) rows)
  | Csv => mjoin (map csv_line (map Some (ACCESS_COLUMNS ++ MATCH_COLUMNS) :: map access_fields rows))
  end.

(** ** A reader of CSV *)

(** RFC 4180: where in a record the reader stands. *)
Inductive CsvState := FieldStart | Bare | Quoted | QuoteSeen.

Definition ends_field (c : byte) : bool := beqb c comma || beqb c newline.

Fixpoint csv_read (st : CsvState) (field : list byte) (record : list (list byte)) (l : list byte)
    : option (list (list (list byte))) :=
  match l with
  | [] => match st, record with FieldStart, [] => Some [] | _, _ => None end
  | c :: rest =>
      match st with
      | Quoted => csv_read (if beqb c quote then QuoteSeen else Quoted) (if beqb c quote then field else field ++ [c])
                    record rest
      | _ =>
          if beqb c comma then csv_read FieldStart [] (record ++ [field]) rest
          else if beqb c newline then cons (record ++ [field]) <$> csv_read FieldStart [] [] rest
          else if beqb c quote then
            match st with
            | FieldStart => csv_read Quoted [] record rest
            | QuoteSeen => csv_read Quoted (field ++ [quote]) record rest
            | _ => None
            end
          else
            match st with
            | QuoteSeen => None
            | _ => csv_read Bare (field ++ [c]) record rest
            end
      end
  end.

Definition csv_parse (l : list byte) : option (list (list (list byte))) := csv_read FieldStart [] [] l.

(** What a cell shows: the field, with an apostrophe before a formula. *)
Definition shown (field : option string) : list byte :=
  match field with
  | None => []
  | Some f => (if formula_like (as_bytes f) then [apostrophe] else []) ++ as_bytes f
  end.

Definition plain (c : byte) : Prop := beqb c comma = false /\ beqb c newline = false /\ beqb c quote = false.

Lemma not_special_plain c : c ∉ special -> plain c.
Proof.
  intros Hc. unfold plain, special in *.
  split; [|split]; apply not_true_iff_false; intros ->%beqb_eq; apply Hc; set_solver.
Qed.

(** Reading quoted text gives it back with its quotes single. *)
Lemma read_quoted field record body rest :
  csv_read Quoted field record (double_quotes body ++ rest) = csv_read Quoted (field ++ body) record rest.
Proof.
  revert field. induction body as [|b body IH]; intros field; [by rewrite app_nil_r|].
  unfold double_quotes. cbn [map mjoin list_join]. destruct (beqb b quote) eqn:Eb.
  - apply beqb_eq in Eb as ->. cbn [app csv_read]. change (beqb quote quote) with true.
    change (beqb quote comma) with false. change (beqb quote newline) with false. cbn [app].
    fold (double_quotes body). rewrite IH. by rewrite <-app_assoc.
  - cbn [app csv_read]. rewrite Eb. fold (double_quotes body). rewrite IH. by rewrite <-app_assoc.
Qed.

Lemma read_bare field record body rest :
  Forall plain body -> csv_read Bare field record (body ++ rest) = csv_read Bare (field ++ body) record rest.
Proof.
  revert field. induction body as [|b body IH]; intros field Hb; [by rewrite app_nil_r|].
  apply Forall_cons in Hb as [(H1 & H2 & H3) Hb]. cbn [app csv_read]. rewrite H1, H2, H3.
  rewrite IH by done. by rewrite <-app_assoc.
Qed.

(** After a field, its end closes it whatever the reader's state. *)
Lemma read_end st field record c rest :
  st <> Quoted -> ends_field c = true ->
  csv_read st field record (c :: rest) =
    if beqb c comma then csv_read FieldStart [] (record ++ [field]) rest
    else cons (record ++ [field]) <$> csv_read FieldStart [] [] rest.
Proof.
  unfold ends_field. intros Hst Hc. destruct (beqb c comma) eqn:E1; cbn [csv_read].
  - destruct st; [..|done|]; rewrite E1; done.
  - change (beqb c newline = true) in Hc. destruct st; [..|done|]; rewrite E1, Hc; done.
Qed.

Lemma read_field f record c rest :
  ends_field c = true ->
  csv_read FieldStart [] record (csv_field f ++ c :: rest) =
    if beqb c comma then csv_read FieldStart [] (record ++ [shown f]) rest
    else cons (record ++ [shown f]) <$> csv_read FieldStart [] [] rest.
Proof.
  intros Hc. destruct f as [f|]; [|by apply read_end]. cbn [csv_field shown].
  set (b := as_bytes f). set (special_in := existsb _ b).
  destruct (formula_like b || special_in) eqn:E.
  - set (q := if formula_like b then [apostrophe] else []).
    assert (Hq : csv_read FieldStart [] record (([quote] ++ q ++ double_quotes b ++ [quote]) ++ c :: rest)
                 = csv_read QuoteSeen (q ++ b) record (c :: rest)).
    { replace (([quote] ++ q ++ double_quotes b ++ [quote]) ++ c :: rest)
        with (quote :: double_quotes (q ++ b) ++ quote :: c :: rest).
      - cbn [csv_read]. change (beqb quote comma) with false. change (beqb quote newline) with false.
        change (beqb quote quote) with true. cbn iota beta. rewrite read_quoted. cbn [app csv_read].
        by change (beqb quote quote) with true.
      - unfold double_quotes. rewrite map_app, join_app. unfold q. destruct (formula_like b); cbn; by rewrite <-?app_assoc. }
    rewrite Hq. by apply read_end.
  - apply orb_false_iff in E as [-> Hs].
    assert (Hp : Forall plain b).
    { apply Forall_forall. intros x Hx. apply not_special_plain. intros Hin. apply not_true_iff_false in Hs.
      apply Hs, existsb_exists. exists x. split; [by apply list_elem_of_In|by apply bool_decide_eq_true]. }
    cbn [app]. destruct b as [|x b]; [by apply read_end|]. apply Forall_cons in Hp as [(H1 & H2 & H3) Hp].
    cbn [app csv_read]. rewrite H1, H2, H3, (read_bare [x] record b) by done. by apply read_end.
Qed.

Lemma read_fields fs record rest :
  fs <> [] ->
  csv_read FieldStart [] record (csv_fields fs ++ newline :: rest)
  = cons (record ++ map shown fs) <$> csv_read FieldStart [] [] rest.
Proof.
  revert record. induction fs as [|f fs IH]; intros record Hne; [done|]. destruct fs as [|f' fs].
  - cbn [csv_fields]. by rewrite read_field.
  - cbn [csv_fields]. change (csv_field f ++ [comma] ++ csv_fields (f' :: fs))
      with (csv_field f ++ comma :: csv_fields (f' :: fs)).
    rewrite <-app_assoc. cbn [app]. rewrite read_field by done. change (beqb comma comma) with true. cbn iota.
    rewrite IH by done. by rewrite <-app_assoc.
Qed.

Lemma csv_parse_lines rows :
  Forall (fun fs => fs <> []) rows -> csv_parse (mjoin (map csv_line rows)) = Some (map (map shown) rows).
Proof.
  unfold csv_parse. induction 1 as [|fs rows Hne Hrows IH]; [done|].
  change (mjoin (map csv_line (fs :: rows))) with (csv_line fs ++ mjoin (map csv_line rows)).
  unfold csv_line at 1. rewrite <-app_assoc. cbn [app]. rewrite read_fields by done. by rewrite IH.
Qed.

(** ** The activity loop *)
Section Activity.
Variable rfc3339 : string -> option Z.

Definition kept_rows (f : ActivityFilter) (records : list Record_) : list ActivityRow :=
  List.filter (keeps rfc3339 f) (map (fun r => flatten (seq r) (kind r) (value r)) records).

(** The loop keeps the first rows up to the limit, and stops early exactly
    when one more row would have passed. *)
Lemma activity_loop_spec f limit records err export :
  length (ae_rows export) <= limit -> ae_stopped export = None ->
  let result := activity_loop rfc3339 f limit records err export in
  ae_rows result = take limit (ae_rows export ++ kept_rows f records)
  /\ (length (ae_rows export ++ kept_rows f records) <= limit ->
      ae_records_read result = (ae_records_read export + N.of_nat (length records))%N
      /\ ae_stopped result = read_error_display <$> err)
  /\ (limit < length (ae_rows export ++ kept_rows f records) -> ae_stopped result = Some ROW_LIMIT_MESSAGE).
Proof.
  revert export. induction records as [|r records IH]; intros export Hl Hs; cbn [activity_loop].
  - unfold kept_rows. cbn. rewrite app_nil_r. split; [by rewrite take_ge|].
    split; [intros _; split; [lia|rewrite Hs; by destruct err]|lia].
  - unfold kept_rows. cbn [map List.filter]. fold (kept_rows f records).
    destruct (keeps rfc3339 f (flatten (seq r) (kind r) (value r))) eqn:Ek.
    + destruct (Nat.eqb_spec (length (ae_rows export)) limit) as [Heq|Hne].
      * cbn. split; [|split; [rewrite length_app; cbn; lia|done]].
        rewrite take_app_le by lia. by rewrite take_ge by lia.
      * destruct (IH {| ae_rows := ae_rows export ++ [flatten (seq r) (kind r) (value r)];
                        ae_records_read := ae_records_read export + 1; ae_stopped := ae_stopped export |})
          as (H1 & H2 & H3); [cbn; rewrite length_app; cbn; lia|done|].
        cbn [ae_rows ae_records_read] in *. rewrite <-app_assoc in *. cbn [app] in *.
        split; [done|]. split; [|done]. intros Hle. destruct (H2 Hle) as [-> ->]. split; [cbn [length]; lia|done].
    + destruct (IH {| ae_rows := ae_rows export; ae_records_read := ae_records_read export + 1;
                      ae_stopped := ae_stopped export |}) as (H1 & H2 & H3); [done|done|].
      cbn [ae_rows ae_records_read] in *. split; [done|]. split; [|done].
      intros Hle. destruct (H2 Hle) as [-> ->]. split; [cbn [length]; lia|done].
Qed.
End Activity.

(** ** Who the review lists *)

Lemma member_groups_spec groups member g :
  g ∈ member_groups groups member <-> exists members, groups !! g = Some members /\ member ∈ members.
Proof.
  unfold member_groups. rewrite (merge_sort_Permutation str_le). rewrite list_elem_of_fmap. split.
  - intros ([g' ms] & -> & Hin). apply list_elem_of_In, filter_In in Hin as [Hin Hm].
    apply list_elem_of_In, elem_of_map_to_list in Hin. apply bool_decide_eq_true in Hm. eauto.
  - intros (ms & Hg & Hm). exists (g, ms). split; [done|]. apply list_elem_of_In, filter_In.
    split; [by apply list_elem_of_In, elem_of_map_to_list|by apply bool_decide_eq_true].
Qed.

Lemma access_row p groups tenant_ row :
  row ∈ access_review p groups tenant_ <->
  exists r, r ∈ cp_rules p /\ acr_subject row ∈ reviewed p groups
    /\ subject_matches (cr_subjects r) (review_principal groups tenant_ (acr_subject row)) = true
    /\ row = row_for (acr_subject row) (member_groups groups (acr_subject row)) (describe_rule r).
Proof.
  unfold access_review. rewrite list_elem_of_join. split.
  - intros (l & Hrow & Hl). apply list_elem_of_fmap in Hl as (s & -> & Hs).
    apply list_elem_of_fmap in Hrow as (d & -> & Hd). unfold described_rules_for in Hd.
    apply list_elem_of_fmap in Hd as (r & -> & Hr). apply list_elem_of_In, filter_In in Hr as [Hr Hm].
    exists r. split; [by apply list_elem_of_In|]. done.
  - intros (r & Hr & Hs & Hm & ->). eexists. split; [|apply list_elem_of_fmap; eexists; split; [reflexivity|exact Hs]].
    apply list_elem_of_fmap. exists (describe_rule r). split; [done|]. apply list_elem_of_fmap. exists r.
    split; [done|]. apply list_elem_of_In, filter_In. split; [by apply list_elem_of_In|done].
Qed.

(** Whether the subjects clause matches depends on the subject, the groups as
    a set and the scopes. *)
Lemma existsb_same (f : string -> bool) l1 l2 : (forall x, x ∈ l1 <-> x ∈ l2) -> existsb f l1 = existsb f l2.
Proof.
  intros H. apply eq_bool_prop_intro. rewrite !Is_true_true, !existsb_exists.
  split; intros (x & Hx & Hf); exists x; (split; [|done]); apply list_elem_of_In, H, list_elem_of_In; done.
Qed.

Lemma subject_matches_same m p1 p2 :
  subject p1 = subject p2 -> (forall g, g ∈ groups p1 <-> g ∈ groups p2) -> scopes p1 = scopes p2 ->
  subject_matches m p1 = subject_matches m p2.
Proof.
  intros Hs Hg Hsc. unfold subject_matches. rewrite Hs, Hsc. destruct (sm_everyone m); [done|].
  destruct (sm_groups m) as [gs|]; [|done]. cbn [is_none_or]. by rewrite (existsb_same _ _ _ Hg).
Qed.

(** A described key is what the rule names. *)
Lemma put_lookup keys (m : gmap string (list string)) k :
  NoDup (map fst keys) ->
  foldl (fun m '(key, values) => put key values m) m keys !! k
  = match List.find (fun kv => String.eqb kv.1 k && negb (is_empty_list kv.2)) keys with
    | Some kv => Some kv.2
    | None => m !! k
    end.
Proof.
  revert m. induction keys as [|[key values] keys IH]; intros m Hnd; [done|]. cbn [foldl].
  apply NoDup_cons in Hnd as [Hnin Hnd]. rewrite IH by done. cbn [List.find fst snd].
  assert (Hno : String.eqb key k = true ->
                List.find (fun kv => String.eqb kv.1 k && negb (is_empty_list kv.2)) keys = None).
  { intros ->%String.eqb_eq. destruct (List.find _ keys) as [kv|] eqn:E; [|done]. exfalso.
    apply find_some in E as [Hin [He _]%andb_prop]. apply String.eqb_eq in He. apply Hnin, list_elem_of_fmap.
    exists kv. split; [done|]. by apply list_elem_of_In. }
  destruct (String.eqb key k) eqn:Ek; cbn [andb].
  - rewrite (Hno eq_refl). apply String.eqb_eq in Ek as ->. unfold put. destruct values; cbn; [done|].
    apply lookup_insert_eq.
  - destruct (List.find _ keys); [done|]. unfold put. destruct values; [done|].
    apply lookup_insert_ne. intros ->. by rewrite String.eqb_refl in Ek.
Qed.

Lemma described_key r k values :
  (k, values) ∈ rule_keys r -> values <> [] -> rdn_matches (describe_rule r) !! k = Some values.
Proof.
  intros Hk Hne. unfold describe_rule. cbn [rdn_matches].
  assert (Hnd : NoDup (map fst (rule_keys r))) by (refine (bool_decide_eq_true_1 _ _); vm_compute; reflexivity).
  rewrite put_lookup by done.
  destruct (List.find _ (rule_keys r)) as [[k' values']|] eqn:E.
  - apply find_some in E as [Hin [He _]%andb_prop]. apply String.eqb_eq in He. cbn in He. subst k'.
    apply list_elem_of_In in Hin. cbn. f_equal. revert Hnd Hk Hin. generalize (rule_keys r). intros l.
    induction l as [|[k0 v0] l IH]; intros Hnd Hk Hin; [by apply not_elem_of_nil in Hk|].
    apply NoDup_cons in Hnd as [Hn Hnd]. cbn in Hn.
    apply elem_of_cons in Hk as [[= <- <-]|Hk], Hin as [[= Hin1]|Hin]; [done|..].
    + destruct Hn. apply list_elem_of_fmap. by exists (k, values').
    + subst. destruct Hn. apply list_elem_of_fmap. by exists (k0, values).
    + by apply IH.
  - apply list_elem_of_In in Hk. apply (find_none _ _ E) in Hk. cbn in Hk. rewrite String.eqb_refl in Hk.
    by destruct values.
Qed.

(** The activity report is exactly the journal's records the filter keeps, in
    journal order: never a checkpoint, never one outside the window or of
    another subject or vendor; complete when it fits the limit, with the
    reader's own complaint if the journal is damaged, and cut at the limit with
    a notice otherwise. *)
Theorem activity_export_exact `{Crypto} `{JournalCodec} rfc3339 file f limit :
  let records := (read_journal file).1.1 in
  let err := (read_journal file).2 in
  let kept := kept_rows rfc3339 f records in
  let e := activity_bounded rfc3339 file f limit in
  ae_rows e = take limit kept
  /\ (if (length kept <=? limit)%nat
      then ae_records_read e = N.of_nat (length records) /\ ae_stopped e = read_error_display <$> err
      else ae_stopped e = Some ROW_LIMIT_MESSAGE)
  /\ (forall row, row ∈ ae_rows e ->
        ar_kind row <> CHECKPOINT_KIND
        /\ (forall s, af_since f = Some s -> before rfc3339 (ar_timestamp row) s = false)
        /\ (forall u, af_until f = Some u -> before rfc3339 (ar_timestamp row) u = true)
        /\ (forall s, af_subject f = Some s -> ar_subject row = Some s)
        /\ (forall v, af_vendor f = Some v -> ar_vendor row = Some v)).
Proof.
  intros records err kept e.
  assert (He : e = activity_loop rfc3339 f limit records err {| ae_rows := []; ae_records_read := 0; ae_stopped := None |}).
  { unfold e, activity_bounded, records, err. by destruct (read_journal file) as [[? ?] ?]. }
  destruct (activity_loop_spec rfc3339 f limit records err {| ae_rows := []; ae_records_read := 0; ae_stopped := None |})
    as (H1 & H2 & H3); [cbn; lia|done|]. cbn [ae_rows app ae_records_read] in *. rewrite <-He in H1, H2, H3. fold kept in H1, H2, H3.
  split; [done|]. split.
  { destruct (Nat.leb_spec (length kept) limit) as [Hle|Hgt]; [destruct (H2 Hle) as [-> ->]; done|by apply H3]. }
  intros row Hrow. rewrite H1 in Hrow. apply elem_of_take in Hrow as (i & Hi & _).
  apply list_elem_of_lookup_2 in Hi. apply list_elem_of_In, filter_In in Hi as [_ Hk].
  unfold keeps in Hk. destruct (String.eqb_spec (ar_kind row) CHECKPOINT_KIND) as [|Hc]; [done|].
  split; [done|]. destruct (_ && _); [done|].
  destruct (af_since f) as [s|]; cbn [is_some_and] in Hk; [destruct (before rfc3339 (ar_timestamp row) s) eqn:Es; [done|]|];
  (destruct (af_until f) as [u|]; cbn [is_some_and] in Hk; [destruct (before rfc3339 (ar_timestamp row) u) eqn:Eu; [|done]|]);
  (destruct (af_subject f) as [x|]; cbn [is_some_and] in Hk; [case_bool_decide as Ex; [|done]|]);
  (destruct (af_vendor f) as [v|]; cbn [is_some_and] in Hk; [case_bool_decide as Ev; [|done]|]);
  (split; [|split; [|split]]); intros ? [=]; subst; done.
Qed.

Lemma shown_not_formula f : formula_like (shown f) = false.
Proof.
  destruct f as [f|]; [|done]. cbn [shown]. destruct (formula_like (as_bytes f)) eqn:E; [|done].
  reflexivity.
Qed.

Lemma formula_cells {A} (fields : A -> list (option string)) rows cell :
  cell ∈ mjoin (map (fun r => map shown (fields r)) rows) -> formula_like cell = false.
Proof.
  intros Hc. apply list_elem_of_join in Hc as (cells & Hc & Hr). apply list_elem_of_fmap in Hr as (r & -> & _).
  apply list_elem_of_fmap in Hc as (f & -> & _). apply shown_not_formula.
Qed.

Lemma csv_table {A} header (fields : A -> list (option string)) rows :
  header <> [] -> map shown (map Some header) = map as_bytes header -> (forall r, fields r <> []) ->
  csv_parse (mjoin (map csv_line (map Some header :: map fields rows)))
  = Some (map as_bytes header :: map (fun r => map shown (fields r)) rows).
Proof.
  intros Hh Hs Hf. rewrite csv_parse_lines.
  - f_equal. change (map (map shown) (?a :: ?l)) with (map shown a :: map (map shown) l). by rewrite Hs, map_map.
  - constructor; [by destruct header|]. apply Forall_forall. intros fs (r & -> & _)%list_elem_of_fmap. apply Hf.
Qed.

(** An exported table is the table.  An RFC 4180 reader gets back, from either
    CSV export, the header and then one record per row with exactly the
    header's columns, each cell the field itself, whatever commas, quotes or
    line breaks it holds; and no cell starts a spreadsheet formula: those that
    would are shown behind an apostrophe. *)
Theorem export_csv_roundtrip to_json to_json' rows rows' :
  let activity := map (fun r => map shown (activity_fields r)) rows in
  let access := map (fun r => map shown (access_fields r)) rows' in
  csv_parse (write_activity to_json rows Csv) = Some (map as_bytes ACTIVITY_COLUMNS :: activity)
  /\ csv_parse (write_access_review to_json' rows' Csv)
     = Some (map as_bytes (ACCESS_COLUMNS ++ MATCH_COLUMNS) :: access)
  /\ (forall record, record ∈ activity -> length record = length ACTIVITY_COLUMNS)
  /\ (forall record, record ∈ access -> length record = length (ACCESS_COLUMNS ++ MATCH_COLUMNS))
  /\ (forall cell, cell ∈ mjoin activity ++ mjoin access -> formula_like cell = false).
Proof.
  intros activity access. split.
  { apply (csv_table ACTIVITY_COLUMNS activity_fields rows); [discriminate|vm_compute; reflexivity|discriminate]. }
  split.
  { apply (csv_table (ACCESS_COLUMNS ++ MATCH_COLUMNS) access_fields rows');
      [discriminate|vm_compute; reflexivity|discriminate]. }
  split; [intros record (r & -> & _)%list_elem_of_fmap; by rewrite length_map|].
  split; [intros record (r & -> & _)%list_elem_of_fmap; by rewrite length_map|].
  intros cell [Hc|Hc]%elem_of_app; [exact (formula_cells _ _ _ Hc)|exact (formula_cells _ _ _ Hc)].
Qed.

(** The access review is complete.  For a call by a reviewed subject, in the
    groups the file gives it and with the default scope, the rule that decides
    it, if one does, is a row of the review under that subject with that
    rule's effect; and every row is a rule of the policy whose subjects clause
    matches, with exactly the match keys the rule names. *)
Theorem access_review_complete p groups_ tenant_ c id
    (Hs : subject (ac_principal c) ∈ reviewed p groups_)
    (Hg : forall g, g ∈ groups (ac_principal c)
                    <-> exists members, groups_ !! g = Some members /\ subject (ac_principal c) ∈ members)
    (Hsc : scopes (ac_principal c) = [DEFAULT_REQUIRED_SCOPE])
    (Hid : rule_id (evaluate p c) = Some id) :
  (exists row, row ∈ access_review p groups_ tenant_
     /\ acr_subject row = subject (ac_principal c) /\ acr_rule_id row = id
     /\ acr_effect row = effect_label (effect (evaluate p c)))
  /\ (forall row, row ∈ access_review p groups_ tenant_ ->
        exists r, r ∈ cp_rules p /\ acr_rule_id row = cr_id r
          /\ subject_matches (cr_subjects r) (review_principal groups_ tenant_ (acr_subject row)) = true
          /\ forall k values, (k, values) ∈ rule_keys r -> values <> [] -> acr_matches row !! k = Some values).
Proof.
  split.
  - assert (Hd : exists r, r ∈ cp_rules p /\ applies r c /\ id = cr_id r /\ effect (evaluate p c) = cr_effect r).
    { destruct (evaluate_decides p c) as [|before r after _ Hp He Ha _|before r after _ Hp He Ha _ _|]; try done;
        injection Hid as <-; exists r; rewrite Hp, He; (split; [set_solver|done]). }
    destruct Hd as (r & Hr & Ha & -> & He).
    exists (row_for (subject (ac_principal c)) (member_groups groups_ (subject (ac_principal c))) (describe_rule r)).
    split; [|by rewrite He]. apply access_row. exists r. split; [done|]. split; [done|]. split; [|done].
    assert (Hm : subject_matches (cr_subjects r) (ac_principal c) = true).
    { apply (applies_check r c "subjects" _ Ha). unfold checks. set_solver. }
    rewrite <-Hm. apply subject_matches_same; [done| |done]. cbn. intros g. rewrite Hg. apply member_groups_spec.
  - intros row Hrow. apply access_row in Hrow as (r & Hr & _ & Hm & ->). exists r. split; [done|]. split; [done|].
    split; [done|]. intros k values Hk Hne. by apply described_key.
Qed.

(** The CSV form of a review does not show which origins a rule is limited to:
    two rules that differ only there give the same line. *)
Theorem csv_review_omits_origin s gs r origins :
  access_fields (row_for s gs (describe_rule r))
  = access_fields (row_for s gs (describe_rule
      {| cr_id := cr_id r; cr_effect := cr_effect r; cr_subjects := cr_subjects r; cr_vendor := cr_vendor r;
         cr_environment := cr_environment r; cr_tool_name := cr_tool_name r; cr_action := cr_action r;
         cr_risk := cr_risk r; cr_type := cr_type r; cr_resource_id := cr_resource_id r;
         cr_resource_scope := cr_resource_scope r; cr_constrained_by := cr_constrained_by r;
         cr_authority := cr_authority r; cr_method := cr_method r; cr_path := cr_path r;
         cr_origin := origins |})).
Proof.
  unfold access_fields. cbn [row_for acr_subject acr_groups acr_rule_id acr_effect acr_matches describe_rule rdn_id
    rdn_effect rdn_matches cr_id cr_effect]. f_equal. apply map_ext_in. intros column Hc. f_equal.
  assert (Hne : column <> "destination_origin"%string).
  { intros ->. revert Hc. vm_compute. intuition discriminate. }
  unfold rule_keys. cbn [foldl cr_vendor cr_environment cr_tool_name cr_action cr_risk cr_type cr_resource_id
    cr_resource_scope cr_constrained_by cr_authority cr_method cr_path cr_origin].
  match goal with |- put _ ?v1 ?m !! _ = put _ ?v2 _ !! _ =>
    assert (Hput : forall v, put "destination_origin" v m !! column = m !! column) end.
  { intros v. unfold put. destruct v; [done|]. by rewrite lookup_insert_ne. }
  by rewrite !Hput.
Qed.

Module ExportWitness.
(** Alice of SRE reads a datasource the policy allows. *)
Definition members : GroupsFile := <["SRE"%string := ["alice"; "bob"]%string]> ∅.

Definition alice_call : ActionContext :=
  assemble (review_principal members "acme" "alice") {| client_name := None; client_version := None |} None
    "grafana_query_logs" (details_read QueryLogs "/api/x" [] Datasource (scope_ids ["prom-1"]))
    None Example.upstream.

Lemma access_review_complete_witness :
  rule_id (evaluate Example.policy alice_call) = Some "read-prom"%string
  /\ exists row, row ∈ access_review Example.policy members "acme" /\ acr_rule_id row = "read-prom"%string.
Proof.
  split; [by vm_compute|].
  destruct (access_review_complete Example.policy members "acme" alice_call "read-prom")
    as [(row & Hrow & _ & Hid & _) _]; [| |done|by vm_compute|by exists row].
  - refine (bool_decide_eq_true_1 _ _). by vm_compute.
  - intros g. apply member_groups_spec.
Defined.
End ExportWitness.
