(* ===== verification/Admin.v ===== *)
(** * The administrative boundary (src/src/server/admin.rs, src/src/policy/admin.rs,
    src/src/ports/mutation_gate.rs)

    Every mutation asks the gate, then appends its durable intent, then takes
    effect; the policy and the deny-list are installed only as verified signed
    documents.  An operation's critical section is one function of the state:
    the answers of the disk, the journal, the blocking pool and the inner
    session manager are its environment.  Answers are kept as values, before
    they are serialized. *)
From S2P Require Import Prelude RustStr Json PolicyTypes Signing Bundle PolicyEngine Scope Revocation.
From S2P Require Import Canonical Config RateLimit ToolCall Session Inbound Reports.

(** ** The mutation gate *)
Inductive MutationKind := PolicyReload | PolicyInstall | DenyListReplace | SessionRevoke | ArtifactPurge.

Definition operation (k : MutationKind) : string :=
  match k with
  | PolicyReload => "policy/reload"
  | PolicyInstall => "policy/install"
  | DenyListReplace => "deny-list/replace"
  | SessionRevoke => "sessions/revoke"
  | ArtifactPurge => "artifacts/purge"
  end.

Record MutationIntent := {
  mi_kind : MutationKind;
  mi_principal : Principal;
  mi_target : option string;
  mi_candidate : option (list byte);
  mi_signature : option string;
}.

Inductive Admission := Apply | Deferred (proposal : string) | Refused (cause : string).

Class MutationGate (G : Type) := { gate_admit : MutationIntent -> G -> G * Admission }.

#[export] Instance DirectGate : MutationGate unit := {| gate_admit := fun _ g => (g, Apply) |}.

(** [gate_from_config]: only the direct gate is built in. *)
Definition gate_from_config (c : Config) : result unit string :=
  match to_ascii_lowercase <$> setting c APPROVALS_KEY with
  | None => Ok tt
  | Some v =>
      if String.eqb v "off" then Ok tt
      else if String.eqb v "required"
      then Err (APPROVALS_KEY ++ "=required requires the Enterprise approval adapter")%string
      else Err (APPROVALS_KEY ++ ": unknown value " ++ v)%string
  end.

(** ** Artifacts, as the boundary sees them *)
Record ArtifactEntry := { af_id : string; af_owner : OwnerKey; af_size : N; af_content_type : string }.

Class ArtifactStore (A : Type) := {
  artifact_list : A -> result (list ArtifactEntry) InventoryError;
  artifact_purge : string -> A -> A * result unit InventoryError;
}.

(** ** Errors and answers *)
Record AdminError := { err_status : N; err_code : string }.

Definition INVALID : AdminError := {| err_status := 400; err_code := "invalid_request" |}.
Definition UNAVAILABLE : AdminError := {| err_status := 503; err_code := "admin_backend_unavailable" |}.
Definition NOT_FOUND : AdminError := {| err_status := 404; err_code := "not_found" |}.
Definition AUDIT_FAILED : AdminError := {| err_status := 503; err_code := "audit_unavailable" |}.
Definition method_not_allowed : AdminError := {| err_status := 405; err_code := "method_not_allowed" |}.

Definition inventory_error (e : InventoryError) : AdminError :=
  match e with NotFound => NOT_FOUND | Session.Unavailable => UNAVAILABLE end.

Inductive PolicyAdminError := PInvalid | PUnavailable | PAuditUnavailable.

Definition policy_error (e : PolicyAdminError) : AdminError :=
  match e with PInvalid => INVALID | PUnavailable => UNAVAILABLE | PAuditUnavailable => AUDIT_FAILED end.

(** ** Installing a document in a bundle *)

(** What a mutation meets: the clock, the journal's answer and the sequence it
    acknowledges with, whether each blocking task returned, whether each of
    the two file writes succeeded. *)
Record AdminEnv := {
  ve_now : string;
  ve_append : AppendOutcome;
  ve_seq : N;
  ve_joined : bool;
  ve_write_joined : bool;
  ve_write_sidecar : bool;
  ve_write_document : bool;
  (** The inner manager's answer when a session is closed. *)
  ve_close : string -> result unit string;
}.

(** The [admin_mutation] record. *)
Definition mutation_event (env : AdminEnv) (principal : Principal) (source : string) (target : option string)
    : ControlEvent :=
  let e := event_now (ve_now env) AdminMutation in
  {| ce_timestamp := ce_timestamp e; ce_kind := ce_kind e; ce_principal := Some principal;
     ce_source := Some source; ce_previous_version := None; ce_version := target;
     ce_signature := None; ce_reason := None; ce_revoked_subjects := None; ce_revoked_tokens := None;
     ce_not_before := None |}.

(** [append_control_bounded] to the sink, if there is one. *)
Definition record_intent (sink : bool) (env : AdminEnv) (principal : Principal) (source : string)
    (target : option string) (J : list Entry) : list Entry * option N :=
  if negb sink then (J, None)
  else
    let '(J', acked) := append_control J (mutation_event env principal source target) (ve_append env) in
    (J', if acked then Some (ve_seq env) else None).

Section Bundles.
Context `{Crypto} {D : Type} `{BundleDocument D}.
Implicit Type b : SignedBundle D.

(** [FilePolicyAdmin::reload], one critical section of the bundle's lock. *)
Definition admin_reload (sink : bool) (env : AdminEnv) (principal : Principal) (disk : Disk) b (J : list Entry)
    : SignedBundle D * list Entry * result (N * bool * string) PolicyAdminError :=
  if negb (ve_joined env) then (b, J, Err PUnavailable)
  else
    let '(b1, (outcome, _)) := stage_with_digest b disk in
    match outcome with
    | Err _ => (b1, J, Err PInvalid)
    | Ok staged =>
        let target := (fun s => version (document (staged_loaded s))) <$> staged in
        match record_intent sink env principal "policy/reload" target J with
        | (J', None) => (b1, J', Err PAuditUnavailable)
        | (J', Some seq) =>
            let b2 := match staged with Some s => (commit b1 s).1 | None => b1 end in
            (b2, J', Ok (seq, bool_decide (is_Some staged), bundle_version b2))
        end
    end.

(** [FilePolicyAdmin::verify]: nothing changes. *)
Definition admin_verify (env : AdminEnv) b (document_ signature_ : string) : result (Staged D) PolicyAdminError :=
  if negb (ve_joined env) then Err PUnavailable
  else map_err (fun _ => PInvalid) (stage_candidate b (as_bytes document_) signature_).

(** The sidecar's text, as [write_detached] writes it. *)
Definition detached_text (to_base64 : Signature -> string) (sig : Signature) : string :=
  (to_base64 sig ++ String (ascii_of_N 10) "")%string.

(** [install_signed]: the sidecar first, then the document; each write is
    atomic, so a failed one leaves its file as it was. *)
Definition install_signed (to_base64 : Signature -> string) (env : AdminEnv) (bytes : list byte) (sig : Signature)
    (disk : Disk) : Disk * bool :=
  if negb (ve_write_sidecar env) then (disk, false)
  else
    let text := detached_text to_base64 sig in
    let disk := {| doc_file := doc_file disk;
                   sidecar := {| sidecar_len := Ok (N.of_nat (str_len text)); sidecar_text := Ok text |} |} in
    if negb (ve_write_document env) then (disk, false)
    else ({| doc_file := Ok bytes; sidecar := sidecar disk |}, true).

(** What [install] and the deny-list's installation share: journal, write the
    two files, commit. *)
Definition install_staged (to_base64 : Signature -> string) (sink : bool) (env : AdminEnv)
    (principal : Principal) (source : string) (sig : result Signature string) (s : Staged D) b (disk : Disk) (J : list Entry)
    : SignedBundle D * Disk * list Entry * result (N * string) PolicyAdminError :=
  match record_intent sink env principal source (Some (version (document (staged_loaded s)))) J with
  | (J', None) => (b, disk, J', Err PAuditUnavailable)
  | (J', Some seq) =>
      if negb (ve_write_joined env) then (b, disk, J', Err PUnavailable)
      else
        match sig with
        | Err _ => (b, disk, J', Err PUnavailable)
        | Ok sig =>
            match install_signed to_base64 env (staged_bytes s) sig disk with
            | (disk', false) => (b, disk', J', Err PUnavailable)
            | (disk', true) =>
                let b' := (commit b s).1 in (b', disk', J', Ok (seq, bundle_version b'))
            end
        end
  end.

(** [FilePolicyAdmin::install]: verified again under the lock. *)
Definition admin_install (to_base64 : Signature -> string) (sink : bool) (env : AdminEnv) (principal : Principal)
    (source document_ signature_ : string) b (disk : Disk) (J : list Entry)
    : SignedBundle D * Disk * list Entry * result (N * string) PolicyAdminError :=
  match admin_verify env b document_ signature_ with
  | Err e => (b, disk, J, Err e)
  | Ok staged =>
      match signature_from_base64 signature_ with
      | Err _ => (b, disk, J, Err PInvalid)
      | Ok sig => install_staged to_base64 sink env principal source (Ok sig) staged b disk J
      end
  end.
End Bundles.

(** ** Request bodies *)

(** serde's view of a struct: an object of known, distinct keys, or an array of
    at least [least] values in field order. *)
Definition struct_fields (names : list string) (least : nat) (v : Value) : option JsonMap :=
  match v with
  | VObject m =>
      if forallb (fun kv => bool_decide (kv.1 ∈ names)) m && bool_decide (NoDup (map fst m)) then Some m else None
  | VArray items =>
      if (least <=? length items)%nat && (length items <=? length names)%nat then Some (zip names items) else None
  | _ => None
  end.

Definition string_field (m : JsonMap) (key : string) : option string := map_get m key ≫= as_str.

(** An [Option] field: absent or null is [None]. *)
Definition option_field {A} (decode : Value -> option A) (m : JsonMap) (key : string) : option (option A) :=
  match map_get m key with
  | None | Some VNull => Some None
  | Some v => Some <$> decode v
  end.

Definition strings (v : Value) : option (list string) :=
  match v with VArray items => mapM as_str items | _ => None end.

(** A [Vec<String>] field with a default. *)
Definition list_field (m : JsonMap) (key : string) : option (list string) :=
  match map_get m key with None => Some [] | Some v => strings v end.

Definition decode_document (v : Value) : option string :=
  m ← struct_fields ["document"] 1 v; string_field m "document".

Definition decode_signed (v : Value) : option (string * string) :=
  m ← struct_fields ["document"; "signature"] 2 v;
  d ← string_field m "document"; s ← string_field m "signature"; Some (d, s).

Definition decode_identifier (v : Value) : option string :=
  m ← struct_fields ["id"] 1 v; string_field m "id".

Definition decode_lookup (v : Value) : option (string * string) :=
  m ← struct_fields ["subject"; "tenant"] 2 v;
  s ← string_field m "subject"; t ← string_field m "tenant"; Some (s, t).

Definition decode_groups (v : Value) : option GroupsFile :=
  m ← as_object v;
  pairs ← mapM (fun kv : string * Value => (fun l => (kv.1, l)) <$> strings kv.2) m;
  Some (foldl (fun g kv => <[kv.1 := kv.2]> g) ∅ pairs).

Definition decode_access_review (v : Value) : option (GroupsFile * string) :=
  m ← struct_fields ["groups"; "tenant"] 2 v;
  g ← map_get m "groups" ≫= decode_groups; t ← string_field m "tenant"; Some (g, t).

Definition decode_activity (v : Value) : option ActivityFilter :=
  m ← struct_fields ["since"; "until"; "subject"; "vendor"] 4 v;
  since ← option_field as_str m "since"; until ← option_field as_str m "until";
  subject_ ← option_field as_str m "subject"; vendor ← option_field as_str m "vendor";
  Some {| af_since := since; af_until := until; af_subject := subject_; af_vendor := vendor; af_kinds := [] |}.

Record Explain := {
  xp_tool : string; xp_arguments : option JsonMap; xp_subject : option string; xp_groups : list string;
  xp_scopes : list string; xp_environment : option string; xp_tenant : option string;
  xp_client_name : option string; xp_client_version : option string;
}.

Definition decode_explain (v : Value) : option Explain :=
  m ← struct_fields ["tool"; "arguments"; "subject"; "groups"; "scopes"; "environment"; "tenant";
                     "client_name"; "client_version"] 1 v;
  tool ← string_field m "tool"; arguments ← option_field as_object m "arguments";
  subject_ ← option_field as_str m "subject"; groups_ ← list_field m "groups"; scopes_ ← list_field m "scopes";
  environment ← option_field as_str m "environment"; tenant_ ← option_field as_str m "tenant";
  name ← option_field as_str m "client_name"; version_ ← option_field as_str m "client_version";
  Some {| xp_tool := tool; xp_arguments := arguments; xp_subject := subject_; xp_groups := groups_;
          xp_scopes := scopes_; xp_environment := environment; xp_tenant := tenant_;
          xp_client_name := name; xp_client_version := version_ |}.

(** ** The boundary's state *)
Record Admin (G A V : Type) := {
  ad_policy : option (SignedBundle CompiledPolicy);
  ad_policy_files : Disk;
  ad_deny : option (SignedBundle RevocationDocument);
  ad_deny_files : Disk;
  ad_sessions : option Sessions;
  ad_artifacts : option A;
  ad_gate : G;
  (** Whether the server has an audit sink, and the journal behind it. *)
  ad_sink : bool;
  ad_journal : list Entry;
  ad_validator : V;
  ad_observed : Observed;
}.
Arguments ad_policy {G A V} _. Arguments ad_policy_files {G A V} _. Arguments ad_deny {G A V} _.
Arguments ad_deny_files {G A V} _. Arguments ad_sessions {G A V} _. Arguments ad_artifacts {G A V} _.
Arguments ad_gate {G A V} _. Arguments ad_sink {G A V} _. Arguments ad_journal {G A V} _.
Arguments ad_validator {G A V} _. Arguments ad_observed {G A V} _.

Inductive Answer :=
| ADocument (version_ : string) (document_ : list byte) (sig : option SignatureStatus)
| AValidation (version_ : string) (rules : nat) (signature_verified : bool)
| ADiff (current_ candidate : string) (current_rules candidate_rules : list RuleDescription)
| AExplained (policy_version_ : string) (action : ActionContext) (configured : EnvironmentClass) (e : Explanation)
| AReloaded (audit_seq : N) (changed : bool) (version_ : string)
| AInstalled (audit_seq : N) (version_ : string)
| AMutated (audit_seq : N) (id : string)
| ASessions (rows : list (string * option OwnerKey))
| AArtifacts (rows : list ArtifactEntry)
| APrincipal (subject_ tenant_ : string) (seen : option Principal) (sessions : list (string * option OwnerKey))
    (denied : option bool)
| AUsage (report : Value)
| AAccess (rows : list AccessRow)
| AActivity (export : ActivityExport).

Inductive Outcome := Applied (a : Answer) | DeferredAs (proposal : string) (kind : MutationKind).

Section Boundary.
Context `{Crypto} {G A V : Type} `{MutationGate G} `{ArtifactStore A} `{TokenValidator V}.
Context (PB : BundleDocument CompiledPolicy) (RB : BundleDocument RevocationDocument).
(** serde_json's parser, base64, chrono, the journal report and the rollup store. *)
Context (parse_json : list byte -> option Value) (to_base64 : Signature -> string)
  (rfc3339 : string -> option Z)
  (reports : option (ActivityFilter -> option ActivityExport))
  (usage_query : Value -> bool) (usage_store : option (Value -> option Value)).
(** What [explain] reads of the server. *)
Context (server : DevtoolsServer) (text_sha256 : list byte -> list byte) (json_to_string : Value -> string)
  (form_urlencoded : list Pair -> list byte).
Implicit Type st : Admin G A V.

Definition with_gate (g : G) st : Admin G A V :=
  {| ad_policy := ad_policy st; ad_policy_files := ad_policy_files st; ad_deny := ad_deny st;
     ad_deny_files := ad_deny_files st; ad_sessions := ad_sessions st; ad_artifacts := ad_artifacts st;
     ad_gate := g; ad_sink := ad_sink st; ad_journal := ad_journal st; ad_validator := ad_validator st;
     ad_observed := ad_observed st |}.

Definition with_policy (b : SignedBundle CompiledPolicy) (files : Disk) (J : list Entry) st : Admin G A V :=
  {| ad_policy := Some b; ad_policy_files := files; ad_deny := ad_deny st;
     ad_deny_files := ad_deny_files st; ad_sessions := ad_sessions st; ad_artifacts := ad_artifacts st;
     ad_gate := ad_gate st; ad_sink := ad_sink st; ad_journal := J; ad_validator := ad_validator st;
     ad_observed := ad_observed st |}.

Definition with_deny (b : SignedBundle RevocationDocument) (files : Disk) (J : list Entry) (v : V)
    (sessions : option Sessions) st : Admin G A V :=
  {| ad_policy := ad_policy st; ad_policy_files := ad_policy_files st; ad_deny := Some b;
     ad_deny_files := files; ad_sessions := sessions; ad_artifacts := ad_artifacts st;
     ad_gate := ad_gate st; ad_sink := ad_sink st; ad_journal := J; ad_validator := v;
     ad_observed := ad_observed st |}.

Definition with_inventory (J : list Entry) (sessions : option Sessions) (artifacts : option A) st : Admin G A V :=
  {| ad_policy := ad_policy st; ad_policy_files := ad_policy_files st; ad_deny := ad_deny st;
     ad_deny_files := ad_deny_files st; ad_sessions := sessions; ad_artifacts := artifacts;
     ad_gate := ad_gate st; ad_sink := ad_sink st; ad_journal := J; ad_validator := ad_validator st;
     ad_observed := ad_observed st |}.

(** [Admin::admit]: [Ok None] is admission. *)
Definition admin_admit (intent : MutationIntent) st : Admin G A V * result (option Outcome) AdminError :=
  let '(g, answer) := gate_admit intent (ad_gate st) in
  (with_gate g st,
   match answer with
   | Apply => Ok None
   | Deferred proposal => Ok (Some (DeferredAs proposal (mi_kind intent)))
   | Refused cause =>
       if String.eqb cause (err_code AUDIT_FAILED) then Err AUDIT_FAILED
       else Err {| err_status := 409; err_code := cause |}
   end).

(** Continue only when the gate admits. *)
Definition admitted (intent : MutationIntent) st
    (k : Admin G A V -> Admin G A V * result Outcome AdminError) : Admin G A V * result Outcome AdminError :=
  match admin_admit intent st with
  | (st', Ok None) => k st'
  | (st', Ok (Some deferred)) => (st', Ok deferred)
  | (st', Err e) => (st', Err e)
  end.

Definition decoded {T} (decode : Value -> option T) (body : list byte) st
    (k : T -> Admin G A V * result Outcome AdminError) : Admin G A V * result Outcome AdminError :=
  match parse_json body ≫= decode with
  | Some t => k t
  | None => (st, Err INVALID)
  end.

Definition or_unavailable {T} (o : option T) st
    (k : T -> Admin G A V * result Outcome AdminError) : Admin G A V * result Outcome AdminError :=
  match o with Some t => k t | None => (st, Err UNAVAILABLE) end.

Definition answer st (r : result Answer AdminError) : Admin G A V * result Outcome AdminError :=
  (st, match r with Ok a => Ok (Applied a) | Err e => Err e end).

(** [candidate]: compiled, not verified. *)
Definition candidate (env : AdminEnv) (document_ : string) : result (SignedBundle CompiledPolicy) PolicyAdminError :=
  if negb (ve_joined env) then Err PUnavailable
  else map_err (fun _ => PInvalid) (from_bytes (as_bytes document_)).

Definition read_policy (b : SignedBundle CompiledPolicy) : result Answer AdminError :=
  if utf8_valid (loaded_bytes b) then Ok (ADocument (bundle_version b) (loaded_bytes b) (signature (current b)))
  else Err UNAVAILABLE.

Definition validate_policy (env : AdminEnv) (document_ : string) : result Answer AdminError :=
  match candidate env document_ with
  | Ok c => Ok (AValidation (bundle_version c) (length (cp_rules (document (current c)))) false)
  | Err e => Err (policy_error e)
  end.

Definition diff_policy (env : AdminEnv) (b : SignedBundle CompiledPolicy) (document_ : string)
    : result Answer AdminError :=
  match candidate env document_ with
  | Ok c => Ok (ADiff (bundle_version b) (bundle_version c) (describe_rules (document (current b)))
                  (describe_rules (document (current c))))
  | Err e => Err (policy_error e)
  end.

(** [Admin::explain]: the action as a tool call would build it. *)
Definition explain_action (caller : Principal) (input : Explain) : result (ActionContext * EnvironmentClass) AdminError :=
  match router server (xp_tool input) with
  | None => Err INVALID
  | Some route =>
      let? override := match xp_environment input with
                       | None => Ok None
                       | Some v => match environment_parse v with Some e => Ok (Some e) | None => Err INVALID end
                       end in
      let upstream := upstream_identity server (sv_config server)
                        (default "unknown"%string (vendor_for_tool (xp_tool input))) in
      let shown := {| up_label := up_label upstream; up_vendor := up_vendor upstream;
                      up_environment := default (up_environment upstream) override;
                      up_authority := up_authority upstream; up_provenance := up_provenance upstream |} in
      let principal :=
        {| tenant := default (tenant caller) (xp_tenant input);
           subject := default "someone@example"%string (xp_subject input);
           groups := xp_groups input;
           scopes := match xp_scopes input with [] => [DEFAULT_REQUIRED_SCOPE] | l => l end;
           authority := authority caller |} in
      Ok (for_tool_call text_sha256 json_to_string form_urlencoded principal
            (reported text_sha256 (xp_client_name input) (xp_client_version input)) (xp_tool input)
            (xp_arguments input) (risk_from_annotations (annotations route)) shown,
          up_environment upstream)
  end.

Definition explain_policy (caller : Principal) (input : Explain) st : result Answer AdminError :=
  match explain_action caller input with
  | Err e => Err e
  | Ok (context, configured) =>
      match ad_policy st with
      | None => Err UNAVAILABLE
      | Some b => Ok (AExplained (bundle_version b) context configured (explain (document (current b)) context))
      end
  end.

Definition reload_policy (env : AdminEnv) (principal : Principal) st : Admin G A V * result Outcome AdminError :=
  or_unavailable (ad_policy st) st (fun b =>
    let '(b', J, r) := admin_reload (ad_sink st) env principal (ad_policy_files st) b (ad_journal st) in
    (with_policy b' (ad_policy_files st) J st,
     match r with
     | Ok (seq, changed, v) => Ok (Applied (AReloaded seq changed v))
     | Err e => Err (policy_error e)
     end)).

Definition install_policy (env : AdminEnv) (principal : Principal) (body : list byte) st
    : Admin G A V * result Outcome AdminError :=
  decoded decode_signed body st (fun '(document_, signature_) =>
    or_unavailable (ad_policy st) st (fun b =>
      match admin_verify env b document_ signature_ with
      | Err e => (st, Err (policy_error e))
      | Ok verified =>
          admitted {| mi_kind := PolicyInstall; mi_principal := principal;
                      mi_target := Some (version (document (staged_loaded verified)));
                      mi_candidate := Some (as_bytes document_); mi_signature := Some signature_ |} st (fun st =>
            let '(b', files, J, r) := admin_install to_base64 (ad_sink st) env principal "policy/install"
                                        document_ signature_ b (ad_policy_files st) (ad_journal st) in
            (with_policy b' files J st,
             match r with
             | Ok (seq, v) => Ok (Applied (AInstalled seq v))
             | Err e => Err (policy_error e)
             end))
      end)).

(** The sessions are closed one by one; the first failure ends the loop. *)
Fixpoint close_all (env : AdminEnv) (ids : list string) (m : Sessions) : Sessions * result unit AdminError :=
  match ids with
  | [] => (m, Ok tt)
  | id :: rest =>
      match session_revoke (ve_close env id) id m with
      | (m', Ok _) => close_all env rest m'
      | (m', Err e) => (m', Err (inventory_error e))
      end
  end.

Definition install_deny_list (env : AdminEnv) (principal : Principal) (b : SignedBundle RevocationDocument)
    (s : Staged RevocationDocument) (signature_ : string) st : Admin G A V * result Outcome AdminError :=
  match install_staged to_base64 (ad_sink st) env principal "deny-list/replace"
          (signature_from_base64 signature_) s b (ad_deny_files st) (ad_journal st) with
  | (b', files, J, Err e) => (with_deny b' files J (ad_validator st) (ad_sessions st) st, Err (policy_error e))
  | (b', files, J, Ok (seq, v)) =>
      let validator := forget_validated (ad_validator st) in
      match ad_sessions st with
      | None => (with_deny b' files J validator None st, Ok (Applied (AInstalled seq v)))
      | Some m =>
          let '(m', r) := close_all env (map fst (session_list m)) m in
          (with_deny b' files J validator (Some m') st,
           match r with Ok _ => Ok (Applied (AInstalled seq v)) | Err e => Err e end)
      end
  end.

Definition replace_deny_list (env : AdminEnv) (principal : Principal) (body : list byte) st
    : Admin G A V * result Outcome AdminError :=
  decoded decode_signed body st (fun '(document_, signature_) =>
    or_unavailable (ad_deny st) st (fun b =>
      match admin_verify env b document_ signature_ with
      | Err e => (st, Err (policy_error e))
      | Ok staged =>
          admitted {| mi_kind := DenyListReplace; mi_principal := principal;
                      mi_target := Some (version (document (staged_loaded staged)));
                      mi_candidate := Some (as_bytes document_); mi_signature := Some signature_ |} st (fun st =>
            install_deny_list env principal b staged signature_ st)
      end)).

Definition revoke_session (env : AdminEnv) (principal : Principal) (m : Sessions) (id : string) st
    : Admin G A V * result Outcome AdminError :=
  admitted {| mi_kind := SessionRevoke; mi_principal := principal; mi_target := Some id;
              mi_candidate := None; mi_signature := None |} st (fun st =>
    match record_intent (ad_sink st) env principal "sessions/revoke" (Some id) (ad_journal st) with
    | (J, None) => (with_inventory J (ad_sessions st) (ad_artifacts st) st, Err AUDIT_FAILED)
    | (J, Some seq) =>
        let '(m', r) := session_revoke (ve_close env id) id m in
        (with_inventory J (Some m') (ad_artifacts st) st,
         match r with Ok _ => Ok (Applied (AMutated seq id)) | Err e => Err (inventory_error e) end)
    end).

Definition purge_artifact (env : AdminEnv) (principal : Principal) (a : A) (id : string) st
    : Admin G A V * result Outcome AdminError :=
  admitted {| mi_kind := ArtifactPurge; mi_principal := principal; mi_target := Some id;
              mi_candidate := None; mi_signature := None |} st (fun st =>
    match record_intent (ad_sink st) env principal "artifacts/purge" (Some id) (ad_journal st) with
    | (J, None) => (with_inventory J (ad_sessions st) (ad_artifacts st) st, Err AUDIT_FAILED)
    | (J, Some seq) =>
        let '(a', r) := artifact_purge id a in
        (with_inventory J (ad_sessions st) (Some a') st,
         match r with Ok _ => Ok (Applied (AMutated seq id)) | Err e => Err (inventory_error e) end)
    end).

Definition MAX_IDENTIFIER : nat := 256.

Definition owned_by (subject_ tenant_ : string) (row : string * option OwnerKey) : bool :=
  match row.2 with
  | Some (OwnerPrincipal t s) => String.eqb s subject_ && String.eqb t tenant_
  | _ => false
  end.

Definition operations : list string :=
  ["policy"; "policy/validate"; "policy/diff"; "policy/explain"; "policy/reload"; "sessions"; "sessions/revoke";
   "artifacts"; "artifacts/purge"; "deny-list"; "principals/lookup"; "usage"; "reports/access-review";
   "reports/activity"].

Definition get_operation (op : string) st : option (Admin G A V * result Outcome AdminError) :=
  if String.eqb op "policy" then
    Some (or_unavailable (ad_policy st) st (fun b => answer st (read_policy b)))
  else if String.eqb op "sessions" then
    Some (or_unavailable (ad_sessions st) st (fun m => answer st (Ok (ASessions (session_list m)))))
  else if String.eqb op "artifacts" then
    Some (or_unavailable (ad_artifacts st) st (fun a => answer st
            (match artifact_list a with Ok rows => Ok (AArtifacts rows) | Err e => Err (inventory_error e) end)))
  else if String.eqb op "deny-list" then
    Some (or_unavailable (ad_deny st) st (fun b => answer st
            (if utf8_valid (loaded_bytes b)
             then Ok (ADocument (bundle_version b) (loaded_bytes b) (signature (current b)))
             else Err UNAVAILABLE)))
  else None.

Definition post_operation (env : AdminEnv) (principal : Principal) (op : string) (body : list byte) st
    : option (Admin G A V * result Outcome AdminError) :=
  if String.eqb op "policy/validate" then
    Some (decoded decode_document body st (fun d =>
            or_unavailable (ad_policy st) st (fun _ => answer st (validate_policy env d))))
  else if String.eqb op "policy/diff" then
    Some (decoded decode_document body st (fun d =>
            or_unavailable (ad_policy st) st (fun b => answer st (diff_policy env b d))))
  else if String.eqb op "policy/explain" then
    Some (decoded decode_explain body st (fun input => answer st (explain_policy principal input st)))
  else if String.eqb op "policy/reload" then
    Some (match parse_json body with
          | Some (VObject []) =>
              admitted {| mi_kind := PolicyReload; mi_principal := principal; mi_target := None;
                          mi_candidate := None; mi_signature := None |} st (reload_policy env principal)
          | _ => (st, Err INVALID)
          end)
  else if String.eqb op "sessions/revoke" || String.eqb op "artifacts/purge" then
    Some (decoded decode_identifier body st (fun id =>
            if str_is_empty id || (MAX_IDENTIFIER <? str_len id)%nat then (st, Err INVALID)
            else if String.eqb op "sessions/revoke"
            then or_unavailable (ad_sessions st) st (fun m => revoke_session env principal m id st)
            else or_unavailable (ad_artifacts st) st (fun a => purge_artifact env principal a id st)))
  else if String.eqb op "principals/lookup" then
    Some (decoded decode_lookup body st (fun '(subject_, tenant_) =>
            or_unavailable (ad_sessions st) st (fun m => answer st
              (Ok (APrincipal subject_ tenant_ (observed_principal tenant_ subject_ (ad_observed st))
                     (List.filter (owned_by subject_ tenant_) (session_list m))
                     ((fun b => revokes_subject (document (current b)) subject_) <$> ad_deny st))))))
  else if String.eqb op "usage" then
    Some (decoded (fun v => if usage_query v then Some v else None) body st (fun q =>
            or_unavailable usage_store st (fun store =>
              or_unavailable (store q) st (fun r => answer st (Ok (AUsage r))))))
  else if String.eqb op "reports/access-review" then
    Some (decoded decode_access_review body st (fun '(groups_, tenant_) =>
            or_unavailable (ad_policy st) st (fun b =>
              if negb (ve_joined env) then (st, Err UNAVAILABLE)
              else answer st (Ok (AAccess (access_review (document (current b)) groups_ tenant_))))))
  else if String.eqb op "reports/activity" then
    Some (decoded decode_activity body st (fun f =>
            if existsb (fun bound => negb (bool_decide (is_Some (instant rfc3339 bound))))
                 (option_list (af_since f) ++ option_list (af_until f))
            then (st, Err INVALID)
            else or_unavailable reports st (fun report =>
                   or_unavailable (report f) st (fun e => answer st (Ok (AActivity e))))))
  else None.

Definition put_operation (env : AdminEnv) (principal : Principal) (op : string) (body : list byte) st
    : option (Admin G A V * result Outcome AdminError) :=
  if String.eqb op "deny-list" then Some (replace_deny_list env principal body st)
  else if String.eqb op "policy" then Some (install_policy env principal body st)
  else None.

(** [Admin::execute], with no extension. *)
Definition execute (env : AdminEnv) (principal : Principal) (method op : string) (body : list byte) st
    : Admin G A V * result Outcome AdminError :=
  let arm :=
    if String.eqb method "GET" then get_operation op st
    else if String.eqb method "POST" then post_operation env principal op body st
    else if String.eqb method "PUT" then put_operation env principal op body st
    else None in
  default (st, Err (if bool_decide (op ∈ operations) then method_not_allowed else NOT_FOUND)) arm.

(** ** What an operation may change *)

(** What a bundle keeps in force. *)
Definition in_force {D} (b : SignedBundle D) : Loaded D * list byte * option VerifyingKey :=
  (current b, loaded_bytes b, verifier b).

(** Everything an administrator can change, less the gate and the journal. *)
Definition effects st :=
  (in_force <$> ad_policy st, ad_policy_files st, in_force <$> ad_deny st, ad_deny_files st,
   ad_sessions st, ad_artifacts st, ad_validator st).

(** The effect of an admitted intent, journaled with [target], stays within
    its kind; an installed document is the candidate the gate was shown. *)
Definition within (intent : MutationIntent) (target : option string) st st' : Prop :=
  match mi_kind intent with
  | PolicyReload =>
      ad_policy_files st' = ad_policy_files st /\ ad_deny st' = ad_deny st /\ ad_deny_files st' = ad_deny_files st
      /\ ad_sessions st' = ad_sessions st /\ ad_artifacts st' = ad_artifacts st /\ ad_validator st' = ad_validator st
  | PolicyInstall =>
      (exists b', ad_policy st' = Some b'
         /\ (in_force <$> ad_policy st = Some (in_force b')
             \/ mi_candidate intent = Some (loaded_bytes b') /\ target = Some (bundle_version b')))
      /\ ad_deny st' = ad_deny st /\ ad_deny_files st' = ad_deny_files st
      /\ ad_sessions st' = ad_sessions st /\ ad_artifacts st' = ad_artifacts st /\ ad_validator st' = ad_validator st
  | DenyListReplace =>
      (exists b', ad_deny st' = Some b'
         /\ (in_force <$> ad_deny st = Some (in_force b') /\ ad_sessions st' = ad_sessions st
             \/ mi_candidate intent = Some (loaded_bytes b') /\ target = Some (bundle_version b')))
      /\ ad_policy st' = ad_policy st /\ ad_policy_files st' = ad_policy_files st
      /\ ad_artifacts st' = ad_artifacts st
  | SessionRevoke =>
      (exists id m, target = Some id /\ mi_target intent = Some id /\ ad_sessions st = Some m
         /\ ad_sessions st' = Some (forget id m))
      /\ ad_policy st' = ad_policy st /\ ad_policy_files st' = ad_policy_files st
      /\ ad_deny st' = ad_deny st /\ ad_deny_files st' = ad_deny_files st
      /\ ad_artifacts st' = ad_artifacts st /\ ad_validator st' = ad_validator st
  | ArtifactPurge =>
      (exists id a, target = Some id /\ mi_target intent = Some id /\ ad_artifacts st = Some a
         /\ ad_artifacts st' = Some (artifact_purge id a).1)
      /\ ad_policy st' = ad_policy st /\ ad_policy_files st' = ad_policy_files st
      /\ ad_deny st' = ad_deny st /\ ad_deny_files st' = ad_deny_files st
      /\ ad_sessions st' = ad_sessions st /\ ad_validator st' = ad_validator st
  end.

Definition intent_entry (env : AdminEnv) (principal : Principal) (kind : MutationKind) (target : option string)
    : Entry :=
  {| entry_event := mutation_event env principal (operation kind) target; entry_acked := true |}.

(** Nothing changed, or the gate admitted the caller's intent and its record
    is the acknowledged end of the journal. *)
Definition guarded (env : AdminEnv) (principal : Principal) st st' : Prop :=
  effects st' = effects st
  \/ exists intent target,
       mi_principal intent = principal
       /\ (gate_admit intent (ad_gate st)).2 = Apply
       /\ ad_sink st = true
       /\ ad_journal st' = ad_journal st ++ [intent_entry env principal (mi_kind intent) target]
       /\ within intent target st st'.

Lemma record_intent_acked sink env principal source target J J' seq :
  record_intent sink env principal source target J = (J', Some seq) ->
  sink = true /\ J' = J ++ [{| entry_event := mutation_event env principal source target; entry_acked := true |}]
  /\ seq = ve_seq env.
Proof.
  unfold record_intent. destruct sink; cbn; [|done]. unfold append_control.
  destruct (ve_append env) as [|[]]; cbn; intros [= <- <-]; done.
Qed.

Lemma guarded_refl env principal st : guarded env principal st st.
Proof. by left. Qed.

Lemma decoded_ind {T} (R : Admin G A V -> Prop) (decode : Value -> option T) body st k :
  R st -> (forall t, R (k t).1) -> R (decoded decode body st k).1.
Proof. intros Hr Hk. unfold decoded. by destruct (parse_json body ≫= decode). Qed.

Lemma or_unavailable_ind {T} (R : Admin G A V -> Prop) (o : option T) st k :
  R st -> (forall t, o = Some t -> R (k t).1) -> R (or_unavailable o st k).1.
Proof. intros Hr Hk. unfold or_unavailable. destruct o; [by apply Hk|done]. Qed.

(** What follows an admission may change the state only with a record. *)
Lemma admitted_guarded env principal intent st k :
  mi_principal intent = principal ->
  (forall g, let st' := (k (with_gate g st)).1 in
     effects st' = effects st
     \/ exists target, ad_sink st = true
          /\ ad_journal st' = ad_journal st ++ [intent_entry env principal (mi_kind intent) target]
          /\ within intent target st st') ->
  guarded env principal st (admitted intent st k).1.
Proof.
  intros Hp Hk. unfold admitted, admin_admit. destruct (gate_admit intent (ad_gate st)) as [g a] eqn:Eg.
  destruct a as [|proposal|cause]; [|by left|].
  - destruct (Hk g) as [He|(target & Hs & HJ & Hw)]; [by left|].
    right. exists intent, target. rewrite Eg. done.
  - destruct (String.eqb cause (err_code AUDIT_FAILED)); by left.
Qed.

Lemma session_revoke_forget {E} (r : result unit E) id m : (session_revoke r id m).1 = forget id m.
Proof.
  unfold session_revoke, close_session, forget. destruct (m !! id) eqn:E1; [done|]. cbn. by rewrite delete_id.
Qed.

Lemma revoke_session_guarded env principal m id st :
  ad_sessions st = Some m -> guarded env principal st (revoke_session env principal m id st).1.
Proof.
  intros Hm. unfold revoke_session. apply admitted_guarded; [done|]. intros g.
  destruct (record_intent _ _ _ _ _ _) as [J [seq|]] eqn:Er; [|by left]. right. exists (Some id).
  apply record_intent_acked in Er as (Hsink & -> & _).
  assert (Hf := session_revoke_forget (ve_close env id) id m).
  destruct (session_revoke (ve_close env id) id m) as [m' r]. cbn in *. subst m'.
  split; [done|]. split; [done|]. split; [by exists id, m|done].
Qed.

Lemma purge_artifact_guarded env principal a id st :
  ad_artifacts st = Some a -> guarded env principal st (purge_artifact env principal a id st).1.
Proof.
  intros Ha. unfold purge_artifact. apply admitted_guarded; [done|]. intros g.
  destruct (record_intent _ _ _ _ _ _) as [J [seq|]] eqn:Er; [|by left]. right. exists (Some id).
  apply record_intent_acked in Er as (Hsink & -> & _).
  destruct (artifact_purge id a) as [a' r] eqn:Ep. cbn in *.
  split; [done|]. split; [done|]. split; [exists id, a; by rewrite Ep|done].
Qed.

(** A reload changes what is in force only after its record is acknowledged. *)
Lemma admin_reload_cases {D} `{BundleDocument D} sink env principal disk (b : SignedBundle D) J b' J' r :
  admin_reload sink env principal disk b J = (b', J', r) ->
  in_force b' = in_force b
  \/ exists s digest, stage_inner b disk = (Ok (Some s), digest) /\ in_force b' = in_force (commit b s).1
       /\ sink = true
       /\ J' = J ++ [intent_entry env principal PolicyReload (Some (bundle_version b'))].
Proof.
  unfold admin_reload, stage_with_digest. destruct (negb (ve_joined env)); [intros [= <- <- <-]; by left|].
  destruct (stage_inner b disk) as [[[s|]|e] digest] eqn:Es; cbn.
  - destruct (record_intent _ _ _ _ _ _) as [J1 [seq|]] eqn:Er; intros [= <- <- <-]; [|by left].
    apply record_intent_acked in Er as (-> & -> & _). right. exists s, digest. done.
  - destruct (record_intent _ _ _ _ _ _) as [J1 [seq|]] eqn:Er; intros [= <- <- <-]; by left.
  - intros [= <- <- <-]. by left.
Qed.

Lemma reload_policy_guarded env principal st :
  guarded env principal st
    (admitted {| mi_kind := PolicyReload; mi_principal := principal; mi_target := None; mi_candidate := None;
                 mi_signature := None |} st (reload_policy env principal)).1.
Proof.
  apply admitted_guarded; [done|]. intros g. unfold reload_policy, or_unavailable. cbn [ad_policy with_gate].
  destruct (ad_policy st) as [b|] eqn:Eb; [|by left].
  destruct (admin_reload _ _ _ _ _ _) as [[b' J'] r] eqn:Er. apply admin_reload_cases in Er.
  destruct Er as [Hsame|(s & digest & Hs & Hc & Hsink & HJ)].
  - left. unfold effects. cbn. rewrite Eb. cbn. by rewrite Hsame.
  - right. exists (Some (bundle_version b')). cbn in *. split; [done|]. split; [done|]. done.
Qed.

Lemma stage_candidate_bytes {D} `{BundleDocument D} (b : SignedBundle D) bytes sig s :
  stage_candidate b bytes sig = Ok s -> staged_bytes s = bytes.
Proof.
  unfold stage_candidate. destruct (_ <? _)%nat; [done|]. destruct (compile bytes); [|done].
  destruct (verifier b); [|done]. destruct (signature_from_base64 sig) as [x|]; [|done]. cbn.
  destruct (verify _ _ _ _); [|done]. by intros [= <-].
Qed.

Lemma install_staged_cases {D} `{BundleDocument D} sink env principal source sig s (b : SignedBundle D) disk J b' disk' J' r :
  install_staged to_base64 sink env principal source sig s b disk J = (b', disk', J', r) ->
  (b' = b /\ disk' = disk /\ is_ok r = false)
  \/ (sink = true
      /\ J' = J ++ [{| entry_event := mutation_event env principal source
                                        (Some (version (document (staged_loaded s)))); entry_acked := true |}]
      /\ (b' = b /\ is_ok r = false \/ b' = (commit b s).1 /\ is_ok r = true)).
Proof.
  unfold install_staged. destruct (record_intent _ _ _ _ _ _) as [J1 [seq|]] eqn:Er; [|intros [= <- <- <- <-]; by left].
  apply record_intent_acked in Er as (-> & -> & _). destruct (negb (ve_write_joined env)); [intros [= <- <- <- <-]; by left|].
  destruct sig as [sig|]; [|intros [= <- <- <- <-]; by left].
  destruct (install_signed _ _ _ _ _) as [d1 [|]]; intros [= <- <- <- <-]; right;
    (split; [done|split; [done|]]); [by right|by left].
Qed.

Lemma install_policy_guarded env principal body st :
  guarded env principal st (install_policy env principal body st).1.
Proof.
  unfold install_policy. apply decoded_ind; [apply guarded_refl|]. intros [d sig].
  apply or_unavailable_ind; [apply guarded_refl|]. intros b Eb.
  destruct (admin_verify env b d sig) as [v|e] eqn:Ev; [|apply guarded_refl].
  apply admitted_guarded; [done|]. intros g. unfold admin_install. rewrite Ev.
  assert (Hbytes : staged_bytes v = as_bytes d).
  { unfold admin_verify in Ev. destruct (negb (ve_joined env)); [done|].
    destruct (stage_candidate b (as_bytes d) sig) as [x|] eqn:E; [|done]. injection Ev as <-. by eapply stage_candidate_bytes. }
  destruct (signature_from_base64 sig) as [x|] eqn:Esig; [|left; unfold effects; cbn; by rewrite Eb].
  destruct (install_staged _ _ _ _ _ _ _ _ _ _) as [[[b' files'] J'] r] eqn:Ei. apply install_staged_cases in Ei.
  destruct Ei as [(-> & -> & _)|(Hsink & HJ & Hb)].
  - left. unfold effects. cbn. by rewrite Eb.
  - right. exists (Some (version (document (staged_loaded v)))). cbn in *. split; [done|]. split; [done|].
    split; [|done]. exists b'. split; [done|]. rewrite Eb. cbn.
    destruct Hb as [[-> _]|[-> _]]; [by left|right]. cbn. by rewrite Hbytes.
Qed.

Lemma replace_deny_list_guarded env principal body st :
  guarded env principal st (replace_deny_list env principal body st).1.
Proof.
  unfold replace_deny_list. apply decoded_ind; [apply guarded_refl|]. intros [d sig].
  apply or_unavailable_ind; [apply guarded_refl|]. intros b Eb.
  destruct (admin_verify env b d sig) as [v|e] eqn:Ev; [|apply guarded_refl].
  apply admitted_guarded; [done|]. intros g. unfold install_deny_list.
  assert (Hbytes : staged_bytes v = as_bytes d).
  { unfold admin_verify in Ev. destruct (negb (ve_joined env)); [done|].
    destruct (stage_candidate b (as_bytes d) sig) as [x|] eqn:E; [|done]. injection Ev as <-. by eapply stage_candidate_bytes. }
  destruct (install_staged _ _ _ _ _ _ _ _ _ _) as [[[b' files'] J'] r] eqn:Ei. apply install_staged_cases in Ei.
  destruct Ei as [(-> & -> & Hr)|(Hsink & HJ & Hb)].
  { destruct r as [[seq x]|e]; [done|]. left. unfold effects. cbn. by rewrite Eb. }
  right. exists (Some (version (document (staged_loaded v)))).
  destruct Hb as [[-> Hr]|[-> Hr]]; destruct r as [[seq x]|e]; try done.
  - split; [done|]. split; [done|]. cbn. split; [|done]. exists b. split; [done|]. left. by rewrite Eb.
  - cbn [ad_sessions with_gate]. destruct (ad_sessions st) as [m|].
    + destruct (close_all _ _ _) as [m' rr]. split; [done|]. split; [done|]. cbn. split; [|done].
      eexists. split; [done|]. right. cbn. by rewrite Hbytes.
    + split; [done|]. split; [done|]. cbn. split; [|done]. eexists. split; [done|]. right. cbn. by rewrite Hbytes.
Qed.

(** What holds of the state and after each mutation holds after any request. *)
Lemma execute_ind (R : Admin G A V -> Prop) env principal method op body st :
  R st ->
  R (admitted {| mi_kind := PolicyReload; mi_principal := principal; mi_target := None; mi_candidate := None;
                 mi_signature := None |} st (reload_policy env principal)).1 ->
  (forall m id, ad_sessions st = Some m -> R (revoke_session env principal m id st).1) ->
  (forall a id, ad_artifacts st = Some a -> R (purge_artifact env principal a id st).1) ->
  R (install_policy env principal body st).1 -> R (replace_deny_list env principal body st).1 ->
  R (execute env principal method op body st).1.
Proof.
  intros Hst Hreload Hrevoke Hpurge Hinstall Hdeny.
  unfold execute, get_operation, post_operation, put_operation.
  repeat match goal with
  | |- R (default _ (if ?c then _ else _)).1 => destruct c
  | |- R (default _ (Some ?x)).1 => change (R x.1)
  | |- R (default _ None).1 => exact Hst
  | |- R (decoded _ _ _ _).1 => apply decoded_ind; [exact Hst|intros]
  | |- R (or_unavailable _ _ _).1 => apply or_unavailable_ind; [exact Hst|intros]
  | |- R (answer _ _).1 => exact Hst
  | |- R (let '(_, _) := ?t in _).1 => destruct t
  | |- R (match parse_json ?b with _ => _ end).1 => destruct (parse_json b) as [[| | | | |[|]]|]
  | |- R (if ?c then _ else _).1 => destruct c
  | |- R (_, _).1 => exact Hst
  end; auto.
Qed.

Lemma execute_guarded env principal method op body st :
  guarded env principal st (execute env principal method op body st).1.
Proof.
  apply (execute_ind (guarded env principal st)).
  - apply guarded_refl.
  - apply reload_policy_guarded.
  - intros. by apply revoke_session_guarded.
  - intros. by apply purge_artifact_guarded.
  - apply install_policy_guarded.
  - apply replace_deny_list_guarded.
Qed.

(** ** The process: requests, watcher polls and changing files, interleaved *)

(** The version in force has an acknowledged record. *)
Definition recorded {D} `{BundleDocument D} (b : SignedBundle D) (J : list Entry) : Prop :=
  exists e, e ∈ J /\ entry_acked e = true /\ ce_version (entry_event e) = Some (bundle_version b).

(** Authentic under its key, and recorded. *)
Definition upheld {D} `{BundleDocument D} (v : option VerifyingKey) (b : SignedBundle D) (J : list Entry) : Prop :=
  authentic v b /\ recorded b J.

Lemma upheld_frame {D} `{BundleDocument D} v (b b' : SignedBundle D) J l :
  upheld v b J -> in_force b' = in_force b -> upheld v b' (J ++ l).
Proof.
  intros [Ha (e & He & Hk & Hv)] [= E1 E2 E3]. split; [by eapply authentic_frame|].
  exists e. split; [set_solver|]. split; [done|]. rewrite Hv. unfold bundle_version. by rewrite E1.
Qed.

Lemma recorded_last {D} `{BundleDocument D} (b : SignedBundle D) J e :
  entry_acked e = true -> ce_version (entry_event e) = Some (bundle_version b) -> recorded b (J ++ [e]).
Proof. intros Ha Hv. exists e. split; [set_solver|done]. Qed.

Lemma record_intent_appends sink env principal source target J :
  exists l, (record_intent sink env principal source target J).1 = J ++ l.
Proof.
  unfold record_intent. destruct sink; cbn; [|exists []; by rewrite app_nil_r]. unfold append_control.
  destruct (ve_append env) as [|[]]; cbn; eauto. exists []. by rewrite app_nil_r.
Qed.

Lemma admin_reload_appends {D} `{BundleDocument D} sink env principal disk (b : SignedBundle D) J b' J' r :
  admin_reload sink env principal disk b J = (b', J', r) -> exists l, J' = J ++ l.
Proof.
  unfold admin_reload. destruct (negb _); [intros [= <- <- <-]; exists []; by rewrite app_nil_r|].
  destruct (stage_with_digest b disk) as [b1 [[staged|] digest]]; [|intros [= <- <- <-]; exists []; by rewrite app_nil_r].
  destruct (record_intent_appends sink env principal "policy/reload"
    ((fun s => version (document (staged_loaded s))) <$> staged) J) as [l Hl].
  destruct (record_intent _ _ _ _ _ _) as [J1 [seq|]]; intros [= <- <- <-]; eauto.
Qed.

Lemma install_staged_appends {D} `{BundleDocument D} sink env principal source sig s (b : SignedBundle D) disk J b' disk' J' r :
  install_staged to_base64 sink env principal source sig s b disk J = (b', disk', J', r) -> exists l, J' = J ++ l.
Proof.
  unfold install_staged.
  destruct (record_intent_appends sink env principal source (Some (version (document (staged_loaded s)))) J) as [l Hl].
  destruct (record_intent _ _ _ _ _ _) as [J1 [seq|]]; [|intros [= <- <- <- <-]; eauto].
  destruct (negb _); [intros [= <- <- <- <-]; eauto|]. destruct sig; [|intros [= <- <- <- <-]; eauto].
  destruct (install_signed _ _ _ _ _) as [? [|]]; intros [= <- <- <- <-]; eauto.
Qed.

Lemma tick_appends {D} `{BundleDocument D} audited i (b : SignedBundle D) J b' J' hook :
  tick audited i b J = (b', J', hook) -> exists l, J' = J ++ l.
Proof.
  assert (Happ : forall e o, exists l, (append_control J e o).1 = J ++ l).
  { intros e [|[]]; cbn; eauto. exists []. by rewrite app_nil_r. }
  assert (Hnil : exists l, J = J ++ l) by (exists []; by rewrite app_nil_r).
  unfold tick. destruct (negb _); [intros [= <- <- <-]; eauto|].
  destruct (stage_with_digest b (ti_disk i)) as [b1 [[[s|]|e] digest]].
  - destruct audited; [|intros [= <- <- <-]; eauto].
    destruct (Happ (changed_event b1 s (ti_now i)) (ti_append i)) as [l Hl].
    destruct (append_control _ _ _) as [J1 [|]]; intros [= <- <- <-]; eauto.
  - intros [= <- <- <-]; eauto.
  - destruct (negb audited); [intros [= <- <- <-]; eauto|]. case_bool_decide; [intros [= <- <- <-]; eauto|].
    destruct (Happ (rejected_event b1 {| rej_digest := digest; rej_reason := e |} (ti_now i)) (ti_append i)) as [l Hl].
    destruct (append_control _ _ _) as [J1 [|]]; intros [= <- <- <-]; eauto.
Qed.

Lemma admin_reload_upheld {D} `{BundleDocument D} v sink env principal disk (b : SignedBundle D) J b' J' r :
  admin_reload sink env principal disk b J = (b', J', r) -> upheld v b J -> upheld v b' J'.
Proof.
  intros Hr Hu. assert (Hl := admin_reload_appends _ _ _ _ _ _ _ _ _ Hr).
  apply admin_reload_cases in Hr as [Hsame|(s & digest & Hs & Hc & _ & ->)].
  - destruct Hl as [l ->]. by eapply upheld_frame.
  - assert (Hv : verifier b = v) by apply Hu. apply stage_inner_Some in Hs as (_ & _ & Ha). rewrite Hv in Ha.
    injection Hc as E1 E2 E3. split; [by apply (authentic_frame v (commit b s).1)|]. by apply recorded_last.
Qed.

Lemma stage_candidate_authentic {D} `{BundleDocument D} (b : SignedBundle D) bytes sig s :
  stage_candidate b bytes sig = Ok s -> authentic (verifier b) (commit b s).1.
Proof.
  unfold stage_candidate. destruct (Nat.ltb_spec MAX_DOCUMENT_BYTES (length bytes)) as [|Hle]; [discriminate|].
  destruct (compile bytes) as [d|] eqn:Ec; [|done]. destruct (verifier b) as [k|] eqn:Ek; [|done].
  destruct (signature_from_base64 sig) as [x|] eqn:Es; [|done]. cbn.
  destruct (verify k DOMAIN bytes x) as [[]|] eqn:Ev; [|done]. intros [= <-]. unfold authentic.
  cbn [commit fst verifier loaded_bytes current document signature staged_loaded staged_bytes].
  split; [done|]. split; [done|]. split; [exact Hle|]. split; [done|]. exists (signature_bytes x).
  apply verify_Ok in Ev. split; [done|]. by eapply signature_from_base64_len.
Qed.

Lemma install_staged_upheld {D} `{BundleDocument D} v sink env principal source sig s (b : SignedBundle D) disk J b' disk' J' r :
  install_staged to_base64 sink env principal source sig s b disk J = (b', disk', J', r) ->
  authentic (verifier b) (commit b s).1 -> upheld v b J -> upheld v b' J'.
Proof.
  intros Hi Ha Hu. assert (Hl := install_staged_appends _ _ _ _ _ _ _ _ _ _ _ _ _ Hi).
  apply install_staged_cases in Hi as [(-> & _)|(_ & HJ & [[-> _]|[-> _]])].
  - destruct Hl as [l ->]. by eapply upheld_frame.
  - destruct Hl as [l ->]. by eapply upheld_frame.
  - rewrite HJ. assert (Hv : verifier b = v) by apply Hu. rewrite Hv in Ha. split; [done|]. by apply recorded_last.
Qed.

Lemma admin_verify_authentic {D} `{BundleDocument D} env (b : SignedBundle D) d sig s :
  admin_verify env b d sig = Ok s -> authentic (verifier b) (commit b s).1.
Proof.
  unfold admin_verify. destruct (negb _); [done|]. destruct (stage_candidate b (as_bytes d) sig) as [x|] eqn:E; [|done].
  intros [= <-]. by eapply stage_candidate_authentic.
Qed.

(** A watcher's poll. *)
Lemma tick_upheld {D} `{BundleDocument D} v i (b : SignedBundle D) J b' J' hook :
  tick true i b J = (b', J', hook) -> upheld v b J -> upheld v b' J'.
Proof.
  intros Ht Hu. assert (Ha : authentic v b') by (eapply tick_authentic; [exact Ht|apply Hu]).
  assert (Hl := tick_appends _ _ _ _ _ _ _ Ht). apply tick_inv in Ht.
  destruct Ht as [Hj|digest Hs|s digest J1 b1 Hs -> Happ|s digest J1 b1 Hs _ -> Happ|e digest b1 b2 J1 Hs -> Hc].
  - done.
  - rewrite <-(app_nil_r J). by eapply upheld_frame.
  - split; [done|]. destruct (ti_append i) as [|[]]; cbn in Happ; try done. injection Happ as <-.
    apply recorded_last; [done|]. cbn. unfold changed_event.
    destruct (describe_about (document (staged_loaded s))
      (with_origin (event_now (ti_now i) KIND_changed) (path (set_reload_error b None))
         (Some (bundle_version (set_reload_error b None))) (Some (version (document (staged_loaded s))))
         (signature (staged_loaded s)))) as (_ & -> & _). done.
  - destruct Hl as [l ->]. by eapply upheld_frame.
  - destruct Hl as [l ->]. eapply upheld_frame; [exact Hu|]. by destruct Hc as [(-> & _)|[(-> & _)|(-> & _)]].
Qed.

Inductive AdminStep :=
| StRequest (env : AdminEnv) (principal : Principal) (method op : string) (body : list byte)
| StPollPolicy (i : TickInput)
| StPollDeny (i : TickInput)
| StFiles (policy_files deny_files : Disk).

(** The deny-list's change hook drops cached validations and closes sessions. *)
Definition admin_step (e : AdminStep) st : Admin G A V :=
  match e with
  | StRequest env principal method op body => (execute env principal method op body st).1
  | StPollPolicy i =>
      match ad_policy st with
      | None => st
      | Some b => let '(b', J, _) := tick (ad_sink st) i b (ad_journal st) in with_policy b' (ad_policy_files st) J st
      end
  | StPollDeny i =>
      match ad_deny st with
      | None => st
      | Some b =>
          let '(b', J, hook) := tick (ad_sink st) i b (ad_journal st) in
          match hook with
          | None => with_deny b' (ad_deny_files st) J (ad_validator st) (ad_sessions st) st
          | Some (previous, current_) =>
              with_deny b' (ad_deny_files st) J (forget_validated (ad_validator st))
                ((fun m => (revocation_hook (document previous) (document current_) m).1) <$> ad_sessions st) st
          end
      end
  | StFiles pf df =>
      {| ad_policy := ad_policy st; ad_policy_files := pf; ad_deny := ad_deny st; ad_deny_files := df;
         ad_sessions := ad_sessions st; ad_artifacts := ad_artifacts st; ad_gate := ad_gate st;
         ad_sink := ad_sink st; ad_journal := ad_journal st; ad_validator := ad_validator st;
         ad_observed := ad_observed st |}
  end.

Definition admin_run (es : list AdminStep) st : Admin G A V := foldl (fun st e => admin_step e st) st es.

(** Both documents are authentic under their keys and recorded. *)
Definition sound (pv dv : option VerifyingKey) st : Prop :=
  ad_sink st = true
  /\ (forall b, ad_policy st = Some b -> upheld pv b (ad_journal st))
  /\ (forall b, ad_deny st = Some b -> upheld dv b (ad_journal st)).

(** Nothing of the two bundles moved, the journal at most grew. *)
Lemma sound_frame pv dv st st' l :
  sound pv dv st -> ad_sink st' = ad_sink st -> ad_policy st' = ad_policy st -> ad_deny st' = ad_deny st ->
  ad_journal st' = ad_journal st ++ l -> sound pv dv st'.
Proof.
  intros (Hs & Hp & Hd) E1 E2 E3 E4. split; [by rewrite E1|]. rewrite E2, E3, E4.
  split; intros b Hb; (apply (upheld_frame _ b b); [by auto|done]).
Qed.

Lemma sound_same pv dv st st' :
  sound pv dv st -> ad_sink st' = ad_sink st -> ad_policy st' = ad_policy st -> ad_deny st' = ad_deny st ->
  ad_journal st' = ad_journal st -> sound pv dv st'.
Proof. intros Hs ? ? ? Hj. apply (sound_frame pv dv st st' []); [done..|]. by rewrite app_nil_r. Qed.

Lemma admitted_sound pv dv intent st k :
  sound pv dv st -> (forall g, sound pv dv (k (with_gate g st)).1) -> sound pv dv (admitted intent st k).1.
Proof.
  intros Hs Hk. unfold admitted, admin_admit. destruct (gate_admit intent (ad_gate st)) as [g [|p|c]]; [apply Hk|..];
    [|destruct (String.eqb _ _)]; by apply (sound_same pv dv st).
Qed.

(** One bundle moved soundly while the journal grew. *)
Lemma sound_policy pv dv st st' b b' J' :
  sound pv dv st -> ad_policy st = Some b -> (upheld pv b (ad_journal st) -> upheld pv b' J') ->
  (exists l, J' = ad_journal st ++ l) ->
  ad_sink st' = ad_sink st -> ad_policy st' = Some b' -> ad_deny st' = ad_deny st -> ad_journal st' = J' ->
  sound pv dv st'.
Proof.
  intros (Hs & Hp & Hd) Hb Hu [l Hl] E1 E2 E3 E4. split; [by rewrite E1|]. rewrite E2, E3, E4.
  split; [intros x [= <-]; auto|]. intros x Hx. rewrite Hl. apply (upheld_frame _ x x); [by auto|done].
Qed.

Lemma sound_deny pv dv st st' b b' J' :
  sound pv dv st -> ad_deny st = Some b -> (upheld dv b (ad_journal st) -> upheld dv b' J') ->
  (exists l, J' = ad_journal st ++ l) ->
  ad_sink st' = ad_sink st -> ad_deny st' = Some b' -> ad_policy st' = ad_policy st -> ad_journal st' = J' ->
  sound pv dv st'.
Proof.
  intros (Hs & Hp & Hd) Hb Hu [l Hl] E1 E2 E3 E4. split; [by rewrite E1|]. rewrite E2, E3, E4.
  split; [|intros x [= <-]; auto]. intros x Hx. rewrite Hl. apply (upheld_frame _ x x); [by auto|done].
Qed.

Lemma install_policy_sound pv dv env principal body st :
  sound pv dv st -> sound pv dv (install_policy env principal body st).1.
Proof.
  intros Hs. unfold install_policy. apply decoded_ind; [done|]. intros [d sig].
  apply or_unavailable_ind; [done|]. intros b Eb.
  destruct (admin_verify env b d sig) as [v|e] eqn:Ev; [|done]. apply admitted_sound; [done|]. intros g.
  unfold admin_install. rewrite Ev. destruct (signature_from_base64 sig) as [x|].
  - destruct (install_staged _ _ _ _ _ _ _ _ _ _) as [[[b' files'] J'] r] eqn:Ei.
    apply (sound_policy pv dv st _ b b' J'); try done.
    + intros Hu. eapply install_staged_upheld; [exact Ei|by eapply admin_verify_authentic|done].
    + exact (install_staged_appends _ _ _ _ _ _ _ _ _ _ _ _ _ Ei).
  - apply (sound_policy pv dv st _ b b (ad_journal st)); try done. exists []. by rewrite app_nil_r.
Qed.

Lemma replace_deny_list_sound pv dv env principal body st :
  sound pv dv st -> sound pv dv (replace_deny_list env principal body st).1.
Proof.
  intros Hs. unfold replace_deny_list. apply decoded_ind; [done|]. intros [d sig].
  apply or_unavailable_ind; [done|]. intros b Eb.
  destruct (admin_verify env b d sig) as [v|e] eqn:Ev; [|done]. apply admitted_sound; [done|]. intros g.
  unfold install_deny_list. destruct (install_staged _ _ _ _ _ _ _ _ _ _) as [[[b' files'] J'] r] eqn:Ei.
  assert (Hu : upheld dv b (ad_journal st) -> upheld dv b' J').
  { intros Hu. eapply install_staged_upheld; [exact Ei|by eapply admin_verify_authentic|done]. }
  apply install_staged_appends in Ei.
  destruct r as [[seq x]|e]; [cbn [ad_sessions with_gate]; destruct (ad_sessions st) as [m|]; [destruct (close_all _ _ _)|]|];
    by apply (sound_deny pv dv st _ b b' J').
Qed.

Lemma inventory_sound pv dv st J sessions artifacts sink env principal source target :
  sound pv dv st -> (record_intent sink env principal source target (ad_journal st)).1 = J ->
  sound pv dv (with_inventory J sessions artifacts st).
Proof.
  intros Hs HJ. destruct (record_intent_appends sink env principal source target (ad_journal st)) as [l Hl].
  apply (sound_frame pv dv st _ l); try done. cbn. congruence.
Qed.

Lemma execute_sound pv dv env principal method op body st :
  sound pv dv st -> sound pv dv (execute env principal method op body st).1.
Proof.
  intros Hs. apply execute_ind; [done|..].
  - apply admitted_sound; [done|]. intros g. unfold reload_policy. apply or_unavailable_ind; [by apply (sound_same pv dv st)|].
    intros b Eb. destruct (admin_reload _ _ _ _ _ _) as [[b' J'] r] eqn:Er.
    apply (sound_policy pv dv st _ b b' J'); try done.
    + intros Hu. exact (admin_reload_upheld _ _ _ _ _ _ _ _ _ _ Er Hu).
    + exact (admin_reload_appends _ _ _ _ _ _ _ _ _ Er).
  - intros m id Hm. unfold revoke_session. apply admitted_sound; [done|]. intros g.
    destruct (record_intent _ _ _ _ _ _) as [J [seq|]] eqn:Er; [destruct (session_revoke _ _ _)|];
      (eapply inventory_sound; [by apply (sound_same pv dv st)|]); by rewrite Er.
  - intros a id Ha. unfold purge_artifact. apply admitted_sound; [done|]. intros g.
    destruct (record_intent _ _ _ _ _ _) as [J [seq|]] eqn:Er; [destruct (artifact_purge _ _)|];
      (eapply inventory_sound; [by apply (sound_same pv dv st)|]); by rewrite Er.
  - by apply install_policy_sound.
  - by apply replace_deny_list_sound.
Qed.

Lemma admin_step_sound pv dv e st : sound pv dv st -> sound pv dv (admin_step e st).
Proof.
  intros Hs. destruct e as [env principal method op body|i|i|pf df]; cbn [admin_step].
  - by apply execute_sound.
  - destruct (ad_policy st) as [b|] eqn:Eb; [|done]. assert (Hk := proj1 Hs). rewrite Hk.
    destruct (tick true i b (ad_journal st)) as [[b' J'] hook] eqn:Et.
    apply (sound_policy pv dv st _ b b' J'); try done; [intros Hu; exact (tick_upheld _ _ _ _ _ _ _ Et Hu)|exact (tick_appends _ _ _ _ _ _ _ Et)].
  - destruct (ad_deny st) as [b|] eqn:Eb; [|done]. assert (Hk := proj1 Hs). rewrite Hk.
    destruct (tick true i b (ad_journal st)) as [[b' J'] hook] eqn:Et.
    destruct hook as [[previous current_]|];
      (apply (sound_deny pv dv st _ b b' J'); try done; [intros Hu; exact (tick_upheld _ _ _ _ _ _ _ Et Hu)|exact (tick_appends _ _ _ _ _ _ _ Et)]).
  - by apply (sound_same pv dv st).
Qed.

Lemma admin_run_sound pv dv es st : sound pv dv st -> sound pv dv (admin_run es st).
Proof. revert st. induction es as [|e es IH]; intros st Hs; [done|]. cbn. by apply IH, admin_step_sound. Qed.

(** The state once both documents are loaded and their loads acknowledged. *)
Definition admin_start (pb : SignedBundle CompiledPolicy) (db : SignedBundle RevocationDocument) (at_ : string)
    (files dfiles : Disk) (sessions : option Sessions) (artifacts : option A) (g : G) (v : V) : Admin G A V :=
  {| ad_policy := Some pb; ad_policy_files := files; ad_deny := Some db; ad_deny_files := dfiles;
     ad_sessions := sessions; ad_artifacts := artifacts; ad_gate := g; ad_sink := true;
     ad_journal := (journal_in_force db (journal_in_force pb [] at_ Acked).1 at_ Acked).1;
     ad_validator := v; ad_observed := ∅ |}.

Lemma loaded_recorded {D} `{BundleDocument D} (b : SignedBundle D) J at_ :
  recorded b (journal_in_force b J at_ Acked).1.
Proof.
  unfold journal_in_force. cbn. apply recorded_last; [done|]. cbn. unfold loaded_event.
  by destruct (describe_about (document (current b))
    (with_origin (event_now at_ KIND_loaded) (path b) None (Some (bundle_version b)) (signature (current b))))
    as (_ & -> & _).
Qed.

Lemma admin_start_sound pv dv p p' disk disk' pb db at_ files dfiles sessions artifacts g v :
  load_with p pv disk = Ok pb -> load_with p' dv disk' = Ok db ->
  sound pv dv (admin_start pb db at_ files dfiles sessions artifacts g v).
Proof.
  intros Hp Hd. split; [done|]. split; intros b [= <-]; (split; [by eapply load_with_authentic|]).
  - destruct (loaded_recorded pb [] at_) as (e & He & Hk). exists e. split; [|done]. cbn in *. set_solver.
  - apply loaded_recorded.
Qed.

(** C13: No administrative change without admission and evidence.  Whatever the
    request, either nothing an administrator can change has changed, or the
    gate admitted an intent of this caller, the acknowledged end of the journal
    is that intent's record under the caller's name, and the change stays
    within the intent's kind: an installed policy or deny-list is exactly the
    candidate the gate was shown, a revocation removes exactly the named
    session.  Without an audit sink, or when the gate admits nothing, nothing
    changes. *)
Theorem admin_mutation_guarded env principal method op body st :
  let st' := (execute env principal method op body st).1 in
  guarded env principal st st'
  /\ (ad_sink st = false -> effects st' = effects st)
  /\ ((forall intent, (gate_admit intent (ad_gate st)).2 <> Apply) -> effects st' = effects st).
Proof.
  intros st'. assert (Hg := execute_guarded env principal method op body st). fold st' in Hg.
  split; [done|]. destruct Hg as [He|(intent & target & _ & Ha & Hs & _)]; [done|].
  split; [congruence|]. intros Hn. by destruct (Hn intent).
Qed.

(** Whatever happens to a running server - administrative requests, watcher
    polls of either document, files changing underneath, journal and disk
    failures, in any order - the policy and the deny-list in force are always
    documents signed by the configured key in their own domain, compiled from
    the bytes in force, and the journal holds an acknowledged record of the
    version in force. *)
Theorem admin_documents_upheld pv dv p p' disk disk' (pb : SignedBundle CompiledPolicy)
    (db : SignedBundle RevocationDocument) at_ files dfiles sessions artifacts g v es
    (Hp : load_with p pv disk = Ok pb) (Hd : load_with p' dv disk' = Ok db) :
  let st := admin_run es (admin_start pb db at_ files dfiles sessions artifacts g v) in
  (forall b, ad_policy st = Some b -> authentic pv b /\ recorded b (ad_journal st))
  /\ (forall b, ad_deny st = Some b -> authentic dv b /\ recorded b (ad_journal st)).
Proof.
  intros st. destruct (admin_run_sound pv dv es _ (admin_start_sound pv dv p p' disk disk' pb db at_ files dfiles
    sessions artifacts g v Hp Hd)) as (_ & H1' & H2'). done.
Qed.

(** An installed document survives a restart: when [install] reports success,
    loading the bundle again from the files it left gives the same document
    under the same key. *)
Theorem installed_document_survives {D} `{BundleDocument D} sink env principal source document_ signature_
    (b : SignedBundle D) disk J b' disk' J' seq v
    (Hbase64 : forall s, length (signature_bytes s) = SIGNATURE_LEN ->
       signature_from_base64 (detached_text to_base64 s) = Ok s /\ (str_len (detached_text to_base64 s) <= 256)%nat)
    (Hi : admin_install to_base64 sink env principal source document_ signature_ b disk J
          = (b', disk', J', Ok (seq, v))) :
  exists b'', load_with (path b) (verifier b) disk' = Ok b''
    /\ current b'' = current b' /\ loaded_bytes b'' = loaded_bytes b' /\ loaded_bytes b' = as_bytes document_
    /\ v = bundle_version b'.
Proof.
  unfold admin_install, admin_verify in Hi. destruct (negb (ve_joined env)); [done|].
  destruct (stage_candidate b (as_bytes document_) signature_) as [s|] eqn:Es; [|done]. cbn in Hi.
  destruct (signature_from_base64 signature_) as [sig|] eqn:Esig; [|done].
  unfold install_staged in Hi. destruct (record_intent _ _ _ _ _ _) as [J1 [q|]]; [|done].
  destruct (negb (ve_write_joined env)); [done|]. unfold install_signed in Hi.
  destruct (negb (ve_write_sidecar env)); [done|]. destruct (negb (ve_write_document env)); [done|].
  cbn -[detached_text] in Hi. injection Hi as <- <- <- <- <-.
  assert (Hbytes := stage_candidate_bytes _ _ _ _ Es). revert Es. unfold stage_candidate.
  destruct (Nat.ltb_spec MAX_DOCUMENT_BYTES (length (as_bytes document_))) as [|Hle]; [discriminate|].
  destruct (compile (as_bytes document_)) as [d|] eqn:Ec; [|done]. destruct (verifier b) as [k|] eqn:Ek; [|done].
  rewrite Esig. cbn [map_err]. destruct (verify k DOMAIN (as_bytes document_) sig) as [[]|] eqn:Ev; [|done].
  intros [= <-]. destruct (Hbase64 sig) as [Hround Hlen]; [by eapply signature_from_base64_len|].
  unfold load_with, read_document, read_bytes. cbn [doc_file sidecar staged_bytes].
  rewrite (proj2 (Nat.ltb_ge _ _) Hle). unfold verify_bytes, read_detached. cbn [sidecar sidecar_len sidecar_text].
  assert (Hshort : (MAX_SIGNATURE_FILE_BYTES <? N.of_nat (str_len (detached_text to_base64 sig)))%N = false).
  { apply N.ltb_ge. change MAX_SIGNATURE_FILE_BYTES with (N.of_nat 256). lia. }
  rewrite Hshort, Hround. cbn [map_err]. rewrite Ev. cbn [map_err]. rewrite Ec.
  eexists. split; [reflexivity|]. done.
Qed.
End Boundary.

Module AdminWitness.
(** One key signs both documents; artifacts are a set of ids; tokens are not
    cached. *)
#[local] Existing Instance Bundle.Witness.toy_crypto.

Definition policy_doc : BundleDocument CompiledPolicy := policy_bundle Example.yaml (fun _ => "invalid"%string).
Definition deny_doc : BundleDocument RevocationDocument :=
  revocation_bundle (fun _ => Ok revocation_empty) (fun _ => None).

#[local] Instance artifacts_set : ArtifactStore (list string) :=
  {| artifact_list := fun _ => Ok [];
     artifact_purge := fun id a => (List.filter (fun x => negb (String.eqb x id)) a, Ok tt) |}.
#[local] Instance no_validator : TokenValidator unit :=
  {| authenticate := fun _ v => (v, Err UnknownToken); forget_validated := fun v => v |}.

Definition files : Disk :=
  {| doc_file := Ok (as_bytes "doc");
     sidecar := {| sidecar_len := Ok 64%N;
                   sidecar_text := Ok (String.concat "" (repeat "k" 64)) |} |}.
Definition key : VerifyingKey := {| key_bytes := as_bytes "k" |}.

Definition pb : SignedBundle CompiledPolicy :=
  match load_with (H0 := policy_doc) "policy.yaml" (Some key) files with
  | Ok b => b
  | Err _ => {| path := ""; verifier := None; current := {| document := Example.policy; signature := None |};
                loaded_bytes := []; last_reload_error := None; last_journaled_rejection := None |}
  end.
Definition empty_deny : RevocationDocument :=
  {| rd_version := ""; rd_subjects := ∅; rd_token_ids := ∅; rd_not_before := None; rd_not_before_label := None |}.
Definition db : SignedBundle RevocationDocument :=
  match load_with (H0 := deny_doc) "deny.yaml" (Some key) files with
  | Ok b => b
  | Err _ => {| path := ""; verifier := None; current := {| document := empty_deny; signature := None |};
                loaded_bytes := []; last_reload_error := None; last_journaled_rejection := None |}
  end.

Lemma admin_documents_upheld_witness :
  verifier pb = Some key
  /\ forall es b,
       ad_policy (admin_run policy_doc deny_doc (fun _ => None) (fun _ => ""%string) (fun _ => None) None
                    (fun _ => true) None (CallWitness.server CallWitness.enforcing) (fun l => l) (fun _ => ""%string) (fun _ => [])
                    es (admin_start policy_doc deny_doc pb db "t0" files files None None tt tt)) = Some b ->
       authentic (H0 := policy_doc) (Some key) b.
Proof.
  split; [by vm_compute|]. intros es b Hb.
  apply (admin_documents_upheld policy_doc deny_doc (fun _ => None) (fun _ => ""%string) (fun _ => None) None
           (fun _ => true) None (CallWitness.server CallWitness.enforcing) (fun l => l) (fun _ => ""%string) (fun _ => [])
           (Some key) (Some key) "policy.yaml" "deny.yaml" files files pb db "t0" files files None None tt tt es);
    [by vm_compute|by vm_compute|exact Hb].
Defined.
End AdminWitness.
