(* ===== verification/SqlGuard.v ===== *)
(** * The read-only SQL guard (src/src/vendor/ninjaone_db/read_only_sql.rs)

    The scanner works on the bytes of the text; a state of its loop is the
    bytes not yet read.  Its reference is a grammar of lexical elements: quoted
    values, comments, dollar quotes, punctuation, words and other bytes. *)
From S2P Require Import Prelude RustStr.

Definition WRITE_KEYWORDS : list string :=
  ["alter"; "analyze"; "call"; "cluster"; "comment"; "copy"; "create"; "delete"; "do"; "drop"; "grant";
   "insert"; "into"; "merge"; "refresh"; "reindex"; "revoke"; "security"; "set"; "truncate"; "update"; "vacuum"].

Definition apostrophe : byte := byte_of 39.
Definition dquote : byte := byte_of 34.
Definition dash : byte := byte_of 45.
Definition slash : byte := byte_of 47.
Definition star : byte := byte_of 42.
Definition dollar : byte := byte_of 36.
Definition underscore : byte := byte_of 95.
Definition nl : byte := byte_of 10.

Definition word_start (b : byte) : bool := is_ascii_alphabetic b || beqb b underscore.
Definition word_byte (b : byte) : bool := is_ascii_alphanumeric b || beqb b underscore.
Definition punctuation (b : byte) : bool :=
  beqb b (byte_of 40) || beqb b (byte_of 41) || beqb b (byte_of 59).

(** The text after the closing quote; a doubled quote does not close. *)
Fixpoint skip_quoted (q : byte) (l : list byte) : option (list byte) :=
  match l with
  | [] => None
  | c :: rest =>
      if beqb c q then
        match rest with
        | c' :: rest' => if beqb c' q then skip_quoted q rest' else Some rest
        | [] => Some []
        end
      else skip_quoted q rest
  end.

Fixpoint skip_line (l : list byte) : list byte :=
  match l with
  | [] => []
  | c :: rest => if beqb c nl then l else skip_line rest
  end.

(** [str::find], as the text after the first occurrence. *)
Fixpoint after (needle l : list byte) : option (list byte) :=
  if starts_with_bytes l needle then Some (drop (length needle) l)
  else match l with [] => None | _ :: rest => after needle rest end.

(** The longest run of word bytes, and what follows. *)
Fixpoint span_word (l : list byte) : list byte * list byte :=
  match l with
  | [] => ([], [])
  | c :: rest => if word_byte c then let '(w, r) := span_word rest in (c :: w, r) else ([], l)
  end.

(** One element at the front of the text: the token it gives, if any, and the
    rest. *)
Definition next (c : byte) (rest : list byte) : result (option string * list byte) string :=
  if beqb c apostrophe || beqb c dquote then
    match skip_quoted c rest with
    | Some r => Ok (None, r)
    | None => Err "SQL contains an unterminated quoted value"%string
    end
  else if beqb c dash && bool_decide (head rest = Some dash) then Ok (None, skip_line (drop 1 rest))
  else if beqb c slash && bool_decide (head rest = Some star) then
    match after [star; slash] (drop 1 rest) with
    | Some r => Ok (None, r)
    | None => Err "SQL contains an unterminated block comment"%string
    end
  else if beqb c dollar then
    let '(tag, r) := span_word rest in
    match r with
    | c' :: body =>
        if beqb c' dollar then
          match after ([dollar] ++ tag ++ [dollar]) body with
          | Some r => Ok (None, r)
          | None => Err "SQL contains an unterminated dollar quote"%string
          end
        else Ok (None, rest)
    | [] => Ok (None, rest)
    end
  else if punctuation c then Ok (Some (of_bytes [c]), rest)
  else if word_start c then
    let '(w, r) := span_word rest in Ok (Some (to_ascii_lowercase (of_bytes (c :: w))), r)
  else Ok (None, rest).

(** The loop; every iteration reads at least one byte. *)
Fixpoint tokenize_loop (fuel : nat) (l : list byte) : result (list string) string :=
  match fuel, l with
  | _, [] => Ok []
  | O, _ => Err "fuel"%string
  | S fuel', c :: rest =>
      let? '(token, r) := next c rest in
      let? tokens := tokenize_loop fuel' r in
      Ok (option_list token ++ tokens)
  end.

Definition tokenize (sql : string) : result (list string) string :=
  let l := as_bytes sql in tokenize_loop (length l) l.

Definition pop_semicolon (tokens : list string) : list string :=
  match last tokens with
  | Some t => if String.eqb t ";" then removelast tokens else tokens
  | None => tokens
  end.

(** The scan of a [WITH] query for a select at depth zero; [u32] depth,
    saturating both ways. *)
Definition U32_MAX : N := 4294967295.

Fixpoint top_level_select (depth : N) (tokens : list string) : bool :=
  match tokens with
  | [] => false
  | t :: rest =>
      if String.eqb t "(" then top_level_select (N.min (depth + 1) U32_MAX) rest
      else if String.eqb t ")" then top_level_select (depth - 1) rest
      else if String.eqb t "select" && (depth =? 0)%N then true
      else top_level_select depth rest
  end.

Definition validate (sql : string) : result unit string :=
  let? tokens := tokenize sql in
  let tokens := pop_semicolon tokens in
  if bool_decide (tokens = []) || existsb (String.eqb ";") tokens
  then Err "SQL must contain exactly one statement"%string
  else
    match List.find (fun t => bool_decide (t ∈ WRITE_KEYWORDS)) tokens with
    | Some keyword => Err ("SQL keyword `" ++ keyword ++ "` is not allowed; only read-only SELECT queries are accepted")%string
    | None =>
        match tokens with
        | first :: rest =>
            if String.eqb first "select" then Ok tt
            else if String.eqb first "with" then
              if top_level_select 0 rest then Ok tt else Err "WITH query must end in a top-level SELECT"%string
            else Err "SQL must begin with SELECT or WITH and end in a SELECT"%string
        | [] => Err "SQL must begin with SELECT or WITH and end in a SELECT"%string
        end
    end.

(** ** The reference: lexical elements *)
Inductive Elem :=
| Quoted (q : byte) (text : list byte)
| LineComment (text : list byte)
| BlockComment (text : list byte)
| DollarQuoted (tag text : list byte)
| Punct (c : byte)
| Word (c : byte) (w : list byte)
| Other (c : byte).

Definition doubled (q : byte) (text : list byte) : list byte :=
  mjoin (map (fun b => if beqb b q then [q; q] else [b]) text).

Definition delimiter (tag : list byte) : list byte := [dollar] ++ tag ++ [dollar].

Definition render (e : Elem) : list byte :=
  match e with
  | Quoted q text => q :: doubled q text ++ [q]
  | LineComment text => dash :: dash :: text
  | BlockComment text => slash :: star :: text ++ [star; slash]
  | DollarQuoted tag text => delimiter tag ++ text ++ delimiter tag
  | Punct c => [c]
  | Word c w => c :: w
  | Other c => [c]
  end.

Definition token (e : Elem) : option string :=
  match e with
  | Punct c => Some (of_bytes [c])
  | Word c w => Some (to_ascii_lowercase (of_bytes (c :: w)))
  | _ => None
  end.

Definition is_quote (c : byte) : bool := beqb c apostrophe || beqb c dquote.

(** [needle] ends [text ++ needle] and occurs nowhere earlier. *)
Definition first_at_end (needle text : list byte) : Prop := after needle (text ++ needle) = Some [].

Definition head_is (f : byte -> bool) (l : list byte) : bool :=
  match l with c :: _ => f c | [] => false end.

(** A `$` that opens a dollar quote. *)
Definition opens_dollar (l : list byte) : bool := head_is (beqb dollar) (span_word l).2.

Definition wf (e : Elem) : Prop :=
  match e with
  | Quoted q _ => is_quote q = true
  | LineComment text => forallb (fun b => negb (beqb b nl)) text = true
  | BlockComment text => first_at_end [star; slash] text
  | DollarQuoted tag text => forallb word_byte tag = true /\ first_at_end (delimiter tag) text
  | Punct c => punctuation c = true
  | Word c w => word_start c = true /\ forallb word_byte w = true
  | Other c => is_quote c = false /\ punctuation c = false /\ word_start c = false
  end.

(** What may follow an element: elements are as long as they can be. *)
Definition fits (e : Elem) (rest : list byte) : Prop :=
  match e with
  | Quoted q _ => head_is (beqb q) rest = false
  | LineComment _ => rest = [] \/ head_is (beqb nl) rest = true
  | Word _ _ => head_is word_byte rest = false
  | Other c =>
      (c = dash -> head_is (beqb dash) rest = false) /\ (c = slash -> head_is (beqb star) rest = false)
      /\ (c = dollar -> opens_dollar rest = false)
  | _ => True
  end.

Inductive Lexes : list byte -> list Elem -> Prop :=
| lex_nil : Lexes [] []
| lex_cons e rest es : wf e -> fits e rest -> Lexes rest es -> Lexes (render e ++ rest) (e :: es).

(** *** The pieces *)

Lemma beqb_sym a b : beqb a b = beqb b a.
Proof. apply Ascii.eqb_sym. Qed.

Lemma skip_quoted_sound q l r :
  skip_quoted q l = Some r -> exists text, l = doubled q text ++ q :: r /\ head_is (beqb q) r = false.
Proof.
  revert r. induction l as [l IH] using (induction_ltof1 _ (@length byte)). unfold ltof in IH. intros r.
  destruct l as [|c rest]; [done|]. cbn. destruct (beqb c q) eqn:Ec.
  - apply beqb_eq in Ec as ->. destruct rest as [|c' rest']; [intros [= <-]; by exists []|].
    destruct (beqb c' q) eqn:Ec'.
    + apply beqb_eq in Ec' as ->. intros Hs. destruct (IH rest') with r as (text & -> & Hh); [cbn; lia|done|].
      exists (q :: text). unfold doubled. cbn. by rewrite beqb_refl.
    + intros [= <-]. exists []. cbn. by rewrite beqb_sym.
  - intros Hs. destruct (IH rest) with r as (text & -> & Hh); [cbn; lia|done|].
    exists (c :: text). unfold doubled. cbn. by rewrite Ec.
Qed.

Lemma skip_quoted_complete q text r :
  head_is (beqb q) r = false -> skip_quoted q (doubled q text ++ q :: r) = Some r.
Proof.
  intros Hr. induction text as [|b text IH].
  - cbn. rewrite beqb_refl. destruct r as [|c r]; [done|]. cbn in Hr |- *. by rewrite beqb_sym, Hr.
  - unfold doubled. cbn [map mjoin list_join]. fold (doubled q text). destruct (beqb b q) eqn:Eb; cbn.
    + by rewrite !beqb_refl.
    + by rewrite Eb.
Qed.

Lemma skip_line_spec l : exists text, l = text ++ skip_line l
  /\ forallb (fun b => negb (beqb b nl)) text = true /\ (skip_line l = [] \/ head_is (beqb nl) (skip_line l) = true).
Proof.
  induction l as [|c l (text & Hl & Ht & Hr)]; [exists []; cbn; auto|]. cbn [skip_line]. destruct (beqb c nl) eqn:Ec.
  - exists []. split; [done|]. split; [done|]. right. cbn [head_is]. by rewrite beqb_sym.
  - exists (c :: text). cbn [app forallb]. rewrite Ec. cbn [negb andb]. split; [congruence|done].
Qed.

Lemma skip_line_complete text r :
  forallb (fun b => negb (beqb b nl)) text = true -> (r = [] \/ head_is (beqb nl) r = true) ->
  skip_line (text ++ r) = r.
Proof.
  intros Ht Hr. induction text as [|c text IH]; cbn [app skip_line].
  - destruct r as [|c r]; [done|]. destruct Hr as [|Hr]; [done|]. cbn [head_is] in Hr. cbn [skip_line]. by rewrite beqb_sym, Hr.
  - cbn [forallb] in Ht. apply andb_prop in Ht as [Hc Ht]. apply negb_true_iff in Hc. rewrite Hc. by apply IH.
Qed.

Lemma span_word_sound l w r :
  span_word l = (w, r) -> l = w ++ r /\ forallb word_byte w = true /\ head_is word_byte r = false.
Proof.
  revert w r. induction l as [|c l IH]; intros w r; cbn; [by intros [= <- <-]|].
  destruct (word_byte c) eqn:Ec; [|intros [= <- <-]; cbn; auto].
  destruct (span_word l) as [w' r']. intros [= <- <-]. destruct (IH w' r' eq_refl) as (-> & Hw & Hr).
  cbn. by rewrite Ec.
Qed.

Lemma span_word_complete w r :
  forallb word_byte w = true -> head_is word_byte r = false -> span_word (w ++ r) = (w, r).
Proof.
  intros Hw Hr. induction w as [|c w IH]; cbn in *; [destruct r; [done|]; cbn in *; by rewrite Hr|].
  apply andb_prop in Hw as [-> Hw]. by rewrite IH.
Qed.

Lemma starts_with_within a b n : length n <= length a -> starts_with_bytes (a ++ b) n = starts_with_bytes a n.
Proof.
  revert n. induction a as [|x a IH]; intros [|y n] Hl; cbn in *; [by destruct b|lia|done|]. by rewrite IH by lia.
Qed.

Lemma starts_with_refl n r : starts_with_bytes (n ++ r) n = true.
Proof. apply starts_with_bytes_spec. by exists r. Qed.

Lemma after_here n r : after n (n ++ r) = Some r.
Proof.
  assert (Hu : forall l, starts_with_bytes l n = true -> after n l = Some (drop (length n) l)).
  { intros [|c l] Hs; cbn [after]; by rewrite Hs. }
  rewrite Hu by apply starts_with_refl. by rewrite drop_app_length.
Qed.

Lemma after_sound n l r : after n l = Some r -> exists text, l = text ++ n ++ r /\ first_at_end n text.
Proof.
  revert r. induction l as [|x l IH]; intros r; cbn [after].
  - destruct (starts_with_bytes [] n) eqn:Es; [|done]. apply starts_with_bytes_spec in Es as (rest & Hn).
    intros [= <-]. destruct n; [|done]. exists []. split; [by rewrite drop_nil|]. apply (after_here [] []).
  - destruct (starts_with_bytes (x :: l) n) eqn:Es.
    + apply starts_with_bytes_spec in Es as (rest & Hn). rewrite Hn, drop_app_length. intros [= <-].
      exists []. split; [done|]. unfold first_at_end. cbn [app]. rewrite <-(app_nil_r n) at 2. apply after_here.
    + intros Ha. destruct (IH r Ha) as (text & -> & Hf). exists (x :: text). split; [done|].
      unfold first_at_end in *. cbn [app after].
      assert (Hs : starts_with_bytes (x :: text ++ n) n = false).
      { rewrite <-Es. symmetry. change (x :: text ++ n ++ r) with ((x :: text) ++ n ++ r). rewrite app_assoc.
        change (x :: text ++ n) with ((x :: text) ++ n). apply starts_with_within. rewrite length_app. lia. }
      by rewrite Hs.
Qed.

Lemma after_complete n text r : first_at_end n text -> after n (text ++ n ++ r) = Some r.
Proof.
  unfold first_at_end. induction text as [|x text IH]; [intros _; exact (after_here n r)|]. cbn [app after]. intros Hf.
  assert (Hs : starts_with_bytes (x :: text ++ n ++ r) n = starts_with_bytes (x :: text ++ n) n).
  { change (x :: text ++ n ++ r) with ((x :: text) ++ n ++ r). rewrite app_assoc.
    change (x :: text ++ n) with ((x :: text) ++ n). apply starts_with_within. rewrite length_app. lia. }
  rewrite Hs. destruct (starts_with_bytes (x :: text ++ n) n) eqn:E; [|by apply IH].
  exfalso. injection Hf as Hf. apply (f_equal length) in Hf. rewrite length_drop in Hf. cbn in Hf.
  rewrite length_app in Hf. lia.
Qed.

(** One step of the loop reads exactly one element. *)
Lemma next_sound c rest t r :
  next c rest = Ok (t, r) -> exists e, wf e /\ fits e r /\ c :: rest = render e ++ r /\ token e = t.
Proof.
  unfold next. fold (is_quote c). destruct (is_quote c) eqn:Eq.
  { destruct (skip_quoted c rest) as [r'|] eqn:Es; [|done]. intros [= <- <-].
    apply skip_quoted_sound in Es as (text & -> & Hr). exists (Quoted c text). split; [done|]. split; [done|].
    split; [|done]. cbn [render]. cbn. by rewrite <-app_assoc. }
  destruct (beqb c dash && bool_decide (head rest = Some dash)) eqn:Ed.
  { apply andb_prop in Ed as [->%beqb_eq Hh%bool_decide_eq_true]. destruct rest as [|c' rest]; [done|].
    injection Hh as ->. change (drop 1 (dash :: rest)) with rest. intros [= <- <-].
    destruct (skip_line_spec rest) as (text & Hl & Ht & Hr).
    exists (LineComment text). split; [done|]. split; [done|]. split; [|done]. cbn [render app]. by rewrite Hl at 1. }
  destruct (beqb c slash && bool_decide (head rest = Some star)) eqn:Eb.
  { apply andb_prop in Eb as [->%beqb_eq Hh%bool_decide_eq_true]. destruct rest as [|c' rest]; [done|].
    injection Hh as ->. change (drop 1 (star :: rest)) with rest. destruct (after [star; slash] rest) as [r'|] eqn:Ea; [|done].
    intros [= <- <-]. apply after_sound in Ea as (text & -> & Hf). exists (BlockComment text).
    split; [done|]. split; [done|]. split; [|done]. cbn [render app]. by rewrite <-app_assoc. }
  assert (Hsep : forall r, rest = r -> (c = dash -> head_is (beqb dash) r = false) /\ (c = slash -> head_is (beqb star) r = false)).
  { intros r' <-. split; intros ->; destruct rest as [|c' rest]; try done; cbn [head_is]; apply not_true_iff_false;
      intros <-%beqb_eq; [by rewrite beqb_refl, bool_decide_eq_true_2 in Ed|by rewrite beqb_refl, bool_decide_eq_true_2 in Eb]. }
  destruct (beqb c dollar) eqn:Edl.
  { apply beqb_eq in Edl as ->. destruct (span_word rest) as [tag body] eqn:Esp.
    assert (Hother : opens_dollar rest = false -> next dollar rest = next dollar rest ->
              exists e, wf e /\ fits e rest /\ dollar :: rest = render e ++ rest /\ token e = None).
    { intros Ho _. exists (Other dollar). split; [done|]. split; [|done]. split; [done|]. split; [done|]. done. }
    destruct (span_word_sound _ _ _ Esp) as (-> & Htag & _). destruct body as [|c' body].
    { intros [= <- <-]. apply Hother; [|done]. unfold opens_dollar. by rewrite Esp. }
    destruct (beqb c' dollar) eqn:Ec'.
    - apply beqb_eq in Ec' as ->. fold (delimiter tag). destruct (after (delimiter tag) body) as [r'|] eqn:Ea; [|done].
      intros [= <- <-]. apply after_sound in Ea as (text & -> & Hf). exists (DollarQuoted tag text).
      split; [done|]. split; [done|]. split; [|done]. cbn [render]. unfold delimiter. rewrite <-!app_assoc. done.
    - intros [= <- <-]. apply Hother; [|done]. unfold opens_dollar. rewrite Esp. cbn [snd head_is]. by rewrite beqb_sym. }
  destruct (punctuation c) eqn:Ep.
  { intros [= <- <-]. exists (Punct c). done. }
  destruct (word_start c) eqn:Ew.
  { destruct (span_word rest) as [w r'] eqn:Es. intros [= <- <-]. apply span_word_sound in Es as (-> & Hw & Hr).
    exists (Word c w). done. }
  intros [= <- <-]. exists (Other c). split; [done|]. split; [|done]. destruct (Hsep rest eq_refl) as [H1 H2].
  split; [done|]. split; [done|]. intros ->. done.
Qed.

(** Bytes that start a word or are punctuation start nothing else. *)
Lemma plain_start c :
  word_start c = true \/ punctuation c = true ->
  is_quote c = false /\ beqb c dash = false /\ beqb c slash = false /\ beqb c dollar = false
  /\ (word_start c = true -> punctuation c = false).
Proof.
  destruct c as [b0 b1 b2 b3 b4 b5 b6 b7].
  destruct b0, b1, b2, b3, b4, b5, b6, b7; vm_compute; intuition discriminate.
Qed.

Lemma next_complete e r :
  wf e -> fits e r -> exists c rest, render e ++ r = c :: rest /\ next c rest = Ok (token e, r).
Proof.
  intros Hwf Hfit. destruct e as [q text|text|text|tag text|c|c w|c]; cbn [render app wf fits token] in *.
  - exists q, ((doubled q text ++ [q]) ++ r). split; [done|]. unfold next. fold (is_quote q). rewrite Hwf.
    rewrite <-app_assoc. cbn [app]. by rewrite skip_quoted_complete.
  - exists dash, (dash :: text ++ r). split; [done|]. unfold next. change (beqb dash apostrophe || beqb dash dquote) with false.
    change (beqb dash dash) with true. change (bool_decide (head (dash :: text ++ r) = Some dash)) with true.
    change (drop 1 (dash :: text ++ r)) with (text ++ r). cbn iota. by rewrite skip_line_complete.
  - exists slash, (star :: (text ++ [star; slash]) ++ r). split; [done|]. unfold next.
    change (beqb slash apostrophe || beqb slash dquote) with false. change (beqb slash dash) with false.
    change (beqb slash slash) with true.
    change (bool_decide (head (star :: (text ++ [star; slash]) ++ r) = Some star)) with true. cbn [andb].
    change (drop 1 (star :: (text ++ [star; slash]) ++ r)) with ((text ++ [star; slash]) ++ r).
    rewrite <-app_assoc. by rewrite after_complete.
  - destruct Hwf as [Htag Hf]. exists dollar, (tag ++ dollar :: text ++ delimiter tag ++ r). split.
    { unfold delimiter. cbn [app]. f_equal. rewrite <-!app_assoc. cbn [app]. by rewrite <-!app_assoc. }
    unfold next. change (beqb dollar apostrophe || beqb dollar dquote) with false. change (beqb dollar dash) with false.
    change (beqb dollar slash) with false. change (beqb dollar dollar) with true. cbn [andb].
    rewrite span_word_complete by done. change (beqb dollar dollar) with true. cbn iota. fold (delimiter tag).
    by rewrite after_complete.
  - exists c, r. split; [done|]. destruct (plain_start c) as (H1 & H2 & H3 & H4 & _); [by right|].
    unfold next. fold (is_quote c). rewrite H1, H2, H3, H4, Hwf. done.
  - destruct Hwf as [Hc Hw]. exists c, (w ++ r). split; [done|].
    destruct (plain_start c) as (H1 & H2 & H3 & H4 & H5); [by left|].
    unfold next. fold (is_quote c). rewrite H1, H2, H3, H4, (H5 Hc), Hc. cbn [andb]. by rewrite span_word_complete.
  - destruct Hwf as (H1 & H2 & H3). destruct Hfit as (F1 & F2 & F3). exists c, r. split; [done|].
    unfold next. fold (is_quote c). rewrite H1.
    assert (Hd : beqb c dash && bool_decide (head r = Some dash) = false).
    { destruct (beqb c dash) eqn:E; [|done]. apply beqb_eq in E as ->. specialize (F1 eq_refl).
      destruct r as [|c' r]; [done|]. cbn [head_is] in F1. apply bool_decide_eq_false. intros [= ->]. by rewrite beqb_refl in F1. }
    assert (Hs : beqb c slash && bool_decide (head r = Some star) = false).
    { destruct (beqb c slash) eqn:E; [|done]. apply beqb_eq in E as ->. specialize (F2 eq_refl).
      destruct r as [|c' r]; [done|]. cbn [head_is] in F2. apply bool_decide_eq_false. intros [= ->]. by rewrite beqb_refl in F2. }
    rewrite Hd, Hs. destruct (beqb c dollar) eqn:E; [|by rewrite H2, H3]. apply beqb_eq in E as ->.
    specialize (F3 eq_refl). unfold opens_dollar in F3. destruct (span_word r) as [tag [|c' body]]; [done|].
    cbn [snd head_is] in F3. by rewrite beqb_sym, F3.
Qed.

Lemma render_not_nil e : render e <> [].
Proof. destruct e; cbn; try done. Qed.

Lemma tokenize_loop_sound fuel l ts :
  tokenize_loop fuel l = Ok ts -> exists es, Lexes l es /\ ts = omap token es.
Proof.
  revert l ts. induction fuel as [|fuel IH]; intros l ts.
  { destruct l; [|done]. intros [= <-]. exists []. split; [constructor|done]. }
  destruct l as [|c rest]; cbn [tokenize_loop]; [intros [= <-]; exists []; split; [constructor|done]|].
  destruct (next c rest) as [[t r]|] eqn:En; [|done].
  destruct (tokenize_loop fuel r) as [ts'|] eqn:Et; [|done]. intros [= <-].
  apply next_sound in En as (e & Hwf & Hfit & -> & Htok). destruct (IH r ts' Et) as (es & Hes & ->).
  exists (e :: es). split; [by constructor|]. cbn. rewrite Htok. by destruct t.
Qed.

Lemma tokenize_loop_complete l es :
  Lexes l es -> forall fuel, length l <= fuel -> tokenize_loop fuel l = Ok (omap token es).
Proof.
  induction 1 as [|e rest es Hwf Hfit Hlex IH]; intros fuel Hf; [by destruct fuel|].
  destruct (next_complete e rest Hwf Hfit) as (c & rest' & Heq & Hn). rewrite Heq in *.
  destruct fuel as [|fuel]; [cbn in Hf; lia|]. cbn [tokenize_loop]. rewrite Hn.
  assert (Hl : length (render e ++ rest) = S (length rest')) by by rewrite Heq.
  rewrite length_app in Hl. assert (Hne := render_not_nil e).
  rewrite IH; [|cbn in Hf; destruct (render e); [done|cbn in Hl; lia]]. cbn. by destruct (token e).
Qed.

(** ** What the guard accepts *)

(** The parenthesis depth after some tokens, as the scan counts it. *)
Definition depth_after (depth : N) (tokens : list string) : N :=
  foldl (fun d t => if String.eqb t "(" then N.min (d + 1) U32_MAX
                    else if String.eqb t ")" then d - 1 else d)%N depth tokens.

Lemma top_level_select_spec depth tokens :
  top_level_select depth tokens = true <->
  exists pre post, tokens = pre ++ "select"%string :: post /\ depth_after depth pre = 0%N.
Proof.
  revert depth. induction tokens as [|t tokens IH]; intros depth; cbn [top_level_select].
  { split; [done|]. intros (pre & post & H & _). by destruct pre. }
  assert (Hstep : forall d, (forall pre, depth_after depth (t :: pre) = depth_after d pre) ->
    (t <> "select"%string \/ depth <> 0%N) ->
    (top_level_select d tokens = true <->
     exists pre post, t :: tokens = pre ++ "select"%string :: post /\ depth_after depth pre = 0%N)).
  { intros d Hd Hne. rewrite IH. split.
    - intros (pre & post & -> & Hz). exists (t :: pre), post. by rewrite Hd.
    - intros ([|t' pre] & post & [= -> ->] & Hz); [by destruct Hne|]. exists pre, post. by rewrite <-Hd. }
  destruct (String.eqb_spec t "(") as [->|H1]; [apply Hstep; [done|by left]|].
  destruct (String.eqb_spec t ")") as [->|H2]; [apply Hstep; [done|by left]|].
  assert (Hsame : forall pre, depth_after depth (t :: pre) = depth_after depth pre).
  { intros pre. unfold depth_after. cbn [foldl]. by rewrite (proj2 (String.eqb_neq _ _) H1), (proj2 (String.eqb_neq _ _) H2). }
  destruct (String.eqb_spec t "select") as [->|H3]; cbn [andb]; [|apply Hstep; [done|by left]].
  destruct (N.eqb_spec depth 0) as [->|H4]; [|apply Hstep; [done|by right]].
  split; [|done]. intros _. by exists [], tokens.
Qed.

(** One statement, no write keyword, a [SELECT] or a [WITH] query with a
    select outside all parentheses. *)
Definition read_only (tokens : list string) : Prop :=
  ";"%string ∉ tokens
  /\ (forall t, t ∈ tokens -> t ∉ WRITE_KEYWORDS)
  /\ exists first rest, tokens = first :: rest
       /\ (first = "select"%string
           \/ first = "with"%string
              /\ exists pre post, rest = pre ++ "select"%string :: post /\ depth_after 0 pre = 0%N).

Lemma pop_semicolon_spec tokens ts :
  (";"%string ∉ ts /\ pop_semicolon tokens = ts) <->
  (";"%string ∉ ts /\ (tokens = ts \/ tokens = ts ++ [";"%string])).
Proof.
  unfold pop_semicolon. destruct tokens as [|x tokens _] using rev_ind.
  - cbn. split; intros [Hn H]; (split; [done|]); [by left|]. destruct H as [|H]; [done|]. by destruct ts.
  - rewrite last_snoc. destruct (String.eqb_spec x ";") as [->|Hx].
    + rewrite removelast_last. split; intros [Hn H]; (split; [done|]).
      * subst. by right.
      * destruct H as [<-|H]; [|by apply app_inj_tail in H as [-> _]]. destruct Hn. set_solver.
    + split; intros [Hn H]; (split; [done|]); [by left|]. destruct H as [|H]; [done|].
      apply app_inj_tail in H as [_ H]. done.
Qed.

Lemma validate_spec tokens :
  (let tokens := pop_semicolon tokens in
   if bool_decide (tokens = []) || existsb (String.eqb ";") tokens
   then Err "SQL must contain exactly one statement"%string
   else
     match List.find (fun t => bool_decide (t ∈ WRITE_KEYWORDS)) tokens with
     | Some keyword => Err ("SQL keyword `" ++ keyword ++ "` is not allowed; only read-only SELECT queries are accepted")%string
     | None =>
         match tokens with
         | first :: rest =>
             if String.eqb first "select" then Ok tt
             else if String.eqb first "with" then
               if top_level_select 0 rest then Ok tt else Err "WITH query must end in a top-level SELECT"%string
             else Err "SQL must begin with SELECT or WITH and end in a SELECT"%string
         | [] => Err "SQL must begin with SELECT or WITH and end in a SELECT"%string
         end
     end) = Ok tt <-> read_only (pop_semicolon tokens).
Proof.
  cbn zeta. generalize (pop_semicolon tokens). clear tokens. intros ts. unfold read_only.
  assert (Hsemi : existsb (String.eqb ";") ts = false <-> ";"%string ∉ ts).
  { rewrite <-not_true_iff_false, existsb_exists, list_elem_of_In. split.
    - intros H Hin. apply H. by exists ";"%string.
    - intros H (x & Hin & <-%String.eqb_eq). done. }
  destruct (existsb (String.eqb ";") ts) eqn:Es.
  { rewrite orb_true_r. split; [done|]. intros [Hn _]. apply Hsemi in Hn. done. }
  destruct (List.find _ ts) as [k|] eqn:Ef.
  { apply find_some in Ef as [Hin Hk]. apply bool_decide_eq_true in Hk. split; [by destruct (_ || _)|].
    intros (_ & Hw & _). destruct (Hw k); [by apply list_elem_of_In|done]. }
  assert (Hw : forall t, t ∈ ts -> t ∉ WRITE_KEYWORDS).
  { intros t Ht Hk. apply list_elem_of_In in Ht. apply (find_none _ _ Ef) in Ht. by apply bool_decide_eq_false in Ht. }
  destruct ts as [|first rest]; [cbn; split; [done|]; intros (_ & _ & ? & ? & ? & _); done|].
  rewrite bool_decide_eq_false_2 by done. cbn [orb].
  assert (Hsplit : (first = "select"%string \/ first = "with"%string /\ top_level_select 0 rest = true) <->
    exists first' rest', first :: rest = first' :: rest' /\ (first' = "select"%string
      \/ first' = "with"%string /\ exists pre post, rest' = pre ++ "select"%string :: post /\ depth_after 0 pre = 0%N)).
  { rewrite top_level_select_spec. split; [intros H; by exists first, rest|]. intros (f' & r' & [= <- <-] & H). done. }
  split.
  - intros H. split; [by apply Hsemi|]. split; [done|]. apply Hsplit.
    destruct (String.eqb_spec first "select"); [by left|]. destruct (String.eqb_spec first "with"); [|done].
    right. split; [done|]. by destruct (top_level_select 0 rest).
  - intros (_ & _ & H). apply Hsplit in H as [->|[-> ->]]; done.
Qed.

(** C35: The guard decides exactly its lexical specification.  A text is accepted
    if and only if it divides into quoted values, comments, dollar quotes,
    punctuation, words and other bytes - each as long as it can be - whose words
    and punctuation are one statement (a final semicolon aside) with no write
    keyword, beginning with SELECT, or with WITH and a SELECT outside all
    parentheses: nothing inside quotes or comments can be taken for a keyword,
    and no keyword outside them can be missed. *)
Theorem sql_guard_exact sql :
  validate sql = Ok tt <->
  exists es ts, Lexes (as_bytes sql) es
    /\ (omap token es = ts \/ omap token es = ts ++ [";"%string])
    /\ read_only ts.
Proof.
  unfold validate, tokenize. split.
  - destruct (tokenize_loop _ _) as [tokens|] eqn:Et; [|done]. intros Hv. apply validate_spec in Hv.
    apply tokenize_loop_sound in Et as (es & Hes & ->). exists es, (pop_semicolon (omap token es)).
    split; [done|]. split; [|done]. apply pop_semicolon_spec. split; [apply Hv|done].
  - intros (es & ts & Hes & Hts & Hr). rewrite (tokenize_loop_complete _ _ Hes) by lia. apply validate_spec.
    assert (Hn : ";"%string ∉ ts) by apply Hr.
    by destruct (proj2 (pop_semicolon_spec (omap token es) ts) (conj Hn Hts)) as [_ ->].
Qed.

(** The grammar is not PostgreSQL's: a backslash escape in an [E'...'] string
    ends the string later here than there, so a data-changing statement that
    PostgreSQL would execute is read as part of a quoted value. *)
Theorem sql_guard_misreads_escapes :
  validate "WITH a AS (SELECT E'\'' AS x), b AS (DELETE FROM t RETURNING 1) SELECT 1 --' ) SELECT 1" = Ok tt.
Proof. vm_compute. reflexivity. Qed.
