(* ===== verification/Writer.v ===== *)
(** * Artifact writers (src/src/transport/raw_response.rs, [ArtifactWriter])

    A writer streams chunks into a hidden partial file, counts them against
    its own limit and a disk lease, keeps a bounded preview (the first and the
    last bytes seen) and a running hash, and renames the file into place when
    it commits.  What the environment answers - whether the lease grows,
    whether a write, a sync or a rename succeeds - is an argument of each
    operation. *)
From S2P Require Import Prelude RustStr Json PolicyTypes Signing Scope.

(** ** Paths: the components after the root *)

Definition Path : Type := list string.

Definition join (dir : Path) (name : string) : Path := dir ++ [name].

Definition file_name (p : Path) : option string := last p.

Definition parent (p : Path) : option Path :=
  match p with [] => None | _ => Some (removelast p) end.

Definition dot : byte := byte_of 46.

(** Everything before the last dot, unless there is none or it leads. *)
Definition file_stem (name : list byte) : list byte :=
  match split_once_bytes dot (rev name) with
  | None => name
  | Some (_, before) => match before with [] => name | _ => rev before end
  end.

Definition with_extension (p : Path) (extension : string) : Path :=
  match file_name p with
  | None => p
  | Some name => join (removelast p) (of_bytes (file_stem (as_bytes name) ++ dot :: as_bytes extension))
  end.

(** ** Errors ([std::io::Error] by kind) *)

Inductive IoError :=
| IoOther (message : string)
| IoFileTooLarge (message : string)
| IoInvalidData (message : string)
| IoInterrupted (message : string)
| IoSystem.

(** What the operating system answers. *)
Inductive Io := IoDone | IoFailed.

#[export] Instance Io_eq_dec : EqDecision Io.
Proof. solve_decision. Defined.

Definition io_result (io : Io) : result unit IoError :=
  match io with IoDone => Ok tt | IoFailed => Err IoSystem end.

(** ** Writers *)

Definition STREAM_PREVIEW_HEAD_SIZE : nat := 5 * 1024.
Definition STREAM_PREVIEW_TAIL_SIZE : nat := 30 * 1024.

Record ArtifactMetadata := {
  am_id : string;
  am_path : Path;
  am_filename : string;
  am_content_type : string;
  am_size : N;
  am_etag : string;
  am_owner : OwnerKey;
}.

Record StreamedArtifact := {
  sa_artifact : ArtifactMetadata;
  sa_sha256 : string;
  sa_head : string;
  sa_tail : string;
  sa_encoded_bytes : N;
  sa_decoded_bytes : N;
}.

(** [aw_hashed] is what the hasher has been given; [aw_open] whether the file
    is still held; [aw_lease] the disk reservation. *)
Record ArtifactWriter := {
  aw_id : string;
  aw_filename : string;
  aw_path : Path;
  aw_partial_path : Path;
  aw_content_type : string;
  aw_owner : OwnerKey;
  aw_open : bool;
  aw_size : N;
  aw_max_bytes : N;
  aw_preview_enabled : bool;
  aw_head : list byte;
  aw_tail : list byte;
  aw_hashed : list byte;
  aw_lease : option N;
}.

(** [safe_prefix]: everything but letters, digits and dashes becomes a dash;
    a character of several bytes becomes one dash. *)
Definition safe_char (c : list byte) : byte :=
  match c with
  | [b] => if is_ascii_alphanumeric b || beqb b (byte_of 45) then b else byte_of 45
  | _ => byte_of 45
  end.

Definition safe_prefix (prefix : string) : list byte := map safe_char (chars (as_bytes prefix)).

Definition artifact_filename (prefix id extension : string) : string :=
  of_bytes (safe_prefix prefix ++ byte_of 45 :: as_bytes id
            ++ dot :: drop_while (fun b => beqb b dot) (as_bytes extension)).

Definition partial_name (filename : string) : string := ("." ++ filename ++ ".part")%string.

Definition begin_artifact_in_operation (dir : Path) (filename_prefix extension content_type : string)
    (max_bytes : N) (id : string) (owner : OwnerKey) : ArtifactWriter :=
  let filename := artifact_filename filename_prefix id extension in
  {| aw_id := id; aw_filename := filename; aw_path := join dir filename;
     aw_partial_path := join dir (partial_name filename); aw_content_type := content_type; aw_owner := owner;
     aw_open := true; aw_size := 0; aw_max_bytes := max_bytes;
     aw_preview_enabled :=
       starts_with content_type "text/" || String.eqb content_type "application/json"
       || String.eqb content_type "application/x-ndjson";
     aw_head := []; aw_tail := []; aw_hashed := []; aw_lease := None |}.

Definition set_lease (lease : option N) (w : ArtifactWriter) : ArtifactWriter :=
  {| aw_id := aw_id w; aw_filename := aw_filename w; aw_path := aw_path w; aw_partial_path := aw_partial_path w;
     aw_content_type := aw_content_type w; aw_owner := aw_owner w; aw_open := aw_open w; aw_size := aw_size w;
     aw_max_bytes := aw_max_bytes w; aw_preview_enabled := aw_preview_enabled w; aw_head := aw_head w;
     aw_tail := aw_tail w; aw_hashed := aw_hashed w; aw_lease := lease |}.

(** The checks of [write_chunk] before anything is reserved: the new size. *)
Definition chunk_admitted (w : ArtifactWriter) (bytes : list byte) : result N IoError :=
  match checked_add (aw_size w) (N.of_nat (length bytes)) with
  | None => Err (IoOther "streamed artifact byte counter overflow")
  | Some next =>
      if (aw_max_bytes w <? next)%N
      then Err (IoFileTooLarge ("streamed artifact exceeds " ++ of_bytes (render_u64 (aw_max_bytes w)) ++ " bytes"))
      else Ok next
  end.

Definition head_after (head bytes : list byte) : list byte :=
  if (length head <? STREAM_PREVIEW_HEAD_SIZE)%nat
  then head ++ take (Nat.min (STREAM_PREVIEW_HEAD_SIZE - length head) (length bytes)) bytes else head.

(** [discard]s from the front of the ring what the new suffix displaces. *)
Definition tail_after (tail bytes : list byte) : list byte :=
  let suffix := drop (length bytes - STREAM_PREVIEW_TAIL_SIZE) bytes in
  let discard := ((length tail + length suffix) - STREAM_PREVIEW_TAIL_SIZE)%nat in
  drop discard tail ++ suffix.

(** What [write_chunk] records once the bytes are written. *)
Definition chunk_written (w : ArtifactWriter) (bytes : list byte) (next : N) : ArtifactWriter :=
  {| aw_id := aw_id w; aw_filename := aw_filename w; aw_path := aw_path w; aw_partial_path := aw_partial_path w;
     aw_content_type := aw_content_type w; aw_owner := aw_owner w; aw_open := aw_open w; aw_size := next;
     aw_max_bytes := aw_max_bytes w; aw_preview_enabled := aw_preview_enabled w;
     aw_head := if aw_preview_enabled w then head_after (aw_head w) bytes else aw_head w;
     aw_tail := if aw_preview_enabled w then tail_after (aw_tail w) bytes else aw_tail w;
     aw_hashed := aw_hashed w ++ bytes; aw_lease := aw_lease w |}.

(** [write_chunk], given how the lease's growth and the write end. *)
Definition write_chunk (grow : result unit IoError) (io : Io) (w : ArtifactWriter) (bytes : list byte)
  : ArtifactWriter * result unit IoError :=
  match chunk_admitted w bytes with
  | Err e => (w, Err e)
  | Ok next =>
      match (match aw_lease w with Some _ => grow | None => Ok tt end) with
      | Err e => (w, Err e)
      | Ok _ =>
          match io_result io with
          | Err e => (w, Err e)
          | Ok _ => (chunk_written w bytes next, Ok tt)
          end
      end
  end.

Section Commit.
Context `{Crypto}.

Definition writer_metadata (w : ArtifactWriter) : ArtifactMetadata :=
  {| am_id := aw_id w; am_path := aw_path w; am_filename := aw_filename w;
     am_content_type := aw_content_type w; am_size := aw_size w;
     am_etag := of_bytes (byte_of 34 :: as_bytes (aw_id w) ++ byte_of 45 :: render_u64 (aw_size w) ++ [byte_of 34]);
     am_owner := aw_owner w |}.

(** What [commit] returns once the file is in place. *)
Definition committed_artifact (w : ArtifactWriter) : StreamedArtifact :=
  {| sa_artifact := writer_metadata w;
     sa_sha256 := of_bytes (mjoin (map hex_lower (sha256 (aw_hashed w))));
     sa_head := from_utf8_lossy (aw_head w); sa_tail := from_utf8_lossy (aw_tail w);
     sa_encoded_bytes := aw_size w; sa_decoded_bytes := aw_size w |}.
End Commit.

(** Writing chunks one after another, stopping at the first error. *)
Fixpoint write_chunks (env : nat -> result unit IoError * Io) (n : nat) (w : ArtifactWriter)
    (chunks : list (list byte)) : ArtifactWriter * result unit IoError :=
  match chunks with
  | [] => (w, Ok tt)
  | bytes :: rest =>
      match write_chunk (env n).1 (env n).2 w bytes with
      | (w', Ok _) => write_chunks env (S n) w' rest
      | (w', Err e) => (w', Err e)
      end
  end.

(** ** Lemmas *)

(** The last [n] bytes. *)
Definition last_bytes (n : nat) (l : list byte) : list byte := drop (length l - n) l.

Lemma head_after_spec content bytes :
  head_after (take STREAM_PREVIEW_HEAD_SIZE content) bytes = take STREAM_PREVIEW_HEAD_SIZE (content ++ bytes).
Proof.
  unfold head_after. generalize STREAM_PREVIEW_HEAD_SIZE as n. intros n. rewrite length_take.
  destruct (Nat.ltb_spec (n `min` length content) n) as [Hl|Hl].
  - rewrite take_app. rewrite (take_ge content) by lia. f_equal.
    replace (n - n `min` length content)%nat with (n - length content)%nat by lia.
    destruct (le_ge_dec (length bytes) (n - length content)) as [Hb|Hb].
    + rewrite !take_ge by lia. done.
    + f_equal. lia.
  - rewrite take_app_le by lia. done.
Qed.

Lemma tail_after_spec content bytes :
  tail_after (last_bytes STREAM_PREVIEW_TAIL_SIZE content) bytes
  = last_bytes STREAM_PREVIEW_TAIL_SIZE (content ++ bytes).
Proof.
  unfold tail_after, last_bytes. generalize STREAM_PREVIEW_TAIL_SIZE as n. intros n.
  rewrite !length_drop, length_app, drop_drop, drop_app. f_equal.
  - destruct (le_ge_dec (length content + length bytes - n) (length content)).
    + f_equal. lia.
    + rewrite !drop_ge by lia. done.
  - f_equal. lia.
Qed.

(** What a writer knows of the bytes it was given. *)
Record writer_of (content : list byte) (w : ArtifactWriter) : Prop := {
  wo_size : aw_size w = N.of_nat (length content);
  wo_bound : (aw_size w <= aw_max_bytes w)%N;
  wo_hashed : aw_hashed w = content;
  wo_head : aw_head w = if aw_preview_enabled w then take STREAM_PREVIEW_HEAD_SIZE content else [];
  wo_tail : aw_tail w = if aw_preview_enabled w then last_bytes STREAM_PREVIEW_TAIL_SIZE content else [];
}.

Lemma begin_writer_of dir prefix extension content_type max id owner :
  writer_of [] (begin_artifact_in_operation dir prefix extension content_type max id owner).
Proof.
  split; cbn [begin_artifact_in_operation aw_size aw_max_bytes aw_hashed aw_head aw_tail aw_preview_enabled];
    try done; [lia|..]; by destruct (_ || _).
Qed.

Lemma chunk_admitted_spec w bytes next :
  chunk_admitted w bytes = Ok next ->
  next = (aw_size w + N.of_nat (length bytes))%N /\ (next <= aw_max_bytes w)%N.
Proof.
  unfold chunk_admitted, checked_add. destruct (N.ltb_spec U64_MAX (aw_size w + N.of_nat (length bytes))); [done|].
  destruct (N.ltb_spec (aw_max_bytes w) (aw_size w + N.of_nat (length bytes))); [done|]. by intros [= <-].
Qed.

Lemma chunk_written_of content w bytes next :
  writer_of content w -> chunk_admitted w bytes = Ok next ->
  writer_of (content ++ bytes) (chunk_written w bytes next).
Proof.
  intros [Hs Hb Hh Hhd Htl] Ha. apply chunk_admitted_spec in Ha as [-> Hm].
  split; cbn [chunk_written aw_size aw_max_bytes aw_hashed aw_head aw_tail aw_preview_enabled].
  - rewrite length_app. lia.
  - lia.
  - by rewrite Hh.
  - rewrite Hhd. destruct (aw_preview_enabled w); [apply head_after_spec|done].
  - rewrite Htl. destruct (aw_preview_enabled w); [apply tail_after_spec|done].
Qed.

Lemma write_chunk_of content grow io w bytes w' r :
  writer_of content w -> write_chunk grow io w bytes = (w', r) ->
  match r with Ok _ => writer_of (content ++ bytes) w' | Err _ => w' = w end.
Proof.
  intros Hw. unfold write_chunk. destruct (chunk_admitted w bytes) as [next|e] eqn:Ha; [|by intros [= <- <-]].
  destruct (match aw_lease w with Some _ => grow | None => Ok tt end); [|by intros [= <- <-]].
  destruct (io_result io); intros [= <- <-]; [by apply chunk_written_of|done].
Qed.

Lemma write_chunk_keeps grow io w bytes w' r :
  write_chunk grow io w bytes = (w', r) ->
  aw_id w' = aw_id w /\ aw_path w' = aw_path w /\ aw_partial_path w' = aw_partial_path w
  /\ aw_owner w' = aw_owner w /\ aw_lease w' = aw_lease w /\ aw_max_bytes w' = aw_max_bytes w
  /\ aw_preview_enabled w' = aw_preview_enabled w.
Proof. unfold write_chunk. repeat case_goal; by intros [= <- <-]. Qed.

Lemma write_chunks_of env n content w chunks w' :
  writer_of content w -> write_chunks env n w chunks = (w', Ok tt) ->
  writer_of (content ++ mjoin chunks) w' /\ aw_preview_enabled w' = aw_preview_enabled w
  /\ aw_max_bytes w' = aw_max_bytes w.
Proof.
  revert n content w; induction chunks as [|bytes rest IH]; intros n content w Hw; cbn [write_chunks mjoin list_join].
  - intros [= <-]. by rewrite app_nil_r.
  - destruct (write_chunk _ _ w bytes) as [w1 [[]|e]] eqn:E; [|done]. intros Hr.
    pose proof (write_chunk_of _ _ _ _ _ _ _ Hw E) as H1. cbn in H1.
    apply write_chunk_keeps in E as (_ & _ & _ & _ & _ & Hm & Hp).
    destruct (IH _ _ _ H1 Hr) as (? & ? & ?). rewrite <- app_assoc in *. rewrite <- Hp, <- Hm. done.
Qed.

Lemma write_chunks_err env n content w chunks w' e :
  writer_of content w -> write_chunks env n w chunks = (w', Err e) ->
  exists k, (k < length chunks)%nat /\ writer_of (content ++ mjoin (take k chunks)) w'.
Proof.
  revert n content w; induction chunks as [|bytes rest IH]; intros n content w Hw; cbn [write_chunks]; [done|].
  destruct (write_chunk _ _ w bytes) as [w1 [[]|e1]] eqn:E; pose proof (write_chunk_of _ _ _ _ _ _ _ Hw E) as H1; cbn in H1.
  - intros Hr. destruct (IH _ _ _ H1 Hr) as (k & Hk & Hwk). exists (S k). cbn. split; [lia|].
    by rewrite <- app_assoc in Hwk.
  - intros [= <- _]. subst w1. exists 0%nat. cbn. rewrite app_nil_r. split; [lia|done].
Qed.

(** With no obstacle from the environment the only failure is the limit. *)
Lemma write_chunks_total env n content w chunks :
  (forall k, env k = (Ok tt, IoDone)) -> (aw_max_bytes w <= U64_MAX)%N -> writer_of content w ->
  (N.of_nat (length (content ++ mjoin chunks)) <= aw_max_bytes w)%N ->
  exists w', write_chunks env n w chunks = (w', Ok tt).
Proof.
  intros Henv Hmax. revert n content w Hmax; induction chunks as [|bytes rest IH]; intros n content w Hmax Hw Hfit;
    cbn [write_chunks]; [eauto|].
  cbn [mjoin list_join] in Hfit. rewrite app_assoc in Hfit.
  assert (Hadm : chunk_admitted w bytes = Ok (aw_size w + N.of_nat (length bytes))%N).
  { unfold chunk_admitted, checked_add. rewrite (wo_size _ _ Hw) in *. rewrite !length_app in Hfit.
    destruct (N.ltb_spec U64_MAX (N.of_nat (length content) + N.of_nat (length bytes))); [lia|].
    destruct (N.ltb_spec (aw_max_bytes w) (N.of_nat (length content) + N.of_nat (length bytes))); [lia|done]. }
  rewrite (Henv n). cbn [fst snd].
  assert (E : write_chunk (Ok tt) IoDone w bytes = (chunk_written w bytes (aw_size w + N.of_nat (length bytes))%N, Ok tt)).
  { unfold write_chunk. rewrite Hadm. by destruct (aw_lease w). }
  rewrite E. apply (IH _ (content ++ bytes)); [done| |done]. by apply chunk_written_of.
Qed.

(** ** What a committed artifact says of its bytes *)

(** However a body arrives in chunks, the artifact a writer commits describes
    exactly the concatenation of the chunks: its size, its hash, its first and
    its last bytes, its limit; and a chunk that fails leaves the writer as it
    was. *)
Theorem streamed_artifact_exact `{Crypto} env dir prefix extension content_type max id owner chunks w r
  (Hmax : (max <= U64_MAX)%N)
  (Hrun : write_chunks env 0 (begin_artifact_in_operation dir prefix extension content_type max id owner) chunks = (w, r)) :
  let content := mjoin chunks in
  let a := committed_artifact w in
  match r with
  | Ok _ =>
      (N.of_nat (length content) <= max)%N
      /\ am_size (sa_artifact a) = N.of_nat (length content)
      /\ sa_decoded_bytes a = N.of_nat (length content)
      /\ sa_sha256 a = of_bytes (mjoin (map hex_lower (sha256 content)))
      /\ (aw_preview_enabled w = true ->
          sa_head a = from_utf8_lossy (take STREAM_PREVIEW_HEAD_SIZE content)
          /\ sa_tail a = from_utf8_lossy (last_bytes STREAM_PREVIEW_TAIL_SIZE content))
  | Err _ => exists k, (k < length chunks)%nat /\ writer_of (mjoin (take k chunks)) w
  end.
Proof.
  cbn zeta. pose proof (begin_writer_of dir prefix extension content_type max id owner) as Hw.
  set (w0 := begin_artifact_in_operation _ _ _ _ _ _ _) in *.
  assert (Hmax0 : aw_max_bytes w0 = max) by done. clearbody w0.
  destruct r as [[]|e].
  - destruct (write_chunks_of _ _ _ _ _ _ Hw Hrun) as ([Hs Hb Hh Hhd Htl] & Hp & Hm).
    cbn [app] in *. repeat split; cbn [committed_artifact sa_artifact writer_metadata am_size sa_decoded_bytes
      sa_sha256 sa_head sa_tail]; try done.
    + rewrite <- Hs, <- Hmax0, <- Hm. done.
    + by rewrite Hh.
    + by rewrite Hhd, H0.
    + by rewrite Htl, H0.
  - apply (write_chunks_err _ _ _ _ _ _ _ Hw Hrun).
Qed.
