(* ===== verification/Ingestion.v ===== *)
(** * Canonical log ingestion (src/src/ingestion.rs)

    A long query is split into half-open time partitions, each fetched into a
    sorted NDJSON file; the files are validated against their manifests and
    merged with a heap that holds one record per file.  The integers are
    [i128] with their checked operations; serde's encoding of records and
    manifests, and chrono's RFC 3339 parser, are parameters. *)
From S2P Require Import Prelude RustStr Json PolicyTypes Signing F64 Scope Writer.

(** ** [i128] *)

Definition I128_MAX : Z := 170141183460469231731687303715884105727.
Definition I128_MIN : Z := -170141183460469231731687303715884105728.

Definition in_i128 (z : Z) : bool := (I128_MIN <=? z)%Z && (z <=? I128_MAX)%Z.
Definition i128_checked (z : Z) : option Z := if in_i128 z then Some z else None.

(** ** Partitions *)

Record QueryInterval := { start_ns : Z; end_ns : Z }.

(** The closure of [try_half_open_partitions] over [i..count]; [None] is the
    [expect]'s panic. *)
Fixpoint partition_loop (n : nat) (i base remainder cursor : Z) : option (list QueryInterval) :=
  match n with
  | O => Some []
  | S n' =>
      match i128_checked (cursor + base) ≫= fun value =>
              i128_checked (value + (if (i <? remainder)%Z then 1 else 0)) with
      | None => None
      | Some next =>
          (fun rest => {| start_ns := cursor; end_ns := next |} :: rest)
            <$> partition_loop n' (i + 1) base remainder next
      end
  end.

Definition try_half_open_partitions (start end_ : Z) (requested : N)
  : option (result (list QueryInterval) string) :=
  if (end_ <=? start)%Z || (requested =? 0)%N then Some (Ok [])
  else match i128_checked (end_ - start) with
       | None => Some (Err "time interval width overflow")
       | Some width =>
           let count := Z.min (default I128_MAX (i128_checked (Z.of_N requested))) width in
           Ok <$> partition_loop (Z.to_nat count) 0 (Z.quot width count) (Z.rem width count) start
       end.

Definition half_open_partitions (start end_ : Z) (requested : N) : option (list QueryInterval) :=
  (fun r => match r with Ok l => l | Err _ => [] end) <$> try_half_open_partitions start end_ requested.

(** ** Query bounds *)

(** [str::parse::<i128>]: an optional sign, then digits, within range. *)
Definition parse_i128 (l : list byte) : option Z :=
  let '(neg, digits) :=
    match l with
    | b :: rest => if beqb b (byte_of 45) then (true, rest) else if beqb b (byte_of 43) then (false, rest) else (false, l)
    | [] => (false, [])
    end in
  match digits with
  | [] => None
  | _ =>
      if forallb is_ascii_digit digits
      then i128_checked (if neg then - Z.of_N (digits_value digits) else Z.of_N (digits_value digits))
      else None
  end.

(** A [u64] with its optional plus sign. *)
Definition parse_u64_bytes (l : list byte) : option N :=
  match l with
  | b :: rest => if beqb b (byte_of 43) then parse_u64 (of_bytes rest) else parse_u64 (of_bytes l)
  | [] => None
  end.

Section Bounds.
(** chrono's [DateTime::parse_from_rfc3339] and [timestamp_nanos_opt]. *)
Variable parse_rfc3339_ns : string -> option Z.

Definition parse_loki_bound_ns (value : string) : option Z :=
  if negb (str_is_empty value) && forallb is_ascii_digit (as_bytes value)
  then Z.of_N <$> parse_u64_bytes (as_bytes value)
  else parse_rfc3339_ns value.

Definition parse_splunk_bound_ns (value : string) : option Z :=
  match parse_rfc3339_ns value with
  | Some ns => Some ns
  | None =>
      let l := as_bytes value in
      let '(whole, fraction) := default (l, []) (split_once_bytes dot l) in
      if bool_decide (whole = []) || (9 <? length fraction)%nat
         || negb (forallb is_ascii_digit (drop_while (fun b => beqb b (byte_of 45)) whole))
         || negb (forallb is_ascii_digit fraction)
      then None
      else
        parse_i128 whole ≫= fun seconds =>
        (match fraction with
         | [] => Some 0%Z
         | _ => parse_i128 fraction ≫= fun f => i128_checked (f * 10 ^ Z.of_nat (9 - length fraction))
         end) ≫= fun nanos =>
        i128_checked (seconds * 1000000000) ≫= fun scaled =>
        i128_checked (scaled + (if starts_with value "-" then - nanos else nanos))
  end.
End Bounds.

(** [{n}] for a [u128]: thirty-nine digits hold any of them. *)
Definition render_u128 (n : N) : list byte := render_loop 39 n [].

(** [{n:09}]. *)
Definition pad9 (l : list byte) : list byte := replicate (9 - length l) (byte_of 48) ++ l.

Definition splunk_epoch_seconds (ns : Z) : string :=
  let magnitude := Z.abs_N ns in
  let text := render_u128 (magnitude / 1000000000) ++ dot :: pad9 (render_u128 (magnitude mod 1000000000)) in
  of_bytes (if (ns <? 0)%Z then byte_of 45 :: text else text).

(** ** Partitions tile the interval *)

(** Adjacent, non-empty intervals from [s] to [e]. *)
Fixpoint tiles (s e : Z) (l : list QueryInterval) : Prop :=
  match l with
  | [] => s = e
  | i :: rest => start_ns i = s /\ (s < end_ns i)%Z /\ tiles (end_ns i) e rest
  end.

Definition covers (t : Z) (i : QueryInterval) : bool := (start_ns i <=? t)%Z && (t <? end_ns i)%Z.

Lemma in_i128_spec z : in_i128 z = true <-> (I128_MIN <= z <= I128_MAX)%Z.
Proof. unfold in_i128. rewrite andb_true_iff, !Z.leb_le. done. Qed.

Lemma i128_checked_in z : (I128_MIN <= z <= I128_MAX)%Z -> i128_checked z = Some z.
Proof. intros Hz. unfold i128_checked. by rewrite (proj2 (in_i128_spec z) Hz). Qed.

Lemma i128_checked_Some z y : i128_checked z = Some y -> y = z /\ (I128_MIN <= z <= I128_MAX)%Z.
Proof. unfold i128_checked. destruct (in_i128 z) eqn:E; [|done]. intros [= <-]. by apply in_i128_spec in E. Qed.

Lemma tiles_le s e l : tiles s e l -> (s <= e)%Z.
Proof.
  revert s; induction l as [|i l IH]; intros s; cbn [tiles]; [lia|].
  intros (_ & Hi & Hl). apply IH in Hl. lia.
Qed.

(** Every instant of the interval lies in exactly one tile, any other in none. *)
Lemma tiles_cover s e l t :
  tiles s e l -> length (List.filter (covers t) l) = if (s <=? t)%Z && (t <? e)%Z then 1%nat else 0%nat.
Proof.
  revert s; induction l as [|i l IH]; intros s; cbn [tiles List.filter].
  - intros ->. destruct (Z.leb_spec e t), (Z.ltb_spec t e); cbn; try done; lia.
  - intros (Hs & Hi & Hl). pose proof (tiles_le _ _ _ Hl). apply IH in Hl.
    destruct (covers t i) eqn:Ec; unfold covers in Ec; cbn [length]; rewrite Hl;
      destruct (Z.leb_spec (start_ns i) t), (Z.ltb_spec t (end_ns i)), (Z.leb_spec (end_ns i) t),
        (Z.ltb_spec t e), (Z.leb_spec s t); cbn in *; try done; lia.
Qed.

Lemma partition_loop_tiles n i base remainder cursor e :
  (1 <= base)%Z -> (I128_MIN <= cursor)%Z -> (e <= I128_MAX)%Z ->
  (cursor + Z.of_nat n * base + Z.max 0 (Z.min (Z.of_nat n) (remainder - i)) = e)%Z ->
  exists l, partition_loop n i base remainder cursor = Some l /\ length l = n /\ tiles cursor e l
            /\ Forall (fun q => (base <= end_ns q - start_ns q <= base + 1)%Z) l.
Proof.
  intros Hb. revert i cursor; induction n as [|n IH]; intros i cursor Hc He Heq; cbn [partition_loop].
  - exists []. cbn. repeat split; [lia|constructor].
  - assert (Hpos : (0 <= Z.of_nat n * base)%Z) by (apply Z.mul_nonneg_nonneg; lia).
    set (extra := if (i <? remainder)%Z then 1%Z else 0%Z).
    assert (Hextra : (0 <= extra <= 1)%Z) by (unfold extra; destruct (i <? remainder)%Z; lia).
    assert (Hnext : (cursor + base + extra + Z.of_nat n * base
                     + Z.max 0 (Z.min (Z.of_nat n) (remainder - (i + 1))) = e)%Z).
    { revert Heq. unfold extra. destruct (Z.ltb_spec i remainder); lia. }
    rewrite i128_checked_in by lia. cbn [mbind option_bind]. rewrite i128_checked_in by lia.
    destruct (IH (i + 1)%Z (cursor + base + extra)%Z) as (l & -> & Hl & Ht & Hf); [lia..|].
    exists ({| start_ns := cursor; end_ns := cursor + base + extra |} :: l).
    cbn. repeat split; [by rewrite Hl|lia|done|]. constructor; [cbn; lia|done].
Qed.

(** Splitting a query loses and repeats nothing.  For any [i128] bounds and
    any requested count, the split never panics; it is refused only when the
    width does not fit; an empty interval gives no partition; otherwise there
    are as many partitions as requested (but no more than nanoseconds), they
    are non-empty, adjacent, run from the start to the end, differ by at most
    one nanosecond, and every instant is in exactly one of them. *)
Theorem partitions_tile_interval start end_ requested
  (Hs : in_i128 start = true) (He : in_i128 end_ = true) (Hr : (requested <= U64_MAX)%N) :
  match try_half_open_partitions start end_ requested with
  | None => False
  | Some (Err _) => (start < end_)%Z /\ requested <> 0%N /\ in_i128 (end_ - start) = false
  | Some (Ok l) =>
      if (end_ <=? start)%Z || (requested =? 0)%N then l = []
      else Z.of_nat (length l) = Z.min (Z.of_N requested) (end_ - start)
           /\ tiles start end_ l
           /\ (forall p q, p ∈ l -> q ∈ l ->
               (Z.abs ((end_ns p - start_ns p) - (end_ns q - start_ns q)) <= 1)%Z)
           /\ (forall t, length (List.filter (covers t) l)
                         = if (start <=? t)%Z && (t <? end_)%Z then 1%nat else 0%nat)
  end.
Proof.
  unfold try_half_open_partitions.
  destruct ((end_ <=? start)%Z || (requested =? 0)%N) eqn:Hempty; [done|]. bool_to_prop.
  destruct (i128_checked (end_ - start)) as [width|] eqn:Hw.
  2: { unfold i128_checked in Hw. destruct (in_i128 (end_ - start)); [done|]. repeat split; [lia|done]. }
  apply i128_checked_Some in Hw as [-> Hw]. apply in_i128_spec in Hs, He.
  rewrite i128_checked_in by (unfold I128_MIN, I128_MAX, U64_MAX in *; lia).
  change (default I128_MAX (Some ?x)) with x. set (count := Z.min _ _).
  assert (Hcount : (1 <= count <= end_ - start)%Z) by (unfold count; lia).
  set (width := (end_ - start)%Z) in *.
  pose proof (Z.quot_rem width count ltac:(lia)) as Hqr.
  pose proof (Z.rem_bound_pos width count ltac:(lia) ltac:(lia)) as Hrem.
  assert (Hbase : (1 <= width ÷ count)%Z) by (apply Z.quot_le_lower_bound; lia).
  destruct (partition_loop_tiles (Z.to_nat count) 0 (width ÷ count) (Z.rem width count) start end_)
    as (l & -> & Hl & Ht & Hf); [done|lia|lia| |].
  { rewrite Z2Nat.id by lia. replace (Z.max 0 (Z.min count (Z.rem width count - 0))) with (Z.rem width count) by lia.
    unfold width in *. lia. }
  cbn [fmap option_fmap option_map]. repeat split; [rewrite Hl; lia|done| |by intros; apply tiles_cover].
  intros p q Hp Hq. rewrite Forall_forall in Hf.
  pose proof (Hf p Hp). pose proof (Hf q Hq). cbn in *. lia.
Qed.

(** ** Bounds survive their own rendering *)

Definition digit_step (n : N) (b : byte) : N := (10 * n + (code b - 48))%N.

Lemma digits_value_render fuel value out :
  fuel <> 0%nat -> (value < 10 ^ N.of_nat fuel)%N ->
  foldl digit_step 0%N (render_loop fuel value out) = foldl digit_step value out.
Proof.
  revert value out; induction fuel as [|fuel IH]; intros value out Hf Hv; [done|]. cbn [render_loop].
  destruct (digit_facts (value mod 10)) as [_ Hc]; [apply N.mod_lt; lia|].
  assert (Hstep : foldl digit_step (value / 10)%N (digit (value mod 10) :: out) = foldl digit_step value out).
  { cbn [foldl]. f_equal. unfold digit_step. rewrite Hc. pose proof (N.div_mod' value 10) as Hdm.
    set (q := (value / 10)%N) in *. set (r := (value mod 10)%N) in *. clearbody q r. lia. }
  rewrite <- Hstep. destruct (N.eqb_spec (value / 10) 0) as [E|E]; [by rewrite E|].
  destruct fuel as [|fuel]; [exfalso; apply E, N.div_small; cbn in Hv; lia|].
  apply IH; [done|]. rewrite Nat2N.inj_succ, N.pow_succ_r' in Hv. by apply N.Div0.div_lt_upper_bound.
Qed.

Lemma render_loop_length fuel value out (k : nat) :
  k <> 0%nat -> (value < 10 ^ N.of_nat k)%N -> (length (render_loop fuel value out) <= k + length out)%nat.
Proof.
  revert value out k; induction fuel as [|fuel IH]; intros value out k Hk Hv; cbn [render_loop]; [lia|].
  destruct (N.eqb_spec (value / 10) 0) as [E|E]; [cbn; lia|].
  destruct k as [|[|k]]; [done|exfalso; apply E, N.div_small; cbn in Hv; lia|].
  assert (Hq : (value / 10 < 10 ^ N.of_nat (S k))%N).
  { rewrite Nat2N.inj_succ, N.pow_succ_r' in Hv. by apply N.Div0.div_lt_upper_bound. }
  pose proof (IH (value / 10)%N (digit (value mod 10) :: out) (S k) ltac:(done) Hq). cbn [length] in *. lia.
Qed.

Lemma u128_digits n : Forall (fun b => is_ascii_digit b = true) (render_u128 n).
Proof. apply render_loop_digits. constructor. Qed.

Lemma u128_value n : (n < 10 ^ 39)%N -> digits_value (render_u128 n) = n.
Proof. intros Hn. by apply (digits_value_render 39 n []). Qed.

Lemma u128_not_nil n : render_u128 n <> [].
Proof. by apply render_loop_not_nil; left. Qed.

Lemma Forall_forallb {A} (f : A -> bool) l : Forall (fun x => f x = true) l -> forallb f l = true.
Proof. intros Hl. apply forallb_elem_of. by apply Forall_forall. Qed.

Lemma digit_not b c : is_ascii_digit b = true -> is_ascii_digit c = false -> beqb b c = false.
Proof. intros Hb Hc. apply beqb_neq. intros ->. congruence. Qed.

Lemma parse_i128_digits l :
  l <> [] -> Forall (fun b => is_ascii_digit b = true) l -> (Z.of_N (digits_value l) <= I128_MAX)%Z ->
  parse_i128 l = Some (Z.of_N (digits_value l)).
Proof.
  intros Hn Hd Hb. unfold parse_i128. destruct l as [|b l]; [done|].
  pose proof (Forall_inv Hd) as Hb1. cbn in Hb1.
  rewrite (digit_not b (byte_of 45)), (digit_not b (byte_of 43)) by done.
  rewrite (Forall_forallb _ _ Hd). apply i128_checked_in. unfold I128_MIN. lia.
Qed.

Lemma parse_i128_negative l :
  l <> [] -> Forall (fun b => is_ascii_digit b = true) l -> (I128_MIN <= - Z.of_N (digits_value l))%Z ->
  parse_i128 (byte_of 45 :: l) = Some (- Z.of_N (digits_value l))%Z.
Proof.
  intros Hn Hd Hb. unfold parse_i128. change (beqb (byte_of 45) (byte_of 45)) with true. cbv iota.
  destruct l as [|b l]; [done|]. rewrite (Forall_forallb _ _ Hd). apply i128_checked_in. unfold I128_MAX. lia.
Qed.

Lemma pad9_facts n :
  (n < 1000000000)%N ->
  length (pad9 (render_u128 n)) = 9%nat /\ Forall (fun b => is_ascii_digit b = true) (pad9 (render_u128 n))
  /\ digits_value (pad9 (render_u128 n)) = n.
Proof.
  intros Hn. unfold pad9.
  pose proof (render_loop_length 39 n [] 9 ltac:(done) Hn) as Hl. cbn [length Nat.add] in Hl.
  fold (render_u128 n) in Hl. repeat split.
  - rewrite length_app, length_replicate. lia.
  - apply Forall_app. split; [|apply u128_digits]. by apply Forall_replicate.
  - unfold digits_value. rewrite foldl_app.
    assert (Hz : forall k, foldl digit_step 0%N (replicate k (byte_of 48)) = 0%N) by (induction k; done).
    unfold digit_step in Hz. rewrite Hz. apply u128_value. revert Hn. lia.
Qed.

Lemma digits_no_dot l : Forall (fun b => is_ascii_digit b = true) l -> dot ∉ l.
Proof. intros Hl Hin. rewrite Forall_forall in Hl. by pose proof (Hl _ Hin). Qed.

Lemma drop_while_digit c l :
  is_ascii_digit c = false -> Forall (fun b => is_ascii_digit b = true) l -> drop_while (fun b => beqb b c) l = l.
Proof. intros Hc Hl. destruct Hl as [|b l Hb _]; [done|]. cbn. by rewrite digit_not. Qed.

Lemma magnitude_bound ns : in_i128 ns = true -> (Z.abs_N ns < 10 ^ 39)%N /\ (Z.abs_N ns <= 170141183460469231731687303715884105728)%N.
Proof.
  intros Hn. apply in_i128_spec in Hn. unfold I128_MIN, I128_MAX in Hn.
  change (10 ^ 39)%N with 1000000000000000000000000000000000000000%N. lia.
Qed.

(** The numeric form: a sign, the whole seconds, nine digits of nanoseconds. *)
Lemma parse_rendered (neg : bool) (q r : N) :
  (q < 10 ^ 39)%N -> (r < 1000000000)%N ->
  let v := ((if neg then -1 else 1) * (Z.of_N q * 1000000000 + Z.of_N r))%Z in
  (I128_MIN <= v <= I128_MAX)%Z ->
  let text := render_u128 q ++ dot :: pad9 (render_u128 r) in
  parse_splunk_bound_ns (fun _ => None) (of_bytes (if neg then byte_of 45 :: text else text)) = Some v.
Proof.
  intros Hq Hr v Hv text. destruct (pad9_facts r Hr) as (Hlen & Hdig & Hval).
  pose proof (u128_digits q) as Hqd. pose proof (u128_value q Hq) as Hqv. pose proof (u128_not_nil q) as Hqn.
  unfold parse_splunk_bound_ns. rewrite as_of_bytes.
  set (whole := if neg then byte_of 45 :: render_u128 q else render_u128 q).
  assert (Hl : (if neg then byte_of 45 :: text else text) = whole ++ dot :: pad9 (render_u128 r)) by (by destruct neg).
  assert (Hdot : dot ∉ whole).
  { unfold whole. pose proof (digits_no_dot _ Hqd). destruct neg; [|done]. rewrite not_elem_of_cons. done. }
  rewrite Hl, (split_once_bytes_first dot whole (pad9 (render_u128 r)) Hdot).
  change (default ?d (Some ?x)) with x. cbv iota beta.
  assert (Hwn : bool_decide (whole = []) = false) by (apply bool_decide_eq_false; unfold whole; by destruct neg).
  assert (Hdw : drop_while (fun b => beqb b (byte_of 45)) whole = render_u128 q).
  { unfold whole. destruct neg; [cbn [drop_while]; rewrite beqb_refl|]; by apply drop_while_digit. }
  rewrite Hwn, Hlen, Hdw, (Forall_forallb _ _ Hqd), (Forall_forallb _ _ Hdig). cbn [orb negb Nat.ltb Nat.leb Nat.sub].
  assert (Hsec : parse_i128 whole = Some ((if neg then -1 else 1) * Z.of_N q)%Z).
  { unfold whole. unfold v in Hv. destruct neg.
    - rewrite parse_i128_negative; rewrite ?Hqv; [f_equal; cbv iota; lia|done|done|]. unfold I128_MIN, I128_MAX in *. cbv iota in Hv; lia.
    - rewrite parse_i128_digits; rewrite ?Hqv; [f_equal; cbv iota; lia|done|done|]. unfold I128_MIN, I128_MAX in *. cbv iota in Hv; lia. }
  rewrite Hsec. cbn [mbind option_bind].
  destruct (pad9 (render_u128 r)) as [|b0 rest] eqn:Hp; [done|].
  rewrite parse_i128_digits, Hval by (rewrite ?Hval; try done; unfold I128_MAX; lia). cbn [mbind option_bind].
  change (10 ^ Z.of_nat 0)%Z with 1%Z.
  rewrite (i128_checked_in (Z.of_N r * 1)) by (unfold I128_MIN, I128_MAX; lia). cbn [mbind option_bind].
  assert (Hsw : starts_with (of_bytes (whole ++ dot :: b0 :: rest)) "-" = neg).
  { unfold starts_with. rewrite as_of_bytes. unfold whole.
    destruct (render_u128 q) as [|c l]; [done|]. destruct neg; [reflexivity|]. cbn.
    destruct l; cbn; rewrite andb_true_r; (apply digit_not; [by apply Forall_inv in Hqd|done]). }
  rewrite Hsw. unfold v in *. rewrite i128_checked_in by (unfold I128_MIN, I128_MAX in *; destruct neg; lia).
  cbn [mbind option_bind]. rewrite i128_checked_in by (destruct neg; lia). f_equal. destruct neg; lia.
Qed.

(** A bound survives its own rendering: what is sent to Splunk for any [i128]
    of nanoseconds, negative ones and the extremes included, reads back as the
    same instant - given that no text without a colon is an RFC 3339 instant,
    which that format demands. *)
Theorem splunk_bound_roundtrip (parse_rfc3339_ns : string -> option Z) ns
  (Hchrono : forall value z, parse_rfc3339_ns value = Some z -> byte_of 58 ∈ as_bytes value)
  (Hns : in_i128 ns = true) :
  parse_splunk_bound_ns parse_rfc3339_ns (splunk_epoch_seconds ns) = Some ns.
Proof.
  destruct (magnitude_bound ns Hns) as [Hmag _]. unfold splunk_epoch_seconds.
  set (m := Z.abs_N ns) in *. pose proof (N.div_mod' m 1000000000) as Hdm.
  assert (Hr : (m mod 1000000000 < 1000000000)%N) by (apply N.mod_lt; lia).
  assert (Hq : (m / 1000000000 < 10 ^ 39)%N) by (pose proof (N.Div0.div_le_upper_bound m 1000000000 m); lia).
  set (q := (m / 1000000000)%N) in *. set (r := (m mod 1000000000)%N) in *.
  assert (Hv : ((if (ns <? 0)%Z then -1 else 1) * (Z.of_N q * 1000000000 + Z.of_N r) = ns)%Z).
  { destruct (Z.ltb_spec ns 0); unfold m in Hdm; lia. }
  pose proof (parse_rendered (ns <? 0)%Z q r Hq Hr) as Hp. cbn zeta in Hp. rewrite Hv in Hp.
  apply in_i128_spec in Hns. specialize (Hp Hns). unfold parse_splunk_bound_ns in Hp |- *.
  set (text := of_bytes _) in *.
  destruct (parse_rfc3339_ns text) as [z|] eqn:Hc; [|exact Hp]. exfalso.
  apply Hchrono in Hc. unfold text in Hc. rewrite as_of_bytes in Hc.
  assert (Hno : byte_of 58 ∉ render_u128 q ++ dot :: pad9 (render_u128 r)).
  { destruct (pad9_facts r Hr) as (_ & Hd & _). pose proof (u128_digits q) as Hqd.
    rewrite Forall_forall in Hd, Hqd. rewrite elem_of_app, elem_of_cons.
    intros [Hin|[Hin|Hin]]; [by pose proof (Hqd _ Hin)|done|by pose proof (Hd _ Hin)]. }
  destruct (ns <? 0)%Z; [|done]. apply elem_of_cons in Hc as [Hc|Hc]; done.
Qed.

Module IngestionWitness.

Lemma partitions_tile_interval_witness :
  try_half_open_partitions 0 10 3
    = Some (Ok [{| start_ns := 0; end_ns := 4 |}; {| start_ns := 4; end_ns := 7 |}; {| start_ns := 7; end_ns := 10 |}])
  /\ match try_half_open_partitions 0 10 3 with
     | Some (Ok l) => tiles 0 10 l /\ length (List.filter (covers 7) l) = 1%nat
     | _ => False
     end.
Proof.
  split; [vm_compute; reflexivity|].
  pose proof (partitions_tile_interval 0 10 3 eq_refl eq_refl ltac:(vm_compute; discriminate)) as H.
  change (try_half_open_partitions 0 10 3)
    with (Some (@Ok _ string [{| start_ns := 0; end_ns := 4 |}; {| start_ns := 4; end_ns := 7 |}; {| start_ns := 7; end_ns := 10 |}])) in *.
  cbv iota in *. change ((10 <=? 0)%Z || (3 =? 0)%N) with false in H. cbv iota in H. destruct H as (_ & Ht & _ & Hc).
  split; [exact Ht|]. exact (Hc 7%Z).
Defined.

Lemma splunk_bound_roundtrip_witness :
  splunk_epoch_seconds (-1500000000) = "-1.500000000"
  /\ parse_splunk_bound_ns (fun _ => None) (splunk_epoch_seconds (-1500000000)) = Some (-1500000000)%Z.
Proof.
  split; [vm_compute; reflexivity|].
  apply (splunk_bound_roundtrip (fun _ => None) (-1500000000)); [discriminate|reflexivity].
Defined.
End IngestionWitness.
