(* ===== verification/Merge.v ===== *)
(** * Merging canonical partitions (src/src/ingestion.rs)

    Each partition is an NDJSON file sorted by time.  The merge holds one
    record per partition in a heap, pops the next in order, drops a record
    whose key repeats the last one written from another partition, and writes
    the rest to a new artifact.  A partition is admitted only if it is what its
    manifest says.  Serde's encoding is the class [RecordCodec]; the heap is a
    list whose [pop] takes a greatest element, which is what [BinaryHeap]
    promises; files, cancellation and input-output outcomes come from the
    environment. *)
From S2P Require Import Prelude RustStr Json PolicyTypes Signing F64 Scope Writer Ingestion.

Definition MAX_STREAM_RECORD_SIZE : N := 1024 * 1024.

Definition newline : byte := byte_of 10.

Inductive RecordOrdering := Chronological | ReverseChronological.

#[export] Instance RecordOrdering_eq_dec : EqDecision RecordOrdering.
Proof. solve_decision. Defined.

Record CanonicalRecord := {
  timestamp_ns : option Z;
  source : string;
  payload : string;
  labels : option Value;
  metadata : option Value;
}.

(** serde_json: [to_vec] and [from_slice] of records, [to_string] of values. *)
Class RecordCodec := {
  record_to_vec : CanonicalRecord -> option (list byte);
  record_from_slice : list byte -> option CanonicalRecord;
  value_to_string : Value -> string;
}.

Class RecordCodecLaws `{RecordCodec} := {
  record_roundtrip r l : record_to_vec r = Some l -> record_from_slice l = Some r;
  record_one_line r l : record_to_vec r = Some l -> newline ∉ l;
}.

(** [{:?}] of an [Option<i128>]. *)
Definition debug_timestamp (t : option Z) : list byte :=
  match t with
  | None => as_bytes "None"
  | Some z =>
      as_bytes "Some(" ++ (if (z <? 0)%Z then [byte_of 45] else []) ++ render_u128 (Z.abs_N z) ++ as_bytes ")"
  end.

Section Keys.
Context `{Crypto} `{RecordCodec}.

Definition stable_key (r : CanonicalRecord) : list byte :=
  debug_timestamp (timestamp_ns r) ++ byte_of 0 :: as_bytes (source r) ++ byte_of 0
  :: mjoin (map hex_lower
       (sha256 (as_bytes (payload r)
                ++ match labels r with Some v => as_bytes (value_to_string v) | None => [] end))).
End Keys.

(** ** The heap *)

Record HeapRecord := {
  h_record : CanonicalRecord;
  h_partition : nat;
  h_sequence : N;
  h_reverse : bool;
}.

(** [Ord for Option<i128>]: [None] first. *)
Definition timestamp_cmp (a b : option Z) : comparison :=
  match a, b with
  | None, None => Eq
  | None, Some _ => Lt
  | Some _, None => Gt
  | Some x, Some y => (x ?= y)%Z
  end.

Definition then_with (a b : comparison) : comparison := match a with Eq => b | c => c end.

Definition natural_cmp (a b : HeapRecord) : comparison :=
  then_with (timestamp_cmp (timestamp_ns (h_record a)) (timestamp_ns (h_record b)))
    (then_with (Nat.compare (h_partition a) (h_partition b)) (N.compare (h_sequence a) (h_sequence b))).

(** [Ord for HeapRecord]. *)
Definition heap_cmp (a b : HeapRecord) : comparison :=
  if h_reverse a then natural_cmp a b else CompOpp (natural_cmp a b).

(** [BinaryHeap::pop]: a greatest element and the others. *)
Fixpoint heap_pop (h : list HeapRecord) : option (HeapRecord * list HeapRecord) :=
  match h with
  | [] => None
  | x :: rest =>
      match heap_pop rest with
      | None => Some (x, [])
      | Some (y, rest') =>
          match heap_cmp x y with Lt => Some (y, x :: rest') | _ => Some (x, y :: rest') end
      end
  end.

(** ** Reading lines *)

(** [read_until(b'\n')]: the line with its terminator, and what follows. *)
Definition read_until (l : list byte) : list byte * list byte :=
  match split_once_bytes newline l with
  | Some (before, after) => (before ++ [newline], after)
  | None => (l, [])
  end.

Definition ends_with_newline (l : list byte) : bool :=
  match last l with Some b => beqb b newline | None => false end.

(** The check both readers make of a line. *)
Definition line_acceptable (line : list byte) : bool :=
  negb (MAX_STREAM_RECORD_SIZE + 1 <? N.of_nat (length line))%N && ends_with_newline line.

Section Reading.
Context `{RecordCodec}.

Definition read_next (io : Io) (reader : list byte) (partition : nat) (sequence : N) (reverse : bool)
  : result (option HeapRecord * list byte) IoError :=
  let? _ := io_result io in
  let '(line, rest) := read_until reader in
  match line with
  | [] => Ok (None, rest)
  | _ =>
      if negb (line_acceptable line)
      then Err (IoFileTooLarge "partition contains oversized or unterminated NDJSON record")
      else match record_from_slice (removelast line) with
           | None => Err (IoOther "invalid record")
           | Some record =>
               Ok (Some {| h_record := record; h_partition := partition; h_sequence := sequence;
                           h_reverse := reverse |}, rest)
           end
  end.
End Reading.

(** ** The merge *)

(** What the environment answers: the content of each file when it is opened,
    the polls of the cancellation token, and how each read and write ends. *)
Record MergeEnv := {
  me_open : Path -> option (list byte);
  me_cancel_open : nat -> bool;
  me_cancel_pop : nat -> bool;
  me_cancel_end : bool;
  me_first_read : nat -> Io;
  me_read : nat -> Io;
  me_begin : Io;
  me_lease : option N;
  me_write : nat -> result unit IoError * Io;
  me_commit : Io;
}.

Record MergeState := {
  ms_heap : list HeapRecord;
  ms_readers : list (list byte);
  ms_writer : ArtifactWriter;
  ms_records : N;
  ms_duplicates : N;
  ms_last_key : option (list byte);
  ms_last_partition : option nat;
  ms_limited : bool;
  ms_max_heap_records : nat;
}.

Record MergeResult := {
  mr_artifact : StreamedArtifact;
  mr_records : N;
  mr_duplicates : N;
  mr_limited : bool;
  mr_max_heap_records : nat;
  mr_max_dedup_records : nat;
}.

Definition cancelled_error : IoError := IoInterrupted "canonical partition merge cancelled".

Section Merge.
Context `{Crypto} `{RecordCodec}.
Variable env : MergeEnv.

(** Opening the partitions, in order. *)
Fixpoint open_readers (n : nat) (paths : list Path) : result (list (list byte)) IoError :=
  match paths with
  | [] => Ok []
  | path :: rest =>
      if me_cancel_open env n then Err cancelled_error
      else match me_open env path with
           | None => Err IoSystem
           | Some content =>
               let? readers := open_readers (S n) rest in
               Ok (content :: readers)
           end
  end.

(** The first record of every partition. *)
Fixpoint fill_heap (index : nat) (reverse : bool) (readers : list (list byte))
  : result (list HeapRecord * list (list byte)) IoError :=
  match readers with
  | [] => Ok ([], [])
  | reader :: rest =>
      let? '(item, reader') := read_next (me_first_read env index) reader index 0 reverse in
      let? '(heap, readers') := fill_heap (S index) reverse rest in
      Ok (match item with Some x => x :: heap | None => heap end, reader' :: readers')
  end.

Definition is_boundary_duplicate (last_key : option (list byte)) (last_partition : option nat) (item : HeapRecord) : bool :=
  bool_decide (last_key = Some (stable_key (h_record item)))
  && negb (bool_decide (last_partition = Some (h_partition item))).

(** Writing one popped record, or counting it as a duplicate. *)
Definition emit_line (k : nat) (item : HeapRecord) (st : MergeState) : result MergeState IoError :=
  if is_boundary_duplicate (ms_last_key st) (ms_last_partition st) item
  then Ok {| ms_heap := ms_heap st; ms_readers := ms_readers st; ms_writer := ms_writer st;
             ms_records := ms_records st; ms_duplicates := ms_duplicates st + 1; ms_last_key := ms_last_key st;
             ms_last_partition := Some (h_partition item); ms_limited := ms_limited st;
             ms_max_heap_records := ms_max_heap_records st |}
  else match record_to_vec (h_record item) with
       | None => Err (IoOther "invalid record")
       | Some line =>
           if (MAX_STREAM_RECORD_SIZE <? N.of_nat (length line))%N
           then Err (IoFileTooLarge "canonical record exceeds maximum decoded record size")
           else match write_chunk (me_write env k).1 (me_write env k).2 (ms_writer st) (line ++ [newline]) with
                | (_, Err e) => Err e
                | (w, Ok _) =>
                    Ok {| ms_heap := ms_heap st; ms_readers := ms_readers st; ms_writer := w;
                          ms_records := ms_records st + 1; ms_duplicates := ms_duplicates st;
                          ms_last_key := Some (stable_key (h_record item));
                          ms_last_partition := Some (h_partition item); ms_limited := ms_limited st;
                          ms_max_heap_records := ms_max_heap_records st |}
                end
       end.

(** Replacing the popped record by the next of its partition. *)
Definition refill_heap (k : nat) (item : HeapRecord) (reverse : bool) (st : MergeState) : result MergeState IoError :=
  match ms_readers st !! h_partition item with
  | None => Err (IoOther "reader index out of range")
  | Some reader =>
      let? '(next, reader') :=
        read_next (me_read env k) reader (h_partition item) (h_sequence item + 1) reverse in
      let heap := match next with Some x => x :: ms_heap st | None => ms_heap st end in
      Ok {| ms_heap := heap; ms_readers := <[h_partition item := reader']> (ms_readers st);
            ms_writer := ms_writer st; ms_records := ms_records st; ms_duplicates := ms_duplicates st;
            ms_last_key := ms_last_key st; ms_last_partition := ms_last_partition st; ms_limited := ms_limited st;
            ms_max_heap_records :=
              match next with Some _ => Nat.max (ms_max_heap_records st) (length heap) | None => ms_max_heap_records st end |}
  end.

Definition with_heap (heap : list HeapRecord) (limited : bool) (st : MergeState) : MergeState :=
  {| ms_heap := heap; ms_readers := ms_readers st; ms_writer := ms_writer st; ms_records := ms_records st;
     ms_duplicates := ms_duplicates st; ms_last_key := ms_last_key st; ms_last_partition := ms_last_partition st;
     ms_limited := limited; ms_max_heap_records := ms_max_heap_records st |}.

(** The loop over the heap; [None] when the fuel is spent. *)
Fixpoint merge_loop (fuel k : nat) (reverse : bool) (limit : option N) (st : MergeState)
  : option (result MergeState IoError) :=
  match fuel with
  | O => None
  | S fuel' =>
      match heap_pop (ms_heap st) with
      | None => Some (Ok st)
      | Some (item, heap) =>
          if me_cancel_pop env k then Some (Err cancelled_error)
          else if is_some_and limit (fun limit => limit <=? ms_records st)%N
               then Some (Ok (with_heap heap true st))
               else match emit_line k item (with_heap heap (ms_limited st) st) with
                    | Err e => Some (Err e)
                    | Ok st1 =>
                        match refill_heap k item reverse st1 with
                        | Err e => Some (Err e)
                        | Ok st2 => merge_loop fuel' (S k) reverse limit st2
                        end
                    end
      end
  end.

(** Every turn pops a record that a read of at least one byte put there. *)
Definition merge_fuel (readers : list (list byte)) : nat := S (length (mjoin readers)).

Definition merge_partitions (paths : list Path) (ordering : RecordOrdering) (result_limit : option N)
    (max_bytes : N) (dir : Path) (id : string) (owner : OwnerKey)
  : option (result (ArtifactWriter * MergeResult) IoError) :=
  let reverse := bool_decide (ordering = ReverseChronological) in
  match open_readers 0 paths with
  | Err e => Some (Err e)
  | Ok readers =>
      match fill_heap 0 reverse readers with
      | Err e => Some (Err e)
      | Ok (heap, readers') =>
          match io_result (me_begin env) with
          | Err e => Some (Err e)
          | Ok _ =>
              let w := begin_artifact_in_operation dir "canonical-logs" "ndjson" "application/x-ndjson" max_bytes id owner in
              let w := match me_lease env with Some l => set_lease (Some l) w | None => w end in
              match merge_loop (merge_fuel readers) 0 reverse result_limit
                      {| ms_heap := heap; ms_readers := readers'; ms_writer := w; ms_records := 0; ms_duplicates := 0;
                         ms_last_key := None; ms_last_partition := None; ms_limited := false;
                         ms_max_heap_records := length heap |} with
              | None => None
              | Some (Err e) => Some (Err e)
              | Some (Ok st) =>
                  if me_cancel_end env then Some (Err cancelled_error)
                  else match io_result (me_commit env) with
                       | Err e => Some (Err e)
                       | Ok _ =>
                           Some (Ok (ms_writer st,
                             {| mr_artifact := committed_artifact (ms_writer st); mr_records := ms_records st;
                                mr_duplicates := ms_duplicates st; mr_limited := ms_limited st;
                                mr_max_heap_records := ms_max_heap_records st;
                                mr_max_dedup_records := match ms_last_key st with Some _ => 1 | None => 0 end |}))
                       end
              end
          end
      end
  end.
End Merge.

(** ** Writing and validating partitions *)

Inductive Completeness := Complete | Partial | Failed_.

Record PartitionChecksum := {
  pc_index : nat;
  pc_artifact_path : option Path;
  pc_sha256 : string;
  pc_records : N;
  pc_decoded_bytes : N;
}.

Record ArtifactManifest := {
  artifact_version : N;
  format : string;
  vendor : string;
  query_interval : option QueryInterval;
  ordering : RecordOrdering;
  total_records : N;
  encoded_bytes : N;
  decoded_bytes : N;
  final_bytes : N;
  final_sha256 : string;
  partitions : list PartitionChecksum;
  partitions_requested : nat;
  partitions_succeeded : nat;
  partitions_failed : nat;
  deduplication_policy : string;
  duplicate_count : N;
  global_limit : option N;
  limit_reached : bool;
  truncated_records : N;
  skipped_records : N;
  diagnostics : list string;
  completeness : Completeness;
  completeness_reason : option string;
}.

Definition ARTIFACT_VERSION : N := 1.

Section Partitions.
Context `{Crypto} `{RecordCodec}.

(** The lines [write_partition] gives its writer, up to the first record that
    is too large or does not encode. *)
Fixpoint partition_chunks (records : list CanonicalRecord) : list (list byte) * result unit IoError :=
  match records with
  | [] => ([], Ok tt)
  | record :: rest =>
      match record_to_vec record with
      | None => ([], Err (IoOther "invalid record"))
      | Some encoded =>
          if (MAX_STREAM_RECORD_SIZE <? N.of_nat (length encoded))%N
          then ([], Err (IoFileTooLarge "canonical record exceeds maximum decoded record size"))
          else let '(chunks, r) := partition_chunks rest in ((encoded ++ [newline]) :: chunks, r)
      end
  end.

Definition write_partition (env : nat -> result unit IoError * Io) (commit : Io) (prefix : string)
    (records : list CanonicalRecord) (max_bytes : N) (dir : Path) (id : string) (owner : OwnerKey)
  : ArtifactWriter * result StreamedArtifact IoError :=
  let w := begin_artifact_in_operation dir prefix "ndjson" "application/x-ndjson" max_bytes id owner in
  let '(chunks, end_) := partition_chunks records in
  match write_chunks env 0 w chunks with
  | (w, Err e) => (w, Err e)
  | (w, Ok _) =>
      (w, let? _ := end_ in
          let? _ := io_result commit in
          Ok (committed_artifact w))
  end.

(** What the validation loop has seen so far. *)
Record Validation := {
  va_hashed : list byte;
  va_bytes : N;
  va_records : N;
  va_previous : option (option Z);
}.

Definition in_order (o : RecordOrdering) (previous current : option Z) : bool :=
  match o, timestamp_cmp previous current with
  | Chronological, Gt => false
  | ReverseChronological, Lt => false
  | _, _ => true
  end.

Definition validate_line (o : RecordOrdering) (line : list byte) (v : Validation) : result Validation IoError :=
  if negb (line_acceptable line)
  then Err (IoInvalidData "partition contains oversized or unterminated canonical NDJSON")
  else match record_from_slice (removelast line) with
       | None => Err (IoOther "invalid record")
       | Some record =>
           if negb (is_none_or (va_previous v) (fun previous => in_order o previous (timestamp_ns record)))
           then Err (IoInvalidData "partition canonical records violate declared ordering")
           else match checked_add (va_bytes v) (N.of_nat (length line)) with
                | None => Err (IoOther "partition byte counter overflow")
                | Some bytes =>
                    match checked_add (va_records v) 1 with
                    | None => Err (IoOther "partition record counter overflow")
                    | Some records =>
                        Ok {| va_hashed := va_hashed v ++ line; va_bytes := bytes; va_records := records;
                              va_previous := Some (timestamp_ns record) |}
                    end
                end
       end.

(** Each turn consumes a line; [None] when the fuel is spent. *)
Fixpoint validate_loop (fuel : nat) (o : RecordOrdering) (reader : list byte) (v : Validation)
  : option (result Validation IoError) :=
  match fuel with
  | O => None
  | S fuel' =>
      let '(line, rest) := read_until reader in
      match line with
      | [] => Some (Ok v)
      | _ =>
          match validate_line o line v with
          | Err e => Some (Err e)
          | Ok v' => validate_loop fuel' o rest v'
          end
      end
  end.

(** Whether the manifest describes one committed canonical partition. *)
Definition manifest_shape (m : ArtifactManifest) (expected_vendor : string) : bool :=
  (artifact_version m =? ARTIFACT_VERSION)%N && String.eqb (format m) "canonical_ndjson"
  && String.eqb (vendor m) expected_vendor && (partitions_requested m =? 1)%nat
  && (partitions_succeeded m =? 1)%nat && (partitions_failed m =? 0)%nat && (length (partitions m) =? 1)%nat.

Definition manifest_accounts (m : ArtifactManifest) (declared : PartitionChecksum) (path : Path) : bool :=
  String.eqb (pc_sha256 declared) (final_sha256 m) && (pc_records declared =? total_records m)%N
  && ((final_bytes m =? 0)%N || (pc_decoded_bytes declared =? final_bytes m)%N)
  && (pc_index declared =? 0)%nat
  && is_none_or (pc_artifact_path declared) (fun p => bool_decide (p = path)).

(** [validate_partition], given the manifest file's bytes decoded by serde and
    the partition's content. *)
Definition validate_partition (manifest : option ArtifactManifest) (content : option (list byte)) (path : Path)
    (expected_index : nat) (expected_vendor : string) : option (result PartitionChecksum IoError) :=
  match manifest with
  | None => Some (Err (IoOther "invalid manifest"))
  | Some m =>
      match manifest_shape m expected_vendor, partitions m with
      | true, declared :: _ =>
          if negb (manifest_accounts m declared path)
          then Some (Err (IoInvalidData "partition manifest checksum or accounting relationship is invalid"))
          else match content with
               | None => Some (Err IoSystem)
               | Some reader =>
                   match validate_loop (S (length reader)) (ordering m) reader
                           {| va_hashed := []; va_bytes := 0; va_records := 0; va_previous := None |} with
                   | None => None
                   | Some (Err e) => Some (Err e)
                   | Some (Ok v) =>
                       let sha := of_bytes (mjoin (map hex_lower (sha256 (va_hashed v)))) in
                       if negb ((va_bytes v =? pc_decoded_bytes declared)%N && (va_records v =? pc_records declared)%N
                                && String.eqb sha (pc_sha256 declared))
                       then Some (Err (IoInvalidData "partition changed after its manifest was committed"))
                       else Some (Ok {| pc_index := expected_index; pc_artifact_path := None; pc_sha256 := sha;
                                        pc_records := va_records v; pc_decoded_bytes := va_bytes v |})
                   end
               end
      | _, _ =>
          Some (Err (IoInvalidData "partition manifest does not describe one committed canonical partition"))
      end
  end.
End Partitions.

(** ** Files as sequences of records *)

Section Files.
Context `{RecordCodec}.

Inductive parses : list byte -> list CanonicalRecord -> Prop :=
| parses_nil : parses [] []
| parses_line body r rest rs :
    newline ∉ body -> (N.of_nat (length body) <= MAX_STREAM_RECORD_SIZE)%N -> record_from_slice body = Some r ->
    parses rest rs -> parses (body ++ newline :: rest) (r :: rs).

Lemma read_until_line body rest : newline ∉ body -> read_until (body ++ newline :: rest) = (body ++ [newline], rest).
Proof. intros Hb. unfold read_until. by rewrite split_once_bytes_first. Qed.

Lemma read_until_app l line rest : read_until l = (line, rest) -> l = line ++ rest.
Proof.
  unfold read_until. destruct (split_once_bytes newline l) as [[b a]|] eqn:E; intros [= <- <-].
  - apply split_once_bytes_Some in E as [-> _]. by rewrite <- app_assoc.
  - by rewrite app_nil_r.
Qed.

Lemma ends_with_newline_spec l : ends_with_newline l = true -> exists body, l = body ++ [newline].
Proof.
  unfold ends_with_newline. destruct (last l) as [b|] eqn:E; [|done]. intros Hb. apply beqb_eq in Hb as ->.
  by apply last_Some in E.
Qed.

Lemma line_acceptable_body body :
  (N.of_nat (length body) <= MAX_STREAM_RECORD_SIZE)%N -> line_acceptable (body ++ [newline]) = true.
Proof.
  intros Hl. unfold line_acceptable, ends_with_newline. rewrite last_snoc, beqb_refl, length_app, andb_true_r.
  apply negb_true_iff, N.ltb_ge. cbn [length]. lia.
Qed.

(** An acceptable line read from a file is its body and the newline. *)
Lemma read_until_acceptable l line rest :
  read_until l = (line, rest) -> line_acceptable line = true ->
  exists body, line = body ++ [newline] /\ newline ∉ body /\ (N.of_nat (length body) <= MAX_STREAM_RECORD_SIZE)%N
               /\ l = body ++ newline :: rest.
Proof.
  intros Hr Ha. unfold line_acceptable in Ha. bool_to_prop.
  pose proof (read_until_app _ _ _ Hr) as Hl. unfold read_until in Hr.
  destruct (split_once_bytes newline l) as [[b a]|] eqn:E; injection Hr as <- <-.
  - apply split_once_bytes_Some in E as [-> Hb]. exists b. rewrite length_app in *. cbn [length] in *.
    repeat split; [done|lia].
  - exfalso. apply split_once_bytes_None in E. destruct (ends_with_newline_spec l) as [body ->]; [done|].
    apply E. set_solver.
Qed.

Lemma removelast_snoc {A} (l : list A) x : removelast (l ++ [x]) = l.
Proof. rewrite removelast_app by done. cbn. by rewrite app_nil_r. Qed.

Lemma read_next_parses l rs p s rev :
  parses l rs ->
  read_next IoDone l p s rev
  = Ok (match rs with
        | [] => None
        | r :: _ => Some {| h_record := r; h_partition := p; h_sequence := s; h_reverse := rev |}
        end, match rs with [] => [] | _ => (read_until l).2 end)
  /\ parses (read_until l).2 (tail rs).
Proof.
  intros Hp. destruct Hp as [|body r rest rs Hb Hl Hr Hp].
  - split; [done|constructor].
  - unfold read_next. cbn [io_result]. rewrite read_until_line by done. cbn [snd tail].
    split; [|done]. destruct (body ++ [newline]) as [|b l] eqn:E; [by destruct body|]. rewrite <- E.
    rewrite line_acceptable_body by done. cbn [negb]. by rewrite removelast_snoc, Hr.
Qed.

Lemma parses_functional l rs rs' : parses l rs -> parses l rs' -> rs = rs'.
Proof.
  intros Hp. revert rs'. induction Hp as [|body r rest rs Hb Hl Hr Hp IH]; intros rs' Hp'.
  - inversion Hp' as [|body ? ? ? ? ? ? ? Heq]; [done|]. by destruct body.
  - inversion Hp' as [Heq|body' r' rest' rs'' Hb' Hl' Hr' Hp'' Heq]; [by destruct body|]. subst rs'.
    pose proof (read_until_line body rest Hb) as H1. rewrite <- Heq, (read_until_line body' rest' Hb') in H1.
    injection H1 as H1 ->. apply app_inj_tail in H1 as [-> _].
    rewrite Hr in Hr'. injection Hr' as ->. f_equal. by apply IH.
Qed.

Lemma parses_length l rs : parses l rs -> (length rs <= length l)%nat.
Proof. induction 1; cbn; [lia|]. rewrite length_app. cbn. lia. Qed.

Lemma parses_app l1 rs1 l2 rs2 : parses l1 rs1 -> parses l2 rs2 -> parses (l1 ++ l2) (rs1 ++ rs2).
Proof.
  induction 1 as [|body r rest rs Hb Hl Hr Hp IH]; intros H2; [done|]. cbn. rewrite <- app_assoc. cbn.
  constructor; auto.
Qed.
End Files.

(** ** The order in which records are written *)

Definition flip_if (reverse : bool) (c : comparison) : comparison := if reverse then CompOpp c else c.

(** By time, then by partition, both reversed together, then by position in
    the partition, which is never reversed. *)
Definition write_cmp (reverse : bool) (a b : HeapRecord) : comparison :=
  then_with (flip_if reverse (timestamp_cmp (timestamp_ns (h_record a)) (timestamp_ns (h_record b))))
    (then_with (flip_if reverse (Nat.compare (h_partition a) (h_partition b)))
       (N.compare (h_sequence a) (h_sequence b))).

(** [a] is written no later than [b]. *)
Definition precedes (reverse : bool) (a b : HeapRecord) : Prop := write_cmp reverse a b <> Gt.

#[export] Instance precedes_dec reverse : RelDecision (precedes reverse).
Proof. intros a b. unfold precedes. destruct (write_cmp reverse a b); (by left; intros ?) || (by right; intros []). Defined.

(** Total preorders given by a comparison, and how they compose. *)
Record ordered {A} (c : A -> A -> comparison) : Prop := {
  or_sym x y : c y x = CompOpp (c x y);
  or_lt x y z : c x y = Lt -> c y z = Lt -> c x z = Lt;
  or_eq x y z : c x y = Eq -> c x z = c y z;
}.

Lemma ordered_pull {A B} (f : A -> B) c : ordered c -> ordered (fun x y => c (f x) (f y)).
Proof. intros [Hs Hl He]. split; eauto. Qed.

Lemma ordered_flip {A} (r : bool) (c : A -> A -> comparison) : ordered c -> ordered (fun x y => flip_if r (c x y)).
Proof.
  intros [Hs Hl He]. destruct r; [|by split]. split; cbn [flip_if].
  - intros x y. by rewrite (Hs x y).
  - intros x y z. rewrite <- !Hs. eauto.
  - intros x y z E. f_equal. apply He. destruct (c x y); done.
Qed.

Lemma ordered_then {A} (c d : A -> A -> comparison) :
  ordered c -> ordered d -> ordered (fun x y => then_with (c x y) (d x y)).
Proof.
  intros [Cs Cl Ce] [Ds Dl De]. split; unfold then_with.
  - intros x y. rewrite (Cs x y), (Ds x y). by destruct (c x y).
  - intros x y z H1 H2. destruct (c x y) eqn:E1; [|destruct (c y z) eqn:E2; [| |done]|done].
    + rewrite (Ce x y z E1). destruct (c y z); [eauto|done|done].
    + assert (c x z = Lt) as ->; [|done]. rewrite Cs, (Ce z y x), Cs, E1; [done|]. by rewrite Cs, E2.
    + by rewrite (Cl x y z E1 E2).
  - intros x y z E. destruct (c x y) eqn:E1; [|done..]. rewrite (Ce x y z E1). destruct (c y z); auto.
Qed.

Lemma ordered_nat : ordered Nat.compare.
Proof.
  split; intros x y; [by rewrite Nat.compare_antisym|intros z; rewrite !Nat.compare_lt_iff; lia|].
  intros z E. by apply Nat.compare_eq in E as ->.
Qed.

Lemma ordered_N : ordered N.compare.
Proof.
  split; intros x y; [by rewrite N.compare_antisym|intros z; rewrite !N.compare_lt_iff; lia|].
  intros z E. by apply N.compare_eq in E as ->.
Qed.

Lemma ordered_timestamp : ordered timestamp_cmp.
Proof.
  split.
  - intros [x|] [y|]; cbn; try done. by rewrite Z.compare_antisym.
  - intros [x|] [y|] [z|]; cbn; try done. rewrite !Z.compare_lt_iff. lia.
  - intros [x|] [y|] z; cbn; try done. intros E. by apply Z.compare_eq in E as ->.
Qed.

Lemma write_cmp_ordered reverse : ordered (write_cmp reverse).
Proof.
  apply ordered_then; [|apply ordered_then].
  - apply ordered_flip, (ordered_pull (fun a => timestamp_ns (h_record a)) timestamp_cmp), ordered_timestamp.
  - apply ordered_flip, (ordered_pull h_partition Nat.compare), ordered_nat.
  - apply (ordered_pull h_sequence N.compare), ordered_N.
Qed.

#[export] Instance precedes_trans reverse : Transitive (precedes reverse).
Proof.
  intros a b c. unfold precedes. pose proof (write_cmp_ordered reverse) as [Hs Hl He]. intros H1 H2.
  destruct (write_cmp reverse a b) eqn:E1; [by rewrite (He a b c E1)| |done].
  destruct (write_cmp reverse b c) eqn:E2; [| |done].
  - rewrite Hs, (He c b a), Hs, E1; [done|]. by rewrite Hs, E2.
  - by rewrite (Hl a b c E1 E2).
Qed.

Lemma precedes_total' reverse a b : precedes reverse a b \/ precedes reverse b a.
Proof.
  unfold precedes. rewrite (or_sym _ (write_cmp_ordered reverse) a b).
  destruct (write_cmp reverse a b); [by left|by left|by right].
Qed.

#[export] Instance precedes_total reverse : Total (precedes reverse).
Proof. intros a b. apply precedes_total'. Qed.

Lemma precedes_refl reverse a : precedes reverse a a.
Proof. by destruct (precedes_total' reverse a a). Qed.

Lemma flip_if_eq r c : flip_if r c = Eq -> c = Eq.
Proof. by destruct r, c. Qed.

Lemma precedes_antisymm reverse a b :
  precedes reverse a b -> precedes reverse b a -> h_partition a = h_partition b /\ h_sequence a = h_sequence b.
Proof.
  unfold precedes. rewrite (or_sym _ (write_cmp_ordered reverse) a b). intros H1 H2.
  destruct (write_cmp reverse a b) eqn:E; [|done..]. unfold write_cmp, then_with in E.
  destruct (flip_if reverse (timestamp_cmp _ _)); [|done..].
  destruct (flip_if reverse (Nat.compare _ _)) eqn:Ep; [|done..]. apply flip_if_eq, Nat.compare_eq in Ep.
  by apply N.compare_eq in E.
Qed.

Definition ordering_of (reverse : bool) : RecordOrdering := if reverse then ReverseChronological else Chronological.

(** Time order is what the order refines. *)
Lemma precedes_time reverse a b :
  precedes reverse a b ->
  in_order (ordering_of reverse) (timestamp_ns (h_record a)) (timestamp_ns (h_record b)) = true.
Proof. unfold precedes, write_cmp, in_order. by destruct reverse, (timestamp_cmp _ _). Qed.

Lemma precedes_next reverse a b :
  in_order (ordering_of reverse) (timestamp_ns (h_record a)) (timestamp_ns (h_record b)) = true ->
  h_partition a = h_partition b -> (h_sequence a < h_sequence b)%N -> precedes reverse a b.
Proof.
  unfold precedes, write_cmp, in_order. intros Ht -> Hs. rewrite Nat.compare_refl, (proj2 (N.compare_lt_iff _ _) Hs).
  by destruct reverse, (timestamp_cmp _ _).
Qed.

(** Between records of different partitions the heap agrees with it. *)
Lemma heap_cmp_precedes a b :
  h_partition a <> h_partition b -> (heap_cmp a b = Lt <-> ~ precedes (h_reverse a) a b).
Proof.
  unfold precedes, write_cmp, heap_cmp, natural_cmp. intros Hp.
  destruct (Nat.compare_spec (h_partition a) (h_partition b)) as [|Hc|Hc]; [done|..];
    destruct (h_reverse a), (timestamp_cmp _ _); cbn; split; intros Hx;
    first [reflexivity | discriminate | (intros Hy; by apply Hy) | (exfalso; apply Hx; discriminate)].
Qed.

Lemma heap_pop_None h : heap_pop h = None <-> h = [].
Proof.
  destruct h as [|x h]; [done|]. cbn. split; [|done].
  destruct (heap_pop h) as [[y h']|]; [|done]. by destruct (heap_cmp x y).
Qed.

(** Popping gives the next record to write. *)
Lemma heap_pop_spec reverse h x h' :
  Forall (fun y => h_reverse y = reverse) h -> NoDup (map h_partition h) -> heap_pop h = Some (x, h') ->
  h ≡ₚ x :: h' /\ Forall (precedes reverse x) h.
Proof.
  revert x h'; induction h as [|a h IH]; intros x h' Hrev Hnd; cbn [heap_pop]; [done|].
  apply Forall_cons in Hrev as [Ha Hrev]. cbn [map] in Hnd. apply NoDup_cons in Hnd as [Hna Hnd].
  destruct (heap_pop h) as [[y r]|] eqn:E.
  - destruct (IH _ _ Hrev Hnd eq_refl) as [Hp Hf].
    assert (Hne : h_partition a <> h_partition y).
    { intros Heq. apply Hna. rewrite Heq. apply list_elem_of_fmap_2. rewrite Hp. left. }
    pose proof (heap_cmp_precedes a y Hne) as Hc. rewrite Ha in Hc.
    destruct (decide (precedes reverse a y)) as [Hay|Hay].
    + assert (Hx : x = a /\ h' = y :: r -> a :: h ≡ₚ x :: h' /\ Forall (precedes reverse x) (a :: h)).
      { intros [-> ->]. split; [by rewrite Hp|]. constructor; [apply precedes_refl|].
        eapply Forall_impl; [exact Hf|]. intros z Hz. by etrans. }
      destruct (heap_cmp a y) eqn:C; [|exfalso; by apply Hc|]; intros [= <- <-]; by apply Hx.
    + rewrite (proj2 Hc Hay). intros [= <- <-]. split; [rewrite Hp; constructor|].
      constructor; [|done]. by destruct (precedes_total' reverse y a).
  - apply heap_pop_None in E as ->. intros [= <- <-]. split; [done|].
    constructor; [apply precedes_refl|constructor].
Qed.

(** ** The reference: sort everything, then scan *)

Fixpoint tag (reverse : bool) (p : nat) (s : N) (rs : list CanonicalRecord) : list HeapRecord :=
  match rs with
  | [] => []
  | r :: rest =>
      {| h_record := r; h_partition := p; h_sequence := s; h_reverse := reverse |} :: tag reverse p (s + 1) rest
  end.

Fixpoint tag_all (reverse : bool) (p : nat) (parts : list (list CanonicalRecord)) : list (list HeapRecord) :=
  match parts with
  | [] => []
  | rs :: rest => tag reverse p 0 rs :: tag_all reverse (S p) rest
  end.

Section Reference.
Context `{Crypto} `{RecordCodec}.

(** Scanning records in order: what is written, how many were dropped as
    repeats, and whether the limit cut the scan. *)
Fixpoint scan_sorted (limit : option N) (written : N) (last_key : option (list byte)) (last_partition : option nat)
    (items : list HeapRecord) : list CanonicalRecord * N * bool :=
  match items with
  | [] => ([], 0%N, false)
  | item :: rest =>
      if is_some_and limit (fun limit => limit <=? written)%N then ([], 0%N, true)
      else if is_boundary_duplicate last_key last_partition item
           then let '(out, dups, limited) := scan_sorted limit written last_key (Some (h_partition item)) rest in
                (out, (1 + dups)%N, limited)
           else let '(out, dups, limited) :=
                  scan_sorted limit (written + 1) (Some (stable_key (h_record item))) (Some (h_partition item)) rest in
                (h_record item :: out, dups, limited)
  end.

Definition reference_merge (ordering : RecordOrdering) (limit : option N) (parts : list (list CanonicalRecord))
  : list CanonicalRecord * N * bool :=
  let reverse := bool_decide (ordering = ReverseChronological) in
  scan_sorted limit 0 None None (merge_sort (precedes reverse) (mjoin (tag_all reverse 0 parts))).

(** The encoded lines of records. *)
Definition line_of (r : CanonicalRecord) : list byte := default [] (record_to_vec r) ++ [newline].
Definition lines_of (rs : list CanonicalRecord) : list byte := mjoin (map line_of rs).

Definition encodes (r : CanonicalRecord) : Prop :=
  exists l, record_to_vec r = Some l /\ (N.of_nat (length l) <= MAX_STREAM_RECORD_SIZE)%N.
End Reference.

(** ** Pending records: one queue per partition *)

Definition time_sorted (o : RecordOrdering) (rs : list CanonicalRecord) : Prop :=
  Sorted (fun a b => in_order o (timestamp_ns a) (timestamp_ns b) = true) rs.

Definition pending (reverse : bool) (Q : list (list HeapRecord)) : list HeapRecord :=
  merge_sort (precedes reverse) (mjoin Q).

(** Queue [p] holds a sorted tail of partition [p]. *)
Definition queues (reverse : bool) (Q : list (list HeapRecord)) : Prop :=
  forall p q, Q !! p = Some q -> exists s rs, q = tag reverse p s rs /\ StronglySorted (precedes reverse) q.

Lemma tag_elem reverse p s rs y :
  y ∈ tag reverse p s rs -> h_partition y = p /\ h_reverse y = reverse /\ (s <= h_sequence y)%N /\ h_record y ∈ rs.
Proof.
  revert s; induction rs as [|r rs IH]; intros s; cbn [tag]; [by rewrite elem_of_nil|].
  rewrite elem_of_cons. intros [->|Hy].
  - cbn. repeat split; [lia|left].
  - apply IH in Hy as (? & ? & ? & ?). repeat split; [done|done|lia|by right].
Qed.

Lemma tag_unique reverse p s rs y z :
  y ∈ tag reverse p s rs -> z ∈ tag reverse p s rs -> h_sequence y = h_sequence z -> y = z.
Proof.
  revert s; induction rs as [|r rs IH]; intros s; cbn [tag]; [by rewrite elem_of_nil|].
  rewrite !elem_of_cons. intros [->|Hy] [->|Hz] Heq; [done|..|by eapply IH].
  - apply tag_elem in Hz. cbn in Heq. lia.
  - apply tag_elem in Hy. cbn in Heq. lia.
Qed.

Lemma tag_sorted reverse p s rs :
  time_sorted (ordering_of reverse) rs -> StronglySorted (precedes reverse) (tag reverse p s rs).
Proof.
  intros Hs. apply Sorted_StronglySorted; [apply _|]. revert s.
  induction Hs as [|r rs Hs IH Hd]; intros s; cbn [tag]; [constructor|].
  constructor; [apply IH|]. destruct Hd as [|r' rs Hd]; cbn [tag]; constructor.
  apply precedes_next; cbn; [done|done|lia].
Qed.

Lemma tag_records reverse p s rs : map h_record (tag reverse p s rs) = rs.
Proof. revert s; induction rs as [|r rs IH]; intros s; cbn; [done|]. by rewrite IH. Qed.

Lemma tag_length reverse p s rs : length (tag reverse p s rs) = length rs.
Proof. revert s; induction rs as [|r rs IH]; intros s; cbn; [done|]. by rewrite IH. Qed.

Lemma elem_of_mjoin {A} (x : A) (ls : list (list A)) : x ∈ mjoin ls <-> exists p l, ls !! p = Some l /\ x ∈ l.
Proof.
  rewrite list_elem_of_join. split.
  - intros (l & Hx & Hl). apply list_elem_of_lookup in Hl as [p Hp]. eauto.
  - intros (p & l & Hp & Hx). exists l. split; [done|]. by eapply list_elem_of_lookup_2.
Qed.

Lemma queues_unique reverse Q y z :
  queues reverse Q -> y ∈ mjoin Q -> z ∈ mjoin Q ->
  h_partition y = h_partition z -> h_sequence y = h_sequence z -> y = z.
Proof.
  intros HQ Hy Hz Hp Hs. apply elem_of_mjoin in Hy as (p1 & q1 & H1 & Hy), Hz as (p2 & q2 & H2 & Hz).
  destruct (HQ _ _ H1) as (s1 & r1 & -> & _), (HQ _ _ H2) as (s2 & r2 & -> & _).
  pose proof (tag_elem _ _ _ _ _ Hy) as (E1 & _). pose proof (tag_elem _ _ _ _ _ Hz) as (E2 & _).
  assert (p1 = p2) as <- by congruence. rewrite H1 in H2. injection H2 as E. rewrite <- E in Hz.
  by eapply tag_unique.
Qed.

(** The heads of the queues: at most one per partition. *)
Lemma heads_partitions k (Q : list (list HeapRecord)) :
  (forall p q y, Q !! p = Some q -> y ∈ q -> h_partition y = (k + p)%nat) ->
  NoDup (map h_partition (omap head Q)) /\ Forall (fun y => (k <= h_partition y)%nat) (omap head Q).
Proof.
  revert k; induction Q as [|q Q IH]; intros k HQ; cbn [omap list_omap]; [split; constructor|].
  destruct (IH (S k)) as [Hn Hf].
  { intros p q' y Hp Hy. rewrite (HQ (S p) q' y Hp Hy). lia. }
  assert (Hf' : Forall (fun y => (k <= h_partition y)%nat) (omap head Q)).
  { eapply Forall_impl; [exact Hf|]. intros; cbn in *; lia. }
  destruct q as [|y q]; cbn [head]; [done|].
  assert (Hy : h_partition y = k) by (rewrite (HQ 0%nat (y :: q) y); [lia|done|left]).
  cbn [map]. split; constructor; [|done|lia|done].
  intros Hin. apply list_elem_of_fmap in Hin as (z & Hz & Hin). rewrite Forall_forall in Hf.
  pose proof (Hf z Hin). cbn in *. lia.
Qed.

Lemma omap_head_elem (Q : list (list HeapRecord)) y :
  y ∈ omap head Q <-> exists p q, Q !! p = Some (y :: q).
Proof.
  rewrite list_elem_of_omap. split.
  - intros (q & Hq & Hy). apply list_elem_of_lookup in Hq as [p Hp]. destruct q as [|z q]; [done|].
    injection Hy as <-. eauto.
  - intros (p & q & Hp). exists (y :: q). split; [by eapply list_elem_of_lookup_2|done].
Qed.

Lemma queue_step (Q : list (list HeapRecord)) p x t :
  Q !! p = Some (x :: t) ->
  mjoin Q ≡ₚ x :: mjoin (<[p := t]> Q)
  /\ omap head Q ≡ₚ x :: omap head (<[p := []]> Q)
  /\ omap head (<[p := t]> Q) ≡ₚ (match head t with Some y => [y] | None => [] end) ++ omap head (<[p := []]> Q).
Proof.
  intros Hp. pose proof (lookup_lt_Some _ _ _ Hp) as Hlt.
  pose proof (take_drop_middle _ _ _ Hp) as Hmid.
  assert (Hins : forall u, <[p := u]> Q = take p Q ++ u :: drop (S p) Q).
  { intros u. rewrite <- Hmid at 1. rewrite insert_app_r_alt by (rewrite length_take; lia).
    rewrite length_take. replace (p - p `min` length Q)%nat with 0%nat by lia. done. }
  rewrite !Hins. clear Hins Hp Hlt. set (a := take p Q) in *. set (b := drop (S p) Q) in *. clearbody a b.
  subst Q. rewrite !omap_app, !join_app. cbn [omap list_omap mjoin list_join head].
  repeat split.
  - cbn [app]. by rewrite <- Permutation_middle.
  - by rewrite <- Permutation_middle.
  - destruct (head t); cbn [app]; [by rewrite <- Permutation_middle|done].
Qed.

(** What popping the heap takes from the queues. *)
Lemma pop_pending reverse Q heap x heap' :
  queues reverse Q -> heap ≡ₚ omap head Q -> heap_pop heap = Some (x, heap') ->
  exists t, Q !! h_partition x = Some (x :: t)
            /\ heap' ≡ₚ omap head (<[h_partition x := []]> Q)
            /\ queues reverse (<[h_partition x := t]> Q)
            /\ pending reverse Q = x :: pending reverse (<[h_partition x := t]> Q).
Proof.
  intros HQ Hh Hpop.
  assert (Hpart : forall p q y, Q !! p = Some q -> y ∈ q -> h_partition y = (0 + p)%nat /\ h_reverse y = reverse).
  { intros p q y Hp Hy. destruct (HQ _ _ Hp) as (s & rs & -> & _). apply tag_elem in Hy. naive_solver. }
  destruct (heads_partitions 0 Q) as [Hnd _]; [intros; by eapply Hpart|].
  destruct (heap_pop_spec reverse heap x heap') as [Hperm Hmin]; [| |done|].
  { rewrite Hh, Forall_forall. intros y Hy. apply omap_head_elem in Hy as (p & q & Hp).
    by destruct (Hpart _ _ y Hp) as [_ ?]; [left|]. }
  { by rewrite Hh. }
  assert (Hx : x ∈ omap head Q) by (rewrite <- Hh, Hperm; left).
  apply omap_head_elem in Hx as (p & t & Hp).
  destruct (Hpart _ _ x Hp) as [Hxp _]; [left|]. cbn in Hxp. subst p. exists t.
  destruct (queue_step Q _ _ _ Hp) as (Hj & Ho & _).
  assert (HQ' : queues reverse (<[h_partition x := t]> Q)).
  { intros p q Hq. destruct (decide (p = h_partition x)) as [->|Hne].
    - rewrite list_lookup_insert_eq in Hq by (by eapply lookup_lt_Some). injection Hq as <-.
      destruct (HQ _ _ Hp) as (s & rs & Hq & Hs). destruct rs as [|r rs]; [done|].
      cbn [tag] in Hq. injection Hq as _ Ht. exists (s + 1)%N, rs. split; [done|]. apply StronglySorted_inv in Hs as [Hs _]. done.
    - rewrite list_lookup_insert_ne in Hq by done. by apply HQ. }
  split; [done|]. split; [|split; [done|]].
  { apply (Permutation_cons_inv (a := x)). by rewrite <- Ho, <- Hh. }
  unfold pending. apply (StronglySorted_unique_strong (precedes reverse)).
  - intros y z Hy Hz Hyz Hzy. destruct (precedes_antisymm _ _ _ Hyz Hzy).
    rewrite merge_sort_Permutation in Hy. apply elem_of_cons in Hz. rewrite merge_sort_Permutation in Hz.
    apply (queues_unique reverse Q); [done|done| |done|done]. rewrite Hj. by apply elem_of_cons.
  - apply StronglySorted_merge_sort; apply _.
  - constructor; [apply StronglySorted_merge_sort; apply _|].
    apply Forall_forall. intros y Hy. rewrite merge_sort_Permutation in Hy.
    assert (Hy' : y ∈ mjoin Q) by (rewrite Hj; by right).
    apply elem_of_mjoin in Hy' as (p & q & Hq & Hyq). destruct q as [|z q]; [by apply elem_of_nil in Hyq|].
    assert (Hz : precedes reverse x z).
    { rewrite Forall_forall in Hmin. apply Hmin. rewrite Hh. apply omap_head_elem. eauto. }
    apply elem_of_cons in Hyq as [->|Hyq]; [done|]. etrans; [exact Hz|].
    destruct (HQ _ _ Hq) as (s & rs & Hqe & Hs). apply StronglySorted_inv in Hs as [_ Hs].
    rewrite Forall_forall in Hs. by apply Hs.
  - rewrite !merge_sort_Permutation. done.
Qed.

(** ** The loop is the scan of the sorted records *)

Section Simulation.
Context `{Crypto} `{RecordCodec}.
Variable env : MergeEnv.
Variable reverse : bool.
Variable limit : option N.

(** Nothing in the environment interferes. *)
Record undisturbed : Prop := {
  un_open n : me_cancel_open env n = false;
  un_pop n : me_cancel_pop env n = false;
  un_end : me_cancel_end env = false;
  un_first n : me_first_read env n = IoDone;
  un_read n : me_read env n = IoDone;
  un_begin : me_begin env = IoDone;
  un_write n : me_write env n = (Ok tt, IoDone);
  un_commit : me_commit env = IoDone;
}.

(** The state holds the queues: their heads in the heap, the rest in the files. *)
Record holds (Q : list (list HeapRecord)) (content : list byte) (st : MergeState) : Prop := {
  ho_queues : queues reverse Q;
  ho_heap : ms_heap st ≡ₚ omap head Q;
  ho_readers : Forall2 (fun reader q => parses reader (map h_record (tail q))) (ms_readers st) Q;
  ho_writer : writer_of content (ms_writer st);
  ho_bound : (ms_max_heap_records st <= length Q)%nat;
}.

Lemma heads_length (Q : list (list HeapRecord)) : (length (omap head Q) <= length Q)%nat.
Proof. induction Q as [|[|y q] Q IH]; cbn; lia. Qed.

Lemma encodes_line r : encodes r -> exists l, record_to_vec r = Some l /\ line_of r = l ++ [newline]
  /\ (N.of_nat (length l) <= MAX_STREAM_RECORD_SIZE)%N.
Proof. intros (l & Hl & Hs). exists l. unfold line_of. by rewrite Hl. Qed.

(** Refilling puts the next record of the popped one's partition in the heap. *)
Lemma refill_holds k Q content st x t heap' :
  undisturbed -> Q !! h_partition x = Some (x :: t) -> queues reverse (<[h_partition x := t]> Q) ->
  queues reverse Q ->
  heap' ≡ₚ omap head (<[h_partition x := []]> Q) -> ms_heap st = heap' ->
  Forall2 (fun reader q => parses reader (map h_record (tail q))) (ms_readers st) Q ->
  writer_of content (ms_writer st) -> (ms_max_heap_records st <= length Q)%nat ->
  exists st', refill_heap env k x reverse st = Ok st' /\ holds (<[h_partition x := t]> Q) content st'
    /\ ms_records st' = ms_records st /\ ms_duplicates st' = ms_duplicates st /\ ms_last_key st' = ms_last_key st
    /\ ms_last_partition st' = ms_last_partition st /\ ms_limited st' = ms_limited st /\ ms_writer st' = ms_writer st.
Proof.
  intros He Hp HQ' HQ Hh' Hst Hr Hw Hb. unfold refill_heap.
  destruct (Forall2_lookup_r _ _ _ _ _ Hr Hp) as (reader & Hrd & Hpar). cbn [tail] in Hpar. rewrite Hrd.
  rewrite (un_read He).
  destruct (read_next_parses _ _ (h_partition x) (h_sequence x + 1) reverse Hpar) as [-> Hpar'].
  assert (Ht : head t = match map h_record t with
                        | [] => None
                        | r :: _ => Some {| h_record := r; h_partition := h_partition x; h_sequence := h_sequence x + 1; h_reverse := reverse |}
                        end).
  { destruct (HQ _ _ Hp) as (s & rs & Hq & _). destruct rs as [|r rs]; [done|]. cbn [tag] in Hq.
    injection Hq as -> ->. cbn [h_sequence h_partition]. destruct rs; reflexivity. }
  destruct (queue_step Q _ _ _ Hp) as (_ & _ & Ho). rewrite <- Ht in *.
  assert (Hheap : (match head t with Some y => y :: ms_heap st | None => ms_heap st end) ≡ₚ omap head (<[h_partition x := t]> Q)).
  { rewrite Ho, Hst. destruct (head t); cbn [app]; by rewrite Hh'. }
  eexists. split; [reflexivity|]. cbn. repeat (split; [|done]). split; cbn.
  - done.
  - done.
  - apply Forall2_insert; [done|]. destruct t as [|y t]; cbn [map tail] in *; [constructor|done].
  - done.
  - rewrite length_insert. destruct (head t) eqn:Eh; [|done].
    apply Nat.max_lub; [done|]. change (S (length (ms_heap st))) with (length (h :: ms_heap st)).
    rewrite Hheap. etrans; [apply heads_length|]. by rewrite length_insert.
Qed.

(** The streaming loop computes the scan of the sorted pending records. *)
Lemma merge_loop_scan fuel k Q content st out dups limited :
  undisturbed -> holds Q content st -> ms_limited st = false ->
  Forall (fun y => encodes (h_record y)) (mjoin Q) ->
  (aw_max_bytes (ms_writer st) <= U64_MAX)%N ->
  scan_sorted limit (ms_records st) (ms_last_key st) (ms_last_partition st) (pending reverse Q) = (out, dups, limited) ->
  (N.of_nat (length (content ++ lines_of out)) <= aw_max_bytes (ms_writer st))%N ->
  (length (mjoin Q) < fuel)%nat ->
  exists st', merge_loop env fuel k reverse limit st = Some (Ok st')
    /\ writer_of (content ++ lines_of out) (ms_writer st')
    /\ ms_records st' = (ms_records st + N.of_nat (length out))%N
    /\ ms_duplicates st' = (ms_duplicates st + dups)%N
    /\ ms_limited st' = limited
    /\ (ms_max_heap_records st' <= length Q)%nat
    /\ aw_preview_enabled (ms_writer st') = aw_preview_enabled (ms_writer st).
Proof.
  intros He. revert k Q content st out dups. induction fuel as [|fuel IH];
    intros k Q content st out dups [HQ Hheap Hr Hw Hb] Hlim Henc Hmax Hscan Hfit Hfuel; [lia|].
  cbn [merge_loop]. destruct (heap_pop (ms_heap st)) as [[x heap']|] eqn:Hpop.
  2: { apply heap_pop_None in Hpop. rewrite Hpop in Hheap. symmetry in Hheap. apply Permutation_nil_r in Hheap.
       assert (Hnil : mjoin Q = []).
       { clear -Hheap. induction Q as [|[|y q] Q IH]; cbn in *; [done| |done]. by apply IH. }
       unfold pending in Hscan. rewrite Hnil in Hscan. injection Hscan as <- <- <-.
       exists st. change (lines_of []) with (@nil byte) in *. rewrite app_nil_r, Hlim.
       change (N.of_nat (length (@nil CanonicalRecord))) with 0%N. rewrite !N.add_0_r. by split_and!. }
  destruct (pop_pending reverse Q _ _ _ HQ Hheap Hpop) as (t & Hp & Hh' & HQ' & Hpend).
  rewrite (un_pop He), Hpend in *. cbn [scan_sorted] in Hscan.
  destruct (is_some_and limit (fun limit => limit <=? ms_records st)%N).
  { injection Hscan as <- <- <-. eexists. split; [reflexivity|].
    change (lines_of []) with (@nil byte) in *. change (N.of_nat (length (@nil CanonicalRecord))) with 0%N.
    cbn [with_heap ms_writer ms_records ms_duplicates ms_limited ms_max_heap_records].
    rewrite app_nil_r, !N.add_0_r. by split_and!. }
  destruct (queue_step Q _ _ _ Hp) as (Hj & _).
  rewrite Hj in Henc. apply Forall_cons in Henc as [Hex Henc].
  assert (Hfuel' : (length (mjoin (<[h_partition x := t]> Q)) < fuel)%nat).
  { apply Permutation_length in Hj. cbn in Hj. lia. }
  set (st0 := with_heap heap' (ms_limited st) st). unfold emit_line.
  change (ms_last_key st0) with (ms_last_key st). change (ms_last_partition st0) with (ms_last_partition st).
  destruct (is_boundary_duplicate (ms_last_key st) (ms_last_partition st) x) eqn:Edup.
  - destruct (scan_sorted _ _ _ _ _) as [[o d] l] eqn:Es in Hscan. injection Hscan as <- <- <-.
    match goal with |- context [refill_heap env k x reverse ?s] => set (st1 := s) end.
    destruct (refill_holds k Q content st1 x t heap') as (st2 & -> & H2 & E1 & E2 & E3 & E4 & E5 & E6); try done.
    destruct (IH (S k) _ _ st2 o d H2) as (st' & -> & Hw' & Hr' & Hd' & Hl' & Hb' & Hpv); try done.
    + by rewrite E5.
    + by rewrite E6.
    + by rewrite E1, E3, E4.
    + by rewrite E6.
    + exists st'. rewrite length_insert in Hb'. rewrite E6 in Hpv. split_and!; try done.
      * by rewrite Hr', E1.
      * rewrite Hd', E2. unfold st1. cbn [ms_duplicates st0 with_heap]. lia.
  - destruct (scan_sorted _ _ _ _ _) as [[o d] l] eqn:Es in Hscan. injection Hscan as <- <- <-.
    destruct (encodes_line _ Hex) as (line & Hvec & Hline & Hsz). rewrite Hvec.
    rewrite (proj2 (N.ltb_ge MAX_STREAM_RECORD_SIZE (N.of_nat (length line))) Hsz), (un_write He k). cbn [fst snd].
    change (ms_writer st0) with (ms_writer st).
    assert (Hfit1 : (N.of_nat (length (content ++ mjoin [line ++ [newline]])) <= aw_max_bytes (ms_writer st))%N).
    { cbn [lines_of map mjoin list_join] in Hfit |- *. rewrite Hline in Hfit. rewrite !length_app in *. cbn [length] in *. lia. }
    destruct (write_chunks_total (fun _ => (Ok tt, IoDone)) 0 content (ms_writer st) [line ++ [newline]])
      as [w Hwr]; [done..|].
    cbn [write_chunks fst snd] in Hwr. destruct (write_chunk (Ok tt) IoDone (ms_writer st) (line ++ [newline])) as [w1 [[]|]] eqn:Ew;
      [|done]. injection Hwr as ->.
    pose proof (write_chunk_of _ _ _ _ _ _ _ Hw Ew) as Hw1. cbn in Hw1.
    pose proof (write_chunk_keeps _ _ _ _ _ _ Ew) as (_ & _ & _ & _ & _ & Hm1 & Hp1).
    match goal with |- context [refill_heap env k x reverse ?s] => set (st1 := s) end.
    destruct (refill_holds k Q (content ++ line ++ [newline]) st1 x t heap') as (st2 & -> & H2 & E1 & E2 & E3 & E4 & E5 & E6);
      try done.
    assert (Hcont : content ++ lines_of (h_record x :: o) = (content ++ line ++ [newline]) ++ lines_of o).
    { unfold lines_of. cbn [map mjoin list_join]. rewrite Hline, !app_assoc. done. }
    destruct (IH (S k) _ _ st2 o d H2) as (st' & -> & Hw' & Hr' & Hd' & Hl' & Hb' & Hpv); try done.
    + by rewrite E5.
    + rewrite E6. unfold st1. cbn [ms_writer]. by rewrite Hm1.
    + by rewrite E1, E3, E4.
    + rewrite E6, <- Hcont. unfold st1. cbn [ms_writer]. by rewrite Hm1.
    + exists st'. rewrite length_insert in Hb'. rewrite E6 in Hpv. rewrite Hcont. split_and!; try done.
      * rewrite Hr', E1. unfold st1. cbn [ms_records st0 with_heap length]. lia.
      * by rewrite Hd', E2.
      * rewrite Hpv. unfold st1. cbn [ms_writer]. by rewrite Hp1.
Qed.
End Simulation.

(** ** From the files to the artifact *)

Section Whole.
Context `{Crypto} `{RecordCodec}.

Lemma open_readers_spec env n paths contents :
  undisturbed env -> Forall2 (fun path c => me_open env path = Some c) paths contents ->
  open_readers env n paths = Ok contents.
Proof.
  intros He Hf. revert n. induction Hf as [|path c paths contents Hc Hf IH]; intros n; cbn [open_readers]; [done|].
  by rewrite (un_open env He), Hc, IH.
Qed.

Lemma fill_heap_spec env index reverse readers parts :
  undisturbed env -> Forall2 parses readers parts ->
  exists readers', fill_heap env index reverse readers = Ok (omap head (tag_all reverse index parts), readers')
    /\ Forall2 (fun reader q => parses reader (map h_record (tail q))) readers' (tag_all reverse index parts).
Proof.
  intros He Hf. revert index. induction Hf as [|reader rs readers parts Hp Hf IH]; intros index; cbn [fill_heap tag_all].
  - exists []. split; [done|constructor].
  - rewrite (un_first env He). destruct (read_next_parses _ _ index 0 reverse Hp) as [-> Hp'].
    destruct (IH (S index)) as (readers' & -> & Hf').
    destruct rs as [|r rs]; cbn [tag omap list_omap head]; eexists; (split; [reflexivity|]); constructor; try done.
    + constructor.
    + cbn [tail map]. by rewrite tag_records.
Qed.

Lemma tag_all_lookup reverse k parts p q :
  tag_all reverse k parts !! p = Some q -> exists rs, parts !! p = Some rs /\ q = tag reverse (k + p) 0 rs.
Proof.
  revert k p; induction parts as [|rs parts IH]; intros k p; cbn [tag_all]; [done|].
  destruct p as [|p]; cbn [lookup list_lookup].
  - intros [= <-]. exists rs. by rewrite Nat.add_0_r.
  - intros Hq. apply IH in Hq as (rs' & ? & ->). exists rs'. split; [done|]. by rewrite Nat.add_succ_r.
Qed.

Lemma tag_all_queues reverse parts :
  Forall (time_sorted (ordering_of reverse)) parts -> queues reverse (tag_all reverse 0 parts).
Proof.
  intros Hs p q Hq. apply tag_all_lookup in Hq as (rs & Hrs & ->). cbn [Nat.add]. exists 0%N, rs. split; [done|].
  apply tag_sorted. rewrite Forall_lookup in Hs. by eapply Hs.
Qed.

Lemma tag_all_records reverse k parts : map h_record (mjoin (tag_all reverse k parts)) = mjoin parts.
Proof.
  revert k; induction parts as [|rs parts IH]; intros k; cbn [tag_all mjoin list_join map]; [done|].
  rewrite map_app, tag_records. f_equal. apply IH.
Qed.

Lemma tag_all_length reverse k parts : length (tag_all reverse k parts) = length parts.
Proof. revert k; induction parts as [|rs parts IH]; intros k; cbn; [done|]. by rewrite IH. Qed.

Lemma parses_total_length readers parts : Forall2 parses readers parts -> (length (mjoin parts) <= length (mjoin readers))%nat.
Proof.
  induction 1 as [|reader rs readers parts Hp Hf IH]; [done|].
  cbn [mjoin list_join]. rewrite !length_app. apply Nat.add_le_mono; [by apply parses_length|exact IH].
Qed.

(** The partitions a merge is given: readable, well-formed, sorted, encodable. *)
Record mergeable (env : MergeEnv) (o : RecordOrdering) (paths : list Path) (parts : list (list CanonicalRecord)) : Prop := {
  mg_files : Forall2 (fun path rs => exists content, me_open env path = Some content /\ parses content rs) paths parts;
  mg_sorted : Forall (time_sorted o) parts;
  mg_encodes : Forall encodes (mjoin parts);
}.

Lemma merge_runs env paths parts o limit max dir id owner out dups limited :
  undisturbed env -> mergeable env o paths parts -> (max <= U64_MAX)%N ->
  reference_merge o limit parts = (out, dups, limited) ->
  (N.of_nat (length (lines_of out)) <= max)%N ->
  exists w res, merge_partitions env paths o limit max dir id owner = Some (Ok (w, res))
    /\ writer_of (lines_of out) w /\ aw_preview_enabled w = true
    /\ mr_artifact res = committed_artifact w
    /\ mr_records res = N.of_nat (length out) /\ mr_duplicates res = dups /\ mr_limited res = limited
    /\ (mr_max_heap_records res <= length paths)%nat /\ (mr_max_dedup_records res <= 1)%nat.
Proof.
  intros He [Hf Hs Henc] Hmax Href Hfit. unfold merge_partitions, reference_merge in *.
  set (reverse := bool_decide (o = ReverseChronological)) in *.
  assert (Ho : o = ordering_of reverse) by (unfold reverse; by destruct o). rewrite Ho in Hs.
  assert (Hlen : length paths = length parts) by (by eapply Forall2_length).
  assert (Hc : exists contents, Forall2 (fun path c => me_open env path = Some c) paths contents /\ Forall2 parses contents parts).
  { clear -Hf. induction Hf as [|path rs paths parts (c & Hc & Hp) Hf (cs & H1 & H2)]; [exists []; split; constructor|].
    exists (c :: cs). split; by constructor. }
  destruct Hc as (contents & Ho1 & Hpar). rewrite (open_readers_spec env 0 _ _ He Ho1).
  destruct (fill_heap_spec env 0 reverse _ _ He Hpar) as (readers' & -> & Hr').
  rewrite (un_begin env He). cbn [io_result].
  set (w0 := match me_lease env with Some l => set_lease (Some l) _ | None => _ end).
  assert (Hw0 : writer_of [] w0 /\ aw_max_bytes w0 = max /\ aw_preview_enabled w0 = true).
  { unfold w0. pose proof (begin_writer_of dir "canonical-logs" "ndjson" "application/x-ndjson" max id owner) as Hb.
    destruct (me_lease env); [|done]. by destruct Hb. }
  destruct Hw0 as (Hw0 & Hmw & Hpv).
  match goal with |- context [merge_loop env ?f 0 reverse limit ?s] =>
    destruct (merge_loop_scan env reverse limit f 0 (tag_all reverse 0 parts) [] s out dups limited)
      as (st & -> & Hw & Hrec & Hdup & Hlim & Hheap & Hpv') end; try done.
  - split; cbn [ms_heap ms_readers ms_writer ms_max_heap_records]; [by apply tag_all_queues|done|done|done|apply heads_length].
  - rewrite <- (Forall_map h_record). by rewrite tag_all_records.
  - cbn [ms_writer]. by rewrite Hmw.
  - cbn [ms_writer app]. by rewrite Hmw.
  - unfold merge_fuel. rewrite <- (length_map h_record), tag_all_records.
    pose proof (parses_total_length _ _ Hpar). lia.
  - rewrite (un_end env He), (un_commit env He). cbn [io_result].
    eexists _, _. split; [reflexivity|]. cbn [mr_artifact mr_records mr_duplicates mr_limited mr_max_heap_records mr_max_dedup_records].
    cbn [app ms_records ms_duplicates ms_writer] in *. rewrite tag_all_length in Hheap.
    split_and!; try done; [by rewrite Hpv'|by rewrite Hlen|by destruct (ms_last_key st); lia].
Qed.

(** ** What the scan keeps *)

Lemma scan_limited n written key part items out dups limited full fdups :
  scan_sorted (Some n) written key part items = (out, dups, limited) ->
  scan_sorted None written key part items = (full, fdups, false) ->
  out = take (N.to_nat (n - written)) full /\ (limited = false -> out = full /\ dups = fdups).
Proof.
  revert written key part out dups full fdups; induction items as [|item items IH];
    intros written key part out dups full fdups; cbn [scan_sorted is_some_and].
  - intros [= <- <- <-] [= <- <-]. by rewrite take_nil.
  - destruct (N.leb_spec n written) as [Hle|Hlt].
    + intros [= <- <- <-] _. replace (n - written)%N with 0%N by lia. done.
    + destruct (is_boundary_duplicate key part item).
      * destruct (scan_sorted (Some n) _ _ _ items) as [[o d] l] eqn:E1. destruct (scan_sorted None _ _ _ items) as [[f fd] fl] eqn:E2.
        intros [= <- <- <-] [= <- <- ->]. destruct (IH _ _ _ _ _ _ _ E1 E2) as [-> Hl]. split; [done|].
        intros ->. by destruct Hl as [-> ->].
      * destruct (scan_sorted (Some n) _ _ _ items) as [[o d] l] eqn:E1. destruct (scan_sorted None _ _ _ items) as [[f fd] fl] eqn:E2.
        intros [= <- <- <-] [= <- <- ->]. destruct (IH _ _ _ _ _ _ _ E1 E2) as [-> Hl].
        replace (N.to_nat (n - written)) with (S (N.to_nat (n - (written + 1)))) by lia. split; [done|].
        intros ->. by destruct Hl as [-> ->].
Qed.

Lemma scan_unlimited written key part items :
  exists out dups, scan_sorted None written key part items = (out, dups, false)
    /\ (N.of_nat (length out) + dups = N.of_nat (length items))%N
    /\ sublist out (map h_record items)
    /\ (forall y, y ∈ items -> key = Some (stable_key (h_record y)) \/ exists r, r ∈ out /\ stable_key r = stable_key (h_record y)).
Proof.
  revert written key part; induction items as [|item items IH]; intros written key part; cbn [scan_sorted is_some_and].
  - exists [], 0%N. split_and!; [done|done|constructor|]. intros y Hy. by apply elem_of_nil in Hy.
  - destruct (is_boundary_duplicate key part item) eqn:Ed.
    + destruct (IH written key (Some (h_partition item))) as (out & dups & -> & Hlen & Hsub & Hkeys).
      exists out, (1 + dups)%N. split_and!; [done|cbn [length]; lia|cbn [map]; by constructor|].
      intros y Hy. apply elem_of_cons in Hy as [->|Hy]; [|by apply Hkeys].
      unfold is_boundary_duplicate in Ed. bool_to_prop. by left.
    + destruct (IH (written + 1)%N (Some (stable_key (h_record item))) (Some (h_partition item)))
        as (out & dups & -> & Hlen & Hsub & Hkeys).
      exists (h_record item :: out), dups. split_and!; [done|cbn [length]; lia|cbn [map]; by constructor|].
      intros y Hy. right. apply elem_of_cons in Hy as [->|Hy]; [exists (h_record item); split; [left|done]|].
      destruct (Hkeys y Hy) as [[= Hk]|(r & Hr & Hk)]; [exists (h_record item); split; [left|done]|].
      exists r. split; [by right|done].
Qed.

Lemma sublist_time_sorted o l k :
  sublist l k -> StronglySorted (fun a b => in_order o (timestamp_ns a) (timestamp_ns b) = true) k ->
  StronglySorted (fun a b => in_order o (timestamp_ns a) (timestamp_ns b) = true) l.
Proof.
  induction 1 as [|x l k Hs IH|x l k Hs IH]; intros Hk; [constructor|..]; apply StronglySorted_inv in Hk as [Hk Hx]; auto.
  constructor; [by apply IH|]. rewrite Forall_forall in *. intros y Hy. apply Hx.
  apply sublist_submseteq in Hs. by eapply elem_of_submseteq.
Qed.

Lemma reference_sorted reverse parts :
  StronglySorted (fun a b => in_order (ordering_of reverse) (timestamp_ns a) (timestamp_ns b) = true)
    (map h_record (merge_sort (precedes reverse) (mjoin (tag_all reverse 0 parts)))).
Proof.
  apply (StronglySorted_fmap h_record (precedes reverse)); [apply precedes_time|].
  apply StronglySorted_merge_sort; apply _.
Qed.
End Whole.

(** ** Validation *)

Section ValidationFacts.
Context `{Crypto} `{RecordCodec}.

Lemma validate_line_ok o line v v' :
  validate_line o line v = Ok v' ->
  line_acceptable line = true
  /\ exists r, record_from_slice (removelast line) = Some r
    /\ va_hashed v' = va_hashed v ++ line /\ va_bytes v' = (va_bytes v + N.of_nat (length line))%N
    /\ va_records v' = (va_records v + 1)%N /\ va_previous v' = Some (timestamp_ns r)
    /\ (forall previous, va_previous v = Some previous -> in_order o previous (timestamp_ns r) = true).
Proof.
  unfold validate_line, checked_add. destruct (line_acceptable line); cbn [negb]; [|done].
  destruct (record_from_slice (removelast line)) as [r|]; [|done].
  destruct (is_none_or (va_previous v) _) eqn:Ho; cbn [negb]; [|done].
  destruct (_ <? _)%N; [done|]. destruct (_ <? _)%N; [done|]. intros [= <-]. split; [done|].
  exists r. split_and!; try done. intros previous Hp. by rewrite Hp in Ho.
Qed.

Lemma validate_loop_parses fuel o reader v v' :
  validate_loop fuel o reader v = Some (Ok v') ->
  exists rs, parses reader rs /\ va_hashed v' = va_hashed v ++ reader
    /\ va_bytes v' = (va_bytes v + N.of_nat (length reader))%N
    /\ va_records v' = (va_records v + N.of_nat (length rs))%N
    /\ time_sorted o rs
    /\ (forall previous r, va_previous v = Some previous -> head rs = Some r -> in_order o previous (timestamp_ns r) = true).
Proof.
  revert reader v; induction fuel as [|fuel IH]; intros reader v; cbn [validate_loop]; [done|].
  destruct (read_until reader) as [line rest] eqn:Er. destruct line as [|b line].
  - intros [= <-]. exists []. assert (reader = []) as ->.
    { pose proof (read_until_app _ _ _ Er) as ->. unfold read_until in Er. cbn [app] in *.
      destruct (split_once_bytes newline rest) as [[x y]|]; [by destruct x|]. by injection Er as ->. }
    cbn [length]. rewrite app_nil_r, !N.add_0_r. split_and!; try done; constructor.
  - destruct (validate_line o (b :: line) v) as [v1|e] eqn:Ev; [|done]. intros Hl.
    apply validate_line_ok in Ev as (Ha & r & Hr & Hh & Hb & Hn & Hp & Hord).
    destruct (read_until_acceptable _ _ _ Er Ha) as (body & Hbody & Hnl & Hsz & ->).
    destruct (IH _ _ Hl) as (rs & Hpar & Hh' & Hb' & Hn' & Hs & Hhd).
    rewrite Hbody, removelast_snoc in Hr. exists (r :: rs). split_and!.
    + by constructor.
    + rewrite Hh', Hh, Hbody, <- !app_assoc. done.
    + rewrite Hb', Hb, Hbody, !length_app. cbn [length]. lia.
    + rewrite Hn', Hn. cbn [length]. lia.
    + constructor; [done|]. destruct rs as [|r' rs]; constructor. by apply (Hhd (timestamp_ns r)).
    + intros previous r0 Hv [= <-]. by apply Hord.
Qed.

(** The loop always ends: each turn consumes at least a byte. *)
Lemma validate_loop_ends fuel o reader v :
  (length reader < fuel)%nat -> exists r, validate_loop fuel o reader v = Some r.
Proof.
  revert reader v; induction fuel as [|fuel IH]; intros reader v Hf; [lia|]. cbn [validate_loop].
  destruct (read_until reader) as [[|b line] rest] eqn:Er; [eauto|].
  destruct (validate_line o (b :: line) v); [|eauto]. apply IH.
  pose proof (read_until_app _ _ _ Er) as ->. rewrite length_app in Hf. cbn [length] in Hf. lia.
Qed.

(** What an admitted partition is. *)
Lemma validate_partition_ok m content path index vendor_ c :
  validate_partition m content path index vendor_ = Some (Ok c) ->
  exists manifest bytes rs, m = Some manifest /\ content = Some bytes /\ parses bytes rs
    /\ time_sorted (ordering manifest) rs /\ vendor manifest = vendor_
    /\ pc_records c = N.of_nat (length rs) /\ pc_decoded_bytes c = N.of_nat (length bytes)
    /\ pc_sha256 c = of_bytes (mjoin (map hex_lower (sha256 bytes)))
    /\ total_records manifest = pc_records c /\ final_sha256 manifest = pc_sha256 c /\ pc_index c = index.
Proof.
  unfold validate_partition. destruct m as [m|]; [|done].
  destruct (manifest_shape m vendor_) eqn:Hshape; [|done]. destruct (partitions m) as [|declared ps]; [done|].
  destruct (manifest_accounts m declared path) eqn:Hacc; cbn [negb]; [|done].
  destruct content as [bytes|]; [|done].
  destruct (validate_loop _ _ _ _) as [[v|e]|] eqn:Hv; [|done..].
  destruct (_ && _ && _) eqn:Hc; cbn [negb]; [|done]. intros [= <-].
  apply validate_loop_parses in Hv as (rs & Hpar & Hh & Hb & Hn & Hs & _). cbn in Hh, Hb, Hn.
  unfold manifest_shape in Hshape. unfold manifest_accounts in Hacc. bool_to_prop.
  repeat match goal with H : String.eqb _ _ = true |- _ => apply String.eqb_eq in H end.
  exists m, bytes, rs. cbn [pc_records pc_decoded_bytes pc_sha256 pc_index]. rewrite Hh in *.
  split_and!; try done; congruence.
Qed.
End ValidationFacts.

(** ** The theorems *)

(** C26: Merging is sorting and scanning.  On partitions that are well-formed and
    sorted, undisturbed and within the size limit, the streaming merge - one
    record per partition in memory - ends, and its artifact holds exactly the
    lines the reference keeps: all records sorted by time, partition and
    position, less those that repeat the previous key from another partition,
    cut at the limit. *)
Theorem merge_is_sort_then_scan `{Crypto} `{RecordCodec} env paths parts o limit max dir id owner
  (Henv : undisturbed env) (Hparts : mergeable env o paths parts) (Hmax : (max <= U64_MAX)%N)
  (Hfit : (N.of_nat (length (lines_of (reference_merge o limit parts).1.1)) <= max)%N) :
  exists w res, merge_partitions env paths o limit max dir id owner = Some (Ok (w, res))
    /\ aw_hashed w = lines_of (reference_merge o limit parts).1.1
    /\ am_size (sa_artifact (mr_artifact res)) = N.of_nat (length (aw_hashed w))
    /\ mr_records res = N.of_nat (length (reference_merge o limit parts).1.1)
    /\ mr_duplicates res = (reference_merge o limit parts).1.2
    /\ mr_limited res = (reference_merge o limit parts).2
    /\ (mr_max_heap_records res <= length paths)%nat /\ (mr_max_dedup_records res <= 1)%nat.
Proof.
  destruct (reference_merge o limit parts) as [[out dups] limited] eqn:Href. cbn [fst snd] in *.
  destruct (merge_runs env paths parts o limit max dir id owner out dups limited) as (w & res & Hm & Hw & _ & Ha & ?); try done.
  exists w, res. split; [done|]. rewrite Ha. split_and!; try naive_solver; [apply Hw|].
  cbn. rewrite (wo_size _ _ Hw), (wo_hashed _ _ Hw). done.
Qed.

(** Nothing is lost, invented or disordered.  When every partition passed
    validation in the ordering of the merge, a merge without a limit writes
    records in that ordering, all of them from the partitions; those written
    and those dropped as repeats add up to the counts validation certified,
    and every record's key is in the output. *)
Theorem validated_merge_loses_nothing `{Crypto} `{RecordCodec} env paths checks parts o max dir id owner vendor_
  (Henv : undisturbed env) (Hmax : (max <= U64_MAX)%N)
  (Hvalid : Forall2 (fun path c => exists m i, ordering m = o
              /\ validate_partition (Some m) (me_open env path) path i vendor_ = Some (Ok c)) paths checks)
  (Hfiles : Forall2 (fun path rs => exists content, me_open env path = Some content /\ parses content rs) paths parts)
  (Henc : Forall encodes (mjoin parts))
  (Hfit : (N.of_nat (length (lines_of (reference_merge o None parts).1.1)) <= max)%N) :
  exists w res out, merge_partitions env paths o None max dir id owner = Some (Ok (w, res))
    /\ aw_hashed w = lines_of out /\ mr_limited res = false
    /\ time_sorted o out
    /\ Forall2 (fun c rs => pc_records c = N.of_nat (length rs)) checks parts
    /\ (mr_records res + mr_duplicates res = N.of_nat (length (mjoin parts)))%N
    /\ (forall r, r ∈ out -> r ∈ mjoin parts)
    /\ (forall r, r ∈ mjoin parts -> exists r', r' ∈ out /\ stable_key r' = stable_key r).
Proof.
  assert (Hp : Forall (time_sorted o) parts /\ Forall2 (fun c rs => pc_records c = N.of_nat (length rs)) checks parts).
  { clear Hfit Henc. revert checks Hvalid.
    induction Hfiles as [|path rs paths parts (content & Hc & Hpar) Hf IH]; intros checks Hvalid.
    - inversion Hvalid; subst. split; constructor.
    - inversion Hvalid as [|? c ? checks' (m & i & Ho & Hv) Hvs]; subst.
      destruct (IH _ Hvs) as [Hs Hn].
      apply validate_partition_ok in Hv as (m' & bytes & rs' & [= <-] & Hb & Hpar' & Hts & _ & Hn' & _).
      rewrite Hc in Hb. injection Hb as <-. rewrite (parses_functional _ _ _ Hpar Hpar'). split; by constructor. }
  destruct Hp as [Hsorted Hchecks].
  assert (Hmg : mergeable env o paths parts) by (by split).
  unfold reference_merge in Hfit. set (reverse := bool_decide (o = ReverseChronological)) in *.
  assert (Ho : ordering_of reverse = o) by (unfold reverse; by destruct o).
  set (items := merge_sort (precedes reverse) (mjoin (tag_all reverse 0 parts))) in *.
  destruct (scan_unlimited 0 None None items) as (out & dups & Hscan & Hlen & Hsub & Hkeys).
  rewrite Hscan in Hfit. cbn [fst] in Hfit.
  destruct (merge_runs env paths parts o None max dir id owner out dups false) as (w & res & Hm & Hw & _ & _ & Hr & Hd & Hl & _); try done.
  assert (Hitems : map h_record items ≡ₚ mjoin parts).
  { unfold items. rewrite merge_sort_Permutation. by rewrite tag_all_records. }
  exists w, res, out. split_and!; try done.
  - apply Hw.
  - apply StronglySorted_Sorted. eapply sublist_time_sorted; [exact Hsub|]. rewrite <- Ho. apply reference_sorted.
  - rewrite Hr, Hd, Hlen, <- Hitems, length_map. done.
  - intros r Hr'. rewrite <- Hitems. apply sublist_submseteq in Hsub. by eapply elem_of_submseteq.
  - intros r Hr'. rewrite <- Hitems in Hr'. apply list_elem_of_fmap in Hr' as (y & -> & Hy).
    destruct (Hkeys y Hy) as [|Hk]; [done|]. done.
Qed.

(** The key does not separate the payload from the labels: a record whose
    payload ends in the text of a label object has the key of the record with
    that object as its labels, and from another partition is dropped as its
    repeat. *)
Theorem stable_key_ambiguous `{Crypto} `{RecordCodec} t src p v :
  let with_labels := {| timestamp_ns := t; source := src; payload := p; labels := Some v; metadata := None |} in
  let without := {| timestamp_ns := t; source := src; payload := (p ++ value_to_string v)%string; labels := None; metadata := None |} in
  with_labels <> without /\ stable_key with_labels = stable_key without
  /\ (reference_merge Chronological None [[with_labels]; [without]]).1 = ([with_labels], 1%N).
Proof.
  cbn zeta. set (a := {| labels := Some v |}). set (b := {| labels := None |}).
  assert (Hk : stable_key a = stable_key b).
  { unfold stable_key. cbn [a b timestamp_ns source payload labels]. by rewrite as_bytes_app, app_nil_r. }
  split; [done|]. split; [done|].
  unfold reference_merge. change (bool_decide (Chronological = ReverseChronological)) with false.
  cbn [tag_all tag mjoin list_join app]. set (x := {| h_record := a |}). set (y := {| h_record := b |}).
  assert (Hs : merge_sort (precedes false) [x; y] = [x; y]).
  { apply (StronglySorted_unique_strong (precedes false)).
    - intros u w Hu Hw H1 H2. destruct (precedes_antisymm _ _ _ H1 H2) as [Hp _].
      rewrite merge_sort_Permutation in Hu. set_unfold in Hu; set_unfold in Hw.
      destruct Hu as [->|[->|[]]], Hw as [->|[->|[]]]; cbn in Hp; done.
    - apply StronglySorted_merge_sort; apply _.
    - constructor; [repeat constructor|]. constructor; [|constructor].
      unfold precedes, write_cmp. cbn. by destruct t; cbn; rewrite ?Z.compare_refl.
    - apply merge_sort_Permutation. }
  rewrite Hs. cbn [scan_sorted is_some_and]. unfold is_boundary_duplicate. cbn [h_record h_partition x y].
  rewrite !bool_decide_eq_false_2 by done. cbn [andb]. rewrite bool_decide_eq_true_2 by congruence. done.
Qed.

Module MergeWitness.

#[local] Instance toy_crypto : Crypto :=
  {| sha256 := fun l => l; base64_decode := fun _ => None; ed25519_verify := fun _ _ _ => false |}.

(** A record written as its timestamp in decimal. *)
#[local] Instance toy_codec : RecordCodec :=
  {| record_to_vec := fun r => Some (as_bytes (payload r));
     record_from_slice := fun l =>
       Some {| timestamp_ns := Some (Z.of_N (digits_value l)); source := "s"; payload := of_bytes l; labels := None;
               metadata := None |};
     value_to_string := fun _ => "" |}.

Definition at_time (t : Z) (text : string) : CanonicalRecord :=
  {| timestamp_ns := Some t; source := "s"; payload := text; labels := None; metadata := None |}.

Definition early : Path := ["a.ndjson"].
Definition late : Path := ["b.ndjson"].
Definition early_content : list byte := as_bytes "1" ++ newline :: as_bytes "3" ++ newline :: [].
Definition late_content : list byte := as_bytes "2" ++ newline :: as_bytes "3" ++ newline :: [].
Definition parts : list (list CanonicalRecord) := [[at_time 1 "1"; at_time 3 "3"]; [at_time 2 "2"; at_time 3 "3"]].

Definition quiet : MergeEnv :=
  {| me_open := fun p => if bool_decide (p = early) then Some early_content
                         else if bool_decide (p = late) then Some late_content else None;
     me_cancel_open := fun _ => false; me_cancel_pop := fun _ => false; me_cancel_end := false;
     me_first_read := fun _ => IoDone; me_read := fun _ => IoDone; me_begin := IoDone; me_lease := None;
     me_write := fun _ => (Ok tt, IoDone); me_commit := IoDone |}.

Lemma quiet_undisturbed : undisturbed quiet.
Proof. by split. Qed.

Lemma toy_parses a b : is_ascii_digit a = true -> is_ascii_digit b = true ->
  parses ([a] ++ newline :: [b] ++ newline :: [])
    [at_time (Z.of_N (digits_value [a])) (of_bytes [a]); at_time (Z.of_N (digits_value [b])) (of_bytes [b])].
Proof.
  intros Ha Hb.
  assert (Hn : forall c, is_ascii_digit c = true -> newline ∉ [c]).
  { intros c Hc Hin. apply list_elem_of_singleton in Hin as <-. done. }
  constructor; [by apply Hn|done|done|]. constructor; [by apply Hn|done|done|constructor].
Qed.

Lemma files_parse : Forall2 (fun path rs => exists content, me_open quiet path = Some content /\ parses content rs)
  [early; late] parts.
Proof.
  constructor; [|constructor; [|constructor]].
  - exists early_content. split; [reflexivity|]. exact (toy_parses "1"%char "3"%char eq_refl eq_refl).
  - exists late_content. split; [reflexivity|]. exact (toy_parses "2"%char "3"%char eq_refl eq_refl).
Qed.

Lemma parts_encode : Forall encodes (mjoin parts).
Proof. repeat constructor; eexists; (split; [reflexivity|done]). Qed.

Definition certified (content : list byte) : PartitionChecksum :=
  {| pc_index := 0; pc_artifact_path := None; pc_sha256 := of_bytes (mjoin (map hex_lower (sha256 content)));
     pc_records := 2; pc_decoded_bytes := 4 |}.

Definition manifest_of (content : list byte) : ArtifactManifest :=
  {| artifact_version := 1; format := "canonical_ndjson"; vendor := "splunk"; query_interval := None;
     ordering := Chronological; total_records := 2; encoded_bytes := 4; decoded_bytes := 4; final_bytes := 4;
     final_sha256 := pc_sha256 (certified content); partitions := [certified content]; partitions_requested := 1;
     partitions_succeeded := 1; partitions_failed := 0; deduplication_policy := "none"; duplicate_count := 0;
     global_limit := None; limit_reached := false; truncated_records := 0; skipped_records := 0; diagnostics := [];
     completeness := Complete; completeness_reason := None |}.

Lemma both_valid :
  Forall2 (fun path c => exists m i, ordering m = Chronological
    /\ validate_partition (Some m) (me_open quiet path) path i "splunk" = Some (Ok c))
    [early; late] [certified early_content; certified late_content].
Proof.
  constructor; [|constructor; [|constructor]].
  - exists (manifest_of early_content), 0%nat. split; [reflexivity|]. vm_compute. reflexivity.
  - exists (manifest_of late_content), 0%nat. split; [reflexivity|]. vm_compute. reflexivity.
Qed.

Lemma merge_is_sort_then_scan_witness :
  (reference_merge Chronological None parts).1 = ([at_time 1 "1"; at_time 2 "2"; at_time 3 "3"], 1%N)
  /\ exists w res, merge_partitions quiet [early; late] Chronological None 100 [] "id" OwnerLocal = Some (Ok (w, res))
     /\ aw_hashed w = lines_of [at_time 1 "1"; at_time 2 "2"; at_time 3 "3"].
Proof.
  split; [vm_compute; reflexivity|].
  destruct (merge_is_sort_then_scan quiet [early; late] parts Chronological None 100 [] "id" OwnerLocal) as (w & res & Hm & Hw & _).
  - apply quiet_undisturbed.
  - split; [apply files_parse|repeat constructor|apply parts_encode].
  - vm_compute. discriminate.
  - vm_compute. discriminate.
  - exists w, res. split; [exact Hm|]. rewrite Hw. vm_compute. reflexivity.
Defined.

Lemma validated_merge_loses_nothing_witness :
  exists w res out, merge_partitions quiet [early; late] Chronological None 100 [] "id" OwnerLocal = Some (Ok (w, res))
    /\ aw_hashed w = lines_of out /\ time_sorted Chronological out /\ (mr_records res + mr_duplicates res = 4)%N.
Proof.
  destruct (validated_merge_loses_nothing quiet [early; late] [certified early_content; certified late_content] parts
    Chronological 100 [] "id" OwnerLocal "splunk") as (w & res & out & Hm & Hw & _ & Hs & _ & Hn & _).
  - apply quiet_undisturbed.
  - vm_compute. discriminate.
  - apply both_valid.
  - apply files_parse.
  - apply parts_encode.
  - vm_compute. discriminate.
  - exists w, res, out. split; [exact Hm|]. split; [exact Hw|]. split; [exact Hs|]. exact Hn.
Defined.
End MergeWitness.
