(* ===== verification/Artifacts.v ===== *)
(** * The artifact store (src/src/transport/raw_response.rs)

    Committed artifacts are files with an entry in a registry: an owner, a
    generation, a count of readers that have it pinned, a lifecycle.  Deletion
    marks the entry, waits for the last pin, removes the files one by one under
    a reclamation lock, and only then drops the entry and with it the disk
    leases it holds.

    Each definition of the first part is one critical section, or one system
    call, of the code: between two of them any other task may run.  What is in
    progress - open writers, pins handed out, the reclamation that holds the
    lock, removals of unregistered files - is part of the state.  The second
    part composes them into the functions the rest of the program calls.
    Writers are those of [Writer]; a lease is what the streaming disk quota
    grants ([DiskQuota]), here its amount. *)
From S2P Require Import Prelude RustStr Json PolicyTypes Signing Scope DiskQuota Writer.

(** ** The registry *)

Inductive ArtifactLifecycle := Readable | PendingDelete.

#[export] Instance ArtifactLifecycle_eq_dec : EqDecision ArtifactLifecycle.
Proof. solve_decision. Defined.

Record DiskReservation := { dr_artifact : N; dr_sidecar : option N }.

Record RegisteredArtifact := {
  ra_metadata : ArtifactMetadata;
  ra_disk : option DiskReservation;
  ra_generation : N;
  ra_committed_at : N;
  ra_lifecycle : ArtifactLifecycle;
  ra_pins : N;
  ra_retention_eligible : bool;
  ra_owner : OwnerKey;
}.

(** A reclamation between its check and the removal of its entry. *)
Record Reclaim := { rc_id : string; rc_generation : N; rc_todo : list Path }.

Record ArtifactReadPin := { pin_metadata : ArtifactMetadata; pin_generation : N }.

Record Store := {
  files : gmap Path (list byte);
  registry : gmap string RegisteredArtifact;
  orphans : list (Path * N);
  next_generation : N;
  shutting_down : bool;
  leases : gmap N N;
  next_lease : N;
  writers : gmap string ArtifactWriter;
  (** The pins not yet released: artifact and generation. *)
  read_pins : list (string * N);
  (** The holder of the reclamation lock. *)
  reclaiming : option Reclaim;
  (** Files of unregistered artifacts being removed. *)
  removals : list (list Path);
  (** The path and the bytes every committed artifact was given out with. *)
  handed_out : gmap string (Path * list byte);
  used_ids : gset string;
}.

Definition set_files (x : gmap Path (list byte)) (s : Store) : Store :=
  {| files := x; registry := registry s; orphans := orphans s; next_generation := next_generation s;
     shutting_down := shutting_down s; leases := leases s; next_lease := next_lease s; writers := writers s;
     read_pins := read_pins s; reclaiming := reclaiming s; removals := removals s; handed_out := handed_out s;
     used_ids := used_ids s |}.

Definition set_registry (x : gmap string RegisteredArtifact) (s : Store) : Store :=
  {| files := files s; registry := x; orphans := orphans s; next_generation := next_generation s;
     shutting_down := shutting_down s; leases := leases s; next_lease := next_lease s; writers := writers s;
     read_pins := read_pins s; reclaiming := reclaiming s; removals := removals s; handed_out := handed_out s;
     used_ids := used_ids s |}.

Definition set_orphans (x : list (Path * N)) (s : Store) : Store :=
  {| files := files s; registry := registry s; orphans := x; next_generation := next_generation s;
     shutting_down := shutting_down s; leases := leases s; next_lease := next_lease s; writers := writers s;
     read_pins := read_pins s; reclaiming := reclaiming s; removals := removals s; handed_out := handed_out s;
     used_ids := used_ids s |}.

Definition set_leases (x : gmap N N) (s : Store) : Store :=
  {| files := files s; registry := registry s; orphans := orphans s; next_generation := next_generation s;
     shutting_down := shutting_down s; leases := x; next_lease := next_lease s; writers := writers s;
     read_pins := read_pins s; reclaiming := reclaiming s; removals := removals s; handed_out := handed_out s;
     used_ids := used_ids s |}.

Definition set_writers (x : gmap string ArtifactWriter) (s : Store) : Store :=
  {| files := files s; registry := registry s; orphans := orphans s; next_generation := next_generation s;
     shutting_down := shutting_down s; leases := leases s; next_lease := next_lease s; writers := x;
     read_pins := read_pins s; reclaiming := reclaiming s; removals := removals s; handed_out := handed_out s;
     used_ids := used_ids s |}.

Definition set_pins (x : list (string * N)) (s : Store) : Store :=
  {| files := files s; registry := registry s; orphans := orphans s; next_generation := next_generation s;
     shutting_down := shutting_down s; leases := leases s; next_lease := next_lease s; writers := writers s;
     read_pins := x; reclaiming := reclaiming s; removals := removals s; handed_out := handed_out s;
     used_ids := used_ids s |}.

Definition set_tasks (r : option Reclaim) (x : list (list Path)) (s : Store) : Store :=
  {| files := files s; registry := registry s; orphans := orphans s; next_generation := next_generation s;
     shutting_down := shutting_down s; leases := leases s; next_lease := next_lease s; writers := writers s;
     read_pins := read_pins s; reclaiming := r; removals := x; handed_out := handed_out s;
     used_ids := used_ids s |}.

Definition set_shutting_down (x : bool) (s : Store) : Store :=
  {| files := files s; registry := registry s; orphans := orphans s; next_generation := next_generation s;
     shutting_down := x; leases := leases s; next_lease := next_lease s; writers := writers s;
     read_pins := read_pins s; reclaiming := reclaiming s; removals := removals s; handed_out := handed_out s;
     used_ids := used_ids s |}.

(** ** Files *)

Definition exists_ (p : Path) (fs : gmap Path (list byte)) : bool := bool_decide (is_Some (fs !! p)).

(** [remove_file], a missing file being no error. *)
Definition remove_file (io : Io) (p : Path) (fs : gmap Path (list byte)) : gmap Path (list byte) * result unit IoError :=
  match io with IoDone => (delete p fs, Ok tt) | IoFailed => (fs, Err IoSystem) end.

Definition in_dir (dir p : Path) : bool := bool_decide (take (length dir) p = dir).

(** [remove_dir_all]: some deletions may fail. *)
Definition remove_dir_all (io : Path -> Io) (dir : Path) (fs : gmap Path (list byte)) : gmap Path (list byte) * bool :=
  let removed := filter (fun kv => in_dir dir kv.1 = false \/ io kv.1 = IoFailed) fs in
  (removed, bool_decide (map_Forall (fun p _ => in_dir dir p = false) removed)).

(** The entries of a directory whose name starts with [prefix]. *)
Definition dir_entries (dir : Path) (prefix : list byte) (fs : gmap Path (list byte)) : list Path :=
  List.filter (fun p =>
    bool_decide (removelast p = dir)
    && match file_name p with Some n => starts_with_bytes (as_bytes n) prefix | None => false end)
    (map fst (map_to_list fs)).

(** [manifest_auxiliary_exists]. *)
Definition manifest_prefix (p : Path) : list byte :=
  match file_name (with_extension p "manifest.json") with Some n => as_bytes n ++ [dot] | None => [dot] end.

Definition manifest_auxiliary_exists (p : Path) (fs : gmap Path (list byte)) : bool :=
  match p with
  | [] => false
  | _ => negb (bool_decide (dir_entries (removelast p) (manifest_prefix p) fs = []))
  end.

(** [Ord for Path]: component by component. *)
Fixpoint path_leb (p q : Path) : bool :=
  match p, q with
  | [], _ => true
  | _ :: _, [] => false
  | a :: p', b :: q' => if String.eqb a b then path_leb p' q' else str_leb a b
  end.

Definition path_le (p q : Path) : Prop := path_leb p q = true.

#[export] Instance path_le_dec : RelDecision path_le.
Proof. intros p q. unfold path_le. solve_decision. Defined.

(** [associated_paths]; [readdir] is whether the directory can be read. *)
Definition associated_paths (readdir : Io) (p : Path) (fs : gmap Path (list byte)) : result (list Path) IoError :=
  match p with
  | [] => Ok [p]
  | _ =>
      let? _ := io_result readdir in
      Ok (remove_dups (merge_sort path_le
            (p :: with_extension p "manifest.json" :: with_extension p "manifest.json.part"
             :: (match file_name p with Some n => [join (removelast p) (partial_name n)] | None => [] end)
             ++ dir_entries (removelast p) (manifest_prefix p) fs)))
  end.

(** ** Leases *)

Definition drop_one (r : N) (s : Store) : Store := set_leases (delete r (leases s)) s.

Definition drop_option (r : option N) (s : Store) : Store :=
  match r with Some r => drop_one r s | None => s end.

(** Dropping an entry drops the leases it holds. *)
Definition drop_disk (d : option DiskReservation) (s : Store) : Store :=
  match d with Some d => drop_option (dr_sidecar d) (drop_one (dr_artifact d) s) | None => s end.

(** [retain_orphaned_reservation]: kept while the file exists. *)
Definition retain_orphaned_reservation (p : Path) (r : N) (s : Store) : Store :=
  if exists_ p (files s) then set_orphans (orphans s ++ [(p, r)]) s else drop_one r s.

Definition reconcile_orphaned_reservations (s : Store) : Store :=
  let gone := List.filter (fun o => negb (exists_ o.1 (files s))) (orphans s) in
  set_orphans (List.filter (fun o => exists_ o.1 (files s)) (orphans s))
    (set_leases (foldr (fun o m => delete o.2 m) (leases s) gone) s).

(** ** Opening, writing and committing *)

Definition session_dir : Path := ["mcp"; "session"].

Definition operation_dir (operation : option string) : Path :=
  match operation with None => session_dir | Some id => join session_dir id end.

(** The shape of [Uuid::new_v4().to_string()]. *)
Definition uuid_like (id : string) : bool :=
  (str_len id =? 36)%nat && forallb (fun b => is_ascii_hexdigit b || beqb b (byte_of 45)) (as_bytes id).

(** An identifier nothing was ever named with: what version-4 UUIDs are. *)
Definition fresh_id (id : string) (s : Store) : bool := uuid_like id && negb (bool_decide (id ∈ used_ids s)).

Definition use_id (id : string) (s : Store) : Store :=
  {| files := files s; registry := registry s; orphans := orphans s; next_generation := next_generation s;
     shutting_down := shutting_down s; leases := leases s; next_lease := next_lease s; writers := writers s;
     read_pins := read_pins s; reclaiming := reclaiming s; removals := removals s; handed_out := handed_out s;
     used_ids := {[id]} ∪ used_ids s |}.

Definition begin_artifact (mkdir create : Io) (operation : option string) (prefix extension content_type : string)
    (max_bytes : N) (id : string) (owner : OwnerKey) (s : Store) : Store * result unit IoError :=
  match mkdir with
  | IoFailed => (s, Err IoSystem)
  | IoDone =>
      let w := begin_artifact_in_operation (operation_dir operation) prefix extension content_type max_bytes id owner in
      match create with
      | IoFailed => (use_id id s, Err IoSystem)
      | IoDone =>
          (set_writers (<[id := w]> (writers s)) (set_files (<[aw_partial_path w := []]> (files s)) (use_id id s)), Ok tt)
      end
  end.

(** [set_disk_quota]: a new, empty lease, before the first chunk. *)
Definition set_disk_quota (id : string) (s : Store) : Store :=
  match writers s !! id with
  | Some w =>
      if (aw_size w =? 0)%N && bool_decide (aw_lease w = None)
      then {| files := files s; registry := registry s; orphans := orphans s; next_generation := next_generation s;
              shutting_down := shutting_down s; leases := <[next_lease s := 0%N]> (leases s);
              next_lease := next_lease s + 1; writers := <[id := set_lease (Some (next_lease s)) w]> (writers s);
              read_pins := read_pins s; reclaiming := reclaiming s; removals := removals s;
              handed_out := handed_out s; used_ids := used_ids s |}
      else s
  | None => s
  end.

Definition close_writer (w : ArtifactWriter) : ArtifactWriter :=
  {| aw_id := aw_id w; aw_filename := aw_filename w; aw_path := aw_path w; aw_partial_path := aw_partial_path w;
     aw_content_type := aw_content_type w; aw_owner := aw_owner w; aw_open := false; aw_size := aw_size w;
     aw_max_bytes := aw_max_bytes w; aw_preview_enabled := aw_preview_enabled w; aw_head := aw_head w;
     aw_tail := aw_tail w; aw_hashed := aw_hashed w; aw_lease := aw_lease w |}.

(** How a write ends: done, or an error after some bytes reached the file. *)
Inductive WriteEnd := WriteDone | WriteFailed (reached : nat).

Definition append_file (p : Path) (bytes : list byte) (fs : gmap Path (list byte)) : gmap Path (list byte) :=
  alter (fun c => c ++ bytes) p fs.

(** [write_chunk] against the store.  A caller whose chunk fails drops the
    writer, so the writer is closed then; [granted] is whether the quota
    grants the growth, which it does only within the limit. *)
Definition store_write (limit : N) (granted : bool) (end_ : WriteEnd) (id : string) (bytes : list byte) (s : Store) : Store :=
  match writers s !! id with
  | Some w =>
      if negb (aw_open w) then s
      else
        let closed := set_writers (<[id := close_writer w]> (writers s)) s in
        match chunk_admitted w bytes with
        | Err _ => closed
        | Ok next =>
            let n := N.of_nat (length bytes) in
            let total := map_fold (fun _ a t => a + t)%N 0%N (leases s) in
            let grown :=
              match aw_lease w with
              | None => Some s
              | Some r =>
                  if granted && (total + n <=? limit)%N
                  then Some (set_leases (alter (fun a => (a + n)%N) r (leases s)) s) else None
              end in
            match grown with
            | None => closed
            | Some s1 =>
                match end_ with
                | WriteDone =>
                    set_writers (<[id := chunk_written w bytes next]> (writers s1))
                      (set_files (append_file (aw_partial_path w) bytes (files s1)) s1)
                | WriteFailed reached =>
                    set_writers (<[id := close_writer w]> (writers s1))
                      (set_files (append_file (aw_partial_path w) (take reached bytes) (files s1)) s1)
                end
            end
        end
  | None => s
  end.

(** [next_artifact_generation]: the value before the increment. *)
Definition next_artifact_generation (s : Store) : result (N * N) IoError :=
  match checked_add (next_generation s) 1 with
  | Some next => Ok (next_generation s, next)
  | None => Err (IoOther "artifact generation identifier overflow")
  end.

Definition set_generation (n : N) (s : Store) : Store :=
  {| files := files s; registry := registry s; orphans := orphans s; next_generation := n;
     shutting_down := shutting_down s; leases := leases s; next_lease := next_lease s; writers := writers s;
     read_pins := read_pins s; reclaiming := reclaiming s; removals := removals s; handed_out := handed_out s;
     used_ids := used_ids s |}.

Definition hand_out (id : string) (p : Path) (content : list byte) (s : Store) : Store :=
  {| files := files s; registry := registry s; orphans := orphans s; next_generation := next_generation s;
     shutting_down := shutting_down s; leases := leases s; next_lease := next_lease s; writers := writers s;
     read_pins := read_pins s; reclaiming := reclaiming s; removals := removals s;
     handed_out := <[id := (p, content)]> (handed_out s); used_ids := used_ids s |}.

(** [fs::rename]: the source must exist. *)
Definition rename (io : Io) (from to_ : Path) (fs : gmap Path (list byte)) : option (gmap Path (list byte)) :=
  match io, fs !! from with
  | IoDone, Some content => Some (<[to_ := content]> (delete from fs))
  | _, _ => None
  end.

Definition registered_of (w : ArtifactWriter) (generation now : N) : RegisteredArtifact :=
  {| ra_metadata := writer_metadata w;
     ra_disk := (fun r => {| dr_artifact := r; dr_sidecar := None |}) <$> aw_lease w;
     ra_generation := generation; ra_committed_at := now; ra_lifecycle := Readable; ra_pins := 0;
     ra_retention_eligible := false; ra_owner := aw_owner w |}.

(** [commit]: flush and sync, a generation, the rename, the entry.  A writer
    that fails here is left to its [drop]. *)
Definition commit (sync rename_io : Io) (now : N) (id : string) (s : Store) : Store :=
  match writers s !! id with
  | Some w =>
      if negb (aw_open w) then s
      else
        let closed s := set_writers (<[id := close_writer w]> (writers s)) s in
        match sync with
        | IoFailed => closed s
        | IoDone =>
            match next_artifact_generation s with
            | Err _ => closed s
            | Ok (generation, next) =>
                let s1 := set_generation next s in
                match rename rename_io (aw_partial_path w) (aw_path w) (files s1) with
                | None => closed s1
                | Some fs =>
                    hand_out id (aw_path w) (aw_hashed w)
                      (set_writers (delete id (writers s1))
                         (set_registry (<[id := registered_of w generation now]> (registry s1)) (set_files fs s1)))
                end
            end
        end
  | None => s
  end.

(** [drop] of an uncommitted writer. *)
Definition drop_writer (io : Io) (id : string) (s : Store) : Store :=
  match writers s !! id with
  | Some w =>
      let '(fs, r) := remove_file io (aw_partial_path w) (files s) in
      let s1 := set_writers (delete id (writers s)) (set_files fs s) in
      match r, aw_lease w with
      | Ok _, l => drop_option l s1
      | Err _, Some l => retain_orphaned_reservation (aw_partial_path w) l s1
      | Err _, None => s1
      end
  | None => s
  end.

(** [save_artifact]: [None] is success; on failure the partial file is removed
    if that succeeds, and otherwise stays with what was written. *)
Definition save_artifact (mkdir : Io) (failure : option (Io * list byte)) (now : N) (prefix id : string)
    (content : list byte) (owner : OwnerKey) (s : Store) : Store * option Path :=
  match mkdir with
  | IoFailed => (s, None)
  | IoDone =>
      let w := begin_artifact_in_operation session_dir prefix "log" "text/plain; charset=utf-8" U64_MAX id owner in
      match next_artifact_generation s with
      | Err _ => (use_id id s, None)
      | Ok (generation, next) =>
          let s1 := set_generation next (use_id id s) in
          match failure with
          | Some (IoDone, _) => (s1, None)
          | Some (IoFailed, partial) => (set_files (<[aw_partial_path w := partial]> (files s1)) s1, None)
          | None =>
              let w' := chunk_written w content (N.of_nat (length content)) in
              let e := registered_of w' generation now in
              (hand_out id (aw_path w) content
                 (set_registry (<[id := {| ra_metadata := ra_metadata e; ra_disk := None; ra_generation := generation;
                                           ra_committed_at := now; ra_lifecycle := Readable; ra_pins := 0;
                                           ra_retention_eligible := true; ra_owner := owner |}]> (registry s1))
                    (set_files (<[aw_path w := content]> (files s1)) s1)),
               Some (aw_path w))
          end
      end
  end.

(** ** Looking up and pinning *)

Definition artifact (id : string) (s : Store) : option ArtifactMetadata :=
  if shutting_down s then None
  else match registry s !! id with
       | Some e => if bool_decide (ra_lifecycle e = Readable) then Some (ra_metadata e) else None
       | None => None
       end.

(** [find] by path: paths are unique in the registry. *)
Definition find_path (p : Path) (s : Store) : option (string * RegisteredArtifact) :=
  List.find (fun kv => bool_decide (am_path (ra_metadata kv.2) = p)) (map_to_list (registry s)).

Definition artifact_for_path (p : Path) (s : Store) : option ArtifactMetadata :=
  if shutting_down s then None
  else (fun kv => ra_metadata kv.2) <$>
       List.find (fun kv => bool_decide (ra_lifecycle kv.2 = Readable)
                            && bool_decide (am_path (ra_metadata kv.2) = p)) (map_to_list (registry s)).

Definition set_entry_pins (n : N) (e : RegisteredArtifact) : RegisteredArtifact :=
  {| ra_metadata := ra_metadata e; ra_disk := ra_disk e; ra_generation := ra_generation e;
     ra_committed_at := ra_committed_at e; ra_lifecycle := ra_lifecycle e; ra_pins := n;
     ra_retention_eligible := ra_retention_eligible e; ra_owner := ra_owner e |}.

Definition set_lifecycle (l : ArtifactLifecycle) (e : RegisteredArtifact) : RegisteredArtifact :=
  {| ra_metadata := ra_metadata e; ra_disk := ra_disk e; ra_generation := ra_generation e;
     ra_committed_at := ra_committed_at e; ra_lifecycle := l; ra_pins := ra_pins e;
     ra_retention_eligible := ra_retention_eligible e; ra_owner := ra_owner e |}.

Definition set_disk (d : option DiskReservation) (e : RegisteredArtifact) : RegisteredArtifact :=
  {| ra_metadata := ra_metadata e; ra_disk := d; ra_generation := ra_generation e;
     ra_committed_at := ra_committed_at e; ra_lifecycle := ra_lifecycle e; ra_pins := ra_pins e;
     ra_retention_eligible := ra_retention_eligible e; ra_owner := ra_owner e |}.

Definition set_retained (now : N) (e : RegisteredArtifact) : RegisteredArtifact :=
  {| ra_metadata := ra_metadata e; ra_disk := ra_disk e; ra_generation := ra_generation e;
     ra_committed_at := now; ra_lifecycle := ra_lifecycle e; ra_pins := ra_pins e;
     ra_retention_eligible := true; ra_owner := ra_owner e |}.

Definition pin_artifact (id : string) (requester : OwnerKey) (s : Store) : Store * option ArtifactReadPin :=
  if shutting_down s then (s, None)
  else match registry s !! id with
       | None => (s, None)
       | Some e =>
           if negb (bool_decide (ra_lifecycle e = Readable)) || negb (bool_decide (ra_owner e = requester)) then (s, None)
           else match checked_add (ra_pins e) 1 with
                | None => (s, None)
                | Some pins =>
                    (set_pins ((id, ra_generation e) :: read_pins s)
                       (set_registry (<[id := set_entry_pins pins e]> (registry s)) s),
                     Some {| pin_metadata := ra_metadata e; pin_generation := ra_generation e |})
                end
       end.

(** Take one occurrence out. *)
Fixpoint remove_pin (x : string * N) (l : list (string * N)) : list (string * N) :=
  match l with
  | [] => []
  | y :: rest => if bool_decide (x = y) then rest else y :: remove_pin x rest
  end.

(** [release_pin] as [drop] calls it, once per pin; whether to reclaim. *)
Definition release_pin (id : string) (generation : N) (s : Store) : Store * bool :=
  if negb (bool_decide ((id, generation) ∈ read_pins s)) then (s, false)
  else
    let s := set_pins (remove_pin (id, generation) (read_pins s)) s in
    match registry s !! id with
    | None => (s, false)
    | Some e =>
        if negb (ra_generation e =? generation)%N || (ra_pins e =? 0)%N then (s, false)
        else (set_registry (<[id := set_entry_pins (ra_pins e - 1) e]> (registry s)) s,
              (ra_pins e - 1 =? 0)%N && bool_decide (ra_lifecycle e = PendingDelete))
    end.

(** ** Reconciliation *)

(** One entry of [entries.retain]: what stays of it, and the files. *)
Definition reconcile_entry (readdir : Io) (io : Path -> Io) (e : RegisteredArtifact) (s : Store)
  : Store * option RegisteredArtifact :=
  let p := am_path (ra_metadata e) in
  if exists_ p (files s)
  then
    if negb (exists_ (with_extension p "manifest.json") (files s))
       && negb (exists_ (with_extension p "manifest.json.part") (files s))
       && negb (manifest_auxiliary_exists p (files s))
    then match ra_disk e with
         | Some d => (drop_option (dr_sidecar d) s,
                      Some (set_disk (Some {| dr_artifact := dr_artifact d; dr_sidecar := None |}) e))
         | None => (s, Some e)
         end
    else (s, Some e)
  else
    match associated_paths readdir p (files s) with
    | Err _ => (s, Some e)
    | Ok paths =>
        let sidecars := List.filter (fun q => negb (bool_decide (q = p))) paths in
        let removed := foldr (fun q fs => if bool_decide (io q = IoDone) then delete q fs else fs) (files s) sidecars in
        if forallb (fun q => bool_decide (io q = IoDone)) sidecars
        then (drop_disk (ra_disk e) (set_files removed s), None)
        else (set_files removed s, Some e)
    end.

Fixpoint reconcile_loop (readdir : Io) (io : Path -> Io) (entries : list (string * RegisteredArtifact)) (s : Store) : Store :=
  match entries with
  | [] => s
  | (id, e) :: rest =>
      let '(s1, kept) := reconcile_entry readdir io e s in
      let s2 := set_registry (match kept with
                              | Some e' => <[id := e']> (registry s1)
                              | None => delete id (registry s1)
                              end) s1 in
      reconcile_loop readdir io rest s2
  end.

Definition reconcile_missing_artifacts (readdir : Io) (io : Path -> Io) (s : Store) : Store :=
  reconcile_orphaned_reservations (reconcile_loop readdir io (map_to_list (registry s)) s).

(** ** Removal *)

(** The critical section of [remove_artifact]: mark the entry of this path. *)
Definition mark_pending (p : Path) (s : Store) : Store * option (string * N * N) :=
  match find_path p s with
  | Some (id, e) =>
      (set_registry (<[id := set_lifecycle PendingDelete e]> (registry s)) s, Some (id, ra_generation e, ra_pins e))
  | None => (s, None)
  end.

(** The check of [reclaim_pending_artifact], under the reclamation lock. *)
Definition reclaimable (id : string) (generation : N) (s : Store) : option Path :=
  match registry s !! id with
  | None => None
  | Some e =>
      if negb (ra_generation e =? generation)%N || negb (bool_decide (ra_lifecycle e = PendingDelete))
         || negb (ra_pins e =? 0)%N
      then None else Some (am_path (ra_metadata e))
  end.

(** Its last critical section: drop the entry if it is still the same. *)
Definition unregister (id : string) (generation : N) (s : Store) : Store * bool :=
  match registry s !! id with
  | None => (s, true)
  | Some e =>
      if (ra_generation e =? generation)%N
      then (drop_disk (ra_disk e) (set_registry (delete id (registry s)) s), true)
      else (s, false)
  end.

(** ** Retention *)

Definition MAX_STREAMING_ARTIFACT_RECLAIMS_PER_SWEEP : nat := 64.

(** The largest [Duration], in nanoseconds. *)
Definition DURATION_MAX : N := 18446744073709551615999999999.

Definition duration_checked_add (a b : N) : option N :=
  if (DURATION_MAX <? a + b)%N then None else Some (a + b)%N.

Definition sweep_candidate (now retention : N) (e : RegisteredArtifact) : bool :=
  (bool_decide (ra_lifecycle e = PendingDelete) && (ra_pins e =? 0)%N)
  || (ra_retention_eligible e && bool_decide (ra_lifecycle e = Readable)
      && is_some_and (duration_checked_add (ra_committed_at e) retention) (fun expires => (expires <=? now)%N)).

Definition sweep_le (a b : N * string * N) : Prop :=
  (a.1.1 < b.1.1)%N \/ a.1.1 = b.1.1 /\ str_le a.1.2 b.1.2.

#[export] Instance sweep_le_dec : RelDecision sweep_le.
Proof. intros a b. unfold sweep_le, str_le. solve_decision. Defined.

Definition sweep_order (now retention : N) (s : Store) : list (N * string * N) :=
  take MAX_STREAMING_ARTIFACT_RECLAIMS_PER_SWEEP
    (merge_sort sweep_le
       (map (fun kv => (ra_committed_at kv.2, kv.1, ra_generation kv.2))
          (List.filter (fun kv => sweep_candidate now retention kv.2) (map_to_list (registry s))))).

(** The critical section of the sweep: choose and mark. *)
Definition sweep_mark (now retention : N) (s : Store) : Store * list (N * string * N) :=
  let chosen := sweep_order now retention s in
  (set_registry (foldr (fun c m => alter (set_lifecycle PendingDelete) c.1.2 m) (registry s) chosen) s, chosen).

Definition retain_download (now : N) (id : string) (s : Store) : Store :=
  set_registry (alter (set_retained now) id (registry s)) s.

(** [attach_sidecar_reservation]: the lease moves to the entry, or stays with
    the caller. *)
Definition attach_sidecar_reservation (same_transaction : bool) (now : N) (p : Path) (lease : N) (s : Store)
  : Store * result unit IoError :=
  match find_path p s with
  | None => (s, Err (IoOther "artifact is not registered"))
  | Some (id, e) =>
      if negb (bool_decide (ra_lifecycle e = Readable)) then (s, Err (IoOther "artifact deletion is pending"))
      else match ra_disk e with
           | None => (s, Err (IoOther "artifact has no disk reservation"))
           | Some d =>
               if negb same_transaction then (s, Err (IoOther "sidecar uses a different disk quota"))
               else
                 let e' := set_retained now (set_disk (Some {| dr_artifact := dr_artifact d; dr_sidecar := Some lease |}) e) in
                 (drop_option (dr_sidecar d) (set_registry (<[id := e']> (registry s)) s), Ok tt)
           end
  end.

(** ** Shutdown *)

Definition mark_all (s : Store) : Store := set_registry (set_lifecycle PendingDelete <$> registry s) s.

Definition active_pin_count (s : Store) : N :=
  default U64_MAX
    (foldr (fun kv acc => acc ≫= fun t => checked_add t (ra_pins kv.2)) (Some 0%N) (map_to_list (registry s))).

(** [cleanup_current_session]. *)
Definition cleanup_current_session (readdir : Io) (io : Path -> Io) (s : Store) : Store :=
  if negb (active_pin_count s =? 0)%N then reconcile_missing_artifacts readdir io s
  else
    let '(fs, cleaned) := remove_dir_all io session_dir (files s) in
    let s1 := set_files fs s in
    if cleaned
    then set_orphans [] (set_leases (foldr (fun o m => delete o.2 m) (leases s1) (orphans s1))
           (set_registry ∅ (foldr (fun kv s => drop_disk (ra_disk kv.2) s) s1 (map_to_list (registry s1)))))
    else reconcile_missing_artifacts readdir io s1.

(** ** Any interleaving of the above *)

(** One step of some task; guards that the code's callers establish are in
    [apply]. *)
Inductive Event :=
| EBegin (mkdir create : Io) (operation : option string) (prefix extension content_type : string) (max_bytes : N)
         (id : string) (owner : OwnerKey)
| EQuota (id : string)
| EWrite (granted : bool) (end_ : WriteEnd) (id : string) (bytes : list byte)
| ECommit (sync rename_io : Io) (now : N) (id : string)
| EDrop (io : Io) (id : string)
| ESave (mkdir : Io) (failure : option (Io * list byte)) (now : N) (prefix id : string) (content : list byte) (owner : OwnerKey)
| EPin (id : string) (requester : OwnerKey)
| EUnpin (id : string) (generation : N)
| EMark (id : string)
| ERemoval (readdir : Io) (id : string)
| ERemovalStep (n : nat) (io : Io)
| EReclaim (readdir : Io) (id : string) (generation : N)
| EReclaimStep (io : Io)
| EReclaimEnd
| EReconcile (readdir : Io) (io : Path -> Io)
| ESweep (now retention : N)
| ERetain (now : N) (id : string)
| EShutdown
| EMarkAll
| ECleanup (readdir : Io) (io : Path -> Io)
| ERemoveDir (io : Path -> Io) (operation : string)
| EExternal (p : Path).

Section Run.
Variable limit : N.

(** Starting to remove files that no entry accounts for. *)
Definition start_removal (readdir : Io) (p : Path) (s : Store) : Store :=
  match find_path p s, associated_paths readdir p (files s) with
  | None, Ok paths => set_tasks (reclaiming s) (removals s ++ [paths]) s
  | _, _ => s
  end.

(** The next file of a removal; an error abandons the rest. *)
Definition removal_step (n : nat) (io : Io) (s : Store) : Store :=
  match removals s !! n with
  | Some (p :: rest) =>
      let '(fs, r) := remove_file io p (files s) in
      set_tasks (reclaiming s) (<[n := match r with Ok _ => rest | Err _ => [] end]> (removals s)) (set_files fs s)
  | _ => s
  end.

Definition start_reclaim (readdir : Io) (id : string) (generation : N) (s : Store) : Store :=
  match reclaiming s, reclaimable id generation s with
  | None, Some p =>
      match associated_paths readdir p (files s) with
      | Ok paths => set_tasks (Some {| rc_id := id; rc_generation := generation; rc_todo := paths |}) (removals s) s
      | Err _ => s
      end
  | _, _ => s
  end.

Definition reclaim_step (io : Io) (s : Store) : Store :=
  match reclaiming s with
  | Some {| rc_id := id; rc_generation := g; rc_todo := p :: rest |} =>
      let '(fs, r) := remove_file io p (files s) in
      set_tasks (match r with
                 | Ok _ => Some {| rc_id := id; rc_generation := g; rc_todo := rest |}
                 | Err _ => None
                 end) (removals s) (set_files fs s)
  | _ => s
  end.

Definition end_reclaim (s : Store) : Store :=
  match reclaiming s with
  | Some {| rc_id := id; rc_generation := g; rc_todo := [] |} =>
      reconcile_orphaned_reservations (unregister id g (set_tasks None (removals s) s)).1
  | _ => s
  end.

(** A caller removes only what it was given. *)
Definition given_path (id : string) (s : Store) : option Path := fst <$> handed_out s !! id.

Definition apply (e : Event) (s : Store) : Store :=
  match e with
  | EBegin mkdir create operation prefix extension content_type max_bytes id owner =>
      if fresh_id id s then (begin_artifact mkdir create operation prefix extension content_type max_bytes id owner s).1 else s
  | EQuota id => set_disk_quota id s
  | EWrite granted end_ id bytes => store_write limit granted end_ id bytes s
  | ECommit sync rename_io now id => commit sync rename_io now id s
  | EDrop io id => drop_writer io id s
  | ESave mkdir failure now prefix id content owner =>
      if fresh_id id s then (save_artifact mkdir failure now prefix id content owner s).1 else s
  | EPin id requester => (pin_artifact id requester s).1
  | EUnpin id generation => (release_pin id generation s).1
  | EMark id => match given_path id s with Some p => (mark_pending p s).1 | None => s end
  | ERemoval readdir id => match given_path id s with Some p => start_removal readdir p s | None => s end
  | ERemovalStep n io => removal_step n io s
  | EReclaim readdir id generation => start_reclaim readdir id generation s
  | EReclaimStep io => reclaim_step io s
  | EReclaimEnd => end_reclaim s
  | EReconcile readdir io => reconcile_missing_artifacts readdir io s
  | ESweep now retention => (sweep_mark now retention s).1
  | ERetain now id => retain_download now id s
  | EShutdown => set_shutting_down true s
  | EMarkAll => mark_all s
  | ECleanup readdir io => if shutting_down s then cleanup_current_session readdir io s else s
  | ERemoveDir io operation => set_files (remove_dir_all io (join session_dir operation) (files s)).1 s
  | EExternal p => set_files (delete p (files s)) s
  end.

Definition run (es : list Event) (s : Store) : Store := fold_left (fun s e => apply e s) es s.
End Run.

Definition store_new : Store :=
  {| files := ∅; registry := ∅; orphans := []; next_generation := 1; shutting_down := false; leases := ∅;
     next_lease := 0; writers := ∅; read_pins := []; reclaiming := None; removals := []; handed_out := ∅;
     used_ids := ∅ |}.

(** ** File names and the artifacts they belong to *)

Definition name_key (n : list byte) : list byte :=
  let n := drop_while (fun b => beqb b dot) n in
  match split_once_bytes dot n with Some (before, _) => before | None => n end.

(** The identifier a file name carries: the last 36 bytes before its first
    dot, leading dots apart. *)
Definition path_id (p : Path) : list byte :=
  match file_name p with Some n => last_bytes 36 (name_key (as_bytes n)) | None => [] end.

Lemma path_id_join dir n : path_id (join dir n) = last_bytes 36 (name_key (as_bytes n)).
Proof. unfold path_id, file_name, join. by rewrite last_snoc. Qed.

Lemma name_key_app a rest : a <> [] -> dot ∉ a -> name_key (a ++ dot :: rest) = a.
Proof.
  intros Hn Hd. unfold name_key. destruct a as [|b a]; [done|]. cbn [app drop_while].
  assert (beqb b dot = false) as -> by (apply beqb_neq; intros ->; apply Hd; left).
  pose proof (split_once_bytes_first dot (b :: a) rest Hd) as Hs. cbn [app] in Hs. by rewrite Hs.
Qed.

Lemma name_key_dot n : name_key (dot :: n) = name_key n.
Proof. unfold name_key. cbn [drop_while]. by rewrite beqb_refl. Qed.

Lemma file_stem_app a rest : a <> [] -> dot ∉ a ->
  exists tail_, file_stem (a ++ dot :: rest) = a ++ tail_ /\ (tail_ = [] \/ exists t, tail_ = dot :: t).
Proof.
  intros Hn Hd. unfold file_stem. rewrite rev_app_distr. cbn [rev]. rewrite <- app_assoc. cbn [app].
  destruct (split_once_bytes dot (rev rest)) as [[x y]|] eqn:E.
  - apply split_once_bytes_Some in E as [E Hx].
    assert (Hs : split_once_bytes dot (rev rest ++ dot :: rev a) = Some (x, y ++ dot :: rev a)).
    { rewrite E, <- app_assoc. cbn [app]. by apply split_once_bytes_first. }
    rewrite Hs. destruct (y ++ dot :: rev a) eqn:Ey; [by destruct y|]. rewrite <- Ey.
    exists (dot :: rev y). rewrite rev_app_distr. cbn [rev]. rewrite rev_involutive, <- app_assoc. split; [done|].
    right. eauto.
  - apply split_once_bytes_None in E. rewrite (split_once_bytes_first dot _ _ E).
    destruct (rev a) eqn:Ea; [by apply (f_equal (@rev byte)) in Ea; rewrite rev_involutive in Ea|]. rewrite <- Ea, rev_involutive.
    exists []. rewrite app_nil_r. split; [done|by left].
Qed.

(** Names built on the stem of [a.rest] carry the key [a]. *)
Lemma stem_key a rest more : a <> [] -> dot ∉ a -> name_key (file_stem (a ++ dot :: rest) ++ dot :: more) = a.
Proof.
  intros Hn Hd. destruct (file_stem_app a rest Hn Hd) as (t & -> & [->|[u ->]]).
  - rewrite app_nil_r. by apply name_key_app.
  - rewrite <- app_assoc. by apply name_key_app.
Qed.

Definition artifact_key (prefix id : string) : list byte := safe_prefix prefix ++ byte_of 45 :: as_bytes id.

Lemma safe_char_not_dot c : safe_char c <> dot.
Proof.
  unfold safe_char. destruct c as [|b [|b' c]]; [done| |done].
  destruct (is_ascii_alphanumeric b || beqb b (byte_of 45)) eqn:E; [|done].
  intros ->. done.
Qed.

Lemma artifact_key_facts prefix id :
  uuid_like id = true ->
  artifact_key prefix id <> [] /\ dot ∉ artifact_key prefix id /\ last_bytes 36 (artifact_key prefix id) = as_bytes id.
Proof.
  intros Hu. unfold uuid_like in Hu. bool_to_prop. rewrite forallb_elem_of in *.
  unfold artifact_key. split_and!.
  - by destruct (safe_prefix prefix).
  - rewrite elem_of_app, elem_of_cons. intros [Hin|[Hin|Hin]]; [|done|by apply H0 in Hin].
    unfold safe_prefix in Hin. apply list_elem_of_In, in_map_iff in Hin as (c & Hc & _). by apply safe_char_not_dot in Hc.
  - unfold last_bytes. rewrite length_app. cbn [length]. rewrite str_len_bytes in H. rewrite H.
    replace (length (safe_prefix prefix) + 37 - 36)%nat with (length (safe_prefix prefix) + 1)%nat by lia.
    rewrite <- drop_drop, drop_app_length. done.
Qed.

Lemma artifact_filename_key prefix id extension :
  as_bytes (artifact_filename prefix id extension)
  = artifact_key prefix id ++ dot :: drop_while (fun b => beqb b dot) (as_bytes extension).
Proof. unfold artifact_filename, artifact_key. rewrite as_of_bytes, <- app_assoc. done. Qed.

(** A path of artifact [id]. *)
Definition artifact_path (id : string) (p : Path) : Prop :=
  exists dir prefix extension, p = join dir (artifact_filename prefix id extension) /\ in_dir session_dir dir = true.

Lemma artifact_path_id id p : uuid_like id = true -> artifact_path id p -> path_id p = as_bytes id.
Proof.
  intros Hu (dir & prefix & extension & -> & _). destruct (artifact_key_facts prefix id Hu) as (Hn & Hd & Hl).
  by rewrite path_id_join, artifact_filename_key, name_key_app.
Qed.

Lemma partial_path_id id dir prefix extension :
  uuid_like id = true -> path_id (join dir (partial_name (artifact_filename prefix id extension))) = as_bytes id.
Proof.
  intros Hu. destruct (artifact_key_facts prefix id Hu) as (Hn & Hd & Hl).
  rewrite path_id_join. unfold partial_name. rewrite !as_bytes_app, artifact_filename_key.
  change (as_bytes "." ++ ?l) with (dot :: l). rewrite name_key_dot, <- app_assoc. cbn [app]. by rewrite name_key_app.
Qed.

Lemma removelast_join dir n : removelast (join dir n) = dir.
Proof. unfold join. rewrite removelast_app by done. cbn. by rewrite app_nil_r. Qed.

Lemma file_name_join dir n : file_name (join dir n) = Some n.
Proof. apply last_snoc. Qed.

Lemma with_extension_join dir n extension :
  with_extension (join dir n) extension = join dir (of_bytes (file_stem (as_bytes n) ++ dot :: as_bytes extension)).
Proof. unfold with_extension. by rewrite file_name_join, removelast_join. Qed.

(** Every file removed with an artifact carries its identifier. *)
Lemma associated_path_id readdir id p fs paths q :
  uuid_like id = true -> artifact_path id p -> associated_paths readdir p fs = Ok paths -> q ∈ paths ->
  path_id q = as_bytes id.
Proof.
  intros Hu Hp Ha Hq. pose proof (artifact_path_id id p Hu Hp) as Hid.
  destruct Hp as (dir & prefix & extension & -> & _). set (n := artifact_filename prefix id extension) in *.
  destruct (artifact_key_facts prefix id Hu) as (Hn & Hd & Hl).
  assert (Hstem : forall more, last_bytes 36 (name_key (file_stem (as_bytes n) ++ dot :: more)) = as_bytes id).
  { intros more. unfold n. by rewrite artifact_filename_key, stem_key. }
  assert (Hext : forall e, path_id (with_extension (join dir n) e) = as_bytes id).
  { intros e. by rewrite with_extension_join, path_id_join, as_of_bytes. }
  unfold associated_paths in Ha. destruct (join dir n) as [|c cs] eqn:Ej; [by destruct dir|]. rewrite <- Ej in *. clear Ej.
  destruct (io_result readdir); [|done]. injection Ha as <-.
  rewrite elem_of_remove_dups, merge_sort_Permutation, !elem_of_cons, elem_of_app in Hq.
  rewrite file_name_join, removelast_join in Hq.
  destruct Hq as [->|[->|[->|[Hq|Hq]]]]; [done|by apply Hext|by apply Hext|..].
  - apply list_elem_of_singleton in Hq as ->. by apply partial_path_id.
  - unfold dir_entries in Hq. apply list_elem_of_In, filter_In in Hq as [_ Hq]. bool_to_prop.
    unfold path_id. destruct (file_name q) as [m|]; [|done].
    unfold manifest_prefix in H0. rewrite with_extension_join, file_name_join, as_of_bytes in H0.
    apply starts_with_bytes_spec in H0 as [rest ->]. rewrite <- !app_assoc. cbn [app]. apply Hstem.
Qed.

(** ** The invariant behind pins *)

(** A reader may hold it, or may still get it. *)
Definition live (s : Store) (e : RegisteredArtifact) : Prop :=
  (ra_lifecycle e = Readable /\ shutting_down s = false) \/ ra_pins e <> 0%N.

Definition pin_count (x : string * N) (l : list (string * N)) : N :=
  N.of_nat (length (List.filter (fun y => bool_decide (x = y)) l)).

Record registered_ok (s : Store) (id : string) (e : RegisteredArtifact) : Prop := {
  ro_uuid : uuid_like id = true;
  ro_used : id ∈ used_ids s;
  ro_path : artifact_path id (am_path (ra_metadata e));
  ro_writer : writers s !! id = None;
  ro_owner : am_owner (ra_metadata e) = ra_owner e;
  ro_count : ra_pins e = pin_count (id, ra_generation e) (read_pins s);
  ro_given : exists c, handed_out s !! id = Some (am_path (ra_metadata e), c)
                       /\ am_size (ra_metadata e) = N.of_nat (length c)
                       /\ (live s e -> files s !! am_path (ra_metadata e) = Some c);
}.

Record writer_ok (s : Store) (id : string) (w : ArtifactWriter) : Prop := {
  wk_uuid : uuid_like id = true;
  wk_used : id ∈ used_ids s;
  wk_path : artifact_path id (aw_path w);
  wk_partial : path_id (aw_partial_path w) = as_bytes id;
  wk_fresh : handed_out s !! id = None;
  wk_size : aw_size w = N.of_nat (length (aw_hashed w));
  wk_content : aw_open w = true -> forall c, files s !! aw_partial_path w = Some c -> c = aw_hashed w;
}.

(** Files only of artifact [i], which no reader can hold, are being removed. *)
Definition removing (s : Store) (i : string) (todo : list Path) : Prop :=
  uuid_like i = true /\ i ∈ used_ids s /\ writers s !! i = None /\ forall q, q ∈ todo -> path_id q = as_bytes i.

Record Inv (s : Store) : Prop := {
  inv_registered id e : registry s !! id = Some e -> registered_ok s id e;
  inv_writer id w : writers s !! id = Some w -> writer_ok s id w;
  inv_given id p c : handed_out s !! id = Some (p, c) ->
    uuid_like id = true /\ id ∈ used_ids s /\ artifact_path id p /\ writers s !! id = None;
  inv_reclaim rc : reclaiming s = Some rc ->
    removing s (rc_id rc) (rc_todo rc)
    /\ forall e, registry s !! rc_id rc = Some e -> ra_lifecycle e = PendingDelete /\ ra_pins e = 0%N;
  inv_removal todo : todo ∈ removals s -> exists i, removing s i todo /\ registry s !! i = None;
  inv_pinned id g : (id, g) ∈ read_pins s -> exists e, registry s !! id = Some e /\ ra_generation e = g;
}.

(** What the invariant depends on: everything but leases, orphans and the
    counters. *)
Definition core (s : Store) :=
  (files s, registry s, shutting_down s, writers s, read_pins s, reclaiming s, removals s, handed_out s, used_ids s).

Lemma Inv_core s s' : core s' = core s -> Inv s -> Inv s'.
Proof.
  destruct s, s'. unfold core. cbn. intros [= -> -> -> -> -> -> -> -> ->] [H1 H2 H3 H4 H5 H6].
  split; cbn in *.
  - intros id e He. destruct (H1 id e He) as [? ? ? ? ? ? (c & ? & ? & Hl)]. split; try done. exists c. split_and!; [done|done|exact Hl].
  - intros id w Hw. destruct (H2 id w Hw). by split.
  - exact H3.
  - exact H4.
  - exact H5.
  - exact H6.
Qed.

Lemma core_leases l s : core (set_leases l s) = core s.
Proof. done. Qed.
Lemma core_drop_option r s : core (drop_option r s) = core s.
Proof. by destruct r. Qed.
Lemma core_drop_disk d s : core (drop_disk d s) = core s.
Proof. destruct d as [[a []]|]; done. Qed.
Lemma core_orphans s : core (reconcile_orphaned_reservations s) = core s.
Proof. done. Qed.
Lemma core_retain p r s : core (retain_orphaned_reservation p r s) = core s.
Proof. unfold retain_orphaned_reservation. by destruct (exists_ p (files s)). Qed.

Lemma pin_count_pos id g l : (id, g) ∈ l -> pin_count (id, g) l <> 0%N.
Proof.
  intros Hin. unfold pin_count.
  destruct (List.filter (fun y => bool_decide ((id, g) = y)) l) eqn:E; [|done].
  assert (H : (id, g) ∈ List.filter (fun y => bool_decide ((id, g) = y)) l).
  { apply list_elem_of_In, filter_In. split; [by apply list_elem_of_In|by apply bool_decide_eq_true]. }
  rewrite E in H. by apply elem_of_nil in H.
Qed.

Lemma live_pinned s id e g :
  Inv s -> registry s !! id = Some e -> (id, g) ∈ read_pins s -> ra_pins e <> 0%N.
Proof.
  intros HI He Hp. rewrite (ro_count _ _ _ (inv_registered s HI _ _ He)).
  destruct (inv_pinned s HI _ _ Hp) as (e' & He' & <-). rewrite He in He'. injection He' as ->. by apply pin_count_pos.
Qed.

(** Changing files that no live artifact and no open writer depends on. *)
Lemma Inv_files fs s :
  Inv s ->
  (forall id e, registry s !! id = Some e -> live s e ->
     fs !! am_path (ra_metadata e) = files s !! am_path (ra_metadata e)) ->
  (forall id w c, writers s !! id = Some w -> fs !! aw_partial_path w = Some c -> files s !! aw_partial_path w = Some c) ->
  Inv (set_files fs s).
Proof.
  intros [H1 H2 H3 H4 H5 H6] Hr Hw. split; cbn; try done.
  - intros id e He. destruct (H1 id e He) as [? ? ? ? ? ? (c & ? & ? & Hl)]. split; try done.
    exists c. split_and!; try done. intros Hlive. cbn. rewrite (Hr id e He Hlive). by apply Hl.
  - intros id w Hwr. destruct (H2 id w Hwr) as [? ? ? ? ? ? Hc]. split; try done. cbn. intros Ho c Hf.
    apply Hc; [done|]. by eapply Hw.
Qed.

Lemma as_bytes_ne i j : i <> j -> as_bytes i <> as_bytes j.
Proof. intros Hn He. apply Hn. by apply as_bytes_inj. Qed.

(** Deleting files of one artifact leaves the others' alone. *)
Lemma Inv_delete q i s :
  Inv s -> path_id q = as_bytes i -> (forall e, registry s !! i = Some e -> ~ live s e) -> Inv (set_files (delete q (files s)) s).
Proof.
  intros HI Hq Hi. apply Inv_files; [done|..].
  - intros id e He Hl. apply lookup_delete_ne. intros ->.
    pose proof (inv_registered s HI id e He) as Hro.
    rewrite (artifact_path_id id) in Hq by apply Hro. destruct (decide (id = i)) as [->|Hne]; [by eapply Hi|].
    by apply as_bytes_ne in Hne.
  - intros id w c Hw Hc. by apply lookup_delete_Some in Hc as [_ Hc].
Qed.

(** What an update of an entry must keep. *)
Record refines (e e' : RegisteredArtifact) : Prop := {
  rf_metadata : ra_metadata e' = ra_metadata e;
  rf_generation : ra_generation e' = ra_generation e;
  rf_owner : ra_owner e' = ra_owner e;
  rf_pins : ra_pins e' = ra_pins e;
  rf_readable : ra_lifecycle e' = Readable -> ra_lifecycle e = Readable;
}.

Lemma refines_refl e : refines e e.
Proof. by split. Qed.

Lemma refines_trans e1 e2 e3 : refines e1 e2 -> refines e2 e3 -> refines e1 e3.
Proof. intros [] []. split; try congruence. auto. Qed.

(** Marking, retaining and dropping entries nobody has pinned. *)
Lemma Inv_registry r s :
  Inv s ->
  (forall id e', r !! id = Some e' -> exists e, registry s !! id = Some e /\ refines e e') ->
  (forall id e, registry s !! id = Some e -> ra_pins e <> 0%N -> is_Some (r !! id)) ->
  Inv (set_registry r s).
Proof.
  intros HI Hr Hp. pose proof HI as [H1 H2 H3 H4 H5 H6]. split; cbn; try done.
  - intros id e' He'. destruct (Hr id e' He') as (e & He & [Hm Hg Ho Hpn Hrd]).
    destruct (H1 id e He) as [Hu Hus Hpa Hwr How Hc (c & Hc1 & Hc2 & Hl)].
    split; try done; cbn; try congruence.
    exists c. rewrite Hm. split_and!; try done. intros [[? ?]|?]; apply Hl; [left; auto|right; congruence].
  - intros id w Hw. destruct (H2 id w Hw). by split.
  - intros rc Hrc. destruct (H4 rc Hrc) as [? Hpe]. split; [done|]. intros e' He'.
    destruct (Hr _ _ He') as (e & He & [_ _ _ Hpn Hrd]). destruct (Hpe e He) as [Hle Hp0].
    split; [|congruence]. destruct (ra_lifecycle e'); [|done]. rewrite Hrd in Hle by done. done.
  - intros todo Ht. destruct (H5 todo Ht) as (i & Hi & Hn). exists i. split; [done|].
    destruct (r !! i) as [e'|] eqn:E; [|done]. destruct (Hr _ _ E) as (e & He & _). congruence.
  - intros id g Hin. destruct (H6 id g Hin) as (e & He & Hg).
    destruct (Hp id e He) as [e' He']; [by eapply live_pinned|].
    exists e'. split; [done|]. destruct (Hr _ _ He') as (e0 & He0 & Href). rewrite He in He0. injection He0 as <-.
    rewrite (rf_generation _ _ Href). done.
Qed.

(** Updating one entry. *)
Lemma Inv_update id f s :
  Inv s -> (forall e, registry s !! id = Some e -> refines e (f e)) -> Inv (set_registry (alter f id (registry s)) s).
Proof.
  intros HI Hf. apply Inv_registry; [done|..].
  - intros id' e'. destruct (decide (id = id')) as [<-|Hne].
    + rewrite lookup_alter_Some. intros [(_ & e & He & ->)|[? _]]; [|done]. exists e. split; [done|by apply Hf].
    + rewrite lookup_alter_ne by done. intros He. exists e'. split; [done|apply refines_refl].
  - intros id' e He _. destruct (decide (id = id')) as [<-|Hne].
    + rewrite lookup_alter_eq, He. by eexists.
    + rewrite lookup_alter_ne by done. by eexists.
Qed.

(** ** Every step preserves it *)

Lemma find_path_spec p s id e :
  find_path p s = Some (id, e) -> registry s !! id = Some e /\ am_path (ra_metadata e) = p.
Proof.
  unfold find_path. intros Hf. apply find_some in Hf as [Hin Hp]. cbn in Hp. apply bool_decide_eq_true in Hp.
  apply list_elem_of_In, elem_of_map_to_list in Hin. done.
Qed.

Lemma find_path_none p s id e : find_path p s = None -> registry s !! id = Some e -> am_path (ra_metadata e) <> p.
Proof.
  unfold find_path. intros Hf He Hp.
  apply elem_of_map_to_list, list_elem_of_In in He. pose proof (find_none _ _ Hf _ He) as Hn. cbn in Hn.
  by apply bool_decide_eq_false in Hn.
Qed.

Lemma artifact_path_join operation prefix id extension :
  artifact_path id (join (operation_dir operation) (artifact_filename prefix id extension)).
Proof. exists (operation_dir operation), prefix, extension. split; [done|]. by destruct operation. Qed.

(** A fresh identifier is nobody's. *)
Lemma fresh_id_facts id s :
  Inv s -> fresh_id id s = true ->
  uuid_like id = true /\ id ∉ used_ids s /\ registry s !! id = None /\ writers s !! id = None /\ handed_out s !! id = None.
Proof.
  intros HI Hf. unfold fresh_id in Hf. bool_to_prop. split_and!; [done|done|..].
  - destruct (registry s !! id) as [e|] eqn:E; [|done]. by destruct (inv_registered s HI _ _ E).
  - destruct (writers s !! id) as [w|] eqn:E; [|done]. by destruct (inv_writer s HI _ _ E).
  - destruct (handed_out s !! id) as [[p c]|] eqn:E; [|done]. by destruct (inv_given s HI _ _ _ E) as (_ & ? & _).
Qed.

Lemma Inv_use_id id s : Inv s -> Inv (use_id id s).
Proof.
  intros [H1 H2 H3 H4 H5 H6]. split; cbn.
  - intros i e He. destruct (H1 i e He) as [? ? ? ? ? ? (c & ? & ? & Hl)]. split; try done; cbn; [set_solver|].
    exists c. split_and!; [done|done|exact Hl].
  - intros i w Hw. destruct (H2 i w Hw). split; try done. cbn. set_solver.
  - intros i p c Hg. destruct (H3 i p c Hg) as (? & ? & ? & ?). split_and!; try done. set_solver.
  - intros rc Hrc. destruct (H4 rc Hrc) as [(? & ? & ? & ?) ?]. split; [|done]. split_and!; try done. cbn. set_solver.
  - intros todo Ht. destruct (H5 todo Ht) as (i & (? & ? & ? & ?) & ?). exists i. split; [|done].
    split_and!; try done. cbn. set_solver.
  - done.
Qed.

(** Putting or updating a writer under an identifier that no entry and no
    removal has. *)
Lemma Inv_put_writer id w s :
  Inv s -> writer_ok s id w -> registry s !! id = None ->
  (forall rc, reclaiming s = Some rc -> rc_id rc <> id) ->
  (forall todo, todo ∈ removals s -> exists i, removing s i todo /\ registry s !! i = None /\ i <> id) ->
  Inv (set_writers (<[id := w]> (writers s)) s).
Proof.
  intros HI Hw Hn Hrc Hrm. pose proof HI as [H1 H2 H3 H4 H5 H6]. split; cbn; try done.
  - intros i e He. assert (i <> id) by (intros ->; congruence).
    destruct (H1 i e He) as [? ? ? ? ? ? (c & ? & ? & Hl)]. split; try done; cbn; [by rewrite lookup_insert_ne|].
    exists c. split_and!; [done|done|exact Hl].
  - intros i w'. destruct (decide (id = i)) as [<-|Hne].
    + rewrite lookup_insert_eq. intros [= <-]. by destruct Hw.
    + rewrite lookup_insert_ne by done. intros Hi. by destruct (H2 i w' Hi).
  - intros i p c Hg. destruct (decide (id = i)) as [<-|Hne]; [by rewrite (wk_fresh _ _ _ Hw) in Hg|].
    rewrite lookup_insert_ne by done. by eapply H3.
  - intros rc Hc. destruct (H4 rc Hc) as [(? & ? & ? & ?) ?]. split; [|done]. pose proof (Hrc rc Hc).
    split_and!; try done. cbn. by rewrite lookup_insert_ne.
  - intros todo Ht. destruct (Hrm todo Ht) as (i & (? & ? & ? & ?) & Hi & Hne).
    exists i. split; [|done]. split_and!; try done. cbn. by rewrite lookup_insert_ne.
Qed.

(** For a writer that is already there the side conditions hold. *)
Lemma Inv_set_writer id w0 w s :
  Inv s -> writers s !! id = Some w0 -> writer_ok s id w -> Inv (set_writers (<[id := w]> (writers s)) s).
Proof.
  intros HI Hw0 Hw. apply Inv_put_writer; [done|done|..].
  - destruct (registry s !! id) as [e|] eqn:E; [|done]. destruct (inv_registered s HI _ _ E). congruence.
  - intros rc Hrc Heq. destruct (inv_reclaim s HI rc Hrc) as [(_ & _ & Hn & _) _]. congruence.
  - intros todo Ht. destruct (inv_removal s HI todo Ht) as (i & Hr & Hi). exists i. split_and!; try done.
    intros ->. destruct Hr as (_ & _ & Hn & _). congruence.
Qed.

Lemma Inv_begin mkdir create operation prefix extension content_type max_bytes id owner s :
  Inv s -> fresh_id id s = true ->
  Inv (begin_artifact mkdir create operation prefix extension content_type max_bytes id owner s).1.
Proof.
  intros HI Hf. destruct (fresh_id_facts id s HI Hf) as (Hu & Hnu & Hr & Hw & Hg).
  unfold begin_artifact. destruct mkdir; [|done]. destruct create; cbn [fst]; [|by apply Inv_use_id].
  set (w := begin_artifact_in_operation _ _ _ _ _ _ _).
  assert (Hpid : path_id (aw_partial_path w) = as_bytes id) by (by apply partial_path_id).
  set (s1 := set_files _ _).
  assert (HI1 : Inv s1).
  { apply Inv_files; [by apply Inv_use_id|..]; cbn.
    - intros i e He _. apply lookup_insert_ne. intros Heq. pose proof (inv_registered s HI i e He) as Hro.
      apply (f_equal path_id) in Heq. rewrite (artifact_path_id i (am_path _)) in Heq by apply Hro.
      assert (id = i) as -> by (apply as_bytes_inj; rewrite <- Hpid; exact Heq). congruence.
    - intros i w' c Hw' Hc. rewrite lookup_insert_ne in Hc; [done|]. intros Heq.
      apply (f_equal path_id) in Heq. rewrite (wk_partial _ _ _ (inv_writer s HI i w' Hw')) in Heq.
      assert (id = i) as -> by (apply as_bytes_inj; rewrite <- Hpid; exact Heq). congruence. }
  apply (Inv_put_writer id w s1); [done|..].
  - split; try done; cbn; [set_solver|apply artifact_path_join|]. intros _ c. rewrite lookup_insert_eq. by intros [= <-].
  - done.
  - intros rc Hrc Heq. destruct (inv_reclaim s HI rc Hrc) as [(_ & Hin & _) _]. by rewrite Heq in Hin.
  - intros todo Ht. destruct (inv_removal s HI todo Ht) as (i & (? & ? & ? & ?) & Hi).
    exists i. split_and!; try done; [split_and!; try done; cbn; set_solver|]. by intros ->.
Qed.

Lemma Inv_quota id s : Inv s -> Inv (set_disk_quota id s).
Proof.
  intros HI. unfold set_disk_quota. destruct (writers s !! id) as [w|] eqn:Hw; [|done].
  destruct (_ && _); [|done].
  apply (Inv_core (set_writers (<[id := set_lease (Some (next_lease s)) w]> (writers s)) s)); [done|].
  apply (Inv_set_writer id w); [done|done|]. by destruct (inv_writer s HI id w Hw).
Qed.

Lemma Inv_close id w s : Inv s -> writers s !! id = Some w -> Inv (set_writers (<[id := close_writer w]> (writers s)) s).
Proof. intros HI Hw. apply (Inv_set_writer id w); [done|done|]. by destruct (inv_writer s HI id w Hw). Qed.

(** Appending to a partial file touches nobody else's. *)
Lemma append_other p bytes fs q : p <> q -> append_file p bytes fs !! q = fs !! q.
Proof. intros Hne. unfold append_file. by apply lookup_alter_ne. Qed.

Lemma partial_not_artifact s id w i e :
  Inv s -> writers s !! id = Some w -> registry s !! i = Some e -> aw_partial_path w <> am_path (ra_metadata e).
Proof.
  intros HI Hw He Heq. pose proof (inv_registered s HI i e He) as Hro.
  pose proof (wk_partial _ _ _ (inv_writer s HI id w Hw)) as Hp.
  rewrite Heq, (artifact_path_id i) in Hp by apply Hro. apply as_bytes_inj in Hp as ->. destruct Hro. congruence.
Qed.

Lemma partial_not_partial s id w i w' :
  Inv s -> writers s !! id = Some w -> writers s !! i = Some w' -> i <> id -> aw_partial_path w <> aw_partial_path w'.
Proof.
  intros HI Hw Hw' Hne Heq. pose proof (wk_partial _ _ _ (inv_writer s HI id w Hw)) as Hp.
  rewrite Heq, (wk_partial _ _ _ (inv_writer s HI i w' Hw')) in Hp. by apply as_bytes_inj in Hp.
Qed.

Lemma Inv_append id w bytes w' s :
  Inv s -> writers s !! id = Some w ->
  aw_path w' = aw_path w -> aw_partial_path w' = aw_partial_path w ->
  aw_size w' = N.of_nat (length (aw_hashed w')) ->
  (aw_open w' = true -> forall c, files s !! aw_partial_path w = Some c -> c ++ bytes = aw_hashed w') ->
  Inv (set_writers (<[id := w']> (writers s)) (set_files (append_file (aw_partial_path w) bytes (files s)) s)).
Proof.
  intros HI Hw Hpath Hpart Hsize Hc.
  pose proof HI as [H1 H2 H3 H4 H5 H6]. pose proof (H2 id w Hw) as [W1 W2 W3 W4 W5 W6 W7].
  assert (Hother : forall i, writers s !! i = None -> <[id := w']> (writers s) !! i = None).
  { intros i Hi. rewrite lookup_insert_ne; [done|]. intros ->. congruence. }
  split; cbn; try done.
  - intros i e He. pose proof (partial_not_artifact s id w i e HI Hw He) as Hne.
    destruct (H1 i e He) as [? ? ? Hwn ? ? (c & ? & ? & Hl)]. split; try done; [by apply Hother|].
    exists c. split_and!; [done|done|]. intros Hlive. cbn. rewrite append_other by done. by apply Hl.
  - intros i v. destruct (decide (id = i)) as [<-|Hne].
    + rewrite lookup_insert_eq. intros [= <-]. split; try done; cbn.
      * by rewrite Hpath.
      * by rewrite Hpart.
      * intros Ho c. rewrite Hpart. unfold append_file. rewrite lookup_alter_eq.
        destruct (files s !! aw_partial_path w) as [c0|] eqn:E; cbn; [|done]. intros [= <-]. by apply Hc.
    + rewrite lookup_insert_ne by done. intros Hv. pose proof (H2 i v Hv) as [? ? ? ? ? ? Hcv]. split; try done. cbn.
      intros Ho c. rewrite append_other by (by eapply partial_not_partial). by apply Hcv.
  - intros i p c Hg. destruct (H3 i p c Hg) as (? & ? & ? & ?). split_and!; try done. by apply Hother.
  - intros rc Hrc. destruct (H4 rc Hrc) as [(? & ? & ? & ?) ?]. split; [|done]. split_and!; try done. by apply Hother.
  - intros todo Ht. destruct (H5 todo Ht) as (i & (? & ? & ? & ?) & ?). exists i. split; [|done].
    split_and!; try done. by apply Hother.
Qed.

Lemma Inv_write limit granted end_ id bytes s : Inv s -> Inv (store_write limit granted end_ id bytes s).
Proof.
  intros HI. unfold store_write. destruct (writers s !! id) as [w|] eqn:Hw; [|done].
  destruct (aw_open w) eqn:Ho; cbn [negb]; [|done].
  destruct (chunk_admitted w bytes) as [next|e] eqn:Ha; [|by apply Inv_close].
  apply chunk_admitted_spec in Ha as [-> _].
  pose proof (inv_writer s HI id w Hw) as [_ _ _ _ _ Hsz Hct].
  assert (Hgo : forall s1, core s1 = core s -> Inv
    match end_ with
    | WriteDone => set_writers (<[id := chunk_written w bytes (aw_size w + N.of_nat (length bytes))]> (writers s1))
                     (set_files (append_file (aw_partial_path w) bytes (files s1)) s1)
    | WriteFailed reached => set_writers (<[id := close_writer w]> (writers s1))
                     (set_files (append_file (aw_partial_path w) (take reached bytes) (files s1)) s1)
    end).
  { intros s1 Hcore. assert (HI1 : Inv s1) by (by eapply Inv_core).
    assert (Hw1 : writers s1 !! id = Some w /\ files s1 = files s).
    { unfold core in Hcore. injection Hcore as Hf _ _ Hwr _ _ _ _ _. by rewrite Hwr, Hf. }
    destruct Hw1 as [Hw1 Hf1]. destruct end_ as [|k]; apply Inv_append; try done.
    - cbn. rewrite length_app. lia.
    - cbn. rewrite Hf1. intros _ c Hc. f_equal. by apply Hct. }
  destruct (aw_lease w) as [r|]; [|by apply Hgo].
  destruct (granted && _); [by apply Hgo|by apply Inv_close].
Qed.

(** Registering a new artifact whose file is in place. *)
Lemma Inv_register id e p content fs s :
  Inv s -> uuid_like id = true -> id ∈ used_ids s -> registry s !! id = None -> handed_out s !! id = None ->
  artifact_path id p -> am_path (ra_metadata e) = p -> am_size (ra_metadata e) = N.of_nat (length content) ->
  am_owner (ra_metadata e) = ra_owner e -> ra_pins e = 0%N ->
  fs !! p = Some content -> (forall q, path_id q <> as_bytes id -> fs !! q = files s !! q) ->
  (forall rc, reclaiming s = Some rc -> rc_id rc <> id) ->
  (forall todo, todo ∈ removals s -> exists i, removing s i todo /\ registry s !! i = None /\ i <> id) ->
  Inv (hand_out id p content (set_writers (delete id (writers s)) (set_registry (<[id := e]> (registry s)) (set_files fs s)))).
Proof.
  intros HI Hu Hus Hr Hg Hap Hp Hsz How Hpn Hfp Hfs Hrc Hrm. pose proof HI as [H1 H2 H3 H4 H5 H6].
  assert (Hw0 : forall i, writers s !! i = None -> delete id (writers s) !! i = None).
  { intros i Hi. destruct (decide (id = i)) as [<-|]; [apply lookup_delete_eq|by rewrite lookup_delete_ne]. }
  assert (Hne : forall i q, uuid_like i = true -> path_id q = as_bytes i -> i <> id -> fs !! q = files s !! q).
  { intros i q Hi Hq Hd. apply Hfs. rewrite Hq. by apply as_bytes_ne. }
  split; cbn; try done.
  - intros i e'. destruct (decide (id = i)) as [<-|Hd].
    + rewrite lookup_insert_eq. intros [= <-]. split; try done; cbn.
      * by rewrite Hp.
      * apply lookup_delete_eq.
      * rewrite Hpn. unfold pin_count. destruct (List.filter _ (read_pins s)) as [|y l] eqn:Ef; [done|].
        assert (Hy : y ∈ List.filter (fun y => bool_decide ((id, ra_generation e) = y)) (read_pins s)) by (rewrite Ef; left).
        apply list_elem_of_In, filter_In in Hy as [Hy Hb]. apply bool_decide_eq_true in Hb. subst y.
        apply list_elem_of_In in Hy. destruct (H6 _ _ Hy) as (e0 & He0 & _). congruence.
      * exists content. rewrite lookup_insert_eq, Hp. split_and!; [done|done|]. by intros _.
    + rewrite lookup_insert_ne by done. intros He'.
      destruct (H1 i e' He') as [Hi ? Hpa ? ? ? (c & ? & ? & Hl)]. split; try done; cbn; [by apply Hw0|].
      exists c. rewrite lookup_insert_ne by done. split_and!; [done|done|]. intros Hlive.
      rewrite (Hne i) by (try done; by apply artifact_path_id). by apply Hl.
  - intros i w Hw. apply lookup_delete_Some in Hw as [Hd Hw]. destruct (H2 i w Hw) as [? ? ? Hpt ? ? Hc]. split; try done; cbn.
    + by rewrite lookup_insert_ne.
    + intros Ho c. rewrite (Hne i) by done. by apply Hc.
  - intros i q c. destruct (decide (id = i)) as [<-|Hd].
    + rewrite lookup_insert_eq. intros [= <- <-]. split_and!; try done. apply lookup_delete_eq.
    + rewrite lookup_insert_ne by done. intros Hi. destruct (H3 i q c Hi) as (? & ? & ? & ?). split_and!; try done. by apply Hw0.
  - intros rc Hc. destruct (H4 rc Hc) as [(? & ? & ? & ?) ?]. pose proof (Hrc rc Hc). split.
    + split_and!; try done. by apply Hw0.
    + intros e'. rewrite lookup_insert_ne by done. auto.
  - intros todo Ht. destruct (Hrm todo Ht) as (i & (? & ? & ? & ?) & ? & ?). exists i. split.
    + split_and!; try done. by apply Hw0.
    + by rewrite lookup_insert_ne.
  - intros i g Hin. destruct (H6 i g Hin) as (e' & He' & Hgen). exists e'. split; [|done].
    rewrite lookup_insert_ne; [done|]. intros ->. congruence.
Qed.

Lemma rename_spec io from to_ fs fs' :
  rename io from to_ fs = Some fs' -> exists c, fs !! from = Some c /\ fs' = <[to_ := c]> (delete from fs).
Proof. unfold rename. destruct io; [|done]. destruct (fs !! from) as [c|]; [|done]. intros [= <-]. by exists c. Qed.

Lemma Inv_commit sync rename_io now id s : Inv s -> Inv (commit sync rename_io now id s).
Proof.
  intros HI. unfold commit. destruct (writers s !! id) as [w|] eqn:Hw; [|done].
  destruct (aw_open w) eqn:Ho; cbn [negb]; [|done].
  destruct sync; [|by apply Inv_close].
  unfold next_artifact_generation. destruct (checked_add (next_generation s) 1) as [next|]; [|by apply Inv_close].
  assert (HI1 : Inv (set_generation next s)) by (by apply (Inv_core s)).
  destruct (rename _ _ _ _) as [fs|] eqn:Hr; [|by apply (Inv_close id w (set_generation next s))].
  apply rename_spec in Hr as (c & Hc & ->). pose proof (inv_writer s HI id w Hw) as [Wu Wus Wp Wpt Wf Wsz Wc].
  assert (c = aw_hashed w) as -> by (by apply Wc).
  apply (Inv_register id (registered_of w (next_generation s) now) (aw_path w) (aw_hashed w) _ (set_generation next s)); try done.
  - destruct (registry s !! id) as [e|] eqn:E; [|done]. destruct (inv_registered s HI _ _ E). congruence.
  - apply lookup_insert_eq.
  - intros q Hq. rewrite lookup_insert_ne, lookup_delete_ne; [done|intros <-; by apply Hq|].
    intros <-. apply Hq. by apply artifact_path_id.
  - intros rc Hrc Heq. destruct (inv_reclaim s HI rc Hrc) as [(_ & _ & Hn & _) _]. congruence.
  - intros todo Ht. destruct (inv_removal s HI todo Ht) as (i & Hrm & Hi). exists i. split_and!; try done.
    intros ->. destruct Hrm as (_ & _ & Hn & _). congruence.
Qed.

Lemma Inv_drop_writer io id s : Inv s -> Inv (drop_writer io id s).
Proof.
  intros HI. unfold drop_writer. destruct (writers s !! id) as [w|] eqn:Hw; [|done].
  pose proof (inv_writer s HI id w Hw) as [Wu Wus Wp Wpt Wf Wsz Wc].
  assert (Hnr : registry s !! id = None).
  { destruct (registry s !! id) as [e|] eqn:E; [|done]. destruct (inv_registered s HI _ _ E). congruence. }
  assert (Hdel : forall s1, Inv s1 -> Inv (set_writers (delete id (writers s1)) s1)).
  { intros s1 [H1 H2 H3 H4 H5 H6].
    assert (Hw0 : forall i, writers s1 !! i = None -> delete id (writers s1) !! i = None).
    { intros i Hi. destruct (decide (id = i)) as [<-|]; [apply lookup_delete_eq|by rewrite lookup_delete_ne]. }
    split; cbn; try done.
    - intros i e He. destruct (H1 i e He) as [? ? ? ? ? ? (c & ? & ? & Hl)]. split; try done; cbn; [by apply Hw0|].
      exists c. split_and!; [done|done|exact Hl].
    - intros i v Hv. apply lookup_delete_Some in Hv as [_ Hv]. by destruct (H2 i v Hv).
    - intros i p c Hg. destruct (H3 i p c Hg) as (? & ? & ? & ?). split_and!; try done. by apply Hw0.
    - intros rc Hrc. destruct (H4 rc Hrc) as [(? & ? & ? & ?) ?]. split; [|done]. split_and!; try done. by apply Hw0.
    - intros todo Ht. destruct (H5 todo Ht) as (i & (? & ? & ? & ?) & ?). exists i. split; [|done].
      split_and!; try done. by apply Hw0. }
  assert (Hdone : Inv (set_writers (delete id (writers s)) (set_files (delete (aw_partial_path w) (files s)) s))).
  { apply (Hdel (set_files (delete (aw_partial_path w) (files s)) s)). apply (Inv_delete _ id); [done|done|]. by rewrite Hnr. }
  unfold remove_file. destruct io; cbn [fst snd].
  - eapply Inv_core; [apply core_drop_option|]. exact Hdone.
  - assert (Hkeep : Inv (set_writers (delete id (writers s)) (set_files (files s) s))).
    { apply (Hdel (set_files (files s) s)). by apply (Inv_core s). }
    destruct (aw_lease w); [|done]. eapply Inv_core; [apply core_retain|]. exact Hkeep.
Qed.

Lemma Inv_save mkdir failure now prefix id content owner s :
  Inv s -> fresh_id id s = true -> Inv (save_artifact mkdir failure now prefix id content owner s).1.
Proof.
  intros HI Hf. destruct (fresh_id_facts id s HI Hf) as (Hu & Hnu & Hr & Hw & Hg).
  unfold save_artifact. destruct mkdir; [|done]. unfold next_artifact_generation.
  destruct (checked_add (next_generation s) 1) as [next|]; cbn [fst]; [|by apply Inv_use_id].
  set (s1 := set_generation next (use_id id s)).
  assert (HI1 : Inv s1) by (apply (Inv_core (use_id id s)); [done|by apply Inv_use_id]).
  set (w := begin_artifact_in_operation _ _ _ _ _ _ _).
  assert (Hpid : path_id (aw_partial_path w) = as_bytes id) by (by apply partial_path_id).
  assert (Hap : artifact_path id (aw_path w)) by apply (artifact_path_join None).
  destruct failure as [[[] partial]|]; cbn [fst].
  - done.
  - apply Inv_files; [done|..].
    + intros i e He _. apply lookup_insert_ne. intros Heq. pose proof (inv_registered s HI i e He) as Hro.
      rewrite Heq, (artifact_path_id i) in Hpid by apply Hro. apply as_bytes_inj in Hpid as ->. cbn in He. congruence.
    + intros i v c Hv Hc. rewrite lookup_insert_ne in Hc; [done|]. intros Heq.
      rewrite Heq, (wk_partial _ _ _ (inv_writer s HI i v Hv)) in Hpid. apply as_bytes_inj in Hpid as ->. cbn in Hv. congruence.
  - set (e := {| ra_owner := owner |}).
    apply (Inv_core (hand_out id (aw_path w) content (set_writers (delete id (writers s1))
      (set_registry (<[id := e]> (registry s1)) (set_files (<[aw_path w := content]> (files s1)) s1))))).
    { unfold core. cbn. by rewrite delete_id. }
    apply (Inv_register id e (aw_path w) content (<[aw_path w := content]> (files s1)) s1); try done.
    + cbn. set_solver.
    + apply lookup_insert_eq.
    + intros q Hq. rewrite lookup_insert_ne; [done|]. intros <-. apply Hq. by apply artifact_path_id.
    + intros rc Hrc Heq. destruct (inv_reclaim s HI rc Hrc) as [(_ & Hin & _) _]. by rewrite Heq in Hin.
    + intros todo Ht. destruct (inv_removal s HI todo Ht) as (i & (? & ? & ? & ?) & Hi).
      exists i. split_and!; try done; [split_and!; try done; cbn; set_solver|]. by intros ->.
Qed.

Lemma pin_count_cons x y l : pin_count x (y :: l) = ((if bool_decide (x = y) then 1 else 0) + pin_count x l)%N.
Proof. unfold pin_count. cbn [List.filter]. destruct (bool_decide (x = y)); cbn [length]; lia. Qed.

Lemma pin_count_remove x y l :
  y ∈ l -> pin_count x l = ((if bool_decide (x = y) then 1 else 0) + pin_count x (remove_pin y l))%N.
Proof.
  induction l as [|z l IH]; [by rewrite elem_of_nil|]. rewrite elem_of_cons. cbn [remove_pin]. intros Hin.
  destruct (bool_decide (y = z)) eqn:E; bool_to_prop.
  - subst z. apply pin_count_cons.
  - rewrite !pin_count_cons, IH by naive_solver. lia.
Qed.

Lemma remove_pin_subset x y l : x ∈ remove_pin y l -> x ∈ l.
Proof.
  induction l as [|z l IH]; cbn [remove_pin]; [done|]. destruct (bool_decide (y = z)); [by right|].
  rewrite !elem_of_cons. naive_solver.
Qed.

(** Changing one entry's pins together with the list of pins. *)
Lemma Inv_pins id e n pins s :
  Inv s -> registry s !! id = Some e ->
  n = pin_count (id, ra_generation e) pins ->
  (forall i g, i <> id -> pin_count (i, g) pins = pin_count (i, g) (read_pins s)) ->
  (forall i g, (i, g) ∈ pins -> i = id /\ g = ra_generation e \/ (i, g) ∈ read_pins s) ->
  (n <> 0%N -> live s e) ->
  (n <> 0%N -> forall rc, reclaiming s = Some rc -> rc_id rc <> id) ->
  Inv (set_pins pins (set_registry (<[id := set_entry_pins n e]> (registry s)) s)).
Proof.
  intros HI He Hn Hother Hsub Hlive Hrc. pose proof HI as [H1 H2 H3 H4 H5 H6]. split; cbn; try done.
  - intros i e'. destruct (decide (id = i)) as [<-|Hd].
    + rewrite lookup_insert_eq. intros [= <-]. destruct (H1 id e He) as [? ? ? ? ? ? (c & ? & ? & Hl)]. split; try done.
      exists c. split_and!; [done|done|]. intros Hlv. apply Hl. destruct Hlv as [Hlv|Hlv]; [by left|]. apply Hlive, Hlv.
    + rewrite lookup_insert_ne by done. intros He'. destruct (H1 i e' He') as [? ? ? ? ? Hc (c & ? & ? & Hl)].
      split; try done; cbn; [rewrite Hother by done; exact Hc|]. exists c. split_and!; [done|done|exact Hl].
  - intros i w Hw. by destruct (H2 i w Hw).
  - intros rc Hc. destruct (H4 rc Hc) as [? Hp]. split; [done|]. intros e'.
    destruct (decide (id = rc_id rc)) as [->|Hd].
    + rewrite lookup_insert_eq. intros [= <-]. destruct (Hp e He) as [? ?]. cbn. split; [done|].
      destruct (decide (n = 0%N)) as [|Hn0]; [done|]. by apply (Hrc Hn0 rc) in Hc.
    + rewrite lookup_insert_ne by done. apply Hp.
  - intros todo Ht. destruct (H5 todo Ht) as (i & ? & Hi). exists i. split; [done|].
    rewrite lookup_insert_ne; [done|]. intros ->. congruence.
  - intros i g Hin. destruct (decide (id = i)) as [<-|Hd].
    + exists (set_entry_pins n e). rewrite lookup_insert_eq. split; [done|]. cbn.
      destruct (Hsub id g Hin) as [[_ ->]|Hin']; [done|]. destruct (H6 _ _ Hin') as (e0 & He0 & <-). congruence.
    + destruct (Hsub i g Hin) as [[-> _]|Hin']; [done|]. rewrite lookup_insert_ne by done. by apply H6.
Qed.

Lemma Inv_pin id requester s : Inv s -> Inv (pin_artifact id requester s).1.
Proof.
  intros HI. unfold pin_artifact. destruct (shutting_down s) eqn:Hs; [done|].
  destruct (registry s !! id) as [e|] eqn:He; [|done].
  destruct (bool_decide (ra_lifecycle e = Readable)) eqn:Hr; [|done]. destruct (bool_decide (ra_owner e = requester)); [|done].
  cbn [negb orb]. unfold checked_add. destruct (_ <? _)%N; [done|]. cbn [fst]. bool_to_prop.
  pose proof (inv_registered s HI id e He) as Hro. apply Inv_pins; try done.
  - rewrite pin_count_cons, bool_decide_eq_true_2 by done. rewrite (ro_count _ _ _ Hro). lia.
  - intros i g Hd. rewrite pin_count_cons, bool_decide_eq_false_2; [done|]. by intros [= -> _].
  - intros i g. rewrite elem_of_cons. intros [[= -> ->]|]; [by left|by right].
  - intros _. by left.
  - intros _ rc Hrc Heq. destruct (inv_reclaim s HI rc Hrc) as [_ Hp]. rewrite Heq in Hp. destruct (Hp e He). congruence.
Qed.

Lemma Inv_unpin id g s : Inv s -> Inv (release_pin id g s).1.
Proof.
  intros HI. unfold release_pin. destruct (bool_decide ((id, g) ∈ read_pins s)) eqn:Hin; cbn [negb fst]; [|done].
  bool_to_prop. destruct (inv_pinned s HI _ _ Hin) as (e & He & Hg).
  pose proof (inv_registered s HI id e He) as Hro. pose proof (live_pinned s id e g HI He Hin) as Hpos.
  cbn [set_pins registry]. rewrite He. rewrite (proj2 (N.eqb_eq _ _) Hg), (proj2 (N.eqb_neq _ _) Hpos). cbn [negb orb fst].
  apply (Inv_core (set_pins (remove_pin (id, g) (read_pins s)) (set_registry (<[id := set_entry_pins (ra_pins e - 1) e]> (registry s)) s))); [done|].
  apply Inv_pins; try done.
  - rewrite (ro_count _ _ _ Hro), (pin_count_remove _ _ _ Hin), Hg, bool_decide_eq_true_2 by done. lia.
  - intros i g' Hd. rewrite (pin_count_remove (i, g') _ _ Hin), bool_decide_eq_false_2; [done|]. by intros [= -> _].
  - intros i g' Hi. right. by eapply remove_pin_subset.
  - intros _. by right.
  - intros _ rc Hrc Heq. destruct (inv_reclaim s HI rc Hrc) as [_ Hp]. rewrite Heq in Hp. by destruct (Hp e He).
Qed.

Lemma refines_pending e : refines e (set_lifecycle PendingDelete e).
Proof. by split. Qed.

Lemma Inv_insert_entry id e e' s :
  Inv s -> registry s !! id = Some e -> refines e e' -> Inv (set_registry (<[id := e']> (registry s)) s).
Proof.
  intros HI He Hr. apply Inv_registry; [done|..].
  - intros i f. destruct (decide (id = i)) as [<-|Hd].
    + rewrite lookup_insert_eq. intros [= <-]. by exists e.
    + rewrite lookup_insert_ne by done. intros Hf. exists f. split; [done|apply refines_refl].
  - intros i f Hf _. destruct (decide (id = i)) as [<-|Hd]; [rewrite lookup_insert_eq|rewrite lookup_insert_ne by done]; by eexists.
Qed.

Lemma Inv_mark p s : Inv s -> Inv (mark_pending p s).1.
Proof.
  intros HI. unfold mark_pending. destruct (find_path p s) as [[id e]|] eqn:Hf; [|done]. cbn [fst].
  apply find_path_spec in Hf as [He _]. apply (Inv_insert_entry id e); [done|done|apply refines_pending].
Qed.

Lemma Inv_removal_start readdir id s :
  Inv s -> Inv (match given_path id s with Some p => start_removal readdir p s | None => s end).
Proof.
  intros HI. unfold given_path. destruct (handed_out s !! id) as [[p c]|] eqn:Hg; cbn [fmap option_fmap option_map fst]; [|done].
  unfold start_removal. destruct (find_path p s) eqn:Hf; [done|].
  destruct (associated_paths readdir p (files s)) as [paths|] eqn:Ha; [|done].
  destruct (inv_given s HI _ _ _ Hg) as (Hu & Hus & Hap & Hw). pose proof HI as [H1 H2 H3 H4 H5 H6].
  split; cbn; try done.
  - intros i e He. destruct (H1 i e He) as [? ? ? ? ? ? (c' & ? & ? & Hl)]. split; try done. exists c'. split_and!; [done|done|exact Hl].
  - intros i w Hi. by destruct (H2 i w Hi).
  - intros todo Ht. apply elem_of_app in Ht as [Ht|Ht]; [by apply H5|]. apply list_elem_of_singleton in Ht as ->.
    exists id. split.
    + split_and!; try done. intros q Hq. by eapply associated_path_id.
    + destruct (registry s !! id) as [e|] eqn:E; [|done]. exfalso.
      destruct (ro_given _ _ _ (H1 id e E)) as (c' & Hc' & _). rewrite Hg in Hc'. injection Hc' as Hp _.
      by apply (find_path_none _ _ _ _ Hf E).
Qed.

Lemma Inv_tasks r x s :
  Inv s ->
  (forall rc, r = Some rc -> removing s (rc_id rc) (rc_todo rc)
     /\ forall e, registry s !! rc_id rc = Some e -> ra_lifecycle e = PendingDelete /\ ra_pins e = 0%N) ->
  (forall todo, todo ∈ x -> exists i, removing s i todo /\ registry s !! i = None) ->
  Inv (set_tasks r x s).
Proof.
  intros [H1 H2 H3 H4 H5 H6] Hr Hx. split; cbn; try done.
  - intros i e He. destruct (H1 i e He) as [? ? ? ? ? ? (c & ? & ? & Hl)]. split; try done. exists c. split_and!; [done|done|exact Hl].
  - intros i w Hi. by destruct (H2 i w Hi).
Qed.

Lemma removing_sub s i todo todo' : removing s i todo -> (forall q, q ∈ todo' -> q ∈ todo) -> removing s i todo'.
Proof. intros (? & ? & ? & Hq) Hs. split_and!; try done. auto. Qed.

Lemma Inv_removal_step n io s : Inv s -> Inv (removal_step n io s).
Proof.
  intros HI. unfold removal_step. destruct (removals s !! n) as [[|p rest]|] eqn:Hn; [done| |done].
  destruct (inv_removal s HI (p :: rest)) as (i & Hrm & Hi); [by eapply list_elem_of_lookup_2|].
  assert (Htasks : forall s1 t, Inv s1 -> removals s1 = removals s -> registry s1 = registry s -> writers s1 = writers s ->
            used_ids s1 = used_ids s -> reclaiming s1 = reclaiming s -> (forall q, q ∈ t -> q ∈ p :: rest) ->
            Inv (set_tasks (reclaiming s) (<[n := t]> (removals s)) s1)).
  { intros s1 t HI1 E1 E2 E3 E4 E5 Ht. apply Inv_tasks; [done|..].
    - intros rc Hrc. rewrite <- E5 in Hrc. by apply (inv_reclaim s1 HI1).
    - intros todo Hin. apply list_elem_of_lookup in Hin as [k Hk]. destruct (decide (n = k)) as [<-|Hd].
      + rewrite list_lookup_insert_eq in Hk by (by eapply lookup_lt_Some). injection Hk as <-.
        exists i. rewrite E2. split; [|done]. destruct (removing_sub _ _ _ t Hrm Ht) as (? & ? & ? & ?).
        split_and!; try done; congruence.
      + rewrite list_lookup_insert_ne in Hk by done. rewrite <- E1 in Hk.
        apply (inv_removal s1 HI1). by eapply list_elem_of_lookup_2. }
  unfold remove_file. destruct io; apply Htasks; try done; cbn.
  - apply (Inv_delete p i); [done| |by rewrite Hi]. destruct Hrm as (_ & _ & _ & Hq). apply Hq. left.
  - intros q Hq. by right.
  - by apply (Inv_core s).
  - intros q Hq. by apply elem_of_nil in Hq.
Qed.

Lemma Inv_reclaim_start readdir id g s : Inv s -> Inv (start_reclaim readdir id g s).
Proof.
  intros HI. unfold start_reclaim. destruct (reclaiming s) eqn:Hrc; [done|].
  unfold reclaimable. destruct (registry s !! id) as [e|] eqn:He; [|done].
  destruct (ra_generation e =? g)%N; cbn [negb orb]; [|done].
  destruct (bool_decide (ra_lifecycle e = PendingDelete)) eqn:Hl; cbn [negb orb]; [|done].
  destruct (ra_pins e =? 0)%N eqn:Hp; cbn [negb]; [|done]. bool_to_prop.
  destruct (associated_paths _ _ _) as [paths|] eqn:Ha; [|done].
  pose proof (inv_registered s HI id e He) as [Hu Hus Hpa Hw _ _ _]. apply Inv_tasks; [done|..].
  - intros rc [= <-]. cbn. split.
    + split_and!; try done. intros q Hq. by eapply associated_path_id.
    + intros e' He'. rewrite He in He'. by injection He' as <-.
  - apply (inv_removal s HI).
Qed.

Lemma Inv_reclaim_step io s : Inv s -> Inv (reclaim_step io s).
Proof.
  intros HI. unfold reclaim_step. destruct (reclaiming s) as [[id g [|p rest]]|] eqn:Hrc; [done| |done].
  destruct (inv_reclaim s HI _ Hrc) as [Hrm Hpe]. cbn in Hrm, Hpe.
  unfold remove_file. destruct io.
  - assert (HI1 : Inv (set_files (delete p (files s)) s)).
    { apply (Inv_delete p id); [done|destruct Hrm as (_ & _ & _ & Hq); apply Hq; left|].
      intros e He [[Hl _]|Hp]; destruct (Hpe e He); congruence. }
    apply Inv_tasks; [done|..]; cbn.
    + intros rc [= <-]. cbn. split; [|done]. eapply removing_sub; [exact Hrm|]. intros q Hq. by right.
    + apply (inv_removal s HI).
  - apply (Inv_tasks _ _ (set_files (files s) s)); [by apply (Inv_core s)|done|apply (inv_removal s HI)].
Qed.

Lemma Inv_unregister id s :
  Inv s -> (forall e, registry s !! id = Some e -> ra_pins e = 0%N) -> Inv (set_registry (delete id (registry s)) s).
Proof.
  intros HI Hp. apply Inv_registry; [done|..].
  - intros i e He. apply lookup_delete_Some in He as [_ He]. exists e. split; [done|apply refines_refl].
  - intros i e He Hpn. rewrite lookup_delete_ne; [by eexists|]. intros ->. by apply Hpn, Hp.
Qed.

Lemma Inv_reclaim_end s : Inv s -> Inv (end_reclaim s).
Proof.
  intros HI. unfold end_reclaim. destruct (reclaiming s) as [[id g [|p rest]]|] eqn:Hrc; [|done..].
  destruct (inv_reclaim s HI _ Hrc) as [Hrm Hpe]. cbn in Hrm, Hpe.
  eapply Inv_core; [apply core_orphans|].
  assert (HI1 : Inv (set_tasks None (removals s) s)) by (apply Inv_tasks; [done|done|apply (inv_removal s HI)]).
  unfold unregister. cbn [set_tasks registry]. destruct (registry s !! id) as [e|] eqn:He; [|done].
  destruct (_ =? _)%N; [|done]. cbn [fst]. eapply Inv_core; [apply core_drop_disk|].
  apply (Inv_unregister id (set_tasks None (removals s) s)); [done|]. cbn. intros e' He'. rewrite He in He'.
  injection He' as <-. by apply Hpe.
Qed.

Lemma Inv_delete_many (f : Path -> bool) qs i s :
  Inv s -> (forall q, q ∈ qs -> path_id q = as_bytes i) -> (forall e, registry s !! i = Some e -> ~ live s e) ->
  Inv (set_files (foldr (fun q fs => if f q then delete q fs else fs) (files s) qs) s).
Proof.
  intros HI Hq Hi. induction qs as [|q qs IH]; cbn [foldr]; [by apply (Inv_core s)|].
  assert (HI' : Inv (set_files (foldr (fun q fs => if f q then delete q fs else fs) (files s) qs) s)).
  { apply IH. intros q' Hq'. apply Hq. by right. }
  destruct (f q); [|done].
  apply (Inv_core (set_files (delete q (files (set_files (foldr (fun q fs => if f q then delete q fs else fs) (files s) qs) s)))
                     (set_files (foldr (fun q fs => if f q then delete q fs else fs) (files s) qs) s))); [done|].
  apply (Inv_delete q i); [done|apply Hq; left|]. intros e He. apply Hi, He.
Qed.

Lemma missing_not_live s id e : Inv s -> registry s !! id = Some e -> exists_ (am_path (ra_metadata e)) (files s) = false -> ~ live s e.
Proof.
  intros HI He Hx Hl. destruct (ro_given _ _ _ (inv_registered s HI id e He)) as (c & _ & _ & Hf).
  unfold exists_ in Hx. bool_to_prop. apply Hx. rewrite (Hf Hl). by eexists.
Qed.

(** One turn of the reconciliation. *)
Lemma Inv_reconcile_entry readdir io id e s :
  Inv s -> registry s !! id = Some e ->
  let '(s1, kept) := reconcile_entry readdir io e s in
  Inv (set_registry (match kept with Some e' => <[id := e']> (registry s1) | None => delete id (registry s1) end) s1)
  /\ registry s1 = registry s.
Proof.
  intros HI He. unfold reconcile_entry. set (p := am_path (ra_metadata e)).
  assert (Hsame : Inv (set_registry (<[id := e]> (registry s)) s)) by (apply (Inv_insert_entry id e); [done|done|apply refines_refl]).
  destruct (exists_ p (files s)) eqn:Hx.
  - destruct (_ && _); [|by split]. destruct (ra_disk e) as [d|]; [|by split].
    assert (Hreg : registry (drop_option (dr_sidecar d) s) = registry s) by (by destruct (dr_sidecar d)). split; [|done].
    rewrite Hreg. eapply (Inv_core (set_registry _ s)).
    { unfold core. destruct (dr_sidecar d); reflexivity. }
    apply (Inv_insert_entry id e); [done|done|by split].
  - pose proof (missing_not_live s id e HI He Hx) as Hnl.
    destruct (associated_paths readdir p (files s)) as [paths|] eqn:Ha; [|by split].
    set (sidecars := List.filter _ paths). set (removed := foldr _ (files s) sidecars).
    pose proof (inv_registered s HI id e He) as Hro.
    assert (HI1 : Inv (set_files removed s)).
    { apply (Inv_delete_many (fun q => bool_decide (io q = IoDone)) sidecars id); [done|..].
      - intros q Hq. apply list_elem_of_In, filter_In in Hq as [Hq _]. apply list_elem_of_In in Hq.
        eapply associated_path_id; [apply Hro|apply Hro|exact Ha|exact Hq].
      - intros e' He'. rewrite He in He'. by injection He' as <-. }
    destruct (forallb _ sidecars).
    + assert (Hreg : registry (drop_disk (ra_disk e) (set_files removed s)) = registry s) by (by destruct (ra_disk e) as [[? []]|]).
      split; [|done]. rewrite Hreg. eapply (Inv_core (set_registry (delete id (registry s)) (set_files removed s))).
      { unfold core. destruct (ra_disk e) as [[? []]|]; reflexivity. }
      apply (Inv_unregister id (set_files removed s)); [done|]. cbn. intros e' He'. rewrite He in He'. injection He' as <-.
      destruct (decide (ra_pins e = 0%N)) as [|Hp]; [done|]. exfalso. apply Hnl. by right.
    + split; [|done]. cbn. apply (Inv_insert_entry id e e (set_files removed s)); [done|done|apply refines_refl].
Qed.

Lemma Inv_reconcile_loop readdir io entries s :
  Inv s -> NoDup (map fst entries) -> (forall id e, (id, e) ∈ entries -> registry s !! id = Some e) ->
  Inv (reconcile_loop readdir io entries s).
Proof.
  revert s; induction entries as [|[id e] entries IH]; intros s HI Hnd Hin; cbn [reconcile_loop]; [done|].
  cbn [map fst] in Hnd. apply NoDup_cons in Hnd as [Hni Hnd].
  pose proof (Inv_reconcile_entry readdir io id e s HI (Hin id e ltac:(left))) as Hstep.
  destruct (reconcile_entry readdir io e s) as [s1 kept]. destruct Hstep as [HI1 Hreg].
  apply IH; [done|done|]. intros i f Hf. assert (Hne : id <> i).
  { intros ->. apply Hni. apply list_elem_of_fmap. by exists (i, f). }
  cbn. rewrite Hreg. destruct kept; [rewrite lookup_insert_ne by done|rewrite lookup_delete_ne by done]; apply Hin; by right.
Qed.

Lemma Inv_reconcile readdir io s : Inv s -> Inv (reconcile_missing_artifacts readdir io s).
Proof.
  intros HI. eapply Inv_core; [apply core_orphans|]. apply Inv_reconcile_loop; [done|apply NoDup_fst_map_to_list|].
  intros id e. by rewrite elem_of_map_to_list.
Qed.

Lemma Inv_sweep now retention s : Inv s -> Inv (sweep_mark now retention s).1.
Proof.
  intros HI. unfold sweep_mark. cbn [fst]. generalize (sweep_order now retention s) as chosen. intros chosen.
  induction chosen as [|c chosen IH]; cbn [foldr]; [by apply (Inv_core s)|].
  set (m := foldr _ (registry s) chosen) in *.
  apply (Inv_core (set_registry (alter (set_lifecycle PendingDelete) c.1.2 (registry (set_registry m s))) (set_registry m s))); [done|].
  apply Inv_update; [done|]. intros e _. apply refines_pending.
Qed.

Lemma Inv_retain now id s : Inv s -> Inv (retain_download now id s).
Proof. intros HI. apply Inv_update; [done|]. by split. Qed.

Lemma Inv_shutdown s : Inv s -> Inv (set_shutting_down true s).
Proof.
  intros [H1 H2 H3 H4 H5 H6]. split; cbn; try done.
  - intros i e He. destruct (H1 i e He) as [? ? ? ? ? ? (c & ? & ? & Hl)]. split; try done. exists c. split_and!; [done|done|].
    intros [[_ Hs]|Hp]; [done|]. apply Hl. by right.
  - intros i w Hi. by destruct (H2 i w Hi).
Qed.

Lemma Inv_mark_all s : Inv s -> Inv (mark_all s).
Proof.
  intros HI. apply Inv_registry; [done|..].
  - intros id e'. rewrite lookup_fmap. destruct (registry s !! id) as [e|] eqn:He; [|done]. cbn. intros [= <-].
    exists e. split; [done|apply refines_pending].
  - intros id e He _. rewrite lookup_fmap, He. by eexists.
Qed.

Lemma active_pins_zero s id e : active_pin_count s = 0%N -> registry s !! id = Some e -> ra_pins e = 0%N.
Proof.
  unfold active_pin_count. intros Hz He. apply elem_of_map_to_list in He. revert Hz He.
  generalize (map_to_list (registry s)) as l. intros l.
  assert (Hgen : forall t, foldr (fun kv acc => acc ≫= fun t => checked_add t (ra_pins kv.2)) (Some 0%N) l = Some t ->
            forall id e, (id, e) ∈ l -> (ra_pins e <= t)%N).
  { induction l as [|[i f] l IH]; cbn [foldr]; intros t; [intros _ ? ? Hin; by apply elem_of_nil in Hin|].
    destruct (foldr _ (Some 0%N) l) as [t0|]; cbn [mbind option_bind]; [|done].
    unfold checked_add. destruct (_ <? _)%N; [done|]. intros [= <-] id' e' Hin. apply elem_of_cons in Hin as [[= -> ->]|Hin].
    - cbn. lia.
    - pose proof (IH t0 eq_refl id' e' Hin). cbn. lia. }
  destruct (foldr _ (Some 0%N) l) as [t|]; [|done].
  change (default U64_MAX (Some t)) with t. intros -> Hin. pose proof (Hgen 0%N eq_refl id e Hin). lia.
Qed.

Lemma no_pins s : Inv s -> active_pin_count s = 0%N -> read_pins s = [].
Proof.
  intros HI Hz. destruct (read_pins s) as [|[id g] l] eqn:E; [done|]. exfalso.
  destruct (inv_pinned s HI id g) as (e & He & _); [rewrite E; left|].
  apply (live_pinned s id e g HI He); [rewrite E; left|]. by eapply active_pins_zero.
Qed.

Lemma core_drop_all (l : list (string * RegisteredArtifact)) s :
  core (foldr (fun kv s => drop_disk (ra_disk kv.2) s) s l) = core s.
Proof. induction l as [|kv l IH]; cbn [foldr]; [done|]. by rewrite core_drop_disk. Qed.

Lemma Inv_cleanup readdir io s : Inv s -> shutting_down s = true -> Inv (cleanup_current_session readdir io s).
Proof.
  intros HI Hs. unfold cleanup_current_session. destruct (active_pin_count s =? 0)%N eqn:Hz; cbn [negb]; [|by apply Inv_reconcile].
  bool_to_prop. unfold remove_dir_all. set (fs := filter _ (files s)). set (cleaned := bool_decide _).
  assert (HI1 : Inv (set_files fs s)).
  { apply Inv_files; [done|..].
    - intros id e He [[_ Hf]|Hp]; [congruence|]. by rewrite (active_pins_zero s id e) in Hp.
    - intros id w c _ Hc. by apply map_lookup_filter_Some in Hc as [Hc _]. }
  destruct cleaned; [|by apply Inv_reconcile].
  set (s2 := foldr _ (set_files fs s) _).
  assert (HI2 : Inv s2) by (eapply Inv_core; [apply core_drop_all|done]).
  apply (Inv_core (set_registry ∅ s2)); [done|].
  assert (Hp2 : read_pins s2 = []).
  { pose proof (core_drop_all (map_to_list (registry (set_files fs s))) (set_files fs s)) as Hc. fold s2 in Hc.
    unfold core in Hc. injection Hc as _ _ _ _ Hrp _ _ _ _. rewrite Hrp. cbn. by apply no_pins. }
  apply Inv_registry; [done|..].
  - intros id e'. by rewrite lookup_empty.
  - intros id e He Hp. exfalso. apply Hp. rewrite (ro_count _ _ _ (inv_registered s2 HI2 id e He)), Hp2. done.
Qed.

(** What this code does not control: nobody else deletes the file of a live
    artifact, and an operation's directory is removed only when none of its
    artifacts is live. *)
Definition benign (s : Store) (e : Event) : Prop :=
  match e with
  | ERemoveDir io operation =>
      forall id a, registry s !! id = Some a -> live s a -> in_dir (join session_dir operation) (am_path (ra_metadata a)) = false
  | EExternal p => forall id a, registry s !! id = Some a -> live s a -> am_path (ra_metadata a) <> p
  | _ => True
  end.

Lemma Inv_apply limit e s : Inv s -> benign s e -> Inv (apply limit e s).
Proof.
  intros HI Hb. destruct e; cbn [apply].
  - destruct (fresh_id id s) eqn:Hf; [by apply Inv_begin|done].
  - by apply Inv_quota.
  - by apply Inv_write.
  - by apply Inv_commit.
  - by apply Inv_drop_writer.
  - destruct (fresh_id id s) eqn:Hf; [by apply Inv_save|done].
  - by apply Inv_pin.
  - by apply Inv_unpin.
  - destruct (given_path id s); [by apply Inv_mark|done].
  - by apply Inv_removal_start.
  - by apply Inv_removal_step.
  - by apply Inv_reclaim_start.
  - by apply Inv_reclaim_step.
  - by apply Inv_reclaim_end.
  - by apply Inv_reconcile.
  - by apply Inv_sweep.
  - by apply Inv_retain.
  - by apply Inv_shutdown.
  - by apply Inv_mark_all.
  - destruct (shutting_down s) eqn:Hs; [by apply Inv_cleanup|done].
  - cbn in Hb. apply Inv_files; [done|..].
    + intros id a Ha Hl. cbn. pose proof (Hb id a Ha Hl) as Hd. destruct (files s !! am_path (ra_metadata a)) as [c|] eqn:E.
      * apply map_lookup_filter_Some. split; [done|]. by left.
      * apply map_lookup_filter_None. by left.
    + intros id w c _ Hc. cbn in Hc. by apply map_lookup_filter_Some in Hc as [Hc _].
  - cbn in Hb. apply Inv_files; [done|..].
    + intros id a Ha Hl. apply lookup_delete_ne. intros ->. by apply (Hb id a Ha Hl).
    + intros id w c _ Hc. by apply lookup_delete_Some in Hc as [_ Hc].
Qed.

Fixpoint benign_run (limit : N) (s : Store) (es : list Event) : Prop :=
  match es with
  | [] => True
  | e :: rest => benign s e /\ benign_run limit (apply limit e s) rest
  end.

Lemma Inv_new : Inv store_new.
Proof. split; cbn; intros; try done; rewrite ?lookup_empty in *; try done. all: by apply elem_of_nil in H. Qed.

Lemma Inv_run limit es s : Inv s -> benign_run limit s es -> Inv (run limit es s).
Proof.
  revert s; induction es as [|e es IH]; intros s HI Hb; cbn [run fold_left]; [done|].
  destruct Hb as [Hb Hbs]. apply IH; [by apply Inv_apply|done].
Qed.

(** ** The functions the program calls, when nothing else runs meanwhile *)

Section Sequential.
(** Which deletions fail, and whether the directory can be read. *)
Variable io : Path -> Io.
Variable readdir : Io.

(** [remove_associated_files], stopping at the first failure. *)
Fixpoint remove_files (paths : list Path) (fs : gmap Path (list byte)) : gmap Path (list byte) * result unit IoError :=
  match paths with
  | [] => (fs, Ok tt)
  | p :: rest =>
      match remove_file (io p) p fs with
      | (fs', Ok _) => remove_files rest fs'
      | (fs', Err e) => (fs', Err e)
      end
  end.

Definition reclaim_pending_artifact (id : string) (generation : N) (s : Store) : Store * result bool IoError :=
  match reclaimable id generation s with
  | None => (s, Ok false)
  | Some p =>
      match associated_paths readdir p (files s) with
      | Err e => (s, Err e)
      | Ok paths =>
          let '(fs, r) := remove_files paths (files s) in
          let s1 := set_files fs s in
          match r with
          | Err e => (s1, Err e)
          | Ok _ =>
              match unregister id generation s1 with
              | (s2, true) => (reconcile_orphaned_reservations s2, Ok true)
              | (s2, false) => (s2, Err (IoOther "artifact registry generation changed during reclamation"))
              end
          end
      end
  end.

Definition remove_artifact (p : Path) (s : Store) : Store * result unit IoError :=
  match mark_pending p s with
  | (s1, Some (id, generation, pins)) =>
      if (pins =? 0)%N
      then match reclaim_pending_artifact id generation s1 with
           | (s2, Ok _) => (s2, Ok tt)
           | (s2, Err e) => (s2, Err e)
           end
      else (s1, Ok tt)
  | (s1, None) =>
      match associated_paths readdir p (files s1) with
      | Err e => (s1, Err e)
      | Ok paths =>
          let '(fs, r) := remove_files paths (files s1) in
          match r with
          | Err e => (set_files fs s1, Err e)
          | Ok _ => (reconcile_orphaned_reservations (set_files fs s1), Ok tt)
          end
      end
  end.

Record ReclamationReport := { attempted : nat; removed : nat; failed : nat }.

(** The candidates of a sweep, one after another. *)
Fixpoint sweep_loop (candidates : list (N * string * N)) (report : ReclamationReport) (s : Store) : Store * ReclamationReport :=
  match candidates with
  | [] => (s, report)
  | c :: rest =>
      if is_some_and (registry s !! c.1.2) (fun e => negb (ra_pins e =? 0)%N) then sweep_loop rest report s
      else
        let '(s1, r) := reclaim_pending_artifact c.1.2 c.2 s in
        sweep_loop rest
          {| attempted := S (attempted report);
             removed := match r with Ok true => S (removed report) | _ => removed report end;
             failed := match r with Err _ => S (failed report) | _ => failed report end |} s1
  end.

Definition sweep_expired_at (now retention : N) (s : Store) : Store * ReclamationReport :=
  let '(s1, chosen) := sweep_mark now retention s in
  sweep_loop chosen {| attempted := 0; removed := 0; failed := 0 |} s1.

(** [ArtifactOperation::cleanup]. *)
Fixpoint remove_artifacts (paths : list Path) (first_error : option IoError) (s : Store) : Store * option IoError :=
  match paths with
  | [] => (s, first_error)
  | p :: rest =>
      match remove_artifact p s with
      | (s1, Ok _) => remove_artifacts rest first_error s1
      | (s1, Err e) => remove_artifacts rest (Some (default e first_error)) s1
      end
  end.

Definition operation_cleanup (operation : string) (s : Store) : Store * result unit IoError :=
  let dir := join session_dir operation in
  let paths := List.filter (in_dir dir) (map (fun kv => am_path (ra_metadata kv.2)) (map_to_list (registry s))) in
  match remove_artifacts paths None s with
  | (s1, Some e) => (s1, Err e)
  | (s1, None) =>
      let '(fs, cleaned) := remove_dir_all io dir (files s1) in
      (set_files fs s1, if cleaned then Ok tt else Err IoSystem)
  end.
End Sequential.

(** A sequential reclamation is one of the interleavings. *)
Lemma remove_files_run io limit id g paths s :
  reclaiming s = Some {| rc_id := id; rc_generation := g; rc_todo := paths |} ->
  exists es, run limit es s
    = match remove_files io paths (files s) with
      | (fs, Ok _) => set_tasks (Some {| rc_id := id; rc_generation := g; rc_todo := [] |}) (removals s) (set_files fs s)
      | (fs, Err _) => set_tasks None (removals s) (set_files fs s)
      end.
Proof.
  revert s; induction paths as [|p paths IH]; intros s Hr; cbn [remove_files].
  - exists []. cbn. destruct s. cbn in *. by rewrite Hr.
  - destruct (io p) eqn:Hio; cbn [remove_file].
    + destruct (IH (set_tasks (Some {| rc_id := id; rc_generation := g; rc_todo := paths |}) (removals s)
                      (set_files (delete p (files s)) s))) as [es Hes]; [done|].
      exists (EReclaimStep IoDone :: es). cbn [run fold_left apply]. unfold reclaim_step. rewrite Hr. exact Hes.
    + exists [EReclaimStep IoFailed]. cbn [run fold_left apply]. unfold reclaim_step. by rewrite Hr.
Qed.

Lemma reclaim_is_run io readdir limit id g s :
  reclaiming s = None -> exists es, run limit es s = (reclaim_pending_artifact io readdir id g s).1.
Proof.
  intros Hr. unfold reclaim_pending_artifact. destruct (reclaimable id g s) as [p|] eqn:Hp; [|by exists []].
  destruct (associated_paths readdir p (files s)) as [paths|] eqn:Ha; [|by exists []].
  set (s0 := set_tasks (Some {| rc_id := id; rc_generation := g; rc_todo := paths |}) (removals s) s).
  destruct (remove_files_run io limit id g paths s0 eq_refl) as [es Hes]. cbn [s0 set_tasks files removals] in Hes.
  assert (Hstart : apply limit (EReclaim readdir id g) s = s0) by (cbn; unfold start_reclaim; by rewrite Hr, Hp, Ha).
  assert (Hback : forall fs, set_tasks None (removals s) (set_files fs s0) = set_files fs s).
  { intros fs. unfold s0, set_tasks, set_files. destruct s. cbn in *. by subst. }
  destruct (remove_files io paths (files s)) as [fs [[]|e]].
  - exists (EReclaim readdir id g :: es ++ [EReclaimEnd]). unfold run. cbn [fold_left]. rewrite Hstart, fold_left_app.
    fold (run limit es s0). rewrite Hes. cbn [fold_left apply]. unfold end_reclaim. cbn [set_tasks reclaiming removals].
    change (set_tasks None (removals s) ?x) with (set_tasks None (removals s) (set_files fs s0)). rewrite Hback.
    unfold unregister. cbn [set_files registry]. unfold reclaimable in Hp.
    destruct (registry s !! id) as [e|]; [|done]. destruct (ra_generation e =? g)%N; [done|done].
  - exists (EReclaim readdir id g :: es). unfold run. cbn [fold_left]. rewrite Hstart. fold (run limit es s0). rewrite Hes. apply Hback.
Qed.

(** ** The theorems *)

(** C22: A pin protects its artifact.  Through any interleaving of writers, commits,
    removals, sweeps, reclamations, reconciliation and shutdown, with any
    failures: while a pin is held its artifact stays registered in the same
    generation and its file holds exactly the bytes that were committed; a pin
    is given only to the owner, of a file of the announced size; and for
    anyone else the answer is the one for an artifact that does not exist. *)
Theorem artifact_pins_protect limit es (Hbenign : benign_run limit store_new es) :
  let s := run limit es store_new in
  (forall id g, (id, g) ∈ read_pins s ->
     exists e c, registry s !! id = Some e /\ ra_generation e = g
       /\ handed_out s !! id = Some (am_path (ra_metadata e), c)
       /\ files s !! am_path (ra_metadata e) = Some c)
  /\ (forall id requester s' pin, pin_artifact id requester s = (s', Some pin) ->
     exists e c, registry s !! id = Some e /\ ra_owner e = requester /\ pin_metadata pin = ra_metadata e
       /\ am_owner (pin_metadata pin) = requester
       /\ files s !! am_path (pin_metadata pin) = Some c /\ am_size (pin_metadata pin) = N.of_nat (length c))
  /\ (forall id requester e, registry s !! id = Some e -> ra_owner e <> requester ->
     pin_artifact id requester s = (s, None)).
Proof.
  cbn zeta. pose proof (Inv_run limit es store_new Inv_new Hbenign) as HI. set (s := run limit es store_new) in *. split_and!.
  - intros id g Hin. destruct (inv_pinned s HI id g Hin) as (e & He & Hg).
    destruct (ro_given _ _ _ (inv_registered s HI id e He)) as (c & Hc & _ & Hl).
    exists e, c. split_and!; try done. apply Hl. right. by eapply live_pinned.
  - intros id requester s' pin. unfold pin_artifact. destruct (shutting_down s) eqn:Hs; [done|].
    destruct (registry s !! id) as [e|] eqn:He; [|done].
    destruct (bool_decide (ra_lifecycle e = Readable)) eqn:Hr; [|done].
    destruct (bool_decide (ra_owner e = requester)) eqn:Ho; [|done]. cbn [negb orb].
    destruct (checked_add (ra_pins e) 1); [|done]. intros [= _ <-]. bool_to_prop.
    pose proof (inv_registered s HI id e He) as Hro. destruct (ro_given _ _ _ Hro) as (c & _ & Hsz & Hl).
    exists e, c. cbn. split_and!; try done; [by rewrite (ro_owner _ _ _ Hro)|]. apply Hl. by left.
  - intros id requester e He Ho. unfold pin_artifact. destruct (shutting_down s); [done|]. rewrite He.
    rewrite (bool_decide_eq_false_2 (ra_owner e = requester)) by done. by rewrite orb_true_r.
Qed.

(** Paths identify artifacts. *)
Lemma find_path_registered s id e :
  Inv s -> registry s !! id = Some e -> find_path (am_path (ra_metadata e)) s = Some (id, e).
Proof.
  intros HI He. destruct (find_path (am_path (ra_metadata e)) s) as [[i f]|] eqn:Hf.
  - apply find_path_spec in Hf as [Hi Hp].
    pose proof (inv_registered s HI i f Hi) as H1. pose proof (inv_registered s HI id e He) as H2.
    assert (i = id) as ->.
    { apply as_bytes_inj. rewrite <- (artifact_path_id i (am_path (ra_metadata f))) by apply H1.
      rewrite Hp. apply artifact_path_id; apply H2. }
    rewrite He in Hi. by injection Hi as ->.
  - exfalso. by apply (find_path_none _ _ _ _ Hf He).
Qed.

Lemma remove_files_ok io paths fs fs' r p :
  remove_files io paths fs = (fs', r) -> r = Ok tt -> (fs !! p = None \/ p ∈ paths) -> fs' !! p = None.
Proof.
  revert fs; induction paths as [|q paths IH]; intros fs; cbn [remove_files].
  - intros [= <- <-] _ [Hp|Hp]; [done|]. by apply elem_of_nil in Hp.
  - destruct (io q); cbn [remove_file]; [|by intros [= <- <-]]. intros Hr Hok Hp. apply (IH _ Hr Hok).
    destruct (decide (q = p)) as [->|Hne]; [left; apply lookup_delete_eq|].
    rewrite lookup_delete_ne by done. destruct Hp as [Hp|Hp]; [by left|]. right.
    apply elem_of_cons in Hp as [->|Hp]; done.
Qed.

Lemma pin_refused_pending id requester s :
  match registry s !! id with Some e => ra_lifecycle e = PendingDelete | None => True end ->
  (pin_artifact id requester s).2 = None.
Proof.
  intros Hl. unfold pin_artifact. destruct (shutting_down s); [done|]. destruct (registry s !! id) as [e|]; [|done].
  by rewrite (bool_decide_eq_false_2 (ra_lifecycle e = Readable)) by congruence.
Qed.

Lemma core_fields s s' : core s' = core s -> files s' = files s /\ registry s' = registry s.
Proof. unfold core. intros [= -> -> _ _ _ _ _ _ _]. done. Qed.

Lemma associated_self readdir p fs paths : associated_paths readdir p fs = Ok paths -> p ∈ paths.
Proof.
  unfold associated_paths. destruct p as [|c p]; [intros [= <-]; left|]. destruct (io_result readdir); [|done].
  intros [= <-]. rewrite elem_of_remove_dups, merge_sort_Permutation. left.
Qed.

(** Removal, in every case.  After [remove_artifact] nobody can pin the
    artifact any more.  With readers on it, it succeeds and touches no file;
    without, success means that the entry and its file are gone, and failure
    leaves the entry pending with its disk reservation, to be tried again. *)
Theorem artifact_removal_outcomes limit es io readdir id e
  (Hbenign : benign_run limit store_new es)
  (Hreg : registry (run limit es store_new) !! id = Some e) :
  let s := run limit es store_new in
  let '(s', r) := remove_artifact io readdir (am_path (ra_metadata e)) s in
  (forall requester, (pin_artifact id requester s').2 = None)
  /\ (ra_pins e <> 0%N -> r = Ok tt /\ files s' = files s)
  /\ (ra_pins e = 0%N -> r = Ok tt -> registry s' !! id = None /\ files s' !! am_path (ra_metadata e) = None)
  /\ (r <> Ok tt -> leases s' = leases s
      /\ exists e', registry s' !! id = Some e' /\ ra_lifecycle e' = PendingDelete /\ ra_disk e' = ra_disk e).
Proof.
  cbn zeta. pose proof (Inv_run limit es store_new Inv_new Hbenign) as HI. set (s := run limit es store_new) in *.
  set (p := am_path (ra_metadata e)). unfold remove_artifact, mark_pending. unfold p.
  rewrite (find_path_registered s id e HI Hreg). set (e1 := set_lifecycle PendingDelete e).
  set (s1 := set_registry (<[id := e1]> (registry s)) s).
  assert (He1 : registry s1 !! id = Some e1) by apply lookup_insert_eq.
  assert (Hpend : forall s2, registry s2 = registry s1 -> forall requester, (pin_artifact id requester s2).2 = None).
  { intros s2 Hs2 requester. apply pin_refused_pending. by rewrite Hs2, He1. }
  destruct (N.eqb_spec (ra_pins e) 0) as [Hz|Hz]; [|split_and!; [by apply Hpend|done|done|done]].
  unfold reclaim_pending_artifact, reclaimable. rewrite He1. cbn [e1 set_lifecycle ra_generation ra_lifecycle ra_pins ra_metadata].
  rewrite N.eqb_refl, bool_decide_eq_true_2, (proj2 (N.eqb_eq _ _) Hz) by done. cbn [negb orb].
  assert (Hfail : forall fs (x : result unit IoError), x <> Ok tt -> (forall requester, (pin_artifact id requester (set_files fs s1)).2 = None)
    /\ (ra_pins e <> 0%N -> x = Ok tt /\ fs = files s)
    /\ (ra_pins e = 0%N -> x = Ok tt -> registry (set_files fs s1) !! id = None /\ fs !! p = None)
    /\ (x <> Ok tt -> leases (set_files fs s1) = leases s
        /\ exists e', registry (set_files fs s1) !! id = Some e' /\ ra_lifecycle e' = PendingDelete /\ ra_disk e' = ra_disk e)).
  { intros fs x Hx. split_and!; [by apply Hpend|done|done|]. intros _. split; [done|]. by exists e1. }
  destruct (associated_paths readdir _ _) as [paths|err] eqn:Ha.
  2: { pose proof (Hfail (files s1) (Err err) ltac:(done)) as Hf. destruct s1. exact Hf. }
  destruct (remove_files io paths (files s1)) as [fs [[]|err]] eqn:Hrf; [|by apply Hfail].
  unfold unregister. cbn [set_files registry]. rewrite He1. cbn [e1 set_lifecycle ra_generation ra_disk]. rewrite N.eqb_refl.
  match goal with |- context [reconcile_orphaned_reservations ?x] =>
    destruct (core_fields _ _ (core_orphans x)) as [Hcf Hcr]; rewrite Hcf, Hcr; destruct (core_fields (set_registry (delete id (registry s1)) (set_files fs s1)) x (core_drop_disk _ _)) as [Hdf Hdr]; rewrite Hdf, Hdr end.
  split_and!; [|done| |done].
  - intros requester. apply pin_refused_pending. rewrite Hcr, Hdr. cbn. by rewrite lookup_delete_eq.
  - intros _ _. cbn. split; [apply lookup_delete_eq|]. eapply remove_files_ok; [exact Hrf|done|]. right. by eapply associated_self.
Qed.

Module ArtifactWitness.

Definition id : string := "0f8fad5b-d9cb-469f-a165-70867728950e".

(** An artifact of two chunks, committed in an operation and pinned. *)
Definition pinned : list Event :=
  [EBegin IoDone IoDone (Some "op") "logs" "txt" "text/plain" 100 id OwnerLocal; EQuota id;
   EWrite true WriteDone id (as_bytes "ab"); EWrite true WriteDone id (as_bytes "c");
   ECommit IoDone IoDone 5 id; EPin id OwnerLocal].

Definition path : Path := join (join session_dir "op") ("logs-" ++ id ++ ".txt").

Lemma artifact_pins_protect_witness :
  benign_run 100 store_new (pinned ++ [EMark id; EReclaim IoDone id 1; EReclaimStep IoDone; EReclaimEnd; EReconcile IoDone (fun _ => IoDone)])
  /\ files (run 100 (pinned ++ [EMark id; EReclaim IoDone id 1; EReclaimStep IoDone; EReclaimEnd; EReconcile IoDone (fun _ => IoDone)])
             store_new) !! path = Some (as_bytes "abc").
Proof.
  assert (Hb : benign_run 100 store_new
    (pinned ++ [EMark id; EReclaim IoDone id 1; EReclaimStep IoDone; EReclaimEnd; EReconcile IoDone (fun _ => IoDone)])) by (cbn; tauto).
  split; [exact Hb|].
  destruct (artifact_pins_protect 100 _ Hb) as [Hp _].
  destruct (Hp id 1%N) as (e & c & He & _ & Hh & Hf).
  { vm_compute. left. }
  assert (Hc : handed_out (run 100 (pinned ++ [EMark id; EReclaim IoDone id 1; EReclaimStep IoDone; EReclaimEnd;
      EReconcile IoDone (fun _ => IoDone)]) store_new) !! id = Some (path, as_bytes "abc")) by (vm_compute; reflexivity).
  rewrite Hc in Hh. injection Hh as Hp1 Hc1. rewrite <- Hp1, <- Hc1 in Hf. exact Hf.
Defined.

Definition the_entry : RegisteredArtifact :=
  default {| ra_metadata := writer_metadata (begin_artifact_in_operation [] "" "" "" 0 "" OwnerLocal); ra_disk := None;
             ra_generation := 0; ra_committed_at := 0; ra_lifecycle := PendingDelete; ra_pins := 0;
             ra_retention_eligible := false; ra_owner := OwnerLocal |}
    (registry (run 100 (pinned ++ [EUnpin id 1]) store_new) !! id).

Lemma artifact_removal_outcomes_witness :
  registry (run 100 (pinned ++ [EUnpin id 1]) store_new) !! id = Some the_entry
  /\ registry (remove_artifact (fun _ => IoDone) IoDone path (run 100 (pinned ++ [EUnpin id 1]) store_new)).1 !! id = None.
Proof.
  assert (Hr : registry (run 100 (pinned ++ [EUnpin id 1]) store_new) !! id = Some the_entry) by (vm_compute; reflexivity).
  split; [exact Hr|].
  assert (Hb : benign_run 100 store_new (pinned ++ [EUnpin id 1])) by (cbn; tauto).
  pose proof (artifact_removal_outcomes 100 _ (fun _ => IoDone) IoDone id the_entry Hb Hr) as Ho. cbn zeta in Ho.
  assert (Hp : am_path (ra_metadata the_entry) = path) by (vm_compute; reflexivity).
  rewrite Hp in Ho.
  destruct (remove_artifact (fun _ => IoDone) IoDone path (run 100 (pinned ++ [EUnpin id 1]) store_new)) as [s' r] eqn:E.
  destruct Ho as (_ & _ & Hok & _). apply Hok; [vm_compute; reflexivity|].
  apply (f_equal snd) in E. cbn [snd] in E. rewrite <- E. vm_compute. reflexivity.
Defined.
End ArtifactWitness.

(** The directory of an operation is removed with the artifacts in it, pinned
    ones included: [cleanup] asks [remove_artifact] for each, which for a
    pinned one answers that deletion is deferred, and then removes the
    directory. *)
Theorem operation_cleanup_deletes_pinned :
  let s := run 100 ArtifactWitness.pinned store_new in
  let '(s', r) := operation_cleanup (fun _ => IoDone) IoDone "op" s in
  (ArtifactWitness.id, 1%N) ∈ read_pins s'
  /\ r = Ok tt /\ files s !! ArtifactWitness.path = Some (as_bytes "abc") /\ files s' !! ArtifactWitness.path = None.
Proof. vm_compute. split_and!; [left|reflexivity..]. Qed.
