(* ===== verification/Downloads.v ===== *)
(** * Handing artifacts out (src/src/server/http.rs, src/src/tools/artifact.rs)

    The two ways bytes leave the artifact store: [download_artifact], an HTTP
    response that streams a whole file or one range of it while it holds a pin,
    and [read_artifact_chunk] behind the [artifact_read] tool, which returns
    one chunk and where the next begins.  Also the administrator's view of the
    store ([LocalArtifactStore]), an instance of the interface [Admin] works
    against. *)
From S2P Require Import Prelude RustStr Json PolicyTypes Signing Scope ResponseCache Session Admin Writer Ingestion Artifacts.

(** ** Ranges *)

Definition comma : byte := byte_of 44.
Definition dash : byte := byte_of 45.

Definition parse_range (value : string) (size : N) : option (N * N) :=
  strip_prefix_bytes (as_bytes "bytes=") (as_bytes value) ≫= fun range =>
  if existsb (fun b => beqb b comma) range || (size =? 0)%N then None
  else split_once_bytes dash range ≫= fun '(start, end_) =>
    match start with
    | [] =>
        parse_u64_bytes end_ ≫= fun n =>
        let suffix := N.min n size in
        if (0 <? suffix)%N then Some (size - suffix, size - 1)%N else None
    | _ =>
        parse_u64_bytes start ≫= fun first =>
        if (size <=? first)%N then None
        else (match end_ with
              | [] => Some (size - 1)%N
              | _ => (fun e => N.min e (size - 1)) <$> parse_u64_bytes end_
              end) ≫= fun last_ =>
             if (first <=? last_)%N then Some (first, last_) else None
    end.

(** ** Downloading *)

(** What a download streams: the file, from where, and how much. *)
Record Streaming := { st_path : Path; st_start : N; st_length : N }.

Inductive Download :=
| Refused (response : HttpResponse)
| Streams (response : HttpResponse) (pin : ArtifactReadPin) (body : Streaming).

Definition plain (status : N) (body : string) : HttpResponse :=
  {| rp_status := status; rp_headers := [("content-type", "text/plain; charset=utf-8")]; rp_body := body |}.

Definition render (n : N) : string := of_bytes (render_u64 n).

(** What [HeaderValue] accepts: no control character but the tab.  A response
    built with any other value is an error, answered with a 500. *)
Definition header_value_valid (value : string) : bool :=
  forallb (fun b => ((32 <=? code b) && negb (code b =? 127) || (code b =? 9))%N) (as_bytes value).

(** The range in force: the header's, unless [If-Range] names another version. *)
Definition effective_range (headers : HeaderMap) (etag : string) : option string :=
  match header_get headers "range" ≫= header_to_str with
  | Some value =>
      if is_none_or (header_get headers "if-range" ≫= header_to_str) (fun v => String.eqb v etag) then Some value else None
  | None => None
  end.

(** [download_artifact]; [open] and [seek] are what the system calls answer.
    Dropping the pin on a refusal is the last thing that happens. *)
Definition download_artifact (open seek : Io) (id : string) (request : HttpRequest) (s : Store) : Store * Download :=
  match pin_artifact id (requester_of request) s with
  | (s1, None) => (s1, Refused (plain 404 "Artifact not found or expired"))
  | (s1, Some pin) =>
      let a := pin_metadata pin in
      let unpinned := (release_pin id (pin_generation pin) s1).1 in
      let effective := effective_range (rq_headers request) (am_etag a) in
      match (fun value => parse_range value (am_size a)) <$> effective with
      | Some None =>
          (unpinned, Refused {| rp_status := 416; rp_headers := [("content-range", "bytes */" ++ render (am_size a))%string];
                                rp_body := "" |})
      | found =>
          let '(start, end_) := match found with Some (Some range) => range | _ => (0%N, (am_size a - 1)%N) end in
          let length := if (am_size a =? 0)%N then 0%N else (end_ - start + 1)%N in
          match open, files s1 !! am_path a with
          | IoDone, Some _ =>
              match seek with
              | IoFailed => (unpinned, Refused {| rp_status := 500; rp_headers := []; rp_body := "" |})
              | IoDone =>
                  let status := match effective with Some _ => 206%N | None => 200%N end in
                  let headers :=
                    [("content-type", am_content_type a); ("content-length", render length);
                     ("accept-ranges", "bytes"); ("etag", am_etag a);
                     ("content-disposition",
                      of_bytes (as_bytes "attachment; filename=" ++ byte_of 34 :: as_bytes (am_filename a) ++ [byte_of 34]))]
                    ++ (if (status =? 206)%N
                        then [("content-range", "bytes " ++ render start ++ "-" ++ render end_ ++ "/" ++ render (am_size a))%string]
                        else []) in
                  if forallb (fun h => header_value_valid h.2) headers
                  then (s1, Streams {| rp_status := status; rp_headers := headers; rp_body := "" |}
                              pin {| st_path := am_path a; st_start := start; st_length := length |})
                  else (unpinned, Refused {| rp_status := 500; rp_headers := []; rp_body := "" |})
              end
          | _, _ => (unpinned, Refused (plain 410 "Artifact is no longer available"))
          end
      end
  end.

(** What [file.take(length)] after the seek yields from the file as it is. *)
Definition streamed (b : Streaming) (fs : gmap Path (list byte)) : option (list byte) :=
  (fun c => take (N.to_nat (st_length b)) (drop (N.to_nat (st_start b)) c)) <$> fs !! st_path b.

(** ** Reading chunks *)

Record Chunk := { ch_metadata : ArtifactMetadata; ch_data : list byte; ch_next : N; ch_eof : bool }.

(** [read_artifact_chunk]; the pin is held from the lookup to the last read. *)
Definition read_artifact_chunk (open seek read : Io) (id : string) (requester : OwnerKey) (offset max_bytes : N) (s : Store)
  : Store * result (option Chunk) IoError :=
  match pin_artifact id requester s with
  | (s1, None) => (s1, Ok None)
  | (s1, Some pin) =>
      let a := pin_metadata pin in
      let unpinned := (release_pin id (pin_generation pin) s1).1 in
      let offset := N.min offset (am_size a) in
      (unpinned,
       match open, files s1 !! am_path a with
       | IoDone, Some content =>
           let? _ := io_result seek in
           let remaining := (am_size a - offset)%N in
           let read_len := N.min remaining max_bytes in
           let available := drop (N.to_nat offset) content in
           (** [read_exact]: too short a file is an error. *)
           if (N.of_nat (length available) <? read_len)%N then Err IoSystem
           else
             let? _ := io_result read in
             let data := take (N.to_nat read_len) available in
             let next := (offset + N.of_nat (length data))%N in
             Ok (Some {| ch_metadata := a; ch_data := data; ch_next := next; ch_eof := (remaining + offset <=? next)%N |})
       | _, _ => Err IoSystem
       end)
  end.

(** The [artifact_read] tool: the default and the bounds of [maxBytes]. *)
Definition tool_max_bytes (requested : option N) : N := N.max 1 (N.min (default 65536%N requested) 1048576).

(** A client following [nextOffset] until [eof], while other work
    ([interludes], one between any two reads) goes on. *)
Fixpoint read_all (limit max_bytes : N) (id : string) (requester : OwnerKey) (interludes : list (list Event)) (offset : N)
    (s : Store) : option (list byte) :=
  match read_artifact_chunk IoDone IoDone IoDone id requester offset max_bytes s with
  | (s', Ok (Some ch)) =>
      if ch_eof ch then Some (ch_data ch)
      else match interludes with
           | [] => None
           | es :: rest => (fun d => ch_data ch ++ d) <$> read_all limit max_bytes id requester rest (ch_next ch) (run limit es s')
           end
  | _ => None
  end.

Fixpoint benign_interludes (limit : N) (s : Store) (interludes : list (list Event)) : Prop :=
  match interludes with
  | [] => True
  | es :: rest => benign_run limit s es /\ benign_interludes limit (run limit es s) rest
  end.

(** ** The administrator's store *)

Section Local.
Variable io : Path -> Io.
Variable readdir : Io.

Definition entry_le (a b : ArtifactEntry) : Prop := str_le (af_id a) (af_id b).
#[export] Instance entry_le_dec : RelDecision entry_le.
Proof. intros a b. unfold entry_le, str_le. apply _. Defined.

Definition local_list (s : Store) : result (list ArtifactEntry) InventoryError :=
  Ok (merge_sort entry_le
        (map (fun kv => {| af_id := am_id (ra_metadata kv.2); af_owner := am_owner (ra_metadata kv.2);
                           af_size := am_size (ra_metadata kv.2); af_content_type := am_content_type (ra_metadata kv.2) |})
           (List.filter (fun kv => bool_decide (ra_lifecycle kv.2 = Readable)) (map_to_list (registry s))))).

Definition local_purge (id : string) (s : Store) : Store * result unit InventoryError :=
  match artifact id s with
  | None => (s, Err Session.NotFound)
  | Some item =>
      match remove_artifact io readdir (am_path item) s with
      | (s', Ok _) => (s', Ok tt)
      | (s', Err _) => (s', Err Session.Unavailable)
      end
  end.

#[export] Instance LocalArtifactStore : ArtifactStore Store :=
  {| artifact_list := local_list; artifact_purge := local_purge |}.
End Local.

(** ** Lemmas *)

Lemma parse_range_bounds value size a b :
  parse_range value size = Some (a, b) -> (a <= b < size)%N.
Proof.
  unfold parse_range. destruct (strip_prefix_bytes _ _) as [range|]; cbn [mbind option_bind]; [|done].
  destruct (_ || _) eqn:E; [done|]. bool_to_prop.
  destruct (split_once_bytes dash range) as [[start end_]|]; cbn [mbind option_bind]; [|done].
  destruct start as [|c start].
  - destruct (parse_u64_bytes end_) as [n|]; cbn [mbind option_bind]; [|done].
    destruct (N.ltb_spec 0 (N.min n size)); [|done]. intros [= <- <-]. lia.
  - destruct (parse_u64_bytes (c :: start)) as [f|]; cbn [mbind option_bind]; [|done].
    destruct (N.leb_spec size f); [done|].
    assert (Hend : forall x, match end_ with [] => Some (size - 1)%N | _ => (fun e => N.min e (size - 1)) <$> parse_u64_bytes end_ end = Some x -> (x < size)%N).
    { intros x. destruct end_; [intros [= <-]; lia|]. destruct (parse_u64_bytes _); cbn; [|done]. intros [= <-]. lia. }
    destruct (match end_ with [] => _ | _ => _ end) as [x|] eqn:Ex; cbn [mbind option_bind]; [|done].
    destruct (N.leb_spec f x); [|done]. intros [= <- <-]. split; [done|by apply Hend].
Qed.

Lemma parse_u64_rendered n : (n <= U64_MAX)%N -> parse_u64_bytes (render_u64 n) = Some n.
Proof.
  intros Hn. pose proof (parse_render_u64 n Hn) as Hp. pose proof (render_u64_digits n) as Hd.
  unfold parse_u64_bytes. destruct (render_u64 n) as [|b l] eqn:E; [done|].
  rewrite (digit_not b) by (try done; by apply Forall_inv in Hd). done.
Qed.

Lemma digits_not_in c l : is_ascii_digit c = false -> Forall (fun b => is_ascii_digit b = true) l -> c ∉ l.
Proof. intros Hc Hl Hin. rewrite Forall_forall in Hl. pose proof (Hl _ Hin) as Hx; cbn in Hx; congruence. Qed.

Lemma pin_is_event limit id requester s : (pin_artifact id requester s).1 = run limit [EPin id requester] s.
Proof. done. Qed.

Lemma run_app limit es es' s : run limit (es ++ es') s = run limit es' (run limit es s).
Proof. apply fold_left_app. Qed.

Lemma benign_run_app limit es es' s :
  benign_run limit s es -> benign_run limit (run limit es s) es' -> benign_run limit s (es ++ es').
Proof. revert s; induction es as [|e es IH]; intros s; cbn; [done|]. intros [He Hes] H'. split; [done|]. by apply IH. Qed.

Lemma reconcile_loop_handed readdir io l s : handed_out (reconcile_loop readdir io l s) = handed_out s.
Proof.
  revert s; induction l as [|[i f] l IH]; intros s; cbn [reconcile_loop]; [done|].
  destruct (reconcile_entry readdir io f s) as [s1 kept] eqn:Er. rewrite IH. cbn. revert Er. unfold reconcile_entry.
  destruct (exists_ _ _); [destruct (_ && _); [destruct (ra_disk f) as [d|]|]|destruct (associated_paths _ _ _); [destruct (forallb _ _)|]];
    intros [= <- <-]; try done; [by destruct (dr_sidecar d)|by destruct (ra_disk f) as [[? []]|]].
Qed.

Lemma drop_all_handed (l : list (string * RegisteredArtifact)) s :
  handed_out (foldr (fun kv s => drop_disk (ra_disk kv.2) s) s l) = handed_out s.
Proof. induction l as [|kv l IH]; cbn; [done|]. rewrite <- IH. by destruct (ra_disk kv.2) as [[? []]|]. Qed.

(** What was given out once stays what it is. *)
Lemma handed_persist limit e s id x :
  Inv s -> handed_out s !! id = Some x -> handed_out (apply limit e s) !! id = Some x.
Proof.
  intros HI Hx.
  assert (Hne : forall i p c, handed_out s !! i = None -> <[i := (p, c)]> (handed_out s) !! id = Some x).
  { intros i p c Hi. rewrite lookup_insert_ne; [done|]. intros ->. congruence. }
  assert (Hcore : forall s', core s' = core s -> handed_out s' !! id = Some x).
  { intros s' Hc. unfold core in Hc. injection Hc as _ _ _ _ _ _ _ -> _. done. }
  destruct e; cbn [apply]; try done.
  - destruct (fresh_id _ s); [|done]. unfold begin_artifact. by destruct mkdir, create.
  - unfold set_disk_quota. destruct (writers s !! _) as [w|]; [|done]. by destruct (_ && _).
  - unfold store_write. destruct (writers s !! _) as [w|]; [|done]. destruct (negb _); [done|].
    destruct (chunk_admitted w bytes); [|done]. destruct (aw_lease w); [destruct (_ && _); [|done]|]; by destruct end_.
  - unfold commit. destruct (writers s !! id0) as [w|] eqn:Hw; [|done]. destruct (negb _); [done|]. destruct sync; [|done].
    destruct (next_artifact_generation s) as [[g n]|]; [|done]. destruct (rename _ _ _ _); [|done]. cbn.
    apply Hne. apply (wk_fresh _ _ _ (inv_writer s HI _ _ Hw)).
  - unfold drop_writer. destruct (writers s !! _) as [w|]; [|done]. unfold remove_file.
    destruct io, (aw_lease w); try done. cbn. unfold retain_orphaned_reservation. by destruct (exists_ _ _).
  - destruct (fresh_id id0 s) eqn:Hf; [|done]. destruct (fresh_id_facts id0 s HI Hf) as (_ & _ & _ & _ & Hg).
    unfold save_artifact. destruct mkdir; [|done]. destruct (next_artifact_generation s) as [[g n]|]; [|done].
    destruct failure as [[[] partial]|]; [done|done|]. cbn. by apply Hne.
  - unfold pin_artifact. destruct (shutting_down s); [done|]. destruct (registry s !! _); [|done].
    destruct (_ || _); [done|]. by destruct (checked_add _ _).
  - unfold release_pin. destruct (negb _); [done|]. cbn. destruct (registry s !! _); [|done]. by destruct (_ || _).
  - destruct (given_path _ s); [|done]. unfold mark_pending. by destruct (find_path _ s) as [[]|].
  - destruct (given_path _ s); [|done]. unfold start_removal. destruct (find_path _ s); [done|]. by destruct (associated_paths _ _ _).
  - unfold removal_step. destruct (removals s !! n) as [[|p rest]|]; [done| |done]. by destruct io.
  - unfold start_reclaim. destruct (reclaiming s); [done|]. destruct (reclaimable _ _ s); [|done]. by destruct (associated_paths _ _ _).
  - unfold reclaim_step. destruct (reclaiming s) as [[? ? [|p rest]]|]; [done| |done]. by destruct io.
  - unfold end_reclaim. destruct (reclaiming s) as [[? ? [|p rest]]|]; [|done..]. cbn. unfold unregister. cbn.
    destruct (registry s !! _) as [e|]; [|done]. destruct (_ =? _)%N; [|done]. by destruct (ra_disk e) as [[? []]|].
  - unfold reconcile_missing_artifacts. cbn. by rewrite reconcile_loop_handed.
  - destruct (shutting_down s); [|done]. unfold cleanup_current_session, reconcile_missing_artifacts.
    destruct (negb _); [cbn; by rewrite reconcile_loop_handed|]. unfold remove_dir_all.
    destruct (bool_decide _); cbn; [by rewrite drop_all_handed|by rewrite reconcile_loop_handed].
Qed.

Lemma handed_persist_run limit es s id x :
  Inv s -> benign_run limit s es -> handed_out s !! id = Some x -> handed_out (run limit es s) !! id = Some x.
Proof.
  revert s; induction es as [|e es IH]; intros s HI; [done|]. intros [He Hes] Hx.
  apply (IH (apply limit e s)); [by apply Inv_apply|done|by apply handed_persist].
Qed.

(** What a pin is given on, and that giving it back undoes it. *)
Lemma pin_artifact_spec id requester s s' pin :
  Inv s -> pin_artifact id requester s = (s', Some pin) ->
  exists e c, registry s !! id = Some e /\ ra_owner e = requester /\ pin_metadata pin = ra_metadata e
    /\ pin_generation pin = ra_generation e
    /\ handed_out s !! id = Some (am_path (pin_metadata pin), c) /\ files s !! am_path (pin_metadata pin) = Some c
    /\ am_size (pin_metadata pin) = N.of_nat (length c)
    /\ files s' = files s /\ handed_out s' = handed_out s /\ (release_pin id (pin_generation pin) s').1 = s.
Proof.
  intros HI. unfold pin_artifact. destruct (shutting_down s) eqn:Hs; [done|].
  destruct (registry s !! id) as [e|] eqn:He; [|done].
  destruct (bool_decide (ra_lifecycle e = Readable)) eqn:Hr; [|done].
  destruct (bool_decide (ra_owner e = requester)) eqn:Ho; [|done]. cbn [negb orb].
  unfold checked_add. destruct (N.ltb_spec U64_MAX (ra_pins e + 1)); [done|]. intros [= <- <-]. bool_to_prop.
  destruct (ro_given _ _ _ (inv_registered s HI id e He)) as (c & Hh & Hsz & Hl).
  exists e, c. cbn [pin_metadata pin_generation]. split_and!; try done; [apply Hl; by left|].
  unfold release_pin. cbn [read_pins set_pins]. rewrite bool_decide_eq_true_2 by left. cbn [negb].
  cbn [remove_pin]. rewrite bool_decide_eq_true_2 by done. cbn [registry set_pins set_registry].
  rewrite lookup_insert_eq. cbn [ra_generation set_entry_pins ra_pins]. rewrite N.eqb_refl. cbn [negb orb].
  destruct (N.eqb_spec (ra_pins e + 1) 0); [lia|]. cbn [fst]. rewrite insert_insert_eq.
  replace (set_entry_pins (ra_pins e + 1 - 1) (set_entry_pins (ra_pins e + 1) e)) with e
    by (rewrite N.add_sub; by destruct e).
  rewrite insert_id by done. by destruct s.
Qed.

Lemma pin_artifact_none id requester s s' : pin_artifact id requester s = (s', None) -> s' = s.
Proof.
  unfold pin_artifact. repeat case_match; congruence.
Qed.

(** A header of digits, a dash and digits is split where it should be. *)
Lemma range_header start end_ size :
  Forall (fun b => is_ascii_digit b = true) start -> Forall (fun b => is_ascii_digit b = true) end_ -> size <> 0%N ->
  parse_range ("bytes=" ++ of_bytes start ++ "-" ++ of_bytes end_) size
  = match start with
    | [] =>
        parse_u64_bytes end_ ≫= fun n =>
        if (0 <? N.min n size)%N then Some (size - N.min n size, size - 1)%N else None
    | _ =>
        parse_u64_bytes start ≫= fun first =>
        if (size <=? first)%N then None
        else (match end_ with [] => Some (size - 1)%N | _ => (fun e => N.min e (size - 1)) <$> parse_u64_bytes end_ end) ≫= fun last_ =>
             if (first <=? last_)%N then Some (first, last_) else None
    end.
Proof.
  intros Hs He Hz. unfold parse_range. rewrite !as_bytes_app, !as_of_bytes.
  change (as_bytes "-") with [dash]. cbn [app].
  assert (Hp : strip_prefix_bytes (as_bytes "bytes=") (as_bytes "bytes=" ++ start ++ dash :: end_) = Some (start ++ dash :: end_)).
  { unfold strip_prefix_bytes. rewrite (proj2 (starts_with_bytes_spec _ _)) by (by eexists). done. }
  rewrite Hp. cbn [mbind option_bind].
  assert (Hc : existsb (fun b => beqb b comma) (start ++ dash :: end_) = false).
  { apply not_true_is_false. intros (b & Hb & Hq)%existsb_exists. apply beqb_eq in Hq. subst b.
    apply list_elem_of_In, elem_of_app in Hb as [Hb|Hb]; [by eapply (digits_not_in comma start)|].
    apply elem_of_cons in Hb as [Hb|Hb]; [by injection Hb|by eapply (digits_not_in comma end_)]. }
  rewrite Hc. destruct (N.eqb_spec size 0); [done|]. cbn [orb].
  rewrite (split_once_bytes_first dash start end_) by (by apply digits_not_in). done.
Qed.

Lemma render_u64_nonempty n : render_u64 n <> [].
Proof. apply render_loop_not_nil. by left. Qed.

(** ** What a download is *)

(** A refusal leaves the store as it found it; a response keeps its pin. *)
Lemma download_cases open seek id request s :
  Inv s ->
  match download_artifact open seek id request s with
  | (s', Refused _) => s' = s
  | (s', Streams response pin body) =>
      pin_artifact id (requester_of request) s = (s', Some pin)
      /\ st_path body = am_path (pin_metadata pin)
      /\ header_get (rp_headers response) "content-length" = Some (render (st_length body))
      /\ rp_status response = (match effective_range (rq_headers request) (am_etag (pin_metadata pin)) with Some _ => 206 | None => 200 end)%N
      /\ (st_start body + st_length body <= am_size (pin_metadata pin))%N
      /\ match effective_range (rq_headers request) (am_etag (pin_metadata pin)) with
         | Some value => exists last_, parse_range value (am_size (pin_metadata pin)) = Some (st_start body, last_)
                           /\ st_length body = (last_ - st_start body + 1)%N
         | None => st_start body = 0%N /\ st_length body = am_size (pin_metadata pin)
         end
  end.
Proof.
  intros HI. unfold download_artifact.
  destruct (pin_artifact id (requester_of request) s) as [s1 [pin|]] eqn:Hpin; [|by eapply pin_artifact_none].
  destruct (pin_artifact_spec _ _ _ _ _ HI Hpin) as (e & c & _ & _ & _ & _ & _ & _ & _ & _ & _ & Hback).
  set (a := pin_metadata pin). destruct (effective_range (rq_headers request) (am_etag a)) as [value|] eqn:Ee;
    cbn [fmap option_fmap option_map].
  - destruct (parse_range value (am_size a)) as [[start end_]|] eqn:Ep; [|done].
    pose proof (parse_range_bounds _ _ _ _ Ep) as Hb.
    destruct open; [|done]. destruct (files s1 !! am_path a); [|done]. destruct seek; [|done].
    destruct (forallb _ _); [|done]. destruct (N.eqb_spec (am_size a) 0); [lia|].
    fold a. rewrite Ee. split_and!; try done; cbn [st_start st_length]; [lia|by exists end_].
  - destruct open; [|done]. destruct (files s1 !! am_path a); [|done]. destruct seek; [|done].
    destruct (forallb _ _); [|done]. fold a. rewrite Ee. destruct (N.eqb_spec (am_size a) 0) as [Hz|Hz];
      split_and!; try done; cbn [st_start st_length]; lia.
Qed.

(** Whoever holds a pin of an artifact finds in its file what was committed. *)
Lemma pinned_file s id p c g :
  Inv s -> handed_out s !! id = Some (p, c) -> (id, g) ∈ read_pins s -> files s !! p = Some c.
Proof.
  intros HI Hh Hin. destruct (inv_pinned s HI id g Hin) as (e & He & Hg).
  destruct (ro_given _ _ _ (inv_registered s HI id e He)) as (c' & Hc & _ & Hl).
  rewrite Hh in Hc. injection Hc as -> ->. apply Hl. right. by eapply live_pinned.
Qed.

(** ** What a chunk is *)

Lemma chunk_store open seek read id requester offset max_bytes s :
  Inv s -> (read_artifact_chunk open seek read id requester offset max_bytes s).1 = s.
Proof.
  intros HI. unfold read_artifact_chunk. destruct (pin_artifact id requester s) as [s1 [pin|]] eqn:Hpin.
  - by destruct (pin_artifact_spec _ _ _ _ _ HI Hpin) as (e & c & _ & _ & _ & _ & _ & _ & _ & _ & _ & Hback).
  - by apply pin_artifact_none in Hpin.
Qed.

Lemma chunk_exact open seek read id requester offset max_bytes s ch :
  Inv s -> (read_artifact_chunk open seek read id requester offset max_bytes s).2 = Ok (Some ch) ->
  exists p c, handed_out s !! id = Some (p, c)
    /\ am_owner (ch_metadata ch) = requester
    /\ ch_data ch = take (N.to_nat max_bytes) (drop (N.to_nat offset) c)
    /\ ch_next ch = (N.min offset (N.of_nat (length c)) + N.of_nat (length (ch_data ch)))%N
    /\ ch_eof ch = (ch_next ch =? N.of_nat (length c))%N.
Proof.
  intros HI. unfold read_artifact_chunk. destruct (pin_artifact id requester s) as [s1 [pin|]] eqn:Hpin; [|done].
  destruct (pin_artifact_spec _ _ _ _ _ HI Hpin) as (e & c & He & Ho & Hm & _ & Hh & Hf & Hsz & Hf1 & _ & _).
  rewrite Hf1, Hf, Hsz. cbn [snd]. destruct open; [|done].
  destruct seek; cbn [io_result]; [|done]. destruct (_ <? _)%N; [done|]. destruct read; [|done].
  intros [= <-]. cbn [ch_data ch_metadata ch_next ch_eof].
  exists (am_path (pin_metadata pin)), c.
  set (size := N.of_nat (length c)). set (o := N.min offset size).
  assert (Hd : take (N.to_nat (N.min (size - o) max_bytes)) (drop (N.to_nat o) c) = take (N.to_nat max_bytes) (drop (N.to_nat offset) c)).
  { unfold o. destruct (N.le_gt_cases offset size).
    - replace (N.min offset size) with offset by lia. rewrite <- (take_ge (drop (N.to_nat offset) c) (N.to_nat (size - offset)))
        by (rewrite length_drop; lia).
      rewrite !take_take. f_equal. lia.
    - rewrite (drop_ge _ (N.to_nat offset)) by lia. rewrite (drop_ge _ (N.to_nat (N.min offset size))) by lia. by rewrite !take_nil. }
  split_and!; try done.
  - rewrite Hm, <- Ho. apply (ro_owner _ _ _ (inv_registered s HI id e He)).
  - rewrite Hd, length_take, length_drop. subst o size. destruct (N.leb_spec (N.of_nat (length c) - N.min offset (N.of_nat (length c)) + N.min offset (N.of_nat (length c)))
      (N.min offset (N.of_nat (length c)) + N.of_nat (N.to_nat max_bytes `min` (length c - N.to_nat offset)))) as [Hle|Hle]; symmetry; [apply N.eqb_eq|apply N.eqb_neq]; lia.
Qed.

(** Who may read gets an answer. *)
Definition readable_by (id : string) (requester : OwnerKey) (s : Store) : Prop :=
  shutting_down s = false
  /\ exists e, registry s !! id = Some e /\ ra_lifecycle e = Readable /\ ra_owner e = requester /\ (ra_pins e < U64_MAX)%N.

Lemma chunk_answers id requester offset max_bytes s :
  Inv s -> readable_by id requester s ->
  exists ch, (read_artifact_chunk IoDone IoDone IoDone id requester offset max_bytes s).2 = Ok (Some ch).
Proof.
  intros HI (Hs & e & He & Hr & Ho & Hp). unfold read_artifact_chunk.
  destruct (pin_artifact id requester s) as [s1 [pin|]] eqn:Hpin.
  - destruct (pin_artifact_spec _ _ _ _ _ HI Hpin) as (e' & c & _ & _ & _ & _ & _ & Hf & Hsz & Hf1 & _ & _).
    rewrite Hf1, Hf, Hsz. cbn [snd io_result].
    destruct (_ <? _)%N eqn:Hx; [|by eexists]. apply N.ltb_lt in Hx. rewrite length_drop in Hx. lia.
  - exfalso. revert Hpin. unfold pin_artifact. rewrite Hs, He, !bool_decide_eq_true_2 by done. cbn [negb orb].
    unfold checked_add. destruct (N.ltb_spec U64_MAX (ra_pins e + 1)); [lia|done].
Qed.

(** Reading on from [offset], with work between the reads. *)
Lemma read_all_exact limit max_bytes id requester interludes p content offset s collected :
  Inv s -> benign_interludes limit s interludes -> handed_out s !! id = Some (p, content) ->
  read_all limit max_bytes id requester interludes offset s = Some collected ->
  collected = drop (N.to_nat offset) content.
Proof.
  revert offset s collected; induction interludes as [|es rest IH]; intros offset s collected HI Hb Hh; cbn [read_all].
  all: pose proof (chunk_store IoDone IoDone IoDone id requester offset max_bytes s HI) as Hs.
  all: pose proof (chunk_exact IoDone IoDone IoDone id requester offset max_bytes s) as Hx.
  all: destruct (read_artifact_chunk _ _ _ _ _ _ _ s) as [s' [[ch|]|]]; try done; cbn [fst snd] in *; subst s'.
  all: destruct (Hx ch HI eq_refl) as (p' & c & Hc & _ & Hd & Hn & He); rewrite Hh in Hc; injection Hc as <- <-.
  all: destruct (ch_eof ch); [intros [= <-]; symmetry in He; apply N.eqb_eq in He;
         rewrite Hd, length_take, length_drop in Hn; rewrite Hd, take_ge; [done|rewrite length_drop; lia]|].
  - done.
  - destruct Hb as [Hes Hrest]. destruct (read_all _ _ _ _ rest _ _) as [d|] eqn:Hd'; cbn; [|done]. intros [= <-].
    apply IH in Hd' as ->; [|by apply Inv_run|done|by apply handed_persist_run].
    rewrite Hn, Hd. rewrite length_take, length_drop. symmetry in He. apply N.eqb_neq in He. rewrite Hn, Hd, length_take, length_drop in He.
    replace (N.to_nat (N.min offset (N.of_nat (length content)) + N.of_nat (N.to_nat max_bytes `min` (length content - N.to_nat offset))))
      with (N.to_nat offset + N.to_nat max_bytes)%nat by lia.
    rewrite <- drop_drop. apply take_drop.
Qed.

Lemma read_all_finishes limit max_bytes id requester p content offset s fuel :
  Inv s -> readable_by id requester s -> handed_out s !! id = Some (p, content) -> (0 < max_bytes)%N ->
  (length content - N.to_nat offset <= fuel)%nat ->
  read_all limit max_bytes id requester (replicate fuel []) offset s = Some (drop (N.to_nat offset) content).
Proof.
  intros HI Hr Hh Hm. revert offset; induction fuel as [|fuel IH]; intros offset Hf; cbn [read_all replicate].
  all: pose proof (chunk_store IoDone IoDone IoDone id requester offset max_bytes s HI) as Hs.
  all: destruct (chunk_answers id requester offset max_bytes s HI Hr) as [ch Hch].
  all: destruct (chunk_exact _ _ _ _ _ _ _ _ _ HI Hch) as (p' & c & Hc & _ & Hd & Hn & He); rewrite Hh in Hc; injection Hc as <- <-.
  all: destruct (read_artifact_chunk _ _ _ _ _ _ _ s) as [s' r]; cbn [fst snd] in *; subst s' r.
  all: rewrite Hd, length_take, length_drop in Hn; rewrite Hn in He.
  all: destruct (ch_eof ch); symmetry in He; [apply N.eqb_eq in He; rewrite Hd, take_ge; [done|rewrite length_drop; lia]|apply N.eqb_neq in He].
  - lia.
  - change (run limit [] s) with s. rewrite IH by lia. cbn. rewrite Hd, Hn. f_equal.
    replace (N.to_nat (N.min offset (N.of_nat (length content)) + N.of_nat (N.to_nat max_bytes `min` (length content - N.to_nat offset))))
      with (N.to_nat offset + N.to_nat max_bytes)%nat by lia.
    rewrite <- drop_drop. apply take_drop.
Qed.

(** ** The theorems *)

(** C23: A download streams what was committed.  In every run in which nobody
    else deletes the file of a live artifact and an operation's directory is
    removed only when none of its artifacts is live: a response carries the
    artifact's own bytes, all of them under status 200 and the slice of a valid
    range under 206, the announced length is the streamed one, and the body is
    exactly that slice however late it is read, whatever single removals,
    sweeps, reclamations or shutdown run meanwhile, as long as the response
    holds its pin and the run goes on under the same two conditions; a refusal
    leaves the store as it was.  Removing a whole operation's directory while a
    response is pinned is what the conditions exclude. *)
Theorem download_streams_committed limit es open seek id request (Hbenign : benign_run limit store_new es) :
  let s := run limit es store_new in
  match download_artifact open seek id request s with
  | (s', Refused _) => s' = s
  | (s', Streams response pin body) =>
      exists content, handed_out s !! id = Some (st_path body, content)
      /\ am_owner (pin_metadata pin) = requester_of request
      /\ header_get (rp_headers response) "content-length" = Some (render (st_length body))
      /\ (st_start body + st_length body <= N.of_nat (length content))%N
      /\ match effective_range (rq_headers request) (am_etag (pin_metadata pin)) with
         | Some value => rp_status response = 206%N
             /\ exists last_, parse_range value (N.of_nat (length content)) = Some (st_start body, last_)
                  /\ st_length body = (last_ - st_start body + 1)%N
         | None => rp_status response = 200%N /\ st_start body = 0%N /\ st_length body = N.of_nat (length content)
         end
      /\ forall later, benign_run limit s' later -> (id, pin_generation pin) ∈ read_pins (run limit later s') ->
         streamed body (files (run limit later s'))
         = Some (take (N.to_nat (st_length body)) (drop (N.to_nat (st_start body)) content))
  end.
Proof.
  cbn zeta. pose proof (Inv_run limit es store_new Inv_new Hbenign) as HI. set (s := run limit es store_new) in *.
  pose proof (download_cases open seek id request s HI) as Hd.
  destruct (download_artifact open seek id request s) as [s' [|response pin body]]; [done|].
  destruct Hd as (Hpin & Hpath & Hlen & Hst & Hin & Hrange).
  destruct (pin_artifact_spec _ _ _ _ _ HI Hpin) as (e & c & He & Ho & Hm & _ & Hh & _ & Hsz & _ & Hh1 & _).
  exists c. rewrite Hpath, <- Hsz. split_and!; try done.
  - rewrite Hm, <- Ho. apply (ro_owner _ _ _ (inv_registered s HI id e He)).
  - by destruct (effective_range _ _).
  - intros later Hl Hheld.
    assert (HI' : Inv s').
    { replace s' with (apply limit (EPin id (requester_of request)) s) by (cbn [apply]; by rewrite Hpin). by apply Inv_apply. }
    pose proof (Inv_run limit later s' HI' Hl) as HI2. unfold streamed. rewrite Hpath.
    rewrite (pinned_file _ id (am_path (pin_metadata pin)) c (pin_generation pin) HI2); [done| |exact Hheld].
    apply handed_persist_run; [done|done|by rewrite Hh1].
Qed.

(** A range within the file is understood as written, and nothing a client
    writes reaches outside the file. *)
Theorem range_requests size a b (Hsize : (size <= U64_MAX)%N) (Hrange : (a <= b < size)%N) :
  parse_range ("bytes=" ++ render a ++ "-" ++ render b) size = Some (a, b)
  /\ parse_range ("bytes=" ++ render a ++ "-") size = Some (a, size - 1)%N
  /\ parse_range ("bytes=-" ++ render (size - a)) size = Some (a, size - 1)%N
  /\ (forall value x y, parse_range value size = Some (x, y) -> (x <= y < size)%N).
Proof.
  assert (Hz : size <> 0%N) by lia. unfold render.
  assert (Hd : forall n, Forall (fun b => is_ascii_digit b = true) (render_u64 n)) by (intros; apply render_u64_digits).
  assert (Hn : (forall n, n <= U64_MAX -> parse_u64_bytes (render_u64 n) = Some n)%N) by (intros; by apply parse_u64_rendered).
  split_and!.
  - rewrite range_header by done. rewrite (Hn a), (Hn b) by lia. cbn [mbind option_bind fmap option_fmap option_map].
    destruct (render_u64 a) eqn:Ea; [by destruct (render_u64_nonempty a Ea)|].
    destruct (render_u64 b) eqn:Eb; [by destruct (render_u64_nonempty b Eb)|].
    destruct (N.leb_spec size a); [lia|]. cbn [mbind option_bind]. rewrite N.min_l by lia. by destruct (N.leb_spec a b); [|lia].
  - transitivity (parse_range ("bytes=" ++ of_bytes (render_u64 a) ++ "-" ++ of_bytes []) size); [done|].
    rewrite range_header by done. rewrite (Hn a) by lia.
    cbn [mbind option_bind]. destruct (render_u64 a) eqn:Ea; [by destruct (render_u64_nonempty a Ea)|].
    destruct (N.leb_spec size a); [lia|]. by destruct (N.leb_spec a (size - 1)); [|lia].
  - transitivity (parse_range ("bytes=" ++ of_bytes [] ++ "-" ++ of_bytes (render_u64 (size - a))) size); [done|].
    rewrite range_header by done. rewrite (Hn (size - a)%N) by lia. cbn [mbind option_bind].
    rewrite N.min_l by lia. destruct (N.ltb_spec 0 (size - a)); [|lia]. do 2 f_equal; lia.
  - intros value x y. apply parse_range_bounds.
Qed.

(** Following [nextOffset] until [eof] yields the artifact.  The bytes a
    client collects are exactly the committed ones, whatever runs between its
    reads; and undisturbed, a caller who may read the artifact gets to the end
    in at most one read per byte, for any [maxBytes] the tool can ask for. *)
Theorem chunked_read_reassembles limit es id requester requested p content
  (Hbenign : benign_run limit store_new es)
  (Hgiven : handed_out (run limit es store_new) !! id = Some (p, content)) :
  let s := run limit es store_new in
  let max_bytes := tool_max_bytes requested in
  (forall interludes collected, benign_interludes limit s interludes ->
     read_all limit max_bytes id requester interludes 0 s = Some collected -> collected = content)
  /\ (readable_by id requester s ->
      read_all limit max_bytes id requester (replicate (length content) []) 0 s = Some content).
Proof.
  cbn zeta. pose proof (Inv_run limit es store_new Inv_new Hbenign) as HI. set (s := run limit es store_new) in *. split.
  - intros interludes collected Hb Hr. by apply (read_all_exact limit (tool_max_bytes requested) id requester interludes p content 0 s).
  - intros Hread. apply (read_all_finishes limit (tool_max_bytes requested) id requester p content 0 s); try done; [unfold tool_max_bytes|]; lia.
Qed.

Module DownloadWitness.

Import ArtifactWitness.

Definition committed : list Event := pinned ++ [EUnpin id 1].

Definition request : HttpRequest :=
  {| rq_headers := [("range", "bytes=1-")]; rq_principal := None; rq_facts := None |}.

Definition s0 : Store := run 100 committed store_new.

(** The last two bytes, read after the artifact was marked for removal. *)
Definition later : list Event :=
  [EMark id; EReclaim IoDone id 1; EReclaimStep IoDone; EReclaimEnd; EReconcile IoDone (fun _ => IoDone)].

Definition body : Streaming := {| st_path := path; st_start := 1; st_length := 2 |}.

Lemma download_streams_committed_witness :
  benign_run 100 store_new committed
  /\ streamed body (files (run 100 later (download_artifact IoDone IoDone id request s0).1)) = Some (as_bytes "bc").
Proof.
  assert (Hb : benign_run 100 store_new committed) by (cbn; tauto). split; [exact Hb|].
  pose proof (download_streams_committed 100 committed IoDone IoDone id request Hb) as H.
  cbn zeta in H. unfold s0. remember (run 100 committed store_new) as s eqn:Es.
  assert (Hs : match (download_artifact IoDone IoDone id request s).2 with
               | Streams _ pin b => b = body /\ pin_generation pin = 1%N | _ => False end) by (rewrite Es; vm_compute; split; reflexivity).
  assert (Hc : handed_out s !! id = Some (path, as_bytes "abc")) by (rewrite Es; vm_compute; reflexivity).
  assert (Hp : (id, 1%N) ∈ read_pins (run 100 later (download_artifact IoDone IoDone id request s).1)) by (rewrite Es; vm_compute; left).
  destruct (download_artifact IoDone IoDone id request s) as [s' [|response pin b]]; [destruct Hs|]. clear Es.
  cbn [fst snd] in *. destruct Hs as [-> Hg]. destruct H as (content & Hh & _ & _ & _ & _ & Hl).
  rewrite Hc in Hh. injection Hh as <-. rewrite Hl; [reflexivity|cbn; tauto|by rewrite Hg].
Defined.

Lemma range_requests_witness : parse_range "bytes=2-5" 10 = Some (2, 5)%N.
Proof.
  assert (H1 : (10 <= U64_MAX)%N) by (vm_compute; discriminate). assert (H2 : (2 <= 5 < 10)%N) by lia.
  exact (proj1 (range_requests 10 2 5 H1 H2)).
Defined.

Lemma chunked_read_reassembles_witness :
  handed_out s0 !! id = Some (path, as_bytes "abc")
  /\ read_all 100 (tool_max_bytes (Some 0%N)) id OwnerLocal [later; []; []] 0 s0 = None
  /\ read_all 100 (tool_max_bytes (Some 0%N)) id OwnerLocal [[]; []; []] 0 s0 = Some (as_bytes "abc").
Proof.
  assert (Hb : benign_run 100 store_new committed) by (cbn; tauto).
  unfold s0. assert (Hh : handed_out (run 100 committed store_new) !! id = Some (path, as_bytes "abc")) by (vm_compute; reflexivity).
  split_and!; [exact Hh|vm_compute; reflexivity|].
  pose proof (proj2 (chunked_read_reassembles 100 committed id OwnerLocal (Some 0%N) path (as_bytes "abc") Hb Hh)) as H.
  change (length (as_bytes "abc")) with 3%nat in H. cbn [replicate] in H. apply H.
  split; [vm_compute; reflexivity|]. eexists. split; [vm_compute; reflexivity|]. vm_compute. split_and!; reflexivity.
Defined.
End DownloadWitness.
