(* ===== verification/UploadInput.v ===== *)
(** * Upload input (src/src/controllers/upload.rs)

    Files arrive as base64 text or as the id of an artifact of the caller's;
    [prepare_files] turns them into validated bytes within the operator's
    limits, or refuses the call.  Values that error texts quote with [Debug]
    are kept as the values; the texts of the system's and the decoder's own
    errors are left out. *)
From S2P Require Import Prelude RustStr Json PolicyTypes Jql Config Scope Receivers Writer Artifacts Transport Multipart.

Record UploadFileArg := {
  uf_filename : string;
  uf_mime_type : option string;
  uf_content_base64 : option string;
  uf_artifact_id : option string;
}.

Record UploadLimits := { max_file_bytes : N; max_total_bytes : N; max_files : nat }.

Record PreparedFile := { pf_filename : string; pf_content_type : string; pf_bytes : list byte }.

Definition MAX_UPLOAD_FILES : nat := 20.
Definition MAX_FILENAME_BYTES : nat := 255.
Definition DEFAULT_CONTENT_TYPE : string := "application/octet-stream".

Definition upload_limits (c : Config) (vendor : string) : UploadLimits :=
  {| max_file_bytes := upload_max_file_bytes c vendor; max_total_bytes := upload_max_total_bytes c vendor;
     max_files := MAX_UPLOAD_FILES |}.

Definition rejected (detail : string) : McpError := api_error ("Upload rejected: " ++ detail)%string (Some 400%N) None.
Definition too_large (detail : string) : McpError := api_error ("Upload rejected: " ++ detail)%string (Some 413%N) None.

Definition decimal (n : N) : string := of_bytes (render_u64 n).

Definition describe_bytes (bytes : N) : string :=
  let MIB := (1024 * 1024)%N in let KIB := 1024%N in
  if (MIB <=? bytes)%N && (bytes mod MIB =? 0)%N then (decimal (bytes / MIB) ++ " MiB")%string
  else if (KIB <=? bytes)%N && (bytes mod KIB =? 0)%N then (decimal (bytes / KIB) ++ " KiB")%string
  else (decimal bytes ++ " bytes")%string.

Definition file_too_large (filename : string) (limit : N) : McpError :=
  too_large (filename ++ " exceeds the " ++ describe_bytes limit ++ " per-file limit")%string.

Definition ellipsis : list byte := [byte_of 226; byte_of 128; byte_of 166].

Definition truncate_for_message (name : string) : string :=
  let shown := mjoin (take 40 (chars (as_bytes name))) in
  of_bytes (if (length shown <? str_len name)%nat then shown ++ ellipsis else shown).

(** What may not be in a name: control characters and what some system
    reserves in names. *)
Definition reserved_char (c : list byte) : bool :=
  is_control c || match c with [b] => existsb (beqb b) (QUOTE :: as_bytes "/\:*?<>|") | _ => false end.

Definition validate_filename (name : string) : result unit McpError :=
  if str_is_empty name then Err (rejected "filename must not be empty")
  else if (MAX_FILENAME_BYTES <? str_len name)%nat
  then Err (rejected ("filename " ++ truncate_for_message name ++ " is longer than 255 bytes")%string)
  else if String.eqb name "." || String.eqb name ".." then Err (rejected ("filename " ++ name ++ " is not a file name")%string)
  else if negb (String.eqb (trim name) name) then Err (rejected ("filename " ++ name ++ " has leading or trailing whitespace")%string)
  else match List.find reserved_char (chars (as_bytes name)) with
       | Some bad => Err (rejected ("filename " ++ name ++ " contains " ++ of_bytes bad
                            ++ "; use one path segment without / \ : * ? " ++ of_bytes [QUOTE] ++ " < > | or control characters")%string)
       | None => Ok tt
       end.

Definition contains_byte (b : byte) (s : string) : bool := existsb (beqb b) (as_bytes s).
Definition slash_byte : byte := byte_of 47.

Definition validate_content_type (filename raw : string) : result string McpError :=
  let value := trim raw in
  let valid :=
    negb (str_is_empty value) && (str_len value <=? 127)%nat && forallb is_ascii_graphic (as_bytes value)
    && negb (existsb (fun b => existsb (beqb b) (QUOTE :: as_bytes "\;,()")) (as_bytes value))
    && match split_once slash_byte value with
       | Some (kind, subtype) => negb (str_is_empty kind) && negb (str_is_empty subtype) && negb (contains_byte slash_byte subtype)
       | None => false
       end in
  if valid then Ok (to_ascii_lowercase value)
  else Err (rejected (filename ++ ": mimeType " ++ raw ++ " is not a type/subtype media type")%string).

(** What the system answers when an artifact's file is opened and read. *)
Record ArtifactIo := { io_open : Io; io_read : Io }.

Section Prepare.
(** [str::to_lowercase], and the base64 crate: the decoder of the standard
    alphabet with optional padding, and its estimate of a decoded length. *)
Variable to_lowercase : string -> string.
Variable base64_decode : list byte -> option (list byte).
Variable decoded_len_estimate : nat -> nat.

Definition decode_inline (filename encoded : string) (max_file : N) : result (list byte) McpError :=
  if starts_with_bytes (trim_start_bytes (as_bytes encoded)) (as_bytes "data:")
  then Err (rejected (filename ++ ": contentBase64 must be raw base64, not a data: URL")%string)
  else
    let compact := List.filter (fun b => negb (is_ascii_whitespace b)) (as_bytes encoded) in
    if bool_decide (compact = []) then Err (rejected (filename ++ ": contentBase64 is empty")%string)
    else if (N.min U64_MAX (max_file + 2) <? N.of_nat (decoded_len_estimate (length compact)))%N then Err (file_too_large filename max_file)
    else match base64_decode compact with
         | None => Err (rejected (filename ++ ": contentBase64 is not valid standard base64")%string)
         | Some bytes =>
             if bool_decide (bytes = []) then Err (rejected (filename ++ ": decoded content is empty")%string)
             else if (max_file <? N.of_nat (length bytes))%N then Err (file_too_large filename max_file)
             else Ok bytes
         end.

Definition artifact_media_type (content_type : string) : option string :=
  let kind := trim (hd "" (split (byte_of 59) content_type)) in
  if negb (str_is_empty kind) && contains_byte slash_byte kind then Some (to_ascii_lowercase kind) else None.

(** The pin is held until the bytes are read. *)
Definition read_artifact (io : ArtifactIo) (requester : OwnerKey) (filename id : string) (max_file : N) (s : Store)
  : Store * result (list byte * option string) McpError :=
  match pin_artifact id requester s with
  | (s1, None) => (s1, Err (api_error (filename ++ ": artifact " ++ id ++ " not found or expired")%string (Some 404%N) None))
  | (s1, Some pin) =>
      let a := pin_metadata pin in
      let answer :=
        if (max_file <? am_size a)%N then Err (file_too_large filename max_file)
        else if (am_size a =? 0)%N then Err (rejected (filename ++ ": artifact " ++ id ++ " is empty")%string)
        else match io_open io, files s1 !! am_path a with
             | IoDone, Some contents =>
                 match io_read io with
                 | IoFailed => Err (unexpected (filename ++ ": failed to read artifact " ++ id)%string None)
                 | IoDone =>
                     let bytes := take (N.to_nat (am_size a)) contents in
                     if (N.of_nat (length bytes) =? am_size a)%N then Ok (bytes, artifact_media_type (am_content_type a))
                     else Err (unexpected (filename ++ ": artifact " ++ id ++ " is " ++ decimal (N.of_nat (length bytes))
                                 ++ " bytes on disk but " ++ decimal (am_size a) ++ " were registered")%string None)
                 end
             | _, _ => Err (api_error (filename ++ ": artifact " ++ id ++ " could not be opened")%string (Some 404%N) None)
             end in
      ((release_pin id (pin_generation pin) s1).1, answer)
  end.

(** The contents of one file argument, with the type an artifact supplies. *)
Definition file_contents (io : string -> ArtifactIo) (requester : OwnerKey) (max_file : N) (f : UploadFileArg) (s : Store)
  : Store * result (list byte * option string) McpError :=
  match uf_content_base64 f, uf_artifact_id f with
  | Some _, Some _ => (s, Err (rejected (uf_filename f ++ ": give either contentBase64 or artifactId, not both")%string))
  | None, None => (s, Err (rejected (uf_filename f
      ++ ": contentBase64 or artifactId is required (the server cannot read client-local paths)")%string))
  | Some encoded, None => (s, let? bytes := decode_inline (uf_filename f) encoded max_file in Ok (bytes, None))
  | None, Some id => read_artifact (io id) requester (uf_filename f) id max_file s
  end.

Fixpoint prepare_loop (io : string -> ArtifactIo) (requester : OwnerKey) (limits : UploadLimits) (seen : gset string) (total : N)
  (args : list UploadFileArg) (s : Store) : Store * result (list PreparedFile) McpError :=
  match args with
  | [] => (s, Ok [])
  | f :: rest =>
      match validate_filename (uf_filename f) with
      | Err e => (s, Err e)
      | Ok _ =>
          if bool_decide (to_lowercase (uf_filename f) ∈ seen)
          then (s, Err (rejected ("filename " ++ uf_filename f ++ " appears more than once (names are compared case-insensitively)")%string))
          else
            match file_contents io requester (max_file_bytes limits) f s with
            | (s, Err e) => (s, Err e)
            | (s, Ok (bytes, artifact_type)) =>
                let total := N.min U64_MAX (total + N.of_nat (length bytes)) in
                if (max_total_bytes limits <? total)%N
                then (s, Err (too_large ("decoded upload total exceeds the " ++ describe_bytes (max_total_bytes limits) ++ " limit")%string))
                else
                  match (match uf_mime_type f with
                         | Some explicit => validate_content_type (uf_filename f) explicit
                         | None => Ok (default DEFAULT_CONTENT_TYPE artifact_type)
                         end) with
                  | Err e => (s, Err e)
                  | Ok content_type =>
                      let '(s, r) := prepare_loop io requester limits ({[to_lowercase (uf_filename f)]} ∪ seen) total rest s in
                      (s, let? files := r in
                          Ok ({| pf_filename := uf_filename f; pf_content_type := content_type; pf_bytes := bytes |} :: files))
                  end
            end
      end
  end.

Definition prepare_files (io : string -> ArtifactIo) (requester : OwnerKey) (args : list UploadFileArg) (limits : UploadLimits) (s : Store)
  : Store * result (list PreparedFile) McpError :=
  if bool_decide (args = []) then (s, Err (rejected "at least one file is required"))
  else if (max_files limits <? length args)%nat
  then (s, Err (rejected (decimal (N.of_nat (length args)) ++ " files supplied; at most " ++ decimal (N.of_nat (max_files limits)) ++ " per call")%string))
  else prepare_loop io requester limits ∅ 0 args s.

(** ** What a prepared file is *)

(** The bytes are those the argument names: the decoded text, or an artifact
    of this requester, whole. *)
Definition supplied (requester : OwnerKey) (s : Store) (f : UploadFileArg) (bytes : list byte) : Prop :=
  match uf_content_base64 f, uf_artifact_id f with
  | Some encoded, None => base64_decode (List.filter (fun b => negb (is_ascii_whitespace b)) (as_bytes encoded)) = Some bytes
  | None, Some id => exists e contents, registry s !! id = Some e /\ ra_lifecycle e = Readable /\ ra_owner e = requester
      /\ files s !! am_path (ra_metadata e) = Some contents
      /\ bytes = take (N.to_nat (am_size (ra_metadata e))) contents /\ N.of_nat (length bytes) = am_size (ra_metadata e)
  | _, _ => False
  end.

(** A name that is one path segment and safe between quotes. *)
Definition plain_name (name : string) : Prop :=
  name <> "" /\ name <> "." /\ name <> ".." /\ (str_len name <= MAX_FILENAME_BYTES)%nat /\ trim name = name
  /\ Forall (fun c => reserved_char c = false) (chars (as_bytes name)).

(** Pinning and releasing leave the store as it was. *)
Lemma pin_release id requester s s1 pin :
  pin_artifact id requester s = (s1, Some pin) ->
  (release_pin id (pin_generation pin) s1).1 = s /\ files s1 = files s
  /\ exists e, registry s !! id = Some e /\ ra_lifecycle e = Readable /\ ra_owner e = requester /\ pin_metadata pin = ra_metadata e.
Proof.
  unfold pin_artifact. destruct (shutting_down s) eqn:Hsd; [done|]. destruct (registry s !! id) as [e|] eqn:He; [|done].
  destruct (bool_decide (ra_lifecycle e = Readable)) eqn:Hr; [|done]. destruct (bool_decide (ra_owner e = requester)) eqn:Ho; [|done].
  cbn [negb orb]. unfold checked_add. destruct (_ <? _)%N eqn:Hc; [done|]. intros [= <- <-]. apply bool_decide_eq_true in Hr, Ho. cbn [pin_generation pin_metadata].
  split; [|split; [done|by exists e]].
  unfold release_pin. cbn [set_pins set_registry read_pins registry]. rewrite bool_decide_eq_true_2 by set_solver. cbn [negb remove_pin].
  rewrite bool_decide_eq_true_2 by done. rewrite lookup_insert_eq. cbn [ra_generation set_entry_pins ra_pins]. rewrite N.eqb_refl.
  replace (ra_pins e + 1 =? 0)%N with false by (symmetry; apply N.eqb_neq; lia). cbn [negb orb fst].
  rewrite insert_insert_eq, N.add_sub. replace (set_entry_pins (ra_pins e) _) with e by (by destruct e).
  rewrite insert_id by done. by destruct s.
Qed.

Lemma read_artifact_ok io requester filename id max_file s s' bytes kind :
  read_artifact io requester filename id max_file s = (s', Ok (bytes, kind)) ->
  s' = s /\ (0 < N.of_nat (length bytes) <= max_file)%N
  /\ exists e contents, registry s !! id = Some e /\ ra_lifecycle e = Readable /\ ra_owner e = requester
       /\ files s !! am_path (ra_metadata e) = Some contents
       /\ bytes = take (N.to_nat (am_size (ra_metadata e))) contents /\ N.of_nat (length bytes) = am_size (ra_metadata e)
       /\ kind = artifact_media_type (am_content_type (ra_metadata e)).
Proof.
  unfold read_artifact. destruct (pin_artifact id requester s) as [s1 [pin|]] eqn:Ep; [|done].
  destruct (pin_release _ _ _ _ _ Ep) as (Hrel & Hf & e & He & Hr & Ho & Hm). rewrite Hrel, Hf, Hm.
  destruct (N.ltb_spec max_file (am_size (ra_metadata e))) as [|Hle]; [done|]. destruct (N.eqb_spec (am_size (ra_metadata e)) 0) as [|Hne]; [done|].
  destruct (io_open io); [|done]. destruct (files s !! _) as [contents|] eqn:Ef; [|done]. destruct (io_read io); [|done].
  destruct (N.eqb_spec (N.of_nat (length (take (N.to_nat (am_size (ra_metadata e))) contents))) (am_size (ra_metadata e))) as [Hl|]; [|done].
  intros [= <- <- <-]. split; [done|]. split; [lia|]. exists e, contents. split_and!; done.
Qed.

Lemma read_artifact_store io requester filename id max_file s : (read_artifact io requester filename id max_file s).1 = s.
Proof.
  unfold read_artifact. destruct (pin_artifact id requester s) as [s1 [pin|]] eqn:Ep; [by destruct (pin_release _ _ _ _ _ Ep)|].
  unfold pin_artifact in Ep. cbn. repeat case_match; congruence.
Qed.

Lemma validate_filename_ok name : validate_filename name = Ok tt -> plain_name name.
Proof.
  unfold validate_filename, plain_name, str_is_empty. destruct (String.eqb_spec name ""); [done|].
  destruct (Nat.ltb_spec MAX_FILENAME_BYTES (str_len name)); [done|].
  destruct (String.eqb_spec name "."); [done|]. destruct (String.eqb_spec name ".."); [done|]. cbn [orb].
  destruct (String.eqb_spec (trim name) name); [|done]. cbn [negb].
  destruct (List.find _ _) eqn:Ef; [done|]. intros _. split_and!; try done. apply Forall_forall. intros c Hc.
  apply list_elem_of_In in Hc. by apply (List.find_none _ _ Ef).
Qed.

(** A media type the caller gives has no line break. *)
Lemma validate_content_type_clean filename raw kind : validate_content_type filename raw = Ok kind -> forallb is_ascii_graphic (as_bytes kind) = true.
Proof.
  unfold validate_content_type. destruct (_ && _) eqn:Hv; [|done]. intros [= <-].
  apply andb_true_iff in Hv as [[[_ Hg]%andb_true_iff _]%andb_true_iff _]. unfold to_ascii_lowercase. rewrite as_of_bytes.
  rewrite forallb_elem_of in *. intros b Hb. apply list_elem_of_fmap in Hb as (x & -> & Hx). apply Hg in Hx. revert Hx. 
  pose proof (byte_forall (fun x => negb (is_ascii_graphic x) || is_ascii_graphic (ascii_lower x)) eq_refl x) as H. cbv beta in H.
  by destruct (is_ascii_graphic x).
Qed.

(** What holds of each file that is accepted. *)
Definition prepared_from (requester : OwnerKey) (limits : UploadLimits) (s : Store) (f : UploadFileArg) (p : PreparedFile) : Prop :=
  pf_filename p = uf_filename f /\ plain_name (pf_filename p) /\ supplied requester s f (pf_bytes p)
  /\ (0 < N.of_nat (length (pf_bytes p)) <= max_file_bytes limits)%N
  /\ match uf_mime_type f with
     | Some raw => validate_content_type (uf_filename f) raw = Ok (pf_content_type p)
     | None => pf_content_type p = DEFAULT_CONTENT_TYPE
               \/ exists id e, uf_artifact_id f = Some id /\ registry s !! id = Some e
                    /\ artifact_media_type (am_content_type (ra_metadata e)) = Some (pf_content_type p)
     end.

Definition total_bytes (files : list PreparedFile) : N := foldr (fun p acc => (N.of_nat (length (pf_bytes p)) + acc)%N) 0%N files.

Lemma file_contents_store io requester max_file f s : (file_contents io requester max_file f s).1 = s.
Proof. unfold file_contents. destruct (uf_content_base64 f), (uf_artifact_id f); try done. apply read_artifact_store. Qed.

Lemma file_contents_ok io requester max_file f s s' bytes kind :
  file_contents io requester max_file f s = (s', Ok (bytes, kind)) ->
  supplied requester s f bytes /\ (0 < N.of_nat (length bytes) <= max_file)%N
  /\ (kind = None \/ exists id e, uf_artifact_id f = Some id /\ registry s !! id = Some e
                       /\ kind = artifact_media_type (am_content_type (ra_metadata e))).
Proof.
  unfold file_contents, supplied. destruct (uf_content_base64 f) as [encoded|], (uf_artifact_id f) as [id|]; try done.
  - unfold decode_inline. destruct (starts_with_bytes _ _); [done|]. destruct (bool_decide (_ = [])); [done|].
    destruct (_ <? _)%N; [done|]. destruct (base64_decode _) as [b|]; [|done]. destruct (bool_decide (b = [])) eqn:Eb; [done|].
    destruct (N.ltb_spec max_file (N.of_nat (length b))); [done|]. cbn. intros [= <- <- <-]. apply bool_decide_eq_false in Eb.
    split; [done|]. split; [|by left]. assert (length b <> 0%nat) by (by destruct b). lia.
  - intros Hr. apply read_artifact_ok in Hr as (_ & Hl & e & contents & He & Hlc & Ho & Hf & Hb & Hn & Hk).
    split; [by exists e, contents|]. split; [done|]. right. by exists id, e.
Qed.

Lemma prepare_loop_ok io requester limits args : forall seen total s s' files,
  (max_total_bytes limits < U64_MAX)%N -> (total <= max_total_bytes limits)%N ->
  prepare_loop io requester limits seen total args s = (s', Ok files) ->
  s' = s /\ Forall2 (prepared_from requester limits s) args files
  /\ NoDup (map (fun p => to_lowercase (pf_filename p)) files)
  /\ Forall (fun p => to_lowercase (pf_filename p) ∉ seen) files
  /\ (total + total_bytes files <= max_total_bytes limits)%N.
Proof.
  induction args as [|f args IH]; intros seen total s s' files Hm Ht; cbn [prepare_loop].
  { intros [= <- <-]. split_and!; try done; [constructor|cbn; lia]. }
  destruct (validate_filename (uf_filename f)) as [[]|] eqn:Ev; [|done]. apply validate_filename_ok in Ev.
  destruct (bool_decide (_ ∈ seen)) eqn:Es; [done|]. apply bool_decide_eq_false in Es.
  pose proof (file_contents_store io requester (max_file_bytes limits) f s) as Hst.
  destruct (file_contents io requester (max_file_bytes limits) f s) as [s1 [[bytes kind]|e]] eqn:Ec; [|done]. cbn in Hst. subst s1.
  apply file_contents_ok in Ec as (Hsup & Hlen & Hkind).
  destruct (N.ltb_spec (max_total_bytes limits) (N.min U64_MAX (total + N.of_nat (length bytes)))) as [|Htot]; [done|].
  destruct (match uf_mime_type f with Some _ => _ | None => _ end) as [ct|] eqn:Et; [|done].
  destruct (prepare_loop _ _ _ _ _ args s) as [s2 [rest|]] eqn:Er; [|done]. intros [= <- <-].
  apply IH in Er as (-> & Hall & Hnd & Hns & Hsum); [|lia..]. split; [done|]. split_and!.
  - constructor; [|done]. split; [done|]. split; [done|]. split; [done|]. split; [done|]. cbn [pf_content_type].
    destruct (uf_mime_type f) as [raw|]; [done|]. injection Et as <-.
    destruct Hkind as [->|(id & e & Hid & He & ->)]; [by left|]. destruct (artifact_media_type _) eqn:Em; [|by left]. right. by exists id, e.
  - cbn [map pf_filename]. constructor; [|done]. rewrite list_elem_of_fmap. intros (p & Hp & Hin).
    rewrite Forall_forall in Hns. apply Hns in Hin. set_solver.
  - constructor; [done|]. eapply Forall_impl; [exact Hns|]. set_solver.
  - cbn [total_bytes foldr pf_bytes]. unfold total_bytes in Hsum. lia.
Qed.

Lemma limits_bounded c vendor : (max_total_bytes (upload_limits c vendor) < U64_MAX)%N.
Proof.
  assert (H : forall raw d, (bounded_upload_bytes raw d <= MAX_UPLOAD_BYTES_CEILING)%N) by (intros; apply N.le_min_r).
  eapply N.le_lt_trans; [apply H|done].
Qed.

Lemma prepare_files_ok io requester args config vendor s files :
  (prepare_files io requester args (upload_limits config vendor) s).2 = Ok files ->
  Forall2 (prepared_from requester (upload_limits config vendor) s) args files
  /\ NoDup (map (fun p => to_lowercase (pf_filename p)) files)
  /\ (total_bytes files <= max_total_bytes (upload_limits config vendor))%N.
Proof.
  unfold prepare_files. destruct (bool_decide (args = [])); [done|]. destruct (_ <? _)%nat; [done|].
  destruct (prepare_loop io requester (upload_limits config vendor) ∅ 0 args s) as [s' r] eqn:E. cbn [snd]. intros ->.
  apply prepare_loop_ok in E as (_ & Hall & Hnd & _ & Hsum); [split_and!; [done|done|lia]|apply limits_bounded|lia].
Qed.

(** Files are taken only within the limits in force.  Of an accepted call,
    every file is there, in order, under a name that is one plain path segment,
    with exactly the bytes its argument names (an artifact only for the
    requester that owns it), not empty and not over the limit per file; all
    together they keep within the limit per call and their number within the
    limit on files, and no two names are the same when compared without case.
    Whatever the answer, the artifact store and its pins are as before. *)
Theorem prepared_within_limits io requester args config vendor s :
  let limits := upload_limits config vendor in
  let '(s', r) := prepare_files io requester args limits s in
  s' = s
  /\ forall files, r = Ok files ->
       Forall2 (prepared_from requester limits s) args files
       /\ (0 < length files <= MAX_UPLOAD_FILES)%nat
       /\ NoDup (map (fun p => to_lowercase (pf_filename p)) files)
       /\ (total_bytes files <= max_total_bytes limits <= MAX_UPLOAD_BYTES_CEILING)%N.
Proof.
  cbv zeta. set (limits := upload_limits config vendor). unfold prepare_files.
  destruct (bool_decide (args = [])) eqn:Ea; [done|]. apply bool_decide_eq_false in Ea.
  destruct (Nat.ltb_spec (max_files limits) (length args)) as [|Hn]; [done|].
  assert (Hst : forall args seen total, (prepare_loop io requester limits seen total args s).1 = s).
  { clear. induction args as [|f args IH]; intros seen total; cbn [prepare_loop]; [done|].
    destruct (validate_filename _); [|done]. destruct (bool_decide _); [done|].
    pose proof (file_contents_store io requester (max_file_bytes limits) f s) as Hf.
    destruct (file_contents _ _ _ _ _) as [s1 [[bytes kind]|]]; cbn in Hf; subst s1; [|done]. destruct (_ <? _)%N; [done|].
    destruct (match uf_mime_type f with Some _ => _ | None => _ end); [|done]. specialize (IH ({[to_lowercase (uf_filename f)]} ∪ seen) (N.min U64_MAX (total + N.of_nat (length bytes)))).
    destruct (prepare_loop _ _ _ _ _ args s). exact IH. }
  specialize (Hst args ∅ 0%N). destruct (prepare_loop io requester limits ∅ 0 args s) as [s' r] eqn:E. cbn in Hst. subst s'. split; [done|].
  intros files ->. pose proof (limits_bounded config vendor). apply prepare_loop_ok in E as (_ & Hall & Hnd & _ & Hsum); [|done|lia].
  split; [done|]. pose proof (Forall2_length _ _ _ Hall) as Hl. change (max_files limits) with MAX_UPLOAD_FILES in Hn.
  split; [destruct args; [done|]; cbn [length] in *; lia|].
  split; [done|]. split; [lia|apply N.le_min_r].
Qed.
End Prepare.
