(* ===== verification/BitbucketUpload.v ===== *)
(** * Uploads to Bitbucket Downloads
      (src/src/controllers/bitbucket_downloads.rs, src/src/workspace.rs)

    [upload_downloads]: validate the input, list what exists, refuse a
    collision, send one multipart body, say what the outcome is.  Credentials
    are the answer of [require_for_async] ([Credentials]); [join_url] is the
    url crate's; rendering the outcome as text is left out. *)
From S2P Require Import Prelude RustStr Json PolicyTypes Signing Bundle PolicyEngine Canonical Extractors Config Scope ResponseCache Egress Transport Multipart Upload ToolCall Writer Artifacts UploadInput.

Definition FILES_FIELD : string := "files".
Definition WEB_BASE_URL : string := "https://bitbucket.org".
Definition LISTING_PAGE_LEN : N := 100.
Definition MAX_LISTING_PAGES : nat := 50.

Inductive ConflictPolicy := CFail | CReplace.

#[export] Instance ConflictPolicy_eq_dec : EqDecision ConflictPolicy.
Proof. solve_decision. Defined.

Record UploadArgs := {
  ua_workspace_slug : option string;
  ua_repo_slug : string;
  ua_files : list UploadFileArg;
  ua_on_conflict : option ConflictPolicy;
}.

Record UploadedArtifact := {
  up_name : string;
  up_size : N;
  up_mime_type : string;
  up_download_url : string;
  up_browser_url : string;
  up_replaced : bool;
}.

Record DownloadsUploadOutcome := {
  do_workspace : string;
  do_repo_slug : string;
  do_downloads_url : string;
  do_files : list UploadedArtifact;
}.

Definition is_slug_byte (b : byte) : bool := is_ascii_alphanumeric b || existsb (beqb b) (as_bytes ".-_").

(** The pattern of [value[1..value.len() - 1]] between braces. *)
Definition is_braced_uuid (l : list byte) : bool :=
  match l with
  | b :: rest =>
      (2 <? length l)%nat && beqb b (byte_of 123)
      && match last rest with Some e => beqb e (byte_of 125) | None => false end
      && forallb (fun b => is_ascii_hexdigit b || beqb b (byte_of 45)) (removelast rest)
  | [] => false
  end.

Definition segment_ok (value : string) : bool :=
  negb (str_is_empty value || String.eqb value "." || String.eqb value "..")
  && (forallb is_slug_byte (as_bytes value) || is_braced_uuid (as_bytes value)).

Definition validate_segment (what value : string) : result unit McpError :=
  if segment_ok value then Ok tt
  else Err (api_error ("Upload rejected: " ++ what ++ " " ++ value
         ++ " must be a slug (letters, digits, '.', '-', '_') or a {uuid}")%string (Some 400%N) None).

Definition quoted (s : string) : string := of_bytes ([QUOTE] ++ as_bytes s ++ [QUOTE]).

Definition set_message (message : string) (e : McpError) : McpError :=
  {| err_message := message; err_kind := err_kind e; err_status := err_status e; err_original := err_original e |}.

Definition explain_listing_failure (e : McpError) (downloads_path : string) : McpError :=
  set_message (err_message e ++ " (while listing " ++ downloads_path
               ++ " to check for name collisions; nothing was uploaded)")%string e.

Definition unknown_outcome (e : McpError) : bool :=
  match err_kind e with UnexpectedError => true | _ => false end
  || match err_status e with Some code => (code =? 408)%N || (500 <=? code)%N | None => false end.

Definition explain_upload_failure (e : McpError) (downloads_path : string) : McpError :=
  if unknown_outcome e then
    set_message ("Upload outcome unknown: " ++ err_message e
                 ++ ". The request may have reached Bitbucket before it failed. Run bb_get on " ++ downloads_path
                 ++ " to see which artifacts exist before retrying; a retry replaces any artifact that did upload.")%string e
  else match err_status e with
       | Some code =>
           if (code =? 429)%N then
             set_message (err_message e ++ ". This tool does not retry automatically; wait for the rate-limit window and call it again (nothing was uploaded).")%string e
           else if (400 <=? code)%N && (code <? 500)%N then set_message (err_message e ++ " (nothing was uploaded)")%string e
           else e
       | None => e
       end.

Definition as_array (v : Value) : option (list Value) := match v with VArray l => Some l | _ => None end.

(** The manifest offered to the policy; objects are ordered by key. *)
Definition manifest (files : list PreparedFile) (p : ConflictPolicy) : Value :=
  VObject [("files", VArray (map (fun f => VObject [("mimeType", VString (pf_content_type f)); ("name", VString (pf_filename f));
                                                    ("size", VNumber (decimal (N.of_nat (length (pf_bytes f)))))]) files));
           ("onConflict", VString (match p with CFail => "fail" | CReplace => "replace" end));
           ("upload", VString "bitbucket-downloads")].

Definition part_of (f : PreparedFile) : FilePart :=
  {| fp_field := FILES_FIELD; fp_filename := pf_filename f; fp_content_type := pf_content_type f; fp_bytes := pf_bytes f |}.

Definition extract_first_slug (v : Value) : option string :=
  values ← value_get v "values"; items ← as_array values; first ← head items;
  workspace ← value_get first "workspace"; slug ← value_get workspace "slug"; as_str slug.

Definition listing_options : RequestOptions :=
  {| fresh := true; sensitive_response := false; opt_method := Some Get; opt_headers := []; opt_body := None; opt_form := None;
     opt_text_body := None; opt_timeout := None |}.

(** Replaced names of an answer. *)
Definition colliding (files : list PreparedFile) (existing : list string) : list string :=
  map pf_filename (List.filter (fun f => bool_decide (pf_filename f ∈ existing)) files).

Section Controller.
Context `{UrlLib} `{HttpLib} `{BodyCodec}.
Variable sha256 : list byte -> list byte.
Variable form_urlencoded : list Pair -> list byte.
Variable join_url : string -> list string -> result string McpError.
Variable env : Env.
Variable scope : option CallScope.
Variable vendor : Vendor.
Variable config : Config.
(** What [Credentials::require_for_async] answers. *)
Variable creds : result Credentials McpError.

Definition bb_fetch := fetch sha256 form_urlencoded env scope vendor.

Definition fetch_first_workspace : EM (result (option string) McpError) :=
  try! c := lift creds in
  try! response := bb_fetch c config "/2.0/user/permissions/workspaces?pagelen=10" no_options in
  ret (Ok (match data response with Json v => extract_first_slug v | _ => None end)).

(** The memoised slug and the answer. *)
Definition resolve_default_workspace (cache : option string) : EM (option string * option string) :=
  match cache with
  | Some slug => ret (cache, Some slug)
  | None =>
      match (match get_for config "bitbucket" "BITBUCKET_DEFAULT_WORKSPACE" with
             | Some slug => if str_is_empty slug then None else Some slug
             | None => None
             end) with
      | Some slug => ret (Some slug, Some slug)
      | None =>
          let! found := fetch_first_workspace in
          ret (match found with Ok (Some slug) => (Some slug, Some slug) | _ => (cache, None) end)
      end
  end.

Definition resolve_workspace (cache explicit : option string) : EM (option string * result string McpError) :=
  match (match explicit with Some slug => if str_is_empty slug then None else Some slug | None => None end) with
  | Some slug => ret (cache, Ok slug)
  | None =>
      let! found := resolve_default_workspace cache in
      ret (found.1, match found.2 with
                    | Some slug => Ok slug
                    | None => Err (api_error "No default workspace found. Please provide a workspace slug." (Some 400%N) None)
                    end)
  end.

Definition not_verified (downloads_path detail : string) : McpError :=
  api_error ("Cannot verify artifact names: GET " ++ downloads_path ++ detail ++ " Nothing was uploaded.")%string (Some 502%N) None.

(** The pages from [page] on, at most [left] of them. *)
Fixpoint listing_pages (left : nat) (page : N) (c : Credentials) (downloads_path : string) (names : list string)
  : EM (result (list string) McpError) :=
  match left with
  | O => ret (Err (api_error ("Cannot verify artifact names: " ++ downloads_path ++ " holds more than "
             ++ decimal (LISTING_PAGE_LEN * N.of_nat MAX_LISTING_PAGES)
             ++ " artifacts. Delete unused artifacts first, or pass onConflict: " ++ quoted "replace"
             ++ " only if overwriting is acceptable. Nothing was uploaded.")%string
             (Some 409%N) None))
  | S left' =>
      let! response := bb_fetch c config (downloads_path ++ "?pagelen=" ++ decimal LISTING_PAGE_LEN ++ "&page=" ++ decimal page)%string listing_options in
      match response with
      | Err e => ret (Err (explain_listing_failure e downloads_path))
      | Ok response =>
          match data response with
          | Json value =>
              match value_get value "values" ≫= as_array with
              | None => ret (Err (not_verified downloads_path " returned no `values` array."))
              | Some values =>
                  let names := names ++ omap (fun artifact => value_get artifact "name" ≫= as_str) values in
                  if bool_decide (values = []) || bool_decide (value_get value "next" ≫= as_str = None) then ret (Ok names)
                  else listing_pages left' (page + 1) c downloads_path names
              end
          | _ => ret (Err (not_verified downloads_path " did not return JSON."))
          end
      end
  end.

Definition existing_artifact_names (c : Credentials) (downloads_path : string) : EM (result (list string) McpError) :=
  listing_pages MAX_LISTING_PAGES 1 c downloads_path [].

Definition uploaded_artifact (base workspace repo_slug : string) (replaced : list string) (f : PreparedFile) : result UploadedArtifact McpError :=
  let? download := join_url base ["2.0"; "repositories"; workspace; repo_slug; "downloads"; pf_filename f] in
  let? browser := join_url WEB_BASE_URL [workspace; repo_slug; "downloads"; pf_filename f] in
  Ok {| up_name := pf_filename f; up_size := N.of_nat (length (pf_bytes f)); up_mime_type := pf_content_type f;
        up_download_url := download; up_browser_url := browser; up_replaced := bool_decide (pf_filename f ∈ replaced) |}.

Definition build_outcome (base workspace repo_slug : string) (files : list PreparedFile) (replaced : list string)
  : result DownloadsUploadOutcome McpError :=
  let? uploaded := collect_results (uploaded_artifact base workspace repo_slug replaced) files in
  let? page := join_url WEB_BASE_URL [workspace; repo_slug; "downloads"] in
  Ok {| do_workspace := workspace; do_repo_slug := repo_slug; do_downloads_url := page; do_files := uploaded |}.

Definition downloads_path_of (workspace repo_slug : string) : string :=
  ("/2.0/repositories/" ++ workspace ++ "/" ++ repo_slug ++ "/downloads")%string.

(** [prepared] is the answer of [prepare_files] for the arguments' files, and
    [random] the sixteen bytes drawn for the boundary.  A refused boundary
    would panic: no answer. *)
Definition upload_downloads (prepared : result (list PreparedFile) McpError) (random : list byte) (cache : option string) (args : UploadArgs)
  : EM (option string * result (DownloadsUploadOutcome * option string) McpError) :=
  match (let? _ := validate_segment "repoSlug" (ua_repo_slug args) in
         let? _ := match ua_workspace_slug args with
                   | Some explicit => if str_is_empty explicit then Ok tt else validate_segment "workspaceSlug" explicit
                   | None => Ok tt
                   end in
         let? files := prepared in
         let? c := creds in Ok (files, c)) with
  | Err e => ret (cache, Err e)
  | Ok (files, c) =>
      let! found := resolve_workspace cache (ua_workspace_slug args) in
      let! r :=
        try! workspace := lift found.2 in
        try! _ := lift (validate_segment "workspaceSlug" workspace) in
        let downloads_path := downloads_path_of workspace (ua_repo_slug args) in
        let policy := default CFail (ua_on_conflict args) in
        try! existing := existing_artifact_names c downloads_path in
        let replaced := colliding files existing in
        if bool_decide (policy = CFail) && negb (bool_decide (replaced = [])) then
          ret (Err (api_error ("Upload refused: " ++ String.concat ", " replaced ++ " already exist(s) in " ++ workspace ++ "/"
            ++ ua_repo_slug args ++ " Downloads. Bitbucket replaces same-name artifacts silently, so choose different filenames or pass onConflict: "
            ++ quoted "replace" ++ " to overwrite deliberately. Nothing was uploaded.")%string
            (Some 409%N) None))
        else
          match encode random (map part_of files) with
          | None => ret (Err (unexpected "multipart boundary must be 1-70 RFC 2046 bchars" None))
          | Some body =>
              let! sent := post_multipart sha256 form_urlencoded env scope vendor c config
                {| mr_path := downloads_path; mr_body := body; mr_headers := []; mr_manifest := Some (manifest files policy) |} in
              match sent with
              | Err e => ret (Err (explain_upload_failure e downloads_path))
              | Ok response =>
                  try! base := lift (base_url vendor config) in
                  try! outcome := lift (build_outcome base workspace (ua_repo_slug args) files replaced) in
                  ret (Ok (outcome, raw_response_path response))
              end
          end in
      ret (found.1, r)
  end.

End Controller.

(** ** What a program sends *)

(** [m] sends requests of the kind [P] and no others. *)
Definition only_sends (P : WireRequest -> Prop) {A} (m : EM A) : Prop :=
  forall w, exists l, sends (trace (m w).1) = sends (trace w) ++ l /\ Forall P l.

Section OnlySends.
Variable P : WireRequest -> Prop.

Lemma only_ret {A} (a : A) : only_sends P (ret a).
Proof. intros w. exists []. by rewrite app_nil_r. Qed.

Lemma only_bind {A B} (m : EM A) (k : A -> EM B) : only_sends P m -> (forall a, only_sends P (k a)) -> only_sends P (bind m k).
Proof.
  intros Hm Hk w. destruct (Hm w) as (l & Hl & HP). unfold bind. destruct (m w) as [w' a]. destruct (Hk a w') as (l' & Hl' & HP').
  exists (l ++ l'). split; [cbn in Hl; by rewrite Hl', Hl, app_assoc|by apply Forall_app].
Qed.

Lemma only_try {A B E} (m : EM (result A E)) (k : A -> EM (result B E)) :
  only_sends P m -> (forall a, only_sends P (k a)) -> only_sends P (try_bind m k).
Proof. intros Hm Hk. apply only_bind; [done|]. intros [a|e]; [apply Hk|apply only_ret]. Qed.

Lemma only_ask {A} (answer : nat -> A) : only_sends P (ask answer).
Proof. intros w. exists []. by rewrite app_nil_r. Qed.

Lemma only_on_log {A} (f : EgressLog -> EgressLog * A) : only_sends P (on_log f).
Proof. intros w. exists []. unfold on_log. destruct (f (elog w)). by rewrite app_nil_r. Qed.

Lemma only_on_cache {A} (f : Cache -> Cache * A) : only_sends P (on_cache f).
Proof. intros w. exists []. unfold on_cache. destruct (f (cache w)). by rewrite app_nil_r. Qed.

Lemma only_send env r : P r -> only_sends P (send env r).
Proof. intros Hr w. exists [r]. split; [cbn; by rewrite sends_app|by constructor]. Qed.

Lemma only_authorize `{UrlLib} sha256 form env scope vendor m target body dest redact :
  only_sends P (authorize_at sha256 form env scope vendor m target body dest redact).
Proof.
  intros w. exists []. split; [|done]. rewrite app_nil_r.
  apply (wp_authorize_sends sha256 form env scope vendor m target body dest redact (fun _ w' => sends (trace w') = sends (trace w))). done.
Qed.
End OnlySends.

Create HintDb only.
#[export] Hint Resolve only_ret only_ask only_on_log only_on_cache only_authorize : only.

Ltac solve_only :=
  repeat first
    [ progress cbv zeta
    | solve [auto with only]
    | match goal with |- only_sends _ (send _ _) => apply only_send end
    | apply only_bind; [|intros ?]
    | apply only_try; [|intros ?]
    | match goal with
      | |- only_sends _ (match ?x with _ => _ end) => destruct x
      | |- only_sends _ (lift _) => apply only_ret
      end ].

Definition not_upload (r : WireRequest) : Prop := match wr_body r with BMultipart _ => False | _ => True end.

Section Sent.
Context `{U : UrlLib} `{HL : HttpLib} `{BC : BodyCodec}.
Variable sha256 : list byte -> list byte.
Variable form_urlencoded : list Pair -> list byte.
Variable join_url : string -> list string -> result string McpError.
Variable env : Env.
Variable scope : option CallScope.
Variable vendor : Vendor.
Variable config : Config.

Lemma only_report P t status failure : only_sends P (report_attempt t status failure).
Proof. unfold report_attempt. solve_only. Qed.
#[local] Hint Resolve only_report : only.

Lemma build_request_plain m url name value options : not_upload (build_request m url name value options).
Proof. unfold build_request, not_upload. by destruct (opt_form options), (opt_body options), (opt_text_body options). Qed.
#[local] Hint Resolve build_request_plain : only.

Lemma only_follow initial response method options auth deadline :
  only_sends not_upload (follow sha256 form_urlencoded env scope (v_name vendor) config initial response method options auth deadline).
Proof.
  unfold follow. apply only_try; [apply only_ret|]. intros original. generalize [original] at 1 as seen.
  generalize (bool_decide (is_Some auth)). generalize original at 2 as current. revert response.
  assert (Hretry : forall attempt requested, only_sends not_upload (retry_stream_attempt env attempt deadline requested))
    by (intros; unfold retry_stream_attempt, remaining_until; solve_only).
  assert (Hrest : only_sends not_upload (remaining_until env deadline)) by (unfold remaining_until; solve_only).
  assert (Hplain : forall url, not_upload (plain_get url)) by done.
  induction MAX_HOPS as [|hops IH]; intros response current cred seen; cbn [follow_loop];
    unfold redirect_authorize, authorize_download_egress; solve_only;
    repeat case_match; auto with only.
Qed.
#[local] Hint Resolve only_follow only_send : only.

Lemma only_fetch c path options : only_sends not_upload (fetch sha256 form_urlencoded env scope vendor c config path options).
Proof. unfold fetch, authorize_egress_at, report_cache_hit, classify_body. solve_only. Qed.

(** An upload makes at most one request, after the path and the credentials are accepted. *)
Definition one_upload (c : Credentials) (request : MultipartRequest) (w : World) (r : result TransportResponse McpError) (w' : World) : Prop :=
  (sends (trace w') = sends (trace w) /\ exists e, r = Err e)
  \/ exists base target auth, base_url vendor config = Ok base /\ canonical_target_of (mr_path request) = Ok target
       /\ validate_auth c = Ok auth
       /\ sends (trace w') = sends (trace w)
            ++ [upload_request (of_bytes (url_under form_urlencoded (as_bytes base) target)) auth (body_content_type (mr_body request)) request].

Lemma post_multipart_sends c request w :
  wp (post_multipart sha256 form_urlencoded env scope vendor c config request) (one_upload c request w) w.
Proof.
  unfold post_multipart. apply wp_try, wp_ret. destruct (base_url vendor config) as [base|e] eqn:Eb; [|left; eauto].
  apply wp_try, wp_ret. destruct (canonical_target_of (mr_path request)) as [target|e] eqn:Et; [|left; eauto].
  apply wp_try, wp_authorize_sends. intros [ticket|e] w1 H1; [|left; eauto]. cbv zeta.
  apply wp_try, wp_ret. destruct (validate_auth c) as [auth|e] eqn:Ea; [|left; eauto].
  apply wp_bind, wp_ask. intros started w2 [H2 _]. destruct (negb (header_value_ok _)); [apply wp_ret; left; rewrite H2; eauto|].
  apply wp_bind, wp_on_cache. intros ? w3 [H3 _].
  set (req := upload_request _ auth _ request). apply wp_bind. unfold send. apply wp_bind, wp_emit. intros w4 H4 _. apply wp_ask. intros answer w5 [H5 _].
  assert (Hs : sends (trace w5) = sends (trace w) ++ [req]) by (rewrite H5, H4, sends_app, H3, H2, H1; done).
  match goal with |- wp ?m _ _ => assert (Hm : only_sends (fun _ => False) m) end.
  { unfold classify_body. solve_only. }
  destruct (Hm w5) as (l & Hl & HF). destruct l; [|by apply Forall_cons in HF as [[] _]]. rewrite app_nil_r in Hl.
  unfold wp. right. exists base, target, auth. split_and!; try done. by rewrite Hl, Hs.
Qed.
End Sent.

(** ** Clean names and types *)

(** In UTF-8 a byte below 128 is a character of its own. *)
Lemma ascii_char_alone b n : forall l, (length l <= n)%nat -> utf8_valid l = true -> (code b < 128)%N -> b ∈ l -> [b] ∈ chars_fuel n l.
Proof.
  induction n as [n IH] using lt_wf_ind. intros l Hn Hv Hb Hin. destruct l as [|a l1]; [by apply not_elem_of_nil in Hin|].
  destruct n as [|n]; [cbn in Hn; lia|]. cbn [chars_fuel]. unfold char_width. cbn [utf8_valid] in Hv. cbn [length] in Hn.
  destruct (N.ltb_spec (code a) 128) as [Ha|Ha].
  { cbn [take drop]. apply elem_of_cons in Hin as [->|Hin]; [left|right; cbn [drop]; rewrite drop_0; apply (IH n); [lia|lia|done..]]. }
  assert (Hcont : forall x, is_cont x = true \/ between 160 x 191 = true \/ between 128 x 159 = true \/ between 144 x 191 = true \/ between 128 x 143 = true -> b <> x).
  { intros x Hx ->. unfold is_cont, between in Hx. rewrite !andb_true_iff, !N.leb_le in Hx. lia. }
  assert (Hne : b <> a) by (intros ->; lia).
  destruct l1 as [|b1 l2]; [done|]. destruct (between 194 a 223 && is_cont b1) eqn:E2.
  { apply andb_true_iff in E2 as [Ea E1]. unfold between in Ea. rewrite andb_true_iff, !N.leb_le in Ea.
    replace (code a <? 224)%N with true by (symmetry; apply N.ltb_lt; lia). right. cbn [drop]. rewrite drop_0. apply (IH n); [lia|cbn [length drop] in *; lia|done..|].
    pose proof (Hcont b1). rewrite !elem_of_cons in Hin. naive_solver. }
  destruct l2 as [|b2 l3]; [done|].
  destruct ((((code a =? 224)%N && between 160 b1 191) || ((between 225 a 236 || between 238 a 239) && is_cont b1) || ((code a =? 237)%N && between 128 b1 159)) && is_cont b2) eqn:E3.
  { apply andb_true_iff in E3 as [E1 E2']. assert (Hw : (224 <= code a < 240)%N /\ b <> b1).
    { rewrite !orb_true_iff, !andb_true_iff, !orb_true_iff in E1. unfold between in E1 at 2 3. rewrite !andb_true_iff, !N.leb_le, !N.eqb_eq in E1.
      pose proof (Hcont b1). split; [|naive_solver]. naive_solver lia. }
    replace (code a <? 224)%N with false by (symmetry; apply N.ltb_ge; lia). replace (code a <? 240)%N with true by (symmetry; apply N.ltb_lt; lia).
    right. cbn [drop]. rewrite drop_0. apply (IH n); [lia|cbn [length drop] in *; lia|done..|]. pose proof (Hcont b2). rewrite !elem_of_cons in Hin. naive_solver. }
  destruct l3 as [|b3 l4]; [done|].
  destruct ((((code a =? 240)%N && between 144 b1 191) || (between 241 a 243 && is_cont b1) || ((code a =? 244)%N && between 128 b1 143)) && is_cont b2 && is_cont b3) eqn:E4; [|done].
  apply andb_true_iff in E4 as [[E1 E2']%andb_true_iff E3']. assert (Hw : (240 <= code a)%N /\ b <> b1).
  { rewrite !orb_true_iff, !andb_true_iff in E1. unfold between in E1 at 2. rewrite !andb_true_iff, !N.leb_le, !N.eqb_eq in E1.
    pose proof (Hcont b1). split; [|naive_solver]. naive_solver lia. }
  replace (code a <? 224)%N with false by (symmetry; apply N.ltb_ge; lia). replace (code a <? 240)%N with false by (symmetry; apply N.ltb_ge; lia).
  right. cbn [drop]. rewrite drop_0. apply (IH n); [lia|cbn [length drop] in *; lia|done..|]. pose proof (Hcont b2). pose proof (Hcont b3). rewrite !elem_of_cons in Hin. naive_solver.
Qed.

Lemma plain_name_clean name : utf8_valid (as_bytes name) = true -> plain_name name ->
  forall b, b ∈ as_bytes name -> b <> QUOTE /\ b <> CR /\ b <> LF.
Proof.
  intros Hv (_ & _ & _ & _ & _ & Hall) b Hb. rewrite Forall_forall in Hall.
  split_and!; intros ->; (assert (Hc : [_] ∈ chars (as_bytes name)) by (eapply ascii_char_alone; [done|done| |exact Hb]; done));
    apply Hall in Hc; vm_compute in Hc; done.
Qed.

Lemma trim_subset s b : b ∈ as_bytes (trim s) -> b ∈ as_bytes s.
Proof.
  assert (Hstart : forall n l, (length l <= n)%nat -> b ∈ trim_start_bytes l -> b ∈ l).
  { induction n as [|n IH]; intros l Hn; [by destruct l; [|cbn in Hn; lia]|]. destruct l as [|x l1]; [done|].
    change (trim_start_bytes (x :: l1)) with (if ws1 x then trim_start_bytes l1 else match l1 with
      | y :: l2 => if ws2 x y then trim_start_bytes l2 else match l2 with z :: l3 => if ws3 x y z then trim_start_bytes l3 else x :: l1 | [] => x :: l1 end
      | [] => x :: l1 end).
    cbn [length] in Hn. destruct (ws1 x); [intros Hin; apply IH in Hin; [by right|lia]|]. destruct l1 as [|y l2]; [done|]. cbn [length] in Hn.
    destruct (ws2 x y); [intros Hin; apply IH in Hin; [by do 2 right|lia]|]. destruct l2 as [|z l3]; [done|]. cbn [length] in Hn.
    destruct (ws3 x y z); [|done]. intros Hin; apply IH in Hin; [by do 3 right|lia]. }
  unfold trim, trim_end_bytes. rewrite as_of_bytes. destruct (trim_end_last _ (rev (trim_start_bytes (as_bytes s))) (Nat.le_refl _)) as [_ [k ->]].
  intros Hb. apply (Hstart _ _ (Nat.le_refl _)). apply list_elem_of_In, in_rev, list_elem_of_In in Hb.
  apply list_elem_of_In, in_rev, list_elem_of_In. rewrite <- (take_drop k (rev _)). apply elem_of_app. by right.
Qed.

Lemma split_head_subset sep s b : b ∈ as_bytes (hd "" (split sep s)) -> b ∈ as_bytes s.
Proof.
  unfold split.
  assert (H : forall l, b ∈ hd [] (split_bytes sep l) -> b ∈ l).
  { clear. induction l as [|x l IH]; [done|]. cbn [split_bytes]. destruct (beqb x sep); [intros Hb; by apply not_elem_of_nil in Hb|].
    destruct (split_bytes sep l) as [|piece rest]; cbn [hd] in *; rewrite !elem_of_cons; [intros [->|Hb]; [by left|by apply not_elem_of_nil in Hb]|]. intros [->|Hb]; [by left|right; auto]. }
  specialize (H (as_bytes s)). destruct (split_bytes sep (as_bytes s)) as [|piece rest]; [done|]. cbn [map hd] in *. by rewrite as_of_bytes.
Qed.

Lemma media_type_clean ct kind : CR ∉ as_bytes ct -> artifact_media_type ct = Some kind -> CR ∉ as_bytes kind.
Proof.
  intros Hct. unfold artifact_media_type. destruct (_ && _); [|done]. intros [= <-]. unfold to_ascii_lowercase. rewrite as_of_bytes.
  rewrite list_elem_of_fmap. intros (x & Hx & Hin). apply trim_subset, split_head_subset in Hin.
  pose proof (byte_forall (fun x => negb (beqb CR (ascii_lower x)) || beqb CR x) eq_refl x) as Hb. cbv beta in Hb. rewrite <- Hx, beqb_refl in Hb. cbn [negb orb] in Hb.
  apply beqb_eq in Hb. congruence.
Qed.

(** ** The controller *)

Section Exact.
Context `{U : UrlLib} `{HL : HttpLib} `{BC : BodyCodec}.
Variable sha256 : list byte -> list byte.
Variable form_urlencoded : list Pair -> list byte.
Variable join_url : string -> list string -> result string McpError.
Variable env : Env.
Variable scope : option CallScope.
Variable vendor : Vendor.
Variable config : Config.
Variable creds : result Credentials McpError.

Lemma only_listing c path left : forall page names,
  only_sends not_upload (listing_pages sha256 form_urlencoded env scope vendor config left page c path names).
Proof.
  induction left as [|left IH]; intros page names; cbn [listing_pages]; [apply only_ret|].
  apply only_bind; [apply only_fetch|]. intros [response|e]; [|apply only_ret]. destruct (data response); [|apply only_ret..].
  destruct (_ ≫= as_array); [|apply only_ret]. destruct (_ || _); [apply only_ret|apply IH].
Qed.

Lemma only_workspace cache explicit :
  only_sends not_upload (resolve_workspace sha256 form_urlencoded env scope vendor config creds cache explicit).
Proof.
  assert (Hf : forall c path o, only_sends not_upload (bb_fetch sha256 form_urlencoded env scope vendor c config path o)) by (intros; apply only_fetch).
  unfold resolve_workspace, resolve_default_workspace, fetch_first_workspace. solve_only.
Qed.

(** The files as parts, read back from the body that is sent. *)
Definition carries (random : list byte) (files : list PreparedFile) (q : WireRequest) : Prop :=
  wr_method q = Post
  /\ ("content-type", "multipart/form-data; boundary=" ++ random_boundary random)%string ∈ wr_headers q
  /\ exists body, wr_body q = BMultipart body
       /\ (Forall (fun f => occurs (delimiter (random_boundary random)) (pf_bytes f) = false) files ->
           decode (random_boundary random) body = Some (map part_of files)).

(** A setting that is there and not empty. *)
Definition given (setting : option string) (slug : string) : Prop := setting = Some slug /\ slug <> ""%string.
Definition not_given (setting : option string) : Prop := setting = None \/ setting = Some ""%string.

(** The workspace a call is about: the caller's own, or else the one memoised,
    or else the configured default, or else the first workspace the account
    lists when it is asked now. *)
Definition names_workspace (cache explicit : option string) (w : World) (workspace : string) : Prop :=
  given explicit workspace
  \/ not_given explicit
     /\ (cache = Some workspace
         \/ cache = None
            /\ (given (get_for config "bitbucket" "BITBUCKET_DEFAULT_WORKSPACE") workspace
                \/ not_given (get_for config "bitbucket" "BITBUCKET_DEFAULT_WORKSPACE")
                   /\ exists c response v, creds = Ok c
                        /\ (fetch sha256 form_urlencoded env scope vendor c config
                              "/2.0/user/permissions/workspaces?pagelen=10" no_options w).2 = Ok response
                        /\ data response = Json v /\ extract_first_slug v = Some workspace)).

Lemma given_cases setting :
  match (match setting with Some slug => if str_is_empty slug then None else Some slug | None => None end) with
  | Some slug => given setting slug
  | None => not_given setting
  end.
Proof.
  destruct setting as [slug|]; [|by left]. destruct slug as [|a slug]; [by right|]. cbn. by split.
Qed.

Lemma workspace_named cache explicit w workspace :
  (resolve_workspace sha256 form_urlencoded env scope vendor config creds cache explicit w).2.2 = Ok workspace ->
  names_workspace cache explicit w workspace.
Proof.
  unfold resolve_workspace, names_workspace. pose proof (given_cases explicit) as He.
  destruct (match explicit with Some slug => _ | None => None end) as [slug|]; [intros [= <-]; by left|].
  unfold resolve_default_workspace, bind. destruct cache as [memo|]; [intros [= <-]; right; split; [done|]; by left|].
  pose proof (given_cases (get_for config "bitbucket" "BITBUCKET_DEFAULT_WORKSPACE")) as Hd.
  destruct (match get_for config "bitbucket" _ with Some slug => _ | None => None end) as [slug|];
    [intros [= <-]; right; split; [done|]; right; split; [done|]; by left|].
  intros Hr. right. split; [done|]. right. split; [done|]. right. split; [done|].
  unfold fetch_first_workspace, try_bind, bind, lift, ret, bb_fetch in Hr. destruct creds as [c|e]; [|done].
  destruct (fetch sha256 form_urlencoded env scope vendor c config _ no_options w) as [w1 [response|e]] eqn:Ef;
    cbn in Hr; [|done]. exists c, response.
  destruct (data response) as [v| |] eqn:Ed; cbn in Hr; [|done|done]. destruct (extract_first_slug v) as [slug|] eqn:Es; [|done].
  injection Hr as <-. exists v. by rewrite Ef.
Qed.

(** Where an upload goes: below the configured base, to the repository the
    arguments name in the workspace the call is about, after the listing of exactly that repository found no
    name it may not replace. *)
Record UploadSent (random : list byte) (prepared : result (list PreparedFile) McpError) (cache : option string) (args : UploadArgs)
  (reads : list WireRequest) (w : World) (q : WireRequest) : Prop := {
  us_sent : exists files workspace c existing base target w1 w2,
    prepared = Ok files /\ creds = Ok c
    /\ names_workspace cache (ua_workspace_slug args) w workspace /\ segment_ok workspace = true /\ segment_ok (ua_repo_slug args) = true
    /\ existing_artifact_names sha256 form_urlencoded env scope vendor config c (downloads_path_of workspace (ua_repo_slug args)) w1 = (w2, Ok existing)
    /\ sends (trace w2) = sends (trace w) ++ reads
    /\ (default CFail (ua_on_conflict args) = CFail -> Forall (fun f => pf_filename f ∉ existing) files)
    /\ base_url vendor config = Ok base /\ canonical_target_of (downloads_path_of workspace (ua_repo_slug args)) = Ok target
    /\ wr_url q = of_bytes (url_under form_urlencoded (as_bytes base) target)
    /\ carries random files q }.

Lemma colliding_nil files existing : colliding files existing = [] -> Forall (fun f => pf_filename f ∉ existing) files.
Proof.
  unfold colliding. induction files as [|f files IH]; [constructor|]. cbn [List.filter]. destruct (bool_decide _) eqn:E; [done|].
  apply bool_decide_eq_false in E. constructor; auto.
Qed.

(** A clean file is one part of the body. *)
Lemma body_carries random files body url auth path m :
  length random = 16%nat -> encode random (map part_of files) = Some body ->
  Forall (fun f => (forall b, b ∈ as_bytes (pf_filename f) -> b <> QUOTE /\ b <> CR /\ b <> LF) /\ CR ∉ as_bytes (pf_content_type f)) files ->
  carries random files (upload_request url auth (body_content_type body) {| mr_path := path; mr_body := body; mr_headers := []; mr_manifest := m |}).
Proof.
  intros Hr He Hclean. pose proof (random_boundary_valid _ Hr) as Hv. unfold encode, encode_with_boundary in He. rewrite Hv in He. injection He as <-.
  split; [done|]. split; [cbn; set_solver|]. set (boundary := random_boundary random) in *.
  exists (flat_map (encode_part boundary) (map part_of files) ++ dashes ++ as_bytes boundary ++ dashes ++ CRLF). split; [done|]. intros Hno.
  destruct (multipart_decodes boundary (map part_of files) Hv) as [Hd Hsame].
  - apply Forall_map. apply Forall_forall. intros f Hf. rewrite Forall_forall in Hclean, Hno. split; [by apply Hclean|by apply Hno].
  - rewrite Hd. f_equal. apply Hsame. apply Forall_map. apply Forall_forall. intros f Hf b Hb. cbn [part_of fp_field fp_filename] in Hb. apply elem_of_app in Hb as [Hb|Hb].
    + apply (plain_name_clean FILES_FIELD); [done| |done]. by apply validate_filename_ok.
    + rewrite Forall_forall in Hclean. by apply (Hclean f Hf).
Qed.

Lemma wp_only {A} P (m : EM A) Φ w :
  only_sends P m -> (forall r w' l, m w = (w', r) -> sends (trace w') = sends (trace w) ++ l -> Forall P l -> Φ r w') -> wp m Φ w.
Proof. intros Hm HΦ. destruct (Hm w) as (l & Hl & HP). unfold wp. destruct (m w) as [w' r] eqn:E. by apply (HΦ r w' l). Qed.

(** What a call to the tool does on the wire. *)
Definition upload_shape (random : list byte) (prepared : result (list PreparedFile) McpError) (cache : option string) (args : UploadArgs) (w : World)
  (r : result (DownloadsUploadOutcome * option string) McpError) (w' : World) : Prop :=
  exists reads up, sends (trace w') = sends (trace w) ++ reads ++ up /\ Forall not_upload reads
    /\ ((up = [] /\ exists e, r = Err e) \/ exists q, up = [q] /\ UploadSent random prepared cache args reads w q).

Lemma upload_refused random prepared cache args w reads w' e :
  sends (trace w') = sends (trace w) ++ reads -> Forall not_upload reads -> upload_shape random prepared cache args w (Err e) w'.
Proof. intros Hs Hp. exists reads, []. rewrite app_nil_r. split; [done|]. split; [done|]. left. eauto. Qed.

Lemma wp_upload random prepared cache args w :
  length random = 16%nat ->
  (forall files, prepared = Ok files ->
     Forall (fun f => (forall b, b ∈ as_bytes (pf_filename f) -> b <> QUOTE /\ b <> CR /\ b <> LF) /\ CR ∉ as_bytes (pf_content_type f)) files) ->
  wp (upload_downloads sha256 form_urlencoded join_url env scope vendor config creds prepared random cache args)
     (fun answer w' => upload_shape random prepared cache args w answer.2 w') w.
Proof.
  intros Hr Hclean. unfold upload_downloads.
  destruct (let? _ := validate_segment _ (ua_repo_slug args) in _) as [[files c]|e] eqn:Eguard;
    [|apply wp_ret; eapply (upload_refused _ _ _ _ _ []); [by rewrite app_nil_r|constructor]].
  assert (Hg : segment_ok (ua_repo_slug args) = true /\ prepared = Ok files /\ creds = Ok c).
  { unfold validate_segment in Eguard. destruct (segment_ok (ua_repo_slug args)); [|done]. cbn in Eguard.
    destruct (match ua_workspace_slug args with Some _ => _ | None => _ end); [|done]. destruct prepared; [|done]. destruct creds; [|done]. naive_solver. }
  clear Eguard. destruct Hg as (Hrepo & -> & Hc). specialize (Hclean _ eq_refl).
  apply wp_bind, (wp_only not_upload); [apply only_workspace|]. intros found w1 l1 Efound Hl1 HP1. apply wp_bind.
  match goal with |- wp ?m _ _ => enough (Hbody : wp m (upload_shape random (Ok files) cache args w) w1) end.
  { eapply wp_mono; [exact Hbody|]. intros r w' Hr'. by apply wp_ret. }
  assert (HΦ : forall r w', upload_shape random (Ok files) cache args w r w' -> upload_shape random (Ok files) cache args w r w') by done.
  apply wp_try, wp_ret. destruct found.2 as [workspace|e] eqn:Ews; [|by eapply HΦ, upload_refused].
  assert (Hnamed : names_workspace cache (ua_workspace_slug args) w workspace) by (apply workspace_named; by rewrite Efound).
  apply wp_try, wp_ret. unfold validate_segment. destruct (segment_ok workspace) eqn:Hws; [|by eapply HΦ, upload_refused]. cbv zeta.
  apply wp_try, (wp_only not_upload); [apply only_listing|]. intros [existing|e] w2 l2 Elist Hl2 HP2.
  2: { eapply HΦ, upload_refused; [by rewrite Hl2, Hl1, <- app_assoc|by apply Forall_app]. }
  assert (Hreads : sends (trace w2) = sends (trace w) ++ l1 ++ l2) by (by rewrite Hl2, Hl1, <- app_assoc).
  assert (HPs : Forall not_upload (l1 ++ l2)) by (by apply Forall_app).
  destruct (bool_decide (_ = CFail) && negb _) eqn:Econf; [by eapply wp_ret, HΦ, upload_refused|].
  destruct (encode random (map part_of files)) as [body|] eqn:Ebody; [|by eapply wp_ret, HΦ, upload_refused].
  apply wp_bind. eapply wp_mono; [apply post_multipart_sends|]. intros sent w3 [[Hno [e ->]]|(base & target & auth & Hbase & Ht & Hauth & Hsent)].
  { eapply wp_ret, HΦ, upload_refused; [by rewrite Hno, Hreads|done]. }
  set (q := upload_request _ _ _ _) in Hsent.
  assert (HS : UploadSent random (Ok files) cache args (l1 ++ l2) w q).
  { constructor. exists files, workspace, c, existing, base, target, w1, w2. split_and!; try done; [|by apply body_carries].
    intros Hfail. rewrite Hfail in Econf. rewrite bool_decide_eq_true_2 in Econf by done. cbn [andb] in Econf.
    apply negb_false_iff, bool_decide_eq_true in Econf. by apply colliding_nil. }
  assert (Hshape : forall r, upload_shape random (Ok files) cache args w r w3).
  { intros r. exists (l1 ++ l2), [q]. split; [rewrite Hsent, Hreads; by rewrite !app_assoc|]. split; [done|]. right. by exists q. }
  destruct sent as [response|e]; [|by apply wp_ret, HΦ]. apply wp_try, wp_ret. destruct (base_url vendor config); [|by apply HΦ].
  apply wp_try, wp_ret. destruct (build_outcome _ _ _ _ _ _); [|by apply HΦ]. by apply wp_ret, HΦ.
Qed.

(** C24: Bitbucket uploads, whole.  Whatever the network and the system answer, a
    call sends at most one upload, after reads only; when it sends none it
    fails.  The upload goes to the downloads of the repository the caller
    named, below the configured base, in the workspace the caller named or,
    when none is given, the memoised one, the configured default or the first
    the account lists, in this order; it carries exactly the files that were asked for, each
    under its own plain name with the bytes the argument names and within the
    limits in force, in an encoding a receiver splits into just these parts
    (as long as none of them holds the boundary drawn); and unless the caller
    chose to replace, no file has the name of an artifact in the listing of
    that repository, which was read right before. *)
Theorem bb_upload_sends_prepared to_lowercase base64_decode decoded_len_estimate io requester store random cache args w :
  length random = 16%nat ->
  (forall id e, registry store !! id = Some e -> CR ∉ as_bytes (am_content_type (ra_metadata e))) ->
  Forall (fun f => utf8_valid (as_bytes (uf_filename f)) = true) (ua_files args) ->
  let limits := upload_limits config "bitbucket" in
  let prepared := (prepare_files to_lowercase base64_decode decoded_len_estimate io requester (ua_files args) limits store).2 in
  let '(w', (_, r)) := upload_downloads sha256 form_urlencoded join_url env scope vendor config creds prepared random cache args w in
  exists reads up, sends (trace w') = sends (trace w) ++ reads ++ up /\ Forall not_upload reads
    /\ ((up = [] /\ exists e, r = Err e)
        \/ exists q, up = [q] /\ UploadSent random prepared cache args reads w q
             /\ forall files, prepared = Ok files ->
                  Forall2 (prepared_from base64_decode requester limits store) (ua_files args) files
                  /\ NoDup (map (fun p => to_lowercase (pf_filename p)) files)
                  /\ (total_bytes files <= max_total_bytes limits)%N).
Proof.
  intros Hr Hct Hutf. cbv zeta. set (limits := upload_limits config "bitbucket").
  set (prepared := (prepare_files to_lowercase base64_decode decoded_len_estimate io requester (ua_files args) limits store).2).
  assert (Hprep : forall files, prepared = Ok files ->
    Forall2 (prepared_from base64_decode requester limits store) (ua_files args) files
    /\ NoDup (map (fun p => to_lowercase (pf_filename p)) files) /\ (total_bytes files <= max_total_bytes limits)%N)
    by (intros files Hf; by apply prepare_files_ok in Hf).
  pose proof (wp_upload random prepared cache args w Hr) as Hwp. unfold wp in Hwp.
  destruct (upload_downloads _ _ _ _ _ _ _ _ prepared random cache args w) as [w' [cache' r]]. cbn [fst snd] in Hwp.
  destruct Hwp as (reads & up & Hs & Hreads & Hup).
  - intros files Hf. destruct (Hprep files Hf) as (Hall & _). clear -Hall Hct Hutf. apply Forall_forall. intros p Hp.
    apply list_elem_of_lookup in Hp as [i Hp]. destruct (Forall2_lookup_r _ _ _ _ _ Hall Hp) as (f & Hf & Hname & Hplain & _ & _ & Htype).
    rewrite Forall_forall in Hutf. assert (Hu : utf8_valid (as_bytes (uf_filename f)) = true) by (apply Hutf; by eapply list_elem_of_lookup_2).
    split; [apply plain_name_clean; [by rewrite Hname|done]|]. destruct (uf_mime_type f) as [raw|].
    + apply validate_content_type_clean in Htype. rewrite forallb_elem_of in Htype. intros Hin. by apply Htype in Hin.
    + destruct Htype as [->|(id & e & _ & He & Hm)]; [refine (bool_decide_unpack (_ ∉ _) _); vm_compute; exact I|]. by eapply media_type_clean, Hm; eapply Hct.
  - exists reads, up. split; [done|]. split; [done|]. destruct Hup as [|(q & ? & ?)]; [by left|]. right. by exists q.
Qed.
End Exact.

(** ** A concrete upload *)

Module UploadWitness.
Import CacheWitness CallWitness.

(** The listing answers a page without artifacts. *)
#[export] Instance page_http : HttpLib := {|
  header_name_from := fun n => Some n;
  base64 := fun l => of_bytes l;
  json_from_str := fun _ => Some (VObject [("values", VArray [])]);
  http_date := fun _ => None;
  json_pretty := fun _ => None |}.

Definition answers (upload : Response) : Env := {|
  env_append := fun _ => Acked;
  env_send := fun n => SResponse (if (n <? 8)%nat then ok_response 200 [] else upload);
  env_now := fun n => N.of_nat n; env_wall := fun n => N.of_nat n;
  env_stamp := fun _ => "now"; env_cancelled := fun _ => false; env_random := fun _ => 0%N;
  env_sleep := fun _ => Slept; env_body := fun _ => Ok "page"; env_chunks := fun _ => ([], None); env_artifact := fun _ => Ok "file";
  env_raw_path := fun _ => None |}.

Definition bitbucket : Vendor :=
  {| v_name := "bitbucket"; base_url := fun _ => Ok "https://a.io"; cache_reads := fun _ => false;
     classify_error := fun _ m => api_error m None None; classify_success_json := fun _ => None |}.

Definition random : list byte := replicate 16 (byte_of 7).
Definition identity_decode (l : list byte) : option (list byte) := Some l.
Definition joined (base : string) (segments : list string) : result string McpError := Ok (String.concat "/" (base :: segments)).
Definition no_io (_ : string) : ArtifactIo := {| io_open := IoDone; io_read := IoDone |}.

Definition upload_args : UploadArgs :=
  {| ua_workspace_slug := Some "team"; ua_repo_slug := "api";
     ua_files := [{| uf_filename := "a.txt"; uf_mime_type := Some "text/plain"; uf_content_base64 := Some "aGk="; uf_artifact_id := None |}];
     ua_on_conflict := None |}.

Definition prepared : result (list PreparedFile) McpError :=
  (prepare_files (fun s => s) identity_decode (fun n => n) no_io OwnerLocal (ua_files upload_args) (upload_limits empty_config "bitbucket") store_new).2.

Definition run_upload (upload : Response) :=
  upload_downloads hash_id form joined (answers upload) None bitbucket empty_config (Ok (Bearer "t")) prepared random None upload_args (fresh_world empty_cache 0).

Lemma bb_upload_sends_prepared_witness :
  length (sends (trace (run_upload (ok_response 201 [])).1)) = 2%nat
  /\ exists q files, last (sends (trace (run_upload (ok_response 201 [])).1)) = Some q /\ prepared = Ok files /\ carries random files q
       /\ wr_url q = "https://a.io/2.0/repositories/team/api/downloads".
Proof.
  assert (Hn : length (sends (trace (run_upload (ok_response 201 [])).1)) = 2%nat) by (vm_compute; reflexivity).
  assert (Hok : is_ok (run_upload (ok_response 201 [])).2.2 = true) by (vm_compute; reflexivity).
  split; [exact Hn|].
  assert (Hct : forall id e, registry store_new !! id = Some e -> CR ∉ as_bytes (am_content_type (ra_metadata e))) by (intros id e He; discriminate He).
  assert (Hu : Forall (fun f => utf8_valid (as_bytes (uf_filename f)) = true) (ua_files upload_args)) by (apply Forall_cons; split; [vm_compute; reflexivity|apply Forall_nil; exact I]).
  pose proof (bb_upload_sends_prepared hash_id form joined (answers (ok_response 201 [])) None bitbucket empty_config (Ok (Bearer "t"))
    (fun s => s) identity_decode (fun n => n) no_io OwnerLocal store_new random None upload_args (fresh_world empty_cache 0) eq_refl Hct Hu) as H.
  cbv zeta in H. change (prepare_files (fun s => s) identity_decode (fun n => n) no_io OwnerLocal (ua_files upload_args) (upload_limits empty_config "bitbucket") store_new).2
    with prepared in H.
  change (upload_downloads hash_id form joined (answers (ok_response 201 [])) None bitbucket empty_config (Ok (Bearer "t")) prepared random None upload_args
    (fresh_world empty_cache 0)) with (run_upload (ok_response 201 [])) in H.
  destruct (run_upload (ok_response 201 [])) as [w' [cache' r]]. cbn [fst snd] in Hok |- *.
  destruct H as (reads & up & Hs & _ & [[-> [e ->]]|(q & -> & [(files & workspace & c & existing & base & target & w1 & w2 & Hf & _ & Hws & Hrest)] & _)]).
  - discriminate Hok.
  - exists q, files. split; [rewrite Hs, app_assoc; apply last_snoc|]. split; [exact Hf|].
    destruct Hrest as (_ & _ & _ & _ & _ & Hbase & Ht & Hurl & Hc). split; [exact Hc|]. rewrite Hurl.
    destruct Hws as [[E _]|[[E|E] _]]; [|discriminate E..]. injection E as <-. injection Hbase as <-.
    cbv in Ht. injection Ht as <-. vm_compute. reflexivity.
Defined.

(** An upload that was accepted is reported as one that did not happen when
    the reply announces a long body. *)
Lemma accepted_upload_reported_as_none :
  let '(w, r) := run_upload (ok_response 201 [("content-length", "99999999")]) in
  is_Some (last (sends (trace w)) ≫= fun q => match wr_body q with BMultipart body => Some body | _ => None end)
  /\ match r.2 with
     | Err e => err_message e = "Response size (95MB) exceeds maximum limit of 10MB (nothing was uploaded)"
     | Ok _ => False
     end.
Proof. vm_compute. split; [by eexists|reflexivity]. Qed.
End UploadWitness.
