(* ===== verification/BTree.v ===== *)
(** * Ordered maps (BTreeMap) and grouping

    A [BTreeMap] with text keys is a finite map that is iterated in the byte
    order of its keys.  The usual way the code builds one, an entry per key
    that each element of a list updates, is grouping the list by key. *)
From S2P Require Import Prelude RustStr.

(** A [BTreeMap<&str, _>]: iterated in the order of its keys. *)
Definition btree_iter {V} (m : gmap string V) : list (string * V) :=
  omap (fun k => (k,.) <$> m !! k) (merge_sort str_le (elements (dom m))).

(** The keys that occur, in order, and the elements of one key. *)
Definition distinct {A} (key : A -> string) (rows : list A) : list string := remove_dups (map key rows).
Definition group_keys {A} (key : A -> string) (rows : list A) : list string := merge_sort str_le (distinct key rows).
Definition group_of {A} (key : A -> string) (rows : list A) (k : string) : list A :=
  List.filter (fun row => String.eqb (key row) k) rows.

(** [entry(key).or_insert(empty)] and an update of it. *)
Definition group_step {A V} (empty : V) (step : V -> A -> V) (key : A -> string) (m : gmap string V) (row : A)
  : gmap string V :=
  <[key row := step (default empty (m !! key row)) row]> m.

Lemma merge_sort_sorted l : StronglySorted str_le (merge_sort str_le l).
Proof. apply StronglySorted_merge_sort; apply _. Qed.

(** ** Grouping in a map is grouping by key *)

Lemma group_fold_lookup {A V} (empty : V) step (key : A -> string) rows k :
  foldl (group_step empty step key) ∅ rows !! k
  = match group_of key rows k with [] => None | rs => Some (foldl step empty rs) end.
Proof.
  induction rows as [|row rows IH] using rev_ind; [done|]. rewrite foldl_app. cbn [foldl]. unfold group_step at 1, group_of.
  rewrite List.filter_app. cbn [List.filter]. fold (group_of key rows k).
  destruct (String.eqb_spec (key row) k) as [<-|Hne].
  - rewrite lookup_insert_eq, IH. destruct (group_of key rows (key row)) as [|r rs]; [done|].
    change (default empty (Some ?x)) with x. cbn [app]. by rewrite <- foldl_snoc.
  - rewrite lookup_insert_ne, IH, app_nil_r by done. done.
Qed.

Lemma group_nonempty {A} (key : A -> string) rows k : group_of key rows k <> [] <-> k ∈ map key rows.
Proof.
  split.
  - destruct (group_of key rows k) as [|r rs] eqn:E; [done|]. intros _.
    assert (Hr : r ∈ group_of key rows k) by (rewrite E; left).
    apply list_elem_of_In, filter_In in Hr as [Hr Hk]. apply String.eqb_eq in Hk as <-.
    apply list_elem_of_fmap. exists r. split; [done|by apply list_elem_of_In].
  - intros (r & -> & Hr)%list_elem_of_fmap E. assert (Hin : r ∈ group_of key rows (key r)).
    { apply list_elem_of_In, filter_In. split; [by apply list_elem_of_In|apply String.eqb_refl]. }
    rewrite E in Hin. by apply elem_of_nil in Hin.
Qed.

Lemma sort_unique l k : NoDup l -> NoDup k -> (forall x, x ∈ l <-> x ∈ k) -> merge_sort str_le l = merge_sort str_le k.
Proof.
  intros Hl Hk Hx. apply (StronglySorted_unique str_le); [apply merge_sort_sorted..|].
  rewrite !merge_sort_Permutation. by apply NoDup_Permutation.
Qed.

Lemma btree_iter_groups {A V} (empty : V) step (key : A -> string) rows :
  btree_iter (foldl (group_step empty step key) ∅ rows)
  = map (fun k => (k, foldl step empty (group_of key rows k))) (group_keys key rows).
Proof.
  unfold btree_iter, group_keys, distinct. set (m := foldl _ ∅ rows).
  assert (Hdom : forall k, k ∈ elements (dom m) <-> k ∈ remove_dups (map key rows)).
  { intros k. rewrite elem_of_elements, elem_of_dom, elem_of_remove_dups, <- group_nonempty. unfold m. rewrite group_fold_lookup.
    destruct (group_of key rows k); [|naive_solver]. split; [by intros [x Hx]|by intros H]. }
  rewrite (sort_unique (elements (dom m)) (remove_dups (map key rows))); [|apply NoDup_elements|apply NoDup_remove_dups|exact Hdom].
  assert (Hall : forall k, k ∈ merge_sort str_le (remove_dups (map key rows)) -> k ∈ map key rows).
  { intros k. rewrite merge_sort_Permutation. by rewrite elem_of_remove_dups. }
  induction (merge_sort str_le (remove_dups (map key rows))) as [|k l IH]; [done|]. cbn [omap list_omap map].
  unfold m at 1. rewrite group_fold_lookup. assert (Hk : group_of key rows k <> []) by (apply group_nonempty, Hall; left).
  destruct (group_of key rows k) as [|r rs]; [done|]. cbn. f_equal. apply IH. intros k' Hk'. apply Hall. by right.
Qed.
