(* ===== verification/Timestamps.v ===== *)
(** * Time as text (src/src/logger.rs, src/src/transport/raw_response.rs)

    Records, usage rows and revocations carry the time as text and compare it
    as text.  [days_to_ymd] is the Gregorian calendar, and for four-digit years
    the byte order of the text is the order of time. *)
From S2P Require Import Prelude RustStr Json Config F64 Ingestion.

(** ** The code *)

(** [days_to_ymd]; on the days any [i64] count of seconds can give, every
    intermediate value is in range and every unsigned one non-negative. *)
Definition days_to_ymd (days : Z) : Z * Z * Z :=
  let days := (days + 719468)%Z in
  let era := (days / 146097)%Z in
  let doe := (days mod 146097)%Z in
  let yoe := ((doe - doe / 1460 + doe / 36524 - doe / 146096) / 365)%Z in
  let y := (yoe + era * 400)%Z in
  let doy := (doe - (365 * yoe + yoe / 4 - yoe / 100))%Z in
  let mp := ((5 * doy + 2) / 153)%Z in
  let d := (doy - (153 * mp + 2) / 5 + 1)%Z in
  let m := (if (mp <? 10)%Z then mp + 3 else mp - 9)%Z in
  let y := (if (m <=? 2)%Z then y + 1 else y)%Z in
  (y, m, d).

(** [{n:0w}] of an unsigned number. *)
Definition padded (w : nat) (n : N) : list byte :=
  replicate (w - length (render_u64 n)) (byte_of 48) ++ render_u64 n.

(** [SystemTime] is nanoseconds since the epoch, negative before it. *)
Definition whole_seconds (at_ : Z) : N :=
  let now := Z.to_N at_ in
  let secs := (now / 1000000000)%N in
  if (I64_MAX <? secs)%N then I64_MAX else secs.

Definition two_colons (h m s : N) : list byte := padded 2 h ++ byte_of 58 :: padded 2 m ++ byte_of 58 :: padded 2 s.

(** The date and time of day both formats share, up to the seconds. *)
Definition iso_prefix (secs : N) : list byte :=
  let days := (secs / 86400)%N in
  let sod := (secs mod 86400)%N in
  let '(y, mo, d) := days_to_ymd (Z.of_N days) in
  padded 4 (Z.to_N y) ++ byte_of 45 :: padded 2 (Z.to_N mo) ++ byte_of 45 :: padded 2 (Z.to_N d)
  ++ byte_of 84 :: two_colons (sod / 3600) (sod mod 3600 / 60) (sod mod 60).

Definition iso_timestamp_at (at_ : Z) : string := of_bytes (iso_prefix (whole_seconds at_) ++ [byte_of 90]).

Definition iso_full (at_ : Z) : string :=
  let millis := (Z.to_N at_ mod 1000000000 / 1000000)%N in
  of_bytes (iso_prefix (whole_seconds at_) ++ byte_of 46 :: padded 3 millis ++ [byte_of 90]).

Definition iso_dashed (at_ : Z) : string :=
  of_bytes (map (fun b => if beqb b (byte_of 58) || beqb b (byte_of 46) then byte_of 45 else b) (as_bytes (iso_full at_))).

(** ** The calendar *)

Definition leap (y : Z) : bool := ((y mod 4 =? 0) && negb (y mod 100 =? 0) || (y mod 400 =? 0))%Z.

Definition month_length (y m : Z) : Z :=
  if (m =? 2)%Z then (if leap y then 29 else 28)%Z
  else if ((m =? 4) || (m =? 6) || (m =? 9) || (m =? 11))%Z then 30%Z else 31%Z.

Definition next_day (date : Z * Z * Z) : Z * Z * Z :=
  let '(y, m, d) := date in
  if (d <? month_length y m)%Z then (y, m, d + 1)%Z
  else if (m <? 12)%Z then (y, m + 1, 1)%Z else (y + 1, 1, 1)%Z.

Definition valid_date (date : Z * Z * Z) : bool :=
  let '(y, m, d) := date in ((1 <=? m) && (m <=? 12) && (1 <=? d) && (d <=? month_length y m))%Z.

Definition shift_years (k : Z) (date : Z * Z * Z) : Z * Z * Z := let '(y, m, d) := date in (y + k, m, d)%Z.

(** One era of 400 years repeats. *)
Lemma days_to_ymd_era days k : days_to_ymd (days + 146097 * k) = shift_years (400 * k) (days_to_ymd days).
Proof.
  unfold days_to_ymd. replace (days + 146097 * k + 719468)%Z with (days + 719468 + k * 146097)%Z by lia.
  rewrite Z.div_add, Z.mod_add by lia. set (era := ((days + 719468) / 146097)%Z).
  set (doe := ((days + 719468) mod 146097)%Z). cbn zeta.
  match goal with |- context [if (?m <=? 2)%Z then _ else _] => destruct (m <=? 2)%Z end; cbn [shift_years]; do 2 f_equal; lia.
Qed.

Lemma leap_era y k : leap (y + 400 * k) = leap y.
Proof.
  unfold leap. replace (y + 400 * k)%Z with (y + 100 * k * 4)%Z at 1 by lia.
  replace (y + 400 * k)%Z with (y + 4 * k * 100)%Z at 1 by lia. replace (y + 400 * k)%Z with (y + k * 400)%Z by lia.
  by rewrite !Z.mod_add by lia.
Qed.

Lemma next_day_era date k : next_day (shift_years (400 * k) date) = shift_years (400 * k) (next_day date).
Proof.
  destruct date as [[y m] d]. unfold next_day, shift_years, month_length. rewrite leap_era.
  repeat case_goal; do 2 f_equal; lia.
Qed.

Lemma valid_date_era date k : valid_date (shift_years (400 * k) date) = valid_date date.
Proof. destruct date as [[y m] d]. unfold valid_date, shift_years, month_length. by rewrite leap_era. Qed.

(** The day of a year that begins on 1 March. *)
Definition march_date (y doy : Z) : Z * Z * Z :=
  let mp := ((5 * doy + 2) / 153)%Z in
  let d := (doy - (153 * mp + 2) / 5 + 1)%Z in
  let m := (if (mp <? 10)%Z then mp + 3 else mp - 9)%Z in
  ((if (m <=? 2)%Z then y + 1 else y)%Z, m, d).

Definition march_last (y : Z) : Z := if leap (y + 1) then 365%Z else 364%Z.

(** The months one by one: the day each begins on, its number, its length. *)
Definition march_months : list (Z * Z * Z) :=
  [(0, 3, 31); (31, 4, 30); (61, 5, 31); (92, 6, 30); (122, 7, 31); (153, 8, 31); (184, 9, 30); (214, 10, 31);
   (245, 11, 30); (275, 12, 31); (306, 1, 31); (337, 2, 29)]%Z.

(** A goal about one of the months is the twelve of them. *)
Ltac each_month H :=
  unfold march_months in H;
  repeat (apply elem_of_cons in H as [[= -> -> ->]|H]; [|]); [..|by apply elem_of_nil in H].

Lemma march_date_month y doy : (0 <= doy <= 365)%Z ->
  exists first m len, (first, m, len) ∈ march_months /\ (first <= doy < first + len)%Z
    /\ march_date y doy = ((if (m <=? 2)%Z then y + 1 else y)%Z, m, (doy - first + 1)%Z).
Proof.
  intros Hd. unfold march_date. set (mp := ((5 * doy + 2) / 153)%Z).
  assert (Hmp : (0 <= mp <= 11)%Z) by (unfold mp; Z.to_euclidean_division_equations; lia).
  assert (Hlo : (153 * mp <= 5 * doy + 2 < 153 * mp + 153)%Z) by (unfold mp; Z.to_euclidean_division_equations; lia).
  clearbody mp. destruct (march_months !! Z.to_nat mp) as [[[f m] len]|] eqn:E.
  - exists f, m, len. split; [by eapply list_elem_of_lookup_2|].
    assert (Hcases : (mp = 0 \/ mp = 1 \/ mp = 2 \/ mp = 3 \/ mp = 4 \/ mp = 5 \/ mp = 6 \/ mp = 7 \/ mp = 8 \/ mp = 9
                      \/ mp = 10 \/ mp = 11)%Z) by lia.
    repeat destruct Hcases as [->|Hcases]; try subst mp; injection E as <- <- <-; (split; [lia|reflexivity]).
  - apply lookup_ge_None in E. cbn in E. lia.
Qed.

Lemma month_length_table y first m len : (first, m, len) ∈ march_months ->
  month_length y m = if (m =? 2)%Z then (if leap y then 29 else 28)%Z else len.
Proof. intros H. by each_month H. Qed.

Lemma march_next y doy : (0 <= doy < march_last y)%Z -> march_date y (doy + 1) = next_day (march_date y doy).
Proof.
  intros Hd. assert (Hr : (march_last y <= 365)%Z) by (unfold march_last; destruct (leap _); lia).
  destruct (march_date_month y doy ltac:(lia)) as (f & m & len & Hm & Hf & ->).
  destruct (march_date_month y (doy + 1) ltac:(lia)) as (f' & m' & len' & Hm' & Hf' & ->).
  unfold next_day. rewrite (month_length_table _ _ _ _ Hm). unfold march_last in Hd.
  each_month Hm; each_month Hm'; try lia; change (?a <=? ?b)%Z with (Z.leb a b); cbn -[leap Z.add Z.sub];
    revert Hd; destruct (leap (y + 1)); intros Hd; try destruct (leap y); case_goal; try lia; do 2 f_equal; lia.
Qed.

Lemma march_turn y : march_date (y + 1) 0 = next_day (march_date y (march_last y)).
Proof.
  change (march_date (y + 1) 0) with (y + 1, 3, 1)%Z. unfold march_last. destruct (leap (y + 1)) eqn:E.
  - change (march_date y 365) with (y + 1, 2, 29)%Z. unfold next_day.
    change (month_length (y + 1) 2) with (if leap (y + 1) then 29 else 28)%Z. by rewrite E.
  - change (march_date y 364) with (y + 1, 2, 28)%Z. unfold next_day.
    change (month_length (y + 1) 2) with (if leap (y + 1) then 29 else 28)%Z. by rewrite E.
Qed.

Lemma march_valid y doy : (0 <= doy <= march_last y)%Z -> valid_date (march_date y doy) = true.
Proof.
  intros Hd. assert (Hr : (march_last y <= 365)%Z) by (unfold march_last; destruct (leap _); lia).
  destruct (march_date_month y doy ltac:(lia)) as (f & m & len & Hm & Hf & ->). unfold march_last in Hd.
  unfold valid_date. rewrite (month_length_table _ _ _ _ Hm).
  revert Hd. each_month Hm; cbn -[leap Z.add Z.sub Z.leb]; change (2 <=? 2)%Z with true; destruct (leap (y + 1)); lia.
Qed.

(** The day of the era: the year it falls in and the day of that year. *)
Definition year_of_era (doe : Z) : Z := ((doe - doe / 1460 + doe / 36524 - doe / 146096) / 365)%Z.
Definition day_of_year (doe : Z) : Z := let yoe := year_of_era doe in (doe - (365 * yoe + yoe / 4 - yoe / 100))%Z.

Lemma leap_false y : leap y = false -> (y mod 4 <> 0)%Z \/ (y mod 100 = 0 /\ y mod 400 <> 0)%Z.
Proof.
  unfold leap. destruct (Z.eqb_spec (y mod 4) 0), (Z.eqb_spec (y mod 100) 0), (Z.eqb_spec (y mod 400) 0); cbn; try done; tauto.
Qed.

Lemma leap_true y : leap y = true -> (y mod 4 = 0)%Z /\ ((y mod 100 <> 0)%Z \/ (y mod 400 = 0)%Z).
Proof.
  unfold leap. rewrite orb_true_iff, andb_true_iff, negb_true_iff, !Z.eqb_eq, Z.eqb_neq. intros [[H1 H2]|H]; [tauto|].
  split; [|by right]. Z.to_euclidean_division_equations; lia.
Qed.

Lemma year_of_era_spec doe : (0 <= doe < 146097)%Z ->
  (0 <= year_of_era doe <= 399)%Z /\ (0 <= day_of_year doe <= march_last (year_of_era doe))%Z.
Proof.
  intros Hd. unfold day_of_year, march_last, year_of_era.
  split_and!; try (Z.to_euclidean_division_equations; lia).
  set (yoe := ((doe - doe / 1460 + doe / 36524 - doe / 146096) / 365)%Z).
  destruct (leap (yoe + 1)) eqn:E; [unfold yoe; Z.to_euclidean_division_equations; lia|].
  apply leap_false in E as [E|[E1 E2]]; revert yoe E || revert yoe E1 E2; cbn zeta;
    set (yoe := ((doe - doe / 1460 + doe / 36524 - doe / 146096) / 365)%Z);
    assert (Hy : yoe = ((doe - doe / 1460 + doe / 36524 - doe / 146096) / 365)%Z) by done; clearbody yoe; intros;
    Z.to_euclidean_division_equations; lia.
Qed.

(** Consecutive years of the era are adjacent. *)
Lemma year_starts y : (0 <= y <= 398)%Z ->
  (365 * (y + 1) + (y + 1) / 4 - (y + 1) / 100 = 365 * y + y / 4 - y / 100 + march_last y + 1)%Z.
Proof.
  intros Hy. unfold march_last. destruct (leap (y + 1)) eqn:E.
  - apply leap_true in E as [E1 [E2|E2]]; Z.to_euclidean_division_equations; lia.
  - apply leap_false in E as [E|[E1 E2]]; Z.to_euclidean_division_equations; lia.
Qed.

(** A day of the era is a day of its year. *)
Lemma days_to_ymd_march days :
  let days' := (days + 719468)%Z in
  let doe := (days' mod 146097)%Z in
  days_to_ymd days = march_date (year_of_era doe + days' / 146097 * 400) (day_of_year doe).
Proof. done. Qed.

Lemma march_last_era y k : march_last (y + k * 400) = march_last y.
Proof. unfold march_last. replace (y + k * 400 + 1)%Z with (y + 1 + 400 * k)%Z by lia. by rewrite leap_era. Qed.

(** The next day of the era. *)
Lemma era_next doe : (0 <= doe < 146096)%Z ->
  (year_of_era (doe + 1) = year_of_era doe /\ day_of_year (doe + 1) = (day_of_year doe + 1)%Z
   /\ (day_of_year doe < march_last (year_of_era doe))%Z)
  \/ (year_of_era (doe + 1) = (year_of_era doe + 1)%Z /\ day_of_year (doe + 1) = 0%Z
      /\ day_of_year doe = march_last (year_of_era doe)).
Proof.
  intros Hd. destruct (year_of_era_spec doe ltac:(lia)) as [Hy Hdy]. destruct (year_of_era_spec (doe + 1) ltac:(lia)) as [Hy' Hdy'].
  assert (Hstep : year_of_era (doe + 1) = year_of_era doe \/ year_of_era (doe + 1) = (year_of_era doe + 1)%Z).
  { unfold year_of_era. Z.to_euclidean_division_equations; lia. }
  unfold day_of_year in *. destruct Hstep as [E|E]; rewrite E in *; [left; split_and!; [done|lia..]|right].
  rewrite (year_starts (year_of_era doe)) in * by lia. split_and!; [done|lia..].
Qed.

(** The calendar's next date, and a date at all. *)
Lemma days_to_ymd_step days :
  days_to_ymd (days + 1) = next_day (days_to_ymd days) /\ valid_date (days_to_ymd days) = true.
Proof.
  set (k := ((days + 719468) / 146097)%Z). set (doe := ((days + 719468) mod 146097)%Z).
  assert (Hdoe : (0 <= doe < 146097)%Z) by (apply Z.mod_pos_bound; lia).
  assert (Hdm : (days + 719468 = 146097 * k + doe)%Z) by (apply Z.div_mod; lia).
  destruct (year_of_era_spec doe Hdoe) as [Hy Hdy].
  rewrite (days_to_ymd_march days). cbn zeta. fold k doe. split.
  2: { apply march_valid. by rewrite march_last_era. }
  rewrite (days_to_ymd_march (days + 1)). cbn zeta. destruct (decide (doe = 146096)%Z) as [E|E].
  - replace ((days + 1 + 719468) mod 146097)%Z with 0%Z by (apply (Z.mod_unique_pos _ _ (k + 1)); lia).
    replace ((days + 1 + 719468) / 146097)%Z with (k + 1)%Z by (apply (Z.div_unique_pos _ _ _ 0); lia).
    rewrite E. change (year_of_era 146096) with 399%Z. change (day_of_year 146096) with 365%Z.
    change (year_of_era 0) with 0%Z. change (day_of_year 0) with 0%Z.
    replace (0 + (k + 1) * 400)%Z with (399 + k * 400 + 1)%Z by lia. rewrite march_turn, march_last_era. done.
  - replace ((days + 1 + 719468) mod 146097)%Z with (doe + 1)%Z by (apply (Z.mod_unique_pos _ _ k); lia).
    replace ((days + 1 + 719468) / 146097)%Z with k by (apply (Z.div_unique_pos _ _ _ (doe + 1)); lia).
    destruct (era_next doe ltac:(lia)) as [(-> & -> & Hlt)|(-> & -> & ->)].
    + apply march_next. rewrite march_last_era. lia.
    + replace (year_of_era doe + 1 + k * 400)%Z with (year_of_era doe + k * 400 + 1)%Z by lia.
      rewrite march_turn. by rewrite march_last_era.
Qed.

(** [days_to_ymd] is the Gregorian calendar: day 0 is 1 January 1970, and the
    date of the next day, before the epoch and after it, is the calendar's
    next date; every result is a date. *)
Theorem days_to_ymd_is_calendar days :
  days_to_ymd 0 = (1970, 1, 1)%Z
  /\ days_to_ymd (days + 1) = next_day (days_to_ymd days)
  /\ valid_date (days_to_ymd days) = true.
Proof. split; [reflexivity|apply days_to_ymd_step]. Qed.

(** ** The order of the text *)

Lemma bytes_leb_app l1 l2 t1 t2 : length l1 = length l2 ->
  bytes_leb (l1 ++ t1) (l2 ++ t2) = if bool_decide (l1 = l2) then bytes_leb t1 t2 else bytes_leb l1 l2.
Proof.
  revert l2; induction l1 as [|a l1 IH]; intros [|b l2] Hl; try done. cbn [app bytes_leb length] in *. rewrite IH by lia.
  destruct (N.ltb_spec (code a) (code b)) as [Hlt|Hge].
  - rewrite (bool_decide_eq_false_2 (a :: l1 = b :: l2)); [done|]. intros [= -> _]. lia.
  - cbn [orb]. destruct (N.eqb_spec (code a) (code b)) as [Heq|Hne]; cbn [andb].
    + apply code_inj in Heq as ->. destruct (bool_decide_reflect (l1 = l2)) as [->|Hne].
      * by rewrite (bool_decide_eq_true_2 (b :: l2 = b :: l2)).
      * by rewrite (bool_decide_eq_false_2 (b :: l1 = b :: l2)) by congruence.
    + by rewrite (bool_decide_eq_false_2 (a :: l1 = b :: l2)) by (intros [= Hab _]; by rewrite Hab in Hne).
Qed.

Definition all_digits (l : list byte) : Prop := Forall (fun b => is_ascii_digit b = true) l.

Lemma digits_value_acc l n : all_digits l ->
  foldl digit_step n l = (n * 10 ^ N.of_nat (length l) + digits_value l)%N /\ (digits_value l < 10 ^ N.of_nat (length l))%N.
Proof.
  intros Hl. revert n; induction Hl as [|b l Hb Hl IH]; intros n; [cbn; lia|].
  assert (Hd : (code b - 48 < 10)%N).
  { unfold is_ascii_digit, between in Hb. rewrite andb_true_iff, !N.leb_le in Hb. lia. }
  change (digits_value (b :: l)) with (foldl digit_step (digit_step 0 b) l). cbn [foldl length].
  destruct (IH (digit_step n b)) as [H1 H2]. destruct (IH (digit_step 0 b)) as [H3 _]. rewrite H1, H3.
  rewrite Nat2N.inj_succ, N.pow_succ_r'. unfold digit_step. set (p := (10 ^ N.of_nat (length l))%N) in *. nia.
Qed.

Lemma digits_leb l1 l2 : all_digits l1 -> all_digits l2 -> length l1 = length l2 ->
  bytes_leb l1 l2 = (digits_value l1 <=? digits_value l2)%N /\ (l1 = l2 <-> digits_value l1 = digits_value l2).
Proof.
  intros H1. revert l2; induction H1 as [|a l1 Ha H1 IH]; intros l2 H2 Hl; [by destruct l2|].
  destruct H2 as [|b l2 Hb H2]; [done|]. injection Hl as Hl. destruct (IH l2 H2 Hl) as [IH1 IH2].
  change (digits_value (?x :: ?l)) with (foldl digit_step (digit_step 0 x) l).
  destruct (digits_value_acc l1 (digit_step 0 a) H1) as [-> Hb1]. destruct (digits_value_acc l2 (digit_step 0 b) H2) as [-> Hb2].
  rewrite <- Hl in *. cbn [bytes_leb]. rewrite IH1. unfold digit_step.
  unfold is_ascii_digit, between in Ha, Hb. rewrite andb_true_iff, !N.leb_le in Ha, Hb.
  set (p := (10 ^ N.of_nat (length l1))%N) in *. split.
  - destruct (N.ltb_spec (code a) (code b)), (N.eqb_spec (code a) (code b)); cbn [orb andb].
    + lia.
    + symmetry. apply N.leb_le. nia.
    + replace (code b) with (code a) by done. apply eq_iff_eq_true. rewrite !N.leb_le. lia.
    + symmetry. apply N.leb_gt. nia.
  - split; [intros [= -> ->]; done|]. intros Hv. assert (Hc : code a = code b) by nia.
    rewrite (code_inj _ _ Hc). f_equal. apply IH2. rewrite Hc in Hv. lia.
Qed.

Lemma padded_facts w n : w <> 0%nat -> (n < 10 ^ N.of_nat w)%N -> (n <= U64_MAX)%N ->
  length (padded w n) = w /\ all_digits (padded w n) /\ digits_value (padded w n) = n.
Proof.
  intros Hw Hn Hm. unfold padded, render_u64.
  pose proof (render_loop_length MAX_U64_DIGITS n [] w Hw Hn) as Hl. rewrite Nat.add_0_r in Hl. split_and!.
  - rewrite length_app, length_replicate. lia.
  - apply Forall_app. split; [by apply Forall_replicate|apply render_u64_digits].
  - unfold digits_value. rewrite foldl_app.
    assert (Hz : forall k, foldl digit_step 0%N (replicate k (byte_of 48)) = 0%N) by (induction k; done).
    unfold digit_step in Hz. rewrite Hz. apply (digits_value_render MAX_U64_DIGITS n []); [done|].
    change (10 ^ N.of_nat MAX_U64_DIGITS)%N with 100000000000000000000%N. unfold U64_MAX in Hm. lia.
Qed.

(** A field of fixed width, then the rest. *)
Lemma field_leb w a b t1 t2 :
  w <> 0%nat -> (10 ^ N.of_nat w <= U64_MAX)%N -> (a < 10 ^ N.of_nat w)%N -> (b < 10 ^ N.of_nat w)%N ->
  bytes_leb (padded w a ++ t1) (padded w b ++ t2) = ((a <? b) || (a =? b) && bytes_leb t1 t2)%N.
Proof.
  intros Hw Hp Ha Hb. destruct (padded_facts w a Hw Ha ltac:(lia)) as (La & Da & Va).
  destruct (padded_facts w b Hw Hb ltac:(lia)) as (Lb & Db & Vb).
  rewrite bytes_leb_app by congruence.
  destruct (digits_leb _ _ Da Db ltac:(congruence)) as [Hle Heq]. rewrite Va, Vb in Hle, Heq. rewrite Hle.
  destruct (N.eqb_spec a b) as [->|Hne]; [rewrite bool_decide_eq_true_2, N.ltb_irrefl by done; done|].
  rewrite bool_decide_eq_false_2 by (by rewrite Heq). destruct (N.leb_spec a b), (N.ltb_spec a b); try done; lia.
Qed.

Lemma separator_leb (c : byte) t1 t2 : bytes_leb (c :: t1) (c :: t2) = bytes_leb t1 t2.
Proof. cbn. by rewrite N.ltb_irrefl, N.eqb_refl. Qed.

(** The date as one number, in its lexicographic order. *)
Definition date_key (date : Z * Z * Z) : Z := let '(y, m, d) := date in ((y * 13 + m) * 32 + d)%Z.

Lemma valid_date_bounds y m d : valid_date (y, m, d) = true -> (1 <= m <= 12 /\ 1 <= d <= 31)%Z.
Proof.
  unfold valid_date, month_length. rewrite !andb_true_iff, !Z.leb_le. intros [[[? ?] ?] Hd].
  destruct (m =? 2)%Z; [destruct (leap y)|destruct (_ || _ || _ || _)]; lia.
Qed.

Lemma next_day_later date : valid_date date = true -> (date_key date < date_key (next_day date))%Z.
Proof.
  destruct date as [[y m] d]. intros Hv. apply valid_date_bounds in Hv. unfold next_day.
  destruct (_ <? _)%Z; [|destruct (Z.ltb_spec m 12)]; unfold date_key; lia.
Qed.

Lemma date_key_mono a b : (a <= b)%Z -> (date_key (days_to_ymd a) + (b - a) <= date_key (days_to_ymd b))%Z.
Proof.
  intros Hab. replace b with (a + Z.of_nat (Z.to_nat (b - a)))%Z by lia. generalize (Z.to_nat (b - a)). clear.
  induction n as [|n IH]; [rewrite Z.add_0_r; lia|].
  replace (a + Z.of_nat (S n))%Z with (a + Z.of_nat n + 1)%Z by lia.
  destruct (days_to_ymd_step (a + Z.of_nat n)) as [-> Hv]. apply next_day_later in Hv. lia.
Qed.

(** The last second of the year 9999. *)
Definition LAST_SECOND : N := 253402300799.

Lemma date_fields secs : (secs <= LAST_SECOND)%N ->
  let '(y, m, d) := days_to_ymd (Z.of_N (secs / 86400)) in (0 <= y <= 9999 /\ 1 <= m <= 12 /\ 1 <= d <= 31)%Z.
Proof.
  unfold LAST_SECOND. intros Hs. set (days := Z.of_N (secs / 86400)).
  assert (Hd : (0 <= days <= 2932896)%Z).
  { unfold days. split; [apply N2Z.is_nonneg|]. apply (N.Div0.div_le_mono _ _ 86400) in Hs.
    change (253402300799 / 86400)%N with 2932896%N in Hs. apply N2Z.inj_le in Hs. exact Hs. }
  pose proof (date_key_mono days 2932896 ltac:(lia)) as Hhi. pose proof (date_key_mono 0 days ltac:(lia)) as Hlo.
  change (date_key (days_to_ymd 2932896)) with (date_key (9999, 12, 31)%Z) in Hhi.
  change (date_key (days_to_ymd 0)) with (date_key (1970, 1, 1)%Z) in Hlo.
  destruct (days_to_ymd_step days) as [_ Hv]. destruct (days_to_ymd days) as [[y m] d].
  apply valid_date_bounds in Hv. unfold date_key in *. lia.
Qed.

Lemma sod_fields secs :
  let sod := (secs mod 86400)%N in
  (sod / 3600 < 24 /\ sod mod 3600 / 60 < 60 /\ sod mod 60 < 60
   /\ secs = 86400 * (secs / 86400) + (3600 * (sod / 3600) + (60 * (sod mod 3600 / 60) + sod mod 60)))%N.
Proof.
  cbn zeta. set (sod := (secs mod 86400)%N).
  assert (Hs : (sod < 86400)%N) by (apply N.mod_lt; lia).
  assert (Hd : (secs = 86400 * (secs / 86400) + sod)%N) by (apply N.div_mod'; lia).
  assert (H1 : (sod = 3600 * (sod / 3600) + sod mod 3600)%N) by (apply N.div_mod'; lia).
  assert (H2 : (sod mod 3600 < 3600)%N) by (apply N.mod_lt; lia).
  assert (H3 : (sod mod 3600 = 60 * (sod mod 3600 / 60) + sod mod 3600 mod 60)%N) by (apply N.div_mod'; lia).
  assert (H4 : (sod mod 3600 mod 60 = sod mod 60)%N).
  { rewrite H1 at 2. replace (3600 * (sod / 3600) + sod mod 3600)%N with (sod mod 3600 + 60 * (sod / 3600) * 60)%N by lia.
    by rewrite N.Div0.mod_add. }
  assert (H5 : (sod mod 60 < 60)%N) by (apply N.mod_lt; lia).
  rewrite H4 in H3. revert Hd H1 H2 H3 H5. generalize (sod / 3600)%N, (sod mod 3600)%N, (sod mod 60)%N, (secs / 86400)%N.
  intros q r u v Hd H1 H2 H3 H5. revert H3. generalize (r / 60)%N. intros w H3. lia.
Qed.

(** Comparing field by field is comparing the numbers the fields make. *)
Lemma lex3 (x y z x' y' z' k k' : N) (r : bool) :
  (k < k' <-> x < x' \/ x = x' /\ (y < y' \/ y = y' /\ z < z'))%N ->
  (k' < k <-> x' < x \/ x' = x /\ (y' < y \/ y' = y /\ z' < z))%N ->
  ((x <? x') || (x =? x') && ((y <? y') || (y =? y') && ((z <? z') || (z =? z') && r)) = (k <? k') || (k =? k') && r)%N.
Proof.
  intros H1 H2. destruct (N.ltb_spec x x'), (N.eqb_spec x x'), (N.ltb_spec y y'), (N.eqb_spec y y'), (N.ltb_spec z z'), (N.eqb_spec z z'),
    (N.ltb_spec k k'), (N.eqb_spec k k'); cbn; try done; lia.
Qed.

(** Second by second: the date, then the time of day. *)
Lemma iso_prefix_leb a b t1 t2 : (a <= LAST_SECOND)%N -> (b <= LAST_SECOND)%N ->
  bytes_leb (iso_prefix a ++ t1) (iso_prefix b ++ t2) = ((a <? b) || (a =? b) && bytes_leb t1 t2)%N.
Proof.
  intros Ha Hb. unfold iso_prefix, two_colons.
  pose proof (date_fields a Ha) as Fa. pose proof (date_fields b Hb) as Fb.
  pose proof (date_key_mono (Z.of_N (a / 86400)) (Z.of_N (b / 86400))) as Hab.
  pose proof (date_key_mono (Z.of_N (b / 86400)) (Z.of_N (a / 86400))) as Hba.
  assert (Heq : (a / 86400 = b / 86400)%N -> days_to_ymd (Z.of_N (a / 86400)) = days_to_ymd (Z.of_N (b / 86400))) by (by intros ->).
  destruct (days_to_ymd (Z.of_N (a / 86400))) as [[y m] d]. destruct (days_to_ymd (Z.of_N (b / 86400))) as [[y' m'] d'].
  unfold date_key in Hab, Hba. clear Ha Hb.
  pose proof (sod_fields a) as (A1 & A2 & A3 & A4). pose proof (sod_fields b) as (B1 & B2 & B3 & B4).
  revert A1 A2 A3 A4 B1 B2 B3 B4 Hab Hba Heq.
  generalize (a mod 86400 / 3600)%N, (a mod 86400 mod 3600 / 60)%N, (a mod 86400 mod 60)%N, (a / 86400)%N.
  generalize (b mod 86400 / 3600)%N, (b mod 86400 mod 3600 / 60)%N, (b mod 86400 mod 60)%N, (b / 86400)%N.
  intros h' n' s' D' h n s D A1 A2 A3 A4 B1 B2 B3 B4 Hab Hba Heq.
  repeat (rewrite <- app_assoc; cbn [app]).
  rewrite (field_leb 4), separator_leb, (field_leb 2), separator_leb, (field_leb 2), separator_leb, (field_leb 2), separator_leb,
    (field_leb 2), separator_leb, (field_leb 2) by (try done; try (change (10 ^ N.of_nat 4)%N with 10000%N); try (change (10 ^ N.of_nat 2)%N with 100%N); lia).
  rewrite (lex3 h n s h' n' s' (3600 * h + (60 * n + s)) (3600 * h' + (60 * n' + s')))%N by lia.
  rewrite (lex3 _ _ _ _ _ _ D D')%N.
  - destruct (N.ltb_spec D D'), (N.eqb_spec D D'), (N.ltb_spec a b), (N.eqb_spec a b),
      (N.ltb_spec (3600 * h + (60 * n + s)) (3600 * h' + (60 * n' + s')))%N,
      (N.eqb_spec (3600 * h + (60 * n + s)) (3600 * h' + (60 * n' + s')))%N; cbn; try done; lia.
  - clear A4 B4. destruct (N.lt_total D D') as [HD|[HD|HD]]; [|injection (Heq HD) as -> -> ->; lia|]; lia.
  - clear A4 B4. destruct (N.lt_total D D') as [HD|[HD|HD]]; [|injection (Heq HD) as -> -> ->; lia|]; lia.
Qed.

(** Whole seconds and milliseconds of an instant before the year 10000. *)
Lemma whole_seconds_small t : (Z.to_N t < 253402300800 * 1000000000)%N ->
  whole_seconds t = (Z.to_N t / 1000000000)%N /\ (Z.to_N t / 1000000000 <= LAST_SECOND)%N
  /\ (Z.to_N t mod 1000000000 / 1000000 < 10 ^ N.of_nat 3)%N
  /\ (Z.to_N t / 1000000 = 1000 * (Z.to_N t / 1000000000) + Z.to_N t mod 1000000000 / 1000000)%N.
Proof.
  intros Ht. set (n := Z.to_N t) in *.
  assert (Hs : (n / 1000000000 < 253402300800)%N) by (apply N.Div0.div_lt_upper_bound; lia).
  assert (Hq : (n / 1000000000 <= LAST_SECOND)%N) by (unfold LAST_SECOND; lia). split_and!; [|done|..].
  - unfold whole_seconds. fold n. destruct (N.ltb_spec I64_MAX (n / 1000000000)) as [H|H]; [|done].
    unfold LAST_SECOND, I64_MAX in *. lia.
  - apply N.Div0.div_lt_upper_bound. change (1000000 * 10 ^ N.of_nat 3)%N with 1000000000%N. by apply N.mod_lt.
  - rewrite (N.div_mod' n 1000000000) at 1.
    replace (1000000000 * (n / 1000000000) + n mod 1000000000)%N with (n mod 1000000000 + 1000 * (n / 1000000000) * 1000000)%N by lia.
    rewrite N.div_add by done. lia.
Qed.

Lemma iso_order a b :
  (Z.to_N a < 253402300800 * 1000000000)%N -> (Z.to_N b < 253402300800 * 1000000000)%N ->
  str_leb (iso_timestamp_at a) (iso_timestamp_at b) = (Z.to_N a / 1000000000 <=? Z.to_N b / 1000000000)%N
  /\ str_leb (iso_full a) (iso_full b) = (Z.to_N a / 1000000 <=? Z.to_N b / 1000000)%N.
Proof.
  intros Ha Hb.
  destruct (whole_seconds_small a Ha) as (Ea & La & Ma). destruct (whole_seconds_small b Hb) as (Eb & Lb & Mb).
  unfold str_leb, iso_timestamp_at, iso_full. rewrite !as_of_bytes, Ea, Eb. split.
  - rewrite iso_prefix_leb by done. rewrite bytes_leb_refl, andb_true_r.
    destruct (N.ltb_spec (Z.to_N a / 1000000000) (Z.to_N b / 1000000000)), (N.eqb_spec (Z.to_N a / 1000000000) (Z.to_N b / 1000000000)),
      (N.leb_spec (Z.to_N a / 1000000000) (Z.to_N b / 1000000000)); try done; lia.
  - rewrite iso_prefix_leb by done. rewrite separator_leb, (field_leb 3) by (try done; apply Ma || apply Mb).
    rewrite bytes_leb_refl, andb_true_r. destruct Ma as [Ma Da], Mb as [Mb Db]. rewrite Da, Db. revert Ma Mb.
    generalize (Z.to_N a mod 1000000000 / 1000000)%N, (Z.to_N b mod 1000000000 / 1000000)%N,
      (Z.to_N a / 1000000000)%N, (Z.to_N b / 1000000000)%N. clear. intros x y u v Hx Hy.
    change (10 ^ N.of_nat 3)%N with 1000%N in *.
    destruct (N.ltb_spec u v), (N.eqb_spec u v), (N.ltb_spec x y), (N.eqb_spec x y), (N.leb_spec (1000 * u + x) (1000 * v + y))%N;
      cbn; try done; lia.
Qed.

(** The text orders time.  Up to the year 9999, one instant's text is at most
    another's in byte order exactly when its second is no later; the
    millisecond form refines that order; and before the epoch everything reads
    as the epoch. *)
Theorem timestamps_order_time a b
  (Ha : (Z.to_N a < 253402300800 * 1000000000)%N) (Hb : (Z.to_N b < 253402300800 * 1000000000)%N) :
  str_leb (iso_timestamp_at a) (iso_timestamp_at b) = (Z.to_N a / 1000000000 <=? Z.to_N b / 1000000000)%N
  /\ str_leb (iso_full a) (iso_full b) = (Z.to_N a / 1000000 <=? Z.to_N b / 1000000)%N.
Proof. by apply iso_order. Qed.

Module TimestampWitness.

Lemma timestamps_order_time_witness :
  iso_timestamp_at 951827696123456789 = "2000-02-29T12:34:56Z"
  /\ str_leb (iso_timestamp_at 951827696123456789) (iso_timestamp_at 951868800000000000) = true
  /\ str_leb (iso_full 951868800000000000) (iso_full 951827696123456789) = false.
Proof.
  split; [vm_compute; reflexivity|].
  assert (Ha : (Z.to_N 951827696123456789 < 253402300800 * 1000000000)%N) by (vm_compute; reflexivity).
  assert (Hb : (Z.to_N 951868800000000000 < 253402300800 * 1000000000)%N) by (vm_compute; reflexivity).
  split.
  - rewrite (proj1 (timestamps_order_time _ _ Ha Hb)). vm_compute. reflexivity.
  - rewrite (proj2 (timestamps_order_time _ _ Hb Ha)). vm_compute. reflexivity.
Defined.
End TimestampWitness.
