(* ===== verification/Rollups.v ===== *)
(** * Usage rollups (src/src/ports/rollup_store.rs, src/src/rollups/)

    The lossy pipeline beside the audit trail: usage rows go into a store and
    come out as a fixed set of named reports.  [compute] is the streaming
    reference the in-memory adapter uses; the SQLite adapter answers the same
    queries with fixed SQL statements, read here as SQL reads them.  The
    interface [RollupStore] is what the consumer (file Consumer) relies on. *)
From S2P Require Import Prelude RustStr Json Bundle Config Scope F64 BTree Timestamps.

(** ** Rows and windows *)

Record UsageRow := {
  ur_timestamp : string;
  ur_tenant : string;
  ur_subject : string;
  ur_vendor : string;
  ur_environment : string;
  ur_tool_name : string;
  ur_decision : string;
  ur_risk : string;
  ur_outcome : string;
  ur_duration_ms : N;
}.

Record Window := { w_since : option string; w_until : option string }.

Definition window_all : Window := {| w_since := None; w_until := None |}.

(** [a < b] on [str]. *)
Definition str_ltb (a b : string) : bool := negb (str_leb b a).

Definition window_contains (w : Window) (timestamp : string) : bool :=
  is_none_or (w_since w) (fun since => str_leb since timestamp) && is_none_or (w_until w) (fun until => str_ltb timestamp until).

Inductive Bucket := Hour | Day.

Definition bucket_width (b : Bucket) : nat := match b with Hour => 13 | Day => 10 end.

(** [timestamp.get(..cut)]: within the text and on a character boundary. *)
Definition get_prefix (cut : nat) (l : list byte) : option (list byte) :=
  match l !! cut with
  | Some b => if is_cont b then None else Some (take cut l)
  | None => if (length l =? cut)%nat then Some l else None
  end.

Definition bucket_label (b : Bucket) (timestamp : string) : string :=
  of_bytes (default (as_bytes timestamp) (get_prefix (bucket_width b) (as_bytes timestamp))).

Inductive ReportQuery :=
| QTotals (window : Window)
| QByPrincipal (window : Window)
| QByVendor (window : Window)
| QByTool (window : Window)
| QDenialsByEnvironment (window : Window)
| QTimeline (window : Window) (bucket : Bucket).

Record Totals := {
  t_rows : N; t_allowed : N; t_denied : N; t_failed : N; t_subjects : N; t_vendors : N;
  t_allow_share : option f64; t_mean_duration_ms : option f64; t_cross_environment_attempts : N;
  t_first_timestamp : option string; t_last_timestamp : option string;
}.

Record GroupRow := {
  g_key : string; g_rows : N; g_allowed : N; g_denied : N; g_failed : N; g_mean_duration_ms : option f64;
  g_first_timestamp : option string; g_last_timestamp : option string;
}.

Record TimelineRow := { tl_bucket : string; tl_rows : N; tl_allowed : N; tl_denied : N }.

Inductive Report :=
| RTotals (totals : Totals)
| RGroups (rows : list GroupRow)
| RTimeline (rows : list TimelineRow).

(** ** The reference: one pass over the rows *)

Definition is_allow (row : UsageRow) : bool := String.eqb (ur_decision row) "allow".

Definition ratio (numerator denominator : N) : f64 := fdiv (f64_of numerator) (f64_of denominator).

(** [u64 +=] as the released binary computes it. *)
Definition u64_add (a b : N) : N := ((a + b) mod 2 ^ 64)%N.

(** What is counted of a set of rows, whichever way they are grouped. *)
Record Tally := {
  ta_rows : N; ta_allowed : N; ta_denied : N; ta_failed : N; ta_duration : N;
  ta_first : option string; ta_last : option string;
}.

Definition tally_new : Tally :=
  {| ta_rows := 0; ta_allowed := 0; ta_denied := 0; ta_failed := 0; ta_duration := 0; ta_first := None; ta_last := None |}.

Definition tally_step (t : Tally) (row : UsageRow) : Tally :=
  {| ta_rows := ta_rows t + 1;
     ta_allowed := if is_allow row then ta_allowed t + 1 else ta_allowed t;
     ta_denied := if is_allow row then ta_denied t else ta_denied t + 1;
     ta_failed := if is_allow row && negb (String.eqb (ur_outcome row) "success") then ta_failed t + 1 else ta_failed t;
     ta_duration := if is_allow row then u64_add (ta_duration t) (ur_duration_ms row) else ta_duration t;
     ta_first := if is_none_or (ta_first t) (fun first => str_ltb (ur_timestamp row) first) then Some (ur_timestamp row) else ta_first t;
     ta_last := if is_none_or (ta_last t) (fun last_ => str_ltb last_ (ur_timestamp row)) then Some (ur_timestamp row) else ta_last t;
  |}.

Record TotalsPass := {
  tp_tally : Tally;
  tp_subjects : gset string;
  tp_vendors : gset string;
  tp_allowed_envs : gmap (string * string) (gset string);
}.

Definition totals_step (p : TotalsPass) (row : UsageRow) : TotalsPass :=
  {| tp_tally := tally_step (tp_tally p) row;
     tp_subjects := {[ ur_subject row ]} ∪ tp_subjects p;
     tp_vendors := {[ ur_vendor row ]} ∪ tp_vendors p;
     tp_allowed_envs :=
       if is_allow row
       then let k := (ur_subject row, ur_vendor row) in
            <[k := {[ ur_environment row ]} ∪ default ∅ (tp_allowed_envs p !! k)]> (tp_allowed_envs p)
       else tp_allowed_envs p |}.

Definition in_window (w : Window) (rows : list UsageRow) : list UsageRow :=
  List.filter (fun row => window_contains w (ur_timestamp row)) rows.

Definition totals (rows : list UsageRow) (w : Window) : Totals :=
  let p := foldl totals_step {| tp_tally := tally_new; tp_subjects := ∅; tp_vendors := ∅; tp_allowed_envs := ∅ |} (in_window w rows) in
  let t := tp_tally p in
  {| t_rows := ta_rows t; t_allowed := ta_allowed t; t_denied := ta_denied t; t_failed := ta_failed t;
     t_subjects := N.of_nat (size (tp_subjects p)); t_vendors := N.of_nat (size (tp_vendors p));
     t_allow_share := if (0 <? ta_rows t)%N then Some (ratio (ta_allowed t) (ta_rows t)) else None;
     t_mean_duration_ms := if (0 <? ta_allowed t)%N then Some (ratio (ta_duration t) (ta_allowed t)) else None;
     t_cross_environment_attempts :=
       N.of_nat (length (List.filter
         (fun row => window_contains w (ur_timestamp row) && negb (is_allow row)
            && is_some_and (tp_allowed_envs p !! (ur_subject row, ur_vendor row))
                 (fun envs => existsb (fun env => negb (String.eqb env (ur_environment row))) (elements envs))) rows));
     t_first_timestamp := ta_first t; t_last_timestamp := ta_last t |}.

Definition group_row (entry : string * Tally) : GroupRow :=
  let '(key, t) := entry in
  {| g_key := key; g_rows := ta_rows t; g_allowed := ta_allowed t; g_denied := ta_denied t; g_failed := ta_failed t;
     g_mean_duration_ms := if (0 <? ta_allowed t)%N then Some (ratio (ta_duration t) (ta_allowed t)) else None;
     g_first_timestamp := ta_first t; g_last_timestamp := ta_last t |}.

Definition grouped (rows : list UsageRow) (w : Window) (key : UsageRow -> string) (denials_only : bool) : list GroupRow :=
  let kept := List.filter (fun row => negb (denials_only && is_allow row)) (in_window w rows) in
  map group_row (btree_iter (foldl (group_step tally_new tally_step key) ∅ kept)).

Definition timeline_step (entry : N * N * N) (row : UsageRow) : N * N * N :=
  let '(n, allowed, denied) := entry in
  (n + 1, if is_allow row then allowed + 1 else allowed, if is_allow row then denied else denied + 1)%N.

Definition timeline (rows : list UsageRow) (w : Window) (bucket : Bucket) : list TimelineRow :=
  map (fun '(label, (n, allowed, denied)) => {| tl_bucket := label; tl_rows := n; tl_allowed := allowed; tl_denied := denied |})
    (btree_iter (foldl (group_step (0, 0, 0)%N timeline_step (fun row => bucket_label bucket (ur_timestamp row))) ∅ (in_window w rows))).

Definition compute (rows : list UsageRow) (query : ReportQuery) : Report :=
  match query with
  | QTotals w => RTotals (totals rows w)
  | QByPrincipal w => RGroups (grouped rows w ur_subject false)
  | QByVendor w => RGroups (grouped rows w ur_vendor false)
  | QByTool w => RGroups (grouped rows w ur_tool_name false)
  | QDenialsByEnvironment w => RGroups (grouped rows w ur_environment true)
  | QTimeline w b => RTimeline (timeline rows w b)
  end.

(** ** The port *)

Inductive RollupError := RollupUnavailable (detail : string) | RollupCorrupt (detail : string).

(** The operations of a store; [S] is its state. *)
Class RollupStore (S : Type) := {
  store_append : list UsageRow -> S -> S * result unit RollupError;
  store_report : ReportQuery -> S -> result Report RollupError;
  store_prune : string -> S -> S * result N RollupError;
  store_count : S -> result N RollupError;
}.

(** *** In memory *)

Record InMemory := { im_rows : list UsageRow; im_failing : bool }.

Definition im_check (s : InMemory) : result unit RollupError :=
  if im_failing s then Err (RollupUnavailable "store is failing") else Ok tt.

#[export] Instance InMemoryRollupStore : RollupStore InMemory :=
  {| store_append rows s :=
       match im_check s with
       | Err e => (s, Err e)
       | Ok _ => ({| im_rows := im_rows s ++ rows; im_failing := im_failing s |}, Ok tt)
       end;
     store_report query s := let? _ := im_check s in Ok (compute (im_rows s) query);
     store_prune before s :=
       match im_check s with
       | Err e => (s, Err e)
       | Ok _ =>
           let kept := List.filter (fun row => str_leb before (ur_timestamp row)) (im_rows s) in
           ({| im_rows := kept; im_failing := im_failing s |}, Ok (N.of_nat (length (im_rows s) - length kept)))
       end;
     store_count s := let? _ := im_check s in Ok (N.of_nat (length (im_rows s))) |}.

(** *** SQLite

    The table [usage] is the list of its rows in insertion order; [available]
    says whether the database answers.  Each statement is written as SQL reads
    it: a filter, a grouping, aggregates. *)

Record Sqlite := { sq_usage : list UsageRow; sq_available : bool }.

Definition sq_check (s : Sqlite) : result unit RollupError :=
  if sq_available s then Ok tt else Err (RollupUnavailable "database is locked").

(** [i64::try_from(row.duration_ms).unwrap_or(i64::MAX)]. *)
Definition sql_row (row : UsageRow) : UsageRow :=
  {| ur_timestamp := ur_timestamp row; ur_tenant := ur_tenant row; ur_subject := ur_subject row; ur_vendor := ur_vendor row;
     ur_environment := ur_environment row; ur_tool_name := ur_tool_name row; ur_decision := ur_decision row;
     ur_risk := ur_risk row; ur_outcome := ur_outcome row; ur_duration_ms := N.min (ur_duration_ms row) I64_MAX |}.

(** The greatest code point, the sentinel of an open window. *)
Definition until_sentinel : string := of_bytes [byte_of 244; byte_of 143; byte_of 191; byte_of 191].

Definition bounds (w : Window) : string * string := (default "" (w_since w), default until_sentinel (w_until w)).

(** [WHERE ts >= ?1 AND ts < ?2]; text compares by its bytes. *)
Definition where_window (w : Window) (rows : list UsageRow) : list UsageRow :=
  let '(since, until) := bounds w in
  List.filter (fun row => str_leb since (ur_timestamp row) && str_ltb (ur_timestamp row) until) rows.

Definition sql_count (f : UsageRow -> bool) (rows : list UsageRow) : N := N.of_nat (length (List.filter f rows)).

(** [SUM] of integers: an error when it leaves [i64]. *)
Fixpoint sum_i64 (acc : N) (l : list N) : result N RollupError :=
  match l with
  | [] => Ok acc
  | n :: rest => if (I64_MAX <? acc + n)%N then Err (RollupUnavailable "integer overflow") else sum_i64 (acc + n) rest
  end.

Definition sum_duration (rows : list UsageRow) : result N RollupError :=
  sum_i64 0 (map ur_duration_ms (List.filter is_allow rows)).

(** [MIN] and [MAX] of text; [NULL] of nothing. *)
Definition sql_min (l : list string) : option string := head (merge_sort str_le l).
Definition sql_max (l : list string) : option string := last (merge_sort str_le l).

(** [COUNT(DISTINCT column)] counts [distinct], and [GROUP BY column ORDER BY
    column] runs over [group_keys] and takes [group_of] each. *)
Definition not_success (row : UsageRow) : bool := is_allow row && negb (String.eqb (ur_outcome row) "success").
Definition denied (row : UsageRow) : bool := negb (is_allow row).
Definition any_row (_ : UsageRow) : bool := true.

Definition query_totals (w : Window) (usage : list UsageRow) : result Totals RollupError :=
  let rows := where_window w usage in
  let? duration := sum_duration rows in
  Ok {| t_rows := sql_count any_row rows; t_allowed := sql_count is_allow rows; t_denied := sql_count denied rows;
        t_failed := sql_count not_success rows;
        t_subjects := N.of_nat (length (distinct ur_subject rows)); t_vendors := N.of_nat (length (distinct ur_vendor rows));
        t_allow_share := if (0 <? sql_count any_row rows)%N then Some (ratio (sql_count is_allow rows) (sql_count any_row rows)) else None;
        t_mean_duration_ms := if (0 <? sql_count is_allow rows)%N then Some (ratio duration (sql_count is_allow rows)) else None;
        t_cross_environment_attempts :=
          sql_count (fun d => denied d && existsb (fun a => is_allow a && String.eqb (ur_subject a) (ur_subject d)
                                                  && String.eqb (ur_vendor a) (ur_vendor d)
                                                  && negb (String.eqb (ur_environment a) (ur_environment d))) rows) rows;
        t_first_timestamp := sql_min (map ur_timestamp rows); t_last_timestamp := sql_max (map ur_timestamp rows) |}.

(** One line of a grouped statement. *)
Definition group_line (column : UsageRow -> string) (rows : list UsageRow) (key : string) : result GroupRow RollupError :=
  let group := group_of column rows key in
  let? duration := sum_duration group in
  Ok {| g_key := key; g_rows := sql_count any_row group; g_allowed := sql_count is_allow group; g_denied := sql_count denied group;
        g_failed := sql_count not_success group;
        g_mean_duration_ms := if (0 <? sql_count is_allow group)%N then Some (ratio duration (sql_count is_allow group)) else None;
        g_first_timestamp := sql_min (map ur_timestamp group); g_last_timestamp := sql_max (map ur_timestamp group) |}.

(** [collect::<Result<Vec<_>, _>>()]. *)
Fixpoint collect_results {A E} (l : list (result A E)) : result (list A) E :=
  match l with
  | [] => Ok []
  | r :: rest => let? x := r in let? xs := collect_results rest in Ok (x :: xs)
  end.

Definition query_groups (w : Window) (column : UsageRow -> string) (denials_only : bool) (usage : list UsageRow)
  : result (list GroupRow) RollupError :=
  let rows := where_window w usage in
  let rows := if denials_only then List.filter denied rows else rows in
  collect_results (map (group_line column rows) (group_keys column rows)).

(** [substr(ts, 1, width)] counts characters: a byte that starts one more
    than [width] characters ends it. *)
Fixpoint substr_chars (width : nat) (l : list byte) : list byte :=
  match l with
  | [] => []
  | b :: rest =>
      if is_cont b then b :: substr_chars width rest
      else match width with O => [] | S width' => b :: substr_chars width' rest end
  end.

Definition query_timeline (w : Window) (bucket : Bucket) (usage : list UsageRow) : list TimelineRow :=
  let rows := where_window w usage in
  let column := fun row => of_bytes (substr_chars (bucket_width bucket) (as_bytes (ur_timestamp row))) in
  map (fun key => let group := group_of column rows key in
         {| tl_bucket := key; tl_rows := sql_count any_row group; tl_allowed := sql_count is_allow group;
            tl_denied := sql_count denied group |})
    (group_keys column rows).

Definition sql_report (query : ReportQuery) (usage : list UsageRow) : result Report RollupError :=
  match query with
  | QTotals w => let? t := query_totals w usage in Ok (RTotals t)
  | QByPrincipal w => let? rows := query_groups w ur_subject false usage in Ok (RGroups rows)
  | QByVendor w => let? rows := query_groups w ur_vendor false usage in Ok (RGroups rows)
  | QByTool w => let? rows := query_groups w ur_tool_name false usage in Ok (RGroups rows)
  | QDenialsByEnvironment w => let? rows := query_groups w ur_environment true usage in Ok (RGroups rows)
  | QTimeline w b => Ok (RTimeline (query_timeline w b usage))
  end.

(** An append is one transaction. *)
#[export] Instance SqliteRollupStore : RollupStore Sqlite :=
  {| store_append rows s :=
       match rows with
       | [] => (s, Ok tt)
       | _ =>
           match sq_check s with
           | Err e => (s, Err e)
           | Ok _ => ({| sq_usage := sq_usage s ++ map sql_row rows; sq_available := sq_available s |}, Ok tt)
           end
       end;
     store_report query s := let? _ := sq_check s in sql_report query (sq_usage s);
     store_prune before s :=
       match sq_check s with
       | Err e => (s, Err e)
       | Ok _ =>
           ({| sq_usage := List.filter (fun row => negb (str_ltb (ur_timestamp row) before)) (sq_usage s); sq_available := sq_available s |},
            Ok (N.of_nat (length (List.filter (fun row => str_ltb (ur_timestamp row) before) (sq_usage s)))))
       end;
     store_count s := let? _ := sq_check s in Ok (N.of_nat (length (sq_usage s))) |}.

(** ** One pass computes the aggregates *)

Lemma sorted_min l : StronglySorted str_le l -> match head l with Some m => m ∈ l /\ forall y, y ∈ l -> str_le m y | None => l = [] end.
Proof.
  intros Hs. destruct Hs as [|x l Hs Hx]; [done|]. cbn. split; [left|]. intros y [->|Hy]%elem_of_cons; [done|].
  rewrite Forall_forall in Hx. by apply Hx.
Qed.

Lemma sorted_max l : StronglySorted str_le l -> match last l with Some m => m ∈ l /\ forall y, y ∈ l -> str_le y m | None => l = [] end.
Proof.
  induction 1 as [|x l Hs IH Hx]; [done|]. rewrite last_cons. destruct (last l) as [m|].
  - destruct IH as [Hm IH]. split; [by right|]. intros y [->|Hy]%elem_of_cons; [|by apply IH].
    rewrite Forall_forall in Hx. by apply Hx.
  - subst l. split; [left|]. intros y [->|Hy]%elem_of_cons; [done|]. by apply elem_of_nil in Hy.
Qed.

Lemma sql_min_spec l : match sql_min l with Some m => m ∈ l /\ forall y, y ∈ l -> str_le m y | None => l = [] end.
Proof.
  unfold sql_min. pose proof (sorted_min _ (merge_sort_sorted l)) as H. pose proof (merge_sort_Permutation str_le l) as Hp.
  destruct (head _) as [m|]; [|by rewrite H in Hp; apply Permutation_nil in Hp].
  setoid_rewrite Hp in H. done.
Qed.

Lemma sql_max_spec l : match sql_max l with Some m => m ∈ l /\ forall y, y ∈ l -> str_le y m | None => l = [] end.
Proof.
  unfold sql_max. pose proof (sorted_max _ (merge_sort_sorted l)) as H. pose proof (merge_sort_Permutation str_le l) as Hp.
  destruct (last _) as [m|]; [|by rewrite H in Hp; apply Permutation_nil in Hp].
  setoid_rewrite Hp in H. done.
Qed.

Lemma str_ltb_false a b : str_ltb a b = false -> str_le b a.
Proof. unfold str_ltb. intros H%negb_false_iff. exact H. Qed.

Lemma str_ltb_true a b : str_ltb a b = true -> str_le a b.
Proof. unfold str_ltb. intros H%negb_true_iff. destruct (str_le_total a b) as [|Hb]; [done|]. unfold str_le in Hb. congruence. Qed.

Lemma sql_min_snoc l x :
  sql_min (l ++ [x]) = if is_none_or (sql_min l) (fun first => str_ltb x first) then Some x else sql_min l.
Proof.
  pose proof (sql_min_spec (l ++ [x])) as H. pose proof (sql_min_spec l) as H0.
  destruct (sql_min (l ++ [x])) as [m|]; [|by destruct l]. destruct H as [Hm H].
  assert (Hx : str_le m x) by (apply H; set_solver). apply elem_of_app in Hm as [Hm|Hm%list_elem_of_singleton].
  - destruct (sql_min l) as [m0|]; cbn [is_none_or]; [|subst l; by apply elem_of_nil in Hm]. destruct H0 as [Hm0 H0].
    assert (m = m0) as -> by (apply (anti_symm str_le); [apply H; set_solver|by apply H0]).
    destruct (str_ltb x m0) eqn:E; [|done]. apply str_ltb_true in E. f_equal. by apply (anti_symm str_le).
  - subst m. destruct (sql_min l) as [m0|]; cbn [is_none_or]; [|done]. destruct H0 as [Hm0 _].
    destruct (str_ltb x m0) eqn:E; [done|]. apply str_ltb_false in E. f_equal. apply (anti_symm str_le); [|done].
    apply H. set_solver.
Qed.

Lemma sql_max_snoc l x :
  sql_max (l ++ [x]) = if is_none_or (sql_max l) (fun last_ => str_ltb last_ x) then Some x else sql_max l.
Proof.
  pose proof (sql_max_spec (l ++ [x])) as H. pose proof (sql_max_spec l) as H0.
  destruct (sql_max (l ++ [x])) as [m|]; [|by destruct l]. destruct H as [Hm H].
  assert (Hx : str_le x m) by (apply H; set_solver). apply elem_of_app in Hm as [Hm|Hm%list_elem_of_singleton].
  - destruct (sql_max l) as [m0|]; cbn [is_none_or]; [|subst l; by apply elem_of_nil in Hm]. destruct H0 as [Hm0 H0].
    assert (m = m0) as -> by (apply (anti_symm str_le); [by apply H0|apply H; set_solver]).
    destruct (str_ltb m0 x) eqn:E; [|done]. apply str_ltb_true in E. f_equal. by apply (anti_symm str_le).
  - subst m. destruct (sql_max l) as [m0|]; cbn [is_none_or]; [|done]. destruct H0 as [Hm0 _].
    destruct (str_ltb m0 x) eqn:E; [done|]. apply str_ltb_false in E. f_equal. apply (anti_symm str_le); [done|].
    apply H. set_solver.
Qed.

Lemma sql_count_snoc f l x : sql_count f (l ++ [x]) = if f x then (sql_count f l + 1)%N else sql_count f l.
Proof. unfold sql_count. rewrite List.filter_app, length_app. cbn [List.filter]. destruct (f x); cbn [length]; lia. Qed.

(** The milliseconds of allowed calls. *)
Definition duration_total (rows : list UsageRow) : N := foldr N.add 0%N (map ur_duration_ms (List.filter is_allow rows)).

Lemma sum_i64_ok acc l : (acc + foldr N.add 0 l <= I64_MAX)%N -> sum_i64 acc l = Ok (acc + foldr N.add 0 l)%N.
Proof.
  revert acc; induction l as [|n l IH]; intros acc; cbn [sum_i64 foldr]; [intros; f_equal; lia|]. intros Hs.
  destruct (N.ltb_spec I64_MAX (acc + n)); [lia|]. rewrite IH by lia. f_equal. lia.
Qed.

Lemma sum_duration_ok rows : (duration_total rows <= I64_MAX)%N -> sum_duration rows = Ok (duration_total rows).
Proof. intros H. unfold sum_duration. by rewrite sum_i64_ok. Qed.

Lemma foldr_add_app l k : foldr N.add 0%N (l ++ k) = (foldr N.add 0 l + foldr N.add 0 k)%N.
Proof. induction l as [|n l IH]; cbn; [done|]. rewrite IH. lia. Qed.

Lemma duration_total_app l k : duration_total (l ++ k) = (duration_total l + duration_total k)%N.
Proof. unfold duration_total. by rewrite List.filter_app, map_app, foldr_add_app. Qed.

(** Fewer rows, no more milliseconds. *)
Lemma duration_total_filter f rows : (duration_total (List.filter f rows) <= duration_total rows)%N.
Proof.
  induction rows as [|row rows IH]; [done|]. cbn [List.filter].
  assert (Hle : (duration_total rows <= duration_total (row :: rows))%N).
  { unfold duration_total. cbn [List.filter]. destruct (is_allow row); cbn; lia. }
  destruct (f row); [|lia]. unfold duration_total in *. cbn [List.filter]. destruct (is_allow row); cbn; lia.
Qed.

Definition tally_of (rows : list UsageRow) : Tally :=
  {| ta_rows := sql_count any_row rows; ta_allowed := sql_count is_allow rows; ta_denied := sql_count denied rows;
     ta_failed := sql_count not_success rows; ta_duration := duration_total rows;
     ta_first := sql_min (map ur_timestamp rows); ta_last := sql_max (map ur_timestamp rows) |}.

Lemma tally_is rows : (duration_total rows <= I64_MAX)%N -> foldl tally_step tally_new rows = tally_of rows.
Proof.
  induction rows as [|row rows IH] using rev_ind; [done|]. intros Hd. rewrite duration_total_app in Hd.
  rewrite foldl_app. cbn [foldl]. rewrite IH by lia. unfold tally_step, tally_of.
  cbn [ta_rows ta_allowed ta_denied ta_failed ta_duration ta_first ta_last].
  rewrite map_app. cbn [map]. rewrite sql_min_snoc, sql_max_snoc, !sql_count_snoc, duration_total_app.
  f_equal; [by unfold denied; destruct (is_allow row)|].
  unfold duration_total in *. cbn [List.filter] in *. destruct (is_allow row); cbn [map foldr] in *; [|lia].
  unfold u64_add. rewrite N.mod_small; [lia|]. unfold I64_MAX in Hd. change (2 ^ 64)%N with 18446744073709551616%N. lia.
Qed.

(** ** The totals *)

Lemma exists_snoc {A} (P : A -> Prop) l x : (exists a, a ∈ l ++ [x] /\ P a) <-> (exists a, a ∈ l /\ P a) \/ P x.
Proof. set_solver. Qed.

Lemma totals_pass rows :
  let p := foldl totals_step {| tp_tally := tally_new; tp_subjects := ∅; tp_vendors := ∅; tp_allowed_envs := ∅ |} rows in
  tp_tally p = foldl tally_step tally_new rows
  /\ (forall x, x ∈ tp_subjects p <-> x ∈ map ur_subject rows) /\ (forall x, x ∈ tp_vendors p <-> x ∈ map ur_vendor rows)
  /\ (forall s v e, e ∈ default ∅ (tp_allowed_envs p !! (s, v))
      <-> exists a, a ∈ rows /\ is_allow a = true /\ ur_subject a = s /\ ur_vendor a = v /\ ur_environment a = e).
Proof.
  cbn zeta. induction rows as [|row rows IH] using rev_ind; [cbn; set_solver|].
  rewrite !foldl_app, !map_app. cbn [foldl map]. destruct IH as (IH1 & IH2 & IH3 & IH4).
  set (p := foldl totals_step _ rows) in *. unfold totals_step.
  cbn [tp_tally tp_subjects tp_vendors tp_allowed_envs]. split_and!; [by rewrite IH1|set_solver..|].
  intros s v e. rewrite exists_snoc. destruct (is_allow row) eqn:Ha.
  - destruct (decide ((ur_subject row, ur_vendor row) = (s, v))) as [[= <- <-]|Hne].
    + rewrite lookup_insert_eq. change (default ∅ (Some ?x)) with x. rewrite elem_of_union, elem_of_singleton, IH4.
      split; [intros [->|H]; [by right|by left]|intros [H|(_ & _ & _ & ->)]; [by right|by left]].
    + rewrite lookup_insert_ne, IH4 by done. split; [by left|]. intros [H|(_ & <- & <- & _)]; [done|]. by destruct Hne.
  - rewrite IH4. split; [by left|]. intros [H|(? & _)]; [done|congruence].
Qed.

Lemma size_distinct (X : gset string) l : (forall x, x ∈ X <-> x ∈ l) -> size X = length (remove_dups l).
Proof.
  intros HX. unfold size, set_size. apply Permutation_length, NoDup_Permutation; [apply NoDup_elements|apply NoDup_remove_dups|].
  intros x. by rewrite elem_of_elements, elem_of_remove_dups.
Qed.

Lemma filter_all {A} (f : A -> bool) l : (forall x, x ∈ l -> f x = true) -> List.filter f l = l.
Proof. induction l as [|x l IH]; intros H; [done|]. cbn. rewrite (H x) by left. f_equal. apply IH. intros y Hy. apply H. by right. Qed.

Lemma filter_filter {A} (f g : A -> bool) l : List.filter f (List.filter g l) = List.filter (fun x => g x && f x) l.
Proof. induction l as [|x l IH]; [done|]. cbn [List.filter]. destruct (g x); cbn [andb List.filter]; [destruct (f x)|]; by rewrite IH. Qed.

Lemma totals_is rows w : (duration_total rows <= I64_MAX)%N -> where_window w rows = in_window w rows ->
  query_totals w rows = Ok (totals rows w).
Proof.
  intros Hd Hw. unfold query_totals, totals. rewrite Hw. set (kept := in_window w rows).
  assert (Hk : (duration_total kept <= I64_MAX)%N) by (pose proof (duration_total_filter (fun row => window_contains w (ur_timestamp row)) rows); unfold kept, in_window; lia).
  rewrite sum_duration_ok by done.
  destruct (totals_pass kept) as (Ht & Hs & Hv & He). set (p := foldl totals_step _ kept) in *.
  rewrite Ht, (tally_is kept Hk). unfold tally_of. cbn [ta_rows ta_allowed ta_denied ta_failed ta_duration ta_first ta_last].
  rewrite (size_distinct _ _ Hs), (size_distinct _ _ Hv). do 2 f_equal.
  unfold sql_count at 1. f_equal. f_equal. unfold kept at 2, in_window. rewrite filter_filter. apply filter_ext. intros row.
  rewrite <- andb_assoc. f_equal. unfold denied. f_equal. apply eq_iff_eq_true. rewrite existsb_exists. split.
  - intros (a & Ha%list_elem_of_In & Hc). rewrite !andb_true_iff, negb_true_iff, !String.eqb_eq, String.eqb_neq in Hc.
    destruct Hc as [[[Hal Hsub] Hven] Henv].
    pose proof (proj2 (He (ur_subject row) (ur_vendor row) (ur_environment a))) as Hin.
    destruct (tp_allowed_envs p !! (ur_subject row, ur_vendor row)) as [envs|]; cbn [is_some_and].
    + apply existsb_exists. exists (ur_environment a). split; [|by apply negb_true_iff, String.eqb_neq].
      apply list_elem_of_In, elem_of_elements. apply Hin. by exists a.
    + exfalso. change (default ∅ None) with (∅ : gset string) in Hin. apply (not_elem_of_empty (C := gset string) (ur_environment a)). apply Hin. by exists a.
  - pose proof (fun e => proj1 (He (ur_subject row) (ur_vendor row) e)) as Hin.
    destruct (tp_allowed_envs p !! (ur_subject row, ur_vendor row)) as [envs|]; cbn [is_some_and]; [|done].
    intros (e & He'%list_elem_of_In%elem_of_elements & Hne)%existsb_exists. apply negb_true_iff, String.eqb_neq in Hne.
    destruct (Hin e He') as (a & Ha & Hal & Hsub & Hven & Henv). exists a. split; [by apply list_elem_of_In|].
    rewrite !andb_true_iff, negb_true_iff, !String.eqb_eq, String.eqb_neq. subst e. done.
Qed.

Lemma collect_ok {A B E} (f : A -> result B E) (g : A -> B) l : (forall x, x ∈ l -> f x = Ok (g x)) ->
  collect_results (map f l) = Ok (map g l).
Proof.
  induction l as [|x l IH]; intros H; [done|]. cbn. rewrite (H x) by left. rewrite IH; [done|]. intros y Hy. apply H. by right.
Qed.

Lemma groups_is rows w key denials_only : (duration_total rows <= I64_MAX)%N -> where_window w rows = in_window w rows ->
  query_groups w key denials_only rows = Ok (grouped rows w key denials_only).
Proof.
  intros Hd Hw. unfold query_groups, grouped. rewrite Hw.
  assert (Hsame : (if denials_only then List.filter denied (in_window w rows) else in_window w rows)
          = List.filter (fun row => negb (denials_only && is_allow row)) (in_window w rows)).
  { destruct denials_only; [done|]. by rewrite filter_all. }
  rewrite Hsame. set (kept := List.filter _ (in_window w rows)).
  assert (Hk : (duration_total kept <= I64_MAX)%N).
  { unfold kept, in_window. rewrite filter_filter. pose proof (duration_total_filter (fun x => window_contains w (ur_timestamp x) && negb (denials_only && is_allow x)) rows). lia. }
  rewrite btree_iter_groups, map_map.
  rewrite (collect_ok _ (fun k => group_row (k, foldl tally_step tally_new (group_of key kept k)))); [done|].
  intros k _. unfold group_line.
  assert (Hg : (duration_total (group_of key kept k) <= I64_MAX)%N) by (pose proof (duration_total_filter (fun row => String.eqb (key row) k) kept); unfold group_of; lia).
  by rewrite sum_duration_ok, tally_is by done.
Qed.

Lemma timeline_counts rows : foldl timeline_step (0, 0, 0)%N rows = (sql_count any_row rows, sql_count is_allow rows, sql_count denied rows).
Proof.
  induction rows as [|row rows IH] using rev_ind; [done|]. rewrite foldl_app, IH. cbn [foldl timeline_step].
  rewrite !sql_count_snoc. unfold denied. by destruct (is_allow row).
Qed.

(** ** ASCII timestamps *)

Definition ascii_text (t : string) : Prop := Forall (fun b => (code b < 128)%N) (as_bytes t).

Lemma ascii_not_cont b : (code b < 128)%N -> is_cont b = false.
Proof. intros Hb. unfold is_cont, between. destruct (N.leb_spec 128 (code b)); [lia|done]. Qed.

Lemma substr_ascii n l : Forall (fun b => (code b < 128)%N) l -> substr_chars n l = take n l.
Proof.
  intros Hl. revert n; induction Hl as [|b l Hb Hl IH]; intros n; [by destruct n|]. cbn [substr_chars].
  rewrite ascii_not_cont by done. destruct n; [done|]. cbn. by rewrite IH.
Qed.

Lemma label_ascii b t : ascii_text t -> bucket_label b t = of_bytes (substr_chars (bucket_width b) (as_bytes t)).
Proof.
  intros Ht. unfold bucket_label. rewrite substr_ascii by done. f_equal. unfold get_prefix.
  destruct (as_bytes t !! bucket_width b) as [c|] eqn:E.
  - unfold ascii_text in Ht. rewrite Forall_lookup in Ht. rewrite ascii_not_cont by (by eapply Ht). done.
  - apply lookup_ge_None in E. destruct (Nat.eqb_spec (length (as_bytes t)) (bucket_width b)); symmetry; by apply take_ge.
Qed.

Lemma ascii_below_sentinel t : ascii_text t -> str_ltb t until_sentinel = true.
Proof.
  intros Ht. unfold str_ltb, str_leb. change (as_bytes until_sentinel) with [byte_of 244; byte_of 143; byte_of 191; byte_of 191].
  unfold ascii_text in Ht. destruct Ht as [|b l Hb _]; [done|]. cbn [bytes_leb].
  change (code (byte_of 244)) with 244%N. destruct (N.ltb_spec 244 (code b)), (N.eqb_spec 244 (code b)); try done; lia.
Qed.

Lemma window_ascii w rows : Forall (fun row => ascii_text (ur_timestamp row)) rows -> where_window w rows = in_window w rows.
Proof.
  intros Hr. unfold where_window, bounds, in_window, window_contains. induction Hr as [|row rows Hrow Hr IH]; [done|].
  cbn [List.filter]. rewrite IH. destruct (w_since w), (w_until w); cbn [is_none_or default from_option id];
    rewrite ?(ascii_below_sentinel _ Hrow); done.
Qed.

Lemma group_of_ext {A} (f g : A -> string) rows k : (forall row, row ∈ rows -> f row = g row) -> group_of f rows k = group_of g rows k.
Proof.
  induction rows as [|row rows IH]; intros H; [done|]. unfold group_of in *. cbn [List.filter].
  rewrite (H row) by left. rewrite IH; [done|]. intros r Hr. apply H. by right.
Qed.

Lemma timeline_is rows w b : Forall (fun row => ascii_text (ur_timestamp row)) rows ->
  query_timeline w b rows = timeline rows w b.
Proof.
  intros Hr. unfold query_timeline, timeline. rewrite window_ascii by done. set (kept := in_window w rows).
  assert (Hk : forall row, row ∈ kept -> bucket_label b (ur_timestamp row)
             = of_bytes (substr_chars (bucket_width b) (as_bytes (ur_timestamp row)))).
  { intros row Hin. apply label_ascii. apply list_elem_of_In, filter_In in Hin as [Hin%list_elem_of_In _].
    rewrite Forall_forall in Hr. by apply Hr. }
  rewrite btree_iter_groups, map_map. unfold group_keys, distinct.
  assert (Hm : map (fun row => bucket_label b (ur_timestamp row)) kept
            = map (fun row => of_bytes (substr_chars (bucket_width b) (as_bytes (ur_timestamp row)))) kept).
  { apply map_ext_in. intros row Hin%list_elem_of_In. by apply Hk. }
  rewrite Hm. apply map_ext. intros k. rewrite (group_of_ext (fun row => bucket_label b (ur_timestamp row)) _ kept k Hk).
  by rewrite timeline_counts.
Qed.

(** Rows as the server makes them, in a bounded amount. *)
Definition sane (rows : list UsageRow) : Prop :=
  Forall (fun row => ascii_text (ur_timestamp row)) rows /\ (foldr N.add 0 (map ur_duration_ms rows) <= I64_MAX)%N.

Lemma duration_total_le rows : (duration_total rows <= foldr N.add 0 (map ur_duration_ms rows))%N.
Proof. unfold duration_total. induction rows as [|row rows IH]; [done|]. cbn [List.filter map foldr]. destruct (is_allow row); cbn; lia. Qed.

Lemma sql_report_is rows query : sane rows -> sql_report query rows = Ok (compute rows query).
Proof.
  intros [Ha Hd]. assert (Ht : (duration_total rows <= I64_MAX)%N) by (pose proof (duration_total_le rows); lia).
  pose proof (fun w => window_ascii w rows Ha) as Hw.
  destruct query; cbn [sql_report compute]; rewrite ?totals_is, ?groups_is, ?timeline_is by done; done.
Qed.

(** ** Both adapters give the same answers *)

Inductive StoreOp := OAppend (rows : list UsageRow) | OReport (query : ReportQuery) | OPrune (before : string) | OCount.

Inductive Answer :=
| AAppended (r : result unit RollupError)
| AReported (r : result Report RollupError)
| APruned (r : result N RollupError)
| ACounted (r : result N RollupError).

Definition run_op {St} `{RollupStore St} (op : StoreOp) (s : St) : St * Answer :=
  match op with
  | OAppend rows => let '(s', r) := store_append rows s in (s', AAppended r)
  | OReport query => (s, AReported (store_report query s))
  | OPrune before => let '(s', r) := store_prune before s in (s', APruned r)
  | OCount => (s, ACounted (store_count s))
  end.

Fixpoint run_ops {St} `{RollupStore St} (ops : list StoreOp) (s : St) : list Answer :=
  match ops with
  | [] => []
  | op :: rest => let '(s', a) := run_op op s in a :: run_ops rest s'
  end.

Definition appended_rows (ops : list StoreOp) : list UsageRow :=
  mjoin (map (fun op => match op with OAppend rows => rows | _ => [] end) ops).

Lemma sane_app l k : sane (l ++ k) -> sane l /\ sane k.
Proof.
  unfold sane. rewrite Forall_app, map_app, foldr_add_app. intros [[? ?] ?]. split_and!; [done|lia|done|lia].
Qed.

Lemma sane_filter f l k : sane (l ++ k) -> sane (List.filter f l ++ k).
Proof.
  unfold sane. rewrite !Forall_app, !map_app, !foldr_add_app. intros [[Hl Hk] Hd]. split_and!; [|done|].
  - rewrite Forall_forall in *. intros x Hx. apply Hl. apply list_elem_of_In, filter_In in Hx as [Hx _]. by apply list_elem_of_In.
  - assert (Hle : (foldr N.add 0 (map ur_duration_ms (List.filter f l)) <= foldr N.add 0 (map ur_duration_ms l))%N); [|lia].
    clear. induction l as [|x l IH]; [done|]. cbn [List.filter]. destruct (f x); cbn; lia.
Qed.

Lemma sql_rows_id rows : sane rows -> map sql_row rows = rows.
Proof.
  intros [_ Hd]. induction rows as [|row rows IH]; [done|]. cbn in *. rewrite IH by lia. f_equal.
  destruct row; unfold sql_row; cbn in *. f_equal. lia.
Qed.

Lemma filter_split_length {A} (f : A -> bool) l :
  (length l - length (List.filter f l))%nat = length (List.filter (fun x => negb (f x)) l).
Proof.
  induction l as [|x l IH]; [done|]. cbn [List.filter length].
  pose proof (filter_length_le f l). destruct (f x); cbn [length negb]; lia.
Qed.

Lemma conform_from ops rows : sane (rows ++ appended_rows ops) ->
  run_ops ops {| sq_usage := rows; sq_available := true |} = run_ops ops {| im_rows := rows; im_failing := false |}.
Proof.
  revert rows; induction ops as [|op ops IH]; intros rows Hs; [done|].
  pose proof (sane_app _ _ Hs) as [Hr _]. cbn [run_ops]. destruct op as [new|q|before|]; cbn [run_op].
  - assert (Hn : map sql_row new = new).
    { apply sql_rows_id. apply sane_app in Hs as [_ Hs]. cbn in Hs. apply sane_app in Hs as [Hs _]. exact Hs. }
    unfold store_append, SqliteRollupStore, InMemoryRollupStore. cbn [sq_check im_check sq_available im_failing sq_usage im_rows].
    assert (Hs' : sane ((rows ++ new) ++ appended_rows ops)) by (by rewrite <- app_assoc).
    destruct new as [|r new]; [rewrite app_nil_r; f_equal; by apply IH|]. rewrite Hn. f_equal. by apply IH.
  - cbn. rewrite sql_report_is by done. f_equal. by apply IH.
  - cbn [store_prune SqliteRollupStore InMemoryRollupStore sq_check im_check sq_available im_failing sq_usage im_rows].
    unfold str_ltb.
    assert (Hf : List.filter (fun row => negb (negb (str_leb before (ur_timestamp row)))) rows
               = List.filter (fun row => str_leb before (ur_timestamp row)) rows).
    { apply filter_ext. intros r. apply negb_involutive. }
    rewrite Hf, filter_split_length. f_equal. apply IH. by apply sane_filter.
  - cbn. f_equal. by apply IH.
Qed.

(** C31: The SQL adapter answers as the reference does.  For every sequence of
    appends, reports, prunes and counts, over rows with ASCII timestamps and
    durations whose sum fits SQLite's integers, the statements of the SQLite
    store and the streaming computation of the in-memory store give the same
    answers, report by report and row by row. *)
Theorem rollup_stores_conform ops (Hsane : sane (appended_rows ops)) :
  run_ops ops {| sq_usage := []; sq_available := true |} = run_ops ops {| im_rows := []; im_failing := false |}.
Proof. by apply conform_from. Qed.

Module RollupWitness.

Definition row (t subject env decision : string) (ms : N) : UsageRow :=
  {| ur_timestamp := t; ur_tenant := "acme"; ur_subject := subject; ur_vendor := "jira"; ur_environment := env;
     ur_tool_name := "jira_get"; ur_decision := decision; ur_risk := "read"; ur_outcome := "success"; ur_duration_ms := ms |}.

Definition ops : list StoreOp :=
  [OAppend [row "2026-09-04T12:00:00Z" "bob" "qa" "allow" 5; row "2026-09-04T11:00:00Z" "alice" "qa" "allow" 7;
            row "2026-09-04T13:00:00Z" "alice" "prod" "deny" 1];
   OReport (QTotals window_all); OReport (QByPrincipal window_all); OPrune "2026-09-04T11:30:00Z"; OReport (QTimeline window_all Hour); OCount].

Lemma rollup_stores_conform_witness :
  run_ops ops {| sq_usage := []; sq_available := true |} = run_ops ops {| im_rows := []; im_failing := false |}
  /\ (run_ops ops {| im_rows := []; im_failing := false |}) !! 5%nat = Some (ACounted (Ok 2%N)).
Proof.
  split; [|vm_compute; reflexivity]. apply (rollup_stores_conform ops).
  split; [|vm_compute; discriminate]. vm_compute. repeat constructor.
Defined.
End RollupWitness.
