(* ===== verification/Consumer.v ===== *)
(** * The usage consumer (src/src/rollups/consumer.rs, src/src/ports/usage_sink.rs)

    Between the sink of the request path and the rollup store: a bounded
    channel that drops when full, and one task that batches, retries with
    backoff, prunes on a cadence and drains on shutdown.  Every choice of its
    [select!]s is an event; [usage_run] applies them.  The store is any
    [RollupStore] that keeps the promises of [RollupLaws]. *)
From S2P Require Import Prelude RustStr Json Config Scope F64 Timestamps Rollups.

(** ** Settings (src/src/bootstrap/rollups.rs) *)

Definition STORE_KEY : string := "MCP_ROLLUP_STORE".
Definition RETENTION_DAYS_KEY : string := "MCP_ROLLUP_RETENTION_DAYS".
Definition CHANNEL_CAPACITY_KEY : string := "MCP_USAGE_CHANNEL_CAPACITY".
Definition DEFAULT_RETENTION_DAYS : N := 90.
Definition DEFAULT_CHANNEL_CAPACITY : N := 4096.

(** A configured, non-blank value. *)
Definition rollup_configured (config : Config) (key : string) : option string :=
  match trim <$> get config key with
  | Some value => if String.eqb value "" then None else Some value
  | None => None
  end.

(** Retention in seconds, multiplied as the released binary multiplies. *)
Definition retention_from_config (config : Config) : result (option N) string :=
  let? days :=
    match rollup_configured config RETENTION_DAYS_KEY with
    | None => Ok DEFAULT_RETENTION_DAYS
    | Some value =>
        match parse_unsigned U64_MAX value with
        | Some days => Ok days
        | None => Err (RETENTION_DAYS_KEY ++ " must be a non-negative integer")%string
        end
    end in
  Ok (if (0 <? days)%N then Some ((days * 86400) mod 2 ^ 64)%N else None).

Definition channel_capacity (config : Config) : N :=
  clamp (default DEFAULT_CHANNEL_CAPACITY (rollup_configured config CHANNEL_CAPACITY_KEY ≫= parse_unsigned U64_MAX)) 64 65536.

(** ** What the consumer relies on *)

Class RollupLaws (St : Type) `{RollupStore St} := {
  contents : St -> list UsageRow;
  stored : UsageRow -> UsageRow;
  stored_timestamp row : ur_timestamp (stored row) = ur_timestamp row;
  append_ok rows s s' : store_append rows s = (s', Ok tt) -> contents s' = contents s ++ map stored rows;
  append_err rows s s' e : store_append rows s = (s', Err e) -> s' = s;
  prune_ok before s s' n : store_prune before s = (s', Ok n) ->
    contents s' = List.filter (fun row => str_leb before (ur_timestamp row)) (contents s);
  prune_err before s s' e : store_prune before s = (s', Err e) -> s' = s;
}.

#[export] Instance InMemoryLaws : RollupLaws InMemory.
Proof.
  refine {| contents := im_rows; stored := fun row => row |}; [done|..]; cbn; intros *; destruct (im_check s); try done.
  - intros [= <-]. cbn. by rewrite map_id.
  - by intros [= <-].
  - by intros [= <- _].
  - by intros [= <-].
Defined.

#[export] Instance SqliteLaws : RollupLaws Sqlite.
Proof.
  refine {| contents := sq_usage; stored := sql_row |}; [done|..]; cbn.
  - intros [|r rows] s s'; [intros [= <-]; by rewrite app_nil_r|]. destruct (sq_check s); [|done]. by intros [= <-].
  - intros [|r rows] s s' e; [done|]. destruct (sq_check s); [done|]. by intros [= <-].
  - intros before s s' n. destruct (sq_check s); [|done]. intros [= <- _]. cbn. apply filter_ext. intros r. unfold str_ltb.
    by rewrite negb_involutive.
  - intros before s s' e. destruct (sq_check s); [done|]. by intros [= <-].
Defined.

(** ** The code *)

Definition BATCH : nat := 256.
Definition LINGER_MS : N := 500.
Definition MAX_BACKOFF_MS : N := 60000.

Definition row_from (event : UsageEvent) : UsageRow :=
  {| ur_timestamp := us_timestamp event; ur_tenant := us_tenant event; ur_subject := us_subject event;
     ur_vendor := us_vendor event; ur_environment := us_environment event; ur_tool_name := us_tool_name event;
     ur_decision := us_decision event; ur_risk := us_risk event; ur_outcome := us_outcome event;
     ur_duration_ms := if (us_duration_ms event <=? U64_MAX)%N then us_duration_ms event else U64_MAX |}.

(** [LINGER.saturating_mul(1u32 << failures.min(10)).min(MAX_BACKOFF)]. *)
Definition backoff_ms (failures : N) : N := N.min (LINGER_MS * 2 ^ N.min failures 10) MAX_BACKOFF_MS.

Definition saturating_add_u32 (a b : N) : N := N.min (a + b) 4294967295.

Inductive Phase := Idle | Lingering | Sleeping | Stopped.
#[export] Instance Phase_eq_dec : EqDecision Phase.
Proof. solve_decision. Defined.

(** The channel, the task with its health counters, the store; and, for the
    record, what was accepted, written and given up. *)
Record Pipeline (St : Type) := {
  capacity : nat;
  queue : list UsageEvent;
  receiving : bool;
  sink_dropped : N;
  phase : Phase;
  pending_rows : list UsageRow;
  failures : N;
  degraded_now : bool;
  h_appended : N;
  h_batches : N;
  h_pruned : N;
  rollup_store : St;
  accepted : list UsageEvent;
  written : list UsageRow;
  given_up : list UsageRow;
  cutoffs : list Z;
}.
Arguments capacity {St}. Arguments queue {St}. Arguments receiving {St}. Arguments sink_dropped {St}. Arguments phase {St}.
Arguments pending_rows {St}. Arguments failures {St}. Arguments degraded_now {St}. Arguments h_appended {St}. Arguments h_batches {St}.
Arguments h_pruned {St}. Arguments rollup_store {St}. Arguments accepted {St}. Arguments written {St}. Arguments given_up {St}.
Arguments cutoffs {St}.

Section Consumer.
Context {St : Type} `{RollupLaws St}.
Implicit Types p : Pipeline St.

Definition pipeline_new (cap : nat) (s : St) : Pipeline St :=
  {| capacity := cap; queue := []; receiving := true; sink_dropped := 0; phase := Idle; pending_rows := []; failures := 0;
     degraded_now := false; h_appended := 0; h_batches := 0; h_pruned := 0; rollup_store := s; accepted := []; written := [];
     given_up := []; cutoffs := [] |}.

(** [BoundedUsageChannel::record]. *)
Definition record (event : UsageEvent) p : Pipeline St :=
  if receiving p && (length (queue p) <? capacity p)%nat
  then {| capacity := capacity p; queue := queue p ++ [event]; receiving := receiving p; sink_dropped := sink_dropped p;
          phase := phase p; pending_rows := pending_rows p; failures := failures p; degraded_now := degraded_now p;
          h_appended := h_appended p; h_batches := h_batches p; h_pruned := h_pruned p; rollup_store := rollup_store p;
          accepted := accepted p ++ [event]; written := written p; given_up := given_up p; cutoffs := cutoffs p |}
  else {| capacity := capacity p; queue := queue p; receiving := receiving p; sink_dropped := sink_dropped p + 1;
          phase := phase p; pending_rows := pending_rows p; failures := failures p; degraded_now := degraded_now p;
          h_appended := h_appended p; h_batches := h_batches p; h_pruned := h_pruned p; rollup_store := rollup_store p;
          accepted := accepted p; written := written p; given_up := given_up p; cutoffs := cutoffs p |}.

(** Receive [n] events into the batch. *)
Definition receive (n : nat) (next : Phase) p : Pipeline St :=
  {| capacity := capacity p; queue := drop n (queue p); receiving := receiving p; sink_dropped := sink_dropped p;
     phase := next; pending_rows := pending_rows p ++ map row_from (take n (queue p)); failures := failures p;
     degraded_now := degraded_now p; h_appended := h_appended p; h_batches := h_batches p; h_pruned := h_pruned p;
     rollup_store := rollup_store p; accepted := accepted p; written := written p; given_up := given_up p; cutoffs := cutoffs p |}.

(** [Consumer::append]: clears the batch, or keeps the latest four batches of it. *)
Definition append p : Pipeline St * bool :=
  match store_append (pending_rows p) (rollup_store p) with
  | (s, Ok _) =>
      ({| capacity := capacity p; queue := queue p; receiving := receiving p; sink_dropped := sink_dropped p; phase := phase p;
          pending_rows := []; failures := failures p; degraded_now := false;
          h_appended := h_appended p + N.of_nat (length (pending_rows p)); h_batches := h_batches p + 1; h_pruned := h_pruned p;
          rollup_store := s; accepted := accepted p; written := written p ++ pending_rows p; given_up := given_up p;
          cutoffs := cutoffs p |}, true)
  | (s, Err _) =>
      let excess := (length (pending_rows p) - BATCH * 4)%nat in
      ({| capacity := capacity p; queue := queue p; receiving := receiving p; sink_dropped := sink_dropped p; phase := phase p;
          pending_rows := drop excess (pending_rows p); failures := failures p; degraded_now := true;
          h_appended := h_appended p; h_batches := h_batches p + 1; h_pruned := h_pruned p; rollup_store := s;
          accepted := accepted p; written := written p; given_up := given_up p ++ take excess (pending_rows p);
          cutoffs := cutoffs p |}, false)
  end.

Definition set_phase (next : Phase) (fails : N) p : Pipeline St :=
  {| capacity := capacity p; queue := queue p; receiving := receiving p; sink_dropped := sink_dropped p; phase := next;
     pending_rows := pending_rows p; failures := fails; degraded_now := degraded_now p; h_appended := h_appended p;
     h_batches := h_batches p; h_pruned := h_pruned p; rollup_store := rollup_store p; accepted := accepted p;
     written := written p; given_up := given_up p; cutoffs := cutoffs p |}.

(** The end of a turn of the loop: back to waiting, or into the backoff. *)
Definition append_turn p : Pipeline St :=
  match append p with
  | (p', true) => set_phase Idle 0 p'
  | (p', false) => set_phase Sleeping (saturating_add_u32 (failures p') 1) p'
  end.

(** The task is gone with what it still held. *)
Definition stop p : Pipeline St :=
  {| capacity := capacity p; queue := []; receiving := false; sink_dropped := sink_dropped p; phase := Stopped;
     pending_rows := []; failures := failures p; degraded_now := degraded_now p; h_appended := h_appended p;
     h_batches := h_batches p; h_pruned := h_pruned p; rollup_store := rollup_store p; accepted := accepted p;
     written := written p; given_up := given_up p ++ pending_rows p ++ map row_from (queue p); cutoffs := cutoffs p |}.

(** [prune]: [now] and [retention] in nanoseconds; a cutoff before the epoch
    is written as the epoch, as is one that does not fit. *)
Definition prune (now retention : Z) p : Pipeline St :=
  let cutoff := (now - retention)%Z in
  match store_prune (iso_timestamp_at cutoff) (rollup_store p) with
  | (s, Ok n) =>
      {| capacity := capacity p; queue := queue p; receiving := receiving p; sink_dropped := sink_dropped p; phase := phase p;
         pending_rows := pending_rows p; failures := failures p; degraded_now := degraded_now p; h_appended := h_appended p;
         h_batches := h_batches p; h_pruned := h_pruned p + n; rollup_store := s; accepted := accepted p; written := written p;
         given_up := given_up p; cutoffs := cutoff :: cutoffs p |}
  | (s, Err _) =>
      {| capacity := capacity p; queue := queue p; receiving := receiving p; sink_dropped := sink_dropped p; phase := phase p;
         pending_rows := pending_rows p; failures := failures p; degraded_now := degraded_now p; h_appended := h_appended p;
         h_batches := h_batches p; h_pruned := h_pruned p; rollup_store := s; accepted := accepted p; written := written p;
         given_up := given_up p; cutoffs := cutoffs p |}
  end.

Inductive UsageStep :=
| URecord (event : UsageEvent)
| UFirst
| ULinger
| UAppend
| UWake
| UPrune (now : Z)
| UStopIdle
| UCancelSleeping
| UStore (s : St).

Definition usage_apply (retention : option Z) (e : UsageStep) p : Pipeline St :=
  match e, phase p with
  | URecord event, _ => record event p
  | UFirst, Idle => match queue p with [] => p | _ => receive 1 Lingering p end
  | ULinger, Lingering => if (length (pending_rows p) <? BATCH)%nat then receive 1 Lingering p else p
  | UAppend, Lingering => append_turn p
  | UWake, Sleeping => append_turn (receive (BATCH - length (pending_rows p)) Lingering p)
  | UPrune now, (Idle | Sleeping) => match retention with Some r => prune now r p | None => p end
  | UStopIdle, Idle =>
      let drained := receive (length (queue p)) Idle p in
      match pending_rows drained with [] => stop drained | _ => stop (append drained).1 end
  | UCancelSleeping, Sleeping => stop (append p).1
  | UStore s, _ =>
      {| capacity := capacity p; queue := queue p; receiving := receiving p; sink_dropped := sink_dropped p; phase := phase p;
         pending_rows := pending_rows p; failures := failures p; degraded_now := degraded_now p; h_appended := h_appended p;
         h_batches := h_batches p; h_pruned := h_pruned p; rollup_store := s; accepted := accepted p; written := written p;
         given_up := given_up p; cutoffs := cutoffs p |}
  | _, _ => p
  end.

Definition usage_run (retention : option Z) (es : list UsageStep) p : Pipeline St :=
  fold_left (fun p e => usage_apply retention e p) es p.

(** ** Every event is accounted for, in order and once *)

(** Newer than every cutoff so far. *)
Definition recent (cs : list Z) (row : UsageRow) : bool :=
  forallb (fun c => str_leb (iso_timestamp_at c) (ur_timestamp row)) cs.

Section Accounts.
(** The rows the store held at the start, and the channel's capacity. *)
Variable base : list UsageRow.
Variable cap : nat.

Record Good p : Prop := {
  gd_account : map row_from (accepted p) = written p ++ given_up p ++ pending_rows p ++ map row_from (queue p);
  gd_batch : (length (pending_rows p) <= BATCH)%nat;
  gd_queue : capacity p = cap /\ (length (queue p) <= cap)%nat;
  gd_idle : phase p = Idle -> pending_rows p = [];
  gd_live : phase p <> Stopped -> given_up p = [] /\ receiving p = true;
  gd_stopped : phase p = Stopped -> pending_rows p = [] /\ queue p = [] /\ receiving p = false;
  gd_count : h_appended p = N.of_nat (length (written p));
  gd_kept : sublist (List.filter (recent (cutoffs p)) (base ++ map stored (written p))) (contents (rollup_store p));
  gd_made : sublist (contents (rollup_store p)) (base ++ map stored (written p));
}.

Lemma filter_sublist {A} (f : A -> bool) l : sublist (List.filter f l) l.
Proof. induction l as [|x l IH]; [done|]. cbn. destruct (f x); by constructor. Qed.

Lemma sublist_filter_mono {A} (f : A -> bool) l k : sublist l k -> sublist (List.filter f l) (List.filter f k).
Proof. induction 1 as [|x l k Hs IH|x l k Hs IH]; cbn; [done|..]; destruct (f x); (done || by constructor). Qed.

Lemma Good_new s : contents s = base -> Good (pipeline_new cap s).
Proof. intros Hs. split; cbn; rewrite ?Hs, ?app_nil_r; try done; [unfold BATCH; lia..|apply filter_sublist]. Qed.

Lemma Good_record event p : Good p -> Good (record event p).
Proof.
  intros [Ha Hb [Hcp Hq] Hi Hl Hst Hc Hk Hm]. unfold record. destruct (receiving p) eqn:Hr; [destruct (Nat.ltb_spec (length (queue p)) (capacity p))|];
    cbn [andb]; split; cbn; try done.
  - rewrite !map_app, Ha. by rewrite <- !app_assoc.
  - split; [done|]. rewrite length_app. cbn. lia.
  - intros Hs. destruct (Hst Hs) as (_ & _ & ?). congruence.
Qed.

Lemma Good_receive n next p :
  Good p -> phase p <> Stopped -> (length (pending_rows p) + n <= BATCH)%nat -> next = Lingering -> Good (receive n next p).
Proof.
  intros [Ha Hb [Hcp Hq] Hi Hl Hst Hc Hk Hm] Hs Hn ->. destruct (Hl Hs) as [Hg Hr]. split; cbn; try done.
  - rewrite Ha, <- !app_assoc, <- map_app, take_drop. done.
  - rewrite length_app, length_map, length_take. lia.
  - split; [done|]. rewrite length_drop. lia.
Qed.

(** Writing the batch, whatever its size. *)
Lemma append_cases p :
  match append p with
  | (p', true) =>
      written p' = written p ++ pending_rows p /\ pending_rows p' = [] /\ given_up p' = given_up p
      /\ contents (rollup_store p') = contents (rollup_store p) ++ map stored (pending_rows p)
      /\ h_appended p' = (h_appended p + N.of_nat (length (pending_rows p)))%N
  | (p', false) =>
      written p' = written p /\ given_up p' ++ pending_rows p' = given_up p ++ pending_rows p
      /\ ((length (pending_rows p) <= BATCH)%nat -> pending_rows p' = pending_rows p /\ given_up p' = given_up p)
      /\ rollup_store p' = rollup_store p /\ h_appended p' = h_appended p
  end
  /\ accepted (append p).1 = accepted p /\ queue (append p).1 = queue p /\ capacity (append p).1 = capacity p
  /\ phase (append p).1 = phase p /\ receiving (append p).1 = receiving p /\ cutoffs (append p).1 = cutoffs p.
Proof.
  unfold append. destruct (store_append (pending_rows p) (rollup_store p)) as [s [[]|e]] eqn:E; cbn.
  - split_and!; try done. by apply append_ok in E.
  - apply append_err in E. split_and!; try done; [by rewrite <- app_assoc, take_drop|].
    intros Hb. replace (length (pending_rows p) - _)%nat with 0%nat by (unfold BATCH in *; lia). by rewrite take_0, drop_0, app_nil_r.
Qed.

(** The store after a batch was written. *)
Lemma kept_append cs W new (C : list UsageRow) :
  sublist (List.filter (recent cs) (base ++ map stored W)) C -> sublist C (base ++ map stored W) ->
  sublist (List.filter (recent cs) (base ++ map stored (W ++ new))) (C ++ map stored new)
  /\ sublist (C ++ map stored new) (base ++ map stored (W ++ new)).
Proof.
  intros Hk Hm. rewrite map_app, app_assoc, List.filter_app. split; apply sublist_app; try done. apply filter_sublist.
Qed.

Lemma Good_append_turn p : Good p -> phase p = Lingering -> Good (append_turn p).
Proof.
  intros [Ha Hb Hq Hi Hl Hst Hc Hk Hm] Hp. destruct (Hl ltac:(by rewrite Hp)) as [Hg Hr]. unfold append_turn.
  pose proof (append_cases p) as (Hcase & Hacc & Hqq & Hcap & Hph & Hrec & Hcut). destruct (append p) as [p' []]; cbn [fst] in *.
  - destruct Hcase as (Hw & Hpe & Hgu & Hco & Hn). destruct (kept_append (cutoffs p) (written p) (pending_rows p) _ Hk Hm) as [Hk' Hm'].
    split; cbn; rewrite ?Hw, ?Hpe, ?Hgu, ?Hco, ?Hacc, ?Hqq, ?Hcap, ?Hcut; try done.
    + rewrite Ha, Hg. by rewrite <- app_assoc.
    + unfold BATCH. cbn. lia.
    + intros _. split; [done|congruence].
    + rewrite Hn, Hc, length_app. lia.
  - destruct Hcase as (Hw & _ & Hsame & Hst' & Hn). destruct (Hsame Hb) as [Hpe Hgu].
    split; cbn; rewrite ?Hw, ?Hpe, ?Hgu, ?Hst', ?Hacc, ?Hqq, ?Hcap, ?Hcut, ?Hn; try done.
    intros _. split; [done|congruence].
Qed.

Lemma Good_stop p :
  map row_from (accepted p) = written p ++ given_up p ++ pending_rows p ++ map row_from (queue p) ->
  h_appended p = N.of_nat (length (written p)) -> capacity p = cap ->
  sublist (List.filter (recent (cutoffs p)) (base ++ map stored (written p))) (contents (rollup_store p)) ->
  sublist (contents (rollup_store p)) (base ++ map stored (written p)) -> Good (stop p).
Proof. intros Ha Hc Hcp Hk Hm. split; cbn; try done; [|unfold BATCH; lia|split; [done|lia]]. by rewrite !app_nil_r. Qed.

Lemma Good_stop_append p :
  map row_from (accepted p) = written p ++ given_up p ++ pending_rows p ++ map row_from (queue p) -> given_up p = [] ->
  h_appended p = N.of_nat (length (written p)) -> capacity p = cap ->
  sublist (List.filter (recent (cutoffs p)) (base ++ map stored (written p))) (contents (rollup_store p)) ->
  sublist (contents (rollup_store p)) (base ++ map stored (written p)) -> Good (stop (append p).1).
Proof.
  intros Ha Hg Hc Hcp Hk Hm.
  pose proof (append_cases p) as (Hcase & Hacc & Hqq & Hcap & Hph & Hrec & Hcut). destruct (append p) as [p' []]; cbn [fst] in *.
  - destruct Hcase as (Hw & Hpe & Hgu & Hco & Hn). destruct (kept_append (cutoffs p) (written p) (pending_rows p) _ Hk Hm) as [Hk' Hm'].
    apply Good_stop; rewrite ?Hw, ?Hpe, ?Hgu, ?Hco, ?Hacc, ?Hqq, ?Hcap, ?Hcut; try done.
    + rewrite Ha, Hg. by rewrite <- app_assoc.
    + rewrite Hn, Hc, length_app. lia.
  - destruct Hcase as (Hw & Hsum & _ & Hst' & Hn).
    apply Good_stop; rewrite ?Hw, ?Hst', ?Hacc, ?Hqq, ?Hcap, ?Hcut, ?Hn; try done.
    rewrite Ha. f_equal. by rewrite !app_assoc, Hsum.
Qed.

Lemma Good_prune now r p : Good p -> Good (prune now r p).
Proof.
  intros [Ha Hb Hq Hi Hl Hst Hc Hk Hm]. unfold prune.
  destruct (store_prune _ (rollup_store p)) as [s [n|e]] eqn:E; [apply prune_ok in E|apply prune_err in E; subst s]; split; cbn; try done.
  - rewrite E. transitivity (List.filter (fun row => str_leb (iso_timestamp_at (now - r)) (ur_timestamp row))
                               (List.filter (recent (cutoffs p)) (base ++ map stored (written p)))); [|by apply sublist_filter_mono].
    rewrite filter_filter. erewrite filter_ext; [reflexivity|]. intros row. cbn. apply andb_comm.
  - rewrite E. transitivity (contents (rollup_store p)); [apply filter_sublist|done].
Qed.

(** A change of the store from outside, an outage or its end, leaves the rows. *)
Definition usage_benign (e : UsageStep) p : Prop :=
  match e with UStore s => contents s = contents (rollup_store p) | _ => True end.

Lemma Good_apply retention e p : Good p -> usage_benign e p -> Good (usage_apply retention e p).
Proof.
  intros HG He. pose proof HG as [Ha Hb [Hcp Hq] Hi Hl Hst Hc Hk Hm].
  destruct e; cbn [usage_apply]; [by apply Good_record|..].
  1-7: destruct (phase p) eqn:Hp; try done.
  - destruct (queue p) eqn:Hqe; [done|]. apply Good_receive; [done|by rewrite Hp| |done]. rewrite (Hi eq_refl). unfold BATCH. cbn. lia.
  - destruct (Nat.ltb_spec (length (pending_rows p)) BATCH); [|done]. apply Good_receive; [done|by rewrite Hp|lia|done].
  - by apply Good_append_turn.
  - apply Good_append_turn; [|done]. apply Good_receive; [done|by rewrite Hp|lia|done].
  - destruct retention; [by apply Good_prune|done].
  - destruct retention; [by apply Good_prune|done].
  - destruct (Hl ltac:(done)) as [Hg Hr].
    assert (Ha' : map row_from (accepted p) = written p ++ given_up p ++ (pending_rows p ++ map row_from (take (length (queue p)) (queue p)))
                  ++ map row_from (drop (length (queue p)) (queue p))).
    { rewrite Ha, <- !app_assoc, <- map_app, take_drop. done. }
    destruct (pending_rows (receive _ Idle p)) eqn:Hpe; [by apply Good_stop|by apply Good_stop_append].
  - destruct (Hl ltac:(done)) as [Hg Hr]. by apply Good_stop_append.
  - cbn in He. split; cbn; rewrite ?He; done.
Qed.

Fixpoint benign_usage (retention : option Z) p (es : list UsageStep) : Prop :=
  match es with
  | [] => True
  | e :: rest => usage_benign e p /\ benign_usage retention (usage_apply retention e p) rest
  end.

Lemma Good_run retention es p : Good p -> benign_usage retention p es -> Good (usage_run retention es p).
Proof.
  revert p; induction es as [|e es IH]; intros p HG; [done|]. intros [He Hes]. apply IH; [by apply Good_apply|done].
Qed.

(** What the sink was handed is accepted or counted as dropped. *)
Definition is_record (e : UsageStep) : bool := match e with URecord _ => true | _ => false end.
Definition sink_total p : N := (N.of_nat (length (accepted p)) + sink_dropped p)%N.

Lemma append_sink p : sink_total (append p).1 = sink_total p.
Proof. unfold append. by destruct (store_append _ _) as [s [[]|e]]. Qed.

Lemma append_turn_sink p : sink_total (append_turn p) = sink_total p.
Proof. unfold append_turn. pose proof (append_sink p) as H1. by destruct (append p) as [p' []]. Qed.

Lemma apply_sink retention e p :
  sink_total (usage_apply retention e p) = (sink_total p + if is_record e then 1 else 0)%N.
Proof.
  destruct e; cbn [usage_apply is_record]; rewrite ?N.add_0_r; [|destruct (phase p); try done..|].
  - unfold record, sink_total. destruct (_ && _); cbn; rewrite ?length_app; cbn; lia.
  - by destruct (queue p).
  - by destruct (_ <? _)%nat.
  - apply append_turn_sink.
  - by rewrite append_turn_sink.
  - destruct retention; [|done]. unfold prune. by destruct (store_prune _ _) as [s []].
  - destruct retention; [|done]. unfold prune. by destruct (store_prune _ _) as [s []].
  - destruct (pending_rows _); [done|]. apply (append_sink (receive (length (queue p)) Idle p)).
  - apply (append_sink p).
  - done.
Qed.

Lemma run_sink retention es p :
  sink_total (usage_run retention es p) = (sink_total p + N.of_nat (length (List.filter is_record es)))%N.
Proof.
  revert p; induction es as [|e es IH]; intros p; [cbn; lia|]. cbn [usage_run fold_left List.filter].
  change (fold_left _ es ?q) with (usage_run retention es q). rewrite IH, apply_sink. destruct (is_record e); cbn [length]; lia.
Qed.

(** Stopping an idle consumer writes the queue, or gives it up if the store
    does not answer. *)
Lemma stop_idle_accounts retention p :
  Good p -> phase p = Idle ->
  let p' := usage_apply retention UStopIdle p in
  let ok := match (store_append (map row_from (queue p)) (rollup_store p)).2 with Ok _ => true | Err _ => false end in
  phase p' = Stopped /\ written p' = written p ++ (if ok then map row_from (queue p) else [])
  /\ given_up p' = (if ok then [] else map row_from (queue p)).
Proof.
  intros HG Hp. destruct (gd_live _ HG ltac:(by rewrite Hp)) as [Hg _]. pose proof (gd_idle _ HG Hp) as Hpe.
  cbn [usage_apply]. rewrite Hp. unfold receive. rewrite firstn_all, drop_all, Hpe. cbn [app]. cbn zeta.
  cbn [pending_rows]. destruct (map row_from (queue p)) as [|r rs] eqn:Hq; cbn.
  - rewrite Hg, !app_nil_r. by destruct (store_append _ _) as [s [[]|e]]; cbn; rewrite ?app_nil_r.
  - unfold append. cbn [pending_rows rollup_store]. destruct (store_append _ _) as [s [[]|e]]; cbn [fst snd stop written given_up pending_rows queue phase].
    + by rewrite Hg.
    + rewrite Hg, app_nil_r. cbn [app map]. by rewrite app_nil_r, take_drop.
Qed.

(** Stopping one in its backoff writes the batch if the store answers, and
    gives up the queue in any case. *)
Lemma stop_sleeping_accounts retention p :
  Good p -> phase p = Sleeping ->
  let p' := usage_apply retention UCancelSleeping p in
  let ok := match (store_append (pending_rows p) (rollup_store p)).2 with Ok _ => true | Err _ => false end in
  phase p' = Stopped /\ written p' = written p ++ (if ok then pending_rows p else [])
  /\ given_up p' = (if ok then [] else pending_rows p) ++ map row_from (queue p).
Proof.
  intros HG Hp. destruct (gd_live _ HG ltac:(by rewrite Hp)) as [Hg _]. pose proof (gd_batch _ HG) as Hb.
  cbn [usage_apply]. rewrite Hp. cbn zeta. pose proof (append_cases p) as (Hcase & _ & Hqq & _). unfold append in *.
  destruct (store_append (pending_rows p) (rollup_store p)) as [s [[]|e]]; cbn in *.
  - by rewrite Hg.
  - destruct Hcase as (_ & _ & Hsame & _). destruct (Hsame Hb) as [-> ->]. by rewrite Hg, app_nil_r.
Qed.
End Accounts.

(** An instant the text can order. *)
Definition representable (t : Z) : Prop := (Z.to_N t < 253402300800 * 1000000000)%N.

Lemma recent_in_time cs row t :
  ur_timestamp row = iso_timestamp_at t -> representable t ->
  (forall c, c ∈ cs -> representable c /\ (Z.to_N c / 1000000000 <= Z.to_N t / 1000000000)%N) -> recent cs row = true.
Proof.
  intros Ht Hr Hcs. unfold recent. apply forallb_forall. intros c Hc%list_elem_of_In. destruct (Hcs c Hc) as [Hcr Hle].
  rewrite Ht, (proj1 (iso_order c t Hcr Hr)). by apply N.leb_le.
Qed.

(** C30: The usage pipeline accounts for every event, over a store that keeps
    its rows when it reports a failure and whose rows nobody else changes, and
    from whatever that store held.  Whatever is recorded, however the store
    fails and recovers, and whenever retention runs or the task is stopped:
    every event was accepted or counted as dropped; the accepted ones are, in
    order and each exactly once, written, given up, in the current batch or
    still queued; the batch and the queue stay within their bounds; the store
    holds, in order, rows it held at first and rows written since, and every
    one of them whose second is not before a pruning's cutoff.  Only a stop
    gives up events: of an idle task nothing if the store answers and the
    queue if not; of one in its backoff the queue in any case, and the batch
    too if the store does not answer. *)
Theorem usage_pipeline_accounts cap s retention es (Hbenign : benign_usage retention (pipeline_new cap s) es) :
  let p := usage_run retention es (pipeline_new cap s) in
  map row_from (accepted p) = written p ++ given_up p ++ pending_rows p ++ map row_from (queue p)
  /\ N.of_nat (length (List.filter is_record es)) = (N.of_nat (length (accepted p)) + sink_dropped p)%N
  /\ (length (pending_rows p) <= BATCH)%nat /\ (length (queue p) <= cap)%nat
  /\ sublist (contents (rollup_store p)) (contents s ++ map stored (written p))
  /\ (forall row t, row ∈ contents s ++ map stored (written p) -> ur_timestamp row = iso_timestamp_at t -> representable t ->
       (forall c, c ∈ cutoffs p -> representable c /\ (Z.to_N c / 1000000000 <= Z.to_N t / 1000000000)%N) ->
       row ∈ contents (rollup_store p))
  /\ (phase p <> Stopped -> given_up p = [])
  /\ (phase p = Idle ->
      let p' := usage_apply retention UStopIdle p in
      let ok := match (store_append (map row_from (queue p)) (rollup_store p)).2 with Ok _ => true | Err _ => false end in
      phase p' = Stopped /\ written p' = written p ++ (if ok then map row_from (queue p) else [])
      /\ given_up p' = (if ok then [] else map row_from (queue p)))
  /\ (phase p = Sleeping ->
      let p' := usage_apply retention UCancelSleeping p in
      let ok := match (store_append (pending_rows p) (rollup_store p)).2 with Ok _ => true | Err _ => false end in
      phase p' = Stopped /\ written p' = written p ++ (if ok then pending_rows p else [])
      /\ given_up p' = (if ok then [] else pending_rows p) ++ map row_from (queue p)).
Proof.
  cbn zeta. pose proof (Good_run (contents s) cap retention es _ (Good_new _ cap s eq_refl) Hbenign) as HG.
  pose proof (run_sink retention es (pipeline_new cap s)) as Hsink. set (p := usage_run retention es _) in *.
  split_and!; [exact (gd_account _ _ _ HG)| |exact (gd_batch _ _ _ HG)|by apply (gd_queue _ _ _ HG)|exact (gd_made _ _ _ HG)|..].
  - unfold sink_total in Hsink. rewrite Hsink. done.
  - intros row t Hrow Ht Hr Hcs. eapply elem_of_sublist; [|apply (gd_kept _ _ _ HG)].
    apply list_elem_of_In, filter_In. split; [by apply list_elem_of_In|by eapply recent_in_time].
  - intros Hp. by apply (gd_live _ _ _ HG).
  - intros Hp. by eapply stop_idle_accounts.
  - intros Hp. by eapply stop_sleeping_accounts.
Qed.
End Consumer.

(** ** Shutting down while the store fails *)

Module ConsumerWitness.

Definition event (t : string) : UsageEvent :=
  {| us_timestamp := t; us_tenant := "acme"; us_subject := "alice"; us_tool_name := "jira_get"; us_vendor := "jira";
     us_environment := "qa"; us_decision := "allow"; us_risk := "read"; us_outcome := "success"; us_duration_ms := 5 |}.

Definition one := event "2026-09-04T12:00:00Z".
Definition two := event "2026-09-04T12:00:01Z".

(** A row of an earlier process, a month old. *)
Definition old : UsageRow := row_from (event "2026-08-04T12:00:00Z").
Definition held (failing : bool) : InMemory := {| im_rows := [old]; im_failing := failing |}.

(** One event fails to be written, another arrives, the store recovers. *)
Definition recovered : list (@UsageStep InMemory) :=
  [UStore (held true); URecord one; UFirst; UAppend; URecord two; UStore (held false)].

(** Then both are written, and retention is applied two seconds after the
    second event with a retention of a second and a half. *)
Definition pruned : list (@UsageStep InMemory) := recovered ++ [UWake; UPrune 1788523202500000000%Z].
Definition kept_for : option Z := Some 1500000000%Z.

Lemma usage_pipeline_accounts_witness :
  benign_usage kept_for (pipeline_new 64 (held false)) pruned
  /\ written (usage_run kept_for pruned (pipeline_new 64 (held false))) = [row_from one; row_from two]
  /\ h_pruned (usage_run kept_for pruned (pipeline_new 64 (held false))) = 2%N
  /\ stored (row_from two) ∈ contents (rollup_store (usage_run kept_for pruned (pipeline_new 64 (held false)))).
Proof.
  assert (Hb : benign_usage kept_for (pipeline_new 64 (held false)) pruned) by (cbn; tauto).
  split; [exact Hb|]. split; [vm_compute; reflexivity|]. split; [vm_compute; reflexivity|].
  pose proof (usage_pipeline_accounts 64 (held false) kept_for _ Hb) as (_ & _ & _ & _ & _ & Hin & _).
  apply (Hin (stored (row_from two)) 1788523201000000000%Z);
    [vm_compute; do 2 right; left|vm_compute; reflexivity|vm_compute; reflexivity|].
  intros c Hc. vm_compute in Hc. apply list_elem_of_singleton in Hc as ->. split; vm_compute; [reflexivity|discriminate].
Defined.
End ConsumerWitness.

(** A stop during the backoff writes the batch but not the queue, although the
    store answers: the same stop of an idle task writes both. *)
Theorem cancelled_backoff_drops_queue :
  let p := usage_run None ConsumerWitness.recovered (pipeline_new 64 (ConsumerWitness.held false)) in
  let p' := usage_apply None UCancelSleeping p in
  written p' = [row_from ConsumerWitness.one] /\ given_up p' = [row_from ConsumerWitness.two]
  /\ sink_dropped p' = 0%N /\ h_appended p' = 1%N.
Proof. vm_compute. done. Qed.

(** A retention longer than the machine can count is a short one: the days are
    multiplied without a check. *)
Theorem long_retention_wraps :
  retention_from_config (from_map {[ RETENTION_DAYS_KEY := "213503982334601" ]}) = Ok (Some 18446744073709526400%N)
  /\ retention_from_config (from_map {[ RETENTION_DAYS_KEY := "213503982334602" ]}) = Ok (Some 61184%N).
Proof. vm_compute. done. Qed.
