(* ===== verification/Secrets.v ===== *)
(** * Secret references in force
      (src/src/ports/secret_source.rs, src/src/secrets/, src/src/bootstrap/secrets.rs)

    A configuration value that is a reference is replaced by what a source
    holds for it.  The resolver groups the references by document and fetches
    each document once; startup refuses an incomplete snapshot; a refresher
    re-resolves in the background and a watcher installs reloaded
    configurations.  The request path only reads the snapshot, through
    [expand] of file Config. *)
From S2P Require Import Prelude RustStr Json PolicyTypes Signing Bundle Config BTree.

(** ** The port *)

Record SecretLocator := { lo_scheme : Scheme; lo_target : string }.

#[export] Instance SecretLocator_eq_dec : EqDecision SecretLocator.
Proof. solve_decision. Defined.

Definition locator_of (r : SecretReference) : SecretLocator :=
  {| lo_scheme := locator_scheme r; lo_target := locator_target r |}.

Definition locator_display (l : SecretLocator) : string := (scheme_as_str (lo_scheme l) ++ "://" ++ lo_target l)%string.

Record FetchedSecret := { fs_document : string; fs_version : string }.

Inductive SecretSourceError :=
| SsNotFound (locator : string)
| SsUnavailable (locator detail : string)
| SsMalformed (locator detail : string).

Definition source_category (e : SecretSourceError) : string :=
  match e with
  | SsNotFound _ => "secret_source_not_found"
  | SsUnavailable _ _ => "secret_source_unavailable"
  | SsMalformed _ _ => "secret_source_malformed"
  end.

(** A source as one resolution meets it: what it answers a fetch may depend
    on the fetches that resolution has made before, so a document that is
    fetched twice may have been rotated in between. *)
Record SecretSource := {
  ss_scheme : Scheme;
  ss_fetch : list SecretLocator -> SecretLocator -> result FetchedSecret SecretSourceError;
}.

(** *** Files *)

Inductive FileAnswer := FileBytes (bytes : list byte) | FileMissing | FileError (kind : string).

Definition MAX_SECRET_FILE_BYTES : N := 1048576.

Definition path_for (l : SecretLocator) : result string SecretSourceError :=
  if negb (starts_with (lo_target l) "/")
  then Err (SsMalformed (locator_display l) "path must be absolute: file:///path")
  else Ok (lo_target l).

Section Resolver.
Context `{Crypto}.
(** [serde_json::from_str]. *)
Variable from_str : string -> option Value.

Definition content_version (bytes : list byte) : string :=
  of_bytes (as_bytes "sha256:" ++ mjoin (map hex_lower (take 8 (sha256 bytes)))).

Definition file_fetch (read : list SecretLocator -> string -> FileAnswer) (asked : list SecretLocator) (l : SecretLocator)
  : result FetchedSecret SecretSourceError :=
  let? path := path_for l in
  match read asked path with
  | FileMissing => Err (SsNotFound (locator_display l))
  | FileError kind => Err (SsUnavailable (locator_display l) kind)
  | FileBytes bytes =>
      if (MAX_SECRET_FILE_BYTES <? N.of_nat (length bytes))%N
      then Err (SsMalformed (locator_display l) "larger than 1048576 bytes")
      else if utf8_valid bytes then Ok {| fs_document := of_bytes bytes; fs_version := content_version bytes |}
      else Err (SsMalformed (locator_display l) "not UTF-8")
  end.

Definition FileSecretSource (read : list SecretLocator -> string -> FileAnswer) : SecretSource :=
  {| ss_scheme := SFile; ss_fetch := file_fetch read |}.

(** ** The resolver *)

Inductive ResolveCause :=
| CInvalid (e : ReferenceError)
| CNoSource (s : Scheme)
| CUnconfigured (s : Scheme)
| CSource (e : SecretSourceError)
| CNotJsonObject
| CMissingKey (key : string)
| CNotAString (key : string)
| CEmpty.

Definition cause_category (c : ResolveCause) : string :=
  match c with
  | CInvalid _ => "secret_reference_invalid"
  | CNoSource _ => "secret_source_not_compiled"
  | CUnconfigured _ => "secret_source_unconfigured"
  | CSource e => source_category e
  | CNotJsonObject | CMissingKey _ | CNotAString _ | CEmpty => "secret_document_malformed"
  end.

Record SecretResolveError := { re_reference : string; re_cause : ResolveCause }.

(** [compiled_in], with the feature [secrets-vault] of the default build. *)
Definition compiled_in (s : Scheme) : bool :=
  match s with SFile | SVault => true | SAwsSecretsManager | SAzureKeyVault => false end.

Definition source_for (sources : list SecretSource) (s : Scheme) : option SecretSource :=
  List.find (fun source => bool_decide (ss_scheme source = s)) sources.

(** [strip_suffix] of one character. *)
Definition strip_last (c : byte) (l : list byte) : option (list byte) :=
  match rev l with b :: rest => if beqb b c then Some (rev rest) else None | [] => None end.

Definition strip_line_break (document : string) : string :=
  match strip_last (byte_of 10) (as_bytes document) with
  | None => document
  | Some rest => of_bytes (default rest (strip_last (byte_of 13) rest))
  end.

Definition extract (document : string) (fragment : option string) : result string ResolveCause :=
  let? value :=
    match fragment with
    | None => Ok (strip_line_break document)
    | Some key =>
        match from_str document ≫= as_object with
        | None => Err CNotJsonObject
        | Some object =>
            match map_get object key with
            | None => Err (CMissingKey key)
            | Some (VString value) => Ok value
            | Some _ => Err (CNotAString key)
            end
        end
    end in
  if is_blank value then Err CEmpty else Ok value.

(** The references among the values, grouped by document. *)
Fixpoint parse_references (values : list string) : result (list SecretReference) SecretResolveError :=
  match values with
  | [] => Ok []
  | raw :: rest =>
      match reference_parse raw with
      | Ok (Some r) => let? rs := parse_references rest in Ok (r :: rs)
      | Ok None => parse_references rest
      | Err cause => Err {| re_reference := trim raw; re_cause := CInvalid cause |}
      end
  end.

Definition locator_key (r : SecretReference) : string := locator_display (locator_of r).

Definition by_locator (rs : list SecretReference) : list (string * list SecretReference) :=
  btree_iter (foldl (group_step [] (fun l r => l ++ [r]) locator_key) ∅ rs).

(** One document asked of its source, if there is one; [asked] are the fetches
    made so far. *)
Definition fetch_one (sources : list SecretSource) (asked : list SecretLocator) (l : SecretLocator)
  : list SecretLocator * result FetchedSecret ResolveCause :=
  match source_for sources (lo_scheme l) with
  | None => (asked, Err (if compiled_in (lo_scheme l) then CUnconfigured (lo_scheme l) else CNoSource (lo_scheme l)))
  | Some source => (asked ++ [l], map_err CSource (ss_fetch source asked l))
  end.

(** A failure of a document is reported under its first reference. *)
Definition blame (references : list SecretReference) (a : result FetchedSecret ResolveCause) : result FetchedSecret SecretResolveError :=
  map_err (fun c => {| re_reference := default ""%string (reference_display <$> head references); re_cause := c |}) a.

(** [join_all] over the documents: every one is fetched, whatever the others
    answer. *)
Fixpoint fetch_documents (sources : list SecretSource) (groups : list (string * list SecretReference)) (asked : list SecretLocator)
  : list SecretLocator * list (result FetchedSecret SecretResolveError) :=
  match groups with
  | [] => (asked, [])
  | (_, references) :: rest =>
      let '(asked, document) :=
        match references with
        | r :: _ => fetch_one sources asked (locator_of r)
        | [] => (asked, Err CEmpty)
        end in
      let '(asked, documents) := fetch_documents sources rest asked in
      (asked, blame references document :: documents)
  end.

Definition resolved_of (r : SecretReference) (fetched : FetchedSecret) (value : string) : ResolvedSecret :=
  {| secret_value := value;
     secret_provenance_of := {| prov_source := scheme_as_str (locator_scheme r); prov_version := fs_version fetched |} |}.

Fixpoint take_references (fetched : FetchedSecret) (references : list SecretReference) (entries : SecretSnapshot)
  : result SecretSnapshot SecretResolveError :=
  match references with
  | [] => Ok entries
  | r :: rest =>
      let? value := map_err (fun c => {| re_reference := reference_display r; re_cause := c |})
                      (extract (fs_document fetched) (fragment r)) in
      take_references fetched rest (<[reference_display r := resolved_of r fetched value]> entries)
  end.

(** The first failure in the order of the documents counts. *)
Fixpoint take_documents (groups : list (string * list SecretReference)) (documents : list (result FetchedSecret SecretResolveError))
  (entries : SecretSnapshot) : result SecretSnapshot SecretResolveError :=
  match groups, documents with
  | (_, references) :: groups, document :: documents =>
      let? fetched := document in
      let? entries := take_references fetched references entries in
      take_documents groups documents entries
  | _, _ => Ok entries
  end.

(** The fetches a resolution makes, in order, and what it comes to. *)
Definition resolve_secrets (sources : list SecretSource) (values : list string)
  : list SecretLocator * result SecretSnapshot SecretResolveError :=
  match parse_references values with
  | Err e => ([], Err e)
  | Ok rs =>
      let '(asked, documents) := fetch_documents sources (by_locator rs) [] in
      (asked, take_documents (by_locator rs) documents ∅)
  end.

(** ** The configuration in force *)

#[export] Instance SecretProvenance_eq_dec : EqDecision SecretProvenance.
Proof. solve_decision. Defined.
#[export] Instance ResolvedSecret_eq_dec : EqDecision ResolvedSecret.
Proof. solve_decision. Defined.

(** [merged_with] and [differs_from]. *)
Definition merged_with (old newer : SecretSnapshot) : SecretSnapshot := newer ∪ old.
Definition differs_from (old newer : SecretSnapshot) : bool :=
  existsb (fun kv => negb (bool_decide (old !! kv.1 = Some kv.2))) (map_to_list newer).

Record SecretState := {
  sc_config : Config;
  sc_degraded : option string;
  sc_refreshes : N;
  (** A refresh that has read the configuration and resolved its references,
      and has not yet attached the result. *)
  sc_refreshing : option (Config * result SecretSnapshot SecretResolveError);
  (** The bytes of the file the watcher has seen last; none when it was missing. *)
  sc_seen : option (list byte);
}.

(** [attach]: on top of whatever the configuration in force carries. *)
Definition attach (snapshot : SecretSnapshot) (c : Config) : Config := with_secrets c (merged_with (secrets c) snapshot).

Definition resolve_startup (sources : list SecretSource) (c : Config) : result Config SecretResolveError :=
  match secret_references c with
  | [] => Ok c
  | references => let? snapshot := (resolve_secrets sources references).2 in Ok (attach snapshot c)
  end.

(** [refresh_once], up to and after its await: the references are read and
    resolved, then the result is compared and attached. *)
Definition refresh_begin (sources : list SecretSource) (st : SecretState) : SecretState :=
  match sc_refreshing st with
  | Some _ => st
  | None =>
      match secret_references (sc_config st) with
      | [] => {| sc_config := sc_config st; sc_degraded := None; sc_refreshes := sc_refreshes st + 1; sc_refreshing := None; sc_seen := sc_seen st |}
      | references =>
          {| sc_config := sc_config st; sc_degraded := sc_degraded st; sc_refreshes := sc_refreshes st;
             sc_refreshing := Some (sc_config st, (resolve_secrets sources references).2); sc_seen := sc_seen st |}
      end
  end.

Definition refresh_end (st : SecretState) : SecretState :=
  match sc_refreshing st with
  | None => st
  | Some (config, Ok snapshot) =>
      {| sc_config := if differs_from (secrets config) snapshot then attach snapshot (sc_config st) else sc_config st;
         sc_degraded := None; sc_refreshes := sc_refreshes st + 1; sc_refreshing := None; sc_seen := sc_seen st |}
  | Some (config, Err error) =>
      {| sc_config := sc_config st; sc_degraded := Some (cause_category (re_cause error)); sc_refreshes := sc_refreshes st + 1;
         sc_refreshing := None; sc_seen := sc_seen st |}
  end.

Definition resolve_reloaded (sources : list SecretSource) (c : Config) : result Config SecretResolveError :=
  match secret_references c with
  | [] => Ok c
  | references => let? snapshot := (resolve_secrets sources references).2 in Ok (with_secrets c snapshot)
  end.

(** One tick of the watcher whose read of the file gave [answer]; [load] is
    the configuration cascade over the bytes, on a worker that may be lost
    ([None]), and gives a configuration without secrets.  What the tick
    resolves does not depend on the state, so its step is the replacement at
    its end. *)
Definition watch_tick (sources : list SecretSource) (load : option (list byte) -> option (result Config string)) (answer : FileAnswer)
  (st : SecretState) : SecretState :=
  let observed :=
    match answer with FileBytes bytes => Some (Some bytes) | FileMissing => Some None | FileError _ => None end in
  match observed with
  | None => st
  | Some contents =>
      if bool_decide (contents = sc_seen st) then st
      else
        match load contents with
        | None => st
        | Some loaded =>
            let config :=
              match loaded with
              | Err _ => sc_config st
              | Ok config => match resolve_reloaded sources config with Ok config' => config' | Err _ => sc_config st end
              end in
            {| sc_config := config; sc_degraded := sc_degraded st; sc_refreshes := sc_refreshes st; sc_refreshing := sc_refreshing st;
               sc_seen := contents |}
        end
  end.

Inductive SecretStep :=
| SRefreshBegin (sources : list SecretSource)
| SRefreshEnd
| SWatch (sources : list SecretSource) (load : option (list byte) -> option (result Config string)) (answer : FileAnswer).

Definition secret_apply (e : SecretStep) (st : SecretState) : SecretState :=
  match e with
  | SRefreshBegin sources => refresh_begin sources st
  | SRefreshEnd => refresh_end st
  | SWatch sources load answer => watch_tick sources load answer st
  end.

Definition secret_run (es : list SecretStep) (st : SecretState) : SecretState := fold_left (fun st e => secret_apply e st) es st.

(** ** References and their text *)

Lemma scheme_of_text value s : scheme_of value = Some s ->
  as_bytes value = as_bytes (scheme_as_str s) ++ scheme_separator ++ drop (str_len (scheme_as_str s) + 3) (as_bytes value).
Proof.
  unfold scheme_of. destruct (scheme_candidate _) as [c|]; [|done].
  destruct (length _ + 2 <? _)%nat eqn:Hl; [|done]. destruct (starts_with_bytes _ _) eqn:Hs; [|done].
  cbn [andb]. destruct (bool_decide_reflect (take 3 (drop (length (as_bytes (scheme_as_str c))) (as_bytes value)) = scheme_separator)) as [Ht|]; [|done].
  intros [= <-]. apply starts_with_bytes_spec in Hs as [rest Hr]. rewrite Hr in *. rewrite str_len_bytes.
  rewrite drop_app_length in Ht. rewrite <- (take_drop 3 rest) at 1. rewrite Ht. f_equal. f_equal.
  by rewrite <- drop_drop, drop_app_length.
Qed.

Lemma reference_parse_text raw r : reference_parse raw = Ok (Some r) -> reference_display r = trim raw.
Proof.
  unfold reference_parse. destruct (scheme_of (trim raw)) as [s|] eqn:Hs; [|done].
  pose proof (scheme_of_text _ _ Hs) as Ht. set (rest := drop _ (as_bytes (trim raw))) in *. unfold split_once. rewrite as_of_bytes.
  assert (Htext : trim raw = (scheme_as_str s ++ "://" ++ of_bytes rest)%string).
  { apply as_bytes_inj. rewrite Ht, !as_bytes_app, as_of_bytes. done. }
  destruct (split_once_bytes hash_byte rest) as [[target f]|] eqn:Hsp; cbn [fmap option_fmap option_map];
    (destruct (str_is_empty _); [done|]); (destruct (bool_decide _); [done|]); (destruct (_ && _); [done|]); intros [= <-];
    unfold reference_display; cbn; rewrite Htext.
  - apply split_once_bytes_Some in Hsp as [-> _]. do 2 f_equal. apply as_bytes_inj.
    rewrite !as_bytes_app, !as_of_bytes. done.
  - do 2 f_equal. apply as_bytes_inj. rewrite as_bytes_app. cbn. by rewrite app_nil_r.
Qed.

Lemma reference_parse_inj raw raw' r r' :
  reference_parse raw = Ok (Some r) -> reference_parse raw' = Ok (Some r') -> reference_display r = reference_display r' -> r = r'.
Proof.
  intros H1 H2 Hd. assert (Ht : trim raw = trim raw') by (rewrite <- (reference_parse_text _ _ H1), <- (reference_parse_text _ _ H2); done).
  unfold reference_parse in H1, H2. rewrite Ht in H1. congruence.
Qed.

(** ** What a resolution is *)

(** What the documents of a resolution were. *)
Abbreviation Answers := (SecretLocator -> result FetchedSecret ResolveCause).

(** One reference on its own. *)
Definition resolve_one (answer : Answers) (r : SecretReference) : result ResolvedSecret SecretResolveError :=
  let? fetched := blame [r] (answer (locator_of r)) in
  let? value := map_err (fun c => {| re_reference := reference_display r; re_cause := c |}) (extract (fs_document fetched) (fragment r)) in
  Ok (resolved_of r fetched value).

(** The fetches before that of a document, and what it was answered. *)
Fixpoint before (l : SecretLocator) (asked : list SecretLocator) : list SecretLocator :=
  match asked with
  | [] => []
  | l' :: rest => if bool_decide (l' = l) then [] else l' :: before l rest
  end.

Definition answered (sources : list SecretSource) (asked : list SecretLocator) : Answers :=
  fun l => (fetch_one sources (before l asked) l).2.

(** References whose texts tell them apart, as parsed ones are. *)
Definition told_apart (rs : list SecretReference) : Prop :=
  forall r r', r ∈ rs -> r' ∈ rs -> reference_display r = reference_display r' -> r = r'.

Definition same_document (references : list SecretReference) : Prop :=
  forall r r', r ∈ references -> r' ∈ references -> locator_of r = locator_of r'.

Lemma before_app l pre rest : l ∉ pre -> before l (pre ++ l :: rest) = pre.
Proof.
  induction pre as [|x pre IH]; intros Hl; cbn [app before].
  - by rewrite bool_decide_eq_true_2.
  - apply not_elem_of_cons in Hl as [Hx Hl]. rewrite bool_decide_eq_false_2 by congruence. by rewrite IH.
Qed.

Definition group_locator (references : list SecretReference) : option SecretLocator := locator_of <$> head references.

Definition has_source (sources : list SecretSource) (l : SecretLocator) : Prop := is_Some (source_for sources (lo_scheme l)).

Lemma fetch_one_asked sources asked l :
  (fetch_one sources asked l).1 = asked ++ (match source_for sources (lo_scheme l) with Some _ => [l] | None => [] end).
Proof. unfold fetch_one. destruct (source_for _ _); [done|by rewrite app_nil_r]. Qed.

(** Groups of distinct documents are each asked for once, in order, and what
    is taken of them is what that one fetch answered. *)
Lemma fetch_documents_spec sources groups asked :
  Forall (fun g => g.2 <> []) groups -> NoDup (omap (fun g => group_locator g.2) groups) ->
  (forall l, l ∈ omap (fun g => group_locator g.2) groups -> l ∉ asked) ->
  exists more, (fetch_documents sources groups asked).1 = asked ++ more
    /\ NoDup more
    /\ (forall l, l ∈ more <-> l ∈ omap (fun g => group_locator g.2) groups /\ has_source sources l)
    /\ forall rest, (forall l, l ∈ rest -> l ∉ omap (fun g => group_locator g.2) groups) ->
        (fetch_documents sources groups asked).2
        = map (fun g => blame g.2 (match group_locator g.2 with
                                   | Some l => answered sources (asked ++ more ++ rest) l | None => Err CEmpty end)) groups.
Proof.
  revert asked. induction groups as [|[k references] groups IH]; intros asked Hne Hnd Hfresh.
  { exists []. cbn. split; [by rewrite app_nil_r|]. split; [constructor|]. split; [|done]. intros l. split; [by intros ?%elem_of_nil|].
    by intros [?%elem_of_nil _]. }
  apply Forall_cons in Hne as [Hr Hne]. cbn [snd] in Hr. destruct references as [|r references]; [done|].
  cbn [omap list_omap snd group_locator head fmap option_fmap option_map] in Hnd, Hfresh |- *.
  apply NoDup_cons in Hnd as [Hl Hnd]. set (l := locator_of r) in *.
  set (mine := match source_for sources (lo_scheme l) with Some _ => [l] | None => [] end).
  assert (Hmine : forall x, x ∈ mine <-> x = l /\ has_source sources l).
  { intros x. unfold mine, has_source. destruct (source_for sources (lo_scheme l)); [rewrite list_elem_of_singleton; naive_solver|].
    split; [by intros ?%elem_of_nil|]. intros [_ []]. done. }
  destruct (IH (asked ++ mine) Hne Hnd) as (more & E1 & Hm & Hin & Hdocs).
  { intros x Hx [Hx'|[-> _]%Hmine]%elem_of_app; [|done]. by apply (Hfresh x); [right|]. }
  exists (mine ++ more). cbn [fetch_documents]. fold l. destruct (fetch_one sources asked l) as [asked1 document] eqn:Ef.
  assert (asked1 = asked ++ mine) as -> by (pose proof (fetch_one_asked sources asked l) as E; rewrite Ef in E; exact E).
  destruct (fetch_documents sources groups (asked ++ mine)) as [asked2 documents]. cbn [fst snd] in *.
  split; [by rewrite E1, <- app_assoc|]. split; [|split].
  - apply NoDup_app. split; [unfold mine; destruct (source_for _ _); [apply NoDup_singleton|constructor]|]. split; [|done].
    intros x [-> _]%Hmine [Hx _]%Hin. done.
  - intros x. rewrite elem_of_app, Hmine, Hin, elem_of_cons. naive_solver.
  - intros rest Hrest. cbn [map snd group_locator head fmap option_fmap option_map]. f_equal.
    + f_equal. change document with (asked ++ mine, document).2. rewrite <- Ef. unfold answered.
      destruct (source_for sources (lo_scheme l)) as [source|] eqn:Es.
      * replace mine with [l] by done. cbn [app]. rewrite before_app; [done|]. apply (Hfresh l). left.
      * unfold fetch_one. fold l. by rewrite Es.
    + rewrite (Hdocs rest).
      * by rewrite <- !app_assoc.
      * intros x Hx Hin'. apply (Hrest x Hx). by right.
Qed.

Lemma take_references_spec fetched rs entries :
  told_apart rs ->
  match take_references fetched rs entries with
  | Ok entries' =>
      (forall r, r ∈ rs -> exists v, extract (fs_document fetched) (fragment r) = Ok v
                  /\ entries' !! reference_display r = Some (resolved_of r fetched v))
      /\ (forall d, (forall r, r ∈ rs -> reference_display r <> d) -> entries' !! d = entries !! d)
  | Err _ => exists r c, r ∈ rs /\ extract (fs_document fetched) (fragment r) = Err c
  end.
Proof.
  revert entries; induction rs as [|r rs IH]; intros entries Ha; cbn [take_references]; [split; [by intros r ?%elem_of_nil|done]|].
  destruct (extract (fs_document fetched) (fragment r)) as [v|c] eqn:Ex; cbn [map_err]; [|exists r, c; split; [left|done]].
  assert (Ha' : told_apart rs) by (intros x y Hx Hy; apply Ha; by right).
  pose proof (IH (<[reference_display r:=resolved_of r fetched v]> entries) Ha') as Hs.
  destruct (take_references fetched rs _) as [entries'|e].
  - destruct Hs as [H1 H2]. split.
    + intros x [->|Hx]%elem_of_cons; [|by apply H1]. exists v. split; [done|].
      destruct (decide (Exists (fun y => reference_display y = reference_display r) rs)) as [Hin|Hnin].
      * apply Exists_exists in Hin as (y & Hy & Hd). assert (y = r) as -> by (apply Ha; [by right|left|done]).
        destruct (H1 r Hy) as (v' & Hv' & ->). congruence.
      * rewrite H2; [by rewrite lookup_insert_eq|]. intros y Hy Hd. apply Hnin, Exists_exists. eauto.
    + intros d Hd. rewrite H2 by (intros y Hy; apply Hd; by right). apply lookup_insert_ne. apply Hd. left.
  - destruct Hs as (x & c & Hx & Hc). exists x, c. split; [by right|done].
Qed.

(** What a group of references takes of its document. *)
Definition group_answer (answer : Answers) (references : list SecretReference) : result FetchedSecret SecretResolveError :=
  blame references (match group_locator references with Some l => answer l | None => Err CEmpty end).

Lemma group_answer_one answer references fetched r :
  same_document references -> r ∈ references ->
  group_answer answer references = Ok fetched <-> blame [r] (answer (locator_of r)) = Ok fetched.
Proof.
  intros Hs Hr. destruct references as [|r0 rest]; [by apply elem_of_nil in Hr|].
  unfold group_answer, group_locator. cbn. rewrite (Hs r0 r) by (done || left). set (l := locator_of r). clearbody l.
  unfold blame. destruct (answer l); cbn; naive_solver.
Qed.

Lemma resolve_one_ok answer r fetched v :
  blame [r] (answer (locator_of r)) = Ok fetched -> extract (fs_document fetched) (fragment r) = Ok v ->
  resolve_one answer r = Ok (resolved_of r fetched v).
Proof. intros Hf Hv. unfold resolve_one. by rewrite Hf, Hv. Qed.

Lemma take_documents_spec answer groups entries :
  told_apart (mjoin (map snd groups)) ->
  (forall k references, (k, references) ∈ groups -> references <> [] /\ same_document references) ->
  match take_documents groups (map (fun g => group_answer answer g.2) groups) entries with
  | Ok entries' =>
      (forall r, r ∈ mjoin (map snd groups) -> exists x, resolve_one answer r = Ok x /\ entries' !! reference_display r = Some x)
      /\ (forall d, (forall r, r ∈ mjoin (map snd groups) -> reference_display r <> d) -> entries' !! d = entries !! d)
  | Err _ => exists r e, r ∈ mjoin (map snd groups) /\ resolve_one answer r = Err e
  end.
Proof.
  revert entries; induction groups as [|[k references] groups IH]; intros entries Ha Hg; cbn [take_documents map mjoin list_join snd];
    [split; [by intros r ?%elem_of_nil|done]|].
  cbn [map mjoin list_join snd] in Ha. destruct (Hg k references ltac:(left)) as [Hne Hsame].
  assert (Ha1 : told_apart references) by (intros x y Hx Hy; apply Ha; apply elem_of_app; by left).
  assert (Ha2 : told_apart (mjoin (map snd groups))) by (intros x y Hx Hy; apply Ha; apply elem_of_app; by right).
  destruct (group_answer answer references) as [fetched|e] eqn:Hf.
  2: { destruct references as [|r rest]; [done|]. unfold group_answer, group_locator, blame in Hf. cbn in Hf.
       destruct (answer (locator_of r)) as [|c] eqn:Er; [done|].
       eexists r, _. split; [left|]. unfold resolve_one, blame. by rewrite Er. }
  pose proof (take_references_spec fetched references entries Ha1) as Ht.
  destruct (take_references fetched references entries) as [mid|e].
  2: { destruct Ht as (r & c & Hr & Hc). apply (group_answer_one _ _ _ r Hsame Hr) in Hf. eexists r, _. split; [apply elem_of_app; by left|].
       unfold resolve_one. rewrite Hf, Hc. done. }
  destruct Ht as [T1 T2]. pose proof (IH mid Ha2 ltac:(intros k' x Hx; apply (Hg k' x); by right)) as Hrec.
  destruct (take_documents groups _ mid) as [entries'|e].
  2: { destruct Hrec as (r & e' & Hr & He). exists r, e'. split; [apply elem_of_app; by right|done]. }
  destruct Hrec as [R1 R2]. split.
  - intros r [Hr|Hr]%elem_of_app; [|by apply R1]. destruct (T1 r Hr) as (v & Hv & Hm).
    exists (resolved_of r fetched v). split; [apply resolve_one_ok; [by apply (group_answer_one _ _ _ r Hsame Hr)|done]|].
    destruct (decide (Exists (fun y => reference_display y = reference_display r) (mjoin (map snd groups)))) as [Hin|Hnin].
    + apply Exists_exists in Hin as (y & Hy & Hd).
      assert (y = r) as -> by (apply Ha; [apply elem_of_app; by right|apply elem_of_app; by left|done]).
      destruct (R1 r Hy) as (x & Hx & ->). apply (group_answer_one _ _ _ r Hsame Hr) in Hf.
      rewrite (resolve_one_ok _ _ _ _ Hf Hv) in Hx. congruence.
    + rewrite R2; [done|]. intros y Hy Hd. apply Hnin, Exists_exists. eauto.
  - intros d Hd. rewrite R2, T2; [done|..]; intros r Hr; apply Hd; apply elem_of_app; auto.
Qed.

Lemma locator_display_inj l l' : locator_display l = locator_display l' -> l = l'.
Proof.
  destruct l as [s t], l' as [s' t']. unfold locator_display. cbn [lo_scheme lo_target].
  destruct s, s'; cbn; intros E; try discriminate; injection E as E; f_equal; exact E.
Qed.

Lemma foldl_snoc_id {A} (l acc : list A) : foldl (fun l r => l ++ [r]) acc l = acc ++ l.
Proof. revert acc; induction l as [|x l IH]; intros acc; cbn; [by rewrite app_nil_r|]. by rewrite IH, <- app_assoc. Qed.

Lemma by_locator_groups rs : by_locator rs = map (fun k => (k, group_of locator_key rs k)) (group_keys locator_key rs).
Proof. unfold by_locator. rewrite btree_iter_groups. apply map_ext. intros k. by rewrite foldl_snoc_id. Qed.

Lemma group_keys_spec {A} (key : A -> string) rows k : k ∈ group_keys key rows <-> k ∈ map key rows.
Proof. unfold group_keys, distinct. by rewrite merge_sort_Permutation, elem_of_remove_dups. Qed.

Lemma elem_of_group {A} (key : A -> string) rows k x : x ∈ group_of key rows k <-> x ∈ rows /\ key x = k.
Proof. unfold group_of. rewrite list_elem_of_In, filter_In, String.eqb_eq, <- list_elem_of_In. done. Qed.

Lemma by_locator_members rs r : r ∈ mjoin (map snd (by_locator rs)) <-> r ∈ rs.
Proof.
  rewrite by_locator_groups, map_map. cbn [snd]. rewrite list_elem_of_join. split.
  - intros (g & Hr & (k & -> & _)%list_elem_of_fmap). by apply elem_of_group in Hr as [Hr _].
  - intros Hr. exists (group_of locator_key rs (locator_key r)). split; [by apply elem_of_group|].
    apply list_elem_of_fmap. exists (locator_key r). split; [done|]. apply group_keys_spec, list_elem_of_fmap. by exists r.
Qed.

Lemma by_locator_same rs k references : (k, references) ∈ by_locator rs -> references <> [] /\ same_document references.
Proof.
  rewrite by_locator_groups. intros (k' & [= <- ->] & Hk)%list_elem_of_fmap. split.
  - apply group_nonempty. by apply group_keys_spec.
  - intros r r' [_ Hr]%elem_of_group [_ Hr']%elem_of_group. apply locator_display_inj. unfold locator_key in *. congruence.
Qed.

Lemma parse_references_spec values :
  match parse_references values with
  | Ok rs => (forall raw, raw ∈ values -> match reference_parse raw with Ok (Some r) => r ∈ rs | Ok None => True | Err _ => False end)
             /\ (forall r, r ∈ rs -> exists raw, raw ∈ values /\ reference_parse raw = Ok (Some r))
  | Err e => exists raw c, raw ∈ values /\ reference_parse raw = Err c
  end.
Proof.
  induction values as [|raw values IH]; cbn [parse_references]; [split; [by intros ? ?%elem_of_nil|by intros ? ?%elem_of_nil]|].
  destruct (reference_parse raw) as [[r|]|c] eqn:Hp; [..|exists raw, c; split; [left|done]];
    (destruct (parse_references values) as [rs|e]; [|destruct IH as (x & c & Hx & Hc); exists x, c; split; [by right|done]]).
  - destruct IH as [H1 H2]. split.
    + intros x [->|Hx]%elem_of_cons; [rewrite Hp; left|]. specialize (H1 x Hx). destruct (reference_parse x) as [[]|]; try done. by right.
    + intros x [->|Hx]%elem_of_cons; [exists raw; split; [left|done]|]. destruct (H2 x Hx) as (y & Hy & ?). exists y. split; [by right|done].
  - destruct IH as [H1 H2]. split.
    + intros x [->|Hx]%elem_of_cons; [by rewrite Hp|by apply H1].
    + intros x Hx. destruct (H2 x Hx) as (y & Hy & ?). exists y. split; [by right|done].
Qed.

Lemma parsed_told_apart values rs : parse_references values = Ok rs -> told_apart rs.
Proof.
  intros Hp r r' Hr Hr' Hd. pose proof (parse_references_spec values) as Hs. rewrite Hp in Hs. destruct Hs as [_ Hs].
  destruct (Hs r Hr) as (raw & _ & H1). destruct (Hs r' Hr') as (raw' & _ & H2). by eapply reference_parse_inj.
Qed.

Lemma group_head_key rs k references l :
  (k, references) ∈ by_locator rs -> group_locator references = Some l -> locator_display l = k.
Proof.
  rewrite by_locator_groups. intros (k' & [= <- ->] & Hk)%list_elem_of_fmap. unfold group_locator.
  destruct (group_of locator_key rs k) as [|r g] eqn:Eg; [done|]. intros [= <-].
  assert (Hr : r ∈ group_of locator_key rs k) by (rewrite Eg; left). by apply elem_of_group in Hr as [_ Hr].
Qed.

(** The documents of the references, each once. *)
Lemma group_locators_spec rs :
  NoDup (omap (fun g => group_locator g.2) (by_locator rs))
  /\ forall l, l ∈ omap (fun g => group_locator g.2) (by_locator rs) <-> exists r, r ∈ rs /\ locator_of r = l.
Proof.
  split.
  - assert (Hk : NoDup (map fst (by_locator rs))).
    { rewrite by_locator_groups, map_map. cbn [fst]. rewrite map_id. unfold group_keys. rewrite merge_sort_Permutation.
      apply NoDup_remove_dups. }
    assert (Hhead : forall k references l, (k, references) ∈ by_locator rs -> group_locator references = Some l -> locator_display l = k)
      by (intros; by eapply group_head_key).
    revert Hk Hhead. generalize (by_locator rs). intros groups. induction groups as [|[k references] groups IH]; intros Hk Hhead; [constructor|].
    cbn [map fst] in Hk. apply NoDup_cons in Hk as [Hk Hks]. cbn [omap list_omap snd].
    assert (IH' : NoDup (omap (fun g => group_locator g.2) groups))
      by (apply IH; [done|]; intros k' rs' l' Hin; apply Hhead; by right).
    destruct (group_locator references) as [l|] eqn:El; [|done]. apply NoDup_cons. split; [|done].
    intros ([k' rs'] & Hin & Hl')%list_elem_of_omap. cbn [snd] in Hl'. apply Hk. apply list_elem_of_fmap. exists (k', rs'). split; [|done].
    cbn [fst]. rewrite <- (Hhead k references l (list_elem_of_here _ _) El). by eapply Hhead; [right|].
  - intros l. rewrite list_elem_of_omap. split.
    + intros ([k references] & Hin & Hl). cbn [snd] in Hl. unfold group_locator in Hl. destruct references as [|r g]; [done|].
      injection Hl as <-. exists r. split; [|done]. apply by_locator_members, list_elem_of_join. exists (r :: g).
      split; [left|]. apply list_elem_of_fmap. by exists (k, r :: g).
    + intros (r & Hr & <-). apply by_locator_members, list_elem_of_join in Hr as (references & Hr & Hin).
      apply list_elem_of_fmap in Hin as ([k references'] & -> & Hin). cbn [snd] in Hr. exists (k, references'). split; [done|]. cbn [snd].
      destruct (by_locator_same _ _ _ Hin) as [Hne Hsame]. destruct references' as [|r0 g]; [done|]. cbn. f_equal. apply Hsame; [left|done].
Qed.

Definition asked_of (sources : list SecretSource) (values : list string) : list SecretLocator := (resolve_secrets sources values).1.

(** A resolution asks for every document its references name that has a
    source, and for each of them once. *)
Lemma asked_once sources values :
  NoDup (asked_of sources values)
  /\ forall l, l ∈ asked_of sources values <->
       (forall raw, raw ∈ values -> is_ok (reference_parse raw) = true) /\ has_source sources l
       /\ exists raw r, raw ∈ values /\ reference_parse raw = Ok (Some r) /\ locator_of r = l.
Proof.
  unfold asked_of, resolve_secrets. pose proof (parse_references_spec values) as Hp. destruct (parse_references values) as [rs|e].
  - destruct Hp as [P1 P2]. destruct (group_locators_spec rs) as [Hnd Hl].
    destruct (fetch_documents_spec sources (by_locator rs) []) as (more & E & Hm & Hin & _);
      [|done|by intros l _ ?%elem_of_nil|].
    { apply Forall_forall. intros [k references] Hg. by apply by_locator_same in Hg as [? _]. }
    destruct (fetch_documents sources (by_locator rs) []) as [asked documents]. cbn [fst] in *. subst asked. split; [done|].
    intros l. cbn [app]. rewrite Hin, Hl. split.
    + intros [(r & Hr & <-) Hs]. split; [|split; [done|]].
      * intros raw Hraw. specialize (P1 raw Hraw). by destruct (reference_parse raw).
      * destruct (P2 r Hr) as (raw & Hraw & Hpr). eauto.
    + intros (_ & Hs & raw & r & Hraw & Hpr & <-). split; [|done]. specialize (P1 raw Hraw). rewrite Hpr in P1. eauto.
  - cbn [fst]. split; [constructor|]. intros l. split; [by intros ?%elem_of_nil|]. intros (Hok & _).
    destruct Hp as (raw & c & Hraw & Hc). specialize (Hok raw Hraw). by rewrite Hc in Hok.
Qed.

(** A resolution as a whole, by the references on their own. *)
Lemma resolve_secrets_spec sources values :
  let answer := answered sources (asked_of sources values) in
  match (resolve_secrets sources values).2 with
  | Ok snapshot =>
      (forall raw r, raw ∈ values -> reference_parse raw = Ok (Some r) ->
         exists x, resolve_one answer r = Ok x /\ snapshot !! trim raw = Some x)
      /\ (forall d x, snapshot !! d = Some x ->
            exists raw r, raw ∈ values /\ reference_parse raw = Ok (Some r) /\ trim raw = d /\ resolve_one answer r = Ok x)
      /\ (forall raw, raw ∈ values -> exists o, reference_parse raw = Ok o)
  | Err _ => (exists raw c, raw ∈ values /\ reference_parse raw = Err c)
             \/ exists raw r e, raw ∈ values /\ reference_parse raw = Ok (Some r) /\ resolve_one answer r = Err e
  end.
Proof.
  unfold asked_of, resolve_secrets. pose proof (parse_references_spec values) as Hp. destruct (parse_references values) as [rs|e] eqn:Hrs; [|by left].
  destruct Hp as [P1 P2]. pose proof (parsed_told_apart _ _ Hrs) as Ha.
  destruct (fetch_documents_spec sources (by_locator rs) []) as (more & E & _ & _ & Hdocs);
    [|by apply group_locators_spec|by intros l _ ?%elem_of_nil|].
  { apply Forall_forall. intros [k references] Hg. by apply by_locator_same in Hg as [? _]. }
  specialize (Hdocs [] ltac:(by intros l ?%elem_of_nil)). rewrite app_nil_r in Hdocs.
  destruct (fetch_documents sources (by_locator rs) []) as [asked documents]. cbn [fst snd] in *. cbn [app] in E, Hdocs. subst asked documents.
  set (answer := answered sources more).
  change (map _ (by_locator rs)) with (map (fun g => group_answer answer g.2) (by_locator rs)).
  pose proof (take_documents_spec answer (by_locator rs) ∅) as Ht.
  destruct (take_documents (by_locator rs) _ ∅) as [snapshot|e].
  - destruct Ht as [T1 T2].
    { intros r r' Hr Hr'. apply Ha; by apply by_locator_members. } { intros. by eapply by_locator_same. }
    split_and!.
    + intros raw r Hraw Hr. specialize (P1 raw Hraw). rewrite Hr in P1.
      destruct (T1 r ltac:(by apply by_locator_members)) as (x & Hx & Hl). exists x. split; [done|].
      by rewrite <- (reference_parse_text _ _ Hr).
    + intros d x Hd. destruct (decide (Exists (fun r => reference_display r = d) rs)) as [Hin|Hnin].
      * apply Exists_exists in Hin as (r & Hr & Hdr). destruct (P2 r Hr) as (raw & Hraw & Hpr). exists raw, r.
        destruct (T1 r ltac:(by apply by_locator_members)) as (y & Hy & Hl). rewrite Hdr, Hd in Hl. injection Hl as ->.
        rewrite <- (reference_parse_text _ _ Hpr). done.
      * rewrite T2, lookup_empty in Hd; [done|]. intros r Hr Hdr. apply Hnin, Exists_exists. exists r. split; [by apply by_locator_members|exact Hdr].
    + intros raw Hraw. specialize (P1 raw Hraw). destruct (reference_parse raw); [by eexists|done].
  - destruct Ht as (r & e' & Hr & He).
    { intros r r' Hr Hr'. apply Ha; by apply by_locator_members. } { intros. by eapply by_locator_same. }
    apply (proj1 (by_locator_members rs r)) in Hr. right. destruct (P2 r Hr) as (raw & Hraw & Hpr). by exists raw, r, e'.
Qed.

(** ** The configuration in force has no holes *)

(** Every reference of the configuration has its secret in the snapshot. *)
Definition complete (c : Config) : Prop := forall raw, raw ∈ secret_references c -> is_Some (secrets c !! raw).

(** The references of one document come from one fetch of it: some answer of
    a source serves them all. *)
Definition untorn (c : Config) : Prop :=
  exists answer : SecretLocator -> FetchedSecret, forall raw r, raw ∈ secret_references c -> reference_parse raw = Ok (Some r) ->
    exists v, extract (fs_document (answer (locator_of r))) (fragment r) = Ok v
              /\ secrets c !! raw = Some (resolved_of r (answer (locator_of r)) v).

Lemma trim_references c raw : raw ∈ secret_references c -> trim raw = raw /\ is_reference raw = true.
Proof.
  unfold secret_references. intros [Hin Hr]%list_elem_of_In%filter_In. apply in_map_iff in Hin as ([k v] & <- & _).
  split; [apply trim_trim|done].
Qed.

Lemma reference_parses raw : is_reference raw = true -> trim raw = raw -> forall o, reference_parse raw = Ok o -> exists r, o = Some r.
Proof.
  intros Hr Ht o. unfold reference_parse. rewrite Ht. unfold is_reference in Hr. destruct (scheme_of raw) as [s|]; [|done].
  repeat case_match; try done; intros [= <-]; eauto.
Qed.

Lemma references_with_secrets c s : secret_references (with_secrets c s) = secret_references c.
Proof. done. Qed.

(** What a successful resolution of all references makes of a configuration. *)
Lemma resolved_complete sources c snapshot old :
  (resolve_secrets sources (secret_references c)).2 = Ok snapshot ->
  complete (with_secrets c (merged_with old snapshot)) /\ untorn (with_secrets c (merged_with old snapshot)).
Proof.
  intros Hr. pose proof (resolve_secrets_spec sources (secret_references c)) as Hs. cbn zeta in Hs. rewrite Hr in Hs.
  set (answer := answered _ _) in Hs. destruct Hs as (S1 & S2 & S3).
  assert (Hone : forall raw, raw ∈ secret_references c -> exists r x, reference_parse raw = Ok (Some r)
                  /\ resolve_one answer r = Ok x /\ merged_with old snapshot !! raw = Some x).
  { intros raw Hraw. destruct (trim_references c raw Hraw) as [Ht Hir]. destruct (S3 raw Hraw) as [o Ho].
    destruct (reference_parses raw Hir Ht o Ho) as [r ->]. destruct (S1 raw r Hraw Ho) as (x & Hx & Hl). rewrite Ht in Hl.
    exists r, x. split_and!; [done..|]. unfold merged_with. by apply lookup_union_Some_l. }
  split.
  - intros raw Hraw. destruct (Hone raw Hraw) as (r & x & _ & _ & Hx). by exists x.
  - exists (fun l => match answer l with Ok f => f | Err _ => {| fs_document := ""; fs_version := "" |} end).
    intros raw r Hraw Hp. destruct (Hone raw Hraw) as (r' & x & Hp' & Hx & Hl). rewrite Hp in Hp'. injection Hp' as <-.
    unfold resolve_one, blame in Hx. destruct (answer (locator_of r)) as [f|]; cbn [map_err] in Hx; [|done].
    destruct (extract (fs_document f) (fragment r)) as [v|]; cbn [map_err] in Hx; [|done]. injection Hx as <-. by exists v.
Qed.

Lemma attach_complete c s : complete c -> complete (attach s c).
Proof.
  intros Hc raw Hraw. destruct (Hc raw Hraw) as [x Hx]. unfold attach, merged_with. cbn.
  rewrite lookup_union, Hx. destruct (s !! raw); cbn; by eexists.
Qed.

Lemma no_references c : secret_references c = [] -> complete c /\ untorn c.
Proof.
  intros H0. split; [intros raw Hraw|exists (fun _ => {| fs_document := ""; fs_version := "" |}); intros raw r Hraw];
    rewrite H0 in Hraw; by apply elem_of_nil in Hraw.
Qed.

(** Refreshes that no reload overtakes. *)
Inductive WholeStep :=
| WRefresh (sources : list SecretSource)
| WWatch (sources : list SecretSource) (load : option (list byte) -> option (result Config string)) (answer : FileAnswer).

Definition whole_steps (w : WholeStep) : list SecretStep :=
  match w with
  | WRefresh sources => [SRefreshBegin sources; SRefreshEnd]
  | WWatch sources load answer => [SWatch sources load answer]
  end.

Lemma reloaded_whole sources c c' : resolve_reloaded sources c = Ok c' -> complete c' /\ untorn c'.
Proof.
  unfold resolve_reloaded. destruct (secret_references c) as [|raw rs] eqn:Hr; [intros [= <-]; by apply no_references|].
  destruct (resolve_secrets sources (raw :: rs)).2 as [snapshot|] eqn:Hs; [|done]. intros [= <-].
  rewrite <- Hr in Hs. pose proof (resolved_complete sources c snapshot ∅ Hs) as H0. unfold merged_with in H0.
  by rewrite (right_id_L ∅ (∪)) in H0.
Qed.

Lemma watch_whole sources load answer st (P : Config -> Prop) :
  (forall c, complete c /\ untorn c -> P c) -> P (sc_config st) -> P (sc_config (watch_tick sources load answer st)).
Proof.
  intros HP Hst. unfold watch_tick. destruct (match answer with FileBytes _ => _ | _ => _ end) as [contents|]; [|done].
  destruct (bool_decide _); [done|]. destruct (load contents) as [[c|]|]; [|done..]. cbn.
  destruct (resolve_reloaded sources c) as [c'|] eqn:Hr; [|done]. apply HP. by eapply reloaded_whole.
Qed.

Lemma startup_whole sources c c0 : resolve_startup sources c = Ok c0 -> complete c0 /\ untorn c0.
Proof.
  unfold resolve_startup. destruct (secret_references c) as [|raw rs] eqn:Hr; [intros [= <-]; by apply no_references|].
  destruct (resolve_secrets sources (raw :: rs)).2 as [snapshot|] eqn:Hs; [|done]. intros [= <-].
  rewrite <- Hr in Hs. by apply (resolved_complete sources c snapshot (secrets c)).
Qed.

Lemma run_complete es st : complete (sc_config st) -> complete (sc_config (secret_run es st)).
Proof.
  revert st; induction es as [|e es IH]; intros st Hc; [done|]. apply IH. destruct e as [sources| |sources load answer]; cbn [secret_apply].
  - unfold refresh_begin. destruct (sc_refreshing st); [done|]. by destruct (secret_references (sc_config st)).
  - unfold refresh_end. destruct (sc_refreshing st) as [[c [s|e]]|]; cbn; [|done|done]. destruct (differs_from _ _); [by apply attach_complete|done].
  - by apply (watch_whole sources load answer st complete); [intros c [? _]|].
Qed.

(** One refresh that nothing overtakes. *)
Definition refresh_once (sources : list SecretSource) (st : SecretState) : SecretState := refresh_end (refresh_begin sources st).

Lemma differs_from_false old newer k x : differs_from old newer = false -> newer !! k = Some x -> old !! k = Some x.
Proof.
  intros Hd Hk. destruct (decide (old !! k = Some x)) as [|Hne]; [done|]. exfalso.
  assert (differs_from old newer = true); [|congruence]. unfold differs_from. apply existsb_exists. exists (k, x).
  split; [by apply list_elem_of_In, elem_of_map_to_list|]. by rewrite bool_decide_eq_false_2.
Qed.

Lemma refresh_once_spec sources st : sc_refreshing st = None -> secret_references (sc_config st) <> [] ->
  let st' := refresh_once sources st in
  sc_refreshing st' = None /\
  match (resolve_secrets sources (secret_references (sc_config st))).2 with
  | Ok snapshot => (forall raw x, snapshot !! raw = Some x -> secrets (sc_config st') !! raw = Some x) /\ sc_degraded st' = None
                   /\ (untorn (sc_config st) -> untorn (sc_config st'))
  | Err e => sc_config st' = sc_config st /\ sc_degraded st' = Some (cause_category (re_cause e))
  end.
Proof.
  intros Hn Hr. unfold refresh_once, refresh_begin. rewrite Hn. destruct (secret_references (sc_config st)) as [|raw rs] eqn:Hrefs; [done|].
  unfold refresh_end. cbn [sc_refreshing sc_config]. rewrite <- Hrefs.
  destruct (resolve_secrets sources (secret_references (sc_config st))).2 as [snapshot|e] eqn:Hs; cbn [sc_refreshing sc_config sc_degraded]; [|done].
  split; [done|]. destruct (differs_from (secrets (sc_config st)) snapshot) eqn:Hd.
  - split_and!; [|done|].
    + intros k x Hk. unfold attach, merged_with. cbn. by apply lookup_union_Some_l.
    + intros _. by apply (resolved_complete sources (sc_config st) snapshot (secrets (sc_config st))).
  - split_and!; [|done|done]. intros k x Hk. by eapply differs_from_false.
Qed.

Lemma refresh_once_seen sources st : sc_seen (refresh_once sources st) = sc_seen st.
Proof. unfold refresh_once, refresh_end, refresh_begin. by repeat (case_match; simplify_eq/=). Qed.

Lemma secret_run_app es es' st : secret_run (es ++ es') st = secret_run es' (secret_run es st).
Proof. apply fold_left_app. Qed.

Lemma run_untorn ws st : sc_refreshing st = None -> untorn (sc_config st) ->
  let st' := secret_run (mjoin (map whole_steps ws)) st in sc_refreshing st' = None /\ untorn (sc_config st').
Proof.
  revert st; induction ws as [|w ws IH]; intros st Hn Hu; [done|]. cbn [map mjoin list_join]. rewrite secret_run_app.
  destruct w as [sources|sources load answer]; cbn [whole_steps].
  - change (secret_run [SRefreshBegin sources; SRefreshEnd] st) with (refresh_once sources st).
    destruct (secret_references (sc_config st)) as [|raw rs] eqn:Hr.
    + apply IH; unfold refresh_once, refresh_begin; rewrite Hn, Hr; done.
    + pose proof (refresh_once_spec sources st Hn ltac:(by rewrite Hr)) as [Hn' Hs]. apply IH; [done|].
      destruct (resolve_secrets sources _).2; [by apply Hs|]. by destruct Hs as [-> _].
  - apply IH.
    + cbn. unfold watch_tick. repeat case_match; done.
    + cbn. by apply (watch_whole sources load answer st untorn); [intros c [_ ?]|].
Qed.

(** A value the configuration holds, shared or for a vendor. *)
Definition holds_value (c : Config) (v : string) : Prop :=
  (exists k, shared c !! k = Some v) \/ exists vendor (m : EnvMap) k, by_vendor c !! vendor = Some m /\ m !! k = Some v.

Lemma held_reference c v : holds_value c v -> is_reference (trim v) = true -> trim v ∈ secret_references c.
Proof.
  intros Hv Hr. unfold secret_references. apply list_elem_of_In, filter_In. split; [|done]. apply in_map_iff.
  destruct Hv as [[k Hk]|(vendor & m & k & Hm & Hk)]; exists (k, v); (split; [done|]); apply list_elem_of_In, elem_of_app.
  - left. by apply elem_of_map_to_list.
  - right. apply list_elem_of_join. exists (map_to_list m). split; [by apply elem_of_map_to_list|].
    apply list_elem_of_fmap. exists (vendor, m). split; [done|]. by apply elem_of_sections.
Qed.

Definition serving (c : Config) (seen : option (list byte)) : SecretState :=
  {| sc_config := c; sc_degraded := None; sc_refreshes := 0; sc_refreshing := None; sc_seen := seen |}.

(** C27: The secrets in force are complete, whole and current.  After a startup
    that was not refused, whatever refreshes and reloads succeed, fail or
    overlap, every reference in the configuration in force has a secret and a
    reader of the configuration gets it, never the text of the reference.
    After refreshes and reloads that do not overlap one another, the references
    into one document are served from one fetch of it; and one more refresh
    that no reload overlaps puts the value its own fetch gave for every
    reference in force when it succeeds, and changes nothing but the health
    signal and the count of refreshes when it fails.  A resolution asks the
    sources for each document its references name, where the document's scheme
    has a source, exactly once, and for nothing else. *)
Theorem secrets_in_force sources c c0 seen (Hstart : resolve_startup sources c = Ok c0) :
  let st := serving c0 seen in
  (forall es v, let now := sc_config (secret_run es st) in
     holds_value now v -> is_reference (trim v) = true ->
     exists x, secrets now !! trim v = Some x /\ expand now v = secret_value x)
  /\ (forall ws, untorn (sc_config (secret_run (mjoin (map whole_steps ws)) st)))
  /\ (forall ws sources', let now := secret_run (mjoin (map whole_steps ws)) st in
      secret_references (sc_config now) <> [] ->
      let asked := asked_of sources' (secret_references (sc_config now)) in
      match (resolve_secrets sources' (secret_references (sc_config now))).2 with
      | Ok _ => sc_degraded (refresh_once sources' now) = None
                /\ (forall raw r, raw ∈ secret_references (sc_config now) -> reference_parse raw = Ok (Some r) ->
                    exists x, resolve_one (answered sources' asked) r = Ok x /\ secrets (sc_config (refresh_once sources' now)) !! raw = Some x)
      | Err e => sc_config (refresh_once sources' now) = sc_config now
                 /\ sc_degraded (refresh_once sources' now) = Some (cause_category (re_cause e))
                 /\ sc_seen (refresh_once sources' now) = sc_seen now /\ sc_refreshing (refresh_once sources' now) = sc_refreshing now
      end)
  /\ (forall sources' values, NoDup (asked_of sources' values)
      /\ forall l, l ∈ asked_of sources' values <->
           (forall raw, raw ∈ values -> is_ok (reference_parse raw) = true) /\ has_source sources' l
           /\ exists raw r, raw ∈ values /\ reference_parse raw = Ok (Some r) /\ locator_of r = l).
Proof.
  cbn zeta. destruct (startup_whole sources c c0 Hstart) as [Hc Hu]. split_and!.
  - intros es v Hv Hr. destruct (run_complete es (serving c0 seen) Hc (trim v) (held_reference _ _ Hv Hr)) as [x Hx].
    exists x. split; [done|]. unfold expand. by rewrite Hr, Hx.
  - intros ws. by apply (run_untorn ws (serving c0 seen)).
  - intros ws sources' Hr. destruct (run_untorn ws (serving c0 seen) eq_refl Hu) as [Hn _].
    pose proof (refresh_once_spec sources' _ Hn Hr) as [_ Hs].
    pose proof (resolve_secrets_spec sources' (secret_references (sc_config (secret_run (mjoin (map whole_steps ws)) (serving c0 seen))))) as Hspec.
    cbn zeta in Hspec. destruct (resolve_secrets sources' _).2 as [snapshot|e] eqn:Eres;
      [|destruct Hs as [Hs1 Hs2]; split_and!; [done|done|by rewrite refresh_once_seen|by rewrite Hn; apply refresh_once_spec]].
    destruct Hs as (H1 & H2 & _), Hspec as (S1 & _ & _). split; [done|].
    intros raw r Hraw Hp. destruct (S1 raw r Hraw Hp) as (x & Hx & Hl). destruct (trim_references _ _ Hraw) as [Ht _]. rewrite Ht in Hl. eauto.
  - intros. apply asked_once.
Qed.
End Resolver.

Module SecretWitness.

Definition toy_json (document : string) : option Value :=
  if String.eqb document "old" then Some (VObject [("email", VString "a@old"); ("token", VString "t-old")])
  else if String.eqb document "new" then Some (VObject [("email", VString "a@new"); ("token", VString "t-new")]) else None.

(** The one document, before and after its rotation. *)
Definition holding (document : string) : list SecretSource :=
  [{| ss_scheme := SVault; ss_fetch := fun _ _ => Ok {| fs_document := document; fs_version := document |} |}].

Definition email_only : Config := from_map {[ "EMAIL" := "vault://kv/atlassian#email" ]}.
Definition email_and_token : Config := from_map {[ "EMAIL" := "vault://kv/atlassian#email"; "TOKEN" := " vault://kv/atlassian#token" ]}.
Definition load (contents : option (list byte)) : option (result Config string) := Some (Ok email_and_token).

Definition started : Config := attach {[ "vault://kv/atlassian#email" :=
  {| secret_value := "a@old"; secret_provenance_of := {| prov_source := "vault"; prov_version := "old" |} |} ]} email_only.

Lemma secrets_in_force_witness :
  resolve_startup toy_json (holding "old") email_only = Ok started
  /\ exists x, secrets (sc_config (secret_run toy_json [SWatch (holding "new") load (FileBytes [byte_of 1])] (serving started None))) !! "vault://kv/atlassian#token" = Some x
     /\ secret_value x = "t-new".
Proof.
  assert (Hs : resolve_startup toy_json (holding "old") email_only = Ok started) by (vm_compute; reflexivity).
  split; [exact Hs|].
  destruct (secrets_in_force toy_json (holding "old") email_only started None Hs) as [Hv _].
  destruct (Hv [SWatch (holding "new") load (FileBytes [byte_of 1])] " vault://kv/atlassian#token") as (x & Hx & He).
  - left. exists "TOKEN". vm_compute. reflexivity.
  - vm_compute. reflexivity.
  - exists x. split; [exact Hx|]. rewrite <- He. vm_compute. reflexivity.
Defined.
End SecretWitness.

(** A document that is rotated after its first fetch: one fetch serves both
    references, so both have the first text. *)
Example rotation_mid_resolution :
  let rotating := [{| ss_scheme := SVault;
    ss_fetch := fun asked _ => Ok {| fs_document := if bool_decide (asked = []) then "old" else "new"; fs_version := "v" |} |}] in
  let '(asked, r) := resolve_secrets SecretWitness.toy_json rotating ["vault://kv/atlassian#email"; "vault://kv/atlassian#token"] in
  length asked = 1%nat
  /\ match r with
     | Ok snapshot => secret_value <$> snapshot !! "vault://kv/atlassian#token" = Some "t-old"
     | Err _ => False
     end.
Proof. vm_compute. done. Qed.

(** A reload that overtakes a refresh tears a credential apart: the stale
    refresh puts the old email over the new one and leaves the new token. *)
Theorem overtaken_refresh_tears_credential :
  let st := secret_run SecretWitness.toy_json
              [SRefreshBegin (SecretWitness.holding "old"); SWatch (SecretWitness.holding "new") SecretWitness.load (FileBytes [byte_of 1]); SRefreshEnd]
              (serving (with_secrets SecretWitness.email_only ∅) None) in
  get (sc_config st) "EMAIL" = Some "a@old" /\ get (sc_config st) "TOKEN" = Some "t-new".
Proof. vm_compute. done. Qed.
