(* ===== verification/Vault.v ===== *)
(** * The Vault secret source (src/src/secrets/vault.rs)

    A client of the KV v2 endpoints with one session: a client token and its
    lease, obtained by the one configured method, renewed past two thirds of
    its lease, obtained again when the lease is over or a read is refused.
    The environment (clock, files, the server) answers by the number of
    events so far, and the events are kept in order; several fetches run
    concurrently, each a sequence of turns on the shared session. *)
From S2P Require Import Prelude RustStr Json F64 Signing Config NetAddr Egress ToolCall Secrets.

(** ** Settings *)

Definition ADDR_KEY : string := "MCP_VAULT_ADDR".
Definition AUTH_KEY : string := "MCP_VAULT_AUTH".
Definition TOKEN_KEY : string := "MCP_VAULT_TOKEN".
Definition ROLE_ID_KEY : string := "MCP_VAULT_ROLE_ID".
Definition SECRET_ID_KEY : string := "MCP_VAULT_SECRET_ID".
Definition ROLE_KEY : string := "MCP_VAULT_ROLE".
Definition JWT_PATH_KEY : string := "MCP_VAULT_JWT_PATH".
Definition AUTH_MOUNT_KEY : string := "MCP_VAULT_AUTH_MOUNT".
Definition NAMESPACE_KEY : string := "MCP_VAULT_NAMESPACE".
Definition CACERT_KEY : string := "MCP_VAULT_CACERT".
Definition DEFAULT_JWT_PATH : string := "/var/run/secrets/kubernetes.io/serviceaccount/token".
Definition MAX_RESPONSE_BYTES : N := 1048576.

Inductive Material := Literal (value : string) | InFile (path : string).

Inductive VaultAuth :=
| AuthToken (token : Material)
| AuthAppRole (mount role_id : string) (secret_id : Material)
| AuthKubernetes (mount role jwt_path : string).

Record VaultSettings := {
  va_addr : string;
  va_auth : VaultAuth;
  va_namespace : option string;
  va_ca_cert : option string;
}.

(** [VaultAuth::method]. *)
Definition auth_method (a : VaultAuth) : string :=
  match a with AuthToken _ => "token" | AuthAppRole _ _ _ => "approle" | AuthKubernetes _ _ _ => "kubernetes" end.

(** The messages of [from_config], without their wording. *)
Inductive VaultSettingsError :=
| AddrMissing | AddrNotUrl | AddrInsecure
| AuthMissing | AuthUnknown (method : string)
| KeyMissing (key method : string)
| MaterialFragment (key : string)
| MaterialPath (key : string) (e : SecretSourceError)
| MaterialScheme (key : string) (s : Scheme)
| MaterialInvalid (key : string) (e : ReferenceError).

Definition optional (c : Config) (key : string) : option string :=
  match get c key with Some v => if str_is_empty (trim v) then None else Some (trim v) | None => None end.

Definition required (c : Config) (key method : string) : result string VaultSettingsError :=
  match optional c key with Some v => Ok v | None => Err (KeyMissing key method) end.

Definition material_parse (key raw : string) : result Material VaultSettingsError :=
  match reference_parse raw with
  | Ok None => Ok (Literal (trim raw))
  | Ok (Some r) =>
      if bool_decide (locator_scheme r = SFile) then
        match fragment r with
        | Some _ => Err (MaterialFragment key)
        | None => let? path := map_err (MaterialPath key) (path_for (locator_of r)) in Ok (InFile path)
        end
      else Err (MaterialScheme key (locator_scheme r))
  | Err e => Err (MaterialInvalid key e)
  end.

Definition slash : byte := byte_of 47.

Section Settings.
Context `{UrlLib}.
(** [Url::host]. *)
Variable url_host : Url -> option UrlHost.

Definition vault_channel (u : Url) : bool :=
  String.eqb (url_scheme u) "https" || String.eqb (url_scheme u) "http" && host_is_loopback (url_host u).

Definition vault_settings (c : Config) : result VaultSettings VaultSettingsError :=
  match optional c ADDR_KEY with
  | None => Err AddrMissing
  | Some raw =>
      let addr := trim_end_matches slash raw in
      match url_parse addr with
      | None => Err AddrNotUrl
      | Some u =>
          if negb (vault_channel u) then Err AddrInsecure
          else
            match optional c AUTH_KEY with
            | None => Err AuthMissing
            | Some method =>
                let mount default := match optional c AUTH_MOUNT_KEY with Some m => trim_matches slash m | None => default end in
                let? auth :=
                  if eq_ignore_ascii_case method "token" then
                    let? raw := required c TOKEN_KEY "token" in
                    let? token := material_parse TOKEN_KEY raw in
                    Ok (AuthToken token)
                  else if eq_ignore_ascii_case method "approle" then
                    let? role_id := required c ROLE_ID_KEY "approle" in
                    let? raw := required c SECRET_ID_KEY "approle" in
                    let? secret_id := material_parse SECRET_ID_KEY raw in
                    Ok (AuthAppRole (mount "approle") (trim role_id) secret_id)
                  else if eq_ignore_ascii_case method "kubernetes" then
                    let? role := required c ROLE_KEY "kubernetes" in
                    Ok (AuthKubernetes (mount "kubernetes") (trim role) (default DEFAULT_JWT_PATH (optional c JWT_PATH_KEY)))
                  else Err (AuthUnknown method) in
                Ok {| va_addr := addr; va_auth := auth; va_namespace := optional c NAMESPACE_KEY; va_ca_cert := optional c CACERT_KEY |}
            end
      end
  end.
End Settings.

(** ** The environment and the session *)

Record VaultRequest := {
  vr_method : string;
  vr_url : string;
  vr_namespace : option string;
  vr_token : option string;
  vr_body : option Value;
}.

(** An error is known by its predicates; a head comes with its body or with
    the failure to read it. *)
Inductive VaultReply :=
| ReplyError (is_timeout is_connect is_body is_decode : bool)
| ReplyHead (status : N) (content_length : option N) (body : option (list byte)).

Inductive VaultEvent :=
| EvSent (rq : VaultRequest) (rp : VaultReply)
| EvFile (path : string) (answer : FileAnswer)
| EvClock (now : N).

Record VaultSession := { vs_token : string; vs_obtained_at : N; vs_ttl : option N; vs_renewable : bool }.

Record VaultWorld := {
  vw_session : option VaultSession;
  vw_logins : N;
  vw_renewals : N;
  vw_log : list VaultEvent;
}.

Definition vault_new : VaultWorld := {| vw_session := None; vw_logins := 0; vw_renewals := 0; vw_log := [] |}.

Record Lease := { ls_ttl : option N; ls_renewable : bool }.

(** [LoginResponse], [LookupResponse] and [KvReadResponse]. *)
Record AuthBlock := { ab_client_token : option string; ab_lease_duration : option N; ab_renewable : option bool }.
Record LookupData := { ld_ttl : option N; ld_renewable : option bool }.
Record KvData := { kv_data : option Value; kv_version : option N }.

(** State and error: the world goes on where an error is raised. *)
Definition VM (E A : Type) : Type := VaultWorld -> result A E * VaultWorld.

Definition vret {E A} (a : A) : VM E A := fun w => (Ok a, w).
Definition vfail {E A} (e : E) : VM E A := fun w => (Err e, w).
Definition vbind {E A B} (m : VM E A) (k : A -> VM E B) : VM E B :=
  fun w => match m w with (Ok a, w') => k a w' | (Err e, w') => (Err e, w') end.
Definition vcatch {E F A} (m : VM E A) (h : E -> VM F A) : VM F A :=
  fun w => match m w with (Ok a, w') => (Ok a, w') | (Err e, w') => h e w' end.
Definition vmap_err {E F A} (f : E -> F) (m : VM E A) : VM F A := vcatch m (fun e => vfail (f e)).
Definition vlift {E A} (r : result A E) : VM E A := fun w => (r, w).

Notation "'let!' x := m 'in' k" := (vbind m (fun x => k)) (at level 10, x name, m at level 100, k at level 200) : rust_scope.

Definition vlog (ev : VaultEvent) (w : VaultWorld) : VaultWorld :=
  {| vw_session := vw_session w; vw_logins := vw_logins w; vw_renewals := vw_renewals w; vw_log := vw_log w ++ [ev] |}.

Definition status_class (status : N) : string :=
  if (400 <=? status)%N && (status <=? 499)%N then "http 4xx"
  else if (500 <=? status)%N && (status <=? 599)%N then "http 5xx" else "http error status".

Definition redacted_transport_error (is_timeout is_connect is_body is_decode : bool) : string :=
  if is_timeout then "timeout" else if is_connect then "connection failed"
  else if is_body || is_decode then "body error" else "request error".

Definition is_success (status : N) : bool := (200 <=? status)%N && (status <=? 299)%N.

(** [lease_duration], in nanoseconds. *)
Definition lease_duration (seconds : option N) : option N :=
  match seconds with Some s => if (0 <? s)%N then Some (s * NANOS_PER_SEC)%N else None | None => None end.

(** [read_json], with the derived decoder of the body as an argument. *)
Definition read_json {A} (decode : list byte -> option A) (content_length : option N) (body : option (list byte)) : result A string :=
  if match content_length with Some n => (MAX_RESPONSE_BYTES <? n)%N | None => false end then Err "response too large"
  else
    match body with
    | None => Err "body error"
    | Some bytes =>
        if (MAX_RESPONSE_BYTES <? N.of_nat (length bytes))%N then Err "response too large"
        else match decode bytes with Some a => Ok a | None => Err "response not json" end
    end.

Definition credential_text (answer : FileAnswer) : result string string :=
  match answer with
  | FileBytes bytes =>
      if negb (utf8_valid bytes) then Err "credential file not UTF-8"
      else if is_blank (of_bytes bytes) then Err "credential file empty" else Ok (trim (of_bytes bytes))
  | FileMissing | FileError _ => Err "credential file unreadable"
  end.

Definition split_target (l : SecretLocator) : result (string * string) SecretSourceError :=
  match split_once slash (trim_matches slash (lo_target l)) with
  | Some (mount, path) =>
      if negb (str_is_empty mount) && negb (str_is_empty (trim_matches slash path)) then Ok (mount, trim_matches slash path)
      else Err (SsMalformed (locator_display l) "expected vault://<mount>/<path>#<key>")
  | None => Err (SsMalformed (locator_display l) "expected vault://<mount>/<path>#<key>")
  end.

Section Vault.
Variable settings : VaultSettings.

(** The environment, by the number of events so far. *)
Variable net : nat -> VaultRequest -> VaultReply.
Variable file : nat -> string -> FileAnswer.
Variable clock : nat -> N.

(** The derived decoders of the three bodies, and [serde_json::to_string]. *)
Variable login_json : list byte -> option (option AuthBlock).
Variable lookup_json : list byte -> option (option LookupData).
Variable kv_json : list byte -> option (option KvData).
Variable to_json : Value -> option string.

Definition vault_url (path : string) : string := (va_addr settings ++ "/v1/" ++ path)%string.

Definition vault_request (method path : string) (body : option Value) (token : option string) : VaultRequest :=
  {| vr_method := method; vr_url := vault_url path; vr_namespace := va_namespace settings; vr_token := token; vr_body := body |}.

Definition send {E} (rq : VaultRequest) : VM E VaultReply :=
  fun w => let rp := net (length (vw_log w)) rq in (Ok rp, vlog (EvSent rq rp) w).
Definition vnow {E} : VM E N := fun w => let n := clock (length (vw_log w)) in (Ok n, vlog (EvClock n) w).
Definition vread {E} (path : string) : VM E FileAnswer :=
  fun w => let a := file (length (vw_log w)) path in (Ok a, vlog (EvFile path a) w).

Definition read_credential_file (path : string) : VM string string :=
  let! answer := vread path in vlift (credential_text answer).

Definition material_read (m : Material) : VM string string :=
  match m with Literal value => vret value | InFile path => read_credential_file path end.

(** A session is over when its lease is; the clock is read only for a lease. *)
Definition expired (s : VaultSession) : VM string bool :=
  match vs_ttl s with
  | None => vret false
  | Some ttl => let! n := vnow in vret (ttl <=? n - vs_obtained_at s)%N
  end.

(** [ttl.mul_f64(2.0 / 3.0)]; a lease has fewer than 2^64 seconds, so two
    thirds of it is a [Duration]. *)
Definition renewal_due (ttl : N) : option N := try_from_secs_f64 (fmul (fdiv (f64_of 2) (f64_of 3)) (as_secs_f64 ttl)).

Definition due_for_renewal (s : VaultSession) : VM string bool :=
  if vs_renewable s then
    match vs_ttl s with
    | None => vret false
    | Some ttl =>
        let! n := vnow in
        vret (match renewal_due ttl with Some due => (due <=? n - vs_obtained_at s)%N | None => true end)
    end
  else vret false.

Definition lease_of (auth : AuthBlock) : Lease :=
  {| ls_ttl := lease_duration (ab_lease_duration auth); ls_renewable := default false (ab_renewable auth) |}.

(** What a reply to a login, a lookup, a renewal says. *)
Definition login_reply (rp : VaultReply) : result (string * Lease) string :=
  match rp with
  | ReplyError t c b d => Err (redacted_transport_error t c b d)
  | ReplyHead status len body =>
      if negb (is_success status) then
        Err (if (status =? 400)%N || (status =? 403)%N then "login refused"
             else if (status =? 503)%N then "sealed" else status_class status)
      else
        let? decoded := read_json login_json len body in
        match decoded with
        | None => Err "login response has no auth"
        | Some auth =>
            match ab_client_token auth with
            | Some token => if str_is_empty token then Err "login response has no token" else Ok (token, lease_of auth)
            | None => Err "login response has no token"
            end
        end
  end.

Definition lookup_reply (rp : VaultReply) : result Lease string :=
  match rp with
  | ReplyError t c b d => Err (redacted_transport_error t c b d)
  | ReplyHead status len body =>
      if negb (is_success status) then Err (status_class status)
      else
        let? decoded := read_json lookup_json len body in
        match decoded with
        | None => Err "lookup response has no data"
        | Some data => Ok {| ls_ttl := lease_duration (ld_ttl data); ls_renewable := default false (ld_renewable data) |}
        end
  end.

Definition renew_reply (rp : VaultReply) : result Lease string :=
  match rp with
  | ReplyError t c b d => Err (redacted_transport_error t c b d)
  | ReplyHead status len body =>
      if negb (is_success status) then Err (status_class status)
      else
        let? decoded := read_json login_json len body in
        match decoded with None => Err "renew response has no auth" | Some auth => Ok (lease_of auth) end
  end.

Definition session_of (token : string) (lease : Lease) (n : N) : VaultSession :=
  {| vs_token := token; vs_obtained_at := n; vs_ttl := ls_ttl lease; vs_renewable := ls_renewable lease |}.

Definition login_with (path : string) (body : Value) : VM string VaultSession :=
  let! rp := send (vault_request "POST" path (Some body) None) in
  let! granted := vlift (login_reply rp) in
  let! n := vnow in
  vret (session_of (fst granted) (snd granted) n).

Definition lookup_self (token : string) : VM string Lease :=
  let! rp := send (vault_request "GET" "auth/token/lookup-self" None (Some token)) in
  vlift (lookup_reply rp).

Definition renew (token : string) : VM string Lease :=
  let! rp := send (vault_request "POST" "auth/token/renew-self" (Some (VObject [])) (Some token)) in
  vlift (renew_reply rp).

Definition login_path (mount : string) : string := ("auth/" ++ mount ++ "/login")%string.
Definition approle_body (role_id secret_id : string) : Value :=
  VObject [("role_id", VString role_id); ("secret_id", VString secret_id)].
Definition kubernetes_body (role jwt : string) : Value := VObject [("role", VString role); ("jwt", VString jwt)].

Definition login : VM string VaultSession :=
  match va_auth settings with
  | AuthToken material =>
      let! token := material_read material in
      let! lease := vcatch (lookup_self token) (fun _ => vret {| ls_ttl := None; ls_renewable := false |}) in
      let! n := vnow in
      vret (session_of token lease n)
  | AuthAppRole mount role_id secret =>
      let! secret_id := material_read secret in
      login_with (login_path mount) (approle_body role_id secret_id)
  | AuthKubernetes mount role jwt_path =>
      let! jwt := vmap_err (fun _ => "service-account token unreadable") (read_credential_file jwt_path) in
      login_with (login_path mount) (kubernetes_body role jwt)
  end.

Definition set_session (s : VaultSession) (logins renewals : N) : VM string unit :=
  fun w => (Ok tt, {| vw_session := Some s; vw_logins := vw_logins w + logins; vw_renewals := vw_renewals w + renewals; vw_log := vw_log w |}).

Definition login_again : VM string string :=
  let! fresh := login in
  let! _ := set_session fresh 1 0 in
  vret (vs_token fresh).

(** [token], under the lock of the session from its first line to its last. *)
Definition token (force_login : bool) : VM string string :=
  fun w =>
    match force_login, vw_session w with
    | false, Some current =>
        (let! over := expired current in
         if over then login_again
         else
           let! due := due_for_renewal current in
           if due then
             let! renewed := vcatch (let! lease := renew (vs_token current) in vret (Some lease)) (fun _ => vret None) in
             match renewed with
             | Some lease =>
                 let! n := vnow in
                 let! _ := set_session (session_of (vs_token current) lease n) 0 1 in
                 vret (vs_token current)
             | None => login_again
             end
           else vret (vs_token current)) w
    | _, _ => login_again w
    end.

(** What the reply to a read says; [Ok None] for a refused token. *)
Definition kv_reply (l : SecretLocator) (rp : VaultReply) : result (option FetchedSecret) SecretSourceError :=
  let unavailable detail := SsUnavailable (locator_display l) detail in
  match rp with
  | ReplyError t c b d => Err (unavailable (redacted_transport_error t c b d))
  | ReplyHead status len body =>
      if (status =? 200)%N then
        let? decoded := map_err unavailable (read_json kv_json len body) in
        match decoded with
        | None => Err (unavailable "response has no data")
        | Some data =>
            match kv_data data with
            | None => Err (SsNotFound (locator_display l))
            | Some document =>
                match as_object document with
                | None => Err (SsMalformed (locator_display l) "KV data is not an object")
                | Some _ =>
                    match to_json document with
                    | None => Err (unavailable "response not json")
                    | Some text =>
                        Ok (Some {| fs_document := text;
                                    fs_version := match kv_version data with Some v => of_bytes (render_u64 v) | None => "unknown" end |})
                    end
                end
            end
        end
      else if (status =? 403)%N then Ok None
      else if (status =? 404)%N then Err (SsNotFound (locator_display l))
      else if (status =? 503)%N then Err (unavailable "sealed")
      else Err (unavailable (status_class status))
  end.

Definition kv_path (mount path : string) : string := (mount ++ "/data/" ++ path)%string.

Definition read_once (l : SecretLocator) (tok : string) : VM SecretSourceError (option FetchedSecret) :=
  let! target := vlift (split_target l) in
  let! rp := send (vault_request "GET" (kv_path (fst target) (snd target)) None (Some tok)) in
  vlift (kv_reply l rp).

(** *** A fetch and its turns

    The session is locked within [token] only, so concurrent fetches
    interleave between the turns of one. *)

Inductive FetchPhase :=
| FStart
| FRead (tok : string)
| FRefused
| FReread (tok : string)
| FDone (r : result FetchedSecret SecretSourceError).

Definition fetch_turn (l : SecretLocator) (ph : FetchPhase) (w : VaultWorld) : FetchPhase * VaultWorld :=
  let unavailable detail := SsUnavailable (locator_display l) detail in
  match ph with
  | FStart => match token false w with (Ok t, w') => (FRead t, w') | (Err e, w') => (FDone (Err (unavailable e)), w') end
  | FRead t =>
      match read_once l t w with
      | (Ok (Some fetched), w') => (FDone (Ok fetched), w')
      | (Ok None, w') => (FRefused, w')
      | (Err e, w') => (FDone (Err e), w')
      end
  | FRefused => match token true w with (Ok t, w') => (FReread t, w') | (Err e, w') => (FDone (Err (unavailable e)), w') end
  | FReread t =>
      match read_once l t w with
      | (Ok (Some fetched), w') => (FDone (Ok fetched), w')
      | (Ok None, w') => (FDone (Err (unavailable "forbidden")), w')
      | (Err e, w') => (FDone (Err e), w')
      end
  | FDone r => (FDone r, w)
  end.

(** [join_all] over the fetches of a resolution, and resolutions after it. *)
Record VaultSystem := { sy_world : VaultWorld; sy_fetches : list (SecretLocator * FetchPhase) }.

Inductive VaultStep := VStart (l : SecretLocator) | VTurn (i : nat).

Definition vault_apply (e : VaultStep) (s : VaultSystem) : VaultSystem :=
  match e with
  | VStart l => {| sy_world := sy_world s; sy_fetches := sy_fetches s ++ [(l, FStart)] |}
  | VTurn i =>
      match sy_fetches s !! i with
      | None => s
      | Some (l, ph) =>
          let '(ph', w) := fetch_turn l ph (sy_world s) in
          {| sy_world := w; sy_fetches := <[i := (l, ph')]> (sy_fetches s) |}
      end
  end.

Definition vault_run (es : list VaultStep) (s : VaultSystem) : VaultSystem := fold_left (fun s e => vault_apply e s) es s.

Definition vault_start : VaultSystem := {| sy_world := vault_new; sy_fetches := [] |}.

(** A fetch by itself: its turns to the end. *)
Definition vault_fetch (l : SecretLocator) (w : VaultWorld) : FetchPhase * VaultWorld :=
  Nat.iter 4 (fun pw => fetch_turn l (fst pw) (snd pw)) (FStart, w).

(** ** What is sent, and to whom *)

(** The last of the reads of a file so far. *)
Definition last_read (log : list VaultEvent) (path : string) (answer : FileAnswer) : Prop :=
  exists before after, log = before ++ EvFile path answer :: after /\ forall a, EvFile path a ∉ after.

Definition material_text (log : list VaultEvent) (m : Material) (t : string) : Prop :=
  match m with
  | Literal v => t = v
  | InFile path => exists answer, last_read log path answer /\ credential_text answer = Ok t
  end.

(** The login of the configured method, with the credential as last read. *)
Definition login_request (log : list VaultEvent) (rq : VaultRequest) : Prop :=
  match va_auth settings with
  | AuthToken _ => False
  | AuthAppRole mount role_id m => exists secret_id, material_text log m secret_id
      /\ rq = vault_request "POST" (login_path mount) (Some (approle_body role_id secret_id)) None
  | AuthKubernetes mount role path => exists jwt, material_text log (InFile path) jwt
      /\ rq = vault_request "POST" (login_path mount) (Some (kubernetes_body role jwt)) None
  end.

(** The client tokens the configured method has given so far: at some moment,
    the configured token as last read, or the one that answered a login. *)
Definition issued (log : list VaultEvent) (t : string) : Prop :=
  exists before after, log = before ++ after /\
  match va_auth settings with
  | AuthToken m => material_text before m t
  | _ => exists rq rp rest lease, after = EvSent rq rp :: rest /\ login_request before rq /\ login_reply rp = Ok (t, lease)
  end.

(** The lookup a configured token begins with, the token as last read. *)
Definition lookup_request (log : list VaultEvent) (rq : VaultRequest) : Prop :=
  exists m t, va_auth settings = AuthToken m /\ material_text log m t
    /\ rq = vault_request "GET" "auth/token/lookup-self" None (Some t).

Definition read_request (l : SecretLocator) (t : string) (rq : VaultRequest) : Prop :=
  exists mount path, split_target l = Ok (mount, path) /\ rq = vault_request "GET" (kv_path mount path) None (Some t).

Definition permitted (log : list VaultEvent) (rq : VaultRequest) : Prop :=
  login_request log rq
  \/ lookup_request log rq
  \/ exists t, issued log t
     /\ (rq = vault_request "POST" "auth/token/renew-self" (Some (VObject [])) (Some t)
         \/ exists l, read_request l t rq).

Definition guarded (log : list VaultEvent) : Prop :=
  forall pre rq rp post, log = pre ++ EvSent rq rp :: post -> permitted pre rq.

Lemma issued_mono log log' t : log `prefix_of` log' -> issued log t -> issued log' t.
Proof.
  intros [more ->] (before & after & -> & Hi). exists before, (after ++ more). split; [by rewrite app_assoc|].
  destruct (va_auth settings) as [m|mount role m|mount role path]; [done|..];
    destruct Hi as (rq & rp & rest & lease & -> & Hq & Hr); by exists rq, rp, (rest ++ more), lease.
Qed.

Lemma read_last log path answer : last_read (log ++ [EvFile path answer]) path answer.
Proof. exists log, []. split; [done|]. intros a Ha. inversion Ha. Qed.

Lemma guarded_snoc log ev : guarded log -> match ev with EvSent rq _ => permitted log rq | _ => True end -> guarded (log ++ [ev]).
Proof.
  intros Hg Hev pre rq rp post He. destruct post as [|e post _] using rev_ind.
  - apply app_inj_tail in He as [-> ->]. done.
  - rewrite app_comm_cons, app_assoc in He. apply app_inj_tail in He as [-> _]. by eapply Hg.
Qed.

Record WOK (w : VaultWorld) : Prop := {
  wok_guarded : guarded (vw_log w);
  wok_issued s : vw_session w = Some s -> issued (vw_log w) (vs_token s);
}.

(** Running [m] keeps the world sound and only adds to the log, and what it
    returns satisfies [Q] with the log it ends with. *)
Definition sound_run {E A} (m : VM E A) (w : VaultWorld) (Q : A -> list VaultEvent -> Prop) : Prop :=
  let '(r, w') := m w in
  WOK w' /\ vw_log w `prefix_of` vw_log w' /\ match r with Ok a => Q a (vw_log w') | Err _ => True end.

Lemma keeps_ret {E A} (a : A) w Q : WOK w -> Q a (vw_log w) -> sound_run (vret (E := E) a) w Q.
Proof. by intros. Qed.

Lemma keeps_lift {E A} (r : result A E) w (Q : A -> list VaultEvent -> Prop) : WOK w -> (forall a, r = Ok a -> Q a (vw_log w)) -> sound_run (vlift r) w Q.
Proof. intros Hw Hq. split_and!; [done..|]. destruct r; by auto. Qed.

Lemma keeps_bind {E A B} (m : VM E A) (k : A -> VM E B) w Q R :
  sound_run m w Q -> (forall a w', WOK w' -> vw_log w `prefix_of` vw_log w' -> Q a (vw_log w') -> sound_run (k a) w' R) -> sound_run (vbind m k) w R.
Proof.
  unfold sound_run, vbind. destruct (m w) as [[a|e] w']; [|naive_solver]. intros (Hw & Hl & Hq) Hk.
  specialize (Hk a w' Hw Hl Hq). destruct (k a w') as [r w'']. destruct Hk as (H1 & H2 & H3). split_and!; [done| |done]. by etrans.
Qed.

Lemma keeps_catch {E F A} (m : VM E A) (h : E -> VM F A) w Q :
  sound_run m w Q -> (forall e w', WOK w' -> vw_log w `prefix_of` vw_log w' -> sound_run (h e) w' Q) -> sound_run (vcatch m h) w Q.
Proof.
  unfold sound_run, vcatch. destruct (m w) as [[a|e] w']; [naive_solver|]. intros (Hw & Hl & _) Hk.
  specialize (Hk e w' Hw Hl). destruct (h e w') as [r w'']. destruct Hk as (H1 & H2 & H3). split_and!; [done| |done]. by etrans.
Qed.

Lemma keeps_err {E F A} (f : E -> F) (m : VM E A) w Q : sound_run m w Q -> sound_run (vmap_err f m) w Q.
Proof. intros Hm. apply keeps_catch; [done|]. by intros. Qed.

Lemma wok_log w ev : WOK w -> match ev with EvSent rq _ => permitted (vw_log w) rq | _ => True end -> WOK (vlog ev w).
Proof.
  intros [Hg Hs] Hev. split; cbn; [by apply guarded_snoc|]. intros s Es. eapply issued_mono; [|by eauto]. by apply prefix_app_r.
Qed.

Lemma keeps_send {E} rq w : WOK w -> permitted (vw_log w) rq -> sound_run (E := E) (send rq) w (fun rp log => log = vw_log w ++ [EvSent rq rp]).
Proof. intros Hw Hp. unfold sound_run, send. split_and!; [by apply wok_log|by apply prefix_app_r|done]. Qed.

Lemma keeps_now {E} w : WOK w -> sound_run (E := E) vnow w (fun _ _ => True).
Proof. intros Hw. unfold sound_run, vnow. split_and!; [by apply wok_log|by apply prefix_app_r|done]. Qed.

Lemma keeps_file {E} path w : WOK w -> sound_run (E := E) (vread path) w (fun a log => last_read log path a).
Proof. intros Hw. unfold sound_run, vread. split_and!; [by apply wok_log|by apply prefix_app_r|apply read_last]. Qed.

Lemma keeps_credential path w : WOK w -> sound_run (read_credential_file path) w (fun t log => material_text log (InFile path) t).
Proof.
  intros Hw. eapply keeps_bind; [by apply keeps_file|]. intros a w' Hw' _ Ha. apply keeps_lift; [done|]. intros t Ht. by exists a.
Qed.

Lemma keeps_material m w : WOK w -> sound_run (material_read m) w (fun t log => material_text log m t).
Proof. intros Hw. destruct m as [v|path]; [by apply keeps_ret|by apply keeps_credential]. Qed.

(** What a session in force knows of its lease: none, or one that the clock
    of this call found running. *)
Lemma keeps_login_with path body w :
  WOK w -> login_request (vw_log w) (vault_request "POST" path (Some body) None) ->
  (forall m, va_auth settings <> AuthToken m) ->
  sound_run (login_with path body) w (fun s log => issued log (vs_token s)).
Proof.
  intros Hw Hq Hauth. eapply keeps_bind; [by apply keeps_send; [|left]|]. intros rp w1 Hw1 L1 Hrp.
  eapply keeps_bind with (Q := fun g log => issued log (fst g)).
  { apply keeps_lift; [done|]. intros [t lease] Hr. cbn. eexists _, _. split; [exact Hrp|].
    destruct (va_auth settings) as [m| |] eqn:Ha; [by destruct (Hauth m)|by eexists _, _, _, _..]. }
  intros g w2 Hw2 L2 Hg. eapply keeps_bind; [by apply keeps_now|]. intros n w3 Hw3 L3 _. apply keeps_ret; [done|]. by eapply issued_mono.
Qed.

Lemma keeps_login w : WOK w -> sound_run login w (fun s log => issued log (vs_token s)).
Proof.
  intros Hw. unfold login. destruct (va_auth settings) as [m|mount role m|mount role path] eqn:Ha.
  - eapply keeps_bind; [by apply keeps_material|]. intros t w1 Hw1 L1 Ht.
    assert (Hi : issued (vw_log w1) t) by (exists (vw_log w1), []; rewrite app_nil_r, Ha; done).
    eapply keeps_bind with (Q := fun _ _ => True).
    { apply keeps_catch; [|by intros; apply keeps_ret]. eapply keeps_bind; [apply keeps_send; [done|right; left; by exists m, t]|].
      intros rp w2 Hw2 L2 _. by apply keeps_lift. }
    intros lease w2 Hw2 L2 _. eapply keeps_bind; [by apply keeps_now|]. intros n w3 Hw3 L3 _. apply keeps_ret; [done|].
    eapply issued_mono; [|exact Hi]. by etrans.
  - eapply keeps_bind; [by apply keeps_material|]. intros t w1 Hw1 L1 Ht. apply keeps_login_with; [done| |by rewrite Ha].
    unfold login_request. rewrite Ha. by exists t.
  - eapply keeps_bind; [by apply keeps_err, keeps_credential|]. intros t w1 Hw1 L1 Ht. apply keeps_login_with; [done| |by rewrite Ha].
    unfold login_request. rewrite Ha. by exists t.
Qed.

Lemma keeps_set s a b w : WOK w -> issued (vw_log w) (vs_token s) -> sound_run (set_session s a b) w (fun _ log => issued log (vs_token s)).
Proof. intros [Hg Hs] Hi. split_and!; cbn; [|done..]. split; cbn; [done|]. by intros ? [= <-]. Qed.

Lemma keeps_login_again w : WOK w -> sound_run login_again w (fun t log => issued log t).
Proof.
  intros Hw. eapply keeps_bind; [by apply keeps_login|]. intros s w1 Hw1 L1 Hs. eapply keeps_bind; [by apply keeps_set|].
  intros u w2 Hw2 L2 H2. by apply keeps_ret.
Qed.

Lemma keeps_expired s w : WOK w -> sound_run (expired s) w (fun _ _ => True).
Proof.
  intros Hw. unfold expired. destruct (vs_ttl s); [|by apply keeps_ret]. eapply keeps_bind; [by apply keeps_now|]. intros. by apply keeps_ret.
Qed.

Lemma keeps_due s w : WOK w -> sound_run (due_for_renewal s) w (fun _ _ => True).
Proof.
  intros Hw. unfold due_for_renewal. destruct (vs_renewable s); [|by apply keeps_ret]. destruct (vs_ttl s); [|by apply keeps_ret].
  eapply keeps_bind; [by apply keeps_now|]. intros. by apply keeps_ret.
Qed.

Lemma keeps_token force w : WOK w -> sound_run (token force) w (fun t log => issued log t).
Proof.
  intros Hw. unfold token. destruct force; [by apply keeps_login_again|]. unfold sound_run. destruct (vw_session w) as [s|] eqn:Es; [|by apply keeps_login_again].
  pose proof (wok_issued w Hw s Es) as Hs. fold (sound_run (A := string) (E := string)).
  match goal with |- let '(r, w') := ?m w in _ => change (sound_run m w (fun t log => issued log t)) end.
  eapply keeps_bind; [by apply keeps_expired|]. intros over w1 Hw1 L1 _. destruct over; [by apply keeps_login_again|].
  eapply keeps_bind; [by apply keeps_due|]. intros due w2 Hw2 L2 _.
  assert (H2 : issued (vw_log w2) (vs_token s)) by (eapply issued_mono; [|exact Hs]; by etrans).
  destruct due; [|by apply keeps_ret]. eapply keeps_bind with (Q := fun _ _ => True).
  { apply keeps_catch; [|by intros; apply keeps_ret]. eapply keeps_bind with (Q := fun _ _ => True); [|by intros; apply keeps_ret].
    eapply keeps_bind; [apply keeps_send; [done|right; right; eauto]|]. intros rp w3 Hw3 L3 _. by apply keeps_lift. }
  intros [lease|] w3 Hw3 L3 _; [|by apply keeps_login_again].
  eapply keeps_bind; [by apply keeps_now|]. intros n w4 Hw4 L4 _.
  assert (H4 : issued (vw_log w4) (vs_token s)) by (eapply issued_mono; [|exact H2]; by etrans).
  eapply keeps_bind; [by apply keeps_set|]. intros u w5 Hw5 L5 H5. by apply keeps_ret.
Qed.

(** A read leaves its reply on record. *)
Definition answered (log : list VaultEvent) (l : SecretLocator) (r : result (option FetchedSecret) SecretSourceError) : Prop :=
  exists t rq rp, EvSent rq rp ∈ log /\ read_request l t rq /\ kv_reply l rp = r.

Lemma answered_mono log log' l r : log `prefix_of` log' -> answered log l r -> answered log' l r.
Proof. intros [more ->] (t & rq & rp & H1 & H2 & H3). exists t, rq, rp. split_and!; [apply elem_of_app; by left|done..]. Qed.

Lemma read_once_spec l t w : WOK w -> issued (vw_log w) t ->
  let '(r, w') := read_once l t w in
  WOK w' /\ vw_log w `prefix_of` vw_log w' /\ (answered (vw_log w') l r \/ (exists e, split_target l = Err e /\ r = Err e)).
Proof.
  intros Hw Hi. unfold read_once, vbind, vlift. destruct (split_target l) as [[mount path]|e] eqn:Ht; [|split_and!; [done..|by right; eauto]].
  set (rq := vault_request _ _ _ _). assert (Hr : read_request l t rq) by (by exists mount, path).
  assert (Hp : permitted (vw_log w) rq) by (right; right; exists t; split; [done|]; right; by exists l).
  pose proof (keeps_send (E := SecretSourceError) rq w Hw Hp) as Hk. unfold sound_run, send in *.
  destruct Hk as (H1 & H2 & H3). split_and!; [done..|]. left. exists t, rq, (net (length (vw_log w)) rq). split_and!; [cbn; set_solver|done..].
Qed.

(** ** Errors say nothing of the server's *)

(** The details an error may carry. *)
Definition DETAILS : list string :=
  ["timeout"; "connection failed"; "body error"; "request error"; "http 4xx"; "http 5xx"; "http error status";
   "response too large"; "response not json"; "login refused"; "sealed"; "login response has no auth"; "login response has no token";
   "credential file unreadable"; "credential file not UTF-8"; "credential file empty"; "service-account token unreadable";
   "response has no data"; "forbidden"].

Definition fixed_errors {A} (m : VM string A) : Prop := forall w e, fst (m w) = Err e -> e ∈ DETAILS.

Ltac fixed_detail := unfold DETAILS; repeat first [apply list_elem_of_here | apply list_elem_of_further].

Lemma transport_detail t c b d : redacted_transport_error t c b d ∈ DETAILS.
Proof. unfold redacted_transport_error. destruct t, c, b, d; cbn [orb]; fixed_detail. Qed.
Lemma status_detail s : status_class s ∈ DETAILS.
Proof. unfold status_class. destruct (_ && _); [|destruct (_ && _)]; fixed_detail. Qed.
Lemma read_json_detail {A} (decode : list byte -> option A) len body e : read_json decode len body = Err e -> e ∈ DETAILS.
Proof. unfold read_json. repeat case_match; intros [= <-]; fixed_detail. Qed.
Lemma credential_detail a e : credential_text a = Err e -> e ∈ DETAILS.
Proof. unfold credential_text. repeat case_match; intros [= <-]; fixed_detail. Qed.

Lemma login_detail rp e : login_reply rp = Err e -> e ∈ DETAILS.
Proof.
  unfold login_reply. destruct rp as [t c b d|status len body]; [intros [= <-]; apply transport_detail|].
  destruct (negb _).
  - intros [= <-]. destruct (_ || _); [fixed_detail|]. destruct (_ =? _)%N; [fixed_detail|apply status_detail].
  - destruct (read_json login_json len body) as [decoded|e'] eqn:Hd; [|intros [= <-]; by eapply read_json_detail].
    repeat case_match; intros [= <-]; fixed_detail.
Qed.

Lemma fixed_bind {A B} (m : VM string A) (k : A -> VM string B) : fixed_errors m -> (forall a, fixed_errors (k a)) -> fixed_errors (vbind m k).
Proof.
  intros Hm Hk w e. unfold vbind. specialize (Hm w). destruct (m w) as [[a|e'] w']; [apply Hk|]. intros [= <-]. by apply Hm.
Qed.
Lemma fixed_lift {A} (r : result A string) : (forall e, r = Err e -> e ∈ DETAILS) -> fixed_errors (vlift r).
Proof. intros Hr w e. apply Hr. Qed.
Lemma fixed_ret {A} (a : A) : fixed_errors (vret a).
Proof. by intros w e. Qed.
Lemma fixed_send rq : fixed_errors (send rq).
Proof. by intros w e. Qed.
Lemma fixed_now : fixed_errors vnow.
Proof. by intros w e. Qed.
Lemma fixed_set s a b : fixed_errors (set_session s a b).
Proof. by intros w e. Qed.
Lemma fixed_credential path : fixed_errors (read_credential_file path).
Proof. apply fixed_bind; [by intros w e|]. intros a. apply fixed_lift, credential_detail. Qed.
Lemma fixed_material m : fixed_errors (material_read m).
Proof. destruct m; [apply fixed_ret|apply fixed_credential]. Qed.
Lemma fixed_login_with path body : fixed_errors (login_with path body).
Proof.
  apply fixed_bind; [apply fixed_send|]. intros rp. apply fixed_bind; [apply fixed_lift, login_detail|]. intros g.
  apply fixed_bind; [apply fixed_now|]. intros. apply fixed_ret.
Qed.
Lemma fixed_catch {E A} (m : VM E A) (h : E -> VM string A) : (forall e, fixed_errors (h e)) -> fixed_errors (vcatch m h).
Proof. intros Hh w e. unfold vcatch. destruct (m w) as [[a|e'] w']; [done|]. apply Hh. Qed.
#[local] Hint Resolve fixed_bind fixed_ret fixed_send fixed_now fixed_set fixed_material fixed_login_with fixed_catch : core.

Lemma fixed_login : fixed_errors login.
Proof.
  unfold login. destruct (va_auth settings); [auto 10..|]. apply fixed_bind; [|auto]. apply fixed_catch. intros _ w e [= <-]. fixed_detail.
Qed.

Lemma fixed_login_again : fixed_errors login_again.
Proof. apply fixed_bind; [apply fixed_login|auto]. Qed.

Lemma fixed_token force : fixed_errors (token force).
Proof.
  intros w. unfold token. destruct force; [apply fixed_login_again|]. destruct (vw_session w) as [s|]; [|apply fixed_login_again].
  apply fixed_bind; [unfold expired; destruct (vs_ttl s); auto|]. intros []; [apply fixed_login_again|].
  apply fixed_bind; [unfold due_for_renewal; destruct (vs_renewable s), (vs_ttl s); auto|]. intros []; [|auto].
  apply fixed_bind; [auto|]. intros [lease|]; [auto|apply fixed_login_again].
Qed.

(** The errors of a read name the locator and a fixed detail. *)
Definition plain_error (l : SecretLocator) (e : SecretSourceError) : Prop :=
  match e with
  | SsNotFound loc => loc = locator_display l
  | SsUnavailable loc detail => loc = locator_display l /\ detail ∈ DETAILS
  | SsMalformed loc detail => loc = locator_display l
      /\ detail ∈ ["KV data is not an object"; "expected vault://<mount>/<path>#<key>"]
  end.

Lemma kv_plain l rp e : kv_reply l rp = Err e -> plain_error l e.
Proof.
  unfold kv_reply. destruct rp as [t c b d|status len body]; [intros [= <-]; split; [done|apply transport_detail]|].
  destruct (status =? 200)%N.
  - destruct (read_json kv_json len body) as [decoded|e'] eqn:Hd; cbn [map_err]; [|intros [= <-]; split; [done|by eapply read_json_detail]].
    repeat case_match; try done; intros [= <-]; cbn; try done; (split; [done|]); [fixed_detail| |fixed_detail]; apply list_elem_of_here.
  - repeat case_match; try done; intros [= <-]; cbn; try done; (split; [done|]); [fixed_detail|apply status_detail].
Qed.

Lemma target_plain l e : split_target l = Err e -> plain_error l e.
Proof. unfold split_target. repeat case_match; try done; intros [= <-]; (split; [done|]); apply list_elem_of_further, list_elem_of_here. Qed.

(** ** Any interleaving of fetches *)

Definition phase_ok (log : list VaultEvent) (l : SecretLocator) (ph : FetchPhase) : Prop :=
  match ph with
  | FStart => True
  | FRead t | FReread t => issued log t
  | FRefused => answered log l (Ok None)
  | FDone (Ok fetched) => answered log l (Ok (Some fetched))
  | FDone (Err e) => plain_error l e /\ (e = SsNotFound (locator_display l) -> answered log l (Err e))
  end.

Lemma phase_mono log log' l ph : log `prefix_of` log' -> phase_ok log l ph -> phase_ok log' l ph.
Proof.
  intros Hl. destruct ph as [|t| |t|[d|e]]; cbn; eauto using issued_mono, answered_mono. intros [H1 H2]. eauto using answered_mono.
Qed.

Lemma token_turn l force w (next : string -> FetchPhase) :
  WOK w -> (forall t log, issued log t -> phase_ok log l (next t)) ->
  let '(ph', w') := match token force w with (Ok t, w') => (next t, w') | (Err e, w') => (FDone (Err (SsUnavailable (locator_display l) e)), w') end in
  WOK w' /\ vw_log w `prefix_of` vw_log w' /\ phase_ok (vw_log w') l ph'.
Proof.
  intros Hw Hn. pose proof (keeps_token force w Hw) as Hk. pose proof (fixed_token force w) as He. unfold sound_run in Hk.
  destruct (token force w) as [[t|e] w']; destruct Hk as (H1 & H2 & H3); (split; [done|]); (split; [done|]); [by apply Hn|].
  cbn. split; [|done]. by split; [|apply He].
Qed.

Lemma read_turn l t w refused :
  WOK w -> issued (vw_log w) t -> (forall log, answered log l (Ok None) -> phase_ok log l refused) ->
  let '(ph', w') := match read_once l t w with
                    | (Ok (Some fetched), w') => (FDone (Ok fetched), w')
                    | (Ok None, w') => (refused, w')
                    | (Err e, w') => (FDone (Err e), w')
                    end in
  WOK w' /\ vw_log w `prefix_of` vw_log w' /\ phase_ok (vw_log w') l ph'.
Proof.
  intros Hw Hi Hr. pose proof (read_once_spec l t w Hw Hi) as Hk. destruct (read_once l t w) as [r w']. destruct Hk as (H1 & H2 & H3).
  destruct r as [[d|]|e]; (split; [done|]); (split; [done|]); cbn.
  - by destruct H3 as [|(? & _ & ?)].
  - apply Hr. by destruct H3 as [|(? & _ & ?)].
  - destruct H3 as [(t' & rq & rp & Ha & Hq & Hk)|(e' & Ht & [= <-])].
    + split; [by eapply kv_plain|]. intros _. by exists t', rq, rp.
    + split; [by apply target_plain|]. intros ->. unfold split_target in Ht. by repeat case_match.
Qed.

Lemma fetch_turn_ok l ph w : WOK w -> phase_ok (vw_log w) l ph ->
  let '(ph', w') := fetch_turn l ph w in WOK w' /\ vw_log w `prefix_of` vw_log w' /\ phase_ok (vw_log w') l ph'.
Proof.
  intros Hw Hp. destruct ph as [|t| |t|r]; cbn [fetch_turn].
  - by apply (token_turn l false w FRead).
  - by apply (read_turn l t w FRefused).
  - by apply (token_turn l true w FReread).
  - apply (read_turn l t w); [done..|]. intros log Ha. cbn. split; [|done]. split; [done|]. fixed_detail.
  - done.
Qed.

Record SystemOK (s : VaultSystem) : Prop := {
  sys_world : WOK (sy_world s);
  sys_phases i l ph : sy_fetches s !! i = Some (l, ph) -> phase_ok (vw_log (sy_world s)) l ph;
}.

Lemma system_ok es s : SystemOK s -> SystemOK (vault_run es s).
Proof.
  revert s; induction es as [|e es IH]; intros s [Hw Hp]; [done|]. apply IH. destruct e as [l|i]; cbn [vault_apply].
  - split; cbn; [done|]. intros j l' ph. rewrite lookup_app. destruct (sy_fetches s !! j) eqn:Ej; [by intros [= ->]; eauto|].
    intros [_ [= <- <-]]%list_lookup_singleton_Some. done.
  - destruct (sy_fetches s !! i) as [[l ph]|] eqn:Ei; [|done]. pose proof (fetch_turn_ok l ph (sy_world s) Hw (Hp _ _ _ Ei)) as Hk.
    destruct (fetch_turn l ph (sy_world s)) as [ph' w']. destruct Hk as (H1 & H2 & H3). split; cbn; [done|]. intros j l' q.
    rewrite list_lookup_insert_Some. intros [(-> & [= <- <-] & _)|[_ Hj]]; [done|]. eauto using phase_mono.
Qed.

Lemma vault_start_ok : SystemOK vault_start.
Proof. split; [split|]; cbn; [|done|done]. intros pre rq rp post He. by destruct pre. Qed.

(** Membership of an event in a log that is appended to. *)
Ltac in_log := repeat first [rewrite elem_of_app | rewrite elem_of_cons]; tauto.

(** ** The lease of a token in use *)

(** [m] adds [evs] to the log. *)
Definition adds {E A} (m : VM E A) (w : VaultWorld) (Q : result A E -> VaultWorld -> list VaultEvent -> Prop) : Prop :=
  let '(r, w') := m w in exists evs, vw_log w' = vw_log w ++ evs /\ Q r w' evs.

Lemma adds_bind {E A B} (m : VM E A) (k : A -> VM E B) w (Q : result B E -> VaultWorld -> list VaultEvent -> Prop) :
  adds m w (fun r w1 evs1 => match r with
                             | Ok a => adds (k a) w1 (fun r' w2 evs2 => Q r' w2 (evs1 ++ evs2))
                             | Err e => Q (Err e) w1 evs1
                             end) -> adds (vbind m k) w Q.
Proof.
  unfold adds, vbind. destruct (m w) as [[a|e] w1]; intros (evs1 & H1 & HQ); [|by exists evs1].
  destruct (k a w1) as [r w2]. destruct HQ as (evs2 & H2 & HQ). exists (evs1 ++ evs2). by rewrite H2, H1, app_assoc.
Qed.

Lemma adds_catch {E F A} (m : VM E A) (h : E -> VM F A) w (Q : result A F -> VaultWorld -> list VaultEvent -> Prop) :
  adds m w (fun r w1 evs1 => match r with
                             | Err e => adds (h e) w1 (fun r' w2 evs2 => Q r' w2 (evs1 ++ evs2))
                             | Ok a => Q (Ok a) w1 evs1
                             end) -> adds (vcatch m h) w Q.
Proof.
  unfold adds, vcatch. destruct (m w) as [[a|e] w1]; intros (evs1 & H1 & HQ); [by exists evs1|].
  destruct (h e w1) as [r w2]. destruct HQ as (evs2 & H2 & HQ). exists (evs1 ++ evs2). by rewrite H2, H1, app_assoc.
Qed.

Lemma adds_mono {E A} (m : VM E A) w Q R : adds m w Q -> (forall r w' evs, Q r w' evs -> R r w' evs) -> adds m w R.
Proof. unfold adds. destruct (m w) as [r w']. naive_solver. Qed.

Definition sends (evs : list VaultEvent) : nat := length (List.filter (fun ev => match ev with EvSent _ _ => true | _ => false end) evs).

Lemma sent_app a b : sends (a ++ b) = sends a + sends b.
Proof. unfold sends. by rewrite List.filter_app, length_app. Qed.

(** The lease runs: none, or the clock was read and had not reached its end. *)
Definition in_lease (evs : list VaultEvent) (s : VaultSession) : Prop :=
  match vs_ttl s with None => True | Some ttl => exists n, EvClock n ∈ evs /\ (n - vs_obtained_at s < ttl)%N end.

(** What every part of [token] leaves alone until a session is set. *)
Definition same_session (w w' : VaultWorld) : Prop := vw_session w' = vw_session w /\ vw_logins w' = vw_logins w.

Lemma adds_ret {E A} (a : A) w Q : Q (Ok a) w [] -> adds (E := E) (vret a) w Q.
Proof. intros HQ. exists []. by rewrite app_nil_r. Qed.

Lemma adds_lift {E A} (r : result A E) w Q : Q r w [] -> adds (vlift r) w Q.
Proof. intros HQ. exists []. by rewrite app_nil_r. Qed.

Lemma adds_now {E} w (Q : result N E -> VaultWorld -> list VaultEvent -> Prop) :
  (forall n w', same_session w w' -> Q (Ok n) w' [EvClock n]) -> adds vnow w Q.
Proof. intros HQ. eexists. split; [done|]. by apply HQ. Qed.

Lemma adds_send {E} rq w (Q : result VaultReply E -> VaultWorld -> list VaultEvent -> Prop) :
  (forall rp w', same_session w w' -> Q (Ok rp) w' [EvSent rq rp]) -> adds (send rq) w Q.
Proof. intros HQ. eexists. split; [done|]. by apply HQ. Qed.

Lemma same_trans w1 w2 w3 : same_session w1 w2 -> same_session w2 w3 -> same_session w1 w3.
Proof. unfold same_session. naive_solver congruence. Qed.

Lemma adds_material m w (Q : result string string -> VaultWorld -> list VaultEvent -> Prop) :
  (forall r w' evs, same_session w w' -> sends evs = 0 -> Q r w' evs) -> adds (material_read m) w Q.
Proof.
  intros HQ. destruct m as [v|path]; cbn [material_read]; [apply adds_ret; by apply HQ|].
  apply adds_bind. eexists. split; [done|]. apply adds_lift. by apply HQ.
Qed.

Lemma lease_positive seconds ttl : lease_duration seconds = Some ttl -> (0 < ttl)%N.
Proof. unfold lease_duration, NANOS_PER_SEC. destruct seconds as [s|]; [|done]. destruct (N.ltb_spec 0 s); [|done]. intros [= <-]. lia. Qed.

(** A lease that the server granted, not an empty one. *)
Definition lease_ok (lease : Lease) : Prop := forall ttl, ls_ttl lease = Some ttl -> (0 < ttl)%N.

Lemma fresh_in_lease t lease n evs : lease_ok lease -> EvClock n ∈ evs -> in_lease evs (session_of t lease n).
Proof.
  intros Hl Hn. unfold in_lease. cbn. destruct (ls_ttl lease) as [ttl|] eqn:Ht; [|done]. exists n. split; [done|]. specialize (Hl ttl Ht). lia.
Qed.

Lemma login_reply_lease rp t lease : login_reply rp = Ok (t, lease) -> lease_ok lease.
Proof. unfold login_reply. repeat case_match; try done; intros [= <- <-] ttl; apply lease_positive. Qed.
Lemma renew_reply_lease rp lease : renew_reply rp = Ok lease -> lease_ok lease.
Proof. unfold renew_reply. repeat case_match; try done; intros [= <-] ttl; apply lease_positive. Qed.
Lemma lookup_reply_lease rp lease : lookup_reply rp = Ok lease -> lease_ok lease.
Proof. unfold lookup_reply. repeat case_match; try done; intros [= <-] ttl; apply lease_positive. Qed.

(** A login: at most one request, and a session whose lease runs. *)
Definition logged_in (w : VaultWorld) (r : result VaultSession string) (w' : VaultWorld) (evs : list VaultEvent) : Prop :=
  same_session w w' /\ (sends evs <= 1)%nat /\ forall s, r = Ok s -> sends evs = 1 /\ in_lease evs s.

Lemma login_with_adds path body w : adds (login_with path body) w (logged_in w).
Proof.
  clear kv_json to_json. apply adds_bind, adds_send. intros rp w1 S1. apply adds_bind, adds_lift. destruct (login_reply rp) as [[t lease]|e] eqn:Hr; [|by split_and!].
  apply adds_bind, adds_now. intros n w2 S2. apply adds_ret. cbn. split_and!; [by eapply same_trans|done|]. intros s [= <-]. split; [done|].
  apply fresh_in_lease; [by eapply login_reply_lease|]. in_log.
Qed.

Lemma logged_in_after w w1 evs0 r w' evs : same_session w w1 -> sends evs0 = 0 -> logged_in w1 r w' evs -> logged_in w r w' (evs0 ++ evs).
Proof.
  intros S0 H0 (S1 & H1 & H2). split_and!; [by eapply same_trans|rewrite sent_app; lia|]. intros s Hs. destruct (H2 s Hs) as [H3 H4].
  split; [rewrite sent_app; lia|]. unfold in_lease in *. destruct (vs_ttl s) as [ttl|]; [|done]. destruct H4 as (n & Hn & Hlt). exists n. split; [in_log|done].
Qed.

Lemma login_adds w : adds login w (logged_in w).
Proof.
  unfold login. destruct (va_auth settings) as [m|mount role m|mount role path].
  - apply adds_bind, adds_material. intros [t|e] w1 evs1 S1 H1; [|split_and!; [done|lia|done]].
    apply adds_bind, adds_catch, adds_bind, adds_send. intros rp w2 S2. apply adds_lift.
    assert (Hfin : forall lease w3 evs, same_session w2 w3 -> lease_ok lease -> sends evs = 1 ->
      adds (let! n := vnow in vret (session_of t lease n)) w3 (fun r w' evs' => logged_in w r w' (evs1 ++ evs ++ evs'))).
    { intros lease w3 evs S3 Hl He. apply adds_bind, adds_now. intros n w4 S4. apply adds_ret. unfold logged_in.
      rewrite !sent_app, H1, He. split_and!; [by eauto using same_trans|done|]. intros s [= <-]. split; [done|]. apply fresh_in_lease; [done|]. in_log. }
    destruct (lookup_reply rp) as [lease|e] eqn:Hr.
    + apply (Hfin lease w2 ([EvSent _ rp] ++ [])); [done|by eapply lookup_reply_lease|done].
    + apply adds_ret. by apply (Hfin {| ls_ttl := None; ls_renewable := false |} w2 ([EvSent _ rp] ++ [] ++ [])).
  - apply adds_bind, adds_material. intros [t|e] w1 evs1 S1 H1; [|split_and!; [done|lia|done]].
    eapply adds_mono; [apply login_with_adds|]. intros r w' evs. by apply logged_in_after.
  - apply adds_bind, adds_catch. apply (adds_material (InFile path)). intros [t|e] w1 evs1 S1 H1.
    + eapply adds_mono; [apply login_with_adds|]. intros r w' evs. by apply logged_in_after.
    + exists []. rewrite app_nil_r. split; [done|]. rewrite app_nil_r. split_and!; [done|lia|done].
Qed.

(** A handed-out token: the session in force carries it within its lease, and
    one that was not asked about is not due for renewal. *)
Definition handed_out (w : VaultWorld) (most : nat) (r : result string string) (w' : VaultWorld) (evs : list VaultEvent) : Prop :=
  (sends evs <= most)%nat /\ (vw_logins w' <= vw_logins w + 1)%N
  /\ match r with
     | Err _ => vw_session w' = vw_session w
     | Ok t => exists s, vw_session w' = Some s /\ vs_token s = t /\ in_lease evs s
               /\ (sends evs = 0 -> vw_session w = Some s /\
                   forall ttl due, vs_renewable s = true -> vs_ttl s = Some ttl -> renewal_due ttl = Some due ->
                     exists n, EvClock n ∈ evs /\ (n - vs_obtained_at s < due)%N)
     end.

Lemma in_lease_after evs0 evs s : in_lease evs s -> in_lease (evs0 ++ evs) s.
Proof. unfold in_lease. destruct (vs_ttl s) as [ttl|]; [|done]. intros (n & Hn & Hlt). exists n. split; [in_log|done]. Qed.

Lemma handed_after w w1 most most' evs0 r w' evs :
  same_session w w1 -> (sends evs0 + most <= most')%nat ->
  handed_out w1 most r w' evs /\ (sends evs = 0 -> exists e, r = Err e) -> handed_out w most' r w' (evs0 ++ evs).
Proof.
  intros [S1 S2] Hm [(H1 & H2 & H3) Hne]. split_and!; [rewrite sent_app; lia|lia|]. destruct r as [t|e]; [|by rewrite <- S1].
  destruct H3 as (s & E1 & E2 & E3 & E4). exists s. split_and!; [done..|by apply in_lease_after|]. rewrite sent_app. intros Hz.
  destruct Hne as [e [=]]. lia.
Qed.

Lemma expired_adds s w (Q : result bool string -> VaultWorld -> list VaultEvent -> Prop) :
  (forall over w' evs, same_session w w' -> sends evs = 0 -> (over = false -> in_lease evs s) -> Q (Ok over) w' evs) -> adds (expired s) w Q.
Proof.
  intros HQ. unfold expired. destruct (vs_ttl s) as [ttl|] eqn:Ht.
  - apply adds_bind, adds_now. intros n w' S. apply adds_ret. apply HQ; [done..|]. intros Ho. unfold in_lease. rewrite Ht.
    exists n. split; [in_log|]. by apply N.leb_gt in Ho.
  - apply adds_ret. apply HQ; [done..|]. intros _. unfold in_lease. by rewrite Ht.
Qed.

Lemma due_adds s w (Q : result bool string -> VaultWorld -> list VaultEvent -> Prop) :
  (forall due w' evs, same_session w w' -> sends evs = 0 ->
     (due = false -> forall ttl d, vs_renewable s = true -> vs_ttl s = Some ttl -> renewal_due ttl = Some d ->
        exists n, EvClock n ∈ evs /\ (n - vs_obtained_at s < d)%N) -> Q (Ok due) w' evs) -> adds (due_for_renewal s) w Q.
Proof.
  intros HQ. unfold due_for_renewal. destruct (vs_renewable s) eqn:Hr; [|by apply adds_ret, HQ].
  destruct (vs_ttl s) as [ttl|] eqn:Ht; [|by apply adds_ret, HQ]. apply adds_bind, adds_now. intros n w' S. apply adds_ret. apply HQ; [done..|].
  intros Hd ttl' d _ [= <-] E. rewrite E in Hd. exists n. split; [in_log|]. by apply N.leb_gt in Hd.
Qed.

Lemma login_again_adds w : adds login_again w (fun r w' evs => handed_out w 1 r w' evs /\ (sends evs = 0 -> exists e, r = Err e)).
Proof.
  apply adds_bind. eapply adds_mono; [apply login_adds|]. intros [s|e] w1 evs ([S1 S2] & H1 & H2).
  - apply adds_bind. exists []. rewrite app_nil_r. split; [done|]. apply adds_ret. rewrite !app_nil_r. destruct (H2 s eq_refl) as [H3 H4].
    split; [|lia]. split_and!; [done|cbn; rewrite S2; lia|]. exists s. split_and!; [done..|]. intros. lia.
  - split; [|by eauto]. split_and!; [done|rewrite S2; lia|done].
Qed.

(** At most one request for a forced login, two otherwise. *)
Lemma token_adds force w : adds (token force) w (handed_out w (if force then 1 else 2)).
Proof.
  assert (Hlogin : forall most w1 evs0, same_session w w1 -> (sends evs0 + 1 <= most)%nat ->
    adds login_again w1 (fun r w' evs => handed_out w most r w' (evs0 ++ evs))).
  { intros most w1 evs0 S1 Hm. eapply adds_mono; [apply login_again_adds|]. intros r w' evs. by apply handed_after. }
  unfold token. destruct force; [by apply (Hlogin 1 w [])|]. unfold adds. destruct (vw_session w) as [s|] eqn:Es; [|by apply (Hlogin 2 w []); [|cbn; lia]].
  match goal with |- let '(r, w') := ?m w in exists evs, _ = _ /\ ?Q => change (adds m w (handed_out w 2)) end.
  apply adds_bind, expired_adds. intros over w1 evs1 S1 N1 Hin. destruct over; [by apply Hlogin; [|lia]|].
  apply adds_bind, due_adds. intros due w2 evs2 S2 N2 Hdue. destruct due.
  - apply adds_bind, adds_catch, adds_bind, adds_bind, adds_send. intros rp w3 S3. apply adds_lift.
    assert (S13 : same_session w w3) by eauto using same_trans.
    generalize (vault_request "POST" "auth/token/renew-self" (Some (VObject [])) (Some (vs_token s))). intros rq.
    destruct (renew_reply rp) as [lease|e] eqn:Hr.
    + apply adds_ret, adds_bind, adds_now. intros n w4 S4. apply adds_bind. exists []. rewrite app_nil_r. split; [done|]. apply adds_ret.
      destruct S13 as [E1 E2], S4 as [E3 E4]. rewrite !app_nil_r. unfold handed_out. cbn. rewrite E4, E2. split_and!.
      * rewrite !sent_app, N1, N2. cbn. lia.
      * lia.
      * eexists. split; [done|]. split; [done|]. split; [apply fresh_in_lease; [by eapply renew_reply_lease|in_log]|].
        rewrite !sent_app, N1, N2. cbn. lia.
    + apply adds_ret. rewrite !app_nil_r. eapply adds_mono; [apply (Hlogin 2 w3 (evs1 ++ evs2 ++ [EvSent rq rp])); [done|]|].
      * rewrite !sent_app, N1, N2. cbn. lia.
      * intros r w' evs Hx. cbn beta in Hx. by rewrite <- !app_assoc in Hx.
  - apply adds_ret. rewrite app_nil_r. destruct S1 as [E1 E2], S2 as [E3 E4]. split_and!.
    + rewrite sent_app. lia.
    + rewrite E4, E2. lia.
    + exists s. rewrite E3, E1, Es. split_and!; [done..| |].
      * specialize (Hin eq_refl). unfold in_lease in *. destruct (vs_ttl s) as [ttl|]; [|done]. destruct Hin as (n & Hn & Hlt). exists n. split; [in_log|done].
      * intros _. split; [done|]. intros ttl d H1 H2 H3. destruct (Hdue eq_refl ttl d H1 H2 H3) as (n & Hn & Hlt). exists n. split; [in_log|done].
Qed.

Lemma read_adds l t w : adds (read_once l t) w (fun _ w' evs => same_session w w' /\ (sends evs <= 1)%nat).
Proof.
  apply adds_bind, adds_lift. destruct (split_target l) as [[mount path]|e]; [|by split; [|cbn; lia]].
  apply adds_bind, adds_send. intros rp w1 S1. apply adds_lift. done.
Qed.

(** ** How much a fetch may cost, and that it ends *)

Definition spent_requests (ph : FetchPhase) : nat := match ph with FStart => 0 | FRead _ => 2 | FRefused => 3 | FReread _ => 4 | FDone _ => 5 end.
Definition spent_logins (ph : FetchPhase) : nat := match ph with FStart => 0 | FRead _ | FRefused => 1 | FReread _ | FDone _ => 2 end.
Definition turns_left (ph : FetchPhase) : nat := match ph with FStart => 4 | FRead _ => 3 | FRefused => 2 | FReread _ => 1 | FDone _ => 0 end.

Lemma fetch_turn_cost l ph w :
  let '(ph', w') := fetch_turn l ph w in
  (turns_left ph' <= pred (turns_left ph))%nat
  /\ (sends (vw_log w') + spent_requests ph <= sends (vw_log w) + spent_requests ph')%nat
  /\ (vw_logins w' + N.of_nat (spent_logins ph) <= vw_logins w + N.of_nat (spent_logins ph'))%N.
Proof.
  destruct ph as [|t| |t|r]; cbn [fetch_turn].
  - pose proof (token_adds false w) as Hk. unfold adds in Hk. destruct (token false w) as [[t|e] w']; destruct Hk as (evs & -> & H1 & H2 & _);
      rewrite sent_app; cbn; split_and!; lia.
  - pose proof (read_adds l t w) as Hk. unfold adds in Hk. destruct (read_once l t w) as [[[d|]|e] w']; destruct Hk as (evs & -> & [_ H1] & H2);
      rewrite sent_app, H1; cbn; split_and!; lia.
  - pose proof (token_adds true w) as Hk. unfold adds in Hk. destruct (token true w) as [[t|e] w']; destruct Hk as (evs & -> & H1 & H2 & _);
      rewrite sent_app; cbn; split_and!; lia.
  - pose proof (read_adds l t w) as Hk. unfold adds in Hk. destruct (read_once l t w) as [[[d|]|e] w']; destruct Hk as (evs & -> & [_ H1] & H2);
      rewrite sent_app, H1; cbn; split_and!; lia.
  - cbn. split_and!; lia.
Qed.

Definition total (f : FetchPhase -> nat) (fs : list (SecretLocator * FetchPhase)) : nat := sum_list_with (fun p => f p.2) fs.

Lemma total_insert f fs i l ph ph' : fs !! i = Some (l, ph) -> total f (<[i := (l, ph')]> fs) + f ph = total f fs + f ph'.
Proof.
  intros Hi. rewrite <- (take_drop_middle fs i (l, ph) Hi) at 2. rewrite insert_take_drop by (by eapply lookup_lt_Some).
  unfold total. rewrite !sum_list_with_app. cbn. lia.
Qed.

Lemma total_most f k fs : (forall ph, f ph <= k)%nat -> (total f fs <= k * length fs)%nat.
Proof. intros Hf. unfold total. induction fs as [|[l ph] fs IH]; cbn; [lia|]. specialize (Hf ph). lia. Qed.

(** The requests and logins so far are covered by the phases of the fetches. *)
Definition covered (s : VaultSystem) : Prop :=
  (sends (vw_log (sy_world s)) <= total spent_requests (sy_fetches s))%nat
  /\ (vw_logins (sy_world s) <= N.of_nat (total spent_logins (sy_fetches s)))%N.

Lemma covered_apply e s : covered s -> covered (vault_apply e s).
Proof.
  intros [H1 H2]. destruct e as [l|i]; cbn [vault_apply].
  - unfold covered, total in *. cbn [sy_world sy_fetches]. rewrite !sum_list_with_app. lia.
  - destruct (sy_fetches s !! i) as [[l ph]|] eqn:Ei; [|done]. pose proof (fetch_turn_cost l ph (sy_world s)) as Hk.
    destruct (fetch_turn l ph (sy_world s)) as [ph' w']. destruct Hk as (K1 & K2 & K3). unfold covered. cbn [sy_world sy_fetches].
    pose proof (total_insert spent_requests _ i l ph ph' Ei). pose proof (total_insert spent_logins _ i l ph ph' Ei). lia.
Qed.

Lemma run_cost es s : covered s -> covered (vault_run es s).
Proof. revert s; induction es as [|e es IH]; intros s Hs; [done|]. by apply IH, covered_apply. Qed.

Definition turns_of (i : nat) (es : list VaultStep) : nat := length (List.filter (fun e => match e with VTurn j => Nat.eqb j i | _ => false end) es).

Lemma run_turns i l es s ph : sy_fetches s !! i = Some (l, ph) ->
  exists ph', sy_fetches (vault_run es s) !! i = Some (l, ph') /\ (turns_left ph' <= turns_left ph - turns_of i es)%nat.
Proof.
  revert s ph; induction es as [|e es IH]; intros s ph Hi; [exists ph; cbn; split; [done|lia]|].
  assert (Hstep : exists ph1, sy_fetches (vault_apply e s) !! i = Some (l, ph1) /\ (turns_left ph1 + turns_of i [e] <= Nat.max (turns_left ph) (turns_of i [e]))%nat).
  { destruct e as [l'|j]; cbn [vault_apply].
    - exists ph. cbn. split; [by apply lookup_app_l_Some|lia].
    - destruct (sy_fetches s !! j) as [[l' q]|] eqn:Ej.
      + pose proof (fetch_turn_cost l' q (sy_world s)) as Hk. destruct (fetch_turn l' q (sy_world s)) as [q' w']. destruct Hk as (K1 & _ & _). cbn.
        destruct (Nat.eqb_spec j i) as [->|Hne].
        * rewrite Hi in Ej. injection Ej as <- <-. exists q'. rewrite list_lookup_insert_eq by (by eapply lookup_lt_Some). cbn. split; [done|lia].
        * exists ph. rewrite list_lookup_insert_ne by done. cbn. split; [done|lia].
      + exists ph. split; [done|]. unfold turns_of. cbn. destruct (Nat.eqb_spec j i) as [->|]; [congruence|]. cbn. lia. }
  destruct Hstep as (ph1 & H1 & H2). destruct (IH _ _ H1) as (ph2 & H3 & H4). exists ph2. split; [done|].
  assert (Hc : turns_of i (e :: es) = turns_of i [e] + turns_of i es) by (unfold turns_of; cbn; by destruct e; [|destruct (Nat.eqb _ _)]).
  assert (turns_of i [e] <= 1)%nat by (unfold turns_of; cbn; destruct e; [|destruct (Nat.eqb _ _)]; cbn; lia). lia.
Qed.

(** C29: However fetches interleave and whatever the server, the files and the
    clock answer, a fetch is over after four of its turns, the requests made
    are at most five a fetch and the logins at most two. *)
Theorem vault_fetches_end es :
  let s := vault_run es vault_start in
  (sends (vw_log (sy_world s)) <= 5 * length (sy_fetches s))%nat
  /\ (vw_logins (sy_world s) <= 2 * N.of_nat (length (sy_fetches s)))%N
  /\ forall i l ph es', sy_fetches s !! i = Some (l, ph) -> (4 <= turns_of i es')%nat ->
       exists r, sy_fetches (vault_run es' s) !! i = Some (l, FDone r).
Proof.
  cbn zeta. destruct (run_cost es vault_start ltac:(split; cbn; lia)) as [H1 H2]. set (s := vault_run es vault_start) in *.
  pose proof (total_most spent_requests 5 (sy_fetches s) ltac:(intros []; cbn; lia)).
  pose proof (total_most spent_logins 2 (sy_fetches s) ltac:(intros []; cbn; lia)). split_and!; [lia..|].
  intros i l ph es' Hi Hn. destruct (run_turns i l es' _ ph Hi) as (ph' & H3 & H4).
  assert (turns_left ph <= 4)%nat by (destruct ph; cbn; lia). destruct ph' as [|?| |?|r]; cbn in H4; [lia..|by exists r].
Qed.

(** A client token is handed out only within its lease: the session in force
    carries it, and where it has a lease this very call read the clock before
    the lease's end; a token handed out without asking the server is the one
    that was stored, and if it is renewable two thirds of its lease are not
    over yet. *)
Theorem vault_token_in_lease force w t w' (Htoken : token force w = (Ok t, w')) :
  exists s evs, vw_log w' = vw_log w ++ evs /\ vw_session w' = Some s /\ vs_token s = t /\ in_lease evs s
    /\ (sends evs = 0 -> vw_session w = Some s /\
        forall ttl due, vs_renewable s = true -> vs_ttl s = Some ttl -> renewal_due ttl = Some due ->
          exists n, EvClock n ∈ evs /\ (n - vs_obtained_at s < due)%N).
Proof.
  pose proof (token_adds force w) as Hk. unfold adds in Hk. rewrite Htoken in Hk. destruct Hk as (evs & He & _ & _ & s & H1 & H2 & H3 & H4).
  exists s, evs. split_and!; done.
Qed.

Lemma settings_facts `{UrlLib} (url_host : Url -> option UrlHost) c : vault_settings url_host c = Ok settings ->
  (exists u, url_parse (va_addr settings) = Some u /\ vault_channel url_host u = true)
  /\ (exists method, optional c AUTH_KEY = Some method /\ eq_ignore_ascii_case method (auth_method (va_auth settings)) = true).
Proof.
  unfold vault_settings. destruct (optional c ADDR_KEY) as [raw|]; [|done]. destruct (url_parse _) as [u|] eqn:Hu; [|done].
  destruct (vault_channel url_host u) eqn:Hc; [|done]. destruct (optional c AUTH_KEY) as [method|]; [|done]. cbn [negb].
  destruct (eq_ignore_ascii_case method "token") eqn:Ht; [|destruct (eq_ignore_ascii_case method "approle") eqn:Ha;
    [|destruct (eq_ignore_ascii_case method "kubernetes") eqn:Hk; [|done]]].
  all: unfold required, material_parse; repeat case_match; try done; simplify_eq; intros [= <-]; cbn; (split; [by exists u|by exists method]).
Qed.

Lemma permitted_shape log rq : permitted log rq -> vr_namespace rq = va_namespace settings /\ exists path, vr_url rq = vault_url path.
Proof.
  intros [Hl|[(m & t & _ & _ & ->)|(t & _ & [->|(l & mount & path & _ & ->)])]]; [|by eauto..]. unfold login_request in Hl.
  destruct (va_auth settings); [done|..]; destruct Hl as (x & _ & ->); eauto.
Qed.

(** C28: Every request the source makes (a redirect its HTTP client follows
    after that is the client's) is to a path under the configured address,
    which is https, or http on a loopback address or localhost, and carries
    the configured namespace.  It is one of four: the login of the configured
    method (approle or kubernetes) with the credential as last read; for the
    token method, the lookup of that token as last read; or a renewal or a
    read of some locator with a client token that method gave: the configured
    token as last read at some earlier moment, or the token in the answer to
    an earlier such login.  Whatever the interleaving, a fetch that succeeds
    returns a document some read of its locator was answered with, a locator
    is reported missing only on such an answer, and an error carries the
    locator and one of a fixed list of details. *)
Theorem vault_source_guarded (U : UrlLib) (url_host : Url -> option UrlHost) c (Hset : vault_settings url_host c = Ok settings) es :
  let s := vault_run es vault_start in
  let log := vw_log (sy_world s) in
  (exists u, url_parse (va_addr settings) = Some u /\ vault_channel url_host u = true)
  /\ (exists method, optional c AUTH_KEY = Some method /\ eq_ignore_ascii_case method (auth_method (va_auth settings)) = true)
  /\ (forall pre rq rp post, log = pre ++ EvSent rq rp :: post ->
       permitted pre rq /\ vr_namespace rq = va_namespace settings /\ exists path, vr_url rq = vault_url path)
  /\ (forall i l fetched, sy_fetches s !! i = Some (l, FDone (Ok fetched)) -> answered log l (Ok (Some fetched)))
  /\ (forall i l e, sy_fetches s !! i = Some (l, FDone (Err e)) ->
       plain_error l e /\ (e = SsNotFound (locator_display l) -> answered log l (Err e))).
Proof.
  cbn zeta. destruct (settings_facts url_host c Hset) as [H1 H2]. destruct (system_ok es vault_start vault_start_ok) as [[Hg _] Hp]. split_and!; [done..| | |].
  - intros pre rq rp post He. pose proof (Hg pre rq rp post He) as Hq. split; [done|]. by eapply permitted_shape.
  - intros i l d Hi. apply (Hp i l _ Hi).
  - intros i l e Hi. apply (Hp i l _ Hi).
Qed.
End Vault.

Module VaultWitness.

Definition config : Config :=
  from_map {[ "MCP_VAULT_ADDR" := "https://vault/"; "MCP_VAULT_AUTH" := "Token"; "MCP_VAULT_TOKEN" := " t " ]}.
Definition settings : VaultSettings :=
  {| va_addr := "https://vault"; va_auth := AuthToken (Literal "t"); va_namespace := None; va_ca_cert := None |}.
Definition net (_ : nat) (_ : VaultRequest) : VaultReply := ReplyHead 200 None (Some []).
Definition file (_ : nat) (_ : string) : FileAnswer := FileMissing.
(** Event [n] happens at second [100 (n + 1)]. *)
Definition clock (n : nat) : N := (N.of_nat (S n) * 100 * NANOS_PER_SEC)%N.
Definition login_json (_ : list byte) : option (option AuthBlock) := Some None.
Definition lookup_json (_ : list byte) : option (option LookupData) := Some (Some {| ld_ttl := Some 900%N; ld_renewable := Some true |}).
Definition kv_json (_ : list byte) : option (option KvData) :=
  Some (Some {| kv_data := Some (VObject [("key", VString "value")]); kv_version := Some 3%N |}).
Definition to_json (_ : Value) : option string := Some "{}".
Definition locator : SecretLocator := {| lo_scheme := SVault; lo_target := "kv/app" |}.

(** An AppRole whose secret id is in a file that is rotated after the first
    login; the first read is refused. *)
Definition rotated : Config :=
  from_map {[ "MCP_VAULT_ADDR" := "http://vault/"; "MCP_VAULT_AUTH" := "AppRole"; "MCP_VAULT_ROLE_ID" := "role";
              "MCP_VAULT_SECRET_ID" := "file:///sid" ]}.
Definition approle : VaultSettings :=
  {| va_addr := "http://vault"; va_auth := AuthAppRole "approle" "role" (InFile "/sid"); va_namespace := None; va_ca_cert := None |}.
Definition localhost `{UrlLib} (_ : Url) : option UrlHost := Some (HostDomain "LocalHost").
Definition rotating_file (n : nat) (_ : string) : FileAnswer := FileBytes (as_bytes (if (n <? 4)%nat then "first" else "second")).
Definition rotating_net (n : nat) (rq : VaultRequest) : VaultReply :=
  ReplyHead (if (n =? 3)%nat then 403 else 200) None (Some (as_bytes (if (n <? 4)%nat then "one" else "two"))).
Definition client_json (bytes : list byte) : option (option AuthBlock) :=
  Some (Some {| ab_client_token := Some (of_bytes bytes); ab_lease_duration := None; ab_renewable := None |}).

Definition steps : list VaultStep := [VStart locator; VTurn 0; VTurn 0; VTurn 0; VTurn 0].

Definition rotated_log : list VaultEvent :=
  vw_log (sy_world (vault_run approle rotating_net rotating_file clock client_json lookup_json kv_json to_json steps vault_start)).

(** The second login carries the second secret id, the second read the second
    token. *)
Example rotation_followed :
  omap (fun ev => match ev with EvSent rq _ => Some (vr_url rq, vr_token rq, vr_body rq) | _ => None end) rotated_log
  = [("http://vault/v1/auth/approle/login", None, Some (approle_body "role" "first"));
     ("http://vault/v1/kv/data/app", Some "one", None);
     ("http://vault/v1/auth/approle/login", None, Some (approle_body "role" "second"));
     ("http://vault/v1/kv/data/app", Some "two", None)].
Proof. reflexivity. Qed.

Lemma vault_source_guarded_witness :
  vault_settings (H := CallWitness.toy_url) (@localhost CallWitness.toy_url) rotated = Ok approle
  /\ (exists rp, permitted approle client_json (take 7 rotated_log) (vault_request approle "GET" "kv/data/app" None (Some "two"))
               /\ EvSent (vault_request approle "GET" "kv/data/app" None (Some "two")) rp ∈ drop 7 rotated_log)
  /\ answered approle kv_json to_json rotated_log locator (Ok (Some {| fs_document := "{}"; fs_version := "3" |})).
Proof.
  assert (Hset : vault_settings (H := CallWitness.toy_url) (@localhost CallWitness.toy_url) rotated = Ok approle) by (vm_compute; reflexivity).
  destruct (vault_source_guarded approle rotating_net rotating_file clock client_json lookup_json kv_json to_json CallWitness.toy_url
              (@localhost CallWitness.toy_url) rotated Hset steps) as (_ & _ & Hsent & Hdone & _).
  split; [exact Hset|]. split.
  - eexists. split; [|vm_compute; apply list_elem_of_here].
    eapply (Hsent _ _ (rotating_net 7 (vault_request approle "GET" "kv/data/app" None (Some "two"))) []). vm_compute. reflexivity.
  - apply (Hdone 0). vm_compute. reflexivity.
Defined.

Definition leased : VaultWorld :=
  {| vw_session := Some {| vs_token := "t"; vs_obtained_at := 0; vs_ttl := Some (900 * NANOS_PER_SEC)%N; vs_renewable := true |};
     vw_logins := 1; vw_renewals := 0; vw_log := [] |}.

Lemma vault_token_in_lease_witness :
  exists s, vw_session (snd (token settings net file clock login_json lookup_json false leased)) = Some s
            /\ vs_token s = "t" /\ in_lease [EvClock (clock 0); EvClock (clock 1)] s.
Proof.
  destruct (vault_token_in_lease settings net file clock login_json lookup_json false leased "t" 
              (snd (token settings net file clock login_json lookup_json false leased)) eq_refl)
    as (s & evs & Hlog & Hs & Ht & Hin & _).
  exists s. split; [exact Hs|]. split; [exact Ht|]. cbn [app vw_log leased] in Hlog. vm_compute in Hlog. subst evs. exact Hin.
Defined.
End VaultWitness.
