(* ===== verification/Startup.v ===== *)
(** * Starting the server (src/src/server/http.rs, src/src/bootstrap/mod.rs)

    [run_http_with_edition] as one function of its environment, composed of
    the components' own loaders: the configuration, the journal, the signed
    policy and revocation list, the secret references, the usage store and the
    forwarder.  Either it refuses with the stage that refused, or the port
    opens and what serves is described by [Serving]. *)
From S2P Require Import Prelude RustStr Json PolicyTypes Signing Bundle PolicyEngine Config RateLimit Egress.
From S2P Require Import ToolCall Revocation Inbound Oidc Chain Journal JournalExample Forward Admin Consumer Secrets Vault NetAddr.

(** ** Settings of the composition root *)

Definition POLICY_FILE_KEY : string := "MCP_POLICY_FILE".
Definition POLICY_PUBLIC_KEY_KEY : string := "MCP_POLICY_PUBLIC_KEY".
Definition REVOCATION_FILE_KEY : string := "MCP_REVOCATION_FILE".
Definition RECORDS_KEY : string := "MCP_AUDIT_CHECKPOINT_RECORDS".
Definition SECONDS_KEY : string := "MCP_AUDIT_CHECKPOINT_SECONDS".
Definition SIGNING_KEY_KEY : string := "MCP_AUDIT_SIGNING_KEY".
Definition EXPORT_DIR_KEY : string := "MCP_AUDIT_CHECKPOINT_EXPORT_DIR".

(** Where a start stops. *)
Inductive Stage :=
| AtRole | AtAuthMode | AtEma | AtBindAddr | AtSecurity
| AtClient | AtJournal | AtPolicy | AtSecretSources | AtUsage | AtGate
| AtInboundAuth | AtEdition | AtSecrets | AtPolicyRecord | AtRevocationRecord | AtForwarding | AtBind.

Definition Refusal : Type := Stage * string.

Definition at_stage {A} (stage : Stage) (r : result A string) : result A Refusal := map_err (fun e => (stage, e)) r.

(** [EmaSettings::enabled] of src/src/auth/ema.rs: exact, untrimmed values. *)
Definition ema_enabled (c : Config) : result bool string :=
  match get c "MCP_EMA_ENABLED" with
  | None => Ok false
  | Some v => if String.eqb v "false" then Ok false else if String.eqb v "true" then Ok true
              else Err "MCP_EMA_ENABLED must be true or false"
  end.

Definition blank_or_absent (c : Config) (key : string) : bool :=
  match get c key with Some v => str_is_empty (trim v) | None => true end.

(** The settings an authenticated server cannot run without, in this order. *)
Definition require_enterprise_evidence (c : Config) (mode : string) : result unit string :=
  if blank_or_absent c Forward.AUDIT_JOURNAL_DIR_KEY then Err ("refusing to start: MCP_AUTH_MODE=" ++ mode ++ " requires MCP_AUDIT_JOURNAL_DIR")%string
  else if blank_or_absent c POLICY_FILE_KEY then Err ("refusing to start: MCP_AUTH_MODE=" ++ mode ++ " requires MCP_POLICY_FILE")%string
  else if blank_or_absent c POLICY_PUBLIC_KEY_KEY then Err ("refusing to start: MCP_AUTH_MODE=" ++ mode ++ " requires MCP_POLICY_PUBLIC_KEY")%string
  else if blank_or_absent c SIGNING_KEY_KEY then Err ("refusing to start: MCP_AUTH_MODE=" ++ mode ++ " requires MCP_AUDIT_SIGNING_KEY")%string
  else Ok tt.

(** *** The usage store *)

Definition scheme_sep : list byte := as_bytes "://".

Inductive RollupBackend := BackendSqlite (path : string) | BackendMemory.

(** [Path::new("/").join(path)]. *)
Definition under_root (path : string) : string := if starts_with path "/" then path else ("/" ++ path)%string.

Definition store_from_config (opens : string -> result unit string) (c : Config) : result (option RollupBackend) string :=
  match rollup_configured c Consumer.STORE_KEY with
  | None => Ok None
  | Some uri =>
      match split_once_str scheme_sep (as_bytes uri) with
      | None => Err (Consumer.STORE_KEY ++ " is not a URI")%string
      | Some (scheme, rest) =>
          let scheme := to_ascii_lowercase (of_bytes scheme) in
          if String.eqb scheme "sqlite" then
            match strip_prefix "/" (of_bytes rest) with
            | None => Err (Consumer.STORE_KEY ++ " must be sqlite:///absolute/path.db")%string
            | Some path => let? _ := opens (under_root path) in Ok (Some (BackendSqlite (under_root path)))
            end
          else if String.eqb scheme "memory" then Ok (Some BackendMemory)
          else Err (Consumer.STORE_KEY ++ ": no rollup store for " ++ scheme)%string
      end
  end.

Record UsageWiring := { uw_store : option RollupBackend; uw_capacity : option N; uw_retention : option N }.

Definition wire (opens : string -> result unit string) (c : Config) (control : bool) : result UsageWiring string :=
  let? store := store_from_config opens c in
  let store := if control then store else None in
  let? retention := retention_from_config c in
  Ok {| uw_store := store; uw_capacity := if store then Some (channel_capacity c) else None; uw_retention := retention |}.

(** *** The forwarder *)

Inductive ForwarderKind := ForwardSyslogTls | ForwardHttp.

(** The adapter the URL's scheme names; [builds] is its own set-up. *)
Definition build_forwarder (builds : ForwarderKind -> Config -> result unit string) (c : Config) : result (option ForwarderKind) string :=
  match configured_value c URL_KEY with
  | None => Ok None
  | Some url =>
      let scheme := to_ascii_lowercase (match split_once_str scheme_sep (as_bytes url) with Some (s, _) => of_bytes s | None => url end) in
      if String.eqb scheme "syslog+tls" then let? _ := builds ForwardSyslogTls c in Ok (Some ForwardSyslogTls)
      else if String.eqb scheme "https" || String.eqb scheme "http" then let? _ := builds ForwardHttp c in Ok (Some ForwardHttp)
      else if String.eqb scheme "syslog" || String.eqb scheme "syslog+tcp" || String.eqb scheme "syslog+udp"
      then Err (URL_KEY ++ ": plaintext syslog is not supported")%string
      else Err (URL_KEY ++ ": no audit forwarder for " ++ scheme)%string
  end.

Definition spawn_configured (builds : ForwarderKind -> Config -> result unit string) (opens : ForwardingSettings -> result unit string)
  (c : Config) : result (option ForwarderKind) string :=
  let? settings := settings_from_config c in
  match settings with
  | None => Ok None
  | Some s =>
      let? forwarder := build_forwarder builds c in
      match forwarder with
      | None => Ok None
      | Some kind => let? _ := opens s in Ok (Some kind)
      end
  end.

(** ** The environment of a start *)
Record HostEnv := {
  he_role : option string;
  he_port : option string;
  he_bind_addr : option string;
  (** The two loads of the cascade: the transport's and the server's own. *)
  he_transport_config : Config;
  he_server_config : Config;
  he_client : result unit string;
  he_disk : string -> Disk;
  he_signing_key : string -> result SigningKey string;
  he_export_dir : string -> result unit string;
  (** The journal file of a directory, once its lock is taken. *)
  he_journal : string -> result (list byte) string;
  he_now : N;
  he_vault_client : VaultSettings -> result unit string;
  he_rollup_opens : string -> result unit string;
  he_sources : list SecretSource;
  he_ema_verifies : bool;
  he_stamp : string;
  he_policy_record : AppendOutcome;
  he_revocation_record : AppendOutcome;
  he_forwarder_builds : ForwarderKind -> Config -> result unit string;
  he_shipper_opens : ForwardingSettings -> result unit string;
  he_binds : SocketAddr -> bool;
}.

Section Startup.
Context `{Crypto} `{SigningLib} `{JournalCodec} `{UrlLib}.
Variable policy_yaml : list byte -> result PolicyDocument string.
Variable render : PolicyError -> string.
Variable revocation_yaml : list byte -> result RevocationFile string.
Variable rfc3339_timestamp : string -> option Z.
Variable url_host_str : Url -> option string.
Variable url_host : Url -> option UrlHost.
Variable from_str : string -> option Value.

Definition policy_doc : BundleDocument CompiledPolicy := policy_bundle policy_yaml render.
Definition revocation_doc : BundleDocument RevocationDocument := revocation_bundle revocation_yaml rfc3339_timestamp.

(** *** The parts of [ServerBuilder::build] *)

Definition positive_setting (c : Config) (key : string) (fallback : N) : result N string :=
  match configured_value c key with
  | None => Ok fallback
  | Some value =>
      match parse_unsigned U64_MAX value with
      | Some n => if (1 <=? n)%N then Ok n else Err (key ++ " must be a positive integer")%string
      | None => Err (key ++ " must be a positive integer")%string
      end
  end.

Definition configured_checkpoint_policy (env : HostEnv) (c : Config) : result CheckpointPolicy string :=
  let? records := positive_setting c RECORDS_KEY (every_records policy_unsigned) in
  let? seconds := positive_setting c SECONDS_KEY (every_seconds policy_unsigned) in
  let? key := transpose (he_signing_key env <$> configured_value c SIGNING_KEY_KEY) in
  let? exports := transpose (he_export_dir env <$> configured_value c EXPORT_DIR_KEY) in
  Ok {| every_records := records; every_seconds := seconds; signing_key := key; export := bool_decide (is_Some exports) |}.

Definition open_configured_journal (env : HostEnv) (c : Config) : result (option (CheckpointPolicy * Journal)) string :=
  match configured_value c Forward.AUDIT_JOURNAL_DIR_KEY with
  | None => Ok None
  | Some dir =>
      let? checkpoints := configured_checkpoint_policy env c in
      let? bytes := he_journal env dir in
      let? journal := open_journal bytes (he_now env) [] [] in
      Ok (Some (checkpoints, journal))
  end.

Definition configured_policy_public_key (c : Config) : result (option VerifyingKey) string :=
  transpose (key_from_base64 <$> configured_value c POLICY_PUBLIC_KEY_KEY).

Definition load_configured_policy (env : HostEnv) (c : Config) : result (option (SignedBundle CompiledPolicy)) string :=
  match configured_value c POLICY_FILE_KEY with
  | None => Ok None
  | Some path =>
      let? verifier := configured_policy_public_key c in
      let? bundle := load_with (H0 := policy_doc) path verifier (he_disk env path) in
      Ok (Some bundle)
  end.

(** [SecretResolver::from_config]: the schemes that have a source. *)
Definition secret_schemes (env : HostEnv) (c : Config) : result (list Scheme) string :=
  if bool_decide (is_Some (Vault.optional c Vault.ADDR_KEY)) then
    match vault_settings url_host c with
    | Err _ => Err "vault:// is misconfigured"
    | Ok s => let? _ := he_vault_client env s in Ok [SFile; SVault]
    end
  else Ok [SFile].

Record Components := {
  co_config : Config;
  co_auth_required : bool;
  co_journal : option (CheckpointPolicy * Journal);
  (** [None] decides as [AllowAll]. *)
  co_policy : option (SignedBundle CompiledPolicy);
  co_schemes : list Scheme;
  co_usage : UsageWiring;
}.

Definition build (env : HostEnv) (auth_required control : bool) : result Components Refusal :=
  let c := he_server_config env in
  let? _ := at_stage AtClient (he_client env) in
  let? journal := at_stage AtJournal (open_configured_journal env c) in
  let? policy := at_stage AtPolicy (load_configured_policy env c) in
  let? schemes := at_stage AtSecretSources (secret_schemes env c) in
  let? usage := at_stage AtUsage (wire (he_rollup_opens env) c control) in
  let? _ := at_stage AtGate (gate_from_config c) in
  Ok {| co_config := c; co_auth_required := auth_required; co_journal := journal; co_policy := policy;
        co_schemes := schemes; co_usage := usage |}.

(** *** Inbound authentication *)

Record InboundStack := {
  is_oidc : OidcSettings;
  is_settings : InboundAuthSettings;
  is_revocations : SignedBundle RevocationDocument;
  is_rate_limit : option RateLimitSettings;
  is_admin_principals : AdminPrincipals;
  (** Whether revocations are journaled to the server's sink. *)
  is_audited : bool;
}.

Definition enterprise_resource_settings (c : Config) (k : OidcKeys) (oidc : OidcSettings) : result InboundAuthSettings string :=
  let? ema := ema_enabled c in
  let issuer := if ema : bool then trim (default (o_issuer oidc) (get c (keys_issuer k))) else o_issuer oidc in
  let? settings := inbound_settings_from_config url_host c (keys_mode k) [issuer] in
  if ema && negb (String.eqb (o_audience oidc) (public_url settings))
  then Err "EMA requires the OIDC audience to equal MCP_PUBLIC_URL" else Ok settings.

Definition enterprise_inbound_auth (env : HostEnv) (c : Config) (server : Components) (k : OidcKeys) : result InboundStack string :=
  let? oidc := oidc_settings_from_config url_host_str url_host c k in
  let? settings := enterprise_resource_settings c k oidc in
  let? rate := rate_settings_from_config c in
  let? _ := require_enterprise_evidence c (keys_mode k) in
  match configured_value c REVOCATION_FILE_KEY with
  | None => Err ("refusing to start: MCP_AUTH_MODE=" ++ keys_mode k ++ " requires MCP_REVOCATION_FILE")%string
  | Some path =>
      let? verifier := configured_policy_public_key c in
      match verifier with
      | None => Err "MCP_POLICY_PUBLIC_KEY is required"
      | Some key =>
          let? revocations := load_with (H0 := revocation_doc) path (Some key) (he_disk env path) in
          let? _ := he_client env in
          let? admins := admin_principals_from_config c in
          Ok {| is_oidc := oidc; is_settings := settings; is_revocations := revocations; is_rate_limit := rate;
                is_admin_principals := admins; is_audited := bool_decide (is_Some (co_journal server)) |}
      end
  end.

(** *** The start *)

(** [CommunityEdition::setup]. *)
Definition edition_setup (c : Config) : result unit string :=
  match get c "MCP_CONSOLE_CLIENT_ID" with
  | Some _ => Err "MCP_CONSOLE_CLIENT_ID requires the Enterprise console"
  | None => Ok tt
  end.

(** [DevtoolsServer::journal_startup] and [InboundAuth::journal_startup]: the
    record of what is in force, which has to be acknowledged. *)
Definition journal_policy (env : HostEnv) (server : Components) (J : list Entry) : result (list Entry) Refusal :=
  match co_journal server, co_policy server with
  | Some _, Some bundle =>
      match journal_in_force (H0 := policy_doc) bundle J (he_stamp env) (he_policy_record env) with
      | (J', true) => Ok J'
      | (_, false) => Err (AtPolicyRecord, "refusing to start: the policy in force could not be journaled")
      end
  | _, _ => Ok J
  end.

Definition journal_revocations (env : HostEnv) (stack : option InboundStack) (J : list Entry) : result (list Entry) Refusal :=
  match stack with
  | Some s =>
      if is_audited s then
        match journal_in_force (H0 := revocation_doc) (is_revocations s) J (he_stamp env) (he_revocation_record env) with
        | (J', true) => Ok J'
        | (_, false) => Err (AtRevocationRecord, "refusing to start: the revocation list in force could not be journaled")
        end
      else Ok J
  | None => Ok J
  end.

Record Serving := {
  sv_role : Role;
  sv_addr : SocketAddr;
  sv_auth_mode : AuthMode;
  sv_inbound : option InboundStack;
  sv_server : Components;
  (** The configuration in force, its secrets attached. *)
  sv_config : Config;
  (** What the journal took during the start. *)
  sv_journal : list Entry;
  sv_forwarder : option ForwarderKind;
}.

(** The sources the resolver was built with. *)
Definition active_sources (env : HostEnv) (server : Components) : list SecretSource :=
  List.filter (fun source => bool_decide (ss_scheme source ∈ co_schemes server)) (he_sources env).

Definition run_http (env : HostEnv) : result Serving Refusal :=
  let? role := at_stage AtRole (role_parse (he_role env)) in
  let port := port_from_env (he_port env) in
  let c := he_transport_config env in
  let? auth_mode := at_stage AtAuthMode (auth_mode_parse (get c "MCP_AUTH_MODE")) in
  let? ema := at_stage AtEma (ema_enabled c) in
  if ema && negb (requires_inbound_auth auth_mode) then Err (AtEma, "MCP_EMA_ENABLED requires OIDC authentication")
  else
    let? addr := at_stage AtBindAddr (resolve_bind_addr (he_bind_addr env) port) in
    let? _ := at_stage AtSecurity (validate_startup_security auth_mode addr) in
    let? server := build env (requires_inbound_auth auth_mode) (serves_control role) in
    let? inbound :=
      match auth_mode with
      | AuthOff => Ok None
      | AuthOidc k => let? stack := at_stage AtInboundAuth (enterprise_inbound_auth env c server k) in Ok (Some stack)
      end in
    let? _ := at_stage AtEdition (edition_setup c) in
    if ema && negb (he_ema_verifies env) then Err (AtEma, "the resource issuer does not support EMA")
    else
      let? config := map_err (fun e => (AtSecrets, re_reference e)) (resolve_startup from_str (active_sources env server) (co_config server)) in
      let? J := journal_policy env server [] in
      let? J := journal_revocations env inbound J in
      let? forwarder :=
        if serves_control role
        then at_stage AtForwarding (spawn_configured (he_forwarder_builds env) (he_shipper_opens env) config)
        else Ok None in
      if he_binds env addr
      then Ok {| sv_role := role; sv_addr := addr; sv_auth_mode := auth_mode; sv_inbound := inbound; sv_server := server;
                 sv_config := config; sv_journal := J; sv_forwarder := forwarder |}
      else Err (AtBind, "the address is in use").

(** ** What serves *)

Definition loopback_addr (a : SocketAddr) : Prop :=
  (exists x y z, sa_ip a = V4 [127; x; y; z]%N) \/ sa_ip a = V6 [0; 0; 0; 0; 0; 0; 0; 1]%N.

(** The record of a bundle in force, acknowledged. *)
Definition recorded {D} {Doc : BundleDocument D} (b : SignedBundle D) (stamp : string) (J : list Entry) : Prop :=
  {| entry_event := loaded_event b stamp; entry_acked := true |} ∈ J.

Lemma recorded_in_force {D} {Doc : BundleDocument D} (b : SignedBundle D) J stamp o J' :
  journal_in_force b J stamp o = (J', true) -> recorded b stamp J' /\ J ⊆ J'.
Proof. unfold journal_in_force, append_control. destruct o as [|[]]; intros [= <-]; unfold recorded; set_solver. Qed.

(** The policy and the revocation list in force are signed by [k] and on
    record, the journal signs its checkpoints, and calls need a principal. *)
Record EnterpriseReady (env : HostEnv) (s : Serving) (k : VerifyingKey) : Prop := {
  er_required : co_auth_required (sv_server s) = true;
  er_policy : exists b, co_policy (sv_server s) = Some b
    /\ authentic (H0 := policy_doc) (Some k) b /\ recorded (Doc := policy_doc) b (he_stamp env) (sv_journal s);
  er_inbound : exists i, sv_inbound s = Some i
    /\ authentic (H0 := revocation_doc) (Some k) (is_revocations i)
    /\ recorded (Doc := revocation_doc) (is_revocations i) (he_stamp env) (sv_journal s);
  er_journal : exists p j key, co_journal (sv_server s) = Some (p, j) /\ signing_key p = Some key;
}.

Lemma configured_not_blank c key : blank_or_absent c key = false -> exists v, configured_value c key = Some v.
Proof. unfold blank_or_absent, configured_value. destruct (get c key) as [v|]; [|done]. cbn. intros ->. eauto. Qed.

Lemma evidence_configured c mode : require_enterprise_evidence c mode = Ok tt ->
  forall key, key ∈ [Forward.AUDIT_JOURNAL_DIR_KEY; POLICY_FILE_KEY; POLICY_PUBLIC_KEY_KEY; SIGNING_KEY_KEY] ->
  exists v, configured_value c key = Some v.
Proof.
  unfold require_enterprise_evidence. repeat (case_match; [done|]). intros _ key Hk.
  apply configured_not_blank. rewrite !elem_of_cons, elem_of_nil in Hk. by destruct Hk as [->|[->|[->|[->|[]]]]].
Qed.

Lemma journal_signed env c p j v : open_configured_journal env c = Ok (Some (p, j)) -> configured_value c SIGNING_KEY_KEY = Some v ->
  exists key, signing_key p = Some key.
Proof.
  unfold open_configured_journal, configured_checkpoint_policy. intros Hj Hv. rewrite Hv in Hj.
  repeat case_match; simplify_eq. cbn in *. repeat case_match; simplify_eq; eauto.
Qed.

Lemma at_stage_ok {A} stage (r : result A string) a : at_stage stage r = Ok a -> r = Ok a.
Proof. destruct r; cbn; congruence. Qed.

(** The next bind of a chain that succeeded, succeeded. *)
Tactic Notation "passed" hyp(H) "as" ident(a) ident(E) :=
  match type of H with
  | context [match ?r with Ok _ => _ | Err _ => _ end] => destruct r as [a|] eqn:E; [|discriminate H]
  end.

Lemma build_facts env required control server : build env required control = Ok server ->
  co_config server = he_server_config env /\ co_auth_required server = required
  /\ open_configured_journal env (he_server_config env) = Ok (co_journal server)
  /\ load_configured_policy env (he_server_config env) = Ok (co_policy server).
Proof.
  unfold build. intros Hb. passed Hb as a E1. passed Hb as journal E2. passed Hb as policy E3. passed Hb as schemes E4. passed Hb as usage E5. passed Hb as g E6.
  injection Hb as <-. cbn. by rewrite (at_stage_ok _ _ _ E2), (at_stage_ok _ _ _ E3).
Qed.

Lemma inbound_facts env c server k stack : enterprise_inbound_auth env c server k = Ok stack ->
  exists key, configured_policy_public_key c = Ok (Some key) /\ require_enterprise_evidence c (keys_mode k) = Ok tt
  /\ authentic (H0 := revocation_doc) (Some key) (is_revocations stack)
  /\ is_audited stack = bool_decide (is_Some (co_journal server)).
Proof.
  unfold enterprise_inbound_auth. intros Hi. passed Hi as oidc E1. passed Hi as settings E2. passed Hi as rate E3. passed Hi as u E4.
  destruct (configured_value c REVOCATION_FILE_KEY) as [path|]; [|done]. passed Hi as verifier E5. destruct verifier as [key|]; [|done].
  passed Hi as revocations E6. passed Hi as u' E7. passed Hi as admins E8. injection Hi as <-. destruct u. exists key. cbn.
  split_and!; [done..| |done]. by eapply load_with_authentic.
Qed.

Lemma policy_facts env c policy key v : load_configured_policy env c = Ok policy -> configured_policy_public_key c = Ok (Some key) ->
  configured_value c POLICY_FILE_KEY = Some v -> exists b, policy = Some b /\ authentic (H0 := policy_doc) (Some key) b.
Proof.
  unfold load_configured_policy. intros Hp Hk Hv. rewrite Hv, Hk in Hp. passed Hp as b E. injection Hp as <-.
  exists b. split; [done|]. by eapply load_with_authentic.
Qed.

Lemma journal_opened env c v journal : open_configured_journal env c = Ok journal -> configured_value c Forward.AUDIT_JOURNAL_DIR_KEY = Some v ->
  exists pj, journal = Some pj.
Proof. unfold open_configured_journal. intros Hj Hv. rewrite Hv in Hj. passed Hj as p E1. passed Hj as b E2. passed Hj as j E3. injection Hj as <-. eauto. Qed.

Lemma journal_policy_records env server J J' pj b :
  journal_policy env server J = Ok J' -> co_journal server = Some pj -> co_policy server = Some b ->
  recorded (Doc := policy_doc) b (he_stamp env) J'.
Proof.
  unfold journal_policy. intros Hj H1' H2'. rewrite H1', H2' in Hj. destruct (journal_in_force _ _ _ _) as [J1 []] eqn:E; [|done]. injection Hj as <-.
  by apply (proj1 (recorded_in_force _ _ _ _ _ E)).
Qed.

Lemma journal_revocations_records env i J J' :
  journal_revocations env (Some i) J = Ok J' -> is_audited i = true ->
  recorded (Doc := revocation_doc) (is_revocations i) (he_stamp env) J' /\ J ⊆ J'.
Proof.
  unfold journal_revocations. intros Hj Ha. rewrite Ha in Hj. destruct (journal_in_force _ _ _ _) as [J1 []] eqn:E; [|done]. injection Hj as <-.
  by eapply recorded_in_force.
Qed.

(** The steps of a start that succeeded. *)
Lemma run_http_facts env s : run_http env = Ok s ->
  validate_startup_security (sv_auth_mode s) (sv_addr s) = Ok tt
  /\ resolve_bind_addr (he_bind_addr env) (port_from_env (he_port env)) = Ok (sv_addr s)
  /\ build env (requires_inbound_auth (sv_auth_mode s)) (serves_control (sv_role s)) = Ok (sv_server s)
  /\ match sv_auth_mode s with
     | AuthOff => sv_inbound s = None
     | AuthOidc k => exists i, enterprise_inbound_auth env (he_transport_config env) (sv_server s) k = Ok i /\ sv_inbound s = Some i
     end
  /\ resolve_startup from_str (active_sources env (sv_server s)) (co_config (sv_server s)) = Ok (sv_config s)
  /\ exists J, journal_policy env (sv_server s) [] = Ok J /\ journal_revocations env (sv_inbound s) J = Ok (sv_journal s).
Proof.
  unfold run_http. intros Hr. passed Hr as role E1. passed Hr as mode E2. passed Hr as ema E3. destruct (_ && _); [done|].
  passed Hr as addr E4. passed Hr as u E5. passed Hr as server E6. passed Hr as inbound E7. passed Hr as u' E8. destruct (_ && _); [done|].
  passed Hr as config E9. passed Hr as J E10. passed Hr as J' E11. passed Hr as forwarder E12. destruct (he_binds env addr); [|done].
  injection Hr as <-. cbn. destruct u. split_and!; [by eapply at_stage_ok..|done| | |by exists J].
  - destruct mode as [|k]; [by injection E7 as <-|]. passed E7 as i Ei. injection E7 as <-. exists i. split; [by eapply at_stage_ok|done].
  - destruct (resolve_startup _ _ _); cbn in E9; congruence.
Qed.

Lemma port_from_env_max raw : (port_from_env raw <= 65535)%N.
Proof.
  unfold port_from_env, DEFAULT_PORT. destruct raw as [raw|]; cbn; [|lia].
  destruct (parse_unsigned 65535 raw) as [n|] eqn:E; cbn; [by eapply parse_unsigned_max|lia].
Qed.

Lemma off_is_loopback addr : validate_startup_security AuthOff addr = Ok tt -> addr_ok addr -> loopback_addr addr.
Proof.
  cbn. destruct (is_loopback (sa_ip addr)) eqn:E; [|done]. intros _ [Hip _]. unfold loopback_addr. destruct (sa_ip addr) as [o|g].
  - left. destruct Hip as [Hl _]. destruct o as [|a [|x [|y [|z [|]]]]]; try done. apply N.eqb_eq in E as ->. eauto.
  - right. by apply bool_decide_eq_true in E as ->.
Qed.

(** C6: A server that listens is one that may.  Without authentication it listens
    on a loopback address.  With it, when both loads of the configuration gave
    the same one, every call needs a principal, the policy and the revocation
    list in force are authentic under the configured key and their records
    were acknowledged before the port opened, and the journal signs its
    checkpoints.  Either way every secret reference is resolved and reads as
    its value. *)
Theorem startup_fails_closed env s (Hrun : run_http env = Ok s) :
  match sv_auth_mode s with
  | AuthOff => loopback_addr (sv_addr s) /\ sv_inbound s = None
  | AuthOidc _ => he_server_config env = he_transport_config env ->
      exists k, configured_policy_public_key (he_transport_config env) = Ok (Some k) /\ EnterpriseReady env s k
  end
  /\ forall v, holds_value (sv_config s) v -> is_reference (trim v) = true ->
       exists x, secrets (sv_config s) !! trim v = Some x /\ expand (sv_config s) v = secret_value x.
Proof.
  destruct (run_http_facts env s Hrun) as (Hsec & Haddr & Hbuild & Hin & Hsecrets & J & HJ & HJ'). split.
  - destruct (sv_auth_mode s) as [|mode].
    + split; [|done]. apply off_is_loopback; [done|]. eapply resolve_bind_addr_ok; [done|]. apply port_from_env_max.
    + intros Hsame. destruct Hin as (i & Hi & Es). destruct (inbound_facts _ _ _ _ _ Hi) as (key & Hk & Hev & Hrev & Haud).
      destruct (build_facts _ _ _ _ Hbuild) as (_ & Hreq & Hj & Hp). rewrite Hsame in Hj, Hp.
      pose proof (evidence_configured _ _ Hev) as Hconf.
      destruct (Hconf Forward.AUDIT_JOURNAL_DIR_KEY ltac:(set_solver)) as [dir Hdir]. destruct (Hconf POLICY_FILE_KEY ltac:(set_solver)) as [path Hpath].
      destruct (Hconf SIGNING_KEY_KEY ltac:(set_solver)) as [sk Hsk].
      destruct (journal_opened _ _ _ _ Hj Hdir) as [[p j] Epj]. destruct (policy_facts _ _ _ _ _ Hp Hk Hpath) as (b & Eb & Hb).
      rewrite Es in HJ'. destruct (journal_revocations_records _ _ _ _ HJ') as [Hr1 Hr2]; [by rewrite Haud, Epj|].
      exists key. split; [done|]. split; [done|..].
      * exists b. split_and!; [done..|]. unfold recorded. apply Hr2. by eapply journal_policy_records.
      * by exists i.
      * rewrite Epj in Hj. destruct (journal_signed _ _ _ _ _ Hj Hsk) as [key' Hkey]. by exists p, j, key'.
  - intros v Hv Hr. destruct (startup_whole _ _ _ _ Hsecrets) as [Hc _]. destruct (Hc (trim v) (held_reference _ _ Hv Hr)) as [x Hx].
    exists x. split; [done|]. unfold expand. by rewrite Hr, Hx.
Qed.
End Startup.

Module StartupWitness.
#[local] Existing Instance CallWitness.toy_url.
#[local] Existing Instance Bundle.Witness.toy_crypto.
#[local] Instance toy_signing : SigningLib := {| base64_encode := of_bytes; ed25519_sign := fun _ _ => [] |}.

Definition key_text : string := "kkkkkkkkkkkkkkkkkkkkkkkkkkkkkkkk".

(** Authenticated, and complete but for what [also] adds. *)
Definition okta (also : list (string * string)) : Config :=
  from_map (list_to_map (also ++
    [("MCP_AUTH_MODE", "okta"); ("MCP_OKTA_ISSUER", "https://idp"); ("MCP_OKTA_AUDIENCE", "mcp"); ("MCP_PUBLIC_URL", "https://mcp");
     ("MCP_REVOCATION_FILE", "/deny.yaml"); ("MCP_POLICY_PUBLIC_KEY", key_text);
     ("MCP_AUDIT_SIGNING_KEY", "/key"); ("MCP_AUDIT_JOURNAL_DIR", "/journal")])).

Definition with_policy : Config := okta [("MCP_POLICY_FILE", "/policy.yaml"); ("JIRA_TOKEN", "file:///token")].
Definition without_policy : Config := okta [].

Definition env (transport server : Config) : HostEnv :=
  {| he_role := Some "gateway"; he_port := Some "8443"; he_bind_addr := Some "0.0.0.0";
     he_transport_config := transport; he_server_config := server; he_client := Ok tt;
     he_disk := fun _ => Bundle.Witness.disk "doc";
     he_signing_key := fun _ => Ok {| secret := []; verifying_key := Bundle.Witness.key |};
     he_export_dir := fun _ => Ok tt; he_journal := fun _ => Ok []; he_now := 0; he_vault_client := fun _ => Ok tt;
     he_rollup_opens := fun _ => Ok tt;
     he_sources := [{| ss_scheme := SFile; ss_fetch := fun _ _ => Ok {| fs_document := "secret"; fs_version := "1" |} |}];
     he_ema_verifies := true; he_stamp := "t"; he_policy_record := Acked; he_revocation_record := Acked;
     he_forwarder_builds := fun _ _ => Ok tt; he_shipper_opens := fun _ => Ok tt; he_binds := fun _ => true |}.

Definition start (transport server : Config) : result Serving Refusal :=
  run_http Example.yaml (fun _ => "invalid") (fun _ => Ok revocation_empty) (fun _ => None)
    (fun _ => Some "idp") (fun _ => None) (fun _ => None) (env transport server).

Definition mode_of (r : result Serving Refusal) : option AuthMode := match r with Ok s => Some (sv_auth_mode s) | Err _ => None end.

Definition policy_of (r : result Serving Refusal) : option (option (SignedBundle CompiledPolicy)) :=
  match r with Ok s => Some (co_policy (sv_server s)) | Err _ => None end.

Lemma startup_fails_closed_witness :
  exists s, start with_policy with_policy = Ok s
    /\ exists k, EnterpriseReady Example.yaml (fun _ => "invalid") (fun _ => Ok revocation_empty) (fun _ => None) (env with_policy with_policy) s k.
Proof.
  assert (Hmode : mode_of (start with_policy with_policy) = Some (AuthOidc KOkta)) by (vm_compute; reflexivity).
  destruct (start with_policy with_policy) as [s|] eqn:Hrun; [|discriminate Hmode]. exists s. split; [reflexivity|].
  injection Hmode as Hmode.
  destruct (startup_fails_closed Example.yaml (fun _ => "invalid") (fun _ => Ok revocation_empty) (fun _ => None)
              (fun _ => Some "idp") (fun _ => None) (fun _ => None) (env with_policy with_policy) s Hrun) as [Hready _].
  rewrite Hmode in Hready. destruct (Hready eq_refl) as (k & _ & Hk). exists k. exact Hk.
Defined.
End StartupWitness.

(** The configuration is loaded twice, and the evidence is required of one
    load while the server is built from the other: when the policy setting
    disappears between them, the server authenticates its callers and serves
    them with no policy at all. *)
Theorem startup_config_race_allows_all :
  exists s, StartupWitness.start StartupWitness.with_policy StartupWitness.without_policy = Ok s
    /\ sv_auth_mode s = AuthOidc KOkta /\ co_policy (sv_server s) = None.
Proof.
  assert (Hm : StartupWitness.mode_of (StartupWitness.start StartupWitness.with_policy StartupWitness.without_policy) = Some (AuthOidc KOkta))
    by (vm_compute; reflexivity).
  assert (Hp : StartupWitness.policy_of (StartupWitness.start StartupWitness.with_policy StartupWitness.without_policy) = Some None)
    by (vm_compute; reflexivity).
  destruct (StartupWitness.start _ _) as [s|]; [|discriminate Hm]. injection Hm as Hm. injection Hp as Hp. eauto.
Qed.
