(* ===== verification/Routes.v ===== *)
(** * The HTTP application (src/src/server/http.rs, src/src/server/admin.rs)

    [build_app_for_role_with_extensions] as the function that serves one
    request: the routes of a role, and around each the layers the router puts
    there, outermost first.  [service] is what a route finally calls; the
    community build mounts no extension. *)
From S2P Require Import Prelude RustStr Json PolicyTypes Signing Bundle Config ResponseCache RateLimit Revocation Session Inbound NetAddr.

(** ** Health *)

Definition banner_note (failing : option string) (note : string) : string := match failing with Some _ => note | None => "" end.

(** Whether the answer is a 200, and its text. *)
Definition health_banner (version : string) (audit_available : bool) (policy secrets forwarding rollups : option string) : bool * string :=
  if audit_available then
    (true, ("mcp-server-devtools v" ++ version ++ " is running"
            ++ banner_note policy "; policy reload is failing; last good policy in force"
            ++ banner_note secrets "; secret refresh is failing; last good values in force"
            ++ banner_note forwarding "; audit forwarding is failing; journal retained"
            ++ banner_note rollups "; usage rollups are failing; usage may be dropped")%string)
  else (false, ("mcp-server-devtools v" ++ version ++ " is running but its audit journal is unavailable; tool calls are refused")%string).

(** ** Routes *)

Inductive Handler := HHealth | HMetrics | HMetadata | HMcp | HArtifact (id : string) | HAdmin (operation : string).

(** A request as it arrives. *)
Record Arriving := {
  ar_method : string;
  ar_path : string;
  ar_content_length : option N;
  ar_request : HttpRequest;
}.

(** The rest of a path below [prefix], which is not empty. *)
Definition below (prefix path : string) : option string :=
  match strip_prefix prefix path with Some rest => if str_is_empty rest then None else Some rest | None => None end.

Definition artifact_route (path : string) : option Handler :=
  match below "/artifacts/" path with
  | Some id => if existsb (beqb (byte_of 47)) (as_bytes id) then None else Some (HArtifact id)
  | None => None
  end.

(** The handler a path belongs to: the public routes everywhere, the data
    plane on the roles that serve it, the administration on the roles that
    serve control and authenticate. *)
Definition route (role : Role) (auth : bool) (path : string) : option Handler :=
  if String.eqb path "/" then Some HHealth
  else if String.eqb path "/metrics" then Some HMetrics
  else if serves_gateway role && auth && String.eqb path PROTECTED_RESOURCE_METADATA_PATH then Some HMetadata
  else if serves_gateway role && String.eqb path "/mcp" then Some HMcp
  else
    match (if serves_gateway role then artifact_route path else None) with
    | Some h => Some h
    | None => if serves_control role && auth then HAdmin <$> below "/admin/" path else None
    end.

(** [get] answers GET and HEAD; [any] and [any_service] every method. *)
Definition method_allowed (h : Handler) (method : string) : bool :=
  match h with
  | HMcp | HAdmin _ => true
  | HHealth | HMetrics | HMetadata | HArtifact _ => String.eqb method "GET" || String.eqb method "HEAD"
  end.

Definition plain (status : N) (body : string) : HttpResponse :=
  {| rp_status := status; rp_headers := [("content-type", "text/plain; charset=utf-8")]; rp_body := body |}.
Definition forbidden : HttpResponse := plain 403 "Forbidden: invalid origin".
Definition not_found : HttpResponse := {| rp_status := 404; rp_headers := []; rp_body := "" |}.
Definition method_not_allowed : HttpResponse := {| rp_status := 405; rp_headers := []; rp_body := "" |}.
Definition payload_too_large : HttpResponse := plain 413 "length limit exceeded".
(** The CORS layer's own answer to OPTIONS. *)
Definition preflight : HttpResponse := {| rp_status := 200; rp_headers := []; rp_body := "" |}.

(** [origin_allowlist]: [None] when the request goes on. *)
Definition origin_allowlist (a : Arriving) : option HttpResponse :=
  if String.eqb (ar_method a) "OPTIONS" then None
  else
    match header_get (rq_headers (ar_request a)) "origin" with
    | None => None
    | Some value =>
        match header_to_str value with
        | None => Some forbidden
        | Some origin => if is_allowed_origin origin then None else Some forbidden
        end
    end.

Section App.
Context {V : Type} `{TokenValidator V}.

(** The state behind the application: the data plane's boundary and the
    administrative one, which share a validator in the code and are two views
    here, and the session table. *)
Record AppState := { as_auth : InboundAuth V; as_admin : InboundAuth V; as_sessions : Sessions }.

Variable service : Handler -> HttpRequest -> Sessions -> Sessions * HttpResponse.

(** The innermost layers: the methods of the route and, on [/mcp], the body
    limit.  The layers above run before a method is refused. *)
Definition endpoint (limit : N) (a : Arriving) (h : Handler) (request : HttpRequest) (m : Sessions) : Sessions * HttpResponse :=
  if negb (method_allowed h (ar_method a)) then (m, method_not_allowed)
  else
    match h, ar_content_length a with
    | HMcp, Some n => if (limit <? n)%N then (m, payload_too_large) else service h request m
    | _, _ => service h request m
    end.

(** What the layers around a handler do with a request for it. *)
Definition guarded_handler (auth : bool) (limit now : N) (stamp : string) (o : AppendOutcome) (a : Arriving) (h : Handler) (st : AppState)
  : AppState * HttpResponse :=
  match h with
  | HMcp | HArtifact _ =>
      if auth then
        let '(b, m, r) := protected_route (endpoint limit a h) now stamp o (ar_request a) (as_auth st, as_sessions st) in
        ({| as_auth := b; as_admin := as_admin st; as_sessions := m |}, r)
      else
        let '(m, r) := endpoint limit a h (ar_request a) (as_sessions st) in
        ({| as_auth := as_auth st; as_admin := as_admin st; as_sessions := m |}, r)
  | HAdmin _ =>
      match require_bearer now stamp o (ar_request a) (as_admin st) with
      | (b, inl request) =>
          let '(m, r) := endpoint limit a h request (as_sessions st) in
          ({| as_auth := as_auth st; as_admin := b; as_sessions := m |}, r)
      | (b, inr r) => ({| as_auth := as_auth st; as_admin := b; as_sessions := as_sessions st |}, r)
      end
  | HHealth | HMetrics | HMetadata =>
      let '(m, r) := endpoint limit a h (ar_request a) (as_sessions st) in
      ({| as_auth := as_auth st; as_admin := as_admin st; as_sessions := m |}, r)
  end.

(** The CORS layer is outside the origin check on the roles with a data plane
    and absent from the control role. *)
Definition app_serve (role : Role) (auth : bool) (limit now : N) (stamp : string) (o : AppendOutcome) (a : Arriving) (st : AppState)
  : AppState * HttpResponse :=
  if serves_gateway role && String.eqb (ar_method a) "OPTIONS" then (st, preflight)
  else
    match origin_allowlist a with
    | Some refusal => (st, refusal)
    | None =>
        match route role auth (ar_path a) with
        | None => (st, not_found)
        | Some h => guarded_handler auth limit now stamp o a h st
        end
    end.

(** ** What reaches a handler *)

(** The layers' own answers. *)
Definition own_answer (r : HttpResponse) : Prop := r = preflight \/ rp_status r ∈ [401; 403; 404; 405; 413; 429; 503]%N.

(** The request came from no page, or from one served on this machine. *)
Definition origin_ok (a : Arriving) : Prop :=
  forall value, header_get (rq_headers (ar_request a)) "origin" = Some value ->
    exists origin, header_to_str value = Some origin /\ is_allowed_origin origin = true.

(** Who may reach a handler, and as whom. *)
Definition reaches (role : Role) (auth : bool) (now : N) (st : AppState) (a : Arriving) (h : Handler) (request : HttpRequest) : Prop :=
  match h with
  | HHealth | HMetrics => request = ar_request a
  | HMetadata => auth = true /\ request = ar_request a
  | HMcp | HArtifact _ =>
      serves_gateway role = true /\
      (if auth
       then exists who, cleared (as_auth st) (ar_request a) who /\ within_budget (as_auth st) now who
                        /\ request = carrying (ar_request a) who
                        /\ forall id, session_named (rq_headers request) = Some id -> owner_matches id (requester_of request) (as_sessions st) = true
       else request = ar_request a)
  | HAdmin _ =>
      serves_control role = true /\ auth = true
      /\ exists who, cleared (as_admin st) (ar_request a) who /\ within_budget (as_admin st) now who /\ request = carrying (ar_request a) who
  end.

End App.

Section Reach.
Context {V : Type} `{TokenValidator V}.

Lemma endpoint_cases limit a h request m :
  (exists r, own_answer r /\ forall service, endpoint service limit a h request m = (m, r))
  \/ (method_allowed h (ar_method a) = true /\ forall service, endpoint service limit a h request m = service h request m).
Proof.
  unfold endpoint. destruct (method_allowed h (ar_method a)); cbn [negb]; [|left; exists method_not_allowed; split; [right; set_solver|done]].
  destruct h, (ar_content_length a) as [n|]; try (by right). destruct (limit <? n)%N; [|by right].
  left. exists payload_too_large. split; [right; set_solver|done].
Qed.

(** A request that no layer answers reaches its handler as allowed. *)
Definition served_by (service : Handler -> HttpRequest -> Sessions -> Sessions * HttpResponse) (role : Role) (auth : bool) (now : N)
  (st : AppState (V := V)) (a : Arriving) (h : Handler) (r : HttpResponse) : Prop :=
  method_allowed h (ar_method a) = true
  /\ exists request, reaches role auth now st a h request /\ r = (service h request (as_sessions st)).2.

Lemma data_plane_cases role limit now stamp o a h st :
  serves_gateway role = true -> (h = HMcp \/ exists id, h = HArtifact id) ->
  (exists st' r, own_answer r /\ forall service, guarded_handler service true limit now stamp o a h st = (st', r))
  \/ forall service, served_by service role true now st a h (guarded_handler service true limit now stamp o a h st).2.
Proof.
  intros Hrole Hh. assert (Eg : forall service, guarded_handler service true limit now stamp o a h st =
      let '(b, m, r) := protected_route (endpoint service limit a h) now stamp o (ar_request a) (as_auth st, as_sessions st) in
      ({| as_auth := b; as_admin := as_admin st; as_sessions := m |}, r)) by (by destruct Hh as [->|[id ->]]).
  setoid_rewrite Eg. clear Eg. unfold protected_route.
  assert (Hspec := require_bearer_spec now stamp o (ar_request a) (as_auth st)).
  destruct (require_bearer now stamp o (ar_request a) (as_auth st)) as [b [request|r]].
  2: { left. exists {| as_auth := b; as_admin := as_admin st; as_sessions := as_sessions st |}, r. split; [|done]. right.
       destruct Hspec as [(? & _ & _ & [=] & _)|[(x & n & _ & _ & [= ->] & _)|(_ & _ & (r' & [= ->] & Hst) & _)]]; set_solver. }
  destruct Hspec as [(who & Hc & Hw & [= ->] & _)|[(x & n & _ & _ & [=] & _)|(_ & _ & (r' & [=] & _) & _)]].
  assert (Hreach : (forall id, session_named (rq_headers (carrying (ar_request a) who)) = Some id ->
      owner_matches id (requester_of (carrying (ar_request a) who)) (as_sessions st) = true) -> reaches role true now st a h (carrying (ar_request a) who)).
  { intros Ho. destruct Hh as [->|[id ->]]; (split; [done|]); exists who; auto. }
  unfold enforce_session_owner. destruct (session_named (rq_headers (carrying (ar_request a) who))) as [id|] eqn:Es.
  - destruct (owner_matches id _ _) eqn:Eo.
    + destruct (endpoint_cases limit a h (carrying (ar_request a) who) (as_sessions st)) as [(r & Hr & He)|(Hm & He)].
      * left. eexists _, r. split; [done|]. intros service. by rewrite He.
      * right. intros service. rewrite He. split; [done|]. exists (carrying (ar_request a) who).
        split; [apply Hreach; by intros ? [= <-]|]. by destruct (service _ _ _).
    + left. eexists _, session_not_found. split; [|done]. right. set_solver.
  - destruct (endpoint_cases limit a h (carrying (ar_request a) who) (as_sessions st)) as [(r & Hr & He)|(Hm & He)].
    + left. eexists _, r. split; [done|]. intros service. by rewrite He.
    + right. intros service. rewrite He. split; [done|]. exists (carrying (ar_request a) who).
      split; [by apply Hreach|]. by destruct (service _ _ _).
Qed.

Lemma admin_cases role limit now stamp o a op st :
  serves_control role = true ->
  (exists st' r, own_answer r /\ forall service, guarded_handler service true limit now stamp o a (HAdmin op) st = (st', r))
  \/ forall service, served_by service role true now st a (HAdmin op) (guarded_handler service true limit now stamp o a (HAdmin op) st).2.
Proof.
  intros Hrole. cbn [guarded_handler]. assert (Hspec := require_bearer_spec now stamp o (ar_request a) (as_admin st)).
  destruct (require_bearer now stamp o (ar_request a) (as_admin st)) as [b [request|r]].
  - destruct Hspec as [(who & Hc & Hw & [= ->] & _)|[(x & n & _ & _ & [=] & _)|(_ & _ & (r' & [=] & _) & _)]].
    destruct (endpoint_cases limit a (HAdmin op) (carrying (ar_request a) who) (as_sessions st)) as [(r & Hr & He)|(Hm & He)].
    + left. eexists _, r. split; [done|]. intros service. by rewrite He.
    + right. intros service. rewrite He. split; [done|]. exists (carrying (ar_request a) who).
      split; [split_and!; [done..|]; by exists who|]. by destruct (service _ _ _).
  - left. eexists _, r. split; [|done]. right.
    destruct Hspec as [(? & _ & _ & [=] & _)|[(x & n & _ & _ & [= ->] & _)|(_ & _ & (r' & [= ->] & Hst) & _)]]; set_solver.
Qed.

(** A handler with no boundary of its own around it. *)
Lemma open_cases role auth limit now stamp o a h st :
  reaches role auth now st a h (ar_request a) ->
  (forall service, guarded_handler service auth limit now stamp o a h st =
     let '(m, r) := endpoint service limit a h (ar_request a) (as_sessions st) in
     ({| as_auth := as_auth st; as_admin := as_admin st; as_sessions := m |}, r)) ->
  (exists st' r, own_answer r /\ forall service, guarded_handler service auth limit now stamp o a h st = (st', r))
  \/ forall service, served_by service role auth now st a h (guarded_handler service auth limit now stamp o a h st).2.
Proof.
  intros Hreach Hg. setoid_rewrite Hg. destruct (endpoint_cases limit a h (ar_request a) (as_sessions st)) as [(r & Hr & He)|(Hm & He)].
  - left. eexists _, r. split; [done|]. intros service. by rewrite He.
  - right. intros service. rewrite He. split; [done|]. exists (ar_request a). split; [done|]. by destruct (service _ _ _).
Qed.

Lemma route_inv role auth path h : route role auth path = Some h ->
  match h with
  | HHealth | HMetrics => True
  | HMetadata => auth = true
  | HMcp | HArtifact _ => serves_gateway role = true
  | HAdmin _ => serves_control role = true /\ auth = true
  end.
Proof.
  unfold route. destruct (String.eqb path "/"); [by intros [= <-]|]. destruct (String.eqb path "/metrics"); [by intros [= <-]|].
  destruct (serves_gateway role && auth && _) eqn:Em; [intros [= <-]; by apply andb_true_iff in Em as [[_ ?]%andb_true_iff _]|].
  destruct (serves_gateway role && String.eqb path "/mcp") eqn:Ec; [intros [= <-]; by apply andb_true_iff in Ec as [? _]|]. clear Em Ec.
  destruct (if serves_gateway role then artifact_route path else None) as [h'|] eqn:Ea.
  - intros [= <-]. destruct (serves_gateway role); [|done]. unfold artifact_route in Ea. repeat case_match; simplify_eq; done.
  - destruct (serves_control role && auth) eqn:Ec; [|done]. apply andb_true_iff in Ec. destruct (below "/admin/" path); [|done]. by intros [= <-].
Qed.

Lemma origin_checked a : origin_allowlist a = None -> ar_method a = "OPTIONS" \/ origin_ok a.
Proof.
  unfold origin_allowlist. destruct (String.eqb_spec (ar_method a) "OPTIONS"); [by left|]. right. intros value Hv. rewrite Hv in *.
  destruct (header_to_str value) as [origin|]; [|done]. exists origin. split; [done|]. by destruct (is_allowed_origin origin).
Qed.

(** C7: Every request is either answered by a layer, in the same way whatever the
    services do, or reaches the handler of its path by an allowed method.
    Then it carries no foreign origin (the control role alone lets OPTIONS
    pass, to handlers that refuse it or ask for a token), and: the data plane
    is reached only on the roles that serve it and, with authentication, only
    as a cleared principal within its budget that owns the session it names;
    the administration only on the roles that serve control, with
    authentication, as a principal the administrative boundary cleared; the
    metadata only with authentication; health and metrics by anyone. *)
Theorem app_guarded role auth limit now stamp o a (st : AppState (V := V)) :
  (exists st' r, own_answer r /\ forall service, app_serve service role auth limit now stamp o a st = (st', r))
  \/ exists h, route role auth (ar_path a) = Some h
       /\ (origin_ok a \/ (ar_method a = "OPTIONS" /\ serves_gateway role = false))
       /\ forall service, served_by service role auth now st a h (app_serve service role auth limit now stamp o a st).2.
Proof.
  unfold app_serve. destruct (serves_gateway role && String.eqb (ar_method a) "OPTIONS") eqn:Ep; [left; exists st, preflight; split; [by left|done]|].
  destruct (origin_allowlist a) as [refusal|] eqn:Eo.
  { left. exists st, refusal. split; [|done]. right. unfold origin_allowlist in Eo. repeat case_match; simplify_eq; set_solver. }
  destruct (route role auth (ar_path a)) as [h|] eqn:Er; [|left; exists st, not_found; split; [right; set_solver|done]].
  pose proof (route_inv _ _ _ _ Er) as Hi.
  assert (Hcases : (exists st' r, own_answer r /\ forall service, guarded_handler service auth limit now stamp o a h st = (st', r))
    \/ forall service, served_by service role auth now st a h (guarded_handler service auth limit now stamp o a h st).2).
  { destruct h as [| | | |id|op]; try (by apply open_cases).
    - destruct auth; [apply data_plane_cases; auto|]. by apply open_cases.
    - destruct auth; [apply data_plane_cases; eauto|]. by apply open_cases.
    - destruct Hi as [Hc ->]. by apply admin_cases. }
  destruct Hcases as [Hown|Hserved]; [by left|]. right. exists h. split_and!; [done| |done].
  destruct (origin_checked a Eo) as [Hm|Hok]; [|by left]. right. split; [done|]. rewrite Hm in Ep. by destruct (serves_gateway role).
Qed.
End Reach.
