(* ===== verification/Totp.v ===== *)
(** * One-time passwords (src/src/vendor/ninjaone/totp.rs)

    RFC 6238 codes from a configured seed: reading an [otpauth] URI or a bare
    base32 secret, and the code of a time.  The URL parser and the HMAC
    implementations are parameters. *)
From S2P Require Import Prelude RustStr Json Config Scope Transport.

Inductive Algorithm := Sha1 | Sha256 | Sha512.

#[export] Instance Algorithm_eq_dec : EqDecision Algorithm.
Proof. solve_decision. Defined.

Record TotpSpec := { ts_secret : list byte; ts_algorithm : Algorithm; ts_digits : N; ts_period : N }.

(** [DIGIT_RANGE]. *)
Definition MIN_DIGITS : N := 6.
Definition MAX_DIGITS : N := 8.

Definition invalid (detail : string) : McpError :=
  auth_invalid ("NINJAONE_TOTP_SECRET is not usable: " ++ detail ++ ". Expected an otpauth://totp/... URI or a base32 secret.")%string.

(** ** Base32 *)

(** [char::is_whitespace]. *)
Definition is_whitespace (c : list byte) : bool :=
  match c with [a] => ws1 a | [a; b] => ws2 a b | [a; b; c] => ws3 a b c | _ => false end.

Definition skipped (c : list byte) : bool :=
  bool_decide (c = [byte_of 61]) || is_whitespace c || bool_decide (c = [byte_of 45]).

Definition base32_value (c : list byte) : option N :=
  match c with
  | [b] =>
      let u := ascii_upper b in
      if between 65 u 90 then Some (code u - 65)%N
      else if between 50 u 55 then Some (code u - 50 + 26)%N else None
  | _ => None
  end.

Definition U32_MASK : N := 4294967295.

(** The loop: the bits collected so far, their number, the bytes put out. *)
Fixpoint base32_loop (cs : list (list byte)) (buffer bits : N) (out : list byte) : result (list byte) McpError :=
  match cs with
  | [] => Ok out
  | c :: rest =>
      if skipped c then base32_loop rest buffer bits out
      else match base32_value c with
           | None => Err (invalid "the TOTP secret is not valid base32")
           | Some value =>
               let buffer := N.lor (N.land (N.shiftl buffer 5) U32_MASK) value in
               let bits := (bits + 5)%N in
               if (8 <=? bits)%N then
                 let bits := (bits - 8)%N in
                 base32_loop rest (N.land buffer (N.shiftl 1 bits - 1)) bits (out ++ [byte_of (N.land (N.shiftr buffer bits) 255)])
               else base32_loop rest buffer bits out
           end
  end.

Definition decode_base32 (input : string) : result (list byte) McpError :=
  let? out := base32_loop (chars (as_bytes input)) 0 0 [] in
  if bool_decide (out = []) then Err (invalid "the TOTP secret decoded to no bytes") else Ok out.

(** ** Specifications *)

Section Otp.
(** [url::Url::parse] with the host and the query pairs of the result. *)
Variable parse_url : string -> result (option string * list (string * string)) string.
(** The three HMACs: [None] for a key the implementation refuses. *)
Variable hmac : Algorithm -> list byte -> list byte -> option (list byte).

Definition algorithm_of (value : string) : result Algorithm McpError :=
  let v := to_ascii_uppercase value in
  if String.eqb v "SHA1" then Ok Sha1
  else if String.eqb v "SHA256" then Ok Sha256
  else if String.eqb v "SHA512" then Ok Sha512
  else Err (invalid ("unsupported otpauth algorithm `" ++ v ++ "`; expected SHA1, SHA256, or SHA512")%string).

Definition digits_of (value : string) : result N McpError :=
  match parse_unsigned U32_MASK value with
  | Some d => if (MIN_DIGITS <=? d)%N && (d <=? MAX_DIGITS)%N then Ok d
              else Err (invalid ("otpauth `digits` must be between 6 and 8, got `" ++ value ++ "`")%string)
  | None => Err (invalid ("otpauth `digits` must be between 6 and 8, got `" ++ value ++ "`")%string)
  end.

Definition period_of (value : string) : result N McpError :=
  match parse_unsigned U64_MAX value with
  | Some p => if (0 <? p)%N then Ok p else Err (invalid ("otpauth `period` must be a positive number of seconds, got `" ++ value ++ "`")%string)
  | None => Err (invalid ("otpauth `period` must be a positive number of seconds, got `" ++ value ++ "`")%string)
  end.

Fixpoint read_pairs (pairs : list (string * string)) (secret : option (list byte)) (algorithm : Algorithm) (digits period : N)
  : result TotpSpec McpError :=
  match pairs with
  | [] => match secret with
          | Some s => Ok {| ts_secret := s; ts_algorithm := algorithm; ts_digits := digits; ts_period := period |}
          | None => Err (invalid "the otpauth URI has no `secret` parameter")
          end
  | (key, value) :: rest =>
      if String.eqb key "secret" then let? s := decode_base32 value in read_pairs rest (Some s) algorithm digits period
      else if String.eqb key "algorithm" then let? a := algorithm_of value in read_pairs rest secret a digits period
      else if String.eqb key "digits" then let? d := digits_of value in read_pairs rest secret algorithm d period
      else if String.eqb key "period" then let? p := period_of value in read_pairs rest secret algorithm digits p
      else read_pairs rest secret algorithm digits period
  end.

Definition parse_uri (spec : string) : result TotpSpec McpError :=
  match parse_url spec with
  | Err e => Err (invalid ("the otpauth URI could not be parsed: " ++ e)%string)
  | Ok (host, pairs) =>
      if is_some_and host (fun h => eq_ignore_ascii_case h "totp") then read_pairs pairs None Sha1 6 30
      else Err (invalid "only otpauth://totp/... URIs are supported (a counter-based otpauth://hotp/... URI cannot produce a time-based code)")
  end.

(** [spec[..8]] panics when byte 8 is inside a character: [None]. *)
Definition totp_parse (raw : string) : option (result TotpSpec McpError) :=
  let spec := trim raw in
  if str_is_empty spec then Some (Err (invalid "the TOTP secret is empty"))
  else if (8 <=? str_len spec)%nat then
    if match as_bytes spec !! 8%nat with Some b => is_cont b | None => false end then None
    else if eq_ignore_ascii_case (of_bytes (take 8 (as_bytes spec))) "otpauth:" then Some (parse_uri spec)
    else Some (let? s := decode_base32 spec in Ok {| ts_secret := s; ts_algorithm := Sha1; ts_digits := 6; ts_period := 30 |})
  else Some (let? s := decode_base32 spec in Ok {| ts_secret := s; ts_algorithm := Sha1; ts_digits := 6; ts_period := 30 |}).

(** ** Codes *)

(** [u64::to_be_bytes] and [u32::from_be_bytes]. *)
Definition to_be_bytes (n : N) : list byte := map (fun i => byte_of (N.land (N.shiftr n (8 * (7 - N.of_nat i))) 255)) (seq 0 8).
Definition from_be_bytes (l : list byte) : N := foldl (fun acc b => (acc * 256 + code b)%N) 0%N l.

(** [format] with a width: zeros before the digits. *)
Definition zero_padded (width : nat) (n : N) : list byte :=
  let digits := render_u64 n in replicate (width - length digits) (digit 0) ++ digits.

(** [None]: an index out of range, or a division by zero. *)
Definition code_at (t : TotpSpec) (unix_seconds : N) : option (result string McpError) :=
  if (ts_period t =? 0)%N then None
  else
    let counter := (unix_seconds / ts_period t)%N in
    match hmac (ts_algorithm t) (ts_secret t) (to_be_bytes counter) with
    | None => Some (Err (invalid "the TOTP secret is empty after base32 decoding"))
    | Some tag =>
        end_ ← last tag;
        let offset := N.to_nat (N.land (code end_) 15) in
        b0 ← tag !! offset; b1 ← tag !! (offset + 1)%nat; b2 ← tag !! (offset + 2)%nat; b3 ← tag !! (offset + 3)%nat;
        let binary := from_be_bytes [byte_of (N.land (code b0) 127); b1; b2; b3] in
        Some (Ok (of_bytes (zero_padded (N.to_nat (ts_digits t)) (binary mod 10 ^ ts_digits t))))
    end.

Definition current_code (t : TotpSpec) (now : option N) : option (result string McpError) :=
  match now with
  | None => Some (Err (unexpected "the system clock is set before 1970, so no TOTP code can be derived" None))
  | Some seconds => code_at t seconds
  end.

(** ** RFC 4226 and RFC 4648 *)

(** The dynamic truncation of RFC 4226: the four bytes at the offset the last
    byte names, modulo 2^31. *)
Definition dynamic_truncation (tag : list byte) : N :=
  let offset := N.to_nat (code (default (byte_of 0) (last tag)) mod 16) in
  (from_be_bytes (take 4 (drop offset tag)) mod 2 ^ 31)%N.

Definition hash_len (a : Algorithm) : nat := match a with Sha1 => 20 | Sha256 => 32 | Sha512 => 64 end%nat.

Lemma code_mod b : (code b mod 16 = N.land (code b) 15)%N.
Proof. symmetry. apply (N.land_ones (code b) 4). Qed.

Lemma truncation_exact b0 b1 b2 b3 :
  (from_be_bytes [b0; b1; b2; b3] mod 2 ^ 31 = from_be_bytes [byte_of (N.land (code b0) 127); b1; b2; b3])%N.
Proof.
  unfold from_be_bytes. cbn [foldl]. pose proof (code_bound b0). pose proof (code_bound b1). pose proof (code_bound b2). pose proof (code_bound b3).
  assert (Hc : code (byte_of (N.land (code b0) 127)) = (code b0 mod 128)%N).
  { replace (N.land (code b0) 127) with (code b0 mod 128)%N by (symmetry; apply (N.land_ones (code b0) 7)). unfold code at 1, byte_of. apply N_ascii_embedding.
    pose proof (N.mod_lt (code b0) 128). lia. }
  rewrite Hc. change (2 ^ 31)%N with 2147483648%N. rewrite (N.div_mod (code b0) 128) at 1 by lia.
  pose proof (N.mod_lt (code b0) 128 ltac:(lia)). set (q := (code b0 / 128)%N). set (r := (code b0 mod 128)%N) in *.
  symmetry. apply (N.mod_unique _ _ q); lia.
Qed.

Lemma render_length fuel : forall value out k,
  (1 <= k <= fuel)%nat -> (value < 10 ^ N.of_nat k)%N -> (length (render_loop fuel value out) <= k + length out)%nat.
Proof.
  induction fuel as [|fuel IH]; intros value out k Hk Hv; [lia|]. cbn [render_loop].
  destruct (N.eqb_spec (value / 10) 0) as [|Hne]; [cbn; lia|]. destruct k as [|k]; [lia|].
  assert (Hk' : (1 <= k)%nat).
  { destruct k; [|lia]. exfalso. apply Hne. apply N.div_small. exact Hv. }
  etrans; [apply (IH _ _ k)|cbn; lia]; [lia|]. apply N.Div0.div_lt_upper_bound.
  rewrite Nat2N.inj_succ, N.pow_succ_r' in Hv. exact Hv.
Qed.

Lemma parse_zeros n l : parse_loop (replicate n (digit 0) ++ l) 0 = parse_loop l 0.
Proof. induction n as [|n IH]; [done|]. exact IH. Qed.

Lemma parse_digits l : forall acc v, parse_loop l acc = Some v -> Forall (fun b => is_ascii_digit b = true) l.
Proof.
  induction l as [|b l IH]; intros acc v; [constructor|]. cbn [parse_loop]. destruct (is_ascii_digit b) eqn:Eb; [|done].
  destruct (_ <? _)%N; [done|]. intros Hp. constructor; [done|by eapply IH].
Qed.

Lemma zero_padded_exact width n :
  (1 <= width <= 20)%nat -> (n < 10 ^ N.of_nat width)%N -> (n <= U64_MAX)%N ->
  length (zero_padded width n) = width /\ parse_loop (zero_padded width n) 0 = Some n
  /\ Forall (fun b => is_ascii_digit b = true) (zero_padded width n).
Proof.
  intros Hw Hn Hm. unfold zero_padded.
  assert (Hp : parse_loop (replicate (width - length (render_u64 n)) (digit 0) ++ render_u64 n) 0 = Some n).
  { rewrite parse_zeros. unfold render_u64, MAX_U64_DIGITS. destruct (parse_render_loop 20 n [] ltac:(change (10 ^ N.of_nat 20)%N with 100000000000000000000%N; unfold U64_MAX in Hm; lia) Hm) as [->|]; done. }
  split; [|split; [done|by eapply parse_digits]]. rewrite length_app, length_replicate.
  assert (Hl : (length (render_u64 n) <= width)%nat).
  { unfold render_u64. etrans; [apply (render_length _ _ _ width)|cbn; lia]; [unfold MAX_U64_DIGITS; lia|done]. }
  lia.
Qed.

(** What reading a specification leaves: a whole number of digits in range and
    a period that is not zero. *)
Definition spec_ok (t : TotpSpec) : Prop :=
  ts_secret t <> [] /\ (MIN_DIGITS <= ts_digits t <= MAX_DIGITS)%N /\ (0 < ts_period t)%N.

Lemma decode_nonempty input out : decode_base32 input = Ok out -> out <> [].
Proof.
  unfold decode_base32. destruct (base32_loop _ _ _ _) as [o|]; [|done]. cbn. destruct (bool_decide (o = [])) eqn:E; [done|].
  apply bool_decide_eq_false in E. by intros [= <-].
Qed.

Lemma read_pairs_ok pairs : forall secret algorithm digits period t,
  is_none_or secret (fun s => negb (bool_decide (s = []))) = true -> (MIN_DIGITS <= digits <= MAX_DIGITS)%N -> (0 < period)%N ->
  read_pairs pairs secret algorithm digits period = Ok t -> spec_ok t.
Proof.
  induction pairs as [|[key value] pairs IH]; intros secret algorithm digits period t Hs Hd Hp; cbn [read_pairs].
  - destruct secret as [s|]; [|done]. intros [= <-]. cbn in Hs. apply negb_true_iff, bool_decide_eq_false in Hs. done.
  - destruct (String.eqb key "secret").
    { destruct (decode_base32 value) as [s|] eqn:Es; [|done]. apply IH; try done. cbn.
      apply decode_nonempty in Es. by apply negb_true_iff, bool_decide_eq_false. }
    destruct (String.eqb key "algorithm"); [destruct (algorithm_of value); [|done]; by apply IH|].
    destruct (String.eqb key "digits").
    { unfold digits_of. destruct (parse_unsigned _ value) as [d|]; [|done].
      destruct (N.leb_spec MIN_DIGITS d); [|done]. destruct (N.leb_spec d MAX_DIGITS); [|done]. cbn. by apply IH. }
    destruct (String.eqb key "period"); [|by apply IH].
    unfold period_of. destruct (parse_unsigned _ value) as [p|]; [|done]. destruct (N.ltb_spec 0 p); [|done]. cbn. by apply IH.
Qed.

Lemma totp_parse_ok raw t : totp_parse raw = Some (Ok t) -> spec_ok t.
Proof.
  assert (Hbare : forall s, (let? s := decode_base32 s in Ok {| ts_secret := s; ts_algorithm := Sha1; ts_digits := 6; ts_period := 30 |} : result TotpSpec McpError) = Ok t -> spec_ok t).
  { intros s. destruct (decode_base32 s) as [o|] eqn:E; [|done]. cbn. intros [= <-]. apply decode_nonempty in E. by split_and!. }
  unfold totp_parse. destruct (str_is_empty _); [done|]. destruct (_ <=? _)%nat; [|intros [= H]; by eapply Hbare].
  destruct (match as_bytes (trim raw) !! 8%nat with Some _ => _ | None => _ end); [done|].
  destruct (eq_ignore_ascii_case _ _); [|intros [= H]; by eapply Hbare].
  unfold parse_uri. intros [= H]. destruct (parse_url (trim raw)) as [[host pairs]|]; [|done].
  destruct (is_some_and host _); [|done]. by eapply read_pairs_ok in H.
Qed.

(** The codes are RFC 6238's.  A specification that was read gives, for every
    time and with tags of the hash's length, a code and never a panic: the
    dynamic truncation of the HMAC of the time step, modulo the power of ten
    of the digits asked for, in exactly that many decimal digits (six to
    eight); and the same code throughout a step. *)
Theorem totp_code_exact raw t unix :
  (forall a k m, exists tag, hmac a k m = Some tag /\ length tag = hash_len a) ->
  totp_parse raw = Some (Ok t) ->
  exists tag code, hmac (ts_algorithm t) (ts_secret t) (to_be_bytes (unix / ts_period t)) = Some tag
    /\ code_at t unix = Some (Ok code)
    /\ (6 <= str_len code <= 8)%nat /\ str_len code = N.to_nat (ts_digits t)
    /\ Forall (fun b => is_ascii_digit b = true) (as_bytes code)
    /\ parse_u64 code = Some (dynamic_truncation tag mod 10 ^ ts_digits t)%N
    /\ forall later, (later / ts_period t = unix / ts_period t)%N -> code_at t later = code_at t unix.
Proof.
  intros Hlen Hparse. destruct (totp_parse_ok _ _ Hparse) as (_ & Hd & Hp).
  destruct (Hlen (ts_algorithm t) (ts_secret t) (to_be_bytes (unix / ts_period t))) as (tag & Htag & Hl). exists tag.
  assert (Hl19 : (19 <= length tag)%nat) by (destruct (ts_algorithm t); cbn in Hl; lia).
  destruct (last tag) as [e|] eqn:Ee; [|apply last_None in Ee; subst; cbn in Hl19; lia].
  set (offset := N.to_nat (N.land (code e) 15)).
  assert (Ho : (offset <= 15)%nat) by (unfold offset; rewrite <- code_mod; pose proof (N.mod_lt (code e) 16); lia).
  destruct (lookup_lt_is_Some_2 tag offset) as [b0 E0]; [lia|]. destruct (lookup_lt_is_Some_2 tag (offset + 1)) as [b1 E1]; [lia|].
  destruct (lookup_lt_is_Some_2 tag (offset + 2)) as [b2 E2]; [lia|]. destruct (lookup_lt_is_Some_2 tag (offset + 3)) as [b3 E3]; [lia|].
  set (binary := from_be_bytes [byte_of (N.land (code b0) 127); b1; b2; b3]).
  assert (Hcode : code_at t unix = Some (Ok (of_bytes (zero_padded (N.to_nat (ts_digits t)) (binary mod 10 ^ ts_digits t))))).
  { unfold code_at. replace (ts_period t =? 0)%N with false by (symmetry; apply N.eqb_neq; lia). cbv zeta. rewrite Htag, Ee. cbn [mbind option_bind]. fold offset.
    rewrite E0, E1, E2, E3. done. }
  eexists. split; [done|]. split; [exact Hcode|].
  assert (Hpow : (10 ^ ts_digits t <= 100000000)%N) by (change 100000000%N with (10 ^ 8)%N; apply N.pow_le_mono_r; unfold MAX_DIGITS in Hd; lia).
  assert (Hlt : (binary mod 10 ^ ts_digits t < 10 ^ ts_digits t)%N) by (apply N.mod_lt, N.pow_nonzero; lia).
  destruct (zero_padded_exact (N.to_nat (ts_digits t)) (binary mod 10 ^ ts_digits t)) as (Hz & Hv & Hall).
  { unfold MIN_DIGITS, MAX_DIGITS in Hd. lia. } { by rewrite N2Nat.id. } { unfold U64_MAX. lia. }
  rewrite !str_len_bytes, as_of_bytes, Hz. unfold MIN_DIGITS, MAX_DIGITS in Hd. split; [lia|]. split; [done|]. split; [done|].
  assert (Hdt : dynamic_truncation tag = binary).
  { unfold dynamic_truncation. rewrite Ee. cbn [default from_option id]. rewrite code_mod. fold offset. unfold binary. rewrite <- truncation_exact. f_equal. f_equal.
    rewrite (drop_S _ _ _ E0). rewrite Nat.add_1_r in E1. rewrite (drop_S _ _ _ E1).
    replace (offset + 2)%nat with (S (S offset)) in E2 by lia. rewrite (drop_S _ _ _ E2). replace (offset + 3)%nat with (S (S (S offset))) in E3 by lia.
    by rewrite (drop_S _ _ _ E3). }
  split.
  - rewrite Hdt. unfold parse_u64. rewrite as_of_bytes. destruct (zero_padded _ _) eqn:Ez; [cbn in Hz; lia|]. done.
  - intros later Hlater. rewrite Hcode. unfold code_at in Hcode |- *. by rewrite Hlater.
Qed.
End Otp.

(** ** The base32 of RFC 4648 *)

(** Most significant bit first. *)
Definition bits_of (width : nat) (n : N) : list bool := map (fun i => N.testbit n (N.of_nat (width - 1 - i))) (seq 0 width).
Definition bits_value (l : list bool) : N := foldl (fun acc b => (2 * acc + N.b2n b)%N) 0%N l.

(** Groups of five bits, the last filled with zeros. *)
Fixpoint quintets (l : list bool) : list N :=
  match l with
  | a :: b :: c :: d :: e :: rest => bits_value [a; b; c; d; e] :: quintets rest
  | [] => []
  | _ => [bits_value (l ++ replicate (5 - length l) false)]
  end.

Definition base32_char (v : N) : byte := if (v <? 26)%N then byte_of (65 + v) else byte_of (50 + (v - 26)).

(** The encoding without its padding. *)
Definition encode_base32 (bytes : list byte) : list byte := map base32_char (quintets (flat_map (fun b => bits_of 8 (code b)) bytes)).

(** What the decoder reads of a text: its characters without padding, spaces
    and hyphens, in upper case. *)
Definition base32_content (input : string) : list (list byte) :=
  map (map ascii_upper) (List.filter (fun c => negb (skipped c)) (chars (as_bytes input))).

(** Whole bytes of a list of bits. *)
Fixpoint full_bytes (l : list bool) : list byte :=
  match l with
  | a :: b :: c :: d :: e :: f :: g :: h :: rest => byte_of (bits_value [a; b; c; d; e; f; g; h]) :: full_bytes rest
  | _ => []
  end.

Lemma bits_value_app l1 l2 : bits_value (l1 ++ l2) = (bits_value l1 * 2 ^ N.of_nat (length l2) + bits_value l2)%N.
Proof.
  unfold bits_value. rewrite foldl_app. generalize (foldl (fun acc b => (2 * acc + N.b2n b)%N) 0%N l1) as x.
  induction l2 as [|b l2 IH] using rev_ind; intros x; [cbn; lia|]. rewrite !foldl_app, IH. cbn [foldl]. rewrite length_app, Nat.add_1_r, Nat2N.inj_succ, N.pow_succ_r'. lia.
Qed.

Lemma bits_value_bound l : (bits_value l < 2 ^ N.of_nat (length l))%N.
Proof.
  induction l as [|b l IH] using rev_ind; [done|]. rewrite bits_value_app, length_app, Nat.add_1_r, Nat2N.inj_succ, N.pow_succ_r'.
  cbn [length]. change (N.of_nat 1) with 1%N. destruct b; cbn -[N.pow N.mul]; lia.
Qed.

Lemma buffer_step : forallb (fun buffer => forallb (fun v =>
  (N.lor (N.land (N.shiftl (N.of_nat buffer) 5) U32_MASK) (N.of_nat v) =? N.of_nat buffer * 32 + N.of_nat v)%N) (seq 0 32)) (seq 0 128) = true.
Proof. vm_compute. reflexivity. Qed.

Lemma buffer_append p q : (length p < 8)%nat -> length q = 5%nat ->
  N.lor (N.land (N.shiftl (bits_value p) 5) U32_MASK) (bits_value q) = bits_value (p ++ q).
Proof.
  intros Hp Hq. pose proof (bits_value_bound p) as Bp. pose proof (bits_value_bound q) as Bq. rewrite Hq in Bq.
  assert (Hp' : (bits_value p < 128)%N).
  { eapply N.lt_le_trans; [exact Bp|]. change 128%N with (2 ^ 7)%N. apply N.pow_le_mono_r; lia. }
  rewrite bits_value_app, Hq. change (2 ^ N.of_nat 5)%N with 32%N in *.
  pose proof buffer_step as H. rewrite forallb_elem_of in H. specialize (H (N.to_nat (bits_value p))). rewrite forallb_elem_of in H.
  rewrite <- (N2Nat.id (bits_value p)), <- (N2Nat.id (bits_value q)). apply N.eqb_eq, H; apply elem_of_seq; lia.
Qed.

Lemma full_bytes_step (l rest : list bool) : (8 <= length l)%nat ->
  full_bytes (l ++ rest) = byte_of (bits_value (take 8 l)) :: full_bytes (drop 8 l ++ rest).
Proof. intros Hl. do 8 (destruct l as [|? l]; [cbn in Hl; lia|]). done. Qed.

Lemma full_bytes_short l : (length l < 8)%nat -> full_bytes l = [].
Proof. intros Hl. do 8 (destruct l as [|? l]; [done|]). cbn in Hl. lia. Qed.

(** A character stands for five bits. *)
Definition stands_for (c : list byte) (q : list bool) : Prop := skipped c = false /\ base32_value c = Some (bits_value q) /\ length q = 5%nat.

Lemma base32_loop_bits cs qs : Forall2 stands_for cs qs -> forall p out, (length p < 8)%nat ->
  base32_loop cs (bits_value p) (N.of_nat (length p)) out = Ok (out ++ full_bytes (p ++ mjoin qs)).
Proof.
  induction 1 as [|c q cs qs (Hs & Hv & Hq) _ IH]; intros p out Hp; cbn [base32_loop mjoin list_join].
  { by rewrite app_nil_r, full_bytes_short, app_nil_r. }
  rewrite Hs, Hv, buffer_append by done. cbv zeta. set (pq := p ++ q). assert (Hl : length pq = (length p + 5)%nat) by (unfold pq; rewrite length_app; lia).
  rewrite app_assoc. fold pq. replace (N.of_nat (length p) + 5)%N with (N.of_nat (length pq)) by lia.
  destruct (N.leb_spec 8 (N.of_nat (length pq))) as [H8|H8]; [|apply IH; lia].
  rewrite full_bytes_step by lia. replace (N.of_nat (length pq) - 8)%N with (N.of_nat (length (drop 8 pq))) by (rewrite length_drop; lia).
  assert (Hval : bits_value pq = (bits_value (take 8 pq) * 2 ^ N.of_nat (length (drop 8 pq)) + bits_value (drop 8 pq))%N)
    by (rewrite <- bits_value_app, take_drop; done).
  pose proof (bits_value_bound (drop 8 pq)) as Bd. pose proof (bits_value_bound (take 8 pq)) as Bt. rewrite length_take in Bt.
  replace (8 `min` length pq)%nat with 8%nat in Bt by lia. set (k := N.of_nat (length (drop 8 pq))) in *.
  assert (Hk : (2 ^ k <> 0)%N) by (apply N.pow_nonzero; lia).
  rewrite N.shiftl_1_l, N.sub_1_r, <- N.ones_equiv, N.land_ones, N.shiftr_div_pow2. change 255%N with (N.ones 8). rewrite N.land_ones.
  replace (bits_value pq mod 2 ^ k)%N with (bits_value (drop 8 pq)) by (apply (N.mod_unique _ _ (bits_value (take 8 pq))); [done|lia]).
  replace (bits_value pq / 2 ^ k)%N with (bits_value (take 8 pq)) by (apply (N.div_unique _ _ _ (bits_value (drop 8 pq))); [done|lia]).
  rewrite N.mod_small by exact Bt. unfold k. rewrite IH by (rewrite length_drop; lia). by rewrite <- app_assoc.
Qed.

Lemma bits5 q : length q = 5%nat -> bits_of 5 (bits_value q) = q.
Proof. intros Hq. do 5 (destruct q as [|[] q]; [done|..]). all: destruct q; [reflexivity|done]. Qed.
Lemma quintets_bits n : forall l, (length l <= n)%nat ->
  exists qs k, Forall2 (fun v q => v = bits_value q /\ length q = 5%nat) (quintets l) qs /\ mjoin qs = l ++ replicate k false /\ (k < 5)%nat.
Proof.
  induction n as [|n IH]; intros l Hl; [destruct l; [exists [], 0%nat; by split_and!; [constructor| |lia]|cbn in Hl; lia]|].
  destruct l as [|a [|b [|c [|d [|e rest]]]]].
  1: exists [], 0%nat; by split_and!; [constructor| |lia].
  1: exists [[a; false; false; false; false]], 4%nat. 2: exists [[a; b; false; false; false]], 3%nat.
  3: exists [[a; b; c; false; false]], 2%nat. 4: exists [[a; b; c; d; false]], 1%nat.
  1-4: split; [constructor; [by split|constructor]|split; [done|lia]].
  destruct (IH rest) as (qs & k & Hall & Hj & Hk); [cbn in Hl; lia|]. exists ([a; b; c; d; e] :: qs), k.
  split; [constructor; [by split|done]|]. split; [|done]. change (mjoin ([a; b; c; d; e] :: qs)) with ([a; b; c; d; e] ++ mjoin qs). by rewrite Hj.
Qed.

Lemma full_bytes_of bytes tail : (length tail < 8)%nat -> full_bytes (flat_map (fun b => bits_of 8 (code b)) bytes ++ tail) = bytes.
Proof.
  intros Ht. induction bytes as [|b bytes IH]; [by apply full_bytes_short|]. cbn [flat_map]. rewrite <- app_assoc, full_bytes_step by done.
  rewrite take_ge by done. rewrite drop_ge by done. cbn [app]. rewrite IH. f_equal.
  pose proof (byte_forall (fun b => beqb (byte_of (bits_value (bits_of 8 (code b)))) b) eq_refl b) as H. by apply beqb_eq.
Qed.

Lemma alphabet : forallb (fun v => bool_decide (base32_value [base32_char (N.of_nat v)] = Some (N.of_nat v))
  && beqb (ascii_upper (base32_char (N.of_nat v))) (base32_char (N.of_nat v))) (seq 0 32) = true.
Proof. vm_compute. reflexivity. Qed.

Lemma alphabet_value v c : (v < 32)%N -> map ascii_upper c = [base32_char v] -> base32_value c = Some v.
Proof.
  intros Hv Hc. destruct c as [|b [|]]; [done| |done]. injection Hc as Hc. pose proof alphabet as H. rewrite forallb_elem_of in H.
  specialize (H (N.to_nat v)). rewrite elem_of_seq, N2Nat.id in H. apply andb_true_iff in H as [H1 H2]; [|lia].
  apply bool_decide_eq_true in H1. apply beqb_eq in H2. rewrite <- H1. cbn [base32_value]. by rewrite Hc, H2.
Qed.

(** Skipped characters change nothing. *)
Lemma base32_loop_filter cs : forall buffer bits out,
  base32_loop cs buffer bits out = base32_loop (List.filter (fun c => negb (skipped c)) cs) buffer bits out.
Proof.
  induction cs as [|c cs IH]; intros buffer bits out; [done|]. cbn [List.filter]. destruct (skipped c) eqn:E; cbn [negb base32_loop]; rewrite E; [apply IH|].
  destruct (base32_value c); [|done]. cbv zeta. destruct (_ <=? _)%N; apply IH.
Qed.

(** The decoder inverts RFC 4648's encoder, however a secret is written: for
    any bytes, every text whose characters, without padding, white space and
    hyphens and in either case, are the encoding of the bytes decodes to
    exactly these bytes. *)
Theorem base32_roundtrip bytes input :
  bytes <> [] -> base32_content input = map (fun b => [b]) (encode_base32 bytes) -> decode_base32 input = Ok bytes.
Proof.
  intros Hne Hc. unfold decode_base32. rewrite base32_loop_filter.
  destruct (quintets_bits _ (flat_map (fun b => bits_of 8 (code b)) bytes) (Nat.le_refl _)) as (qs & k & Hall & Hj & Hk).
  assert (Hst : Forall2 stands_for (List.filter (fun c => negb (skipped c)) (chars (as_bytes input))) qs).
  { assert (Hskip : Forall (fun c => skipped c = false) (List.filter (fun c => negb (skipped c)) (chars (as_bytes input)))).
    { apply Forall_forall. intros c Hin. apply list_elem_of_In, List.filter_In in Hin as [_ Hn]. by apply negb_true_iff. }
    unfold base32_content, encode_base32 in Hc. revert Hskip Hc. generalize (List.filter (fun c => negb (skipped c)) (chars (as_bytes input))) as cs.
    generalize dependent (quintets (flat_map (fun b => bits_of 8 (code b)) bytes)). clear. intros vs Hall.
    induction Hall as [|v q vs qs [-> Hq] _ IH]; intros [|c cs] Hs Hc; try done. cbn [map] in Hc. injection Hc as H1 H2.
    apply Forall_cons in Hs as [Hs Hs']. constructor; [|by apply IH]. split; [done|]. split; [|done]. apply alphabet_value; [|done].
    pose proof (bits_value_bound q) as Hb. by rewrite Hq in Hb. }
  pose proof (base32_loop_bits _ _ Hst [] [] ltac:(cbn; lia)) as Hloop. change (bits_value []) with 0%N in Hloop. change (N.of_nat (length [])) with 0%N in Hloop.
  rewrite Hloop. cbn [app]. rewrite Hj, full_bytes_of by (rewrite length_replicate; lia).
  cbn. by rewrite bool_decide_eq_false_2.
Qed.

Module TotpWitness.
(** "Hello!" as an authenticator shows it. *)
Lemma base32_roundtrip_witness : decode_base32 "jbsw y3dp-ee======" = Ok (as_bytes "Hello!").
Proof. apply base32_roundtrip; [discriminate|vm_compute; reflexivity]. Defined.

Definition zero_hmac (a : Algorithm) (_ _ : list byte) : option (list byte) := Some (replicate (hash_len a) (byte_of 255)).

Lemma totp_code_exact_witness : code_at zero_hmac {| ts_secret := as_bytes "Hello!"; ts_algorithm := Sha1; ts_digits := 6; ts_period := 30 |} 59 = Some (Ok "483647").
Proof.
  assert (Hp : totp_parse (fun _ => Err "") "JBSWY3DPEE" = Some (Ok {| ts_secret := as_bytes "Hello!"; ts_algorithm := Sha1; ts_digits := 6; ts_period := 30 |}))
    by (vm_compute; reflexivity).
  assert (Hl : forall a k m, exists tag, zero_hmac a k m = Some tag /\ length tag = hash_len a) by (intros a k m; eexists; split; [reflexivity|apply length_replicate]).
  destruct (totp_code_exact (fun _ => Err "") zero_hmac _ _ 59 Hl Hp) as (tag & code & _ & Hc & _). rewrite Hc. vm_compute in Hc. exact (eq_sym Hc).
Defined.
End TotpWitness.

(** A value whose eighth byte is inside a character panics instead of being
    refused. *)
Lemma totp_parse_panics parse_url : totp_parse parse_url (of_bytes (as_bytes "aaaaaaa" ++ [byte_of 195; byte_of 169])) = None.
Proof. vm_compute. reflexivity. Qed.
