(* ===== verification/Tokens.v ===== *)
(** * Vendor token caches (src/src/vendor/mend/token.rs, src/src/vendor/zoom/token.rs)

    Zoom and Mend calls carry a short-lived bearer that the server exchanges
    its configured credentials for.  Both caches hold one token for one
    identity behind a read-write lock: a call looks at it under the read lock,
    and if it cannot use it takes the write lock, looks again, exchanges and
    stores.  The write lock is held across the exchange, so a call is two
    critical sections, and they interleave.  Times are milliseconds of the
    monotonic clock.  The texts of JSON errors are left out.  What differs is how a new token is obtained; Zoom has no
    refresh tokens and leaves these fields of the entry empty. *)
From S2P Require Import Prelude RustStr Json PolicyTypes Scope Transport.

Definition EXPIRY_SKEW : N := 60000.
Definition MIN_LIFETIME : N := 1000.

(** [ttl.saturating_sub(EXPIRY_SKEW).max(1 s)]. *)
Definition effective (ttl : N) : N := N.max (ttl - EXPIRY_SKEW) MIN_LIFETIME.

(** What comes back of a request: an error of the client, or a status and a
    body, whose bounded read may fail as well. *)
Inductive TokenReply := TFailed (text : string) | TReplied (status : N) (body : result string McpError).

(** [K] is the identity a token is for, [R] a request to the token endpoint. *)
Record TokenCached (K : Type) := {
  tc_key : K;
  tc_token : string;
  tc_expires_at : N;
  tc_refresh_token : option string;
  tc_refresh_expires_at : N;
}.
Arguments tc_key {K}. Arguments tc_token {K}. Arguments tc_expires_at {K}.
Arguments tc_refresh_token {K}. Arguments tc_refresh_expires_at {K}.

Inductive TokenEvent (K R : Type) :=
| TAsked (r : R) (reply : TokenReply)
| TStored (c : TokenCached K) (ttl now : N)
| TServed (key : K) (token : string) (now : option N).
Arguments TAsked {K R}. Arguments TStored {K R}. Arguments TServed {K R}.

Record TokenWorld (K R : Type) := { tw_step : nat; tw_cache : option (TokenCached K); tw_log : list (TokenEvent K R) }.
Arguments tw_step {K R}. Arguments tw_cache {K R}. Arguments tw_log {K R}.

Record TokenEnv := { te_now : nat -> N; te_reply : nat -> TokenReply }.

(** What an exchange yields: the token, its reported lifetime, the refresh
    token to keep and how long to keep it. *)
Record Fresh := { fr_token : string; fr_ttl : N; fr_refresh_token : option string; fr_refresh_expires_at : N }.

Section Cache.
Context {K R : Type} `{EqDecision K}.
Variable env : TokenEnv.

Definition TM (A : Type) : Type := TokenWorld K R -> TokenWorld K R * A.
Definition tret {A} (a : A) : TM A := fun w => (w, a).
Definition tbind {A B} (m : TM A) (k : A -> TM B) : TM B := fun w => let '(w', a) := m w in k a w'.
Definition ttry {A B} (m : TM (result A McpError)) (k : A -> TM (result B McpError)) : TM (result B McpError) :=
  tbind m (fun r => match r with Ok a => k a | Err e => tret (Err e) end).

Definition instant_now : TM N := fun w => ({| tw_step := S (tw_step w); tw_cache := tw_cache w; tw_log := tw_log w |}, te_now env (tw_step w)).
Definition note (e : TokenEvent K R) : TM unit := fun w => ({| tw_step := tw_step w; tw_cache := tw_cache w; tw_log := tw_log w ++ [e] |}, tt).
Definition post (r : R) : TM TokenReply := fun w =>
  let reply := te_reply env (tw_step w) in
  ({| tw_step := S (tw_step w); tw_cache := tw_cache w; tw_log := tw_log w ++ [TAsked r reply] |}, reply).
Definition held : TM (option (TokenCached K)) := fun w => (w, tw_cache w).
Definition store (c : TokenCached K) (ttl now : N) : TM unit := fun w =>
  ({| tw_step := tw_step w; tw_cache := Some c; tw_log := tw_log w ++ [TStored c ttl now] |}, tt).

(** Both paths look at the entry the same way. *)
Definition usable (key : K) : TM (option string) :=
  tbind held (fun c =>
    match c with
    | Some c =>
        if bool_decide (tc_key c = key) then
          tbind instant_now (fun now =>
            if (now <? tc_expires_at c)%N then tbind (note (TServed key (tc_token c) (Some now))) (fun _ => tret (Some (tc_token c)))
            else tret None)
        else tret None
    | None => tret None
    end).

(** Under the write lock: look again, obtain, store. *)
Definition bearer_write (key : K) (obtain : option (TokenCached K) -> TM (result Fresh McpError)) : TM (result string McpError) :=
  tbind (usable key) (fun found =>
    match found with
    | Some token => tret (Ok token)
    | None =>
        tbind held (fun c =>
        ttry (obtain c) (fun fresh =>
        tbind instant_now (fun now =>
        tbind (store {| tc_key := key; tc_token := fr_token fresh; tc_expires_at := now + effective (fr_ttl fresh);
                        tc_refresh_token := fr_refresh_token fresh; tc_refresh_expires_at := fr_refresh_expires_at fresh |} (fr_ttl fresh) now) (fun _ =>
        tbind (note (TServed key (fr_token fresh) None)) (fun _ => tret (Ok (fr_token fresh)))))))
    end).
End Cache.
Arguments TM : clear implicits.

(** ** Zoom *)

Record ZoomKey := { zk_account_id : string; zk_client_id : string; zk_token_url : string; zk_secret_fp : N }.
#[export] Instance ZoomKey_eq_dec : EqDecision ZoomKey.
Proof. solve_decision. Defined.

(** The form body and the Basic credentials go to the token URL. *)
Record ZoomRequest := { zr_url : string; zr_authorization : string; zr_account_id : string }.

Section Zoom.
Context `{HttpLib}.
Variable fingerprint : string -> N.
Variable canonical_reason : N -> option string.
Variable env : TokenEnv.

Definition zoom_classify_error (status : N) (body : string) : McpError :=
  let detail :=
    match json_from_str body ≫= (fun v => match value_get v "reason" ≫= as_str with Some s => Some s | None => value_get v "error" ≫= as_str end) with
    | Some d => d
    | None => if str_is_empty (trim body) then default "Zoom OAuth error" (canonical_reason status) else trim body
    end in
  if (status =? 401)%N || (status =? 403)%N then
    {| err_message := ("Zoom OAuth token exchange rejected the client credentials: " ++ detail
                       ++ ". Check ZOOM_ACCOUNT_ID / ZOOM_CLIENT_ID / ZOOM_CLIENT_SECRET.")%string;
       err_kind := AuthInvalid; err_status := Some status; err_original := Some (OString body) |}
  else api_error ("Zoom OAuth token exchange failed: " ++ detail)%string (Some status) (Some (OString body)).

(** Both fields of [TokenResponse] are required. *)
Definition token_response (v : Value) : option (string * N) :=
  token ← value_get v "access_token" ≫= as_str; expires ← value_get v "expires_in" ≫= as_u64; Some (token, expires).

Definition zoom_exchange (key : ZoomKey) (client_secret : string) (_ : option (TokenCached ZoomKey)) : TM ZoomKey ZoomRequest (result Fresh McpError) :=
  let basic := base64 (as_bytes (zk_client_id key ++ ":" ++ client_secret)%string) in
  tbind (post env {| zr_url := zk_token_url key; zr_authorization := ("Basic " ++ basic)%string; zr_account_id := zk_account_id key |}) (fun reply =>
    tret (match reply with
          | TFailed text => Err (api_error ("Zoom OAuth token request failed: " ++ text)%string None None)
          | TReplied status body =>
              let body := match body with Ok text => text | Err _ => "" end in
              if negb (is_success status) then Err (zoom_classify_error status body)
              else match json_from_str body ≫= token_response with
                   | Some (token, seconds) => Ok {| fr_token := token; fr_ttl := seconds * 1000; fr_refresh_token := None; fr_refresh_expires_at := 0 |}
                   | None => Err (unexpected "Zoom OAuth token response was not valid JSON" (Some (OString body)))
                   end
          end)).

Definition zoom_key (account_id client_id client_secret token_url : string) : ZoomKey :=
  {| zk_account_id := account_id; zk_client_id := client_id; zk_token_url := token_url; zk_secret_fp := fingerprint client_secret |}.
End Zoom.

(** ** Mend *)

Record MendKey := { mk_base : string; mk_email : string; mk_org_uuid : string; mk_user_key_fp : list byte }.
#[export] Instance MendKey_eq_dec : EqDecision MendKey.
Proof. solve_decision. Defined.

Definition LOGIN_PATH : string := "/api/v3.0/login".
Definition LOGIN_REFRESH_PATH : string := "/api/v3.0/login/accessToken".

(** Milliseconds: twenty-five minutes, and the ten of a token that names no lifetime. *)
Definition REFRESH_LIFETIME : N := 25 * 60000.
Definition FALLBACK_TTL : N := 600000.

Inductive MendRequest :=
| MLogin (url email user_key org_uuid : string)
| MRefresh (url org_uuid refresh_token : string).

Section Mend.
Context `{HttpLib}.
Variable sha256 : list byte -> list byte.
(** Whether [url::Url::parse] accepts the refresh endpoint of a base. *)
Variable url_ok : string -> bool.
Variable env : TokenEnv.

Definition nonempty (o : option string) : option string := o ≫= fun s => if str_is_empty s then None else Some s.

Definition login_field (v : Value) (field : string) : option Value :=
  match value_get v "retVal" ≫= (fun r => value_get r field) with
  | Some x => Some x
  | None => match value_get v "response" ≫= (fun r => value_get r field) with Some x => Some x | None => value_get v field end
  end.

Definition classify_login_error (status : N) : McpError :=
  let e := if (status =? 401)%N || (status =? 403)%N
           then auth_invalid "Mend login rejected the credentials; check MEND_EMAIL, MEND_USER_KEY, MEND_ORG_UUID and MEND_API_BASE"
           else api_error "Mend authentication exchange failed" (Some status) None in
  {| err_message := err_message e; err_kind := err_kind e; err_status := Some status; err_original := err_original e |}.

Definition ttl_of (v : option Value) : N := default FALLBACK_TTL (v ≫= as_u64).

(** The token, its lifetime and a rotated refresh token. *)
Definition refresh_reply (reply : TokenReply) : result (string * N * option string) McpError :=
  match reply with
  | TFailed _ => Err (api_error "Mend refresh request failed" (Some 502%N) None)
  | TReplied status body =>
      let? body := body in
      if negb (is_success status) then Err (classify_login_error status)
      else match json_from_str body with
           | None => Err (unexpected "Invalid Mend refresh response" None)
           | Some v =>
               match nonempty (login_field v "jwtToken" ≫= as_str) with
               | None => Err (unexpected "Mend refresh response has no jwtToken" None)
               | Some token =>
                   Ok (token, ttl_of (match login_field v "tokenTTL" with Some x => Some x | None => login_field v "jwtTTL" end),
                       nonempty (login_field v "refreshToken" ≫= as_str))
               end
           end
  end.

Definition mend_refresh (key : MendKey) (refresh_token : string) : TM MendKey MendRequest (result (string * N * option string) McpError) :=
  let url := (mk_base key ++ LOGIN_REFRESH_PATH)%string in
  if negb (url_ok url) then tret (Err (api_error "Invalid Mend API base" (Some 400%N) None))
  else tbind (post env (MRefresh url (mk_org_uuid key) refresh_token)) (fun reply => tret (refresh_reply reply)).

Definition mend_login (key : MendKey) (user_key : string) : TM MendKey MendRequest (result Fresh McpError) :=
  tbind (post env (MLogin (mk_base key ++ LOGIN_PATH) (mk_email key) user_key (mk_org_uuid key))) (fun reply =>
  match reply with
  | TFailed text => tret (Err (api_error ("Mend login request failed: " ++ text)%string None None))
  | TReplied status body =>
      match body with
      | Err e => tret (Err e)
      | Ok body =>
          if negb (is_success status) then tret (Err (classify_login_error status))
          else match json_from_str body with
               | None => tret (Err (unexpected "Mend login response was not valid JSON" None))
               | Some v =>
                   match nonempty (login_field v "refreshToken" ≫= as_str) with
                   | Some refresh_token =>
                       ttry (mend_refresh key refresh_token) (fun '(token, ttl, rotated) =>
                       tbind (instant_now env) (fun now =>
                         tret (Ok {| fr_token := token; fr_ttl := ttl; fr_refresh_token := Some (default refresh_token rotated);
                                     fr_refresh_expires_at := now + REFRESH_LIFETIME |})))
                   | None =>
                       match nonempty (login_field v "jwtToken" ≫= as_str) with
                       | None => tret (Err (unexpected "Mend login response did not carry a JWT at retVal.jwtToken, response.jwtToken or jwtToken." None))
                       | Some token =>
                           tbind (instant_now env) (fun now =>
                             tret (Ok {| fr_token := token; fr_ttl := ttl_of (login_field v "jwtTTL"); fr_refresh_token := None; fr_refresh_expires_at := now |}))
                       end
                   end
               end
      end
  end).

(** A refresh when the entry is for this identity and its refresh token still
    holds; a login otherwise, and when the refresh is refused as unauthorized. *)
Definition mend_obtain (key : MendKey) (user_key : string) (cached : option (TokenCached MendKey)) : TM MendKey MendRequest (result Fresh McpError) :=
  match cached with
  | None => mend_login key user_key
  | Some c =>
      if bool_decide (tc_key c = key) then
        tbind (instant_now env) (fun now =>
          match tc_refresh_token c with
          | Some refresh_token =>
              if (now <? tc_refresh_expires_at c)%N then
                tbind (mend_refresh key refresh_token) (fun fresh =>
                  match fresh with
                  | Ok (token, ttl, rotated) =>
                      tret (Ok {| fr_token := token; fr_ttl := ttl;
                                  fr_refresh_token := match rotated with Some r => Some r | None => tc_refresh_token c end;
                                  fr_refresh_expires_at := tc_refresh_expires_at c |})
                  | Err e =>
                      if match err_status e with Some s => (s =? 401)%N || (s =? 403)%N | None => false end
                      then mend_login key user_key else tret (Err e)
                  end)
              else mend_login key user_key
          | None => mend_login key user_key
          end)
      else mend_login key user_key
  end.

Definition mend_key (base email org_uuid user_key : string) : MendKey :=
  {| mk_base := base; mk_email := email; mk_org_uuid := org_uuid; mk_user_key_fp := sha256 (as_bytes user_key) |}.
End Mend.

(** ** Runs *)

Section Run.
Context {K R : Type} `{EqDecision K}.
Variable env : TokenEnv.
(** How a caller obtains a token: from its identity and its secret. *)
Context {S : Type} (obtain : K -> S -> option (TokenCached K) -> TM K R (result Fresh McpError)).

(** The critical sections of calls, in the order they run. *)
Inductive Part := PRead (key : K) | PWrite (key : K) (secret : S).

Definition part (p : Part) (w : TokenWorld K R) : TokenWorld K R :=
  match p with
  | PRead key => (usable env key w).1
  | PWrite key secret => (bearer_write env key (obtain key secret) w).1
  end.

Definition run (ps : list Part) (w : TokenWorld K R) : TokenWorld K R := foldl (fun w p => part p w) w ps.
Definition empty_world : TokenWorld K R := {| tw_step := 0; tw_cache := None; tw_log := [] |}.

Definition part_key (p : Part) : K := match p with PRead key | PWrite key _ => key end.

(** Every event against what happened before it. *)
Variable ev_ok : list (TokenEvent K R) -> TokenEvent K R -> Prop.
Definition log_ok (l : list (TokenEvent K R)) : Prop := forall pre e post, l = pre ++ e :: post -> ev_ok pre e.

Lemma log_ok_snoc l e : log_ok l -> ev_ok l e -> log_ok (l ++ [e]).
Proof.
  intros Hl He pre x post E. destruct post as [|y post _] using rev_ind.
  - apply app_inj_tail in E as [-> <-]. done.
  - rewrite app_comm_cons, app_assoc in E. apply app_inj_tail in E as [-> _]. by eapply Hl.
Qed.

(** Single flight. *)

Definition stores (l : list (TokenEvent K R)) : nat := length (List.filter (fun e => match e with TStored _ _ _ => true | _ => false end) l).

(** An obtaining program stores nothing itself and leaves the entry alone. *)
Definition same_entry (w w' : TokenWorld K R) : Prop :=
  tw_cache w' = tw_cache w /\ stores (tw_log w') = stores (tw_log w) /\ forall e, e ∈ tw_log w -> e ∈ tw_log w'.
Definition plain_obtain : Prop := forall key secret c w, same_entry w (obtain key secret c w).1.

Lemma stores_app l1 l2 : stores (l1 ++ l2) = (stores l1 + stores l2)%nat.
Proof. unfold stores. by rewrite List.filter_app, length_app. Qed.

Lemma usable_cases (key : K) (w : TokenWorld K R) :
  let '(w', r) := usable env key w in
  tw_cache w' = tw_cache w /\
  match r with
  | Some token => exists c now, tw_cache w = Some c /\ tc_key c = key /\ token = tc_token c /\ (now < tc_expires_at c)%N
                    /\ tw_log w' = tw_log w ++ [TServed key token (Some now)]
  | None => tw_log w' = tw_log w
            /\ forall c, tw_cache w = Some c -> tc_key c = key -> exists n, (tc_expires_at c <= te_now env n)%N
  end.
Proof.
  unfold usable, tbind, held, instant_now, note, tret. destruct (tw_cache w) as [c|] eqn:Ec; [|rewrite Ec; done].
  destruct (bool_decide (tc_key c = key)) eqn:Ek.
  - apply bool_decide_eq_true in Ek. cbn [tw_step tw_cache tw_log]. destruct (N.ltb_spec (te_now env (tw_step w)) (tc_expires_at c)); cbn [tw_cache tw_log].
    + split; [done|]. exists c, (te_now env (tw_step w)). done.
    + split; [done|]. split; [done|]. intros c' [= <-] _. eauto.
  - apply bool_decide_eq_false in Ek. rewrite Ec. split; [done|]. split; [done|]. intros c' [= <-]. done.
Qed.

(** Concurrent calls for one identity collapse to one exchange: in whatever
    order their sections run, as long as no clock reading reaches the end of
    a token that was stored, at most one token is ever stored. *)
Lemma exchanges_collapse key deadline ps :
  plain_obtain -> Forall (fun p => part_key p = key) ps -> (forall n, te_now env n < deadline)%N ->
  (forall c ttl now, TStored c ttl now ∈ tw_log (run ps empty_world) -> deadline <= tc_expires_at c)%N ->
  (stores (tw_log (run ps empty_world)) <= 1)%nat.
Proof.
  intros Hplain Hkeys Hclock. 
  assert (Hmono : forall ps w e, e ∈ tw_log w -> e ∈ tw_log (run ps w)).
  { clear Hkeys. intros qs. induction qs as [|p qs IH]; intros w e He; [done|]. cbn [run foldl]. apply IH. destruct p as [k|k secret]; cbn [part].
    - pose proof (usable_cases k w) as Hu. destruct (usable env k w) as [w' [t|]]; destruct Hu as [_ Hu]; cbn [fst].
      + destruct Hu as (c & now & _ & _ & _ & _ & ->). set_solver.
      + by destruct Hu as [-> _].
    - unfold bearer_write, tbind. pose proof (usable_cases k w) as Hu. destruct (usable env k w) as [w1 [t|]]; destruct Hu as [_ Hu].
      + destruct Hu as (c & now & _ & _ & _ & _ & Hl). cbn. rewrite Hl. set_solver.
      + destruct Hu as [Hl _]. cbn [held]. unfold ttry, tbind. destruct (Hplain k secret (tw_cache w1) w1) as (_ & _ & Hin).
        destruct (obtain k secret (tw_cache w1) w1) as [w2 [fresh|err]]; cbn [fst] in *; [|apply Hin; by rewrite Hl].
        cbn. rewrite <- !app_assoc. apply elem_of_app. left. apply Hin. by rewrite Hl. }
  enough (Hinv : forall ps w, Forall (fun p => part_key p = key) ps ->
    (forall c ttl now, TStored c ttl now ∈ tw_log (run ps w) -> deadline <= tc_expires_at c)%N ->
    (stores (tw_log w) = 0%nat \/ stores (tw_log w) = 1%nat /\ exists c, tw_cache w = Some c /\ tc_key c = key /\ (deadline <= tc_expires_at c)%N) ->
    (stores (tw_log (run ps w)) <= 1)%nat) by (intros Hd; apply Hinv; [done|done|by left]).
  clear ps Hkeys. intros ps. induction ps as [|p ps IH]; intros w Hk Hd Hw; cbn [run foldl]; [lia|].
  apply Forall_cons in Hk as [Hp Hk]. apply IH; [done|exact Hd|]. change (run (p :: ps) w) with (run ps (part p w)) in Hd.
  assert (Hnone : forall c, tw_cache w = Some c -> tc_key c = key -> (deadline <= tc_expires_at c)%N -> ~ exists n, (tc_expires_at c <= te_now env n)%N).
  { intros c _ _ Hc [n Hn]. specialize (Hclock n). lia. }
  destruct p as [k|k secret]; cbn [part part_key] in *; subst k.
  - pose proof (usable_cases key w) as Hu. destruct (usable env key w) as [w' [t|]]; destruct Hu as [Hc Hu]; cbn [fst].
    + destruct Hu as (c & now & _ & _ & _ & _ & Hl). rewrite Hl, stores_app, Hc. cbn. rewrite Nat.add_0_r. done.
    + destruct Hu as [-> _]. by rewrite Hc.
  - unfold bearer_write, tbind in *. pose proof (usable_cases key w) as Hu. destruct (usable env key w) as [w1 [t|]]; destruct Hu as [Hc Hu].
    + destruct Hu as (c & now & _ & _ & _ & _ & Hl). cbn. rewrite Hl, stores_app, Hc. cbn. rewrite Nat.add_0_r. done.
    + destruct Hu as [Hl Hexp]. cbn [held] in *. unfold ttry, tbind in *. destruct (Hplain key secret (tw_cache w1) w1) as (Hc2 & Hs2 & _).
      assert (H0 : stores (tw_log w) = 0%nat).
      { destruct Hw as [|(_ & c & Hc0 & Hk0 & Hd0)]; [done|]. exfalso. by eapply Hnone, Hexp. }
      destruct (obtain key secret (tw_cache w1) w1) as [w2 [fresh|err]]; cbn [fst] in *.
      * right. unfold instant_now, store, note, tret in *. cbn [fst snd tw_log tw_cache tw_step] in *. rewrite !stores_app, Hs2, Hl, H0. split; [done|].
        eexists. split; [done|]. split; [done|]. refine (Hd _ (fr_ttl fresh) (te_now env (tw_step w2)) _). apply Hmono. cbn [tw_log]. rewrite !elem_of_app, !list_elem_of_singleton. tauto.
      * left. unfold tret. cbn [fst]. congruence.
Qed.
End Run.

(** ** Where Mend's secrets go *)

Section Confined.
Context `{HttpLib}.
Variable sha256 : list byte -> list byte.
Variable url_ok : string -> bool.
Variable env : TokenEnv.

Abbreviation World := (TokenWorld MendKey MendRequest).
Abbreviation Log := (list (TokenEvent MendKey MendRequest)).

(** A request of an identity: to its own base, for its organization, a user
    key only under its fingerprint. *)
Definition addressed (key : MendKey) (r : MendRequest) : Prop :=
  match r with
  | MLogin url email user_key org =>
      url = (mk_base key ++ LOGIN_PATH)%string /\ email = mk_email key /\ org = mk_org_uuid key /\ mk_user_key_fp key = sha256 (as_bytes user_key)
  | MRefresh url org _ => url = (mk_base key ++ LOGIN_REFRESH_PATH)%string /\ org = mk_org_uuid key
  end.

Definition reply_json (reply : TokenReply) : option Value :=
  match reply with TReplied status (Ok body) => if is_success status then json_from_str body else None | _ => None end.

(** What a successful reply hands out. *)
Definition gives_refresh (reply : TokenReply) (token : string) : Prop :=
  exists v, reply_json reply = Some v /\ nonempty (login_field v "refreshToken" ≫= as_str) = Some token.
Definition gives_access (reply : TokenReply) (token : string) : Prop :=
  exists v, reply_json reply = Some v /\ nonempty (login_field v "jwtToken" ≫= as_str) = Some token.

Definition from_reply (gives : TokenReply -> string -> Prop) (log : Log) (key : MendKey) (token : string) : Prop :=
  exists r reply, TAsked r reply ∈ log /\ addressed key r /\ gives reply token.

Definition mend_ev_ok (before : Log) (e : TokenEvent MendKey MendRequest) : Prop :=
  match e with
  | TAsked (MRefresh url org token) _ => exists key, addressed key (MRefresh url org token) /\ from_reply gives_refresh before key token
  | TAsked r _ => exists key, addressed key r
  | TStored c ttl now => from_reply gives_access before (tc_key c) (tc_token c) /\ tc_expires_at c = (now + effective ttl)%N
  | TServed key token now => exists c ttl at_, TStored c ttl at_ ∈ before /\ tc_key c = key /\ tc_token c = token
      /\ match now with Some t => (t < at_ + effective ttl)%N | None => True end
  end.

Record mend_inv (w : World) : Prop := {
  mi_log : log_ok mend_ev_ok (tw_log w);
  mi_cache : forall c, tw_cache w = Some c ->
    (exists ttl at_, TStored c ttl at_ ∈ tw_log w /\ tc_expires_at c = (at_ + effective ttl)%N)
    /\ forall token, tc_refresh_token c = Some token -> from_reply gives_refresh (tw_log w) (tc_key c) token;
}.

Definition extends (w w' : World) : Prop := exists l, tw_log w' = tw_log w ++ l.

Lemma from_reply_mono gives l l' key token : from_reply gives l key token -> from_reply gives (l ++ l') key token.
Proof. intros (r & reply & Hin & Hrest). exists r, reply. split; [set_solver|done]. Qed.

Lemma inv_ask w r : mend_inv w -> (forall reply, mend_ev_ok (tw_log w) (TAsked r reply)) -> mend_inv (post env r w).1.
Proof.
  intros [Hl Hc] He. constructor; cbn; [by apply log_ok_snoc|]. intros c Ec. destruct (Hc c Ec) as [(ttl & at_ & Hin & Hx) Hr].
  split; [exists ttl, at_; split; [set_solver|done]|]. intros token Ht. by apply from_reply_mono, Hr.
Qed.

(** A program that obtains a token keeps the invariant and the entry, and
    what it returns was handed out for this identity. *)
Definition obtains (key : MendKey) (m : TM MendKey MendRequest (result Fresh McpError)) : Prop := forall w, mend_inv w ->
  let '(w', r) := m w in
  mend_inv w' /\ tw_cache w' = tw_cache w /\ extends w w'
  /\ forall fresh, r = Ok fresh -> from_reply gives_access (tw_log w') key (fr_token fresh)
       /\ forall token, fr_refresh_token fresh = Some token -> from_reply gives_refresh (tw_log w') key token.

Lemma refresh_reply_ok reply token ttl rotated : refresh_reply reply = Ok (token, ttl, rotated) ->
  gives_access reply token /\ forall x, rotated = Some x -> gives_refresh reply x.
Proof.
  unfold refresh_reply, gives_access, gives_refresh, reply_json. destruct reply as [|status [body|e]]; [done| |done]. cbn.
  destruct (is_success status); [|done]. cbn [negb]. destruct (json_from_str body) as [v|]; [|done].
  destruct (nonempty (login_field v "jwtToken" ≫= as_str)) as [t|] eqn:Et; [|done]. intros [= -> <- <-]. split; [eauto|]. intros x Hx. eauto.
Qed.

Lemma refresh_spec key token w : mend_inv w -> from_reply gives_refresh (tw_log w) key token ->
  let '(w', r) := mend_refresh url_ok env key token w in
  mend_inv w' /\ tw_cache w' = tw_cache w /\ extends w w'
  /\ forall t ttl rotated, r = Ok (t, ttl, rotated) -> from_reply gives_access (tw_log w') key t
       /\ forall x, rotated = Some x -> from_reply gives_refresh (tw_log w') key x.
Proof.
  intros Hi Hg. unfold mend_refresh. destruct (url_ok _); cbn [negb].
  2: { cbn. split; [done|]. split; [done|]. split; [exists []; by rewrite app_nil_r|done]. }
  set (r := MRefresh _ _ _). assert (Ha : addressed key r) by done.
  pose proof (inv_ask w r Hi ltac:(intros reply; exists key; done)) as Hi'. unfold tbind, post in *. cbn in Hi' |- *.
  split; [exact Hi'|]. split; [done|]. split; [by eexists|]. intros t ttl rotated Hr. apply refresh_reply_ok in Hr as [Hacc Hrot].
  assert (Hin : TAsked r (te_reply env (tw_step w)) ∈ tw_log w ++ [TAsked r (te_reply env (tw_step w))]) by set_solver.
  split; [by exists r, (te_reply env (tw_step w))|]. intros x Hx. exists r, (te_reply env (tw_step w)). auto.
Qed.

(** Nothing more to show of an error. *)
Lemma obtained_error key (w0 w : World) (e : McpError) : mend_inv w -> tw_cache w = tw_cache w0 -> extends w0 w ->
  mend_inv w /\ tw_cache w = tw_cache w0 /\ extends w0 w
  /\ forall fresh, Err e = Ok fresh -> from_reply gives_access (tw_log w) key (fr_token fresh)
       /\ forall token, fr_refresh_token fresh = Some token -> from_reply gives_refresh (tw_log w) key token.
Proof. by intros. Qed.

Lemma extends_trans (w1 w2 w3 : World) : extends w1 w2 -> extends w2 w3 -> extends w1 w3.
Proof. intros [l1 H1] [l2 H2]. exists (l1 ++ l2). by rewrite H2, H1, app_assoc. Qed.

Lemma login_obtains key user_key : mk_user_key_fp key = sha256 (as_bytes user_key) -> obtains key (mend_login url_ok env key user_key).
Proof.
  intros Hfp w Hi. unfold mend_login. set (r := MLogin _ _ _ _). assert (Ha : addressed key r) by done.
  pose proof (inv_ask w r Hi ltac:(intros reply; exists key; done)) as Hi1. unfold tbind at 1. unfold post in Hi1 |- *. cbn [fst] in Hi1.
  set (reply := te_reply env (tw_step w)) in *. set (w1 := {| tw_step := _; tw_cache := _; tw_log := _ |}) in *.
  assert (Hx : extends w w1) by (by eexists). assert (Hc1 : tw_cache w1 = tw_cache w) by done.
  assert (Hin : TAsked r reply ∈ tw_log w1) by (subst w1; cbn; set_solver).
  assert (Hj : forall gives x, gives reply x -> from_reply gives (tw_log w1) key x) by (intros gives x Hgx; by exists r, reply).
  clearbody w1 reply. destruct reply as [text|status [body|e]]; [by apply obtained_error| |by apply obtained_error].
  destruct (is_success status) eqn:Es; cbn [negb]; [|by apply obtained_error].
  destruct (json_from_str body) as [v|] eqn:Ev; [|by apply obtained_error].
  assert (Hv : reply_json (TReplied status (Ok body)) = Some v) by (cbn; by rewrite Es).
  destruct (nonempty (login_field v "refreshToken" ≫= as_str)) as [token|] eqn:Er.
  - assert (Hg : from_reply gives_refresh (tw_log w1) key token) by (apply Hj; by exists v).
    pose proof (refresh_spec key token w1 Hi1 Hg) as Hspec. unfold ttry, tbind.
    destruct (mend_refresh url_ok env key token w1) as [w2 [[[t ttl] rotated]|e]]; destruct Hspec as (Hi2 & Hc2 & Hx2 & Hr2).
    2: { apply obtained_error; [done|congruence|by eapply extends_trans]. }
    destruct (Hr2 _ _ _ eq_refl) as [Hacc Hrot]. cbn. split; [by destruct Hi2; constructor|]. split; [congruence|].
    split; [by eapply extends_trans|]. intros fresh [= <-]. cbn. split; [done|]. intros x [= <-].
    destruct rotated as [y|]; cbn; [by apply Hrot|]. destruct Hx2 as [l ->]. by apply from_reply_mono.
  - destruct (nonempty (login_field v "jwtToken" ≫= as_str)) as [token|] eqn:Et; [|by apply obtained_error].
    cbn. split; [by destruct Hi1; constructor|]. split; [done|]. split; [done|]. intros fresh [= <-]. cbn. split; [|done]. apply Hj. by exists v.
Qed.

Lemma obtain_obtains key user_key c : mk_user_key_fp key = sha256 (as_bytes user_key) -> forall w, mend_inv w -> tw_cache w = c ->
  let '(w', r) := mend_obtain url_ok env key user_key c w in
  mend_inv w' /\ tw_cache w' = tw_cache w /\ extends w w'
  /\ forall fresh, r = Ok fresh -> from_reply gives_access (tw_log w') key (fr_token fresh)
       /\ forall token, fr_refresh_token fresh = Some token -> from_reply gives_refresh (tw_log w') key token.
Proof.
  intros Hfp w Hi Hc. pose proof (login_obtains key user_key Hfp) as Hlogin. unfold mend_obtain. destruct c as [c|]; [|by apply Hlogin].
  destruct (bool_decide (tc_key c = key)) eqn:Ek; [|by apply Hlogin]. apply bool_decide_eq_true in Ek.
  unfold tbind at 1. unfold instant_now at 1. set (w1 := {| tw_step := _; tw_cache := _; tw_log := _ |}).
  assert (Hi1 : mend_inv w1) by (by destruct Hi; constructor). assert (Hc1 : tw_cache w1 = tw_cache w) by done.
  assert (Hx1 : extends w w1) by (exists []; by rewrite app_nil_r).
  assert (Hlogin1 : let '(w', r) := mend_login url_ok env key user_key w1 in
    mend_inv w' /\ tw_cache w' = tw_cache w /\ extends w w' /\ forall fresh, r = Ok fresh -> from_reply gives_access (tw_log w') key (fr_token fresh)
       /\ forall token, fr_refresh_token fresh = Some token -> from_reply gives_refresh (tw_log w') key token).
  { specialize (Hlogin w1 Hi1). destruct (mend_login url_ok env key user_key w1) as [w2 r]. destruct Hlogin as (? & ? & ? & ?).
    split; [done|]. split; [congruence|]. split; [by eapply extends_trans|done]. }
  destruct (tc_refresh_token c) as [token|] eqn:Et; [|exact Hlogin1]. destruct (_ <? _)%N; [|exact Hlogin1].
  assert (Hg : from_reply gives_refresh (tw_log w1) key token) by (destruct Hi as [_ Hcache]; rewrite <- Ek; by apply (Hcache c Hc)).
  pose proof (refresh_spec key token w1 Hi1 Hg) as Hspec. unfold tbind.
  destruct (mend_refresh url_ok env key token w1) as [w2 [[[t ttl] rotated]|e]]; destruct Hspec as (Hi2 & Hc2 & Hx2 & Hr2).
  - destruct (Hr2 _ _ _ eq_refl) as [Hacc Hrot]. cbn. split; [done|]. split; [congruence|]. split; [exact (extends_trans _ _ _ Hx1 Hx2)|].
    intros fresh [= <-]. cbn. split; [done|]. intros x. destruct rotated as [y|]; [intros [= <-]; by apply Hrot|]. intros [= <-].
    destruct Hx2 as [l ->]. by apply from_reply_mono.
  - destruct (match err_status e with Some s => _ | None => _ end).
    + specialize (Hlogin w2 Hi2). destruct (mend_login url_ok env key user_key w2) as [w3 r]. destruct Hlogin as (? & ? & ? & ?).
      split; [done|]. split; [congruence|]. split; [eapply (extends_trans _ _ _ Hx1), extends_trans; done|done].
    + cbn. apply obtained_error; [done|congruence|exact (extends_trans _ _ _ Hx1 Hx2)].
Qed.

(** Callers: the settings of a call, and whether its read or its write
    section runs. *)
Record MendCall := { mc_writes : bool; mc_base : string; mc_email : string; mc_org_uuid : string; mc_user_key : string }.

Definition mend_part (c : MendCall) : Part :=
  let key := mend_key sha256 (mc_base c) (mc_email c) (mc_org_uuid c) (mc_user_key c) in
  if mc_writes c then PWrite key (mc_user_key c) else PRead key.

Definition mend_run (calls : list MendCall) : World := run env (mend_obtain url_ok env) (map mend_part calls) empty_world.

Lemma usable_inv (key : MendKey) (w : World) : mend_inv w -> mend_inv (usable env key w).1.
Proof.
  intros [Hl Hcache]. pose proof (usable_cases (R := MendRequest) env key w) as Hu. destruct (usable env key w) as [w' [t|]]; destruct Hu as [Hc Hu]; cbn [fst].
  - destruct Hu as (c & now & Ec & Hk & -> & Hn & Hlog). destruct (Hcache c Ec) as [(ttl & at_ & Hin & Hx) Hr]. constructor.
    + rewrite Hlog. apply log_ok_snoc; [done|]. exists c, ttl, at_. by rewrite <- Hx.
    + rewrite Hlog, Hc. intros c' Ec'. rewrite Ec in Ec'. injection Ec' as <-. split; [exists ttl, at_; split; [set_solver|done]|].
      intros token Ht. by apply from_reply_mono, Hr.
  - destruct Hu as [Hlog _]. constructor; rewrite ?Hlog, ?Hc; done.
Qed.

Lemma mend_part_inv c w : mend_inv w -> mend_inv (part env (mend_obtain url_ok env) (mend_part c) w).
Proof.
  intros Hi. unfold mend_part. set (key := mend_key sha256 _ _ _ _). assert (Hfp : mk_user_key_fp key = sha256 (as_bytes (mc_user_key c))) by done.
  destruct (mc_writes c); cbn [part]; [|by apply usable_inv]. pose proof (usable_inv key w Hi) as Hi1. unfold bearer_write, tbind.
  destruct (usable env key w) as [w1 [t|]]; [exact Hi1|]. cbn [fst] in Hi1. cbn [held]. unfold ttry, tbind.
  pose proof (obtain_obtains key (mc_user_key c) (tw_cache w1) Hfp w1 Hi1 eq_refl) as Ho.
  destruct (mend_obtain url_ok env key (mc_user_key c) (tw_cache w1) w1) as [w2 [fresh|e]]; destruct Ho as (Hi2 & _ & _ & Hf); [|exact Hi2].
  destruct (Hf fresh eq_refl) as [Hacc Href]. destruct Hi2 as [Hl2 _]. unfold instant_now, store, note, tret. cbn [fst tw_log tw_cache tw_step].
  set (entry := {| tc_key := key; tc_token := _; tc_expires_at := _; tc_refresh_token := _; tc_refresh_expires_at := _ |}).
  set (now := te_now env (tw_step w2)). constructor; cbn [tw_log tw_cache].
  - apply log_ok_snoc; [apply log_ok_snoc; [done|by split]|]. exists entry, (fr_ttl fresh), now. split; [set_solver|done].
  - intros c' [= <-]. split; [exists (fr_ttl fresh), now; split; [set_solver|done]|]. intros token Ht. rewrite <- app_assoc. by apply from_reply_mono, Href.
Qed.

Lemma mend_obtain_plain : plain_obtain (mend_obtain url_ok env).
Proof.
  assert (Htrans : forall w1 w2 w3 : World, same_entry w1 w2 -> same_entry w2 w3 -> same_entry w1 w3).
  { intros w1 w2 w3 (? & ? & ?) (? & ? & ?). split; [congruence|]. split; [congruence|auto]. }
  assert (Href : forall key token w, same_entry w (mend_refresh url_ok env key token w).1).
  { intros key token w. unfold mend_refresh. destruct (url_ok _); cbn [negb]; [|done]. unfold tbind, post, tret. unfold same_entry. cbn [fst tw_cache tw_log].
    rewrite stores_app, Nat.add_0_r. set_solver. }
  assert (Hlogin : forall key user_key w, same_entry w (mend_login url_ok env key user_key w).1).
  { intros key user_key w. unfold mend_login, tbind at 1, post. cbv zeta. set (w1 := {| tw_step := _; tw_cache := _; tw_log := _ |}).
    assert (H1 : same_entry w w1).
    { subst w1. unfold same_entry. cbn [tw_cache tw_log]. rewrite stores_app, Nat.add_0_r. set_solver. }
    clearbody w1. destruct (te_reply env (tw_step w)) as [|status [body|]]; try exact H1. destruct (negb _); [exact H1|].
    destruct (json_from_str body) as [v|]; [|exact H1]. destruct (nonempty (login_field v "refreshToken" ≫= as_str)) as [token|].
    - unfold ttry, tbind. specialize (Href key token w1). destruct (mend_refresh url_ok env key token w1) as [w2 [[[t ttl] rotated]|]]; exact (Htrans _ _ _ H1 Href).
    - destruct (nonempty (login_field v "jwtToken" ≫= as_str)); exact H1. }
  intros key user_key c w. unfold mend_obtain. destruct c as [c|]; [|apply Hlogin]. destruct (bool_decide _); [|apply Hlogin].
  unfold tbind at 1, instant_now. set (w1 := {| tw_step := _; tw_cache := _; tw_log := _ |}).
  pose proof (Hlogin key user_key w1) as Hl1. destruct (tc_refresh_token c) as [token|]; [|exact Hl1]. destruct (_ <? _)%N; [|exact Hl1].
  unfold tbind. pose proof (Href key token w1) as Hr1. destruct (mend_refresh url_ok env key token w1) as [w2 [[[t ttl] rotated]|e]]; [exact Hr1|].
  destruct (match err_status e with Some s => _ | None => _ end); [|exact Hr1]. exact (Htrans _ _ _ Hr1 (Hlogin key user_key w2)).
Qed.

(** Mend's secrets stay with the identity they are for.  In any interleaving
    of the critical sections of any calls, a user key is sent only to the
    login endpoint of the base it is configured with, and a refresh token only
    to the refresh endpoint of the base that handed it out, for the same
    organization; every token that is stored or served was handed out by a
    successful reply to a request of the same identity, and one served from
    the cache is served before its reported lifetime less a minute (or one
    second) is over.  And calls of one identity collapse: while the clock
    stays below the end of what is stored, at most one exchange succeeds. *)
Theorem mend_tokens_confined calls :
  log_ok mend_ev_ok (tw_log (mend_run calls))
  /\ forall key deadline,
       Forall (fun c => mend_key sha256 (mc_base c) (mc_email c) (mc_org_uuid c) (mc_user_key c) = key) calls ->
       (forall n, te_now env n < deadline)%N ->
       (forall c ttl now, TStored c ttl now ∈ tw_log (mend_run calls) -> deadline <= tc_expires_at c)%N ->
       (stores (tw_log (mend_run calls)) <= 1)%nat.
Proof.
  split.
  - enough (Hi : mend_inv (mend_run calls)) by apply Hi. unfold mend_run, run.
    assert (H0 : mend_inv empty_world) by (constructor; [intros [|] ? ? [=]|done]). revert H0. generalize (@empty_world MendKey MendRequest) as w.
    induction calls as [|c calls IH]; intros w Hw; [done|]. cbn [map foldl]. by apply IH, mend_part_inv.
  - intros key deadline Hkeys Hclock Hends. eapply (exchanges_collapse env _ key deadline); [apply mend_obtain_plain| |done|done].
    apply Forall_map. eapply Forall_impl; [exact Hkeys|]. intros c <-. cbn. unfold mend_part. by destruct (mc_writes c).
Qed.
End Confined.

(** ** Zoom's tokens *)

Section ZoomRun.
Context `{HttpLib}.
Variable canonical_reason : N -> option string.
Variable env : TokenEnv.

Lemma zoom_exchange_plain : plain_obtain (zoom_exchange canonical_reason env).
Proof.
  intros key secret c w. unfold zoom_exchange, tbind, post, tret, same_entry. cbn [fst tw_cache tw_log]. rewrite stores_app, Nat.add_0_r. set_solver.
Qed.
End ZoomRun.
