(* ===== verification/Databases.v ===== *)
(** * Database tools (src/src/vendor/postgres/, src/src/vendor/ninjaone_db/,
    src/src/vendor/wrds/mod.rs, src/src/controllers/ninjaone_db.rs,
    src/src/controllers/wrds.rs)

    Two integrations speak PostgreSQL.  The NinjaOne tools reach the
    environments of one configured document, under aliases, host keys and
    database names it or a naming convention allows, with SQL the read-only
    guard accepts; the WRDS tools reach one configured server.  A call opens a
    connection of its own, so a run of calls is recorded as the connections it
    opened, each with the statements sent on it.  The JSON deserializer of the
    document, TLS and the database server are parameters; how rows are
    rendered for the caller is not modelled. *)
From S2P Require Import SqlGuard Prelude RustStr Json PolicyTypes Config Scope Transport Credentials BTree.

Definition decimal (n : N) : string := of_bytes (render_u64 n).

(** ** The shared adapter *)

(** The timeout in milliseconds. *)
Record PgVendor := { pg_name : string; pg_statement_timeout : N }.

Definition statement_timeout_ms (v : PgVendor) : N :=
  if (pg_statement_timeout v <=? U32_MAX)%N then pg_statement_timeout v else U32_MAX.

Definition read_only_session_sql (v : PgVendor) : string :=
  ("SET default_transaction_read_only = on; SET statement_timeout = " ++ decimal (statement_timeout_ms v) ++ ";")%string.

Definition connect_options (v : PgVendor) : string :=
  ("-c default_transaction_read_only=on -c statement_timeout=" ++ decimal (statement_timeout_ms v))%string.

(** [tokio_postgres::Error]: its text, and the server's error when it is one. *)
Record DbError := { de_code : string; de_message : string; de_detail : option string; de_hint : option string }.
Record PgError := { pe_text : string; pe_db : option DbError }.

Definition db_message (db : DbError) : string :=
  (de_message db ++ match de_detail db with Some detail => " — " ++ detail | None => "" end
   ++ match de_hint db with Some hint => " (hint: " ++ hint ++ ")" | None => "" end)%string.

(** The constants of [SqlState] by their codes. *)
Definition AUTH_CODES : list string := ["28P01"; "28000"]%string.
Definition DENIED_CODES : list string := ["42501"; "25006"]%string.
Definition UNDEFINED_CODES : list string := ["42P01"; "42703"; "42704"; "42883"; "3F000"]%string.
Definition QUERY_CANCELED : string := "57014".

Definition classify (v : PgVendor) (e : PgError) : McpError :=
  let name := pg_name v in
  match pe_db e with
  | None => api_error (name ++ " connection failed: " ++ pe_text e)%string None (Some (OString (pe_text e)))
  | Some db =>
      let code := de_code db in
      let message := db_message db in
      if existsb (String.eqb code) AUTH_CODES then auth_invalid (name ++ " authentication failed: " ++ message)%string
      else if existsb (String.eqb code) DENIED_CODES then api_error (name ++ " access denied: " ++ message)%string (Some 403%N) None
      else if existsb (String.eqb code) UNDEFINED_CODES then api_error (name ++ ": " ++ message)%string (Some 404%N) None
      else if String.eqb code QUERY_CANCELED
      then api_error (name ++ " query canceled (" ++ decimal (pg_statement_timeout v / 1000) ++ "-second statement timeout exceeded)")%string (Some 504%N) None
      else if starts_with code "42" then api_error (name ++ " query rejected: " ++ message)%string (Some 400%N) None
      else api_error (name ++ " query failed: " ++ message)%string None (Some (OString ("SQLSTATE " ++ code)%string))
  end.

Definition decode_error (v : PgVendor) (e : PgError) : McpError :=
  api_error (pg_name v ++ ": failed to decode result: " ++ pe_text e)%string None None.

Inductive SslMode := SslDisable | SslPrefer | SslRequire.
#[export] Instance SslMode_eq_dec : EqDecision SslMode.
Proof. solve_decision. Defined.

Record ConnectSpec := {
  cs_host : string; cs_port : N; cs_database : string; cs_user : string; cs_password : string;
  cs_ssl_mode : SslMode; cs_allow_invalid_certificates : bool; cs_application_name : string;
  cs_connect_timeout : N; cs_startup_options : option string;
}.

(** A client configuration: the roots of the system, or the verifier that
    accepts every certificate. *)
Inductive TlsConfig := TlsVerified | AcceptInvalidCertificates.

Record TlsCache := { tls_verified : option TlsConfig; tls_unverified : option TlsConfig }.

(** What the system offers when a configuration is built. *)
Record TlsSystem := { ty_no_roots : bool; ty_first_error : option string; ty_versions : result unit string }.

Definition build_tls_config (s : TlsSystem) (v : PgVendor) (allow_invalid : bool) : result TlsConfig McpError :=
  if ty_no_roots s && negb allow_invalid
  then Err (api_error (pg_name v ++ " TLS: no system root certificates are available to validate the server")%string None (OString <$> ty_first_error s))
  else match ty_versions s with
       | Err e => Err (api_error (pg_name v ++ " TLS setup failed: " ++ e)%string None None)
       | Ok _ => Ok (if allow_invalid then AcceptInvalidCertificates else TlsVerified)
       end.

(** [OnceLock::set] keeps a value that is there. *)
Definition get_or_build (s : TlsSystem) (cache : TlsCache) (v : PgVendor) (allow_invalid : bool) : TlsCache * result TlsConfig McpError :=
  match (if allow_invalid then tls_unverified cache else tls_verified cache) with
  | Some config => (cache, Ok config)
  | None =>
      match build_tls_config s v allow_invalid with
      | Err e => (cache, Err e)
      | Ok config =>
          (if allow_invalid then {| tls_verified := tls_verified cache; tls_unverified := Some config |}
           else {| tls_verified := Some config; tls_unverified := tls_unverified cache |}, Ok config)
      end
  end.

(** [trim_end]. *)
Definition trim_end (s : string) : string := of_bytes (trim_end_bytes (as_bytes s)).
Definition semicolon : byte := byte_of 59.

Definition wrap_query (base_sql : string) (limit : N) : string :=
  let trimmed := trim_end (trim_end_matches semicolon (trim base_sql)) in
  ("SELECT coalesce(jsonb_agg(__r), '[]'::jsonb) AS data FROM (SELECT to_jsonb(__t) AS __r FROM (" ++ trimmed
   ++ ") __t LIMIT " ++ decimal limit ++ ") __s")%string.

(** ** Connections and what is sent on them *)

Inductive PgOp :=
| PgBatch (sql : string)
| PgBegin (read_only : bool)
| PgQuery (sql : string) (params : list string)
| PgCommit.

Record Session := { se_spec : ConnectSpec; se_tls : option TlsConfig; se_connected : bool; se_ops : list PgOp }.

(** What a statement answers; a row carries its first column or why it cannot
    be read as JSON. *)
Inductive PgReply := PgDone | PgRow (data : result Value PgError) | PgFails (e : PgError).

Record PgEnv := { pg_reply : nat -> PgReply; tls_system : nat -> TlsSystem }.

(** One vendor instance: the steps so far, its caches, its connections. *)
Record DbWorld (C : Type) := { dw_step : nat; dw_tls : TlsCache; dw_cache : option C; dw_sessions : list Session }.
Arguments dw_step {C}. Arguments dw_tls {C}. Arguments dw_cache {C}. Arguments dw_sessions {C}.

Section Wire.
Context {C : Type}.
Variable env : PgEnv.

Definition DM (A : Type) : Type := DbWorld C -> DbWorld C * result A McpError.
Definition dret {A} (r : result A McpError) : DM A := fun w => (w, r).
Definition dbind {A B} (m : DM A) (k : A -> DM B) : DM B := fun w => let '(w', r) := m w in match r with Ok a => k a w' | Err e => (w', Err e) end.

Definition tls_for (v : PgVendor) (allow_invalid : bool) : DM TlsConfig := fun w =>
  let '(cache, r) := get_or_build (tls_system env (dw_step w)) (dw_tls w) v allow_invalid in
  ({| dw_step := S (dw_step w); dw_tls := cache; dw_cache := dw_cache w; dw_sessions := dw_sessions w |}, r).

(** The driver dials; a client is the index of its connection. *)
Definition dial (v : PgVendor) (spec : ConnectSpec) (tls : option TlsConfig) : DM nat := fun w =>
  let reply := pg_reply env (dw_step w) in
  let connected := match reply with PgFails _ => false | _ => true end in
  ({| dw_step := S (dw_step w); dw_tls := dw_tls w; dw_cache := dw_cache w;
      dw_sessions := dw_sessions w ++ [{| se_spec := spec; se_tls := tls; se_connected := connected; se_ops := [] |}] |},
   match reply with PgFails e => Err (classify v e) | _ => Ok (length (dw_sessions w)) end).

Definition db_connect (v : PgVendor) (spec : ConnectSpec) : DM nat :=
  if bool_decide (cs_ssl_mode spec = SslDisable) then dial v spec None
  else dbind (tls_for v (cs_allow_invalid_certificates spec)) (fun config => dial v spec (Some config)).

Definition add_op (op : PgOp) (s : Session) : Session :=
  {| se_spec := se_spec s; se_tls := se_tls s; se_connected := se_connected s; se_ops := se_ops s ++ [op] |}.

(** A statement on a connection. *)
Definition send_op (client : nat) (op : PgOp) : DM PgReply := fun w =>
  ({| dw_step := S (dw_step w); dw_tls := dw_tls w; dw_cache := dw_cache w; dw_sessions := alter (add_op op) client (dw_sessions w) |},
   Ok (pg_reply env (dw_step w))).

Definition exec (v : PgVendor) (client : nat) (op : PgOp) : DM unit :=
  dbind (send_op client op) (fun reply => dret (match reply with PgFails e => Err (classify v e) | _ => Ok tt end)).

(** [query_one] and [try_get(0)]: no row at all is an error of the driver. *)
Definition query_one (v : PgVendor) (client : nat) (sql : string) (params : list string) : DM (result Value PgError) :=
  dbind (send_op client (PgQuery sql params)) (fun reply =>
    dret (match reply with
          | PgRow data => Ok data
          | PgFails e => Err (classify v e)
          | PgDone => Err (classify v {| pe_text := "query returned an unexpected number of rows"; pe_db := None |})
          end)).

Definition decode_row (v : PgVendor) (data : result Value PgError) : DM Value := dret (map_err (decode_error v) data).
End Wire.
Arguments DM : clear implicits.

(** ** The environments document *)

Definition DEFAULT_PORT : N := 5432.
Definition DEFAULT_CENTRAL_DATABASE : string := "centraldb".
Definition MAX_DB_NAME_LEN : nat := 63.

Definition invalid_input (message : string) : McpError := api_error message (Some 400%N) None.

Record DivisionConnection := {
  dc_host : string; dc_username : string; dc_password : string; dc_port : N; dc_ssl_mode : string; dc_allow_invalid_certificates : bool;
}.

Inductive DivisionHost := Inherited (host : string) | Separate (c : DivisionConnection).

Record Environment := {
  env_central_host : string; env_central_database : string; env_division_hosts : gmap string DivisionHost;
  env_username : string; env_password : string; env_port : N; env_ssl_mode : string; env_allow_invalid_certificates : bool;
}.

Record Target := {
  tg_host : string; tg_database : string; tg_username : string; tg_password : string; tg_port : N;
  tg_ssl_mode : SslMode; tg_allow_invalid_certificates : bool;
}.

(** What the deserializer finds: the fields with a default may be missing. *)
Record RawDivision := {
  rd_host : string; rd_username : string; rd_password : string;
  rd_port : option N; rd_ssl_mode : option string; rd_allow_invalid_certificates : option bool;
}.

Record RawEnvironment := {
  re_central_host : string; re_central_database : option string; re_division_hosts : gmap string (string + RawDivision);
  re_username : string; re_password : string; re_port : option N; re_ssl_mode : option string; re_allow_invalid_certificates : option bool;
}.

Definition default_ssl_mode : string := "require".

Definition division_of (h : string + RawDivision) : DivisionHost :=
  match h with
  | inl host => Inherited host
  | inr d => Separate {| dc_host := rd_host d; dc_username := rd_username d; dc_password := rd_password d; dc_port := default DEFAULT_PORT (rd_port d);
                         dc_ssl_mode := default default_ssl_mode (rd_ssl_mode d);
                         dc_allow_invalid_certificates := default false (rd_allow_invalid_certificates d) |}
  end.

Definition filled_environment (r : RawEnvironment) : Environment :=
  {| env_central_host := re_central_host r; env_central_database := default DEFAULT_CENTRAL_DATABASE (re_central_database r);
     env_division_hosts := division_of <$> re_division_hosts r; env_username := re_username r; env_password := re_password r;
     env_port := default DEFAULT_PORT (re_port r); env_ssl_mode := default default_ssl_mode (re_ssl_mode r);
     env_allow_invalid_certificates := default false (re_allow_invalid_certificates r) |}.

Definition parse_ssl_mode (value : string) : result SslMode McpError :=
  let v := to_ascii_lowercase (trim value) in
  if String.eqb v "disable" then Ok SslDisable
  else if String.eqb v "prefer" then Ok SslPrefer
  else if String.eqb v "require" then Ok SslRequire
  else Err (invalid_input ("unsupported NinjaOne database sslMode `" ++ v ++ "`; use disable, prefer, or require")%string).

Definition db_name_ok (name : string) : bool :=
  (str_len name <=? MAX_DB_NAME_LEN)%nat && starts_with name "div_"
  && forallb (fun b => is_ascii_alphanumeric b || beqb b underscore) (as_bytes name).

Definition validated_db_name (db_name : string) : result string McpError :=
  let name := trim db_name in
  if db_name_ok name then Ok name
  else Err (invalid_input "db_name must follow the NinjaOne division database convention `div_<company>_<suffix>` using only letters, digits, and underscores").

Definition central_target (e : Environment) : result Target McpError :=
  let? mode := parse_ssl_mode (env_ssl_mode e) in
  Ok {| tg_host := env_central_host e; tg_database := env_central_database e; tg_username := env_username e; tg_password := env_password e;
        tg_port := env_port e; tg_ssl_mode := mode; tg_allow_invalid_certificates := env_allow_invalid_certificates e |}.

(** [db_host.map(str::trim).filter(..)]. *)
Definition given_key (db_host : option string) : option string :=
  (trim <$> db_host) ≫= (fun key => if str_is_empty key then None else Some key).

Definition host_key_for (e : Environment) (db_host : option string) (alias : string) : result string McpError :=
  match given_key db_host with
  | Some key => Ok key
  | None =>
      match btree_iter (env_division_hosts e) with
      | [(key, _)] => Ok key
      | _ => Err (invalid_input ("db_host is required for environment `" ++ alias ++ "` because it has multiple allowlisted divisionHosts")%string)
      end
  end.

Definition connection_target (e : Environment) (h : DivisionHost) (database : string) : result Target McpError :=
  match h with
  | Inherited host =>
      let? mode := parse_ssl_mode (env_ssl_mode e) in
      Ok {| tg_host := host; tg_database := database; tg_username := env_username e; tg_password := env_password e;
            tg_port := env_port e; tg_ssl_mode := mode; tg_allow_invalid_certificates := env_allow_invalid_certificates e |}
  | Separate c =>
      let? mode := parse_ssl_mode (dc_ssl_mode c) in
      Ok {| tg_host := dc_host c; tg_database := database; tg_username := dc_username c; tg_password := dc_password c;
            tg_port := dc_port c; tg_ssl_mode := mode; tg_allow_invalid_certificates := dc_allow_invalid_certificates c |}
  end.

Definition division_target (e : Environment) (db_host : option string) (db_name alias : string) : result Target McpError :=
  let? host_key := host_key_for e db_host alias in
  match env_division_hosts e !! host_key with
  | None => Err (invalid_input ("db_host `" ++ host_key ++ "` is not allowlisted for environment `" ++ alias ++ "`")%string)
  | Some connection =>
      let? database := validated_db_name db_name in
      connection_target e connection database
  end.

Definition blank (s : string) : bool := str_is_empty (trim s).

Definition division_is_valid (h : DivisionHost) : bool :=
  match h with
  | Inherited host => negb (blank host)
  | Separate c => negb (blank (dc_host c)) && negb (blank (dc_username c)) && negb (str_is_empty (dc_password c))
  end.

Definition division_ssl_mode (h : DivisionHost) : result SslMode McpError :=
  match h with Inherited _ => Ok SslRequire | Separate c => parse_ssl_mode (dc_ssl_mode c) end.

Fixpoint validate_hosts (alias : string) (hosts : list (string * DivisionHost)) : result unit McpError :=
  match hosts with
  | [] => Ok tt
  | (key, connection) :: rest =>
      if blank key || negb (division_is_valid connection)
      then Err (invalid_input ("environment `" ++ alias ++ "` contains a blank divisionHosts key or incomplete connection; object entries require non-empty host, username, and password values")%string)
      else let? _m := division_ssl_mode connection in validate_hosts alias rest
  end.

Definition validate_environment (e : Environment) (alias : string) : result unit McpError :=
  if blank (env_central_host e) || blank (env_central_database e) || blank (env_username e) || str_is_empty (env_password e)
     || bool_decide (env_division_hosts e = ∅)
  then Err (invalid_input ("environment `" ++ alias ++ "` must define non-empty centralHost, centralDatabase, divisionHosts, username, and password values")%string)
  else
    let? _u := validate_hosts alias (btree_iter (env_division_hosts e)) in
    let? _m := parse_ssl_mode (env_ssl_mode e) in
    Ok tt.

Definition alias_ok (alias : string) : bool :=
  negb (str_is_empty alias)
  && forallb (fun b => is_ascii_lowercase b || is_ascii_digit b || beqb b dash || beqb b underscore) (as_bytes alias)
  && (starts_with alias "qa" || starts_with alias "dev").

Definition validate_alias (alias : string) : result unit McpError :=
  if alias_ok alias then Ok tt
  else Err (invalid_input ("environment alias `" ++ alias ++ "` is refused: NinjaOne database access is restricted to aliases beginning with `qa` or `dev`; production is intentionally unsupported")%string).

Definition normalize_alias (value : string) : string := to_ascii_lowercase (trim value).

Definition Environments : Type := gmap string Environment.

Fixpoint validate_entries (entries : list (string * Environment)) : result unit McpError :=
  match entries with
  | [] => Ok tt
  | (alias, e) :: rest =>
      let? _a := validate_alias alias in
      let? _e := validate_environment e alias in
      validate_entries rest
  end.

Definition environments_get (d : Environments) (requested : string) : result (string * Environment) McpError :=
  let alias := normalize_alias requested in
  let? _a := validate_alias alias in
  match d !! alias with
  | Some e => Ok (alias, e)
  | None => Err (invalid_input ("environment `" ++ alias ++ "` is not in the configured QA/dev allowlist")%string)
  end.

(** ** The NinjaOne vendor *)

Definition DEFAULT_ROW_LIMIT : N := 500.
Definition MAX_ROW_LIMIT : N := 10000.
Definition RESOLVE_LIMIT : N := 25.
Definition CONNECT_TIMEOUT : N := 10000.
Definition APPLICATION_NAME : string := "mcp-devtools-ninjaone-readonly".
Definition PG : PgVendor := {| pg_name := "NinjaOne database"; pg_statement_timeout := 10000 |}.
Definition ENVIRONMENTS_KEY : string := "NINJAONE_DB_ENVIRONMENTS".

Definition clamp_row_limit (requested : option N) : N := N.min (N.max (default DEFAULT_ROW_LIMIT requested) 1) MAX_ROW_LIMIT.

Definition RESOLVE_SQL : string :=
  ("SELECT uid, db_name, db_host, db_zone, db_state, ltdr_shard_id, hostname FROM division WHERE uid::text = $1 "
   ++ "OR db_name = $1 OR db_host = $1 OR lower(db_name) LIKE '%' || lower($1) || '%' "
   ++ "OR lower(coalesce(hostname, '')) LIKE '%' || lower($1) || '%' "
   ++ "ORDER BY CASE WHEN uid::text = $1 THEN 0 WHEN db_name = $1 THEN 1 WHEN db_host = $1 THEN 2 ELSE 3 END, db_name")%string.

Definition target_spec (t : Target) : ConnectSpec :=
  {| cs_host := tg_host t; cs_port := tg_port t; cs_database := tg_database t; cs_user := tg_username t; cs_password := tg_password t;
     cs_ssl_mode := tg_ssl_mode t; cs_allow_invalid_certificates := tg_allow_invalid_certificates t; cs_application_name := APPLICATION_NAME;
     cs_connect_timeout := CONNECT_TIMEOUT; cs_startup_options := Some (connect_options PG) |}.

Record CachedEnvironments := { ce_raw : string; ce_parsed : Environments }.

Section Ninja.
(** [serde_json::from_str] to the document's type. *)
Variable document : string -> result (gmap string RawEnvironment) string.
Variable env : PgEnv.

Definition environments_parse (raw : string) : result Environments McpError :=
  match document raw with
  | Err e => Err (invalid_input ("NINJAONE_DB_ENVIRONMENTS must be a valid JSON object: " ++ e)%string)
  | Ok entries =>
      let entries := filled_environment <$> entries in
      let? _u := validate_entries (btree_iter entries) in
      Ok entries
  end.

Definition configured_document (c : Config) : option string :=
  (trim <$> get_for c "ninjaone" ENVIRONMENTS_KEY) ≫= (fun v => if str_is_empty v then None else Some v).

Definition parse_and_store (raw : string) : DM CachedEnvironments Environments :=
  dbind (dret (environments_parse raw)) (fun parsed w =>
    ({| dw_step := dw_step w; dw_tls := dw_tls w; dw_cache := Some {| ce_raw := raw; ce_parsed := parsed |}; dw_sessions := dw_sessions w |}, Ok parsed)).

(** The cache is read under one lock and written under another; [seen] is what
    the read found. *)
Definition environments (c : Config) (seen : option CachedEnvironments) : DM CachedEnvironments Environments :=
  match configured_document c with
  | None => dret (Err (auth_missing "NINJAONE_DB_ENVIRONMENTS is required for NinjaOne database tools. Set it under the `ninjaone` section of ~/.mcp/configs.json, either as a nested JSON object or as a JSON-encoded string."))
  | Some raw =>
      match seen with
      | Some cached => if String.eqb (ce_raw cached) raw then dret (Ok (ce_parsed cached)) else parse_and_store raw
      | None => parse_and_store raw
      end
  end.

Definition connect (t : Target) : DM CachedEnvironments nat := db_connect env PG (target_spec t).

(** What this code sends; the rollback that the driver sends by itself when a
    transaction is dropped without its commit is the driver's. *)
Definition query_json (t : Target) (sql : string) (params : list string) (limit : N) : DM CachedEnvironments Value :=
  dbind (connect t) (fun client =>
  dbind (exec env PG client (PgBatch (read_only_session_sql PG))) (fun _ =>
  dbind (exec env PG client (PgBegin true)) (fun _ =>
  dbind (query_one env PG client (wrap_query sql limit) params) (fun row =>
  dbind (decode_row PG row) (fun data =>
  dbind (exec env PG client PgCommit) (fun _ => dret (Ok data))))))).

Definition resolve_division (c : Config) (seen : option CachedEnvironments) (environment lookup : string) : DM CachedEnvironments Value :=
  let lookup := trim lookup in
  if str_is_empty lookup then dret (Err (invalid_input "division lookup must not be blank"))
  else
    dbind (environments c seen) (fun d =>
    dbind (dret (environments_get d environment)) (fun '(_, e) =>
    dbind (dret (central_target e)) (fun target =>
    query_json target RESOLVE_SQL [lookup] RESOLVE_LIMIT))).

Definition query_central (c : Config) (seen : option CachedEnvironments) (environment sql : string) (limit : N) : DM CachedEnvironments Value :=
  dbind (dret (map_err invalid_input (validate sql))) (fun _ =>
  dbind (environments c seen) (fun d =>
  dbind (dret (environments_get d environment)) (fun '(_, e) =>
  dbind (dret (central_target e)) (fun target =>
  query_json target sql [] limit)))).

Definition query_division (c : Config) (seen : option CachedEnvironments) (environment : string) (db_host : option string)
    (db_name sql : string) (limit : N) : DM CachedEnvironments Value :=
  dbind (dret (map_err invalid_input (validate sql))) (fun _ =>
  dbind (environments c seen) (fun d =>
  dbind (dret (environments_get d environment)) (fun '(alias, e) =>
  dbind (dret (division_target e db_host db_name alias)) (fun target =>
  query_json target sql [] limit)))).

(** The three tools with their arguments. *)
Inductive DbTool :=
| ResolveDivision (environment division : string)
| QueryCentralDb (environment sql : string) (row_limit : option N)
| QueryDivisionDb (environment : string) (db_host : option string) (db_name sql : string) (row_limit : option N).

Definition db_tool (c : Config) (seen : option CachedEnvironments) (t : DbTool) : DM CachedEnvironments Value :=
  match t with
  | ResolveDivision environment division => resolve_division c seen environment division
  | QueryCentralDb environment sql row_limit => query_central c seen environment sql (clamp_row_limit row_limit)
  | QueryDivisionDb environment db_host db_name sql row_limit => query_division c seen environment db_host db_name sql (clamp_row_limit row_limit)
  end.

(** A run: calls look at the cache and go on, in any order, each with the
    configuration of its moment.  What calls send on their own connections
    commutes. *)
Inductive DbStep := DbLook (call : nat) | DbCall (call : nat) (c : Config) (t : DbTool).

Record DbRun := { dr_world : DbWorld CachedEnvironments; dr_seen : gmap nat (option CachedEnvironments) }.

Definition db_step (s : DbStep) (r : DbRun) : DbRun :=
  match s with
  | DbLook call => {| dr_world := dr_world r; dr_seen := <[call := dw_cache (dr_world r)]> (dr_seen r) |}
  | DbCall call c t =>
      match dr_seen r !! call with
      | None => r
      | Some seen => {| dr_world := (db_tool c seen t (dr_world r)).1; dr_seen := delete call (dr_seen r) |}
      end
  end.

Definition db_start : DbRun :=
  {| dr_world := {| dw_step := 0; dw_tls := {| tls_verified := None; tls_unverified := None |}; dw_cache := None; dw_sessions := [] |}; dr_seen := ∅ |}.

Definition db_run (steps : list DbStep) : DbRun := foldl (fun r s => db_step s r) db_start steps.
End Ninja.

(** ** The WRDS vendor *)

Definition WRDS_HOST : string := "wrds-pgdata.wharton.upenn.edu".
Definition WRDS_PORT : N := 9737.
Definition WRDS_DBNAME : string := "wrds".
Definition WRDS_DEFAULT_ROW_LIMIT : N := 1000.
Definition WRDS_MAX_ROW_LIMIT : N := 100000.
Definition WRDS_CONNECT_TIMEOUT : N := 30000.
Definition WRDS_APPLICATION_NAME : string := "mcp-devtools".
Definition WRDS_PG : PgVendor := {| pg_name := "WRDS"; pg_statement_timeout := 60000 |}.
Definition U16_MAX : N := 65535.

Definition wrds_clamp_row_limit (requested : option N) : N :=
  N.min (N.max (default WRDS_DEFAULT_ROW_LIMIT requested) 1) WRDS_MAX_ROW_LIMIT.

Record ConnParams := { cp_host : string; cp_port : N; cp_dbname : string; cp_user : string; cp_password : string; cp_ssl_mode : SslMode }.

Definition wrds_missing (key : string) : McpError :=
  auth_missing (key ++ " is required for wrds_* tools. Set your WRDS username and password (WRDS_USERNAME / WRDS_PASSWORD) under the `wrds` section of ~/.mcp/configs.json or in the environment.")%string.

Definition wrds_setting (c : Config) (key : string) : option string :=
  (trim <$> get_for c "wrds" key) ≫= (fun v => if str_is_empty v then None else Some v).

Definition wrds_require (c : Config) (key : string) : result string McpError :=
  match wrds_setting c key with Some v => Ok v | None => Err (wrds_missing key) end.

Section Wrds.
Context `{KeychainBackend B}.
Variable keychain : B.
Variable env : PgEnv.

(** [joined] is how the keychain's blocking task ends. *)
Definition conn_params (joined : result unit string) (c : Config) : result ConnParams McpError :=
  let? user := wrds_require c "WRDS_USERNAME" in
  let? secret := vendor_secret joined c keychain "wrds" "WRDS_PASSWORD" in
  match secret with
  | None => Err (wrds_missing "WRDS_PASSWORD")
  | Some password =>
      Ok {| cp_host := default WRDS_HOST (wrds_setting c "WRDS_HOST");
            cp_port := default WRDS_PORT (get_for c "wrds" "WRDS_PORT" ≫= (fun v => parse_unsigned U16_MAX (trim v)));
            cp_dbname := default WRDS_DBNAME (wrds_setting c "WRDS_DBNAME"); cp_user := user; cp_password := password;
            cp_ssl_mode := match (fun v => to_ascii_lowercase (trim v)) <$> get_for c "wrds" "WRDS_SSLMODE" with
                           | Some v => if String.eqb v "disable" then SslDisable else if String.eqb v "prefer" then SslPrefer else SslRequire
                           | None => SslRequire
                           end |}
  end.

Definition wrds_connect (joined : result unit string) (c : Config) : DM Empty_set nat :=
  dbind (dret (conn_params joined c)) (fun p =>
    db_connect env WRDS_PG
      {| cs_host := cp_host p; cs_port := cp_port p; cs_database := cp_dbname p; cs_user := cp_user p; cs_password := cp_password p;
         cs_ssl_mode := cp_ssl_mode p; cs_allow_invalid_certificates := false; cs_application_name := WRDS_APPLICATION_NAME;
         cs_connect_timeout := WRDS_CONNECT_TIMEOUT; cs_startup_options := None |}).

Definition wrds_query_json (joined : result unit string) (c : Config) (base_sql : string) (params : list string) (limit : N) : DM Empty_set Value :=
  dbind (wrds_connect joined c) (fun client =>
  dbind (exec env WRDS_PG client (PgBatch (read_only_session_sql WRDS_PG))) (fun _ =>
  dbind (query_one env WRDS_PG client (wrap_query base_sql limit) params) (fun row => decode_row WRDS_PG row))).

Inductive WrdsTool :=
| WrdsQuery (sql : string) (row_limit : option N)
| WrdsListLibraries
| WrdsListTables (library : string) (row_limit : option N)
| WrdsDescribeTable (library table : string).

Definition LIBRARIES_SQL : string :=
  ("SELECT nspname AS library FROM pg_catalog.pg_namespace WHERE nspname NOT IN ('pg_catalog', 'information_schema', 'pg_toast') "
   ++ "AND nspname NOT LIKE 'pg_temp_%' AND nspname NOT LIKE 'pg_toast_temp_%' "
   ++ "AND has_schema_privilege(current_user, nspname, 'USAGE') ORDER BY nspname")%string.
Definition TABLES_SQL : string :=
  "SELECT table_name, table_type FROM information_schema.tables WHERE table_schema = $1 ORDER BY table_name".
Definition COLUMNS_SQL : string :=
  "SELECT column_name, data_type, is_nullable FROM information_schema.columns WHERE table_schema = $1 AND table_name = $2 ORDER BY ordinal_position".

Definition wrds_tool (joined : result unit string) (c : Config) (t : WrdsTool) : DM Empty_set Value :=
  match t with
  | WrdsQuery sql row_limit => wrds_query_json joined c sql [] (wrds_clamp_row_limit row_limit)
  | WrdsListLibraries => wrds_query_json joined c LIBRARIES_SQL [] (wrds_clamp_row_limit None)
  | WrdsListTables library row_limit => wrds_query_json joined c TABLES_SQL [library] (wrds_clamp_row_limit row_limit)
  | WrdsDescribeTable library table => wrds_query_json joined c COLUMNS_SQL [library; table] (wrds_clamp_row_limit None)
  end.
End Wrds.

(** ** What is sent *)

(** TLS as a specification asks for it. *)
Definition tls_asked (spec : ConnectSpec) : option TlsConfig :=
  if bool_decide (cs_ssl_mode spec = SslDisable) then None
  else Some (if cs_allow_invalid_certificates spec then AcceptInvalidCertificates else TlsVerified).

Definition tls_ok (c : TlsCache) : Prop :=
  (forall t, tls_verified c = Some t -> t = TlsVerified) /\ (forall t, tls_unverified c = Some t -> t = AcceptInvalidCertificates).

Lemma get_or_build_ok s c v allow : tls_ok c ->
  tls_ok (get_or_build s c v allow).1
  /\ forall t, (get_or_build s c v allow).2 = Ok t -> t = if allow then AcceptInvalidCertificates else TlsVerified.
Proof.
  intros Hok. pose proof Hok as [Hv Hu]. unfold get_or_build, build_tls_config.
  destruct (if allow then tls_unverified c else tls_verified c) as [t0|] eqn:E.
  - split; [exact Hok|]. intros t [= <-]. destruct allow; auto.
  - destruct (_ && _); [by split|]. destruct (ty_versions s); [|by split].
    split; [|by intros t [= <-]]. destruct allow; split; cbn; auto; by intros t [= <-].
Qed.

Section Sent.
Context {C : Type}.
Variable env : PgEnv.
Implicit Types w : DbWorld C.

(** Connecting opens one connection as specified, or none. *)
Lemma db_connect_spec v spec w : tls_ok (dw_tls w) ->
  let '(w', r) := db_connect env v spec w in
  tls_ok (dw_tls w') /\ dw_cache w' = dw_cache w
  /\ ((exists e, r = Err e /\ dw_sessions w' = dw_sessions w)
      \/ exists up, r = (if up : bool then Ok (length (dw_sessions w)) else r) /\ (up = false -> is_ok r = false)
           /\ dw_sessions w' = dw_sessions w ++ [{| se_spec := spec; se_tls := tls_asked spec; se_connected := up; se_ops := [] |}]).
Proof.
  intros Htls. unfold db_connect, tls_asked. destruct (bool_decide _).
  - unfold dial. cbn [dw_tls dw_cache dw_sessions]. split; [done|]. split; [done|]. right.
    destruct (pg_reply env (dw_step w)); [exists true|exists true|exists false]; done.
  - unfold dbind, tls_for. destruct (get_or_build_ok (tls_system env (dw_step w)) (dw_tls w) v (cs_allow_invalid_certificates spec) Htls) as [Hc Hr].
    destruct (get_or_build _ _ _ _) as [cache [t|e]]; cbn [fst snd] in *; cbn [dw_tls dw_cache dw_sessions].
    + rewrite <- (Hr t eq_refl). unfold dial. cbn [dw_tls dw_cache dw_sessions dw_step]. split; [done|]. split; [done|]. right.
      destruct (pg_reply env (S (dw_step w))); [exists true|exists true|exists false]; done.
    + split; [done|]. split; [done|]. left. by eexists.
Qed.

(** A statement goes to the connection it names, and nothing else changes. *)
Definition sent_on (n : nat) (op : PgOp) (w w' : DbWorld C) : Prop :=
  dw_tls w' = dw_tls w /\ dw_cache w' = dw_cache w /\ dw_sessions w' = alter (add_op op) n (dw_sessions w).

Lemma exec_sent v n op w : sent_on n op w (exec env v n op w).1.
Proof. unfold exec, dbind, send_op, dret. by destruct (pg_reply _ _). Qed.

Lemma query_one_sent v n sql params w : sent_on n (PgQuery sql params) w (query_one env v n sql params w).1.
Proof. unfold query_one, dbind, send_op, dret. by destruct (pg_reply _ _). Qed.

Lemma alter_last (f : Session -> Session) pre s : alter f (length pre) (pre ++ [s]) = pre ++ [f s].
Proof. induction pre as [|p pre IH]; [done|]. cbn. f_equal. exact IH. Qed.

(** The connection a call opened, after a prefix of its statements. *)
Definition opened (w w' : DbWorld C) (spec : ConnectSpec) (ops : list PgOp) : Prop :=
  tls_ok (dw_tls w') /\ dw_cache w' = dw_cache w
  /\ exists s, dw_sessions w' = dw_sessions w ++ [s] /\ se_spec s = spec /\ se_tls s = tls_asked spec /\ se_ops s = ops.

Lemma opened_sent w w' w'' spec ops op :
  opened w w' spec ops -> sent_on (length (dw_sessions w)) op w' w'' -> opened w w'' spec (ops ++ [op]).
Proof.
  intros (Ht & Hc & s & Hs & ? & ? & ?) (Ht' & Hc' & Hs'). split; [by rewrite Ht'|]. split; [congruence|].
  exists (add_op op s). rewrite Hs', Hs, alter_last. split; [done|]. cbn. by subst.
Qed.

(** What became of a call that meant to send [ops] on a connection to [spec]:
    it opened no connection, or sent a prefix; all of them when it succeeds. *)
Definition session_result {A} (w : DbWorld C) (spec : ConnectSpec) (ops : list PgOp) (p : DbWorld C * result A McpError) : Prop :=
  (is_ok p.2 = false /\ tls_ok (dw_tls p.1) /\ dw_cache p.1 = dw_cache w /\ dw_sessions p.1 = dw_sessions w)
  \/ exists n, opened w p.1 spec (take n ops) /\ (is_ok p.2 = true -> take n ops = ops).

Lemma connect_then {A} v spec ops (k : nat -> DM C A) w : tls_ok (dw_tls w) ->
  (forall w', opened w w' spec [] -> session_result w spec ops (k (length (dw_sessions w)) w')) ->
  session_result w spec ops (dbind (db_connect env v spec) k w).
Proof.
  intros Htls Hk. pose proof (db_connect_spec v spec w Htls) as Hc. unfold dbind.
  destruct (db_connect env v spec w) as [w' r]. destruct Hc as (Ht & Hca & [(e & -> & Hs)|(up & Hr & Hdown & Hs)]); [by left|].
  assert (Ho : opened w w' spec []) by (split; [done|split; [done|by eexists]]).
  destruct up.
  - rewrite Hr. by apply Hk.
  - destruct r as [n|e]; [specialize (Hdown eq_refl); done|]. right. by exists 0%nat.
Qed.

(** A statement in turn: when it fails the prefix ends there. *)
Lemma send_then {A B} n op ops spec (m : DM C A) (k : A -> DM C B) w w' :
  sent_on (length (dw_sessions w)) op w' (m w').1 -> opened w w' spec (take n ops) -> take (S n) ops = take n ops ++ [op] ->
  (forall a w'', opened w w'' spec (take (S n) ops) -> session_result w spec ops (k a w'')) ->
  session_result w spec ops (dbind m k w').
Proof.
  intros Hsent Ho Htake Hk. unfold dbind. pose proof (opened_sent _ _ _ _ _ _ Ho Hsent) as Ho'. rewrite <- Htake in Ho'.
  destruct (m w') as [w'' [a|e]]; cbn [fst] in Ho'; [by apply Hk|]. right. by exists (S n).
Qed.
End Sent.

(** *** The NinjaOne vendor *)

Definition ninja_ops (sql : string) (params : list string) (limit : N) : list PgOp :=
  [PgBatch (read_only_session_sql PG); PgBegin true; PgQuery (wrap_query sql limit) params; PgCommit].

(** A host an environment lists, with the credentials that go with it. *)
Definition listed (e : Environment) (h : DivisionHost) (t : Target) : Prop :=
  match h with
  | Inherited host => tg_host t = host /\ tg_port t = env_port e /\ tg_username t = env_username e /\ tg_password t = env_password e
      /\ tg_allow_invalid_certificates t = env_allow_invalid_certificates e /\ parse_ssl_mode (env_ssl_mode e) = Ok (tg_ssl_mode t)
  | Separate c => tg_host t = dc_host c /\ tg_port t = dc_port c /\ tg_username t = dc_username c /\ tg_password t = dc_password c
      /\ tg_allow_invalid_certificates t = dc_allow_invalid_certificates c /\ parse_ssl_mode (dc_ssl_mode c) = Ok (tg_ssl_mode t)
  end.

(** What a tool may ask of an environment: the target, the SQL with its bound
    parameters, and the row limit. *)
Definition tool_allows (e : Environment) (t : Target) (sql : string) (params : list string) (limit : N) (tool : DbTool) : Prop :=
  match tool with
  | ResolveDivision _ division =>
      listed e (Inherited (env_central_host e)) t /\ tg_database t = env_central_database e
      /\ sql = RESOLVE_SQL /\ params = [trim division] /\ limit = RESOLVE_LIMIT
  | QueryCentralDb _ q _ =>
      listed e (Inherited (env_central_host e)) t /\ tg_database t = env_central_database e
      /\ validate q = Ok tt /\ sql = q /\ params = [] /\ (1 <= limit <= MAX_ROW_LIMIT)%N
  | QueryDivisionDb _ db_host db_name q _ =>
      (exists key h, env_division_hosts e !! key = Some h /\ listed e h t /\ is_none_or (given_key db_host) (String.eqb key) = true)
      /\ tg_database t = trim db_name /\ db_name_ok (tg_database t) = true
      /\ validate q = Ok tt /\ sql = q /\ params = [] /\ (1 <= limit <= MAX_ROW_LIMIT)%N
  end.

Definition tool_environment (tool : DbTool) : string :=
  match tool with ResolveDivision e _ => e | QueryCentralDb e _ _ => e | QueryDivisionDb e _ _ _ _ => e end.

Section Confined.
Variable document : string -> result (gmap string RawEnvironment) string.
Variable env : PgEnv.

(** A connection a tool may open under a configuration: to a target of the
    environment asked for, which the whole, valid document lists under a name
    for QA or development, read-only from the first packet, verified unless
    that entry says otherwise, with a prefix of the intended statements. *)
Definition session_allowed (c : Config) (tool : DbTool) (s : Session) : Prop :=
  exists raw d alias e t sql params limit,
    configured_document c = Some raw /\ environments_parse document raw = Ok d
    /\ alias = normalize_alias (tool_environment tool) /\ alias_ok alias = true /\ d !! alias = Some e
    /\ tool_allows e t sql params limit tool
    /\ se_spec s = target_spec t /\ se_tls s = tls_asked (target_spec t)
    /\ exists n, se_ops s = take n (ninja_ops sql params limit).

Definition cache_ok (c : option CachedEnvironments) : Prop :=
  forall cached, c = Some cached -> environments_parse document (ce_raw cached) = Ok (ce_parsed cached).

Lemma query_json_result t sql params limit w : tls_ok (dw_tls w) ->
  session_result w (target_spec t) (ninja_ops sql params limit) (query_json env t sql params limit w).
Proof.
  intros Htls. unfold query_json. apply connect_then; [done|]. intros w0 H0.
  eapply (send_then 0); [apply exec_sent|exact H0|done|]. intros _ w1 H1.
  eapply (send_then 1); [apply exec_sent|exact H1|done|]. intros _ w2 H2.
  eapply (send_then 2); [apply query_one_sent|exact H2|done|]. intros row w3 H3.
  unfold dbind at 1, decode_row, dret. destruct row as [data|e]; cbn [map_err]; [|right; by exists 3%nat].
  eapply (send_then 3); [apply exec_sent|exact H3|done|]. intros _ w4 H4. right. by exists 4%nat.
Qed.

(** The document a call works with is the one its configuration names. *)
Lemma environments_spec c seen w : cache_ok seen -> cache_ok (dw_cache w) ->
  let '(w', r) := environments document c seen w in
  dw_tls w' = dw_tls w /\ dw_sessions w' = dw_sessions w /\ cache_ok (dw_cache w')
  /\ (forall d, r = Ok d -> exists raw, configured_document c = Some raw /\ environments_parse document raw = Ok d)
  /\ r = (environments document c None w).2.
Proof.
  intros Hseen Hcache. unfold environments. destruct (configured_document c) as [raw|]; [|done].
  assert (Hparse : let '(w', r) := parse_and_store document raw w in
            dw_tls w' = dw_tls w /\ dw_sessions w' = dw_sessions w /\ cache_ok (dw_cache w')
            /\ (forall d, r = Ok d -> exists raw', Some raw = Some raw' /\ environments_parse document raw' = Ok d)
            /\ r = (parse_and_store document raw w).2).
  { unfold parse_and_store, dbind, dret. destruct (environments_parse document raw) as [d|e] eqn:Ep; cbn [dw_tls dw_sessions dw_cache].
    - repeat split; [by intros ? [= <-]|]. intros ? [= <-]. by exists raw.
    - repeat split; done. }
  destruct seen as [cached|]; [|exact Hparse]. destruct (String.eqb_spec (ce_raw cached) raw) as [<-|]; [|exact Hparse].
  specialize (Hseen cached eq_refl). unfold dret. split; [done|]. split; [done|]. split; [done|]. split.
  - intros d [= <-]. by exists (ce_raw cached).
  - unfold parse_and_store, dbind, dret. by rewrite Hseen.
Qed.

Definition world_ok (w : DbWorld CachedEnvironments) : Prop := tls_ok (dw_tls w) /\ cache_ok (dw_cache w).

(** What a tool call leaves: at most one more connection, an allowed one. *)
Definition call_ok {A} (c : Config) (tool : DbTool) (w : DbWorld CachedEnvironments) (p : DbWorld CachedEnvironments * result A McpError) : Prop :=
  world_ok p.1 /\ (dw_sessions p.1 = dw_sessions w \/ exists s, dw_sessions p.1 = dw_sessions w ++ [s] /\ session_allowed c tool s).

Lemma call_ok_refused {A} c tool w e : world_ok w -> @call_ok A c tool w (w, Err e).
Proof. split; [done|by left]. Qed.

(** A call that reaches the database: the target is one the tool allows. *)
Lemma call_ok_query c tool w w' raw d e t sql params limit :
  configured_document c = Some raw -> environments_parse document raw = Ok d ->
  alias_ok (normalize_alias (tool_environment tool)) = true -> d !! normalize_alias (tool_environment tool) = Some e ->
  tool_allows e t sql params limit tool -> world_ok w' -> dw_sessions w' = dw_sessions w ->
  call_ok c tool w (query_json env t sql params limit w').
Proof.
  intros Hraw Hd Halias He Hallow [Htls Hcache] Hs.
  destruct (query_json_result t sql params limit w' Htls) as [(_ & Ht & Hc & Hsame)|(n & (Ht & Hc & s & Hone & Hspec & Htlss & Hops) & _)].
  - split; [split; [done|by rewrite Hc]|]. left. by rewrite Hsame.
  - split; [split; [done|by rewrite Hc]|]. right. exists s. rewrite Hone, Hs. split; [done|].
    exists raw, d, (normalize_alias (tool_environment tool)), e, t, sql, params, limit. split_and!; try done. by exists n.
Qed.

Lemma environments_then {A} c seen tool (k : Environments -> DM CachedEnvironments A) w :
  cache_ok seen -> world_ok w ->
  (forall raw d w', configured_document c = Some raw -> environments_parse document raw = Ok d -> world_ok w' ->
     dw_sessions w' = dw_sessions w -> call_ok c tool w (k d w')) ->
  call_ok c tool w (dbind (environments document c seen) k w).
Proof.
  intros Hseen [Htls Hcache] Hk. pose proof (environments_spec c seen w Hseen Hcache) as Hspec. unfold dbind.
  destruct (environments document c seen w) as [w' [d|e]]; destruct Hspec as (Ht & Hs & Hc & Hd & _).
  - destruct (Hd d eq_refl) as (raw & ? & ?). apply (Hk raw); try done. split; [by rewrite Ht|done].
  - split; cbn [fst]; [split; [by rewrite Ht|done]|]. by left.
Qed.

Lemma get_spec d requested alias e : environments_get d requested = Ok (alias, e) ->
  alias = normalize_alias requested /\ alias_ok (normalize_alias requested) = true /\ d !! normalize_alias requested = Some e.
Proof.
  unfold environments_get, validate_alias. destruct (alias_ok _); [|done]. destruct (d !! _) eqn:E; [|done]. by intros [= <- <-].
Qed.

Lemma central_spec e t : central_target e = Ok t -> listed e (Inherited (env_central_host e)) t /\ tg_database t = env_central_database e.
Proof. unfold central_target. destruct (parse_ssl_mode _) eqn:E; [|done]. by intros [= <-]. Qed.

Lemma division_spec e db_host db_name alias t : division_target e db_host db_name alias = Ok t ->
  (exists key h, env_division_hosts e !! key = Some h /\ listed e h t /\ is_none_or (given_key db_host) (String.eqb key) = true)
  /\ tg_database t = trim db_name /\ db_name_ok (tg_database t) = true.
Proof.
  unfold division_target. destruct (host_key_for e db_host alias) as [key|] eqn:Ek; [|done].
  destruct (env_division_hosts e !! key) as [h|] eqn:Eh; [|done]. unfold validated_db_name.
  destruct (db_name_ok (trim db_name)) eqn:En; [|done]. intros Ht.
  assert (Hkey : is_none_or (given_key db_host) (String.eqb key) = true).
  { unfold host_key_for in Ek. destruct (given_key db_host) as [k|]; [|done]. injection Ek as <-. apply String.eqb_refl. }
  assert (Hl : listed e h t /\ tg_database t = trim db_name).
  { destruct h as [host|d]; cbn [connection_target] in Ht; destruct (parse_ssl_mode _) eqn:E; try done; by injection Ht as <-. }
  destruct Hl as [Hl Hn]. rewrite Hn. split; [by exists key, h|done].
Qed.

Lemma clamp_bounds requested : (1 <= clamp_row_limit requested <= MAX_ROW_LIMIT)%N.
Proof. unfold clamp_row_limit, MAX_ROW_LIMIT. lia. Qed.

Lemma db_tool_ok c seen tool w : cache_ok seen -> world_ok w -> call_ok c tool w (db_tool document env c seen tool w).
Proof.
  intros Hseen Hw. pose proof (clamp_bounds) as Hclamp.
  destruct tool as [environment division|environment sql row_limit|environment db_host db_name sql row_limit]; cbn [db_tool].
  - unfold resolve_division. destruct (str_is_empty _); [by apply call_ok_refused|]. apply environments_then; [done..|]. intros raw d w' Hraw Hd Hw' Hs.
    unfold dbind, dret. destruct (environments_get d environment) as [[alias e]|] eqn:Eg; [|split; [done|by left]].
    apply get_spec in Eg as (-> & Ha & He). destruct (central_target e) as [t|] eqn:Et; [|split; [done|by left]].
    eapply call_ok_query; [done..| |done|done]. apply central_spec in Et as [? ?]. done.
  - unfold query_central, dbind at 1, dret. destruct (validate sql) as [[]|] eqn:Ev; [|by apply call_ok_refused]. cbn [map_err].
    apply environments_then; [done..|]. intros raw d w' Hraw Hd Hw' Hs.
    unfold dbind, dret. destruct (environments_get d environment) as [[alias e]|] eqn:Eg; [|split; [done|by left]].
    apply get_spec in Eg as (-> & Ha & He). destruct (central_target e) as [t|] eqn:Et; [|split; [done|by left]].
    eapply call_ok_query; [done..| |done|done]. apply central_spec in Et as [? ?]. cbn. auto 10.
  - unfold query_division, dbind at 1, dret. destruct (validate sql) as [[]|] eqn:Ev; [|by apply call_ok_refused]. cbn [map_err].
    apply environments_then; [done..|]. intros raw d w' Hraw Hd Hw' Hs.
    unfold dbind, dret. destruct (environments_get d environment) as [[alias e]|] eqn:Eg; [|split; [done|by left]].
    apply get_spec in Eg as (-> & Ha & He). destruct (division_target e _ _ _) as [t|] eqn:Et; [|split; [done|by left]].
    eapply call_ok_query; [done..| |done|done]. apply division_spec in Et as (? & ? & ?). cbn. auto 10.
Qed.

(** *** The cache *)

(** A computation that neither reads nor writes the cache. *)
Definition with_cache (w : DbWorld CachedEnvironments) (c : option CachedEnvironments) : DbWorld CachedEnvironments :=
  {| dw_step := dw_step w; dw_tls := dw_tls w; dw_cache := c; dw_sessions := dw_sessions w |}.

Definition blind {A} (m : DM CachedEnvironments A) : Prop := forall w c, m (with_cache w c) = (with_cache (m w).1 c, (m w).2).

Lemma blind_ret {A} (r : result A McpError) : blind (dret r).
Proof. done. Qed.

Lemma blind_bind {A B} (m : DM CachedEnvironments A) (k : A -> DM CachedEnvironments B) : blind m -> (forall a, blind (k a)) -> blind (dbind m k).
Proof. intros Hm Hk w c. unfold dbind. rewrite Hm. destruct (m w) as [w' [a|e]]; cbn [fst snd]; [apply Hk|done]. Qed.

Lemma blind_tls v allow : blind (tls_for env v allow).
Proof. intros w c. unfold tls_for. cbn [with_cache dw_step dw_tls]. by destruct (get_or_build _ _ _ _). Qed.

Lemma blind_dial v spec tls : blind (dial env v spec tls).
Proof. done. Qed.

Lemma blind_send n op : blind (send_op env n op).
Proof. done. Qed.

Lemma blind_query t sql params limit : blind (query_json env t sql params limit).
Proof.
  unfold query_json, connect, db_connect. apply blind_bind; [|intros n].
  - destruct (bool_decide _); [apply blind_dial|]. apply blind_bind; [apply blind_tls|]. intros config. apply blind_dial.
  - repeat (first [apply blind_bind; [|intros ?] | apply blind_send | apply blind_ret]).
Qed.

Lemma environments_blind {A} c seen (k : Environments -> DM CachedEnvironments A) w : cache_ok seen -> (forall d, blind (k d)) ->
  (dbind (environments document c seen) k w).2 = (dbind (environments document c None) k w).2.
Proof.
  intros Hseen Hk. unfold environments, dbind. destruct (configured_document c) as [raw|]; [|done].
  destruct seen as [cached|]; [|done]. destruct (String.eqb_spec (ce_raw cached) raw) as [<-|]; [|done].
  unfold parse_and_store, dbind, dret. rewrite (Hseen cached eq_refl).
  by rewrite (Hk _ w (Some {| ce_raw := ce_raw cached; ce_parsed := ce_parsed cached |}) : k _ _ = _).
Qed.

Lemma db_tool_blind c seen tool w : cache_ok seen -> (db_tool document env c seen tool w).2 = (db_tool document env c None tool w).2.
Proof.
  intros Hseen.
  assert (Hget : forall d environment f sql params limit, blind (dbind (dret (environments_get d environment)) (fun '(alias, e) =>
            dbind (dret (f alias e)) (fun target => query_json env target sql params limit)))).
  { intros. apply blind_bind; [apply blind_ret|]. intros [alias e]. apply blind_bind; [apply blind_ret|]. intros t. apply blind_query. }
  destruct tool; cbn [db_tool].
  - unfold resolve_division. destruct (str_is_empty _); [done|]. apply environments_blind; [done|]. intros d. apply (Hget d _ (fun _ e => central_target e)).
  - unfold query_central, dbind at 1 5, dret. destruct (map_err _ _); [|done]. apply environments_blind; [done|]. intros d. apply (Hget d _ (fun _ e => central_target e)).
  - unfold query_division, dbind at 1 5, dret. destruct (map_err _ _); [|done]. apply environments_blind; [done|]. intros d. apply (Hget d _ (fun alias e => division_target e _ _ alias)).
Qed.

(** C34: Database calls stay inside the configured allow-list.  However calls
    interleave and whatever configuration each sees, every connection the
    vendor opens is one its call may open under that configuration: the
    document is valid as a whole; the environment is the one asked for and its
    name begins with qa or dev; the host, the credentials and the certificate
    policy are those of the central database or of a division host that
    environment lists; a division database is a [div_] name; the session is
    read-only from its first packet; and what is sent is the session setting,
    a read-only transaction, one wrapped query the guard accepted (or the
    fixed lookup, with its text as a bound parameter) with a limit of at most
    ten thousand rows, and the commit.  And the cached document changes no
    result: a call answers as if it had parsed its configuration afresh. *)
Theorem ninja_db_confined steps :
  (forall s, s ∈ dw_sessions (dr_world (db_run document env steps)) ->
     exists call c tool, DbCall call c tool ∈ steps /\ session_allowed c tool s)
  /\ (forall call seen c tool w, dr_seen (db_run document env steps) !! call = Some seen ->
        (db_tool document env c seen tool w).2 = (db_tool document env c None tool w).2).
Proof.
  enough (Hinv : world_ok (dr_world (db_run document env steps)) /\ (forall call seen, dr_seen (db_run document env steps) !! call = Some seen -> cache_ok seen)
            /\ forall s, s ∈ dw_sessions (dr_world (db_run document env steps)) -> exists call c tool, DbCall call c tool ∈ steps /\ session_allowed c tool s).
  { destruct Hinv as (_ & Hseen & Hs). split; [exact Hs|]. intros call seen c tool w Hc. by eapply db_tool_blind, Hseen. }
  induction steps as [|step steps (Hw & Hseen & Hs)] using rev_ind.
  { split; [by repeat split|]. split; [|by intros s ?%elem_of_nil]. by intros call seen Hc. }
  unfold db_run in *. rewrite foldl_app. cbn [foldl]. set (r := foldl _ _ steps) in *. destruct step as [call|call c tool]; cbn [db_step].
  - split; [exact Hw|]. cbn [dr_seen dr_world]. split.
    + intros call' seen [[<- <-]|[_ Hc]]%lookup_insert_Some; [apply Hw|by eapply Hseen].
    + intros s (call' & c & tool & ? & ?)%Hs. exists call', c, tool. split; [set_solver|done].
  - assert (Hold : forall s, s ∈ dw_sessions (dr_world r) -> exists call' c' tool', DbCall call' c' tool' ∈ steps ++ [DbCall call c tool] /\ session_allowed c' tool' s).
    { intros s (call' & c' & tool' & ? & ?)%Hs. exists call', c', tool'. split; [set_solver|done]. }
    destruct (dr_seen r !! call) as [seen|] eqn:Eseen; [|done]. cbn [dr_world dr_seen].
    destruct (db_tool_ok c seen tool (dr_world r) (Hseen _ _ Eseen) Hw) as [Hw' Hs']. split; [exact Hw'|]. split.
    + intros call' seen' [_ Hc]%lookup_delete_Some. by eapply Hseen.
    + destruct Hs' as [-> | (s & -> & Hallowed)]; [exact Hold|]. intros s' [Hin| ->%list_elem_of_singleton]%elem_of_app; [by apply Hold|].
      exists call, c, tool. split; [set_solver|done].
Qed.
End Confined.

(** *** The WRDS vendor *)

Section WrdsConfined.
Context `{KeychainBackend B}.
Variable keychain : B.
Variable env : PgEnv.

Definition wrds_spec (p : ConnParams) : ConnectSpec :=
  {| cs_host := cp_host p; cs_port := cp_port p; cs_database := cp_dbname p; cs_user := cp_user p; cs_password := cp_password p;
     cs_ssl_mode := cp_ssl_mode p; cs_allow_invalid_certificates := false; cs_application_name := WRDS_APPLICATION_NAME;
     cs_connect_timeout := WRDS_CONNECT_TIMEOUT; cs_startup_options := None |}.

(** What each tool asks: names of schemas and tables are bound parameters. *)
Definition wrds_asks (t : WrdsTool) : string * list string :=
  match t with
  | WrdsQuery sql _ => (sql, [])
  | WrdsListLibraries => (LIBRARIES_SQL, [])
  | WrdsListTables library _ => (TABLES_SQL, [library])
  | WrdsDescribeTable library table => (COLUMNS_SQL, [library; table])
  end.

(** A WRDS call opens at most one connection, to the configured server with
    the configured account and never without checking its certificate, and
    sends the read-only setting before its one wrapped query. *)
Theorem wrds_confined joined c t w : tls_ok (dw_tls w) ->
  (exists e, conn_params keychain joined c = Err e /\ wrds_tool keychain env joined c t w = (w, Err e))
  \/ exists p limit, conn_params keychain joined c = Ok p /\ (1 <= limit <= WRDS_MAX_ROW_LIMIT)%N
       /\ session_result w (wrds_spec p)
            [PgBatch (read_only_session_sql WRDS_PG); PgQuery (wrap_query (wrds_asks t).1 limit) (wrds_asks t).2]
            (wrds_tool keychain env joined c t w).
Proof.
  intros Htls.
  assert (Hq : forall sql params limit,
            (exists e, conn_params keychain joined c = Err e /\ wrds_query_json keychain env joined c sql params limit w = (w, Err e))
            \/ exists p, conn_params keychain joined c = Ok p
                 /\ session_result w (wrds_spec p) [PgBatch (read_only_session_sql WRDS_PG); PgQuery (wrap_query sql limit) params]
                      (wrds_query_json keychain env joined c sql params limit w)).
  { intros sql params limit. unfold wrds_query_json, wrds_connect. destruct (conn_params keychain joined c) as [p|e]; [right|left; by exists e].
    exists p. split; [done|]. change (dbind (dret (Ok p)) ?k) with (k p). apply connect_then; [done|]. intros w0 H0.
    eapply (send_then 0); [apply exec_sent|exact H0|done|]. intros _ w1 H1.
    eapply (send_then 1); [apply query_one_sent|exact H1|done|]. intros row w2 H2.
    unfold decode_row, dret. right. exists 2%nat. split; [exact H2|done]. }
  assert (Hl : forall r, (1 <= wrds_clamp_row_limit r <= WRDS_MAX_ROW_LIMIT)%N) by (intros r; unfold wrds_clamp_row_limit, WRDS_MAX_ROW_LIMIT; lia).
  destruct t; cbn [wrds_tool wrds_asks fst snd];
    match goal with |- context [wrds_query_json keychain env joined c ?s ?ps ?l] => destruct (Hq s ps l) as [?|(p & ? & ?)]; [by left|right; by exists p, l] end.
Qed.
End WrdsConfined.

(** ** Example runs *)

Module DatabasesWitness.

Definition qa5 : RawEnvironment :=
  {| re_central_host := "central"; re_central_database := None; re_division_hosts := {["host-1" := inl "division-1"]}; re_username := "reader";
     re_password := "secret"; re_port := None; re_ssl_mode := None; re_allow_invalid_certificates := None |}.

Definition document (raw : string) : result (gmap string RawEnvironment) string := Ok {["qa5" := qa5]}.

Definition config : Config :=
  {| shared := ∅; by_vendor := {["ninjaone" := {[ENVIRONMENTS_KEY := "{}"]}]}; secrets := ∅ |}.

(** Every statement succeeds; a query answers an empty array. *)
Definition env : PgEnv :=
  {| pg_reply := fun n => if (n =? 4)%nat then PgRow (Ok (VArray [])) else PgDone;
     tls_system := fun _ => {| ty_no_roots := false; ty_first_error := None; ty_versions := Ok tt |} |}.

Definition steps : list DbStep := [DbLook 0; DbCall 0 config (QueryDivisionDb "QA5" None "div_acme_1" "SELECT 1" (Some 0%N))].

Lemma ninja_db_confined_witness :
  exists s, dw_sessions (dr_world (db_run document env steps)) = [s] /\ se_ops s = ninja_ops "SELECT 1" [] 1 /\ cs_host (se_spec s) = "division-1"
    /\ exists call c tool, DbCall call c tool ∈ steps /\ session_allowed document c tool s.
Proof.
  assert (H : exists s, dw_sessions (dr_world (db_run document env steps)) = [s] /\ se_ops s = ninja_ops "SELECT 1" [] 1 /\ cs_host (se_spec s) = "division-1").
  { eexists. split; [vm_compute; reflexivity|]. split; vm_compute; reflexivity. }
  destruct H as (s & Hs & Hops & Hhost). exists s. split; [exact Hs|]. split; [exact Hops|]. split; [exact Hhost|].
  apply (proj1 (ninja_db_confined document env steps) s). rewrite Hs. left.
Defined.

(** A query the guard accepts that leaves the row limit in a comment: no word
    of what the server reads is [limit]. *)
Lemma row_limit_commented_out :
  validate "SELECT * FROM device) __t) __s --" = Ok tt
  /\ (exists tokens, tokenize (wrap_query "SELECT 1" 50) = Ok tokens /\ existsb (String.eqb "limit") tokens = true)
  /\ (exists tokens, tokenize (wrap_query "SELECT * FROM device) __t) __s --" 50) = Ok tokens /\ existsb (String.eqb "limit") tokens = false).
Proof. split; [vm_compute; reflexivity|]. split; eexists; (split; [vm_compute; reflexivity|vm_compute; reflexivity]). Qed.
End DatabasesWitness.
