(* ===== verification/Ema.v ===== *)
(** * Enterprise-managed authorization (src/src/auth/ema.rs)

    The client side of the two token grants: an identity assertion is
    exchanged at the identity provider for an ID-JAG, and the ID-JAG at the
    resource's authorization server for an access token, each at the token
    endpoint the issuer's own metadata names.  URLs, the HTTP client, JSON and
    the JWT header are parameters; every response, and every chunk of one, is
    an input. *)
From S2P Require Import Prelude RustStr Json PolicyTypes Config Scope Egress Transport Oidc NetAddr.

Definition GRANT_PROFILE : string := "urn:ietf:params:oauth:grant-profile:id-jag".
Definition ID_JAG : string := "urn:ietf:params:oauth:token-type:id-jag".
Definition JWT_BEARER : string := "urn:ietf:params:oauth:grant-type:jwt-bearer".
Definition TOKEN_EXCHANGE : string := "urn:ietf:params:oauth:grant-type:token-exchange".
Definition EMA_LIMIT : nat := 64 * 1024.
Definition ACCESS_TOKEN_TYPE : string := "urn:ietf:params:oauth:token-type:access_token".
Definition ID_JAG_TYP : string := "oauth-id-jag+jwt".

(** [url::Host]. *)
Record EmaMetadata := { em_issuer : string; em_token_endpoint : string; em_profiles : list string; em_grant_types : list string }.

Record EmaToken := { et_access_token : string; et_token_type : string; et_issued_token_type : option string; et_expires_in : option N }.

Record ClientCredentials := { ec_client_id : string; ec_assertion : option string }.

Inductive SubjectType := IdToken | RefreshToken.

Record ExchangeRequest := {
  er_idp_issuer : string; er_resource_issuer : string; er_resource : string; er_scope : string; er_identity_assertion : string;
  er_subject_type : SubjectType; er_idp_client : ClientCredentials; er_resource_client : ClientCredentials;
}.

Definition subject_type_str (t : SubjectType) : string :=
  match t with
  | IdToken => "urn:ietf:params:oauth:token-type:id_token"
  | RefreshToken => "urn:ietf:params:oauth:token-type:refresh_token"
  end.

Definition apply_client (c : ClientCredentials) (form : list (string * string)) : list (string * string) :=
  form ++ [("client_id", ec_client_id c)]
  ++ match ec_assertion c with
     | Some assertion => [("client_assertion_type", "urn:ietf:params:oauth:client-assertion-type:jwt-bearer"); ("client_assertion", assertion)]
     | None => []
     end.

(** A chunk of a body, or the error that ends it. *)
Inductive EmaReply := EmaFails | EmaReplies (status : N) (content_length : option N) (chunks : list (option (list byte))).

Section Ema.
Context `{UrlLib}.
Variable url_host : Url -> option UrlHost.
Variable url_set_path : Url -> string -> Url.
Variable metadata_json : list byte -> option EmaMetadata.
Variable token_json : list byte -> option EmaToken.
(** The [typ] of a header that decodes. *)
Variable jwt_typ : string -> option string.
Variable env : nat -> EmaReply.

Inductive EmaRequest := EmaGet (url : Url) | EmaPost (url : string) (form : list (string * string)).

(** The requests made so far with what came back. *)
Definition EmaLog : Type := list (EmaRequest * EmaReply).
Definition XM (A : Type) : Type := EmaLog -> EmaLog * result A string.
Definition xret {A} (r : result A string) : XM A := fun log => (log, r).
Definition xbind {A B} (m : XM A) (k : A -> XM B) : XM B := fun log => let '(log', r) := m log in match r with Ok a => k a log' | Err e => (log', Err e) end.
Definition ema_send (q : EmaRequest) : XM EmaReply := fun log => let reply := env (length log) in (log ++ [(q, reply)], Ok reply).

Definition url_is_local (u : Url) : bool := host_is_loopback (url_host u).

Definition trusted_url (value : string) : result Url string :=
  match url_parse value with
  | None => Err "invalid_url"%string
  | Some u =>
      if match url_host u with None => true | Some _ => false end || negb (str_is_empty (url_username u)) || url_has_password u
         || bool_decide (is_Some (url_query u)) || url_has_fragment u
         || negb (String.eqb (url_scheme u) "https" || (String.eqb (url_scheme u) "http" && url_is_local u))
      then Err "invalid_url"%string else Ok u
  end.

(** The chunk loop. *)
Fixpoint ema_chunks (chunks : list (option (list byte))) (bytes : list byte) : result (list byte) string :=
  match chunks with
  | [] => Ok bytes
  | None :: _ => Err "issuer_unavailable"%string
  | Some chunk :: rest =>
      if (EMA_LIMIT <? length bytes + length chunk)%nat then Err "issuer_response_too_large"%string
      else ema_chunks rest (bytes ++ chunk)
  end.

Definition read_reply (reply : EmaReply) : result (list byte) string :=
  match reply with
  | EmaFails => Err "issuer_unavailable"%string
  | EmaReplies status content_length chunks =>
      if negb (is_success status) then Err "issuer_rejected_request"%string
      else if is_some_and content_length (fun size => N.of_nat EMA_LIMIT <? size)%N then Err "issuer_response_too_large"%string
      else ema_chunks chunks []
  end.

Definition ema_reply {T} (decode : list byte -> option T) (reply : EmaReply) : result T string :=
  let? bytes := read_reply reply in
  match decode bytes with Some t => Ok t | None => Err "invalid_issuer_response"%string end.

Definition ema_json {T} (decode : list byte -> option T) (q : EmaRequest) : XM T :=
  xbind (ema_send q) (fun reply => xret (ema_reply decode reply)).

Definition discovery_url (u : Url) : Url :=
  url_set_path u ("/.well-known/oauth-authorization-server" ++ trim_end_matches slash (url_path u))%string.

Definition ema_metadata (issuer : string) : XM EmaMetadata :=
  xbind (xret (trusted_url issuer)) (fun u =>
  xbind (ema_json metadata_json (EmaGet (discovery_url u))) (fun metadata =>
  if negb (String.eqb (em_issuer metadata) issuer) then xret (Err "metadata_issuer_mismatch"%string)
  else xbind (xret (trusted_url (em_token_endpoint metadata))) (fun _ => xret (Ok metadata)))).

Definition require_profile (m : EmaMetadata) : result unit string :=
  if negb (existsb (String.eqb GRANT_PROFILE) (em_profiles m)) || negb (existsb (String.eqb JWT_BEARER) (em_grant_types m))
  then Err "id_jag_profile_unavailable"%string else Ok tt.

Definition verify_resource_issuer (issuer : string) : XM unit :=
  xbind (ema_metadata issuer) (fun m => xret (require_profile m)).

Definition jag_form (r : ExchangeRequest) : list (string * string) :=
  apply_client (er_idp_client r)
    [("grant_type", TOKEN_EXCHANGE); ("requested_token_type", ID_JAG); ("audience", er_resource_issuer r); ("resource", er_resource r);
     ("scope", er_scope r); ("subject_token", er_identity_assertion r); ("subject_token_type", subject_type_str (er_subject_type r))].

Definition access_form (r : ExchangeRequest) (jag : string) : list (string * string) :=
  apply_client (er_resource_client r) [("grant_type", JWT_BEARER); ("assertion", jag); ("scope", er_scope r)].

Definition jag_ok (t : EmaToken) : bool :=
  bool_decide (et_issued_token_type t = Some ID_JAG) && negb (str_is_empty (et_access_token t))
  && negb (bool_decide (et_expires_in t = Some 0%N))
  && (String.eqb (et_token_type t) "N_A" || String.eqb (et_token_type t) "Bearer").

Definition access_ok (t : EmaToken) : bool :=
  eq_ignore_ascii_case (et_token_type t) "Bearer" && negb (str_is_empty (et_access_token t))
  && negb (bool_decide (et_expires_in t = Some 0%N))
  && is_none_or (et_issued_token_type t) (fun ty => String.eqb ty ACCESS_TOKEN_TYPE)
  && negb (bool_decide (jwt_typ (et_access_token t) = Some ID_JAG_TYP)).

Definition request_invalid (r : ExchangeRequest) : bool :=
  str_is_empty (er_identity_assertion r) || (EMA_LIMIT <? str_len (er_identity_assertion r))%nat
  || str_is_empty (ec_client_id (er_idp_client r)) || str_is_empty (ec_client_id (er_resource_client r)).

Definition exchange (r : ExchangeRequest) : XM string :=
  xbind (xret (trusted_url (er_resource r))) (fun _ =>
  if request_invalid r then xret (Err "invalid_exchange_request"%string)
  else
    xbind (ema_metadata (er_idp_issuer r)) (fun idp =>
    xbind (ema_metadata (er_resource_issuer r)) (fun resource_as =>
    xbind (xret (require_profile resource_as)) (fun _ =>
    xbind (ema_json token_json (EmaPost (em_token_endpoint idp) (jag_form r))) (fun jag =>
    if negb (jag_ok jag) then xret (Err "invalid_id_jag_response"%string)
    else if negb (bool_decide (jwt_typ (et_access_token jag) = Some ID_JAG_TYP)) then xret (Err "invalid_id_jag_response"%string)
    else
      xbind (ema_json token_json (EmaPost (em_token_endpoint resource_as) (access_form r (et_access_token jag)))) (fun access =>
      if negb (access_ok access) then xret (Err "invalid_access_token_response"%string)
      else xret (Ok (et_access_token access)))))))).

(** ** What is sent where *)

(** The metadata an issuer's own discovery document gave, at request [i]. *)
Definition told {T} (decode : list byte -> option T) (log : EmaLog) (i : nat) (t : T) : Prop :=
  exists q reply, log !! i = Some (q, reply) /\ ema_reply decode reply = Ok t.

Definition issuer_metadata (log : EmaLog) (i : nat) (issuer : string) (m : EmaMetadata) : Prop :=
  (exists u reply, log !! i = Some (EmaGet (discovery_url u), reply) /\ trusted_url issuer = Ok u)
  /\ told metadata_json log i m /\ em_issuer m = issuer /\ is_ok (trusted_url (em_token_endpoint m)) = true.

(** How far an exchange got, and what it sent. *)
Inductive Exchanged (r : ExchangeRequest) : EmaLog -> result string string -> Prop :=
| ex_refused e : Exchanged r [] (Err e)
| ex_idp log u reply e : trusted_url (er_idp_issuer r) = Ok u -> log = [(EmaGet (discovery_url u), reply)] -> Exchanged r log (Err e)
| ex_resource log idp u reply reply0 q0 e :
    issuer_metadata log 0 (er_idp_issuer r) idp -> trusted_url (er_resource_issuer r) = Ok u ->
    log = [(q0, reply0); (EmaGet (discovery_url u), reply)] -> Exchanged r log (Err e)
| ex_jag log idp res two reply e :
    issuer_metadata log 0 (er_idp_issuer r) idp -> issuer_metadata log 1 (er_resource_issuer r) res -> require_profile res = Ok tt ->
    length two = 2%nat -> log = two ++ [(EmaPost (em_token_endpoint idp) (jag_form r), reply)] -> Exchanged r log (Err e)
| ex_access log idp res jag two reply reply' result :
    issuer_metadata log 0 (er_idp_issuer r) idp -> issuer_metadata log 1 (er_resource_issuer r) res -> require_profile res = Ok tt ->
    length two = 2%nat -> told token_json log 2 jag -> jag_ok jag = true -> jwt_typ (et_access_token jag) = Some ID_JAG_TYP ->
    log = two ++ [(EmaPost (em_token_endpoint idp) (jag_form r), reply);
                  (EmaPost (em_token_endpoint res) (access_form r (et_access_token jag)), reply')] ->
    (forall token, result = Ok token -> exists access, told token_json log 3 access /\ token = et_access_token access /\ access_ok access = true) ->
    Exchanged r log result.

Definition EMA_ERRORS : list string :=
  ["invalid_url"; "issuer_unavailable"; "issuer_rejected_request"; "issuer_response_too_large"; "invalid_issuer_response";
   "metadata_issuer_mismatch"; "id_jag_profile_unavailable"; "invalid_exchange_request"; "invalid_id_jag_response"; "invalid_access_token_response"]%string.

Definition category {A} (r : result A string) : Prop := forall e, r = Err e -> existsb (String.eqb e) EMA_ERRORS = true.

Lemma category_ok {A} (a : A) : category (Ok a).
Proof. by intros e. Qed.

Lemma category_of {A} e : existsb (String.eqb e) EMA_ERRORS = true -> @category A (Err e).
Proof. by intros He e' [= <-]. Qed.

Lemma category_url value : category (trusted_url value).
Proof. unfold trusted_url. destruct (url_parse value); [|by apply category_of]. destruct (_ || _); [by apply category_of|apply category_ok]. Qed.

Lemma category_chunks chunks : forall bytes, category (ema_chunks chunks bytes).
Proof.
  induction chunks as [|[chunk|] chunks IH]; intros bytes; cbn [ema_chunks]; [apply category_ok| |by apply category_of].
  destruct (_ <? _)%nat; [by apply category_of|apply IH].
Qed.

Lemma category_reply {T} (decode : list byte -> option T) reply : category (ema_reply decode reply).
Proof.
  unfold ema_reply, read_reply. destruct reply as [|status len chunks]; [by apply category_of|]. destruct (negb _); [by apply category_of|].
  destruct (is_some_and _ _); [by apply category_of|]. pose proof (category_chunks chunks []) as Hc.
  destruct (ema_chunks chunks []) as [bytes|e]; [|intros e' [= <-]; by apply Hc]. destruct (decode bytes); [apply category_ok|by apply category_of].
Qed.

(** One discovery: nothing is sent to an issuer that is no trusted URL. *)
Lemma metadata_spec issuer log :
  let '(log', r) := ema_metadata issuer log in
  category r
  /\ ((exists e, r = Err e /\ log' = log)
      \/ exists u, trusted_url issuer = Ok u /\ log' = log ++ [(EmaGet (discovery_url u), env (length log))]
           /\ forall m, r = Ok m -> ema_reply metadata_json (env (length log)) = Ok m /\ em_issuer m = issuer
                /\ is_ok (trusted_url (em_token_endpoint m)) = true).
Proof.
  unfold ema_metadata. unfold xbind at 1, xret. pose proof (category_url issuer) as Hu.
  destruct (trusted_url issuer) as [u|e]; [|split; [intros ? [= <-]; by apply Hu|left; by exists e]].
  unfold xbind at 1, ema_json, xbind at 1, ema_send, xret. pose proof (category_reply metadata_json (env (length log))) as Hr.
  destruct (ema_reply metadata_json (env (length log))) as [m|e]; [|split; [intros ? [= <-]; by apply Hr|right; by exists u]].
  destruct (String.eqb_spec (em_issuer m) issuer) as [Hi|]; cbn [negb]; [|split; [by apply category_of|right; by exists u]].
  unfold xbind. pose proof (category_url (em_token_endpoint m)) as Ht.
  destruct (trusted_url (em_token_endpoint m)) as [t|e] eqn:Et; [|split; [intros ? [= <-]; by apply Ht|right; by exists u]].
  split; [apply category_ok|right]. exists u. split; [done|]. split; [done|]. intros m' [= <-]. by rewrite Et.
Qed.

Lemma metadata_told log log' i issuer m u : log !! i = Some (EmaGet (discovery_url u), env i) -> trusted_url issuer = Ok u ->
  ema_reply metadata_json (env i) = Ok m -> em_issuer m = issuer -> is_ok (trusted_url (em_token_endpoint m)) = true ->
  issuer_metadata (log ++ log') i issuer m.
Proof.
  intros Hl Hu Hm Hi Ht. apply (lookup_app_l_Some _ log') in Hl. split; [by exists u, (env i)|]. split; [by eexists _, _|done].
Qed.

Lemma exchange_spec r : let '(log, result) := exchange r [] in Exchanged r log result /\ category result.
Proof.
  unfold exchange. unfold xbind at 1, xret. pose proof (category_url (er_resource r)) as Hres.
  destruct (trusted_url (er_resource r)) as [u0|e]; [|split; [constructor|intros ? [= <-]; by apply Hres]].
  destruct (request_invalid r); [split; [constructor|by apply category_of]|].
  unfold xbind at 1. pose proof (metadata_spec (er_idp_issuer r) []) as H1. destruct (ema_metadata (er_idp_issuer r) []) as [l1 r1].
  destruct H1 as (C1 & [(e & -> & ->)|(u1 & U1 & -> & M1)]); [split; [constructor|intros ? [= <-]; by apply C1]|].
  destruct r1 as [idp|e]; [|split; [by eapply ex_idp|intros ? [= <-]; by apply C1]]. destruct (M1 idp eq_refl) as (J1 & I1 & T1).
  assert (K1 : forall log', issuer_metadata ([(EmaGet (discovery_url u1), env 0)] ++ log') 0 (er_idp_issuer r) idp) by (intros log'; by eapply metadata_told).
  cbn [app length] in *. set (one := (EmaGet (discovery_url u1), env 0)) in *.
  unfold xbind at 1. pose proof (metadata_spec (er_resource_issuer r) [one]) as H2. destruct (ema_metadata (er_resource_issuer r) [one]) as [l2 r2].
  destruct H2 as (C2 & [(e & -> & ->)|(u2 & U2 & -> & M2)]); [split; [by eapply ex_idp|intros ? [= <-]; by apply C2]|].
  cbn [app length] in *. set (two := (EmaGet (discovery_url u2), env 1)) in *.
  destruct r2 as [res|e]; [|split; [by eapply (ex_resource _ _ idp)|intros ? [= <-]; by apply C2]]. destruct (M2 res eq_refl) as (J2 & I2 & T2).
  assert (K2 : forall log', issuer_metadata ([one; two] ++ log') 1 (er_resource_issuer r) res) by (intros log'; by eapply metadata_told).
  unfold xbind at 1. destruct (require_profile res) as [[]|e] eqn:Ep.
  2: { split; [by eapply (ex_resource _ _ idp)|]. unfold require_profile in Ep. destruct (_ || _); [|done]. injection Ep as <-. by apply category_of. }
  unfold xbind at 1, ema_json at 1, xbind at 1, ema_send, xret. cbn [app length].
  assert (Hjag : forall e, Exchanged r [one; two; (EmaPost (em_token_endpoint idp) (jag_form r), env 2)] (Err e)).
  { intros e. by eapply (ex_jag _ _ idp res [one; two]); [apply K1|apply K2|..]. }
  pose proof (category_reply token_json (env 2)) as C3. destruct (ema_reply token_json (env 2)) as [jag|e] eqn:J3; [|split; [apply Hjag|intros ? [= <-]; by apply C3]].
  destruct (jag_ok jag) eqn:Ejag; cbn [negb]; [|split; [apply Hjag|by apply category_of]].
  destruct (bool_decide (jwt_typ (et_access_token jag) = Some ID_JAG_TYP)) eqn:Etyp; cbn [negb]; [|split; [apply Hjag|by apply category_of]].
  apply bool_decide_eq_true in Etyp. unfold xbind at 1, ema_json at 1, xbind at 1, ema_send, xret. cbn [app length].
  pose proof (category_reply token_json (env 3)) as C4.
  assert (Hacc : forall result, (forall token, result = Ok token -> exists access, ema_reply token_json (env 3) = Ok access /\ token = et_access_token access /\ access_ok access = true) ->
            Exchanged r [one; two; (EmaPost (em_token_endpoint idp) (jag_form r), env 2); (EmaPost (em_token_endpoint res) (access_form r (et_access_token jag)), env 3)] result).
  { intros result Hres'. eapply (ex_access _ _ idp res jag [one; two]); [apply K1|apply K2|done|done|by eexists _, _|done|done|reflexivity|].
    intros token (access & ? & ? & ?)%Hres'. exists access. split; [by eexists _, _|done]. }
  destruct (ema_reply token_json (env 3)) as [access|e]; [|split; [by apply Hacc|intros ? [= <-]; by apply C4]].
  destruct (access_ok access) eqn:Eacc; cbn [negb]; [|split; [by apply Hacc|by apply category_of]].
  split; [|apply category_ok]. apply Hacc. intros token [= <-]. by exists access.
Qed.

(** Assertions go only to the issuers they are for.  An exchange sends at most
    four requests, two discoveries and two grants, however the network
    answers: the identity assertion goes only to the token endpoint that the
    identity provider's own metadata names, found at its well-known address
    under its own name, over HTTPS or to this machine; the ID-JAG goes only to
    the endpoint the resource's authorization server names, and only when its
    metadata announces the profile; each with the credentials of the client
    registered there.  What is returned is a token that server issued in reply,
    is not empty and is not the ID-JAG's kind; and every failure is one of
    ten fixed categories, so no reply of an issuer reaches the caller. *)
Theorem ema_assertions_confined r :
  let '(log, result) := exchange r [] in
  (length log <= 4)%nat
  /\ (forall url form reply, (EmaPost url form, reply) ∈ log ->
        (exists idp, issuer_metadata log 0 (er_idp_issuer r) idp /\ url = em_token_endpoint idp /\ form = jag_form r)
        \/ exists res jag, issuer_metadata log 1 (er_resource_issuer r) res /\ require_profile res = Ok tt
             /\ told token_json log 2 jag /\ jwt_typ (et_access_token jag) = Some ID_JAG_TYP
             /\ url = em_token_endpoint res /\ form = access_form r (et_access_token jag))
  /\ (forall token, result = Ok token -> token <> ""%string /\ jwt_typ token <> Some ID_JAG_TYP
        /\ exists access, told token_json log 3 access /\ token = et_access_token access)
  /\ (forall e, result = Err e -> e ∈ EMA_ERRORS).
Proof.
  pose proof (exchange_spec r) as Hspec. destruct (exchange r []) as [log result]. destruct Hspec as [Hex Hcat].
  assert (Herr : forall e, result = Err e -> e ∈ EMA_ERRORS).
  { intros e He. specialize (Hcat e He). apply existsb_exists in Hcat as (x & Hx & ->%String.eqb_eq). by apply list_elem_of_In. }
  destruct Hex as [e|log u reply e Hu ->|log idp u reply reply0 q0 e Hidp Hu ->|log idp res two reply e Hidp Hres Hp Htwo ->|log idp res jag two reply reply' result Hidp Hres Hp Htwo Hjag Hok Htyp -> Htok].
  - split; [cbn; lia|]. split; [by intros ? ? ? ?%elem_of_nil|done].
  - split; [cbn; lia|]. split; [set_solver|done].
  - split; [cbn; lia|]. split; [|done]. destruct Hidp as ((u0 & r0 & Hl & _) & _). cbn in Hl. injection Hl as -> ->. set_solver.
  - split; [rewrite length_app, Htwo; cbn; lia|]. split; [|done].
    intros url form reply' [Hin|[= -> -> ->]%list_elem_of_singleton]%elem_of_app; [|left; by exists idp].
    exfalso. destruct two as [|a [|b [|]]]; try done. destruct Hidp as ((u0 & r0 & Hl & _) & _), Hres as ((u1 & r1 & Hl1 & _) & _).
    cbn in Hl, Hl1. injection Hl as ->. injection Hl1 as ->. set_solver.
  - split; [rewrite length_app, Htwo; cbn; lia|]. split.
    + intros url form reply0 [Hin|[[= -> -> ->]|[= -> -> ->]%list_elem_of_singleton]%elem_of_cons]%elem_of_app; [|left; by exists idp|right; by exists res, jag].
      exfalso. destruct two as [|a [|b [|]]]; try done. destruct Hidp as ((u0 & r0 & Hl & _) & _), Hres as ((u1 & r1 & Hl1 & _) & _).
      cbn in Hl, Hl1. injection Hl as ->. injection Hl1 as ->. set_solver.
    + split; [|done]. intros token (access & Ht & -> & Ha)%Htok. unfold access_ok in Ha. rewrite !andb_true_iff in Ha. destruct Ha as ((((_ & Hne) & _) & _) & Hty).
      split; [|split; [|by exists access]].
      * intros E. by rewrite E in Hne.
      * apply negb_true_iff, bool_decide_eq_false in Hty. exact Hty.
Qed.
End Ema.
