(* ===== verification/NinjaLogin.v ===== *)
(** * NinjaOne console sessions (src/src/vendor/ninjaone/, src/src/controllers/ninjaone.rs)

    The NinjaOne console takes a session key that the server obtains by
    signing in: with the account of the selected server entry or of the
    top-level settings, a password and, when asked, a one-time code from the
    caller, a command or a seed.  Keys are kept in memory per base URL and
    account.  A request resolves its credential first and, when a key obtained
    this way is refused, evicts it: two critical sections, between which other
    calls run.  The HTTP client, URLs, JSON, the operating system's keychain
    and commands are parameters, with the texts of their own errors left out
    where the interface has none; what a request carries besides its
    credential belongs to the transport. *)
From S2P Require Import Prelude RustStr Json PolicyTypes Config Scope ResponseCache Egress Transport Credentials ToolCall Totp.

(** ** Text *)

Definition ends_with (s suffix : string) : bool :=
  match strip_prefix_bytes (rev (as_bytes suffix)) (rev (as_bytes s)) with Some _ => true | None => false end.

(** [str::replace]: occurrences from the left that do not overlap. *)
Fixpoint replace_bytes (fuel : nat) (from to l : list byte) : list byte :=
  match fuel with
  | O => l
  | S fuel =>
      match l with
      | [] => []
      | b :: rest =>
          match strip_prefix_bytes from l with
          | Some after => to ++ replace_bytes fuel from to after
          | None => b :: replace_bytes fuel from to rest
          end
      end
  end.

Definition str_replace (s from to : string) : string := of_bytes (replace_bytes (str_len s) (as_bytes from) (as_bytes to) (as_bytes s)).

(** [str::lines]. *)
Definition LF : byte := byte_of 10.
Definition CR : byte := byte_of 13.

Fixpoint split_lines (l acc : list byte) : list (list byte) :=
  match l with
  | [] => if bool_decide (acc = []) then [] else [rev acc]
  | b :: rest =>
      if beqb b LF then rev (match acc with c :: more => if beqb c CR then more else acc | [] => acc end) :: split_lines rest []
      else split_lines rest (b :: acc)
  end.

Definition lines (s : string) : list string := map of_bytes (split_lines (as_bytes s) []).

Definition take_chars (n : nat) (s : string) : string := of_bytes (mjoin (take n (chars (as_bytes s)))).

(** ** Settings *)

Inductive AuthSource := AccessToken | LoginSession | StaticSessionKey | SessionCookie.
#[export] Instance AuthSource_eq_dec : EqDecision AuthSource.
Proof. solve_decision. Defined.

Record ResolvedAuth := { ra_credentials : Credentials; ra_source : AuthSource }.

Definition SESSION_COOKIE_NAME : string := "sessionKey".
Definition SESSION_KEY_HEADER : string := "sessionKey".

Definition session_key_credentials (key : string) : Credentials := ApiKeyHeader SESSION_KEY_HEADER key.
Definition session_cookie_credentials (key : string) : Credentials := ApiKeyHeader "Cookie" (SESSION_COOKIE_NAME ++ "=" ++ key).

Definition carrier (source : AuthSource) (value : string) : ResolvedAuth :=
  {| ra_credentials := match source with
                       | AccessToken => Bearer value
                       | StaticSessionKey => session_key_credentials value
                       | SessionCookie | LoginSession => ApiKeyHeader "Cookie" value
                       end;
     ra_source := source |}.

(** The session cache is shared by every instance and part of the world. *)
Record NinjaOneVendor := { nv_base_url_override : option string; nv_server_alias : option string }.

Definition for_server (v : NinjaOneVendor) (alias : option string) : NinjaOneVendor :=
  {| nv_base_url_override := nv_base_url_override v; nv_server_alias := alias |}.

Record ServerEntry := {
  sv_url : string; sv_prefix : string; sv_email : option string; sv_password : option string;
  sv_totp_command : option string; sv_totp_secret : option string;
}.

Definition default_entry : ServerEntry :=
  {| sv_url := ""; sv_prefix := ""; sv_email := None; sv_password := None; sv_totp_command := None; sv_totp_secret := None |}.

Record LoginConfig := {
  lc_email : option string; lc_password : option string; lc_password_label : string;
  lc_totp_command : option string; lc_totp_secret : option string; lc_totp_secret_label : string;
}.

Definition ninja_setting (c : Config) (key : string) : option string := config_non_blank c "ninjaone" key.

Definition invalid_server_entry (alias : string) : McpError :=
  unexpected ("NINJAONE_SERVERS entry `" ++ alias ++ "` must be a URL string or an object with a non-empty `url` and optional string `prefix`, `email`, `password`, `totpCommand`, and `totpSecret` fields")%string None.

Definition nonblank (s : string) : option string := let t := trim s in if str_is_empty t then None else Some t.

Definition entry_field (server : JsonMap) (field alias : string) : result (option string) McpError :=
  match map_get server field with
  | None => Ok None
  | Some v => match as_str v with Some s => Ok (nonblank s) | None => Err (invalid_server_entry alias) end
  end.

Definition append_prefix (url prefix : string) : result string McpError :=
  let prefix := trim prefix in
  if str_is_empty prefix || String.eqb prefix "/" then Ok url
  else if negb (starts_with prefix "/") || str_contains prefix "?" || str_contains prefix "#"
  then Err (unexpected "NinjaOne server prefix must be an absolute path beginning with `/` and must not include a query string or fragment" None)
  else Ok (trim_end_matches slash url ++ trim_end_matches slash prefix)%string.

Section Settings.
Context `{HttpLib} `{UrlLib}.
(** A text as [{:?}] prints it, in labels. *)
Variable debug_text : string -> string.

Definition parse_entry (c : Config) (alias : string) : result ServerEntry McpError :=
  match ninja_setting c "NINJAONE_SERVERS" with
  | None => Err (auth_missing ("NinjaOne server alias `" ++ alias ++ "` was requested, but NINJAONE_SERVERS is not configured")%string)
  | Some raw =>
      match json_from_str raw with
      | None => Err (unexpected "NINJAONE_SERVERS must be a JSON object whose values are URLs or server objects" None)
      | Some parsed =>
          match as_object parsed ≫= (fun servers => map_get servers alias) with
          | None => Err (auth_missing ("Unknown NinjaOne server alias `" ++ alias ++ "`. Add it to NINJAONE_SERVERS.")%string)
          | Some (VString url) =>
              match nonblank url with
              | Some url => Ok {| sv_url := url; sv_prefix := ""; sv_email := None; sv_password := None; sv_totp_command := None; sv_totp_secret := None |}
              | None => Err (invalid_server_entry alias)
              end
          | Some (VObject server) =>
              match (map_get server "url" ≫= as_str) ≫= nonblank with
              | None => Err (invalid_server_entry alias)
              | Some url =>
                  let? prefix := entry_field server "prefix" alias in
                  let? email := entry_field server "email" alias in
                  let? password := entry_field server "password" alias in
                  let? totp_command := entry_field server "totpCommand" alias in
                  let? totp_secret := entry_field server "totpSecret" alias in
                  Ok {| sv_url := url; sv_prefix := default ""%string prefix; sv_email := email; sv_password := password;
                        sv_totp_command := totp_command; sv_totp_secret := totp_secret |}
              end
          | Some _ => Err (invalid_server_entry alias)
          end
      end
  end.

Definition validate_base_url (url : string) : result unit McpError :=
  match url_parse url with
  | None => Err (unexpected "Invalid NinjaOne base URL" None)
  | Some u =>
      if negb (String.eqb (url_scheme u) "http" || String.eqb (url_scheme u) "https") || negb (url_has_host u)
      then Err (unexpected "NinjaOne base URL must be an absolute http:// or https:// URL" None)
      else if bool_decide (is_Some (url_query u)) || url_has_fragment u
      then Err (unexpected "NinjaOne base URL must not include a query string or fragment" None)
      else Ok tt
  end.

Definition ninja_base_url (v : NinjaOneVendor) (c : Config) : result string McpError :=
  let? url := match nv_base_url_override v with
              | Some base => Ok base
              | None =>
                  match nv_server_alias v with
                  | Some alias => let? entry := parse_entry c alias in append_prefix (sv_url entry) (sv_prefix entry)
                  | None =>
                      match ninja_setting c "NINJAONE_URL" with
                      | Some url => Ok url
                      | None => Err (auth_missing "NINJAONE_URL is required when no NinjaOne server alias is supplied. Set it under the `ninjaone` section of ~/.mcp/configs.json or in the environment.")
                      end
                  end
              end in
  let? _u := validate_base_url url in
  Ok (trim_end_matches slash url).

Definition selected_entry (v : NinjaOneVendor) (c : Config) : result ServerEntry McpError :=
  match nv_server_alias v with Some alias => parse_entry c alias | None => Ok default_entry end.

Definition login_config (v : NinjaOneVendor) (c : Config) : result LoginConfig McpError :=
  let? entry := selected_entry v c in
  let scoped := bool_decide (is_Some (sv_email entry)) in
  let field (name : string) := match nv_server_alias v with Some alias => ("NINJAONE_SERVERS[" ++ debug_text alias ++ "]." ++ name)%string | None => name end in
  let secret (own : option string) (name key : string) :=
    match own with
    | Some s => (Some s, field name)
    | None => if scoped then (None, field name) else (ninja_setting c key, key)
    end in
  let '(password, password_label) := secret (sv_password entry) "password"%string "NINJAONE_PASSWORD"%string in
  let '(totp_secret, totp_secret_label) := secret (sv_totp_secret entry) "totpSecret"%string "NINJAONE_TOTP_SECRET"%string in
  Ok {| lc_email := match sv_email entry with Some e => Some e | None => ninja_setting c "NINJAONE_EMAIL" end;
        lc_password := password; lc_password_label := password_label;
        lc_totp_command := match sv_totp_command entry with
                           | Some command => Some command
                           | None => if scoped then None else ninja_setting c "NINJAONE_TOTP_COMMAND"
                           end;
        lc_totp_secret := totp_secret; lc_totp_secret_label := totp_secret_label |}.

Definition principal (v : NinjaOneVendor) (c : Config) : option string := ok (login_config v c) ≫= lc_email.

Definition missing_login_email : McpError :=
  auth_missing "NINJAONE_EMAIL is required to log in to NinjaOne. Set it under the `ninjaone` section of ~/.mcp/configs.json or in the environment, or give the server its own account with an `email` field in its NINJAONE_SERVERS entry.".

Definition missing_login_password (label email : string) : McpError :=
  auth_missing ("No NinjaOne password is configured for " ++ email ++ ". Set " ++ label
    ++ " under the `ninjaone` section of ~/.mcp/configs.json or in the environment, or store the password in the OS keychain (`mcp-devtools creds set --kind password --vendor ninjaone --principal "
    ++ email ++ "`) and set " ++ sets_keychain label ++ ".")%string.

Definition missing_auth_error (v : NinjaOneVendor) (c : Config) : McpError :=
  if match login_config v c with Ok l => bool_decide (is_Some (lc_email l)) && bool_decide (is_Some (lc_password l)) | Err _ => false end
  then auth_missing "No NinjaOne session is active. Call the ninjaone_login tool (with the current multi-factor code, if the account uses MFA) to mint a session key for this process, or set NINJAONE_ACCESS_TOKEN / NINJAONE_SESSION_KEY."
  else auth_missing "NinjaOne authentication is required for ninjaone_* tools. Set NINJAONE_EMAIL + NINJAONE_PASSWORD (or per-server `email` + `password` in the NINJAONE_SERVERS entry) and call ninjaone_login, or set one of NINJAONE_ACCESS_TOKEN, NINJAONE_SESSION_KEY, or NINJAONE_SESSION_COOKIE under the `ninjaone` section of ~/.mcp/configs.json or in the environment.".
End Settings.

(** ** The code command *)

Definition COMMAND_TIMEOUT_SECS : N := 15.
Definition MAX_CODE_LEN : nat := 32.

(** How a command ends: no status code means a signal. *)
Inductive CommandEnd :=
| SpawnFailed (text : string)
| WaitFailed (text : string)
| TimedOut
| Exited (success : bool) (status : option string) (stdout stderr : list byte).

Definition truncate_text (text : string) : string :=
  if (length (chars (as_bytes text)) <=? 300)%nat then text else (take_chars 300 text ++ "…")%string.

Definition dec (n : N) : string := of_bytes (render_u64 n).

Definition run_command (e : CommandEnd) : result string McpError :=
  match e with
  | SpawnFailed text => Err (unexpected ("Failed to run NINJAONE_TOTP_COMMAND: " ++ text)%string None)
  | WaitFailed text => Err (unexpected ("NINJAONE_TOTP_COMMAND failed while running: " ++ text)%string None)
  | TimedOut => Err (unexpected ("NINJAONE_TOTP_COMMAND did not produce a code within " ++ dec COMMAND_TIMEOUT_SECS
      ++ "s. If it prompts for a vault unlock or a hardware touch, unlock first (or run it once by hand) and try again.")%string None)
  | Exited false status _ stderr =>
      let detail := trim (from_utf8_lossy stderr) in
      let detail := if str_is_empty detail then "no error output"%string else truncate_text detail in
      Err (auth_invalid ("NINJAONE_TOTP_COMMAND exited with " ++ match status with Some code => "status " ++ code | None => "a signal" end ++ ": " ++ detail)%string)
  | Exited true _ stdout _ =>
      let code := default ""%string (List.find (fun l => negb (str_is_empty l)) (map trim (lines (from_utf8_lossy stdout)))) in
      if str_is_empty code
      then Err (auth_invalid "NINJAONE_TOTP_COMMAND printed nothing. It must write the current one-time code to stdout (e.g. `bw get totp <item>`, `op item get <item> --otp`).")
      else if (MAX_CODE_LEN <? str_len code)%nat || existsb is_whitespace (chars (as_bytes code))
      then Err (auth_invalid ("NINJAONE_TOTP_COMMAND printed " ++ dec (N.of_nat (str_len code)) ++ " characters where a one-time code was expected. It must print only the code.")%string)
      else Ok code
  end.

(** ** The exchange *)

Definition AUTH_STATE_PATH : string := "/ws/account/authentication-state".
Definition NINJA_LOGIN_PATH : string := "/ws/account/login".
Definition MFA_LOGIN_PATH : string := "/ws/account/mfa-login".

Record LoginRequest := { lr_base_url : string; lr_email : string; lr_password : string; lr_mfa_code : option string; lr_recaptcha_token : option string }.

Record LoginOutcome := {
  lo_email : string; lo_session_key_preview : string; lo_mfa_used : bool; lo_mfa_type : option string;
  lo_division_uid : option string; lo_app_user_uid : option string; lo_user_type : option string;
}.

Record AuthStateResponse := { as_auth_state : option string; as_recaptcha_required : option bool }.

Record LoginResponse := {
  lp_result_code : option string; lp_session_key : option string; lp_login_token : option string; lp_mfa_type : option string;
  lp_division_uid : option string; lp_app_user_uid : option string; lp_user_type : option string; lp_error_message : option string;
}.

(** The three bodies; [staySignedIn] is always false. *)
Inductive LoginBody :=
| BodyAuthState (email : string)
| BodyLogin (email password : string)
| BodyMfa (login_token code : string) (recaptcha_token : option string).

Inductive LoginReply := LoginFails (text : string) | LoginReplies (status : N) (text : string).

Definition login_url (base_url path : string) : string :=
  let base_url := trim_end_matches slash base_url in
  if ends_with base_url "/ws" && starts_with path "/ws/"
  then (base_url ++ of_bytes (drop 3 (as_bytes path)))%string else (base_url ++ path)%string.

(** Why something is sent: a login of an account at a base URL, or a request
    with a resolved credential. *)
Inductive LoginEvent :=
| Posted (url : string) (body : LoginBody) (reply : LoginReply)
| Minted (base_url email key : string)
| Dispatched (base_url : string) (auth : ResolvedAuth).

Definition SessionId : Type := string * string.

Record LoginWorld := { lw_step : nat; lw_sessions : gmap SessionId string; lw_log : list LoginEvent }.

Record LoginEnv := {
  ln_reply : nat -> LoginReply;
  (** How a blocking task of the keychain ends, what a command does, the clock. *)
  ln_joined : nat -> result unit string;
  ln_command : nat -> string -> CommandEnd;
  ln_clock : nat -> option N;
}.

(** A call: [None] is a panic. *)
Definition LM (A : Type) : Type := LoginWorld -> LoginWorld * option (result A McpError).
Definition lret {A} (r : option (result A McpError)) : LM A := fun w => (w, r).
Definition lbind {A B} (m : LM A) (k : A -> LM B) : LM B := fun w =>
  let '(w', r) := m w in match r with Some (Ok a) => k a w' | Some (Err e) => (w', Some (Err e)) | None => (w', None) end.
Definition lcatch {A B} (m : LM A) (k : result A McpError -> LM B) : LM B := fun w =>
  let '(w', r) := m w in match r with Some r => k r w' | None => (w', None) end.
(** One thing the outside decides. *)
Definition outside {A} (f : nat -> A) : LM A := fun w =>
  ({| lw_step := S (lw_step w); lw_sessions := lw_sessions w; lw_log := lw_log w |}, Some (Ok (f (lw_step w)))).
Definition log_event (e : LoginEvent) : LM unit := fun w =>
  ({| lw_step := lw_step w; lw_sessions := lw_sessions w; lw_log := lw_log w ++ [e] |}, Some (Ok tt)).

Definition session_get (base_url email : string) : LM (option string) := fun w => (w, Some (Ok (lw_sessions w !! (base_url, email)))).
Definition session_invalidate (base_url email : string) : LM unit := fun w =>
  ({| lw_step := lw_step w; lw_sessions := delete (base_url, email) (lw_sessions w); lw_log := lw_log w |}, Some (Ok tt)).
Definition session_insert (base_url email key : string) : LM unit := fun w =>
  ({| lw_step := lw_step w; lw_sessions := <[(base_url, email) := key]> (lw_sessions w); lw_log := lw_log w ++ [Minted base_url email key] |}, Some (Ok tt)).

Section Login.
Context `{HttpLib} `{UrlLib} `{KeychainBackend B}.
Variable debug_text : string -> string.
Variable keychain : B.
Variable auth_state_json : string -> option AuthStateResponse.
Variable login_json : string -> option LoginResponse.
Variable canonical_reason : N -> option string.
Variable parse_otp_url : string -> result (option string * list (string * string)) string.
Variable hmac : Algorithm -> list byte -> list byte -> option (list byte).
Variable env : LoginEnv.

Definition envelope_message (body : string) : option string :=
  (json_from_str body ≫= fun v =>
    match value_get v "errorMessage" with
    | Some x => as_str x
    | None => match value_get v "message" with Some x => as_str x | None => value_get v "error" ≫= as_str end
    end) ≫= (fun s => if str_is_empty s then None else Some s).

Definition step_error (step : string) (status : N) (body : string) : McpError :=
  let detail := default (default "NinjaOne login error"%string (canonical_reason status)) (envelope_message body) in
  if (status =? 401)%N || (status =? 403)%N
  then {| err_message := ("NinjaOne " ++ step ++ " rejected the credentials: " ++ detail)%string; err_kind := AuthInvalid;
          err_status := Some status; err_original := Some (OString body) |}
  else api_error ("NinjaOne " ++ step ++ " failed: " ++ detail)%string (Some status) (Some (OString body)).

Definition send_step (url : string) (body : LoginBody) (step : string) : LM string :=
  lbind (outside (ln_reply env)) (fun reply =>
  lbind (log_event (Posted url body reply)) (fun _ =>
  lret (Some (match reply with
              | LoginFails text => Err (api_error ("NinjaOne " ++ step ++ " request failed: " ++ text)%string None None)
              | LoginReplies status text => if is_success status then Ok text else Err (step_error step status text)
              end)))).

Definition post_step (url : string) (body : LoginBody) (step : string) : LM LoginResponse :=
  lbind (send_step url body step) (fun text =>
  lret (Some (match login_json text with
              | Some r => Ok r
              | None => Err (unexpected ("NinjaOne " ++ step ++ " response was not valid JSON")%string (Some (OString text)))
              end))).

Definition fetch_auth_state (r : LoginRequest) : LM AuthStateResponse :=
  lbind (send_step (login_url (lr_base_url r) AUTH_STATE_PATH) (BodyAuthState (lr_email r)) "authentication-state") (fun text =>
  lret (Some (match auth_state_json text with
              | Some s => Ok s
              | None => Err (unexpected "NinjaOne authentication-state response was not valid JSON" (Some (OString text)))
              end))).

Definition login_rejected (p : LoginResponse) (email : string) : McpError :=
  auth_invalid ("NinjaOne login for " ++ email ++ " returned `" ++ default "UNKNOWN" (lp_result_code p) ++ "`"
    ++ match lp_error_message p with Some message => ": " ++ message | None => "" end
    ++ ". Check the email and password configured for this server (NINJAONE_EMAIL / NINJAONE_PASSWORD, or the `email` / `password` fields of its NINJAONE_SERVERS entry) and, for an MFA account, that the code is current.")%string.

Definition complete_mfa (r : LoginRequest) (login : LoginResponse) : LM LoginResponse :=
  match lr_mfa_code r ≫= nonblank with
  | None => lret (Some (Err (auth_invalid ("NinjaOne requires a " ++ default "multi-factor" (lp_mfa_type login) ++ " multi-factor code for " ++ lr_email r
              ++ ". Call ninjaone_login again with `mfaCode` set to the current code.")%string)))
  | Some code =>
      match lp_login_token login with
      | None => lret (Some (Err (unexpected "NinjaOne asked for a multi-factor code but returned no loginToken" None)))
      | Some login_token =>
          lbind (post_step (login_url (lr_base_url r) MFA_LOGIN_PATH) (BodyMfa login_token code (lr_recaptcha_token r)) "mfa-login") (fun response =>
          lret (Some (if bool_decide (lp_result_code response = Some "SUCCESS"%string) then Ok response else Err (login_rejected response (lr_email r)))))
      end
  end.

Definition recaptcha_given (r : LoginRequest) (state : AuthStateResponse) : result unit McpError :=
  if default false (as_recaptcha_required state) && negb (bool_decide (is_Some (lr_recaptcha_token r)))
  then Err (auth_invalid ("NinjaOne requires a reCAPTCHA token for " ++ lr_email r
         ++ ". Supply one via the login tool's `recaptchaToken` argument (copy it from a browser login), or use NINJAONE_SESSION_KEY.")%string)
  else Ok tt.

(** The pre-flight probe: an absent endpoint is no obstacle. *)
Definition check_auth_state (r : LoginRequest) : LM unit :=
  lcatch (fetch_auth_state r) (fun state =>
    lret (Some (match state with
                | Ok state =>
                    match as_auth_state state with
                    | Some auth_state =>
                        if negb (eq_ignore_ascii_case auth_state "NATIVE")
                        then Err (auth_invalid ("NinjaOne reports authState `" ++ auth_state ++ "` for " ++ lr_email r
                               ++ ": automated login supports native email/password accounts only. Use NINJAONE_SESSION_KEY with a key copied from a browser session instead.")%string)
                        else recaptcha_given r state
                    | None => recaptcha_given r state
                    end
                | Err e => if bool_decide (err_status e = Some 404%N) then Ok tt else Err e
                end))).

Definition preview (session_key : string) : string := take_chars 8 session_key.

Definition session_login (r : LoginRequest) : LM LoginOutcome :=
  lbind (check_auth_state r) (fun _ =>
  lbind (post_step (login_url (lr_base_url r) NINJA_LOGIN_PATH) (BodyLogin (lr_email r) (lr_password r)) "login") (fun login =>
  lbind (match lp_result_code login with
         | Some code =>
             if String.eqb code "SUCCESS" then lret (Some (Ok (login, false)))
             else if String.eqb code "MFA_REQUIRED" then lbind (complete_mfa r login) (fun response => lret (Some (Ok (response, true))))
             else lret (Some (Err (login_rejected login (lr_email r))))
         | None => lret (Some (Err (login_rejected login (lr_email r))))
         end) (fun '(response, mfa_used) =>
  match lp_session_key response with
  | None => lret (Some (Err (unexpected "NinjaOne login succeeded but returned no sessionKey" (Some (OString (default ""%string (lp_result_code response)))))))
  | Some session_key =>
      lbind (session_insert (lr_base_url r) (lr_email r) session_key) (fun _ =>
      lret (Some (Ok {| lo_email := lr_email r; lo_session_key_preview := preview session_key; lo_mfa_used := mfa_used; lo_mfa_type := lp_mfa_type response;
                        lo_division_uid := lp_division_uid response; lo_app_user_uid := lp_app_user_uid response; lo_user_type := lp_user_type response |})))
  end))).

(** *** The vendor *)

(** [resolve_configured_secret_async]: what needs no keychain is decided
    before a task is started. *)
Definition secret_async (joined : result unit string) (k : SecretKind) (email : string) (raw : option string) (label : string)
    : result (option string) McpError :=
  let blocking := match joined with Ok _ => resolve_configured_secret keychain k "ninjaone" email raw label | Err e => Err (task_panicked e) end in
  match trim <$> raw with
  | None => blocking
  | Some value =>
      if is_keychain_sentinel value then blocking
      else if str_is_empty value then Ok None
      else if is_reference value then Err (unresolved_reference "ninjaone" label value)
      else Ok (Some value)
  end.

Definition relabel (e : McpError) (label : string) : McpError :=
  if negb (String.eqb label "NINJAONE_TOTP_SECRET")
  then {| err_message := str_replace (err_message e) "NINJAONE_TOTP_SECRET" label; err_kind := err_kind e; err_status := err_status e; err_original := err_original e |}
  else e.

Definition mfa_code (login : LoginConfig) (email : string) (explicit : option string) : LM (option string) :=
  match explicit ≫= nonblank with
  | Some code => lret (Some (Ok (Some code)))
  | None =>
      match lc_totp_command login with
      | Some command => lbind (outside (fun n => ln_command env n (trim command))) (fun e => lret (Some (result_map Some (run_command e))))
      | None =>
          lbind (outside (ln_joined env)) (fun joined =>
          lbind (lret (Some (secret_async joined TotpSecret email (lc_totp_secret login) (lc_totp_secret_label login)))) (fun secret =>
          match secret with
          | None => lret (Some (Ok None))
          | Some secret =>
              lbind (lret ((map_err (fun e => relabel e (lc_totp_secret_label login))) <$> totp_parse parse_otp_url secret)) (fun spec =>
              lbind (outside (ln_clock env)) (fun now =>
              lret (result_map Some <$> current_code hmac spec now)))
          end))
      end
  end.

Definition ninja_login (v : NinjaOneVendor) (c : Config) (explicit recaptcha_token : option string) : LM LoginOutcome :=
  lbind (lret (Some (ninja_base_url v c))) (fun base_url =>
  lbind (lret (Some (login_config debug_text v c))) (fun login =>
  match lc_email login with
  | None => lret (Some (Err missing_login_email))
  | Some email =>
      lbind (outside (ln_joined env)) (fun joined =>
      lbind (lret (Some (secret_async joined Password email (lc_password login) (lc_password_label login)))) (fun password =>
      match password with
      | None => lret (Some (Err (missing_login_password (lc_password_label login) email)))
      | Some password =>
          lbind (mfa_code login email explicit) (fun code =>
          session_login {| lr_base_url := base_url; lr_email := email; lr_password := password; lr_mfa_code := code; lr_recaptcha_token := recaptcha_token |})
      end))
  end)).

Definition cached_session_key (v : NinjaOneVendor) (c : Config) : LM (option string) :=
  match principal debug_text v c with
  | None => lret (Some (Ok None))
  | Some email => match ninja_base_url v c with Ok base_url => session_get base_url email | Err _ => lret (Some (Ok None)) end
  end.

Fixpoint static_credentials (c : Config) (joined : result unit string) (keys : list (AuthSource * string)) : result (option ResolvedAuth) McpError :=
  match keys with
  | [] => Ok None
  | (source, key) :: rest =>
      let? value := vendor_secret joined c keychain "ninjaone" key in
      match value with Some value => Ok (Some (carrier source value)) | None => static_credentials c joined rest end
  end.

Definition STATIC_KEYS : list (AuthSource * string) :=
  [(AccessToken, "NINJAONE_ACCESS_TOKEN"); (StaticSessionKey, "NINJAONE_SESSION_KEY"); (SessionCookie, "NINJAONE_SESSION_COOKIE")]%string.

Definition resolve_auth (v : NinjaOneVendor) (c : Config) : LM ResolvedAuth :=
  lbind (outside (ln_joined env)) (fun joined =>
  lbind (lret (Some (vendor_secret joined c keychain "ninjaone" "NINJAONE_ACCESS_TOKEN"))) (fun token =>
  match token with
  | Some token => lret (Some (Ok (carrier AccessToken token)))
  | None =>
      lbind (cached_session_key v c) (fun key =>
      match key with
      | Some key => lret (Some (Ok {| ra_credentials := session_cookie_credentials key; ra_source := LoginSession |}))
      | None =>
          lbind (outside (ln_joined env)) (fun joined =>
          lbind (lret (Some (static_credentials c joined STATIC_KEYS))) (fun auth =>
          lret (Some (match auth with Some a => Ok a | None => Err (missing_auth_error debug_text v c) end))))
      end)
  end)).

Definition invalidate_session (v : NinjaOneVendor) (c : Config) : LM unit :=
  match ninja_base_url v c, principal debug_text v c with
  | Ok base_url, Some email => session_invalidate base_url email
  | _, _ => lret (Some (Ok tt))
  end.

(** *** The controller *)

Definition is_unauthorized (e : McpError) : bool := bool_decide (err_status e = Some 401%N).

Definition session_expired (e : McpError) : McpError :=
  {| err_message := ("The NinjaOne session key minted by ninjaone_login is no longer valid (" ++ err_message e ++ "). Call ninjaone_login again with the current multi-factor code.")%string;
     err_kind := AuthInvalid; err_status := err_status e; err_original := err_original e |}.

(** Sending a request with its credential; what comes back is decided outside. *)
Definition dispatch {A} (v : NinjaOneVendor) (c : Config) (auth : ResolvedAuth) (outcome : result A McpError) : LM A :=
  lbind (lret (Some (ninja_base_url v c))) (fun base_url =>
  lbind (log_event (Dispatched base_url auth)) (fun _ => lret (Some outcome))).

(** After the credential is resolved. *)
Definition request_with {A} (v : NinjaOneVendor) (c : Config) (auth : ResolvedAuth) (outcome : result A McpError) : LM A :=
  lcatch (dispatch v c auth outcome) (fun r =>
    match r with
    | Err e =>
        if bool_decide (ra_source auth = LoginSession) && is_unauthorized e
        then lbind (invalidate_session v c) (fun _ => lret (Some (Err (session_expired e))))
        else lret (Some (Err e))
    | Ok a => lret (Some (Ok a))
    end).

(** Calls in any order: a login, a request that resolves its credential, and
    that request's exchange later. *)
Inductive NinjaStep :=
| StepLogin (v : NinjaOneVendor) (c : Config) (mfa_code recaptcha_token : option string)
| StepResolve (call : nat) (v : NinjaOneVendor) (c : Config)
| StepRequest (call : nat) (outcome : result unit McpError).

Record NinjaRun := { nr_world : LoginWorld; nr_pending : gmap nat (NinjaOneVendor * Config * ResolvedAuth) }.

Definition ninja_step (s : NinjaStep) (r : NinjaRun) : NinjaRun :=
  match s with
  | StepLogin v c code token => {| nr_world := (ninja_login v c code token (nr_world r)).1; nr_pending := nr_pending r |}
  | StepResolve call v c =>
      let '(w, a) := resolve_auth v c (nr_world r) in
      {| nr_world := w; nr_pending := match a with Some (Ok auth) => <[call := (v, c, auth)]> (nr_pending r) | _ => nr_pending r end |}
  | StepRequest call outcome =>
      match nr_pending r !! call with
      | Some (v, c, auth) => {| nr_world := (request_with v c auth outcome (nr_world r)).1; nr_pending := delete call (nr_pending r) |}
      | None => r
      end
  end.

Definition ninja_start : NinjaRun := {| nr_world := {| lw_step := 0; lw_sessions := ∅; lw_log := [] |}; nr_pending := ∅ |}.

Definition ninja_run (steps : list NinjaStep) : NinjaRun := foldl (fun r s => ninja_step s r) ninja_start steps.
End Login.

(** ** What the exchange keeps *)

Section Kept.
Context `{HttpLib} `{UrlLib} `{KeychainBackend B}.
Variable debug_text : string -> string.
Variable keychain : B.
Variable auth_state_json : string -> option AuthStateResponse.
Variable login_json : string -> option LoginResponse.
Variable canonical_reason : N -> option string.
Variable parse_otp_url : string -> result (option string * list (string * string)) string.
Variable hmac : Algorithm -> list byte -> list byte -> option (list byte).
Variable env : LoginEnv.

(** A successful reply that reads as a login response. *)
Definition answered (log : list LoginEvent) (url : string) (body : LoginBody) (resp : LoginResponse) : Prop :=
  exists status text, Posted url body (LoginReplies status text) ∈ log /\ is_success status = true /\ login_json text = Some resp.

(** The account a server logs in as: the entry's own or the top-level one. *)
Definition account (v : NinjaOneVendor) (c : Config) (base email : string) : Prop :=
  ninja_base_url v c = Ok base
  /\ exists entry, selected_entry v c = Ok entry
       /\ match sv_email entry with Some own => email = own | None => ninja_setting c "NINJAONE_EMAIL" = Some email end.

(** The password configured for it: the entry's, or the top-level one unless
    the entry has an account of its own. *)
Definition configured_password (c : Config) (entry : ServerEntry) : option string :=
  match sv_password entry, sv_email entry with
  | Some own, _ => Some own
  | None, Some _ => None
  | None, None => ninja_setting c "NINJAONE_PASSWORD"
  end.

(** The password of an account: the configured text, or the keychain's entry
    for that account where the text says so or there is none. *)
Definition password_of (v : NinjaOneVendor) (c : Config) (email password : string) : Prop :=
  exists entry, selected_entry v c = Ok entry
    /\ match trim <$> configured_password c entry with
       | Some text => if is_keychain_sentinel text then kc_get Password "ninjaone" email keychain = Ok (Some password) else password = text
       | None => kc_get Password "ninjaone" email keychain = Ok (Some password)
       end.

(** What the login of [v] and [c] posts, [pre] being its exchange so far. *)
Definition posted_ok (v : NinjaOneVendor) (c : Config) (pre : list LoginEvent) (url : string) (body : LoginBody) : Prop :=
  exists base email, account v c base email
    /\ match body with
       | BodyAuthState e => e = email /\ url = login_url base AUTH_STATE_PATH
       | BodyLogin e p => e = email /\ url = login_url base NINJA_LOGIN_PATH /\ password_of v c email p
       | BodyMfa token _ _ => url = login_url base MFA_LOGIN_PATH
           /\ exists p login, answered pre (login_url base NINJA_LOGIN_PATH) (BodyLogin email p) login /\ lp_login_token login = Some token
       end.

(** A key the console of [base] handed out for [email]. *)
Definition minted_ok (pre : list LoginEvent) (base email key : string) : Prop :=
  exists p login, answered pre (login_url base NINJA_LOGIN_PATH) (BodyLogin email p) login
    /\ (lp_session_key login = Some key
        \/ exists token code recaptcha resp, lp_login_token login = Some token
             /\ answered pre (login_url base MFA_LOGIN_PATH) (BodyMfa token code recaptcha) resp /\ lp_session_key resp = Some key).

Definition session_use_ok (log : list LoginEvent) (v : NinjaOneVendor) (c : Config) (auth : ResolvedAuth) : Prop :=
  ra_source auth = LoginSession ->
  exists base email key, account v c base email /\ ra_credentials auth = session_cookie_credentials key /\ Minted base email key ∈ log.

(** What one login adds to the log. *)
Definition login_event_ok (v : NinjaOneVendor) (c : Config) (pre : list LoginEvent) (e : LoginEvent) : Prop :=
  match e with
  | Posted url body _ => posted_ok v c pre url body
  | Minted base email key => account v c base email /\ minted_ok pre base email key
  | Dispatched _ _ => False
  end.

Definition kept (w : LoginWorld) : Prop :=
  forall base email key, lw_sessions w !! (base, email) = Some key -> Minted base email key ∈ lw_log w.

Section Call.
(** A login of [v] and [c], begun with the log [start]. *)
Variable v : NinjaOneVendor.
Variable c : Config.
Variable start : list LoginEvent.

Definition all_ok (log : list LoginEvent) : Prop := forall pre e post, log = pre ++ e :: post -> login_event_ok v c pre e.

Definition fresh (w : LoginWorld) : list LoginEvent := drop (length start) (lw_log w).

Definition login_world_ok (w : LoginWorld) : Prop := start `prefix_of` lw_log w /\ all_ok (fresh w) /\ kept w.

Lemma fresh_snoc w w' e : login_world_ok w -> lw_log w' = lw_log w ++ [e] -> start `prefix_of` lw_log w' /\ fresh w' = fresh w ++ [e].
Proof.
  intros ([l Hl] & _) Hw. unfold fresh. rewrite Hw, Hl, <- app_assoc, !drop_app_length. split; [by eexists|done].
Qed.

Lemma all_ok_snoc log e : all_ok log -> login_event_ok v c log e -> all_ok (log ++ [e]).
Proof.
  intros Hl He pre x post Heq. destruct post as [|y post] using rev_ind.
  - apply app_inj_tail in Heq as [<- <-]. exact He.
  - rewrite app_comm_cons, app_assoc in Heq. apply app_inj_tail in Heq as [-> _]. by eapply Hl.
Qed.

(** *** Computations *)

Definition lwp {A} (m : LM A) (Q : LoginWorld -> option (result A McpError) -> Prop) (w : LoginWorld) : Prop := Q (m w).1 (m w).2.

Lemma lwp_bind {A B'} (m : LM A) (k : A -> LM B') Q w :
  lwp m (fun w' r => match r with Some (Ok a) => lwp (k a) Q w' | Some (Err e) => Q w' (Some (Err e)) | None => Q w' None end) w ->
  lwp (lbind m k) Q w.
Proof. unfold lwp, lbind. destruct (m w) as [w' [[a|e]|]]; done. Qed.

Lemma lwp_catch {A B'} (m : LM A) (k : result A McpError -> LM B') Q w :
  lwp m (fun w' r => match r with Some r => lwp (k r) Q w' | None => Q w' None end) w -> lwp (lcatch m k) Q w.
Proof. unfold lwp, lcatch. destruct (m w) as [w' [r|]]; done. Qed.

Lemma lwp_mono {A} (m : LM A) (Q Q' : LoginWorld -> option (result A McpError) -> Prop) w :
  lwp m Q w -> (forall w' r, Q w' r -> Q' w' r) -> lwp m Q' w.
Proof. unfold lwp. auto. Qed.

(** Nothing is logged or stored. *)
Definition quiet (w w' : LoginWorld) : Prop := lw_sessions w' = lw_sessions w /\ lw_log w' = lw_log w.
Definition silent {A} (m : LM A) : Prop := forall w, quiet w (m w).1.

Lemma silent_ret {A} (r : option (result A McpError)) : silent (lret r).
Proof. done. Qed.

Lemma silent_outside {A} (f : nat -> A) : silent (outside f).
Proof. done. Qed.

Lemma silent_bind {A B'} (m : LM A) (k : A -> LM B') : silent m -> (forall a, silent (k a)) -> silent (lbind m k).
Proof.
  intros Hm Hk w. unfold lbind. specialize (Hm w). destruct (m w) as [w' [[a|e]|]]; cbn [fst] in Hm; [|done..].
  destruct Hm as [? ?], (Hk a w') as [? ?]. split; congruence.
Qed.

Lemma silent_mfa login email explicit : silent (mfa_code keychain parse_otp_url hmac env login email explicit).
Proof.
  unfold mfa_code. destruct (explicit ≫= nonblank); [apply silent_ret|]. destruct (lc_totp_command login).
  - apply silent_bind; [apply silent_outside|]. intros e. apply silent_ret.
  - apply silent_bind; [apply silent_outside|]. intros joined. apply silent_bind; [apply silent_ret|]. intros [secret|]; [|apply silent_ret].
    apply silent_bind; [apply silent_ret|]. intros spec. apply silent_bind; [apply silent_outside|]. intros now. apply silent_ret.
Qed.

Lemma quiet_ok w w' : quiet w w' -> login_world_ok w -> login_world_ok w'.
Proof.
  intros [Hs Hl] (Hp & Hok & Hb). unfold login_world_ok, fresh. rewrite Hl. split_and!; [done..|]. intros base email key. rewrite Hs, Hl. apply Hb.
Qed.

Lemma quiet_account {A} (m : LM A) Q w : silent m -> (forall w' r, quiet w w' -> Q w' r) -> lwp m Q w.
Proof. intros Hm HQ. apply HQ, Hm. Qed.

(** One exchange with the console. *)
Lemma send_step_spec url body step w :
  lwp (send_step canonical_reason env url body step) (fun w' r =>
    exists reply, lw_log w' = lw_log w ++ [Posted url body reply] /\ lw_sessions w' = lw_sessions w
      /\ forall text, r = Some (Ok text) -> exists status, reply = LoginReplies status text /\ is_success status = true) w.
Proof.
  unfold lwp, send_step, lbind, outside, log_event, lret. cbn [fst snd lw_log lw_sessions]. exists (ln_reply env (lw_step w)).
  split; [done|]. split; [done|]. destruct (ln_reply env (lw_step w)) as [text|status text]; [done|].
  destruct (is_success status) eqn:E; [|done]. intros text' [= <-]. by exists status.
Qed.

Lemma posted_world w url body reply :
  login_world_ok w -> posted_ok v c (fresh w) url body ->
  forall w', lw_log w' = lw_log w ++ [Posted url body reply] -> lw_sessions w' = lw_sessions w -> login_world_ok w'.
Proof.
  intros Hw Hp w' Hl Hse. destruct (fresh_snoc w w' _ Hw Hl) as [Hpre Hf]. destruct Hw as (_ & Hok & Hs). split_and!; [done|..].
  - rewrite Hf. by apply all_ok_snoc.
  - intros base email key. rewrite Hse, Hl. intros Hk. apply elem_of_app. left. by apply Hs.
Qed.

Lemma post_step_spec url body step w : login_world_ok w -> posted_ok v c (fresh w) url body ->
  lwp (post_step login_json canonical_reason env url body step) (fun w' r =>
    login_world_ok w' /\ (exists reply, fresh w' = fresh w ++ [Posted url body reply])
    /\ forall resp, r = Some (Ok resp) -> answered (fresh w') url body resp) w.
Proof.
  intros Hw Hp. unfold post_step. apply lwp_bind. eapply lwp_mono; [apply send_step_spec|].
  intros w' r (reply & Hl & Hs & Hr). pose proof (posted_world w url body reply Hw Hp w' Hl Hs) as Hw'.
  destruct (fresh_snoc w w' _ Hw Hl) as [_ Hf].
  destruct r as [[text|e]|]; [|by split_and!; [|eexists|]..].
  unfold lwp, lret. cbn [fst snd]. split; [done|]. split; [by eexists|]. intros resp. destruct (Hr text eq_refl) as (status & -> & Hsuc).
  destruct (login_json text) as [p|] eqn:Ep; [|done]. intros [= ->]. exists status, text. rewrite Hf. split; [set_solver|done].
Qed.

Lemma login_answered_mono log log' url body resp : answered log url body resp -> answered (log ++ log') url body resp.
Proof. intros (status & text & Hin & ?). exists status, text. split; [set_solver|done]. Qed.

(** *** A login *)

Lemma check_auth_state_spec r w : account v c (lr_base_url r) (lr_email r) -> login_world_ok w ->
  lwp (check_auth_state auth_state_json canonical_reason env r) (fun w' _ => login_world_ok w') w.
Proof.
  intros Ha Hw. unfold check_auth_state, fetch_auth_state. apply lwp_catch, lwp_bind. eapply lwp_mono; [apply send_step_spec|].
  intros w' res (reply & Hl & Hs & _).
  assert (Hw' : login_world_ok w') by (eapply posted_world; [exact Hw| |exact Hl|exact Hs]; by exists (lr_base_url r), (lr_email r)).
  destruct res as [[text|e]|]; exact Hw'.
Qed.

Lemma complete_mfa_spec r login w : account v c (lr_base_url r) (lr_email r) -> login_world_ok w ->
  answered (fresh w) (login_url (lr_base_url r) NINJA_LOGIN_PATH) (BodyLogin (lr_email r) (lr_password r)) login ->
  lwp (complete_mfa login_json canonical_reason env r login) (fun w' res =>
    login_world_ok w' /\ (exists post, fresh w' = fresh w ++ post)
    /\ forall resp, res = Some (Ok resp) -> exists token code recaptcha, lp_login_token login = Some token
         /\ answered (fresh w') (login_url (lr_base_url r) MFA_LOGIN_PATH) (BodyMfa token code recaptcha) resp) w.
Proof.
  intros Ha Hw Hlogin.
  assert (Hret : forall e : McpError, lwp (lret (Some (Err e))) (fun w' res =>
    login_world_ok w' /\ (exists post, fresh w' = fresh w ++ post)
    /\ forall resp : LoginResponse, res = Some (Ok resp) -> exists token code recaptcha, lp_login_token login = Some token
         /\ answered (fresh w') (login_url (lr_base_url r) MFA_LOGIN_PATH) (BodyMfa token code recaptcha) resp) w).
  { intros e. split; [done|]. split; [exists []; by rewrite app_nil_r|done]. }
  unfold complete_mfa. destruct (lr_mfa_code r ≫= nonblank) as [code|]; [|apply Hret].
  destruct (lp_login_token login) as [token|] eqn:Et; [|apply Hret]. apply lwp_bind.
  eapply lwp_mono; [apply (post_step_spec _ (BodyMfa token code (lr_recaptcha_token r))); [done|]|].
  - exists (lr_base_url r), (lr_email r). split; [done|]. split; [done|]. by exists (lr_password r), login.
  - intros w' res (Hw' & (reply & Hl) & Hans). destruct res as [[resp|e]|]; [|split; [done|split; [by eexists|done]]..].
    unfold lwp, lret. cbn [fst snd]. split; [done|]. split; [by eexists|]. intros resp'. destruct (bool_decide _); [|done]. intros [= <-].
    exists token, code, (lr_recaptcha_token r). split; [done|]. by apply Hans.
Qed.

Lemma insert_ok w base email key : login_world_ok w -> account v c base email -> minted_ok (fresh w) base email key ->
  login_world_ok (session_insert base email key w).1.
Proof.
  intros Hw Ha Hm. destruct (fresh_snoc w (session_insert base email key w).1 _ Hw eq_refl) as [Hpre Hf]. destruct Hw as (_ & Hok & Hs).
  split_and!; [done|rewrite Hf; by apply all_ok_snoc|].
  - intros b e k. cbn [session_insert fst lw_log lw_sessions]. intros [[[= <- <-] <-]|[_ Hk]]%lookup_insert_Some; [set_solver|]. apply elem_of_app. left. by apply Hs.
Qed.

Lemma session_login_spec r w : account v c (lr_base_url r) (lr_email r) -> password_of v c (lr_email r) (lr_password r) -> login_world_ok w ->
  lwp (session_login auth_state_json login_json canonical_reason env r) (fun w' _ => login_world_ok w') w.
Proof.
  intros Ha Hp Hw. unfold session_login. apply lwp_bind. eapply lwp_mono; [by eapply check_auth_state_spec|]. intros w1 r1 Hw1.
  destruct r1 as [[_u|e]|]; [|exact Hw1..]. apply lwp_bind.
  eapply lwp_mono; [apply (post_step_spec _ (BodyLogin (lr_email r) (lr_password r))); [exact Hw1|]|].
  { exists (lr_base_url r), (lr_email r). done. }
  intros w2 r2 (Hw2 & _ & Hans). destruct r2 as [[login|e]|]; [|exact Hw2..]. specialize (Hans login eq_refl).
  assert (Hstore : forall w3 resp mfa_used, login_world_ok w3 -> (forall key, lp_session_key resp = Some key -> minted_ok (fresh w3) (lr_base_url r) (lr_email r) key) ->
    lwp (match lp_session_key resp with
         | None => lret (Some (Err (unexpected "NinjaOne login succeeded but returned no sessionKey" (Some (OString (default ""%string (lp_result_code resp)))))))
         | Some session_key =>
             lbind (session_insert (lr_base_url r) (lr_email r) session_key) (fun _ =>
             lret (Some (Ok {| lo_email := lr_email r; lo_session_key_preview := preview session_key; lo_mfa_used := mfa_used; lo_mfa_type := lp_mfa_type resp;
                               lo_division_uid := lp_division_uid resp; lo_app_user_uid := lp_app_user_uid resp; lo_user_type := lp_user_type resp |})))
         end) (fun w' _ => login_world_ok w') w3).
  { intros w3 resp mfa_used Hw3 Hm. destruct (lp_session_key resp) as [key|]; [|exact Hw3]. apply lwp_bind. unfold lwp at 1.
    exact (insert_ok w3 _ _ key Hw3 Ha (Hm key eq_refl)). }
  apply lwp_bind. destruct (lp_result_code login) as [code|]; [|exact Hw2]. destruct (String.eqb code "SUCCESS").
  - unfold lwp at 1, lret. cbn [fst snd]. apply Hstore; [exact Hw2|]. intros key Hk. exists (lr_password r), login. split; [done|by left].
  - destruct (String.eqb code "MFA_REQUIRED"); [|exact Hw2]. apply lwp_bind. eapply lwp_mono; [by eapply complete_mfa_spec|].
    intros w3 r3 (Hw3 & (post & Hl) & Hm). destruct r3 as [[resp|e]|]; [|exact Hw3..]. unfold lwp at 1, lret. cbn [fst snd]. apply Hstore; [exact Hw3|].
    intros key Hk. destruct (Hm resp eq_refl) as (token & code' & recaptcha & Ht & Hr). exists (lr_password r), login.
    split; [rewrite Hl; by apply login_answered_mono|]. right. by exists token, code', recaptcha, resp.
Qed.

(** A secret that was resolved is the configured text, or the keychain's where
    that says so or there is none. *)
Lemma secret_async_from joined k email raw label s : secret_async keychain joined k email raw label = Ok (Some s) ->
  match trim <$> raw with
  | Some text => if is_keychain_sentinel text then kc_get k "ninjaone" email keychain = Ok (Some s) else s = text
  | None => kc_get k "ninjaone" email keychain = Ok (Some s)
  end.
Proof.
  unfold secret_async, resolve_configured_secret. destruct raw as [value|]; cbn [fmap option_fmap option_map].
  - destruct (is_keychain_sentinel _).
    + destruct joined; [|done]. destruct (kc_get _ _ _ _) as [[s'|]|]; try done. destruct (str_is_empty s'); [done|]. by intros [= <-].
    + destruct (str_is_empty _); [done|]. destruct (is_reference _); [done|]. by intros [= <-].
  - destruct joined; [|done]. destruct (kc_get _ _ _ _) as [[s'|]|]; try done. destruct (str_is_empty s'); [done|]. by intros [= <-].
Qed.

(** The merge of an entry with the top-level settings. *)
Lemma login_config_spec v' c' l : login_config debug_text v' c' = Ok l ->
  exists entry, selected_entry v' c' = Ok entry
    /\ lc_email l = match sv_email entry with Some own => Some own | None => ninja_setting c' "NINJAONE_EMAIL" end
    /\ lc_password l = configured_password c' entry.
Proof.
  unfold login_config, configured_password. destruct (selected_entry v' c') as [entry|]; [|done]. exists entry. split; [done|].
  destruct (sv_password entry) as [p|], (sv_email entry) as [own|]; cbn in *;
    destruct (sv_totp_secret entry); cbn in *; simplify_eq; cbn; by split.
Qed.

Lemma ninja_login_spec code token w : login_world_ok w ->
  lwp (ninja_login debug_text keychain auth_state_json login_json canonical_reason parse_otp_url hmac env v c code token) (fun w' _ => login_world_ok w') w.
Proof.
  intros Hw. unfold ninja_login. apply lwp_bind. unfold lwp at 1, lret. cbn [fst snd]. destruct (ninja_base_url v c) as [base|e] eqn:Eb; [|exact Hw].
  apply lwp_bind. unfold lwp at 1. cbn [fst snd]. destruct (login_config debug_text v c) as [l|e] eqn:El; [|exact Hw].
  apply login_config_spec in El as (entry & Hentry & Hemail & Hpass). destruct (lc_email l) as [email|] eqn:Ee; [|exact Hw].
  apply lwp_bind. apply quiet_account; [apply silent_outside|]. intros w1 r1 Hq1. destruct r1 as [[joined|e]|]; [|by eapply quiet_ok..].
  apply lwp_bind. unfold lwp at 1. cbn [fst snd]. destruct (secret_async keychain joined Password email (lc_password l) (lc_password_label l)) as [[password|]|e] eqn:Es; [|by eapply quiet_ok..].
  apply lwp_bind. apply quiet_account; [apply silent_mfa|]. intros w2 r2 Hq2. assert (Hw2 : login_world_ok w2) by (eapply quiet_ok; [exact Hq2|]; by eapply quiet_ok).
  destruct r2 as [[mfa|e]|]; [|exact Hw2..]. apply session_login_spec; cbn [lr_base_url lr_email lr_password]; [| |exact Hw2].
  - split; [done|]. exists entry. split; [done|]. destruct (sv_email entry); congruence.
  - apply secret_async_from in Es. rewrite Hpass in Es. by exists entry.
Qed.
End Call.

(** *** Requests *)

Lemma quiet_kept w w' : quiet w w' -> kept w -> kept w'.
Proof. intros [Hs Hl] Hk base email key. rewrite Hs, Hl. apply Hk. Qed.

Lemma resolve_auth_spec v c w : kept w ->
  lwp (resolve_auth debug_text keychain env v c) (fun w' r =>
    kept w' /\ lw_log w' = lw_log w /\ forall auth, r = Some (Ok auth) -> session_use_ok (lw_log w) v c auth) w.
Proof.
  intros Hw.
  assert (Hstatic : forall joined keys auth, Forall (fun k => k.1 <> LoginSession) keys -> static_credentials keychain c joined keys = Ok (Some auth) -> ra_source auth <> LoginSession).
  { intros joined keys auth Hk. induction Hk as [|[source key] keys Hne _ IH]; [done|]. cbn.
    destruct (vendor_secret joined c keychain "ninjaone" key) as [[value|]|]; [|exact IH|done]. intros [= <-]. exact Hne. }
  unfold resolve_auth. apply lwp_bind. apply quiet_account; [apply silent_outside|]. intros w1 r1 [Hs1 Hl1].
  assert (Hw1 : kept w1) by by eapply quiet_kept. destruct r1 as [[joined|e]|]; [|done..].
  apply lwp_bind. unfold lwp at 1, lret. cbn [fst snd]. destruct (vendor_secret _ _ _ _ _) as [[token|]|e]; [| |done].
  { split; [done|]. split; [done|]. intros auth [= <-]. done. }
  assert (Hrest : lwp (lbind (outside (ln_joined env)) (fun joined => lbind (lret (Some (static_credentials keychain c joined STATIC_KEYS))) (fun auth =>
            lret (Some (match auth with Some a => Ok a | None => Err (missing_auth_error debug_text v c) end)))))
            (fun w' r => kept w' /\ lw_log w' = lw_log w /\ forall auth, r = Some (Ok auth) -> session_use_ok (lw_log w) v c auth) w1).
  { apply lwp_bind. apply quiet_account; [apply silent_outside|]. intros w2 r2 Hq2. assert (Hw2 : kept w2) by by eapply quiet_kept.
    assert (Hl2 : lw_log w2 = lw_log w) by (rewrite (proj2 Hq2); exact Hl1). destruct r2 as [[joined2|e]|]; [|done..].
    apply lwp_bind. unfold lwp at 1. cbn [fst snd]. destruct (static_credentials keychain c joined2 STATIC_KEYS) as [[auth|]|e] eqn:Es; [| |done].
    - split; [done|]. split; [done|]. intros a [= <-] Hsrc. exfalso. eapply (Hstatic joined2 STATIC_KEYS); [|exact Es|exact Hsrc].
      by repeat constructor.
    - split; [done|]. split; [done|]. done. }
  apply lwp_bind. unfold cached_session_key. destruct (principal debug_text v c) as [email|] eqn:Ep; [|exact Hrest].
  destruct (ninja_base_url v c) as [base|] eqn:Eb; [|exact Hrest]. unfold lwp at 1, session_get. cbn [fst snd].
  destruct (lw_sessions w1 !! (base, email)) as [key|] eqn:Ek; [|exact Hrest]. split; [done|]. split; [done|]. intros auth [= <-] _.
  exists base, email, key. split; [|split; [done|rewrite <- Hl1; by apply Hw1]].
  split; [done|]. unfold principal in Ep. destruct (login_config debug_text v c) as [l|] eqn:El; [|done]. cbn in Ep.
  apply login_config_spec in El as (entry & Hentry & Hemail & _). exists entry. split; [done|]. rewrite Hemail in Ep. destruct (sv_email entry); congruence.
Qed.

Lemma delete_ok w base email : kept w -> kept (session_invalidate base email w).1.
Proof. intros Hs b e k. cbn. intros [_ Hk]%lookup_delete_Some. by apply Hs. Qed.

(** A request sends at most once, with the credential it resolved. *)
Lemma request_spec v c auth (outcome : result unit McpError) w : kept w ->
  lwp (request_with debug_text v c auth outcome) (fun w' _ => kept w' /\
    (lw_log w' = lw_log w \/ exists base, ninja_base_url v c = Ok base /\ lw_log w' = lw_log w ++ [Dispatched base auth])) w.
Proof.
  intros Hw. unfold request_with, dispatch. apply lwp_catch, lwp_bind. unfold lwp at 1, lret. cbn [fst snd].
  assert (Hinv : forall w' e, kept w' -> lwp (if bool_decide (ra_source auth = LoginSession) && is_unauthorized e
            then lbind (invalidate_session debug_text v c) (fun _ => lret (Some (Err (session_expired e)))) else lret (Some (Err e)))
            (fun w'' (_ : option (result unit McpError)) => kept w'' /\ lw_log w'' = lw_log w') w').
  { intros w' e Hw'. destruct (_ && _); [|by split]. apply lwp_bind. unfold invalidate_session.
    destruct (ninja_base_url v c); [|by split]. destruct (principal debug_text v c); [|by split]. split; [by apply delete_ok|done]. }
  destruct (ninja_base_url v c) as [base|e] eqn:Eb.
  2:{ eapply lwp_mono; [by apply Hinv|]. intros w' r [? ?]. auto. }
  apply lwp_bind. unfold lwp at 1, log_event. cbn [fst snd].
  set (w1 := {| lw_step := lw_step w; lw_sessions := lw_sessions w; lw_log := lw_log w ++ [Dispatched base auth] |}).
  assert (Hw1 : kept w1) by (intros b e k Hk; apply elem_of_app; left; by apply Hw).
  unfold lwp at 1. cbn [fst snd]. destruct outcome as [u|e]; [by split; [|right; exists base]|].
  eapply lwp_mono; [by apply Hinv|]. intros w' r [? Hl]. split; [done|]. right. by exists base.
Qed.

(** *** Any run *)

Notation nstep := (ninja_step debug_text keychain auth_state_json login_json canonical_reason parse_otp_url hmac env).
Notation nrun := (ninja_run debug_text keychain auth_state_json login_json canonical_reason parse_otp_url hmac env).

(** What a step of a run adds to the log: [before] are the steps before it,
    [log] the log at their end and [pre] what the step added so far. *)
Definition step_event_ok (before : list NinjaStep) (s : NinjaStep) (log pre : list LoginEvent) (e : LoginEvent) : Prop :=
  match s, e with
  | StepLogin v c _ _, _ => login_event_ok v c pre e
  | StepRequest call _, Dispatched base auth =>
      exists v c, StepResolve call v c ∈ before /\ ninja_base_url v c = Ok base /\ session_use_ok log v c auth
  | _, _ => False
  end.

Definition ninja_run_ok (before : list NinjaStep) (r : NinjaRun) : Prop :=
  kept (nr_world r) /\ forall call v c auth, nr_pending r !! call = Some (v, c, auth) ->
    StepResolve call v c ∈ before /\ session_use_ok (lw_log (nr_world r)) v c auth.

Lemma session_use_mono log log' v c auth : session_use_ok log v c auth -> session_use_ok (log ++ log') v c auth.
Proof. intros Hu Hs. destruct (Hu Hs) as (base & email & key & ? & ? & ?). exists base, email, key. split_and!; [done..|set_solver]. Qed.

Lemma ninja_step_ok before s r : ninja_run_ok before r ->
  ninja_run_ok (before ++ [s]) (nstep s r)
  /\ exists new, lw_log (nr_world (nstep s r)) = lw_log (nr_world r) ++ new
      /\ forall pre e post, new = pre ++ e :: post -> step_event_ok before s (lw_log (nr_world r)) pre e.
Proof.
  intros [Hw Hp].
  assert (Hpend : forall log new, (forall call v c auth, nr_pending r !! call = Some (v, c, auth) -> session_use_ok log v c auth) ->
    forall call v c auth, nr_pending r !! call = Some (v, c, auth) -> StepResolve call v c ∈ before ++ [s] /\ session_use_ok (log ++ new) v c auth).
  { intros log new Hl call v c auth Hc. destruct (Hp _ _ _ _ Hc) as [Hin _]. split; [set_solver|]. by eapply session_use_mono, Hl. }
  destruct s as [v c code token|call v c|call outcome]; cbn [ninja_step].
  - destruct (ninja_login_spec v c (lw_log (nr_world r)) code token (nr_world r)) as ([new Hl] & Hok & Hk).
    { split_and!; [done| |done]. unfold fresh. rewrite drop_all. intros pre e post He. by destruct pre. }
    cbn [nr_world nr_pending]. rewrite Hl. unfold fresh in Hok. rewrite Hl, drop_app_length in Hok.
    split; [|by exists new]. split; [done|]. cbn [nr_world nr_pending]. rewrite Hl. apply Hpend. intros. by eapply Hp.
  - pose proof (resolve_auth_spec v c (nr_world r) Hw) as Hr. unfold lwp in Hr. destruct (resolve_auth debug_text keychain env v c (nr_world r)) as [w a].
    cbn [fst snd] in Hr. destruct Hr as (Hw' & Hl & Hauth). cbn [nr_world].
    split; [|exists []; rewrite app_nil_r; split; [done|by intros []]]. split; [done|]. cbn [nr_pending nr_world]. rewrite Hl, <- (app_nil_r (lw_log (nr_world r))).
    intros call' v' c' auth. destruct a as [[auth0|e]|]; [|by apply Hpend; intros; eapply Hp..].
    intros [[<- [= <- <- <-]]|[_ Hc]]%lookup_insert_Some; [split; [set_solver|rewrite app_nil_r; by apply Hauth]|].
    eapply Hpend; [|done]. intros. by eapply Hp.
  - destruct (nr_pending r !! call) as [[[v c] auth]|] eqn:Ec.
    2:{ split; [|exists []; rewrite app_nil_r; split; [done|by intros []]]. split; [done|]. rewrite <- (app_nil_r (lw_log _)). apply Hpend. intros. by eapply Hp. }
    destruct (Hp _ _ _ _ Ec) as [Hin Huse]. destruct (request_spec v c auth outcome (nr_world r) Hw) as (Hk & Hlog). cbn [nr_world nr_pending].
    assert (Hnew : exists new, lw_log (request_with debug_text v c auth outcome (nr_world r)).1 = lw_log (nr_world r) ++ new
      /\ (new = [] \/ exists base, ninja_base_url v c = Ok base /\ new = [Dispatched base auth])).
    { destruct Hlog as [->|(base & Hb & ->)]; [exists []; rewrite app_nil_r; auto|eexists; split; [done|]; eauto]. }
    destruct Hnew as (new & Hl & Hnew). rewrite Hl. split; [split; [done|]; cbn [nr_pending nr_world]; rewrite Hl|].
    + intros call' v' c' auth' [_ Hc]%lookup_delete_Some. eapply Hpend; [|done]. intros. by eapply Hp.
    + exists new. split; [done|]. intros pre e post He. destruct Hnew as [->|(base & Hb & ->)]; [by destruct pre|].
      destruct pre as [|x pre]; [|by destruct pre]. injection He as <- <-. exists v, c. by split_and!.
Qed.

Lemma ninja_run_snoc before s : nrun (before ++ [s]) = nstep s (nrun before).
Proof. unfold ninja_run. by rewrite foldl_app. Qed.

Lemma ninja_run_good before : ninja_run_ok before (nrun before).
Proof.
  induction before as [|s before IH] using rev_ind; [by split|]. rewrite ninja_run_snoc. by apply ninja_step_ok.
Qed.

(** C33: Console secrets stay with the account and the server they are for.  In any
    interleaving of logins and requests, for any servers and configurations,
    every step only adds to what is posted, minted and sent:
    a login posts to the server it was called for, as the account that
    server's entry names (or the top-level one), and the password it posts is
    the entry's own, else, only when the entry names no account, the
    top-level one, else that account's in the keychain; a login token goes
    back only to that console in the login it was handed out in; a key is kept
    under a base URL and an account only by a login of them in which the
    console handed it out; nothing else posts or keeps anything; and a
    request that carries a kept key goes to the server it resolved its
    credential for, with a key kept for that server's base URL and account. *)
Theorem ninja_secrets_confined before s :
  let r := nrun before in
  let r' := nrun (before ++ [s]) in
  (exists new, lw_log (nr_world r') = lw_log (nr_world r) ++ new
     /\ forall pre e post, new = pre ++ e :: post -> step_event_ok before s (lw_log (nr_world r)) pre e)
  /\ (forall base email key, lw_sessions (nr_world r') !! (base, email) = Some key -> Minted base email key ∈ lw_log (nr_world r')).
Proof.
  cbv zeta. rewrite ninja_run_snoc. destruct (ninja_step_ok before s _ (ninja_run_good before)) as [[Hk _] Hnew]. by split.
Qed.
End Kept.

(** ** Example runs *)

Module NinjaLoginWitness.
Import ToolCall.CallWitness.

Definition config : Config :=
  from_map {[ "NINJAONE_URL" := "https://a.io"; "NINJAONE_EMAIL" := "me"; "NINJAONE_PASSWORD" := "pw" ]}.
Definition vendor : NinjaOneVendor := {| nv_base_url_override := None; nv_server_alias := None |}.

(** The first login is answered with one key, a later one with another. *)
Definition env : LoginEnv :=
  {| ln_reply := fun n => LoginReplies 200 (if (n <? 5)%nat then "k1" else "k2"); ln_joined := fun _ => Ok tt;
     ln_command := fun _ _ => TimedOut; ln_clock := fun _ => None |}.
Definition login_json (text : string) : option LoginResponse :=
  Some {| lp_result_code := Some "SUCCESS"; lp_session_key := Some text; lp_login_token := None; lp_mfa_type := None; lp_division_uid := None;
          lp_app_user_uid := None; lp_user_type := None; lp_error_message := None |}.
Definition auth_state_json (_ : string) : option AuthStateResponse := Some {| as_auth_state := Some "NATIVE"; as_recaptcha_required := None |}.

Definition go (steps : list NinjaStep) : NinjaRun :=
  ninja_run (fun s => s) TheNoKeychain auth_state_json login_json (fun _ => None) (fun _ => Err "") (fun _ _ _ => None) env steps.

Definition refused : result unit McpError := Err (api_error "expired" (Some 401%N) None).
Definition before : list NinjaStep := [StepLogin vendor config None None; StepResolve 0 vendor config; StepLogin vendor config None None].

(** What the first login posts, and where. *)
Example login_posts :
  omap (fun e => match e with Posted url body _ => Some (url, body) | _ => None end) (lw_log (nr_world (go [StepLogin vendor config None None])))
  = [("https://a.io/ws/account/authentication-state", BodyAuthState "me"); ("https://a.io/ws/account/login", BodyLogin "me" "pw")].
Proof. vm_compute. reflexivity. Qed.

(** A request refused with an old key evicts the key of a login since. *)
Lemma refused_key_evicts_newer :
  (lw_sessions (nr_world (go before)) !! ("https://a.io", "me") = Some "k2")
  /\ last (lw_log (nr_world (go (before ++ [StepRequest 0 refused]))))
     = Some (Dispatched "https://a.io" {| ra_credentials := session_cookie_credentials "k1"; ra_source := LoginSession |})
  /\ lw_sessions (nr_world (go (before ++ [StepRequest 0 refused]))) !! ("https://a.io", "me") = None.
Proof. split; [vm_compute; reflexivity|]. split; vm_compute; reflexivity. Qed.
End NinjaLoginWitness.
